(* ===== verification/_CoqProject ===== *)
-Q . S2P
Prelude.v
Transport.v
Scheduler.v
Attempts.v
Recovery.v
ConnectionActor.v
Publication.v
ClientBatch.v
PublishBuffer.v
PublishBufferInv.v
PublishBufferSystem.v
DelayTopology.v
DelayRouting.v
TopologyPlan.v
ByteBudget.v
Publisher.v
PublisherInv.v
PublisherSystem.v
Delivery.v
Prefetch.v
Metrics.v
ConsumerActor.v
ConsumerInv.v
ConsumerBounds.v
ConsumerFifo.v
ConsumerSerial.v
ConsumerSystem.v
ConsumerCover.v
ConsumerRelease.v
ConsumerScenarios.v
ConsumerPump.v
ConsumerPumpSystem.v
ConsumerSet.v
Config.v
ConfigValid.v
ConfigFingerprint.v
RecoveryCoordinator.v
RecoveryCoordinatorInv.v
RecoveryCoordinatorSystem.v
Composite.v
CompositeSystem.v
PublishPump.v
PublishPumpSystem.v
RuntimeRegistry.v
RuntimeRegistryInv.v
RuntimeRegistrySystem.v
ClientPool.v
ClientPoolInv.v
ClientPoolSystem.v
ClientPoolConsumers.v
ClientPoolTheorems.v
PhpConversion.v
PhpConversionSpec.v
Lapin.v
LapinSpec.v
PhpDelivery.v
EventBridge.v
MockTransport.v
MockSpec.v
LapinChannel.v
TransportDouble.v
DeliveryObject.v
ConsumerQueries.v
MetricsRegistry.v
PhpPool.v
PhpAdmin.v
ConfigWire.v
Log.v
