(* ===== verification/Prelude.v ===== *)
(** * Rabbit RS: a verification development

    Rabbit RS is a RabbitMQ client core in Rust ([crates/rabbit-rs-core]) with a
    PHP extension on top ([crates/rabbit-rs-php]). A pool connects to brokers and
    reconciles their topology; publisher actors turn publications into confirmed
    wire writes across reconnections; consumer sets hand broker deliveries to the
    embedder in weighted-fair order and execute its settlements. This library
    models the core's own logic and proves what it promises.

    ** How the code is modelled

    An actor is a record of its state and one function per handler, with the
    early returns of the source. What the outside answers (the broker, the
    publisher a consumer releases through, the clock) is an argument of the
    function that asks. An actor's mailbox, its handle and its callers are the
    steps of a labelled system ([PublisherSystem.sys_step],
    [ConsumerSystem.sys_step]); [reach] is every interleaving of them, and the
    invariants are proved by induction on it. Tokio's [select!] order is one of
    these interleavings. Where threads race on atomics ([ByteBudget],
    [Delivery]) a step is one atomic access. Logs that the code does not keep
    (wire operations, tags received and finished, tokens handed out) are fields
    of the state, so that theorems can speak of the past.

    Machine integers are [Z] with the saturation or the checked conversion of
    the source written out; durations and instants are nanoseconds; [f64] is the
    IEEE-754 arithmetic of the Standard Library's [SpecFloat]. Strings are byte
    strings. [HashMap] is [gmap], [BTreeMap] is [gmap] with sorted traversal or a
    sorted association list, [VecDeque] is [list]. [Result] is [result], with
    [let?] for the question mark. SHA-256 (the sha2 crate) is a parameter; the
    theorems that need it assume at most that chosen digests differ.

    ** The files

    - [Prelude]: integers, durations, results, the hint database, list and map
      lemmas.
    - [Transport] ([transport.rs]): headers, errors, topology specifications,
      publications, deliveries.
    - [Scheduler] ([consumer/scheduler.rs]): smooth weighted round robin.
      Proportional sharing over a window and absence of starvation.
    - [Attempts] ([consumer/attempts.rs]): attempts of a delivery from its
      headers. Bounds, round trip through a delayed copy, the cap on releases.
    - [Recovery] ([recovery.rs]): reconnection backoff and jitter.
    - [ConnectionActor] ([pool/connection_actor.rs]): the actor of one broker
      connection, with the jitter drawn anew for every backoff. Every state it
      publishes follows a small lifecycle; it holds at most one connection and
      comes back after every recoverable loss.
    - [Publication] ([publisher/mod.rs]): requests, outcomes, configuration.
    - [ClientBatch] ([client.rs], publish_batch): a batch grouped by broker, the
      answers of its publishers, the error it reports.
    - [PublishBuffer] (PHP [classes/publish_buffer.rs], [classes/pool.rs]): the
      write-behind buffer of a PHP pool; the PHP thread, timers and drains step
      concurrently. [PublishBufferInv]: its invariant. [PublishBufferSystem]: every
      publication is buffered, in a drain, answered or counted as dropped; a
      destroyed pool accounts for all of them; bounds; timers flush.
    - [DelayTopology] ([topology/delay.rs]): TTL buckets, synthesized queues,
      stable names, the garbage-collection sweep.
    - [DelayRouting] ([publisher/delay.rs]): routing of delayed publications and
      the lazy declaration of what they need.
    - [TopologyPlan] ([topology/plan.rs], [topology/reconciler.rs]): the plan of a
      configuration, its consistency, its application once per generation.
    - [ByteBudget] ([publisher/mod.rs]): the lock-free byte budget; its
      compare-and-swap loops refine atomic reservations.
    - [Publisher] ([publisher/actor.rs]): the publisher actor's state and handlers.
      [PublisherInv]: its invariant, kept by every handler. [PublisherSystem]: the
      actor with its handle and mailbox, and the bytes of blind publications. Every
      accepted publication is held in exactly one place or answered exactly once;
      answers are backed by what the broker said; permits and bytes are exact, those
      of blind publications included; replays are identical; nothing is stranded; a
      stopped actor has answered everything.
    - [Delivery] ([consumer/delivery.rs]): settlement tokens; settlements that race
      with each other and with the stores of the actor.
    - [Prefetch] ([consumer/prefetch.rs]): the adaptive prefetch controller.
    - [Metrics] ([metrics.rs]): the latency histogram. Concurrent recorders lose
      nothing; percentiles.
    - [ConsumerActor] ([consumer/actor.rs]): the consumer actor's state and every
      operation. [ConsumerInv]: the acknowledgement invariant. [ConsumerBounds]:
      capacities of counters and queues, and the dispatch loop stops.
      [ConsumerFifo]: the path of a delivery. [ConsumerSerial]: one settlement at a
      time per channel. [ConsumerSystem] ([consumer/set.rs]): the actor with its
      handle; the theorems on reachable states. [ConsumerCover]: what a cumulative
      acknowledgement covers was, before it went out, acknowledged by the embedder
      or settled by an operation of its own. [ConsumerRelease]: the step that ends a
      delayed release, where consumer, publisher routing and attempts meet: on which
      answers there is a copy, the original, both or neither.
      [ConsumerScenarios]: runs that show surprising behaviour.
    - [ConsumerPump] ([consumer/set.rs]): the configuration of the channels and the
      pump of a subscription. [ConsumerPumpSystem]: deliveries are forwarded once and
      in order across resizes, the cancel and register cycle, the window asked for is
      applied, a stopped pump has said why. [ConsumerSet]: the actor with its pumps;
      it refines [ConsumerSystem], with the broker's numbering as the only assumption.
    - [Config] ([config.rs]): validation, canonical form, fingerprint, synthesized
      profiles. [ConfigValid]: validation accepts exactly the configurations
      without a problem and names the path of one otherwise; what a validated
      configuration satisfies; the order of lists does not matter.
      [ConfigFingerprint]: the hashed text determines the configuration up to what
      it leaves out and rounds, for configurations inside the limits that the file
      lists.
    - [RecoveryCoordinator] ([pool/recovery_coordinator.rs], with the registry of
      requested profiles of [client.rs]): the coordinator task and concurrent
      [consumer] calls over shared state and three locks.
      [RecoveryCoordinatorInv]: rely-guarantee invariant.
      [RecoveryCoordinatorSystem]: topology before publisher and consumers, only
      requested profiles, never two sets of a profile, no deadlock, permanent
      failures kept through the connection actor to the publisher, the keep-alive.
    - [Composite] ([consumer/composite.rs], PHP [classes/consumer.rs]): several
      consumer sets as one consumer, over an interface of sources.
      [CompositeSystem]: no delivery is lost or attributed to another source, a
      replaced source is signalled once, no source starves another; the set handle
      is an instance of the interface.
    - [PublishPump] ([publisher/pump.rs]): the pipeline of blind publications.
      [PublishPumpSystem]: flush barriers are truthful, jobs and bytes are
      accounted, publications keep their order, the pump drains.
    - [RuntimeRegistry] ([runtime.rs], [pool/mod.rs], the claims of PHP
      [classes/pool.rs]): the registry of pools of a process, with threads and forks.
      [RuntimeRegistryInv]: its invariant. [RuntimeRegistrySystem]: claims are exact,
      the registry is bounded, evictions take unclaimed pools, processes share
      nothing across a fork, a pool survives the close of its siblings.
    - [ClientPool] ([client.rs]): lifecycle, caches and initializer locks of the
      client, its calls as interleaved tasks, [close], the administration calls.
      [ClientPoolInv]: the protocol of one cache, for all three.
      [ClientPoolSystem]: the coordinators. [ClientPoolConsumers]: publishers and
      composed consumers. [ClientPoolTheorems]: one coordinator and one publisher
      per broker, nothing left open by [close], no deadlock, only current consumers
      served, [clear_route] purges every bucket.
    - [PhpConversion] (PHP [conversion.rs]): PHP arrays to configurations and
      publications. [PhpConversionSpec]: exactly the finite trees of at most 64
      levels are accepted, accepted batches keep to their limits and are routable,
      errors name their place.
    - [Lapin] ([transport/lapin.rs]): what the adapter to the lapin crate decides.
      [LapinSpec]: headers and attempts survive the wire, the time to live and the
      expiry of bucket queues with respect to the keep-alive, errors are classified,
      channel errors stay with their channel, endpoints are tried in order.
    - [PhpDelivery] (PHP [classes/delivery.rs], [classes/consumer.rs]): the settling
      methods of delivery objects over the consumer system, and headers as PHP
      arrays. The answers of the methods are exact; scalar headers can be published
      again.
    - [EventBridge] (PHP [classes/bridge.rs], [callbacks.rs]): callbacks and drains that
      may nest. Every change is reported once; drains that do not nest keep the order.
    - [MockTransport] ([transport/mock.rs]): the scripted transport, its calls as
      interleaved critical sections. [MockSpec]: deliveries are conserved and keep
      their order; a lone stream never sleeps through one, two streams can.
    - [LapinChannel] ([transport/lapin.rs]): the AMQP methods that the calls of
      connections and channels send, over any broker. [TransportDouble]: what a call
      sends, and the scripted transport as a replay of the kinds of answers it was
      loaded with.
    - [DeliveryObject] ([consumer/delivery.rs]): construction and debug output of
      deliveries, and the job latency that the prefetch controller is told.
    - [ConsumerQueries] ([consumer/actor.rs], [consumer/set.rs],
      [consumer/composite.rs], PHP [classes/consumer.rs]): prefetch reports, settlement
      errors, settlement of everything up to a delivery.
    - [MetricsRegistry] ([metrics.rs]): counters, gauges and histograms under
      interleaved atomic accesses; every counter and histogram against a table of the
      calls it is meant for.
    - [PhpPool] (PHP [classes/pool.rs]): the guard of every call, [publishBatch] with
      the exceptions of callbacks, the queue calls, [stats]. [PhpAdmin]: the
      administration calls, [clear] and the probe included, from PHP to the wire.
    - [ConfigWire] ([config.rs]): defaults and hand-written deserialization.
    - [Log] ([log.rs]): the sink that is installed once.

    ** Loops and fuel

    The only loop of the source without a structural bound is the consumer's
    dispatch loop; its model runs with fuel [S (stock s)] and
    [ConsumerSystem.dispatch_stops] shows that more fuel changes nothing. The
    other loops run over the queue they drain. [TransportDouble.perform] runs a call
    of the scripted transport to its end; no call has more than four critical
    sections, and [TransportDouble.mock_call_loaded] shows that every call on a
    loaded script ends within them.

    ** Assumptions

    The broker numbers the deliveries of a channel upwards (AMQP 0-9-1); this is
    the guard of [LIncoming], and of the broker's deliveries in [ConsumerSet]. A
    spawned fire-and-forget channel operation runs at any later time. Tokio's
    [Notify], channels and locks behave as documented. The counters that the actors
    keep for themselves do not overflow; those of the metrics wrap around, as in the
    source.

    ** Not modelled

    Network I/O: the lapin, url and sha2 crates are parameters, and what a broker does
    with a method is any function. Code that serde derives, that is the parsing of
    the plain sections of a configuration. Texts of errors that nothing looks at. The
    test harnesses in the sources ([testing.rs], [publish_buffer_state_machine.rs], the
    test modules). Module startup, the registration of the PHP classes and the copying
    of plain fields in the PHP bindings. *)

From stdpp Require Export base list gmap strings numbers.
From stdpp Require Export sorting.

#[global] Set Default Goal Selector "!".

(** ** Machine-width integers

    Unsigned integers are [Z] kept inside their range by the operations the
    source uses: saturating arithmetic and fallible conversions. *)

Declare Scope rabbit_scope.
Delimit Scope rabbit_scope with rabbit.

Definition U16_MAX : Z := 2 ^ 16 - 1.
Definition U32_MAX : Z := 2 ^ 32 - 1.
Definition U64_MAX : Z := 2 ^ 64 - 1.
Definition I64_MAX : Z := 2 ^ 63 - 1.
Definition I64_MIN : Z := - 2 ^ 63.

(** [saturating_add] of an unsigned type whose largest value is [hi]. *)
Definition sat_add (hi a b : Z) : Z := Z.min (a + b) hi.

(** [saturating_sub] of an unsigned type. *)
Definition sat_sub (a b : Z) : Z := Z.max 0 (a - b).

(** [T::try_from(v).ok()] for an unsigned [T] whose largest value is [hi]. *)
Definition try_from (hi v : Z) : option Z :=
  if (0 <=? v)%Z && (v <=? hi)%Z then Some v else None.

(** ** Durations

    A [Duration] is its total number of nanoseconds; the largest one is
    [u64::MAX] seconds and 999,999,999 nanoseconds. *)

Definition NANOS_PER_SEC : Z := 1000000000.
Definition NANOS_PER_MILLI : Z := 1000000.
Definition DURATION_MAX : Z := U64_MAX * NANOS_PER_SEC + 999999999.
Definition Duration_ZERO : Z := 0.
Definition from_secs (s : Z) : Z := s * NANOS_PER_SEC.
Definition from_millis (ms : Z) : Z := ms * NANOS_PER_MILLI.
Definition as_millis (d : Z) : Z := d / NANOS_PER_MILLI.
Definition duration_saturating_add (a b : Z) : Z := sat_add DURATION_MAX a b.
Definition duration_saturating_mul (d k : Z) : Z := Z.min (d * k) DURATION_MAX.

(** [Duration * u32]: panics on overflow. *)
Definition duration_mul (d k : Z) : option Z :=
  if (d * k <=? DURATION_MAX)%Z then Some (d * k)%Z else None.

(** ** Fallible computations *)

Inductive result (A E : Type) : Type :=
| Ok (a : A)
| Err (e : E).
Arguments Ok {A E} a.
Arguments Err {A E} e.

#[global] Instance result_eq_dec {A E} `{EqDecision A, EqDecision E} :
  EqDecision (result A E).
Proof. solve_decision. Defined.

Definition is_ok {A E} (r : result A E) : bool :=
  match r with Ok _ => true | Err _ => false end.

(** [?] of the source: run the continuation on success, return the error. *)
Notation "'let?' x ':=' c 'in' k" :=
  (match c with Ok x => k | Err e => Err e end)
  (at level 10, x pattern, c at level 100, k at level 200) : rabbit_scope.

(** [Option::ok_or]. *)
Definition ok_or {A E} (o : option A) (e : E) : result A E :=
  match o with Some a => Ok a | None => Err e end.

Definition map_err {A E F} (f : E -> F) (r : result A E) : result A F :=
  match r with Ok a => Ok a | Err e => Err (f e) end.

(** ** Strings *)

Lemma string_app_assoc (s1 s2 s3 : string) : (s1 +:+ s2) +:+ s3 = s1 +:+ s2 +:+ s3.
Proof.
  induction s1 as [|a s1 IH]; [done|].
  change (String a ((s1 +:+ s2) +:+ s3) = String a (s1 +:+ s2 +:+ s3)). by rewrite IH.
Qed.

(** ** Sums and stable sorting *)

Definition sumZ {A} (f : A -> Z) (l : list A) : Z :=
  foldr (fun a acc => (f a + acc)%Z) 0%Z l.
Arguments sumZ : simpl never.

Fixpoint insert_by_key {A} (key : A -> Z) (x : A) (l : list A) : list A :=
  match l with
  | [] => [x]
  | y :: l' => if (key x <=? key y)%Z then x :: y :: l' else y :: insert_by_key key x l'
  end.

(** [slice::sort_by_key]: the stable sort of the standard library. *)
Definition sort_by_key {A} (key : A -> Z) (l : list A) : list A :=
  foldr (insert_by_key key) [] l.

(** ** Tactics and hints *)

Create HintDb rabbit.

(** Case analysis on every scrutinee left in the goal, boolean comparisons
    of [Z] turned into propositions. *)
Ltac zbool :=
  repeat match goal with
  | H : (_ && _)%bool = true |- _ => apply andb_true_iff in H; destruct H
  | H : (_ || _)%bool = false |- _ => apply orb_false_iff in H; destruct H
  | H : negb _ = true |- _ => apply negb_true_iff in H
  | H : negb _ = false |- _ => apply negb_false_iff in H
  | H : (_ <=? _)%Z = true |- _ => apply Z.leb_le in H
  | H : (_ <=? _)%Z = false |- _ => apply Z.leb_gt in H
  | H : (_ <? _)%Z = true |- _ => apply Z.ltb_lt in H
  | H : (_ <? _)%Z = false |- _ => apply Z.ltb_ge in H
  | H : (_ =? _)%Z = true |- _ => apply Z.eqb_eq in H
  | H : (_ =? _)%Z = false |- _ => apply Z.eqb_neq in H
  end.

Ltac split_match :=
  match goal with
  | |- context [match ?x with _ => _ end] => destruct x eqn:?
  end.

Ltac split_match_in H :=
  match type of H with
  | context [match ?x with _ => _ end] => destruct x eqn:?
  end.

(** ** Generic lemmas *)

Section Arith.
Local Open Scope Z_scope.

Lemma sat_add_le hi a b : sat_add hi a b <= hi.
Proof. unfold sat_add; lia. Qed.

Lemma sat_add_exact hi a b : a + b <= hi -> sat_add hi a b = a + b.
Proof. unfold sat_add; lia. Qed.

Lemma sat_sub_exact a b : b <= a -> sat_sub a b = a - b.
Proof. unfold sat_sub; lia. Qed.

Lemma try_from_Some hi v w : try_from hi v = Some w <-> v = w /\ 0 <= v <= hi.
Proof.
  unfold try_from. destruct ((0 <=? v) && (v <=? hi))%bool eqn:E.
  - zbool. split; [intros [=]; lia | intros [-> _]; done].
  - apply andb_false_iff in E. split; [done|].
    intros (_ & H1 & H2). apply Z.leb_le in H1, H2. rewrite H1, H2 in E. by destruct E.
Qed.

End Arith.

Section Sums.
Context {A : Type}.
Local Open Scope Z_scope.
Implicit Types (f g : A -> Z) (l : list A).

Lemma sumZ_app f l1 l2 : sumZ f (l1 ++ l2) = sumZ f l1 + sumZ f l2.
Proof. induction l1 as [|x l1 IH]; [done|]. unfold sumZ in *; simpl; lia. Qed.

Lemma sumZ_cons f x l : sumZ f (x :: l) = f x + sumZ f l.
Proof. done. Qed.

Lemma sumZ_nil f : sumZ f [] = 0.
Proof. done. Qed.

Lemma sumZ_perm f l1 l2 : l1 ≡ₚ l2 -> sumZ f l1 = sumZ f l2.
Proof. induction 1; rewrite ?sumZ_cons in *; lia. Qed.

Lemma sumZ_nonneg f l : Forall (fun x => 0 <= f x) l -> 0 <= sumZ f l.
Proof. induction 1; rewrite ?sumZ_nil, ?sumZ_cons; lia. Qed.

Lemma sumZ_ext f g l : Forall (fun x => f x = g x) l -> sumZ f l = sumZ g l.
Proof. induction 1; rewrite ?sumZ_nil, ?sumZ_cons; lia. Qed.

Lemma sumZ_le f g l : Forall (fun x => f x <= g x) l -> sumZ f l <= sumZ g l.
Proof. induction 1; rewrite ?sumZ_nil, ?sumZ_cons; lia. Qed.

Lemma sumZ_const c l : sumZ (fun _ => c) l = c * Z.of_nat (length l).
Proof. induction l as [|x l IH]; [unfold sumZ; simpl; lia|]. rewrite sumZ_cons, IH; simpl length; lia. Qed.

Lemma sumZ_plus f g l : sumZ (fun x => f x + g x) l = sumZ f l + sumZ g l.
Proof. induction l as [|x l IH]; [done|]. rewrite !sumZ_cons, IH; lia. Qed.

Lemma sumZ_insert f l i x y : l !! i = Some x -> sumZ f (<[i := y]> l) = sumZ f l - f x + f y.
Proof.
  intros Hi. rewrite insert_take_drop by (by eapply lookup_lt_Some). rewrite <- (take_drop_middle l i x Hi) at 3.
  rewrite !sumZ_app, !sumZ_cons. lia.
Qed.

Lemma sumZ_all_zero f l : (forall x, x ∈ l -> f x = 0) -> sumZ f l = 0.
Proof. intros Hf. rewrite (sumZ_ext f (fun _ => 0)) by (apply Forall_forall; exact Hf). rewrite sumZ_const. lia. Qed.

Lemma sumZ_elem_le f l x :
  Forall (fun y => 0 <= f y) l -> x ∈ l -> f x <= sumZ f l.
Proof.
  intros Hl Hx. induction Hl as [|y l Hy Hl IH]; [by apply elem_of_nil in Hx|].
  rewrite sumZ_cons. apply elem_of_cons in Hx as [->|Hx].
  - pose proof (sumZ_nonneg f l Hl). lia.
  - specialize (IH Hx). lia.
Qed.

Lemma sumZ_zero_all f l :
  Forall (fun y => 0 <= f y) l -> sumZ f l = 0 -> Forall (fun y => f y = 0) l.
Proof.
  intros Hl H0. apply Forall_forall. intros x Hx.
  pose proof (sumZ_elem_le f l x Hl Hx). rewrite Forall_forall in Hl. specialize (Hl x Hx).
  simpl in Hl. lia.
Qed.

Lemma sumZ_fmap {B} (h : B -> A) (f : A -> Z) (l : list B) :
  sumZ f (h <$> l) = sumZ (fun x => f (h x)) l.
Proof. induction l as [|x l IH]; [done|]. by rewrite fmap_cons, !sumZ_cons, IH. Qed.

End Sums.

Section Log.
Context {A : Type} (P : list A -> A -> Prop).

(** Every entry is justified by the entries before it. *)
Definition justified (l : list A) : Prop := forall pre a post, l = pre ++ a :: post -> P pre a.

Lemma justified_nil : justified [].
Proof. intros pre a post E. by destruct pre. Qed.

Lemma justified_snoc l a : justified l -> P l a -> justified (l ++ [a]).
Proof.
  intros Hl Ha pre x post E. destruct post as [|y post _] using rev_ind.
  - by apply app_inj_tail in E as [<- <-].
  - rewrite app_comm_cons, app_assoc in E. apply app_inj_tail in E as [-> _]. by eapply Hl.
Qed.

End Log.

Section StableSort.
Context {A : Type} (key : A -> Z).
Implicit Types l : list A.

Definition key_le (x y : A) : Prop := (key x <= key y)%Z.

Lemma insert_by_key_perm x l : insert_by_key key x l ≡ₚ x :: l.
Proof.
  induction l as [|y l IH]; simpl; [done|]. split_match; [done|].
  rewrite IH. by constructor.
Qed.

Lemma sort_by_key_perm l : sort_by_key key l ≡ₚ l.
Proof.
  induction l as [|x l IH]; [done|].
  change (insert_by_key key x (sort_by_key key l) ≡ₚ x :: l).
  by rewrite insert_by_key_perm, IH.
Qed.

Lemma insert_by_key_sorted x l :
  StronglySorted key_le l -> StronglySorted key_le (insert_by_key key x l).
Proof.
  induction 1 as [|y l Hs IH Hy]; simpl.
  - by repeat constructor.
  - split_match; zbool.
    + constructor; [by constructor|]. constructor; [done|].
      eapply Forall_impl; [exact Hy|]. unfold key_le; intros; simpl in *; lia.
    + constructor; [done|]. rewrite insert_by_key_perm.
      constructor; [unfold key_le; lia|done].
Qed.

Lemma sort_by_key_sorted l : StronglySorted key_le (sort_by_key key l).
Proof. induction l as [|x l IH]; [constructor|]. by apply insert_by_key_sorted. Qed.

Lemma insert_by_key_filter k x l :
  StronglySorted key_le l ->
  filter (fun y => key y = k) (insert_by_key key x l) =
  filter (fun y => key y = k) (x :: l).
Proof.
  induction 1 as [|y l Hs IH Hy]; [done|]. simpl insert_by_key. split_match; [done|zbool].
  rewrite filter_cons, IH. rewrite !filter_cons. repeat case_decide; try done. lia.
Qed.

(** Stability: the elements of one key keep their relative order. *)
Lemma sort_by_key_stable k l :
  filter (fun y => key y = k) (sort_by_key key l) = filter (fun y => key y = k) l.
Proof.
  induction l as [|x l IH]; [done|].
  change (sort_by_key key (x :: l)) with (insert_by_key key x (sort_by_key key l)).
  rewrite insert_by_key_filter by apply sort_by_key_sorted.
  rewrite !filter_cons, IH. done.
Qed.

Lemma filter_key_empty k l :
  Forall (fun y => k < key y)%Z l -> filter (fun y => key y = k) l = [].
Proof.
  induction 1 as [|y l Hy _ IH]; [done|]. rewrite filter_cons, IH. case_decide; [lia|done].
Qed.

(** A key-sorted list is determined by its per-key subsequences. *)
Lemma sorted_filter_unique l1 l2 :
  StronglySorted key_le l1 -> StronglySorted key_le l2 ->
  (forall k, filter (fun y => key y = k) l1 = filter (fun y => key y = k) l2) ->
  l1 = l2.
Proof.
  intros H1. revert l2. induction H1 as [|x l1 Hs1 IH Hx]; intros l2 H2 Hf.
  - destruct l2 as [|y l2]; [done|]. specialize (Hf (key y)).
    rewrite filter_cons in Hf. by case_decide.
  - destruct H2 as [|y l2 Hs2 Hy].
    { specialize (Hf (key x)). rewrite filter_cons in Hf. by case_decide. }
    assert (key x = key y) as Hk.
    { destruct (Z.lt_trichotomy (key x) (key y)) as [Hlt|[Heq|Hgt]]; [|done|].
      - specialize (Hf (key x)). rewrite filter_cons in Hf. rewrite decide_True in Hf by done.
        rewrite (filter_key_empty (key x) (y :: l2)) in Hf; [done|]. constructor; [done|].
        eapply Forall_impl; [exact Hy|]. unfold key_le; intros; simpl in *; lia.
      - specialize (Hf (key y)). symmetry in Hf. rewrite filter_cons in Hf.
        rewrite decide_True in Hf by done.
        rewrite (filter_key_empty (key y) (x :: l1)) in Hf; [done|]. constructor; [lia|].
        eapply Forall_impl; [exact Hx|]. unfold key_le; intros; simpl in *; lia. }
    assert (x = y) as ->.
    { specialize (Hf (key x)). rewrite !filter_cons in Hf.
      rewrite !decide_True in Hf by done. by injection Hf. }
    f_equal. apply IH; [done|]. intros k. specialize (Hf k). rewrite !filter_cons in Hf.
    case_decide as Hd; [by injection Hf|]. done.
Qed.

(** Sorting does not depend on the order in which elements of pairwise
    distinct keys are presented. *)
Lemma NoDup_key_filter_perm k l1 l2 :
  NoDup (key <$> l1) -> l1 ≡ₚ l2 ->
  filter (fun y => key y = k) l1 = filter (fun y => key y = k) l2.
Proof.
  intros Hnd Hp.
  assert (filter (fun y => key y = k) l1 ≡ₚ filter (fun y => key y = k) l2) as Hpf.
  { by rewrite Hp. }
  assert (length (filter (fun y => key y = k) l1) <= 1)%nat as Hlen.
  { clear Hp Hpf l2. induction l1 as [|x l1 IH]; [simpl; lia|].
    rewrite fmap_cons in Hnd. apply NoDup_cons in Hnd as [Hx Hnd]. rewrite filter_cons.
    case_decide; [|by apply IH]. cbn [length].
    assert (filter (fun y => key y = k) l1 = []) as ->; [|simpl; lia].
    destruct (filter _ l1) as [|z zs] eqn:E; [done|].
    exfalso. apply Hx. assert (z ∈ filter (fun y => key y = k) l1) as Hz.
    { rewrite E. by left. }
    apply list_elem_of_filter in Hz as [Hk Hz]. apply list_elem_of_fmap. exists z.
    split; [congruence|done]. }
  destruct (filter _ l1) as [|x [|y zs]] eqn:E; simpl in Hlen; [| |lia].
  - by apply Permutation_nil_l.
  - by apply Permutation_singleton_l.
Qed.

Lemma sort_by_key_presentation l l1 l2 :
  NoDup (key <$> l1) -> l1 ≡ₚ l2 ->
  sort_by_key key (l ++ l1) = sort_by_key key (l ++ l2).
Proof.
  intros Hnd Hp. apply sorted_filter_unique; [apply sort_by_key_sorted..|].
  intros k. rewrite !sort_by_key_stable, !filter_app.
  by rewrite (NoDup_key_filter_perm k l1 l2).
Qed.

End StableSort.

(** Strict order of a sorted list with distinct keys. *)
Lemma sorted_strict {A} (key : A -> Z) (l : list A) :
  StronglySorted (key_le key) l -> NoDup (key <$> l) ->
  StronglySorted (fun x y => key x < key y)%Z l.
Proof.
  induction 1 as [|x l Hs IH Hx]; intros Hnd; [constructor|].
  rewrite fmap_cons in Hnd. apply NoDup_cons in Hnd as [Hin Hnd]. constructor; [by apply IH|].
  rewrite Forall_forall in *. intros y Hy. specialize (Hx y Hy). unfold key_le in Hx.
  assert (key x <> key y); [|lia]. intros E. apply Hin, list_elem_of_fmap. by exists y.
Qed.

Lemma sorted_app_lt {A} (R : A -> A -> Prop) (l1 l2 : list A) x y :
  StronglySorted R (l1 ++ l2) -> x ∈ l1 -> y ∈ l2 -> R x y.
Proof.
  induction l1 as [|z l1 IH]; intros Hs Hx Hy; [by apply elem_of_nil in Hx|].
  apply StronglySorted_inv in Hs as [Hs Hz].
  apply elem_of_cons in Hx as [->|Hx]; [|by apply IH].
  rewrite Forall_forall in Hz. apply Hz, elem_of_app. by right.
Qed.

(** ** Filtering *)

Lemma sorted_filter {A} (R : A -> A -> Prop) (P : A -> Prop) `{forall x, Decision (P x)} (l : list A) :
  StronglySorted R l -> StronglySorted R (filter P l).
Proof.
  induction 1 as [|x l Hs IH Hx]; [constructor|]. rewrite filter_cons. case_decide; [|done].
  constructor; [done|]. rewrite Forall_forall in *. intros y [_ Hy]%list_elem_of_filter. by apply Hx.
Qed.

Lemma filter_all {A} (P : A -> Prop) `{forall x, Decision (P x)} l :
  Forall P l -> filter P l = l.
Proof.
  induction 1 as [|x l Hx _ IH]; [done|]. by rewrite filter_cons, decide_True, IH by done.
Qed.

Lemma filter_none {A} (P : A -> Prop) `{forall x, Decision (P x)} l :
  Forall (fun x => ~ P x) l -> filter P l = [].
Proof.
  induction 1 as [|x l Hx _ IH]; [done|]. by rewrite filter_cons, decide_False, IH by done.
Qed.

(** Dropping the only occurrence of an element. *)
Lemma remove_once {A} `{EqDecision A} (x : A) l :
  NoDup l -> x ∈ l -> filter (fun y => y <> x) l ++ [x] ≡ₚ l.
Proof.
  intros Hnd Hx. induction Hnd as [|y l Hy Hnd IH]; [by apply elem_of_nil in Hx|].
  rewrite filter_cons. case_decide as Hd.
  - simpl. constructor. apply IH. apply elem_of_cons in Hx as [->|Hx]; done.
  - assert (y = x) as -> by (destruct (decide (y = x)); [done|tauto]).
    rewrite filter_all; [by rewrite Permutation_app_comm|].
    apply Forall_forall. by intros z Hz ->.
Qed.

(** An association list without duplicate keys is a function. *)
Lemma NoDup_fst_functional {A B} (l : list (A * B)) x y y' :
  NoDup l.*1 -> (x, y) ∈ l -> (x, y') ∈ l -> y = y'.
Proof.
  intros Hnd [i Hi]%list_elem_of_lookup [j Hj]%list_elem_of_lookup.
  assert (i = j) as ->; [|congruence].
  eapply NoDup_lookup; [exact Hnd| |]; rewrite list_lookup_fmap; [by rewrite Hi|by rewrite Hj].
Qed.

(** ** Values of a finite map *)

(** Sums over the values of a map. *)
Definition sum_map `{Countable K} {A} (f : A -> Z) (m : gmap K A) : Z := sumZ (fun x => f x.2) (map_to_list m).

Section MapSums.
Context `{Countable K} {A : Type} (f : A -> Z).
Implicit Types (m : gmap K A) (k : K) (x : A).
Local Open Scope Z_scope.

Lemma sum_map_empty : sum_map f (∅ : gmap K A) = 0.
Proof. unfold sum_map. by rewrite map_to_list_empty. Qed.

Lemma sum_map_insert_new m k x : m !! k = None -> sum_map f (<[k := x]> m) = f x + sum_map f m.
Proof. intros Hk. unfold sum_map. by rewrite (sumZ_perm _ _ _ (map_to_list_insert m k x Hk)), sumZ_cons. Qed.

Lemma sum_map_delete m k x : m !! k = Some x -> sum_map f m = f x + sum_map f (delete k m).
Proof. intros Hk. rewrite <- (insert_delete_id m k x Hk) at 1. by rewrite sum_map_insert_new by apply lookup_delete_eq. Qed.

Lemma sum_map_insert m k x y : m !! k = Some y -> sum_map f (<[k := x]> m) = f x - f y + sum_map f m.
Proof.
  intros Hk. rewrite (sum_map_delete m k y Hk), <- insert_delete_eq, sum_map_insert_new by apply lookup_delete_eq. lia.
Qed.

Lemma sum_map_nonneg m : (forall x, 0 <= f x) -> 0 <= sum_map f m.
Proof. intros Hf. apply sumZ_nonneg, Forall_forall. auto. Qed.

Lemma sum_map_le m k x : (forall x, 0 <= f x) -> m !! k = Some x -> f x <= sum_map f m.
Proof. intros Hf Hk. rewrite (sum_map_delete m k x Hk). pose proof (sum_map_nonneg (delete k m) Hf). lia. Qed.

End MapSums.

Section MapValues.
Context {K V : Type} `{Countable K}.
Implicit Types m : gmap K V.

Lemma values_insert m n x :
  m !! n = None -> (map_to_list (<[n := x]> m)).*2 ≡ₚ x :: (map_to_list m).*2.
Proof. intros Hm. by rewrite map_to_list_insert. Qed.

Lemma values_delete m n x :
  m !! n = Some x -> x :: (map_to_list (delete n m)).*2 ≡ₚ (map_to_list m).*2.
Proof. intros Hm. by rewrite <- (map_to_list_delete m n x Hm). Qed.

Lemma keys_insert m n x :
  m !! n = None -> (map_to_list (<[n := x]> m)).*1 ≡ₚ n :: (map_to_list m).*1.
Proof. intros Hm. by rewrite map_to_list_insert. Qed.

Lemma keys_delete m n x :
  m !! n = Some x -> n :: (map_to_list (delete n m)).*1 ≡ₚ (map_to_list m).*1.
Proof. intros Hm. by rewrite <- (map_to_list_delete m n x Hm). Qed.

Lemma keys_elem m n : n ∈ (map_to_list m).*1 <-> is_Some (m !! n).
Proof.
  rewrite list_elem_of_fmap. split.
  - intros ([k x] & -> & Hx). apply elem_of_map_to_list in Hx. eauto.
  - intros [x Hx]. exists (n, x). split; [done|]. by apply elem_of_map_to_list.
Qed.

End MapValues.

#[export] Hint Resolve sort_by_key_perm sort_by_key_sorted : rabbit.
