(* ===== verification/Transport.v ===== *)
(** * The transport vocabulary

    Models the data of [transport.rs]: header tables, classified transport
    errors, topology specifications, publications, confirmations and
    deliveries. The traits of that file ([PublisherChannel], [ConsumerChannel],
    [TopologyChannel]) are interfaces to the broker: what they answer is an
    input of the components that call them. *)

From S2P Require Import Prelude.
Local Open Scope Z_scope.

Module Transport.

(** ** Header tables *)

(** A table is a [BTreeMap<String, HeaderValue>]: an association list in
    ascending key order. A [HeaderFloat] is the bit pattern it stores. *)
Inductive HeaderValue :=
| Void
| Boolean (b : bool)
| Integer (i : Z)
| Double (bits : Z)
| Binary (bytes : string)
| Array (vs : list HeaderValue)
| Table (kvs : list (string * HeaderValue))
| Decimal (scale value : Z).

(** [f64::is_finite] on the bits. *)
Definition is_finite (bits : Z) : bool := negb (Z.land (Z.shiftr bits 52) 2047 =? 2047).

Abbreviation Headers := (list (string * HeaderValue)).

Fixpoint HeaderValue_eqb (x y : HeaderValue) {struct x} : bool :=
  match x, y with
  | Void, Void => true
  | Boolean a, Boolean b => eqb a b
  | Integer a, Integer b => a =? b
  | Double a, Double b => a =? b
  | Binary a, Binary b => String.eqb a b
  | Array a, Array b =>
      (fix go l1 l2 := match l1, l2 with
        | [], [] => true
        | u :: l1', v :: l2' => HeaderValue_eqb u v && go l1' l2'
        | _, _ => false
        end) a b
  | Table a, Table b =>
      (fix go l1 l2 := match l1, l2 with
        | [], [] => true
        | (k, u) :: l1', (k', v) :: l2' => String.eqb k k' && HeaderValue_eqb u v && go l1' l2'
        | _, _ => false
        end) a b
  | Decimal s v, Decimal s' v' => (s =? s') && (v =? v')
  | _, _ => false
  end.

Fixpoint headers_get (h : Headers) (name : string) : option HeaderValue :=
  match h with
  | [] => None
  | (k, v) :: h' => if String.eqb k name then Some v else headers_get h' name
  end.

Definition headers_remove (h : Headers) (name : string) : Headers :=
  filter (fun kv => kv.1 <> name) h.

Fixpoint headers_insert (h : Headers) (name : string) (v : HeaderValue) : Headers :=
  match h with
  | [] => [(name, v)]
  | (k, u) :: h' =>
      match String.compare name k with
      | Lt => (name, v) :: (k, u) :: h'
      | Eq => (name, v) :: h'
      | Gt => (k, u) :: headers_insert h' name v
      end
  end.

(** ** Errors *)

Inductive TransportErrorKind :=
| Authentication | Configuration | Connection | Protocol | KClosed.

Record TransportError := mkTransportError {
  te_kind : TransportErrorKind;
  te_message : string;
  te_protocol_code : option Z
}.

Definition te_new (kind : TransportErrorKind) (message : string) : TransportError :=
  mkTransportError kind message None.

Definition protocol_with_code (code : Z) (message : string) : TransportError :=
  mkTransportError Protocol message (Some code).

Definition is_recoverable (e : TransportError) : bool :=
  match te_kind e with Connection | KClosed => true | _ => false end.

(** ** Topology specifications *)

Inductive QueueKind := Classic | Quorum.

Record QueueSpec := mkQueueSpec {
  q_name : string;
  q_durable : bool;
  q_exclusive : bool;
  q_auto_delete : bool;
  q_kind : QueueKind;
  q_dead_letter_exchange : option string;
  q_dead_letter_routing_key : option string;
  q_message_ttl : option Z;
  q_expires : option Z;
  q_delivery_limit : option Z;
  q_arguments : Headers
}.

Inductive ExchangeKind :=
| Direct | Fanout | Topic | HeadersExchange | Delayed (inner : ExchangeKind).

Definition amqp_type_name (k : ExchangeKind) : string :=
  match k with
  | Direct => "direct"
  | Fanout => "fanout"
  | Topic => "topic"
  | HeadersExchange => "headers"
  | Delayed _ => "x-delayed-message"
  end.

Record ExchangeSpec := mkExchangeSpec {
  x_name : string;
  x_kind : ExchangeKind;
  x_durable : bool;
  x_auto_delete : bool;
  x_internal : bool;
  x_arguments : Headers
}.

Record BindingSpec := mkBindingSpec {
  b_queue : string;
  b_exchange : string;
  b_routing_key : string
}.

(** ** Publications *)

Record PublishProperties := mkPublishProperties {
  pp_content_type : option string;
  pp_correlation_id : option string;
  pp_message_id : option string;
  pp_delay_ms : option Z;
  pp_headers : Headers;
  pp_persistent : bool
}.

(** [transport::PublishRequest], what reaches the wire. *)
Record WireRequest := mkWireRequest {
  w_exchange : string;
  w_routing_key : string;
  w_payload : string;
  w_mandatory : bool;
  w_properties : PublishProperties
}.

Record ReturnedMessage := mkReturnedMessage {
  rm_reply_code : Z;
  rm_reply_text : string;
  rm_exchange : string;
  rm_routing_key : string;
  rm_payload : string
}.

Inductive PublishConfirmation :=
| Ack (returned : option ReturnedMessage)
| Nack (returned : option ReturnedMessage)
| NotRequested.

(** ** Deliveries *)

(** [transport::Delivery]. *)
Record TransportDelivery := mkTransportDelivery {
  td_delivery_tag : Z;
  td_exchange : string;
  td_routing_key : string;
  td_redelivered : bool;
  td_message_id : option string;
  td_correlation_id : option string;
  td_headers : Headers;
  td_payload : string
}.

(** [u64::try_from(payload.len()).unwrap_or(u64::MAX)] *)
Definition payload_len (payload : string) : Z :=
  default U64_MAX (try_from U64_MAX (Z.of_nat (String.length payload))).

(** ** Decidable equality *)

#[global] Instance TransportErrorKind_eq_dec : EqDecision TransportErrorKind.
Proof. solve_decision. Defined.
#[global] Instance TransportError_eq_dec : EqDecision TransportError.
Proof. solve_decision. Defined.
#[global] Instance QueueKind_eq_dec : EqDecision QueueKind.
Proof. solve_decision. Defined.
#[global] Instance ExchangeKind_eq_dec : EqDecision ExchangeKind.
Proof. solve_decision. Defined.
#[global] Instance BindingSpec_eq_dec : EqDecision BindingSpec.
Proof. solve_decision. Defined.
#[global] Instance ReturnedMessage_eq_dec : EqDecision ReturnedMessage.
Proof. solve_decision. Defined.
#[global] Instance PublishConfirmation_eq_dec : EqDecision PublishConfirmation.
Proof. solve_decision. Defined.

Fixpoint HeaderValue_eqb_eq (x y : HeaderValue) {struct x} : HeaderValue_eqb x y = true <-> x = y.
Proof.
  destruct x, y; simpl; try (split; discriminate); try done.
  - rewrite eqb_true_iff. split; congruence.
  - rewrite Z.eqb_eq. split; congruence.
  - rewrite Z.eqb_eq. split; congruence.
  - rewrite String.eqb_eq. split; congruence.
  - revert vs0. induction vs as [|u l IH]; intros [|v l']; try (split; discriminate); [done|].
    rewrite andb_true_iff, (HeaderValue_eqb_eq u v), IH. split; [intros [-> [= ->]]|intros [= -> ->]]; done.
  - revert kvs0. induction kvs as [|[k u] l IH]; intros [|[k' v] l']; try (split; discriminate); [done|].
    rewrite !andb_true_iff, (HeaderValue_eqb_eq u v), IH, String.eqb_eq.
    split; [intros [[-> ->] [= ->]]|intros [= -> -> ->]]; done.
  - rewrite andb_true_iff, !Z.eqb_eq. split; [intros [-> ->]|intros [= -> ->]]; done.
Qed.

#[global] Instance HeaderValue_eq_dec : EqDecision HeaderValue.
Proof.
  intros x y. destruct (HeaderValue_eqb x y) eqn:E.
  - left. by apply HeaderValue_eqb_eq.
  - right. intros Hxy. apply HeaderValue_eqb_eq in Hxy. congruence.
Defined.

#[global] Instance QueueSpec_eq_dec : EqDecision QueueSpec.
Proof. solve_decision. Defined.
#[global] Instance ExchangeSpec_eq_dec : EqDecision ExchangeSpec.
Proof. solve_decision. Defined.
#[global] Instance PublishProperties_eq_dec : EqDecision PublishProperties.
Proof. solve_decision. Defined.
#[global] Instance WireRequest_eq_dec : EqDecision WireRequest.
Proof. solve_decision. Defined.

(** ** Header table laws *)

Lemma string_compare_refl s : String.compare s s = Eq.
Proof. induction s as [|a s IH]; [done|]. simpl. unfold Ascii.compare. by rewrite N.compare_refl. Qed.

Lemma headers_get_insert_eq h k v : headers_get (headers_insert h k v) k = Some v.
Proof.
  induction h as [|[k' u] h IH]; simpl; [by rewrite String.eqb_refl|].
  destruct (String.compare k k') eqn:E; simpl; rewrite ?String.eqb_refl; try done.
  destruct (String.eqb_spec k' k) as [->|]; [|done].
  rewrite string_compare_refl in E. congruence.
Qed.

Lemma headers_get_insert_ne h k k' v :
  k <> k' -> headers_get (headers_insert h k v) k' = headers_get h k'.
Proof.
  intros Hne. assert (String.eqb k k' = false) as Hk by (by apply String.eqb_neq).
  induction h as [|[k0 u] h IH]; simpl; [by rewrite Hk|].
  destruct (String.compare k k0) eqn:E; simpl; rewrite ?Hk; try done.
  - apply String.compare_eq_iff in E as <-. by rewrite Hk.
  - by rewrite IH.
Qed.

Lemma headers_get_remove_eq h k : headers_get (headers_remove h k) k = None.
Proof.
  unfold headers_remove. induction h as [|[k' u] h IH]; [done|].
  rewrite filter_cons. case_decide as Hd; [|done]. simpl in *.
  destruct (String.eqb_spec k' k); [done|]. done.
Qed.

Lemma headers_get_remove_ne h k k' :
  k <> k' -> headers_get (headers_remove h k) k' = headers_get h k'.
Proof.
  intros Hne. unfold headers_remove. induction h as [|[k0 u] h IH]; [done|].
  rewrite filter_cons. case_decide as Hd; simpl in *.
  - by rewrite IH.
  - assert (k0 = k) as -> by (destruct (decide (k0 = k)); [done|by exfalso]).
    destruct (String.eqb_spec k k'); [done|]. done.
Qed.

Lemma payload_len_nonneg p : 0 <= payload_len p.
Proof.
  unfold payload_len, try_from. destruct (_ && _)%bool; simpl; [lia|]. unfold U64_MAX. lia.
Qed.

End Transport.

#[export] Hint Resolve Transport.payload_len_nonneg : rabbit.
