(* ===== verification/Scheduler.v ===== *)
(** * Weighted-fair scheduling of ready subscriptions

    Models [consumer/scheduler.rs]: the entries of the scheduler, the
    operations [register], [mark_ready], [mark_empty] and [pick], and the
    properties its documentation promises: exact proportional sharing by
    weight, and no starvation whatever the interleaving of operations. *)

From S2P Require Import Prelude.
Local Open Scope Z_scope.

Module Scheduler.

(** ** Data *)

(** [weight : u16]; [SubscriptionPolicy::new] asserts it is positive. *)
Record SubscriptionPolicy := mkPolicy { weight : Z }.

Definition policy_new (w : Z) : option SubscriptionPolicy :=
  if 0 <? w then Some (mkPolicy w) else None.

Record Entry := mkEntry {
  e_id : string;
  e_policy : SubscriptionPolicy;
  e_ready : bool;
  e_credit : Z
}.

Record WeightedFairScheduler := mkScheduler {
  entries : list Entry;
  cursor : nat
}.

Definition scheduler_default : WeightedFairScheduler := mkScheduler [] 0.

(** ** Operations *)

(** [entries.iter_mut().find(|entry| entry.id == id)] followed by an update
    of the entry found. *)
Fixpoint alter_first (id : string) (f : Entry -> Entry) (l : list Entry) : list Entry :=
  match l with
  | [] => []
  | e :: l' => if decide (e_id e = id) then f e :: l' else e :: alter_first id f l'
  end.

Definition known (id : string) (l : list Entry) : bool :=
  existsb (fun e => bool_decide (e_id e = id)) l.

Definition register (s : WeightedFairScheduler) (id : string) (policy : SubscriptionPolicy)
  : WeightedFairScheduler :=
  if known id (entries s)
  then mkScheduler
         (alter_first id (fun e => mkEntry (e_id e) policy (e_ready e) (e_credit e)) (entries s))
         (cursor s)
  else mkScheduler (entries s ++ [mkEntry id policy false 0]) (cursor s).

Definition mark_ready (s : WeightedFairScheduler) (id : string) : WeightedFairScheduler :=
  mkScheduler
    (alter_first id
       (fun e => if e_ready e then e else mkEntry (e_id e) (e_policy e) true 0) (entries s))
    (cursor s).

Definition mark_empty (s : WeightedFairScheduler) (id : string) : WeightedFairScheduler :=
  mkScheduler
    (alter_first id (fun e => mkEntry (e_id e) (e_policy e) false 0) (entries s))
    (cursor s).

(** Indices of the ready entries. *)
Fixpoint eligible_from (i : nat) (l : list Entry) : list nat :=
  match l with
  | [] => []
  | e :: l' => if e_ready e then i :: eligible_from (S i) l' else eligible_from (S i) l'
  end.

Definition eligible (l : list Entry) : list nat := eligible_from 0 l.

Definition entry_weight (e : Entry) : Z := weight (e_policy e).

Definition add_credit (d : Z) (e : Entry) : Entry :=
  mkEntry (e_id e) (e_policy e) (e_ready e) (e_credit e + d).

Definition weight_at (l : list Entry) (i : nat) : Z :=
  match l !! i with Some e => entry_weight e | None => 0 end.

Definition credit_at (l : list Entry) (i : nat) : Z :=
  match l !! i with Some e => e_credit e | None => 0 end.

(** [for &index in &eligible { entries[index].credit += weight }] *)
Definition bump_credits (el : list nat) (l : list Entry) : list Entry :=
  foldl (fun acc i => alter (fun e => add_credit (entry_weight e) e) i acc) l el.

(** [Iterator::max_by_key]: the last of the elements with the largest key. *)
Definition max_by_key (key : nat -> Z) (l : list nat) : option nat :=
  foldl (fun best i =>
    match best with
    | None => Some i
    | Some b => if key b <=? key i then Some i else Some b
    end) None l.

(** The indices in the order the cursor visits them. *)
Definition rotation (c len : nat) : list nat :=
  (fun offset => ((c + offset) mod len)%nat) <$> seq 0 len.

Definition pick (s : WeightedFairScheduler) : option string * WeightedFairScheduler :=
  let el := eligible (entries s) in
  let total_weight := sumZ (weight_at (entries s)) el in
  let bumped := bump_credits el (entries s) in
  match max_by_key (credit_at bumped)
          (filter (fun i => i ∈ el) (rotation (cursor s) (length bumped))) with
  | None => (None, mkScheduler bumped (cursor s))
  | Some chosen =>
      ( e_id <$> bumped !! chosen,
        mkScheduler (alter (add_credit (- total_weight)) chosen bumped)
                    ((chosen + 1) mod length bumped) )
  end.

(** [n] consecutive calls of [pick]. *)
Fixpoint pick_n (n : nat) (s : WeightedFairScheduler) : list (option string) * WeightedFairScheduler :=
  match n with
  | O => ([], s)
  | S n' =>
      let '(p, s1) := pick s in
      let '(ps, s2) := pick_n n' s1 in
      (p :: ps, s2)
  end.

(** The calls the consumer actor makes, in any order. *)
Inductive Op :=
| OpRegister (id : string) (policy : SubscriptionPolicy)
| OpMarkReady (id : string)
| OpMarkEmpty (id : string)
| OpPick.

Definition apply_op (s : WeightedFairScheduler) (o : Op) : option string * WeightedFairScheduler :=
  match o with
  | OpRegister id p => (None, register s id p)
  | OpMarkReady id => (None, mark_ready s id)
  | OpMarkEmpty id => (None, mark_empty s id)
  | OpPick => pick s
  end.

Fixpoint run (os : list Op) (s : WeightedFairScheduler) : list (option string) * WeightedFairScheduler :=
  match os with
  | [] => ([], s)
  | o :: os' =>
      let '(p, s1) := apply_op s o in
      let '(ps, s2) := run os' s1 in
      (p :: ps, s2)
  end.

Definition is_pick (o : Op) : bool := match o with OpPick => true | _ => false end.

Definition picks_in (os : list Op) : nat := length (filter (fun o => is_pick o = true) os).

(** ** Specification vocabulary *)

Definition ready_weight_of (e : Entry) : Z := if e_ready e then entry_weight e else 0.

(** Total weight of the ready entries. *)
Definition ready_weight (l : list Entry) : Z := sumZ ready_weight_of l.

(** Total credit of the ready entries. *)
Definition ready_credit (l : list Entry) : Z :=
  sumZ (fun e => if e_ready e then e_credit e else 0) l.

Definition bump (e : Entry) : Entry :=
  if e_ready e then add_credit (entry_weight e) e else e.

Definition count_picks (id : string) (ps : list (option string)) : Z :=
  sumZ (fun p => if decide (p = Some id) then 1 else 0) ps.

(** A well-formed scheduler with at most [n] entries of weight at most [M].
    [ws_pos] bounds the total positive credit, which is what rules starvation
    out. *)
Record wf (M n : Z) (l : list Entry) : Prop := {
  ws_nodup : NoDup (e_id <$> l);
  ws_len : Z.of_nat (length l) <= n;
  ws_weight : Forall (fun e => 1 <= entry_weight e <= M) l;
  ws_idle : Forall (fun e => e_ready e = false -> e_credit e = 0) l;
  ws_pos : sumZ (fun e => Z.max 0 (e_credit e)) l <= M * n * n
}.

(** Operations that respect the contract of [SubscriptionPolicy::new], with
    weights at most [M] (a [u16] in the source). *)
Definition op_ok (M : Z) (o : Op) : Prop :=
  match o with OpRegister _ p => 1 <= weight p <= M | _ => True end.

(** ** The shape of one pick *)

Lemma eligible_from_elem l : forall i j,
  j ∈ eligible_from i l <-> exists e, (i <= j)%nat /\ l !! (j - i)%nat = Some e /\ e_ready e = true.
Proof.
  induction l as [|e l IH]; intros i j; simpl.
  - split; [by intros ?%elem_of_nil|]. intros (e & _ & H & _). done.
  - assert (j ∈ eligible_from (S i) l <->
      exists e0, (i < j)%nat /\ (e :: l) !! (j - i)%nat = Some e0 /\ e_ready e0 = true) as HS.
    { rewrite IH. split; intros (e0 & Hij & Hl & Hr); exists e0; (split; [lia|]); (split; [|done]);
      replace (j - i)%nat with (S (j - S i)) in * by lia; done. }
    destruct (e_ready e) eqn:Er; [rewrite elem_of_cons|]; rewrite HS.
    + split.
      * intros [->|(e0 & ? & ? & ?)]; [exists e|exists e0]; rewrite ?Nat.sub_diag; repeat split; auto; lia.
      * intros (e0 & Hij & Hl & Hr). destruct (decide (j = i)) as [->|]; [by left|right].
        exists e0. repeat split; auto; lia.
    + split; intros (e0 & Hij & Hl & Hr).
      * exists e0. repeat split; auto; lia.
      * destruct (decide (j = i)) as [->|]; [rewrite Nat.sub_diag in Hl; simplify_eq/=; congruence|].
        exists e0. repeat split; auto; lia.
Qed.

Lemma eligible_elem l j :
  j ∈ eligible l <-> exists e, l !! j = Some e /\ e_ready e = true.
Proof.
  unfold eligible. rewrite eligible_from_elem. rewrite Nat.sub_0_r.
  split; intros (e & H); exists e; [tauto|split; [lia|tauto]].
Qed.

Lemma eligible_from_NoDup l : forall i, NoDup (eligible_from i l).
Proof.
  induction l as [|e l IH]; intros i; simpl; [constructor|].
  destruct (e_ready e); [|apply IH]. constructor; [|apply IH].
  rewrite eligible_from_elem. intros (e0 & ? & _). lia.
Qed.

Lemma bump_credits_lookup el : forall l i,
  NoDup el ->
  bump_credits el l !! i =
  (if decide (i ∈ el) then (fun e => add_credit (entry_weight e) e) <$> l !! i else l !! i).
Proof.
  unfold bump_credits. induction el as [|j el IH]; intros l i Hnd; cbn [foldl].
  - by rewrite decide_False by apply not_elem_of_nil.
  - apply NoDup_cons in Hnd as [Hj Hnd]. rewrite IH by done.
    destruct (decide (i = j)) as [->|Hij].
    + rewrite decide_False by done. rewrite decide_True by by left.
      by rewrite list_lookup_alter_eq.
    + rewrite list_lookup_alter_ne by done. destruct (decide (i ∈ el)).
      * rewrite decide_True; [done|by right].
      * rewrite decide_False; [done|]. by intros [?|?]%elem_of_cons.
Qed.

(** Crediting the eligible indices is crediting every ready entry. *)
Lemma bump_credits_map l : bump_credits (eligible l) l = bump <$> l.
Proof.
  apply list_eq. intros i. rewrite bump_credits_lookup by apply eligible_from_NoDup.
  rewrite list_lookup_fmap. destruct (l !! i) as [e|] eqn:E.
  - unfold bump; simpl. destruct (e_ready e) eqn:Er.
    + rewrite decide_True; [done|]. apply eligible_elem. by exists e.
    + rewrite decide_False; [done|]. rewrite eligible_elem. intros (e' & ? & ?). congruence.
  - rewrite decide_False; [done|]. rewrite eligible_elem. intros (e' & ? & ?). congruence.
Qed.

Lemma eligible_from_S l : forall i, eligible_from (S i) l = S <$> eligible_from i l.
Proof. induction l as [|e l IH]; intros i; simpl; [done|]. destruct (e_ready e); rewrite IH; done. Qed.

Lemma sumZ_fmap_S (f : nat -> Z) (l : list nat) : sumZ f (S <$> l) = sumZ (fun i => f (S i)) l.
Proof. induction l as [|x l IH]; [done|]. rewrite fmap_cons, !sumZ_cons, IH. done. Qed.

Lemma total_weight_ready l : sumZ (weight_at l) (eligible l) = ready_weight l.
Proof.
  unfold eligible, ready_weight. induction l as [|e l IH]; [done|].
  rewrite sumZ_cons. rewrite <- IH. cbn [eligible_from]. rewrite eligible_from_S.
  unfold ready_weight_of. destruct (e_ready e); rewrite ?sumZ_cons, sumZ_fmap_S; done.
Qed.

Lemma max_by_key_aux (key : nat -> Z) (l : list nat) : forall b : nat,
  exists m, foldl (fun best i =>
    match best with
    | None => Some i
    | Some b => if key b <=? key i then Some i else Some b
    end) (Some b) l = Some m /\ (m = b \/ m ∈ l) /\ key b <= key m /\
    (forall i, i ∈ l -> key i <= key m).
Proof.
  induction l as [|x l IH]; intros b; cbn [foldl].
  - exists b. repeat split; [by left|lia|]. by intros i ?%elem_of_nil.
  - destruct (key b <=? key x) eqn:E; zbool.
    + destruct (IH x) as (m & Hm & Hin & Hx & Hall). exists m. repeat split; [done| |lia|].
      * destruct Hin as [->|]; right; [by left|by right].
      * intros i [->|?]%elem_of_cons; [done|auto].
    + destruct (IH b) as (m & Hm & Hin & Hb & Hall). exists m. repeat split; [done| |lia|].
      * destruct Hin as [->|]; [by left|right; by right].
      * intros i [->|?]%elem_of_cons; [lia|auto].
Qed.

Lemma max_by_key_spec (key : nat -> Z) (l : list nat) :
  match max_by_key key l with
  | None => l = []
  | Some m => m ∈ l /\ forall i, i ∈ l -> key i <= key m
  end.
Proof.
  unfold max_by_key. destruct l as [|x l]; [done|]. cbn [foldl].
  destruct (max_by_key_aux key l x) as (m & -> & Hin & Hx & Hall). split.
  - destruct Hin as [->|]; [by left|by right].
  - intros i [->|?]%elem_of_cons; auto.
Qed.

Lemma rotation_elem (c len i : nat) : i ∈ rotation c len <-> (i < len)%nat.
Proof.
  unfold rotation. rewrite list_elem_of_fmap. split.
  - intros (o & -> & Ho). apply elem_of_seq in Ho. apply Nat.mod_upper_bound. lia.
  - intros Hi. exists ((i + (len - c mod len)) mod len)%nat.
    assert (c mod len < len)%nat by (apply Nat.mod_upper_bound; lia). split.
    + rewrite Nat.Div0.add_mod_idemp_r.
      rewrite <- (Nat.Div0.add_mod_idemp_l c).
      replace (c mod len + (i + (len - c mod len)))%nat with (i + 1 * len)%nat by lia.
      rewrite Nat.Div0.mod_add. symmetry. by apply Nat.mod_small.
    + apply elem_of_seq. split; [lia|]. simpl. apply Nat.mod_upper_bound. lia.
Qed.

(** One pick selects a ready entry of maximal credit after every ready entry
    was credited its weight, and charges it the total ready weight. *)
Lemma pick_spec s :
  (Forall (fun e => e_ready e = false) (entries s) /\ pick s = (None, s)) \/
  (exists c e,
     entries s !! c = Some e /\ e_ready e = true /\
     (forall e', e' ∈ entries s -> e_ready e' = true ->
        e_credit e' + entry_weight e' <= e_credit e + entry_weight e) /\
     pick s = (Some (e_id e),
       mkScheduler (alter (add_credit (- ready_weight (entries s))) c (bump <$> entries s))
                   ((c + 1) mod length (entries s)))).
Proof.
  destruct s as [l cur]; unfold pick; simpl.
  rewrite bump_credits_map, total_weight_ready, length_fmap.
  pose proof (max_by_key_spec (credit_at (bump <$> l))
    (filter (fun i => i ∈ eligible l) (rotation cur (length l)))) as Hmax.
  destruct (max_by_key _ _) as [c|].
  - right. destruct Hmax as [Hc Hall].
    apply list_elem_of_filter in Hc as [Hc _]. apply eligible_elem in Hc as (e & Hl & Hr).
    exists c, e. rewrite !list_lookup_fmap, Hl. repeat split; auto.
    + intros e' He' Hr'. apply list_elem_of_lookup in He' as [i Hi].
      assert (i ∈ filter (fun i => i ∈ eligible l) (rotation cur (length l))) as Hi'.
      { apply list_elem_of_filter. split; [apply eligible_elem; by exists e'|].
        apply rotation_elem. by eapply lookup_lt_Some. }
      specialize (Hall i Hi'). unfold credit_at in Hall.
      rewrite !list_lookup_fmap, Hl, Hi in Hall. simpl in Hall.
      unfold bump in Hall. rewrite Hr, Hr' in Hall. simpl in Hall. lia.
    + unfold bump; simpl. rewrite Hr. done.
  - left. assert (Forall (fun e => e_ready e = false) l) as Hf.
    { apply Forall_forall. intros e He. apply list_elem_of_lookup in He as [i Hi].
      destruct (e_ready e) eqn:Er; [|done]. exfalso.
      assert (i ∈ filter (fun i => i ∈ eligible l) (rotation cur (length l))) as Hi'.
      { apply list_elem_of_filter. split; [apply eligible_elem; by exists e|].
        apply rotation_elem. by eapply lookup_lt_Some. }
      rewrite Hmax in Hi'. by apply elem_of_nil in Hi'. }
    split; [done|]. f_equal. f_equal. rewrite <- (list_fmap_id l) at 2.
    apply list_fmap_ext. intros i e He. unfold bump.
    rewrite Forall_lookup in Hf. by rewrite (Hf i e He).
Qed.

Lemma ids_inj l i j e e' :
  NoDup (e_id <$> l) -> l !! i = Some e -> l !! j = Some e' -> e_id e = e_id e' -> i = j.
Proof.
  intros Hnd Hi Hj He. eapply NoDup_lookup; [exact Hnd| |].
  - rewrite list_lookup_fmap, Hi. reflexivity.
  - rewrite list_lookup_fmap, Hj. simpl. by rewrite He.
Qed.

(** What a pick does to the entry at any index. *)
Lemma pick_entry s i ei :
  NoDup (e_id <$> entries s) -> entries s !! i = Some ei ->
  exists ei', entries (pick s).2 !! i = Some ei' /\
    e_id ei' = e_id ei /\ e_policy ei' = e_policy ei /\ e_ready ei' = e_ready ei /\
    e_credit ei' = e_credit ei + ready_weight_of ei -
      (if decide ((pick s).1 = Some (e_id ei)) then ready_weight (entries s) else 0).
Proof.
  intros Hnd Hi. unfold ready_weight_of.
  destruct (pick_spec s) as [[Hf ->]|(c & e & Hc & Hr & Hmax & ->)]; simpl.
  - exists ei. rewrite Forall_lookup in Hf. rewrite (Hf i ei Hi). repeat split; [done|lia].
  - destruct (decide (c = i)) as [->|Hne].
    + rewrite Hc in Hi. injection Hi as ->. rewrite list_lookup_alter_eq, list_lookup_fmap, Hc.
      eexists. split; [reflexivity|]. unfold bump, add_credit. rewrite Hr. simpl.
      rewrite decide_True by done. repeat split; lia.
    + rewrite list_lookup_alter_ne by done. rewrite list_lookup_fmap, Hi. simpl.
      eexists. split; [reflexivity|]. rewrite decide_False.
      2:{ intros [= He]. apply Hne. by eapply ids_inj. }
      unfold bump, add_credit. destruct (e_ready ei) eqn:Er; simpl; repeat split; auto; lia.
Qed.

Lemma pick_length s : length (entries (pick s).2) = length (entries s).
Proof.
  destruct (pick_spec s) as [[Hf ->]|(c & e & Hc & Hr & Hmax & ->)]; simpl; [done|].
  by rewrite length_alter, length_fmap.
Qed.

(** Every quantity computed entry by entry from identifier, policy and
    readiness is unchanged by a pick. *)
Lemma pick_fmap {B} (g : Entry -> B) s :
  (forall e d, g (add_credit d e) = g e) -> g <$> entries (pick s).2 = g <$> entries s.
Proof.
  intros Hg. destruct (pick_spec s) as [[Hf ->]|(c & e & Hc & Hr & Hmax & ->)]; simpl; [done|].
  apply list_eq. intros i. rewrite !list_lookup_fmap.
  assert (forall e0, g (bump e0) = g e0) as Hb.
  { intros e0. unfold bump. destruct (e_ready e0); auto. }
  destruct (decide (c = i)) as [->|Hne].
  - rewrite list_lookup_alter_eq, list_lookup_fmap, Hc. simpl. by rewrite Hg, Hb.
  - rewrite list_lookup_alter_ne by done. rewrite list_lookup_fmap.
    destruct (entries s !! i); simpl; [by rewrite Hb|done].
Qed.


Lemma sumZ_alter {A} (f : A -> Z) (g : A -> A) (l : list A) (i : nat) (x : A) :
  l !! i = Some x -> sumZ f (alter g i l) = sumZ f l - f x + f (g x).
Proof.
  revert i. induction l as [|y l IH]; intros [|i] H; simplify_eq/=.
  - rewrite !sumZ_cons. lia.
  - rewrite !sumZ_cons, (IH _ H). lia.
Qed.

Lemma pick_ready_weight s : ready_weight (entries (pick s).2) = ready_weight (entries s).
Proof.
  unfold ready_weight. pose proof (pick_fmap ready_weight_of s (fun e d => eq_refl)) as H.
  apply (f_equal (sumZ (fun z => z))) in H. by rewrite !sumZ_fmap in H.
Qed.

Lemma pick_ids s : e_id <$> entries (pick s).2 = e_id <$> entries s.
Proof. by apply pick_fmap. Qed.

Lemma pick_weights s (P : Z -> Prop) :
  Forall (fun e => P (entry_weight e)) (entries s) ->
  Forall (fun e => P (entry_weight e)) (entries (pick s).2).
Proof.
  intros H. apply (Forall_fmap entry_weight P). rewrite pick_fmap by done.
  by apply (Forall_fmap entry_weight P).
Qed.

(** Picks only move credit between ready entries. *)
Lemma pick_ready_credit s : ready_credit (entries (pick s).2) = ready_credit (entries s).
Proof.
  destruct (pick_spec s) as [[Hf ->]|(c & e & Hc & Hr & Hmax & ->)]; simpl; [done|].
  unfold ready_credit at 1.
  rewrite (sumZ_alter _ _ _ c (bump e)) by (by rewrite list_lookup_fmap, Hc).
  rewrite sumZ_fmap.
  rewrite (sumZ_ext _ (fun e0 => (if e_ready e0 then e_credit e0 else 0) + ready_weight_of e0)).
  2:{ apply Forall_forall. intros e0 _. unfold bump, ready_weight_of, add_credit.
      destruct (e_ready e0) eqn:E0; simpl; rewrite ?E0; lia. }
  rewrite sumZ_plus. unfold ready_credit, ready_weight, bump, add_credit. rewrite Hr; simpl. lia.
Qed.

Definition balanced (l : list Entry) : Prop :=
  ready_credit l = 0 /\
  forall e, e ∈ l -> e_ready e = true -> - ready_weight l < e_credit e.

Lemma ready_weight_pos l e :
  Forall (fun e => 1 <= entry_weight e) l -> e ∈ l -> e_ready e = true -> 1 <= ready_weight l.
Proof.
  intros Hw He Hr.
  assert (Forall (fun y => 0 <= ready_weight_of y) l) as Hnn.
  { eapply Forall_impl; [exact Hw|]. intros y Hy. unfold ready_weight_of; destruct (e_ready y); simpl in *; lia. }
  pose proof (sumZ_elem_le ready_weight_of l e Hnn He) as Hle.
  unfold ready_weight. rewrite Forall_forall in Hw. specialize (Hw e He).
  unfold ready_weight_of at 1 in Hle. rewrite Hr in Hle. simpl in *; lia.
Qed.

Lemma pick_balanced s :
  NoDup (e_id <$> entries s) -> Forall (fun e => 1 <= entry_weight e) (entries s) ->
  balanced (entries s) -> balanced (entries (pick s).2).
Proof.
  intros Hnd Hw [H0 Hlow]. split; [by rewrite pick_ready_credit|].
  rewrite pick_ready_weight. intros e' He' Hr'.
  apply list_elem_of_lookup in He' as [i Hi'].
  destruct (lookup_lt_is_Some_2 (entries s) i) as [ei Hi].
  { rewrite <- pick_length. by eapply lookup_lt_Some. }
  destruct (pick_entry s i ei Hnd Hi) as (e'' & Hi'' & _ & _ & Hr & Hcr). simplify_eq.
  assert (ei ∈ entries s) as Hin by (apply list_elem_of_lookup; eauto).
  rewrite Hr in Hr'. rewrite Hcr. unfold ready_weight_of. rewrite Hr'.
  pose proof (Hlow ei Hin Hr') as Hl.
  rewrite Forall_forall in Hw. pose proof (Hw ei Hin) as Hwi. simpl in Hwi.
  case_decide as Hp; [|lia].
  destruct (pick_spec s) as [[Hf Hpk]|(c & e & Hc & Hrc & Hmax & Hpk)]; rewrite Hpk in Hp; simpl in Hp; [done|].
  injection Hp as Hid. assert (c = i) as -> by by eapply ids_inj. simplify_eq.
  cut (1 <= e_credit ei + entry_weight ei); [lia|].
  destruct (Z_le_gt_dec 1 (e_credit ei + entry_weight ei)) as [?|Hneg]; [done|exfalso].
  assert (ready_credit (entries s) + ready_weight (entries s) <= 0).
  { unfold ready_credit, ready_weight. rewrite <- sumZ_plus.
    transitivity (sumZ (fun _ : Entry => 0) (entries s)); [|rewrite sumZ_const; lia].
    apply sumZ_le, Forall_forall. intros e0 He0. unfold ready_weight_of.
    destruct (e_ready e0) eqn:E0; [|lia]. specialize (Hmax e0 He0 E0). lia. }
  pose proof (ready_weight_pos (entries s) ei (proj2 (Forall_forall _ _) Hw) Hin Hr'). lia.
Qed.

(** Credit accounting over consecutive picks. *)
Lemma pick_n_entry n : forall s i ei,
  NoDup (e_id <$> entries s) -> entries s !! i = Some ei ->
  exists ei', entries (pick_n n s).2 !! i = Some ei' /\
    e_id ei' = e_id ei /\ e_ready ei' = e_ready ei /\ entry_weight ei' = entry_weight ei /\
    e_credit ei' = e_credit ei + Z.of_nat n * ready_weight_of ei -
      ready_weight (entries s) * count_picks (e_id ei) (pick_n n s).1.
Proof.
  induction n as [|n IH]; intros s i ei Hnd Hi.
  - exists ei. simpl. unfold count_picks; rewrite sumZ_nil. repeat split; [done|lia].
  - destruct (pick_entry s i ei Hnd Hi) as (e1 & Hi1 & Hid1 & Hp1 & Hr1 & Hc1).
    destruct (IH (pick s).2 i e1) as (e2 & Hi2 & Hid2 & Hr2 & Hw2 & Hc2); [by rewrite pick_ids|done|].
    cbn [pick_n]. rewrite (surjective_pairing (pick s)), (surjective_pairing (pick_n n (pick s).2)).
    exists e2. cbn [fst snd]. unfold entry_weight in *. split; [done|].
    repeat split; [congruence..|].
    rewrite Hc2, Hc1, pick_ready_weight, Hid1. unfold count_picks. rewrite sumZ_cons.
    unfold ready_weight_of, entry_weight. rewrite Hr1, Hp1. destruct (decide _); lia.
Qed.

Lemma pick_n_inv n : forall s,
  NoDup (e_id <$> entries s) -> Forall (fun e => 1 <= entry_weight e) (entries s) ->
  balanced (entries s) ->
  balanced (entries (pick_n n s).2) /\ ready_weight (entries (pick_n n s).2) = ready_weight (entries s) /\
  length (entries (pick_n n s).2) = length (entries s).
Proof.
  induction n as [|n IH]; intros s Hnd Hw Hb; [done|].
  cbn [pick_n]. rewrite (surjective_pairing (pick s)), (surjective_pairing (pick_n n (pick s).2)). cbn [snd].
  destruct (IH (pick s).2) as (H1 & H2 & H3).
  - by rewrite pick_ids.
  - by apply (pick_weights s (fun w => 1 <= w)).
  - by apply pick_balanced.
  - split; [done|]. by rewrite H2, H3, pick_ready_weight, pick_length.
Qed.

Definition settled (l : list Entry) : Prop :=
  Forall (fun e => e_ready e = true -> e_credit e = 0) l.

Lemma ready_weight_nonneg l : Forall (fun e => 1 <= entry_weight e) l -> 0 <= ready_weight l.
Proof.
  intros Hw. apply sumZ_nonneg. eapply Forall_impl; [exact Hw|]. intros e He.
  unfold ready_weight_of. simpl in *. destruct (e_ready e); lia.
Qed.

Lemma settled_balanced l :
  Forall (fun e => 1 <= entry_weight e) l -> settled l -> balanced l.
Proof.
  intros Hw H0. split.
  - unfold ready_credit. rewrite (sumZ_ext _ (fun _ => 0)); [rewrite sumZ_const; lia|].
    eapply Forall_impl; [exact H0|]. intros e He. simpl in *. destruct (e_ready e); auto.
  - intros e He Hr. unfold settled in H0. rewrite Forall_forall in H0. rewrite (H0 e He Hr).
    pose proof (ready_weight_pos _ e Hw He Hr). lia.
Qed.

(** After a whole window every ready credit is a multiple of the ready
    weight; being above its opposite, it is not negative. *)
Lemma window_credit (s : WeightedFairScheduler) (i : nat) (ei : Entry) :
  NoDup (e_id <$> entries s) -> Forall (fun e => 1 <= entry_weight e) (entries s) ->
  settled (entries s) -> entries s !! i = Some ei ->
  let W := ready_weight (entries s) in
  let window := pick_n (Z.to_nat W) s in
  exists e', entries window.2 !! i = Some e' /\ e_ready e' = e_ready ei /\
    (e_ready ei = true ->
       e_credit e' = W * (entry_weight ei - count_picks (e_id ei) window.1) /\ 0 <= e_credit e').
Proof.
  intros Hnd Hw H0 Hi W window.
  destruct (pick_n_entry (Z.to_nat W) s i ei Hnd Hi) as (e' & Hi' & _ & Hr & _ & Hc).
  exists e'. split; [done|]. split; [done|]. intros Hri. fold window W in Hc.
  pose proof (settled_balanced _ Hw H0) as Hb.
  unfold settled in H0. rewrite Forall_lookup in H0. rewrite (H0 i ei Hi Hri) in Hc.
  unfold ready_weight_of in Hc. rewrite Hri, Z2Nat.id in Hc by by apply ready_weight_nonneg.
  destruct (pick_n_inv (Z.to_nat W) s Hnd Hw Hb) as ([_ Hlow] & HW & _).
  rewrite HW in Hlow. fold window W in Hlow, HW.
  specialize (Hlow e' (proj2 (list_elem_of_lookup _ _) (ex_intro _ i Hi')) (eq_trans Hr Hri)).
  split; [lia|]. set (k := entry_weight ei - count_picks (e_id ei) window.1).
  assert (e_credit e' = W * k) as -> by lia. assert (0 <= W) by (by apply ready_weight_nonneg).
  assert (0 <= k) by nia. nia.
Qed.

(** Proportional sharing: while the set of ready subscriptions does not
    change, any window of as many picks as the total ready weight, started
    with settled credits, picks each ready subscription exactly as many times
    as its weight, and leaves the credits settled again (so the next window
    repeats the same shares). *)
Theorem pick_window_proportional s :
  NoDup (e_id <$> entries s) ->
  Forall (fun e => 1 <= entry_weight e) (entries s) ->
  settled (entries s) ->
  let window := pick_n (Z.to_nat (ready_weight (entries s))) s in
  Forall (fun e => e_ready e = true -> count_picks (e_id e) window.1 = entry_weight e) (entries s) /\
  settled (entries window.2).
Proof.
  intros Hnd Hw H0 window.
  destruct (pick_n_inv (Z.to_nat (ready_weight (entries s))) s Hnd Hw (settled_balanced _ Hw H0))
    as ([Hsum _] & _ & Hlen). fold window in Hsum, Hlen.
  assert (settled (entries window.2)) as Hz.
  { apply sumZ_zero_all in Hsum.
    - eapply Forall_impl; [exact Hsum|]. intros e He Hr. simpl in He. by rewrite Hr in He.
    - apply Forall_lookup. intros i e' Hi'. destruct (e_ready e') eqn:Er; [|lia].
      destruct (lookup_lt_is_Some_2 (entries s) i) as [ei Hi].
      { rewrite <- Hlen. by eapply lookup_lt_Some. }
      destruct (window_credit s i ei Hnd Hw H0 Hi) as (e'' & Hi'' & Hr & Hc).
      fold window in Hi''. rewrite Hi' in Hi''. injection Hi'' as <-.
      apply Hc. congruence. }
  split; [|done]. apply Forall_lookup. intros i ei Hi Hri.
  destruct (window_credit s i ei Hnd Hw H0 Hi) as (e' & Hi' & Hr & Hc).
  fold window in Hi', Hc. destruct (Hc Hri) as [Hcr _].
  unfold settled in Hz. rewrite Forall_lookup in Hz. rewrite (Hz i e' Hi') in Hcr by congruence.
  pose proof (ready_weight_pos _ ei Hw (proj2 (list_elem_of_lookup _ _) (ex_intro _ i Hi)) Hri). nia.
Qed.

(** ** No starvation *)

Lemma alter_first_map id f l :
  NoDup (e_id <$> l) ->
  alter_first id f l = (fun e => if decide (e_id e = id) then f e else e) <$> l.
Proof.
  induction l as [|e l IH]; intros Hnd; [done|]. cbn [alter_first].
  rewrite fmap_cons in Hnd. apply NoDup_cons in Hnd as [He Hnd]. rewrite fmap_cons.
  destruct (decide (e_id e = id)) as [Hid|Hid]; [|by rewrite IH]. f_equal.
  rewrite <- (list_fmap_id l) at 1. apply list_fmap_ext. intros i e' Hi. simpl.
  rewrite decide_False; [done|]. intros He'. apply He. apply list_elem_of_fmap. exists e'.
  split; [congruence|]. apply list_elem_of_lookup. eauto.
Qed.

Lemma known_spec id l : known id l = true <-> id ∈ (e_id <$> l).
Proof.
  unfold known. rewrite existsb_exists, list_elem_of_fmap. split.
  - intros (e & He & Hd). apply bool_decide_eq_true in Hd. exists e. by rewrite list_elem_of_In.
  - intros (e & -> & He). exists e. rewrite bool_decide_eq_true. by rewrite <- list_elem_of_In.
Qed.

(** An entry-wise update that keeps identifiers, keeps weights in range and
    does not raise the positive credit keeps a scheduler well formed. *)
Lemma wf_fmap M n g l :
  (forall e, e_id (g e) = e_id e) ->
  (forall e, 1 <= entry_weight e <= M -> 1 <= entry_weight (g e) <= M) ->
  (forall e, (e_ready e = false -> e_credit e = 0) -> e_ready (g e) = false -> e_credit (g e) = 0) ->
  (forall e, Z.max 0 (e_credit (g e)) <= Z.max 0 (e_credit e)) ->
  wf M n l -> wf M n (g <$> l).
Proof.
  intros Hid Hwt Hidle Hpos [Hnd Hlen Hw Hi Hp]. split.
  - rewrite <- list_fmap_compose. by rewrite (list_fmap_ext (e_id ∘ g) e_id) by (intros; apply Hid).
  - by rewrite length_fmap.
  - apply Forall_fmap. eapply Forall_impl; [exact Hw|]. intros e; exact (Hwt e).
  - apply Forall_fmap. eapply Forall_impl; [exact Hi|]. intros e; exact (Hidle e).
  - rewrite sumZ_fmap. etransitivity; [|exact Hp]. apply sumZ_le, Forall_forall. auto.
Qed.

Lemma wf_register M n s id p :
  1 <= weight p <= M -> Z.of_nat (length (entries (register s id p))) <= n ->
  wf M n (entries s) -> wf M n (entries (register s id p)).
Proof.
  intros Hp Hlen Hwf. unfold register in *. destruct (known id (entries s)) eqn:Hk; simpl in *.
  - rewrite alter_first_map by apply Hwf. apply wf_fmap; [..|done]; intros e; case_decide; simpl; auto; lia.
  - destruct Hwf as [Hnd Hl Hw Hi Hs]. split; [|done|..].
    + rewrite fmap_app. apply NoDup_app. split; [done|]. split; [|apply NoDup_singleton].
      intros x Hx. simpl. intros ->%list_elem_of_singleton.
      apply known_spec in Hx. congruence.
    + apply Forall_app. split; [done|]. by apply Forall_singleton.
    + apply Forall_app. split; [done|]. by apply Forall_singleton.
    + rewrite sumZ_app, sumZ_cons, sumZ_nil. simpl. lia.
Qed.

Lemma wf_mark_ready M n s id : wf M n (entries s) -> wf M n (entries (mark_ready s id)).
Proof.
  intros Hwf. unfold mark_ready; simpl. rewrite alter_first_map by apply Hwf.
  apply wf_fmap; [..|done]; intros e; case_decide; destruct (e_ready e) eqn:E; simpl; auto; try lia; congruence.
Qed.

Lemma wf_mark_empty M n s id : wf M n (entries s) -> wf M n (entries (mark_empty s id)).
Proof.
  intros Hwf. unfold mark_empty; simpl. rewrite alter_first_map by apply Hwf.
  apply wf_fmap; [..|done]; intros e; case_decide; simpl; auto; lia.
Qed.

Lemma ready_weight_bound M n l : wf M n l -> 0 <= M -> ready_weight l <= M * n.
Proof.
  intros [_ Hlen Hw _ _] HM. transitivity (sumZ (fun _ : Entry => M) l).
  - apply sumZ_le. eapply Forall_impl; [exact Hw|]. intros e He. unfold ready_weight_of.
    simpl in *. destruct (e_ready e); lia.
  - rewrite sumZ_const. nia.
Qed.

(** The bound on positive credit survives a pick: either the chosen entry can
    pay the whole ready weight, or no credit exceeds that weight. *)
Lemma wf_pick_pos M n s :
  0 <= M -> wf M n (entries s) ->
  sumZ (fun e => Z.max 0 (e_credit e)) (entries (pick s).2) <= M * n * n.
Proof.
  intros HM Hwf. pose proof (ready_weight_bound _ _ _ Hwf HM) as HW.
  destruct (pick_spec s) as [[Hf ->]|(c & e & Hc & Hr & Hmax & ->)]; [apply Hwf|]. simpl.
  destruct Hwf as [Hnd Hlen Hw Hi Hp]. set (W := ready_weight (entries s)) in *.
  assert (0 <= W) as HW0.
  { apply ready_weight_nonneg. eapply Forall_impl; [exact Hw|]. simpl; lia. }
  rewrite (sumZ_alter _ _ _ c (bump e)) by (by rewrite list_lookup_fmap, Hc). rewrite sumZ_fmap.
  assert (e_credit (bump e) = e_credit e + entry_weight e) as Hbe by (unfold bump; by rewrite Hr).
  unfold add_credit at 1; simpl. rewrite Hbe.
  destruct (Z_le_gt_dec W (e_credit e + entry_weight e)) as [Hge|Hlt].
  - assert (sumZ (fun e0 => Z.max 0 (e_credit (bump e0))) (entries s) <=
      sumZ (fun e0 => Z.max 0 (e_credit e0) + ready_weight_of e0) (entries s)) as Hle.
    { apply sumZ_le. eapply Forall_impl; [exact Hw|]. intros e0 He0. unfold bump, ready_weight_of.
      simpl in *. destruct (e_ready e0); simpl; lia. }
    rewrite sumZ_plus in Hle. fold (ready_weight (entries s)) in Hle. fold W in Hle. lia.
  - assert (sumZ (fun e0 => Z.max 0 (e_credit (bump e0))) (entries s) <= M * n * Z.of_nat (length (entries s))) as Hle.
    { rewrite <- sumZ_const. apply sumZ_le, Forall_forall. intros e0 He0.
      unfold bump. destruct (e_ready e0) eqn:E0; simpl.
      - specialize (Hmax e0 He0 E0). lia.
      - rewrite Forall_forall in Hi. rewrite (Hi e0 He0 E0). lia. }
    nia.
Qed.

Lemma wf_pick M n s : 0 <= M -> wf M n (entries s) -> wf M n (entries (pick s).2).
Proof.
  intros HM Hwf. pose proof (wf_pick_pos _ _ _ HM Hwf) as Hpos. destruct Hwf as [Hnd Hlen Hw Hi Hp].
  split; [by rewrite pick_ids|by rewrite pick_length|by apply (pick_weights s (fun w => 1 <= w <= M))| |done].
  apply Forall_lookup. intros i e' Hi' Hr'.
  destruct (lookup_lt_is_Some_2 (entries s) i) as [ei Hei].
  { rewrite <- pick_length. by eapply lookup_lt_Some. }
  destruct (pick_entry s i ei Hnd Hei) as (e'' & Hi'' & _ & _ & Hr & Hcr). simplify_eq.
  rewrite Forall_lookup in Hi. rewrite Hr in Hr'. rewrite Hcr, (Hi i ei Hei Hr').
  unfold ready_weight_of. rewrite Hr'. rewrite decide_False; [lia|]. intros Hp'.
  destruct (pick_spec s) as [[Hf Hpk]|(c & e & Hc & Hrc & Hmax & Hpk)]; rewrite Hpk in Hp'; simpl in Hp'; [done|].
  injection Hp' as Hid. assert (c = i) as -> by by eapply ids_inj. congruence.
Qed.

Lemma wf_apply_op M n s o :
  0 <= M -> op_ok M o -> Z.of_nat (length (entries (apply_op s o).2)) <= n ->
  wf M n (entries s) -> wf M n (entries (apply_op s o).2).
Proof.
  intros HM Hop Hlen Hwf. destruct o; cbn [apply_op snd op_ok] in *;
    auto using wf_register, wf_mark_ready, wf_mark_empty, wf_pick.
Qed.

(** Operations other than picking [x] or emptying it never take credit from
    [x] while it is ready; a pick that does not select it credits it. *)
Lemma apply_op_credit M n s o e :
  wf M n (entries s) -> op_ok M o -> o <> OpMarkEmpty (e_id e) ->
  e ∈ entries s -> e_ready e = true ->
  (apply_op s o).1 = Some (e_id e) \/
  exists e', e' ∈ entries (apply_op s o).2 /\ e_id e' = e_id e /\ e_ready e' = true /\
    e_credit e + (if is_pick o then 1 else 0) <= e_credit e'.
Proof.
  intros Hwf Hok Hne He Hr. destruct o as [id p|id|id|]; cbn [apply_op fst snd is_pick].
  - right. unfold register. destruct (known id (entries s)); cbn [entries].
    + rewrite alter_first_map by apply Hwf. eexists. split; [apply list_elem_of_fmap_2, He|].
      simpl. case_decide; simpl; repeat split; auto; lia.
    + exists e. split; [apply elem_of_app; by left|]. repeat split; auto; lia.
  - right. unfold mark_ready; cbn [entries]. rewrite alter_first_map by apply Hwf.
    exists e. split; [|repeat split; auto; lia]. apply list_elem_of_fmap. exists e. split; [|done].
    rewrite Hr. by case_decide.
  - right. unfold mark_empty; cbn [entries]. rewrite alter_first_map by apply Hwf.
    exists e. split; [|repeat split; auto; lia]. apply list_elem_of_fmap. exists e. split; [|done].
    rewrite decide_False; [done|]. intros <-. done.
  - apply list_elem_of_lookup in He as [i Hi].
    destruct (pick_entry s i e (ws_nodup _ _ _ Hwf) Hi) as (e' & Hi' & Hid & Hp & Hr' & Hc).
    destruct (decide ((pick s).1 = Some (e_id e))) as [|Hns]; [by left|right].
    exists e'. split; [apply list_elem_of_lookup; eauto|]. split; [done|]. split; [congruence|].
    rewrite Hc. unfold ready_weight_of. rewrite Hr.
    pose proof (ws_weight _ _ _ Hwf) as Hw. rewrite Forall_lookup in Hw. specialize (Hw i e Hi).
    simpl in Hw. lia.
Qed.

Lemma apply_op_length s o : (length (entries s) <= length (entries (apply_op s o).2))%nat.
Proof.
  destruct o; cbn [apply_op snd].
  - unfold register. destruct (known _ _); cbn [entries].
    + clear. induction (entries s) as [|e l IH]; simpl; [lia|]. case_decide; simpl; lia.
    + rewrite length_app. lia.
  - unfold mark_ready; cbn [entries]. clear. induction (entries s) as [|e l IH]; simpl; [lia|].
    case_decide; simpl; lia.
  - unfold mark_empty; cbn [entries]. clear. induction (entries s) as [|e l IH]; simpl; [lia|].
    case_decide; simpl; lia.
  - by rewrite pick_length.
Qed.

Lemma run_length os : forall s, (length (entries s) <= length (entries (run os s).2))%nat.
Proof.
  induction os as [|o os IH]; intros s; [simpl; lia|]. cbn [run].
  rewrite (surjective_pairing (apply_op s o)), (surjective_pairing (run os (apply_op s o).2)).
  cbn [snd]. etransitivity; [apply apply_op_length|apply IH].
Qed.

(** No starvation: from any well-formed state, under any interleaving of
    registrations, readiness changes and picks, a subscription that is ready
    with credit [c] and is not marked empty is selected before
    [M * n * n - c + 1] picks have happened, where [n] bounds the number of
    subscriptions at the end of the run and [M] their weights. *)
Theorem ready_subscription_is_picked M n os : forall s e,
  0 <= M ->
  wf M n (entries s) -> Forall (op_ok M) os ->
  Z.of_nat (length (entries (run os s).2)) <= n ->
  e ∈ entries s -> e_ready e = true -> OpMarkEmpty (e_id e) ∉ os ->
  M * n * n - e_credit e < Z.of_nat (picks_in os) ->
  Some (e_id e) ∈ (run os s).1.
Proof.
  induction os as [|o os IH]; intros s e HM Hwf Hok Hlen He Hr Hne Hpk.
  - exfalso. unfold picks_in in Hpk. simpl in Hpk.
    pose proof (sumZ_elem_le (fun e => Z.max 0 (e_credit e)) (entries s) e) as Hle.
    specialize (Hle (proj2 (Forall_forall _ _) (fun x _ => Z.le_max_l _ _)) He). simpl in Hle.
    pose proof (ws_pos _ _ _ Hwf). lia.
  - apply Forall_cons in Hok as [Hoko Hok]. rewrite not_elem_of_cons in Hne. destruct Hne as [Hneo Hne].
    cbn [run] in *.
    rewrite (surjective_pairing (apply_op s o)), (surjective_pairing (run os (apply_op s o).2)) in *.
    cbn [fst snd] in *. pose proof (run_length os (apply_op s o).2) as Hmono.
    destruct (apply_op_credit M n s o e) as [->|(e' & He' & Hid & Hr' & Hc)]; auto; [by left|].
    right. rewrite <- Hid. apply IH; auto.
    + apply wf_apply_op; auto. lia.
    + by rewrite Hid.
    + unfold picks_in in *. rewrite filter_cons in Hpk. destruct o; simpl in *; lia.
Qed.

(** ** Witnesses *)

Definition two_queues : WeightedFairScheduler :=
  mkScheduler [mkEntry "high" (mkPolicy 3) true 0; mkEntry "low" (mkPolicy 1) true 0] 0.

Lemma pick_window_proportional_witness :
  (pick_n 4 two_queues).1 = [Some "high"; Some "high"; Some "low"; Some "high"] /\
  count_picks "high" (pick_n 4 two_queues).1 = 3 /\
  settled (entries (pick_n 4 two_queues).2).
Proof.
  destruct (pick_window_proportional two_queues) as [H1 H2].
  - vm_compute. repeat constructor; set_solver.
  - repeat constructor; vm_compute; congruence.
  - repeat constructor.
  - split; [vm_compute; reflexivity|]. split; [|exact H2].
    apply Forall_cons in H1 as [H1 _]. by apply H1.
Defined.

Definition one_queue : WeightedFairScheduler :=
  mkScheduler [mkEntry "only" (mkPolicy 1) true 0] 0.

Lemma ready_subscription_is_picked_witness :
  Some "only" ∈ (run [OpPick; OpMarkReady "only"; OpPick] one_queue).1.
Proof.
  apply (ready_subscription_is_picked 1 1 [OpPick; OpMarkReady "only"; OpPick]
           one_queue (mkEntry "only" (mkPolicy 1) true 0)); try reflexivity; try lia.
  - split; vm_compute; try (repeat constructor; set_solver); try congruence;
      repeat constructor; congruence.
  - repeat constructor.
  - vm_compute. left.
  - set_solver.
Defined.

End Scheduler.
