(* ===== verification/Attempts.v ===== *)
(** * Delivery attempts

    Models [consumer/attempts.rs]: how a Laravel-compatible attempt number is
    resolved from broker and application headers, the inclusive cap, and the
    headers a delayed release republishes with. *)

From S2P Require Import Prelude Transport.
From Stdlib Require Import Ascii.
From stdpp Require Import pretty.
Import Transport.
Local Open Scope Z_scope.
Local Open Scope rabbit_scope.

Module Attempts.

(** ** Data *)

Definition APPLICATION_ATTEMPTS_HEADER : string := "x-rabbit-rs-attempts".
Definition ACQUIRED_COUNT_HEADER : string := "x-acquired-count".
Definition DELIVERY_COUNT_HEADER : string := "x-delivery-count".
Definition DEFAULT_MAX_ATTEMPTS : Z := 20.

(** [max_attempts : Option<NonZeroU32>] *)
Record AttemptsResolver := mkResolver { max_attempts : option Z }.

Definition resolver_default : AttemptsResolver := mkResolver (Some DEFAULT_MAX_ATTEMPTS).

Definition with_max_attempts (r : AttemptsResolver) (m : option Z) : AttemptsResolver :=
  mkResolver m.

Record AttemptsError := mkAttemptsError {
  ae_attempts : Z;
  ae_max_attempts : option Z
}.

(** [impl Display for AttemptsError] *)
Definition attempts_error_display (e : AttemptsError) : string :=
  match ae_max_attempts e with
  | Some maximum =>
      "delivery attempt " +:+ pretty (ae_attempts e) +:+
      " exceeds the configured maximum of " +:+ pretty maximum
  | None => "delivery attempts could not be resolved"
  end.

(** ** Header counts *)

Definition digit_of (c : ascii) : option Z :=
  let n := Z.of_nat (nat_of_ascii c) in
  if (48 <=? n) && (n <=? 57) then Some (n - 48) else None.

(** [u32::from_str] on the digits: every intermediate value must fit. *)
Fixpoint parse_digits (acc : Z) (s : string) : option Z :=
  match s with
  | EmptyString => Some acc
  | String c s' =>
      match digit_of c with
      | Some d => match try_from U32_MAX (acc * 10 + d) with
                  | Some acc' => parse_digits acc' s'
                  | None => None
                  end
      | None => None
      end
  end.

(** [str::parse::<u32>]: one optional leading [+], then at least one digit.
    Bytes that are not UTF-8 contain no digit string, so they fail here too. *)
Definition parse_u32 (s : string) : option Z :=
  let digits := match s with String "+"%char s' => s' | _ => s end in
  match digits with EmptyString => None | _ => parse_digits 0 digits end.

Definition header_count (h : Headers) (name : string) : option Z :=
  match headers_get h name with
  | Some (Integer v) => try_from U32_MAX v
  | Some (Binary v) => parse_u32 v
  | _ => None
  end.

(** ** Operations *)

Definition validate (r : AttemptsResolver) (attempts : Z) : result Z AttemptsError :=
  match max_attempts r with
  | Some maximum =>
      if maximum <? attempts
      then Err (mkAttemptsError attempts (max_attempts r))
      else Ok attempts
  | None => Ok attempts
  end.

Definition resolve (r : AttemptsResolver) (h : Headers) (redelivered : bool)
  : result Z AttemptsError :=
  let acquired := (fun v => Z.max v 1) <$> header_count h ACQUIRED_COUNT_HEADER in
  let failed_deliveries :=
    (fun v => sat_add U32_MAX v 1) <$> header_count h DELIVERY_COUNT_HEADER in
  let broker_attempts :=
    match acquired with
    | Some a => a
    | None => match failed_deliveries with
              | Some f => f
              | None => if redelivered then 2 else 1
              end
    end in
  let application_attempts := default 1 (header_count h APPLICATION_ATTEMPTS_HEADER) in
  let attempts := Z.max (Z.max broker_attempts application_attempts) 1 in
  validate r attempts.

Definition delayed_headers (r : AttemptsResolver) (h : Headers) (attempts : Z)
  : result Headers AttemptsError :=
  let? next_attempt := validate r (sat_add U32_MAX attempts 1) in
  let h1 := headers_remove h ACQUIRED_COUNT_HEADER in
  let h2 := headers_remove h1 DELIVERY_COUNT_HEADER in
  Ok (headers_insert h2 APPLICATION_ATTEMPTS_HEADER (Integer next_attempt)).

(** A message released with a delay [k] times, each delivery resolved and
    republished with the headers of the previous release. *)
Fixpoint release_chain (r : AttemptsResolver) (k : nat) (h : Headers) (redelivered : bool)
  : result Z AttemptsError :=
  match k with
  | O => resolve r h redelivered
  | S k' =>
      let? a := resolve r h redelivered in
      let? h' := delayed_headers r h a in
      release_chain r k' h' redelivered
  end.

(** ** Theorems *)

Lemma parse_digits_bounds s : forall acc v,
  0 <= acc <= U32_MAX -> parse_digits acc s = Some v -> 0 <= v <= U32_MAX.
Proof.
  induction s as [|c s IH]; intros acc v Hacc H; simpl in H; [by simplify_eq|].
  destruct (digit_of c); [|done]. destruct (try_from U32_MAX _) as [acc'|] eqn:E; [|done].
  apply try_from_Some in E as [<- E]. eauto.
Qed.

Lemma header_count_bounds h name v : header_count h name = Some v -> 0 <= v <= U32_MAX.
Proof.
  unfold header_count, parse_u32. intros H.
  destruct (headers_get h name) as [[| | | |b| | |]|]; try done.
  - apply try_from_Some in H as [-> H]. done.
  - set (d := match b with String "+" s' => s' | _ => b end) in H.
    destruct d as [|c s] eqn:E; [done|]. eapply parse_digits_bounds; [|exact H]. unfold U32_MAX; lia.
Qed.

Lemma validate_Ok r a b : validate r a = Ok b <-> a = b /\ forall m, max_attempts r = Some m -> a <= m.
Proof.
  unfold validate. destruct (max_attempts r) as [m|].
  - destruct (m <? a) eqn:E; zbool.
    + split; [done|]. intros [_ H]. specialize (H m eq_refl). lia.
    + split; [intros [= ->]; split; [done|]; intros ? [= <-]; lia|]. by intros [-> _].
  - split; [intros [= ->]; split; [done|]; intros; congruence|]. by intros [-> _].
Qed.

(** The attempt [resolve] validates. *)
Lemma resolve_candidate r h redelivered :
  exists a, 1 <= a <= U32_MAX /\ resolve r h redelivered = validate r a.
Proof.
  unfold resolve. eexists. split; [|reflexivity]. set (a := Z.max (Z.max _ _) 1).
  assert (forall n, default 1 (header_count h n) <= U32_MAX) as Hd.
  { intros n. destruct (header_count h n) eqn:E; simpl; [apply header_count_bounds in E; lia|unfold U32_MAX; lia]. }
  pose proof (Hd APPLICATION_ATTEMPTS_HEADER). subst a. split; [lia|].
  apply Z.max_lub; [apply Z.max_lub; [|done]|unfold U32_MAX; lia].
  destruct (header_count h ACQUIRED_COUNT_HEADER) eqn:E1; simpl.
  { apply header_count_bounds in E1. unfold U32_MAX in *; lia. }
  destruct (header_count h DELIVERY_COUNT_HEADER); simpl; [apply sat_add_le|].
  destruct redelivered; unfold U32_MAX; lia.
Qed.

(** The resolved attempt is at least one, fits in a [u32] and never
    exceeds the configured inclusive cap; a refusal reports the attempt that
    is above the cap. *)
Theorem resolve_bounds r h redelivered :
  match resolve r h redelivered with
  | Ok a => 1 <= a <= U32_MAX /\ forall m, max_attempts r = Some m -> a <= m
  | Err e => exists m, max_attempts r = Some m /\ m < ae_attempts e <= U32_MAX /\
                       ae_max_attempts e = Some m
  end.
Proof.
  destruct (resolve_candidate r h redelivered) as (a & Ha & ->).
  destruct (validate r a) as [b|e] eqn:E.
  - by apply validate_Ok in E as [<- E].
  - unfold validate in E. destruct (max_attempts r) as [m|]; [|done].
    destruct (m <? a) eqn:Em; [|done]. zbool. injection E as <-. exists m. cbn [ae_attempts ae_max_attempts].
    repeat split; [lia..].
Qed.

Lemma resolve_released r h a redelivered :
  1 <= a -> header_count h ACQUIRED_COUNT_HEADER = None -> header_count h DELIVERY_COUNT_HEADER = None ->
  headers_get h APPLICATION_ATTEMPTS_HEADER = Some (Integer (a + 1)) -> a + 1 <= U32_MAX ->
  resolve r h redelivered = validate r (a + 1).
Proof.
  intros Ha H1 H2 H3 Hle. unfold resolve. rewrite H1, H2. simpl.
  unfold header_count. rewrite H3.
  assert (try_from U32_MAX (a + 1) = Some (a + 1)) as -> by (apply try_from_Some; lia). simpl.
  f_equal. destruct redelivered; lia.
Qed.

Lemma delayed_headers_get r h a h' :
  delayed_headers r h a = Ok h' ->
  headers_get h' ACQUIRED_COUNT_HEADER = None /\ headers_get h' DELIVERY_COUNT_HEADER = None /\
  headers_get h' APPLICATION_ATTEMPTS_HEADER = Some (Integer (sat_add U32_MAX a 1)) /\
  (forall m, max_attempts r = Some m -> sat_add U32_MAX a 1 <= m) /\
  (forall n, n <> ACQUIRED_COUNT_HEADER -> n <> DELIVERY_COUNT_HEADER ->
     n <> APPLICATION_ATTEMPTS_HEADER -> headers_get h' n = headers_get h n).
Proof.
  unfold delayed_headers. destruct (validate r _) as [b|] eqn:E; [|done]. intros [= <-].
  apply validate_Ok in E as [<- E].
  rewrite !headers_get_insert_eq. rewrite !(headers_get_insert_ne _ APPLICATION_ATTEMPTS_HEADER) by done.
  rewrite headers_get_remove_eq, headers_get_remove_ne by done. rewrite headers_get_remove_eq.
  repeat split; auto. intros n H1 H2 H3. rewrite headers_get_insert_ne by done.
  rewrite headers_get_remove_ne by done. by rewrite headers_get_remove_ne.
Qed.

Lemma delayed_headers_next r h a h' redelivered :
  1 <= a < U32_MAX -> delayed_headers r h a = Ok h' -> resolve r h' redelivered = Ok (a + 1).
Proof.
  intros Ha H. apply delayed_headers_get in H as (H1 & H2 & H3 & H4 & _).
  rewrite sat_add_exact in H3, H4 by lia.
  rewrite (resolve_released r h' a); [|lia| | |done|lia].
  - apply validate_Ok. auto.
  - unfold header_count. by rewrite H1.
  - unfold header_count. by rewrite H2.
Qed.

(** Round trip of a delayed release: the headers a release republishes
    with resolve to exactly the next attempt, whatever the broker says about
    redelivery, and every unrelated header is kept. *)
Theorem delayed_headers_roundtrip r h a h' redelivered :
  1 <= a < U32_MAX -> delayed_headers r h a = Ok h' ->
  resolve r h' redelivered = Ok (a + 1) /\
  (forall n, n <> ACQUIRED_COUNT_HEADER -> n <> DELIVERY_COUNT_HEADER ->
     n <> APPLICATION_ATTEMPTS_HEADER -> headers_get h' n = headers_get h n).
Proof.
  intros Ha H. split; [by apply (delayed_headers_next r h)|].
  by apply delayed_headers_get in H as (_ & _ & _ & _ & H).
Qed.

(** A capped message cannot be released forever: starting from attempt
    [a], the release chain succeeds with [a + k] exactly while [a + k] stays
    within the cap, and is refused from then on. *)
Theorem release_chain_capped r m k : forall h redelivered a,
  max_attempts r = Some m -> m < U32_MAX ->
  resolve r h redelivered = Ok a ->
  match release_chain r k h redelivered with
  | Ok b => b = a + Z.of_nat k /\ b <= m
  | Err _ => m < a + Z.of_nat k
  end.
Proof.
  induction k as [|k IH]; intros h redelivered a Hm Hcap Ha; cbn [release_chain]; rewrite Ha;
    destruct (resolve_candidate r h redelivered) as (c & Hc & Ec); rewrite Ha in Ec;
    symmetry in Ec; apply validate_Ok in Ec as [-> Hle]; specialize (Hle m Hm).
  - split; lia.
  - destruct (delayed_headers r h a) as [h'|e] eqn:E.
    + specialize (IH h' redelivered (a + 1) Hm Hcap (delayed_headers_next r h a h' redelivered ltac:(lia) E)).
      destruct (release_chain r k h' redelivered); lia.
    + unfold delayed_headers in E. rewrite sat_add_exact in E by lia.
      unfold validate in E. rewrite Hm in E. destruct (m <? a + 1) eqn:El; [|done]. zbool. lia.
Qed.

(** ** Witnesses *)

Lemma delayed_headers_roundtrip_witness :
  exists h', delayed_headers resolver_default [("x-delivery-count", Integer 2)] 3 = Ok h' /\
    resolve resolver_default h' true = Ok 4.
Proof.
  eexists. split; [vm_compute; reflexivity|].
  refine (proj1 (delayed_headers_roundtrip resolver_default [("x-delivery-count", Integer 2)] 3 _ true _ _)).
  - unfold U32_MAX; lia.
  - vm_compute; reflexivity.
Defined.

Lemma release_chain_capped_witness :
  match release_chain resolver_default 19 [] false with
  | Ok b => b = 20 /\ b <= 20
  | Err _ => 20 < 20
  end.
Proof.
  apply (release_chain_capped resolver_default 20 19 [] false 1); [reflexivity|unfold U32_MAX; lia|reflexivity].
Defined.

End Attempts.
