(* ===== verification/Recovery.v ===== *)
(** * Reconnect policy

    Models [recovery.rs]: the connection life cycle it reports, the capped
    exponential delay and the jitter applied to it. The pseudo-random source
    ([fastrand::u64]) is a parameter that returns a value of the range it is
    given; the clock is the caller's. *)

From S2P Require Import Prelude Transport.
Import Transport.
Local Open Scope Z_scope.

Module Recovery.

(** ** Data *)

Inductive ConnectionState :=
| Disconnected
| Connecting (attempt : Z)
| Ready (generation : Z)
| Recovering (attempt retry_in : Z) (reason : string)
| FailedPermanent (kind : TransportErrorKind) (reason : string)
| Closed.

Record RecoveryPolicy := mkRecoveryPolicy {
  initial_delay : Z;
  maximum_delay : Z
}.

Definition recovery_policy_default : RecoveryPolicy :=
  mkRecoveryPolicy (from_millis 100) (from_secs 30).

(** ** Operations *)

Definition delay_for_failure (p : RecoveryPolicy) (consecutive_failures : Z) : Z :=
  if consecutive_failures =? 0 then Duration_ZERO
  else
    let exponent := Z.min (sat_sub consecutive_failures 1) 31 in
    Z.min (duration_saturating_mul (initial_delay p) (Z.shiftl 1 exponent)) (maximum_delay p).

(** [EqualJitter::apply]. [rand hi] is [fastrand::u64(0..=hi)]. [None] is the
    panic of [Duration * u32] on overflow. *)
Definition equal_jitter (rand : Z -> Z) (delay : Z) : option Z :=
  match duration_mul delay 4 with
  | None => None
  | Some quadruple =>
      let minimum := quadruple / 5 in
      let spread := sat_sub delay minimum in
      let random_nanos := rand (default U64_MAX (try_from U64_MAX spread)) in
      Some (duration_saturating_add minimum random_nanos)
  end.

(** [IdentityJitter::apply]. *)
Definition identity_jitter (delay : Z) : Z := delay.

(** ** Theorems *)

Lemma delay_for_failure_pos p f :
  0 < f -> delay_for_failure p f =
  Z.min (Z.min (initial_delay p * 2 ^ Z.min (f - 1) 31) DURATION_MAX) (maximum_delay p).
Proof.
  intros Hf. unfold delay_for_failure, duration_saturating_mul.
  destruct (f =? 0) eqn:E; zbool; [lia|].
  rewrite sat_sub_exact by lia. rewrite Z.shiftl_1_l. done.
Qed.

(** The delay is zero before any failure, never exceeds the configured
    maximum, never decreases as failures accumulate, doubles until it
    saturates, and is the maximum from the failure at which the doubled
    delay reaches it. *)
Theorem delay_for_failure_capped_exponential p f g :
  0 <= initial_delay p -> 0 <= maximum_delay p <= DURATION_MAX -> 0 <= f <= g ->
  delay_for_failure p 0 = 0 /\
  0 <= delay_for_failure p f <= maximum_delay p /\
  delay_for_failure p f <= delay_for_failure p g /\
  (0 < f <= 32 -> delay_for_failure p f = Z.min (initial_delay p * 2 ^ (f - 1)) (maximum_delay p)) /\
  (0 < f <= 32 -> maximum_delay p <= initial_delay p * 2 ^ (f - 1) ->
     delay_for_failure p g = maximum_delay p).
Proof.
  intros Hi Hm Hfg. split; [done|].
  assert (forall k, 0 <= k -> 0 < 2 ^ k) as Hpow by (intros; apply Z.pow_pos_nonneg; lia).
  assert (forall k, 0 <= k -> 0 <= delay_for_failure p k <= maximum_delay p) as Hb.
  { intros k Hk. destruct (decide (k = 0)) as [->|]; [unfold delay_for_failure, Duration_ZERO; simpl; lia|].
    rewrite delay_for_failure_pos by lia. pose proof (Hpow (Z.min (k - 1) 31)). unfold DURATION_MAX in *.
    assert (0 <= initial_delay p * 2 ^ Z.min (k - 1) 31) by nia. lia. }
  assert (forall j k, 0 < j <= k ->
    initial_delay p * 2 ^ Z.min (j - 1) 31 <= initial_delay p * 2 ^ Z.min (k - 1) 31) as Hmono.
  { intros j k Hjk. apply Z.mul_le_mono_nonneg_l; [done|]. apply Z.pow_le_mono_r; lia. }
  split; [apply Hb; lia|]. split.
  - destruct (decide (f = 0)) as [->|]; [apply Hb; lia|].
    rewrite !delay_for_failure_pos by lia. pose proof (Hmono f g). lia.
  - split; intros Hf.
    + rewrite delay_for_failure_pos, (Z.min_l (f - 1)) by lia. lia.
    + intros Hreach. rewrite delay_for_failure_pos by lia. pose proof (Hmono f g).
      rewrite (Z.min_l (f - 1)) in * by lia. lia.
Qed.

Section Jitter.
Variable rand : Z -> Z.
(** [fastrand::u64(0..=hi)] returns a value of its range. *)
Hypothesis rand_range : forall hi, 0 <= hi -> 0 <= rand hi <= hi.

(** Production jitter keeps a delay between 80% (rounded down to the
    nanosecond) and 100% of its value, and panics only on delays above a
    quarter of the largest duration. *)
Theorem equal_jitter_range delay :
  0 <= delay <= DURATION_MAX ->
  match equal_jitter rand delay with
  | Some d => (delay * 4) / 5 <= d <= delay
  | None => DURATION_MAX < delay * 4
  end.
Proof.
  intros Hd. unfold equal_jitter, duration_mul.
  destruct (delay * 4 <=? DURATION_MAX) eqn:E; zbool; [|done].
  assert (0 <= delay * 4 / 5 <= delay) as Hmin.
  { split; [apply Z.div_pos; lia|]. apply Z.div_le_upper_bound; lia. }
  rewrite sat_sub_exact by lia. unfold duration_saturating_add, sat_add.
  set (spread := delay - delay * 4 / 5) in *.
  assert (0 <= default U64_MAX (try_from U64_MAX spread) <= spread) as Hhi.
  { unfold try_from. destruct (_ && _)%bool eqn:Eb; zbool; simpl; [lia|].
    apply andb_false_iff in Eb as [Eb|Eb]; zbool; unfold U64_MAX in *; lia. }
  pose proof (rand_range _ (proj1 Hhi)). lia.
Qed.

End Jitter.

(** ** Witnesses *)

Lemma delay_for_failure_capped_exponential_witness :
  delay_for_failure recovery_policy_default 3 = from_millis 400 /\
  delay_for_failure recovery_policy_default 40 = from_secs 30.
Proof.
  destruct (delay_for_failure_capped_exponential recovery_policy_default 10 40) as (_ & _ & _ & _ & H);
    [vm_compute; congruence|vm_compute; split; congruence|lia|].
  split; [reflexivity|]. apply H; [lia|]. vm_compute. congruence.
Defined.

Lemma equal_jitter_range_witness :
  match equal_jitter (fun hi => hi / 2) (from_secs 30) with
  | Some d => (from_secs 30 * 4) / 5 <= d <= from_secs 30
  | None => DURATION_MAX < from_secs 30 * 4
  end.
Proof.
  apply (equal_jitter_range (fun hi => hi / 2)).
  - intros hi Hhi. split; [apply Z.div_pos; lia|]. apply Z.div_le_upper_bound; lia.
  - vm_compute; split; congruence.
Defined.

End Recovery.
