(* ===== verification/ConnectionActor.v ===== *)
(** * The connection actor

    Models [pool/connection_actor.rs]: the actor that owns one broker connection.
    It connects, reports the connection's life cycle on a watch channel, opens
    channels for its clients, and reconnects with backoff after a loss.

    A step is what the actor does between two awaits: it takes a command, the
    connect attempt ends, the transport reports an event, a deadline passes. What
    the transport answers is part of the event. So is what the jitter source makes of
    a backoff: a source is a relation between delays and results, since [EqualJitter]
    draws a number on every call, and a step takes the result of its own call. The
    watch channel's value is [watch]; [published] logs every value it took. A connection is named by the
    number of connections established so far. *)

From S2P Require Import Prelude Transport Recovery.
Import Transport Recovery.
Local Open Scope Z_scope.
Local Open Scope rabbit_scope.

Module ConnectionActor.

Definition CONNECT_TIMEOUT : Z := from_secs 10.

(** ** Data *)

(** The reply channels of the commands are the entries of [replies]. *)
Inductive Command :=
| CStart
| CConnectionLost (e : TransportError)
| COpenPublisher
| COpenConsumer
| CClose.

Inductive TransportEvent :=
| TEError (e : TransportError)
| TEBlocked (reason : string)
| TEUnblocked.

(** The deadlines are those of the awaits a phase is in: the connect attempt's
    timeout and the backoff sleep. *)
Inductive Phase :=
| PDisconnected
| PConnecting (previous_failures deadline : Z)
| PReady
| PRecovering (failures : Z) (error : TransportError) (wake : Z)
| PFailedPermanent
| PStopped.

(** What a command's sender receives. *)
Inductive CommandReply :=
| ChannelReply (r : result unit TransportError)
| CloseReply.

Record Actor := mkActor {
  phase : Phase;
  connection : option Z;
  generation : Z;
  watch : ConnectionState;
  gauge : Z;
  reconnects : Z;
  now : Z;
  published : list ConnectionState;
  established : list Z;
  closed : list Z;
  replies : list CommandReply
}.

(** [gauge] is the blocked-brokers gauge, shared with the other connections of
    the client. *)
Definition init (start blocked_elsewhere : Z) : Actor :=
  mkActor PDisconnected None 0 Disconnected blocked_elsewhere 0 start [Disconnected] [] [] [].

Definition set_phase (p : Phase) (a : Actor) : Actor :=
  mkActor p (connection a) (generation a) (watch a) (gauge a) (reconnects a) (now a) (published a)
    (established a) (closed a) (replies a).

(** [states.send_replace] *)
Definition send_replace (c : ConnectionState) (a : Actor) : Actor :=
  mkActor (phase a) (connection a) (generation a) c (gauge a) (reconnects a) (now a) (published a ++ [c])
    (established a) (closed a) (replies a).

Definition set_gauge (g : Z) (a : Actor) : Actor :=
  mkActor (phase a) (connection a) (generation a) (watch a) g (reconnects a) (now a) (published a)
    (established a) (closed a) (replies a).

Definition send_reply (r : CommandReply) (a : Actor) : Actor :=
  mkActor (phase a) (connection a) (generation a) (watch a) (gauge a) (reconnects a) (now a) (published a)
    (established a) (closed a) (replies a ++ [r]).

Definition tick (n : Z) (a : Actor) : Actor :=
  mkActor (phase a) (connection a) (generation a) (watch a) (gauge a) (reconnects a) (now a + n) (published a)
    (established a) (closed a) (replies a).

(** The gauge, a 64-bit counter, counts [Blocked] events and never goes below
    zero; the total of blocked episodes is not modelled. *)
Definition record_connection_blocked (a : Actor) : Actor := set_gauge ((gauge a + 1) mod 2 ^ 64) a.
Definition clear_connection_blocked (a : Actor) : Actor := set_gauge (sat_sub (gauge a) 1) a.

(** [close_connection]: the connection is taken and closed, or abandoned when
    the close takes too long. *)
Definition close_connection (a : Actor) : Actor :=
  mkActor (phase a) None (generation a) (watch a) (gauge a) (reconnects a) (now a) (published a)
    (established a) (closed a ++ option_list (connection a)) (replies a).

(** A connect attempt succeeded. *)
Definition establish (a : Actor) : Actor :=
  let g := sat_add U64_MAX (generation a) 1 in
  let id := Z.of_nat (length (established a)) in
  mkActor (phase a) (Some id) g (watch a) (gauge a) (if 1 <? g then reconnects a + 1 else reconnects a) (now a)
    (published a) (established a ++ [id]) (closed a) (replies a).

Definition not_ready : CommandReply :=
  ChannelReply (Err (te_new KClosed "connection is not ready")).

Section Actor.
Variable policy : RecoveryPolicy.

(** What [JitterSource::apply] answers to the call of this step. *)
Variable jittered : Z -> Z.

(** ** Phase changes *)

Definition publish_permanent_failure (e : TransportError) (a : Actor) : Actor :=
  set_phase PFailedPermanent (send_replace (FailedPermanent (te_kind e) (te_message e)) a).

(** Entering [Connecting]: the attempt is published and its timeout runs. *)
Definition enter_connecting (previous_failures : Z) (a : Actor) : Actor :=
  set_phase (PConnecting previous_failures (now a + CONNECT_TIMEOUT))
    (send_replace (Connecting (sat_add U32_MAX previous_failures 1)) a).

(** Entering [Recovering]: the backoff is published and the sleep runs. *)
Definition enter_recovering (failures : Z) (e : TransportError) (a : Actor) : Actor :=
  let retry_in := jittered (delay_for_failure policy failures) in
  set_phase (PRecovering failures e (now a + retry_in))
    (send_replace (Recovering failures retry_in (te_message e)) a).

Definition route_loss (e : TransportError) (a : Actor) : Actor :=
  if is_recoverable e then enter_recovering 1 e a else publish_permanent_failure e a.

(** The connection is gone: gauge, close, next phase. *)
Definition lose (e : TransportError) (a : Actor) : Actor :=
  route_loss e (close_connection (clear_connection_blocked a)).

Definition shutdown (a : Actor) : Actor :=
  set_phase PStopped (send_reply CloseReply (send_replace Closed (close_connection a))).

(** ** Handlers *)

(** [handle_disconnected] and [handle_permanent_failure]: a command. *)
Definition handle_waiting (c : Command) (a : Actor) : Actor :=
  match c with
  | CStart => enter_connecting 0 a
  | CConnectionLost _ => a
  | COpenPublisher | COpenConsumer => send_reply not_ready a
  | CClose => shutdown a
  end.

(** [handle_connecting]: a command during the attempt. The select loop builds
    the timeout anew on its next turn. *)
Definition connecting_command (previous_failures : Z) (c : Command) (a : Actor) : Actor :=
  let again := set_phase (PConnecting previous_failures (now a + CONNECT_TIMEOUT)) in
  match c with
  | CClose => shutdown a
  | COpenPublisher | COpenConsumer => again (send_reply not_ready a)
  | CConnectionLost e => if is_recoverable e then again a else publish_permanent_failure e a
  | CStart => again a
  end.

(** [handle_connecting]: the attempt ended. *)
Definition connecting_result (previous_failures : Z) (r : result unit TransportError) (a : Actor) : Actor :=
  match r with
  | Ok _ =>
      let a := establish a in
      set_phase PReady (send_replace (Ready (generation a)) a)
  | Err e =>
      if is_recoverable e then enter_recovering (sat_add U32_MAX previous_failures 1) e a
      else publish_permanent_failure e a
  end.

(** [handle_recovering]: a command during the backoff. *)
Definition recovering_command (c : Command) (a : Actor) : Actor :=
  match c with
  | CClose => shutdown a
  | CConnectionLost e => if is_recoverable e then a else publish_permanent_failure e a
  | COpenPublisher | COpenConsumer => send_reply not_ready a
  | CStart => a
  end.

Definition channel_timed_out : TransportError := te_new Connection "channel operation timed out".

(** An open on the live connection; [None] is the elapsed budget of
    [bounded_channel_operation]. *)
Definition ready_open (answer : option (result unit TransportError)) (a : Actor) : Actor :=
  match connection a with
  | None => send_reply not_ready a
  | Some _ =>
      match answer with
      | Some r => send_reply (ChannelReply r) a
      | None => lose channel_timed_out (send_reply (ChannelReply (Err channel_timed_out)) a)
      end
  end.

(** [handle_ready]: a command; [answer] is what the transport says to an open. *)
Definition ready_command (c : Command) (answer : option (result unit TransportError)) (a : Actor) : Actor :=
  match c with
  | CConnectionLost e => lose e a
  | COpenPublisher | COpenConsumer => ready_open answer a
  | CStart => a
  | CClose => shutdown (clear_connection_blocked a)
  end.

(** [handle_ready]: an event of the connection; [None] is the end of the
    stream. *)
Definition ready_event (ev : option TransportEvent) (a : Actor) : Actor :=
  match ev with
  | Some (TEError e) => lose e a
  | None => lose (te_new Connection "transport event stream ended") a
  | Some (TEBlocked _) => record_connection_blocked a
  | Some TEUnblocked => clear_connection_blocked a
  end.

(** Every handle was dropped: [commands.recv()] answers [None]. *)
Definition handles_dropped (a : Actor) : Actor :=
  let a := match phase a with PReady => clear_connection_blocked a | _ => a end in
  set_phase PStopped (close_connection a).

(** ** Steps *)

Inductive Event :=
| ECommand (c : Command) (answer : option (result unit TransportError))
| EConnected (r : result unit TransportError)
| EConnectTimeout
| ETransport (ev : option TransportEvent)
| EWake
| EDropped
| ETick (n : Z).

Definition on_command (c : Command) (answer : option (result unit TransportError)) (a : Actor) : option Actor :=
  match phase a with
  | PDisconnected | PFailedPermanent => Some (handle_waiting c a)
  | PConnecting prev _ => Some (connecting_command prev c a)
  | PReady => Some (ready_command c answer a)
  | PRecovering _ _ _ => Some (recovering_command c a)
  | PStopped => None
  end.

Definition step (e : Event) (a : Actor) : option Actor :=
  match e with
  | ECommand c answer => on_command c answer a
  | EConnected r =>
      match phase a with PConnecting prev _ => Some (connecting_result prev r a) | _ => None end
  | EConnectTimeout =>
      match phase a with
      | PConnecting prev deadline =>
          if deadline <=? now a
          then Some (connecting_result prev (Err (te_new Connection "connect attempt timed out")) a) else None
      | _ => None
      end
  | ETransport ev => match phase a with PReady => Some (ready_event ev a) | _ => None end
  | EWake =>
      match phase a with
      | PRecovering failures _ wake => if wake <=? now a then Some (enter_connecting failures a) else None
      | _ => None
      end
  | EDropped => match phase a with PStopped => None | _ => Some (handles_dropped a) end
  | ETick n => if 0 <=? n then Some (tick n a) else None
  end.

End Actor.

Section System.
Variable policy : RecoveryPolicy.

(** A [JitterSource]: the results it may return for a delay. *)
Variable jitter : Z -> Z -> Prop.

(** A run: events, each with the answers of the jitter source during its step. *)
Fixpoint run (es : list ((Z -> Z) * Event)) (a : Actor) : option Actor :=
  match es with
  | [] => Some a
  | (jittered, e) :: es' => a' ← step policy jittered e a; run es' a'
  end.

Inductive reach (start g : Z) : Actor -> Prop :=
| reach_init : reach start g (init start g)
| reach_step jittered e a a' :
    reach start g a -> (forall d, jitter d (jittered d)) -> step policy jittered e a = Some a' -> reach start g a'.

(** ** The specification: a life cycle with generations

    The observable state is the watch value and the last generation. *)

Definition Spec : Type := ConnectionState * Z.

Inductive spec_step : Spec -> Spec -> Prop :=
| sp_start c g :
    c = Disconnected \/ (exists k r, c = FailedPermanent k r) ->
    spec_step (c, g) (Connecting 1, g)
| sp_ready n g :
    spec_step (Connecting n, g) (Ready (sat_add U64_MAX g 1), sat_add U64_MAX g 1)
| sp_backoff n g d reason :
    jitter (delay_for_failure policy n) d -> spec_step (Connecting n, g) (Recovering n d reason, g)
| sp_lost g d reason :
    jitter (delay_for_failure policy 1) d -> spec_step (Ready g, g) (Recovering 1 d reason, g)
| sp_retry n d reason g :
    spec_step (Recovering n d reason, g) (Connecting (sat_add U32_MAX n 1), g)
| sp_failed c g k reason :
    (exists n, c = Connecting n) \/ c = Ready g \/ (exists n d r, c = Recovering n d r) ->
    k <> Connection -> k <> KClosed ->
    spec_step (c, g) (FailedPermanent k reason, g)
| sp_closed c g : c <> Closed -> spec_step (c, g) (Closed, g).

(** The values that a receiver of the watch channel may see, in order. *)
Inductive spec_trace : list ConnectionState -> Spec -> Prop :=
| st_init : spec_trace [Disconnected] (Disconnected, 0)
| st_step tr sp c g : spec_trace tr sp -> spec_step sp (c, g) -> spec_trace (tr ++ [c]) (c, g).

Definition view (a : Actor) : Spec := (watch a, generation a).

(** The watch value tells the phase, and the live connection belongs to
    [Ready]. *)
Definition agrees (a : Actor) : Prop :=
  match phase a with
  | PDisconnected => watch a = Disconnected
  | PConnecting prev _ => watch a = Connecting (sat_add U32_MAX prev 1)
  | PReady => watch a = Ready (generation a)
  | PRecovering n _ _ => exists d r, watch a = Recovering n d r
  | PFailedPermanent => exists k r, watch a = FailedPermanent k r
  | PStopped => True
  end.

Record inv (a : Actor) : Prop := {
  in_agrees : agrees a;
  in_conn : is_Some (connection a) <-> phase a = PReady;
  in_conns : established a = closed a ++ option_list (connection a);
  in_nodup : NoDup (established a);
  in_count : established a = Z.of_nat <$> seq 0 (length (established a));
  in_generation : generation a = Z.min (Z.of_nat (length (established a))) U64_MAX;
  in_reconnects : reconnects a = Z.max 0 (Z.of_nat (length (established a)) - 1)
}.

(** ** Every step keeps the invariant and follows the specification *)

Lemma inv_init start g : inv (init start g).
Proof. split; simpl; try done; constructor. Qed.

(** A phase change without a connection. *)
Lemma inv_leave a p c :
  inv a -> p <> PReady -> agrees (set_phase p (send_replace c (close_connection a))) ->
  inv (set_phase p (send_replace c (close_connection a))).
Proof.
  intros [] Hp Ha. split; simpl; try done. by rewrite in_conns0, (right_id_L [] (++)).
Qed.

Lemma close_idle a : inv a -> phase a <> PReady -> close_connection a = a.
Proof.
  intros [] Hp. destruct (connection a) as [x|] eqn:E.
  - exfalso. apply Hp, in_conn0. by eexists.
  - unfold close_connection. rewrite E. simpl. rewrite (right_id_L [] (++)). destruct a; simpl in *. by subst.
Qed.

Lemma inv_gauge g a : inv a -> inv (set_gauge g a).
Proof. intros []. by split. Qed.

Lemma inv_reply r a : inv a -> inv (send_reply r a).
Proof. intros []. by split. Qed.

Lemma inv_time n a : inv a -> inv (tick n a).
Proof. intros []. by split. Qed.

Lemma inv_move p c a :
  inv a -> phase a <> PReady -> p <> PReady -> agrees (set_phase p (send_replace c a)) ->
  inv (set_phase p (send_replace c a)).
Proof.
  intros Hi Hn Hp Ha. rewrite <- (close_idle a Hi Hn) in *. by apply inv_leave.
Qed.

Lemma inv_failed e a : inv a -> phase a <> PReady -> inv (publish_permanent_failure e a).
Proof. intros Hi Hn. apply inv_move; try done. unfold agrees. simpl. eauto. Qed.

Lemma inv_recovering jittered n e a : inv a -> phase a <> PReady -> inv (enter_recovering policy jittered n e a).
Proof. intros Hi Hn. apply inv_move; try done. unfold agrees. simpl. eauto. Qed.

Lemma inv_connecting n a : inv a -> phase a <> PReady -> inv (enter_connecting n a).
Proof. intros Hi Hn. by apply inv_move. Qed.

(** Dropping the connection of a [Ready] actor, then moving on. *)
Lemma inv_lose jittered e a : inv a -> inv (lose policy jittered e a).
Proof.
  intros Hi. apply (inv_gauge (sat_sub (gauge a) 1)) in Hi. unfold lose, route_loss.
  fold (clear_connection_blocked a) in Hi. destruct (is_recoverable e).
  - apply inv_leave; [done|done|]. unfold agrees. simpl. eauto.
  - apply inv_leave; [done|done|]. unfold agrees. simpl. eauto.
Qed.

Lemma inv_shutdown a : inv a -> inv (shutdown a).
Proof. intros Hi. apply (inv_reply CloseReply (set_phase PStopped (send_replace Closed (close_connection a)))). by apply inv_leave. Qed.

Lemma inv_ready jittered a prev deadline :
  inv a -> phase a = PConnecting prev deadline -> inv (connecting_result policy jittered prev (Ok tt) a).
Proof.
  intros [] Hp. assert (connection a = None) as Hc.
  { apply eq_None_not_Some. rewrite in_conn0, Hp. done. }
  split; simpl.
  - done.
  - split; [done|by eexists].
  - f_equal. rewrite in_conns0, Hc. simpl. by rewrite (right_id_L [] (++)).
  - apply NoDup_app. split; [done|]. split; [|apply NoDup_singleton]. intros x Hx ->%list_elem_of_singleton.
    set (n := length (established a)) in *. clearbody n. rewrite in_count0 in Hx. apply list_elem_of_fmap in Hx as (k & Hk & Hx%elem_of_seq). lia.
  - rewrite length_app. set (n := length (established a)) in *. clearbody n. cbn [length].
    rewrite Nat.add_1_r, seq_S, fmap_app, in_count0. done.
  - rewrite in_generation0, length_app. cbn [length]. unfold sat_add. lia.
  - rewrite in_generation0, length_app, in_reconnects0. cbn [length]. unfold sat_add.
    destruct (1 <? _) eqn:E; zbool; unfold U64_MAX in *; lia.
Qed.

Lemma not_recoverable e : is_recoverable e = false -> te_kind e <> Connection /\ te_kind e <> KClosed.
Proof. unfold is_recoverable. by destruct (te_kind e). Qed.

(** What a step may do to the observable state. *)
Definition follows (a a' : Actor) : Prop :=
  view a' = view a /\ published a' = published a \/
  spec_step (view a) (view a') /\ published a' = published a ++ [watch a'].

Lemma follows_failed e a :
  is_recoverable e = false ->
  (exists n, watch a = Connecting n) \/ watch a = Ready (generation a) \/ (exists n d r, watch a = Recovering n d r) ->
  follows a (publish_permanent_failure e a).
Proof. intros [? ?]%not_recoverable Hw. right. split; [|done]. by apply sp_failed. Qed.

Lemma follows_lose jittered e a :
  (forall d, jitter d (jittered d)) -> watch a = Ready (generation a) -> follows a (lose policy jittered e a).
Proof.
  intros Hj Hw. right. unfold lose, route_loss, view. rewrite Hw. destruct (is_recoverable e) eqn:E; (split; [|done]); simpl.
  - apply sp_lost, Hj.
  - apply not_recoverable in E as [? ?]. apply sp_failed; auto.
Qed.

Lemma follows_shutdown a : watch a <> Closed -> follows a (shutdown a).
Proof. intros Hw. right. split; [|done]. by apply sp_closed. Qed.

Lemma watch_open a : inv a -> phase a <> PStopped -> watch a <> Closed.
Proof.
  intros [Ha _ _ _ _ _ _] Hp. unfold agrees in Ha. destruct (phase a); try done; try congruence;
    repeat match goal with H : exists _, _ |- _ => destruct H end; congruence.
Qed.

Lemma command_ok jittered c ans a a' :
  (forall d, jitter d (jittered d)) -> inv a -> on_command policy jittered c ans a = Some a' -> inv a' /\ follows a a'.
Proof.
  intros Hj Hi. pose proof (watch_open a Hi) as Hw. pose proof (in_agrees a Hi) as Ha. unfold on_command, agrees in *.
  destruct (phase a) eqn:Hp; intros Hs; try done; specialize (Hw ltac:(done)); injection Hs as <-.
  1, 5: destruct c; cbn [handle_waiting]; (split; [|first [by left|by apply follows_shutdown|right; split; [apply sp_start; eauto|done]]]);
    first [done|by apply inv_reply|by apply inv_shutdown|by apply inv_connecting; rewrite ?Hp].
  - assert (inv (set_phase (PConnecting previous_failures (now a + CONNECT_TIMEOUT)) a)) as Hr.
    { destruct Hi. split; try done. simpl. rewrite in_conn0, Hp. done. }
    destruct c; cbn [connecting_command]; try case_match;
      (split; [|first [by left|by apply follows_shutdown|apply follows_failed; eauto]]);
      first [done|by apply (inv_reply _ _ Hr)|by apply inv_shutdown|by apply inv_failed; rewrite ?Hp].
  - destruct c; cbn [ready_command]; unfold ready_open; repeat case_match;
      (split; [|first [by left|by apply follows_lose|by apply (follows_lose _ _ (send_reply _ a))|
                       by apply (follows_shutdown (clear_connection_blocked a)), Hw]]);
      first [done|by apply inv_reply|by apply inv_lose|by apply inv_lose, inv_reply|by apply inv_shutdown, inv_gauge].
  - destruct c; cbn [recovering_command]; try case_match;
      (split; [|first [by left|by apply follows_shutdown|apply follows_failed; naive_solver]]);
      first [done|by apply inv_reply|by apply inv_shutdown|by apply inv_failed; rewrite ?Hp].
Qed.

Lemma result_ok jittered prev d r a :
  (forall d, jitter d (jittered d)) -> inv a -> phase a = PConnecting prev d ->
  inv (connecting_result policy jittered prev r a) /\ follows a (connecting_result policy jittered prev r a).
Proof.
  intros Hj Hi Hp. pose proof (in_agrees a Hi) as Ha. unfold agrees in Ha. rewrite Hp in Ha.
  destruct r as [[]|e].
  - split; [by eapply inv_ready|]. right. split; [|done]. unfold view. rewrite Ha. apply sp_ready.
  - unfold connecting_result. case_match.
    + split; [apply inv_recovering; by rewrite ?Hp|]. right. split; [|done].
      unfold view. rewrite Ha. apply sp_backoff, Hj.
    + split; [apply inv_failed; by rewrite ?Hp|]. apply follows_failed; eauto.
Qed.

Lemma step_ok jittered e a a' :
  (forall d, jitter d (jittered d)) -> inv a -> step policy jittered e a = Some a' -> inv a' /\ follows a a'.
Proof.
  intros Hj Hi. pose proof (in_agrees a Hi) as Ha. unfold agrees in Ha. destruct e; cbn [step].
  - by apply command_ok.
  - destruct (phase a) eqn:Hp; try done. intros [= <-]. by eapply result_ok.
  - destruct (phase a) eqn:Hp; try done. case_match; [|done]. intros [= <-].
    apply (result_ok _ _ _ (Err (te_new Connection "connect attempt timed out")) a Hj Hi Hp).
  - destruct (phase a) eqn:Hp; try done. intros [= <-]. unfold ready_event.
    repeat case_match; (split; [|first [by left|by apply follows_lose]]);
      first [by apply inv_lose|by apply inv_gauge].
  - destruct (phase a) eqn:Hp; try done. case_match; [|done]. intros [= <-]. destruct Ha as (d & r & Hw).
    split; [apply inv_connecting; by rewrite ?Hp|]. right. split; [|done]. unfold view. rewrite Hw. apply sp_retry.
  - intros Hs. assert (a' = handles_dropped a) as -> by (destruct (phase a); congruence).
    split; [|by unfold handles_dropped; left; destruct (phase a)].
    unfold handles_dropped. set (a1 := match phase a with PReady => _ | _ => a end).
    assert (inv a1) as [] by (unfold a1; destruct (phase a); first [done|by apply inv_gauge]).
    split; simpl; try done. by rewrite in_conns0, (right_id_L [] (++)).
  - destruct (0 <=? n); [|done]. intros [= <-]. split; [by apply inv_time|by left].
Qed.

Lemma reach_ok start g a : reach start g a -> inv a /\ spec_trace (published a) (view a).
Proof.
  induction 1 as [|jittered e a a' _ [Hi Hr] Hj Hs]; [split; [apply inv_init|constructor]|].
  destruct (step_ok jittered e a a' Hj Hi Hs) as [Hi' [[-> ->]|[Hf ->]]]; (split; [done|]); [done|]. by eapply st_step.
Qed.

(** ** Recovery *)

(** The attempts after a loss, each after its backoff, then one that succeeds: [fs] are
    the failures with the jittered delays of the backoffs that follow them, [d] is the
    delay of the first backoff. *)
Fixpoint attempts (d : Z) (fs : list (TransportError * Z)) : list ((Z -> Z) * Event) :=
  match fs with
  | [] => [(id, ETick d); (id, EWake); (id, EConnected (Ok tt))]
  | (e, d') :: fs' => (id, ETick d) :: (id, EWake) :: (fun _ => d', EConnected (Err e)) :: attempts d' fs'
  end.

Lemma attempts_run fs : forall n d a e0,
  Forall (fun f => is_recoverable f.1 = true /\ 0 <= f.2) fs -> 0 <= d -> 1 <= n -> n + Z.of_nat (length fs) < U32_MAX ->
  phase a = PRecovering n e0 (now a + d) ->
  exists a', run (attempts d fs) a = Some a' /\ phase a' = PReady /\
    generation a' = sat_add U64_MAX (generation a) 1 /\ watch a' = Ready (generation a').
Proof.
  induction fs as [|[e d'] fs IH]; intros n d a e0 Hes Hd Hn Hb Hp;
    cbn [attempts run]; cbn [step]; rewrite (proj2 (Z.leb_le _ _) Hd); cbn; rewrite Hp, Z.leb_refl; cbn.
  - eexists. done.
  - apply Forall_cons in Hes as [[He Hd'] Hes]. cbn [fst snd] in *. rewrite He. cbn [length] in Hb.
    assert (sat_add U32_MAX n 1 = n + 1) as Hs by (unfold sat_add; lia). cbn. rewrite Hs.
    edestruct (IH (n + 1) d') as (a' & Hr & Hph & Hg & Hw); [done|done|lia|lia| |exists a'; rewrite Hr; done]. done.
Qed.

End System.

(** ** Theorems *)

Section Theorems.
Variable policy : RecoveryPolicy.
Variable jitter : Z -> Z -> Prop.

(** C21. The watch channel shows a well-formed life cycle, for any jitter source: the
    values published so far are, one by one, a trace of the specification from
    [Disconnected] (attempts count up from one, a backoff carries a delay that the source
    may return for the policy's delay of its attempt, drawn anew for each backoff,
    generations advance by one per connection, permanent failures are only those of
    unrecoverable errors, nothing follows [Closed]), and a step of the actor either
    publishes nothing and changes neither the watch value nor the generation, or publishes
    one value by one such transition. *)
Theorem lifecycle_refined start g a jittered e a' :
  reach policy jitter start g a -> (forall d, jitter d (jittered d)) -> step policy jittered e a = Some a' ->
  spec_trace policy jitter (published a) (view a) /\
  (view a' = view a /\ published a' = published a \/
   spec_step policy jitter (view a) (view a') /\ published a' = published a ++ [watch a']).
Proof. intros [Hi Hr]%reach_ok Hj Hs. split; [done|]. by eapply step_ok. Qed.

(** At most one connection lives at a time: the connections established are,
    in order, those closed before and the current one, which exists exactly in
    the [Ready] phase; the generation counts them, saturating at its width, and
    the reconnect metric counts all but the first. *)
Theorem one_connection start g a :
  reach policy jitter start g a ->
  established a = closed a ++ option_list (connection a) /\ NoDup (established a) /\
  (is_Some (connection a) <-> phase a = PReady) /\
  generation a = Z.min (Z.of_nat (length (established a))) U64_MAX /\
  reconnects a = Z.max 0 (Z.of_nat (length (established a)) - 1).
Proof. intros [[] _]%reach_ok. done. Qed.

(** [close] always works: in whatever phase the actor is, taking the command
    stops it, closes the connection it holds, publishes [Closed] and answers the
    caller. *)
Theorem close_always_stops start g a jittered answer :
  reach policy jitter start g a -> phase a <> PStopped ->
  exists a', step policy jittered (ECommand CClose answer) a = Some a' /\ phase a' = PStopped /\
    connection a' = None /\ closed a' = established a' /\ watch a' = Closed /\
    replies a' = replies a ++ [CloseReply].
Proof.
  intros [[Ha Hc Hcs _ _ _ _] _]%reach_ok Hp. cbn [step]. unfold on_command.
  destruct (phase a) eqn:E; try done; eexists; (split; [reflexivity|]); simpl; by rewrite <- Hcs.
Qed.

(** A recoverable loss is recovered from: after the loss, any number of
    recoverable connect failures, each waited out with its backoff, and one
    successful attempt lead to [Ready] with the next generation, whatever the source
    made of the delays. *)
Theorem loss_is_recovered start g a e d fs :
  reach policy jitter start g a -> phase a = PReady -> is_recoverable e = true -> 0 <= d ->
  Forall (fun f => is_recoverable f.1 = true /\ 0 <= f.2) fs -> 1 + Z.of_nat (length fs) < U32_MAX ->
  exists a', run policy ((fun _ => d, ETransport (Some (TEError e))) :: attempts d fs) a = Some a' /\
    watch a' = Ready (sat_add U64_MAX (generation a) 1).
Proof.
  intros _ Hp He Hd Hes Hb. cbn [run step]. rewrite Hp. cbn [mbind option_bind ready_event]. unfold lose, route_loss. rewrite He.
  edestruct (attempts_run policy fs 1 d) as (a' & Hr & _ & Hg & Hw); try done; [|exists a'; split; [exact Hr|]].
  - done.
  - by rewrite Hw, Hg.
Qed.

End Theorems.

(** ** Sample runs *)

(** The sources of the crate. *)
Definition identity_source (d r : Z) : Prop := r = identity_jitter d.
Definition equal_source (d r : Z) : Prop :=
  0 <= d <= U64_MAX -> exists x, 0 <= x <= sat_sub d (d * 4 / 5) /\ equal_jitter (fun _ => x) d = Some r.

Definition sample_error : TransportError := te_new Connection "reset".

Definition plain (es : list Event) : list ((Z -> Z) * Event) := pair identity_jitter <$> es.

Definition sample_run : list Event :=
  [ECommand CStart None; EConnected (Ok tt)].

Definition sample (es : list Event) : Actor :=
  default (init 0 0) (run recovery_policy_default (plain es) (init 0 0)).

Lemma run_reach policy (jitter : Z -> Z -> Prop) start g es a a' :
  reach policy jitter start g a -> Forall (fun x => forall d, jitter d (x.1 d)) es ->
  run policy es a = Some a' -> reach policy jitter start g a'.
Proof.
  revert a. induction es as [|[f e] es IH]; intros a Ha Hj; simpl; [by intros [= <-]|]. apply Forall_cons in Hj as [Hf Hj].
  destruct (step policy f e a) as [a1|] eqn:Hs; [|done]. simpl. apply IH; [|done]. by eapply reach_step.
Qed.

Lemma sample_reach es :
  is_Some (run recovery_policy_default (plain es) (init 0 0)) ->
  reach recovery_policy_default identity_source 0 0 (sample es).
Proof.
  intros [a Ha]. unfold sample. rewrite Ha. eapply run_reach; [apply reach_init| |exact Ha].
  apply Forall_forall. by intros x (e & -> & _)%list_elem_of_fmap.
Qed.

(** An outage under [EqualJitter] whose first two backoffs have the same delay of the
    policy and different draws. *)
Definition flat_policy : RecoveryPolicy := mkRecoveryPolicy 1000 1000.
Definition low (d : Z) : Z := d * 4 / 5.
Definition outage : list ((Z -> Z) * Event) :=
  [(low, ECommand CStart None); (low, EConnected (Err sample_error)); (low, ETick 800); (low, EWake);
   (id, EConnected (Err sample_error))].
Definition in_outage : Actor := default (init 0 0) (run flat_policy outage (init 0 0)).

Lemma low_drawn d : equal_source d (low d).
Proof.
  intros Hd. exists 0. unfold equal_jitter, duration_mul, low, sat_sub, U64_MAX in *.
  assert (0 <= d * 4 / 5 <= d) by (split; [apply Z.div_pos; lia|apply Z.div_le_upper_bound; lia]). split; [lia|].
  replace (d * 4 <=? DURATION_MAX) with true by (symmetry; apply Z.leb_le; unfold DURATION_MAX, U64_MAX, NANOS_PER_SEC; lia).
  unfold duration_saturating_add, sat_add, DURATION_MAX, U64_MAX, NANOS_PER_SEC. f_equal. lia.
Qed.

Lemma high_drawn d : equal_source d (id d).
Proof.
  intros Hd. exists (d - d * 4 / 5). unfold equal_jitter, duration_mul, sat_sub, U64_MAX in *.
  assert (0 <= d * 4 / 5 <= d) by (split; [apply Z.div_pos; lia|apply Z.div_le_upper_bound; lia]). split; [lia|].
  replace (d * 4 <=? DURATION_MAX) with true by (symmetry; apply Z.leb_le; unfold DURATION_MAX, U64_MAX, NANOS_PER_SEC; lia).
  unfold duration_saturating_add, sat_add, DURATION_MAX, U64_MAX, NANOS_PER_SEC, id. f_equal. lia.
Qed.

Lemma lifecycle_refined_witness :
  published in_outage =
    [Disconnected; Connecting 1; Recovering 1 800 "reset"; Connecting 2; Recovering 2 1000 "reset"] /\
  spec_trace flat_policy equal_source (published in_outage) (view in_outage).
Proof.
  split; [by vm_compute|].
  apply (lifecycle_refined flat_policy equal_source 0 0 in_outage id (ETick 0) (tick 0 in_outage)); [|apply high_drawn|reflexivity].
  apply (run_reach flat_policy equal_source 0 0 outage (init 0 0)); [constructor| |by vm_compute].
  repeat constructor; first [apply low_drawn|apply high_drawn].
Defined.

Lemma one_connection_witness :
  established (sample (sample_run ++ [ETransport (Some (TEError sample_error))])) = [0] /\
  generation (sample (sample_run ++ [ETransport (Some (TEError sample_error))])) =
    Z.min (Z.of_nat (length (established (sample (sample_run ++ [ETransport (Some (TEError sample_error))]))))) U64_MAX.
Proof.
  split; [by vm_compute|].
  apply (one_connection recovery_policy_default identity_source 0 0
    (sample (sample_run ++ [ETransport (Some (TEError sample_error))]))).
  apply sample_reach. vm_compute. eexists. reflexivity.
Defined.

Lemma close_always_stops_witness :
  exists a', step recovery_policy_default id (ECommand CClose None) (sample sample_run) = Some a' /\
    phase a' = PStopped /\ connection a' = None /\ closed a' = established a' /\ watch a' = Closed /\
    replies a' = replies (sample sample_run) ++ [CloseReply].
Proof.
  apply (close_always_stops recovery_policy_default identity_source 0 0 (sample sample_run) id None).
  - apply sample_reach. vm_compute. eexists. reflexivity.
  - by vm_compute.
Defined.

Lemma loss_is_recovered_witness :
  exists a', run recovery_policy_default
      ((fun _ => 95, ETransport (Some (TEError sample_error))) :: attempts 95 [(sample_error, 180); (sample_error, 400)])
      (sample sample_run) = Some a' /\
    watch a' = Ready (sat_add U64_MAX (generation (sample sample_run)) 1).
Proof.
  apply (loss_is_recovered recovery_policy_default identity_source 0 0 (sample sample_run) sample_error).
  - apply sample_reach. vm_compute. eexists. reflexivity.
  - by vm_compute.
  - reflexivity.
  - lia.
  - repeat constructor; simpl; lia.
  - by vm_compute.
Defined.

(** ** Surprising behaviour *)

(** The connect attempt's timeout starts over with every command: twenty-seven
    seconds into an attempt, the ten-second budget has not elapsed. *)
Example connect_timeout_restarts :
  let es := [ECommand CStart None; ETick (from_secs 9); ECommand COpenPublisher None; ETick (from_secs 9);
             ECommand COpenPublisher None; ETick (from_secs 9)] in
  now (sample es) = from_secs 27 /\ phase (sample es) = PConnecting 0 (from_secs 28) /\
  step recovery_policy_default identity_jitter EConnectTimeout (sample es) = None.
Proof. by vm_compute. Qed.

(** Another broker's connection is blocked; losing this one, which never was,
    clears the shared gauge. *)
Example unblocked_loss_clears_gauge :
  exists a, run recovery_policy_default
      (plain (sample_run ++ [ETransport (Some (TEError sample_error))])) (init 0 1) = Some a /\ gauge a = 0.
Proof. vm_compute. eexists. done. Qed.

(** A loss report that arrives late, for the connection lost before, takes the
    next generation down. *)
Example stale_loss_report :
  let es := sample_run ++ [ETransport (Some (TEError sample_error)); ETick (from_millis 100); EWake; EConnected (Ok tt);
                           ECommand (CConnectionLost sample_error) None] in
  established (sample es) = [0; 1] /\ closed (sample es) = [0; 1] /\ generation (sample es) = 2.
Proof. by vm_compute. Qed.

End ConnectionActor.
