(* ===== verification/Publication.v ===== *)
(** * Publications and their outcomes

    Models the data of [publisher/mod.rs] and the [SafetyMode] of
    [config.rs]: what a caller publishes, the publisher configuration and the
    typed outcomes and errors a publication resolves with. *)

From S2P Require Import Prelude Transport.
Import Transport.
Local Open Scope Z_scope.

Module Publication.

Inductive SafetyMode := Blind | Unsafe | Safe.

Record Destination := mkDestination {
  d_exchange : string;
  d_routing_key : string
}.

Record MessageProperties := mkMessageProperties {
  mp_message_id : string;
  mp_content_type : option string;
  mp_correlation_id : option string;
  mp_delay_ms : option Z;
  mp_headers : Headers
}.

Definition message_properties_new (message_id : string) : MessageProperties :=
  mkMessageProperties message_id None None None [].

(** [deadline] is an [Instant]: nanoseconds on the process clock. *)
Record PublishRequest := mkPublishRequest {
  r_destination : Destination;
  r_payload : string;
  r_properties : MessageProperties;
  r_deadline : Z
}.

Definition republish (r : PublishRequest) (deadline : Z) : PublishRequest :=
  mkPublishRequest (r_destination r) (r_payload r) (r_properties r) deadline.

Record PublisherConfig := mkPublisherConfig {
  buffer_capacity : Z;
  confirm_timeout : Z;
  max_buffered_bytes : Z;
  safety : SafetyMode
}.

Definition with_safety (capacity timeout : Z) (mode : SafetyMode) : PublisherConfig :=
  mkPublisherConfig capacity timeout (64 * 1024 * 1024) mode.

Definition enables_confirms (c : PublisherConfig) : bool :=
  match safety c with Safe => true | _ => false end.

Definition mandatory_flag (c : PublisherConfig) : bool :=
  match safety c with Safe => true | _ => false end.

Record ReturnInfo := mkReturnInfo {
  ri_code : Z;
  ri_text : string;
  ri_exchange : string;
  ri_routing_key : string
}.

Inductive PublishOutcome :=
| Confirmed (message_id : string)
| Returned (message_id : string) (reply : ReturnInfo).

Inductive PublishErrorKind :=
| EBackpressure | ENack | ETimeout | EUnconfirmed | ETransport | EClosed | EInvalidRequest.

Record PublishError := mkPublishError {
  pe_kind : PublishErrorKind;
  pe_message : string;
  pe_transport_source : option TransportError
}.

Definition pe_new (kind : PublishErrorKind) (message : string) : PublishError :=
  mkPublishError kind message None.

Definition from_transport (e : TransportError) : PublishError :=
  mkPublishError ETransport (te_message e) (Some e).

#[global] Instance SafetyMode_eq_dec : EqDecision SafetyMode.
Proof. solve_decision. Defined.
#[global] Instance Destination_eq_dec : EqDecision Destination.
Proof. solve_decision. Defined.
#[global] Instance MessageProperties_eq_dec : EqDecision MessageProperties.
Proof. solve_decision. Defined.
#[global] Instance PublishRequest_eq_dec : EqDecision PublishRequest.
Proof. solve_decision. Defined.
#[global] Instance PublishErrorKind_eq_dec : EqDecision PublishErrorKind.
Proof. solve_decision. Defined.
#[global] Instance PublishError_eq_dec : EqDecision PublishError.
Proof. solve_decision. Defined.
#[global] Instance ReturnInfo_eq_dec : EqDecision ReturnInfo.
Proof. solve_decision. Defined.
#[global] Instance PublishOutcome_eq_dec : EqDecision PublishOutcome.
Proof. solve_decision. Defined.

End Publication.
