(* ===== verification/ClientBatch.v ===== *)
(** * Batches of the client pool

    Models [ClientPool::publish_batch] of [client.rs] with
    [PublishWaiter::wait_all] of [publisher/mod.rs]: a batch is split by broker,
    every request is handed to its broker's publisher, the accepted ones are
    awaited together, and the batch answers with one outcome per request in
    request order, or with one error.

    The publishers' answers are the input [Answers]. The iteration order of the
    source's [HashMap] and the order in which confirmations arrive are inputs
    too: [a_rank] and [a_completion] order brokers and waiters. *)

From S2P Require Import Prelude Transport Publication.
Import Transport Publication.
Local Open Scope Z_scope.
Local Open Scope rabbit_scope.

Module ClientBatch.

Inductive ClientErrorKind :=
| KConfiguration | KBackpressure | KPublish | KConsumer | KTransport | KClosed.

Record ClientError := mkClientError {
  cle_kind : ClientErrorKind;
  cle_message : string
}.

Definition client_closed_error : ClientError := mkClientError KClosed "native client pool is closed".

(** [ClientError::publish] *)
Definition client_publish_error (e : PublishError) : ClientError :=
  mkClientError
    match pe_kind e with
    | EBackpressure => KBackpressure
    | EClosed => KClosed
    | ETransport => KTransport
    | EInvalidRequest | ENack | ETimeout | EUnconfirmed => KPublish
    end (pe_message e).

#[global] Instance ClientErrorKind_eq_dec : EqDecision ClientErrorKind.
Proof. solve_decision. Defined.
#[global] Instance ClientError_eq_dec : EqDecision ClientError.
Proof. solve_decision. Defined.

(** What the pool's publishers answer; requests are named by their index. *)
Record Answers := mkAnswers {
  a_open : bool;
  a_rank : string -> Z;
  a_publisher : string -> result unit ClientError;
  a_publish_blind : nat -> result unit PublishError;
  a_try_publish : nat -> result unit PublishError;
  a_completion : nat -> Z;
  a_wait : nat -> result PublishOutcome PublishError
}.

Abbreviation Slot := (option (result PublishOutcome ClientError)).
Abbreviation Group := (string * list (nat * PublishRequest))%type.

(** The local variables of [publish_batch]. *)
Record Batch := mkBatch {
  outcomes : list Slot;
  waiters : list nat;
  terminal_error : option ClientError
}.

(** [by_broker.entry(broker).or_default().push((i, request))] *)
Fixpoint push_group (broker : string) (x : nat * PublishRequest) (gs : list Group) : list Group :=
  match gs with
  | [] => [(broker, [x])]
  | (b, xs) :: gs' =>
      if decide (b = broker) then (b, xs ++ [x]) :: gs' else (b, xs) :: push_group broker x gs'
  end.

(** The request list with indices counted from [i], pushed group by group. *)
Fixpoint by_broker (i : nat) (reqs : list (string * PublishRequest)) (gs : list Group) : list Group :=
  match reqs with
  | [] => gs
  | (broker, request) :: reqs' => by_broker (S i) reqs' (push_group broker (i, request) gs)
  end.

Definition terminal_or_insert (e : ClientError) (b : Batch) : Batch :=
  mkBatch (outcomes b) (waiters b) (Some (default e (terminal_error b))).

Definition set_outcome (i : nat) (r : result PublishOutcome ClientError) (b : Batch) : Batch :=
  mkBatch (<[i := Some r]> (outcomes b)) (waiters b) (terminal_error b).

Definition push_waiter (i : nat) (b : Batch) : Batch :=
  mkBatch (outcomes b) (waiters b ++ [i]) (terminal_error b).

Section Batch.
Variable a : Answers.
Variable blind : bool.

(** One message of a broker whose publisher is there. *)
Definition submit (m : nat * PublishRequest) (b : Batch) : result Batch ClientError :=
  let '(i, request) := m in
  if blind then
    match a_publish_blind a i with
    | Ok _ => Ok (set_outcome i (Ok (Confirmed (mp_message_id (r_properties request)))) b)
    | Err e => Err (client_publish_error e)
    end
  else
    match a_try_publish a i with
    | Ok _ => Ok (push_waiter i b)
    | Err e =>
        let e := client_publish_error e in
        Ok (set_outcome i (Err e) (terminal_or_insert e b))
    end.

Fixpoint submit_all (ms : list (nat * PublishRequest)) (b : Batch) : result Batch ClientError :=
  match ms with
  | [] => Ok b
  | m :: ms' => let? b := submit m b in submit_all ms' b
  end.

(** Every message of a broker without a publisher fails with its error. *)
Definition fail_all (ms : list (nat * PublishRequest)) (e : ClientError) (b : Batch) : Batch :=
  foldl (fun b m => set_outcome m.1 (Err e) b) (terminal_or_insert e b) ms.

Definition submit_group (g : Group) (b : Batch) : result Batch ClientError :=
  match a_publisher a g.1 with
  | Err e => if blind then Err e else Ok (fail_all g.2 e b)
  | Ok _ => submit_all g.2 b
  end.

Fixpoint submit_groups (gs : list Group) (b : Batch) : result Batch ClientError :=
  match gs with
  | [] => Ok b
  | g :: gs' => let? b := submit_group g b in submit_groups gs' b
  end.

(** [wait_all]: results arrive in completion order and are sorted by index. *)
Definition wait_all (ws : list nat) : list (nat * result PublishOutcome PublishError) :=
  sort_by_key (fun r => Z.of_nat r.1) ((fun i => (i, a_wait a i)) <$> sort_by_key (a_completion a) ws).

Definition record_result (b : Batch) (r : nat * result PublishOutcome PublishError) : Batch :=
  match r.2 with
  | Ok o => set_outcome r.1 (Ok o) b
  | Err e =>
      let e := client_publish_error e in set_outcome r.1 (Err e) (terminal_or_insert e b)
  end.

Definition not_accepted : ClientError :=
  client_publish_error (pe_new EBackpressure "publication was not accepted by the actor").

(** The final pass over the outcomes. *)
Fixpoint finish (l : list Slot) (results : list PublishOutcome) (err : option ClientError)
  : result (list PublishOutcome) ClientError :=
  match l with
  | [] => match err with Some e => Err e | None => Ok results end
  | Some (Ok o) :: l' => finish l' (results ++ [o]) err
  | Some (Err e) :: l' => finish l' results (Some (default e err))
  | None :: l' => finish l' results (Some (default not_accepted err))
  end.

(** The batch's answer and the indices that were awaited. *)
Definition publish_batch (reqs : list (string * PublishRequest))
  : result (list PublishOutcome) ClientError * list nat :=
  if negb (a_open a) then (Err client_closed_error, [])
  else
    let groups := sort_by_key (fun g => a_rank a g.1) (by_broker 0 reqs []) in
    match submit_groups groups (mkBatch (replicate (length reqs) None) [] None) with
    | Err e => (Err e, [])
    | Ok b =>
        let b := if blind then b else foldl record_result b (wait_all (waiters b)) in
        (finish (outcomes b) [] (terminal_error b), waiters b)
    end.

End Batch.

(** ** What a request is answered *)

Section Spec.
Variable a : Answers.
Variable blind : bool.
Variable reqs : list (string * PublishRequest).

(** The answer of the request at index [i], the batch left aside. *)
Definition answer (i : nat) (q : string * PublishRequest) : result PublishOutcome ClientError :=
  match a_publisher a q.1 with
  | Err e => Err e
  | Ok _ =>
      if blind then
        match a_publish_blind a i with
        | Ok _ => Ok (Confirmed (mp_message_id (r_properties q.2)))
        | Err e => Err (client_publish_error e)
        end
      else
        match a_try_publish a i with
        | Ok _ => map_err client_publish_error (a_wait a i)
        | Err e => Err (client_publish_error e)
        end
  end.

(** The request at [i] was taken by an actor, which answers through a waiter. *)
Definition accepted (i : nat) : Prop :=
  exists q, reqs !! i = Some q /\ is_ok (a_publisher a q.1) = true /\ is_ok (a_try_publish a i) = true.

(** *** Grouping *)

Lemma push_group_perm broker x gs :
  mjoin ((fun g => (fun m => (g.1, m)) <$> g.2) <$> push_group broker x gs) ≡ₚ
  mjoin ((fun g => (fun m => (g.1, m)) <$> g.2) <$> gs) ++ [(broker, x)].
Proof.
  induction gs as [|[b xs] gs IH]; [done|]. simpl push_group. case_decide as E; csimpl.
  - subst b. rewrite fmap_app. csimpl. rewrite <- !(assoc_L (++)). f_equiv. apply Permutation_app_comm.
  - rewrite IH. by rewrite (assoc_L (++)).
Qed.

Lemma by_broker_perm i rs gs :
  mjoin ((fun g => (fun m => (g.1, m)) <$> g.2) <$> by_broker i rs gs) ≡ₚ
  mjoin ((fun g => (fun m => (g.1, m)) <$> g.2) <$> gs) ++
  imap (fun j q => (q.1, ((i + j)%nat, q.2))) rs.
Proof.
  revert i gs. induction rs as [|[b r] rs IH]; intros i gs; csimpl; [by rewrite (right_id_L [] (++))|].
  rewrite IH, push_group_perm, <- (assoc_L (++)). f_equiv. rewrite Nat.add_0_r. simpl.
  erewrite imap_ext; [reflexivity|]. intros j q _. simpl. f_equal. f_equal. lia.
Qed.

Definition items (gs : list Group) : list (string * (nat * PublishRequest)) :=
  mjoin ((fun g => (fun m => (g.1, m)) <$> g.2) <$> gs).

Lemma items_groups rank :
  items (sort_by_key rank (by_broker 0 reqs [])) ≡ₚ imap (fun j q => (q.1, (j, q.2))) reqs.
Proof. unfold items. rewrite (sort_by_key_perm rank). apply (by_broker_perm 0 reqs []). Qed.

(** *** The submission loop

    [seen] holds the indices handed to a publisher so far. *)

Record inv (seen : list nat) (b : Batch) : Prop := {
  inv_len : length (outcomes b) = length reqs;
  inv_slot j q r : reqs !! j = Some q -> outcomes b !! j = Some (Some r) -> j ∈ seen /\ r = answer j q;
  inv_none j q : reqs !! j = Some q -> outcomes b !! j = Some None -> j ∈ seen -> j ∈ waiters b;
  inv_waiter j : j ∈ waiters b -> j ∈ seen /\ accepted j /\ blind = false;
  inv_all j : j ∈ seen -> accepted j -> blind = false -> j ∈ waiters b;
  inv_nodup : NoDup (waiters b);
  inv_err e : terminal_error b = Some e -> exists j q, reqs !! j = Some q /\ answer j q = Err e
}.

Lemma inv_start : inv [] (mkBatch (replicate (length reqs) None) [] None).
Proof.
  split; simpl; try done; try (intros; set_solver).
  - apply length_replicate.
  - intros j q r Hq Hj. apply lookup_replicate in Hj as [? _]. done.
  - constructor.
Qed.

Lemma inv_terminal seen b e j q :
  inv seen b -> reqs !! j = Some q -> answer j q = Err e -> inv seen (terminal_or_insert e b).
Proof.
  intros [] Hq Ha. split; try done. simpl. intros e' [= <-].
  destruct (terminal_error b) as [e0|] eqn:E; simpl; eauto.
Qed.

Lemma inv_outcome seen b i q r :
  inv seen b -> reqs !! i = Some q -> r = answer i q -> i ∉ waiters b ->
  (blind = false -> ~ accepted i) -> inv (i :: seen) (set_outcome i r b).
Proof.
  intros [] Hq -> Hw Hn. assert (i < length (outcomes b))%nat as Hi.
  { rewrite inv_len0. by eapply lookup_lt_Some. }
  split; simpl; try done.
  - by rewrite length_insert.
  - intros j q' r' Hq' [(<- & [= <-] & _)|[Hne Hj]]%list_lookup_insert_Some.
    + split; [left|congruence].
    + destruct (inv_slot0 j q' r' Hq' Hj). split; [by right|done].
  - intros j q' Hq' [(_ & [=] & _)|[Hne Hj]]%list_lookup_insert_Some [->|Hs]%elem_of_cons; [done|eauto].
  - intros j Hj. destruct (inv_waiter0 j Hj) as (? & ? & ?). split; [by right|done].
  - intros j [->|Hs]%elem_of_cons Hacc Hb; [|by apply inv_all0]. by apply Hn in Hb.
Qed.

Lemma inv_push seen b i :
  inv seen b -> i ∉ seen -> accepted i -> blind = false -> inv (i :: seen) (push_waiter i b).
Proof.
  intros [] Hi Hacc Hb. split; simpl; try done.
  - intros j q r Hq Hj. destruct (inv_slot0 j q r Hq Hj). split; [by right|done].
  - intros j q Hq Hj [->|Hs]%elem_of_cons; apply elem_of_app; [right; by left|left; eauto].
  - intros j [Hj| ->%list_elem_of_singleton]%elem_of_app; [|by split; [left|]].
    destruct (inv_waiter0 j Hj) as (? & ? & ?). split; [by right|done].
  - intros j [->|Hs]%elem_of_cons Hj Hb'; apply elem_of_app; [right; by left|left; eauto].
  - apply NoDup_app. split; [done|]. split; [|apply NoDup_singleton].
    intros j Hj ->%list_elem_of_singleton. by apply inv_waiter0 in Hj as [? _].
Qed.

Lemma inv_not_waiting seen b i : inv seen b -> i ∉ seen -> i ∉ waiters b.
Proof. intros [] Hi Hw. by apply inv_waiter0 in Hw as [? _]. Qed.

Lemma inv_perm seen seen' b : seen ≡ₚ seen' -> inv seen b -> inv seen' b.
Proof.
  intros Hp []. split; try done; intros *; rewrite <- ?Hp; eauto.
Qed.

(** The error is the answer of a request. *)
Definition answered_err (e : ClientError) : Prop := exists j q, reqs !! j = Some q /\ answer j q = Err e.

Lemma submit_inv seen b broker i req :
  inv seen b -> reqs !! i = Some (broker, req) -> i ∉ seen -> is_ok (a_publisher a broker) = true ->
  match submit a blind (i, req) b with Ok b' => inv (i :: seen) b' | Err e => answered_err e end.
Proof.
  intros Hi Hq Hs Hp. pose proof (inv_not_waiting _ _ _ Hi Hs) as Hw. unfold submit.
  assert (answer i (broker, req) = answer i (broker, req)) as Ha by done. unfold answer in Ha at 2.
  simpl in Ha. destruct (a_publisher a broker) as [u|] eqn:Ep; [|done].
  destruct blind eqn:Eb.
  - destruct (a_publish_blind a i) eqn:Ei; [|by exists i, (broker, req)].
    eapply inv_outcome; try done. congruence.
  - destruct (a_try_publish a i) as [u'|e] eqn:Et.
    + apply inv_push; try done. exists (broker, req). split; [done|]. rewrite Et. simpl. by rewrite Ep.
    + eapply inv_outcome; try done; [by eapply inv_terminal|]. intros _ (q' & Hq' & _ & Ht).
      by rewrite Et in Ht.
Qed.

Lemma submit_all_inv broker ms seen b :
  inv seen b -> is_ok (a_publisher a broker) = true ->
  Forall (fun m => reqs !! m.1 = Some (broker, m.2)) ms -> NoDup (ms.*1 ++ seen) ->
  match submit_all a blind ms b with Ok b' => inv (reverse ms.*1 ++ seen) b' | Err e => answered_err e end.
Proof.
  intros Hi Hp Hms. revert seen b Hi. induction Hms as [|[i req] ms Hm Hms IH]; intros seen b Hi Hnd; [done|].
  cbn [submit_all]. csimpl in Hnd. apply NoDup_cons in Hnd as [Hn Hnd]. rewrite not_elem_of_app in Hn.
  pose proof (submit_inv seen b broker i req Hi Hm (proj2 Hn) Hp) as Hb.
  destruct (submit a blind (i, req) b) as [b'|e]; [|done]. specialize (IH (i :: seen) b' Hb).
  csimpl. rewrite reverse_cons, <- (assoc_L (++)). apply IH. rewrite <- Permutation_middle.
  apply NoDup_cons. split; [rewrite elem_of_app; tauto|done].
Qed.

Lemma fail_all_inv broker ms e seen b :
  inv seen b -> blind = false -> a_publisher a broker = Err e -> ms <> [] ->
  Forall (fun m => reqs !! m.1 = Some (broker, m.2)) ms -> NoDup (ms.*1 ++ seen) ->
  inv (reverse ms.*1 ++ seen) (fail_all ms e b).
Proof.
  intros Hi Hb Hp Hne Hms Hnd. unfold fail_all.
  assert (forall i req, reqs !! i = Some (broker, req) -> answer i (broker, req) = Err e) as Ha.
  { intros i req _. unfold answer. simpl. by rewrite Hp. }
  assert (inv seen (terminal_or_insert e b)) as Ht.
  { destruct ms as [|[i req] ms]; [done|]. inversion Hms. eapply inv_terminal; eauto. }
  clear Hi Hne. revert seen Hnd Ht. generalize (terminal_or_insert e b) as b0.
  induction Hms as [|[i req] ms Hm Hms IH]; intros b0 seen Hnd Ht; [done|].
  csimpl in *. apply NoDup_cons in Hnd as [Hn Hnd]. rewrite not_elem_of_app in Hn.
  rewrite reverse_cons, <- (assoc_L (++)). apply (IH _ (i :: seen)).
  - rewrite <- Permutation_middle. apply NoDup_cons. split; [rewrite elem_of_app; tauto|done].
  - eapply inv_outcome; [done|exact Hm|by rewrite Ha| |].
    + eapply inv_not_waiting; [exact Ht|tauto].
    + intros _ (q' & Hq' & Hok & _). simplify_eq/=. by rewrite Hp in Hok.
Qed.

Lemma submit_group_inv g seen b :
  inv seen b -> g.2 <> [] -> Forall (fun m => reqs !! m.1 = Some (g.1, m.2)) g.2 -> NoDup (g.2.*1 ++ seen) ->
  match submit_group a blind g b with Ok b' => inv (reverse g.2.*1 ++ seen) b' | Err e => answered_err e end.
Proof.
  intros Hi Hne Hms Hnd. unfold submit_group. destruct (a_publisher a g.1) as [u|e] eqn:Ep.
  - apply (submit_all_inv g.1); try done. by rewrite Ep.
  - destruct blind eqn:Eb; [|by eapply fail_all_inv].
    destruct g as [broker [|[i req] ms]]; [done|]. inversion_clear Hms. exists i, (broker, req).
    split; [done|]. unfold answer. simpl in *. by rewrite Ep.
Qed.

Lemma submit_groups_inv gs seen b :
  inv seen b -> Forall (fun g => g.2 <> []) gs ->
  Forall (fun x => reqs !! x.2.1 = Some (x.1, x.2.2)) (items gs) -> NoDup ((items gs).*2.*1 ++ seen) ->
  match submit_groups a blind gs b with
  | Ok b' => exists seen', seen' ≡ₚ (items gs).*2.*1 ++ seen /\ inv seen' b'
  | Err e => answered_err e
  end.
Proof.
  intros Hi Hne. revert seen b Hi. induction Hne as [|g gs Hg Hne IH]; intros seen b Hi Hv Hnd; [by exists seen|].
  cbn [submit_groups]. unfold items in Hv, Hnd. csimpl in *.
  rewrite !fmap_app, <- !list_fmap_compose in Hnd.
  change (snd ∘ (fun m => (g.1, m))) with (@id (nat * PublishRequest)) in Hnd.
  apply Forall_app in Hv as [Hv1 Hv2]. rewrite Forall_fmap in Hv1.
  assert (NoDup (g.2.*1 ++ (items gs).*2.*1 ++ seen)) as Hnd'.
  { unfold items. rewrite <- !list_fmap_compose, (assoc_L (++)). exact Hnd. }
  pose proof (submit_group_inv g seen b Hi Hg Hv1) as Hb.
  rewrite (assoc_L (++)), (Permutation_app_comm g.2.*1), <- (assoc_L (++)) in Hnd'.
  pose proof Hnd' as (_ & _ & Hgs)%NoDup_app. specialize (Hb Hgs).
  destruct (submit_group a blind g b) as [b'|e]; [|done].
  rewrite <- (reverse_Permutation g.2.*1) in Hnd'.
  specialize (IH _ b' Hb Hv2 Hnd'). destruct (submit_groups a blind gs b') as [b''|e]; [|done].
  destruct IH as (seen' & Hp & Hi'). exists seen'. split; [|done]. rewrite Hp. unfold items. csimpl.
  rewrite !fmap_app, <- !list_fmap_compose. rewrite (reverse_Permutation g.2.*1).
  change (fst ∘ snd ∘ (fun m => (g.1, m))) with (fun m : nat * PublishRequest => m.1).
  rewrite (assoc_L (++)). f_equiv. apply Permutation_app_comm.
Qed.

Lemma push_group_nonempty broker x gs :
  Forall (fun g => g.2 <> []) gs -> Forall (fun g => g.2 <> []) (push_group broker x gs).
Proof.
  induction 1 as [|[b xs] gs Hg Hgs IH]; simpl; [by repeat constructor|].
  case_decide; constructor; simpl; try done. by destruct xs.
Qed.

Lemma by_broker_nonempty i rs gs :
  Forall (fun g => g.2 <> []) gs -> Forall (fun g => g.2 <> []) (by_broker i rs gs).
Proof.
  revert i gs. induction rs as [|[b r] rs IH]; intros i gs Hgs; simpl; [done|].
  by apply IH, push_group_nonempty.
Qed.

Lemma items_indices rank : (items (sort_by_key rank (by_broker 0 reqs []))).*2.*1 ≡ₚ seq 0 (length reqs).
Proof.
  rewrite items_groups, <- list_fmap_compose, fmap_imap.
  rewrite (imap_ext _ (fun j (_ : string * PublishRequest) => j)) by done.
  enough (imap (fun j (_ : string * PublishRequest) => j) reqs = seq 0 (length reqs)) as -> by done.
  apply list_eq. intros j. rewrite list_lookup_imap.
  destruct (reqs !! j) as [q|] eqn:E; simpl; symmetry.
  - apply lookup_seq. split; [lia|]. by eapply lookup_lt_Some.
  - apply lookup_seq_ge. by apply lookup_ge_None.
Qed.

(** *** The confirmations *)

(** [ws] are the waiters whose result is not recorded yet. *)
Record awaiting (ws : list nat) (b : Batch) : Prop := {
  aw_len : length (outcomes b) = length reqs;
  aw_slot j q : reqs !! j = Some q -> outcomes b !! j = Some (Some (answer j q)) \/ j ∈ ws;
  aw_err e : terminal_error b = Some e -> answered_err e
}.

Lemma record_result_awaiting ws b i :
  blind = false -> accepted i -> awaiting (i :: ws) b ->
  awaiting ws (record_result b (i, a_wait a i)).
Proof.
  intros Hb (q & Hq & Hp & Ht) [].
  assert (answer i q = map_err client_publish_error (a_wait a i)) as Ha.
  { unfold answer. rewrite Hb. destruct (a_publisher a q.1); [|done]. by destruct (a_try_publish a i). }
  assert (i < length (outcomes b))%nat as Hi by (rewrite aw_len0; by eapply lookup_lt_Some).
  unfold record_result. destruct (a_wait a i) as [o|e] eqn:E; simpl in *; (split; simpl; [by rewrite length_insert| |]).
  - intros j q' Hq'. destruct (decide (i = j)) as [<-|Hne].
    + left. rewrite list_lookup_insert_eq by done. congruence.
    + rewrite list_lookup_insert_ne by done. destruct (aw_slot0 j q' Hq'); set_solver.
  - done.
  - intros j q' Hq'. destruct (decide (i = j)) as [<-|Hne].
    + left. rewrite list_lookup_insert_eq by done. congruence.
    + rewrite list_lookup_insert_ne by done. destruct (aw_slot0 j q' Hq'); set_solver.
  - intros e' [= <-]. destruct (terminal_error b) as [e0|] eqn:Et; simpl; [by apply aw_err0|].
    by exists i, q.
Qed.

Lemma record_all_awaiting idx b :
  blind = false -> Forall accepted idx -> awaiting idx b ->
  awaiting [] (foldl record_result b ((fun i => (i, a_wait a i)) <$> idx)).
Proof.
  intros Hb Hacc. revert b. induction Hacc as [|i idx Hi His IH]; intros b Hw; [done|].
  csimpl. apply IH. by apply record_result_awaiting.
Qed.

Lemma wait_all_order ws :
  exists idx, idx ≡ₚ ws /\ wait_all a ws = (fun i => (i, a_wait a i)) <$> idx.
Proof.
  unfold wait_all. set (l := sort_by_key (a_completion a) ws).
  exists (sort_by_key Z.of_nat l). split.
  - unfold l. by rewrite (sort_by_key_perm Z.of_nat), (sort_by_key_perm (a_completion a)).
  - clearbody l. induction l as [|x l IH]; [done|]. unfold sort_by_key in *. csimpl. rewrite IH.
    generalize (foldr (insert_by_key Z.of_nat) [] l) as k. intros k.
    induction k as [|y k IHk]; [done|]. csimpl. split_match; [done|]. csimpl. by rewrite IHk.
Qed.

Lemma waiters_record_all rs b : waiters (foldl record_result b rs) = waiters b.
Proof.
  revert b. induction rs as [|r rs IH]; intros b; [done|]. cbn [foldl]. rewrite IH.
  unfold record_result. by destruct r.2.
Qed.

(** *** The final pass *)

Lemma finish_spec l rs acc err :
  l = Some <$> rs ->
  match finish l acc err with
  | Ok os => err = None /\ exists os', os = acc ++ os' /\ rs = Ok <$> os'
  | Err e => err = Some e \/ Err e ∈ rs
  end.
Proof.
  intros ->. revert acc err. induction rs as [|[o|e] rs IH]; intros acc err; csimpl.
  - destruct err; [by left|]. split; [done|]. exists []. by rewrite (right_id_L [] (++)).
  - specialize (IH (acc ++ [o]) err). destruct (finish _ _ _).
    + destruct IH as (-> & os' & -> & ->). split; [done|]. exists (o :: os').
      by rewrite <- (assoc_L (++)).
    + destruct IH; [by left|right; by right].
  - specialize (IH acc (Some (default e err))). destruct (finish _ _ _); [by destruct IH|].
    destruct IH as [[= <-]|IH]; [|right; by right]. destruct err; simpl; [by left|right; by left].
Qed.

Lemma awaiting_finish b :
  awaiting [] b ->
  match finish (outcomes b) [] (terminal_error b) with
  | Ok os => imap answer reqs = Ok <$> os
  | Err e => Err e ∈ imap answer reqs
  end.
Proof.
  intros []. pose proof (finish_spec (outcomes b) (imap answer reqs) [] (terminal_error b)) as Hf.
  assert (outcomes b = Some <$> imap answer reqs) as E.
  { apply list_eq. intros j. rewrite list_lookup_fmap, list_lookup_imap.
    destruct (reqs !! j) as [q|] eqn:Eq; simpl.
    - destruct (aw_slot0 j q Eq) as [?|?%elem_of_nil]; done.
    - apply lookup_ge_None. rewrite aw_len0. by apply lookup_ge_None. }
  specialize (Hf E). destruct (finish _ _ _).
  - destruct Hf as (_ & os' & -> & ->). done.
  - destruct Hf as [Hf|Hf]; [|done]. apply aw_err0 in Hf as (j & q & Hq & Ha).
    apply list_elem_of_lookup. exists j. rewrite list_lookup_imap, Hq. simpl. by rewrite Ha.
Qed.

(** *** The batch *)

Lemma submit_all_total ms b : blind = false -> is_ok (submit_all a blind ms b) = true.
Proof.
  intros ->. revert b. induction ms as [|[i req] ms IH]; intros b; [done|]. simpl.
  destruct (a_try_publish a i); apply IH.
Qed.

Lemma submit_groups_total gs b : blind = false -> is_ok (submit_groups a blind gs b) = true.
Proof.
  intros Hb. revert b. induction gs as [|g gs IH]; intros b; [done|]. cbn [submit_groups].
  unfold submit_group. destruct (a_publisher a g.1).
  - pose proof (submit_all_total g.2 b Hb). by destruct (submit_all a blind g.2 b).
  - rewrite Hb in *. apply IH.
Qed.

Lemma answered_err_elem e : answered_err e -> Err e ∈ imap answer reqs.
Proof.
  intros (j & q & Hq & Ha). apply list_elem_of_lookup. exists j. rewrite list_lookup_imap, Hq.
  simpl. by rewrite Ha.
Qed.

Lemma submitted rank :
  match submit_groups a blind (sort_by_key rank (by_broker 0 reqs []))
          (mkBatch (replicate (length reqs) None) [] None) with
  | Ok b => inv (seq 0 (length reqs)) b
  | Err e => answered_err e
  end.
Proof.
  set (gs := sort_by_key rank (by_broker 0 reqs [])).
  pose proof (items_indices rank) as Hidx. fold gs in Hidx.
  pose proof (submit_groups_inv gs [] _ inv_start) as Hs. rewrite (right_id_L [] (++)), Hidx in Hs.
  assert (Forall (fun g => g.2 <> []) gs) as Hne.
  { unfold gs. rewrite (sort_by_key_perm rank). by apply by_broker_nonempty. }
  assert (Forall (fun x => reqs !! x.2.1 = Some (x.1, x.2.2)) (items gs)) as Hv.
  { unfold gs. rewrite items_groups. apply Forall_lookup. intros k x.
    rewrite list_lookup_imap. destruct (reqs !! k) as [[b r]|] eqn:E; [|done]. by intros [= <-]. }
  specialize (Hs Hne Hv (NoDup_seq _ _)). destruct (submit_groups a blind gs _) as [b|e]; [|done].
  destruct Hs as (seen & Hp & Hi). rewrite Hidx in Hp. by eapply inv_perm.
Qed.

Lemma inv_awaiting b : inv (seq 0 (length reqs)) b -> awaiting (waiters b) b.
Proof.
  intros []. split; [done| |done]. intros j q Hq. pose proof (lookup_lt_Some _ _ _ Hq) as Hl.
  destruct (outcomes b !! j) as [[r|]|] eqn:E.
  - left. destruct (inv_slot0 j q r Hq E) as [_ ->]. done.
  - right. eapply inv_none0; [done|done|]. apply elem_of_seq. lia.
  - apply lookup_ge_None in E. lia.
Qed.

Lemma inv_complete b :
  inv (seq 0 (length reqs)) b ->
  awaiting [] (if blind then b else foldl record_result b (wait_all a (waiters b))).
Proof.
  intros Hi. pose proof (inv_awaiting b Hi) as Hw. destruct Hi. destruct blind eqn:Eb.
  - assert (waiters b = []) as <-; [|done]. destruct (waiters b) as [|i ws] eqn:E; [done|].
    destruct (inv_waiter0 i) as (_ & _ & ?); [by left|congruence].
  - destruct (wait_all_order (waiters b)) as (idx & Hp & ->). apply record_all_awaiting; [done| |].
    + rewrite Hp. apply Forall_forall. intros i Hi. by apply inv_waiter0.
    + destruct Hw. split; try done. intros j q Hq. rewrite Hp. by apply aw_slot0.
Qed.

Lemma batch_answer :
  a_open a = true ->
  match (publish_batch a blind reqs).1 with
  | Ok os => imap answer reqs = Ok <$> os
  | Err e => Err e ∈ imap answer reqs
  end.
Proof.
  intros Ho. unfold publish_batch. rewrite Ho. cbn [negb].
  pose proof (submitted (fun g => a_rank a g.1)) as Hs. destruct (submit_groups _ _ _ _) as [b|e].
  - apply awaiting_finish. by apply inv_complete.
  - by apply answered_err_elem.
Qed.

Lemma batch_awaits :
  a_open a = true -> blind = false ->
  NoDup (publish_batch a blind reqs).2 /\ forall i, i ∈ (publish_batch a blind reqs).2 <-> accepted i.
Proof.
  intros Ho Hb. unfold publish_batch. rewrite Ho. cbn [negb].
  pose proof (submitted (fun g => a_rank a g.1)) as Hs.
  set (gs := sort_by_key _ _) in *. pose proof (submit_groups_total gs
    (mkBatch (replicate (length reqs) None) [] None) Hb) as Ht.
  destruct (submit_groups _ _ _ _) as [b|e]; [|done]. rewrite Hb. cbn [snd]. rewrite waiters_record_all.
  destruct Hs. split; [done|]. intros i. split.
  - intros Hi. by apply inv_waiter0.
  - intros Hacc. apply inv_all0; try done. destruct Hacc as (q & Hq & _). apply elem_of_seq.
    apply lookup_lt_Some in Hq. lia.
Qed.

End Spec.

(** ** Theorems *)

(** One outcome per request. *)
Lemma batch_length a blind reqs os : (publish_batch a blind reqs).1 = Ok os -> length os = length reqs.
Proof.
  intros H. destruct (a_open a) eqn:Ho.
  - pose proof (batch_answer a blind reqs Ho) as Hb. rewrite H in Hb.
    apply (f_equal length) in Hb. by rewrite length_imap, length_fmap in Hb.
  - unfold publish_batch in H. by rewrite Ho in H.
Qed.

(** C9. A batch on an open pool answers with the outcomes of its requests in
    request order when all of them succeed, and otherwise with the error of one
    of them, whatever the brokers' iteration order and the order in which
    confirmations arrive. In the confirming modes every publication that an
    actor accepted is awaited exactly once, also when other requests of the
    batch fail; nothing else is awaited. *)
Theorem publish_batch_answers a blind reqs :
  a_open a = true ->
  match (publish_batch a blind reqs).1 with
  | Ok os => imap (answer a blind) reqs = Ok <$> os
  | Err e => Err e ∈ imap (answer a blind) reqs
  end /\
  (blind = false ->
   NoDup (publish_batch a blind reqs).2 /\
   forall i, i ∈ (publish_batch a blind reqs).2 <-> accepted a reqs i).
Proof. intros Ho. split; [by apply batch_answer|]. intros ->. by apply batch_awaits. Qed.

(** Three requests to two brokers; the publisher of the second is missing. *)
Definition sample_request (id : string) : PublishRequest :=
  mkPublishRequest (mkDestination "" "q") "job" (message_properties_new id) 10.

Definition sample_requests : list (string * PublishRequest) :=
  [("east", sample_request "a"); ("west", sample_request "b"); ("east", sample_request "c")].

Definition sample_answers : Answers :=
  mkAnswers true (fun b => Z.of_nat (String.length b))
    (fun b => if decide (b = "west") then Err (mkClientError KTransport "west is down") else Ok tt)
    (fun _ => Ok tt) (fun _ => Ok tt) (fun i => - Z.of_nat i)
    (fun i => if decide (i = 0)%nat then Ok (Confirmed "a") else Ok (Confirmed "c")).

Lemma publish_batch_answers_witness :
  (publish_batch sample_answers false sample_requests).1 = Err (mkClientError KTransport "west is down") /\
  (0%nat ∈ (publish_batch sample_answers false sample_requests).2 <->
   accepted sample_answers sample_requests 0).
Proof.
  split; [by vm_compute|].
  apply (publish_batch_answers sample_answers false sample_requests); reflexivity.
Defined.

End ClientBatch.
