(* ===== verification/PublishBuffer.v ===== *)
(** * The PHP publish buffer

    Models [classes/publish_buffer.rs] of the PHP extension and the operations of
    [classes/pool.rs] that use it. [Pool::publish] buffers accepted publications;
    a batch leaves the buffer through a flush on the PHP thread, through a drain
    task spawned by a trigger, or through a drain task spawned by the interval
    timer. A batch that fails goes back to the buffer or is counted as dropped;
    outcomes that are not confirmations wait in a bounded queue for the next PHP
    call.

    State. [Buffer], [Errors], [Tasks] and [Flags] hold the fields of
    [PublishBuffer] and the flags of the pool, [Log] what theorems speak about.
    A spawned task is an index of [drains] or [timers]; the join handles are lists
    of these indices. The semaphore is its number of permits.

    Interleaving. The PHP thread and every task advance one locked section or
    atomic access at a time: [php] is the program counter of the PHP thread, the
    constructors of [Drain] and [Timer] are those of the tasks. A batch in flight
    is answered by [ClientBatch.publish_batch] on the [Answers] of the event.
    Thrown exceptions are the replies [Raised]. *)

From stdpp Require Import pretty.
From S2P Require Import Prelude Transport Publication ClientBatch.
Import Transport Publication ClientBatch.
Local Open Scope Z_scope.
Local Open Scope rabbit_scope.

Module PublishBuffer.

(** ** Data *)

Definition BUFFER_THRESHOLD : Z := 64.
Definition PUBLISH_BUFFER_MAX_MESSAGES : Z := 4096.
Definition PUBLISH_BUFFER_MAX_BYTES : Z := 64 * 1024 * 1024.
Definition TEARDOWN_FLUSH_BUDGET : Z := from_millis 500.
Definition MAX_CONCURRENT_DRAINS : nat := 8.
Definition MAX_PENDING_ERRORS : Z := 4096.

Record NativePublish := mkNativePublish {
  np_broker : string;
  np_request : PublishRequest
}.

Definition np_message_id (p : NativePublish) : string := mp_message_id (r_properties (np_request p)).
Definition np_len (p : NativePublish) : Z := payload_len (r_payload (np_request p)).

Record PendingPublishError := mkPending {
  ppe_message_id : string;
  ppe_kind : string;
  ppe_message : string
}.

Inductive PhpException :=
| RabbitRsException (message : string)
| BackpressureException (message : string)
| ConnectionException (message : string).

Definition client_exception (e : ClientError) : PhpException :=
  match cle_kind e with
  | KBackpressure => BackpressureException (cle_message e)
  | KTransport => ConnectionException (cle_message e)
  | KConfiguration | KPublish | KConsumer | KClosed => RabbitRsException (cle_message e)
  end.

(** What a PHP call returned. *)
Inductive Reply :=
| Published (message_id : string)
| Done
| Drained (errors : list PendingPublishError)
| Raised (e : PhpException).

(** A spawned drain. [TimerDrain]: spawned by a timer, nothing taken yet.
    [TimerWait]: the batch waits for a permit until [deadline]. [Draining]: the
    batch is with the client, the permit is held. [Disposing]: the batch failed
    and the flags were read as open, it is about to be buffered again;
    [saturated] says that no permit was obtained. *)
Inductive Drain :=
| TimerDrain
| TimerWait (batch : list NativePublish) (deadline : Z)
| Draining (batch : list NativePublish)
| Disposing (batch : list NativePublish) (saturated : bool) (e : PendingPublishError)
| DrainDone.

(** A spawned interval timer. *)
Inductive Timer :=
| TimerSpawned
| Sleeping (deadline : Z)
| Woken
| TimerDone.

(** Which call of the pool flushes the buffer. *)
Inductive Caller :=
| ForFlush
| ForPublish (p : NativePublish)
| ForInspect
| ForPop
| ForClose.

(** The program counter of the PHP thread. *)
Inductive Php :=
| Idle
| Quiescing (c : Caller) (handles : list nat) (deadline : Z)
| PopQuiescing (handles : list nat) (deadline : Z)
| Taking (c : Caller)
| Sending (c : Caller) (batch : list NativePublish)
| Sent (c : Caller) (r : result unit PhpException)
| Checking (p : NativePublish)
| Enqueuing (p : NativePublish)
| Enqueued (started : bool) (message_id : string)
| Triggered (message_id : string)
| AwaitPermit (batch : list NativePublish) (message_id : string) (deadline : Z)
| Surfacing (message_id : string)
| Closing
| DestructQuiescing (handles : list nat) (deadline : Z)
| DestructTaking (deadline : Z)
| DestructSending (batch : list NativePublish) (deadline : Z)
| Destructing.

(** The guarded [Buffered] and [last_flush]. *)
Record Buffer := mkBuffer {
  publishes : list NativePublish;
  bytes : Z;
  last_flush : option Z
}.

(** The pending error queue and its counter; [recorded], [shown] (surfaced to
    PHP), [swallowed] (surfaced inside a call whose result is ignored) and
    [discarded] are logs. *)
Record Errors := mkErrors {
  pending_errors : list PendingPublishError;
  dropped_error_records : Z;
  recorded : list PendingPublishError;
  shown : list PendingPublishError;
  swallowed : list PendingPublishError;
  discarded : nat
}.

Record Tasks := mkTasks {
  drains : list Drain;
  drain_handles : list nat;
  timers : list Timer;
  timer_handles : list nat;
  drain_permits : nat;
  timer_pending : bool
}.

(** The counter and the flags of the buffer, its client, handle and pool. *)
Record Flags := mkFlags {
  dropped_publications : Z;
  tearing_down : bool;
  client_closed : bool;
  handle_closed : bool;
  claim_open : bool
}.

(** Publications accepted, confirmed, returned as unroutable and counted as
    dropped; replies to PHP. *)
Record Log := mkLog {
  enqueued : list NativePublish;
  confirmed : list NativePublish;
  returned : list NativePublish;
  dropped : list NativePublish;
  replies : list Reply
}.

Record State := mkState {
  buffer : Buffer;
  errors : Errors;
  tasks : Tasks;
  flags : Flags;
  log : Log;
  now : Z;
  php : Php
}.

Record Config := mkConfig {
  flush_interval : Z;
  flush_threshold : Z;
  blind : bool
}.

(** ** Field updates *)

Definition set_publishes (v : list NativePublish) (b : Buffer) : Buffer :=
  mkBuffer
    v (bytes b) (last_flush b).

Definition set_bytes (v : Z) (b : Buffer) : Buffer :=
  mkBuffer
    (publishes b) v (last_flush b).

Definition set_last_flush (v : option Z) (b : Buffer) : Buffer :=
  mkBuffer
    (publishes b) (bytes b) v.

Definition set_pending_errors (v : list PendingPublishError) (e : Errors) : Errors :=
  mkErrors
    v (dropped_error_records e) (recorded e) (shown e) (swallowed e) (discarded e).

Definition set_dropped_error_records (v : Z) (e : Errors) : Errors :=
  mkErrors
    (pending_errors e) v (recorded e) (shown e) (swallowed e) (discarded e).

Definition set_recorded (v : list PendingPublishError) (e : Errors) : Errors :=
  mkErrors
    (pending_errors e) (dropped_error_records e) v (shown e) (swallowed e) (discarded e).

Definition set_shown (v : list PendingPublishError) (e : Errors) : Errors :=
  mkErrors
    (pending_errors e) (dropped_error_records e) (recorded e) v (swallowed e) (discarded e).

Definition set_swallowed (v : list PendingPublishError) (e : Errors) : Errors :=
  mkErrors
    (pending_errors e) (dropped_error_records e) (recorded e) (shown e) v (discarded e).

Definition set_discarded (v : nat) (e : Errors) : Errors :=
  mkErrors
    (pending_errors e) (dropped_error_records e) (recorded e) (shown e) (swallowed e) v.

Definition set_drains (v : list Drain) (t : Tasks) : Tasks :=
  mkTasks
    v (drain_handles t) (timers t) (timer_handles t) (drain_permits t) (timer_pending t).

Definition set_drain_handles (v : list nat) (t : Tasks) : Tasks :=
  mkTasks
    (drains t) v (timers t) (timer_handles t) (drain_permits t) (timer_pending t).

Definition set_timers (v : list Timer) (t : Tasks) : Tasks :=
  mkTasks
    (drains t) (drain_handles t) v (timer_handles t) (drain_permits t) (timer_pending t).

Definition set_timer_handles (v : list nat) (t : Tasks) : Tasks :=
  mkTasks
    (drains t) (drain_handles t) (timers t) v (drain_permits t) (timer_pending t).

Definition set_drain_permits (v : nat) (t : Tasks) : Tasks :=
  mkTasks
    (drains t) (drain_handles t) (timers t) (timer_handles t) v (timer_pending t).

Definition set_timer_pending (v : bool) (t : Tasks) : Tasks :=
  mkTasks
    (drains t) (drain_handles t) (timers t) (timer_handles t) (drain_permits t) v.

Definition set_dropped_publications (v : Z) (f : Flags) : Flags :=
  mkFlags
    v (tearing_down f) (client_closed f) (handle_closed f) (claim_open f).

Definition set_tearing_down (v : bool) (f : Flags) : Flags :=
  mkFlags
    (dropped_publications f) v (client_closed f) (handle_closed f) (claim_open f).

Definition set_client_closed (v : bool) (f : Flags) : Flags :=
  mkFlags
    (dropped_publications f) (tearing_down f) v (handle_closed f) (claim_open f).

Definition set_handle_closed (v : bool) (f : Flags) : Flags :=
  mkFlags
    (dropped_publications f) (tearing_down f) (client_closed f) v (claim_open f).

Definition set_claim_open (v : bool) (f : Flags) : Flags :=
  mkFlags
    (dropped_publications f) (tearing_down f) (client_closed f) (handle_closed f) v.

Definition set_enqueued (v : list NativePublish) (l : Log) : Log :=
  mkLog
    v (confirmed l) (returned l) (dropped l) (replies l).

Definition set_confirmed (v : list NativePublish) (l : Log) : Log :=
  mkLog
    (enqueued l) v (returned l) (dropped l) (replies l).

Definition set_returned (v : list NativePublish) (l : Log) : Log :=
  mkLog
    (enqueued l) (confirmed l) v (dropped l) (replies l).

Definition set_dropped (v : list NativePublish) (l : Log) : Log :=
  mkLog
    (enqueued l) (confirmed l) (returned l) v (replies l).

Definition set_replies (v : list Reply) (l : Log) : Log :=
  mkLog
    (enqueued l) (confirmed l) (returned l) (dropped l) v.

Definition on_buffer (g : Buffer -> Buffer) (s : State) : State :=
  mkState (g (buffer s)) (errors s) (tasks s) (flags s) (log s) (now s) (php s).

Definition on_errors (g : Errors -> Errors) (s : State) : State :=
  mkState (buffer s) (g (errors s)) (tasks s) (flags s) (log s) (now s) (php s).

Definition on_tasks (g : Tasks -> Tasks) (s : State) : State :=
  mkState (buffer s) (errors s) (g (tasks s)) (flags s) (log s) (now s) (php s).

Definition on_flags (g : Flags -> Flags) (s : State) : State :=
  mkState (buffer s) (errors s) (tasks s) (g (flags s)) (log s) (now s) (php s).

Definition on_log (g : Log -> Log) (s : State) : State :=
  mkState (buffer s) (errors s) (tasks s) (flags s) (g (log s)) (now s) (php s).

Definition goto (pc : Php) (s : State) : State :=
  mkState (buffer s) (errors s) (tasks s) (flags s) (log s) (now s) pc.

Definition tick (n : Z) (s : State) : State :=
  mkState (buffer s) (errors s) (tasks s) (flags s) (log s) (now s + n) (php s).

Section PublishBuffer.
Variable cfg : Config.

(** [AtomicU64::fetch_add] wraps around. *)
Definition fetch_add (x n : Z) : Z := (x + n) mod 2 ^ 64.

(** ** Pending errors *)

Definition record_error (e : PendingPublishError) : State -> State :=
  on_errors (fun x =>
    let x := set_recorded (recorded x ++ [e]) x in
    if MAX_PENDING_ERRORS <=? Z.of_nat (length (pending_errors x)) then
      set_pending_errors (tail (pending_errors x) ++ [e])
        (set_discarded (S (discarded x)) (set_dropped_error_records (fetch_add (dropped_error_records x) 1) x))
    else set_pending_errors (pending_errors x ++ [e]) x).

Definition count_discarded_error_records (n : nat) : State -> State :=
  on_errors (fun x =>
    if (0 <? n)%nat then
      set_discarded (discarded x + n)
        (set_dropped_error_records (fetch_add (dropped_error_records x) (Z.of_nat n)) x)
    else x).

Definition take_errors (s : State) : list PendingPublishError * State :=
  (pending_errors (errors s), on_errors (set_pending_errors []) s).

(** The exception a record surfaces as. *)
Definition record_exception (e : PendingPublishError) : PhpException :=
  if decide (ppe_kind e = "Transport") then ConnectionException (ppe_message e)
  else if decide (ppe_kind e = "Backpressure") then BackpressureException (ppe_message e)
  else RabbitRsException (ppe_message e).

(** [Pool::surface_publish_errors]; [heard] says whether the caller looks at
    the result. *)
Definition surface_publish_errors (heard : bool) (s : State) : result unit PhpException * State :=
  let '(l, s) := take_errors s in
  match l with
  | [] => (Ok tt, s)
  | first :: rest =>
      let s := count_discarded_error_records (length rest) s in
      (Err (record_exception first),
       on_errors (fun x => if heard then set_shown (shown x ++ [first]) x
                           else set_swallowed (swallowed x ++ [first]) x) s)
  end.

(** ** The buffer *)

Definition payload_bytes (ps : list NativePublish) : Z := sumZ np_len ps.

Definition buffered_len (s : State) : Z := Z.of_nat (length (publishes (buffer s))).

Definition would_overflow (n : Z) (s : State) : bool :=
  (PUBLISH_BUFFER_MAX_MESSAGES <=? buffered_len s) || (PUBLISH_BUFFER_MAX_BYTES <? bytes (buffer s) + n).

Definition enqueue (p : NativePublish) (s : State) : bool * State :=
  let was_empty := bool_decide (publishes (buffer s) = []) in
  let s := on_buffer (fun b => set_publishes (publishes b ++ [p]) (set_bytes (bytes b + np_len p) b)) s in
  let s := if was_empty then on_buffer (set_last_flush (Some (now s))) s else s in
  (was_empty, on_log (fun l => set_enqueued (enqueued l ++ [p]) l) s).

Definition should_flush (s : State) : bool :=
  (flush_threshold cfg <=? buffered_len s) ||
  match last_flush (buffer s) with
  | Some instant => flush_interval cfg <=? now s - instant
  | None => false
  end.

Definition take (s : State) : list NativePublish * State :=
  (publishes (buffer s), on_buffer (fun b => set_publishes [] (set_bytes 0 b)) s).

(** [dropped_publications.fetch_add(publishes.len())] *)
Definition drop_all (ps : list NativePublish) (s : State) : State :=
  on_log (fun l => set_dropped (dropped l ++ ps) l)
    (on_flags (fun f => set_dropped_publications
       (fetch_add (dropped_publications f) (Z.of_nat (length ps))) f) s).

Definition rebuffer (ps : list NativePublish) (s : State) : State :=
  let retriable := filter (fun p => now s < r_deadline (np_request p)) ps in
  let expired := filter (fun p => r_deadline (np_request p) <= now s) ps in
  let s := if bool_decide (expired = []) then s else drop_all expired s in
  on_buffer (fun b => set_publishes (publishes b ++ retriable)
    (set_bytes (bytes b + payload_bytes retriable) b)) s.

(** The check of [rebuffer_or_drop]: nobody would flush the buffer again. *)
Definition gone (s : State) : bool := tearing_down (flags s) || client_closed (flags s).

Definition rebuffer_or_drop (ps : list NativePublish) (s : State) : State :=
  if gone s then drop_all ps s else rebuffer ps s.

Definition drain_requests (ps : list NativePublish) : list (string * PublishRequest) :=
  (fun p => (np_broker p, np_request p)) <$> ps.

(** ** Tasks *)

Definition drain_finished (t : Tasks) (j : nat) : Prop := drains t !! j = Some DrainDone.
Definition timer_finished (t : Tasks) (i : nat) : Prop := timers t !! i = Some TimerDone.

#[local] Instance drain_finished_dec t j : Decision (drain_finished t j).
Proof. unfold drain_finished. destruct (drains t !! j) as [[]|]; (by left) || (right; congruence). Defined.
#[local] Instance timer_finished_dec t i : Decision (timer_finished t i).
Proof. unfold timer_finished. destruct (timers t !! i) as [[]|]; (by left) || (right; congruence). Defined.

(** A drain is spawned, its handle pushed and the finished ones pruned. *)
Definition spawn_drain (d : Drain) : State -> State :=
  on_tasks (fun t =>
    let j := length (drains t) in
    let t := set_drains (drains t ++ [d]) t in
    set_drain_handles (filter (fun k => ~ drain_finished t k) (drain_handles t ++ [j])) t).

Definition ensure_flush_timer : State -> State :=
  on_tasks (fun t =>
    if timer_pending t then t
    else
      let i := length (timers t) in
      let t := set_timer_pending true (set_timers (timers t ++ [TimerSpawned]) t) in
      set_timer_handles (filter (fun k => ~ timer_finished t k) (timer_handles t ++ [i])) t).

(** [timer.abort()]: takes effect where the timer sleeps. *)
Definition abort_timer (ts : list Timer) (i : nat) : list Timer :=
  match ts !! i with
  | Some TimerSpawned | Some (Sleeping _) => <[i := TimerDone]> ts
  | _ => ts
  end.

(** [quiesce_within], up to the wait: the drain handles to wait for. *)
Definition quiesce_start (s : State) : list nat * State :=
  (drain_handles (tasks s),
   on_tasks (fun t => set_drain_handles [] (set_timer_pending false
     (set_timer_handles [] (set_timers (foldl abort_timer (timers t) (timer_handles t)) t)))) s).

(** The wait of [quiesce_within] is over. *)
Definition quiesced (handles : list nat) (deadline : Z) (s : State) : bool :=
  forallb (fun j => bool_decide (drain_finished (tasks s) j)) handles || (deadline <=? now s).

Definition set_drain (j : nat) (d : Drain) : State -> State :=
  on_tasks (fun t => set_drains (<[j := d]> (drains t)) t).
Definition set_timer (i : nat) (x : Timer) : State -> State :=
  on_tasks (fun t => set_timers (<[i := x]> (timers t)) t).
Definition acquire_permit : State -> State :=
  on_tasks (fun t => set_drain_permits (drain_permits t - 1)%nat t).
Definition release_permit : State -> State :=
  on_tasks (fun t => set_drain_permits (drain_permits t + 1)%nat t).

(** ** Outcomes *)

Definition returned_error (message_id : string) (reply : ReturnInfo) : PendingPublishError :=
  mkPending message_id "Returned"
    ("message " +:+ message_id +:+ " was returned as unroutable (AMQP " +:+ pretty (ri_code reply) +:+ ")").

(** The records of the outcomes that are not confirmations. *)
Definition returned_errors (os : list PublishOutcome) : list PendingPublishError :=
  omap (fun o => match o with Returned id reply => Some (returned_error id reply) | Confirmed _ => None end) os.

Definition is_confirmed (o : PublishOutcome) : bool :=
  match o with Confirmed _ => true | Returned _ _ => false end.

(** The publications whose outcome is (is not) a confirmation. *)
Definition select (b : bool) (ps : list NativePublish) (os : list PublishOutcome) : list NativePublish :=
  (filter (fun x => is_confirmed x.2 = b) (zip ps os)).*1.

Definition log_outcomes (ps : list NativePublish) (os : list PublishOutcome) : State -> State :=
  on_log (fun l => set_confirmed (confirmed l ++ select true ps os)
                     (set_returned (returned l ++ select false ps os) l)).

Definition record_all (es : list PendingPublishError) (s : State) : State :=
  foldl (fun s e => record_error e s) s es.

(** [flush_batch] on the answer of the client. *)
Definition flush_batch (ps : list NativePublish) (answer : result (list PublishOutcome) ClientError) (s : State)
  : result unit PhpException * State :=
  match answer with
  | Ok outcomes =>
      let s := log_outcomes ps outcomes s in
      match returned_errors outcomes with
      | [] => (Ok tt, s)
      | first :: surplus => (Err (RabbitRsException (ppe_message first)), record_all surplus s)
      end
  | Err error =>
      (Err (client_exception error),
       if decide (cle_kind error = KClosed) then drop_all ps s else rebuffer_or_drop ps s)
  end.

Definition client_error_kind (e : ClientError) : string :=
  match cle_kind e with
  | KBackpressure => "Backpressure"
  | KTransport => "Transport"
  | KClosed => "Closed"
  | KConfiguration => "Configuration"
  | KPublish | KConsumer => "Publish"
  end.

(** The identifier of the batch's first publication. *)
Definition first_id (ps : list NativePublish) : string :=
  match ps with p :: _ => np_message_id p | [] => "" end.

(** [run_drain] of task [j] on the answer of the client. A batch that may go
    back to the buffer does so in the task's next step. *)
Definition run_drain (j : nat) (ps : list NativePublish) (answer : result (list PublishOutcome) ClientError)
    (s : State) : State :=
  match answer with
  | Ok outcomes =>
      release_permit (set_drain j DrainDone (record_all (returned_errors outcomes) (log_outcomes ps outcomes s)))
  | Err error =>
      let e := mkPending (first_id ps) (client_error_kind error) (cle_message error) in
      if bool_decide (cle_kind error = KClosed) || gone s
      then release_permit (set_drain j DrainDone (record_error e (drop_all ps s)))
      else set_drain j (Disposing ps false e) s
  end.

Definition saturated_message : string := "publish drain pipeline is saturated; retry after flush".

(** The permit of a timer drain did not come in time. *)
Definition timer_drain_saturated (j : nat) (ps : list NativePublish) (s : State) : State :=
  let e := mkPending (first_id ps) "Backpressure" saturated_message in
  if gone s then set_drain j DrainDone (record_error e (ensure_flush_timer (drop_all ps s)))
  else set_drain j (Disposing ps true e) s.

(** The rest of a failed drain after [rebuffer_or_drop] read the flags. *)
Definition dispose (j : nat) (ps : list NativePublish) (saturated : bool) (e : PendingPublishError) (s : State)
  : State :=
  let s := rebuffer ps s in
  if saturated then set_drain j DrainDone (record_error e (ensure_flush_timer s))
  else release_permit (set_drain j DrainDone (record_error e s)).

(** [flush_teardown] on the answer of the client, [None] when the budget ran
    out first. *)
Definition teardown_batch (ps : list NativePublish)
    (answer : option (result (list PublishOutcome) ClientError)) (s : State) : State :=
  match answer with
  | Some (Ok outcomes) => record_all (returned_errors outcomes) (log_outcomes ps outcomes s)
  | Some (Err _) | None => drop_all ps s
  end.

(** ** The pool's calls *)

Definition pool_open (s : State) : bool := claim_open (flags s) && negb (handle_closed (flags s)).

Definition reply (r : Reply) (s : State) : State :=
  goto Idle (on_log (fun l => set_replies (replies l ++ [r]) l) s).

(** [ensure_open] of the pool. *)
Definition closed_pool (operation : string) : PhpException :=
  RabbitRsException ("Goopil\RabbitRs\Pool::" +:+ operation +:+ " cannot use a closed pool").

(** [flush_all]: quiesce first. *)
Definition flush_all (c : Caller) (s : State) : State :=
  let '(handles, s) := quiesce_start s in goto (Quiescing c handles (now s + TEARDOWN_FLUSH_BUDGET)) s.

(** [Pool::flush] up to the quiesce. *)
Definition flush (c : Caller) (s : State) : State :=
  if pool_open s then flush_all c s else goto (Sent c (Err (closed_pool "flush"))) s.

(** [Pool::publish] up to the room check. *)
Definition publish (p : NativePublish) (s : State) : State :=
  if negb (pool_open s) then reply (Raised (closed_pool "publish")) s
  else if would_overflow (np_len p) s then flush (ForPublish p) s
  else goto (Enqueuing p) s.

Definition full_message (s : State) : string :=
  "publish buffer is full (" +:+ pretty (buffered_len s) +:+ " messages, " +:+
  pretty (bytes (buffer s)) +:+ " buffered bytes); retry after flush".

(** The second room check of [Pool::publish]. *)
Definition recheck (p : NativePublish) (s : State) : State :=
  if would_overflow (np_len p) s then reply (Raised (BackpressureException (full_message s))) s
  else goto (Enqueuing p) s.

(** [Pool::publish] after the enqueue. *)
Definition decide_flush (started : bool) (id : string) (s : State) : State :=
  if should_flush s then goto (Triggered id) s
  else goto (Surfacing id) (if started then ensure_flush_timer s else s).

(** [flush_triggered] takes the buffer; an empty batch needs no permit. *)
Definition flush_triggered (id : string) (s : State) : State :=
  let '(batch, s) := take s in
  if bool_decide (batch = []) then goto (Surfacing id) s
  else goto (AwaitPermit batch id (now s + TEARDOWN_FLUSH_BUDGET)) s.

(** [flush_pipelined] with a permit. *)
Definition spawn_batch (batch : list NativePublish) (id : string) (s : State) : State :=
  goto (Surfacing id) (spawn_drain (Draining batch) (acquire_permit s)).

(** [flush_pipelined] without one. *)
Definition pipeline_saturated (batch : list NativePublish) (s : State) : State :=
  reply (Raised (BackpressureException saturated_message)) (ensure_flush_timer (rebuffer_or_drop batch s)).

Definition surface (id : string) (s : State) : State :=
  let '(r, s) := surface_publish_errors true s in
  match r with Ok _ => reply (Published id) s | Err e => reply (Raised e) s end.

(** [flush_all] takes the buffer. *)
Definition flush_take (c : Caller) (s : State) : State :=
  let s := on_buffer (set_last_flush (Some (now s))) s in
  let '(batch, s) := take s in
  if bool_decide (batch = []) then goto (Sent c (Ok tt)) s else goto (Sending c batch) s.

(** What the caller does with the result of [flush_all]; [flushed] is the
    answer of [flush_blind] in blind mode. *)
Definition after_flush (c : Caller) (r : result unit PhpException) (flushed : result unit ClientError) (s : State)
  : State :=
  let blind_ok := if blind cfg then map_err client_exception flushed else Ok tt in
  match c with
  | ForFlush =>
      match r, blind_ok with
      | Err e, _ | Ok _, Err e => reply (Raised e) s
      | Ok _, Ok _ =>
          let '(r, s) := surface_publish_errors true s in
          match r with Ok _ => reply Done s | Err e => reply (Raised e) s end
      end
  | ForInspect =>
      match r with
      | Err e => reply (Raised e) s
      | Ok _ =>
          let '(r, s) := surface_publish_errors true s in
          match r with Ok _ => reply Done s | Err e => reply (Raised e) s end
      end
  | ForPop => match r with Ok _ => reply Done s | Err e => reply (Raised e) s end
  | ForPublish p =>
      goto (Checking p)
        (if is_ok r && is_ok blind_ok then (surface_publish_errors false s).2 else s)
  | ForClose =>
      goto Closing
        (if is_ok r && is_ok blind_ok then (surface_publish_errors false s).2 else s)
  end.

(** [Pool::close] after its flush, with [close_claim]: [last] says that this was
    the handle's last claim; then the client is closed, which answers [closed]. *)
Definition close_claim (last : bool) (closed : result unit ClientError) (s : State) : State :=
  if negb (claim_open (flags s)) then reply Done s
  else
    let s := on_flags (set_claim_open false) s in
    if negb last then reply Done s
    else if handle_closed (flags s) then reply Done s
    else
      reply (match closed with Ok _ => Done | Err e => Raised (client_exception e) end)
        (on_flags (fun f => set_handle_closed true (set_client_closed true f)) s).

(** [__destruct]: [flush_teardown] up to the quiesce. *)
Definition destruct_start (s : State) : State :=
  let s := on_flags (set_tearing_down true) s in
  let deadline := now s + TEARDOWN_FLUSH_BUDGET in
  let '(handles, s) := quiesce_start s in
  goto (DestructQuiescing handles deadline) s.

Definition destruct_take (deadline : Z) (s : State) : State :=
  let '(batch, s) := take s in
  if bool_decide (batch = []) then goto Destructing s else goto (DestructSending batch deadline) s.

Definition destruct_end (s : State) : State := reply Done (on_flags (set_claim_open false) s).

(** [Consumer] calls [flush_nonempty] before it waits. *)
Definition flush_nonempty (s : State) : State :=
  if bool_decide (publishes (buffer s) = []) then
    let '(handles, s) := quiesce_start s in goto (PopQuiescing handles (now s + TEARDOWN_FLUSH_BUDGET)) s
  else flush_all ForPop s.

Definition drain_errors (s : State) : State :=
  if pool_open s then
    let '(l, s) := take_errors s in
    reply (Drained l) (on_errors (fun x => set_shown (shown x ++ l) x) s)
  else reply (Raised (closed_pool "drainErrors")) s.

(** ** Steps *)

Inductive Event :=
| EPublish (p : NativePublish)
| EFlush
| EInspect (operation : string)
| EPop
| EDrainErrors
| EClose
| EDestruct
| EPhp
| EAnswer (a : Answers)
| EFlushed (flushed : result unit ClientError)
| ETimeout
| EClaim (last : bool) (closed : result unit ClientError)
| ETimer (i : nat)
| EDrain (j : nat)
| EDrainAnswer (j : nat) (a : Answers)
| EDrainTimeout (j : nat)
| ETick (n : Z)
| EExternalClose.

(** The client refuses a batch as closed only when it is. *)
Definition answer_of (a : Answers) (ps : list NativePublish) (s : State)
  : option (result (list PublishOutcome) ClientError) :=
  if a_open a || client_closed (flags s)
  then Some (publish_batch a (blind cfg) (drain_requests ps)).1 else None.

(** A call from PHP. *)
Definition call (e : Event) (s : State) : option State :=
  match e with
  | EPublish p => Some (publish p s)
  | EFlush => Some (flush ForFlush s)
  | EInspect operation =>
      Some (if pool_open s then flush_all ForInspect s else reply (Raised (closed_pool operation)) s)
  | EPop => Some (flush_nonempty s)
  | EDrainErrors => Some (drain_errors s)
  | EClose => Some (flush ForClose s)
  | EDestruct => Some (destruct_start s)
  | _ => None
  end.

(** The PHP thread goes on. *)
Definition php_step (s : State) : option State :=
  match php s with
  | Quiescing c handles deadline => if quiesced handles deadline s then Some (goto (Taking c) s) else None
  | PopQuiescing handles deadline => if quiesced handles deadline s then Some (reply Done s) else None
  | Taking c => Some (flush_take c s)
  | Checking p => Some (recheck p s)
  | Enqueuing p =>
      let '(started, s) := enqueue p s in Some (goto (Enqueued started (np_message_id p)) s)
  | Enqueued started id => Some (decide_flush started id s)
  | Triggered id => Some (flush_triggered id s)
  | AwaitPermit batch id _ => if (0 <? drain_permits (tasks s))%nat then Some (spawn_batch batch id s) else None
  | Surfacing id => Some (surface id s)
  | DestructQuiescing handles deadline =>
      if quiesced handles deadline s then Some (goto (DestructTaking deadline) s) else None
  | DestructTaking deadline => Some (destruct_take deadline s)
  | Destructing => Some (destruct_end s)
  | _ => None
  end.

(** A batch sent by the PHP thread is answered. *)
Definition php_answer (a : Answers) (s : State) : option State :=
  match php s with
  | Sending c batch =>
      answer ← answer_of a batch s;
      let '(r, s) := flush_batch batch answer s in Some (goto (Sent c r) s)
  | DestructSending batch _ =>
      answer ← answer_of a batch s;
      Some (goto Destructing (teardown_batch batch (Some answer) s))
  | _ => None
  end.

(** A deadline of the PHP thread passes. *)
Definition php_timeout (s : State) : option State :=
  match php s with
  | AwaitPermit batch _ deadline => if deadline <=? now s then Some (pipeline_saturated batch s) else None
  | DestructSending batch deadline =>
      if deadline <=? now s then Some (goto Destructing (teardown_batch batch None s)) else None
  | _ => None
  end.

(** [run_flush_timer]. *)
Definition timer_step (i : nat) (s : State) : option State :=
  match timers (tasks s) !! i with
  | Some TimerSpawned => Some (set_timer i (Sleeping (now s + flush_interval cfg)) s)
  | Some (Sleeping deadline) =>
      if deadline <=? now s then Some (on_tasks (set_timer_pending false) (set_timer i Woken s)) else None
  | Some Woken =>
      let s' := set_timer i TimerDone s in
      Some (if should_flush s then spawn_drain TimerDrain s' else s')
  | _ => None
  end.

(** [run_timer_drain] and the end of a failed drain. *)
Definition drain_step (j : nat) (s : State) : option State :=
  match drains (tasks s) !! j with
  | Some TimerDrain =>
      let '(batch, s) := take s in
      Some (set_drain j (if bool_decide (batch = []) then DrainDone
                         else TimerWait batch (now s + TEARDOWN_FLUSH_BUDGET)) s)
  | Some (TimerWait batch _) =>
      if (0 <? drain_permits (tasks s))%nat then Some (set_drain j (Draining batch) (acquire_permit s)) else None
  | Some (Disposing batch saturated e) => Some (dispose j batch saturated e s)
  | _ => None
  end.

Definition drain_answer (j : nat) (a : Answers) (s : State) : option State :=
  match drains (tasks s) !! j with
  | Some (Draining batch) => answer ← answer_of a batch s; Some (run_drain j batch answer s)
  | _ => None
  end.

Definition drain_timeout (j : nat) (s : State) : option State :=
  match drains (tasks s) !! j with
  | Some (TimerWait batch deadline) =>
      if deadline <=? now s then Some (timer_drain_saturated j batch s) else None
  | _ => None
  end.

Definition step (e : Event) (s : State) : option State :=
  match e with
  | EPublish _ | EFlush | EInspect _ | EPop | EDrainErrors | EClose | EDestruct =>
      match php s with Idle => call e s | _ => None end
  | EPhp => php_step s
  | EAnswer a => php_answer a s
  | EFlushed flushed => match php s with Sent c r => Some (after_flush c r flushed s) | _ => None end
  | ETimeout => php_timeout s
  | EClaim last closed => match php s with Closing => Some (close_claim last closed s) | _ => None end
  | ETimer i => timer_step i s
  | EDrain j => drain_step j s
  | EDrainAnswer j a => drain_answer j a s
  | EDrainTimeout j => drain_timeout j s
  | ETick n => if 0 <=? n then Some (tick n s) else None
  | EExternalClose => Some (on_flags (set_client_closed true) s)
  end.

Definition init (start : Z) : State :=
  mkState (mkBuffer [] 0 None) (mkErrors [] 0 [] [] [] 0) (mkTasks [] [] [] [] MAX_CONCURRENT_DRAINS false)
    (mkFlags 0 false false false true) (mkLog [] [] [] [] []) start Idle.

Fixpoint run (es : list Event) (s : State) : option State :=
  match es with
  | [] => Some s
  | e :: es' => s' ← step e s; run es' s'
  end.

Inductive reach (start : Z) : State -> Prop :=
| reach_init : reach start (init start)
| reach_step e s s' : reach start s -> step e s = Some s' -> reach start s'.

End PublishBuffer.

End PublishBuffer.
