(* ===== verification/PublishBufferInv.v ===== *)
(** * Invariants of the PHP publish buffer

    Three invariants of [PublishBuffer.step], each kept by every event: the
    publications are accounted for ([books]), the drain permits are ([permits]),
    and so are the error records ([records]). *)

From S2P Require Import Prelude Transport Publication ClientBatch PublishBuffer.
Import Transport Publication ClientBatch PublishBuffer.
Local Open Scope Z_scope.
Local Open Scope rabbit_scope.

Module PublishBufferInv.

(** ** Sums over updated lists *)

Lemma sumZ_partition {A} (g : A -> Z) (P Q : A -> Prop) `{!forall x, Decision (P x), !forall x, Decision (Q x)} l :
  (forall x, Q x <-> ~ P x) -> sumZ g (filter P l) + sumZ g (filter Q l) = sumZ g l.
Proof.
  intros HPQ. induction l as [|x l IH]; [done|]. rewrite !filter_cons, sumZ_cons.
  destruct (decide (P x)) as [Hp|Hp], (decide (Q x)) as [Hq|Hq]; rewrite ?sumZ_cons;
    try lia; exfalso; specialize (HPQ x); tauto.
Qed.

(** ** The publications *)

#[global] Instance NativePublish_eq_dec : EqDecision NativePublish.
Proof. solve_decision. Defined.

Definition php_batch (pc : Php) : list NativePublish :=
  match pc with
  | Sending _ batch | AwaitPermit batch _ _ | DestructSending batch _ => batch
  | _ => []
  end.

Definition drain_batch (d : Drain) : list NativePublish :=
  match d with
  | TimerWait batch _ | Draining batch | Disposing batch _ _ => batch
  | TimerDrain | DrainDone => []
  end.

(** Weight [g] of what is buffered or has an end, less what was accepted. *)
Definition settled (g : NativePublish -> Z) (s : State) : Z :=
  sumZ g (publishes (buffer s)) + sumZ g (confirmed (log s)) + sumZ g (returned (log s)) +
  sumZ g (dropped (log s)) - sumZ g (enqueued (log s)).

Definition in_drains (g : NativePublish -> Z) (s : State) : Z :=
  sumZ (fun d => sumZ g (drain_batch d)) (drains (tasks s)).

Record books (s : State) : Prop := {
  bk_balance g : settled g s + in_drains g s + sumZ g (php_batch (php s)) = 0;
  bk_bytes : bytes (buffer s) = payload_bytes (publishes (buffer s));
  bk_dropped : dropped_publications (flags s) = Z.of_nat (length (dropped (log s))) mod 2 ^ 64
}.

Section Inv.
Variable cfg : Config.
Implicit Types (s : State) (ps : list NativePublish).

(** *** Parts of the state an operation leaves alone *)

Lemma record_all_frame es s :
  buffer (record_all es s) = buffer s /\ tasks (record_all es s) = tasks s /\
  flags (record_all es s) = flags s /\ log (record_all es s) = log s /\
  now (record_all es s) = now s /\ php (record_all es s) = php s.
Proof. revert s. induction es as [|e es IH]; intros s; [done|]. cbn [record_all foldl]. apply (IH (record_error e s)). Qed.

Lemma ensure_flush_timer_frame s :
  drains (tasks (ensure_flush_timer s)) = drains (tasks s) /\
  drain_permits (tasks (ensure_flush_timer s)) = drain_permits (tasks s).
Proof. unfold ensure_flush_timer. simpl. by destruct (timer_pending (tasks s)). Qed.

Lemma surface_frame heard s :
  let s' := (surface_publish_errors heard s).2 in
  buffer s' = buffer s /\ tasks s' = tasks s /\ flags s' = flags s /\ log s' = log s /\
  now s' = now s /\ php s' = php s.
Proof. unfold surface_publish_errors. simpl. by destruct (pending_errors (errors s)). Qed.

(** *** Disposing of a batch *)

Lemma select_split g ps os :
  length os = length ps -> sumZ g (select true ps os) + sumZ g (select false ps os) = sumZ g ps.
Proof.
  unfold select. revert os. induction ps as [|p ps IH]; intros [|o os] Hl; simplify_eq/=; [done|].
  specialize (IH os Hl). rewrite !filter_cons. cbn [snd].
  destruct (is_confirmed o); do 2 case_decide; try done; csimpl; rewrite !sumZ_cons; lia.
Qed.

Lemma log_outcomes_settled g ps os s :
  length os = length ps -> settled g (log_outcomes ps os s) = settled g s + sumZ g ps.
Proof.
  intros Hl. pose proof (select_split g ps os Hl). unfold settled, log_outcomes. simpl.
  rewrite !sumZ_app. lia.
Qed.

Lemma drop_all_settled g ps s : settled g (drop_all ps s) = settled g s + sumZ g ps.
Proof. unfold settled, drop_all. simpl. rewrite sumZ_app. lia. Qed.

Lemma rebuffer_split g ps s :
  sumZ g (filter (fun p => now s < r_deadline (np_request p)) ps) +
  sumZ g (filter (fun p => r_deadline (np_request p) <= now s) ps) = sumZ g ps.
Proof. apply sumZ_partition. intros p. simpl. lia. Qed.

Lemma rebuffer_settled g ps s : settled g (rebuffer ps s) = settled g s + sumZ g ps.
Proof.
  pose proof (rebuffer_split g ps s) as Hs. unfold rebuffer. case_bool_decide as E.
  - rewrite E, sumZ_nil in Hs. unfold settled. simpl. rewrite sumZ_app. lia.
  - unfold settled. simpl. rewrite !sumZ_app. lia.
Qed.

Lemma fetch_add_mod x a b : x = a mod 2 ^ 64 -> fetch_add x b = (a + b) mod 2 ^ 64.
Proof. intros ->. unfold fetch_add. rewrite Z.add_mod_idemp_l; lia. Qed.

(** What [books] says of the parts a disposal changes. *)
Record ledger s : Prop := {
  lg_bytes : bytes (buffer s) = payload_bytes (publishes (buffer s));
  lg_dropped : dropped_publications (flags s) = Z.of_nat (length (dropped (log s))) mod 2 ^ 64
}.

Lemma drop_all_ledger ps s : ledger s -> ledger (drop_all ps s).
Proof.
  intros []. split; [done|]. unfold drop_all. simpl. rewrite (fetch_add_mod _ _ _ lg_dropped0), length_app.
  f_equal. lia.
Qed.

Lemma rebuffer_ledger ps s : ledger s -> ledger (rebuffer ps s).
Proof.
  intros Hl. unfold rebuffer.
  set (s1 := if bool_decide _ then s else drop_all _ s).
  assert (ledger s1) as [] by (unfold s1; case_bool_decide; [done|by apply drop_all_ledger]).
  split; simpl; [|done]. rewrite lg_bytes0. unfold payload_bytes. by rewrite sumZ_app.
Qed.

Lemma rebuffer_frame ps s :
  tasks (rebuffer ps s) = tasks s /\ errors (rebuffer ps s) = errors s /\
  php (rebuffer ps s) = php s /\ now (rebuffer ps s) = now s /\
  tearing_down (flags (rebuffer ps s)) = tearing_down (flags s) /\
  claim_open (flags (rebuffer ps s)) = claim_open (flags s).
Proof. unfold rebuffer. by case_bool_decide. Qed.

Lemma books_ledger s : books s -> ledger s.
Proof. intros []. by split. Qed.

Lemma rebuffer_or_drop_settled g ps s : settled g (rebuffer_or_drop ps s) = settled g s + sumZ g ps.
Proof. unfold rebuffer_or_drop. destruct (gone s); [apply drop_all_settled|apply rebuffer_settled]. Qed.

Lemma rebuffer_or_drop_ledger ps s : ledger s -> ledger (rebuffer_or_drop ps s).
Proof. unfold rebuffer_or_drop. destruct (gone s); [apply drop_all_ledger|apply rebuffer_ledger]. Qed.

Lemma rebuffer_or_drop_frame ps s :
  tasks (rebuffer_or_drop ps s) = tasks s /\ errors (rebuffer_or_drop ps s) = errors s /\
  php (rebuffer_or_drop ps s) = php s /\ now (rebuffer_or_drop ps s) = now s.
Proof.
  unfold rebuffer_or_drop. destruct (gone s); [done|]. destruct (rebuffer_frame ps s) as (? & ? & ? & ? & _). done.
Qed.

(** The client answers a batch with one outcome per publication. *)
Lemma answer_of_length a ps s os : answer_of cfg a ps s = Some (Ok os) -> length os = length ps.
Proof.
  unfold answer_of. destruct (_ || _); [|done]. intros [= H]. apply batch_length in H.
  rewrite H. unfold drain_requests. apply length_fmap.
Qed.

Definition answers ps (ans : result (list PublishOutcome) ClientError) : Prop :=
  match ans with Ok os => length os = length ps | Err _ => True end.

Lemma answer_of_answers a ps s ans : answer_of cfg a ps s = Some ans -> answers ps ans.
Proof. destruct ans; [apply answer_of_length|done]. Qed.

Lemma record_all_settled g es s : settled g (record_all es s) = settled g s.
Proof. destruct (record_all_frame es s) as (E1 & _ & _ & E2 & _). unfold settled. by rewrite E1, E2. Qed.

Lemma record_all_ledger es s : ledger s -> ledger (record_all es s).
Proof. destruct (record_all_frame es s) as (E1 & _ & E3 & E2 & _). intros []. split; by rewrite ?E1, ?E2, ?E3. Qed.

Lemma flush_batch_settled g ps ans s :
  answers ps ans -> settled g (flush_batch ps ans s).2 = settled g s + sumZ g ps.
Proof.
  unfold flush_batch. destruct ans as [os|e]; intros Ha.
  - destruct (returned_errors os); cbn [snd]; rewrite ?record_all_settled; by apply log_outcomes_settled.
  - cbn [snd]. case_decide; [apply drop_all_settled|apply rebuffer_or_drop_settled].
Qed.

Lemma flush_batch_ledger ps ans s : ledger s -> ledger (flush_batch ps ans s).2.
Proof.
  unfold flush_batch. intros Hl. destruct ans as [os|e]; cbn [snd].
  - assert (ledger (log_outcomes ps os s)) by (by destruct Hl).
    destruct (returned_errors os); cbn [snd]; [done|by apply record_all_ledger].
  - case_decide; [by apply drop_all_ledger|by apply rebuffer_or_drop_ledger].
Qed.

Lemma flush_batch_tasks ps ans s : tasks (flush_batch ps ans s).2 = tasks s.
Proof.
  unfold flush_batch. destruct ans as [os|e]; cbn [snd].
  - destruct (returned_errors os) as [|e es]; cbn [snd]; [done|].
    by destruct (record_all_frame es (log_outcomes ps os s)) as (_ & -> & _).
  - case_decide; [done|]. by destruct (rebuffer_or_drop_frame ps s) as (-> & _).
Qed.

Lemma teardown_batch_settled g ps ans s :
  from_option (answers ps) True ans -> settled g (teardown_batch ps ans s) = settled g s + sumZ g ps.
Proof.
  destruct ans as [[os|e]|]; simpl; intros Ha; [|apply drop_all_settled..].
  rewrite record_all_settled. by apply log_outcomes_settled.
Qed.

Lemma teardown_batch_ledger ps ans s : ledger s -> ledger (teardown_batch ps ans s).
Proof.
  intros Hl. destruct ans as [[os|e]|]; simpl; [|by apply drop_all_ledger..].
  apply record_all_ledger. by destruct Hl.
Qed.

Lemma teardown_batch_frame ps ans s :
  tasks (teardown_batch ps ans s) = tasks s /\ publishes (buffer (teardown_batch ps ans s)) = publishes (buffer s) /\
  tearing_down (flags (teardown_batch ps ans s)) = tearing_down (flags s).
Proof.
  destruct ans as [[os|e]|]; simpl; try done.
  destruct (record_all_frame (returned_errors os) (log_outcomes ps os s)) as (-> & -> & -> & _). done.
Qed.

Lemma surface_settled g h s : settled g (surface_publish_errors h s).2 = settled g s.
Proof. destruct (surface_frame h s) as (E1 & _ & _ & E2 & _). unfold settled. by rewrite E1, E2. Qed.

Lemma surface_ledger h s : ledger s -> ledger (surface_publish_errors h s).2.
Proof.
  destruct (surface_frame h s) as (E1 & _ & E3 & E2 & _). intros []. split; by rewrite ?E1, ?E2, ?E3.
Qed.

(** *** Total weight *)

Definition total (g : NativePublish -> Z) s : Z :=
  settled g s + in_drains g s + sumZ g (php_batch (php s)).

Lemma books_intro s : (forall g, total g s = 0) -> ledger s -> books s.
Proof. intros H []. by split. Qed.

Lemma books_total g s : books s -> total g s = 0.
Proof. intros []. apply bk_balance0. Qed.

Lemma total_goto g pc s : total g (goto pc s) = settled g s + in_drains g s + sumZ g (php_batch pc).
Proof. done. Qed.

Lemma in_drains_eq g s s' : drains (tasks s') = drains (tasks s) -> in_drains g s' = in_drains g s.
Proof. unfold in_drains. by intros ->. Qed.

Lemma in_drains_set g j d d' s :
  drains (tasks s) !! j = Some d ->
  in_drains g (set_drain j d' s) = in_drains g s - sumZ g (drain_batch d) + sumZ g (drain_batch d').
Proof. intros Hj. unfold in_drains, set_drain. simpl. by rewrite (sumZ_insert _ _ _ _ _ Hj). Qed.

Lemma in_drains_spawn g d s : in_drains g (spawn_drain d s) = in_drains g s + sumZ g (drain_batch d).
Proof. unfold in_drains, spawn_drain. simpl. by rewrite sumZ_app, sumZ_cons, sumZ_nil, Z.add_0_r. Qed.

Lemma take_settled g s : settled g (take s).2 = settled g s - sumZ g (take s).1.
Proof. unfold settled, take. simpl. rewrite sumZ_nil. lia. Qed.

Lemma take_ledger s : ledger s -> ledger (take s).2.
Proof. intros []. by split. Qed.

(** *** Every event keeps the books *)

Lemma books_frame s s' :
  books s ->
  publishes (buffer s') = publishes (buffer s) -> bytes (buffer s') = bytes (buffer s) ->
  enqueued (log s') = enqueued (log s) -> confirmed (log s') = confirmed (log s) ->
  returned (log s') = returned (log s) -> dropped (log s') = dropped (log s) ->
  dropped_publications (flags s') = dropped_publications (flags s) ->
  drains (tasks s') = drains (tasks s) -> php_batch (php s') = php_batch (php s) -> books s'.
Proof.
  intros [] E1 E2 E3 E4 E5 E6 E7 E8 E9.
  split; unfold settled, in_drains in *; rewrite ?E1, ?E2, ?E3, ?E4, ?E5, ?E6, ?E7, ?E8, ?E9; try done.
Qed.

Lemma books_goto pc s : books s -> php_batch pc = php_batch (php s) -> books (goto pc s).
Proof. intros Hb Hp. by apply (books_frame s). Qed.

Lemma books_reply r s : books s -> php_batch (php s) = [] -> books (reply r s).
Proof. intros Hb Hp. by apply (books_frame s). Qed.

Lemma books_surface h s : books s -> books (surface_publish_errors h s).2.
Proof.
  intros Hb. destruct (surface_frame h s) as (E1 & E2 & E3 & E4 & _ & E5).
  apply (books_frame s); rewrite ?E1, ?E2, ?E3, ?E4, ?E5; done.
Qed.

Lemma books_timer s : books s -> books (ensure_flush_timer s).
Proof. intros Hb. destruct (ensure_flush_timer_frame s) as [E _]. by apply (books_frame s). Qed.

Lemma surface_php h s : php (surface_publish_errors h s).2 = php s.
Proof. by destruct (surface_frame h s) as (_ & _ & _ & _ & _ & ?). Qed.

Lemma books_call e s s' : books s -> php s = Idle -> call e s = Some s' -> books s'.
Proof.
  intros Hb Hp. destruct e; simpl; intros [= <-]; try done.
  - unfold publish, flush. repeat case_match; try (by apply books_reply; rewrite ?Hp);
      try (by apply books_goto; rewrite ?Hp). by apply (books_frame s); rewrite ?Hp.
  - unfold flush. case_match; [by apply (books_frame s); rewrite ?Hp|by apply books_goto; rewrite ?Hp].
  - case_match; [by apply (books_frame s); rewrite ?Hp|by apply books_reply; rewrite ?Hp].
  - unfold flush_nonempty. case_match; by apply (books_frame s); rewrite ?Hp.
  - unfold drain_errors. case_match; [|by apply books_reply; rewrite ?Hp]. by apply (books_frame s); rewrite ?Hp.
  - unfold flush. case_match; [by apply (books_frame s); rewrite ?Hp|by apply books_goto; rewrite ?Hp].
  - by apply (books_frame s); rewrite ?Hp.
Qed.

(** The buffer moves to the PHP thread. *)
Lemma books_take pc s :
  books s -> php_batch (php s) = [] -> php_batch pc = (take s).1 -> books (goto pc (take s).2).
Proof.
  intros Hb Hp Hpc. apply books_intro; [intros g|by destruct (take_ledger s (books_ledger s Hb))].
  pose proof (books_total g s Hb) as Ht. unfold total in *. rewrite Hp, sumZ_nil in Ht. simpl php. rewrite Hpc.
  change (settled g (goto pc (take s).2)) with (settled g (take s).2). rewrite take_settled.
  rewrite (in_drains_eq g s) by done. lia.
Qed.

Lemma books_enqueue p s : books s -> php_batch (php s) = [] -> forall pc, php_batch pc = [] ->
  books (goto pc (enqueue p s).2).
Proof.
  intros Hb Hp pc Hpc. pose proof Hb as [Hbal Hby Hd]. split.
  - intros g. specialize (Hbal g). rewrite Hp in Hbal. rewrite sumZ_nil in Hbal.
    unfold settled, in_drains, enqueue in *. case_bool_decide; simpl; rewrite !sumZ_app, Hpc, ?sumZ_cons, ?sumZ_nil; lia.
  - unfold enqueue, payload_bytes in *. case_bool_decide; simpl; rewrite Hby, sumZ_app, sumZ_cons, sumZ_nil; lia.
  - unfold enqueue. by case_bool_decide.
Qed.

Lemma books_spawn_batch batch id d s :
  books s -> php s = AwaitPermit batch id d -> books (spawn_batch batch id s).
Proof.
  intros Hb Hp. apply books_intro; [intros g|by destruct (books_ledger s Hb)].
  pose proof (books_total g s Hb) as Ht. unfold total, spawn_batch in *. rewrite Hp in Ht. simpl in *.
  change (in_drains g (goto ?pc ?x)) with (in_drains g x). rewrite in_drains_spawn.
  change (settled g _) with (settled g s). rewrite (in_drains_eq g s) by done. simpl. rewrite sumZ_nil. lia.
Qed.

Lemma books_flush_take c s : books s -> php s = Taking c -> books (flush_take c s).
Proof.
  intros Hb Hp. unfold flush_take. set (s1 := on_buffer _ s).
  assert (books s1) as Hb1 by (by apply (books_frame s)).
  change (take s1) with ((take s1).1, (take s1).2). cbn beta iota zeta.
  case_bool_decide as E; apply books_take; simpl; try done; by rewrite Hp.
Qed.

Lemma books_php_step s s' : books s -> php_step cfg s = Some s' -> books s'.
Proof.
  intros Hb. unfold php_step. destruct (php s) eqn:Hp; intros Hs; repeat case_match; simplify_eq/=;
    try (by apply books_goto; rewrite ?Hp); try (by apply books_reply; rewrite ?Hp);
    try (by eapply books_spawn_batch).
  - by apply books_flush_take.
  - unfold recheck. case_match; [by apply books_reply; rewrite ?Hp|by apply books_goto; rewrite ?Hp].
  - replace s0 with (enqueue p s).2 by (by rewrite H). by apply books_enqueue; rewrite ?Hp.
  - unfold decide_flush. case_match; [by apply books_goto; rewrite ?Hp|].
    apply books_goto; [|by destruct started; simpl; rewrite Hp].
    destruct started; [by apply books_timer|done].
  - unfold flush_triggered. change (take s) with ((take s).1, (take s).2). cbn beta iota zeta.
    case_bool_decide; apply books_take; simpl; try done; by rewrite Hp.
  - unfold surface. pose proof (books_surface true s Hb) as Hb'. pose proof (surface_php true s) as Hp'.
    destruct (surface_publish_errors true s) as [[] s1]; simpl in *; apply books_reply; try done; by rewrite Hp', Hp.
  - unfold destruct_take. change (take s) with ((take s).1, (take s).2). cbn beta iota zeta.
    case_bool_decide; apply books_take; simpl; try done; by rewrite Hp.
  - by apply (books_frame s); rewrite ?Hp.
Qed.

Lemma books_php_answer a s s' : books s -> php_answer cfg a s = Some s' -> books s'.
Proof.
  intros Hb. unfold php_answer. destruct (php s) eqn:Hp; try done;
    destruct (answer_of cfg a batch s) as [ans|] eqn:Ha; try done; cbn [mbind option_bind];
    apply answer_of_answers in Ha.
  - destruct (flush_batch batch ans s) as [r s1] eqn:E. intros [= <-].
    replace s1 with (flush_batch batch ans s).2 by (by rewrite E).
    apply books_intro; [intros g|by destruct (flush_batch_ledger batch ans s (books_ledger s Hb))].
    pose proof (books_total g s Hb) as Ht. rewrite total_goto, flush_batch_settled by done.
    unfold total in Ht. rewrite Hp in Ht. simpl in Ht.
    rewrite (in_drains_eq g s) by (by rewrite flush_batch_tasks). simpl. rewrite sumZ_nil. lia.
  - intros Hs. assert (s' = goto Destructing (teardown_batch batch (Some ans) s)) as -> by congruence.
    apply books_intro; [intros g|by destruct (teardown_batch_ledger batch (Some ans) s (books_ledger s Hb))].
    pose proof (books_total g s Hb) as Ht. rewrite total_goto, teardown_batch_settled by done.
    unfold total in Ht. rewrite Hp in Ht. simpl in Ht. destruct (teardown_batch_frame batch (Some ans) s) as [E _].
    rewrite (in_drains_eq g s) by (by rewrite E). simpl. rewrite sumZ_nil. lia.
Qed.

Lemma books_pipeline_saturated batch id d s :
  books s -> php s = AwaitPermit batch id d -> books (pipeline_saturated batch s).
Proof.
  intros Hb Hp. unfold pipeline_saturated. set (s1 := rebuffer_or_drop batch s).
  assert (books (goto Idle s1)) as Hb1.
  { apply books_intro; [intros g|by destruct (rebuffer_or_drop_ledger batch s (books_ledger s Hb))].
    pose proof (books_total g s Hb) as Ht. rewrite total_goto. unfold s1. rewrite rebuffer_or_drop_settled.
    unfold total in Ht. rewrite Hp in Ht. simpl in Ht. destruct (rebuffer_or_drop_frame batch s) as (E & _).
    rewrite (in_drains_eq g s) by (by rewrite E). simpl. rewrite sumZ_nil. lia. }
  apply books_timer in Hb1. by apply (books_frame (ensure_flush_timer (goto Idle s1))).
Qed.

Lemma books_php_timeout s s' : books s -> php_timeout s = Some s' -> books s'.
Proof.
  intros Hb. unfold php_timeout. destruct (php s) eqn:Hp; try done; case_match; try done; intros Hs.
  - injection Hs as <-. by eapply books_pipeline_saturated.
  - assert (s' = goto Destructing (teardown_batch batch None s)) as -> by congruence.
    apply books_intro; [intros g|by destruct (teardown_batch_ledger batch None s (books_ledger s Hb))].
    pose proof (books_total g s Hb) as Ht. rewrite total_goto, teardown_batch_settled by done.
    unfold total in Ht. rewrite Hp in Ht. simpl in Ht. rewrite (in_drains_eq g s) by done. simpl. rewrite sumZ_nil. lia.
Qed.

Lemma books_after_flush c r fl s : books s -> php s = Sent c r -> books (after_flush cfg c r fl s).
Proof.
  intros Hb Hp. pose proof (books_surface true s Hb) as H1. pose proof (books_surface false s Hb) as H0.
  pose proof (surface_php true s) as P1. pose proof (surface_php false s) as P0. rewrite Hp in P1, P0.
  unfold after_flush. destruct (surface_publish_errors true s) as [r1 s1], (surface_publish_errors false s) as [r0 s0].
  simpl in *. destruct c; repeat case_match; simpl;
    first [by apply books_reply; rewrite ?Hp, ?P1|by apply books_goto; rewrite ?Hp, ?P0].
Qed.

Lemma books_timer_step i s s' : books s -> timer_step cfg i s = Some s' -> books s'.
Proof.
  intros Hb. unfold timer_step. destruct (timers (tasks s) !! i) as [[]|]; try done; intros Hs;
    repeat case_match; simplify_eq; try (by apply (books_frame s)).
  apply books_intro; [intros g|by destruct (books_ledger s Hb)]. pose proof (books_total g s Hb) as Ht.
  unfold total in *. rewrite in_drains_spawn. simpl. rewrite sumZ_nil.
  rewrite (in_drains_eq g s) by done. change (settled g _) with (settled g s). lia.
Qed.

(** A drain's batch is disposed of and the drain ends. *)
Lemma books_drain_end j d s s1 s2 :
  books s -> drains (tasks s) !! j = Some d ->
  (forall g, settled g s1 = settled g s + sumZ g (drain_batch d)) -> ledger s1 ->
  drains (tasks s1) = drains (tasks s) -> php s1 = php s ->
  buffer s2 = buffer s1 -> log s2 = log s1 -> flags s2 = flags s1 -> php s2 = php s1 ->
  drains (tasks s2) = <[j := DrainDone]> (drains (tasks s1)) -> books s2.
Proof.
  intros Hb Hj Hs [] Ht Hp E1 E2 E3 E4 E5. apply books_intro.
  - intros g. pose proof (books_total g s Hb) as Htot. unfold total in *. specialize (Hs g).
    rewrite E4, Hp. unfold settled, in_drains in *. rewrite E1, E2, E5, Ht, (sumZ_insert _ _ _ _ _ Hj).
    simpl. rewrite sumZ_nil. lia.
  - split; by rewrite ?E1, ?E2, ?E3.
Qed.

Lemma books_drain_answer j a s s' : books s -> drain_answer cfg j a s = Some s' -> books s'.
Proof.
  intros Hb. unfold drain_answer. destruct (drains (tasks s) !! j) as [[]|] eqn:Hj; try done.
  destruct (answer_of cfg a batch s) as [ans|] eqn:Ha; [|done]. simpl. intros [= <-].
  apply answer_of_answers in Ha. unfold run_drain. destruct ans as [os|e]; simpl in Ha.
  - destruct (record_all_frame (returned_errors os) (log_outcomes batch os s)) as (E1 & E2 & E3 & E4 & _ & E5).
    eapply (books_drain_end j _ s (log_outcomes batch os s)); try done; simpl; try done;
      [intros g; by rewrite log_outcomes_settled|by destruct (books_ledger s Hb)|by rewrite E2].
  - case_match; [|apply books_intro; [intros g|by destruct (books_ledger s Hb)]].
    + eapply (books_drain_end j _ s (drop_all batch s)); try done; simpl; try done;
        [intros g; by rewrite drop_all_settled|by apply drop_all_ledger, books_ledger].
    + pose proof (books_total g s Hb). unfold total in *. rewrite (in_drains_set _ _ _ _ _ Hj). simpl.
      change (settled g (set_drain _ _ _)) with (settled g s). lia.
Qed.

Lemma books_drain_timeout j s s' : books s -> drain_timeout j s = Some s' -> books s'.
Proof.
  intros Hb. unfold drain_timeout. destruct (drains (tasks s) !! j) as [[]|] eqn:Hj; try done.
  case_match; [|done]. intros [= <-]. unfold timer_drain_saturated. case_match.
  - destruct (ensure_flush_timer_frame (drop_all batch s)) as [E _].
    eapply (books_drain_end j _ s (drop_all batch s)); try done;
      [intros g; by rewrite drop_all_settled|by apply drop_all_ledger, books_ledger|].
    cbn [set_drain on_tasks tasks drains set_drains]. change (tasks (record_error ?e ?x)) with (tasks x). by rewrite E.
  - apply books_intro; [intros g|by destruct (books_ledger s Hb)].
    pose proof (books_total g s Hb). unfold total in *. rewrite (in_drains_set _ _ _ _ _ Hj). simpl.
    change (settled g (set_drain _ _ _)) with (settled g s). lia.
Qed.

Lemma books_dispose j batch sat e s :
  books s -> drains (tasks s) !! j = Some (Disposing batch sat e) -> books (dispose j batch sat e s).
Proof.
  intros Hb Hj. destruct (rebuffer_frame batch s) as (E1 & E2 & E3 & E4 & _).
  destruct (ensure_flush_timer_frame (rebuffer batch s)) as [E _].
  eapply (books_drain_end j _ s (rebuffer batch s)); try done.
  - intros g. by rewrite rebuffer_settled.
  - by apply rebuffer_ledger, books_ledger.
  - by rewrite E1.
  - unfold dispose. by destruct sat.
  - unfold dispose. by destruct sat.
  - unfold dispose. by destruct sat.
  - unfold dispose. by destruct sat.
  - unfold dispose. destruct sat; cbn; [|done]. unfold ensure_flush_timer in E. cbn in E. by rewrite E.
Qed.

Lemma books_drain_step j s s' : books s -> drain_step j s = Some s' -> books s'.
Proof.
  intros Hb. unfold drain_step. destruct (drains (tasks s) !! j) as [[]|] eqn:Hj; try done.
  - intros Hs. set (d := if bool_decide ((take s).1 = []) then DrainDone
                      else TimerWait (take s).1 (now s + TEARDOWN_FLUSH_BUDGET)).
    assert (s' = set_drain j d (take s).2) as -> by (injection Hs as <-; done).
    apply books_intro; [intros g|by destruct (take_ledger s (books_ledger s Hb))].
    assert (sumZ g (drain_batch d) = sumZ g (take s).1) as Hd.
    { unfold d. case_bool_decide as E; [by rewrite E|done]. }
    pose proof (books_total g s Hb) as Ht. unfold total in *. rewrite (in_drains_set g j TimerDrain) by done.
    rewrite Hd, (in_drains_eq g s) by done. change (settled g (set_drain j d ?x)) with (settled g x).
    rewrite take_settled. simpl php. cbn [drain_batch]. rewrite sumZ_nil. lia.
  - case_match; [|done]. intros [= <-]. apply books_intro; [intros g|by destruct (books_ledger s Hb)].
    pose proof (books_total g s Hb) as Ht. unfold total in *.
    assert (drains (tasks (acquire_permit s)) !! j = Some (TimerWait batch deadline)) as Hj' by done.
    rewrite (in_drains_set _ _ _ _ _ Hj'). simpl. rewrite (in_drains_eq g s) by done.
    change (settled g (set_drain _ _ _)) with (settled g s). lia.
  - intros [= <-]. by apply books_dispose.
Qed.

Lemma books_step e s s' : books s -> step cfg e s = Some s' -> books s'.
Proof.
  intros Hb. destruct e; cbn [step];
    try (destruct (php s) eqn:Hp; try done; intros Hs; by eapply books_call).
  - apply books_php_step, Hb.
  - apply books_php_answer, Hb.
  - destruct (php s) eqn:Hp; try done. intros [= <-]. by apply books_after_flush.
  - apply books_php_timeout, Hb.
  - destruct (php s) eqn:Hp; try done. intros [= <-]. unfold close_claim.
    repeat case_match; by apply (books_frame s); rewrite ?Hp.
  - apply books_timer_step, Hb.
  - apply books_drain_step, Hb.
  - apply books_drain_answer, Hb.
  - apply books_drain_timeout, Hb.
  - case_match; [|done]. intros [= <-]. by apply (books_frame s).
  - intros [= <-]. by apply (books_frame s).
Qed.

(** ** Drain permits *)

Definition holds (d : Drain) : Z :=
  match d with
  | Draining _ | Disposing _ false _ => 1
  | TimerDrain | TimerWait _ _ | Disposing _ true _ | DrainDone => 0
  end.

Definition permits s : Prop :=
  Z.of_nat (drain_permits (tasks s)) + sumZ holds (drains (tasks s)) = Z.of_nat MAX_CONCURRENT_DRAINS.

Lemma permits_eq s s' :
  permits s -> drains (tasks s') = drains (tasks s) -> drain_permits (tasks s') = drain_permits (tasks s) ->
  permits s'.
Proof. unfold permits. by intros H -> ->. Qed.

Lemma permits_tasks s s' : permits s -> tasks s' = tasks s -> permits s'.
Proof. intros H E. apply (permits_eq s); by rewrite ?E. Qed.

(** Task [j] moves from [d] to [d'] and the semaphore follows. *)
Lemma permits_set j d d' s s' :
  permits s -> drains (tasks s) !! j = Some d -> drains (tasks s') = <[j := d']> (drains (tasks s)) ->
  Z.of_nat (drain_permits (tasks s')) + holds d' = Z.of_nat (drain_permits (tasks s)) + holds d -> permits s'.
Proof. unfold permits. intros H Hj -> Hp. rewrite (sumZ_insert _ _ _ _ _ Hj). lia. Qed.

Lemma permits_php s s' : permits s -> php_step cfg s = Some s' -> permits s'.
Proof.
  intros Hp. unfold php_step. destruct (php s) eqn:Hpc; intros Hs; repeat case_match; simplify_eq/=;
    try (by apply (permits_tasks s)).
  - apply (permits_tasks s); [done|]. unfold flush_take. simpl. by case_bool_decide.
  - apply (permits_tasks s); [done|]. unfold recheck. by case_match.
  - apply (permits_tasks s); [done|]. unfold enqueue in *. by destruct (bool_decide _); simplify_eq/=.
  - unfold decide_flush. case_match; [by apply (permits_tasks s)|]. destruct started; [|by apply (permits_tasks s)].
    destruct (ensure_flush_timer_frame s). by apply (permits_eq s).
  - apply (permits_tasks s); [done|]. unfold flush_triggered. simpl. by case_bool_decide.
  - unfold permits in *. simpl. rewrite sumZ_app, sumZ_cons, sumZ_nil. simpl.
    match goal with H : (0 <? _)%nat = true |- _ => apply Nat.ltb_lt in H end. lia.
  - apply (permits_tasks s); [done|]. unfold surface. destruct (surface_frame true s) as (_ & E & _).
    by destruct (surface_publish_errors true s) as [[] s1].
  - apply (permits_tasks s); [done|]. unfold destruct_take. simpl. by case_bool_decide.
Qed.

Lemma permits_drain j s s' : permits s -> drain_step j s = Some s' -> permits s'.
Proof.
  intros Hp. unfold drain_step. destruct (drains (tasks s) !! j) as [[]|] eqn:Hj; try done.
  - simpl. intros [= <-]. eapply (permits_set j); [exact Hp|exact Hj|done|]. simpl. by case_bool_decide.
  - case_match; [|done]. intros [= <-]. eapply (permits_set j); [exact Hp|exact Hj|done|]. simpl.
    match goal with H : (0 <? _)%nat = true |- _ => apply Nat.ltb_lt in H end. lia.
  - intros [= <-]. unfold dispose. destruct (rebuffer_frame batch s) as (E & _).
    destruct saturated.
    + destruct (ensure_flush_timer_frame (rebuffer batch s)) as [E1 E2].
      eapply (permits_set j _ DrainDone); [exact Hp|exact Hj| |].
      * change (drains (tasks (set_drain ?j ?d (record_error ?e ?x)))) with (<[j := d]> (drains (tasks x))).
        by rewrite E1, E.
      * change (drain_permits (tasks (set_drain ?j ?d (record_error ?e ?x)))) with (drain_permits (tasks x)).
        rewrite E2, E. simpl. lia.
    + eapply (permits_set j _ DrainDone); [exact Hp|exact Hj| |].
      * change (drains (tasks (release_permit (set_drain ?j ?d (record_error ?e ?x)))))
          with (<[j := d]> (drains (tasks x))). by rewrite E.
      * change (drain_permits (tasks (release_permit (set_drain ?j ?d (record_error ?e ?x)))))
          with (drain_permits (tasks x) + 1)%nat. rewrite E. simpl. lia.
Qed.

Lemma permits_drain_answer j a s s' : permits s -> drain_answer cfg j a s = Some s' -> permits s'.
Proof.
  intros Hp. unfold drain_answer. destruct (drains (tasks s) !! j) as [[]|] eqn:Hj; try done.
  destruct (answer_of cfg a batch s) as [ans|]; [|done]. simpl. intros [= <-]. unfold run_drain.
  destruct ans as [os|e].
  - destruct (record_all_frame (returned_errors os) (log_outcomes batch os s)) as (_ & E & _).
    eapply (permits_set j _ DrainDone); [exact Hp|exact Hj| |].
    + change (drains (tasks (release_permit (set_drain ?j ?d ?x)))) with (<[j := d]> (drains (tasks x))).
      by rewrite E.
    + change (drain_permits (tasks (release_permit (set_drain ?j ?d ?x)))) with (drain_permits (tasks x) + 1)%nat.
      rewrite E. simpl. lia.
  - case_match; eapply (permits_set j); [exact Hp|exact Hj|done|simpl; lia|exact Hp|exact Hj|done|simpl; lia].
Qed.

Lemma permits_drain_timeout j s s' : permits s -> drain_timeout j s = Some s' -> permits s'.
Proof.
  intros Hp. unfold drain_timeout. destruct (drains (tasks s) !! j) as [[]|] eqn:Hj; try done.
  case_match; [|done]. intros [= <-]. unfold timer_drain_saturated. case_match.
  - destruct (ensure_flush_timer_frame (drop_all batch s)) as [E1 E2].
    eapply (permits_set j _ DrainDone); [exact Hp|exact Hj| |].
    + change (drains (tasks (set_drain ?j ?d (record_error ?e ?x)))) with (<[j := d]> (drains (tasks x))).
      by rewrite E1.
    + change (drain_permits (tasks (set_drain ?j ?d (record_error ?e ?x)))) with (drain_permits (tasks x)).
      rewrite E2. simpl. lia.
  - eapply (permits_set j); [exact Hp|exact Hj|done|simpl; lia].
Qed.

Lemma permits_call e s s' : permits s -> call e s = Some s' -> permits s'.
Proof.
  intros Hp. destruct e; simpl; intros [= <-]; try done;
    unfold publish, flush, flush_nonempty, drain_errors, flush_all, quiesce_start, take_errors;
    cbn beta iota zeta; repeat case_match; by apply (permits_eq s).
Qed.

Lemma permits_php_answer a s s' : permits s -> php_answer cfg a s = Some s' -> permits s'.
Proof.
  intros Hp. unfold php_answer. destruct (php s); try done; destruct (answer_of cfg a batch s) as [ans|]; try done;
    cbn [mbind option_bind]; intros Hs.
  - pose proof (flush_batch_tasks batch ans s) as E. destruct (flush_batch batch ans s) as [r s1].
    injection Hs as <-. by apply (permits_tasks s).
  - destruct (teardown_batch_frame batch (Some ans) s) as [E _].
    assert (s' = goto Destructing (teardown_batch batch (Some ans) s)) as -> by congruence. by apply (permits_tasks s).
Qed.

Lemma permits_php_timeout s s' : permits s -> php_timeout s = Some s' -> permits s'.
Proof.
  intros Hp. unfold php_timeout. destruct (php s); try done; case_match; try done; intros [= <-].
  - destruct (rebuffer_or_drop_frame batch s) as (E & _), (ensure_flush_timer_frame (rebuffer_or_drop batch s)).
    apply (permits_eq s); [done| |]; rewrite <- E; done.
  - by apply (permits_tasks s).
Qed.

Lemma permits_step e s s' : permits s -> step cfg e s = Some s' -> permits s'.
Proof.
  intros Hp. destruct e; cbn [step];
    try (destruct (php s); try done; intros Hs; by eapply permits_call).
  - apply permits_php, Hp.
  - apply permits_php_answer, Hp.
  - destruct (php s); try done. intros [= <-]. apply (permits_tasks s); [done|]. unfold after_flush.
    destruct (surface_frame true s) as (_ & E1 & _), (surface_frame false s) as (_ & E0 & _).
    destruct (surface_publish_errors true s) as [[] s1], (surface_publish_errors false s) as [r0 s0]; simpl in *;
      destruct c; repeat case_match; done.
  - apply permits_php_timeout, Hp.
  - destruct (php s); try done. intros [= <-]. unfold close_claim. repeat case_match; by apply (permits_tasks s).
  - unfold timer_step. destruct (timers (tasks s) !! i) as [[]|]; try done; intros Hs;
      repeat case_match; simplify_eq; try (by apply (permits_eq s)).
    unfold permits in *. simpl. rewrite sumZ_app, sumZ_cons, sumZ_nil. simpl. lia.
  - apply permits_drain, Hp.
  - apply permits_drain_answer, Hp.
  - apply permits_drain_timeout, Hp.
  - case_match; [|done]. intros [= <-]. by apply (permits_tasks s).
  - intros [= <-]. by apply (permits_tasks s).
Qed.

(** ** Error records *)

Record records (x : Errors) : Prop := {
  rc_bound : Z.of_nat (length (pending_errors x)) <= MAX_PENDING_ERRORS;
  rc_counter : dropped_error_records x = Z.of_nat (discarded x) mod 2 ^ 64;
  rc_past : exists past, recorded x = past ++ pending_errors x /\
    length past = (length (shown x) + length (swallowed x) + discarded x)%nat
}.

Lemma records_record e s : records (errors s) -> records (errors (record_error e s)).
Proof.
  intros [Hb Hc (past & Hr & Hl)]. unfold record_error. simpl. case_match eqn:E; simpl.
  - zbool. destruct (pending_errors (errors s)) as [|e0 l] eqn:Ep; [done|].
    split; simpl.
    + rewrite length_app. simpl in *. lia.
    + rewrite (fetch_add_mod _ _ _ Hc). f_equal. lia.
    + exists (past ++ [e0]). rewrite Hr, <- !(assoc_L (++)). split; [done|]. rewrite length_app. simpl. lia.
  - zbool. split; simpl; [|done|].
    + rewrite length_app. simpl. lia.
    + exists past. by rewrite Hr, (assoc_L (++)).
Qed.

Lemma records_record_all es s : records (errors s) -> records (errors (record_all es s)).
Proof.
  revert s. induction es as [|e es IH]; intros s Hr; [done|]. apply (IH (record_error e s)).
  by apply records_record.
Qed.

Lemma records_surface h s : records (errors s) -> records (errors (surface_publish_errors h s).2).
Proof.
  intros [Hb Hc (past & Hr & Hl)]. unfold surface_publish_errors. simpl.
  destruct (pending_errors (errors s)) as [|e0 l] eqn:Ep; simpl.
  { split; simpl; [by unfold MAX_PENDING_ERRORS|done|]. by exists past. }
  assert (fetch_add (dropped_error_records (errors s)) (Z.of_nat (length l)) =
          Z.of_nat (discarded (errors s) + length l) mod 2 ^ 64) as Hf.
  { rewrite (fetch_add_mod _ _ _ Hc). f_equal. lia. }
  assert (length (past ++ e0 :: l) = (length past + S (length l))%nat) as Hlen by (by rewrite length_app).
  destruct (0 <? length l)%nat eqn:E; [|apply Nat.ltb_ge in E]; destruct h; split; simpl; try done;
    (exists (past ++ e0 :: l); rewrite Hlen, ?length_app; simpl; split; [by rewrite Hr, (right_id_L [] (++))|lia]).
Qed.

Lemma records_eq x y : records x -> y = x -> records y.
Proof. by intros ? ->. Qed.

Lemma flush_batch_records ps ans s : records (errors s) -> records (errors (flush_batch ps ans s).2).
Proof.
  intros Hr. unfold flush_batch. destruct ans as [os|e]; simpl.
  - destruct (returned_errors os); simpl; [done|]. by apply records_record_all.
  - case_decide; [done|]. destruct (rebuffer_or_drop_frame ps s) as (_ & -> & _). done.
Qed.

Lemma teardown_batch_records ps ans s : records (errors s) -> records (errors (teardown_batch ps ans s)).
Proof. intros Hr. destruct ans as [[os|e]|]; simpl; try done. by apply records_record_all. Qed.

Lemma records_call e s s' : records (errors s) -> call e s = Some s' -> records (errors s').
Proof.
  intros Hr. destruct e; cbn [call]; intros Hs; try done; injection Hs as <-;
    unfold publish, flush, flush_nonempty, flush_all, quiesce_start;
    cbn beta iota zeta; repeat case_match; try done.
  unfold drain_errors. case_match; [|done]. simpl. destruct Hr as [Hb Hc (past & Hr & Hl)].
  split; simpl; [lia|done|]. exists (past ++ pending_errors (errors s)).
  rewrite Hr, (right_id_L [] (++)), !length_app. split; [done|lia].
Qed.

Lemma records_php s s' : records (errors s) -> php_step cfg s = Some s' -> records (errors s').
Proof.
  intros Hr. unfold php_step. destruct (php s) eqn:Hpc; intros Hs; repeat case_match; simplify_eq/=; try done.
  - apply (records_eq (errors s)); [done|]. unfold flush_take. simpl. by case_bool_decide.
  - apply (records_eq (errors s)); [done|]. unfold recheck. by case_match.
  - apply (records_eq (errors s)); [done|]. unfold enqueue in *. by destruct (bool_decide _); simplify_eq/=.
  - apply (records_eq (errors s)); [done|]. unfold decide_flush. case_match; [done|]. by destruct started.
  - apply (records_eq (errors s)); [done|]. unfold flush_triggered. simpl. by case_bool_decide.
  - pose proof (records_surface true s Hr). unfold surface. by destruct (surface_publish_errors true s) as [[] s1].
  - apply (records_eq (errors s)); [done|]. unfold destruct_take. simpl. by case_bool_decide.
Qed.

Lemma records_drains e s s' :
  records (errors s) ->
  match e with EDrain _ | EDrainAnswer _ _ | EDrainTimeout _ => step cfg e s = Some s' | _ => False end ->
  records (errors s').
Proof.
  intros Hr. destruct e; try done; cbn [step].
  - unfold drain_step. destruct (drains (tasks s) !! j) as [[]|]; try done.
    + simpl. by intros [= <-].
    + case_match; [|done]. by intros [= <-].
    + intros [= <-]. unfold dispose. destruct (rebuffer_frame batch s) as (_ & E & _).
      destruct saturated; apply (records_record e (rebuffer batch s)); by rewrite E.
  - unfold drain_answer. destruct (drains (tasks s) !! j) as [[]|]; try done.
    destruct (answer_of cfg a batch s) as [ans|]; [|done]. simpl. intros [= <-]. unfold run_drain.
    destruct ans as [os|err]; [by apply (records_record_all _ (log_outcomes batch os s))|].
    case_match; [|done]. by apply (records_record _ (drop_all batch s)).
  - unfold drain_timeout. destruct (drains (tasks s) !! j) as [[]|]; try done.
    case_match; [|done]. intros [= <-]. unfold timer_drain_saturated. case_match; [|done].
    by apply (records_record _ (drop_all batch s)).
Qed.

Lemma records_step e s s' : records (errors s) -> step cfg e s = Some s' -> records (errors s').
Proof.
  intros Hr. pose proof (records_drains e s s' Hr) as Hd.
  destruct e; try (by apply Hd); cbn [step];
    try (destruct (php s); try done; intros Hs; by eapply records_call).
  - apply records_php, Hr.
  - unfold php_answer. destruct (php s); try done; destruct (answer_of cfg a batch s) as [ans|]; try done;
      cbn [mbind option_bind]; intros Hs.
    + pose proof (flush_batch_records batch ans s Hr) as E. destruct (flush_batch batch ans s) as [r s1].
      by injection Hs as <-.
    + assert (s' = goto Destructing (teardown_batch batch (Some ans) s)) as -> by congruence.
      by apply teardown_batch_records.
  - destruct (php s); try done. intros [= <-]. unfold after_flush.
    pose proof (records_surface true s Hr) as E1. pose proof (records_surface false s Hr) as E0.
    destruct (surface_publish_errors true s) as [[] s1], (surface_publish_errors false s) as [r0 s0]; simpl in *;
      destruct c; repeat case_match; done.
  - unfold php_timeout. destruct (php s); try done; case_match; try done; intros [= <-]; [|done].
    destruct (rebuffer_or_drop_frame batch s) as (_ & E & _).
    change (records (errors (rebuffer_or_drop batch s))). by rewrite E.
  - destruct (php s); try done. intros [= <-]. unfold close_claim. by repeat case_match.
  - unfold timer_step. destruct (timers (tasks s) !! i) as [[]|]; try done; intros Hs;
      repeat case_match; by simplify_eq.
  - case_match; [|done]. by intros [= <-].
  - by intros [= <-].
Qed.

(** ** Reachable states *)

Lemma buffer_reach_inv start s : reach cfg start s -> books s /\ permits s /\ records (errors s).
Proof.
  induction 1 as [|e s s' _ (Hb & Hp & Hr) Hs].
  - split; [|split; [done|]].
    + by split.
    + split; [done..|]. by exists [].
  - split; [by eapply books_step|split; [by eapply permits_step|by eapply records_step]].
Qed.

End Inv.

End PublishBufferInv.
