(* ===== verification/PublishBufferSystem.v ===== *)
(** * What the PHP publish buffer guarantees

    The theorems on the reachable states of [PublishBuffer] (any interleaving of
    the PHP thread, drains and timers), and runs that show where the interval
    contract and the flush barrier do not hold. *)

From S2P Require Import Prelude Transport Publication ClientBatch PublishBuffer PublishBufferInv.
Import Transport Publication ClientBatch PublishBuffer PublishBufferInv.
Local Open Scope Z_scope.
Local Open Scope rabbit_scope.

Module PublishBufferSystem.

(** ** From weights to permutations *)

Definition indicator (p q : NativePublish) : Z := if decide (p = q) then 1 else 0.

Lemma count_occ_sumZ l p : Z.of_nat (count_occ NativePublish_eq_dec l p) = sumZ (indicator p) l.
Proof.
  induction l as [|q l IH]; [done|]. rewrite sumZ_cons. unfold indicator at 1. simpl.
  destruct (NativePublish_eq_dec q p) as [->|Hne]; destruct (decide _); try done; lia.
Qed.

Lemma sums_perm l1 l2 : (forall g : NativePublish -> Z, sumZ g l1 = sumZ g l2) -> l1 ≡ₚ l2.
Proof.
  intros H. apply (Permutation_count_occ NativePublish_eq_dec). intros p.
  specialize (H (indicator p)). rewrite <- !count_occ_sumZ in H. lia.
Qed.

Lemma sumZ_mjoin {A B} (g : B -> Z) (h : A -> list B) l :
  sumZ g (mjoin (h <$> l)) = sumZ (fun a => sumZ g (h a)) l.
Proof. induction l as [|a l IH]; [done|]. csimpl. by rewrite sumZ_app, sumZ_cons, IH. Qed.

Lemma books_perm s :
  books s ->
  enqueued (log s) ≡ₚ publishes (buffer s) ++ php_batch (php s) ++ mjoin (drain_batch <$> drains (tasks s)) ++
    confirmed (log s) ++ returned (log s) ++ dropped (log s).
Proof.
  intros [Hb _ _]. apply sums_perm. intros g. specialize (Hb g). unfold settled, in_drains in Hb.
  rewrite !sumZ_app, sumZ_mjoin. lia.
Qed.

(** ** Teardown *)

Definition disposing (d : Drain) : bool := match d with Disposing _ _ _ => true | _ => false end.

Definition caller_ok (c : Caller) : bool := match c with ForPublish _ => false | _ => true end.

(** The PHP thread after the destructor started: the calls a closed pool still
    serves, and whether the buffer is empty for good. *)
Definition torn_pc (s : State) : Prop :=
  match php s with
  | DestructQuiescing _ _ | DestructTaking _ => True
  | DestructSending _ _ | Destructing => publishes (buffer s) = []
  | Idle | PopQuiescing _ _ | Closing => publishes (buffer s) = [] /\ claim_open (flags s) = false
  | Quiescing c _ _ | Taking c | Sending c _ | Sent c _ =>
      publishes (buffer s) = [] /\ claim_open (flags s) = false /\ caller_ok c = true
  | _ => False
  end.

Record torn (s : State) : Prop := {
  tn_flag : tearing_down (flags s) = true;
  tn_drains : Forall (fun d => disposing d = false) (drains (tasks s));
  tn_pc : torn_pc s
}.

Section Torn.
Variable cfg : Config.

(** Every end of a batch under teardown leaves the buffer as it is. *)
Lemma gone_torn s : tearing_down (flags s) = true -> gone s = true.
Proof. unfold gone. by intros ->. Qed.

Lemma flush_batch_torn ps ans s :
  tearing_down (flags s) = true ->
  let s' := (flush_batch ps ans s).2 in
  publishes (buffer s') = publishes (buffer s) /\ tearing_down (flags s') = true /\
  claim_open (flags s') = claim_open (flags s).
Proof.
  intros Ht. unfold flush_batch. destruct ans as [os|e]; simpl.
  - destruct (returned_errors os) as [|e es]; simpl; [done|].
    destruct (record_all_frame es (log_outcomes ps os s)) as (-> & _ & -> & _). done.
  - unfold rebuffer_or_drop. rewrite gone_torn by done. by case_decide.
Qed.

Lemma torn_frame s s' :
  torn s -> publishes (buffer s') = publishes (buffer s) -> tearing_down (flags s') = tearing_down (flags s) ->
  claim_open (flags s') = claim_open (flags s) -> drains (tasks s') = drains (tasks s) -> php s' = php s -> torn s'.
Proof.
  intros [] E1 E2 E3 E4 E5. split; rewrite ?E2, ?E4; try done.
  unfold torn_pc in *. by rewrite E5, E1, E3.
Qed.

Lemma torn_call e s s' : torn s -> php s = Idle -> call e s = Some s' -> torn s'.
Proof.
  intros [Hf Hd Hp] Hpc. unfold torn_pc in Hp. rewrite Hpc in Hp. destruct Hp as [Hb Hc].
  assert (pool_open s = false) as Ho by (unfold pool_open; by rewrite Hc).
  destruct e; cbn [call]; intros Hs; try done; injection Hs as <-.
  - unfold publish. rewrite Ho. by split.
  - unfold flush. rewrite Ho. by split.
  - rewrite Ho. by split.
  - unfold flush_nonempty. rewrite bool_decide_true by done. by split.
  - unfold drain_errors. rewrite Ho. by split.
  - unfold flush. rewrite Ho. by split.
  - by split.
Qed.

Lemma torn_php s s' : torn s -> php_step cfg s = Some s' -> torn s'.
Proof.
  intros [Hf Hd Hp]. unfold php_step, torn_pc in *.
  destruct (php s) eqn:Hpc; try done; intros Hs; repeat case_match; simplify_eq/=; try (by split).
  - destruct Hp as (Hb & Hc & Hok). unfold flush_take. simpl. rewrite bool_decide_true by done. by split.
  - unfold destruct_take. simpl. case_bool_decide; by split.
Qed.

Lemma torn_answer a s s' : torn s -> php_answer cfg a s = Some s' -> torn s'.
Proof.
  intros [Hf Hd Hp]. unfold php_answer, torn_pc in *.
  destruct (php s) eqn:Hpc; try done; destruct (answer_of cfg a batch s) as [ans|]; try done;
    cbn [mbind option_bind]; intros Hs.
  - destruct (flush_batch_torn batch ans s Hf) as (E1 & E2 & E3).
    pose proof (flush_batch_tasks batch ans s) as E4. destruct (flush_batch batch ans s) as [r s1].
    injection Hs as <-. simpl in *. split; unfold torn_pc; simpl; rewrite ?E1, ?E3, ?E4; done.
  - assert (s' = goto Destructing (teardown_batch batch (Some ans) s)) as -> by congruence.
    destruct (teardown_batch_frame batch (Some ans) s) as (E1 & E2 & E3).
    split; unfold torn_pc; cbn [goto php tasks flags buffer]; rewrite ?E1, ?E2, ?E3; done.
Qed.

Lemma Forall_set_drain j d s :
  Forall (fun d => disposing d = false) (drains (tasks s)) -> disposing d = false ->
  Forall (fun d => disposing d = false) (<[j := d]> (drains (tasks s))).
Proof. intros H Hd. by apply Forall_insert. Qed.

(** A task's step that leaves buffer, flags and PHP thread alone. *)
Lemma torn_drain s s' j d :
  torn s -> disposing d = false -> publishes (buffer s') = publishes (buffer s) \/ publishes (buffer s') = [] ->
  tearing_down (flags s') = tearing_down (flags s) -> claim_open (flags s') = claim_open (flags s) ->
  drains (tasks s') = <[j := d]> (drains (tasks s)) -> php s' = php s -> torn s'.
Proof.
  intros [Hf Hd Hp] Hj Hb E2 E3 E4 E5. split.
  - by rewrite E2.
  - rewrite E4. by apply Forall_set_drain.
  - unfold torn_pc in *. rewrite E5, E3. destruct (php s); destruct Hb as [Hb|Hb]; rewrite ?Hb; tauto.
Qed.

Lemma torn_drains e s s' :
  torn s ->
  match e with EDrain _ | EDrainAnswer _ _ | EDrainTimeout _ => step cfg e s = Some s' | _ => False end -> torn s'.
Proof.
  intros Ht. destruct e; try done; cbn [step].
  - unfold drain_step. destruct (drains (tasks s) !! j) as [d|] eqn:Hj; [|done].
    assert (disposing d = false) as Hd.
    { destruct Ht as [_ Hd _]. rewrite Forall_lookup in Hd. eauto. }
    destruct d; try done.
    + simpl. intros [= <-].
      eapply (torn_drain s _ j (if bool_decide (publishes (buffer s) = []) then DrainDone else _)); try done;
        [by case_bool_decide|by right].
    + case_match; [|done]. intros [= <-]. apply (torn_drain s _ j (Draining batch)); try done. by left.
  - unfold drain_answer. destruct (drains (tasks s) !! j) as [[]|] eqn:Hj; try done.
    destruct (answer_of cfg a batch s) as [ans|]; [|done]. simpl. intros [= <-]. unfold run_drain.
    destruct ans as [os|err].
    + destruct (record_all_frame (returned_errors os) (log_outcomes batch os s)) as (E1 & E2 & E3 & _ & _ & E4).
      apply (torn_drain s _ j DrainDone); try done; simpl; rewrite ?E1, ?E2, ?E3, ?E4; try done. by left.
    + rewrite gone_torn, orb_true_r by apply Ht. apply (torn_drain s _ j DrainDone); try done. by left.
  - unfold drain_timeout. destruct (drains (tasks s) !! j) as [[]|] eqn:Hj; try done.
    case_match; [|done]. intros [= <-]. unfold timer_drain_saturated. rewrite gone_torn by apply Ht.
    destruct (ensure_flush_timer_frame (drop_all batch s)) as [E _].
    apply (torn_drain s _ j DrainDone); try done; [by left|].
    change (drains (tasks (set_drain ?j ?d (record_error ?e ?x)))) with (<[j := d]> (drains (tasks x))). by rewrite E.
Qed.

Lemma surface_torn h s : torn s -> torn (surface_publish_errors h s).2.
Proof.
  intros Ht. destruct (surface_frame h s) as (E1 & E2 & E3 & _ & _ & E4).
  apply (torn_frame s); rewrite ?E1, ?E2, ?E3, ?E4; done.
Qed.

Lemma torn_after_flush c r fl s : torn s -> php s = Sent c r -> torn (after_flush cfg c r fl s).
Proof.
  intros Ht Hpc. pose proof (surface_torn true s Ht) as H1. pose proof (surface_torn false s Ht) as H0.
  pose proof (surface_php true s) as P1. pose proof (surface_php false s) as P0. unfold after_flush.
  destruct (surface_publish_errors true s) as [r1 s1], (surface_publish_errors false s) as [r0 s0].
  simpl in *. rewrite Hpc in P1, P0.
  destruct Ht as [Hf Hd Hp], H1 as [Hf1 Hd1 Hp1], H0 as [Hf0 Hd0 Hp0].
  unfold torn_pc in Hp, Hp1, Hp0. rewrite Hpc in Hp. rewrite P1 in Hp1. rewrite P0 in Hp0.
  destruct Hp as (? & ? & ?), Hp1 as (? & ? & ?), Hp0 as (? & ? & ?).
  destruct c; repeat case_match; simpl; by split.
Qed.

Lemma torn_step e s s' : torn s -> step cfg e s = Some s' -> torn s'.
Proof.
  intros Ht. pose proof (torn_drains e s s' Ht) as Hd.
  destruct e; try (by apply Hd); cbn [step];
    try (destruct (php s) eqn:Hp; try done; intros Hs; by eapply torn_call).
  - by apply torn_php.
  - by apply torn_answer.
  - destruct (php s) eqn:Hp; try done. intros [= <-]. by apply torn_after_flush.
  - unfold php_timeout. destruct Ht as [Hf Hds Hp]. unfold torn_pc in Hp.
    destruct (php s); try done; case_match; try done. intros [= <-]. by split.
  - destruct Ht as [Hf Hds Hp]. unfold torn_pc in Hp. destruct (php s) eqn:Hpc; try done. intros [= <-].
    destruct Hp as [Hb Hc]. unfold close_claim. rewrite Hc. by split.
  - unfold timer_step. destruct (timers (tasks s) !! i) as [[]|]; try done; intros Hs;
      repeat case_match; simplify_eq; try (by apply (torn_frame s)).
    destruct Ht as [Hf Hds Hp]. split; [done| |done]. simpl. apply Forall_app. by split; [|constructor].
  - case_match; [|done]. intros [= <-]. by apply (torn_frame s).
  - intros [= <-]. by apply (torn_frame s).
Qed.

Lemma torn_run es s s' : torn s -> run cfg es s = Some s' -> torn s'.
Proof.
  revert s. induction es as [|e es IH]; intros s Ht; simpl; [by intros [= <-]|].
  destruct (step cfg e s) as [s1|] eqn:Hs; [|done]. simpl. apply IH. by eapply torn_step.
Qed.

Lemma buffer_reach_run start es s s' : reach cfg start s -> run cfg es s = Some s' -> reach cfg start s'.
Proof.
  revert s. induction es as [|e es IH]; intros s Hr; simpl; [by intros [= <-]|].
  destruct (step cfg e s) as [s1|] eqn:Hs; [|done]. simpl. apply IH. by eapply reach_step.
Qed.

Lemma destruct_torn s s1 :
  Forall (fun d => disposing d = false) (drains (tasks s)) -> step cfg EDestruct s = Some s1 -> torn s1.
Proof. intros Hd. cbn [step]. destruct (php s); try done. intros [= <-]. by split. Qed.

End Torn.

(** ** Sample runs *)

Definition sample_cfg : Config := mkConfig (from_millis 1) BUFFER_THRESHOLD false.

Definition sample (id : string) : NativePublish :=
  mkNativePublish "main" (mkPublishRequest (mkDestination "" "q") "job" (message_properties_new id) (from_secs 30)).

(** A client whose broker confirms everything, returns everything, or is gone. *)
Definition confirming (id : string) : Answers :=
  mkAnswers true (fun _ => 0) (fun _ => Ok tt) (fun _ => Ok tt) (fun _ => Ok tt) Z.of_nat (fun _ => Ok (Confirmed id)).
Definition returning (id : string) : Answers :=
  mkAnswers true (fun _ => 0) (fun _ => Ok tt) (fun _ => Ok tt) (fun _ => Ok tt) Z.of_nat
    (fun _ => Ok (Returned id (mkReturnInfo 312 "NO_ROUTE" "" "q"))).
Definition failing : Answers :=
  mkAnswers true (fun _ => 0) (fun _ => Err (mkClientError KTransport "connection lost")) (fun _ => Ok tt)
    (fun _ => Ok tt) Z.of_nat (fun _ => Ok (Confirmed "")).

(** A publish that only buffers, and one that also triggers a drain. *)
Definition buffering (p : NativePublish) : list Event := [EPublish p; EPhp; EPhp; EPhp].
Definition triggering (p : NativePublish) : list Event := [EPublish p; EPhp; EPhp; EPhp; EPhp; EPhp].

Definition final (es : list Event) : State := default (init 0) (run sample_cfg es (init 0)).

Lemma final_reach es : is_Some (run sample_cfg es (init 0)) -> reach sample_cfg 0 (final es).
Proof.
  intros [s Hs]. unfold final. rewrite Hs. eapply buffer_reach_run; [apply reach_init|exact Hs].
Defined.

(** ** Theorems *)

(** C8. No publication vanishes: at every moment of every interleaving the
    accepted publications are exactly those buffered, in the hands of the PHP
    thread, in a drain, confirmed, returned as unroutable or dropped, each counted
    once. The byte counter is the payload of the buffer and the drop counter the
    number of dropped publications (modulo 2^64). *)
Theorem publications_accounted cfg start s :
  reach cfg start s ->
  enqueued (log s) ≡ₚ publishes (buffer s) ++ php_batch (php s) ++ mjoin (drain_batch <$> drains (tasks s)) ++
    confirmed (log s) ++ returned (log s) ++ dropped (log s) /\
  bytes (buffer s) = payload_bytes (publishes (buffer s)) /\
  dropped_publications (flags s) = Z.of_nat (length (dropped (log s))) mod 2 ^ 64.
Proof.
  intros (Hb & _ & _)%buffer_reach_inv. split; [by apply books_perm|]. by destruct Hb.
Qed.

(** Two publications: one confirmed by a timer drain, one buffered again. *)
Definition accounted_run : list Event :=
  buffering (sample "a") ++ [ETimer 0; ETick (from_millis 1); ETimer 0; ETimer 0; EDrain 0; EDrain 0;
    EDrainAnswer 0 (confirming "a")] ++
  buffering (sample "b") ++ [ETimer 1; ETick (from_millis 1); ETimer 1; ETimer 1; EDrain 1; EDrain 1;
    EDrainAnswer 1 failing; EDrain 1].

Lemma publications_accounted_witness :
  enqueued (log (final accounted_run)) = [sample "a"; sample "b"] /\
  confirmed (log (final accounted_run)) = [sample "a"] /\ publishes (buffer (final accounted_run)) = [sample "b"] /\
  bytes (buffer (final accounted_run)) = payload_bytes (publishes (buffer (final accounted_run))).
Proof.
  split; [by vm_compute|]. split; [by vm_compute|]. split; [by vm_compute|].
  apply (publications_accounted sample_cfg 0 (final accounted_run)).
  apply final_reach. vm_compute. eexists. reflexivity.
Defined.

(** Background work and error records are bounded and nothing of them is lost
    uncounted: at most eight drains hold a permit, the permits and their holders
    always add up to eight; at most 4096 error records wait, in the order they were
    recorded, and every other record ever made was surfaced to PHP, surfaced inside
    a call that ignores its flush, or counted in [dropped_error_records]. *)
Theorem drains_and_records_bounded cfg start s :
  reach cfg start s ->
  Z.of_nat (drain_permits (tasks s)) + sumZ holds (drains (tasks s)) = 8 /\
  Z.of_nat (length (pending_errors (errors s))) <= 4096 /\
  (exists past, recorded (errors s) = past ++ pending_errors (errors s) /\
     length past = (length (shown (errors s)) + length (swallowed (errors s)) + discarded (errors s))%nat) /\
  dropped_error_records (errors s) = Z.of_nat (discarded (errors s)) mod 2 ^ 64.
Proof. intros (_ & Hp & [Hb Hc Hr])%buffer_reach_inv. exact (conj Hp (conj Hb (conj Hr Hc))). Qed.

Lemma drains_and_records_bounded_witness :
  length (pending_errors (errors (final accounted_run))) = 1%nat /\
  Z.of_nat (drain_permits (tasks (final accounted_run))) + sumZ holds (drains (tasks (final accounted_run))) = 8.
Proof.
  split; [by vm_compute|]. apply (drains_and_records_bounded sample_cfg 0 (final accounted_run)).
  apply final_reach. vm_compute. eexists. reflexivity.
Defined.

(** C10. After the destructor nothing is left behind: from a state where no drain
    is between reading the teardown flag and buffering its batch again, once the
    destructor ran and every drain ended, in any interleaving, the buffer is empty
    and every publication ever accepted was confirmed, returned or counted as
    dropped. *)
Theorem teardown_accounts cfg start s0 s1 es s :
  reach cfg start s0 -> Forall (fun d => disposing d = false) (drains (tasks s0)) ->
  step cfg EDestruct s0 = Some s1 -> run cfg es s1 = Some s ->
  php s = Idle -> Forall (fun d => d = DrainDone) (drains (tasks s)) ->
  publishes (buffer s) = [] /\ enqueued (log s) ≡ₚ confirmed (log s) ++ returned (log s) ++ dropped (log s).
Proof.
  intros Hr Hd Hs Hrun Hpc Hdone.
  assert (torn s) as [_ _ Hp] by (eapply torn_run; [by eapply destruct_torn|done]).
  unfold torn_pc in Hp. rewrite Hpc in Hp. destruct Hp as [Hb _]. split; [done|].
  assert (reach cfg start s) as (Hbk & _ & _)%buffer_reach_inv.
  { eapply buffer_reach_run; [|done]. by eapply reach_step. }
  apply books_perm in Hbk. rewrite Hb, Hpc in Hbk. simpl in Hbk.
  assert (mjoin (drain_batch <$> drains (tasks s)) = []) as E; [|by rewrite E in Hbk].
  clear -Hdone. induction Hdone as [|d ds -> _ IH]; [done|]. csimpl. exact IH.
Qed.

(** A publication is buffered, another is with a drain that fails during the
    destructor; the destructor's own batch is confirmed. *)
Definition before_destruct : list Event :=
  buffering (sample "a") ++ [ETimer 0; ETick (from_millis 1); ETimer 0; ETimer 0; EDrain 0; EDrain 0] ++
  buffering (sample "b").
Definition destruct_run : list Event :=
  [EDrainAnswer 0 failing; EPhp; EPhp; EAnswer (confirming "b"); EPhp].

Lemma teardown_accounts_witness :
  enqueued (log (final (before_destruct ++ [EDestruct] ++ destruct_run))) = [sample "a"; sample "b"] /\
  publishes (buffer (final (before_destruct ++ [EDestruct] ++ destruct_run))) = [].
Proof.
  split; [by vm_compute|].
  apply (teardown_accounts sample_cfg 0 (final before_destruct) (final (before_destruct ++ [EDestruct])) destruct_run).
  - apply final_reach. vm_compute. eexists. reflexivity.
  - vm_compute. repeat constructor.
  - vm_compute. reflexivity.
  - vm_compute. reflexivity.
  - vm_compute. reflexivity.
  - vm_compute. repeat constructor.
Defined.

(** A failed or partly returned flush keeps its promises: confirmed and
    returned publications leave for good, the first return is raised and the other
    ones are recorded in order; a batch the closed client refused is dropped; any
    other failure puts the publications that can still be delivered back behind the
    buffer in their order and drops the expired ones, or drops all of them once
    nobody would flush the buffer again. The failure itself is raised. *)
Theorem flush_batch_disposes ps ans s :
  let '(r, s') := flush_batch ps ans s in
  match ans with
  | Ok os =>
      buffer s' = buffer s /\
      confirmed (log s') = confirmed (log s) ++ select true ps os /\
      returned (log s') = returned (log s) ++ select false ps os /\
      dropped (log s') = dropped (log s) /\
      match returned_errors os with
      | [] => r = Ok tt /\ errors s' = errors s
      | e :: es => r = Err (RabbitRsException (ppe_message e)) /\ recorded (errors s') = recorded (errors s) ++ es
      end
  | Err e =>
      r = Err (client_exception e) /\ errors s' = errors s /\
      if decide (cle_kind e = KClosed \/ gone s = true) then
        buffer s' = buffer s /\ dropped (log s') = dropped (log s) ++ ps
      else
        publishes (buffer s') =
          publishes (buffer s) ++ filter (fun p => now s < r_deadline (np_request p)) ps /\
        dropped (log s') = dropped (log s) ++ filter (fun p => r_deadline (np_request p) <= now s) ps
  end.
Proof.
  assert (forall es s, recorded (errors (record_all es s)) = recorded (errors s) ++ es) as Hrec.
  { induction es as [|e es IH]; intros s0; [by rewrite (right_id_L [] (++))|]. cbn [record_all foldl].
    fold (record_all es (record_error e s0)). rewrite IH. unfold record_error. simpl.
    case_match; simpl; by rewrite <- (assoc_L (++)). }
  unfold flush_batch. destruct ans as [os|e].
  - destruct (returned_errors os) as [|e es]; [done|].
    destruct (record_all_frame es (log_outcomes ps os s)) as (-> & _ & _ & -> & _). by rewrite Hrec.
  - split; [done|]. unfold rebuffer_or_drop. destruct (decide (cle_kind e = KClosed)) as [Hk|Hk].
    + rewrite decide_True by (by left). done.
    + destruct (gone s) eqn:Hg; [rewrite decide_True by (by right); done|]. rewrite decide_False by (by intros []).
      unfold rebuffer. case_bool_decide as E; simpl; [|done]. rewrite E. by rewrite (right_id_L [] (++)).
Qed.

(** A publish into an empty buffer that no timer covers arms one. *)
Lemma publish_arms cfg s p :
  php s = Idle -> pool_open s = true -> publishes (buffer s) = [] -> bytes (buffer s) = 0 ->
  timer_pending (tasks s) = false -> np_len p <= PUBLISH_BUFFER_MAX_BYTES ->
  0 < flush_interval cfg -> 1 < flush_threshold cfg ->
  exists s', run cfg (buffering p) s = Some s' /\ publishes (buffer s') = [p] /\
    last_flush (buffer s') = Some (now s) /\ now s' = now s /\ drains (tasks s') = drains (tasks s) /\
    timers (tasks s') = timers (tasks s) ++ [TimerSpawned].
Proof.
  intros Hpc Ho Hpub Hby Htp Hlen Hi Hth. destruct s as [[pub by' lf] er [dr dh ti th pm tp] fl lg nw pc].
  unfold pool_open in Ho. simpl in Hpc, Ho, Hpub, Hby, Htp. subst. unfold buffering. cbn [run step php call].
  unfold publish, pool_open. cbn [flags]. rewrite Ho. cbn [negb]. unfold would_overflow, buffered_len. cbn [buffer bytes publishes].
  rewrite (proj2 (Z.ltb_ge _ _)) by (by simpl).
  change ((PUBLISH_BUFFER_MAX_MESSAGES <=? Z.of_nat (length (@nil NativePublish))) || false) with false.
  cbn. unfold decide_flush, should_flush, buffered_len. cbn.
  rewrite Z.sub_diag, (proj2 (Z.leb_gt (flush_threshold cfg) (Z.of_nat 1))), (proj2 (Z.leb_gt (flush_interval cfg) 0)) by lia.
  cbn. unfold surface, surface_publish_errors. cbn. destruct (pending_errors er); cbn; eexists; done.
Qed.

(** The armed timer fires after the interval and its drain takes the buffer. *)
Lemma timer_takes cfg s i t :
  timers (tasks s) !! i = Some TimerSpawned -> last_flush (buffer s) = Some t -> t <= now s ->
  publishes (buffer s) <> [] -> 0 <= flush_interval cfg ->
  let j := length (drains (tasks s)) in
  exists s', run cfg [ETimer i; ETick (flush_interval cfg); ETimer i; ETimer i; EDrain j] s = Some s' /\
    drains (tasks s') !! j =
      Some (TimerWait (publishes (buffer s)) (now s + flush_interval cfg + TEARDOWN_FLUSH_BUDGET)) /\
    publishes (buffer s') = [].
Proof.
  intros Hti Hlf Ht Hpub Hi. destruct s as [[pub by' lf] er [dr dh ti th pm tp] fl lg nw pc].
  simpl in Hti, Hlf, Ht, Hpub. subst. cbn [run step tasks timers buffer publishes].
  pose proof (lookup_lt_Some _ _ _ Hti) as Hlt. unfold timer_step, drain_step, should_flush. cbn.
  rewrite Hti. cbn. rewrite (proj2 (Z.leb_le _ _) Hi). cbn.
  rewrite list_lookup_insert_eq by done. rewrite (proj2 (Z.leb_le _ (nw + flush_interval cfg))) by lia. cbn.
  rewrite list_lookup_insert_eq by (by rewrite length_insert). cbn.
  rewrite (proj2 (Z.leb_le _ (nw + flush_interval cfg - t))) by lia. rewrite orb_true_r. cbn.
  rewrite lookup_app_r, Nat.sub_diag by done. cbn.
  rewrite bool_decide_false by done. eexists. split; [done|]. cbn. split; [|done].
  rewrite list_lookup_insert_eq; [done|]. rewrite length_app. simpl. lia.
Qed.

Lemma run_app cfg es1 es2 s : run cfg (es1 ++ es2) s = s' ← run cfg es1 s; run cfg es2 s'.
Proof.
  revert s. induction es1 as [|e es1 IH]; intros s; [done|]. simpl. destruct (step cfg e s); simpl; [apply IH|done].
Qed.

(** A lone publication does not stay in process memory: published into an
    empty buffer that no timer covers, it is in a drain once the interval has
    passed and the timer and the drain it spawned have run, without any further
    PHP call. *)
Theorem lone_publish_is_flushed cfg start s p :
  reach cfg start s -> php s = Idle -> pool_open s = true -> publishes (buffer s) = [] ->
  timer_pending (tasks s) = false -> np_len p <= PUBLISH_BUFFER_MAX_BYTES ->
  0 < flush_interval cfg -> 1 < flush_threshold cfg ->
  let i := length (timers (tasks s)) in let j := length (drains (tasks s)) in
  exists s', run cfg (buffering p ++ [ETimer i; ETick (flush_interval cfg); ETimer i; ETimer i; EDrain j]) s = Some s' /\
    drains (tasks s') !! j = Some (TimerWait [p] (now s + flush_interval cfg + TEARDOWN_FLUSH_BUDGET)) /\
    publishes (buffer s') = [].
Proof.
  intros ([_ Hby _] & _ & _)%buffer_reach_inv Hpc Ho Hb Ht Hlen Hi Hth i j. rewrite Hb in Hby.
  destruct (publish_arms cfg s p Hpc Ho Hb Hby Ht Hlen Hi Hth) as (s1 & Hr1 & Hp1 & Hl1 & Hn1 & Hd1 & Ht1).
  destruct (timer_takes cfg s1 i (now s)) as (s2 & Hr2 & Hd2 & Hp2); try lia; try done.
  - rewrite Ht1. unfold i. by rewrite lookup_app_r, Nat.sub_diag.
  - by rewrite Hp1.
  - exists s2. rewrite run_app, Hr1. cbn [mbind option_bind]. unfold j. rewrite <- Hd1, Hr2, Hd2, Hp1, Hn1. done.
Qed.

Lemma lone_publish_is_flushed_witness :
  exists s', run sample_cfg (buffering (sample "a") ++
      [ETimer 0; ETick (from_millis 1); ETimer 0; ETimer 0; EDrain 0]) (init 0) = Some s' /\
    drains (tasks s') !! 0%nat = Some (TimerWait [sample "a"] (0 + from_millis 1 + TEARDOWN_FLUSH_BUDGET)) /\
    publishes (buffer s') = [].
Proof.
  apply (lone_publish_is_flushed sample_cfg 0 (init 0) (sample "a")); try (by vm_compute). apply reach_init.
Defined.

(** ** Where the contract does not hold *)

(** A timer armed for an earlier batch does not cover the next one: 64
    publications trigger a drain, the next one starts a batch while the first
    batch's timer is pending, and that timer fires before the new batch is due. No
    timer is left and the publication stays buffered. *)
Definition orphan_run : list Event :=
  buffering (sample "first") ++ [ETimer 0] ++ mjoin (replicate 62 (buffering (sample "more"))) ++
  triggering (sample "last") ++ [EDrainAnswer 0 (confirming ""); ETick (from_millis 1 - 1)] ++
  buffering (sample "orphan") ++ [ETick 1; ETimer 0; ETimer 0].

Example orphaned_batch :
  let s := final orphan_run in
  is_Some (run sample_cfg orphan_run (init 0)) /\ publishes (buffer s) = [sample "orphan"] /\
  timers (tasks s) = [TimerDone] /\ drains (tasks s) = [DrainDone] /\ timer_pending (tasks s) = false.
Proof. vm_compute. repeat split; try reflexivity. eexists. reflexivity. Qed.

(** A batch that a failed drain buffered again has no timer either. *)
Example rebuffered_batch_waits :
  let s := final accounted_run in
  publishes (buffer s) = [sample "b"] /\ timers (tasks s) = [TimerDone; TimerDone] /\
  drains (tasks s) = [DrainDone; DrainDone] /\ timer_pending (tasks s) = false.
Proof. by vm_compute. Qed.

(** A timer past its sleep spawns its drain after the quiesce took the handles:
    [flush] returns while the publication it had to flush is only in a drain. *)
Definition barrier_run : list Event :=
  buffering (sample "a") ++ [ETimer 0; ETick (from_millis 1); ETimer 0; EFlush; EPhp; ETimer 0; EDrain 0; EPhp;
    EFlushed (Ok tt)].

Example flush_returns_early :
  let s := final barrier_run in
  replies (log s) = [Published "a"; Done] /\ confirmed (log s) = [] /\
  drains (tasks s) = [TimerWait [sample "a"] (from_millis 1 + TEARDOWN_FLUSH_BUDGET)].
Proof. by vm_compute. Qed.

(** The flush that makes room for a publication ignores its result: a return
    reported by that flush reaches neither PHP nor the error queue. *)
Lemma overflow_flush_swallows_return cfg s p q a id info fl :
  php s = Sending (ForPublish p) [q] -> answer_of cfg a [q] s = Some (Ok [Returned id info]) ->
  exists s', run cfg [EAnswer a; EFlushed fl] s = Some s' /\
    returned (log s') = returned (log s) ++ [q] /\ replies (log s') = replies (log s) /\
    errors s' = errors s /\ dropped_publications (flags s') = dropped_publications (flags s).
Proof.
  intros Hpc Ha. cbn [run step]. unfold php_answer. rewrite Hpc, Ha. cbn. eexists. done.
Qed.

End PublishBufferSystem.
