(* ===== verification/DelayTopology.v ===== *)
(** * Delay strategies and synthesized delay queues

    Models [topology/delay.rs]: the compiled delay strategy, TTL bucket
    selection, the queues synthesized for a delayed publication, their stable
    names, and the garbage-collection sweep. SHA-256 ([sha2] crate) is a
    parameter: a function from bytes to a 32-byte digest. Rust strings are
    byte strings here; a [DelayError] is its message. *)

From S2P Require Import Prelude Transport Publication.
From Stdlib Require Import Ascii.
From stdpp Require Import pretty.
Import Transport Publication.
Local Open Scope Z_scope.
Local Open Scope rabbit_scope.

Module DelayTopology.

(** ** Data *)

Inductive DelayMode := Auto | Plugin | Ttl.

Record DelayConfig := mkDelayConfig {
  dc_mode : DelayMode;
  dc_buckets : list Z;
  dc_max_buckets : Z;
  dc_queue_expiry_margin : Z
}.

Record TtlBucketPlan := mkTtlBucketPlan {
  buckets : list Z;
  expiry_margin : Z
}.

Inductive DelayStrategy :=
| PluginStrategy
| TtlBuckets (plan : TtlBucketPlan).

Definition DELAY_QUEUE_PREFIX : string := "rabbit-rs.delay.".
Definition DELAYED_EXCHANGE_NAME : string := "rabbit-rs.delayed".

Definition delayed_exchange_name (exchange : string) : string :=
  match exchange with
  | EmptyString => DELAYED_EXCHANGE_NAME
  | _ => exchange +:+ ".delayed"
  end.

Definition delayed_exchange_spec (name : string) : ExchangeSpec :=
  mkExchangeSpec name (Delayed Direct) true false false [].

(** ** Bucket plans *)

Fixpoint dedup (l : list Z) : list Z :=
  match l with
  | x :: (y :: _) as l' => if x =? y then dedup l' else x :: dedup l'
  | _ => l
  end.

Definition plan_compile (c : DelayConfig) : result TtlBucketPlan string :=
  match dc_buckets c with
  | [] => Err "at least one TTL bucket is required"
  | _ =>
      if dc_max_buckets c <? Z.of_nat (length (dc_buckets c)) then
        Err ("TTL bucket count " +:+ pretty (Z.of_nat (length (dc_buckets c))) +:+
             " exceeds configured maximum " +:+ pretty (dc_max_buckets c))
      else if existsb (fun b => b =? Duration_ZERO) (dc_buckets c) then
        Err "TTL buckets must be greater than zero"
      else Ok (mkTtlBucketPlan (dedup (sort_by_key (fun b => b) (dc_buckets c)))
                               (Z.max (dc_queue_expiry_margin c) (from_millis 1)))
  end.

(** [DelayStrategy::compile], on the delay section of a validated
    configuration. *)
Definition strategy_compile (c : DelayConfig) : DelayStrategy :=
  match dc_mode c with
  | Plugin | Auto => PluginStrategy
  | Ttl => match plan_compile c with Ok p => TtlBuckets p | Err _ => PluginStrategy end
  end.

Definition largest_bucket_ms (p : TtlBucketPlan) : Z :=
  match last (buckets p) with Some b => as_millis b | None => 0 end.

Definition bucket_for (p : TtlBucketPlan) (delay : Z) : result Z string :=
  match find (fun b => delay <=? b) (buckets p) with
  | Some b => Ok b
  | None => Err ("delay exceeds the largest configured TTL bucket (" +:+
                 pretty (largest_bucket_ms p) +:+ " ms)")
  end.

(** ** Queue names *)

Definition ascii_of_Z (b : Z) : ascii := ascii_of_nat (Z.to_nat b).

(** [to_be_bytes] of an [n]-byte unsigned integer. *)
Fixpoint be_bytes (n : nat) (v : Z) : string :=
  match n with
  | O => EmptyString
  | S n' => String (ascii_of_Z ((v / 256 ^ Z.of_nat n') mod 256)) (be_bytes n' v)
  end.

Definition hex_digit (d : nat) : ascii :=
  if (d <? 10)%nat then ascii_of_nat (48 + d) else ascii_of_nat (87 + d).

(** [{byte:02x}] *)
Definition hex_byte (c : ascii) : string :=
  let n := nat_of_ascii c in
  String (hex_digit (n / 16)) (String (hex_digit (n mod 16)) EmptyString).

Fixpoint hex_encode (s : string) : string :=
  match s with EmptyString => EmptyString | String c s' => hex_byte c +:+ hex_encode s' end.

Fixpoint string_take (n : nat) (s : string) : string :=
  match n, s with S n', String c s' => String c (string_take n' s') | _, _ => EmptyString end.

Fixpoint string_drop (n : nat) (s : string) : string :=
  match n, s with
  | O, _ => s
  | S n', String _ s' => string_drop n' s'
  | S _, EmptyString => EmptyString
  end.

Definition hex_prefix (digest : string) (length : nat) : string :=
  string_take length (hex_encode (string_take ((length + 1) / 2) digest)).

(** [str::split_once]: split at the first occurrence of [c]. *)
Fixpoint split_once (c : ascii) (s : string) : option (string * string) :=
  match s with
  | EmptyString => None
  | String a s' =>
      if Ascii.eqb a c then Some (EmptyString, s')
      else match split_once c s' with
           | Some (l, r) => Some (String a l, r)
           | None => None
           end
  end.

Fixpoint insert_string (x : string) (l : list string) : list string :=
  match l with
  | [] => [x]
  | y :: l' => if String.leb x y then x :: y :: l' else y :: insert_string x l'
  end.

(** [sort_unstable] on strings. *)
Definition sort_strings (l : list string) : list string := foldr insert_string [] l.

Fixpoint dedup_strings (l : list string) : list string :=
  match l with
  | x :: (y :: _) as l' => if String.eqb x y then dedup_strings l' else x :: dedup_strings l'
  | _ => l
  end.

Inductive SweepKeptReason :=
| NotSynthesized | UnknownDestination | InCurrentPlan | HasMessages | DeleteRefused.

Record DelayQueueSweep := mkSweep {
  sw_deleted : list string;
  sw_absent : list string;
  sw_kept : list (string * SweepKeptReason)
}.

Section Hashed.
Variable sha256 : string -> string.

(** The length prefix keeps distinct field sequences distinct. *)
Definition hash_field (value : string) : string :=
  be_bytes 8 (Z.of_nat (String.length value)) +:+ value.

Definition destination_hash (d : Destination) : string :=
  hex_prefix (sha256 (d_exchange d +:+ String (ascii_of_nat 0) (d_routing_key d))) 16.

Definition args_fingerprint (p : TtlBucketPlan) (d : Destination) (bucket : Z) : string :=
  hex_prefix
    (sha256 (be_bytes 16 (as_millis bucket) +:+ be_bytes 16 (as_millis (expiry_margin p)) +:+
             hash_field (d_exchange d) +:+ hash_field (d_routing_key d))) 8.

Definition stable_queue_name (p : TtlBucketPlan) (d : Destination) (bucket : Z) : string :=
  DELAY_QUEUE_PREFIX +:+ destination_hash d +:+ "." +:+ args_fingerprint p d bucket +:+ "." +:+
  pretty (as_millis bucket).

Definition legacy_delay_queue_name (d : Destination) (bucket : Z) : string :=
  DELAY_QUEUE_PREFIX +:+ destination_hash d +:+ "." +:+ pretty (as_millis bucket).

Definition expected_queue_names (p : TtlBucketPlan) (d : Destination) : list string :=
  stable_queue_name p d <$> buckets p.

Definition queue_for (p : TtlBucketPlan) (d : Destination) (delay : Z) : result QueueSpec string :=
  let? bucket := bucket_for p delay in
  Ok (mkQueueSpec (stable_queue_name p d bucket) true false false Quorum
        (Some (d_exchange d)) (Some (d_routing_key d)) (Some bucket)
        (Some (duration_saturating_add bucket (expiry_margin p))) None []).

(** ** Garbage collection *)

Definition classify_candidate (name : string) (known : list (string * list string))
  : option SweepKeptReason :=
  if negb (String.prefix DELAY_QUEUE_PREFIX name) then Some NotSynthesized
  else
    let rest := string_drop (String.length DELAY_QUEUE_PREFIX) name in
    match split_once "."%char rest with
    | None => Some NotSynthesized
    | Some (EmptyString, _) => Some NotSynthesized
    | Some (dhash, _) =>
        match find (fun k => String.eqb k.1 dhash) known with
        | None => Some UnknownDestination
        | Some (_, expected) =>
            if existsb (String.eqb name) expected then Some InCurrentPlan else None
        end
    end.

Definition sweep_candidates (p : TtlBucketPlan) (ds : list Destination) (extra : list string)
  : list string :=
  dedup_strings (sort_strings
    (flat_map (fun d => legacy_delay_queue_name d <$> buckets p) ds ++ extra)).

Definition sweep_known (p : TtlBucketPlan) (ds : list Destination) : list (string * list string) :=
  (fun d => (destination_hash d, expected_queue_names p d)) <$> ds.

Section Sweep.
(** The admin channel's answers to the probe and to the deletion. *)
Variable queue_size : string -> result Z TransportError.
Variable delete_queue : string -> result unit TransportError.

Definition sweep_one (known : list (string * list string)) (s : DelayQueueSweep) (name : string)
  : DelayQueueSweep :=
  match classify_candidate name known with
  | Some reason => mkSweep (sw_deleted s) (sw_absent s) (sw_kept s ++ [(name, reason)])
  | None =>
      match queue_size name with
      | Ok 0 =>
          match delete_queue name with
          | Ok _ => mkSweep (sw_deleted s ++ [name]) (sw_absent s) (sw_kept s)
          | Err _ => mkSweep (sw_deleted s) (sw_absent s) (sw_kept s ++ [(name, DeleteRefused)])
          end
      | Ok _ => mkSweep (sw_deleted s) (sw_absent s) (sw_kept s ++ [(name, HasMessages)])
      | Err _ => mkSweep (sw_deleted s) (sw_absent s ++ [name]) (sw_kept s)
      end
  end.

Definition sweep_delay_queues (p : TtlBucketPlan) (ds : list Destination) (extra : list string)
  : DelayQueueSweep :=
  foldl (sweep_one (sweep_known p ds)) (mkSweep [] [] []) (sweep_candidates p ds extra).

End Sweep.
End Hashed.

(** ** Bucket selection *)

Lemma dedup_elem (l : list Z) (x : Z) : x ∈ dedup l <-> x ∈ l.
Proof.
  induction l as [|a l IH]; [done|]. destruct l as [|b l]; [done|].
  change (dedup (a :: b :: l)) with (if a =? b then dedup (b :: l) else a :: dedup (b :: l)).
  destruct (a =? b) eqn:E; zbool; [subst|]; rewrite ?elem_of_cons, IH, ?elem_of_cons; tauto.
Qed.

Lemma dedup_strict (l : list Z) :
  StronglySorted (key_le (fun b => b)) l -> StronglySorted Z.lt (dedup l).
Proof.
  induction 1 as [|a l Hs IH Ha]; [constructor|]. destruct l as [|b l]; [repeat constructor|].
  change (dedup (a :: b :: l)) with (if a =? b then dedup (b :: l) else a :: dedup (b :: l)).
  destruct (a =? b) eqn:E; zbool; [done|]. constructor; [done|].
  apply Forall_forall. intros x Hx. rewrite dedup_elem in Hx.
  apply Forall_cons in Ha as [Hab Ha]. apply elem_of_cons in Hx as [->|Hx].
  - unfold key_le in Hab. lia.
  - apply StronglySorted_inv in Hs as [_ Hb]. rewrite Forall_forall in Hb.
    specialize (Hb x Hx). unfold key_le in *. lia.
Qed.

(** A compiled plan: strictly increasing positive buckets, and a margin of at
    least one millisecond. *)
Definition plan_ok (p : TtlBucketPlan) : Prop :=
  StronglySorted Z.lt (buckets p) /\ from_millis 1 <= expiry_margin p.

(** Compilation succeeds exactly for a nonempty, bounded, nonzero bucket
    set, and freezes it sorted without duplicates. *)
Theorem plan_compile_spec c :
  match plan_compile c with
  | Ok p => dc_buckets c <> [] /\ Z.of_nat (length (dc_buckets c)) <= dc_max_buckets c /\
            (0 ∉ dc_buckets c) /\ plan_ok p /\
            (forall b, b ∈ buckets p <-> b ∈ dc_buckets c)
  | Err _ => dc_buckets c = [] \/ dc_max_buckets c < Z.of_nat (length (dc_buckets c)) \/
             0 ∈ dc_buckets c
  end.
Proof.
  unfold plan_compile. destruct (dc_buckets c) as [|b0 bs] eqn:Eb; [by left|]. rewrite <- Eb.
  destruct (dc_max_buckets c <? _) eqn:El; zbool; [by right; left|].
  destruct (existsb _ _) eqn:Ez.
  - right; right. apply existsb_exists in Ez as (x & Hx & Hz). zbool.
    apply list_elem_of_In. unfold Duration_ZERO in Hz. by subst x.
  - split; [by rewrite Eb|]. split; [done|]. split.
    { intros H0. rewrite <- not_true_iff_false in Ez. apply Ez, existsb_exists.
      exists 0. split; [by apply list_elem_of_In|done]. }
    split; [split; simpl; [apply dedup_strict, sort_by_key_sorted|lia]|].
    intros b. simpl. by rewrite dedup_elem, sort_by_key_perm.
Qed.

Lemma find_first_le (delay : Z) (l : list Z) :
  StronglySorted Z.lt l ->
  match find (fun b => delay <=? b) l with
  | Some b => b ∈ l /\ delay <= b /\ forall b', b' ∈ l -> delay <= b' -> b <= b'
  | None => forall b', b' ∈ l -> b' < delay
  end.
Proof.
  induction 1 as [|a l Hs IH Ha]; simpl; [by intros b' ?%elem_of_nil|].
  destruct (delay <=? a) eqn:E; zbool.
  - split; [by left|]. split; [done|]. intros b' [->|Hb']%elem_of_cons _; [lia|].
    rewrite Forall_forall in Ha. specialize (Ha b' Hb'). lia.
  - destruct (find _ l) as [b|].
    + destruct IH as (Hb & Hle & Hmin). split; [by right|]. split; [done|].
      intros b' [->|Hb']%elem_of_cons Hd; [lia|auto].
    + intros b' [->|Hb']%elem_of_cons; [lia|auto].
Qed.

(** Bucket selection never delivers early: the selected bucket is the
    smallest configured one that is not shorter than the delay, and selection
    fails exactly when every bucket is shorter. *)
Theorem bucket_for_least p delay :
  plan_ok p ->
  match bucket_for p delay with
  | Ok b => b ∈ buckets p /\ delay <= b /\ forall b', b' ∈ buckets p -> delay <= b' -> b <= b'
  | Err _ => forall b', b' ∈ buckets p -> b' < delay
  end.
Proof.
  intros [Hs _]. unfold bucket_for. pose proof (find_first_le delay _ Hs) as H.
  by destruct (find _ (buckets p)).
Qed.

Lemma bucket_for_elem p delay b : bucket_for p delay = Ok b -> b ∈ buckets p /\ delay <= b.
Proof.
  unfold bucket_for. destruct (find _ _) eqn:E; [|done]. intros [= <-].
  apply find_some in E as [E Hle]. zbool. split; [by apply list_elem_of_In|done].
Qed.

(** The queue synthesized for a delay dead-letters to the original
    destination after a time to live no shorter than the delay, outlives its
    messages by the expiry margin (while durations do not saturate), and its
    name is one the plan declares as live. *)
Theorem queue_for_spec sha256 p d delay q :
  plan_ok p -> queue_for sha256 p d delay = Ok q ->
  exists ttl, q_message_ttl q = Some ttl /\ delay <= ttl /\
    q_dead_letter_exchange q = Some (d_exchange d) /\
    q_dead_letter_routing_key q = Some (d_routing_key d) /\
    (ttl + expiry_margin p <= DURATION_MAX ->
       exists ex, q_expires q = Some ex /\ ttl + from_millis 1 <= ex) /\
    q_name q ∈ expected_queue_names sha256 p d.
Proof.
  intros Hp. unfold queue_for. destruct (bucket_for p delay) as [b|] eqn:E; [|done]. intros [= <-].
  destruct (bucket_for_elem p delay b E) as [Hin Hle].
  exists b. simpl. repeat split; auto.
  - intros Hs. eexists. split; [reflexivity|]. unfold duration_saturating_add.
    rewrite sat_add_exact by done. destruct Hp. lia.
  - apply list_elem_of_fmap. by exists b.
Qed.

(** ** Names *)

Fixpoint no_char (c : ascii) (s : string) : bool :=
  match s with EmptyString => true | String a s' => negb (Ascii.eqb a c) && no_char c s' end.

Lemma no_char_app c s1 s2 : no_char c (s1 +:+ s2) = no_char c s1 && no_char c s2.
Proof. induction s1 as [|a s1 IH]; simpl; [done|]. by rewrite IH, andb_assoc. Qed.

Lemma no_char_take c n : forall s, no_char c s = true -> no_char c (string_take n s) = true.
Proof.
  induction n as [|n IH]; intros [|a s] H; simpl in *; try done.
  apply andb_true_iff in H as [-> H]. by rewrite IH.
Qed.

Lemma hex_encode_no_dot s : no_char "."%char (hex_encode s) = true.
Proof.
  induction s as [|c s IH]; [done|]. simpl hex_encode. rewrite no_char_app, IH, andb_true_r.
  destruct c as [[] [] [] [] [] [] [] []]; vm_compute; reflexivity.
Qed.

Lemma hex_prefix_no_dot s n : no_char "."%char (hex_prefix s n) = true.
Proof. apply no_char_take, hex_encode_no_dot. Qed.

Lemma append_length s1 s2 : String.length (s1 +:+ s2) = (String.length s1 + String.length s2)%nat.
Proof.
  induction s1 as [|a s1 IH]; [done|].
  change (S (String.length (s1 +:+ s2)) = S (String.length s1 + String.length s2))%nat. by rewrite IH.
Qed.

Lemma string_take_length n : forall s, String.length (string_take n s) = Nat.min n (String.length s).
Proof. induction n as [|n IH]; intros [|a s]; simpl; auto. Qed.

Lemma hex_encode_length s : String.length (hex_encode s) = (2 * String.length s)%nat.
Proof.
  induction s as [|c s IH]; [done|]. cbn [hex_encode]. rewrite append_length, IH. simpl. lia.
Qed.

Lemma split_once_app c s1 s2 :
  no_char c s1 = true -> split_once c (s1 +:+ String c s2) = Some (s1, s2).
Proof.
  induction s1 as [|a s1 IH]; intros H; simpl in *; [by rewrite Ascii.eqb_refl|].
  apply andb_true_iff in H as [Ha H]. apply negb_true_iff in Ha. rewrite Ha, IH by done. done.
Qed.

Lemma split_once_inv c s l r : split_once c s = Some (l, r) -> s = l +:+ String c r.
Proof.
  revert l r. induction s as [|a s IH]; intros l r; simpl; [done|].
  destruct (Ascii.eqb_spec a c) as [->|]; [by intros [= <- <-]|].
  destruct (split_once c s) as [[l' r']|]; [|done]. intros [= <- <-].
  change (String a s = String a (l' +:+ String c r')). f_equal. auto.
Qed.

Lemma prefix_app p s : String.prefix p (p +:+ s) = true.
Proof. induction p as [|a p IH]; simpl; [by destruct s|]. by destruct (ascii_dec a a). Qed.

Lemma drop_app p s : string_drop (String.length p) (p +:+ s) = s.
Proof. induction p as [|a p IH]; simpl; [by destruct s|done]. Qed.

Lemma prefix_drop p : forall s,
  String.prefix p s = true -> s = p +:+ string_drop (String.length p) s.
Proof.
  induction p as [|a p IH]; intros [|b s] H; try done. simpl in H.
  destruct (ascii_dec a b) as [->|]; [|done].
  change (String b s = String b (p +:+ string_drop (String.length p) s)). f_equal. auto.
Qed.

Lemma append_inj_l s1 s1' s2 s2' :
  String.length s1 = String.length s1' -> s1 +:+ s2 = s1' +:+ s2' -> s1 = s1' /\ s2 = s2'.
Proof.
  revert s1'. induction s1 as [|a s1 IH]; intros [|b s1'] Hl H; try done.
  injection Hl as Hl. injection H as -> H. by destruct (IH s1') as [-> ->].
Qed.

Lemma pretty_N_char_no_dot x : Ascii.eqb (pretty_N_char x) "."%char = false.
Proof.
  unfold pretty_N_char. repeat match goal with |- context [match ?y with _ => _ end] => destruct y end;
    reflexivity.
Qed.

Lemma pretty_N_go_no_dot (x : N) : forall s,
  no_char "."%char s = true -> no_char "."%char (pretty_N_go x s) = true.
Proof.
  induction (N.lt_wf_0 x) as [x _ IH]. intros s Hs.
  destruct (decide (x = 0%N)) as [->|Hx]; [by rewrite pretty_N_go_0|].
  rewrite pretty_N_go_step by lia. apply IH; [apply N.div_lt; lia|].
  simpl. by rewrite pretty_N_char_no_dot.
Qed.

Lemma pretty_N_no_dot (n : N) : no_char "."%char (pretty n) = true.
Proof. unfold pretty, pretty_N. case_decide; [done|]. by apply pretty_N_go_no_dot. Qed.

(** Decimal numbers contain no dot. *)
Lemma pretty_no_dot (z : Z) : no_char "."%char (pretty z) = true.
Proof.
  destruct z as [|q|q]; [done|exact (pretty_N_no_dot (N.pos q))|].
  change (pretty (Z.neg q)) with ("-" +:+ pretty (N.pos q)).
  rewrite no_char_app. by rewrite pretty_N_no_dot.
Qed.

Section Digest.
Variable sha256 : string -> string.
(** A SHA-256 digest has 32 bytes. *)
Hypothesis sha256_length : forall s, String.length (sha256 s) = 32%nat.

Lemma hex_prefix_length s n : (n <= 64)%nat -> String.length (hex_prefix (sha256 s) n) = n.
Proof.
  intros Hn. unfold hex_prefix. rewrite string_take_length, hex_encode_length, string_take_length.
  rewrite sha256_length. set (q := ((n + 1) / 2)%nat).
  assert (n + 1 = 2 * q + (n + 1) mod 2)%nat as Hq by apply Nat.div_mod_eq.
  assert ((n + 1) mod 2 < 2)%nat as Hr by (by apply Nat.mod_upper_bound). lia.
Qed.

(** Names are stable identities: for one destination and one plan, two
    buckets of different millisecond lengths never share a queue name, so a
    queue is never declared with two different time-to-live arguments; and
    the current scheme never collides with the legacy one. *)
Theorem stable_queue_name_inj p d b1 b2 :
  (stable_queue_name sha256 p d b1 = stable_queue_name sha256 p d b2 -> as_millis b1 = as_millis b2) /\
  stable_queue_name sha256 p d b1 <> legacy_delay_queue_name sha256 d b2.
Proof.
  unfold stable_queue_name, legacy_delay_queue_name. split.
  - intros H. apply append_inj_l in H as [_ H]; [|done]. apply append_inj_l in H as [_ H]; [|done].
    apply append_inj_l in H as [_ H]; [|done].
    apply append_inj_l in H as [_ H]; [|unfold args_fingerprint; by rewrite !hex_prefix_length by lia].
    apply append_inj_l in H as [_ H]; [|done]. by apply pretty_Z_inj.
  - intros H. apply append_inj_l in H as [_ H]; [|done]. apply append_inj_l in H as [_ H]; [|done].
    apply append_inj_l in H as [_ H]; [|done].
    pose proof (pretty_no_dot (as_millis b2)) as Hdot.
    rewrite <- H, !no_char_app in Hdot. apply andb_true_iff in Hdot as [_ Hdot]. done.
Qed.

(** ** The sweep *)

Section SweepSafety.
Context (p : TtlBucketPlan) (ds : list Destination) (extra : list string).
Context (queue_size : string -> result Z TransportError).
Context (delete_queue : string -> result unit TransportError).

Definition known_names : list (string * list string) := sweep_known sha256 p ds.

Lemma find_known d :
  (forall d1 d2, d1 ∈ ds -> d2 ∈ ds ->
     destination_hash sha256 d1 = destination_hash sha256 d2 -> d1 = d2) ->
  d ∈ ds ->
  find (fun k => String.eqb k.1 (destination_hash sha256 d)) known_names =
    Some (destination_hash sha256 d, expected_queue_names sha256 p d).
Proof.
  intros Hinj Hd. unfold known_names, sweep_known.
  assert (forall l, (forall x, x ∈ l -> x ∈ ds) -> d ∈ l ->
    find (fun k => String.eqb k.1 (destination_hash sha256 d))
      ((fun d => (destination_hash sha256 d, expected_queue_names sha256 p d)) <$> l) =
    Some (destination_hash sha256 d, expected_queue_names sha256 p d)) as Haux; [|by apply Haux].
  induction l as [|x l IH]; intros Hsub Hin; [by apply elem_of_nil in Hin|]. simpl.
  destruct (String.eqb_spec (destination_hash sha256 x) (destination_hash sha256 d)) as [E|E].
  - assert (x = d) as ->; [|done]. apply Hinj; [apply Hsub; by left|done|done].
  - apply IH; [intros; apply Hsub; by right|]. apply elem_of_cons in Hin as [->|]; [done|done].
Qed.

Lemma hash_nonempty d : exists c s, destination_hash sha256 d = String c s.
Proof.
  pose proof (hex_prefix_length (d_exchange d +:+ String (ascii_of_nat 0) (d_routing_key d)) 16 ltac:(lia)) as H.
  unfold destination_hash. destruct (hex_prefix _ 16) as [|c s]; [done|]. eauto.
Qed.

(** A name the current plan produces for a known destination is kept. *)
Lemma classify_expected d name :
  (forall d1 d2, d1 ∈ ds -> d2 ∈ ds ->
     destination_hash sha256 d1 = destination_hash sha256 d2 -> d1 = d2) ->
  d ∈ ds -> name ∈ expected_queue_names sha256 p d ->
  classify_candidate name known_names = Some InCurrentPlan.
Proof.
  intros Hinj Hd Hn. unfold classify_candidate.
  assert (exists r, name = DELAY_QUEUE_PREFIX +:+ (destination_hash sha256 d +:+ String "."%char r)) as [r Hr].
  { apply list_elem_of_fmap in Hn as (b & -> & _). eexists. reflexivity. }
  rewrite Hr at 1. rewrite prefix_app. cbn [negb].
  rewrite Hr at 1. rewrite drop_app, split_once_app by apply hex_prefix_no_dot.
  pose proof (find_known d Hinj Hd) as Hf. destruct (hash_nonempty d) as (c & s & Hh). rewrite Hh in *.
  rewrite Hf.
  assert (existsb (String.eqb name) (expected_queue_names sha256 p d) = true) as ->; [|done].
  apply existsb_exists. exists name. split; [by apply list_elem_of_In|apply String.eqb_refl].
Qed.

(** Only names of known destinations reach the broker. *)
Lemma classify_None name :
  classify_candidate name known_names = None ->
  exists d r, d ∈ ds /\ name = DELAY_QUEUE_PREFIX +:+ (destination_hash sha256 d +:+ String "."%char r).
Proof.
  unfold classify_candidate. destruct (String.prefix DELAY_QUEUE_PREFIX name) eqn:Ep; [|done]. cbn [negb].
  destruct (split_once _ _) as [[[|c h] r]|] eqn:Es; [done| |done].
  destruct (find _ known_names) as [[h' ex]|] eqn:Ef; [|done]. intros _.
  apply find_some in Ef as [Hin Heq]. simpl in Heq. apply String.eqb_eq in Heq as ->.
  apply list_elem_of_In, list_elem_of_fmap in Hin as (d & [= Hh _] & Hd). exists d, r. split; [done|].
  rewrite <- Hh. rewrite <- (split_once_inv _ _ _ _ Es). by apply prefix_drop.
Qed.

Definition swept (s : DelayQueueSweep) : list string := sw_deleted s ++ sw_absent s ++ (sw_kept s).*1.

Lemma sweep_one_swept s name :
  swept (sweep_one queue_size delete_queue known_names s name) ≡ₚ swept s ++ [name].
Proof.
  unfold sweep_one, swept. repeat case_match; simpl; rewrite ?fmap_app, <- ?app_assoc; simpl;
    try done; solve_Permutation.
Qed.

Lemma sweep_one_deleted s name x :
  x ∈ sw_deleted (sweep_one queue_size delete_queue known_names s name) <->
  x ∈ sw_deleted s \/
  (x = name /\ classify_candidate name known_names = None /\ queue_size name = Ok 0 /\
   is_ok (delete_queue name) = true).
Proof.
  unfold sweep_one. destruct (classify_candidate name known_names); simpl; [naive_solver|].
  destruct (queue_size name) as [[| |]|]; simpl; try naive_solver.
  destruct (delete_queue name); simpl; [|naive_solver].
  rewrite elem_of_app, list_elem_of_singleton. naive_solver.
Qed.

Lemma sweep_fold l : forall s,
  let s' := foldl (sweep_one queue_size delete_queue known_names) s l in
  swept s' ≡ₚ swept s ++ l /\
  (forall x, x ∈ sw_deleted s' <-> x ∈ sw_deleted s \/
     (x ∈ l /\ classify_candidate x known_names = None /\ queue_size x = Ok 0 /\
      is_ok (delete_queue x) = true)).
Proof.
  induction l as [|n l IH]; intros s; simpl.
  - split; [by rewrite app_nil_r|]. intros x. rewrite elem_of_nil. naive_solver.
  - destruct (IH (sweep_one queue_size delete_queue known_names s n)) as [Hp Hd]. split.
    + rewrite Hp, sweep_one_swept, <- app_assoc. done.
    + intros x. rewrite Hd, sweep_one_deleted, elem_of_cons. naive_solver.
Qed.

(** The garbage-collection sweep is conservative: when the 64-bit hash
    prefixes of the vouched-for destinations do not collide, no queue the
    current plan produces is ever deleted; whatever is deleted was probed
    empty, carries the reserved prefix and belongs to a known destination;
    and every candidate is accounted for exactly once. *)
Theorem sweep_conservative :
  (forall d1 d2, d1 ∈ ds -> d2 ∈ ds ->
     destination_hash sha256 d1 = destination_hash sha256 d2 -> d1 = d2) ->
  let s := sweep_delay_queues sha256 queue_size delete_queue p ds extra in
  (forall d name, d ∈ ds -> name ∈ expected_queue_names sha256 p d -> name ∉ sw_deleted s) /\
  (forall name, name ∈ sw_deleted s ->
     queue_size name = Ok 0 /\ exists d r, d ∈ ds /\
       name = DELAY_QUEUE_PREFIX +:+ (destination_hash sha256 d +:+ String "."%char r)) /\
  swept s ≡ₚ sweep_candidates sha256 p ds extra.
Proof.
  intros Hinj s. unfold s, sweep_delay_queues.
  destruct (sweep_fold (sweep_candidates sha256 p ds extra) (mkSweep [] [] [])) as [Hp Hd].
  fold known_names. repeat split.
  - intros d name Hds Hn Hin. apply Hd in Hin as [?%elem_of_nil|(_ & Hc & _)]; [done|].
    rewrite (classify_expected d name Hinj Hds Hn) in Hc. done.
  - apply Hd in H as [?%elem_of_nil|(_ & _ & Hz & _)]; done.
  - apply Hd in H as [?%elem_of_nil|(_ & Hc & _)]; [done|]. by apply classify_None.
  - exact Hp.
Qed.

End SweepSafety.
End Digest.

(** ** Witnesses *)

Definition default_plan : TtlBucketPlan :=
  mkTtlBucketPlan [from_secs 1; from_secs 5; from_secs 30; from_secs 120] (from_secs 60).

Definition zeros : string := "00000000000000000000000000000000".

(** A 32-byte function standing in for the digest. *)
Definition toy_digest (s : string) : string := string_take 32 (s +:+ zeros).

Lemma toy_digest_length s : String.length (toy_digest s) = 32%nat.
Proof.
  unfold toy_digest. rewrite string_take_length, append_length.
  replace (String.length zeros) with 32%nat by reflexivity. lia.
Qed.

Lemma default_plan_ok : plan_ok default_plan.
Proof.
  split; [|vm_compute; congruence].
  unfold default_plan, from_secs, NANOS_PER_SEC; simpl.
  repeat first [apply SSorted_nil | apply SSorted_cons | apply Forall_nil_2 | apply Forall_cons_2]; lia.
Qed.

Lemma bucket_for_least_witness :
  match bucket_for default_plan (from_secs 6) with
  | Ok b => b ∈ buckets default_plan /\ from_secs 6 <= b /\
            forall b', b' ∈ buckets default_plan -> from_secs 6 <= b' -> b <= b'
  | Err _ => forall b', b' ∈ buckets default_plan -> b' < from_secs 6
  end.
Proof. apply bucket_for_least, default_plan_ok. Defined.

Definition orders : Destination := mkDestination "shop" "orders".

Lemma queue_for_spec_witness :
  exists q ttl, queue_for toy_digest default_plan orders (from_secs 6) = Ok q /\
    q_message_ttl q = Some ttl /\ from_secs 6 <= ttl.
Proof.
  eexists. destruct (queue_for_spec toy_digest default_plan orders (from_secs 6) _ default_plan_ok eq_refl)
    as (ttl & Ht & Hle & _).
  exists ttl. split; [reflexivity|]. by split.
Defined.

Lemma stable_queue_name_inj_witness :
  stable_queue_name toy_digest default_plan orders (from_secs 1) <>
    legacy_delay_queue_name toy_digest orders (from_secs 1).
Proof. apply (stable_queue_name_inj toy_digest toy_digest_length default_plan orders (from_secs 1) (from_secs 1)). Defined.

Lemma sweep_conservative_witness :
  let s := sweep_delay_queues toy_digest (fun _ => Ok 0) (fun _ => Ok tt) default_plan
             [orders; mkDestination "" "mail"] ["jobs"] in
  length (sw_deleted s) = 8%nat /\ sw_kept s = [("jobs", NotSynthesized)] /\
  swept s ≡ₚ sweep_candidates toy_digest default_plan [orders; mkDestination "" "mail"] ["jobs"].
Proof.
  split; [vm_compute; reflexivity|]. split; [vm_compute; reflexivity|].
  apply (sweep_conservative toy_digest toy_digest_length default_plan
    [orders; mkDestination "" "mail"] ["jobs"] (fun _ => Ok 0) (fun _ => Ok tt)).
  intros d1 d2 H1 H2. rewrite elem_of_cons, list_elem_of_singleton in H1, H2.
  destruct H1, H2; subst; vm_compute; congruence.
Defined.

End DelayTopology.
