(* ===== verification/DelayRouting.v ===== *)
(** * Routing delayed publications

    Models [publisher/delay.rs]: the single routing point of delayed
    publications shared by the confirmed path (publisher actor) and the blind
    path (publish pump), and the lazy declaration of the infrastructure they
    are routed through. The broker's answers to declarations are inputs. *)

From S2P Require Import Prelude Transport Publication DelayTopology.
Import Transport Publication DelayTopology.
Local Open Scope Z_scope.
Local Open Scope rabbit_scope.

Module DelayRouting.

(** ** Data *)

Record DelayedRoute := mkDelayedRoute {
  dr_exchange : string;
  dr_routing_key : string;
  dr_delay_ms : Z;
  dr_queue : option QueueSpec
}.

(** A declaration sent to the broker. *)
Inductive Declaration :=
| DeclareExchange (spec : ExchangeSpec)
| DeclareQueue (spec : QueueSpec).

Section Routing.
Variable sha256 : string -> string.

(** ** Operations *)

(** [DelayRouter::route]; [delay_ms] is an [i64]. *)
Definition route (strategy : DelayStrategy) (d : Destination) (delay_ms : Z)
  : result DelayedRoute string :=
  let? delay_ms := ok_or (try_from U64_MAX delay_ms) "delay cannot be negative"%string in
  let delay := from_millis delay_ms in
  match strategy with
  | PluginStrategy =>
      Ok (mkDelayedRoute (delayed_exchange_name (d_exchange d)) (d_routing_key d) delay_ms None)
  | TtlBuckets plan =>
      let? queue := queue_for sha256 plan d delay in
      Ok (mkDelayedRoute "" (q_name queue) delay_ms (Some queue))
  end.

(** [i64::try_from(requested).unwrap_or(i64::MAX)] *)
Definition clamp_i64 (v : Z) : Z := if v <=? I64_MAX then v else I64_MAX.

Definition route_transport_request (request : PublishRequest) (strategy : option DelayStrategy)
    (mandatory : bool) : result WireRequest PublishError :=
  let requested_delay := default 0 (mp_delay_ms (r_properties request)) in
  let? routed :=
    (if requested_delay =? 0 then Ok None
     else
       let? strategy := ok_or strategy
         (pe_new EInvalidRequest "delay_ms is set but no delay strategy is configured") in
       let? route := map_err (pe_new EInvalidRequest)
         (route strategy (r_destination request) (clamp_i64 requested_delay)) in
       Ok (Some (dr_exchange route, dr_routing_key route,
                 match dr_queue route with None => Some (dr_delay_ms route) | Some _ => None end)))
    in
  let '(exchange, routing_key, delay_ms, mandatory) :=
    match routed with
    | Some (exchange, routing_key, delay_ms) =>
        (exchange, routing_key, delay_ms,
         mandatory && match delay_ms with None => true | Some _ => false end)
    | None =>
        (d_exchange (r_destination request), d_routing_key (r_destination request),
         mp_delay_ms (r_properties request), mandatory)
    end in
  let properties := r_properties request in
  Ok (mkWireRequest exchange routing_key (r_payload request) mandatory
        (mkPublishProperties (mp_content_type properties) (mp_correlation_id properties)
           (Some (mp_message_id properties)) delay_ms (mp_headers properties) true)).

(** [ensure_delay_topology]: the result, the updated cache of declared names
    and the declarations sent to the broker. [declare_exchange] and
    [declare_queue] are the channel's answers. *)
Definition ensure_delay_topology
    (declare_exchange : ExchangeSpec -> result unit TransportError)
    (declare_queue : QueueSpec -> result unit TransportError)
    (strategy : DelayStrategy) (d : Destination) (delay_ms : Z) (declared : gset string)
  : result unit PublishError * gset string * list Declaration :=
  match map_err (pe_new EInvalidRequest) (route strategy d (clamp_i64 delay_ms)) with
  | Err e => (Err e, declared, [])
  | Ok route =>
      match dr_queue route with
      | None =>
          if decide (dr_exchange route ∈ declared) then (Ok tt, declared, [])
          else
            let spec := delayed_exchange_spec (dr_exchange route) in
            match declare_exchange spec with
            | Ok _ => (Ok tt, {[dr_exchange route]} ∪ declared, [DeclareExchange spec])
            | Err error =>
                (Err (pe_new ETransport (te_message error)), declared, [DeclareExchange spec])
            end
      | Some queue_spec =>
          if decide (q_name queue_spec ∈ declared) then (Ok tt, declared, [])
          else
            match declare_queue queue_spec with
            | Ok _ => (Ok tt, {[q_name queue_spec]} ∪ declared, [DeclareQueue queue_spec])
            | Err error =>
                (Err (pe_new ETransport (te_message error)), declared, [DeclareQueue queue_spec])
            end
      end
  end.

(** ** Theorems *)

Lemma app_delayed_neq s : s +:+ ".delayed" <> s.
Proof.
  intros H. apply (f_equal String.length) in H. rewrite append_length in H. simpl in H. lia.
Qed.

Lemma delayed_exchange_name_neq x : delayed_exchange_name x <> x.
Proof. destruct x as [|c x]; [done|]. apply app_delayed_neq. Qed.

(** What a successfully routed positive delay looks like. *)
Definition delayed_route_ok (request : PublishRequest) (delay : Z) (mandatory : bool)
    (strategy : DelayStrategy) (w : WireRequest) : Prop :=
  match strategy with
  | PluginStrategy =>
      w_exchange w = delayed_exchange_name (d_exchange (r_destination request)) /\
      w_routing_key w = d_routing_key (r_destination request) /\
      pp_delay_ms (w_properties w) = Some (clamp_i64 delay) /\ w_mandatory w = false
  | TtlBuckets plan =>
      exists q, queue_for sha256 plan (r_destination request) (from_millis (clamp_i64 delay)) = Ok q /\
        w_exchange w = EmptyString /\ w_routing_key w = q_name q /\
        pp_delay_ms (w_properties w) = None /\ w_mandatory w = mandatory
  end.

Lemma clamp_i64_try v : 0 <= v -> try_from U64_MAX (clamp_i64 v) = Some (clamp_i64 v).
Proof.
  intros Hv. apply try_from_Some. unfold clamp_i64, U64_MAX, I64_MAX.
  destruct (v <=? _) eqn:E; zbool; lia.
Qed.

Lemma route_clamped strategy d delay :
  0 <= delay ->
  route strategy d (clamp_i64 delay) =
  match strategy with
  | PluginStrategy =>
      Ok (mkDelayedRoute (delayed_exchange_name (d_exchange d)) (d_routing_key d) (clamp_i64 delay) None)
  | TtlBuckets plan =>
      let? q := queue_for sha256 plan d (from_millis (clamp_i64 delay)) in
      Ok (mkDelayedRoute "" (q_name q) (clamp_i64 delay) (Some q))
  end.
Proof. intros H. unfold route. by rewrite clamp_i64_try. Qed.

(** A positive delay never executes immediately: a routed delayed
    publication goes to the delayed exchange with its [x-delay] (and without
    the mandatory flag the plugin cannot honour), or to the default exchange
    with the synthesized TTL queue as routing key and no [x-delay]; never to
    its original exchange under the plugin strategy. It is refused as an
    invalid request exactly when no strategy is compiled or no bucket can
    hold the delay. *)
Theorem delayed_request_routed request strategy mandatory delay :
  mp_delay_ms (r_properties request) = Some delay -> 0 < delay ->
  match route_transport_request request strategy mandatory with
  | Ok w =>
      exists s, strategy = Some s /\ delayed_route_ok request delay mandatory s w /\
        (s = PluginStrategy -> w_exchange w <> d_exchange (r_destination request)) /\
        w_payload w = r_payload request /\
        pp_message_id (w_properties w) = Some (mp_message_id (r_properties request))
  | Err e =>
      pe_kind e = EInvalidRequest /\
      (strategy = None \/ exists plan, strategy = Some (TtlBuckets plan) /\
         is_ok (bucket_for plan (from_millis (clamp_i64 delay))) = false)
  end.
Proof.
  intros Hd Hpos. unfold route_transport_request. rewrite Hd. simpl default.
  destruct (delay =? 0) eqn:E; zbool; [lia|]. destruct strategy as [s|]; simpl; [|by split; [|left]].
  rewrite route_clamped by lia. destruct s as [|plan]; simpl.
  - rewrite andb_false_r. eexists. split; [reflexivity|]. split; [done|]. split; [|done].
    intros _. apply delayed_exchange_name_neq.
  - destruct (queue_for sha256 plan (r_destination request) _) as [q|e] eqn:Eq; simpl.
    + rewrite andb_true_r. eexists. split; [reflexivity|]. split; [|done]. exists q. done.
    + split; [done|]. right. exists plan. split; [done|]. unfold queue_for in Eq.
      destruct (bucket_for plan _); done.
Qed.

(** The name of the infrastructure a wire request is sent through. *)
Definition infrastructure (w : WireRequest) : string :=
  match w_exchange w with EmptyString => w_routing_key w | x => x end.

(** Lazy declaration: a successful [ensure_delay_topology] leaves the
    infrastructure the routed request is sent through in the cache, sends at
    most one declaration, none when the name was already cached; a failure
    leaves the cache unchanged; and repeating a successful call declares
    nothing, whatever the broker would answer. *)
Theorem ensure_delay_topology_spec dx dq strategy request delay declared mandatory :
  mp_delay_ms (r_properties request) = Some delay -> 0 < delay ->
  match ensure_delay_topology dx dq strategy (r_destination request) delay declared with
  | (Ok _, declared', sent) =>
      (exists w, route_transport_request request (Some strategy) mandatory = Ok w /\
         infrastructure w ∈ declared' /\ (infrastructure w ∈ declared -> sent = [])) /\
      declared ⊆ declared' /\ (length sent <= 1)%nat /\
      (forall dx' dq', ensure_delay_topology dx' dq' strategy (r_destination request) delay declared'
         = (Ok tt, declared', []))
  | (Err _, declared', sent) => declared' = declared /\ (length sent <= 1)%nat
  end.
Proof.
  intros Hd Hpos. unfold ensure_delay_topology, route_transport_request. rewrite Hd. simpl default.
  destruct (delay =? 0) eqn:E; zbool; [lia|]. simpl ok_or. rewrite !route_clamped by lia.
  destruct strategy as [|plan]; simpl.
  - assert (forall s, match delayed_exchange_name s with EmptyString => d_routing_key (r_destination request) | x => x end
        = delayed_exchange_name s) as Hinf by (by intros [|]).
    destruct (decide (delayed_exchange_name _ ∈ declared)) as [Hin|Hnin].
    + repeat split; [|done|simpl; lia|].
      * eexists. split; [reflexivity|]. unfold infrastructure; simpl. rewrite Hinf. done.
      * intros dx' dq'. rewrite decide_True by done. done.
    + destruct (dx _) as [[]|e]; [|by split; [|simpl; lia]].
      repeat split; [|set_solver|simpl; lia|].
      * eexists. split; [reflexivity|]. unfold infrastructure; simpl. rewrite Hinf. set_solver.
      * intros dx' dq'. rewrite decide_True by set_solver. done.
  - destruct (queue_for sha256 plan (r_destination request) _) as [q|e] eqn:Eq; simpl; [|by split; [|lia]].
    destruct (decide (q_name q ∈ declared)) as [Hin|Hnin].
    + repeat split; [|done|simpl; lia|].
      * eexists. split; [reflexivity|]. done.
      * intros dx' dq'. rewrite decide_True by done. done.
    + destruct (dq _) as [[]|e]; [|by split; [|simpl; lia]].
      repeat split; [|set_solver|simpl; lia|].
      * eexists. split; [reflexivity|]. unfold infrastructure; simpl. set_solver.
      * intros dx' dq'. rewrite decide_True by set_solver. done.
Qed.

End Routing.

(** ** Witnesses *)

Definition delayed_job : PublishRequest :=
  mkPublishRequest orders "{}" (mkMessageProperties "m1" None None (Some 6000) []) 0.

Lemma delayed_request_routed_witness :
  exists w, route_transport_request toy_digest delayed_job (Some PluginStrategy) true = Ok w /\
    w_exchange w = "shop.delayed" /\ w_exchange w <> "shop".
Proof.
  pose proof (delayed_request_routed toy_digest delayed_job (Some PluginStrategy) true 6000 eq_refl ltac:(lia)) as H.
  destruct (route_transport_request toy_digest delayed_job (Some PluginStrategy) true) as [w|e] eqn:E.
  - destruct H as (s & Hs & Hok & Hne & _). injection Hs as <-. exists w.
    split; [reflexivity|]. split; [apply Hok|]. by apply Hne.
  - exfalso. vm_compute in E. discriminate E.
Defined.

Lemma ensure_delay_topology_spec_witness :
  exists declared' sent,
    ensure_delay_topology toy_digest (fun _ => Ok tt) (fun _ => Ok tt) (TtlBuckets default_plan)
      orders 6000 ∅ = (Ok tt, declared', sent) /\ (length sent <= 1)%nat.
Proof.
  pose proof (ensure_delay_topology_spec toy_digest (fun _ => Ok tt) (fun _ => Ok tt) (TtlBuckets default_plan)
    delayed_job 6000 ∅ true eq_refl ltac:(lia)) as H.
  change (r_destination delayed_job) with orders in H.
  destruct (ensure_delay_topology toy_digest _ _ (TtlBuckets default_plan) orders 6000 ∅)
    as [[[[]|e] declared'] sent] eqn:E.
  - exists declared', sent. split; [reflexivity|]. apply H.
  - exfalso. vm_compute in E. discriminate E.
Defined.

End DelayRouting.
