(* ===== verification/TopologyPlan.v ===== *)
(** * Topology plans and their reconciliation

    Models [topology/plan.rs] and [topology/reconciler.rs]: the plan a pool
    compiles from its configuration (queues of the subscriptions, dead-letter
    topology, publish routes, delayed exchange) and the reconciler that
    applies it to a broker at most once per connection generation. The
    channel's answers are an input; the operations sent are logged. *)

From S2P Require Import Prelude Transport Publication DelayTopology.
Import Transport Publication DelayTopology.
Local Open Scope Z_scope.
Local Open Scope rabbit_scope.

Module TopologyPlan.

(** ** Data *)

Inductive TopologyMode := ModeDeclare | ModeVerify | ModeExternal.

Record QueueDefinition := mkQueueDefinition {
  qd_name : string;
  qd_kind : QueueKind;
  qd_durable : bool;
  qd_exclusive : bool;
  qd_auto_delete : bool;
  qd_delivery_limit : option Z;
  qd_arguments : Headers
}.

Definition queue_definition_new (name : string) : QueueDefinition :=
  mkQueueDefinition name Quorum true false false None [].

Record DeadLetterDefinition := mkDeadLetterDefinition {
  dl_source_queue : string;
  dl_exchange : string;
  dl_queue : string;
  dl_routing_key : string
}.

Record TopologyDefinition := mkTopologyDefinition {
  td_exchanges : list ExchangeSpec;
  td_queues : list QueueDefinition;
  td_bindings : list BindingSpec;
  td_dead_letters : list DeadLetterDefinition
}.

Record TopologyPlan := mkTopologyPlan {
  tp_mode : TopologyMode;
  tp_exchanges : list ExchangeSpec;
  tp_queues : list QueueSpec;
  tp_bindings : list BindingSpec
}.

#[global] Instance TopologyMode_eq_dec : EqDecision TopologyMode.
Proof. solve_decision. Defined.
#[global] Instance TopologyPlan_eq_dec : EqDecision TopologyPlan.
Proof. solve_decision. Defined.

(** ** [QueueDefinition::compile] *)

Definition queue_compile (d : QueueDefinition) : result QueueSpec string :=
  if bool_decide (qd_kind d = Quorum) && (qd_exclusive d || qd_auto_delete d) then
    Err ("quorum queue '" +:+ qd_name d +:+ "' cannot be exclusive or auto-delete")
  else
    Ok (mkQueueSpec (qd_name d) (qd_durable d) (qd_exclusive d) (qd_auto_delete d) (qd_kind d)
          None None None None (qd_delivery_limit d) (qd_arguments d)).

(** [collect::<Result<Vec<_>, _>>()] *)
Fixpoint collect_queues (l : list QueueDefinition) : result (list QueueSpec) string :=
  match l with
  | [] => Ok []
  | d :: l' => let? q := queue_compile d in let? qs := collect_queues l' in Ok (q :: qs)
  end.

(** ** [TopologyPlan::compile] *)

Definition direct_exchange (name : string) : ExchangeSpec := mkExchangeSpec name Direct true false false [].

Definition set_dead_letter (dl : DeadLetterDefinition) (q : QueueSpec) : QueueSpec :=
  mkQueueSpec (q_name q) (q_durable q) (q_exclusive q) (q_auto_delete q) (q_kind q)
    (Some (dl_exchange dl)) (Some (dl_routing_key dl)) (q_message_ttl q) (q_expires q)
    (q_delivery_limit q) (q_arguments q).

(** [iter_mut().find(..)] with the update of the queue found. *)
Fixpoint update_first (name : string) (f : QueueSpec -> QueueSpec) (l : list QueueSpec) : option (list QueueSpec) :=
  match l with
  | [] => None
  | q :: l' =>
      if decide (q_name q = name) then Some (f q :: l')
      else (fun qs => q :: qs) <$> update_first name f l'
  end.

Definition dead_letter_binding (dl : DeadLetterDefinition) : BindingSpec :=
  mkBindingSpec (dl_queue dl) (dl_exchange dl) (dl_routing_key dl).

Record Building := mkBuilding {
  bd_exchanges : list ExchangeSpec;
  bd_queues : list QueueSpec;
  bd_bindings : list BindingSpec;
  seen_exchanges : list string;
  seen_dlqs : list string
}.

(** The queue a dead-letter queue is declared as. *)
Definition dlq_spec (name : string) : QueueSpec :=
  mkQueueSpec name true false false Quorum None None None None None [].

Definition add_dead_letter (b : Building) (dl : DeadLetterDefinition) : result Building string :=
  let? queues := ok_or (update_first (dl_source_queue dl) (set_dead_letter dl) (bd_queues b))
    ("dead-letter source queue '" +:+ dl_source_queue dl +:+ "' is not defined") in
  let new_exchange := bool_decide (dl_exchange dl ∉ seen_exchanges b) in
  let new_dlq := bool_decide (dl_queue dl ∉ seen_dlqs b) in
  let? queues :=
    (if new_dlq then
       let? dlq := queue_compile (queue_definition_new (dl_queue dl)) in Ok (queues ++ [dlq])
     else Ok queues) in
  Ok (mkBuilding
        (if new_exchange then bd_exchanges b ++ [direct_exchange (dl_exchange dl)] else bd_exchanges b)
        queues
        (if bool_decide (dead_letter_binding dl ∈ bd_bindings b) then bd_bindings b
         else bd_bindings b ++ [dead_letter_binding dl])
        (if new_exchange then seen_exchanges b ++ [dl_exchange dl] else seen_exchanges b)
        (if new_dlq then seen_dlqs b ++ [dl_queue dl] else seen_dlqs b)).

Fixpoint add_dead_letters (b : Building) (l : list DeadLetterDefinition) : result Building string :=
  match l with
  | [] => Ok b
  | dl :: l' => let? b := add_dead_letter b dl in add_dead_letters b l'
  end.

Definition compile (mode : TopologyMode) (d : TopologyDefinition) : result TopologyPlan string :=
  let? queues := collect_queues (td_queues d) in
  let? b := add_dead_letters (mkBuilding (td_exchanges d) queues (td_bindings d) [] []) (td_dead_letters d) in
  Ok (mkTopologyPlan mode (bd_exchanges b) (bd_queues b) (bd_bindings b)).

(** ** [TopologyPlan::from_profiles] *)

(** What the plan reads of a [SubscriptionConfig]. *)
Record PlannedSubscription := mkPlanned { ps_broker : string; ps_queue : string }.

Record RouteConfig := mkRoute { ro_broker : string; ro_exchange : string; ro_routing_key : string }.

Record DeadLetterConfig := mkDeadLetterConfig {
  dlc_enabled : bool;
  dlc_exchange : string;
  dlc_queue : string;
  dlc_routing_key : option string
}.

(** What the plan reads of a [ValidatedConfig]; [routes] in name order. *)
Record PlanConfig := mkPlanConfig {
  pc_topology_mode : TopologyMode;
  pc_routes : list RouteConfig;
  pc_delay : DelayConfig;
  pc_dead_letter : option DeadLetterConfig;
  pc_delivery_limit : option Z;
  pc_queue_type : QueueKind;
  pc_queue_durable : bool
}.

(** [str::replace]: every non-overlapping occurrence of [pat], left to right.
    [skip] characters of the current occurrence remain. *)
Fixpoint replace_from (pat by_ : string) (skip : nat) (s : string) : string :=
  match s with
  | EmptyString => EmptyString
  | String c s' =>
      match skip with
      | S k => replace_from pat by_ k s'
      | O => if String.prefix pat s then by_ +:+ replace_from pat by_ (String.length pat - 1) s'
             else String c (replace_from pat by_ 0 s')
      end
  end.

Definition replace_queue (routing_key queue : string) : string := replace_from "{queue}" queue 0 routing_key.

Definition planned_queue (c : PlanConfig) (sub : PlannedSubscription) : QueueDefinition :=
  mkQueueDefinition (ps_queue sub) (pc_queue_type c) (pc_queue_durable c) false false
    (match pc_queue_type c with Quorum => pc_delivery_limit c | Classic => None end) [].

Definition delayed_bindings (subs : list PlannedSubscription) : list BindingSpec :=
  (fun sub => mkBindingSpec (ps_queue sub) DELAYED_EXCHANGE_NAME (ps_queue sub)) <$> subs.

Definition route_bindings (subs : list PlannedSubscription) (r : RouteConfig) : list BindingSpec :=
  (fun sub => mkBindingSpec (ps_queue sub) (ro_exchange r) (replace_queue (ro_routing_key r) (ps_queue sub))) <$>
    filter (fun sub => ps_broker sub = ro_broker r) subs.

(** Routes through the default exchange need nothing. *)
Definition named_routes (c : PlanConfig) : list RouteConfig :=
  filter (fun r => ro_exchange r <> EmptyString) (pc_routes c).

Definition plugin_delays (c : PlanConfig) : bool :=
  match pc_topology_mode c, strategy_compile (pc_delay c) with
  | ModeDeclare, PluginStrategy => true
  | _, _ => false
  end.

Definition planned_dead_letters (c : PlanConfig) (subs : list PlannedSubscription) : list DeadLetterDefinition :=
  match pc_dead_letter c with
  | Some dl =>
      if dlc_enabled dl then
        (fun sub => mkDeadLetterDefinition (ps_queue sub) (dlc_exchange dl) (dlc_queue dl)
                      (default (ps_queue sub) (dlc_routing_key dl))) <$> subs
      else []
  | None => []
  end.

Definition definition_of (c : PlanConfig) (subs : list PlannedSubscription) : TopologyDefinition :=
  mkTopologyDefinition
    ((if plugin_delays c then [delayed_exchange_spec DELAYED_EXCHANGE_NAME] else []) ++
     (direct_exchange ∘ ro_exchange <$> named_routes c))
    (planned_queue c <$> subs)
    ((if plugin_delays c then delayed_bindings subs else []) ++ mjoin (route_bindings subs <$> named_routes c))
    (planned_dead_letters c subs).

Definition external_plan : TopologyPlan := mkTopologyPlan ModeExternal [] [] [].

Definition from_profiles (c : PlanConfig) (subs : list PlannedSubscription) : TopologyPlan :=
  match compile (pc_topology_mode c) (definition_of c subs) with
  | Ok p => p
  | Err _ => external_plan
  end.

(** ** [TopologyReconciler] *)

Inductive TopologyOp :=
| DeclareExchange (spec : ExchangeSpec)
| DeclareQueue (spec : QueueSpec)
| BindQueue (spec : BindingSpec)
| VerifyExchange (spec : ExchangeSpec)
| VerifyQueue (spec : QueueSpec).

Definition operations (p : TopologyPlan) : list TopologyOp :=
  match tp_mode p with
  | ModeDeclare => (DeclareExchange <$> tp_exchanges p) ++ (DeclareQueue <$> tp_queues p) ++ (BindQueue <$> tp_bindings p)
  | ModeVerify => (VerifyExchange <$> tp_exchanges p) ++ (VerifyQueue <$> tp_queues p)
  | ModeExternal => []
  end.

Abbreviation Applied := (option (Z * TopologyPlan)).

Definition is_applied (applied : Applied) (generation : Z) (p : TopologyPlan) : bool :=
  match applied with
  | Some (g, q) => (g =? generation) && bool_decide (q = p)
  | None => false
  end.

(** The operations in order, up to the first refusal. *)
Fixpoint apply_ops (channel : TopologyOp -> result unit TransportError) (l : list TopologyOp)
  : result unit TransportError * list TopologyOp :=
  match l with
  | [] => (Ok tt, [])
  | op :: l' =>
      match channel op with
      | Ok _ => let '(res, sent) := apply_ops channel l' in (res, op :: sent)
      | Err e => (Err e, [op])
      end
  end.

(** The answer, the reconciler's new state, the operations sent. *)
Definition reconcile (channel : TopologyOp -> result unit TransportError) (p : TopologyPlan) (generation : Z)
    (applied : Applied) : result unit TransportError * Applied * list TopologyOp :=
  if is_applied applied generation p then (Ok tt, applied, [])
  else
    match apply_ops channel (operations p) with
    | (Ok _, sent) => (Ok tt, Some (generation, p), sent)
    | (Err e, sent) => (Err e, applied, sent)
    end.

(** ** The plan while it is built *)

Lemma update_first_names name f l l' :
  (forall q, q_name (f q) = q_name q) -> update_first name f l = Some l' -> q_name <$> l' = q_name <$> l.
Proof.
  intros Hf. revert l'. induction l as [|q l IH]; intros l'; cbn [update_first]; [done|].
  case_decide as E; [intros [= <-]; by rewrite !fmap_cons, Hf|].
  intros (qs & Hqs & ->)%fmap_Some. by rewrite !fmap_cons, (IH qs Hqs).
Qed.

Lemma update_first_Some name f l : name ∈ q_name <$> l -> exists l', update_first name f l = Some l'.
Proof.
  induction l as [|q l IH]; [by intros ?%elem_of_nil|]. rewrite fmap_cons, elem_of_cons. cbn [update_first].
  case_decide as E; [eauto|]. intros [->|Hin]; [done|]. destruct (IH Hin) as (l' & ->). cbn. eauto.
Qed.

Lemma update_first_elem name f l l' q :
  update_first name f l = Some l' -> q ∈ l' -> q ∈ l \/ exists q0, q0 ∈ l /\ q_name q0 = name /\ q = f q0.
Proof.
  revert l'. induction l as [|x l IH]; intros l'; cbn [update_first]; [done|].
  case_decide as E.
  - intros [= <-] [->|Hq]%elem_of_cons; [right; exists x; set_solver|left; by right].
  - intros (qs & Hqs & ->)%fmap_Some [->|Hq]%elem_of_cons; [left; by left|].
    destruct (IH qs Hqs Hq) as [?|(q0 & ? & ? & ?)]; [left; by right|right; exists q0; set_solver].
Qed.

(** The updated queue, and what stays of a property of the others. *)
Lemma update_first_found name f l l' :
  update_first name f l = Some l' -> exists q, q ∈ l /\ q_name q = name /\ f q ∈ l'.
Proof.
  revert l'. induction l as [|x l IH]; intros l'; cbn [update_first]; [done|].
  case_decide as E; [intros [= <-]; exists x; set_solver|].
  intros (qs & Hqs & ->)%fmap_Some. destruct (IH qs Hqs) as (q & ? & ? & ?). exists q. set_solver.
Qed.

Lemma update_first_keeps (P : QueueSpec -> Prop) name f l l' :
  (forall q, P q -> P (f q)) -> update_first name f l = Some l' -> (exists q, q ∈ l /\ P q) -> exists q, q ∈ l' /\ P q.
Proof.
  intros Hf. revert l'. induction l as [|x l IH]; intros l'; cbn [update_first]; [done|].
  case_decide as E.
  - intros [= <-] (q & [->|Hq]%elem_of_cons & Hp); [exists (f x)|exists q]; set_solver.
  - intros (qs & Hqs & ->)%fmap_Some (q & [->|Hq]%elem_of_cons & Hp); [exists x; set_solver|].
    destruct (IH qs Hqs) as (q' & ? & ?); [eauto|]. exists q'. set_solver.
Qed.

(** A queue whose dead letters reach a declared queue. *)
Definition dead_letters_bound (b : Building) (q : QueueSpec) : Prop :=
  match q_dead_letter_exchange q, q_dead_letter_routing_key q with
  | None, None => True
  | Some x, Some k => x ∈ seen_exchanges b /\
      exists bi, bi ∈ bd_bindings b /\ b_exchange bi = x /\ b_routing_key bi = k /\ b_queue bi ∈ seen_dlqs b
  | _, _ => False
  end.

(** What holds after the dead letters [done_] of a definition with exchanges
    [E0], queue names [N0] and bindings [B0]. *)
Record built (E0 : list ExchangeSpec) (N0 : list string) (B0 : list BindingSpec)
    (done_ : list DeadLetterDefinition) (b : Building) : Prop := {
  g_names : q_name <$> bd_queues b = N0 ++ seen_dlqs b;
  g_dlqs : NoDup (seen_dlqs b);
  g_exchanges : bd_exchanges b = E0 ++ (direct_exchange <$> seen_exchanges b);
  g_seen : (forall n, n ∈ seen_dlqs b -> n ∈ dl_queue <$> done_) /\
           (forall n, n ∈ seen_exchanges b -> n ∈ dl_exchange <$> done_);
  g_dead : Forall (dead_letters_bound b) (bd_queues b);
  g_sources : forall dl, dl ∈ done_ ->
    exists q, q ∈ bd_queues b /\ q_name q = dl_source_queue dl /\ is_Some (q_dead_letter_exchange q);
  g_old : forall bi, bi ∈ B0 -> bi ∈ bd_bindings b;
  g_bindings : forall bi, bi ∈ bd_bindings b ->
    bi ∈ B0 \/ b_queue bi ∈ seen_dlqs b /\ b_exchange bi ∈ seen_exchanges b
}.

Lemma dlq_compiles name : queue_compile (queue_definition_new name) = Ok (dlq_spec name).
Proof. reflexivity. Qed.

(** One dead letter on a list and its seen names. *)
Definition add_new (x : string) (l : list string) : list string :=
  if bool_decide (x ∉ l) then l ++ [x] else l.

Lemma add_new_elem x l n : n ∈ add_new x l <-> n ∈ l \/ n = x.
Proof. unfold add_new. case_bool_decide as E; [set_solver|]. destruct (decide (x ∈ l)); set_solver. Qed.

Lemma add_new_NoDup x l : NoDup l -> NoDup (add_new x l).
Proof.
  intros H. unfold add_new. case_bool_decide; [|done]. apply NoDup_app. split; [done|].
  split; [set_solver|apply NoDup_singleton].
Qed.

Lemma add_dead_letter_eq b dl queues :
  update_first (dl_source_queue dl) (set_dead_letter dl) (bd_queues b) = Some queues ->
  add_dead_letter b dl = Ok (mkBuilding
    (if bool_decide (dl_exchange dl ∉ seen_exchanges b) then bd_exchanges b ++ [direct_exchange (dl_exchange dl)]
     else bd_exchanges b)
    (if bool_decide (dl_queue dl ∉ seen_dlqs b) then queues ++ [dlq_spec (dl_queue dl)] else queues)
    (if bool_decide (dead_letter_binding dl ∈ bd_bindings b) then bd_bindings b
     else bd_bindings b ++ [dead_letter_binding dl])
    (add_new (dl_exchange dl) (seen_exchanges b)) (add_new (dl_queue dl) (seen_dlqs b))).
Proof.
  intros E. unfold add_dead_letter, add_new. rewrite E. cbn [ok_or]. rewrite dlq_compiles.
  by destruct (bool_decide (dl_queue dl ∉ seen_dlqs b)).
Qed.

Lemma built_step E0 N0 B0 done_ b dl queues :
  update_first (dl_source_queue dl) (set_dead_letter dl) (bd_queues b) = Some queues ->
  built E0 N0 B0 done_ b ->
  exists b', add_dead_letter b dl = Ok b' /\ built E0 N0 B0 (done_ ++ [dl]) b'.
Proof.
  intros E [H1 H2 H3 [H4 H4'] H5 H6 H7 H8]. rewrite (add_dead_letter_eq b dl queues E). eexists. split; [reflexivity|].
  set (b' := mkBuilding _ _ _ _ _).
  assert (forall q, q ∈ bd_queues b' <-> q ∈ queues \/ dl_queue dl ∉ seen_dlqs b /\ q = dlq_spec (dl_queue dl)) as Hq.
  { intros q. unfold b'. cbn [bd_queues]. case_bool_decide; set_solver. }
  assert (forall bi, bi ∈ bd_bindings b' <-> bi ∈ bd_bindings b \/ bi = dead_letter_binding dl) as Hb.
  { intros bi. unfold b'. cbn [bd_bindings]. case_bool_decide; set_solver. }
  assert (seen_exchanges b' = add_new (dl_exchange dl) (seen_exchanges b)) as Es by done.
  assert (seen_dlqs b' = add_new (dl_queue dl) (seen_dlqs b)) as Ed by done.
  split.
  - unfold b'. cbn [bd_queues seen_dlqs]. unfold add_new. pose proof (update_first_names _ (set_dead_letter dl) _ _ (fun q => eq_refl (q_name q)) E) as En.
    case_bool_decide; rewrite ?fmap_app, En, H1; [by rewrite <- app_assoc|done].
  - by apply add_new_NoDup.
  - unfold b'. cbn [bd_exchanges seen_exchanges]. unfold add_new. rewrite H3.
    case_bool_decide; [by rewrite fmap_app, <- app_assoc|done].
  - split; intros n; [rewrite Ed|rewrite Es]; rewrite add_new_elem, fmap_app; set_solver.
  - apply Forall_forall. intros q. rewrite Hq. intros [Hin|[_ ->]]; [|done]. rewrite Forall_forall in H5.
    destruct (update_first_elem _ _ _ _ _ E Hin) as [Hold|(q0 & _ & _ & ->)]; unfold dead_letters_bound; rewrite Es, Ed.
    + specialize (H5 q Hold). unfold dead_letters_bound in H5.
      destruct (q_dead_letter_exchange q) as [x|], (q_dead_letter_routing_key q) as [k|]; try done.
      destruct H5 as (Hx & bi & Hbi & ? & ? & Hd). split; [apply add_new_elem; by left|].
      exists bi. rewrite Hb, add_new_elem. tauto.
    + cbn [set_dead_letter q_dead_letter_exchange q_dead_letter_routing_key]. split; [apply add_new_elem; by right|].
      exists (dead_letter_binding dl). rewrite Hb, add_new_elem. cbn [dead_letter_binding b_exchange b_queue b_routing_key]. tauto.
  - intros dl' [Hold|Hnew]%elem_of_app.
    + destruct (update_first_keeps (fun q => q_name q = dl_source_queue dl' /\ is_Some (q_dead_letter_exchange q))
        (dl_source_queue dl) (set_dead_letter dl) (bd_queues b) queues) as (q & ? & ?);
        [intros q [? ?]; split; [done|by eexists]|done|by apply H6|].
      exists q. rewrite Hq. tauto.
    + apply list_elem_of_singleton in Hnew as ->. destruct (update_first_found _ _ _ _ E) as (q & _ & Hn & Hin).
      exists (set_dead_letter dl q). rewrite Hq. split; [by left|]. split; [done|by eexists].
  - intros bi Hbi. rewrite Hb. left. by apply H7.
  - intros bi. rewrite Hb, Es, Ed, !add_new_elem. intros [Hold| ->]; [|by right; split; right].
    destruct (H8 bi Hold) as [?|[? ?]]; [by left|right; split; by left].
Qed.

Lemma add_dead_letters_built E0 N0 B0 l : forall done_ b,
  Forall (fun dl => dl_source_queue dl ∈ N0) l -> built E0 N0 B0 done_ b ->
  exists b', add_dead_letters b l = Ok b' /\ built E0 N0 B0 (done_ ++ l) b'.
Proof.
  induction l as [|dl l IH]; intros done_ b Hl Hb; cbn [add_dead_letters].
  { exists b. by rewrite app_nil_r. }
  apply Forall_cons in Hl as [Hs Hl].
  destruct (update_first_Some (dl_source_queue dl) (set_dead_letter dl) (bd_queues b)) as (queues & E).
  { rewrite (g_names _ _ _ _ _ Hb). set_solver. }
  destruct (built_step _ _ _ _ _ _ _ E Hb) as (b1 & -> & Hb1).
  destruct (IH (done_ ++ [dl]) b1 Hl Hb1) as (b' & E' & Hb'). exists b'. by rewrite <- app_assoc in Hb'.
Qed.

(** ** Plans of a configuration *)

Lemma planned_queues_compile c subs :
  exists qs, collect_queues (planned_queue c <$> subs) = Ok qs /\ q_name <$> qs = ps_queue <$> subs /\
    Forall (fun q => q_dead_letter_exchange q = None /\ q_dead_letter_routing_key q = None) qs.
Proof.
  induction subs as [|sub subs (qs & IH1 & IH2 & IH3)]; [by exists []|].
  rewrite !fmap_cons. cbn [collect_queues]. unfold queue_compile at 1. cbn [planned_queue qd_exclusive qd_auto_delete].
  rewrite andb_false_r, IH1. eexists. split; [reflexivity|]. rewrite fmap_cons, IH2. split; [done|]. by constructor.
Qed.

Lemma planned_sources c subs : Forall (fun dl => dl_source_queue dl ∈ ps_queue <$> subs) (planned_dead_letters c subs).
Proof.
  unfold planned_dead_letters. destruct (pc_dead_letter c) as [dl|]; [|constructor].
  destruct (dlc_enabled dl); [|constructor]. apply Forall_fmap, Forall_forall. intros sub Hs. cbn.
  apply list_elem_of_fmap. eauto.
Qed.

Lemma from_profiles_built c subs :
  exists b, from_profiles c subs = mkTopologyPlan (pc_topology_mode c) (bd_exchanges b) (bd_queues b) (bd_bindings b) /\
    built (td_exchanges (definition_of c subs)) (ps_queue <$> subs) (td_bindings (definition_of c subs))
      (planned_dead_letters c subs) b.
Proof.
  destruct (planned_queues_compile c subs) as (qs & E & En & Hq).
  destruct (add_dead_letters_built (td_exchanges (definition_of c subs)) (ps_queue <$> subs)
    (td_bindings (definition_of c subs)) (planned_dead_letters c subs) []
    (mkBuilding (td_exchanges (definition_of c subs)) qs (td_bindings (definition_of c subs)) [] []))
    as (b & Eb & Hb).
  - apply planned_sources.
  - split.
    + cbn. by rewrite app_nil_r.
    + constructor.
    + cbn. by rewrite app_nil_r.
    + split; by intros n ?%elem_of_nil.
    + eapply Forall_impl; [exact Hq|]. intros q [H1 H2]. unfold dead_letters_bound. by rewrite H1, H2.
    + by intros dl ?%elem_of_nil.
    + done.
    + by left.
  - exists b. split; [|done]. unfold from_profiles, compile.
    change (td_queues (definition_of c subs)) with (planned_queue c <$> subs). rewrite E.
    change (td_dead_letters (definition_of c subs)) with (planned_dead_letters c subs). by rewrite Eb.
Qed.

(** The configuration does not use one name for two things. *)
Record names_apart (c : PlanConfig) (subs : list PlannedSubscription) : Prop := {
  na_queues : NoDup (ps_queue <$> subs);
  na_dlq : forall dl, dl ∈ planned_dead_letters c subs -> dl_queue dl ∉ ps_queue <$> subs;
  na_exchanges : forall x, x ∈ (dl_exchange <$> planned_dead_letters c subs) ++ (ro_exchange <$> named_routes c) ->
    x <> DELAYED_EXCHANGE_NAME
}.

(** A plan the broker can hold: no name is declared in two ways, bindings and
    dead letters refer to what the plan declares, and dead letters are bound. *)
Record consistent (p : TopologyPlan) : Prop := {
  co_queues : NoDup (q_name <$> tp_queues p);
  co_exchanges : forall x y, x ∈ tp_exchanges p -> y ∈ tp_exchanges p -> x_name x = x_name y -> x = y;
  co_bindings : forall b, b ∈ tp_bindings p ->
    b_queue b ∈ q_name <$> tp_queues p /\ b_exchange b ∈ x_name <$> tp_exchanges p;
  co_dead : forall q, q ∈ tp_queues p ->
    match q_dead_letter_exchange q, q_dead_letter_routing_key q with
    | None, None => True
    | Some x, Some k => exists b, b ∈ tp_bindings p /\ b_exchange b = x /\ b_routing_key b = k
    | _, _ => False
    end
}.

Lemma definition_bindings c subs bi :
  bi ∈ td_bindings (definition_of c subs) ->
  b_queue bi ∈ ps_queue <$> subs /\ b_exchange bi ∈ x_name <$> td_exchanges (definition_of c subs).
Proof.
  cbn [definition_of td_bindings td_exchanges]. rewrite fmap_app, !elem_of_app. intros [Hin|Hin].
  - destruct (plugin_delays c); [|by apply elem_of_nil in Hin].
    apply list_elem_of_fmap in Hin as (sub & -> & Hs). split; [apply list_elem_of_fmap; eauto|]. left. by left.
  - apply list_elem_of_join in Hin as (l & Hbi & Hl). apply list_elem_of_fmap in Hl as (r & -> & Hr).
    apply list_elem_of_fmap in Hbi as (sub & -> & [_ Hs]%list_elem_of_filter).
    split; [apply list_elem_of_fmap; eauto|]. right. rewrite <- list_fmap_compose. apply list_elem_of_fmap. by exists r.
Qed.

Lemma direct_or_delayed c subs E x :
  x ∈ td_exchanges (definition_of c subs) ++ (direct_exchange <$> E) ->
  x = delayed_exchange_spec DELAYED_EXCHANGE_NAME \/
  exists n, x = direct_exchange n /\ (n ∈ E \/ n ∈ ro_exchange <$> named_routes c).
Proof.
  cbn [definition_of td_exchanges]. rewrite !elem_of_app. intros [[Hin|Hin]|Hin].
  - destruct (plugin_delays c); [|by apply elem_of_nil in Hin]. apply list_elem_of_singleton in Hin. by left.
  - apply list_elem_of_fmap in Hin as (r & -> & Hr). right. exists (ro_exchange r). split; [done|]. right.
    apply list_elem_of_fmap. eauto.
  - apply list_elem_of_fmap in Hin as (n & -> & Hn). eauto.
Qed.

Lemma built_queues_NoDup c subs b :
  names_apart c subs ->
  built (td_exchanges (definition_of c subs)) (ps_queue <$> subs) (td_bindings (definition_of c subs))
    (planned_dead_letters c subs) b -> NoDup (q_name <$> bd_queues b).
Proof.
  intros [Hn Hdlq _] [H1 H2 _ [H4 _] _ _ _ _]. rewrite H1. apply NoDup_app. split; [done|]. split; [|done].
  intros n Hin Hseen. apply H4 in Hseen as (dl & -> & Hdl)%list_elem_of_fmap. by eapply Hdlq.
Qed.

Lemma plan_consistent c subs : names_apart c subs -> consistent (from_profiles c subs).
Proof.
  intros Hna. destruct (from_profiles_built c subs) as (b & -> & Hb).
  pose proof (built_queues_NoDup c subs b Hna Hb) as Hnd. destruct Hna as [Hn Hdlq Hx].
  destruct Hb as [H1 H2 H3 [H4 H4'] H5 H6 H7 H8]. split; cbn [tp_queues tp_exchanges tp_bindings].
  - done.
  - intros x y. rewrite H3. intros Hix Hiy.
    assert (forall n, n ∈ seen_exchanges b \/ n ∈ ro_exchange <$> named_routes c -> n <> DELAYED_EXCHANGE_NAME) as Hne.
    { intros n Hin. apply Hx. apply elem_of_app. destruct Hin; [left; by apply H4'|by right]. }
    destruct (direct_or_delayed _ _ _ _ Hix) as [->|(n & -> & Hin)], (direct_or_delayed _ _ _ _ Hiy) as [->|(m & -> & Him)];
      cbn; try done.
    + intros <-. by destruct (Hne DELAYED_EXCHANGE_NAME).
    + intros ->. by destruct (Hne DELAYED_EXCHANGE_NAME).
    + by intros ->.
  - intros bi Hbi. rewrite H1, H3, fmap_app, !elem_of_app. destruct (H8 bi Hbi) as [Hold|[Hq He]].
    + apply definition_bindings in Hold. tauto.
    + split; [by right|]. right. rewrite <- list_fmap_compose. apply list_elem_of_fmap. by exists (b_exchange bi).
  - intros q Hq. rewrite Forall_forall in H5. specialize (H5 q Hq). unfold dead_letters_bound in H5.
    destruct (q_dead_letter_exchange q), (q_dead_letter_routing_key q); try done.
    destruct H5 as (_ & bi & ? & ? & ? & _). eauto.
Qed.

Lemma planned_exchange c subs dl dl' :
  dl ∈ planned_dead_letters c subs -> dl' ∈ planned_dead_letters c subs -> dl_exchange dl = dl_exchange dl'.
Proof.
  unfold planned_dead_letters. destruct (pc_dead_letter c) as [dlc|]; [|by intros ?%elem_of_nil].
  destruct (dlc_enabled dlc); [|by intros ?%elem_of_nil].
  by intros (? & -> & _)%list_elem_of_fmap (? & -> & _)%list_elem_of_fmap.
Qed.

(** The plan of a configuration never falls back and is one the broker can
    hold, when the configuration does not use one name for two things: every
    subscription queue is declared, every queue and exchange name in one way
    only, bindings join declared ends, and where dead lettering is enabled
    every subscription queue dead-letters to the configured exchange, under a
    routing key that is bound to the dead-letter queue. *)
Theorem plan_of_config_consistent c subs :
  names_apart c subs ->
  let p := from_profiles c subs in
  tp_mode p = pc_topology_mode c /\ consistent p /\
  (forall sub, sub ∈ subs -> ps_queue sub ∈ q_name <$> tp_queues p) /\
  (forall dl q, dl ∈ planned_dead_letters c subs -> q ∈ tp_queues p -> q_name q = dl_source_queue dl ->
     q_dead_letter_exchange q = Some (dl_exchange dl)).
Proof.
  intros Hna. cbv zeta. pose proof (plan_consistent c subs Hna) as Hc.
  destruct (from_profiles_built c subs) as (b & Ep & Hb). rewrite Ep in *.
  cbn [tp_mode tp_queues tp_exchanges tp_bindings]. pose proof (built_queues_NoDup c subs b Hna Hb) as Hnd.
  destruct Hb as [H1 _ _ [_ H4'] H5 H6 _ _]. split; [done|]. split; [done|]. split.
  - intros sub Hs. rewrite H1. apply elem_of_app. left. apply list_elem_of_fmap. eauto.
  - intros dl q Hdl Hq Eq. destruct (H6 dl Hdl) as (q' & Hq' & En & [x Hsome]).
    assert (q' = q) as ->.
    { apply list_elem_of_lookup in Hq as (i & Hi). apply list_elem_of_lookup in Hq' as (j & Hj).
      assert (i = j) as ->; [|congruence]. eapply NoDup_lookup; [exact Hnd|..]; rewrite list_lookup_fmap.
      - by rewrite Hi.
      - rewrite Hj. cbn. congruence. }
    rewrite Forall_forall in H5. specialize (H5 q Hq). unfold dead_letters_bound in H5. rewrite Hsome in *.
    destruct (q_dead_letter_routing_key q); [|done]. destruct H5 as (Hin & _). f_equal.
    apply H4' in Hin as (dl' & -> & Hdl')%list_elem_of_fmap. by eapply planned_exchange.
Qed.

(** ** Reconciliation *)

Lemma apply_ops_spec channel l :
  let '(res, sent) := apply_ops channel l in
  match res with
  | Ok _ => sent = l /\ Forall (fun op => is_ok (channel op) = true) l
  | Err e => exists pre op post, l = pre ++ op :: post /\ sent = pre ++ [op] /\ channel op = Err e /\
      Forall (fun op => is_ok (channel op) = true) pre
  end.
Proof.
  induction l as [|op l IH]; [done|]. cbn [apply_ops]. destruct (channel op) as [[]|e] eqn:E.
  - destruct (apply_ops channel l) as [[[]|e] sent].
    + destruct IH as [-> IH]. split; [done|]. constructor; [by rewrite E|done].
    + destruct IH as (pre & op' & post & -> & -> & He & Hp). exists (op :: pre), op', post.
      split; [done|]. split; [done|]. split; [done|]. constructor; [by rewrite E|done].
  - exists [], op, l. by repeat split.
Qed.

(** What was sent before a binding of a declaring plan. *)
Lemma operations_before_binding p pre b post :
  tp_mode p = ModeDeclare -> operations p = pre ++ BindQueue b :: post ->
  (forall x, x ∈ tp_exchanges p -> DeclareExchange x ∈ pre) /\ (forall q, q ∈ tp_queues p -> DeclareQueue q ∈ pre) /\
  b ∈ tp_bindings p.
Proof.
  intros Hm. unfold operations. rewrite Hm, app_assoc.
  set (decl := (DeclareExchange <$> tp_exchanges p) ++ (DeclareQueue <$> tp_queues p)). intros E.
  assert (BindQueue b ∉ decl) as Hnot.
  { unfold decl. intros [H|H]%elem_of_app; apply list_elem_of_fmap in H as (? & ? & _); done. }
  assert (exists rest, pre = decl ++ rest) as (rest & ->).
  { apply app_eq_app in E as (l & [[-> E]|[-> E]]); [|eauto]. exists []. destruct l as [|op l]; [by rewrite !app_nil_r|].
    cbn in E. injection E as <- _. destruct Hnot. set_solver. }
  rewrite <- app_assoc in E. apply app_inv_head in E. split; [|split].
  - intros x Hx. unfold decl. rewrite !elem_of_app. left. left. apply list_elem_of_fmap. eauto.
  - intros q Hq. unfold decl. rewrite !elem_of_app. left. right. apply list_elem_of_fmap. eauto.
  - assert (BindQueue b ∈ BindQueue <$> tp_bindings p) as Hb by (rewrite E; set_solver).
    apply list_elem_of_fmap in Hb as (b' & [= ->] & Hb'). done.
Qed.

(** A plan is applied at most once per connection generation: a plan already
    applied sends nothing; otherwise its operations are sent in order up to
    the first refusal, success is remembered only when all were accepted, and
    a refusal leaves the reconciler as it was. *)
Theorem reconcile_once channel p generation applied :
  let '(res, applied', sent) := reconcile channel p generation applied in
  (is_applied applied generation p = true -> res = Ok tt /\ applied' = applied /\ sent = []) /\
  (is_applied applied generation p = false ->
   match res with
   | Ok _ => sent = operations p /\ Forall (fun op => is_ok (channel op) = true) sent
   | Err e => applied' = applied /\ exists pre op post, operations p = pre ++ op :: post /\
       sent = pre ++ [op] /\ channel op = Err e /\ Forall (fun op => is_ok (channel op) = true) pre
   end) /\
  (is_ok res = true -> is_applied applied' generation p = true).
Proof.
  unfold reconcile. destruct (is_applied applied generation p) eqn:Ea; [by repeat split|].
  pose proof (apply_ops_spec channel (operations p)) as H. destruct (apply_ops channel (operations p)) as [[[]|e] sent].
  - split; [done|]. split; [|intros _; cbn; by rewrite Z.eqb_refl, bool_decide_true].
    intros _. by destruct H as [-> H].
  - split; [done|]. by split.
Qed.

(** Whatever the broker answers, a binding is only sent once the queue and
    the exchange it joins were declared. *)
Theorem binds_after_declarations channel c subs generation applied res applied' sent pre b post :
  names_apart c subs ->
  reconcile channel (from_profiles c subs) generation applied = (res, applied', sent) ->
  sent = pre ++ BindQueue b :: post ->
  (exists q, DeclareQueue q ∈ pre /\ q_name q = b_queue b) /\
  (exists x, DeclareExchange x ∈ pre /\ x_name x = b_exchange b).
Proof.
  intros Hn Hr Hs. destruct (plan_consistent c subs Hn) as [_ _ Hb _].
  set (p := from_profiles c subs) in *. unfold reconcile in Hr.
  destruct (is_applied applied generation p); [injection Hr as <- <- <-; by destruct pre|].
  assert (exists tl, operations p = sent ++ tl) as (tl & Hops).
  { pose proof (apply_ops_spec channel (operations p)) as H. destruct (apply_ops channel (operations p)) as [[[]|e] sent'].
    - destruct H as [-> _]. injection Hr as <- <- <-. exists []. by rewrite app_nil_r.
    - destruct H as (pre' & op & post' & -> & -> & _). injection Hr as <- <- <-. exists post'. by rewrite <- app_assoc. }
  rewrite Hs, <- app_assoc in Hops. cbn [app] in Hops.
  assert (tp_mode p = ModeDeclare) as Hm.
  { assert (BindQueue b ∈ operations p) as Hin by (rewrite Hops; set_solver). unfold operations in Hin.
    destruct (tp_mode p); [done|..]; [|by apply elem_of_nil in Hin].
    apply elem_of_app in Hin as [Hin|Hin]; apply list_elem_of_fmap in Hin as (? & ? & _); done. }
  destruct (operations_before_binding p pre b (post ++ tl) Hm Hops) as (He & Hq & Hin).
  destruct (Hb b Hin) as [Hbq Hbx]. split.
  - apply list_elem_of_fmap in Hbq as (q & -> & Hq'). eauto.
  - apply list_elem_of_fmap in Hbx as (x & -> & Hx'). eauto.
Qed.

(** ** Witnesses *)

Definition shop_config : PlanConfig :=
  mkPlanConfig ModeDeclare [mkRoute "main" "shop" "{queue}"] (mkDelayConfig Auto [from_secs 5] 4 0)
    (Some (mkDeadLetterConfig true "dlx" "failed" None)) (Some 5) Quorum true.

Definition shop_subs : list PlannedSubscription := [mkPlanned "main" "orders"; mkPlanned "main" "mail"].

Lemma shop_names_apart : names_apart shop_config shop_subs.
Proof.
  split.
  - apply (bool_decide_unpack _). vm_compute. exact I.
  - intros dl Hdl. vm_compute in Hdl. vm_compute.
    repeat (apply elem_of_cons in Hdl as [->|Hdl]; [set_solver|]). by apply elem_of_nil in Hdl.
  - intros x Hx. vm_compute in Hx. repeat (apply elem_of_cons in Hx as [->|Hx]; [done|]). by apply elem_of_nil in Hx.
Qed.

Lemma plan_of_config_consistent_witness :
  consistent (from_profiles shop_config shop_subs) /\
  tp_mode (from_profiles shop_config shop_subs) = ModeDeclare.
Proof.
  destruct (plan_of_config_consistent shop_config shop_subs shop_names_apart) as (Hm & Hc & _).
  split; [exact Hc|exact Hm].
Defined.

Lemma binds_after_declarations_witness :
  exists sent pre b post,
    reconcile (fun _ => Ok tt) (from_profiles shop_config shop_subs) 1 None =
      (Ok tt, Some (1, from_profiles shop_config shop_subs), sent) /\
    sent = pre ++ BindQueue b :: post /\ (exists q, DeclareQueue q ∈ pre /\ q_name q = b_queue b).
Proof.
  set (sent := operations (from_profiles shop_config shop_subs)).
  exists sent, (take 6 sent), (mkBindingSpec "orders" DELAYED_EXCHANGE_NAME "orders"), (drop 7 sent).
  assert (reconcile (fun _ => Ok tt) (from_profiles shop_config shop_subs) 1 None =
    (Ok tt, Some (1, from_profiles shop_config shop_subs), sent)) as E by (vm_compute; reflexivity).
  assert (sent = take 6 sent ++ BindQueue (mkBindingSpec "orders" DELAYED_EXCHANGE_NAME "orders") :: drop 7 sent)
    as Es by (vm_compute; reflexivity).
  split; [exact E|]. split; [exact Es|].
  apply (binds_after_declarations _ shop_config shop_subs 1 None _ _ sent _ _ _ shop_names_apart E Es).
Defined.

(** ** One queue consumed by two subscriptions *)

(** Two workers consume [orders] while dead lettering is on: the plan declares
    the queue twice, and only the first declaration has the dead-letter
    arguments. A broker refuses the second. *)
Lemma shared_queue_conflict :
  map (fun q => (q_name q, q_dead_letter_exchange q))
    (tp_queues (from_profiles shop_config [mkPlanned "main" "orders"; mkPlanned "main" "orders"])) =
  [("orders", Some "dlx"); ("orders", None); ("failed", None)]%string.
Proof. vm_compute. reflexivity. Qed.

(** Consuming the dead-letter queue declares it twice as well, the first time
    with itself as the source of dead letters. *)
Lemma consumed_dlq_conflict :
  map (fun q => (q_name q, q_dead_letter_exchange q))
    (tp_queues (from_profiles shop_config [mkPlanned "main" "orders"; mkPlanned "main" "failed"])) =
  [("orders", Some "dlx"); ("failed", Some "dlx"); ("failed", None)]%string.
Proof. vm_compute. reflexivity. Qed.

End TopologyPlan.
