(* ===== verification/ByteBudget.v ===== *)
(** * The shared byte budget

    Models [ByteBudget] of [publisher/mod.rs] and the RAII guards that own its
    reservations ([BudgetGuard] in [publisher/actor.rs] and
    [publisher/pump.rs]). The compare-and-swap loops run concurrently: threads
    interleave at every atomic access, and the theorems show that each call
    behaves as one atomic operation and that the counter always equals the
    bytes owned by live guards. *)

From S2P Require Import Prelude.
Local Open Scope Z_scope.

Module ByteBudget.

(** ** The operations, executed without interference *)

(** [try_reserve]: the new counter, or [None] when the budget is exhausted. *)
Definition try_reserve (max current bytes : Z) : option Z :=
  let new := sat_add U64_MAX current bytes in
  if max <? new then None else Some new.

(** [release]. *)
Definition release (current bytes : Z) : Z := sat_sub current bytes.

(** ** The compare-and-swap loops *)

(** Where a thread stands between two atomic accesses. *)
Inductive Thread :=
| Idle
| ReserveLoad (bytes : Z)                 (* about to load, in [try_reserve] *)
| ReserveCas (bytes current : Z)          (* about to compare-exchange *)
| ReleaseLoad (bytes : Z)                 (* about to load, in [release] *)
| ReleaseCas (bytes current : Z)
| Returned (r : bool).

(** The counter, the live guards with the bytes each of them owns, and the
    threads. *)
Record Shared := mkShared {
  counter : Z;
  guards : list Z;
  threads : list Thread
}.

Section Steps.
Variable max : Z.

(** One atomic access of thread [i]. *)
Inductive step : Shared -> Shared -> Prop :=
| step_call_reserve c g ts i bytes :
    ts !! i = Some Idle -> 0 <= bytes ->
    step (mkShared c g ts) (mkShared c g (<[i := ReserveLoad bytes]> ts))
| step_reserve_load c g ts i bytes :
    ts !! i = Some (ReserveLoad bytes) ->
    sat_add U64_MAX c bytes <= max ->
    step (mkShared c g ts) (mkShared c g (<[i := ReserveCas bytes c]> ts))
| step_reserve_refuse c g ts i bytes :
    ts !! i = Some (ReserveLoad bytes) ->
    max < sat_add U64_MAX c bytes ->
    step (mkShared c g ts) (mkShared c g (<[i := Returned false]> ts))
| step_reserve_cas_ok c g ts i bytes :
    ts !! i = Some (ReserveCas bytes c) ->
    step (mkShared c g ts)
         (mkShared (sat_add U64_MAX c bytes) (bytes :: g) (<[i := Returned true]> ts))
| step_reserve_cas_fail c g ts i bytes current :
    ts !! i = Some (ReserveCas bytes current) -> current <> c ->
    step (mkShared c g ts) (mkShared c g (<[i := ReserveLoad bytes]> ts))
| step_drop_guard c g1 g2 ts i bytes :
    ts !! i = Some Idle ->
    step (mkShared c (g1 ++ bytes :: g2) ts)
         (mkShared c (g1 ++ g2) (<[i := ReleaseLoad bytes]> ts))
| step_release_load c g ts i bytes :
    ts !! i = Some (ReleaseLoad bytes) ->
    step (mkShared c g ts) (mkShared c g (<[i := ReleaseCas bytes c]> ts))
| step_release_cas_ok c g ts i bytes :
    ts !! i = Some (ReleaseCas bytes c) ->
    step (mkShared c g ts) (mkShared (sat_sub c bytes) g (<[i := Returned true]> ts))
| step_release_cas_fail c g ts i bytes current :
    ts !! i = Some (ReleaseCas bytes current) -> current <> c ->
    step (mkShared c g ts) (mkShared c g (<[i := ReleaseLoad bytes]> ts))
| step_return c g ts i r :
    ts !! i = Some (Returned r) ->
    step (mkShared c g ts) (mkShared c g (<[i := Idle]> ts)).

(** ** The atomic specification *)

(** A call in progress is one pending operation, whatever its loop is doing. *)
Inductive AThread :=
| AIdle
| APendingReserve (bytes : Z)
| APendingRelease (bytes : Z)
| AReturned (r : bool).

Record AShared := mkAShared { a_counter : Z; a_threads : list AThread }.

Inductive astep : AShared -> AShared -> Prop :=
| astep_call c ts i op :
    ts !! i = Some AIdle -> astep (mkAShared c ts) (mkAShared c (<[i := op]> ts))
| astep_reserve_ok c ts i bytes c' :
    ts !! i = Some (APendingReserve bytes) -> try_reserve max c bytes = Some c' ->
    astep (mkAShared c ts) (mkAShared c' (<[i := AReturned true]> ts))
| astep_reserve_refused c ts i bytes :
    ts !! i = Some (APendingReserve bytes) -> try_reserve max c bytes = None ->
    astep (mkAShared c ts) (mkAShared c (<[i := AReturned false]> ts))
| astep_release c ts i bytes :
    ts !! i = Some (APendingRelease bytes) ->
    astep (mkAShared c ts) (mkAShared (release c bytes) (<[i := AReturned true]> ts))
| astep_return c ts i r :
    ts !! i = Some (AReturned r) -> astep (mkAShared c ts) (mkAShared c (<[i := AIdle]> ts)).

Definition abs_thread (t : Thread) : AThread :=
  match t with
  | Idle => AIdle
  | ReserveLoad b | ReserveCas b _ => APendingReserve b
  | ReleaseLoad b | ReleaseCas b _ => APendingRelease b
  | Returned r => AReturned r
  end.

Definition abs (s : Shared) : AShared := mkAShared (counter s) (abs_thread <$> threads s).

(** ** Invariant *)

(** Bytes a thread is in the course of giving back. *)
Definition releasing (t : Thread) : Z :=
  match t with ReleaseLoad b | ReleaseCas b _ => b | _ => 0 end.

Record inv (s : Shared) : Prop := {
  inv_exact : counter s = sumZ (fun b => b) (guards s) + sumZ releasing (threads s);
  inv_max : counter s <= max;
  inv_guards : Forall (fun b => 0 <= b) (guards s);
  inv_threads : Forall (fun t => 0 <= releasing t) (threads s);
  inv_cas : Forall (fun t => match t with
              | ReserveCas b c => 0 <= b /\ sat_add U64_MAX c b <= max
              | ReserveLoad b => 0 <= b
              | _ => True end) (threads s)
}.

Inductive reachable : Shared -> Prop :=
| reach_init n : 0 <= max -> reachable (mkShared 0 [] (replicate n Idle))
| reach_step s s' : reachable s -> step s s' -> reachable s'.

(** ** Proofs *)

Lemma inv_update c g ts i t t' :
  inv (mkShared c g ts) -> ts !! i = Some t -> releasing t' = releasing t ->
  (match t' with ReserveCas b c => 0 <= b /\ sat_add U64_MAX c b <= max | ReserveLoad b => 0 <= b | _ => True end) ->
  inv (mkShared c g (<[i := t']> ts)).
Proof.
  intros [He Hm Hg Ht Hc] Hi Hr Hk. simpl in *. split; simpl; auto.
  - rewrite (sumZ_insert _ _ _ _ _ Hi). lia.
  - apply Forall_insert; [done|]. rewrite Hr. rewrite Forall_lookup in Ht. exact (Ht i t Hi).
  - by apply Forall_insert.
Qed.

Lemma inv_releasing_le s i t : inv s -> threads s !! i = Some t -> releasing t <= counter s.
Proof.
  intros [He _ Hg Ht _] Hi. rewrite He.
  pose proof (sumZ_nonneg (fun b => b) _ Hg).
  pose proof (sumZ_elem_le releasing _ t Ht (proj2 (list_elem_of_lookup _ _) (ex_intro _ i Hi))). lia.
Qed.

Lemma budget_step_inv s s' : max < U64_MAX -> inv s -> step s s' -> inv s'.
Proof.
  intros Hmax Hinv Hs.
  destruct Hs as [c g ts i b Hi Hb|c g ts i b Hi Hle|c g ts i b Hi Hgt|c g ts i b Hi
    |c g ts i b cur Hi Hne|c g1 g2 ts i b Hi|c g ts i b Hi|c g ts i b Hi|c g ts i b cur Hi Hne|c g ts i r Hi];
    pose proof (inv_cas _ Hinv) as Hc; simpl in Hc; rewrite Forall_lookup in Hc; pose proof (Hc _ _ Hi) as Hci;
    simpl in Hci; try (by eapply inv_update; eauto); try (eapply inv_update; eauto; simpl; tauto).
  - (* successful reservation *)
    destruct Hci as [Hb Hle]. pose proof (inv_update _ _ _ _ _ (Returned true) Hinv Hi eq_refl I) as [He Hm Hg Ht Hk].
    simpl in *. split; simpl; auto.
    rewrite sumZ_cons. unfold sat_add in *. lia.
  - (* dropping a guard *)
    destruct Hinv as [He Hm Hg Ht Hk]. simpl in *. apply Forall_app in Hg as [Hg1 Hg].
    apply Forall_cons in Hg as [Hb Hg2]. simpl in Hb. split; simpl; auto.
    + rewrite (sumZ_insert _ _ _ _ _ Hi). rewrite sumZ_app, sumZ_cons in He. rewrite sumZ_app. simpl. lia.
    + by apply Forall_app.
    + by apply Forall_insert.
    + by apply Forall_insert.
  - (* successful release *)
    pose proof (inv_releasing_le _ _ _ Hinv Hi) as Hle. simpl in Hle.
    destruct Hinv as [He Hm Hg Ht Hk]. simpl in *.
    pose proof Ht as Ht'. rewrite Forall_lookup in Ht'. specialize (Ht' i _ Hi). simpl in Ht'.
    rewrite sat_sub_exact by lia. split; simpl; auto.
    + rewrite (sumZ_insert _ _ _ _ _ Hi). simpl. lia.
    + lia.
    + by apply Forall_insert.
    + by apply Forall_insert.
Qed.

Lemma reachable_inv s : max < U64_MAX -> reachable s -> inv s.
Proof.
  intros Hmax. induction 1 as [n H0|s s' _ IH Hs]; [|by eapply budget_step_inv].
  assert (forall P : Thread -> Prop, P Idle -> Forall P (replicate n Idle)) as Hrep.
  { intros P HP. induction n; simpl; by constructor. }
  split; simpl; [|done|done|by apply Hrep..].
  rewrite (sumZ_ext releasing (fun _ => 0)) by (by apply Hrep). rewrite sumZ_const, sumZ_nil. lia.
Qed.

(** Exact accounting under every interleaving of reservations and guard
    drops: the counter equals the bytes owned by live guards plus those being
    given back, never exceeds the maximum, and a release never saturates.
    (At [max = u64::MAX] a reservation that overflows would saturate and be
    accepted, hence the strict bound.) *)
Theorem budget_exact s :
  max < U64_MAX -> reachable s ->
  counter s = sumZ (fun b => b) (guards s) + sumZ releasing (threads s) /\
  0 <= counter s <= max /\
  (forall i b c, threads s !! i = Some (ReleaseCas b c) -> release (counter s) b = counter s - b).
Proof.
  intros Hmax Hr. pose proof (reachable_inv s Hmax Hr) as Hinv. repeat split.
  - apply Hinv.
  - rewrite (inv_exact _ Hinv). pose proof (sumZ_nonneg _ _ (inv_guards _ Hinv)).
    pose proof (sumZ_nonneg _ _ (inv_threads _ Hinv)). lia.
  - apply Hinv.
  - intros i b c Hi. apply sat_sub_exact. exact (inv_releasing_le _ _ _ Hinv Hi).
Qed.

(** C31. Linearizability: every atomic access of the compare-and-swap loops
    is either invisible or performs the whole call atomically, so the loops
    refine the atomic specification. *)
Theorem cas_loops_linearizable s s' :
  max < U64_MAX -> reachable s -> step s s' -> astep (abs s) (abs s') \/ abs s' = abs s.
Proof.
  intros Hmax Hr Hs. pose proof (reachable_inv s Hmax Hr) as Hinv.
  assert (forall (ts : list Thread) i t t', ts !! i = Some t -> abs_thread t = abs_thread t' ->
    abs_thread <$> <[i := t']> ts = abs_thread <$> ts) as Hstutter.
  { intros ts i t t' Hi Heq. rewrite list_fmap_insert. apply list_insert_id.
    rewrite list_lookup_fmap, Hi. simpl. by rewrite Heq. }
  destruct Hs as [c g ts i b Hi Hb|c g ts i b Hi Hle|c g ts i b Hi Hgt|c g ts i b Hi
    |c g ts i b cur Hi Hne|c g1 g2 ts i b Hi|c g ts i b Hi|c g ts i b Hi|c g ts i b cur Hi Hne|c g ts i r Hi];
    unfold abs; simpl;
    try (right; f_equal; by eapply Hstutter);
    left; rewrite list_fmap_insert; simpl;
    assert (forall t, ts !! i = Some t -> (abs_thread <$> ts) !! i = Some (abs_thread t)) as Habs
      by (intros t Ht; by rewrite list_lookup_fmap, Ht).
  - by apply astep_call, (Habs Idle).
  - eapply astep_reserve_refused; [by apply (Habs (ReserveLoad b))|].
    unfold try_reserve. by rewrite (proj2 (Z.ltb_lt _ _) Hgt).
  - eapply astep_reserve_ok; [by apply (Habs (ReserveCas b c))|].
    pose proof (inv_cas _ Hinv) as Hc. simpl in Hc. rewrite Forall_lookup in Hc.
    destruct (Hc i _ Hi) as [_ Hle]. unfold try_reserve.
    by rewrite (proj2 (Z.ltb_ge _ _) Hle).
  - by apply astep_call, (Habs Idle).
  - apply astep_release, (Habs (ReleaseCas b c)), Hi.
  - by eapply astep_return, (Habs (Returned r)).
Qed.

End Steps.

(** ** Witnesses *)

(** Two threads reserve concurrently: the second one loses the race, retries
    and succeeds. *)
Definition race : Shared := mkShared 7 [4; 3] [Returned true; Returned true].

Lemma race_reachable : reachable 10 race.
Proof.
  pose (s0 := mkShared 0 [] [Idle; Idle]).
  assert (reachable 10 s0) as H by (apply (reach_init 10 2); lia).
  eapply reach_step in H; [|apply (step_call_reserve 10 _ _ _ 0 3); [reflexivity|lia]].
  eapply reach_step in H; [|apply (step_call_reserve 10 _ _ _ 1 4); [reflexivity|lia]].
  eapply reach_step in H; [|apply (step_reserve_load 10 _ _ _ 0 3); [reflexivity|vm_compute; congruence]].
  eapply reach_step in H; [|apply (step_reserve_load 10 _ _ _ 1 4); [reflexivity|vm_compute; congruence]].
  eapply reach_step in H; [|apply (step_reserve_cas_ok 10 _ _ _ 0 3); reflexivity].
  eapply reach_step in H; [|apply (step_reserve_cas_fail 10 _ _ _ 1 4 0); [reflexivity|vm_compute; congruence]].
  eapply reach_step in H; [|apply (step_reserve_load 10 _ _ _ 1 4); [reflexivity|vm_compute; congruence]].
  eapply reach_step in H; [|apply (step_reserve_cas_ok 10 _ _ _ 1 4); reflexivity].
  exact H.
Qed.

Lemma budget_exact_witness :
  counter race = 7 /\ 0 <= counter race <= 10.
Proof.
  destruct (budget_exact 10 race) as (H1 & H2 & _); [vm_compute; reflexivity|apply race_reachable|].
  split; [reflexivity|exact H2].
Defined.

Lemma cas_loops_linearizable_witness :
  astep 10 (abs race) (abs (mkShared 7 [4; 3] [Idle; Returned true])) \/
  abs (mkShared 7 [4; 3] [Idle; Returned true]) = abs race.
Proof.
  apply (cas_loops_linearizable 10 race); [vm_compute; reflexivity|apply race_reachable|].
  apply (step_return 10 7 [4; 3] [Returned true; Returned true] 0 true). reflexivity.
Defined.

End ByteBudget.
