(* ===== verification/Publisher.v ===== *)
(** * The confirmed publisher

    Models [publisher/actor.rs]: the handle callers publish through, the actor
    that owns every accepted publication until its terminal outcome, its
    suspension, replay and shutdown.

    State. [Actor] is [ActorState]; the configuration and the delay strategy,
    which never change, are section variables. A [RetainedPublish] owns one
    capacity permit and its byte reservation; dropping it gives both back.
    The waiter of a publication (its [oneshot] channel) is a number; [resolved]
    logs what each waiter received, [wire] what was handed to a channel and
    [receipts] what the receipt of a written publication answered.

    Environment. What the transport answers is an input: [Env] gives the
    clock readings, the answers to declarations and to [enable_confirms], and
    what the first poll of each wire write returns, indexed by the number of
    interactions so far ([tick]). Completions of pending writes and
    confirmations arrive as labels of the step relation. *)

From S2P Require Import Prelude Transport Publication DelayTopology DelayRouting ByteBudget.
Import Transport Publication DelayTopology.
Local Open Scope Z_scope.
Local Open Scope rabbit_scope.

Module Publisher.

(** ** Data *)

Record RetainedPublish := mkRetained {
  rp_request : PublishRequest;
  rp_waiter : nat;
  rp_accepted_at : Z;
  rp_sequence : Z;
  rp_bytes : Z;
  rp_timeout : Z;
  rp_retried : bool
}.

Record InFlightPublish := mkInFlight {
  if_retained : RetainedPublish;
  if_generation : Z
}.

Inductive ConfirmationResult :=
| CCompleted (r : result PublishConfirmation TransportError)
| CTimedOut.

Inductive WireWriteOutcome :=
| WCompleted (r : result unit TransportError)
| WTimedOut.

Inductive Phase := PReady | PSuspended | PFailedPermanent.

Inductive PublisherConnectionEvent :=
| EvRecovering (generation : Z)
| EvReady (generation : Z) (channel : nat) (topology_restored : bool)
| EvFailedPermanent (generation : Z) (error : TransportError).

Record Actor := mkActor {
  phase : Phase;
  generation : Z;
  channel : option nat;
  replay : list RetainedPublish;
  publishing : gmap Z RetainedPublish;
  ledger : gmap Z InFlightPublish;
  confirmations : list (Z * Z);          (* (sequence, generation) of pending confirmations *)
  publish_in_flight : list Z;            (* sequences of pending wire writes *)
  sequence : Z;
  permanent_error : option PublishError;
  declared_ttl_queues : gset string
}.

(** What the actor shares with the outside: waiters, permits, byte budget,
    wire, metrics, and the count of environment interactions. *)
Record Effects := mkEffects {
  resolved : list (nat * result PublishOutcome PublishError);
  permits : Z;
  budget : Z;
  wire : list (nat * nat * WireRequest);  (* channel, waiter, request *)
  receipts : list (nat * ConfirmationResult);  (* what each waiter's receipt answered *)
  retries_total : Z;
  returns_total : Z;
  confirmations_total : Z;
  tick : nat
}.

Record St := mkSt { ac : Actor; fx : Effects }.

Record Env := mkEnv {
  now_at : nat -> Z;
  declare_exchange_at : nat -> ExchangeSpec -> result unit TransportError;
  declare_queue_at : nat -> QueueSpec -> result unit TransportError;
  enable_confirms_at : nat -> result unit TransportError;
  poll_write_at : nat -> option WireWriteOutcome
}.

(** ** Field updates *)

Definition with_ac (s : St) (f : Actor -> Actor) : St := mkSt (f (ac s)) (fx s).

Definition set_replay (l : list RetainedPublish) (a : Actor) : Actor :=
  mkActor (phase a) (generation a) (channel a) l (publishing a) (ledger a) (confirmations a)
    (publish_in_flight a) (sequence a) (permanent_error a) (declared_ttl_queues a).

Definition set_publishing (m : gmap Z RetainedPublish) (a : Actor) : Actor :=
  mkActor (phase a) (generation a) (channel a) (replay a) m (ledger a) (confirmations a)
    (publish_in_flight a) (sequence a) (permanent_error a) (declared_ttl_queues a).

Definition set_ledger (m : gmap Z InFlightPublish) (cs : list (Z * Z)) (a : Actor) : Actor :=
  mkActor (phase a) (generation a) (channel a) (replay a) (publishing a) m cs
    (publish_in_flight a) (sequence a) (permanent_error a) (declared_ttl_queues a).

Definition set_in_flight (l : list Z) (a : Actor) : Actor :=
  mkActor (phase a) (generation a) (channel a) (replay a) (publishing a) (ledger a)
    (confirmations a) l (sequence a) (permanent_error a) (declared_ttl_queues a).

Definition set_sequence (n : Z) (a : Actor) : Actor :=
  mkActor (phase a) (generation a) (channel a) (replay a) (publishing a) (ledger a)
    (confirmations a) (publish_in_flight a) n (permanent_error a) (declared_ttl_queues a).

Definition set_declared (d : gset string) (a : Actor) : Actor :=
  mkActor (phase a) (generation a) (channel a) (replay a) (publishing a) (ledger a)
    (confirmations a) (publish_in_flight a) (sequence a) (permanent_error a) d.

Definition set_connection (p : Phase) (g : Z) (ch : option nat) (e : option PublishError) (a : Actor)
  : Actor :=
  mkActor p g ch (replay a) (publishing a) (ledger a) (confirmations a)
    (publish_in_flight a) (sequence a) e (declared_ttl_queues a).

Definition next_tick (s : St) : St :=
  mkSt (ac s)
    (mkEffects (resolved (fx s)) (permits (fx s)) (budget (fx s)) (wire (fx s)) (receipts (fx s))
       (retries_total (fx s)) (returns_total (fx s)) (confirmations_total (fx s)) (S (tick (fx s)))).

Definition set_rp_sequence (n : Z) (r : RetainedPublish) : RetainedPublish :=
  mkRetained (rp_request r) (rp_waiter r) (rp_accepted_at r) n (rp_bytes r) (rp_timeout r) (rp_retried r).

(** [pending.retried = true; pending.request.deadline = deadline] *)
Definition rearm (deadline : Z) (r : RetainedPublish) : RetainedPublish :=
  mkRetained (republish (rp_request r) deadline) (rp_waiter r) (rp_accepted_at r) (rp_sequence r)
    (rp_bytes r) (rp_timeout r) true.

Definition log_wire (ch : nat) (r : RetainedPublish) (w : WireRequest) (s : St) : St :=
  mkSt (ac s)
    (mkEffects (resolved (fx s)) (permits (fx s)) (budget (fx s)) (wire (fx s) ++ [(ch, rp_waiter r, w)])
       (receipts (fx s))
       (retries_total (fx s)) (returns_total (fx s)) (confirmations_total (fx s)) (tick (fx s))).

Definition record_publication_retry (s : St) : St :=
  mkSt (ac s)
    (mkEffects (resolved (fx s)) (permits (fx s)) (budget (fx s)) (wire (fx s)) (receipts (fx s))
       (retries_total (fx s) + 1) (returns_total (fx s)) (confirmations_total (fx s)) (tick (fx s))).

Definition record_return (s : St) : St :=
  mkSt (ac s)
    (mkEffects (resolved (fx s)) (permits (fx s)) (budget (fx s)) (wire (fx s)) (receipts (fx s))
       (retries_total (fx s)) (returns_total (fx s) + 1) (confirmations_total (fx s)) (tick (fx s))).

Definition record_confirmation (s : St) : St :=
  mkSt (ac s)
    (mkEffects (resolved (fx s)) (permits (fx s)) (budget (fx s)) (wire (fx s)) (receipts (fx s))
       (retries_total (fx s)) (returns_total (fx s)) (confirmations_total (fx s) + 1) (tick (fx s))).

Definition log_receipt (r : RetainedPublish) (c : ConfirmationResult) (s : St) : St :=
  mkSt (ac s)
    (mkEffects (resolved (fx s)) (permits (fx s)) (budget (fx s)) (wire (fx s))
       (receipts (fx s) ++ [(rp_waiter r, c)])
       (retries_total (fx s)) (returns_total (fx s)) (confirmations_total (fx s)) (tick (fx s))).

(** ** Terminal outcomes *)

(** The waiter receives its result and the publication is dropped: its permit
    and its byte reservation return. *)
Definition complete (r : RetainedPublish) (res : result PublishOutcome PublishError) (s : St) : St :=
  mkSt (ac s)
    (mkEffects (resolved (fx s) ++ [(rp_waiter r, res)]) (permits (fx s) + 1)
       (ByteBudget.release (budget (fx s)) (rp_bytes r)) (wire (fx s)) (receipts (fx s))
       (retries_total (fx s)) (returns_total (fx s)) (confirmations_total (fx s)) (tick (fx s))).

Definition complete_outcome (r : RetainedPublish) (o : PublishOutcome) : St -> St := complete r (Ok o).
Definition complete_error (r : RetainedPublish) (e : PublishError) : St -> St := complete r (Err e).

Definition fail_deadline_expired (r : RetainedPublish) : St -> St :=
  complete_error r (pe_new ETimeout "publish deadline expired").

Definition message_id_of (r : RetainedPublish) : string := mp_message_id (r_properties (rp_request r)).

Section Actor.
Variable sha256 : string -> string.
Variable config : PublisherConfig.
Variable delay_strategy : option DelayStrategy.
Variable env : Env.

(** ** [impl ActorState] *)

Definition actor_new (initial_channel : nat) : Actor :=
  mkActor PReady 1 (Some initial_channel) [] ∅ ∅ [] [] 0 None ∅.

Definition next_deadline (a : Actor) : option Z :=
  match phase a with
  | PReady | PFailedPermanent => None
  | PSuspended =>
      match (fun r => r_deadline (rp_request r)) <$> replay a with
      | [] => None
      | d :: ds => Some (foldl Z.min d ds)
      end
  end.

Definition publishing_values (a : Actor) : list RetainedPublish := (map_to_list (publishing a)).*2.
Definition ledger_values (a : Actor) : list RetainedPublish := if_retained <$> (map_to_list (ledger a)).*2.

Definition suspend (g : Z) (s : St) : St :=
  with_ac s (fun a =>
    mkActor PSuspended (if 0 <? g then Z.max (generation a) g else generation a) None
      (sort_by_key rp_sequence (replay a ++ publishing_values a ++ ledger_values a))
      ∅ ∅ [] [] (sequence a) (permanent_error a) (declared_ttl_queues a)).

Definition complete_all (l : list RetainedPublish) (e : PublishError) (s : St) : St :=
  foldl (fun acc r => complete_error r e acc) s l.

Definition fail_all (e : PublishError) (s : St) : St :=
  let a := ac s in
  let s := complete_all (replay a ++ ledger_values a ++ publishing_values a) e s in
  with_ac s (fun a =>
    mkActor (phase a) (generation a) (channel a) [] ∅ ∅ [] [] (sequence a) (permanent_error a)
      (declared_ttl_queues a)).

(** The loop of [expire_replay] over the drained queue; [retained] is the
    queue being rebuilt. *)
Fixpoint expire_loop (now : Z) (pending retained : list RetainedPublish) (s : St) : St :=
  match pending with
  | [] => with_ac s (set_replay retained)
  | r :: pending' =>
      if r_deadline (rp_request r) <=? now then
        if rp_retried r then
          expire_loop now pending' retained
            (complete_error r (pe_new ETimeout "publish deadline expired during connection recovery") s)
        else
          expire_loop now pending' (retained ++ [rearm (now + rp_timeout r) r])
            (record_publication_retry s)
      else expire_loop now pending' (retained ++ [r]) s
  end.

Definition expire_replay (s : St) : St :=
  let now := now_at env (tick (fx s)) in
  expire_loop now (replay (ac s)) [] (next_tick s).

Definition has_pending_publications (a : Actor) : bool :=
  negb (bool_decide (replay a = [])) || negb (bool_decide (publishing a = ∅)) ||
  negb (bool_decide (ledger a = ∅)) || negb (bool_decide (confirmations a = [])) ||
  negb (bool_decide (publish_in_flight a = [])).

(** ** Attempting publications *)

Definition handle_publish_completion (seq : Z) (outcome : WireWriteOutcome) (s : St) : St :=
  match publishing (ac s) !! seq with
  | None => s
  | Some r =>
      let s := with_ac s (set_publishing (delete seq (publishing (ac s)))) in
      match outcome with
      | WCompleted (Ok _) =>
          if enables_confirms config then
            let g := generation (ac s) in
            with_ac s (set_ledger (<[seq := mkInFlight r g]> (ledger (ac s)))
                                  (confirmations (ac s) ++ [(seq, g)]))
          else complete_outcome r (Confirmed (message_id_of r)) s
      | WTimedOut => fail_deadline_expired r s
      | WCompleted (Err error) =>
          if is_recoverable error then
            let s := with_ac s (fun a => set_in_flight [] (set_replay (replay a ++ [r]) a)) in
            suspend (generation (ac s)) s
          else complete_error r (from_transport error) s
      end
  end.

(** The actor's [ensure_delay_topology]: [Some e] is [Failed(e)]. *)
Definition ensure_delay_topology (r : RetainedPublish) (s : St) : option PublishError * St :=
  match delay_strategy, mp_delay_ms (r_properties (rp_request r)) with
  | Some strategy, Some delay_ms =>
      if delay_ms =? 0 then (None, s)
      else
        let t := tick (fx s) in
        let '(res, declared, _) :=
          DelayRouting.ensure_delay_topology sha256 (declare_exchange_at env t) (declare_queue_at env t)
            strategy (r_destination (rp_request r)) delay_ms (declared_ttl_queues (ac s)) in
        let s := with_ac (next_tick s) (set_declared declared) in
        match res with Ok _ => (None, s) | Err e => (Some e, s) end
  | _, _ => (None, s)
  end.

(** [publish_queue], [now] being the last clock reading. *)
Fixpoint publish_loop (now : Z) (pending : list RetainedPublish) (s : St) : St :=
  match pending with
  | [] => s
  | r :: pending' =>
      if r_deadline (rp_request r) <=? now then
        publish_loop now pending' (fail_deadline_expired r s)
      else
        match channel (ac s) with
        | None => with_ac s (fun a => set_replay (replay a ++ r :: pending') a)
        | Some ch =>
            let '(topology, s) := ensure_delay_topology r s in
            let now := now_at env (tick (fx s)) in
            let s := next_tick s in
            match topology with
            | Some e => publish_loop now pending' (complete_error r e s)
            | None =>
                let seq := sat_add U64_MAX (sequence (ac s)) 1 in
                let s := with_ac s (set_sequence seq) in
                let r := set_rp_sequence seq r in
                match DelayRouting.route_transport_request sha256 (rp_request r) delay_strategy
                        (mandatory_flag config) with
                | Err e => publish_loop now pending' (complete_error r e s)
                | Ok w =>
                    let s := with_ac s (fun a => set_publishing (<[seq := r]> (publishing a)) a) in
                    let s := log_wire ch r w s in
                    match poll_write_at env (tick (fx s)) with
                    | Some outcome =>
                        let s := handle_publish_completion seq outcome (next_tick s) in
                        match phase (ac s) with
                        | PSuspended => with_ac s (fun a => set_replay (replay a ++ pending') a)
                        | _ => publish_loop now pending' s
                        end
                    | None =>
                        publish_loop now pending'
                          (with_ac (next_tick s)
                             (fun a => set_in_flight (publish_in_flight a ++ [seq]) a))
                    end
                end
            end
        end
  end.

Definition publish_queue (pending : list RetainedPublish) (s : St) : St :=
  publish_loop (now_at env (tick (fx s))) pending (next_tick s).

Definition flush_replay (s : St) : St :=
  let s := expire_replay s in
  let pending := replay (ac s) in
  publish_queue pending (with_ac s (set_replay [])).

Definition accept_publish (pending : list RetainedPublish) (s : St) : St :=
  match phase (ac s) with
  | PReady => publish_queue pending s
  | PSuspended => with_ac s (fun a => set_replay (replay a ++ pending) a)
  | PFailedPermanent =>
      complete_all pending
        (default (pe_new ETransport "publisher connection failed permanently")
           (permanent_error (ac s))) s
  end.

(** ** Connection events *)

Definition permanent_failure (error : TransportError) : PublishError :=
  pe_new ETransport ("publisher connection failed permanently: " +:+ te_message error).

Definition handle_connection_event (event : PublisherConnectionEvent) (s : St)
  : result unit PublishError * St :=
  match event with
  | EvRecovering g => (Ok tt, suspend g s)
  | EvReady g ch topology_restored =>
      if negb topology_restored then
        (Err (pe_new ETransport "publisher topology is not restored"), s)
      else if g <? generation (ac s) then
        (Err (pe_new ETransport "publisher recovery generation is stale"), s)
      else
        let '(confirms, s) :=
          if enables_confirms config
          then (map_err from_transport (enable_confirms_at env (tick (fx s))), next_tick s)
          else (Ok tt, s) in
        match confirms with
        | Err e => (Err e, s)
        | Ok _ => (Ok tt, flush_replay (with_ac s (set_connection PReady g (Some ch) None)))
        end
  | EvFailedPermanent g error =>
      let e := permanent_failure error in
      let s := fail_all e (with_ac s (fun a =>
        set_connection (phase a) (Z.max (generation a) g) (channel a) (permanent_error a) a)) in
      (Ok tt, with_ac s (fun a => set_connection PFailedPermanent (generation a) None (Some e) a))
  end.

(** ** Confirmations *)

Definition remove_confirmation (seq g : Z) (l : list (Z * Z)) : list (Z * Z) :=
  filter (fun c => c <> (seq, g)) l.

Definition return_info (m : ReturnedMessage) : ReturnInfo :=
  mkReturnInfo (rm_reply_code m) (rm_reply_text m) (rm_exchange m) (rm_routing_key m).

(** A confirmation future leaves [confirmations] and is resolved. *)
Definition resolve_confirmation (seq g : Z) (r : ConfirmationResult) (s : St) : St :=
  match ledger (ac s) !! seq with
  | None => s
  | Some in_flight =>
      if negb (if_generation in_flight =? g) then s
      else
        let p := if_retained in_flight in
        let s := with_ac s (fun a => set_ledger (delete seq (ledger a)) (confirmations a) a) in
        let s := log_receipt p r s in
        let s := match r with
                 | CCompleted (Ok (Ack _)) | CCompleted (Ok (Nack _)) => record_confirmation s
                 | _ => s
                 end in
        match r with
        | CTimedOut => complete_error p (pe_new ETimeout "publisher confirmation timed out") s
        | CCompleted (Err error) =>
            if is_recoverable error
            then suspend g (with_ac s (fun a => set_replay (replay a ++ [p]) a))
            else complete_error p (from_transport error) s
        | CCompleted (Ok (Ack (Some m))) | CCompleted (Ok (Nack (Some m))) =>
            complete_outcome p (Returned (message_id_of p) (return_info m)) (record_return s)
        | CCompleted (Ok (Ack None)) => complete_outcome p (Confirmed (message_id_of p)) s
        | CCompleted (Ok (Nack None)) =>
            complete_error p (pe_new ENack "broker negatively acknowledged the message") s
        | CCompleted (Ok NotRequested) =>
            complete_error p (pe_new EUnconfirmed "publisher confirms were not enabled") s
        end
  end.

(** [confirmations.next()] yields a future, which leaves the set. *)
Definition take_confirmation (seq g : Z) (s : St) : St :=
  with_ac s (fun a => set_ledger (ledger a) (remove_confirmation seq g (confirmations a)) a).

(** [publish_in_flight.next()] likewise. *)
Definition take_write (seq : Z) (s : St) : St :=
  with_ac s (fun a => set_in_flight (filter (fun n => n <> seq) (publish_in_flight a)) a).

(** ** Shutdown *)

Inductive QuiesceEvent :=
| QConfirmation (seq g : Z) (r : ConfirmationResult)
| QWrite (seq : Z) (o : WireWriteOutcome).

Definition run_quiesce_event (e : QuiesceEvent) (s : St) : St :=
  match e with
  | QConfirmation seq g r => resolve_confirmation seq g r (take_confirmation seq g s)
  | QWrite seq o => handle_publish_completion seq o (take_write seq s)
  end.

(** The bounded wait: the events that complete before the deadline; the end
    of the list is the deadline. *)
Fixpoint quiesce_loop (events : list QuiesceEvent) (s : St) : St :=
  match events with
  | [] => s
  | e :: events' =>
      match phase (ac s) with
      | PReady =>
          if has_pending_publications (ac s) then quiesce_loop events' (run_quiesce_event e s) else s
      | _ => s
      end
  end.

Definition quiesce_and_close (events : list QuiesceEvent) (s : St) : St :=
  let s :=
    match phase (ac s) with
    | PReady =>
        let s := next_tick s in
        let pending := replay (ac s) in
        quiesce_loop events (publish_queue pending (with_ac s (set_replay [])))
    | _ => s
    end in
  let s := fail_all (pe_new EClosed
    "publisher actor was closed before the publication could be attempted") s in
  with_ac s (fun a => set_connection (phase a) (generation a) None (permanent_error a) a).

End Actor.

End Publisher.
