(* ===== verification/PublisherInv.v ===== *)
(** * Invariants of the publisher actor

    Two invariants of [Publisher], kept by every handler. [acct] is the
    accounting of ownership: every accepted publication is owned or resolved,
    exactly one of the two and once; permits and bytes are those of what is
    owned; what was written and what was reported is justified. [wf] ties the
    maps of the actor to its pending futures. *)

From S2P Require Import Prelude Transport Publication DelayTopology DelayRouting ByteBudget.
From S2P Require Import Publisher.
Import Transport Publication DelayTopology Publisher.
Local Open Scope Z_scope.
Local Open Scope rabbit_scope.

Module PublisherInv.

(** ** What is owned *)

Definition held (a : Actor) : list RetainedPublish :=
  replay a ++ publishing_values a ++ ledger_values a.

(** What identifies a publication from acceptance to its outcome: its waiter
    and everything that reaches the wire. *)
Abbreviation Identity := (nat * (Destination * string * MessageProperties))%type.

Definition identity_of (w : nat) (r : PublishRequest) : Identity :=
  (w, (r_destination r, r_payload r, r_properties r)).

Definition view (r : RetainedPublish) : Identity * Z :=
  (identity_of (rp_waiter r) (rp_request r), rp_bytes r).

Definition views (pend : list RetainedPublish) (s : St) : list (Identity * Z) :=
  view <$> (held (ac s) ++ pend).

(** The publication of waiter [w] was handed to a channel. *)
Definition wired (e : Effects) (w : nat) : Prop := exists ch req, (ch, w, req) ∈ wire e.

Definition outcome_id (o : PublishOutcome) : string :=
  match o with Confirmed id => id | Returned id _ => id end.

(** Which broker verdict justifies which outcome. *)
Definition verdict (c : PublishConfirmation) (o : PublishOutcome) : Prop :=
  match c, o with
  | Ack None, Confirmed _ => True
  | Ack (Some m), Returned _ info | Nack (Some m), Returned _ info => info = return_info m
  | _, _ => False
  end.

Section Accounting.
Context (sha256 : string -> string) (config : PublisherConfig) (delay_strategy : option DelayStrategy).
(** [blind] are the bytes that blind publications have reserved from the same budget. *)
Context (acc : list Identity) (cap blind : Z).

(** What is written is the routed form of an accepted publication. *)
Definition wire_ok (x : nat * nat * WireRequest) : Prop :=
  exists r, identity_of x.1.2 r ∈ acc /\
    DelayRouting.route_transport_request sha256 r delay_strategy (mandatory_flag config) = Ok x.2.

(** A reported outcome names an accepted publication that was written and, in
    a confirming mode, is the broker's verdict on it. *)
Definition justified (e : Effects) (x : nat * result PublishOutcome PublishError) : Prop :=
  match x.2 with
  | Err _ => True
  | Ok o =>
      wired e x.1 /\
      (exists body, (x.1, body) ∈ acc /\ outcome_id o = mp_message_id body.2) /\
      (enables_confirms config = true ->
       exists c, (x.1, CCompleted (Ok c)) ∈ receipts e /\ verdict c o)
  end.

Record acct (vs : list (Identity * Z)) (e : Effects) : Prop := {
  acct_waiters : vs.*1.*1 ++ (resolved e).*1 ≡ₚ acc.*1;
  acct_identity : Forall (fun v => v.1 ∈ acc) vs;
  acct_permits : 0 <= permits e /\ permits e + Z.of_nat (length vs) = cap;
  acct_budget : 0 <= blind /\ budget e = blind + sumZ snd vs;
  acct_max : budget e <= max_buffered_bytes config;
  acct_bytes : Forall (fun v => 0 <= v.2) vs;
  acct_wire : Forall wire_ok (wire e);
  acct_outcomes : Forall (justified e) (resolved e)
}.

Definition owns (pend : list RetainedPublish) (s : St) : Prop := acct (views pend s) (fx s).

Lemma acct_perm vs vs' e : vs ≡ₚ vs' -> acct vs e -> acct vs' e.
Proof.
  intros Hp [H1 H2 H3 H4 H5 H6 H7 H8]. split; try done.
  - rewrite <- H1. by rewrite Hp.
  - by rewrite <- Hp.
  - by rewrite <- Hp.
  - by rewrite <- (sumZ_perm _ _ _ Hp).
  - by rewrite <- Hp.
Qed.

(** Effects that only extend the logs and the metrics. *)
Lemma acct_same vs e e' :
  resolved e' = resolved e -> permits e' = permits e -> budget e' = budget e ->
  wire e' = wire e -> receipts e ⊆ receipts e' ->
  acct vs e -> acct vs e'.
Proof.
  intros E1 E2 E3 E4 E5 [H1 H2 H3 H4 H5 H6 H7 H8]. split; rewrite ?E1, ?E2, ?E3, ?E4; try done.
  eapply Forall_impl; [exact H8|]. intros [w res]. unfold justified, wired. rewrite E4.
  destruct res; [|done]. intros (? & ? & Hc). split; [done|]. split; [done|].
  intros He. destruct (Hc He) as (c & Hin & ?). eauto.
Qed.

(** ** Primitive moves *)

(** Moving publications around without completing any. *)
Lemma owns_move pend pend' s s' :
  fx s' = fx s -> views pend' s' ≡ₚ views pend s -> owns pend s -> owns pend' s'.
Proof. intros E Hp H. unfold owns. rewrite E. eapply acct_perm; [|exact H]. by symmetry. Qed.

Lemma owns_effects pend s s' :
  ac s' = ac s -> resolved (fx s') = resolved (fx s) -> permits (fx s') = permits (fx s) ->
  budget (fx s') = budget (fx s) -> wire (fx s') = wire (fx s) ->
  receipts (fx s) ⊆ receipts (fx s') -> owns pend s -> owns pend s'.
Proof. intros Ha E1 E2 E3 E4 E5. unfold owns, views. rewrite Ha. by apply acct_same. Qed.

Lemma views_cons r pend s : views (r :: pend) s ≡ₚ view r :: views pend s.
Proof. unfold views. rewrite !fmap_app. simpl. solve_Permutation. Qed.

Lemma owns_log_wire ch r w pend s :
  DelayRouting.route_transport_request sha256 (rp_request r) delay_strategy (mandatory_flag config) = Ok w ->
  owns (r :: pend) s -> owns (r :: pend) (log_wire ch r w s).
Proof.
  intros Hw [H1 H2 H3 H4 H5 H6 H7 H8]. split; try done; simpl.
  - apply Forall_app. split; [done|]. constructor; [|constructor]. exists (rp_request r).
    split; [|done]. rewrite views_cons in H2. by apply Forall_cons in H2 as [H2 _].
  - eapply Forall_impl; [exact H8|]. intros [w' res]. unfold justified, wired; simpl.
    destruct res; [|done]. intros ((c & q & Hin) & Hrest). split; [|done].
    exists c, q. apply elem_of_app. by left.
Qed.

(** The waiter of a publication that leaves is answered; its permit and its
    bytes return. *)
Lemma acct_complete r res vs s :
  justified (fx s) (rp_waiter r, res) ->
  acct (view r :: vs) (fx s) -> acct vs (fx (complete r res s)).
Proof.
  intros Hj [H1 H2 H3 H4 H5 H6 H7 H8].
  apply Forall_cons in H2 as [_ H2]. apply Forall_cons in H6 as [Hb H6].
  simpl in Hb. rewrite sumZ_cons in H4. simpl in H4, H3. destruct H4 as [H0 H4].
  pose proof (sumZ_nonneg _ _ H6) as Hn.
  split; cbn [complete fx resolved permits budget wire]; try done.
  - rewrite fmap_app. simpl. rewrite <- H1. simpl. rewrite app_assoc.
    by rewrite (Permutation_app_comm _ [rp_waiter r]).
  - lia.
  - split; [done|]. unfold ByteBudget.release. rewrite sat_sub_exact by lia. lia.
  - unfold ByteBudget.release. rewrite sat_sub_exact by lia. lia.
  - apply Forall_app. split; [exact H8|]. constructor; [exact Hj|constructor].
Qed.

Lemma acct_complete_all l e vs : forall s,
  acct ((view <$> l) ++ vs) (fx s) -> acct vs (fx (complete_all l e s)).
Proof.
  induction l as [|r l IH]; intros s H; [done|]. cbn [complete_all foldl].
  apply IH. by apply acct_complete.
Qed.

Lemma complete_all_ac l e : forall s, ac (complete_all l e s) = ac s.
Proof.
  induction l as [|r l IH]; intros s; [done|]. cbn [complete_all foldl].
  etransitivity; [apply IH|done].
Qed.

Lemma owns_complete r res pend s :
  justified (fx s) (rp_waiter r, res) -> owns (r :: pend) s -> owns pend (complete r res s).
Proof.
  intros Hj H. unfold owns in *. apply acct_complete; [done|].
  eapply acct_perm; [|exact H]. exact (views_cons r pend s).
Qed.

Lemma owns_complete_error r e pend s : owns (r :: pend) s -> owns pend (complete_error r e s).
Proof. by apply owns_complete. Qed.

Lemma owns_complete_all l e pend s : owns (l ++ pend) s -> owns pend (complete_all l e s).
Proof.
  intros H. unfold owns, views in *. rewrite complete_all_ac. apply acct_complete_all.
  eapply acct_perm; [|exact H]. rewrite !fmap_app. solve_Permutation.
Qed.

Lemma owns_fail_all e pend s : owns pend s -> owns pend (fail_all e s).
Proof.
  intros H. unfold owns, fail_all, views, held, publishing_values, ledger_values.
  cbn [with_ac ac fx replay publishing ledger]. rewrite !map_to_list_empty.
  apply acct_complete_all. eapply acct_perm; [|exact H].
  unfold views, held, publishing_values, ledger_values. rewrite !fmap_app. simpl. solve_Permutation.
Qed.

Lemma owns_pend_perm pend pend' s : pend ≡ₚ pend' -> owns pend s -> owns pend' s.
Proof. intros Hp. apply owns_move; [done|]. unfold views. by rewrite Hp. Qed.

(** A publication keeps its identity when it is given a sequence. *)
Lemma owns_relabel n r pend s : owns (r :: pend) s -> owns (set_rp_sequence n r :: pend) s.
Proof. apply owns_move; [done|]. by rewrite !views_cons. Qed.

(** Pending publications join the replay queue. *)
Lemma owns_to_replay pend l s :
  owns (l ++ pend) s -> owns pend (with_ac s (fun a => set_replay (replay a ++ l) a)).
Proof.
  apply owns_move; [done|]. unfold views, held, publishing_values, ledger_values; simpl.
  rewrite !fmap_app. solve_Permutation.
Qed.

Lemma owns_suspend g pend s : owns pend s -> owns pend (suspend g s).
Proof.
  apply owns_move; [done|]. unfold views, held, suspend, publishing_values, ledger_values; simpl.
  rewrite !map_to_list_empty. simpl. rewrite !app_nil_r. by rewrite sort_by_key_perm.
Qed.

Lemma owns_take_replay pend s :
  owns pend s -> owns (replay (ac s) ++ pend) (with_ac s (set_replay [])).
Proof.
  apply owns_move; [done|]. unfold views, held, publishing_values, ledger_values; simpl.
  rewrite !fmap_app. solve_Permutation.
Qed.

Lemma owns_publish r n pend s :
  publishing (ac s) !! n = None ->
  owns (set_rp_sequence n r :: pend) s ->
  owns pend (with_ac s (fun a => set_publishing (<[n := set_rp_sequence n r]> (publishing a)) a)).
Proof.
  intros Hn. apply owns_move; [done|]. unfold views, held, publishing_values, ledger_values.
  cbn [with_ac set_publishing ac replay publishing ledger]. rewrite values_insert by done.
  rewrite !fmap_app, !fmap_cons. solve_Permutation.
Qed.

Lemma owns_unpublish n r pend s :
  publishing (ac s) !! n = Some r ->
  owns pend s -> owns (r :: pend) (with_ac s (set_publishing (delete n (publishing (ac s))))).
Proof.
  intros Hn. apply owns_move; [done|]. unfold views, held, publishing_values, ledger_values.
  cbn [with_ac set_publishing ac replay publishing ledger]. rewrite <- (values_delete _ _ _ Hn).
  rewrite !fmap_app, !fmap_cons. solve_Permutation.
Qed.

Lemma owns_to_ledger n r g cs pend s :
  ledger (ac s) !! n = None ->
  owns (r :: pend) s -> owns pend (with_ac s (set_ledger (<[n := mkInFlight r g]> (ledger (ac s))) cs)).
Proof.
  intros Hn. apply owns_move; [done|]. unfold views, held, publishing_values, ledger_values.
  cbn [with_ac set_ledger ac replay publishing ledger]. rewrite values_insert by done.
  rewrite !fmap_app, !fmap_cons. solve_Permutation.
Qed.

Lemma owns_from_ledger n f cs pend s :
  ledger (ac s) !! n = Some f ->
  owns pend s -> owns (if_retained f :: pend) (with_ac s (set_ledger (delete n (ledger (ac s))) cs)).
Proof.
  intros Hn. apply owns_move; [done|]. unfold views, held, publishing_values, ledger_values.
  cbn [with_ac set_ledger ac replay publishing ledger]. rewrite <- (values_delete _ _ _ Hn).
  rewrite !fmap_app, !fmap_cons. solve_Permutation.
Qed.

End Accounting.

(** ** The maps and the pending futures *)

Definition ledger_tags (m : gmap Z InFlightPublish) : list (Z * Z) :=
  prod_map id if_generation <$> map_to_list m.

(** [W] says which waiters have been written; [tw] and [tc] are a pending
    write and a pending confirmation that have just been taken out. *)
Record wf (W : nat -> Prop) (tw : list Z) (tc : list (Z * Z)) (a : Actor) : Prop := {
  wf_seq : 0 <= sequence a <= U64_MAX;
  wf_publishing : forall n r, publishing a !! n = Some r ->
    rp_sequence r = n /\ n <= sequence a /\ W (rp_waiter r);
  wf_ledger : forall n f, ledger a !! n = Some f ->
    rp_sequence (if_retained f) = n /\ n <= sequence a /\ W (rp_waiter (if_retained f));
  wf_disjoint : forall n r, publishing a !! n = Some r -> ledger a !! n = None;
  wf_writes : publish_in_flight a ++ tw ≡ₚ (map_to_list (publishing a)).*1;
  wf_confirmations : confirmations a ++ tc ≡ₚ ledger_tags (ledger a)
}.

(** What each phase promises about what is held. *)
Definition phase_ok (a : Actor) : Prop :=
  match phase a with
  | PReady => replay a = [] /\ is_Some (channel a)
  | PSuspended => channel a = None /\ publishing a = ∅ /\ ledger a = ∅
  | PFailedPermanent => replay a = [] /\ publishing a = ∅ /\ ledger a = ∅
  end.

Lemma ledger_tags_keys m : (ledger_tags m).*1 = (map_to_list m).*1.
Proof. unfold ledger_tags. rewrite <- list_fmap_compose. by apply list_fmap_ext. Qed.

Lemma ledger_tags_elem m n g :
  (n, g) ∈ ledger_tags m <-> exists f, m !! n = Some f /\ if_generation f = g.
Proof.
  unfold ledger_tags. rewrite list_elem_of_fmap. split.
  - intros ([k f] & [= -> ->] & Hx). apply elem_of_map_to_list in Hx. eauto.
  - intros (f & Hx & <-). exists (n, f). split; [done|]. by apply elem_of_map_to_list.
Qed.

Lemma ledger_tags_insert m n f :
  m !! n = None -> ledger_tags (<[n := f]> m) ≡ₚ (n, if_generation f) :: ledger_tags m.
Proof. intros H. unfold ledger_tags. by rewrite map_to_list_insert. Qed.

Lemma ledger_tags_delete m n f :
  m !! n = Some f -> (n, if_generation f) :: ledger_tags (delete n m) ≡ₚ ledger_tags m.
Proof. intros H. unfold ledger_tags. by rewrite <- (map_to_list_delete m n f H). Qed.

Lemma ledger_tags_NoDup m : NoDup (ledger_tags m).
Proof. eapply NoDup_fmap_1. rewrite ledger_tags_keys. apply NoDup_fst_map_to_list. Qed.

Lemma wf_empty W n p g ch rp e d :
  0 <= n <= U64_MAX -> wf W [] [] (mkActor p g ch rp ∅ ∅ [] [] n e d).
Proof. intros Hn. by split; simpl. Qed.

Lemma wf_weaken (W W' : nat -> Prop) tw tc a :
  (forall w, W w -> W' w) -> wf W tw tc a -> wf W' tw tc a.
Proof.
  intros HW [H1 H2 H3 H4 H5 H6]. split; try done.
  - intros n r Hn. destruct (H2 n r Hn) as (? & ? & ?). auto.
  - intros n r Hn. destruct (H3 n r Hn) as (? & ? & ?). auto.
Qed.

(** A publication about to be written gets a fresh sequence. *)
Lemma wf_publish W a r n :
  n = sequence a + 1 -> n <= U64_MAX -> rp_sequence r = n -> W (rp_waiter r) ->
  wf W [] [] a ->
  wf W [n] [] (set_publishing (<[n := r]> (publishing a)) (set_sequence n a)).
Proof.
  intros -> Hmax Hr Hw [H1 H2 H3 H4 H5 H6].
  assert (publishing a !! (sequence a + 1) = None) as Hfresh.
  { destruct (publishing a !! _) eqn:E; [|done]. apply H2 in E. lia. }
  assert (ledger a !! (sequence a + 1) = None) as Hfresh'.
  { destruct (ledger a !! _) eqn:E; [|done]. apply H3 in E. lia. }
  split; simpl; try done; [lia| | | |].
  - intros n r' [[<- <-]|[Hne Hin]]%lookup_insert_Some; [by rewrite Hr|].
    destruct (H2 n r' Hin) as (? & ? & ?). split; [done|]. split; [lia|done].
  - intros n f Hin. destruct (H3 n f Hin) as (? & ? & ?). split; [done|]. split; [lia|done].
  - intros n r' [[<- <-]|[Hne Hin]]%lookup_insert_Some; [done|]. by eapply H4.
  - rewrite keys_insert by done. rewrite <- H5. solve_Permutation.
Qed.

Lemma wf_pend_write W n tc a :
  wf W [n] tc a -> wf W [] tc (set_in_flight (publish_in_flight a ++ [n]) a).
Proof. intros [H1 H2 H3 H4 H5 H6]. split; try done. simpl. by rewrite app_nil_r. Qed.

Lemma wf_unpublish W n r a :
  publishing a !! n = Some r -> wf W [n] [] a -> wf W [] [] (set_publishing (delete n (publishing a)) a).
Proof.
  intros Hn [H1 H2 H3 H4 H5 H6]. split; simpl; try done.
  - intros k r' [_ Hk]%lookup_delete_Some. by apply H2.
  - intros k r' [_ Hk]%lookup_delete_Some. by eapply H4.
  - rewrite app_nil_r. apply (Permutation_cons_inv (a := n)). rewrite (keys_delete _ _ _ Hn), <- H5.
    by rewrite Permutation_app_comm.
Qed.

Lemma wf_to_ledger W n r g a :
  publishing a !! n = None -> ledger a !! n = None -> rp_sequence r = n -> n <= sequence a ->
  W (rp_waiter r) -> wf W [] [] a ->
  wf W [] [] (set_ledger (<[n := mkInFlight r g]> (ledger a)) (confirmations a ++ [(n, g)]) a).
Proof.
  intros Hp Hl Hr Hle Hw [H1 H2 H3 H4 H5 H6]. split; simpl; try done.
  - intros k f [[<- <-]|[Hne Hin]]%lookup_insert_Some; [done|]. by apply H3.
  - intros k r' Hk. rewrite lookup_insert_ne; [by eapply H4|]. intros ->. congruence.
  - rewrite app_nil_r, ledger_tags_insert by done. simpl. rewrite <- H6, app_nil_r.
    by rewrite Permutation_app_comm.
Qed.

Lemma wf_from_ledger W n f a :
  ledger a !! n = Some f -> wf W [] [(n, if_generation f)] a ->
  wf W [] [] (set_ledger (delete n (ledger a)) (confirmations a) a).
Proof.
  intros Hn [H1 H2 H3 H4 H5 H6]. split; simpl; try done.
  - intros k r' [_ Hk]%lookup_delete_Some. by apply H3.
  - intros k r' Hk. apply lookup_delete_None. right. by eapply H4.
  - rewrite app_nil_r. apply (Permutation_cons_inv (a := (n, if_generation f))).
    rewrite (ledger_tags_delete _ _ _ Hn), <- H6. by rewrite Permutation_app_comm.
Qed.

Lemma wf_take_write W n a :
  n ∈ publish_in_flight a -> wf W [] [] a ->
  wf W [n] [] (set_in_flight (filter (fun k => k <> n) (publish_in_flight a)) a).
Proof.
  intros Hin [H1 H2 H3 H4 H5 H6]. split; simpl; try done. rewrite app_nil_r in H5.
  rewrite remove_once; [done| |done]. rewrite H5. apply NoDup_fst_map_to_list.
Qed.

Lemma wf_take_confirmation W n g a :
  (n, g) ∈ confirmations a -> wf W [] [] a ->
  wf W [] [(n, g)] (set_ledger (ledger a) (remove_confirmation n g (confirmations a)) a).
Proof.
  intros Hin [H1 H2 H3 H4 H5 H6]. split; simpl; try done. rewrite app_nil_r in H6.
  unfold remove_confirmation. rewrite remove_once; [done| |done]. rewrite H6. apply ledger_tags_NoDup.
Qed.

(** The write being completed is held in [publishing]. *)
Lemma wf_write_held W n tc a : wf W [n] tc a -> is_Some (publishing a !! n).
Proof.
  intros [_ _ _ _ H5 _]. apply keys_elem. rewrite <- H5. apply elem_of_app. right. by left.
Qed.

(** The confirmation being resolved is held in [ledger], under the generation
    it was recorded with. *)
Lemma wf_confirmation_held W tw n g a :
  wf W tw [(n, g)] a -> exists f, ledger a !! n = Some f /\ if_generation f = g.
Proof.
  intros [_ _ _ _ _ H6]. apply ledger_tags_elem. rewrite <- H6. apply elem_of_app. right. by left.
Qed.

(** What is held on the wire has pairwise distinct sequences. *)
Lemma wf_sequences_NoDup W tw tc a :
  wf W tw tc a -> NoDup (rp_sequence <$> publishing_values a ++ ledger_values a).
Proof.
  intros [_ H2 H3 H4 _ _]. 
  assert (rp_sequence <$> publishing_values a = (map_to_list (publishing a)).*1) as Ep.
  { unfold publishing_values. rewrite <- list_fmap_compose. apply list_fmap_ext.
    intros i [n r] Hx. apply list_elem_of_lookup_2, elem_of_map_to_list in Hx.
    by destruct (H2 n r Hx). }
  assert (rp_sequence <$> ledger_values a = (map_to_list (ledger a)).*1) as El.
  { unfold ledger_values. rewrite <- !list_fmap_compose. apply list_fmap_ext.
    intros i [n r] Hx. apply list_elem_of_lookup_2, elem_of_map_to_list in Hx.
    by destruct (H3 n r Hx). }
  rewrite fmap_app, Ep, El. apply NoDup_app. split; [apply NoDup_fst_map_to_list|].
  split; [|apply NoDup_fst_map_to_list]. intros n [r Hr]%keys_elem Hl%keys_elem.
  rewrite (H4 n r Hr) in Hl. by destruct Hl.
Qed.

(** ** Every handler keeps the invariant *)

Section Preservation.
Context (sha256 : string -> string) (config : PublisherConfig) (delay_strategy : option DelayStrategy).
Context (env : Env) (acc : list Identity) (cap blind : Z).
Abbreviation owns' := (owns sha256 config delay_strategy acc cap blind).

Record inv (tw : list Z) (tc : list (Z * Z)) (pend : list RetainedPublish) (s : St) : Prop := {
  inv_wf : wf (wired (fx s)) tw tc (ac s);
  inv_phase : phase_ok (ac s);
  inv_owns : owns' pend s
}.

Lemma inv_complete_error tw tc r e pend s :
  inv tw tc (r :: pend) s -> inv tw tc pend (complete_error r e s).
Proof. intros [H1 H2 H3]. split; [done..|]. by apply owns_complete_error. Qed.

Lemma inv_complete_all l e tw tc pend s :
  inv tw tc (l ++ pend) s -> inv tw tc pend (complete_all l e s).
Proof.
  revert s. induction l as [|r l IH]; intros s H; [done|]. cbn [complete_all foldl].
  apply IH. by apply inv_complete_error.
Qed.

(** Interactions with the environment and metrics. *)
Lemma inv_effects tw tc pend s s' :
  ac s' = ac s -> resolved (fx s') = resolved (fx s) -> permits (fx s') = permits (fx s) ->
  budget (fx s') = budget (fx s) -> wire (fx s') = wire (fx s) ->
  receipts (fx s) ⊆ receipts (fx s') -> inv tw tc pend s -> inv tw tc pend s'.
Proof.
  intros Ha E1 E2 E3 E4 E5 [H1 H2 H3]. split.
  - unfold wired. by rewrite Ha, E4.
  - by rewrite Ha.
  - by apply (owns_effects _ _ _ _ _ _ _ s).
Qed.

Lemma inv_tick tw tc pend s : inv tw tc pend s -> inv tw tc pend (next_tick s).
Proof. by apply inv_effects. Qed.

Lemma inv_suspend g pend s :
  0 <= sequence (ac s) <= U64_MAX -> owns' pend s -> inv [] [] pend (suspend g s).
Proof.
  intros H1 H3. split.
  - by apply wf_empty.
  - done.
  - by apply owns_suspend.
Qed.

Lemma inv_to_replay l pend s :
  phase (ac s) = PSuspended -> inv [] [] (l ++ pend) s ->
  inv [] [] pend (with_ac s (fun a => set_replay (replay a ++ l) a)).
Proof.
  intros Hp [[H1 H2 H3 H4 H5 H6] Hph Ho]. split; [by split| |by apply owns_to_replay].
  unfold phase_ok in *. simpl. by rewrite Hp in *.
Qed.

Lemma inv_fail_all e pend s : inv [] [] pend s -> inv [] [] pend (fail_all e s).
Proof.
  intros [H1 H2 H3]. unfold fail_all. split.
  - simpl. rewrite complete_all_ac. apply wf_empty. by destruct H1.
  - unfold phase_ok in *; simpl. rewrite complete_all_ac. by destruct (phase (ac s)), H2.
  - by apply owns_fail_all.
Qed.

(** A write completes. *)
Lemma inv_write_done seq o pend s :
  inv [seq] [] pend s -> inv [] [] pend (handle_publish_completion config seq o s).
Proof.
  intros [H1 H2 H3]. unfold handle_publish_completion.
  destruct (wf_write_held _ _ _ _ H1) as [r Hr]. rewrite Hr.
  pose proof (wf_unpublish _ _ _ _ Hr H1) as Hw.
  pose proof (owns_unpublish _ _ _ _ _ _ _ _ _ _ Hr H3) as Ho.
  destruct (wf_publishing _ _ _ _ H1 _ _ Hr) as (Es & Hle & Hwired).
  pose proof (wf_disjoint _ _ _ _ H1 _ _ Hr) as Hl.
  set (s1 := with_ac s _) in *.
  assert (phase (ac s) = PReady /\ phase_ok (ac s1)) as [Hready Hp1].
  { unfold phase_ok, s1 in *; simpl. destruct (phase (ac s)); [done|..];
      destruct H2 as (? & E & ?); by rewrite E in Hr. }
  destruct o as [[[]|error]|].
  - destruct (enables_confirms config) eqn:Ec.
    + split; [| |by apply owns_to_ledger].
      2: { unfold phase_ok, s1 in *; simpl in *. by rewrite Hready in *. }
      apply (wf_to_ledger _ _ _ _ (ac s1)); try done. simpl. apply lookup_delete_eq.
    + split; [done..|]. apply owns_complete; [|done]. split; [done|]. split; [|by rewrite Ec].
      destruct Ho as [_ Hid _ _ _ _ _ _]. rewrite (views_cons r) in Hid.
      apply Forall_cons in Hid as [Hid _]. eexists. split; [exact Hid|done].
  - destruct (is_recoverable error).
    + apply inv_suspend; [by destruct Hw|].
      apply (owns_move _ _ _ _ _ _ pend pend (with_ac s1 (fun a => set_replay (replay a ++ [r]) a)));
        [done..|]. by apply owns_to_replay.
    + apply inv_complete_error. by split.
  - apply inv_complete_error. by split.
Qed.

(** A confirmation is resolved. *)
Lemma inv_confirmation_done seq g c pend s :
  inv [] [(seq, g)] pend s -> inv [] [] pend (resolve_confirmation seq g c s).
Proof.
  intros [H1 H2 H3]. unfold resolve_confirmation.
  destruct (wf_confirmation_held _ _ _ _ _ H1) as (f & Hf & Hg). rewrite Hf, Hg, Z.eqb_refl.
  cbn [negb]. subst g. pose proof (wf_from_ledger _ _ _ _ Hf H1) as Hw.
  pose proof (owns_from_ledger _ _ _ _ _ _ _ _ (confirmations (ac s)) _ _ Hf H3) as Ho.
  destruct (wf_ledger _ _ _ _ H1 _ _ Hf) as (Es & Hle & Hwired).
  set (p := if_retained f) in *.
  set (s1 := log_receipt p c (with_ac s (fun a => set_ledger (delete seq (ledger a)) (confirmations a) a))).
  assert (inv [] [] (p :: pend) s1) as Hi.
  { apply (inv_effects _ _ _ (with_ac s (set_ledger (delete seq (ledger (ac s))) (confirmations (ac s)))));
      try done; [simpl; set_solver|]. split; [done| |done]. unfold phase_ok in *; simpl.
    destruct (phase (ac s)); [done|..]; destruct H2 as (? & ? & E); by rewrite E in Hf. }
  assert (forall o, (exists v, c = CCompleted (Ok v) /\ verdict v o) -> outcome_id o = message_id_of p ->
            justified config acc (fx s1) (rp_waiter p, Ok o)) as Hj.
  { intros o (v & Ec & Hv) Ho'. split; [done|]. split.
    - destruct Ho as [_ Hid _ _ _ _ _ _]. rewrite (views_cons p) in Hid.
      apply Forall_cons in Hid as [Hid _]. eexists. split; [exact Hid|done].
    - intros _. exists v. split; [|done]. simpl. rewrite <- Ec. set_solver. }
  assert (forall s', ac s' = ac s1 -> resolved (fx s') = resolved (fx s1) -> permits (fx s') = permits (fx s1) ->
    budget (fx s') = budget (fx s1) -> wire (fx s') = wire (fx s1) ->
    receipts (fx s') = receipts (fx s1) -> forall o,
    (exists v, c = CCompleted (Ok v) /\ verdict v o) -> outcome_id o = message_id_of p ->
    inv [] [] pend (complete_outcome p o s')) as Hout.
  { intros s' Ea E1 E2 E3 E4 E5 o Hv Hid.
    assert (inv [] [] (p :: pend) s') as [Hw' Hp' Ho''].
    { apply (inv_effects _ _ _ s1); try done. by rewrite E5. }
    split; [done..|]. apply owns_complete; [|done]. unfold justified, wired in *. simpl.
    rewrite E4, E5. by apply Hj. }
  destruct c as [[[[m|]|[m|]|]|error]|].
  - apply Hout; [done..| |done]. by exists (Ack (Some m)).
  - apply Hout; [done..| |done]. by exists (Ack None).
  - apply Hout; [done..| |done]. by exists (Nack (Some m)).
  - apply inv_complete_error. by apply (inv_effects _ _ _ s1).
  - by apply inv_complete_error.
  - destruct (is_recoverable error).
    + apply inv_suspend; [by destruct Hw|]. destruct Hi as [_ _ Hi]. by apply owns_to_replay.
    + by apply inv_complete_error.
  - by apply inv_complete_error.
Qed.

Lemma completion_sequence seq o s :
  sequence (ac (handle_publish_completion config seq o s)) = sequence (ac s).
Proof. unfold handle_publish_completion. by repeat split_match. Qed.

Lemma completion_phase seq o s :
  phase (ac (handle_publish_completion config seq o s)) = phase (ac s) \/
  phase (ac (handle_publish_completion config seq o s)) = PSuspended.
Proof. unfold handle_publish_completion. repeat split_match; auto. Qed.

Lemma ensure_cases r s :
  (ensure_delay_topology sha256 delay_strategy env r s).2 = s \/
  exists d, (ensure_delay_topology sha256 delay_strategy env r s).2 = with_ac (next_tick s) (set_declared d).
Proof. unfold ensure_delay_topology. repeat split_match; simpl; eauto. Qed.

Lemma inv_ensure r tw tc pend s :
  inv tw tc pend s -> inv tw tc pend (ensure_delay_topology sha256 delay_strategy env r s).2.
Proof.
  intros H. destruct (ensure_cases r s) as [->|[d ->]]; [done|].
  destruct (inv_tick _ _ _ _ H) as [[H1 H2 H3 H4 H5 H6] Hp Ho]. split; [by split| |done].
  unfold phase_ok in *. done.
Qed.

Lemma ensure_actor r s : let s' := (ensure_delay_topology sha256 delay_strategy env r s).2 in
  phase (ac s') = phase (ac s) /\ sequence (ac s') = sequence (ac s) /\ channel (ac s') = channel (ac s).
Proof. destruct (ensure_cases r s) as [->|[d ->]]; done. Qed.

Lemma sat_succ n : n <= U64_MAX -> n <= sat_add U64_MAX n 1 <= U64_MAX.
Proof. unfold sat_add. lia. Qed.

Lemma publish_loop_sequence pending : forall now n s,
  n <= sequence (ac s) <= U64_MAX ->
  n <= sequence (ac (publish_loop sha256 config delay_strategy env now pending s)) <= U64_MAX.
Proof.
  induction pending as [|r pending IH]; intros now n s Hle; [done|]. cbn [publish_loop].
  destruct (_ <=? now); [by apply IH|]. destruct (channel (ac s)); [|done].
  destruct (ensure_delay_topology _ _ _ _ _) as [t s1] eqn:E.
  pose proof (ensure_actor r s) as (_ & Hs & _). rewrite E in Hs. simpl in Hs. rewrite <- Hs in Hle.
  destruct t; [by apply IH|]. pose proof (sat_succ _ (proj2 Hle)) as Hn.
  assert (n <= sat_add U64_MAX (sequence (ac s1)) 1 <= U64_MAX) as Hseq by lia.
  destruct (DelayRouting.route_transport_request _ _ _ _); [|by apply IH].
  destruct (poll_write_at _ _); [|by apply IH].
  destruct (phase _); [apply IH| |apply IH]; simpl; by rewrite completion_sequence.
Qed.

Lemma inv_sequence n pend s :
  sequence (ac s) <= n <= U64_MAX -> inv [] [] pend s -> inv [] [] pend (with_ac s (set_sequence n)).
Proof.
  intros Hn [[H1 H2 H3 H4 H5 H6] Hp Ho]. split; [|done..]. split; simpl; try done; [lia|..].
  - intros k r Hk. destruct (H2 k r Hk) as (? & ? & ?). split; [done|]. split; [lia|done].
  - intros k r Hk. destruct (H3 k r Hk) as (? & ? & ?). split; [done|]. split; [lia|done].
Qed.

(** A publication is handed to the channel under the next sequence. *)
Lemma inv_attempt n ch r w pend s :
  phase (ac s) = PReady -> n = sequence (ac s) + 1 -> n <= U64_MAX ->
  DelayRouting.route_transport_request sha256 (rp_request r) delay_strategy (mandatory_flag config) = Ok w ->
  inv [] [] (r :: pend) s ->
  inv [n] [] pend
    (log_wire ch (set_rp_sequence n r) w
       (with_ac (with_ac s (set_sequence n))
          (fun a => set_publishing (<[n := set_rp_sequence n r]> (publishing a)) a))).
Proof.
  intros Hp Hn Hmax Hw [H1 H2 H3]. set (r' := set_rp_sequence n r).
  assert (forall x, wired (fx s) x -> wired (fx (log_wire ch r' w s)) x) as Hmono.
  { intros x (c & q & Hx). exists c, q. simpl. apply elem_of_app. by left. }
  split.
  - apply (wf_publish _ (ac s) r'); [done..| |by eapply wf_weaken; [exact Hmono|]].
    exists ch, w. simpl. apply elem_of_app. right. by left.
  - unfold phase_ok in *. simpl. by rewrite Hp in *.
  - apply (owns_publish _ _ _ _ _ _ r n pend (log_wire ch r' w (with_ac s (set_sequence n)))).
    + simpl. destruct (publishing (ac s) !! n) eqn:E; [|done]. apply (wf_publishing _ _ _ _ H1) in E. lia.
    + apply (owns_log_wire _ _ _ _ _ _ _ r'); [exact Hw|]. by apply owns_relabel.
Qed.

(** Writing out the queue: [rest] is owned elsewhere. *)
Lemma inv_publish_loop rest pending : forall now s,
  phase (ac s) = PReady -> inv [] [] (pending ++ rest) s ->
  sequence (ac (publish_loop sha256 config delay_strategy env now pending s)) < U64_MAX ->
  inv [] [] rest (publish_loop sha256 config delay_strategy env now pending s).
Proof.
  induction pending as [|r pending IH]; intros now s Hp Hi; [done|]. cbn [publish_loop].
  destruct (_ <=? now).
  { intros Hlt. apply IH; [done| |done]. by apply inv_complete_error. }
  destruct (channel (ac s)) as [ch|] eqn:Ech.
  2: { destruct Hi as [_ Hph _]. unfold phase_ok in Hph. rewrite Hp, Ech in Hph. by destruct Hph as [_ [? ?]]. }
  destruct (ensure_delay_topology _ _ _ _ _) as [t s1] eqn:E.
  pose proof (ensure_actor r s) as (Hp1 & Hs1 & Hc1). pose proof (inv_ensure r _ _ _ _ Hi) as Hi1.
  rewrite E in Hp1, Hs1, Hc1, Hi1. simpl in Hp1, Hs1, Hc1, Hi1. rewrite Hp in Hp1.
  destruct t as [e|].
  { intros Hlt. apply IH; [done| |done]. by apply inv_complete_error, inv_tick. }
  cbn zeta. set (n := sat_add U64_MAX (sequence (ac (next_tick s1))) 1).
  pose proof (wf_seq _ _ _ _ (inv_wf _ _ _ _ Hi1)) as Hb.
  assert (sequence (ac s1) <= n <= U64_MAX /\ (n < U64_MAX -> n = sequence (ac s1) + 1)) as [Hn Hnext].
  { unfold n, sat_add. simpl. lia. }
  destruct (DelayRouting.route_transport_request _ _ _ _) as [w|e] eqn:Ew.
  2: { intros Hlt. apply IH; [done| |done]. apply inv_complete_error.
       destruct (inv_sequence n (r :: pending ++ rest) (next_tick s1) Hn (inv_tick _ _ _ _ Hi1)) as [? ? ?]. split; [done..|]. by apply owns_relabel. }
  set (s3 := log_wire ch _ w _).
  assert (n < U64_MAX -> inv [n] [] (pending ++ rest) s3) as Hi3.
  { intros Hlt. apply inv_attempt; [done|by apply Hnext|lia|done|by apply inv_tick]. }
  destruct (poll_write_at _ _) as [o|].
  - assert (n < U64_MAX -> inv [] [] (pending ++ rest) (handle_publish_completion config n o (next_tick s3))) as Hi4.
    { intros Hlt. by apply inv_write_done, inv_tick, Hi3. }
    pose proof (completion_sequence n o (next_tick s3)) as Hs4. change (sequence (ac (next_tick s3))) with n in Hs4.
    destruct (phase (ac (handle_publish_completion config n o (next_tick s3)))) eqn:Ep.
    + intros Hlt. pose proof (publish_loop_sequence pending (now_at env (tick (fx s1))) n
        (handle_publish_completion config n o (next_tick s3))) as Hm.
      apply IH; [done|apply Hi4; lia|done].
    + simpl. rewrite Hs4. intros Hlt. apply inv_to_replay; [done|]. by apply Hi4.
    + destruct (completion_phase n o (next_tick s3)) as [Hx|Hx]; rewrite Hx in Ep; [|done].
      change (phase (ac s1) = PFailedPermanent) in Ep. congruence.
  - intros Hlt. set (s4 := with_ac (next_tick s3) _) in *.
    pose proof (publish_loop_sequence pending (now_at env (tick (fx s1))) n s4) as Hm.
    change (sequence (ac s4)) with n in Hm. apply IH; [done| |done]. 
    destruct (inv_tick _ _ _ _ (Hi3 ltac:(lia))) as [Hw' Hp' Ho']. split; [|done|done].
    by apply wf_pend_write.
Qed.

(** ** Expiry *)

Lemma expire_loop_actor now pending : forall retained s,
  let s' := expire_loop now pending retained s in
  (exists l, ac s' = set_replay l (ac s)) /\ wire (fx s') = wire (fx s).
Proof.
  induction pending as [|r pending IH]; intros retained s; cbn [expire_loop]; [split; [by eexists|done]|].
  destruct (_ <=? now); [destruct (rp_retried r)|];
    match goal with |- context [expire_loop _ _ ?l ?x] => destruct (IH l x) as [[k E] W] end;
    (split; [exists k; by rewrite E|by rewrite W]).
Qed.

Lemma owns_expire_loop now pend pending : forall retained s,
  owns' (pending ++ retained ++ pend) (with_ac s (set_replay [])) ->
  owns' pend (expire_loop now pending retained s).
Proof.
  induction pending as [|r pending IH]; intros retained s Ho; cbn [expire_loop].
  - apply (owns_to_replay _ _ _ _ _ _ pend retained) in Ho. exact Ho.
  - destruct (_ <=? now); [destruct (rp_retried r)|]; apply IH.
    + exact (owns_complete_error _ _ _ _ _ _ r _ _ (with_ac s (set_replay [])) Ho).
    + apply (owns_effects _ _ _ _ _ _ _ (with_ac s (set_replay []))); [done..|].
      eapply owns_move; [| |exact Ho]; [done|].
      unfold views. rewrite !fmap_app. cbn [fmap list_fmap]. change (view (rearm _ r)) with (view r).
      solve_Permutation.
    + eapply owns_pend_perm; [|exact Ho]. solve_Permutation.
Qed.

Lemma expire_replay_keeps pend s :
  wf (wired (fx s)) [] [] (ac s) -> owns' pend s ->
  let s' := expire_replay env s in
  wf (wired (fx s')) [] [] (ac s') /\ owns' pend s' /\ exists l, ac s' = set_replay l (ac s).
Proof.
  intros Hw Ho. unfold expire_replay.
  destruct (expire_loop_actor (now_at env (tick (fx s))) (replay (ac s)) [] (next_tick s)) as ((l & E) & Ewire).
  split; [|split; [|by exists l]].
  - unfold wired. rewrite E, Ewire. destruct Hw. by split.
  - apply owns_expire_loop. rewrite app_nil_l.
    apply (owns_effects _ _ _ _ _ _ _ (with_ac s (set_replay []))); try done. by apply owns_take_replay.
Qed.

Lemma inv_expire_replay pend s :
  phase (ac s) = PSuspended -> inv [] [] pend s -> inv [] [] pend (expire_replay env s).
Proof.
  intros Hp [H1 H2 H3]. destruct (expire_replay_keeps pend s H1 H3) as (Hw & Ho & l & E).
  split; [done| |done]. unfold phase_ok in *. rewrite E. simpl. by rewrite Hp in *.
Qed.

(** ** Queues, events and shutdown *)

Lemma publish_queue_sequence n pending s :
  n <= sequence (ac s) <= U64_MAX ->
  n <= sequence (ac (publish_queue sha256 config delay_strategy env pending s)) <= U64_MAX.
Proof. intros H. by apply publish_loop_sequence. Qed.

(** Emptying the replay queue into the channel. *)
Lemma inv_publish_replay pend s :
  phase (ac s) = PReady -> is_Some (channel (ac s)) ->
  wf (wired (fx s)) [] [] (ac s) -> owns' pend s ->
  sequence (ac (publish_queue sha256 config delay_strategy env (replay (ac s)) (with_ac s (set_replay [])))) < U64_MAX ->
  inv [] [] pend (publish_queue sha256 config delay_strategy env (replay (ac s)) (with_ac s (set_replay []))).
Proof.
  intros Hp Hc Hw Ho Hlt. apply inv_publish_loop; [done| |done]. apply inv_tick.
  split; [by destruct Hw; split| |by apply owns_take_replay]. unfold phase_ok. simpl. by rewrite Hp.
Qed.

Lemma flush_replay_sequence n s :
  n <= sequence (ac s) <= U64_MAX ->
  n <= sequence (ac (flush_replay sha256 config delay_strategy env s)) <= U64_MAX.
Proof.
  intros H. apply publish_queue_sequence. simpl. unfold expire_replay.
  destruct (expire_loop_actor (now_at env (tick (fx s))) (replay (ac s)) [] (next_tick s)) as ((l & E) & _).
  by rewrite E.
Qed.

Lemma inv_flush_replay pend s :
  phase (ac s) = PReady -> is_Some (channel (ac s)) ->
  wf (wired (fx s)) [] [] (ac s) -> owns' pend s ->
  sequence (ac (flush_replay sha256 config delay_strategy env s)) < U64_MAX ->
  inv [] [] pend (flush_replay sha256 config delay_strategy env s).
Proof.
  intros Hp Hc Hw Ho. unfold flush_replay.
  destruct (expire_replay_keeps pend s Hw Ho) as (Hw' & Ho' & l & E).
  apply inv_publish_replay; [..|done|done]; by rewrite E.
Qed.

Lemma accept_publish_sequence n l s :
  n <= sequence (ac s) <= U64_MAX ->
  n <= sequence (ac (accept_publish sha256 config delay_strategy env l s)) <= U64_MAX.
Proof.
  intros H. unfold accept_publish. destruct (phase (ac s)); [by apply publish_queue_sequence|done|].
  by rewrite complete_all_ac.
Qed.

Lemma inv_accept_publish l pend s :
  inv [] [] (l ++ pend) s ->
  sequence (ac (accept_publish sha256 config delay_strategy env l s)) < U64_MAX ->
  inv [] [] pend (accept_publish sha256 config delay_strategy env l s).
Proof.
  intros Hi. unfold accept_publish. destruct (phase (ac s)) eqn:Hp; intros Hlt.
  - apply inv_publish_loop; [done| |done]. by apply inv_tick.
  - by apply inv_to_replay.
  - by apply inv_complete_all.
Qed.

Lemma event_sequence n ev s :
  n <= sequence (ac s) <= U64_MAX ->
  n <= sequence (ac (handle_connection_event sha256 config delay_strategy env ev s).2) <= U64_MAX.
Proof.
  intros H. destruct ev as [g|g ch restored|g error]; cbn [handle_connection_event snd].
  - done.
  - destruct (negb restored); [done|]. destruct (_ <? _); [done|].
    destruct (enables_confirms config); [destruct (enable_confirms_at _ _); [|done]|];
      by apply flush_replay_sequence.
  - simpl. by rewrite complete_all_ac.
Qed.

Lemma inv_event ev pend s :
  inv [] [] pend s ->
  sequence (ac (handle_connection_event sha256 config delay_strategy env ev s).2) < U64_MAX ->
  inv [] [] pend (handle_connection_event sha256 config delay_strategy env ev s).2.
Proof.
  intros Hi. destruct ev as [g|g ch restored|g error]; cbn [handle_connection_event snd].
  - intros _. destruct Hi as [Hw _ Ho]. apply inv_suspend; [by destruct Hw|done].
  - destruct (negb restored); [done|]. destruct (_ <? _); [done|].
    destruct (enables_confirms config); [destruct (enable_confirms_at _ _)|]; cbn [map_err snd].
    2: { intros _. by apply inv_tick. }
    1: apply inv_tick in Hi.
    all: destruct Hi as [Hw Hp Ho]; apply inv_flush_replay; [done..| |done]; by destruct Hw; split.
  - intros _. destruct Hi as [Hw _ Ho]. split.
    + simpl. rewrite complete_all_ac. apply wf_empty. by destruct Hw.
    + done.
    + match goal with |- owns' _ (with_ac (fail_all ?e ?x) _) =>
        apply (owns_move _ _ _ _ _ _ pend pend (fail_all e x)); [done..|]; by apply owns_fail_all end.
Qed.

Lemma resolve_confirmation_sequence seq g c s :
  sequence (ac (resolve_confirmation seq g c s)) = sequence (ac s).
Proof. unfold resolve_confirmation. by repeat split_match. Qed.

(** [confirmations.next()] and [publish_in_flight.next()] only yield futures
    of their sets. *)
Definition yielded (e : QuiesceEvent) (a : Actor) : Prop :=
  match e with
  | QConfirmation seq g _ => (seq, g) ∈ confirmations a
  | QWrite seq _ => seq ∈ publish_in_flight a
  end.

#[global] Instance yielded_dec e a : Decision (yielded e a).
Proof. destruct e; simpl; apply _. Defined.

Lemma quiesce_event_sequence e s : sequence (ac (run_quiesce_event config e s)) = sequence (ac s).
Proof.
  destruct e; simpl; [by rewrite resolve_confirmation_sequence|by rewrite completion_sequence].
Qed.

(** An event of a future that is not pending changes nothing. *)
Lemma quiesce_event_absent e W s :
  wf W [] [] (ac s) -> ~ yielded e (ac s) -> run_quiesce_event config e s = s.
Proof.
  intros [_ _ _ _ H5 H6] He. rewrite app_nil_r in H5, H6. destruct s as [[] fx].
  destruct e as [seq g c|seq o]; simpl in *.
  - unfold take_confirmation, remove_confirmation, with_ac, set_ledger; simpl.
    rewrite filter_all by (apply Forall_forall; by intros x Hx ->).
    unfold resolve_confirmation; simpl. rewrite H6, ledger_tags_elem in He.
    destruct (_ !! seq) as [f|] eqn:Ef; [|done].
    destruct (if_generation f =? g) eqn:Eg; [|done]. zbool. destruct He. eauto.
  - unfold take_write, with_ac, set_in_flight; simpl.
    rewrite filter_all by (apply Forall_forall; by intros x Hx ->).
    unfold handle_publish_completion; simpl. rewrite H5, keys_elem in He.
    destruct (_ !! seq) eqn:Ef; [|done]. destruct He. eauto.
Qed.

Lemma inv_quiesce_event e pend s :
  inv [] [] pend s -> inv [] [] pend (run_quiesce_event config e s).
Proof.
  intros Hi. destruct (decide (yielded e (ac s))) as [He|He].
  - destruct Hi as [Hw Hp Ho]. destruct e as [seq g c|seq o]; simpl in *.
    + apply inv_confirmation_done. split; [by apply wf_take_confirmation|done..].
    + apply inv_write_done. split; [by apply wf_take_write|done..].
  - by rewrite (quiesce_event_absent e _ s (inv_wf _ _ _ _ Hi) He).
Qed.

Lemma inv_quiesce_loop events : forall pend s,
  inv [] [] pend s -> inv [] [] pend (quiesce_loop config events s).
Proof.
  induction events as [|e events IH]; intros pend s Hi; [done|]. cbn [quiesce_loop].
  destruct (phase (ac s)); [|done..]. destruct (has_pending_publications (ac s)); [|done].
  by apply IH, inv_quiesce_event.
Qed.

Lemma quiesce_loop_sequence events : forall s,
  sequence (ac (quiesce_loop config events s)) = sequence (ac s).
Proof.
  induction events as [|e events IH]; intros s; [done|]. cbn [quiesce_loop].
  destruct (phase (ac s)); [|done..]. destruct (has_pending_publications (ac s)); [|done].
  by rewrite IH, quiesce_event_sequence.
Qed.

Lemma quiesce_and_close_sequence n events s :
  n <= sequence (ac s) <= U64_MAX ->
  n <= sequence (ac (quiesce_and_close sha256 config delay_strategy env events s)) <= U64_MAX.
Proof.
  intros H. unfold quiesce_and_close. cbn zeta. cbn [with_ac ac set_connection sequence fail_all].
  rewrite complete_all_ac. destruct (phase (ac s)); [|done..].
  rewrite quiesce_loop_sequence. by apply publish_queue_sequence.
Qed.

(** After [quiesce_and_close] nothing is held. *)
Lemma quiesce_and_close_empty events s :
  held (ac (quiesce_and_close sha256 config delay_strategy env events s)) = [].
Proof.
  unfold quiesce_and_close, fail_all, held, publishing_values, ledger_values. simpl.
  by rewrite !map_to_list_empty.
Qed.

Lemma owns_quiesce_and_close events pend s :
  inv [] [] pend s ->
  sequence (ac (quiesce_and_close sha256 config delay_strategy env events s)) < U64_MAX ->
  owns' pend (quiesce_and_close sha256 config delay_strategy env events s).
Proof.
  intros Hi. unfold quiesce_and_close. cbn zeta. cbn [with_ac ac set_connection sequence fail_all].
  rewrite complete_all_ac. intros Hlt.
  match goal with |- context [match phase (ac s) with PReady => ?x | _ => _ end] =>
    assert (inv [] [] pend (match phase (ac s) with PReady => x | _ => s end)) as Hq end.
  { destruct (phase (ac s)) eqn:Hp; [|done..]. apply inv_quiesce_loop.
    apply inv_tick in Hi. destruct Hi as [Hw Hph Ho]. apply inv_publish_replay; [done| |done..|].
    - unfold phase_ok in Hph. simpl in *. rewrite Hp in Hph. by destruct Hph.
    - rewrite quiesce_loop_sequence in Hlt. done. }
  match goal with |- owns' _ (with_ac (fail_all ?e ?x) _) =>
    apply (owns_move _ _ _ _ _ _ pend pend (fail_all e x)); [done..|] end.
  apply owns_fail_all. by destruct Hq.
Qed.

End Preservation.

End PublisherInv.
