(* ===== verification/PublisherSystem.v ===== *)
(** * The publisher as a system of handle and actor

    Models the handle side and the run loop of [publisher/actor.rs]:
    [PublisherHandle::try_publish], [publish_blind], [connection_event] and [close], the
    bounded command queue, [run_actor] with its batching of queued publish
    commands, and what dropping the queue at exit does to its commands. One
    [Label] is one atomic step: a call of the handle, or one iteration of the
    select loop. The theorems hold in every reachable state, whatever the
    transport answers and in whatever order the steps come. Of the blind publications,
    whose pump is in [PublishPump], this file has what they share with the actor: the byte
    budget and the metrics. *)

From S2P Require Import Prelude Transport Publication DelayTopology DelayRouting ByteBudget.
From S2P Require Import Publisher PublisherInv.
Import Transport Publication DelayTopology Publisher PublisherInv.
Local Open Scope Z_scope.
Local Open Scope rabbit_scope.

Module PublisherSystem.

(** ** State *)

Inductive Command :=
| CmdPublish (retained : RetainedPublish)
| CmdConnectionEvent (event : PublisherConnectionEvent) (completed : nat)
| CmdClose (completed : nat).

Record Sys := mkSys {
  st : St;
  commands : list Command;
  alive : bool;                                   (* the receiver exists *)
  accepted : list Identity;                       (* what [try_publish] took, in order *)
  replies : list (nat * result unit PublishError);  (* answers to events and closes *)
  publish_total : Z;
  backpressure_total : Z;
  blind : list Z;                                 (* the budget guards of blind publications *)
  blind_calls : nat                               (* [publish_blind] calls that await the pump *)
}.

Definition queued (cs : list Command) : list RetainedPublish :=
  omap (fun c => match c with CmdPublish r => Some r | _ => None end) cs.

Inductive Label :=
| LTryPublish (request : PublishRequest)
| LPublishBlind (request : PublishRequest)
| LBlindSent                               (* the pump took the publication of a call *)
| LBlindRefused (i : nat)                  (* it did not: the pump is closed, or the call was dropped *)
| LBlindLeft (i : nat)                     (* a blind publication leaves the pump *)
| LConnectionEvent (event : PublisherConnectionEvent) (caller : nat)
| LClose (caller : nat)
| LRecv (quiesce : list QuiesceEvent)     (* what completes during a closing quiescence *)
| LHandlesDropped
| LDeadline
| LConfirmation (seq g : Z) (r : ConfirmationResult)
| LWrite (seq : Z) (o : WireWriteOutcome).

Section System.
Variable sha256 : string -> string.
Variable config : PublisherConfig.
Variable delay_strategy : option DelayStrategy.
Variable env : Env.

Definition capacity : Z := Z.max 1 (buffer_capacity config).

(** ** The handle *)

Definition set_resources (p b : Z) (s : St) : St :=
  mkSt (ac s)
    (mkEffects (resolved (fx s)) p b (wire (fx s)) (receipts (fx s)) (retries_total (fx s))
       (returns_total (fx s)) (confirmations_total (fx s)) (tick (fx s))).

Definition set_st (x : St) (s : Sys) : Sys :=
  mkSys x (commands s) (alive s) (accepted s) (replies s) (publish_total s) (backpressure_total s) (blind s) (blind_calls s).

Definition record_backpressure (s : Sys) : Sys :=
  mkSys (st s) (commands s) (alive s) (accepted s) (replies s) (publish_total s)
    (backpressure_total s + 1) (blind s) (blind_calls s).

(** [Semaphore::try_acquire_owned], and dropping the permit. *)
Definition try_acquire (p : Z) : option Z := if 0 <? p then Some (p - 1) else None.

Definition payload_bytes (request : PublishRequest) : Z := payload_len (r_payload request).

Definition try_publish (request : PublishRequest) (s : Sys) : result nat PublishError * Sys :=
  let bytes := payload_bytes request in
  let e := fx (st s) in
  match ByteBudget.try_reserve (max_buffered_bytes config) (budget e) bytes with
  | None => (Err (pe_new EBackpressure "publisher byte budget is exhausted"), record_backpressure s)
  | Some reserved =>
      match try_acquire (permits e) with
      | None =>
          let s := set_st (set_resources (permits e) (ByteBudget.release reserved bytes) (st s)) s in
          (Err (pe_new EBackpressure "publisher global capacity is exhausted"), record_backpressure s)
      | Some remaining =>
          let waiter := length (accepted s) in
          let now := now_at env (tick e) in
          let retained :=
            mkRetained request waiter now 0 bytes (Z.max 0 (r_deadline request - now)) false in
          let x := next_tick (st s) in
          let dropped := set_resources (remaining + 1) (ByteBudget.release reserved bytes) x in
          if negb (alive s) then (Err (pe_new EClosed "publisher actor is closed"), set_st dropped s)
          else if capacity <=? Z.of_nat (length (commands s)) then
            (Err (pe_new EBackpressure "publisher command buffer is full"),
             record_backpressure (set_st dropped s))
          else
            (Ok waiter,
             mkSys (set_resources remaining reserved x) (commands s ++ [CmdPublish retained]) true
               (accepted s ++ [identity_of waiter request]) (replies s) (publish_total s + 1)
               (backpressure_total s) (blind s) (blind_calls s))
      end
  end.

(** [publish_blind] up to its hand-off to the pump; without a pump it is [try_publish]. The
    guard of the reservation travels with the publication. *)
Definition publish_blind (request : PublishRequest) (s : Sys) : Sys :=
  match safety config with
  | Blind =>
      let e := fx (st s) in
      let bytes := payload_bytes request in
      match ByteBudget.try_reserve (max_buffered_bytes config) (budget e) bytes with
      | None => record_backpressure s
      | Some reserved =>
          mkSys (set_resources (permits e) reserved (st s)) (commands s) (alive s) (accepted s) (replies s)
            (publish_total s) (backpressure_total s) (blind s ++ [bytes]) (S (blind_calls s))
      end
  | _ => (try_publish request s).2
  end.

(** The guard of a blind publication is dropped. *)
Definition drop_blind (i : nat) (calls : nat) (s : Sys) : option Sys :=
  match blind s !! i with
  | Some bytes =>
      let e := fx (st s) in
      Some (mkSys (set_resources (permits e) (ByteBudget.release (budget e) bytes) (st s)) (commands s) (alive s)
              (accepted s) (replies s) (publish_total s) (backpressure_total s) (delete i (blind s)) calls)
  | None => None
  end.

(** The end of a [publish_blind] call whose publication the pump took. *)
Definition blind_sent (s : Sys) : option Sys :=
  match blind_calls s with
  | S calls => Some (mkSys (st s) (commands s) (alive s) (accepted s) (replies s) (publish_total s + 1)
                       (backpressure_total s) (blind s) calls)
  | O => None
  end.

(** [commands.send(command).await]: waits for room, fails when the receiver
    is gone. *)
Definition send_command (c : Command) (caller : nat) (s : Sys) : option Sys :=
  if negb (alive s) then
    Some (mkSys (st s) (commands s) (alive s) (accepted s)
            (replies s ++ [(caller, Err (pe_new EClosed "publisher actor is closed"))])
            (publish_total s) (backpressure_total s) (blind s) (blind_calls s))
  else if capacity <=? Z.of_nat (length (commands s)) then None
  else Some (mkSys (st s) (commands s ++ [c]) true (accepted s) (replies s) (publish_total s)
               (backpressure_total s) (blind s) (blind_calls s)).

(** ** The actor task *)

(** [run_actor] up to its loop. *)
Definition actor_start (initial_channel : nat) (e : Effects) : St :=
  let a := actor_new initial_channel in
  if enables_confirms config then
    match enable_confirms_at env (tick e) with
    | Ok _ => next_tick (mkSt a e)
    | Err error =>
        next_tick (mkSt (set_connection PFailedPermanent (generation a) (channel a)
                           (Some (from_transport error)) a) e)
    end
  else mkSt a e.

(** [spawn_inner] and the start of the task. *)
Definition spawn (initial_channel : nat) : Sys :=
  mkSys (actor_start initial_channel (mkEffects [] capacity 0 [] [] 0 0 0 0)) [] true [] [] 0 0 [] 0.

(** The task ends: the receiver is dropped with the commands still queued.
    Their publications are dropped, their waiters see the channel close. *)
Definition closed_waiter : PublishError :=
  pe_new EClosed "publisher actor closed before resolving the command".

Definition dropped_reply (c : Command) : option (nat * result unit PublishError) :=
  match c with
  | CmdPublish _ => None
  | CmdConnectionEvent _ caller =>
      Some (caller, Err (pe_new EClosed "publisher actor stopped while handling a connection event"))
  | CmdClose caller => Some (caller, Err (pe_new EClosed "publisher actor stopped during shutdown"))
  end.

Definition exit (s : Sys) : Sys :=
  mkSys (complete_all (queued (commands s)) closed_waiter (st s)) [] false (accepted s)
    (replies s ++ omap dropped_reply (commands s)) (publish_total s) (backpressure_total s) (blind s) (blind_calls s).

Definition reply (caller : nat) (r : result unit PublishError) (s : Sys) : Sys :=
  mkSys (st s) (commands s) (alive s) (accepted s) (replies s ++ [(caller, r)]) (publish_total s)
    (backpressure_total s) (blind s) (blind_calls s).

Definition set_commands (cs : list Command) (s : Sys) : Sys :=
  mkSys (st s) cs (alive s) (accepted s) (replies s) (publish_total s) (backpressure_total s) (blind s) (blind_calls s).

Definition map_st (f : St -> St) (s : Sys) : Sys := set_st (f (st s)) s.

Definition run_command (quiesce : list QuiesceEvent) (c : Command) (s : Sys) : Sys :=
  match c with
  | CmdPublish r => map_st (accept_publish sha256 config delay_strategy env [r]) s
  | CmdConnectionEvent event caller =>
      let '(res, x) := handle_connection_event sha256 config delay_strategy env event (st s) in
      reply caller res (set_st x s)
  | CmdClose caller =>
      exit (reply caller (Ok tt) (map_st (quiesce_and_close sha256 config delay_strategy env quiesce) s))
  end.

(** The publish commands at the head of the queue. *)
Fixpoint take_publishes (cs : list Command) : list RetainedPublish * list Command :=
  match cs with
  | CmdPublish r :: cs' => let '(ps, rest) := take_publishes cs' in (r :: ps, rest)
  | _ => ([], cs)
  end.

(** One received command, coalesced with the publish commands behind it; the
    first other command behind them is deferred, not dropped. *)
Definition recv (quiesce : list QuiesceEvent) (s : Sys) : option Sys :=
  match commands s with
  | [] => None
  | CmdPublish r :: cs =>
      let '(ps, rest) := take_publishes cs in
      let s := map_st (accept_publish sha256 config delay_strategy env (r :: ps)) s in
      Some (match rest with
            | [] => set_commands [] s
            | c :: rest => run_command quiesce c (set_commands rest s)
            end)
  | c :: cs => Some (run_command quiesce c (set_commands cs s))
  end.

Definition handles_dropped (s : Sys) : option Sys :=
  match commands s with
  | [] => Some (exit (map_st (fail_all (pe_new EClosed "all publisher handles were dropped")) s))
  | _ => None
  end.

Definition deadline_elapsed (s : Sys) : option Sys :=
  match next_deadline (ac (st s)) with
  | Some d =>
      if d <=? now_at env (tick (fx (st s))) then
        match phase (ac (st s)) with
        | PSuspended => Some (map_st (expire_replay env) s)
        | _ => Some s
        end
      else None
  | None => None
  end.

Definition sys_step (l : Label) (s : Sys) : option Sys :=
  match l with
  | LTryPublish request => Some (try_publish request s).2
  | LPublishBlind request => Some (publish_blind request s)
  | LBlindSent => blind_sent s
  | LBlindRefused i => match blind_calls s with S calls => drop_blind i calls s | O => None end
  | LBlindLeft i => drop_blind i (blind_calls s) s
  | LConnectionEvent event caller => send_command (CmdConnectionEvent event caller) caller s
  | LClose caller => send_command (CmdClose caller) caller s
  | LRecv quiesce => if alive s then recv quiesce s else None
  | LHandlesDropped => if alive s then handles_dropped s else None
  | LDeadline => if alive s then deadline_elapsed s else None
  | LConfirmation seq g r =>
      if alive s && bool_decide ((seq, g) ∈ confirmations (ac (st s)))
      then Some (map_st (run_quiesce_event config (QConfirmation seq g r)) s) else None
  | LWrite seq o =>
      if alive s && bool_decide (seq ∈ publish_in_flight (ac (st s)))
      then Some (map_st (run_quiesce_event config (QWrite seq o)) s) else None
  end.

Inductive reach : Sys -> Prop :=
| reach_spawn ch : reach (spawn ch)
| reach_step l s s' : reach s -> sys_step l s = Some s' -> reach s'.

Fixpoint run (ls : list Label) (s : Sys) : option Sys :=
  match ls with
  | [] => Some s
  | l :: ls' => match sys_step l s with Some s' => run ls' s' | None => None end
  end.

Lemma reach_run ls : forall s s', reach s -> run ls s = Some s' -> reach s'.
Proof.
  induction ls as [|l ls IH]; intros s s' Hr; simpl; [by intros [= <-]|].
  destruct (sys_step l s) as [s1|] eqn:E; [|done]. apply IH. by eapply reach_step.
Qed.

(** ** Sequences only grow *)

Lemma run_command_sequence n q c s :
  n <= sequence (ac (st s)) <= U64_MAX ->
  n <= sequence (ac (st (run_command q c s))) <= U64_MAX.
Proof.
  intros H. destruct c as [r|ev caller|caller]; cbn [run_command].
  - by apply accept_publish_sequence.
  - destruct (handle_connection_event _ _ _ _ _ _) as [res x] eqn:E. simpl.
    pose proof (event_sequence sha256 config delay_strategy env n ev (st s) H) as Hs. by rewrite E in Hs.
  - simpl. rewrite complete_all_ac. by apply quiesce_and_close_sequence.
Qed.

Lemma recv_sequence n q s s' :
  n <= sequence (ac (st s)) <= U64_MAX -> recv q s = Some s' ->
  n <= sequence (ac (st s')) <= U64_MAX.
Proof.
  intros H. unfold recv. destruct (commands s) as [|[r|ev caller|caller] cs]; [done|..].
  - destruct (take_publishes cs) as [ps rest].
    assert (n <= sequence (ac (accept_publish sha256 config delay_strategy env (r :: ps) (st s))) <= U64_MAX)
      as Ha by by apply accept_publish_sequence.
    intros [= <-]. destruct rest as [|c rest]; [done|]. by apply run_command_sequence.
  - intros E%(inj Some). rewrite <- E. by apply run_command_sequence.
  - intros E%(inj Some). rewrite <- E. by apply run_command_sequence.
Qed.

Lemma try_publish_actor request s : ac (st (try_publish request s).2) = ac (st s).
Proof. unfold try_publish. by repeat split_match. Qed.

Lemma publish_blind_actor request s : ac (st (publish_blind request s)) = ac (st s).
Proof. unfold publish_blind. destruct (safety config); try apply try_publish_actor. by split_match. Qed.

Lemma drop_blind_actor i calls s s' : drop_blind i calls s = Some s' -> ac (st s') = ac (st s).
Proof. unfold drop_blind. destruct (_ !! i); [|done]. by intros [= <-]. Qed.

(** The blind steps leave the actor alone. *)
Lemma blind_step_actor l s s' :
  sys_step l s = Some s' ->
  match l with LPublishBlind _ | LBlindSent | LBlindRefused _ | LBlindLeft _ => True | _ => False end ->
  ac (st s') = ac (st s).
Proof.
  intros E Hl. revert E. destruct l; try done; cbn [sys_step].
  - intros [= <-]. apply publish_blind_actor.
  - unfold blind_sent. destruct (blind_calls s); [done|]. by intros [= <-].
  - destruct (blind_calls s); [done|apply drop_blind_actor].
  - apply drop_blind_actor.
Qed.

Lemma step_sequence l n s s' :
  n <= sequence (ac (st s)) <= U64_MAX -> sys_step l s = Some s' ->
  n <= sequence (ac (st s')) <= U64_MAX.
Proof.
  intros H. destruct l as [request|request| |i|i|ev caller|caller|q| | |seq g c|seq o];
    try (intros E; rewrite (blind_step_actor _ _ _ E I); done); cbn [sys_step].
  - intros [= <-]. by rewrite try_publish_actor.
  - unfold send_command. repeat split_match; try done; by intros [= <-].
  - unfold send_command. repeat split_match; try done; by intros [= <-].
  - destruct (alive s); [|done]. by apply recv_sequence.
  - destruct (alive s); [|done]. unfold handles_dropped. destruct (commands s) eqn:Ec; [|done].
    intros [= <-]. simpl. rewrite Ec. simpl. by rewrite complete_all_ac.
  - destruct (alive s); [|done]. unfold deadline_elapsed. repeat split_match; try done; intros [= <-]; [done| |done].
    simpl. unfold expire_replay.
    match goal with |- context [expire_loop ?a ?b ?c ?d] => destruct (expire_loop_actor a b c d) as ((k & E) & _) end.
    by rewrite E.
  - destruct (alive s && _)%bool; [|done]. intros [= <-]. simpl. by rewrite resolve_confirmation_sequence.
  - destruct (alive s && _)%bool; [|done]. intros [= <-]. simpl. by rewrite completion_sequence.
Qed.

Lemma reach_sequence s : reach s -> 0 <= sequence (ac (st s)) <= U64_MAX.
Proof.
  induction 1 as [ch|l s s' _ IH Hs]; [|by eapply step_sequence].
  unfold spawn, actor_start. simpl. repeat split_match; done.
Qed.

(** ** The invariant of the system *)

Definition blind_bytes (s : Sys) : Z := sumZ id (blind s).

Abbreviation inv_of s := (inv sha256 config delay_strategy (accepted s) capacity (blind_bytes s)).
Abbreviation owns_of s := (owns sha256 config delay_strategy (accepted s) capacity (blind_bytes s)).

Record sys_inv (s : Sys) : Prop := {
  si_fresh : (accepted s).*1 = seq 0 (length (accepted s));
  si_alive : alive s = true -> inv_of s [] [] (queued (commands s)) (st s);
  si_dead : alive s = false ->
    owns_of s [] (st s) /\ held (ac (st s)) = [] /\ commands s = [];
  si_blind : Forall (fun b => 0 <= b) (blind s)
}.

Hypothesis budget_bound : 0 <= max_buffered_bytes config < U64_MAX.

Lemma reserve_exact current bytes reserved :
  ByteBudget.try_reserve (max_buffered_bytes config) current bytes = Some reserved ->
  reserved = current + bytes /\ reserved <= max_buffered_bytes config.
Proof.
  unfold ByteBudget.try_reserve. destruct (_ <? _) eqn:E; [done|]. zbool. intros [= <-].
  unfold sat_add in *. lia.
Qed.

Lemma reserve_release current bytes reserved :
  0 <= current ->
  ByteBudget.try_reserve (max_buffered_bytes config) current bytes = Some reserved ->
  ByteBudget.release reserved bytes = current.
Proof. intros H0 [-> _]%reserve_exact. unfold ByteBudget.release, sat_sub. lia. Qed.

Lemma payload_bytes_nonneg request : 0 <= payload_bytes request.
Proof.
  unfold payload_bytes, payload_len. destruct (try_from _ _) eqn:E; simpl; [|done].
  apply try_from_Some in E. lia.
Qed.

(** Accepting one more publication. *)
Lemma acct_accept acc cap bl vs e id bytes p' b' :
  0 <= bytes -> b' = budget e + bytes -> b' <= max_buffered_bytes config ->
  0 < permits e -> p' = permits e - 1 ->
  acct sha256 config delay_strategy acc cap bl vs e ->
  acct sha256 config delay_strategy (acc ++ [id]) cap bl ((id, bytes) :: vs)
    (mkEffects (resolved e) p' b' (wire e) (receipts e) (retries_total e) (returns_total e)
       (confirmations_total e) (S (tick e))).
Proof.
  intros Hb -> Hmax Hp -> [H1 H2 H3 [H0 H4] H5 H6 H7 H8]. split; simpl.
  - rewrite fmap_app. simpl. rewrite <- H1. solve_Permutation.
  - constructor; [set_solver|]. eapply Forall_impl; [exact H2|]. set_solver.
  - lia.
  - split; [done|]. rewrite sumZ_cons. simpl. lia.
  - done.
  - by constructor.
  - eapply Forall_impl; [exact H7|]. intros x (r & Hr & ?). exists r. split; [set_solver|done].
  - eapply Forall_impl; [exact H8|]. intros [w [o|]]; [|done]. intros (? & (body & Hb' & ?) & ?).
    split; [done|]. split; [|done]. exists body. split; [set_solver|done].
Qed.

Lemma sys_inv_effects s s' :
  accepted s' = accepted s -> alive s' = alive s -> commands s' = commands s -> blind s' = blind s ->
  ac (st s') = ac (st s) -> resolved (fx (st s')) = resolved (fx (st s)) ->
  permits (fx (st s')) = permits (fx (st s)) -> budget (fx (st s')) = budget (fx (st s)) ->
  wire (fx (st s')) = wire (fx (st s)) -> receipts (fx (st s')) = receipts (fx (st s)) ->
  sys_inv s -> sys_inv s'.
Proof.
  intros E1 E2 E3 E0 E4 E5 E6 E7 E8 E9 [Hf Ha Hd Hb]. unfold blind_bytes in *.
  split; unfold blind_bytes; rewrite ?E1, ?E2, ?E3, ?E4, ?E0; [done|..|done].
  - intros H. eapply inv_effects; [exact E4|done..| |by apply Ha]. by rewrite E9.
  - intros H. destruct (Hd H) as (Ho & ?). split; [|done].
    eapply owns_effects; [exact E4|done..| |done]. by rewrite E9.
Qed.

Lemma sys_inv_owns s : sys_inv s -> owns_of s (queued (commands s)) (st s).
Proof.
  intros [_ Ha Hd _]. destruct (alive s); [by destruct (Ha eq_refl)|].
  destruct (Hd eq_refl) as (Ho & _ & ->). done.
Qed.

Lemma sys_budget_nonneg s : sys_inv s -> 0 <= budget (fx (st s)).
Proof.
  intros [_ Ha Hd _].
  destruct (alive s); [destruct (Ha eq_refl) as [_ _ Ho]|destruct (Hd eq_refl) as (Ho & _)];
    destruct Ho as [_ _ _ Hb _ Hn _ _]; pose proof (sumZ_nonneg _ _ Hn); lia.
Qed.

Lemma queued_snoc cs r : queued (cs ++ [CmdPublish r]) = queued cs ++ [r].
Proof. unfold queued. by rewrite omap_app. Qed.

Lemma try_publish_inv request s : sys_inv s -> sys_inv (try_publish request s).2.
Proof.
  intros Hs. pose proof (sys_budget_nonneg s Hs) as Hb0. unfold try_publish.
  destruct (ByteBudget.try_reserve _ _ _) as [reserved|] eqn:Er; [|by apply (sys_inv_effects s)].
  pose proof (reserve_release _ _ _ Hb0 Er) as Hrel.
  destruct (try_acquire _) as [remaining|] eqn:Ep.
  2: { by apply (sys_inv_effects s). }
  unfold try_acquire in Ep. destruct (0 <? _) eqn:E0 in Ep; [|done]. injection Ep as Ep.
  assert (remaining + 1 = permits (fx (st s))) as Hback by lia.
  destruct (negb (alive s)) eqn:Eal; [by apply (sys_inv_effects s)|].
  destruct (capacity <=? _); [by apply (sys_inv_effects s)|].
  destruct Hs as [Hf Ha _ Hb]. zbool. destruct (Ha Eal) as [Hw Hp Ho].
  destruct (reserve_exact _ _ _ Er) as [Hr Hmax].
  split; cbn [snd accepted alive st commands blind]; [|intros _|done|done].
  - rewrite fmap_app, length_app, Hf, seq_app. done.
  - split; [done..|]. unfold owns, views. rewrite queued_snoc.
    pose proof (acct_accept _ _ _ _ _ (identity_of (length (accepted s)) request) _ remaining reserved
      (payload_bytes_nonneg request) Hr Hmax E0 (eq_sym Ep) Ho) as Hacc.
    eapply acct_perm; [|exact Hacc]. unfold views.
    cbn [set_resources next_tick ac]. rewrite app_assoc, (fmap_app view _ [_]). simpl.
    rewrite (Permutation_app_comm _ [_]). done.
Qed.

Lemma exit_inv s :
  (accepted s).*1 = seq 0 (length (accepted s)) ->
  Forall (fun b => 0 <= b) (blind s) ->
  owns_of s (queued (commands s)) (st s) -> held (ac (st s)) = [] -> sys_inv (exit s).
Proof.
  intros Hf Hb Ho Hh. split; [done|done| |done]. intros _. simpl. rewrite complete_all_ac.
  split; [|done]. apply owns_complete_all. by rewrite app_nil_r.
Qed.

(** [c] has just left the queue. *)
Lemma run_command_inv q c s :
  (accepted s).*1 = seq 0 (length (accepted s)) -> Forall (fun b => 0 <= b) (blind s) -> alive s = true ->
  inv_of s [] [] (queued (c :: commands s)) (st s) ->
  sequence (ac (st (run_command q c s))) < U64_MAX ->
  sys_inv (run_command q c s).
Proof.
  intros Hf Hb Ha Hi. destruct c as [r|ev caller|caller]; cbn [run_command].
  - intros Hlt. split; [done| |simpl; by rewrite Ha|done]. intros _. by apply inv_accept_publish.
  - pose proof (inv_event sha256 config delay_strategy env _ _ _ ev _ _ Hi) as He.
    destruct (handle_connection_event _ _ _ _ _ _) as [res x]. intros Hlt.
    split; [done| |simpl; by rewrite Ha|done]. intros _. by apply He.
  - cbn [exit st reply map_st set_st commands]. rewrite complete_all_ac. intros Hlt.
    apply exit_inv; [done|done| |apply quiesce_and_close_empty].
    by apply owns_quiesce_and_close.
Qed.

Lemma take_publishes_queued cs ps rest :
  take_publishes cs = (ps, rest) -> queued cs = ps ++ queued rest.
Proof.
  revert ps. induction cs as [|[r| |] cs IH]; intros ps; simpl; try by intros [= <- <-].
  destruct (take_publishes cs) as [ps' rest']. intros [= <- <-]. simpl. f_equal. by apply IH.
Qed.

Lemma recv_inv q s s' :
  sys_inv s -> alive s = true -> recv q s = Some s' -> sequence (ac (st s')) < U64_MAX -> sys_inv s'.
Proof.
  intros [Hf Hi _ Hb] Ha. specialize (Hi Ha). unfold recv.
  destruct (commands s) as [|c cs] eqn:Ec; [done|].
  destruct c as [r|ev caller|caller]; [|intros E%(inj Some); rewrite <- E; by apply run_command_inv..].
  destruct (take_publishes cs) as [ps rest] eqn:Et. apply take_publishes_queued in Et.
  assert (sequence (ac (accept_publish sha256 config delay_strategy env (r :: ps) (st s))) < U64_MAX ->
    inv_of s [] [] (queued rest) (accept_publish sha256 config delay_strategy env (r :: ps) (st s))) as Hacc.
  { apply inv_accept_publish. cbn [queued omap list_omap] in Hi. change (omap _ cs) with (queued cs) in Hi.
    by rewrite Et in Hi. }
  intros E%(inj Some) Hlt. destruct rest as [|c rest].
  - subst s'. split; [done| |simpl; by rewrite Ha|done]. intros _. by apply Hacc.
  - subst s'. apply run_command_inv; [done..| |done]. apply Hacc.
    pose proof (run_command_sequence (sequence (ac (accept_publish sha256 config delay_strategy env (r :: ps) (st s))))
      q c (set_commands rest (map_st (accept_publish sha256 config delay_strategy env (r :: ps)) s))) as Hm.
    cbn [st set_commands map_st set_st] in Hm. 
    pose proof (accept_publish_sequence sha256 config delay_strategy env 0 (r :: ps) (st s)) as Hq.
    pose proof (wf_seq _ _ _ _ (inv_wf _ _ _ _ _ _ _ _ _ _ Hi)). lia.
Qed.

Lemma map_st_inv f s :
  alive s = true -> sys_inv s ->
  (inv_of s [] [] (queued (commands s)) (st s) -> inv_of s [] [] (queued (commands s)) (f (st s))) ->
  sys_inv (map_st f s).
Proof. intros Ha [Hf Hi _ Hb] H. split; [done| |simpl; by rewrite Ha|done]. intros _. by apply H, Hi. Qed.

Lemma send_command_inv c caller s s' :
  (forall r, c <> CmdPublish r) -> send_command c caller s = Some s' -> sys_inv s -> sys_inv s'.
Proof.
  intros Hc. unfold send_command. destruct (negb (alive s)) eqn:Ea.
  - intros [= <-]. by apply sys_inv_effects.
  - destruct (_ <=? _); [done|]. intros [= <-] [Hf Hi _ Hb]. zbool. split; [done| |done|done].
    intros _. specialize (Hi Ea). simpl. unfold queued. rewrite omap_app.
    destruct c; [by edestruct Hc|..]; simpl; by rewrite app_nil_r.
Qed.

(** The bytes of the blind publications move with the counter. *)
Lemma sys_inv_blind s s' d :
  accepted s' = accepted s -> alive s' = alive s -> commands s' = commands s ->
  ac (st s') = ac (st s) -> resolved (fx (st s')) = resolved (fx (st s)) ->
  permits (fx (st s')) = permits (fx (st s)) -> wire (fx (st s')) = wire (fx (st s)) ->
  receipts (fx (st s')) = receipts (fx (st s)) ->
  budget (fx (st s')) = budget (fx (st s)) + d -> budget (fx (st s')) <= max_buffered_bytes config ->
  blind_bytes s' = blind_bytes s + d -> Forall (fun b => 0 <= b) (blind s') ->
  sys_inv s -> sys_inv s'.
Proof.
  intros E1 E2 E3 E4 E5 E6 E7 E8 Eb Hmax Ed Hb' [Hf Ha Hd Hb].
  pose proof (sumZ_nonneg id (blind s') Hb') as H0.
  assert (forall pend, owns_of s pend (st s) -> owns_of s' pend (st s')) as Ho.
  { intros pend [O1 O2 O3 [O4 O5] O6 O7 O8 O9]. unfold owns, views in *. rewrite E1, E4.
    split; rewrite ?E5, ?E6, ?E7, ?E8; try done.
    - split; [exact H0|]. rewrite Eb, Ed. lia.
    - eapply Forall_impl; [exact O9|]. intros x. unfold justified, wired. by rewrite E7, E8. }
  split; rewrite ?E1, ?E2, ?E3, ?E4; [done|..|done].
  - intros Hal. destruct (Ha Hal) as [H1 H2 H3]. rewrite E1 in Ho. split; rewrite ?E4; [|done|by apply Ho].
    unfold wired in *. by rewrite E7.
  - intros Hal. destruct (Hd Hal) as (H1 & ?). rewrite E1 in Ho. split; [by apply Ho|done].
Qed.

Lemma publish_blind_inv request s : sys_inv s -> sys_inv (publish_blind request s).
Proof.
  intros Hs. unfold publish_blind. destruct (safety config); try by apply try_publish_inv.
  destruct (ByteBudget.try_reserve _ _ _) as [reserved|] eqn:Er; [|by apply (sys_inv_effects s)].
  destruct (reserve_exact _ _ _ Er) as [Hr Hmax].
  apply (sys_inv_blind s _ (payload_bytes request)); try done; simpl.
  - unfold blind_bytes. simpl. by rewrite sumZ_app, sumZ_cons, Z.add_0_r.
  - apply Forall_app. split; [apply (si_blind s Hs)|]. repeat constructor. apply payload_bytes_nonneg.
Qed.

Lemma drop_blind_inv i calls s s' : drop_blind i calls s = Some s' -> sys_inv s -> sys_inv s'.
Proof.
  unfold drop_blind. destruct (blind s !! i) as [bytes|] eqn:Ei; [|done]. intros [= <-] Hs.
  pose proof (si_blind s Hs) as Hb.
  assert (sumZ id (blind s) = bytes + sumZ id (delete i (blind s))) as Hd.
  { etransitivity; [apply (sumZ_perm id), (delete_Permutation _ _ _ Ei)|apply sumZ_cons]. }
  assert (Forall (fun b => 0 <= b) (delete i (blind s))) as Hb'.
  { by apply Forall_delete. }
  pose proof (sumZ_nonneg id (delete i (blind s)) Hb') as H0.
  assert (blind_bytes s <= budget (fx (st s)) <= max_buffered_bytes config) as Hle.
  { destruct (sys_inv_owns s Hs) as [_ _ _ [_ H4] H5 H6 _ _]. pose proof (sumZ_nonneg _ _ H6). lia. }
  pose proof (Forall_lookup_1 _ _ _ _ Hb Ei) as Hb0. simpl in Hb0. unfold blind_bytes in Hle.
  apply (sys_inv_blind s _ (- bytes)); try done; simpl.
  - unfold ByteBudget.release, sat_sub. lia.
  - unfold ByteBudget.release, sat_sub. lia.
  - unfold blind_bytes. simpl. lia.
Qed.

Lemma blind_sent_inv s s' : blind_sent s = Some s' -> sys_inv s -> sys_inv s'.
Proof. unfold blind_sent. destruct (blind_calls s); [done|]. intros [= <-]. by apply sys_inv_effects. Qed.

Lemma step_inv l s s' :
  sys_inv s -> sys_step l s = Some s' -> sequence (ac (st s')) < U64_MAX -> sys_inv s'.
Proof.
  intros Hs. destruct l as [request|request| |i|i|ev caller|caller|q| | |seq g c|seq o]; cbn [sys_step].
  - intros [= <-] _. by apply try_publish_inv.
  - intros [= <-] _. by apply publish_blind_inv.
  - intros E _. by eapply blind_sent_inv.
  - destruct (blind_calls s); [done|]. intros E _. by eapply drop_blind_inv.
  - intros E _. by eapply drop_blind_inv.
  - intros E _. eapply send_command_inv; [|exact E|exact Hs]. done.
  - intros E _. eapply send_command_inv; [|exact E|exact Hs]. done.
  - destruct (alive s) eqn:Ea; [|done]. by apply recv_inv.
  - destruct (alive s) eqn:Ea; [|done]. unfold handles_dropped. destruct (commands s) eqn:Ec; [|done].
    intros [= <-] _. destruct Hs as [Hf Hi _ Hb]. specialize (Hi Ea). apply exit_inv; [done|done|..].
    + destruct (inv_fail_all _ _ _ _ _ _ (pe_new EClosed "all publisher handles were dropped") _ _ Hi) as [_ _ Ho].
      exact Ho.
    + unfold held, publishing_values, ledger_values; simpl. by rewrite !map_to_list_empty.
  - destruct (alive s) eqn:Ea; [|done]. unfold deadline_elapsed.
    destruct (next_deadline _); [|done]. destruct (_ <=? _); [|done].
    destruct (phase (ac (st s))) eqn:Ep; intros [= <-] _; [done| |done].
    apply map_st_inv; [done..|]. by apply inv_expire_replay.
  - destruct (alive s && _)%bool eqn:E; [|done]. zbool. intros E'%(inj Some) _. rewrite <- E'.
    apply map_st_inv; [done..|]. apply inv_quiesce_event.
  - destruct (alive s && _)%bool eqn:E; [|done]. zbool. intros E'%(inj Some) _. rewrite <- E'.
    apply map_st_inv; [done..|]. apply inv_quiesce_event.
Qed.

Lemma spawn_inv ch : sys_inv (spawn ch).
Proof.
  split; [done| |done|done]. intros _. unfold spawn, actor_start. cbn [blind_bytes blind sumZ foldr st commands accepted queued omap list_omap].
  assert (forall p e, (p = PReady \/ p = PFailedPermanent) ->
    inv sha256 config delay_strategy [] capacity 0 [] [] []
      (mkSt (set_connection p 1 (Some ch) e (actor_new ch)) (mkEffects [] capacity 0 [] [] 0 0 0 0))) as H.
  { intros p e Hp. split; [by apply wf_empty| |].
    - unfold phase_ok. simpl. by destruct Hp as [-> | ->].
    - unfold owns, views, held, publishing_values, ledger_values. simpl. rewrite !map_to_list_empty. simpl.
      split; simpl; try done; unfold capacity; lia. }
  destruct (enables_confirms config); [|by apply (H PReady None); left].
  destruct (enable_confirms_at _ _); apply inv_tick.
  - by apply (H PReady None); left.
  - by apply H; right.
Qed.

Lemma reach_inv s : reach s -> sequence (ac (st s)) < U64_MAX -> sys_inv s.
Proof.
  induction 1 as [ch|l s s' Hr IH Hs]; intros Hlt; [apply spawn_inv|].
  eapply step_inv; [|done|done]. apply IH. pose proof (reach_sequence s Hr) as Hb.
  assert (sequence (ac (st s)) <= sequence (ac (st s')) <= U64_MAX) by (eapply step_sequence; [|done]; lia). lia.
Qed.

(** ** Theorems *)

Definition owned (s : Sys) : list RetainedPublish := held (ac (st s)) ++ queued (commands s).

Lemma views_owned s : (views (queued (commands s)) (st s)).*1.*1 = rp_waiter <$> owned s.
Proof. unfold views, owned. by rewrite <- !list_fmap_compose. Qed.

(** C6. No publication is lost or answered twice: in every reachable state
    the waiters of what the publisher still owns (queued, on the wire, awaiting
    confirmation or waiting for replay) and the waiters already answered are
    together exactly the accepted ones, each once; and what is owned is still
    the accepted publication. *)
Theorem publication_conserved s :
  reach s -> sequence (ac (st s)) < U64_MAX ->
  (rp_waiter <$> owned s) ++ (resolved (fx (st s))).*1 ≡ₚ seq 0 (length (accepted s)) /\
  Forall (fun r => identity_of (rp_waiter r) (rp_request r) ∈ accepted s) (owned s).
Proof.
  intros Hr Hlt. pose proof (reach_inv s Hr Hlt) as Hi. destruct (sys_inv_owns s Hi) as [H1 H2 _ _ _ _ _ _].
  rewrite views_owned, (si_fresh s Hi) in H1. split; [done|]. unfold views in H2.
  by apply Forall_fmap in H2.
Qed.

(** Without a pump there are no blind publications. *)
Lemma try_publish_blind request s : blind (try_publish request s).2 = blind s.
Proof. unfold try_publish. by repeat split_match. Qed.

Lemma run_command_blind q c s : blind (run_command q c s) = blind s.
Proof. destruct c; cbn [run_command]; [done| |done]. by destruct (handle_connection_event _ _ _ _ _ _). Qed.

Lemma recv_blind q s s' : recv q s = Some s' -> blind s' = blind s.
Proof.
  unfold recv. destruct (commands s) as [|c cs]; [done|].
  destruct c; [|intros E%(inj Some); rewrite <- E; by rewrite run_command_blind..].
  destruct (take_publishes cs) as [ps [|c rest]]; intros E%(inj Some); rewrite <- E; [done|].
  by rewrite run_command_blind.
Qed.

Lemma blind_only_blind s : reach s -> safety config <> Blind -> blind s = [].
Proof.
  induction 1 as [ch|l s s' _ IH E]; intros Hs; [done|]. specialize (IH Hs). rewrite <- IH.
  destruct l; cbn [sys_step] in E; revert E; unfold send_command, handles_dropped, deadline_elapsed, blind_sent.
  1: intros [= <-]; apply try_publish_blind.
  1: intros [= <-]; unfold publish_blind; destruct (safety config); try apply try_publish_blind; done.
  2,3: unfold drop_blind; rewrite IH; by repeat split_match.
  all: repeat split_match; try done; try (apply recv_blind); by intros [= <-].
Qed.

(** C30. Permits and bytes are exact: free permits and owned publications
    make up the configured capacity; the byte counter is the payload total of
    what the actor owns and of the blind publications whose guard is alive
    (none unless the publisher is a blind one), and it never exceeds the
    configured maximum. *)
Theorem resources_exact s :
  reach s -> sequence (ac (st s)) < U64_MAX ->
  0 <= permits (fx (st s)) /\
  permits (fx (st s)) + Z.of_nat (length (owned s)) = capacity /\
  budget (fx (st s)) = sumZ id (blind s) + sumZ rp_bytes (owned s) /\
  budget (fx (st s)) <= max_buffered_bytes config /\
  (safety config <> Blind -> blind s = []).
Proof.
  intros Hr Hlt. destruct (sys_inv_owns s (reach_inv s Hr Hlt)) as [_ _ [H3 H4] [_ H5] H6 _ _ _].
  unfold views in H4. rewrite length_fmap in H4. split; [done|]. split; [done|]. split; [|split; [done|]].
  - rewrite H5. unfold views, owned. rewrite sumZ_fmap. done.
  - by apply blind_only_blind.
Qed.

(** When the actor has stopped, whatever stopped it, nothing is left
    behind: every accepted publication has been answered, all permits are
    back, and all bytes but those of the blind publications still in the pump. *)
Theorem stopped_publisher_is_clean s :
  reach s -> sequence (ac (st s)) < U64_MAX -> alive s = false ->
  (resolved (fx (st s))).*1 ≡ₚ seq 0 (length (accepted s)) /\ owned s = [] /\
  permits (fx (st s)) = capacity /\ budget (fx (st s)) = blind_bytes s.
Proof.
  intros Hr Hlt Ha. pose proof (reach_inv s Hr Hlt) as Hi.
  destruct (si_dead s Hi Ha) as ([H1 _ [_ H3] [_ H4] _ _ _ _] & Hh & Hc).
  assert (owned s = []) as Eo by (unfold owned; by rewrite Hh, Hc).
  unfold views in *. rewrite Hh in *. simpl in *. rewrite (si_fresh s Hi) in H1.
  split; [done|]. split; [done|]. split; [lia|]. rewrite H4. apply Z.add_0_r.
Qed.

(** C26. A running publisher never strands a publication: while it is ready
    nothing waits for replay, each publication on the wire has a pending write
    and each one in the ledger has a pending confirmation of its generation;
    while it is suspended, everything waits for replay. *)
Theorem held_publications_progress s :
  reach s -> sequence (ac (st s)) < U64_MAX -> alive s = true ->
  let a := ac (st s) in
  publish_in_flight a ≡ₚ (map_to_list (publishing a)).*1 /\
  confirmations a ≡ₚ (fun x => (x.1, if_generation x.2)) <$> map_to_list (ledger a) /\
  match phase a with
  | PReady => replay a = [] /\ is_Some (channel a)
  | PSuspended => publishing a = ∅ /\ ledger a = ∅
  | PFailedPermanent => held a = []
  end.
Proof.
  intros Hr Hlt Ha. destruct (si_alive s (reach_inv s Hr Hlt) Ha) as [[_ _ _ _ H5 H6] Hp _].
  cbn zeta. rewrite app_nil_r in H5, H6. split; [done|]. split; [exact H6|].
  unfold phase_ok in Hp. destruct (phase _); [done|by destruct Hp as (_ & ?)|].
  destruct Hp as (E1 & E2 & E3). unfold held, publishing_values, ledger_values.
  by rewrite E1, E2, E3, !map_to_list_empty.
Qed.

Lemma route_deadline_irrelevant r r' m w :
  identity_of w r = identity_of w r' ->
  DelayRouting.route_transport_request sha256 r delay_strategy m =
  DelayRouting.route_transport_request sha256 r' delay_strategy m.
Proof. destruct r, r'. intros [= -> -> ->]. done. Qed.

Lemma accepted_unique s w b b' :
  sys_inv s -> (w, b) ∈ accepted s -> (w, b') ∈ accepted s -> b = b'.
Proof.
  intros Hi. apply NoDup_fst_functional. rewrite (si_fresh s Hi). apply NoDup_seq.
Qed.


(** C7. No outcome is made up: a publication reported as published was
    written to a channel, is reported under its own message id and, when
    confirms are enabled, was acknowledged by the broker without a return
    (confirmed) or returned with exactly the reported reply (returned). *)
Theorem outcomes_are_justified s w o :
  reach s -> sequence (ac (st s)) < U64_MAX ->
  (w, Ok o) ∈ resolved (fx (st s)) ->
  (exists ch q, (ch, w, q) ∈ wire (fx (st s))) /\
  (exists body, (w, body) ∈ accepted s /\ outcome_id o = mp_message_id body.2) /\
  (enables_confirms config = true ->
   exists c, (w, CCompleted (Ok c)) ∈ receipts (fx (st s)) /\ verdict c o).
Proof.
  intros Hr Hlt Hin. destruct (sys_inv_owns s (reach_inv s Hr Hlt)) as [_ _ _ _ _ _ _ Hj].
  rewrite Forall_forall in Hj. exact (Hj _ Hin).
Qed.

(** Suspension consolidates everything the actor holds into one replay
    queue ordered by wire attempt, the publications of one attempt number (in
    particular the never attempted ones) keeping their queue order; the order
    in which the hash maps are iterated does not matter. *)
Theorem suspend_orders_replay s g :
  reach s -> sequence (ac (st s)) < U64_MAX -> alive s = true ->
  let a := ac (st s) in
  let q := replay (ac (suspend g (st s))) in
  q ≡ₚ held a /\
  StronglySorted (fun x y => rp_sequence x <= rp_sequence y) q /\
  (forall n, filter (fun r => rp_sequence r = n) q = filter (fun r => rp_sequence r = n) (held a)) /\
  (forall ps ls, ps ≡ₚ publishing_values a -> ls ≡ₚ ledger_values a ->
     q = sort_by_key rp_sequence (replay a ++ ps ++ ls)).
Proof.
  intros Hr Hlt Ha. destruct (si_alive s (reach_inv s Hr Hlt) Ha) as [Hw _ _]. cbn zeta.
  cbn [suspend with_ac ac replay]. split; [apply sort_by_key_perm|].
  split; [apply sort_by_key_sorted|]. split; [intros n; apply sort_by_key_stable|].
  intros ps ls Hp Hl. apply sort_by_key_presentation; [by eapply wf_sequences_NoDup|].
  by rewrite Hp, Hl.
Qed.

(** ** Generations *)

Lemma suspend_generation g s : generation (ac s) <= generation (ac (suspend g s)).
Proof. simpl. destruct (0 <? g); lia. Qed.

Lemma completion_generation seq o s :
  generation (ac s) <= generation (ac (handle_publish_completion config seq o s)).
Proof. unfold handle_publish_completion. repeat split_match; simpl; try split_match; lia. Qed.

Lemma resolve_generation seq g c s :
  generation (ac s) <= generation (ac (resolve_confirmation seq g c s)).
Proof. unfold resolve_confirmation. repeat split_match; simpl; try split_match; lia. Qed.

Lemma publish_loop_generation pending : forall now n s,
  n <= generation (ac s) ->
  n <= generation (ac (publish_loop sha256 config delay_strategy env now pending s)).
Proof.
  induction pending as [|r pending IH]; intros now n s H; [done|]. cbn [publish_loop].
  destruct (_ <=? now); [by apply IH|]. destruct (channel (ac s)); [|done].
  destruct (ensure_delay_topology _ _ _ _ _) as [t s1] eqn:E.
  assert (n <= generation (ac s1)) as H1.
  { destruct (ensure_cases sha256 delay_strategy env r s) as [Es|[d Es]]; rewrite E in Es; simpl in Es; by subst s1. }
  destruct t; [by apply IH|]. destruct (DelayRouting.route_transport_request _ _ _ _); [|by apply IH].
  destruct (poll_write_at _ _); [|by apply IH].
  destruct (phase _); [apply IH| |apply IH]; (etransitivity; [exact H1|]);
    (etransitivity; [|apply completion_generation]); done.
Qed.

Lemma accept_publish_generation l s :
  generation (ac s) <= generation (ac (accept_publish sha256 config delay_strategy env l s)).
Proof.
  unfold accept_publish. destruct (phase (ac s)); [by apply publish_loop_generation|done|].
  by rewrite complete_all_ac.
Qed.

Lemma event_generation ev s :
  generation (ac s) <= generation (ac (handle_connection_event sha256 config delay_strategy env ev s).2).
Proof.
  destruct ev as [g|g ch restored|g error]; cbn [handle_connection_event snd].
  - apply suspend_generation.
  - destruct (negb restored); [done|]. destruct (g <? _) eqn:Eg; [done|]. zbool.
    assert (forall x, generation (ac x) = g -> generation (ac s) <=
      generation (ac (flush_replay sha256 config delay_strategy env x))) as Hf.
    { intros x Ex. apply publish_loop_generation. simpl. unfold expire_replay.
      match goal with |- context [expire_loop ?a ?b ?c ?d] => destruct (expire_loop_actor a b c d) as ((k & E) & _) end.
      rewrite E. simpl. lia. }
    destruct (enables_confirms config); [destruct (enable_confirms_at _ _); [|done]|]; by apply Hf.
  - simpl. rewrite complete_all_ac. simpl. lia.
Qed.

Lemma quiesce_loop_generation events : forall s,
  generation (ac s) <= generation (ac (quiesce_loop config events s)).
Proof.
  induction events as [|e events IH]; intros s; [done|]. cbn [quiesce_loop].
  destruct (phase (ac s)); [|done..]. destruct (has_pending_publications (ac s)); [|done].
  etransitivity; [|apply IH]. destruct e; cbn [run_quiesce_event].
  - etransitivity; [|apply resolve_generation]. done.
  - etransitivity; [|apply completion_generation]. done.
Qed.

Lemma run_command_generation q c s :
  generation (ac (st s)) <= generation (ac (st (run_command q c s))).
Proof.
  destruct c as [r|ev caller|caller]; cbn [run_command].
  - apply accept_publish_generation.
  - pose proof (event_generation ev (st s)) as He. by destruct (handle_connection_event _ _ _ _ _ _).
  - simpl. rewrite complete_all_ac. unfold quiesce_and_close. simpl. rewrite complete_all_ac.
    destruct (phase (ac (st s))); [|done..]. etransitivity; [|apply quiesce_loop_generation].
    by apply publish_loop_generation.
Qed.

Lemma step_generation l s s' :
  sys_step l s = Some s' -> generation (ac (st s)) <= generation (ac (st s')).
Proof.
  destruct l as [request|request| |i|i|ev caller|caller|q| | |seq g c|seq o];
    try (intros E; rewrite (blind_step_actor _ _ _ E I); done); cbn [sys_step].
  - intros [= <-]. by rewrite try_publish_actor.
  - unfold send_command. repeat split_match; try done; by intros [= <-].
  - unfold send_command. repeat split_match; try done; by intros [= <-].
  - destruct (alive s); [|done]. unfold recv. destruct (commands s) as [|c cs]; [done|].
    destruct c as [r|ev caller|caller];
      [|intros E%(inj Some); rewrite <- E; exact (run_command_generation _ _ (set_commands cs s))..].
    destruct (take_publishes cs) as [ps rest]. intros E%(inj Some).
    pose proof (accept_publish_generation (r :: ps) (st s)) as Ha. destruct rest as [|c rest]; subst s'; [done|].
    etransitivity; [exact Ha|].
    exact (run_command_generation q c (set_commands rest (map_st (accept_publish _ _ _ _ (r :: ps)) s))).
  - destruct (alive s); [|done]. unfold handles_dropped. destruct (commands s) eqn:Ec; [|done].
    intros [= <-]. simpl. rewrite Ec. simpl. by rewrite complete_all_ac.
  - destruct (alive s); [|done]. unfold deadline_elapsed. repeat split_match; try done; intros [= <-]; [done| |done].
    simpl. unfold expire_replay.
    match goal with |- context [expire_loop ?a ?b ?c ?d] => destruct (expire_loop_actor a b c d) as ((k & E) & _) end.
    by rewrite E.
  - destruct (alive s && _)%bool; [|done]. intros [= <-]. simpl. etransitivity; [|apply resolve_generation]. done.
  - destruct (alive s && _)%bool; [|done]. intros [= <-]. simpl. etransitivity; [|apply completion_generation]. done.
Qed.

Lemma run_generation ls : forall s s',
  run ls s = Some s' -> generation (ac (st s)) <= generation (ac (st s')).
Proof.
  induction ls as [|l ls IH]; intros s s'; simpl; [by intros [= <-]|].
  destruct (sys_step l s) as [s1|] eqn:E; [|done]. intros Hr. apply step_generation in E.
  specialize (IH _ _ Hr). lia.
Qed.

(** A stale establishment is never installed: once the publisher has
    seen a generation, a [Ready] event of an older one is refused with a
    transport error and changes nothing, whatever happened in between. *)
Theorem stale_ready_refused ls s s' g ch restored :
  run ls s = Some s' -> g < generation (ac (st s)) ->
  exists message,
    handle_connection_event sha256 config delay_strategy env (EvReady g ch restored) (st s') =
    (Err (pe_new ETransport message), st s').
Proof.
  intros Hr Hg. pose proof (run_generation ls s s' Hr) as Hm. cbn [handle_connection_event].
  destruct (negb restored); [by eexists|].
  assert (g <? generation (ac (st s')) = true) as -> by (apply Z.ltb_lt; lia). by eexists.
Qed.

(** ** Deadlines during recovery *)

Definition expired_error : PublishError :=
  pe_new ETimeout "publish deadline expired during connection recovery".

Definition keep_after (now : Z) (r : RetainedPublish) : option RetainedPublish :=
  if r_deadline (rp_request r) <=? now
  then (if rp_retried r then None else Some (rearm (now + rp_timeout r) r))
  else Some r.

Definition answer_after (now : Z) (r : RetainedPublish)
  : option (nat * result PublishOutcome PublishError) :=
  if (r_deadline (rp_request r) <=? now) && rp_retried r then Some (rp_waiter r, Err expired_error) else None.

Lemma expire_loop_spec now pending : forall retained s,
  let s' := expire_loop now pending retained s in
  replay (ac s') = retained ++ omap (keep_after now) pending /\
  resolved (fx s') = resolved (fx s) ++ omap (answer_after now) pending /\
  tick (fx s') = tick (fx s).
Proof.
  induction pending as [|r pending IH]; intros retained s; cbn zeta; cbn [expire_loop].
  { simpl. by rewrite !app_nil_r. }
  assert (exists k x, expire_loop now (r :: pending) retained s = expire_loop now pending (retained ++ k) x /\
    k ++ omap (keep_after now) pending = omap (keep_after now) (r :: pending) /\
    resolved (fx x) ++ omap (answer_after now) pending =
      resolved (fx s) ++ omap (answer_after now) (r :: pending) /\ tick (fx x) = tick (fx s))
    as (k & x & E & Hk & Hx & Ht).
  { cbn [expire_loop omap list_omap]. unfold keep_after, answer_after. destruct (_ <=? now); [destruct (rp_retried r)|].
    - eexists [], _. rewrite app_nil_r. split; [done|]. split; [done|]. simpl. by rewrite <- app_assoc.
    - by eexists [_], _.
    - by eexists [_], _. }
  cbn [expire_loop] in E. rewrite E. destruct (IH (retained ++ k) x) as (H1 & H2 & H3).
  by rewrite H1, H2, H3, <- app_assoc, Hk, Hx, Ht.
Qed.

(** A parked publication is re-armed at most once: when its deadline
    has lapsed at one expiry pass and the re-armed deadline at the next, the
    replay queue is empty and every publication that was parked has been
    answered with the recovery timeout. *)
Theorem parked_publications_expire s :
  let s1 := expire_replay env s in
  let s2 := expire_replay env s1 in
  Forall (fun r => r_deadline (rp_request r) <= now_at env (tick (fx s))) (replay (ac s)) ->
  Forall (fun r => r_deadline (rp_request r) <= now_at env (tick (fx s1))) (replay (ac s1)) ->
  replay (ac s2) = [] /\
  Forall (fun r => (rp_waiter r, Err expired_error) ∈ resolved (fx s2)) (replay (ac s)).
Proof.
  cbn zeta. intros H1 H2. unfold expire_replay in *.
  set (now := now_at env (tick (fx s))) in *.
  destruct (expire_loop_spec now (replay (ac s)) [] (next_tick s)) as (Er1 & Ee1 & Et1).
  set (s1 := expire_loop now (replay (ac s)) [] (next_tick s)) in *.
  set (now1 := now_at env (tick (fx s1))) in *.
  destruct (expire_loop_spec now1 (replay (ac s1)) [] (next_tick s1)) as (Er2 & Ee2 & _).
  assert (Forall (fun r => rp_retried r = true) (replay (ac s1))) as Hret.
  { rewrite Er1. simpl. apply Forall_forall. intros r Hr. apply list_elem_of_omap in Hr as (r0 & Hr0 & Hk).
    rewrite Forall_forall in H1. specialize (H1 _ Hr0). simpl in H1. unfold keep_after in Hk.
    destruct (_ <=? now) eqn:E; [|zbool; lia]. destruct (rp_retried r0); [done|]. by injection Hk as <-. }
  split.
  - rewrite Er2. simpl. rewrite Forall_forall in H2, Hret.
    assert (forall l, (forall r, r ∈ l -> r ∈ replay (ac s1)) -> omap (keep_after now1) l = []) as Hn;
      [|by apply Hn].
    induction l as [|r l IH]; intros Hl; [done|]. cbn [omap list_omap]. unfold keep_after at 1.
    assert (r_deadline (rp_request r) <=? now1 = true) as -> by (apply Z.leb_le, H2, Hl; by left).
    rewrite (Hret r) by (apply Hl; by left). apply IH. intros x Hx. apply Hl. by right.
  - apply Forall_forall. intros r Hr. rewrite Ee2. apply elem_of_app.
    rewrite Forall_forall in H1, H2, Hret. specialize (H1 _ Hr). simpl in H1.
    destruct (rp_retried r) eqn:Eret.
    + left. simpl. rewrite Ee1. apply elem_of_app. right. apply list_elem_of_omap. exists r. split; [done|].
      unfold answer_after. by rewrite Eret, (proj2 (Z.leb_le _ _) H1).
    + right. apply list_elem_of_omap. exists (rearm (now + rp_timeout r) r).
      assert (rearm (now + rp_timeout r) r ∈ replay (ac s1)) as Hin.
      { rewrite Er1. simpl. apply list_elem_of_omap. exists r. split; [done|]. unfold keep_after.
        by rewrite Eret, (proj2 (Z.leb_le _ _) H1). }
      split; [done|]. unfold answer_after. by rewrite (Hret _ Hin), (proj2 (Z.leb_le _ _) (H2 _ Hin)).
Qed.

Lemma try_reserve_None current bytes :
  0 <= current -> 0 <= bytes ->
  (ByteBudget.try_reserve (max_buffered_bytes config) current bytes = None <->
   max_buffered_bytes config < current + bytes).
Proof.
  intros H1 H2. unfold ByteBudget.try_reserve, sat_add. destruct (_ <? _) eqn:E; zbool; split; try done; lia.
Qed.

(** [try_publish] takes a publication exactly when the actor runs, the
    bytes and a permit are available and the command queue has room. When it
    refuses, queue, permits, bytes, waiters and wire are what they were; the
    refusal is [Closed] exactly when the actor has stopped and the payload
    could ever fit, and counted backpressure otherwise. *)
Theorem try_publish_decides request s r s' :
  reach s -> sequence (ac (st s)) < U64_MAX -> try_publish request s = (r, s') ->
  let bytes := payload_bytes request in
  match r with
  | Ok w =>
      alive s = true /\ budget (fx (st s)) + bytes <= max_buffered_bytes config /\
      0 < permits (fx (st s)) /\ Z.of_nat (length (commands s)) < capacity /\
      accepted s' = accepted s ++ [identity_of w request] /\ w ∉ (accepted s).*1
  | Err e =>
      commands s' = commands s /\ accepted s' = accepted s /\ ac (st s') = ac (st s) /\
      permits (fx (st s')) = permits (fx (st s)) /\ budget (fx (st s')) = budget (fx (st s)) /\
      resolved (fx (st s')) = resolved (fx (st s)) /\ wire (fx (st s')) = wire (fx (st s)) /\
      ((pe_kind e = EClosed /\ alive s = false /\ bytes <= max_buffered_bytes config /\
        backpressure_total s' = backpressure_total s) \/
       (pe_kind e = EBackpressure /\ backpressure_total s' = backpressure_total s + 1 /\
        (max_buffered_bytes config < budget (fx (st s)) + bytes \/ permits (fx (st s)) = 0 \/
         alive s = true /\ capacity <= Z.of_nat (length (commands s)))))
  end.
Proof.
  intros Hr Hlt. pose proof (reach_inv s Hr Hlt) as Hi. pose proof (sys_budget_nonneg s Hi) as Hb0.
  pose proof (payload_bytes_nonneg request) as Hp0.
  destruct (sys_inv_owns s Hi) as [_ _ [Hpos _] _ _ _ _ _]. cbn zeta. unfold try_publish.
  destruct (ByteBudget.try_reserve _ _ _) as [reserved|] eqn:Er.
  2: { apply try_reserve_None in Er; [|done..]. intros [= <- <-]. repeat (split; [done|]). right. auto. }
  pose proof (reserve_release _ _ _ Hb0 Er) as Hrel. destruct (reserve_exact _ _ _ Er) as [Hres Hmax].
  unfold try_acquire. destruct (0 <? permits (fx (st s))) eqn:Ep; zbool.
  2: { intros [= <- <-]. simpl. repeat (split; [done|]). right. split; [done|]. split; [done|].
       right. left. lia. }
  destruct (alive s) eqn:Ea; cbn [negb].
  - destruct (capacity <=? _) eqn:Ec; intros [= <- <-]; zbool; simpl.
    + repeat (split; [done|]). split; [lia|]. repeat (split; [done|]). right. split; [done|]. auto.
    + repeat (split; [done || lia|]). rewrite (si_fresh s Hi). rewrite elem_of_seq. lia.
  - intros [= <- <-]. simpl. repeat (split; [done|]). split; [lia|]. repeat (split; [done|]). left.
    repeat (split; [done|]). split; [lia|done].
Qed.

(** ** The hot path *)

(** What an undelayed request looks like on the wire. *)
Definition direct_request (r : PublishRequest) : WireRequest :=
  let p := r_properties r in
  mkWireRequest (d_exchange (r_destination r)) (d_routing_key (r_destination r)) (r_payload r)
    (mandatory_flag config)
    (mkPublishProperties (mp_content_type p) (mp_correlation_id p) (Some (mp_message_id p)) None
       (mp_headers p) true).

Lemma route_direct r :
  mp_delay_ms (r_properties r) = None ->
  DelayRouting.route_transport_request sha256 r delay_strategy (mandatory_flag config) = Ok (direct_request r).
Proof. intros H. unfold DelayRouting.route_transport_request. by rewrite H. Qed.

Lemma completion_ok_keeps seq s :
  let s' := handle_publish_completion config seq (WCompleted (Ok tt)) s in
  wire (fx s') = wire (fx s) /\ phase (ac s') = phase (ac s) /\ channel (ac s') = channel (ac s) /\
  replay (ac s') = replay (ac s) /\ sequence (ac s') = sequence (ac s).
Proof. cbn zeta. unfold handle_publish_completion. by repeat split_match. Qed.

(** While nothing fails, a drain writes every undelayed publication
    once, on the current channel, in submission order and under consecutive
    sequences, and keeps the publisher ready. *)
Theorem drain_writes_in_order ch pending : forall now s,
  phase (ac s) = PReady -> channel (ac s) = Some ch ->
  sequence (ac s) + Z.of_nat (length pending) <= U64_MAX ->
  Forall (fun r => now < r_deadline (rp_request r) /\
                   (forall t, now_at env t < r_deadline (rp_request r)) /\
                   mp_delay_ms (r_properties (rp_request r)) = None) pending ->
  (forall t, poll_write_at env t = None \/ poll_write_at env t = Some (WCompleted (Ok tt))) ->
  let s' := publish_loop sha256 config delay_strategy env now pending s in
  wire (fx s') = wire (fx s) ++ ((fun r => (ch, rp_waiter r, direct_request (rp_request r))) <$> pending) /\
  phase (ac s') = PReady /\ replay (ac s') = replay (ac s) /\
  sequence (ac s') = sequence (ac s) + Z.of_nat (length pending).
Proof.
  induction pending as [|r pending IH]; intros now s Hp Hc Hlen Hd Hw.
  { simpl. rewrite app_nil_r. repeat split; [done..|lia]. }
  apply Forall_cons in Hd as [(Hnow & Hclock & Hdelay) Hd]. cbn zeta. cbn [publish_loop].
  rewrite (proj2 (Z.leb_gt _ _) Hnow), Hc.
  assert (ensure_delay_topology sha256 delay_strategy env r s = (None, s)) as ->.
  { unfold ensure_delay_topology. rewrite Hdelay. by destruct delay_strategy. }
  cbn [length] in Hlen. rewrite route_direct by done.
  set (n := sat_add U64_MAX _ 1).
  assert (n = sequence (ac s) + 1) as Hn by (unfold n, sat_add; simpl; lia).
  set (s3 := log_wire ch _ _ _). set (now' := now_at env (tick (fx s))).
  assert (forall x, wire (fx x) = wire (fx s3) -> phase (ac x) = PReady -> channel (ac x) = Some ch ->
    replay (ac x) = replay (ac s) -> sequence (ac x) = n ->
    let s' := publish_loop sha256 config delay_strategy env now' pending x in
    wire (fx s') = wire (fx s) ++ ((fun r => (ch, rp_waiter r, direct_request (rp_request r))) <$> r :: pending) /\
    phase (ac s') = PReady /\ replay (ac s') = replay (ac s) /\
    sequence (ac s') = sequence (ac s) + Z.of_nat (length (r :: pending))) as Hrest.
  { intros x E1 E2 E3 E4 E5. destruct (IH now' x) as (H1 & H2 & H3 & H4); try done; [lia| |].
    - eapply Forall_impl; [exact Hd|]. intros y (_ & Hy & ?). split; [apply Hy|done].
    - cbn zeta. rewrite H1, H3, H4, E1, E4, E5, Hn. split; [|split; [done|split; [done|simpl; lia]]].
      simpl. by rewrite <- app_assoc. }
  destruct (Hw (tick (fx s3))) as [-> | ->]; [by apply Hrest|].
  destruct (completion_ok_keeps n (next_tick s3)) as (E1 & E2 & E3 & E4 & E5).
  set (x := handle_publish_completion config n (WCompleted (Ok tt)) (next_tick s3)) in *.
  change (phase (ac (next_tick s3))) with (phase (ac s)) in E2. rewrite Hp in E2. rewrite E2.
  apply Hrest; [done..| |done|done]. by rewrite E3.
Qed.

End System.

(** ** Witnesses

    Two publications are accepted and written; the first is confirmed, the
    write of the second fails with the connection, the publisher recovers on
    another channel and replays it. *)

Definition demo_sha256 (x : string) : string := x.
Definition demo_config : PublisherConfig := with_safety 4 (from_secs 5) Safe.
Definition demo_env : Env :=
  mkEnv (fun t => from_millis (Z.of_nat t)) (fun _ _ => Ok tt) (fun _ _ => Ok tt) (fun _ => Ok tt)
    (fun _ => None).
Definition late_env : Env :=
  mkEnv (fun t => from_secs (1000 * Z.of_nat t)) (fun _ _ => Ok tt) (fun _ _ => Ok tt) (fun _ => Ok tt)
    (fun _ => None).
Definition demo_request (id : string) : PublishRequest :=
  mkPublishRequest (mkDestination "jobs" "high") "payload" (message_properties_new id) (from_secs 100).
Definition demo_lost : TransportError := te_new Connection "connection reset".

Definition demo_suspending : list Label :=
  [LTryPublish (demo_request "a"); LTryPublish (demo_request "b"); LRecv [];
   LWrite 1 (WCompleted (Ok tt)); LConfirmation 1 1 (CCompleted (Ok (Ack None)));
   LWrite 2 (WCompleted (Err demo_lost))].
Definition demo_recovering : list Label :=
  demo_suspending ++ [LConnectionEvent (EvReady 2 8 true) 0; LTryPublish (demo_request "c"); LRecv []].
Definition demo_closing : list Label :=
  demo_recovering ++ [LClose 1; LTryPublish (demo_request "d");
                      LRecv [QWrite 3 (WCompleted (Ok tt)); QConfirmation 3 2 (CCompleted (Ok (Nack None)))]].

Abbreviation demo_run := (run demo_sha256 demo_config None demo_env).
Abbreviation demo_reach := (reach demo_sha256 demo_config None demo_env).
Definition demo_start : Sys := spawn demo_config demo_env 7.
Definition demo_suspended : Sys := default demo_start (demo_run demo_suspending demo_start).
Definition demo_recovered : Sys := default demo_start (demo_run demo_recovering demo_start).
Definition demo_closed : Sys := default demo_start (demo_run demo_closing demo_start).

Lemma demo_bound : 0 <= max_buffered_bytes demo_config < U64_MAX.
Proof. vm_compute. split; congruence. Qed.

Lemma demo_reaches ls s : demo_run ls demo_start = Some s -> demo_reach s.
Proof. apply reach_run. constructor. Qed.

Lemma demo_suspended_reach : demo_reach demo_suspended.
Proof. apply (demo_reaches demo_suspending). vm_compute. reflexivity. Qed.

Lemma demo_recovered_reach : demo_reach demo_recovered.
Proof. apply (demo_reaches demo_recovering). vm_compute. reflexivity. Qed.

Lemma demo_closed_reach : demo_reach demo_closed.
Proof. apply (demo_reaches demo_closing). vm_compute. reflexivity. Qed.

Lemma publication_conserved_witness :
  (rp_waiter <$> owned demo_recovered) ++ (resolved (fx (st demo_recovered))).*1 ≡ₚ [0; 1; 2]%nat.
Proof.
  refine (proj1 (publication_conserved demo_sha256 demo_config None demo_env demo_bound demo_recovered
    demo_recovered_reach _)). vm_compute. reflexivity.
Defined.

(** A blind publisher: two blind publications and an accepted one are charged, the first has
    left the pump. *)
Definition blind_config : PublisherConfig := with_safety 4 (from_secs 5) Blind.
Definition blind_labels : list Label :=
  [LPublishBlind (demo_request "a"); LPublishBlind (demo_request "b"); LBlindSent; LTryPublish (demo_request "c");
   LBlindLeft 0].
Definition blind_start : Sys := spawn blind_config demo_env 7.
Definition blind_state : Sys :=
  default blind_start (run demo_sha256 blind_config None demo_env blind_labels blind_start).

Lemma resources_exact_witness :
  blind blind_state = [7] /\ sumZ rp_bytes (owned blind_state) = 7 /\
  budget (fx (st blind_state)) = sumZ id (blind blind_state) + sumZ rp_bytes (owned blind_state).
Proof.
  split; [vm_compute; reflexivity|]. split; [vm_compute; reflexivity|].
  refine (proj1 (proj2 (proj2 (resources_exact demo_sha256 blind_config None demo_env _ blind_state _ _)))).
  - vm_compute. split; congruence.
  - apply (reach_run _ _ _ _ blind_labels blind_start); [constructor|vm_compute; reflexivity].
  - vm_compute. reflexivity.
Defined.

Lemma stopped_publisher_is_clean_witness :
  (resolved (fx (st demo_closed))).*1 ≡ₚ seq 0 (length (accepted demo_closed)) /\ owned demo_closed = [] /\
  permits (fx (st demo_closed)) = capacity demo_config /\
  budget (fx (st demo_closed)) = blind_bytes demo_closed.
Proof.
  apply (stopped_publisher_is_clean demo_sha256 demo_config None demo_env demo_bound demo_closed
    demo_closed_reach); vm_compute; reflexivity.
Defined.

Lemma held_publications_progress_witness :
  publish_in_flight (ac (st demo_recovered)) ≡ₚ (map_to_list (publishing (ac (st demo_recovered)))).*1.
Proof.
  refine (proj1 (held_publications_progress demo_sha256 demo_config None demo_env demo_bound demo_recovered
    demo_recovered_reach _ _)); vm_compute; reflexivity.
Defined.


Lemma outcomes_are_justified_witness :
  exists c, (0%nat, CCompleted (Ok c)) ∈ receipts (fx (st demo_recovered)) /\ verdict c (Confirmed "a").
Proof.
  refine (proj2 (proj2 (outcomes_are_justified demo_sha256 demo_config None demo_env demo_bound demo_recovered
    0%nat (Confirmed "a") demo_recovered_reach _ _)) _); [vm_compute; reflexivity| |vm_compute; reflexivity].
  apply list_elem_of_lookup. exists 0%nat. vm_compute. reflexivity.
Defined.

Lemma suspend_orders_replay_witness :
  replay (ac (suspend 0 (st demo_recovered))) ≡ₚ held (ac (st demo_recovered)).
Proof.
  refine (proj1 (suspend_orders_replay demo_sha256 demo_config None demo_env demo_bound demo_recovered 0
    demo_recovered_reach _ _)); vm_compute; reflexivity.
Defined.

Lemma stale_ready_refused_witness :
  exists message,
    handle_connection_event demo_sha256 demo_config None demo_env (EvReady 0 9 true) (st demo_recovered) =
    (Err (pe_new ETransport message), st demo_recovered).
Proof.
  apply (stale_ready_refused demo_sha256 demo_config None demo_env demo_recovering demo_start);
    vm_compute; reflexivity.
Defined.

Lemma parked_publications_expire_witness :
  replay (ac (expire_replay late_env (expire_replay late_env (st demo_suspended)))) = [].
Proof.
  refine (proj1 (parked_publications_expire late_env (st demo_suspended) _ _));
    (apply (bool_decide_unpack _); vm_compute; exact I).
Defined.

Lemma try_publish_decides_witness :
  alive demo_recovered = true /\ 0 < permits (fx (st demo_recovered)).
Proof.
  assert (try_publish demo_config demo_env (demo_request "d") demo_recovered =
          (Ok 3%nat, (try_publish demo_config demo_env (demo_request "d") demo_recovered).2)) as E
    by (vm_compute; reflexivity).
  assert (sequence (ac (st demo_recovered)) < U64_MAX) as Hlt by (vm_compute; reflexivity).
  pose proof (try_publish_decides demo_sha256 demo_config None demo_env demo_bound _ demo_recovered
    (Ok 3%nat) _ demo_recovered_reach Hlt E) as (Ha & _ & Hp & _).
  split; [exact Ha|exact Hp].
Defined.

Lemma drain_writes_in_order_witness :
  let r := mkRetained (demo_request "e") 0 0 0 7 (from_secs 100) false in
  sequence (ac (publish_loop demo_sha256 demo_config None
    (mkEnv (fun _ => 0) (fun _ _ => Ok tt) (fun _ _ => Ok tt) (fun _ => Ok tt) (fun _ => None)) 0 [r; r]
    (st demo_start))) = 2.
Proof.
  refine (proj2 (proj2 (proj2 (drain_writes_in_order demo_sha256 demo_config None
    (mkEnv (fun _ => 0) (fun _ _ => Ok tt) (fun _ _ => Ok tt) (fun _ => Ok tt) (fun _ => None)) 7 _ 0
    (st demo_start) _ _ _ _ _)))); [reflexivity..|vm_compute; congruence| |by left].
  repeat constructor.
Defined.

End PublisherSystem.
