(* ===== verification/Delivery.v ===== *)
(** * Deliveries and their settlement tokens

    Models [consumer/delivery.rs]: the token a delivery carries, its state
    machine, the synchronous settlement calls of the embedder
    ([try_settle] behind [ack], [release] and [reject]) and the consumer error
    types. Embedder threads race on one token, and the consumer actor stores to the
    same atomic what became of the settlements: all accesses interleave, and the
    theorem shows that one settlement at most is under way at any time. *)

From S2P Require Import Prelude Transport.
Import Transport.
Local Open Scope Z_scope.

Module Delivery.

(** ** Data *)

Inductive DeliveryState := Pending | Acked | Rejected | Lost | AutoAcked.

Inductive Settlement :=
| SAck
| SRelease (delay : Z)
| SReject (requeue : bool).

Inductive ConsumerErrorKind :=
| CClosed | CStaleGeneration | CSourceReplaced | CAlreadySettled | CAlreadySettling
| CSettlementInProgress | CTransport | CPublish | CMissingPublisher | CInvalidSubscription
| CMaxAttempts | CInvalidDelay.

Record ConsumerError := mkConsumerError {
  ce_kind : ConsumerErrorKind;
  ce_message : string;
  ce_transport_source : option TransportError
}.

Definition ce_new (kind : ConsumerErrorKind) (message : string) : ConsumerError :=
  mkConsumerError kind message None.

Definition ce_from_transport (error : TransportError) : ConsumerError :=
  mkConsumerError CTransport (te_message error) (Some error).

Definition closed : ConsumerError := ce_new CClosed "consumer set is closed".

Definition already_settled : ConsumerError :=
  ce_new CAlreadySettled "delivery token is already terminal or transitioning".

Inductive SettlementErrorKind := AlreadySettled | ChannelFull | SClosed.

Record SettlementError := mkSettlementError {
  se_delivery_tag : Z;
  se_subscription : string;
  se_kind : ConsumerErrorKind;
  se_message : string
}.

(** [DeliveryTokenInner]: the identity of the delivery and its two atomics. *)
Record Token := mkToken {
  tk_subscription : string;
  tk_connection_key : Z;
  tk_generation : Z;
  tk_channel_id : Z;
  tk_delivery_tag : Z;
  tk_message_id : string;
  tk_correlation_id : option string;
  tk_payload : string;
  tk_headers : Headers;
  tk_attempts : Z;
  tk_state : DeliveryState;
  tk_settling : bool
}.

Definition set_state (st : DeliveryState) (t : Token) : Token :=
  mkToken (tk_subscription t) (tk_connection_key t) (tk_generation t) (tk_channel_id t)
    (tk_delivery_tag t) (tk_message_id t) (tk_correlation_id t) (tk_payload t) (tk_headers t)
    (tk_attempts t) st (tk_settling t).

Definition set_settling (b : bool) (t : Token) : Token :=
  mkToken (tk_subscription t) (tk_connection_key t) (tk_generation t) (tk_channel_id t)
    (tk_delivery_tag t) (tk_message_id t) (tk_correlation_id t) (tk_payload t) (tk_headers t)
    (tk_attempts t) (tk_state t) b.

#[global] Instance DeliveryState_eq_dec : EqDecision DeliveryState.
Proof. solve_decision. Defined.
#[global] Instance ConsumerErrorKind_eq_dec : EqDecision ConsumerErrorKind.
Proof. solve_decision. Defined.
#[global] Instance Settlement_eq_dec : EqDecision Settlement.
Proof. solve_decision. Defined.

(** ** [DeliveryToken::try_settle] *)

(** The terminal state a settlement announces at once. *)
Definition terminal_of (s : Settlement) : DeliveryState :=
  match s with
  | SRelease delay => if delay =? 0 then Rejected else Acked
  | SAck => Acked
  | SReject _ => Rejected
  end.

(** What [control.try_send] answers. *)
Inductive SendResult := Sent | Full | Disconnected.

(** [try_settle] executed without interference: the answer, the new state and
    whether a command was enqueued. *)
Definition try_settle (s : Settlement) (send : SendResult) (st : DeliveryState)
  : result unit SettlementErrorKind * DeliveryState * bool :=
  match st with
  | Pending =>
      match send with
      | Sent => (Ok tt, terminal_of s, true)
      | Full => (Err ChannelFull, Pending, false)
      | Disconnected => (Err SClosed, Lost, false)
      end
  | _ => (Err AlreadySettled, st, false)
  end.

(** [map_settle_error]. *)
Definition map_settle_error (kind : SettlementErrorKind) : ConsumerError :=
  match kind with
  | AlreadySettled => already_settled
  | ChannelFull => ce_new CSettlementInProgress "settlement command channel is full"
  | SClosed => closed
  end.

(** ** Racing settlement calls *)

(** A thread between two accesses of [try_settle]. *)
Inductive Thread :=
| TCas (s : Settlement)                          (* about to compare-exchange *)
| TSend (s : Settlement)                         (* owns the token, about to send *)
| TRevert (st : DeliveryState) (e : SettlementErrorKind)  (* about to store after a failed send *)
| TDone (r : result unit SettlementErrorKind).

(** The token's atomic state, the settlements enqueued for it, the threads. [r_finished]
    logs, for every command that the actor has finished, the state that it stored:
    [Some Pending] after a retryable failure, [None] when it dropped the command without
    a store. [r_covered] logs the states stored for cumulative acknowledgements that
    cover the delivery. *)
Record Race := mkRace {
  r_state : DeliveryState;
  r_sent : list Settlement;
  r_threads : list Thread;
  r_finished : list (option DeliveryState);
  r_covered : list DeliveryState
}.

(** The accesses of the threads, in [try_settle], and the stores of the actor, in its
    settlement arm and in [complete_settle_through]. A cumulative acknowledgement fails
    with a transport or a generation error only, so its store is never [Pending]. *)
Inductive step : Race -> Race -> Prop :=
| step_call st q ts fin cov s : step (mkRace st q ts fin cov) (mkRace st q (ts ++ [TCas s]) fin cov)
| step_cas_ok q ts fin cov i s :
    ts !! i = Some (TCas s) ->
    step (mkRace Pending q ts fin cov) (mkRace (terminal_of s) q (<[i := TSend s]> ts) fin cov)
| step_cas_fail st q ts fin cov i s :
    ts !! i = Some (TCas s) -> st <> Pending ->
    step (mkRace st q ts fin cov) (mkRace st q (<[i := TDone (Err AlreadySettled)]> ts) fin cov)
| step_sent st q ts fin cov i s :
    ts !! i = Some (TSend s) ->
    step (mkRace st q ts fin cov) (mkRace st (q ++ [s]) (<[i := TDone (Ok tt)]> ts) fin cov)
| step_full st q ts fin cov i s :
    ts !! i = Some (TSend s) ->
    step (mkRace st q ts fin cov) (mkRace st q (<[i := TRevert Pending ChannelFull]> ts) fin cov)
| step_closed st q ts fin cov i s :
    ts !! i = Some (TSend s) ->
    step (mkRace st q ts fin cov) (mkRace st q (<[i := TRevert Lost SClosed]> ts) fin cov)
| step_revert st q ts fin cov i st' e :
    ts !! i = Some (TRevert st' e) ->
    step (mkRace st q ts fin cov) (mkRace st' q (<[i := TDone (Err e)]> ts) fin cov)
| step_finish st q ts fin cov o :
    (length fin < length q)%nat ->
    step (mkRace st q ts fin cov) (mkRace (default st o) q ts (fin ++ [o]) cov)
| step_cover st q ts fin cov st' :
    st' = Acked \/ st' = Lost ->
    step (mkRace st q ts fin cov) (mkRace st' q ts fin (cov ++ [st'])).

Inductive reachable : Race -> Prop :=
| reach_fresh : reachable (mkRace Pending [] [] [] [])
| reach_next s s' : reachable s -> step s s' -> reachable s'.

(** A thread that owns the token. *)
Definition owner (t : Thread) : Z :=
  match t with TSend _ | TRevert _ _ => 1 | _ => 0 end.

(** A call that succeeded. *)
Definition succeeded (t : Thread) : Z := match t with TDone (Ok _) => 1 | _ => 0 end.

(** A command that came back: the embedder may settle the delivery again. *)
Definition reopened (o : option DeliveryState) : Z := if bool_decide (o = Some Pending) then 1 else 0.

Definition pending_now (st : DeliveryState) : Z := if bool_decide (st = Pending) then 1 else 0.

Definition zlen {A} (l : list A) : Z := Z.of_nat (length l).

Record race_inv (r : Race) : Prop := {
  ri_tickets : sumZ owner (r_threads r) + zlen (r_sent r) + pending_now (r_state r) <= 1 + sumZ reopened (r_finished r);
  ri_finished : zlen (r_finished r) <= zlen (r_sent r);
  ri_success : sumZ succeeded (r_threads r) = zlen (r_sent r);
  ri_sent : r_finished r = [] -> r_covered r = [] -> forall s, s ∈ r_sent r -> r_state r = terminal_of s;
  ri_owner : r_finished r = [] -> r_covered r = [] -> forall s, TSend s ∈ r_threads r -> r_state r = terminal_of s
}.

Lemma sumZ_owner_pos (ts : list Thread) s : TSend s ∈ ts -> 1 <= sumZ owner ts.
Proof.
  intros H. apply (sumZ_elem_le owner) in H; [done|]. apply Forall_forall. by intros [] _.
Qed.

Lemma owner_after (ts : list Thread) (i : nat) y s :
  TSend s ∈ <[i := y]> ts -> y = TSend s \/ TSend s ∈ ts.
Proof.
  intros [j Hj]%list_elem_of_lookup. destruct (decide (i = j)) as [->|Hne].
  - destruct (decide (j < length ts)%nat).
    + rewrite list_lookup_insert_eq in Hj by done. left. congruence.
    + rewrite list_insert_ge in Hj by lia. right. apply list_elem_of_lookup. eauto.
  - rewrite list_lookup_insert_ne in Hj by done. right. apply list_elem_of_lookup. eauto.
Qed.

Lemma terminal_not_pending s : terminal_of s <> Pending.
Proof. destruct s as [|d|r]; simpl; try done. by destruct (d =? 0). Qed.

Lemma pending_terminal s : pending_now (terminal_of s) = 0.
Proof. unfold pending_now. by rewrite bool_decide_false by apply terminal_not_pending. Qed.

Lemma pending_range st : 0 <= pending_now st <= 1.
Proof. unfold pending_now. case_bool_decide; lia. Qed.

Lemma owners_nonneg ts : 0 <= sumZ owner ts.
Proof. apply sumZ_nonneg, Forall_forall. by intros [] _. Qed.

(** A command comes back at most once. *)
Lemma reopened_finished fin : 0 <= sumZ reopened fin <= zlen fin.
Proof.
  unfold zlen. induction fin as [|o fin IH]; [done|]. rewrite sumZ_cons. cbn [length]. unfold reopened at 1 3.
  case_bool_decide; lia.
Qed.

Lemma zlen_snoc {A} (l : list A) x : zlen (l ++ [x]) = zlen l + 1.
Proof. unfold zlen. rewrite length_app. cbn. lia. Qed.

Lemma zlen_nonneg {A} (l : list A) : 0 <= zlen l.
Proof. unfold zlen. lia. Qed.

Lemma zlen_nil_inv {A} (l : list A) : zlen l <= 0 -> l = [].
Proof. destruct l; [done|]. unfold zlen. cbn. lia. Qed.

Lemma step_race_inv r r' : race_inv r -> step r r' -> race_inv r'.
Proof.
  intros [H1 Hf H3 H4 H5] Hs.
  destruct Hs as [st q ts fin cov s|q ts fin cov i s Hi|st q ts fin cov i s Hi Hne|st q ts fin cov i s Hi
    |st q ts fin cov i s Hi|st q ts fin cov i s Hi|st q ts fin cov i st' e Hi|st q ts fin cov o Hl|st q ts fin cov st' Hst];
    simpl in *; pose proof (owners_nonneg ts) as H0; pose proof (zlen_nonneg q) as Hq.
  - split; simpl; rewrite ?sumZ_app, ?sumZ_cons, ?sumZ_nil; simpl; try lia; auto.
    intros E1 E2 s' [H|H]%elem_of_app; [by apply H5|]. by apply list_elem_of_singleton in H.
  - split; simpl; rewrite ?(sumZ_insert _ _ _ _ _ Hi), ?pending_terminal; simpl in *; change (pending_now Pending) with 1 in *; try lia.
    + intros -> _ s' Hin. rewrite sumZ_nil in H1. rewrite (zlen_nil_inv q) in Hin by lia. by apply elem_of_nil in Hin.
    + intros -> _ s' [[= ->]|H]%owner_after; [done|]. apply sumZ_owner_pos in H. rewrite sumZ_nil in H1. lia.
  - split; simpl; rewrite ?(sumZ_insert _ _ _ _ _ Hi); simpl in *; try lia; auto.
    intros E1 E2 s' [H|H]%owner_after; [done|by apply H5].
  - assert (TSend s ∈ ts) as Hin by (apply list_elem_of_lookup; eauto).
    split; simpl; rewrite ?(sumZ_insert _ _ _ _ _ Hi), ?zlen_snoc; simpl in *; try lia.
    + intros E1 E2 s' [H'|H']%elem_of_app; [by apply H4|]. apply list_elem_of_singleton in H' as ->. by apply H5.
    + intros E1 E2 s' [H'|H']%owner_after; [done|by apply H5].
  - split; simpl; rewrite ?(sumZ_insert _ _ _ _ _ Hi); simpl in *; try lia; auto.
    intros E1 E2 s' [H'|H']%owner_after; [done|by apply H5].
  - split; simpl; rewrite ?(sumZ_insert _ _ _ _ _ Hi); simpl in *; try lia; auto.
    intros E1 E2 s' [H'|H']%owner_after; [done|by apply H5].
  - assert (1 <= sumZ owner ts) as Ho.
    { assert (TRevert st' e ∈ ts) as Hin by (apply list_elem_of_lookup; eauto).
      apply (sumZ_elem_le owner) in Hin; [done|]. apply Forall_forall. by intros [] _. }
    pose proof (pending_range st) as Hp. pose proof (pending_range st') as Hp'.
    split; simpl; rewrite ?(sumZ_insert _ _ _ _ _ Hi); simpl in *; try lia.
    + intros -> _ s' Hin. rewrite sumZ_nil in H1. rewrite (zlen_nil_inv q) in Hin by lia. by apply elem_of_nil in Hin.
    + intros -> _ s' H'%sumZ_owner_pos. rewrite (sumZ_insert _ _ _ _ _ Hi) in H'. rewrite sumZ_nil in H1. simpl in H'. lia.
  - pose proof (pending_range st) as Hp. unfold zlen in Hf. split; simpl; rewrite ?zlen_snoc; try done.
    + rewrite sumZ_app, sumZ_cons, sumZ_nil. destruct o as [st'|]; cbn [default reopened]; unfold reopened, pending_now in *;
        repeat case_bool_decide; simplify_eq; simpl in *; try congruence; lia.
    + unfold zlen in *. lia.
    + intros E. by destruct fin.
    + intros E. by destruct fin.
  - pose proof (pending_range st) as Hp. split; simpl; try done.
    + assert (pending_now st' = 0) as -> by (by destruct Hst as [-> | ->]). lia.
    + intros _ E. by destruct cov.
    + intros _ E. by destruct cov.
Qed.

Lemma reachable_race_inv r : reachable r -> race_inv r.
Proof.
  induction 1 as [|r r' _ IH Hs]; [|by eapply step_race_inv].
  split; simpl; rewrite ?sumZ_nil; try done; by intros _ _ s ?%elem_of_nil.
Qed.

(** C28. However many threads settle one delivery, whatever the actor answers to the
    settlements and stores for cumulative acknowledgements meanwhile, and however all
    their accesses interleave: as many calls succeed as commands are enqueued; at most
    one command is enqueued and not yet finished by the actor, and while there is one the
    state is not [Pending], so that further calls are refused; all in all there are no
    more commands than one plus the commands that came back with a retryable failure, so a
    delivery whose settlement did not come back is settled once; and until the actor
    stores anything the state is that of the settlement that won. *)
Theorem settled_at_most_once r :
  reachable r ->
  sumZ succeeded (r_threads r) = zlen (r_sent r) /\
  (length (r_sent r) <= S (length (r_finished r)))%nat /\
  (length (r_sent r) = S (length (r_finished r)) -> r_state r <> Pending) /\
  zlen (r_sent r) <= 1 + sumZ reopened (r_finished r) /\
  (r_finished r = [] -> r_covered r = [] -> forall s, s ∈ r_sent r -> r_state r = terminal_of s).
Proof.
  intros [H1 H2 H3 H4 _]%reachable_race_inv. pose proof (owners_nonneg (r_threads r)). pose proof (reopened_finished (r_finished r)).
  pose proof (pending_range (r_state r)). unfold zlen in *. split; [done|]. split; [lia|]. split; [|split; [lia|done]].
  intros Hl Hp. rewrite Hp in H1. change (pending_now Pending) with 1 in H1. lia.
Qed.

(** ** Witnesses *)

(** A reject meets a full channel and reverts; a racing delayed release then wins, comes
    back with a retryable failure, and the delivery is acknowledged. *)
Definition racing : Race :=
  mkRace Acked [SRelease 5; SAck] [TDone (Err ChannelFull); TDone (Ok tt); TDone (Ok tt)] [Some Pending] [].

Lemma racing_reachable : reachable racing.
Proof.
  assert (reachable (mkRace Acked [] [TDone (Err ChannelFull); TSend (SRelease 5)] [] [])) as H1.
  { eapply reach_next; [eapply reach_next; [eapply reach_next; [eapply reach_next; [eapply reach_next;
      [eapply reach_next; [apply reach_fresh|apply (step_call _ _ _ _ _ (SReject true))]
      |apply (step_call _ _ _ _ _ (SRelease 5))]|by apply (step_cas_ok _ _ _ _ 0 (SReject true))]
      |by eapply (step_full _ _ _ _ _ 0)]|by eapply (step_revert _ _ _ _ _ 0)]
      |exact (step_cas_ok [] [TDone (Err ChannelFull); TCas (SRelease 5)] [] [] 1 (SRelease 5) eq_refl)]. }
  assert (reachable (mkRace Pending [SRelease 5] [TDone (Err ChannelFull); TDone (Ok tt)] [Some Pending] [])) as H2.
  { eapply reach_next; [eapply reach_next; [exact H1|by apply (step_sent _ _ _ _ _ 1 (SRelease 5))]|].
    apply (step_finish Acked [SRelease 5] [TDone (Err ChannelFull); TDone (Ok tt)] [] [] (Some Pending)). cbn. lia. }
  eapply reach_next; [eapply reach_next; [eapply reach_next; [exact H2|apply (step_call _ _ _ _ _ SAck)]
    |by apply (step_cas_ok _ _ _ _ 2 SAck)]
    |exact (step_sent Acked [SRelease 5] [TDone (Err ChannelFull); TDone (Ok tt); TSend SAck] [Some Pending] [] 2 SAck eq_refl)].
Qed.

Lemma settled_at_most_once_witness :
  r_sent racing = [SRelease 5; SAck] /\ zlen (r_sent racing) <= 1 + sumZ reopened (r_finished racing) /\
  r_state racing <> Pending.
Proof.
  destruct (settled_at_most_once racing racing_reachable) as (_ & _ & H3 & H4 & _).
  split; [reflexivity|]. split; [exact H4|]. apply H3. reflexivity.
Defined.

End Delivery.
