(* ===== verification/Prefetch.v ===== *)
(** * The adaptive prefetch controller

    Models [consumer/prefetch.rs]. The controller's [f64] arithmetic is the
    binary64 arithmetic of the Standard Library's executable IEEE-754
    specification, so the model computes what the code computes, rounding
    included. *)

From Stdlib Require Import SpecFloat.
From S2P Require Import Prelude.
Local Open Scope Z_scope.

Module Prefetch.

(** ** [f64] *)

Definition PREC : Z := 53.
Definition EMAX : Z := 1024.
Definition f64 := spec_float.
Definition f64_add : f64 -> f64 -> f64 := SFadd PREC EMAX.
Definition f64_sub : f64 -> f64 -> f64 := SFsub PREC EMAX.
Definition f64_mul : f64 -> f64 -> f64 := SFmul PREC EMAX.
Definition f64_div : f64 -> f64 -> f64 := SFdiv PREC EMAX.

(** [n as f64] *)
Definition f64_of_Z (n : Z) : f64 := binary_normalize PREC EMAX n 0 false.

Definition f64_is_finite (x : f64) : bool :=
  match x with S754_zero _ | S754_finite _ _ _ => true | _ => false end.

(** [x > 0.0] *)
Definition f64_positive (x : f64) : bool := SFltb (S754_zero false) x.

Definition f64_ceil (x : f64) : f64 :=
  match x with
  | S754_finite s m e =>
      if 0 <=? e then x
      else
        let n := if s then Z.neg m else Z.pos m in
        binary_normalize PREC EMAX (- ((- n) / 2 ^ (- e))) 0 s
  | _ => x
  end.

(** [x as u64]: saturating, toward zero, zero for NaN. *)
Definition f64_as_u64 (x : f64) : Z :=
  match x with
  | S754_zero _ | S754_nan => 0
  | S754_infinity s => if s then 0 else U64_MAX
  | S754_finite true _ _ => 0
  | S754_finite false m e =>
      Z.min U64_MAX (if 0 <=? e then Z.pos m * 2 ^ e else Z.pos m / 2 ^ (- e))
  end.

(** ** The controller *)

Definition EWMA_ALPHA : f64 := f64_div (f64_of_Z 1) (f64_of_Z 4).
Definition MIN_SAMPLES : Z := 3.
Definition HYSTERESIS_DIVISOR : Z := 4.

Record AdaptivePrefetch := mkAdaptive {
  ap_min : Z;
  ap_max : Z;
  ap_target_buffer : Z;
  ap_current : Z;
  ap_ewma_ns : f64;
  ap_samples : Z
}.

Definition adaptive_new (min max initial target_buffer : Z) : AdaptivePrefetch :=
  mkAdaptive min max target_buffer initial (S754_zero false) 0.

(** [ewma()], a [Duration]. *)
Definition ewma (c : AdaptivePrefetch) : Z :=
  if f64_is_finite (ap_ewma_ns c) && f64_positive (ap_ewma_ns c)
  then f64_as_u64 (ap_ewma_ns c) else Duration_ZERO.

Definition observe (latency : Z) (c : AdaptivePrefetch) : AdaptivePrefetch :=
  let nanos := f64_of_Z latency in
  let next :=
    if ap_samples c =? 0 then nanos
    else f64_add (f64_mul EWMA_ALPHA nanos)
           (f64_mul (f64_sub (f64_of_Z 1) EWMA_ALPHA) (ap_ewma_ns c)) in
  mkAdaptive (ap_min c) (ap_max c) (ap_target_buffer c) (ap_current c) next
    (sat_add U64_MAX (ap_samples c) 1).

(** The window the EWMA asks for, before clamping. *)
Definition desired_window (c : AdaptivePrefetch) : Z :=
  let target_nanos := f64_of_Z (ap_target_buffer c) in
  let desired :=
    if f64_is_finite (ap_ewma_ns c) && f64_positive (ap_ewma_ns c)
    then f64_ceil (f64_div target_nanos (ap_ewma_ns c))
    else S754_infinity false in
  if f64_is_finite desired then default U16_MAX (try_from U16_MAX (f64_as_u64 desired)) else U16_MAX.

(** [Ord::clamp], which panics when [min > max]. *)
Definition clamp (v lo hi : Z) : Z := if v <? lo then lo else if hi <? v then hi else v.

Definition hysteresis (current : Z) : Z := Z.max (current / HYSTERESIS_DIVISOR) 1.

Definition tick (c : AdaptivePrefetch) : option Z * AdaptivePrefetch :=
  if ap_samples c <? MIN_SAMPLES then (None, c)
  else
    let desired := clamp (desired_window c) (ap_min c) (ap_max c) in
    if hysteresis (ap_current c) <=? Z.abs (desired - ap_current c) then
      (Some desired,
       mkAdaptive (ap_min c) (ap_max c) (ap_target_buffer c) desired (ap_ewma_ns c) (ap_samples c))
    else (None, c).

(** ** Runs *)

Inductive Op := Observe (latency : Z) | Tick.

(** The window changes a sequence of observations and ticks publishes. *)
Fixpoint run (ops : list Op) (c : AdaptivePrefetch) : list Z * AdaptivePrefetch :=
  match ops with
  | [] => ([], c)
  | Observe latency :: ops' => run ops' (observe latency c)
  | Tick :: ops' =>
      let '(change, c) := tick c in
      let '(changes, c) := run ops' c in
      (match change with Some v => v :: changes | None => changes end, c)
  end.

(** Published windows stay in range and consecutive ones differ by the
    hysteresis of the one they replace. *)
Fixpoint well_spaced (lo hi current : Z) (changes : list Z) : Prop :=
  match changes with
  | [] => True
  | v :: changes' =>
      lo <= v <= hi /\ hysteresis current <= Z.abs (v - current) /\ well_spaced lo hi v changes'
  end.

Lemma clamp_bounds v lo hi : lo <= hi -> lo <= clamp v lo hi <= hi.
Proof. unfold clamp. intros H. destruct (v <? lo) eqn:E1; [lia|]. destruct (hi <? v) eqn:E2; zbool; lia. Qed.

Lemma tick_cases c :
  ap_min c <= ap_max c ->
  let '(change, c') := tick c in
  ap_min c' = ap_min c /\ ap_max c' = ap_max c /\
  match change with
  | Some v => ap_current c' = v /\ ap_min c <= v <= ap_max c /\
              hysteresis (ap_current c) <= Z.abs (v - ap_current c) /\ MIN_SAMPLES <= ap_samples c
  | None => c' = c
  end.
Proof.
  intros Hb. unfold tick. destruct (ap_samples c <? MIN_SAMPLES) eqn:E; [done|]. zbool.
  destruct (hysteresis (ap_current c) <=? _) eqn:Eh; [|done]. zbool. simpl.
  repeat (split; [done|]). split; [by apply clamp_bounds|]. done.
Qed.

Lemma last_cons (v d : Z) l : List.last (v :: l) d = List.last l v.
Proof. revert v d. induction l as [|x l IH]; intros v d; [done|].
  change (List.last (x :: l) d = List.last (x :: l) v). by rewrite !IH.
Qed.

(** The adaptive window never thrashes and never leaves its bounds:
    whatever is observed, every published window lies between the configured
    minimum and maximum and differs from the one it replaces by at least a
    quarter of it (and at least one); the applied window is the last one
    published. *)
Theorem prefetch_window_controlled ops : forall c,
  ap_min c <= ap_max c -> ap_min c <= ap_current c <= ap_max c ->
  let '(changes, c') := run ops c in
  well_spaced (ap_min c) (ap_max c) (ap_current c) changes /\
  ap_current c' = List.last changes (ap_current c) /\ ap_min c <= ap_current c' <= ap_max c.
Proof.
  induction ops as [|[latency|] ops IH]; intros c Hb Hc; cbn [run]; [done| |].
  - exact (IH (observe latency c) Hb Hc).
  - pose proof (tick_cases c Hb) as Ht. destruct (tick c) as [[v|] c1].
    + destruct Ht as (E1 & E2 & E3 & Hv & Hh & _).
      specialize (IH c1). rewrite E1, E2, E3 in IH. specialize (IH Hb Hv).
      destruct (run ops c1) as [changes c']. destruct IH as (Hw & Hl & Hin).
      split; [done|]. split; [|done]. by rewrite Hl, last_cons.
    + destruct Ht as (_ & _ & ->). specialize (IH c Hb Hc). by destruct (run ops c).
Qed.

(** ** Witnesses *)

(** Three jobs of 50 ms against a buffer of one second ask for a window of
    twenty. *)
Definition warm_controller : AdaptivePrefetch := adaptive_new 1 100 10 (from_secs 1).
Definition warm_ops : list Op :=
  [Tick; Observe (from_millis 50); Observe (from_millis 50); Observe (from_millis 50); Tick; Tick].

Example warm_run : (run warm_ops warm_controller).1 = [20].
Proof. vm_compute. reflexivity. Qed.

Lemma prefetch_window_controlled_witness : well_spaced 1 100 10 [20].
Proof.
  assert (run warm_ops warm_controller = ([20], (run warm_ops warm_controller).2)) as E
    by (vm_compute; reflexivity).
  pose proof (prefetch_window_controlled warm_ops warm_controller) as H. rewrite E in H.
  apply H; simpl; lia.
Defined.

End Prefetch.
