(* ===== verification/Metrics.v ===== *)
(** * Latency histograms

    Models the histogram of [metrics.rs]: [record] as three atomic additions, the
    snapshot as one atomic load per field, and the percentile estimate in [f64].
    Recorders and a reader run concurrently; a label is one atomic access. *)

From Stdlib Require Import SpecFloat.
From S2P Require Import Prelude Prefetch.
Import Prefetch.
Local Open Scope Z_scope.

Module Metrics.

Definition LATENCY_BOUNDS_NS : list Z :=
  [100000; 500000; 1000000; 5000000; 10000000; 50000000; 100000000; 500000000; 1000000000; 5000000000].

(** [fetch_add] on an [AtomicU64] wraps around. *)
Definition fetch_add (a b : Z) : Z := (a + b) mod 2 ^ 64.

(** ** Recording *)

Record AtomicHistogram := mkHistogram {
  buckets : list Z;
  samples : Z;
  sum_ns : Z
}.

Definition histogram_default : AtomicHistogram := mkHistogram (replicate 11 0) 0 0.

(** [u64::try_from(duration.as_nanos()).unwrap_or(u64::MAX)] *)
Definition nanos (duration : Z) : Z := default U64_MAX (try_from U64_MAX duration).

(** [position(|bound| value <= bound)], the overflow bucket otherwise. *)
Fixpoint position (bounds : list Z) (value : Z) : nat :=
  match bounds with [] => 0 | b :: bounds' => if value <=? b then 0 else S (position bounds' value) end.

Definition bucket_of (duration : Z) : nat := position LATENCY_BOUNDS_NS (nanos duration).

Definition add_bucket (d : Z) (h : AtomicHistogram) : AtomicHistogram :=
  mkHistogram (alter (fun n => fetch_add n 1) (bucket_of d) (buckets h)) (samples h) (sum_ns h).
Definition add_sample (h : AtomicHistogram) : AtomicHistogram :=
  mkHistogram (buckets h) (fetch_add (samples h) 1) (sum_ns h).
Definition add_sum (d : Z) (h : AtomicHistogram) : AtomicHistogram :=
  mkHistogram (buckets h) (samples h) (fetch_add (sum_ns h) (nanos d)).

Definition record (d : Z) (h : AtomicHistogram) : AtomicHistogram := add_sum d (add_sample (add_bucket d h)).

(** ** Percentiles *)

Record HistogramSnapshot := mkSnapshot {
  hs_buckets : list Z;
  hs_samples : Z;
  hs_sum_ns : Z
}.

Definition f64_leb (x y : f64) : bool := SFleb x y.

(** [f64::clamp] *)
Definition f64_clamp (x lo hi : f64) : f64 := if SFltb x lo then lo else if SFltb hi x then hi else x.

(** [round_to_u64]: [clamp] to the non-negative [i64]s, [round] (halves away from
    zero), saturating casts. *)
Definition round_to_u64 (value : f64) : Z :=
  match f64_clamp value (S754_zero false) (f64_of_Z I64_MAX) with
  | S754_finite false m e =>
      Z.min I64_MAX (if 0 <=? e then Z.pos m * 2 ^ e else (2 * Z.pos m + 2 ^ (- e)) / 2 ^ (1 - e))
  | _ => 0
  end.

(** The loop over the buckets, from [index] on, with the counts before it. *)
Fixpoint percentile_loop (target : f64) (counts : list Z) (index : nat) (cumulative : Z) : Z :=
  match counts with
  | [] => nth 9 LATENCY_BOUNDS_NS 0
  | count :: counts' =>
      let previous := cumulative in
      let cumulative := sat_add U64_MAX cumulative count in
      let bucket_count := sat_sub cumulative previous in
      if f64_leb target (f64_of_Z cumulative) && negb (bucket_count =? 0) then
        let lower := match index with O => 0 | S i => nth i LATENCY_BOUNDS_NS 0 end in
        let upper := if (index <? 10)%nat then nth index LATENCY_BOUNDS_NS 0 else nth 9 LATENCY_BOUNDS_NS 0 * 2 in
        let position_in_bucket := f64_div (f64_sub target (f64_of_Z previous)) (f64_of_Z bucket_count) in
        round_to_u64 (f64_add (f64_of_Z lower) (f64_mul position_in_bucket (f64_of_Z (sat_sub upper lower))))
      else percentile_loop target counts' (S index) cumulative
  end.

Definition percentile_ns (s : HistogramSnapshot) (percentile : f64) : option Z :=
  if hs_samples s =? 0 then None
  else
    let percentile := f64_clamp percentile (S754_zero false) (f64_of_Z 100) in
    let target := f64_mul (f64_div percentile (f64_of_Z 100)) (f64_of_Z (hs_samples s)) in
    Some (percentile_loop target (hs_buckets s) 0 0).

(** ** Concurrent recorders *)

(** A call of [record] and how many of its three additions it has made. *)
Record Shared := mkShared { histogram : AtomicHistogram; recorders : list (Z * nat) }.

Inductive MetricsLabel := MCall (duration : Z) | MStep (i : nat).

Definition recorder_step (d : Z) (pc : nat) (h : AtomicHistogram) : option AtomicHistogram :=
  match pc with
  | 0%nat => Some (add_bucket d h)
  | 1%nat => Some (add_sample h)
  | 2%nat => Some (add_sum d h)
  | _ => None
  end.

Definition metrics_step (l : MetricsLabel) (s : Shared) : option Shared :=
  match l with
  | MCall d => Some (mkShared (histogram s) (recorders s ++ [(d, 0%nat)]))
  | MStep i =>
      match recorders s !! i with
      | Some (d, pc) => (fun h => mkShared h (<[i := (d, S pc)]> (recorders s))) <$> recorder_step d pc (histogram s)
      | None => None
      end
  end.

Inductive reach : Shared -> Prop :=
| reach_new : reach (mkShared histogram_default [])
| reach_step l s s' : reach s -> metrics_step l s = Some s' -> reach s'.

Fixpoint run (ls : list MetricsLabel) (s : Shared) : option Shared :=
  match ls with
  | [] => Some s
  | l :: ls' => match metrics_step l s with Some s' => run ls' s' | None => None end
  end.

Lemma metrics_run_reach ls : forall s s', reach s -> run ls s = Some s' -> reach s'.
Proof.
  induction ls as [|l ls IH]; intros s s' Hr; simpl; [by intros [= <-]|].
  destruct (metrics_step l s) as [s1|] eqn:E; [|done]. apply IH. by eapply reach_step.
Qed.

(** ** What a histogram counts *)

Definition in_bucket (i : nat) (r : Z * nat) : Z := if (0 <? r.2)%nat && (bucket_of r.1 =? i)%nat then 1 else 0.
Definition sampled (r : Z * nat) : Z := if (1 <? r.2)%nat then 1 else 0.
Definition summed (r : Z * nat) : Z := if (2 <? r.2)%nat then nanos r.1 else 0.

Definition u64 (v : Z) : Z := v mod 2 ^ 64.

(** The histogram of the additions made so far. *)
Definition counted (rs : list (Z * nat)) : AtomicHistogram :=
  mkHistogram ((fun i => u64 (sumZ (in_bucket i) rs)) <$> seq 0 11) (u64 (sumZ sampled rs)) (u64 (sumZ summed rs)).

Lemma u64_add a b : fetch_add (u64 a) b = u64 (a + b).
Proof. unfold fetch_add, u64. by rewrite Zplus_mod_idemp_l. Qed.

Lemma bucket_bound d : (bucket_of d < 11)%nat.
Proof. unfold bucket_of, LATENCY_BOUNDS_NS. cbn [position]. repeat destruct (_ <=? _); lia. Qed.

Lemma count_step (f : Z * nat -> Z) rs i d pc :
  rs !! i = Some (d, pc) -> sumZ f (<[i := (d, S pc)]> rs) = sumZ f rs + (f (d, S pc) - f (d, pc)).
Proof. intros Hi. rewrite (sumZ_insert _ _ _ _ _ Hi). lia. Qed.

Lemma counted_step rs i d pc h :
  rs !! i = Some (d, pc) -> recorder_step d pc (counted rs) = Some h -> h = counted (<[i := (d, S pc)]> rs).
Proof.
  intros Hi. unfold counted. rewrite !(count_step _ _ _ _ _ Hi).
  assert (forall j, sumZ (in_bucket j) (<[i := (d, S pc)]> rs) =
    sumZ (in_bucket j) rs + (in_bucket j (d, S pc) - in_bucket j (d, pc))) as Hb by (intros j; by apply count_step).
  unfold sampled at 2 3, summed at 2 3. unfold in_bucket at 3 4 in Hb. cbn [fst snd] in *.
  destruct pc as [|[|[|]]]; cbn [recorder_step]; intros Hs; [..|done]; apply (inj Some) in Hs; subst h; unfold add_bucket, add_sample, add_sum; cbn [buckets samples sum_ns];
    cbn [Nat.ltb Nat.leb andb] in *; rewrite ?Z.sub_diag, ?Z.add_0_r, ?Z.sub_0_r, ?u64_add;
    apply (f_equal (fun l => mkHistogram l _ _));
    apply list_eq; intros j; rewrite ?list_lookup_alter; try (case_decide as E; [subst j|]); rewrite !list_lookup_fmap.
  - rewrite lookup_seq_lt by apply bucket_bound. cbn [fmap option_fmap option_map Nat.add].
    by rewrite Hb, Nat.eqb_refl, Z.sub_0_r, u64_add.
  - destruct (decide (j < 11)%nat) as [Hj|Hj]; [rewrite lookup_seq_lt by done|by rewrite lookup_seq_ge by lia].
    cbn [fmap option_fmap option_map Nat.add]. rewrite Hb.
    destruct (Nat.eqb_spec (bucket_of d) j); [congruence|]. by rewrite Z.add_0_r.
  - destruct (decide (j < 11)%nat) as [Hj|Hj]; [rewrite lookup_seq_lt by done|by rewrite lookup_seq_ge by lia].
    cbn [fmap option_fmap option_map Nat.add]. by rewrite Hb, Z.sub_diag, Z.add_0_r.
  - destruct (decide (j < 11)%nat) as [Hj|Hj]; [rewrite lookup_seq_lt by done|by rewrite lookup_seq_ge by lia].
    cbn [fmap option_fmap option_map Nat.add]. by rewrite Hb, Z.sub_diag, Z.add_0_r.
Qed.

Lemma counted_perm rs rs' : rs ≡ₚ rs' -> counted rs = counted rs'.
Proof.
  intros H. unfold counted. rewrite !(sumZ_perm _ _ _ H). apply (f_equal (fun l => mkHistogram l _ _)).
  apply list_fmap_ext. intros j x _. by rewrite (sumZ_perm _ _ _ H).
Qed.

Lemma counted_call rs d : counted (rs ++ [(d, 0%nat)]) = counted rs.
Proof.
  unfold counted. rewrite !sumZ_app, !sumZ_cons, !sumZ_nil, !Z.add_0_r.
  apply (f_equal (fun l => mkHistogram l _ _)). apply list_fmap_ext. intros j x _.
  by rewrite sumZ_app, sumZ_cons, sumZ_nil, !Z.add_0_r.
Qed.

Lemma counted_new : counted [] = histogram_default.
Proof. reflexivity. Qed.

(** A whole call of [record] is its three steps. *)
Lemma counted_record rs d : record d (counted rs) = counted (rs ++ [(d, 3%nat)]).
Proof.
  pose proof (fun pc => list_lookup_middle rs [] (d, pc) (length rs) eq_refl) as Hl.
  assert (forall pc, <[length rs := (d, S pc)]> (rs ++ [(d, pc)]) = (rs ++ [(d, S pc)])%list) as Hins.
  { intros pc. by rewrite insert_app_r_alt, Nat.sub_diag by lia. }
  rewrite <- (Hins 2%nat), <- (counted_step _ _ _ _ _ (Hl 2%nat) eq_refl). unfold record. f_equal.
  rewrite <- (Hins 1%nat), <- (counted_step _ _ _ _ _ (Hl 1%nat) eq_refl). f_equal.
  rewrite <- (Hins 0%nat), <- (counted_step _ _ _ _ _ (Hl 0%nat) eq_refl). f_equal. by rewrite counted_call.
Qed.

Lemma recorded_all ds : foldr record histogram_default ds = counted ((fun d => (d, 3%nat)) <$> ds).
Proof.
  induction ds as [|d ds IH]; [by rewrite <- counted_new|]. cbn [foldr fmap list_fmap]. rewrite IH, counted_record.
  apply counted_perm. by rewrite <- Permutation_cons_append.
Qed.

Lemma position_spec bounds value :
  (forall b, bounds !! position bounds value = Some b -> value <= b) /\
  (forall k b, (k < position bounds value)%nat -> bounds !! k = Some b -> b < value).
Proof.
  induction bounds as [|x bounds [IH1 IH2]]; cbn [position]; [split; [done|lia]|].
  destruct (Z.leb_spec value x); split; cbn; try done.
  - by intros b [= <-].
  - lia.
  - intros [|k] b Hk; cbn; [by intros [= <-]|]. apply IH2. lia.
Qed.

Lemma metrics_counted s : reach s -> histogram s = counted (recorders s).
Proof.
  induction 1 as [|l s s' _ IH Hs]; [done|]. destruct l as [d|i]; cbn [metrics_step] in Hs.
  - injection Hs as <-. cbn. by rewrite IH, counted_call.
  - destruct (recorders s !! i) as [[d pc]|] eqn:Hi; [|done]. apply fmap_Some in Hs as (h & Hh & ->).
    rewrite IH in Hh. by apply (counted_step _ _ _ _ _ Hi).
Qed.

(** ** Theorem *)

(** C40. Concurrent recorders lose nothing: at any moment each bucket, the sample
    count and the sum hold exactly the additions made so far (modulo 2^64), and when
    every call has finished the histogram is the one that the same calls made one
    after the other, in any order, would leave. A duration is counted in the bucket
    whose bound is the first not below it. *)
Theorem histogram_exact s :
  reach s ->
  histogram s = counted (recorders s) /\
  (Forall (fun r => r.2 = 3%nat) (recorders s) -> forall ds, ds ≡ₚ (recorders s).*1 ->
     histogram s = foldr record histogram_default ds) /\
  (forall d b, LATENCY_BOUNDS_NS !! bucket_of d = Some b -> nanos d <= b) /\
  (forall d k b, (k < bucket_of d)%nat -> LATENCY_BOUNDS_NS !! k = Some b -> b < nanos d).
Proof.
  intros Hr. split; [by apply metrics_counted|]. split; [|split; intros d; apply position_spec].
  intros Hd ds Hp. rewrite (metrics_counted _ Hr), recorded_all. apply counted_perm. rewrite Hp, <- list_fmap_compose.
  clear Hr Hp. induction Hd as [|[d pc] rs E _ IH]; [done|]. cbn in *. subst pc. by constructor.
Qed.

(** Two calls interleaved. *)
Definition interleaved : list MetricsLabel :=
  [MCall 50000; MStep 0; MCall 7000000000; MStep 1; MStep 1; MStep 0; MStep 0; MStep 1].

Lemma histogram_exact_witness :
  exists s, run interleaved (mkShared histogram_default []) = Some s /\
    histogram s = record 7000000000 (record 50000 histogram_default).
Proof.
  eexists. split; [vm_compute; reflexivity|].
  refine (proj1 (proj2 (histogram_exact _ (metrics_run_reach interleaved _ _ reach_new eq_refl))) _ [7000000000; 50000] _).
  - by repeat constructor.
  - vm_compute. constructor.
Defined.

(** ** Percentiles of the code's own tests *)

Definition in_first (n : Z) : HistogramSnapshot := mkSnapshot (n :: replicate 10 0) n 0.

Example percentile_half : percentile_ns (in_first 10) (f64_of_Z 50) = Some 50000.
Proof. vm_compute. reflexivity. Qed.

Example percentile_empty : percentile_ns (in_first 0) (f64_of_Z 50) = None.
Proof. reflexivity. Qed.

Example percentile_crosses :
  percentile_ns (mkSnapshot (50 :: 50 :: replicate 9 0) 100 0) (f64_of_Z 95) = Some 460000.
Proof. vm_compute. reflexivity. Qed.

Example percentile_overflow :
  percentile_ns (mkSnapshot (replicate 10 0 ++ [10]) 10 0) (f64_of_Z 99) = Some 9950000000.
Proof. vm_compute. reflexivity. Qed.

(** A snapshot reads the buckets before the sample count. A call that ends in
    between is counted but in no bucket, and the estimate is then the last bound:
    five seconds for one call of 50 microseconds. *)
Example percentile_of_torn_snapshot :
  percentile_ns (mkSnapshot (buckets histogram_default) (samples (record 50000 histogram_default)) 0) (f64_of_Z 50) =
  Some 5000000000.
Proof. vm_compute. reflexivity. Qed.

End Metrics.
