(* ===== verification/ConsumerActor.v ===== *)
(** * The consumer actor

    Models [consumer/actor.rs]: the actor of one consumer set. It takes
    deliveries from the broker, holds them within a byte budget, hands them to
    the embedder in weighted-fair order with a settlement token each, and
    executes the embedder's settlements: plain acknowledgements coalesce into
    one cumulative acknowledgement per channel, everything else runs one at a
    time per channel.

    State. The source's [ActorState] is split in what never changes ([Config])
    and three records: [Intake] (deliveries on their way in), [Books] (ledgers
    and settlements), [Shared] (tokens, errors, metrics and the logs of what
    was sent). A token is an index of [tokens], the store its two atomics live
    in. The hand-off flume is the list [flume]. [delivered], [finished],
    [handed] and [ack_requests] are logs the theorems speak about: tags
    received, tags dropped from a ledger, tokens put in the flume, tokens the
    embedder asked to acknowledge.

    Environment. What the transport and the publisher answer to a settlement
    is an input ([Answers]); a spawned fire-and-forget channel operation waits
    in [spawned] until it runs. *)

From stdpp Require Import pretty.
From S2P Require Import Prelude Transport Publication Scheduler Attempts DelayTopology DelayRouting.
From S2P Require Import Prefetch Delivery.
Import Transport Publication DelayTopology Delivery.
Local Open Scope Z_scope.
Local Open Scope rabbit_scope.

Module ConsumerActor.
Import Scheduler(WeightedFairScheduler).
Import Prefetch(AdaptivePrefetch).

(** ** Data *)

(** (subscription, channel id, generation) *)
Definition ChannelKey : Type := string * Z * Z.

Definition SOURCE_ERROR_CAPACITY : nat := 64.
Definition ERROR_CHANNEL_CAPACITY : nat := 256.

(** [token] is the index of the token handed out for the delivery. *)
Record ChannelLedgerEntry := mkEntry {
  le_state : DeliveryState;
  le_token : option nat
}.

Record ChannelLedger := mkLedger {
  pending : gmap Z ChannelLedgerEntry;
  acked_prefix : Z
}.

Definition ledger_default : ChannelLedger := mkLedger ∅ 0.

Record SettleParams := mkSettleParams {
  sp_token : nat;
  sp_settlement : Settlement
}.

Record SettleThroughParams := mkThroughParams {
  stp_token : nat;
  stp_affected : list nat
}.

Inductive PrefetchConfig :=
| Fixed (value : Z)
| Adaptive (initial min max target_buffer : Z).

Definition initial_value (p : PrefetchConfig) : Z :=
  match p with Fixed v => v | Adaptive initial _ _ _ => initial end.

Definition ceiling (p : PrefetchConfig) : Z :=
  match p with Fixed v => v | Adaptive _ _ max _ => max end.

(** [publisher] is the confirm timeout of the delayed publisher's handle. *)
Record RuntimeSubscription := mkRuntime {
  rt_connection_key : Z;
  rt_generation : Z;
  rt_channel_id : Z;
  rt_publisher : option Z;
  rt_destination : option Destination;
  rt_delay_strategy : option DelayStrategy;
  rt_early_ack : bool;
  rt_no_ack : bool;
  rt_max_attempts : option Z;
  rt_has_dead_letter : bool;
  rt_queue : string;
  rt_prefetch : PrefetchConfig
}.

(** A settlement whose future is pending. *)
Record PendingSettlement := mkPendingSettlement {
  ps_key : ChannelKey;
  ps_launch : RuntimeSubscription;
  ps_params : SettleParams
}.

Record PendingThrough := mkPendingThrough {
  pt_key : ChannelKey;
  pt_launch : RuntimeSubscription;
  pt_target : Z;
  pt_params : SettleThroughParams
}.

(** An operation on the channel of a subscription. *)
Inductive WireOp :=
| WAck (key : ChannelKey) (tag : Z) (multiple : bool)
| WReject (key : ChannelKey) (tag : Z) (requeue : bool).

(** A fire-and-forget operation: [channel.ack(tag, false)] or
    [channel.reject(tag, false)] in a task of its own. *)
Inductive Spawned :=
| SpawnAck (key : ChannelKey) (tag : Z)
| SpawnReject (key : ChannelKey) (tag : Z).

Definition spawned_op (x : Spawned) : WireOp :=
  match x with
  | SpawnAck key tag => WAck key tag false
  | SpawnReject key tag => WReject key tag false
  end.

(** An item of the hand-off flume: a delivery (its token) or a source error. *)
Abbreviation Item := (result nat ConsumerError).

Record Metrics := mkMetrics {
  m_deliveries : Z;
  m_duplicates : Z;
  m_acks : Z;
  m_rejects : Z;
  m_backpressure : Z
}.

Record Config := mkConfig {
  c_subscriptions : gmap string RuntimeSubscription;
  c_max_buffered_bytes : gmap string Z;
  c_pending_capacity : Z;
  c_early_acked_capacity : Z;
  c_flume_capacity : Z
}.

Record Intake := mkIntake {
  buffers : gmap string (list TransportDelivery);
  buffered_bytes : gmap string Z;
  pending_incoming : list (string * TransportDelivery);
  source_errors : list ConsumerError;
  scheduler : WeightedFairScheduler;
  flume : list Item;
  flume_error_items : Z;
  early_acked_tags : gmap ChannelKey (list Z)
}.

Record Books := mkBooks {
  channel_ledgers : gmap ChannelKey ChannelLedger;
  acked_batch : gmap ChannelKey (gmap Z nat);
  pending_settlements : list PendingSettlement;
  pending_settle_throughs : list PendingThrough;
  settlement_in_flight : gset ChannelKey;
  settlement_queues : gmap ChannelKey (list SettleParams);
  settle_through_queues : gmap ChannelKey (list SettleThroughParams)
}.

Record Shared := mkShared {
  tokens : list Token;
  errors : list SettlementError;
  adaptive_prefetch : gmap string AdaptivePrefetch;
  qos : gmap string Z;
  metrics : Metrics;
  spawned : list Spawned;
  wire : list WireOp;
  published : list PublishRequest;
  delivered : list (ChannelKey * Z);
  finished : list (ChannelKey * Z);
  handed : list nat;
  ack_requests : list nat
}.

Record State := mkState { intake : Intake; books : Books; shared : Shared }.

(** ** Field updates *)

Definition set_buffers (v : gmap string (list TransportDelivery)) (i : Intake) : Intake :=
  mkIntake
    v (buffered_bytes i) (pending_incoming i) (source_errors i) (scheduler i) (flume i)
    (flume_error_items i) (early_acked_tags i).

Definition set_buffered_bytes (v : gmap string Z) (i : Intake) : Intake :=
  mkIntake
    (buffers i) v (pending_incoming i) (source_errors i) (scheduler i) (flume i)
    (flume_error_items i) (early_acked_tags i).

Definition set_pending_incoming (v : list (string * TransportDelivery)) (i : Intake) : Intake :=
  mkIntake
    (buffers i) (buffered_bytes i) v (source_errors i) (scheduler i) (flume i)
    (flume_error_items i) (early_acked_tags i).

Definition set_source_errors (v : list ConsumerError) (i : Intake) : Intake :=
  mkIntake
    (buffers i) (buffered_bytes i) (pending_incoming i) v (scheduler i) (flume i)
    (flume_error_items i) (early_acked_tags i).

Definition set_scheduler (v : WeightedFairScheduler) (i : Intake) : Intake :=
  mkIntake
    (buffers i) (buffered_bytes i) (pending_incoming i) (source_errors i) v (flume i)
    (flume_error_items i) (early_acked_tags i).

Definition set_flume (v : list Item) (i : Intake) : Intake :=
  mkIntake
    (buffers i) (buffered_bytes i) (pending_incoming i) (source_errors i) (scheduler i) v
    (flume_error_items i) (early_acked_tags i).

Definition set_flume_error_items (v : Z) (i : Intake) : Intake :=
  mkIntake
    (buffers i) (buffered_bytes i) (pending_incoming i) (source_errors i) (scheduler i)
    (flume i) v (early_acked_tags i).

Definition set_early_acked_tags (v : gmap ChannelKey (list Z)) (i : Intake) : Intake :=
  mkIntake
    (buffers i) (buffered_bytes i) (pending_incoming i) (source_errors i) (scheduler i)
    (flume i) (flume_error_items i) v.

Definition set_channel_ledgers (v : gmap ChannelKey ChannelLedger) (b : Books) : Books :=
  mkBooks
    v (acked_batch b) (pending_settlements b) (pending_settle_throughs b)
    (settlement_in_flight b) (settlement_queues b) (settle_through_queues b).

Definition set_acked_batch (v : gmap ChannelKey (gmap Z nat)) (b : Books) : Books :=
  mkBooks
    (channel_ledgers b) v (pending_settlements b) (pending_settle_throughs b)
    (settlement_in_flight b) (settlement_queues b) (settle_through_queues b).

Definition set_pending_settlements (v : list PendingSettlement) (b : Books) : Books :=
  mkBooks
    (channel_ledgers b) (acked_batch b) v (pending_settle_throughs b) (settlement_in_flight
    b) (settlement_queues b) (settle_through_queues b).

Definition set_pending_settle_throughs (v : list PendingThrough) (b : Books) : Books :=
  mkBooks
    (channel_ledgers b) (acked_batch b) (pending_settlements b) v (settlement_in_flight b)
    (settlement_queues b) (settle_through_queues b).

Definition set_settlement_in_flight (v : gset ChannelKey) (b : Books) : Books :=
  mkBooks
    (channel_ledgers b) (acked_batch b) (pending_settlements b) (pending_settle_throughs b)
    v (settlement_queues b) (settle_through_queues b).

Definition set_settlement_queues (v : gmap ChannelKey (list SettleParams)) (b : Books) : Books :=
  mkBooks
    (channel_ledgers b) (acked_batch b) (pending_settlements b) (pending_settle_throughs b)
    (settlement_in_flight b) v (settle_through_queues b).

Definition set_settle_through_queues (v : gmap ChannelKey (list SettleThroughParams)) (b : Books) : Books :=
  mkBooks
    (channel_ledgers b) (acked_batch b) (pending_settlements b) (pending_settle_throughs b)
    (settlement_in_flight b) (settlement_queues b) v.

Definition set_tokens (v : list Token) (h : Shared) : Shared :=
  mkShared
    v (errors h) (adaptive_prefetch h) (qos h) (metrics h) (spawned h) (wire h) (published
    h) (delivered h) (finished h) (handed h) (ack_requests h).

Definition set_errors (v : list SettlementError) (h : Shared) : Shared :=
  mkShared
    (tokens h) v (adaptive_prefetch h) (qos h) (metrics h) (spawned h) (wire h) (published
    h) (delivered h) (finished h) (handed h) (ack_requests h).

Definition set_adaptive_prefetch (v : gmap string AdaptivePrefetch) (h : Shared) : Shared :=
  mkShared
    (tokens h) (errors h) v (qos h) (metrics h) (spawned h) (wire h) (published h)
    (delivered h) (finished h) (handed h) (ack_requests h).

Definition set_qos (v : gmap string Z) (h : Shared) : Shared :=
  mkShared
    (tokens h) (errors h) (adaptive_prefetch h) v (metrics h) (spawned h) (wire h)
    (published h) (delivered h) (finished h) (handed h) (ack_requests h).

Definition set_metrics (v : Metrics) (h : Shared) : Shared :=
  mkShared
    (tokens h) (errors h) (adaptive_prefetch h) (qos h) v (spawned h) (wire h) (published h)
    (delivered h) (finished h) (handed h) (ack_requests h).

Definition set_spawned (v : list Spawned) (h : Shared) : Shared :=
  mkShared
    (tokens h) (errors h) (adaptive_prefetch h) (qos h) (metrics h) v (wire h) (published h)
    (delivered h) (finished h) (handed h) (ack_requests h).

Definition set_wire (v : list WireOp) (h : Shared) : Shared :=
  mkShared
    (tokens h) (errors h) (adaptive_prefetch h) (qos h) (metrics h) (spawned h) v (published
    h) (delivered h) (finished h) (handed h) (ack_requests h).

Definition set_published (v : list PublishRequest) (h : Shared) : Shared :=
  mkShared
    (tokens h) (errors h) (adaptive_prefetch h) (qos h) (metrics h) (spawned h) (wire h) v
    (delivered h) (finished h) (handed h) (ack_requests h).

Definition set_delivered (v : list (ChannelKey * Z)) (h : Shared) : Shared :=
  mkShared
    (tokens h) (errors h) (adaptive_prefetch h) (qos h) (metrics h) (spawned h) (wire h)
    (published h) v (finished h) (handed h) (ack_requests h).

Definition set_finished (v : list (ChannelKey * Z)) (h : Shared) : Shared :=
  mkShared
    (tokens h) (errors h) (adaptive_prefetch h) (qos h) (metrics h) (spawned h) (wire h)
    (published h) (delivered h) v (handed h) (ack_requests h).

Definition set_handed (v : list nat) (h : Shared) : Shared :=
  mkShared
    (tokens h) (errors h) (adaptive_prefetch h) (qos h) (metrics h) (spawned h) (wire h)
    (published h) (delivered h) (finished h) v (ack_requests h).

Definition set_ack_requests (v : list nat) (h : Shared) : Shared :=
  mkShared
    (tokens h) (errors h) (adaptive_prefetch h) (qos h) (metrics h) (spawned h) (wire h)
    (published h) (delivered h) (finished h) (handed h) v.

Definition on_intake (f : Intake -> Intake) (s : State) : State :=
  mkState (f (intake s)) (books s) (shared s).
Definition on_books (f : Books -> Books) (s : State) : State :=
  mkState (intake s) (f (books s)) (shared s).
Definition on_shared (f : Shared -> Shared) (s : State) : State :=
  mkState (intake s) (books s) (f (shared s)).

Definition upd_token (n : nat) (f : Token -> Token) : State -> State :=
  on_shared (fun h => set_tokens (alter f n (tokens h)) h).

Definition store_state (n : nat) (st : DeliveryState) : State -> State := upd_token n (set_state st).
Definition store_settling (n : nat) (b : bool) : State -> State := upd_token n (set_settling b).

Definition spawn_op (op : Spawned) : State -> State :=
  on_shared (fun h => set_spawned (spawned h ++ [op]) h).

Definition log_wire (ops : list WireOp) : State -> State :=
  on_shared (fun h => set_wire (wire h ++ ops) h).

Definition log_finished (k : ChannelKey) (tags : list Z) : State -> State :=
  on_shared (fun h => set_finished (finished h ++ ((fun t => (k, t)) <$> tags)) h).

Definition log_ack_requests (l : list nat) : State -> State :=
  on_shared (fun h => set_ack_requests (ack_requests h ++ l) h).

Definition on_metrics (f : Metrics -> Metrics) : State -> State :=
  on_shared (fun h => set_metrics (f (metrics h)) h).
Definition record_delivery : State -> State :=
  on_metrics (fun m => mkMetrics (m_deliveries m + 1) (m_duplicates m) (m_acks m) (m_rejects m) (m_backpressure m)).
Definition record_duplicate : State -> State :=
  on_metrics (fun m => mkMetrics (m_deliveries m) (m_duplicates m + 1) (m_acks m) (m_rejects m) (m_backpressure m)).
Definition record_ack : State -> State :=
  on_metrics (fun m => mkMetrics (m_deliveries m) (m_duplicates m) (m_acks m + 1) (m_rejects m) (m_backpressure m)).
Definition record_reject : State -> State :=
  on_metrics (fun m => mkMetrics (m_deliveries m) (m_duplicates m) (m_acks m) (m_rejects m + 1) (m_backpressure m)).
Definition record_backpressure : State -> State :=
  on_metrics (fun m => mkMetrics (m_deliveries m) (m_duplicates m) (m_acks m) (m_rejects m) (m_backpressure m + 1)).

Section Actor.
Variable sha256 : string -> string.
Variable cfg : Config.

(** ** Lookups *)

Definition runtime_key (sub : string) (r : RuntimeSubscription) : ChannelKey :=
  (sub, rt_channel_id r, rt_generation r).

Definition channel_key_for (sub : string) : option ChannelKey :=
  runtime_key sub <$> c_subscriptions cfg !! sub.

Definition early_acked (tag : Z) (key : ChannelKey) (s : State) : bool :=
  match early_acked_tags (intake s) !! key with
  | Some ring => bool_decide (tag ∈ ring)
  | None => false
  end.

Definition remember_early_acked (tag : Z) (key : ChannelKey) : State -> State :=
  on_intake (fun i =>
    let ring := default [] (early_acked_tags i !! key) in
    let ring := if c_early_acked_capacity cfg <=? Z.of_nat (length ring) then tail ring else ring in
    set_early_acked_tags (<[key := ring ++ [tag]]> (early_acked_tags i)) i).

(** ** Errors *)

Definition record_source_error (e : ConsumerError) : State -> State :=
  on_intake (fun i =>
    let l := source_errors i in
    let l := if (SOURCE_ERROR_CAPACITY <=? length l)%nat then tail l else l in
    set_source_errors (l ++ [e]) i).

(** The bounded error channel: the oldest error makes room. *)
Definition record_settlement_error (e : SettlementError) : State -> State :=
  on_shared (fun h =>
    let l := errors h in
    let l := if (ERROR_CHANNEL_CAPACITY <=? length l)%nat then tail l else l in
    set_errors (l ++ [e]) h).

Definition settlement_error (t : Token) (kind : ConsumerErrorKind) (message : string) : SettlementError :=
  mkSettlementError (tk_delivery_tag t) (tk_subscription t) kind message.

(** [record_settlement_error(settlement_error(token, ...))] *)
Definition fail_token (n : nat) (kind : ConsumerErrorKind) (message : string) (s : State) : State :=
  match tokens (shared s) !! n with
  | Some t => record_settlement_error (settlement_error t kind message) s
  | None => s
  end.

(** ** Byte accounting and ledgers *)

Definition alter_bytes (f : Z -> Z) (sub : string) : State -> State :=
  on_intake (fun i => set_buffered_bytes (alter f sub (buffered_bytes i)) i).

Definition add_bytes (n : Z) : string -> State -> State :=
  alter_bytes (fun b => sat_add U64_MAX b n).
Definition release_bytes (n : Z) : string -> State -> State :=
  alter_bytes (fun b => sat_sub b n).

(** [ledger.pending.remove(&tag)] for each tag, where the ledger exists. *)
Definition ledger_remove (key : ChannelKey) (tags : list Z) (s : State) : State :=
  match channel_ledgers (books s) !! key with
  | Some l =>
      log_finished key tags
        (on_books (fun b => set_channel_ledgers
          (<[key := mkLedger (foldr delete (pending l) tags) (acked_prefix l)]> (channel_ledgers b)) b) s)
  | None => s
  end.

(** ** Poison deliveries *)

Definition poison_settlement_message (detail message_id : string) (has_dead_letter : bool) : string :=
  if has_dead_letter
  then detail +:+ "; message " +:+ message_id +:+ " rejected with requeue=false toward the dead-letter exchange"
  else detail +:+ "; message " +:+ message_id +:+ " acknowledged and dropped (no dead-letter exchange configured)".

(** [spawn_poison_settlement]: the terminal state and the spawned operation. *)
Definition poison_op (key : ChannelKey) (has_dead_letter : bool) (tag : Z) : DeliveryState * Spawned :=
  if has_dead_letter then (Rejected, SpawnReject key tag) else (Acked, SpawnAck key tag).

Definition record_poison_metrics (has_dead_letter : bool) : State -> State :=
  if has_dead_letter then record_reject else record_ack.

Definition settle_poison (sub : string) (has_dead_letter : bool) (tag : Z) (message_id : string)
    (payload_bytes : Z) (detail : string) (identity : option (Z * Z * Z)) (s : State) : State :=
  let s :=
    match c_subscriptions cfg !! sub with
    | Some r =>
        if negb (rt_no_ack r) &&
           bool_decide (identity = Some (rt_connection_key r, rt_generation r, rt_channel_id r))
        then spawn_op (poison_op (runtime_key sub r) has_dead_letter tag).2 s else s
    | None => s
    end in
  let s := record_poison_metrics has_dead_letter s in
  let s := release_bytes payload_bytes sub s in
  let s := match channel_key_for sub with Some key => ledger_remove key [tag] s | None => s end in
  record_settlement_error
    (mkSettlementError tag sub CMaxAttempts (poison_settlement_message detail message_id has_dead_letter)) s.

Definition settle_oversized (sub : string) (d : TransportDelivery) (s : State) : State :=
  let bytes := payload_len (td_payload d) in
  let s := add_bytes bytes sub s in
  let runtime := c_subscriptions cfg !! sub in
  let has_dead_letter := match runtime with Some r => rt_has_dead_letter r | None => false end in
  let message_id := default (pretty (td_delivery_tag d)) (td_message_id d) in
  let identity := (fun r => (rt_connection_key r, rt_generation r, rt_channel_id r)) <$> runtime in
  settle_poison sub has_dead_letter (td_delivery_tag d) message_id bytes
    "message size exceeds max_buffered_bytes" identity s.

(** ** Taking deliveries in *)

Definition bytes_of (sub : string) (s : State) : Z := default 0 (buffered_bytes (intake s) !! sub).

Definition over_budget (sub : string) (bytes : Z) (s : State) : bool :=
  match c_max_buffered_bytes cfg !! sub with
  | Some max => max <? sat_add U64_MAX (bytes_of sub s) bytes
  | None => false
  end.

(** [delivery_bytes > max.unwrap_or(u64::MAX)] *)
Definition oversized (sub : string) (bytes : Z) : bool :=
  default U64_MAX (c_max_buffered_bytes cfg !! sub) <? bytes.

(** The delivery joins its subscription's buffer. *)
Definition push_buffer (sub : string) (d : TransportDelivery) (s : State) : State :=
  match buffers (intake s) !! sub with
  | Some buffer =>
      on_intake (fun i => set_scheduler (Scheduler.mark_ready (scheduler i) sub)
        (set_buffers (<[sub := buffer ++ [d]]> (buffers i)) i)) s
  | None => s
  end.

Definition set_pending (l : list (string * TransportDelivery)) : State -> State :=
  on_intake (set_pending_incoming l).

(** [drain_pending] on the deque [l]. *)
Fixpoint drain_loop (l : list (string * TransportDelivery)) (s : State) : State :=
  match l with
  | [] => set_pending [] s
  | (sub, d) :: l' =>
      let bytes := payload_len (td_payload d) in
      if over_budget sub bytes s then
        if oversized sub bytes then drain_loop l' (settle_oversized sub d s)
        else set_pending l s
      else drain_loop l' (add_bytes bytes sub (push_buffer sub d s))
  end.

Definition drain_pending (s : State) : State := drain_loop (pending_incoming (intake s)) s.

(** ** Handing deliveries out *)

(** [buffer_tx.try_send]: fails when the flume is full. *)
Definition try_send (it : Item) (s : State) : option State :=
  if Z.of_nat (length (flume (intake s))) <? c_flume_capacity cfg
  then Some (on_intake (fun i => set_flume (flume i ++ [it]) i) s) else None.

(** A token is created: its index and the store extended with it. *)
Definition new_token (sub : string) (r : RuntimeSubscription) (d : TransportDelivery)
    (message_id : string) (attempts : Z) (st : DeliveryState) (s : State) : nat * State :=
  let t := mkToken sub (rt_connection_key r) (rt_generation r) (rt_channel_id r) (td_delivery_tag d)
             message_id (td_correlation_id d) (td_payload d) (td_headers d) attempts st false in
  (length (tokens (shared s)), on_shared (fun h => set_tokens (tokens h ++ [t]) h) s).

Definition log_handed (n : nat) : State -> State :=
  on_shared (fun h => set_handed (handed h ++ [n]) h).

Definition set_buffer (sub : string) (l : list TransportDelivery) : State -> State :=
  on_intake (fun i => set_buffers (<[sub := l]> (buffers i)) i).

Definition on_scheduler (f : WeightedFairScheduler -> WeightedFairScheduler) : State -> State :=
  on_intake (fun i => set_scheduler (f (scheduler i)) i).

(** The delivery goes back to the front of its buffer. *)
Definition push_front (sub : string) (d : TransportDelivery) (s : State) : State :=
  on_scheduler (fun sch => Scheduler.mark_ready sch sub)
    (set_buffer sub (d :: default [] (buffers (intake s) !! sub)) s).

(** [if buffer.is_empty() { scheduler.mark_empty(..) }] *)
Definition mark_if_empty (sub : string) (s : State) : State :=
  match buffers (intake s) !! sub with
  | Some [] => on_scheduler (fun sch => Scheduler.mark_empty sch sub) s
  | _ => s
  end.

Definition message_id_of (r : RuntimeSubscription) (d : TransportDelivery) : string :=
  default (pretty (rt_generation r) +:+ ":" +:+ pretty (rt_channel_id r) +:+ ":" +:+ pretty (td_delivery_tag d))
    (td_message_id d).

(** The ledger entry of the delivery learns its token. *)
Definition set_entry_token (sub : string) (tag : Z) (n : nat) (s : State) : State :=
  match channel_key_for sub with
  | Some key =>
      match channel_ledgers (books s) !! key with
      | Some l =>
          on_books (fun b => set_channel_ledgers
            (<[key := mkLedger (alter (fun e => mkEntry (le_state e) (Some n)) tag (pending l))
                        (acked_prefix l)]> (channel_ledgers b)) b) s
      | None => s
      end
  | None => s
  end.

(** The early-acknowledgement branch of the dispatch loop. *)
Definition dispatch_early (sub : string) (r : RuntimeSubscription) (d : TransportDelivery)
    (attempts : Z) (s : State) : bool * State :=
  let tag := td_delivery_tag d in
  let key := runtime_key sub r in
  let s :=
    if negb (rt_no_ack r) && negb (early_acked tag key s)
    then spawn_op (SpawnAck key tag) (remember_early_acked tag key s) else s in
  let '(n, s) := new_token sub r d (message_id_of r d) attempts AutoAcked s in
  match try_send (Ok n) s with
  | None => (false, push_front sub d s)
  | Some s =>
      let s := mark_if_empty sub (log_handed n s) in
      let s := release_bytes (payload_len (td_payload d)) sub s in
      let s := record_delivery s in
      let s := if 1 <? attempts then record_duplicate s else s in
      (true, record_ack s)
  end.

Definition dispatch_token (sub : string) (r : RuntimeSubscription) (d : TransportDelivery)
    (attempts : Z) (s : State) : bool * State :=
  let '(n, s) := new_token sub r d (message_id_of r d) attempts Pending s in
  let s := set_entry_token sub (td_delivery_tag d) n s in
  match try_send (Ok n) s with
  | None => (false, push_front sub d s)
  | Some s =>
      let s := record_delivery (mark_if_empty sub (log_handed n s)) in
      (true, if 1 <? attempts then record_duplicate s else s)
  end.

(** One delivery popped from the buffer of [sub]. *)
Definition dispatch_delivery (sub : string) (d : TransportDelivery) (s : State) : bool * State :=
  match c_subscriptions cfg !! sub with
  | None => (false, push_front sub d s)
  | Some r =>
      match Attempts.resolve (Attempts.with_max_attempts Attempts.resolver_default (rt_max_attempts r))
              (td_headers d) (td_redelivered d) with
      | Ok attempts =>
          if rt_early_ack r then dispatch_early sub r d attempts s else dispatch_token sub r d attempts s
      | Err e =>
          if rt_early_ack r then
            dispatch_early sub r d (Attempts.ae_attempts e)
              (record_settlement_error (mkSettlementError (td_delivery_tag d) sub CMaxAttempts
                 (Attempts.attempts_error_display e)) s)
          else
            (true, settle_poison sub (rt_has_dead_letter r) (td_delivery_tag d) (message_id_of r d)
                     (payload_len (td_payload d)) (Attempts.attempts_error_display e)
                     (Some (rt_connection_key r, rt_generation r, rt_channel_id r)) s)
      end
  end.

(** One iteration of the dispatch loop; [true] is [continue]. *)
Definition dispatch_step (s : State) : bool * State :=
  match source_errors (intake s) with
  | e :: rest =>
      match try_send (Err e) s with
      | Some s =>
          (true, on_intake (fun i => set_source_errors rest
                   (set_flume_error_items (sat_add U64_MAX (flume_error_items i) 1) i)) s)
      | None => (false, s)
      end
  | [] =>
      let '(picked, sch) := Scheduler.pick (scheduler (intake s)) in
      let s := on_scheduler (fun _ => sch) s in
      match picked with
      | None => (false, s)
      | Some sub =>
          match buffers (intake s) !! sub with
          | Some (d :: rest) => dispatch_delivery sub d (set_buffer sub rest s)
          | _ => (false, on_scheduler (fun sch => Scheduler.mark_empty sch sub) s)
          end
      end
  end.

Fixpoint dispatch_loop (fuel : nat) (s : State) : State :=
  match fuel with
  | O => s
  | S fuel' => let '(continue, s) := dispatch_step s in if continue then dispatch_loop fuel' s else s
  end.

(** What the loop can still consume. *)
Definition stock (s : State) : nat :=
  length (source_errors (intake s)) + sum_list (length <$> (map_to_list (buffers (intake s))).*2).

Definition dispatch (s : State) : State :=
  let s := drain_pending s in dispatch_loop (S (stock s)) s.

Definition try_drain_pending (s : State) : State := dispatch (drain_pending s).

Definition dispatch_stock_drained (s : State) : bool :=
  forallb (fun b => bool_decide (b = [])) (map_to_list (buffers (intake s))).*2 &&
  (Z.of_nat (length (flume (intake s))) <=? flume_error_items (intake s)).

(** [handle_incoming] *)

Definition open_entry (key : ChannelKey) (tag : Z) (s : State) : State :=
  on_shared (fun h => set_delivered (delivered h ++ [(key, tag)]) h)
    (on_books (fun b =>
      let l := default ledger_default (channel_ledgers b !! key) in
      set_channel_ledgers
        (<[key := mkLedger (<[tag := mkEntry Pending None]> (pending l)) (acked_prefix l)]>
           (channel_ledgers b)) b) s).

Definition handle_incoming (sub : string) (res : result TransportDelivery TransportError) (s : State) : State :=
  match res with
  | Ok d =>
      let bytes := payload_len (td_payload d) in
      let s := match channel_key_for sub with
               | Some key => open_entry key (td_delivery_tag d) s
               | None => s
               end in
      if over_budget sub bytes s then
        if oversized sub bytes then settle_oversized sub d s
        else record_backpressure (set_pending (pending_incoming (intake s) ++ [(sub, d)]) s)
      else if bool_decide (pending_incoming (intake s) = []) then
        dispatch (add_bytes bytes sub (push_buffer sub d s))
      else
        dispatch (drain_pending (set_pending (pending_incoming (intake s) ++ [(sub, d)]) s))
  | Err error => dispatch (record_source_error (ce_new CTransport (te_message error)) s)
  end.

(** ** Adaptive prefetch *)

Definition observe_latency (sub : string) (latency : Z) : State -> State :=
  on_shared (fun h => set_adaptive_prefetch (alter (Prefetch.observe latency) sub (adaptive_prefetch h)) h).

(** The prefetch tick: every controller advances, changes are published. *)
Definition prefetch_tick (s : State) : State :=
  on_shared (fun h =>
    let updates := Prefetch.tick <$> adaptive_prefetch h in
    set_adaptive_prefetch (snd <$> updates)
      (set_qos (map_imap (fun sub v =>
         Some (match updates !! sub with Some (Some w, _) => w | _ => v end)) (qos h)) h)) s.

(** ** Executing settlements *)

(** What the outside answers to the calls of one settlement future. *)
Record Answers := mkAnswers {
  an_wire : result unit TransportError;
  an_publish : result PublishOutcome PublishError;
  an_now : Z
}.

Definition transport_error (e : TransportError) : ConsumerError := ce_new CTransport (te_message e).
Definition publish_error (e : PublishError) : ConsumerError := ce_new CPublish (pe_message e).

Definition ensure_live_generation (r : RuntimeSubscription) (t : Token) : result unit ConsumerError :=
  if bool_decide (rt_connection_key r = tk_connection_key t) &&
     (rt_generation r =? tk_generation t) && (rt_channel_id r =? tk_channel_id t)
  then Ok tt
  else Err (ce_new CStaleGeneration "delivery belongs to a stale connection generation or channel").

(** A channel call: its operation is sent, the answer is the transport's. *)
Definition wire_call (a : Answers) (op : WireOp) (st : DeliveryState)
  : result DeliveryState ConsumerError * list WireOp :=
  (match an_wire a with Ok _ => Ok st | Err e => Err (transport_error e) end, [op]).

(** The publication of a delayed release. *)
Definition delayed_request (r : RuntimeSubscription) (t : Token) (delay : Z) (now : Z)
  : result PublishRequest ConsumerError :=
  let? timeout := ok_or (rt_publisher r)
    (ce_new CMissingPublisher "delayed release requires a publisher") in
  let? destination := ok_or (rt_destination r)
    (ce_new CMissingPublisher "delayed release requires a destination") in
  let? strategy := ok_or (rt_delay_strategy r)
    (ce_new CMissingPublisher "delayed release requires a resolved delay strategy") in
  let? delay_ms := ok_or (try_from I64_MAX (as_millis delay))
    (ce_new CPublish "delay exceeds supported range") in
  let? route := map_err (ce_new CInvalidDelay) (DelayRouting.route sha256 strategy destination delay_ms) in
  let? headers := map_err (fun e => ce_new CMaxAttempts (Attempts.attempts_error_display e))
    (Attempts.delayed_headers (Attempts.with_max_attempts Attempts.resolver_default (rt_max_attempts r))
       (tk_headers t) (tk_attempts t)) in
  Ok (mkPublishRequest destination (tk_payload t)
        (mkMessageProperties (tk_message_id t) None (tk_correlation_id t) (Some delay_ms) headers)
        (now + timeout)).

(** [delayed_release]: the original is acknowledged only once the delayed
    copy is confirmed. *)
Definition delayed_release (a : Answers) (key : ChannelKey) (r : RuntimeSubscription) (t : Token) (delay : Z)
  : result DeliveryState ConsumerError * list WireOp * list PublishRequest :=
  match delayed_request r t delay (an_now a) with
  | Err e => (Err e, [], [])
  | Ok request =>
      match an_publish a with
      | Err e => (Err (publish_error e), [], [request])
      | Ok (Confirmed _) =>
          let '(res, ops) := wire_call a (WAck key (tk_delivery_tag t) false) Acked in
          (res, ops, [request])
      | Ok (Returned _ _) => (Err (ce_new CPublish "delayed release was not confirmed"), [], [request])
      end
  end.

Definition execute_settlement (a : Answers) (key : ChannelKey) (r : RuntimeSubscription)
    (settlement : Settlement) (t : Token)
  : result DeliveryState ConsumerError * list WireOp * list PublishRequest :=
  let tag := tk_delivery_tag t in
  match ensure_live_generation r t with
  | Err e => (Err e, [], [])
  | Ok _ =>
      match settlement with
      | SAck => (wire_call a (WAck key tag false) Acked, [])
      | SRelease delay =>
          if delay =? 0 then (wire_call a (WReject key tag true) Rejected, [])
          else delayed_release a key r t delay
      | SReject requeue => (wire_call a (WReject key tag requeue) Rejected, [])
      end
  end.

Definition execute_settle_through (a : Answers) (key : ChannelKey) (r : RuntimeSubscription)
    (target : Z) (t : Token) : result DeliveryState ConsumerError * list WireOp :=
  match ensure_live_generation r t with
  | Err e => (Err e, [])
  | Ok _ => wire_call a (WAck key target true) Acked
  end.

(** ** Launching settlements *)

(** [stage_settlement_launch] *)
Definition stage_settlement_launch (key : ChannelKey) (n : nat) (s : State)
  : option RuntimeSubscription * State :=
  let s1 := on_books (fun b => set_settlement_in_flight ({[key]} ∪ settlement_in_flight b) b) s in
  match tokens (shared s) !! n with
  | None => (None, s)
  | Some t =>
      match c_subscriptions cfg !! tk_subscription t with
      | Some r => (Some r, s1)
      | None =>
          let s2 := on_books (fun b => set_settlement_in_flight (settlement_in_flight b ∖ {[key]}) b) s1 in
          (None, fail_token n CInvalidSubscription "delivery references an unknown subscription"
                   (store_state n Lost s2))
      end
  end.

Definition launch_settlement (key : ChannelKey) (p : SettleParams) (s : State) : State :=
  match stage_settlement_launch key (sp_token p) s with
  | (None, s) => s
  | (Some r, s) =>
      on_books (fun b => set_pending_settlements
        (pending_settlements b ++ [mkPendingSettlement key r p]) b) s
  end.

Definition launch_settle_through (key : ChannelKey) (p : SettleThroughParams) (s : State) : State :=
  let target := match tokens (shared s) !! stp_token p with Some t => tk_delivery_tag t | None => 0 end in
  match stage_settlement_launch key (stp_token p) s with
  | (None, s) => s
  | (Some r, s) =>
      on_books (fun b => set_pending_settle_throughs
        (pending_settle_throughs b ++ [mkPendingThrough key r target p]) b) s
  end.

Definition queue_settlement (key : ChannelKey) (p : SettleParams) : State -> State :=
  on_books (fun b => set_settlement_queues
    (<[key := default [] (settlement_queues b !! key) ++ [p]]> (settlement_queues b)) b).

Definition queue_settle_through (key : ChannelKey) (p : SettleThroughParams) : State -> State :=
  on_books (fun b => set_settle_through_queues
    (<[key := default [] (settle_through_queues b !! key) ++ [p]]> (settle_through_queues b)) b).

(** Run at once, or wait for the settlement in flight on the channel. *)
Definition submit_settlement (key : ChannelKey) (p : SettleParams) (s : State) : State :=
  if decide (key ∈ settlement_in_flight (books s)) then queue_settlement key p s
  else launch_settlement key p s.

Definition drain_settlement_queue (key : ChannelKey) (s : State) : State :=
  match settlement_queues (books s) !! key with
  | Some (next :: rest) =>
      launch_settlement key next
        (on_books (fun b => set_settlement_queues (<[key := rest]> (settlement_queues b)) b) s)
  | _ =>
      let s := on_books (fun b => set_settlement_queues (delete key (settlement_queues b)) b) s in
      match settle_through_queues (books s) !! key with
      | Some (next :: rest) =>
          launch_settle_through key next
            (on_books (fun b => set_settle_through_queues (<[key := rest]> (settle_through_queues b)) b) s)
      | _ => on_books (fun b => set_settle_through_queues (delete key (settle_through_queues b)) b) s
      end
  end.

(** ** Settlement requests *)

(** [claim_settlement]; [n] is a token of the store. *)
Definition claim_settlement (n : nat) (t : Token) (s : State) : option ChannelKey * State :=
  match channel_key_for (tk_subscription t) with
  | None =>
      (None, fail_token n CInvalidSubscription "delivery references an unknown subscription"
               (store_state n Lost s))
  | Some key =>
      if tk_settling t then (None, fail_token n CAlreadySettling "delivery is already being settled" s)
      else (Some key, store_settling n true s)
  end.

Definition record_in_batch (key : ChannelKey) (tag : Z) (n : nat) : State -> State :=
  on_books (fun b => set_acked_batch
    (<[key := <[tag := n]> (default ∅ (acked_batch b !! key))]> (acked_batch b)) b).

Definition handle_settle (n : nat) (settlement : Settlement) (latency : Z) (s : State) : State :=
  match tokens (shared s) !! n with
  | None => s
  | Some t =>
      match claim_settlement n t s with
      | (None, s) => s
      | (Some key, s) =>
          match settlement with
          | SAck =>
              record_in_batch key (tk_delivery_tag t) n
                (log_ack_requests [n] (observe_latency (tk_subscription t) latency s))
          | _ => submit_settlement key (mkSettleParams n settlement) s
          end
      end
  end.

(** [BTreeMap::range(lo..)], ascending. *)
Definition range_from {V} (lo : Z) (m : gmap Z V) : list (Z * V) :=
  filter (fun kv => lo <= kv.1) (sort_by_key fst (map_to_list m)).

(** The loop of [validate_contiguous_prefix]: the tokens and the next
    expected tag. *)
Fixpoint validate_loop (expected : Z) (l : list (Z * ChannelLedgerEntry)) (acc : list nat)
  : result (list nat * Z) ConsumerError :=
  match l with
  | [] => Ok (acc, expected)
  | (tag, e) :: l' =>
      if negb (tag =? expected) then
        Err (ce_new CTransport "non-contiguous delivery prefix — gap in delivery tags")
      else if negb (bool_decide (le_state e = Pending)) then
        Err (ce_new CAlreadySettled "delivery in prefix is already terminal")
      else
        match le_token e with
        | None => Err (ce_new CTransport "delivery in prefix has no token — undelivered message in ledger")
        | Some n => validate_loop (expected + 1) l' (acc ++ [n])
        end
  end.

Definition validate_contiguous_prefix (l : ChannelLedger) (target : Z) : result (list nat) ConsumerError :=
  let? (tokens, expected) := validate_loop (acked_prefix l + 1)
    (filter (fun kv => kv.1 <= target) (range_from (acked_prefix l + 1) (pending l))) [] in
  if expected <=? target then Err (ce_new CTransport "delivery tag not found in ledger")
  else Ok tokens.

Definition fence_settle_through (n : nat) (t : Token) (s : State)
  : option (ChannelKey * RuntimeSubscription) * State :=
  if negb (bool_decide (tk_state t = Pending)) then
    (None, fail_token n CAlreadySettled "settle-through target is already settled or terminal" s)
  else
    match claim_settlement n t s with
    | (None, s) => (None, s)
    | (Some key, s) =>
        match c_subscriptions cfg !! tk_subscription t with
        | None =>
            (None, fail_token n CInvalidSubscription "delivery references an unknown subscription"
                     (store_settling n false s))
        | Some r =>
            match ensure_live_generation r t with
            | Err _ =>
                (None, fail_token n CStaleGeneration
                         "delivery belongs to a stale connection generation or channel"
                         (store_settling n false s))
            | Ok _ => (Some (key, r), s)
            end
        end
    end.

(** A staged token belongs to the live generation. *)
Definition is_live (r : RuntimeSubscription) (s : State) (n : nat) : Prop :=
  match tokens (shared s) !! n with
  | Some t => is_ok (ensure_live_generation r t) = true
  | None => False
  end.

#[global] Instance is_live_dec r s n : Decision (is_live r s n).
Proof. unfold is_live. destruct (_ !! _); apply _. Defined.

Definition handle_settle_through (n : nat) (latency : Z) (s : State) : State :=
  match tokens (shared s) !! n with
  | None => s
  | Some t =>
      match fence_settle_through n t s with
      | (None, s) => s
      | (Some (key, r), s) =>
          match channel_ledgers (books s) !! key with
          | None => fail_token n CTransport "channel ledger not found" (store_settling n false s)
          | Some l =>
              if tk_delivery_tag t <=? acked_prefix l then
                fail_token n CAlreadySettled "settle-through target is at or below the already-settled prefix"
                  (store_settling n false s)
              else
                match validate_contiguous_prefix l (tk_delivery_tag t) with
                | Err e => fail_token n (ce_kind e) (ce_message e) (store_settling n false s)
                | Ok affected =>
                    let affected := filter (is_live r s) affected in
                    if bool_decide (affected = []) then
                      fail_token n CStaleGeneration "settle-through staged no token of the live generation"
                        (store_settling n false s)
                    else
                      let s := foldl (fun s a => store_settling a true s) s affected in
                      let s := log_ack_requests affected (observe_latency (tk_subscription t) latency s) in
                      let p := mkThroughParams n affected in
                      if decide (key ∈ settlement_in_flight (books s)) then queue_settle_through key p s
                      else launch_settle_through key p s
                end
          end
      end
  end.

(** ** Flushing recorded acknowledgements *)

(** The run of recorded acknowledgements at the head of the ledger. *)
Fixpoint ack_run (batch : gmap Z nat) (l : list (Z * ChannelLedgerEntry)) : list nat :=
  match l with
  | [] => []
  | (tag, e) :: l' =>
      match batch !! tag with
      | Some n => if bool_decide (le_state e = Pending) then n :: ack_run batch l' else []
      | None => []
      end
  end.

Definition tag_of (s : State) (n : nat) : Z :=
  match tokens (shared s) !! n with Some t => tk_delivery_tag t | None => 0 end.

(** Recorded tags from [scan_from] on that the ledger still holds. *)
Definition stragglers (l : ChannelLedger) (batch : gmap Z nat) (scan_from : Z) : list SettleParams :=
  omap (fun kv => match pending l !! kv.1 with
                  | Some e => if bool_decide (le_state e = Pending) then Some (mkSettleParams kv.2 SAck) else None
                  | None => None
                  end) (range_from scan_from batch).

Definition drop_batch (key : ChannelKey) : State -> State :=
  on_books (fun b => set_acked_batch (delete key (acked_batch b)) b).

Definition flush_channel (key : ChannelKey) (s : State) : State :=
  if decide (key ∈ settlement_in_flight (books s)) then s
  else
    match acked_batch (books s) !! key with
    | None => s
    | Some batch =>
        match channel_ledgers (books s) !! key with
        | None => drop_batch key s
        | Some l =>
            let run := ack_run batch (range_from (acked_prefix l + 1) (pending l)) in
            match last run with
            | Some target =>
                let late := stragglers l batch (tag_of s target + 1) in
                let s := launch_settle_through key (mkThroughParams target run) (drop_batch key s) in
                foldl (fun s p => queue_settlement key p s) s late
            | None =>
                let late := stragglers l batch (acked_prefix l + 1) in
                foldl (fun s p => submit_settlement key p s) (drop_batch key s) late
            end
        end
    end.

Definition flush_acked (s : State) : State :=
  foldl (fun s key => flush_channel key s) s (map_to_list (acked_batch (books s))).*1.

(** ** Completions *)

(** Index of a pending future, which leaves the set when it yields. *)
Definition take_nth {A} (i : nat) (l : list A) : option (A * list A) :=
  match l !! i with Some x => Some (x, delete i l) | None => None end.

Definition clear_in_flight (key : ChannelKey) : State -> State :=
  on_books (fun b => set_settlement_in_flight (settlement_in_flight b ∖ {[key]}) b).

(** Error kinds after which the delivery is not settled again. *)
Definition terminal_kind (k : ConsumerErrorKind) : bool :=
  match k with CStaleGeneration | CTransport | CMaxAttempts | CInvalidDelay => true | _ => false end.

(** The settlement arm of the select loop, after the future has yielded
    [res]. *)
Definition complete_settlement (key : ChannelKey) (n : nat) (res : result DeliveryState ConsumerError)
    (s : State) : State :=
  match tokens (shared s) !! n with
  | None => s
  | Some t =>
      let sub := tk_subscription t in
      let s := clear_in_flight key s in
      let is_terminal := match res with Ok _ => true | Err e => terminal_kind (ce_kind e) end in
      let s :=
        if is_terminal then
          let s := match res with
                   | Ok Acked => record_ack s
                   | Ok Rejected => record_reject s
                   | _ => s
                   end in
          let s := release_bytes (payload_len (tk_payload t)) sub s in
          ledger_remove key [tk_delivery_tag t] (try_drain_pending s)
        else s in
      let s := store_settling n false s in
      let s :=
        match res with
        | Ok terminal => store_state n terminal s
        | Err e =>
            match ce_kind e with
            | CStaleGeneration | CTransport =>
                fail_token n (ce_kind e) (ce_message e) (store_state n Lost s)
            | CMaxAttempts | CInvalidDelay =>
                match c_subscriptions cfg !! sub with
                | Some r =>
                    let '(terminal, s) :=
                      match ensure_live_generation r t with
                      | Ok _ =>
                          let '(terminal, op) := poison_op (runtime_key sub r) (rt_has_dead_letter r)
                                                   (tk_delivery_tag t) in
                          (terminal, spawn_op op s)
                      | Err _ => (Lost, s)
                      end in
                    let s := match terminal with
                             | Lost => record_poison_metrics (rt_has_dead_letter r) s
                             | Acked => record_ack s
                             | _ => record_reject s
                             end in
                    record_settlement_error
                      (mkSettlementError (tk_delivery_tag t) sub (ce_kind e)
                         (poison_settlement_message (ce_message e) (tk_message_id t) (rt_has_dead_letter r)))
                      (store_state n terminal s)
                | None => fail_token n (ce_kind e) (ce_message e) (store_state n Lost s)
                end
            | _ => fail_token n (ce_kind e) (ce_message e) (store_state n Pending s)
            end
        end in
      drain_settlement_queue key s
  end.

(** The tags of [(acked_prefix + 1)..=target] that the ledger holds. *)
Definition covered_tags (l : ChannelLedger) (target : Z) : list Z :=
  filter (fun tag => acked_prefix l < tag <= target) (map_to_list (pending l)).*1.

Definition set_acked_prefix (key : ChannelKey) (target : Z) : State -> State :=
  on_books (fun b => set_channel_ledgers
    (alter (fun l => mkLedger (pending l) target) key (channel_ledgers b)) b).

Definition complete_settle_through (key : ChannelKey) (target : Z) (affected : list nat)
    (res : result DeliveryState ConsumerError) (s : State) : State :=
  let release s n :=
    match tokens (shared s) !! n with
    | Some t => release_bytes (payload_len (tk_payload t)) (tk_subscription t) s
    | None => s
    end in
  let is_terminal := match res with
                     | Ok _ => true
                     | Err e => match ce_kind e with CStaleGeneration | CTransport => true | _ => false end
                     end in
  let s :=
    if is_terminal then
      let s := foldl release s affected in
      let s := match res, affected with
               | Ok Acked, _ :: _ => record_ack s
               | _, _ => s
               end in
      let s := try_drain_pending s in
      match channel_ledgers (books s) !! key with
      | Some l =>
          let s := ledger_remove key (covered_tags l target) s in
          match res with Ok Acked => set_acked_prefix key target s | _ => s end
      | None => s
      end
    else s in
  let final := match res with
               | Ok st => st
               | Err e => match ce_kind e with CStaleGeneration | CTransport => Lost | _ => Pending end
               end in
  let s := foldl (fun s n => store_settling n false (store_state n final s)) s affected in
  let s :=
    match res with
    | Ok _ => s
    | Err e =>
        let sub := match last affected with
                   | Some n => match tokens (shared s) !! n with Some t => tk_subscription t | None => "unknown" end
                   | None => "unknown"%string
                   end in
        record_settlement_error (mkSettlementError target sub (ce_kind e) (ce_message e)) s
    end in
  drain_settlement_queue key s.

(** A pending settlement yields. *)
Definition settlement_done (i : nat) (a : Answers) (s : State) : option State :=
  match take_nth i (pending_settlements (books s)) with
  | None => None
  | Some (p, rest) =>
      match tokens (shared s) !! sp_token (ps_params p) with
      | None => None
      | Some t =>
          let '(res, ops, pubs) := execute_settlement a (ps_key p) (ps_launch p) (sp_settlement (ps_params p)) t in
          let s := on_books (set_pending_settlements rest) s in
          let s := on_shared (fun h => set_published (published h ++ pubs) h) (log_wire ops s) in
          Some (complete_settlement (ps_key p) (sp_token (ps_params p)) res s)
      end
  end.

(** A pending cumulative acknowledgement yields. *)
Definition settle_through_done (i : nat) (a : Answers) (s : State) : option State :=
  match take_nth i (pending_settle_throughs (books s)) with
  | None => None
  | Some (p, rest) =>
      match tokens (shared s) !! stp_token (pt_params p) with
      | None => None
      | Some t =>
          let '(res, ops) := execute_settle_through a (pt_key p) (pt_launch p) (pt_target p) t in
          let s := log_wire ops (clear_in_flight (pt_key p) (on_books (set_pending_settle_throughs rest) s)) in
          Some (complete_settle_through (pt_key p) (pt_target p) (stp_affected (pt_params p)) res s)
      end
  end.

(** A spawned operation runs. *)
Definition spawned_done (i : nat) (s : State) : option State :=
  match take_nth i (spawned (shared s)) with
  | None => None
  | Some (op, rest) => Some (log_wire [spawned_op op] (on_shared (set_spawned rest) s))
  end.

(** ** Control commands and shutdown *)

Inductive ControlCommand :=
| CmdSettle (token : nat) (settlement : Settlement) (job_latency : Z)
| CmdSettleThrough (token : nat) (job_latency : Z)
| CmdGetPrefetchStats.

Definition handle_control (c : ControlCommand) (s : State) : State :=
  match c with
  | CmdSettle n settlement latency => handle_settle n settlement latency s
  | CmdSettleThrough n latency => handle_settle_through n latency s
  | CmdGetPrefetchStats => s
  end.

(** What completes before the close budget elapses. *)
Inductive CloseEvent :=
| CloseSettlement (i : nat) (a : Answers)
| CloseThrough (i : nat) (a : Answers).

Definition close_settlement (i : nat) (a : Answers) (s : State) : option State :=
  match take_nth i (pending_settlements (books s)) with
  | None => None
  | Some (p, rest) =>
      let n := sp_token (ps_params p) in
      match tokens (shared s) !! n with
      | None => None
      | Some t =>
          let '(res, ops, pubs) := execute_settlement a (ps_key p) (ps_launch p) (sp_settlement (ps_params p)) t in
          let s := clear_in_flight (ps_key p) (on_books (set_pending_settlements rest) s) in
          let s := on_shared (fun h => set_published (published h ++ pubs) h) (log_wire ops s) in
          let s := store_settling n false
                     (store_state n (match res with Ok terminal => terminal | Err _ => Lost end) s) in
          let s := match res with Ok _ => s | Err e => fail_token n (ce_kind e) (ce_message e) s end in
          Some (drain_settlement_queue (ps_key p) s)
      end
  end.

Definition close_through (i : nat) (a : Answers) (s : State) : option State :=
  match take_nth i (pending_settle_throughs (books s)) with
  | None => None
  | Some (p, rest) =>
      match tokens (shared s) !! stp_token (pt_params p) with
      | None => None
      | Some t =>
          let affected := stp_affected (pt_params p) in
          let '(res, ops) := execute_settle_through a (pt_key p) (pt_launch p) (pt_target p) t in
          let s := log_wire ops (clear_in_flight (pt_key p) (on_books (set_pending_settle_throughs rest) s)) in
          let final := match res with Ok terminal => terminal | Err _ => Lost end in
          let s := foldl (fun s n => store_settling n false (store_state n final s)) s affected in
          let s :=
            match res with
            | Ok _ => s
            | Err e =>
                let sub := match last affected with
                           | Some n => match tokens (shared s) !! n with Some t => tk_subscription t | None => "unknown" end
                           | None => "unknown"%string
                           end in
                record_settlement_error (mkSettlementError (pt_target p) sub (ce_kind e) (ce_message e)) s
            end in
          Some (drain_settlement_queue (pt_key p) s)
      end
  end.

(** The bounded drain; the end of [events] is the deadline. *)
Fixpoint close_loop (events : list CloseEvent) (s : State) : State :=
  match events with
  | [] => s
  | e :: events' =>
      match match e with
            | CloseSettlement i a => close_settlement i a s
            | CloseThrough i a => close_through i a s
            end with
      | Some s => close_loop events' s
      | None => close_loop events' s
      end
  end.

(** [close_set] with the control commands still queued. *)
Definition close_set (commands : list ControlCommand) (events : list CloseEvent) (s : State) : State :=
  close_loop events (flush_acked (foldl (fun s c => handle_control c s) s commands)).

(** ** [ActorState::new] *)

Record Subscription := mkSubscription {
  s_id : string;
  s_runtime : RuntimeSubscription;
  s_policy : Scheduler.SubscriptionPolicy;
  s_max_buffered_bytes : Z
}.

End Actor.

Definition COMMAND_CAPACITY : Z := 256.
Definition BUFFER_CAPACITY_MULTIPLIER : Z := 2.

Definition total_prefetch (subs : list Subscription) : Z :=
  sumZ (fun s => ceiling (rt_prefetch (s_runtime s))) subs.

(** The capacities [spawn_with_generation] and [ActorState::new] derive. *)
Definition config_of (subs : list Subscription) : Config :=
  let pending_capacity := Z.max (total_prefetch subs) COMMAND_CAPACITY in
  mkConfig
    (foldl (fun m s => <[s_id s := s_runtime s]> m) ∅ subs)
    (foldl (fun m s => <[s_id s := s_max_buffered_bytes s]> m) ∅ subs)
    pending_capacity (Z.max pending_capacity (total_prefetch subs))
    (Z.max (total_prefetch subs * BUFFER_CAPACITY_MULTIPLIER) 1).

Definition adaptive_of (p : PrefetchConfig) : option AdaptivePrefetch :=
  match p with
  | Fixed _ => None
  | Adaptive initial min max target_buffer => Some (Prefetch.adaptive_new min max initial target_buffer)
  end.

(** [foreign] are the tokens of other actors the embedder may present. *)
Definition actor_new (subs : list Subscription) (foreign : list Token) : State :=
  mkState
    (mkIntake
       (foldl (fun m s => <[s_id s := []]> m) ∅ subs)
       (foldl (fun m s => <[s_id s := 0]> m) ∅ subs)
       [] [] (foldl (fun sch s => Scheduler.register sch (s_id s) (s_policy s)) Scheduler.scheduler_default subs)
       [] 0 ∅)
    (mkBooks
       (foldl (fun m s => <[runtime_key (s_id s) (s_runtime s) := ledger_default]> m) ∅ subs)
       ∅ [] [] ∅ ∅ ∅)
    (mkShared foreign []
       (foldl (fun m s => match adaptive_of (rt_prefetch (s_runtime s)) with
                          | Some c => <[s_id s := c]> m
                          | None => m
                          end) ∅ subs)
       (foldl (fun m s => <[s_id s := initial_value (rt_prefetch (s_runtime s))]> m) ∅ subs)
       (mkMetrics 0 0 0 0 0) [] [] [] [] [] [] []).

End ConsumerActor.
