(* ===== verification/ConsumerInv.v ===== *)
(** * What cumulative acknowledgements may cover

    The invariant behind the at-least-once contract of [ConsumerActor]: a
    cumulative acknowledgement covers only deliveries the embedder asked to
    acknowledge or that are already finished. Every operation of the actor
    keeps it. *)

From S2P Require Import Prelude Transport Publication Scheduler Attempts DelayTopology DelayRouting.
From S2P Require Import Prefetch Delivery ConsumerActor.
Import Transport Delivery ConsumerActor.
Local Open Scope Z_scope.

Module ConsumerInv.

(** The identity of a token: its two atomics are not part of it. *)
Definition identity (t : Token) : string * Z * Z * Z * Z :=
  (tk_subscription t, tk_connection_key t, tk_generation t, tk_channel_id t, tk_delivery_tag t).

Section Inv.
Context (cfg : Config) (D : list (ChannelKey * Z)) (P : list nat).

(** Token [n] stands for delivery [tag] of the live channel [k]. *)
Definition named (ts : list Token) (n : nat) (k : ChannelKey) (tag : Z) : Prop :=
  exists t r, ts !! n = Some t /\ c_subscriptions cfg !! tk_subscription t = Some r /\
    k = runtime_key (tk_subscription t) r /\ ensure_live_generation r t = Ok tt /\
    tk_delivery_tag t = tag.

(** Settling through [w] on [k] with the tokens [affected] reaches nothing but
    them and finished deliveries. *)
Definition covers (ts : list Token) (del fin : list (ChannelKey * Z)) (req : list nat)
    (k : ChannelKey) (w : Z) (affected : list nat) : Prop :=
  (k, w) ∈ del /\ (forall n, n ∈ affected -> n ∈ req) /\
  forall tag, (k, tag) ∈ del -> tag <= w ->
    (k, tag) ∈ fin \/ exists n, n ∈ affected /\ named ts n k tag.

(** The invariant, while the received deliveries are [D] and the embedder
    holds the tokens [P]. *)
Record inv_on (led : gmap ChannelKey ChannelLedger) (bat : gmap ChannelKey (gmap Z nat))
    (thr : list PendingThrough) (thq : gmap ChannelKey (list SettleThroughParams))
    (ts : list Token) (del fin : list (ChannelKey * Z)) (req : list nat) (wr : list WireOp) (fl : list Item) : Prop := {
  i_delivered : forall k tag, (k, tag) ∈ del ->
    (k, tag) ∈ fin \/ exists l e, led !! k = Some l /\ pending l !! tag = Some e;
  i_pending : forall k l tag e, led !! k = Some l -> pending l !! tag = Some e ->
    (k, tag) ∈ del /\ acked_prefix l < tag /\ le_state e = Pending /\
    forall n, le_token e = Some n -> named ts n k tag;
  i_prefix : forall k l, led !! k = Some l -> acked_prefix l = 0 \/ (k, acked_prefix l) ∈ del;
  i_batch : forall k batch tag n, bat !! k = Some batch -> batch !! tag = Some n ->
    named ts n k tag /\ n ∈ req;
  i_through : forall p, p ∈ thr ->
    covers ts del fin req (pt_key p) (pt_target p) (stp_affected (pt_params p));
  i_queued : forall k q p, thq !! k = Some q -> p ∈ q ->
    exists w, named ts (stp_token p) k w /\ covers ts del fin req k w (stp_affected p);
  i_wire : forall k w, WAck k w true ∈ wr -> covers ts del fin req k w req;
  i_log : del = D;
  i_flume : forall n, Ok n ∈ fl -> exists k tag, named ts n k tag;
  i_popped : forall n, n ∈ P -> exists k tag, named ts n k tag
}.

Definition inv (s : State) : Prop :=
  inv_on (channel_ledgers (books s)) (acked_batch (books s)) (pending_settle_throughs (books s))
    (settle_through_queues (books s)) (tokens (shared s)) (delivered (shared s)) (finished (shared s))
    (ack_requests (shared s)) (wire (shared s)) (flume (intake s)).

(** ** Growth of the logs and of the token store *)

(** Tokens keep their identity; new ones are appended. *)
Definition tok_ext (ts ts' : list Token) : Prop :=
  forall n t, ts !! n = Some t -> exists t', ts' !! n = Some t' /\
    identity t' = identity t.

Lemma named_ext ts ts' n k tag : tok_ext ts ts' -> named ts n k tag -> named ts' n k tag.
Proof.
  intros Hx (t & r & Ht & Hr & -> & Hl & <-). destruct (Hx _ _ Ht) as (t' & Ht' & [= E1 E2 E3 E4 E5]).
  exists t', r. unfold ensure_live_generation in *. by rewrite E1, E2, E3, E4, E5.
Qed.

Lemma covers_mono ts ts' del fin fin' req req' k w af af' :
  tok_ext ts ts' -> fin ⊆ fin' -> req ⊆ req' -> af ⊆ af' ->
  (forall n, n ∈ af' -> n ∈ req') ->
  covers ts del fin req k w af -> covers ts' del fin' req' k w af'.
Proof.
  intros Ht Hf Hr Ha Hreq (H1 & _ & H3). split; [done|]. split; [done|].
  intros tag Hd Hle. destruct (H3 tag Hd Hle) as [?|(n & ? & ?)]; [by left; apply Hf|].
  right. exists n. split; [by apply Ha|by eapply named_ext].
Qed.

Lemma inv_mono led bat thr thq ts ts' del fin fin' req req' wr fl :
  tok_ext ts ts' -> fin ⊆ fin' -> req ⊆ req' ->
  inv_on led bat thr thq ts del fin req wr fl -> inv_on led bat thr thq ts' del fin' req' wr fl.
Proof.
  intros Ht Hf Hr [H1 H2 H3 H4 H5 H6 H7 H8 H9 H10]. split.
  - intros k tag Hd. destruct (H1 k tag Hd) as [?|?]; [by left; apply Hf|by right].
  - intros k l tag e Hl He. destruct (H2 _ _ _ _ Hl He) as (? & ? & ? & Hn). split; [done|].
    split; [done|]. split; [done|]. intros n En. eapply named_ext; [done|by apply Hn].
  - done.
  - intros k batch tag n Hb Hn. destruct (H4 _ _ _ _ Hb Hn) as [? ?].
    split; [by eapply named_ext|by apply Hr].
  - intros p Hp. specialize (H5 p Hp). eapply covers_mono; [..|exact H5]; try done.
    intros n Hn. apply Hr. by destruct H5 as (_ & H5 & _); apply H5.
  - intros k q p Hq Hp. destruct (H6 _ _ _ Hq Hp) as (w & Hn & Hc). exists w.
    split; [by eapply named_ext|]. eapply covers_mono; [..|exact Hc]; try done.
    intros n Hin. apply Hr. by destruct Hc as (_ & Hc & _); apply Hc.
  - intros k w Hw. eapply covers_mono; [..|exact (H7 k w Hw)]; done.
  - done.
  - intros n Hn. destruct (H9 n Hn) as (k & tag & ?). exists k, tag. by eapply named_ext.
  - intros n Hn. destruct (H10 n Hn) as (k & tag & ?). exists k, tag. by eapply named_ext.
Qed.

Lemma tok_ext_refl ts : tok_ext ts ts.
Proof. intros n t Ht. by exists t. Qed.

Lemma tok_ext_app ts t : tok_ext ts (ts ++ [t]).
Proof. intros n u Hu. exists u. split; [|done]. by apply lookup_app_l_Some. Qed.

Lemma tok_ext_alter ts n f :
  (forall t, identity (f t) = identity t) ->
  tok_ext ts (alter f n ts).
Proof.
  intros Hf m t Ht. rewrite list_lookup_alter. case_decide as E.
  - subst m. rewrite Ht. exists (f t). split; [done|]. apply Hf.
  - by exists t.
Qed.

Lemma inv_tokens s ts :
  tok_ext (tokens (shared s)) ts -> inv s -> inv (on_shared (set_tokens ts) s).
Proof. intros Ht. by apply inv_mono. Qed.

Lemma inv_store_state n st s : inv s -> inv (store_state n st s).
Proof. apply inv_tokens. by apply tok_ext_alter. Qed.

Lemma inv_store_settling n b s : inv s -> inv (store_settling n b s).
Proof. apply inv_tokens. by apply tok_ext_alter. Qed.

Lemma inv_log_ack_requests l s : inv s -> inv (log_ack_requests l s).
Proof. apply inv_mono; [apply tok_ext_refl|done|]. simpl. set_solver. Qed.

(** ** Ledgers *)

Lemma delete_list_lookup (m : gmap Z ChannelLedgerEntry) tags tag :
  foldr delete m tags !! tag = if decide (tag ∈ tags) then None else m !! tag.
Proof.
  induction tags as [|x tags IH]; cbn [foldr].
  - by rewrite decide_False by (by apply not_elem_of_nil).
  - destruct (decide (tag = x)) as [->|Hne].
    + rewrite lookup_delete_eq, decide_True by (by left). done.
    + rewrite lookup_delete_ne, IH by done. repeat case_decide; set_solver.
Qed.

Lemma inv_ledger_remove k tags s : inv s -> inv (ledger_remove k tags s).
Proof.
  intros Hi. unfold ledger_remove. destruct (channel_ledgers (books s) !! k) as [l|] eqn:El; [|done].
  destruct Hi as [H1 H2 H3 H4 H5 H6 H7 H8 H9 H10].
  assert (inv_on (<[k := mkLedger (foldr delete (pending l) tags) (acked_prefix l)]> (channel_ledgers (books s)))
    (acked_batch (books s)) (pending_settle_throughs (books s)) (settle_through_queues (books s))
    (tokens (shared s)) (delivered (shared s)) (finished (shared s) ++ ((fun t => (k, t)) <$> tags))
    (ack_requests (shared s)) (wire (shared s)) (flume (intake s))) as H; [|exact H].
  assert (inv_on (channel_ledgers (books s))
    (acked_batch (books s)) (pending_settle_throughs (books s)) (settle_through_queues (books s))
    (tokens (shared s)) (delivered (shared s)) (finished (shared s) ++ ((fun t => (k, t)) <$> tags))
    (ack_requests (shared s)) (wire (shared s)) (flume (intake s))) as [G1 G2 G3 G4 G5 G6 G7 G8 G9 G10].
  { eapply inv_mono; [apply tok_ext_refl| |reflexivity|by split]. set_solver. }
  split; try done.
  - intros k' tag Hd. destruct (G1 k' tag Hd) as [?|(l' & e & Hl' & He)]; [by left|].
    destruct (decide (k' = k)) as [->|Hne].
    + rewrite El in Hl'. injection Hl' as <-. destruct (decide (tag ∈ tags)) as [Ht|Ht].
      * left. apply elem_of_app. right. apply list_elem_of_fmap. eauto.
      * right. eexists _, e. split; [apply lookup_insert_eq|]. simpl. by rewrite delete_list_lookup, decide_False.
    + right. exists l', e. by rewrite lookup_insert_ne.
  - intros k' l' tag e [[<- <-]|[Hne Hl']]%lookup_insert_Some He; [|by eapply G2].
    simpl in He. rewrite delete_list_lookup in He. case_decide; [done|]. exact (G2 k l tag e El He).
  - intros k' l' [[<- <-]|[Hne Hl']]%lookup_insert_Some; [|by eapply G3]. exact (G3 k l El).
Qed.

(** ** Frames

    What only touches the intake, the metrics, the errors, the controllers,
    the spawned operations or the plain settlements keeps the invariant by
    computation. *)

Lemma inv_fail_token n kind m s : inv s -> inv (fail_token n kind m s).
Proof. intros H. unfold fail_token. by destruct (_ !! n). Qed.

Lemma inv_poison_metrics b s : inv s -> inv (record_poison_metrics b s).
Proof. intros H. by destruct b. Qed.

(** ** Intake *)

Lemma inv_settle_poison sub dl tag id bytes detail ident s :
  inv s -> inv (settle_poison cfg sub dl tag id bytes detail ident s).
Proof.
  intros H. unfold settle_poison. cbv zeta.
  match goal with |- inv (record_settlement_error _ ?x) => assert (inv x) as Hx; [|exact Hx] end.
  match goal with |- inv (match _ with Some key => ledger_remove key _ ?x | None => _ end) =>
    assert (inv x) as Hx end.
  { match goal with |- inv (release_bytes _ _ ?x) => assert (inv x) as Hx; [|exact Hx] end.
    apply inv_poison_metrics. destruct (c_subscriptions cfg !! sub); [|done]. by destruct (_ && _)%bool. }
  destruct (channel_key_for cfg sub); [|done]. by apply inv_ledger_remove.
Qed.

Lemma inv_settle_oversized sub d s : inv s -> inv (settle_oversized cfg sub d s).
Proof. intros H. unfold settle_oversized. by apply inv_settle_poison. Qed.

Lemma inv_push_buffer sub d s : inv s -> inv (push_buffer sub d s).
Proof. intros H. unfold push_buffer. by destruct (_ !! sub). Qed.

Lemma inv_drain_loop l : forall s, inv s -> inv (drain_loop cfg l s).
Proof.
  induction l as [|[sub d] l IH]; intros s H; cbn [drain_loop]; [done|].
  destruct (over_budget _ _ _ _); [destruct (oversized _ _ _); [|done]|]; apply IH.
  - by apply inv_settle_oversized.
  - by apply inv_push_buffer.
Qed.

Lemma inv_drain_pending s : inv s -> inv (drain_pending cfg s).
Proof. apply inv_drain_loop. Qed.

(** The token handed out for a delivery is recorded in its ledger entry. *)
Lemma inv_set_entry_token sub tag n s :
  (forall key, channel_key_for cfg sub = Some key -> named (tokens (shared s)) n key tag) ->
  inv s -> inv (set_entry_token cfg sub tag n s).
Proof.
  intros Hn Hi. unfold set_entry_token. destruct (channel_key_for cfg sub) as [k|]; [|done].
  destruct (channel_ledgers (books s) !! k) as [l|] eqn:El; [|done]. specialize (Hn k eq_refl).
  destruct Hi as [H1 H2 H3 H4 H5 H6 H7 H8 H9 H10]. split; try done;
    cbn [books on_books channel_ledgers set_channel_ledgers shared].
  - intros k' tag' Hd. destruct (H1 k' tag' Hd) as [?|(l' & e & Hl' & He)]; [by left|]. right.
    destruct (decide (k' = k)) as [->|Hne].
    + rewrite El in Hl'. injection Hl' as <-. rewrite lookup_insert_eq.
      destruct (decide (tag = tag')) as [->|Ht]; eexists _, _; (split; [reflexivity|]); cbn [pending].
      * by rewrite lookup_alter_eq, He.
      * by rewrite lookup_alter_ne.
    + exists l', e. by rewrite lookup_insert_ne.
  - intros k' l' tag' e [[<- <-]|[Hne Hl']]%lookup_insert_Some He; [|by eapply H2].
    simpl in He. destruct (decide (tag = tag')) as [->|Ht].
    + rewrite lookup_alter_eq in He. destruct (pending l !! tag') as [e0|] eqn:E0; [|done].
      injection He as <-. destruct (H2 k l tag' e0 El E0) as (? & ? & ? & _).
      repeat (split; [done|]). by intros m [= <-].
    + rewrite lookup_alter_ne in He by done. exact (H2 k l tag' e El He).
  - intros k' l' [[<- <-]|[Hne Hl']]%lookup_insert_Some; [|by eapply H3]. exact (H3 k l El).
Qed.

Lemma inv_try_send it s s' :
  (forall n, it = Ok n -> exists k tag, named (tokens (shared s)) n k tag) ->
  try_send cfg it s = Some s' -> inv s -> inv s'.
Proof.
  unfold try_send. intros Hn. destruct (_ <? _); [|done]. intros [= <-] [H1 H2 H3 H4 H5 H6 H7 H8 H9 H10].
  split; try done. intros n [Hin|Hin]%elem_of_app; [by apply H9|]. apply list_elem_of_singleton in Hin. by apply Hn.
Qed.

Lemma inv_mark_if_empty sub s : inv s -> inv (mark_if_empty sub s).
Proof. intros H. unfold mark_if_empty. by destruct (_ !! sub) as [[|]|]. Qed.

Lemma inv_new_token sub r d id a st s n s' :
  new_token sub r d id a st s = (n, s') -> c_subscriptions cfg !! sub = Some r -> inv s ->
  inv s' /\ named (tokens (shared s')) n (runtime_key sub r) (td_delivery_tag d).
Proof.
  unfold new_token. intros [= <- <-] Hr H. split; [by apply (inv_tokens s), H; apply tok_ext_app|].
  eexists _, r. split; [simpl; by rewrite lookup_app_r, Nat.sub_diag by lia|].
  split; [done|]. split; [done|]. split; [|done]. unfold ensure_live_generation. simpl.
  by rewrite bool_decide_true, !Z.eqb_refl by done.
Qed.

Lemma inv_dispatch_early sub r d a s :
  c_subscriptions cfg !! sub = Some r -> inv s -> inv (dispatch_early cfg sub r d a s).2.
Proof.
  intros Hr H. unfold dispatch_early. cbv zeta. set (s0 := if (_ && _)%bool then _ else s).
  assert (inv s0) as H0 by (unfold s0; by destruct (_ && _)%bool).
  destruct (new_token _ _ _ _ _ _ s0) as [n s1] eqn:E.
  destruct (inv_new_token _ _ _ _ _ _ _ _ _ E Hr H0) as [H1 Hn].
  destruct (try_send cfg (Ok n) s1) as [s2|] eqn:Et; [|done].
  assert (inv s2) as H1' by (eapply inv_try_send; [|exact Et|exact H1]; intros m [= <-]; eauto).
  destruct (1 <? a); exact (inv_mark_if_empty sub (log_handed n s2) H1').
Qed.

Lemma inv_dispatch_token sub r d a s :
  c_subscriptions cfg !! sub = Some r -> inv s -> inv (dispatch_token cfg sub r d a s).2.
Proof.
  intros Hr H. unfold dispatch_token. destruct (new_token _ _ _ _ _ _ s) as [n s1] eqn:E.
  destruct (inv_new_token _ _ _ _ _ _ _ _ _ E Hr H) as [H1 Hn].
  assert (inv (set_entry_token cfg sub (td_delivery_tag d) n s1)) as H2.
  { apply inv_set_entry_token; [|done]. unfold channel_key_for. rewrite Hr. by intros key [= <-]. }
  assert (named (tokens (shared (set_entry_token cfg sub (td_delivery_tag d) n s1))) n
            (runtime_key sub r) (td_delivery_tag d)) as Hn2.
  { unfold set_entry_token. destruct (channel_key_for cfg sub); [|done]. by destruct (_ !! c). }
  destruct (try_send cfg (Ok n) _) as [s2|] eqn:Et; [|done].
  assert (inv s2) as H2' by (eapply inv_try_send; [|exact Et|exact H2]; intros m [= <-]; eauto).
  destruct (1 <? a); exact (inv_mark_if_empty sub (log_handed n s2) H2').
Qed.

Lemma inv_dispatch_delivery sub d s : inv s -> inv (dispatch_delivery cfg sub d s).2.
Proof.
  intros H. unfold dispatch_delivery. destruct (c_subscriptions cfg !! sub) as [r|] eqn:Er; [|done].
  destruct (Attempts.resolve _ _ _).
  - destruct (rt_early_ack r); [by apply inv_dispatch_early|by apply inv_dispatch_token].
  - destruct (rt_early_ack r); [by apply inv_dispatch_early|by apply inv_settle_poison].
Qed.

Lemma inv_dispatch_step s : inv s -> inv (dispatch_step cfg s).2.
Proof.
  intros H. unfold dispatch_step. destruct (source_errors (intake s)).
  - destruct (Scheduler.pick _) as [[sub|] sch]; [|done].
    destruct (_ !! sub) as [[|d rest]|]; [done| |done]. by apply inv_dispatch_delivery.
  - destruct (try_send _ _ _) eqn:E; [|done]. assert (inv s0) as Hs by (by eapply inv_try_send; [|exact E|exact H]). exact Hs.
Qed.

Lemma inv_dispatch_loop fuel : forall s, inv s -> inv (dispatch_loop cfg fuel s).
Proof.
  induction fuel as [|fuel IH]; intros s H; [done|]. cbn [dispatch_loop].
  pose proof (inv_dispatch_step s H) as Hd. destruct (dispatch_step cfg s) as [[] s']; [by apply IH|done].
Qed.

Lemma inv_dispatch s : inv s -> inv (dispatch cfg s).
Proof. intros H. by apply inv_dispatch_loop, inv_drain_pending. Qed.

Lemma inv_try_drain_pending s : inv s -> inv (try_drain_pending cfg s).
Proof. intros H. by apply inv_dispatch, inv_drain_pending. Qed.

(** ** Launches and queues *)

(** Project the updated field out of an updated state. *)
Ltac reduce_state :=
  cbn [books on_books on_shared shared channel_ledgers set_channel_ledgers acked_batch set_acked_batch
       settle_through_queues set_settle_through_queues pending_settle_throughs
       set_pending_settle_throughs] in *.

Lemma inv_stage key n s : inv s -> inv (stage_settlement_launch cfg key n s).2.
Proof.
  intros H. unfold stage_settlement_launch. destruct (_ !! n) as [t|]; [|done].
  destruct (c_subscriptions cfg !! _); [done|]. by apply inv_fail_token, inv_store_state.
Qed.

Lemma inv_launch_settlement key p s : inv s -> inv (launch_settlement cfg key p s).
Proof.
  intros H. unfold launch_settlement. pose proof (inv_stage key (sp_token p) s H) as Hs.
  destruct (stage_settlement_launch _ _ _ _) as [[r|] s']; done.
Qed.

Lemma inv_submit_settlement key p s : inv s -> inv (submit_settlement cfg key p s).
Proof. intros H. unfold submit_settlement. case_decide; [done|by apply inv_launch_settlement]. Qed.

Definition covers_in (s : State) : ChannelKey -> Z -> list nat -> Prop :=
  covers (tokens (shared s)) (delivered (shared s)) (finished (shared s)) (ack_requests (shared s)).

Lemma inv_launch_settle_through key p w s :
  named (tokens (shared s)) (stp_token p) key w -> covers_in s key w (stp_affected p) ->
  inv s -> inv (launch_settle_through cfg key p s).
Proof.
  intros (t & r & Ht & Hr & _ & _ & Hw) Hc H. unfold launch_settle_through, stage_settlement_launch.
  rewrite Ht, Hr, Hw. destruct H as [H1 H2 H3 H4 H5 H6 H7 H8 H9 H10]. split; try done.
  intros p' [Hp|Hp]%elem_of_app; [by apply H5|]. by apply list_elem_of_singleton in Hp as ->.
Qed.

Lemma inv_queue_settle_through key p w s :
  named (tokens (shared s)) (stp_token p) key w -> covers_in s key w (stp_affected p) ->
  inv s -> inv (queue_settle_through key p s).
Proof.
  intros Hn Hc [H1 H2 H3 H4 H5 H6 H7 H8 H9 H10]. unfold queue_settle_through. split; try done; reduce_state.
  intros k q p' [[<- <-]|[Hne Hq]]%lookup_insert_Some Hp; [|by eapply H6].
  apply elem_of_app in Hp as [Hp|Hp].
  - destruct (settle_through_queues (books s) !! key) as [q|] eqn:E; [by eapply H6|].
    by apply elem_of_nil in Hp.
  - apply list_elem_of_singleton in Hp as ->. by exists w.
Qed.

Lemma inv_drop_queues key q s :
  (forall p, p ∈ q -> exists q0, settle_through_queues (books s) !! key = Some q0 /\ p ∈ q0) ->
  inv s ->
  inv (on_books (fun b => set_settle_through_queues (<[key := q]> (settle_through_queues b)) b) s).
Proof.
  intros Hq [H1 H2 H3 H4 H5 H6 H7 H8 H9 H10]. split; try done; reduce_state.
  intros k q' p [[<- <-]|[Hne Hq']]%lookup_insert_Some Hp; [|by eapply H6].
  destruct (Hq p Hp) as (q0 & ? & ?). by eapply H6.
Qed.

Lemma inv_drain_settlement_queue key s : inv s -> inv (drain_settlement_queue cfg key s).
Proof.
  intros H. unfold drain_settlement_queue.
  assert (forall s', inv s' -> inv (match settle_through_queues (books s') !! key with
    | Some (next :: rest) => launch_settle_through cfg key next
        (on_books (fun b => set_settle_through_queues (<[key := rest]> (settle_through_queues b)) b) s')
    | _ => on_books (fun b => set_settle_through_queues (delete key (settle_through_queues b)) b) s' end)) as Ht.
  { intros s' Hi. destruct (settle_through_queues (books s') !! key) as [[|next rest]|] eqn:Eq.
    1,3: destruct Hi as [H1 H2 H3 H4 H5 H6 H7 H8 H9 H10]; split; try done; reduce_state;
         intros k q p [_ Hq]%lookup_delete_Some Hp; by eapply H6.
    destruct (i_queued _ _ _ _ _ _ _ _ _ _ Hi key _ next Eq) as (w & Hn & Hc); [by left|].
    apply (inv_launch_settle_through key next w); [done..|]. apply inv_drop_queues; [|done].
    intros p Hp. exists (next :: rest). split; [done|by right]. }
  destruct (settlement_queues (books s) !! key) as [[|next rest]|].
  - by apply (Ht (on_books (fun b => set_settlement_queues (delete key (settlement_queues b)) b) s)).
  - by apply inv_launch_settlement.
  - by apply (Ht (on_books (fun b => set_settlement_queues (delete key (settlement_queues b)) b) s)).
Qed.

(** ** Ordered ranges of a ledger *)

Lemma range_from_elem {V} lo (m : gmap Z V) tag v :
  (tag, v) ∈ range_from lo m <-> m !! tag = Some v /\ lo <= tag.
Proof.
  unfold range_from. rewrite list_elem_of_filter. rewrite sort_by_key_perm, elem_of_map_to_list. simpl. tauto.
Qed.

Lemma range_from_sorted {V} lo (m : gmap Z V) :
  StronglySorted (fun x y => x.1 < y.1) (range_from lo m).
Proof.
  apply sorted_filter, (sorted_strict fst); [apply sort_by_key_sorted|].
  rewrite sort_by_key_perm. apply NoDup_fst_map_to_list.
Qed.

(** The run follows the head of the list. *)
Lemma ack_run_prefix batch l :
  exists l1 l2, l = l1 ++ l2 /\ Forall2 (fun kv n => batch !! kv.1 = Some n) l1 (ack_run batch l).
Proof.
  induction l as [|[tag e] l (l1 & l2 & -> & IH)]; [by exists [], []|]. cbn [ack_run].
  destruct (batch !! tag) as [n|] eqn:E; [|by exists [], ((tag, e) :: l1 ++ l2)].
  destruct (bool_decide _); [|by exists [], ((tag, e) :: l1 ++ l2)].
  exists ((tag, e) :: l1), l2. split; [done|]. by constructor.
Qed.

Lemma named_tag s n k tag : named (tokens (shared s)) n k tag -> tag_of s n = tag.
Proof. intros (t & r & Ht & _ & _ & _ & <-). unfold tag_of. by rewrite Ht. Qed.

(** Settling through the last tag of the run reaches only the run. *)
Lemma ack_run_covers k l batch target s :
  inv s -> channel_ledgers (books s) !! k = Some l -> acked_batch (books s) !! k = Some batch ->
  last (ack_run batch (range_from (acked_prefix l + 1) (pending l))) = Some target ->
  exists w, named (tokens (shared s)) target k w /\
    covers_in s k w (ack_run batch (range_from (acked_prefix l + 1) (pending l))).
Proof.
  intros [H1 H2 H3 H4 _ _ _ _ _ _] Hl Hb Hlast. set (L := range_from _ _) in *.
  destruct (ack_run_prefix batch L) as (l1 & l2 & EL & HF).
  assert (forall n, n ∈ ack_run batch L -> exists tag e, (tag, e) ∈ l1 /\ batch !! tag = Some n) as Hrun.
  { intros n [i Hi]%list_elem_of_lookup. destruct (Forall2_lookup_r _ _ _ _ _ HF Hi) as ([tag e] & Hx & Hn).
    exists tag, e. split; [by eapply list_elem_of_lookup_2|done]. }
  destruct (Hrun target) as (w & e & Hw & Ebw); [by apply last_Some_elem_of|].
  destruct (H4 k batch w target Hb Ebw) as [Hn _]. exists w. split; [done|].
  assert (forall tag e', (tag, e') ∈ L -> pending l !! tag = Some e') as HL
    by (intros tag e' [? _]%range_from_elem; done).
  assert ((w, e) ∈ L) as HwL by (rewrite EL; apply elem_of_app; by left).
  split; [by destruct (H2 k l w e Hl (HL _ _ HwL))|]. split.
  - intros n Hin. destruct (Hrun n Hin) as (tag & e' & _ & E). by destruct (H4 k batch tag n Hb E).
  - intros tag Hd Hle. destruct (H1 k tag Hd) as [?|(l' & e' & Hl' & He')]; [by left|]. right.
    rewrite Hl in Hl'. injection Hl' as <-. destruct (H2 k l tag e' Hl He') as (_ & Hgt & _).
    assert ((tag, e') ∈ L) as Hin by (apply range_from_elem; split; [done|lia]).
    rewrite EL in Hin. apply elem_of_app in Hin as [Hin|Hin].
    + apply list_elem_of_lookup in Hin as [i Hi]. destruct (Forall2_lookup_l _ _ _ _ _ HF Hi) as (n & Hx & Ht).
      exists n. split; [by eapply list_elem_of_lookup_2|]. by destruct (H4 k batch tag n Hb Ht).
    + pose proof (range_from_sorted (acked_prefix l + 1) (pending l)) as Hs. fold L in Hs. rewrite EL in Hs.
      pose proof (sorted_app_lt _ _ _ _ _ Hs Hw Hin) as Hlt. simpl in Hlt. lia.
Qed.

(** ** Flushing *)

Lemma inv_drop_batch key s : inv s -> inv (drop_batch key s).
Proof.
  intros [H1 H2 H3 H4 H5 H6 H7 H8 H9 H10]. unfold drop_batch. split; try done; reduce_state.
  intros k batch tag n [_ Hb]%lookup_delete_Some. by apply H4.
Qed.

Lemma inv_foldl {A} (f : State -> A -> State) (l : list A) :
  (forall s x, inv s -> inv (f s x)) -> forall s, inv s -> inv (foldl f s l).
Proof. intros Hf. induction l as [|x l IH]; intros s H; [done|]. by apply IH, Hf. Qed.

Lemma inv_flush_channel key s : inv s -> inv (flush_channel cfg key s).
Proof.
  intros H. unfold flush_channel. case_decide; [done|].
  destruct (acked_batch (books s) !! key) as [batch|] eqn:Eb; [|done].
  destruct (channel_ledgers (books s) !! key) as [l|] eqn:El; [|by apply inv_drop_batch].
  cbv zeta. destruct (last _) as [target|] eqn:Et.
  - destruct (ack_run_covers key l batch target s H El Eb Et) as (w & Hn & Hc).
    apply inv_foldl; [done|].
    apply (inv_launch_settle_through key _ w); [exact Hn|exact Hc|by apply inv_drop_batch].
  - apply inv_foldl; [by intros; apply inv_submit_settlement|by apply inv_drop_batch].
Qed.

Lemma inv_flush_acked s : inv s -> inv (flush_acked cfg s).
Proof. apply inv_foldl. intros s' k. apply inv_flush_channel. Qed.

(** ** Requests *)

Lemma inv_claim n t s : inv s -> inv (claim_settlement cfg n t s).2.
Proof.
  intros H. unfold claim_settlement. destruct (channel_key_for cfg _).
  - destruct (tk_settling t); [by apply inv_fail_token|by apply inv_store_settling].
  - by apply inv_fail_token, inv_store_state.
Qed.

Lemma claim_some n t s key s' :
  claim_settlement cfg n t s = (Some key, s') ->
  channel_key_for cfg (tk_subscription t) = Some key /\ s' = store_settling n true s.
Proof.
  unfold claim_settlement. destruct (channel_key_for cfg _); [|done].
  destruct (tk_settling t); [done|]. by intros [= <- <-].
Qed.

Lemma inv_record_in_batch key tag n s :
  named (tokens (shared s)) n key tag -> n ∈ ack_requests (shared s) ->
  inv s -> inv (record_in_batch key tag n s).
Proof.
  intros Hn Hr [H1 H2 H3 H4 H5 H6 H7 H8 H9 H10]. unfold record_in_batch. split; try done; reduce_state.
  intros k batch tag' m [[<- <-]|[Hne Hb]]%lookup_insert_Some Hm; [|by eapply H4].
  apply lookup_insert_Some in Hm as [[<- <-]|[Ht Hm]]; [done|].
  destruct (acked_batch (books s) !! key) as [b|] eqn:E; [by eapply H4|done].
Qed.

(** The embedder settles a token it was handed. *)
Lemma inv_handle_settle n k tag settlement latency s :
  named (tokens (shared s)) n k tag -> inv s -> inv (handle_settle cfg n settlement latency s).
Proof.
  intros Hn H. unfold handle_settle. destruct (tokens (shared s) !! n) as [t|] eqn:Et; [|done].
  pose proof (inv_claim n t s H) as Hc. destruct (claim_settlement cfg n t s) as [[key|] s1] eqn:Ec; [|done].
  destruct (claim_some _ _ _ _ _ Ec) as [Ek ->]. simpl in Hc.
  assert (named (tokens (shared (store_settling n true s))) n key (tk_delivery_tag t)) as Hn'.
  { eapply named_ext; [by apply (tok_ext_alter _ n (set_settling true))|].
    destruct Hn as (t' & r & Et' & Hr & -> & Hl & <-). rewrite Et in Et'. injection Et' as <-.
    unfold channel_key_for in Ek. rewrite Hr in Ek. injection Ek as <-. by exists t, r. }
  destruct settlement; [|by apply inv_submit_settlement..].
  apply inv_record_in_batch; [exact Hn'|simpl; apply elem_of_app; right; by left|].
  by apply inv_log_ack_requests.
Qed.

(** Validation collects the tokens of exactly the tags asked for. *)
Lemma validate_loop_spec l : forall expected acc res next,
  validate_loop expected l acc = Ok (res, next) ->
  exists ns, res = acc ++ ns /\ next = expected + Z.of_nat (length l) /\
    Forall2 (fun kv n => le_token kv.2 = Some n) l ns /\
    forall i kv, l !! i = Some kv -> kv.1 = expected + Z.of_nat i.
Proof.
  induction l as [|[tag e] l IH]; intros expected acc res next; cbn [validate_loop].
  - intros [= <- <-]. exists []. rewrite app_nil_r. split; [done|]. split; [simpl; lia|]. by split; [constructor|].
  - destruct (negb (tag =? expected)) eqn:Et; [done|]. destruct (negb (bool_decide _)); [done|]. zbool.
    destruct (le_token e) as [n|] eqn:En; [|done]. intros (ns & -> & -> & HF & Hi)%IH.
    exists (n :: ns). rewrite <- app_assoc. split; [done|]. split; [simpl; lia|]. split; [by constructor|].
    intros [|i] kv; cbn [lookup list_lookup]; [intros [= <-]; simpl; lia|]. intros Hk%Hi. lia.
Qed.

Lemma validate_covers k l target affected s :
  inv s -> channel_ledgers (books s) !! k = Some l -> acked_prefix l < target ->
  validate_contiguous_prefix l target = Ok affected ->
  (k, target) ∈ delivered (shared s) /\
  (forall n, n ∈ affected -> exists tag, named (tokens (shared s)) n k tag) /\
  forall tag, (k, tag) ∈ delivered (shared s) -> tag <= target ->
    (k, tag) ∈ finished (shared s) \/ exists n, n ∈ affected /\ named (tokens (shared s)) n k tag.
Proof.
  intros [H1 H2 _ _ _ _ _ _ _ _] Hl Hlt. unfold validate_contiguous_prefix.
  set (L := filter _ _). destruct (validate_loop _ L []) as [[ns next]|] eqn:E; [|done].
  destruct (next <=? target) eqn:En; [done|]. zbool. intros [= <-].
  destruct (validate_loop_spec _ _ _ _ _ E) as (ns' & -> & -> & HF & Hi). simpl.
  assert (forall tag e, (tag, e) ∈ L <-> pending l !! tag = Some e /\ acked_prefix l + 1 <= tag <= target) as HL.
  { intros tag e. unfold L. rewrite list_elem_of_filter, range_from_elem. simpl. tauto. }
  assert (exists e, (target, e) ∈ L) as [e He].
  { destruct L as [|kv0 L0] eqn:EL; [simpl in En; lia|]. rewrite <- EL in *.
    destruct (lookup_lt_is_Some_2 L (length L - 1)) as [[tag e] Hlast]; [rewrite EL; simpl; lia|].
    exists e. pose proof (Hi _ _ Hlast) as Ht. simpl in Ht.
    assert ((tag, e) ∈ L) as Hin by (by eapply list_elem_of_lookup_2).
    destruct (proj1 (HL tag e) Hin) as [_ Hr].
    assert (tag = target) as <- by (rewrite EL in En, Ht; simpl in En, Ht; lia). done. }
  destruct (proj1 (HL target e) He) as [Hpe _]. split; [by destruct (H2 k l target e Hl Hpe)|]. split.
  - intros n [i Hn]%list_elem_of_lookup. destruct (Forall2_lookup_r _ _ _ _ _ HF Hn) as ([tag e'] & Hx & Hk).
    exists tag. apply list_elem_of_lookup_2, HL in Hx as [Hx _].
    destruct (H2 k l tag e' Hl Hx) as (_ & _ & _ & Hnm). by apply Hnm.
  - intros tag Hd Hle. destruct (H1 k tag Hd) as [?|(l' & e' & Hl' & He')]; [by left|]. right.
    rewrite Hl in Hl'. injection Hl' as <-. destruct (H2 k l tag e' Hl He') as (_ & Hgt & _ & Hnm).
    assert ((tag, e') ∈ L) as [i Hx]%list_elem_of_lookup by (apply HL; split; [done|lia]).
    destruct (Forall2_lookup_l _ _ _ _ _ HF Hx) as (n & Hn & Ht).
    exists n. split; [by eapply list_elem_of_lookup_2|]. by apply Hnm.
Qed.

Lemma inv_fence n t s : inv s -> inv (fence_settle_through cfg n t s).2.
Proof.
  intros H. unfold fence_settle_through. destruct (negb _); [by apply inv_fail_token|].
  pose proof (inv_claim n t s H) as Hc. destruct (claim_settlement cfg n t s) as [[key|] s1]; [|done].
  destruct (c_subscriptions cfg !! _); [|by apply inv_fail_token, inv_store_settling].
  destruct (ensure_live_generation _ _); [done|by apply inv_fail_token, inv_store_settling].
Qed.

Lemma fence_some n t s key r s' :
  fence_settle_through cfg n t s = (Some (key, r), s') ->
  c_subscriptions cfg !! tk_subscription t = Some r /\ key = runtime_key (tk_subscription t) r /\
  ensure_live_generation r t = Ok tt /\ s' = store_settling n true s.
Proof.
  unfold fence_settle_through. destruct (negb _); [done|].
  destruct (claim_settlement cfg n t s) as [[k|] s1] eqn:Ec; [|done].
  apply claim_some in Ec as [Ek ->]. destruct (c_subscriptions cfg !! _) as [r0|] eqn:Er; [|done].
  destruct (ensure_live_generation r0 t) as [[]|] eqn:El; [|done]. intros [= <- <- <-].
  unfold channel_key_for in Ek. rewrite Er in Ek. by injection Ek as <-.
Qed.

Lemma named_live r s n k tag sub :
  c_subscriptions cfg !! sub = Some r -> k = runtime_key sub r ->
  named (tokens (shared s)) n k tag -> is_live r s n.
Proof.
  intros Hr -> (t & r' & Ht & Hr' & Ek & Hl & _). unfold is_live. rewrite Ht.
  injection Ek as -> _ _. rewrite Hr in Hr'. injection Hr' as <-. by rewrite Hl.
Qed.

Lemma inv_settling_all af : forall s, inv s ->
  let s' := foldl (fun s a => store_settling a true s) s af in
  inv s' /\ tok_ext (tokens (shared s)) (tokens (shared s')) /\
  delivered (shared s') = delivered (shared s) /\ finished (shared s') = finished (shared s).
Proof.
  induction af as [|a af IH]; intros s H; cbn [foldl]; [split; [done|split; [apply tok_ext_refl|done]]|].
  destruct (IH (store_settling a true s)) as (? & Hx & ? & ?); [by apply inv_store_settling|].
  split; [done|]. split; [|done]. intros m u Hu.
  destruct (tok_ext_alter (tokens (shared s)) a (set_settling true) (fun _ => eq_refl) m u Hu) as (u1 & Hu1 & E1).
  destruct (Hx m u1 Hu1) as (u2 & ? & E2). exists u2. split; [done|congruence].
Qed.

Lemma inv_handle_settle_through n latency s : inv s -> inv (handle_settle_through cfg n latency s).
Proof.
  intros H. unfold handle_settle_through. destruct (tokens (shared s) !! n) as [t|] eqn:Et; [|done].
  pose proof (inv_fence n t s H) as Hf.
  destruct (fence_settle_through cfg n t s) as [[[key r]|] s1] eqn:Ef; [|done]. simpl in Hf.
  destruct (fence_some _ _ _ _ _ _ Ef) as (Hr & Hk & Hlive & Es1).
  destruct (channel_ledgers (books s1) !! key) as [l|] eqn:El; [|by apply inv_fail_token, inv_store_settling].
  destruct (tk_delivery_tag t <=? acked_prefix l) eqn:Ep; [by apply inv_fail_token, inv_store_settling|]. zbool.
  destruct (validate_contiguous_prefix l _) as [affected|e] eqn:Ev; [|by apply inv_fail_token, inv_store_settling].
  cbv zeta. set (af := filter (is_live r s1) affected).
  destruct (bool_decide (af = [])); [by apply inv_fail_token, inv_store_settling|].
  destruct (validate_covers _ _ _ _ _ Hf El Ep Ev) as (Hd & Hnm & Hc).
  assert (named (tokens (shared s1)) n key (tk_delivery_tag t)) as Hn1.
  { subst s1. eapply named_ext; [by apply (tok_ext_alter _ n (set_settling true))|]. by exists t, r. }
  destruct (inv_settling_all af s1 Hf) as (H2 & Hx & Ed & Efi). set (s2 := foldl _ s1 af) in *.
  set (s3 := log_ack_requests af _).
  assert (covers_in s3 key (tk_delivery_tag t) af) as Hcov.
  { split; [simpl; by rewrite Ed|]. split; [intros m Hm; simpl; apply elem_of_app; by right|].
    intros tag Htd Hle. simpl in Htd. rewrite Ed in Htd. destruct (Hc tag Htd Hle) as [?|(m & Hm & Hnm')].
    - left. simpl. by rewrite Efi.
    - right. exists m. split; [|by eapply named_ext].
      apply list_elem_of_filter. split; [by eapply named_live|done]. }
  assert (named (tokens (shared s3)) n key (tk_delivery_tag t)) as Hn3 by (by eapply named_ext).
  assert (inv s3) as H3 by (by apply inv_log_ack_requests).
  case_decide; [by eapply inv_queue_settle_through|by eapply inv_launch_settle_through].
Qed.

(** ** Completions *)

Lemma inv_log_wire_single ops s :
  (forall k w, WAck k w true ∉ ops) -> inv s -> inv (log_wire ops s).
Proof.
  intros Ho [H1 H2 H3 H4 H5 H6 H7 H8 H9 H10]. split; try done. intros k w [Hw|Hw]%elem_of_app; [by apply H7|].
  by destruct (Ho k w).
Qed.

Lemma inv_complete_settlement key n res s : inv s -> inv (complete_settlement cfg key n res s).
Proof.
  intros H. unfold complete_settlement. destruct (tokens (shared s) !! n) as [t|]; [|done]. cbv zeta.
  apply inv_drain_settlement_queue.
  set (s1 := if (match res with Ok _ => true | Err e => terminal_kind (ce_kind e) end) then _ else _).
  assert (inv s1) as H1.
  { unfold s1. destruct (match res with Ok _ => true | Err e => terminal_kind (ce_kind e) end); [|done].
    apply inv_ledger_remove, inv_try_drain_pending. by destruct res as [[]|]. }
  clearbody s1. apply (inv_store_settling n false) in H1.
  destruct res as [st|e]; [by apply inv_store_state|].
  destruct (ce_kind e); try (by apply inv_fail_token, inv_store_state).
  all: destruct (c_subscriptions cfg !! _) as [r|]; [|by apply inv_fail_token, inv_store_state].
  all: destruct (ensure_live_generation r t); [unfold poison_op; destruct (rt_has_dead_letter r)|];
    match goal with |- inv (record_settlement_error _ ?x) => change (inv x) end;
    apply inv_store_state; first [exact H1|by apply inv_poison_metrics].
Qed.

(** ** Cumulative completions *)

Lemma inv_release_all affected : forall s, inv s ->
  inv (foldl (fun s n => match tokens (shared s) !! n with
    | Some t => release_bytes (payload_len (tk_payload t)) (tk_subscription t) s
    | None => s end) s affected).
Proof. apply inv_foldl. intros s n H. by destruct (_ !! n). Qed.

Lemma inv_advance key target l s :
  channel_ledgers (books s) !! key = Some l -> (key, target) ∈ D ->
  (forall tag e, pending l !! tag = Some e -> target < tag) ->
  inv s -> inv (set_acked_prefix key target s).
Proof.
  intros El Hd Hp [H1 H2 H3 H4 H5 H6 H7 H8 H9 H10]. unfold set_acked_prefix.
  assert (alter (fun l => mkLedger (pending l) target) key (channel_ledgers (books s)) =
          <[key := mkLedger (pending l) target]> (channel_ledgers (books s))) as Ea.
  { apply map_eq. intros k. destruct (decide (key = k)) as [->|Hne].
    - by rewrite lookup_alter_eq, lookup_insert_eq, El.
    - by rewrite lookup_alter_ne, lookup_insert_ne. }
  split; try done; reduce_state; rewrite Ea.
  - intros k tag Hin. destruct (H1 k tag Hin) as [?|(l' & e & Hl' & He)]; [by left|]. right.
    destruct (decide (k = key)) as [->|Hne]; [|exists l', e; by rewrite lookup_insert_ne].
    rewrite lookup_insert_eq. eexists _, e. split; [reflexivity|]. rewrite El in Hl'. by injection Hl' as <-.
  - intros k l' tag e [[<- <-]|[Hne Hl']]%lookup_insert_Some He; [|by eapply H2]. simpl in *.
    destruct (H2 key l tag e El He) as (? & _ & ?). split; [done|]. split; [by eapply Hp|done].
  - intros k l' [[<- <-]|[Hne Hl']]%lookup_insert_Some; [|by eapply H3]. right. simpl. by rewrite H8.
Qed.

Lemma covered_tags_elem l target tag :
  tag ∈ covered_tags l target <-> is_Some (pending l !! tag) /\ acked_prefix l < tag <= target.
Proof. unfold covered_tags. rewrite list_elem_of_filter, keys_elem. tauto. Qed.

Lemma inv_complete_settle_through key target affected res s :
  (key, target) ∈ D -> inv s -> inv (complete_settle_through cfg key target affected res s).
Proof.
  intros Hd H. unfold complete_settle_through. cbv zeta. apply inv_drain_settlement_queue.
  match goal with |- inv (match res with Ok _ => ?x | Err _ => _ end) => assert (inv x) as Hx end;
    [|by destruct res].
  apply inv_foldl; [by intros; apply inv_store_settling, inv_store_state|].
  destruct (match res with Ok _ => true | Err _ => _ end); [|done].
  set (s1 := try_drain_pending cfg _).
  assert (inv s1) as H1.
  { apply inv_try_drain_pending. pose proof (inv_release_all affected s H) as Hr.
    destruct res as [[]|]; try done. by destruct affected. }
  clearbody s1. destruct (channel_ledgers (books s1) !! key) as [l|] eqn:El; [|done].
  pose proof (inv_ledger_remove key (covered_tags l target) s1 H1) as H2.
  destruct res as [[]|]; try done.
  eapply (inv_advance key target (mkLedger (foldr delete (pending l) (covered_tags l target)) (acked_prefix l)));
    [|done| |done].
  - unfold ledger_remove. rewrite El. apply lookup_insert_eq.
  - intros tag e He. simpl in He. rewrite delete_list_lookup in He. case_decide as Hc; [done|].
    destruct (i_pending _ _ _ _ _ _ _ _ _ _ H1 key l tag e El He) as (_ & Hgt & _).
    rewrite covered_tags_elem in Hc. destruct (decide (tag <= target)); [|lia].
    destruct Hc. split; [by eexists|lia].
Qed.

(** ** Futures *)

Lemma execute_settlement_single sha256 a key r settlement t k w :
  WAck k w true ∉ (execute_settlement sha256 a key r settlement t).1.2.
Proof.
  unfold execute_settlement, delayed_release, wire_call. repeat split_match; simpl;
    rewrite ?elem_of_cons; intros H; destruct_or? H; try done; by apply elem_of_nil in H.
Qed.

Lemma take_nth_elem {A} i (l : list A) x rest : take_nth i l = Some (x, rest) -> x ∈ l /\ rest ⊆ l.
Proof.
  unfold take_nth. destruct (l !! i) as [y|] eqn:E; [|done]. intros [= <- <-].
  split; [by eapply list_elem_of_lookup_2|]. rewrite delete_take_drop.
  intros z [Hz|Hz]%elem_of_app; [by eapply subseteq_take|by eapply subseteq_drop].
Qed.

Lemma inv_settlement_done sha256 i a s s' :
  settlement_done sha256 cfg i a s = Some s' -> inv s -> inv s'.
Proof.
  unfold settlement_done. destruct (take_nth i _) as [[p rest]|]; [|done].
  destruct (tokens (shared s) !! _) as [t|]; [|done].
  destruct (execute_settlement _ _ _ _ _ _) as [[res ops] pubs] eqn:E. intros [= <-] H.
  apply inv_complete_settlement.
  assert (forall k w, WAck k w true ∉ ops) as Hs.
  { intros k w. pose proof (execute_settlement_single sha256 a (ps_key p) (ps_launch p)
      (sp_settlement (ps_params p)) t k w) as Hx. by rewrite E in Hx. }
  exact (inv_log_wire_single ops (on_books (set_pending_settlements rest) s) Hs H).
Qed.

(** The cumulative acknowledgement of a pending future is sent. *)
Lemma inv_send_through p rest a t s res ops :
  p ∈ pending_settle_throughs (books s) -> rest ⊆ pending_settle_throughs (books s) ->
  execute_settle_through a (pt_key p) (pt_launch p) (pt_target p) t = (res, ops) -> inv s ->
  (pt_key p, pt_target p) ∈ D /\
  inv (log_wire ops (clear_in_flight (pt_key p) (on_books (set_pending_settle_throughs rest) s))).
Proof.
  intros Hp Hrest E [H1 H2 H3 H4 H5 H6 H7 H8 H9 H10]. destruct (H5 p Hp) as (Hd & Hreq & Hc).
  split; [by rewrite <- H8|]. split; try done.
  - intros q Hq. by apply H5, Hrest.
  - intros k w [Hw|Hw]%elem_of_app; [by apply H7|]. unfold execute_settle_through, wire_call in E.
    destruct (ensure_live_generation _ _); injection E as <- <-; [|by apply elem_of_nil in Hw].
    apply list_elem_of_singleton in Hw as [= -> ->]. split; [done|]. split; [done|].
    intros tag Ht Hle. destruct (Hc tag Ht Hle) as [?|(n & ? & ?)]; [by left|right]. exists n. auto.
Qed.

Lemma inv_settle_through_done i a s s' :
  settle_through_done cfg i a s = Some s' -> inv s -> inv s'.
Proof.
  unfold settle_through_done. destruct (take_nth i _) as [[p rest]|] eqn:Etake; [|done].
  destruct (tokens (shared s) !! _) as [t|]; [|done]. apply take_nth_elem in Etake as [Hp Hrest].
  destruct (execute_settle_through _ _ _ _ _) as [res ops] eqn:E. intros [= <-] H.
  destruct (inv_send_through _ _ _ _ _ _ _ Hp Hrest E H) as [Hd Hw].
  by apply inv_complete_settle_through.
Qed.

Lemma inv_spawned_done i s s' : spawned_done i s = Some s' -> inv s -> inv s'.
Proof.
  unfold spawned_done. destruct (take_nth i _) as [[op rest]|]; [|done]. intros [= <-] H.
  apply (inv_log_wire_single _ (on_shared (set_spawned rest) s)); [|exact H].
  intros k w Hw. apply list_elem_of_singleton in Hw. by destruct op.
Qed.

(** ** Shutdown *)

Lemma inv_handle_control c s :
  match c with CmdSettle n _ _ => n ∈ P | _ => True end -> inv s -> inv (handle_control cfg c s).
Proof.
  intros Hc H. destruct c as [n settlement latency|n latency|]; simpl; [|by apply inv_handle_settle_through|done].
  destruct (i_popped _ _ _ _ _ _ _ _ _ _ H n Hc) as (k & tag & Hn). by eapply inv_handle_settle.
Qed.

Lemma inv_close_settlement sha256 i a s s' :
  close_settlement sha256 cfg i a s = Some s' -> inv s -> inv s'.
Proof.
  unfold close_settlement. destruct (take_nth i _) as [[p rest]|]; [|done].
  destruct (tokens (shared s) !! _) as [t|]; [|done].
  destruct (execute_settlement _ _ _ _ _ _) as [[res ops] pubs] eqn:E. intros [= <-] H.
  apply inv_drain_settlement_queue.
  assert (forall k w, WAck k w true ∉ ops) as Hs.
  { intros k w. pose proof (execute_settlement_single sha256 a (ps_key p) (ps_launch p)
      (sp_settlement (ps_params p)) t k w) as Hx. by rewrite E in Hx. }
  pose proof (inv_log_wire_single ops (on_books (set_pending_settlements rest) s) Hs H) as Hw.
  destruct res; [|apply inv_fail_token]; by apply inv_store_settling, inv_store_state.
Qed.

Lemma inv_close_through i a s s' : close_through cfg i a s = Some s' -> inv s -> inv s'.
Proof.
  unfold close_through. destruct (take_nth i _) as [[p rest]|] eqn:Etake; [|done].
  destruct (tokens (shared s) !! _) as [t|]; [|done]. apply take_nth_elem in Etake as [Hp Hrest].
  destruct (execute_settle_through _ _ _ _ _) as [res ops] eqn:E. intros [= <-] H.
  destruct (inv_send_through _ _ _ _ _ _ _ Hp Hrest E H) as [_ Hw].
  apply inv_drain_settlement_queue.
  match goal with |- inv (match res with Ok _ => ?x | Err _ => _ end) => assert (inv x) as Hx end;
    [|by destruct res].
  apply inv_foldl; [by intros; apply inv_store_settling, inv_store_state|done].
Qed.

Lemma inv_close_loop sha256 events : forall s, inv s -> inv (close_loop sha256 cfg events s).
Proof.
  induction events as [|e events IH]; intros s H; [done|]. cbn [close_loop].
  destruct e as [i a|i a].
  - destruct (close_settlement _ _ _ _ _) eqn:E; apply IH; [|done]. by eapply inv_close_settlement.
  - destruct (close_through _ _ _ _) eqn:E; apply IH; [|done]. by eapply inv_close_through.
Qed.

Lemma inv_close_set sha256 commands events s :
  Forall (fun c => match c with CmdSettle n _ _ => n ∈ P | _ => True end) commands ->
  inv s -> inv (close_set sha256 cfg commands events s).
Proof.
  intros Hc H. apply inv_close_loop, inv_flush_acked. revert s H.
  induction Hc as [|c commands Hc _ IH]; intros s H; [done|]. cbn [foldl]. by apply IH, inv_handle_control.
Qed.

End Inv.

(** ** New deliveries *)

Section Incoming.
Context (cfg : Config).

(** A new delivery: the broker numbers deliveries upwards. *)
Definition fresh_tag (k : ChannelKey) (tag : Z) (s : State) : Prop :=
  0 < tag /\ Forall (fun x => x.1 = k -> x.2 < tag) (delivered (shared s)).

Lemma covers_deliver ts del fin req k w af k' tag :
  Forall (fun x => x.1 = k' -> x.2 < tag) del ->
  covers cfg ts del fin req k w af -> covers cfg ts (del ++ [(k', tag)]) fin req k w af.
Proof.
  intros Hf (H1 & H2 & H3). split; [apply elem_of_app; by left|]. split; [done|].
  intros t [Ht|Ht]%elem_of_app Hle; [by apply H3|]. apply list_elem_of_singleton in Ht as [= <- <-].
  rewrite Forall_forall in Hf. specialize (Hf _ H1 eq_refl). simpl in Hf. lia.
Qed.

Lemma inv_open_entry D P k tag s :
  fresh_tag k tag s -> inv cfg D P s -> inv cfg (D ++ [(k, tag)]) P (open_entry k tag s).
Proof.
  intros [H0 Hf] [H1 H2 H3 H4 H5 H6 H7 H8 H9 H10]. unfold open_entry.
  set (l := default ledger_default (channel_ledgers (books s) !! k)).
  assert (acked_prefix l < tag) as Hlt.
  { unfold l. destruct (channel_ledgers (books s) !! k) as [l0|] eqn:E; [|simpl; lia].
    simpl. destruct (H3 k l0 E) as [->|Hin]; [done|]. rewrite Forall_forall in Hf. by apply (Hf _ Hin). }
  split; cbn [books on_books on_shared channel_ledgers set_channel_ledgers shared delivered set_delivered
              finished tokens ack_requests wire acked_batch pending_settle_throughs settle_through_queues].
  - intros k' t [Hd|Hd]%elem_of_app.
    + destruct (H1 k' t Hd) as [?|(l' & e & Hl' & He)]; [by left|]. right.
      destruct (decide (k' = k)) as [->|Hne]; [|exists l', e; by rewrite lookup_insert_ne].
      rewrite lookup_insert_eq. eexists _. rewrite Hl'. unfold l. rewrite Hl'. simpl.
      destruct (decide (t = tag)) as [->|Ht]; eexists; (split; [reflexivity|]); simpl.
      * apply lookup_insert_eq.
      * by rewrite lookup_insert_ne.
    + apply list_elem_of_singleton in Hd as [= -> ->]. right. rewrite lookup_insert_eq.
      eexists _, _. split; [reflexivity|]. apply lookup_insert_eq.
  - intros k' l' t e [[<- <-]|[Hne Hl']]%lookup_insert_Some He.
    + simpl in He. apply lookup_insert_Some in He as [[<- <-]|[Ht He]].
      * split; [apply elem_of_app; right; by left|]. by split.
      * unfold l in *. destruct (channel_ledgers (books s) !! k) as [l0|] eqn:E; [|done]. simpl in *.
        destruct (H2 k l0 t e E He) as (? & ? & ?). split; [apply elem_of_app; by left|done].
    + destruct (H2 k' l' t e Hl' He) as (? & ?). split; [apply elem_of_app; by left|done].
  - intros k' l' [[<- <-]|[Hne Hl']]%lookup_insert_Some; simpl.
    + unfold l. destruct (channel_ledgers (books s) !! k) as [l0|] eqn:E; [|by left]. simpl.
      destruct (H3 k l0 E) as [?|?]; [by left|right; apply elem_of_app; by left].
    + destruct (H3 k' l' Hl') as [?|?]; [by left|right; apply elem_of_app; by left].
  - done.
  - intros p Hp. by apply covers_deliver, H5.
  - intros k' q p Hq Hp. destruct (H6 k' q p Hq Hp) as (w & Hn & Hc). exists w. split; [done|]. by apply covers_deliver.
  - intros k' w Hw. by apply covers_deliver, H7.
  - by rewrite H8.
  - done.
  - done.
Qed.

(** The deliveries received after [res] arrived for [sub]. *)
Definition received (D : list (ChannelKey * Z)) (sub : string) (res : result TransportDelivery TransportError) :=
  match res, channel_key_for cfg sub with
  | Ok d, Some key => D ++ [(key, td_delivery_tag d)]
  | _, _ => D
  end.

Lemma inv_handle_incoming D P sub res s :
  (forall d key, res = Ok d -> channel_key_for cfg sub = Some key -> fresh_tag key (td_delivery_tag d) s) ->
  inv cfg D P s -> inv cfg (received D sub res) P (handle_incoming cfg sub res s).
Proof.
  intros Hf Hi. destruct res as [d|e]; cbn [handle_incoming]; [|by apply inv_dispatch].
  set (s0 := match channel_key_for cfg sub with Some key => _ | None => _ end).
  assert (inv cfg (received D sub (Ok d)) P s0) as H0.
  { unfold s0, received. destruct (channel_key_for cfg sub) as [key|]; [|done].
    apply inv_open_entry; [by apply Hf|done]. }
  clearbody s0. destruct (over_budget cfg sub _ s0).
  - destruct (oversized cfg sub _); [by apply inv_settle_oversized|done].
  - destruct (bool_decide _).
    + by apply inv_dispatch, inv_push_buffer.
    + by apply inv_dispatch, inv_drain_pending.
Qed.

End Incoming.

End ConsumerInv.
