(* ===== verification/ConsumerBounds.v ===== *)
(** * What the consumer actor holds

    The settlement operations of [ConsumerActor] leave the intake alone
    ([frame]); around them, every buffer of the actor stays within its
    capacity ([bounded]), and the dispatch loop of the source, which has no
    bound of its own, stops. *)

From S2P Require Import Prelude Transport Publication Scheduler Attempts DelayTopology DelayRouting.
From S2P Require Import Prefetch Delivery ConsumerActor ConsumerInv.
Import Transport Delivery ConsumerActor ConsumerInv.
Local Open Scope Z_scope.

Module ConsumerBounds.

(** ** What settling leaves alone *)

Record frame (s s' : State) : Prop := {
  fr_intake : intake s' = intake s;
  fr_tokens : identity <$> tokens (shared s') = identity <$> tokens (shared s);
  fr_handed : handed (shared s') = handed (shared s);
  fr_delivered : delivered (shared s') = delivered (shared s);
  fr_finished : finished (shared s) ⊆ finished (shared s');
  fr_errors : (length (errors (shared s)) <= ERROR_CHANNEL_CAPACITY ->
               length (errors (shared s')) <= ERROR_CHANNEL_CAPACITY)%nat
}.

#[global] Instance frame_po : PreOrder frame.
Proof.
  split; [by split|]. intros s1 s2 s3 [] []. split; etrans; eauto.
Qed.

Lemma frame_tokens s s' ts :
  identity <$> ts = identity <$> tokens (shared s') -> frame s s' -> frame s (on_shared (set_tokens ts) s').
Proof. intros E []. split; try done. simpl. by rewrite E. Qed.

Lemma frame_upd_token n f s s' :
  (forall t, identity (f t) = identity t) -> frame s s' -> frame s (upd_token n f s').
Proof.
  intros Hf. apply frame_tokens. apply list_eq. intros i. rewrite !list_lookup_fmap, list_lookup_alter.
  case_decide; [subst i|done]. destruct (_ !! n); simpl; [by rewrite Hf|done].
Qed.

Lemma frame_store_state n st s s' : frame s s' -> frame s (store_state n st s').
Proof. by apply frame_upd_token. Qed.

Lemma frame_store_settling n b s s' : frame s s' -> frame s (store_settling n b s').
Proof. by apply frame_upd_token. Qed.

(** The ring keeps its bound when it makes room for one element. *)
Lemma ring_bound {A} (cap : nat) (l : list A) x :
  (length l <= cap)%nat -> (0 < cap)%nat ->
  (length ((if (cap <=? length l)%nat then tail l else l) ++ [x]) <= cap)%nat.
Proof.
  intros Hl Hc. rewrite length_app. simpl. destruct (Nat.leb_spec cap (length l)); [|lia].
  destruct l; simpl in *; lia.
Qed.

Lemma frame_error e s s' : frame s s' -> frame s (record_settlement_error e s').
Proof.
  intros [? ? ? ? ? He]. split; try done. intros H. apply ring_bound; [by apply He|].
  unfold ERROR_CHANNEL_CAPACITY. lia.
Qed.

Lemma frame_fail n kind m s s' : frame s s' -> frame s (fail_token n kind m s').
Proof. intros H. unfold fail_token. destruct (_ !! n); [by apply frame_error|done]. Qed.

Lemma frame_foldl {A} (f : State -> A -> State) (l : list A) :
  (forall s s' x, frame s s' -> frame s (f s' x)) -> forall s s', frame s s' -> frame s (foldl f s' l).
Proof. intros Hf. induction l as [|x l IH]; intros s s' H; [done|]. cbn [foldl]. by apply IH, Hf. Qed.

Section Frames.
Context (cfg : Config).

(** Books, logs of the wire, spawned operations and metrics are outside the
    frame: their updates hold by computation. *)
Lemma frame_books f s s' : frame s s' -> frame s (on_books f s').
Proof. intros []. by split. Qed.

Lemma frame_ledger_remove key tags s s' : frame s s' -> frame s (ledger_remove key tags s').
Proof.
  intros [? ? ? ? Hf ?]. unfold ledger_remove. destruct (_ !! key); [|done]. split; try done.
  simpl. set_solver.
Qed.

Lemma frame_stage key n s s' : frame s s' -> frame s (stage_settlement_launch cfg key n s').2.
Proof.
  intros H. unfold stage_settlement_launch. destruct (_ !! n) as [t|]; [|done].
  destruct (_ !! tk_subscription t); [by apply frame_books|].
  apply frame_fail, frame_store_state. by repeat apply frame_books.
Qed.

Lemma frame_launch key p s s' : frame s s' -> frame s (launch_settlement cfg key p s').
Proof.
  intros H. unfold launch_settlement. pose proof (frame_stage key (sp_token p) s s' H) as Hs.
  destruct (stage_settlement_launch _ _ _ _) as [[r|] s1]; [by apply frame_books|done].
Qed.

Lemma frame_launch_through key p s s' : frame s s' -> frame s (launch_settle_through cfg key p s').
Proof.
  intros H. unfold launch_settle_through. pose proof (frame_stage key (stp_token p) s s' H) as Hs.
  destruct (stage_settlement_launch _ _ _ _) as [[r|] s1]; [by apply frame_books|done].
Qed.

Lemma frame_submit key p s s' : frame s s' -> frame s (submit_settlement cfg key p s').
Proof.
  intros H. unfold submit_settlement. case_decide; [by apply frame_books|by apply frame_launch].
Qed.

Lemma frame_drain_queue key s s' : frame s s' -> frame s (drain_settlement_queue cfg key s').
Proof.
  intros H. unfold drain_settlement_queue. cbv zeta.
  destruct (settlement_queues _ !! key) as [[|next rest]|];
    [..|destruct (settle_through_queues _ !! key) as [[|next rest]|]];
    try destruct (settle_through_queues _ !! key) as [[|next rest]|];
    repeat first [apply frame_launch | apply frame_launch_through | apply frame_books]; done.
Qed.

Lemma frame_claim n t s s' : frame s s' -> frame s (claim_settlement cfg n t s').2.
Proof.
  intros H. unfold claim_settlement. destruct (channel_key_for _ _);
    [destruct (tk_settling t)|]; simpl; auto using frame_fail, frame_store_settling, frame_store_state.
Qed.

Lemma frame_handle_settle n settlement latency s s' :
  frame s s' -> frame s (handle_settle cfg n settlement latency s').
Proof.
  intros H. unfold handle_settle. destruct (_ !! n) as [t|]; [|done].
  pose proof (frame_claim n t s s' H) as Hc. destruct (claim_settlement _ _ _ _) as [[key|] s1]; [|done].
  destruct settlement; try by apply frame_submit. destruct Hc; by split.
Qed.

Lemma frame_fence n t s s' : frame s s' -> frame s (fence_settle_through cfg n t s').2.
Proof.
  intros H. unfold fence_settle_through. destruct (negb _); [by apply frame_fail|].
  pose proof (frame_claim n t s s' H) as Hc. destruct (claim_settlement _ _ _ _) as [[key|] s1]; [|done].
  destruct (_ !! _); [destruct (ensure_live_generation _ _); [done|]|];
    by apply frame_fail, frame_store_settling.
Qed.

Lemma frame_handle_settle_through n latency s s' :
  frame s s' -> frame s (handle_settle_through cfg n latency s').
Proof.
  intros H. unfold handle_settle_through. destruct (_ !! n) as [t|]; [|done].
  pose proof (frame_fence n t s s' H) as Hc.
  destruct (fence_settle_through _ _ _ _) as [[[key r]|] s1]; [|done].
  assert (forall k m, frame s (fail_token n k m (store_settling n false s1))) as Hfail.
  { intros k m. by apply frame_fail, frame_store_settling. }
  destruct (_ !! key); [|apply Hfail]. destruct (_ <=? _); [apply Hfail|].
  destruct (validate_contiguous_prefix _ _) as [af|e]; [|apply Hfail].
  destruct (bool_decide _); [apply Hfail|]. cbv zeta.
  assert (forall l, frame s (foldl (fun s a => store_settling a true s) s1 l)) as Hs.
  { intros l. apply frame_foldl; [|done]. intros. by apply frame_store_settling. }
  specialize (Hs (filter (is_live r s1) af)). case_decide; [apply frame_books|apply frame_launch_through];
    destruct Hs; by split.
Qed.

Lemma frame_flush_channel key s s' : frame s s' -> frame s (flush_channel cfg key s').
Proof.
  intros H. unfold flush_channel. case_decide; [done|]. destruct (acked_batch _ !! key) as [batch|]; [|done].
  destruct (_ !! key) as [l|]; [|by apply frame_books]. cbv zeta. destruct (last _).
  - apply frame_foldl; [intros; by apply frame_books|]. apply frame_launch_through. by apply frame_books.
  - apply frame_foldl; [intros; by apply frame_submit|]. by apply frame_books.
Qed.

Lemma frame_flush_acked s s' : frame s s' -> frame s (flush_acked cfg s').
Proof. apply frame_foldl. intros. by apply frame_flush_channel. Qed.

Lemma frame_handle_control c s s' : frame s s' -> frame s (handle_control cfg c s').
Proof.
  destruct c; [apply frame_handle_settle|apply frame_handle_settle_through|done].
Qed.

Lemma frame_finish_affected final af s s' :
  frame s s' -> frame s (foldl (fun s n => store_settling n false (store_state n final s)) s' af).
Proof. apply frame_foldl. intros. by apply frame_store_settling, frame_store_state. Qed.

Lemma frame_close_loop sha256 events : forall s s', frame s s' -> frame s (close_loop sha256 cfg events s').
Proof.
  induction events as [|e events IH]; intros s s' H; [done|]. cbn [close_loop].
  destruct e as [i a|i a].
  - destruct (close_settlement sha256 cfg i a s') as [s1|] eqn:E; [apply IH|by apply IH].
    unfold close_settlement in E. destruct (take_nth _ _) as [[p rest]|]; [|done].
    destruct (_ !! _) as [t|]; [|done]. destruct (execute_settlement _ _ _ _ _ _) as [[res ops] pubs].
    injection E as <-. apply frame_drain_queue.
    destruct res; [|apply frame_fail]; apply frame_store_settling, frame_store_state; destruct H; by split.
  - destruct (close_through cfg i a s') as [s1|] eqn:E; [apply IH|by apply IH].
    unfold close_through in E. destruct (take_nth _ _) as [[p rest]|]; [|done].
    destruct (_ !! _) as [t|]; [|done]. destruct (execute_settle_through _ _ _ _ _) as [res ops].
    injection E as <-. apply frame_drain_queue.
    destruct res; [|apply frame_error]; apply frame_finish_affected; destruct H; by split.
Qed.

Lemma frame_close_set sha256 commands events s :
  frame s (close_set sha256 cfg commands events s).
Proof.
  apply frame_close_loop, frame_flush_acked. apply frame_foldl; [|reflexivity].
  intros. by apply frame_handle_control.
Qed.

End Frames.

(** ** Capacities *)

Section Bounds.
Context (cfg : Config).

(** The capacities of the configuration are usable ones. *)
Definition capacities_ok : Prop := 0 < c_early_acked_capacity cfg.

Record within (i : Intake) : Prop := {
  b_bytes : forall sub max b, c_max_buffered_bytes cfg !! sub = Some max ->
    buffered_bytes i !! sub = Some b -> 0 <= b <= max;
  b_pending : Z.of_nat (length (pending_incoming i)) <= c_pending_capacity cfg;
  b_flume : Z.of_nat (length (flume i)) <= c_flume_capacity cfg;
  b_sources : (length (source_errors i) <= SOURCE_ERROR_CAPACITY)%nat;
  b_rings : forall key ring, early_acked_tags i !! key = Some ring ->
    Z.of_nat (length ring) <= c_early_acked_capacity cfg
}.

Definition bounded (s : State) : Prop :=
  within (intake s) /\ (length (errors (shared s)) <= ERROR_CHANNEL_CAPACITY)%nat.

Lemma frame_bounded s s' : frame s s' -> bounded s -> bounded s'.
Proof. intros [Hi _ _ _ _ He] [H1 H2]. split; [by rewrite Hi|by apply He]. Qed.

Lemma bounded_bytes f sub s :
  (forall max b, c_max_buffered_bytes cfg !! sub = Some max -> buffered_bytes (intake s) !! sub = Some b ->
     0 <= b <= max -> 0 <= f b <= max) ->
  bounded s -> bounded (alter_bytes f sub s).
Proof.
  intros Hf [[H1 H2 H3 H4 H5] He]. split; [|done]. split; try done.
  intros sub' max b Hm. cbn. destruct (decide (sub' = sub)) as [->|Hne].
  - rewrite lookup_alter_eq. intros (b0 & Hb & ->)%fmap_Some. by apply Hf; [..|by eapply H1].
  - rewrite lookup_alter_ne by done. by apply H1.
Qed.

Lemma bounded_release n sub s : 0 <= n -> bounded s -> bounded (release_bytes n sub s).
Proof. intros Hn. apply bounded_bytes. intros. unfold sat_sub. lia. Qed.

Lemma bounded_error e s : bounded s -> bounded (record_settlement_error e s).
Proof. apply frame_bounded, frame_error. reflexivity. Qed.

Lemma alter_twice (f g : Z -> Z) sub (m : gmap string Z) :
  alter f sub (alter g sub m) = alter (fun b => f (g b)) sub m.
Proof.
  apply map_eq. intros k. destruct (decide (k = sub)) as [->|].
  - rewrite !lookup_alter_eq. by destruct (m !! sub).
  - by rewrite !lookup_alter_ne.
Qed.

(** Poison settlements change the intake by the bytes they release. *)
Lemma settle_poison_intake sub dl tag id bytes detail ident s :
  intake (settle_poison cfg sub dl tag id bytes detail ident s) = intake (release_bytes bytes sub s).
Proof.
  unfold settle_poison. cbv zeta.
  destruct (c_subscriptions cfg !! sub) as [r|]; [destruct (negb _ && _)%bool|];
    destruct (channel_key_for cfg sub) as [key|]; unfold ledger_remove;
    try destruct (channel_ledgers _ !! key); by destruct dl.
Qed.

Lemma settle_poison_errors sub dl tag id bytes detail ident s :
  (length (errors (shared s)) <= ERROR_CHANNEL_CAPACITY ->
   length (errors (shared (settle_poison cfg sub dl tag id bytes detail ident s))) <= ERROR_CHANNEL_CAPACITY)%nat.
Proof.
  intros H. apply ring_bound; [|unfold ERROR_CHANNEL_CAPACITY; lia].
  destruct (c_subscriptions cfg !! sub) as [r|]; [destruct (negb _ && _)%bool|];
    destruct (channel_key_for cfg sub) as [key|]; unfold ledger_remove;
    try destruct (channel_ledgers _ !! key); by destruct dl.
Qed.

Lemma bounded_settle_poison sub dl tag id bytes detail ident s :
  0 <= bytes -> bounded s -> bounded (settle_poison cfg sub dl tag id bytes detail ident s).
Proof.
  intros Hb Hs. split; [|apply settle_poison_errors, Hs]. rewrite settle_poison_intake.
  by apply bounded_release.
Qed.

Lemma bounded_settle_oversized sub d s : bounded s -> bounded (settle_oversized cfg sub d s).
Proof.
  intros Hs. unfold settle_oversized. split; [|by apply settle_poison_errors, Hs].
  rewrite settle_poison_intake. cbn [release_bytes add_bytes alter_bytes on_intake intake].
  assert (bounded (alter_bytes (fun b => sat_sub (sat_add U64_MAX b (payload_len (td_payload d)))
    (payload_len (td_payload d))) sub s)) as [[H1 H2 H3 H4 H5] _].
  { apply bounded_bytes; [|done]. pose proof (payload_len_nonneg (td_payload d)).
    intros. unfold sat_sub, sat_add. lia. }
  split; try done. intros sub' max b Hm. cbn [buffered_bytes set_buffered_bytes intake on_intake].
  unfold release_bytes, add_bytes, alter_bytes in *. cbn [buffered_bytes set_buffered_bytes intake on_intake] in *.
  rewrite alter_twice. by apply H1.
Qed.

Lemma bounded_add_bytes sub bytes s :
  over_budget cfg sub bytes s = false -> 0 <= bytes -> bounded s -> bounded (add_bytes bytes sub s).
Proof.
  unfold over_budget, bytes_of. intros Ho Hb. apply bounded_bytes. intros max b Hm Hl Hr.
  rewrite Hm, Hl in Ho. zbool. simpl in Ho. unfold sat_add, U64_MAX in *. lia.
Qed.

Lemma bounded_push_buffer sub d s : bounded s -> bounded (push_buffer sub d s).
Proof. intros [[] ?]. unfold push_buffer. destruct (_ !! sub); (split; [by split|done]). Qed.

Lemma push_buffer_bytes sub d s bytes :
  over_budget cfg sub bytes (push_buffer sub d s) = over_budget cfg sub bytes s.
Proof. unfold push_buffer. by destruct (_ !! sub). Qed.

Lemma bounded_set_pending l s :
  Z.of_nat (length l) <= c_pending_capacity cfg -> bounded s -> bounded (set_pending l s).
Proof. intros Hl [[] ?]. split; [by split|done]. Qed.

Lemma bounded_drain_loop l : forall s,
  Z.of_nat (length l) <= c_pending_capacity cfg -> bounded s -> bounded (drain_loop cfg l s).
Proof.
  induction l as [|[sub d] l IH]; intros s Hl H; cbn [drain_loop]; [by apply bounded_set_pending|].
  destruct (over_budget _ _ _ _) eqn:Eo; [destruct (oversized _ _ _); [|by apply bounded_set_pending]|];
    (apply IH; [simpl in Hl; lia|]).
  - by apply bounded_settle_oversized.
  - apply bounded_add_bytes; [by rewrite push_buffer_bytes|auto with rabbit|by apply bounded_push_buffer].
Qed.

Lemma bounded_drain_pending s : bounded s -> bounded (drain_pending cfg s).
Proof. intros H. apply bounded_drain_loop; [apply H|done]. Qed.

(** What changes neither the bounded fields nor the errors. *)
Definition same_bounds (s s' : State) : Prop :=
  buffered_bytes (intake s') = buffered_bytes (intake s) /\
  pending_incoming (intake s') = pending_incoming (intake s) /\
  flume (intake s') = flume (intake s) /\ source_errors (intake s') = source_errors (intake s) /\
  early_acked_tags (intake s') = early_acked_tags (intake s) /\ errors (shared s') = errors (shared s).

Lemma bounded_same s s' : same_bounds s s' -> bounded s -> bounded s'.
Proof.
  intros (E1 & E2 & E3 & E4 & E5 & E6) [[H1 H2 H3 H4 H5] H6].
  split; [split|]; rewrite ?E1, ?E2, ?E3, ?E4, ?E5, ?E6; done.
Qed.

Lemma same_entry_token sub tag n s : same_bounds s (set_entry_token cfg sub tag n s).
Proof. unfold set_entry_token. destruct (channel_key_for _ _); [destruct (_ !! _)|]; by repeat split. Qed.

Lemma same_mark sub s : same_bounds s (mark_if_empty sub s).
Proof. unfold mark_if_empty. destruct (_ !! sub) as [[|]|]; by repeat split. Qed.

Lemma bounded_try_send it s s' : try_send cfg it s = Some s' -> bounded s -> bounded s'.
Proof.
  unfold try_send. destruct (_ <? _) eqn:E; [|done]. zbool. intros [= <-] [[H1 H2 H3 H4 H5] H6].
  split; [|done]. split; try done. cbn. rewrite length_app. simpl. lia.
Qed.

Lemma bounded_remember tag key s :
  capacities_ok -> bounded s -> bounded (remember_early_acked cfg tag key s).
Proof.
  intros Hc [[H1 H2 H3 H4 H5] H6]. split; [|done]. split; try done.
  intros key' ring. cbn. intros [[<- <-]|[_ Hr]]%lookup_insert_Some; [|by eapply H5].
  assert (Z.of_nat (length (default [] (early_acked_tags (intake s) !! key))) <= c_early_acked_capacity cfg) as Hr.
  { destruct (_ !! key) eqn:E; simpl; [by eapply H5|unfold capacities_ok in Hc; lia]. }
  rewrite length_app. destruct (_ <=? _) eqn:E; zbool; simpl; [|lia].
  destruct (default _ _); simpl in *; unfold capacities_ok in Hc; lia.
Qed.

Lemma bounded_metrics f s : bounded s -> bounded (on_metrics f s).
Proof. by apply bounded_same. Qed.

Lemma bounded_dispatch_early sub r d a s :
  capacities_ok -> bounded s -> bounded (dispatch_early cfg sub r d a s).2.
Proof.
  intros Hc H. unfold dispatch_early. cbv zeta. set (s0 := if (_ && _)%bool then _ else s).
  assert (bounded s0) as H0.
  { unfold s0. destruct (_ && _)%bool; [|done]. by apply (bounded_same (remember_early_acked cfg (td_delivery_tag d)
      (runtime_key sub r) s)), bounded_remember. }
  unfold new_token. set (s1 := on_shared _ s0). assert (bounded s1) as H1 by by apply (bounded_same s0).
  destruct (try_send cfg _ s1) as [s2|] eqn:Et; [|by apply (bounded_same s1)].
  assert (bounded s2) as H2 by by eapply bounded_try_send.
  assert (bounded (release_bytes (payload_len (td_payload d)) sub (mark_if_empty sub
    (log_handed (length (tokens (shared s0))) s2)))) as H3.
  { apply bounded_release; [auto with rabbit|]. apply (bounded_same (log_handed (length (tokens (shared s0))) s2));
      [apply same_mark|by apply (bounded_same s2)]. }
  destruct (1 <? a); by repeat apply bounded_metrics.
Qed.

Lemma bounded_dispatch_token sub r d a s : bounded s -> bounded (dispatch_token cfg sub r d a s).2.
Proof.
  intros H. unfold dispatch_token, new_token. set (s1 := on_shared _ s).
  assert (bounded (set_entry_token cfg sub (td_delivery_tag d) (length (tokens (shared s))) s1)) as H1.
  { apply (bounded_same s1); [apply same_entry_token|by apply (bounded_same s)]. }
  destruct (try_send cfg _ _) as [s2|] eqn:Et; [|by eapply bounded_same; [|exact H1]].
  assert (bounded s2) as H2 by by eapply bounded_try_send.
  assert (bounded (mark_if_empty sub (log_handed (length (tokens (shared s))) s2))) as H3.
  { apply (bounded_same (log_handed (length (tokens (shared s))) s2)); [apply same_mark|by apply (bounded_same s2)]. }
  destruct (1 <? a); by repeat apply bounded_metrics.
Qed.

Lemma bounded_dispatch_delivery sub d s :
  capacities_ok -> bounded s -> bounded (dispatch_delivery cfg sub d s).2.
Proof.
  intros Hc H. unfold dispatch_delivery. destruct (c_subscriptions cfg !! sub) as [r|]; [|by apply (bounded_same s)].
  destruct (Attempts.resolve _ _ _); destruct (rt_early_ack r).
  - by apply bounded_dispatch_early.
  - by apply bounded_dispatch_token.
  - by apply bounded_dispatch_early, bounded_error.
  - apply bounded_settle_poison; [auto with rabbit|done].
Qed.

Lemma bounded_dispatch_step s : capacities_ok -> bounded s -> bounded (dispatch_step cfg s).2.
Proof.
  intros Hc H. unfold dispatch_step. destruct (source_errors (intake s)) as [|e rest] eqn:Es.
  - destruct (Scheduler.pick _) as [[sub|] sch]; [|by apply (bounded_same s)].
    destruct (_ !! sub) as [[|d rest]|]; try by apply (bounded_same s).
    apply bounded_dispatch_delivery; [done|]. by apply (bounded_same s).
  - destruct (try_send _ _ _) as [s1|] eqn:E; [|done].
    pose proof (bounded_try_send _ _ _ E H) as [[H1 H2 H3 H4 H5] H6].
    destruct H as [[_ _ _ H4' _] _]. rewrite Es in H4'. split; [|done]. split; try done. simpl in *. lia.
Qed.

Lemma bounded_dispatch_loop fuel : capacities_ok -> forall s, bounded s -> bounded (dispatch_loop cfg fuel s).
Proof.
  intros Hc. induction fuel as [|fuel IH]; intros s H; [done|]. cbn [dispatch_loop].
  pose proof (bounded_dispatch_step s Hc H) as Hd.
  destruct (dispatch_step cfg s) as [[] s']; [by apply IH|done].
Qed.

Lemma bounded_dispatch s : capacities_ok -> bounded s -> bounded (dispatch cfg s).
Proof. intros Hc H. by apply bounded_dispatch_loop, bounded_drain_pending. Qed.

Lemma bounded_handle_incoming sub res s :
  capacities_ok -> Z.of_nat (length (pending_incoming (intake s))) < c_pending_capacity cfg ->
  bounded s -> bounded (handle_incoming cfg sub res s).
Proof.
  intros Hc Hp H. unfold handle_incoming. destruct res as [d|e].
  - cbv zeta. set (s1 := match channel_key_for _ _ with Some _ => _ | None => _ end).
    assert (bounded s1 /\ pending_incoming (intake s1) = pending_incoming (intake s)) as [H1 E1].
    { unfold s1. destruct (channel_key_for _ _); [|done]. split; [by apply (bounded_same s)|done]. }
    assert (forall x, bounded (set_pending (pending_incoming (intake s1) ++ [x]) s1)) as Hset.
    { intros x. apply bounded_set_pending; [|done]. rewrite E1, length_app. simpl. lia. }
    destruct (over_budget _ _ _ _) eqn:Eo;
      [destruct (oversized _ _ _); [by apply bounded_settle_oversized|by apply bounded_metrics]|].
    destruct (bool_decide _); apply bounded_dispatch; try done; [|by apply bounded_drain_pending].
    apply bounded_add_bytes; [by rewrite push_buffer_bytes|auto with rabbit|by apply bounded_push_buffer].
  - apply bounded_dispatch; [done|]. destruct H as [[H1 H2 H3 H4 H5] H6]. split; [|done]. split; try done.
    by apply ring_bound; [|unfold SOURCE_ERROR_CAPACITY; lia].
Qed.

(** ** Completions *)

Lemma bounded_completion_drain n sub s :
  capacities_ok -> 0 <= n -> bounded s -> bounded (try_drain_pending cfg (release_bytes n sub s)).
Proof. intros. by apply bounded_dispatch, bounded_drain_pending, bounded_release. Qed.

Lemma bounded_complete_settlement key n res s :
  capacities_ok -> bounded s -> bounded (complete_settlement cfg key n res s).
Proof.
  intros Hc H. unfold complete_settlement. destruct (_ !! n) as [t|]; [|done]. cbv zeta.
  eapply frame_bounded; [apply frame_drain_queue; reflexivity|].
  match goal with |- context [store_settling n false ?x] => assert (bounded x) as Hx; [|set (s1 := x) in *] end.
  { destruct (match res with Ok _ => true | Err _ => _ end); [|done].
    eapply frame_bounded; [apply frame_ledger_remove; reflexivity|].
    apply bounded_completion_drain; [done|auto with rabbit|]. by destruct res as [[]|]. }
  clearbody s1. assert (bounded (store_settling n false s1)) as H2.
  { eapply frame_bounded; [apply frame_store_settling; reflexivity|done]. }
  set (s2 := store_settling n false s1) in *. clearbody s2.
  eapply (frame_bounded s2); [|done]. destruct res as [st|e]; [apply frame_store_state; reflexivity|].
  destruct (ce_kind e); try (apply frame_fail, frame_store_state; reflexivity).
  all: destruct (c_subscriptions cfg !! _) as [r|]; [|apply frame_fail, frame_store_state; reflexivity].
  all: destruct (ensure_live_generation r t), (rt_has_dead_letter r); apply frame_error, frame_store_state; by split.
Qed.

Lemma bounded_complete_settle_through key target af res s :
  capacities_ok -> bounded s -> bounded (complete_settle_through cfg key target af res s).
Proof.
  intros Hc H. unfold complete_settle_through. cbv zeta.
  eapply frame_bounded; [apply frame_drain_queue; reflexivity|].
  match goal with |- context [foldl (fun s n => store_settling n false _) ?x af] =>
    assert (bounded x) as Hx; [|set (s1 := x) in *; clearbody s1] end.
  { destruct (match res with Ok _ => true | Err _ => _ end); [|done].
    match goal with |- context [try_drain_pending cfg ?x] => assert (bounded (try_drain_pending cfg x)) as Hd;
      [|set (s1 := try_drain_pending cfg x) in *; clearbody s1] end.
    { apply bounded_dispatch; [done|]. apply bounded_drain_pending.
      match goal with |- context [foldl ?f s af] => assert (bounded (foldl f s af)) as Hf end.
      { clear Hc. revert s H. induction af as [|n af IH]; intros s H; [done|]. cbn [foldl]. apply IH.
        destruct (_ !! n); [|done]. apply bounded_release; [auto with rabbit|done]. }
      destruct res as [[]|]; try done. by destruct af. }
    destruct (channel_ledgers (books s1) !! key); [|done].
    assert (bounded (ledger_remove key (covered_tags c target) s1)) as Hl
      by (eapply frame_bounded; [apply frame_ledger_remove; reflexivity|done]).
    by destruct res as [[]|]. }
  apply (frame_bounded s1); [|done]. destruct res; [|apply frame_error]; by apply frame_finish_affected.
Qed.

Lemma bounded_settlement_done sha256 i a s s' :
  capacities_ok -> settlement_done sha256 cfg i a s = Some s' -> bounded s -> bounded s'.
Proof.
  intros Hc E H. unfold settlement_done in E. destruct (take_nth _ _) as [[p rest]|]; [|done].
  destruct (_ !! _) as [t|]; [|done]. destruct (execute_settlement _ _ _ _ _ _) as [[res ops] pubs].
  injection E as <-. by apply bounded_complete_settlement.
Qed.

Lemma bounded_settle_through_done i a s s' :
  capacities_ok -> settle_through_done cfg i a s = Some s' -> bounded s -> bounded s'.
Proof.
  intros Hc E H. unfold settle_through_done in E. destruct (take_nth _ _) as [[p rest]|]; [|done].
  destruct (_ !! _) as [t|]; [|done]. destruct (execute_settle_through _ _ _ _ _) as [res ops].
  injection E as <-. by apply bounded_complete_settle_through.
Qed.

(** ** The dispatch loop stops *)

(** A total over the buffers after one of them changed. *)
Lemma stock_set_buffer sub (l l' : list TransportDelivery) s :
  buffers (intake s) !! sub = Some l ->
  (stock (set_buffer sub l' s) + length l = stock s + length l')%nat.
Proof.
  intros Hl. unfold stock, set_buffer. cbn [source_errors intake on_intake set_buffers buffers].
  rewrite <- (insert_delete_eq (buffers (intake s)) sub l'), values_insert by apply lookup_delete_eq.
  rewrite <- (values_delete (buffers (intake s)) sub l Hl), !fmap_cons. cbn [sum_list_with id]. unfold id. lia.
Qed.

(** Dispatching a popped delivery leaves the buffers and the retained errors
    as they are, unless the pass stops. *)
Lemma dispatch_delivery_stock sub d s s' :
  dispatch_delivery cfg sub d s = (true, s') -> stock s' = stock s.
Proof.
  assert (forall s1 : State, buffers (intake s1) = buffers (intake s) ->
    source_errors (intake s1) = source_errors (intake s) -> stock s1 = stock s) as Hs.
  { intros s1 E1 E2. unfold stock. by rewrite E1, E2. }
  assert (forall r a x, buffers (intake x) = buffers (intake s) ->
    source_errors (intake x) = source_errors (intake s) ->
    dispatch_early cfg sub r d a x = (true, s') -> stock s' = stock s) as Hearly.
  { intros r a x Hb He. unfold dispatch_early, new_token, try_send, mark_if_empty. cbv zeta.
    destruct (_ && _)%bool; destruct (_ <? _); try done; cbn [fst snd];
      intros [= <-]; apply Hs; destruct (1 <? a);
      destruct (buffers _ !! sub) as [[|]|]; simpl; done. }
  unfold dispatch_delivery. destruct (c_subscriptions cfg !! sub) as [r|]; [|done].
  destruct (Attempts.resolve _ _ _); destruct (rt_early_ack r).
  - by apply Hearly.
  - unfold dispatch_token, new_token, try_send, mark_if_empty. cbv zeta.
    assert (forall n x, intake (set_entry_token cfg sub (td_delivery_tag d) n x) = intake x) as Ht.
    { intros n x. unfold set_entry_token. destruct (channel_key_for _ _); [by destruct (_ !! _)|done]. }
    destruct (_ <? _); [|done]. intros [= <-]. apply Hs; destruct (1 <? a);
      destruct (buffers _ !! sub) as [[|]|]; simpl; by rewrite Ht.
  - by apply Hearly.
  - intros [= <-]. apply Hs; by rewrite settle_poison_intake.
Qed.

Lemma dispatch_step_decreases s s' : dispatch_step cfg s = (true, s') -> (stock s' < stock s)%nat.
Proof.
  unfold dispatch_step. destruct (source_errors (intake s)) as [|e rest] eqn:Es.
  - destruct (Scheduler.pick _) as [[sub|] sch]; [|done].
    destruct (buffers _ !! sub) as [[|d rest]|] eqn:Eb; try done.
    intros E%dispatch_delivery_stock. rewrite E. apply (stock_set_buffer sub (d :: rest) rest (on_scheduler (fun _ => sch) s)) in Eb. cbn [length] in Eb.
    assert (stock (on_scheduler (fun _ => sch) s) = stock s) as Hsch by done. lia.
  - unfold try_send. destruct (_ <? _); [|done]. intros [= <-]. unfold stock. simpl. rewrite Es. simpl. lia.
Qed.

Lemma dispatch_loop_enough fuel : forall s,
  (stock s < fuel)%nat -> dispatch_loop cfg fuel s = dispatch_loop cfg (S fuel) s.
Proof.
  induction fuel as [|fuel IH]; intros s Hf; [lia|]. cbn [dispatch_loop].
  destruct (dispatch_step cfg s) as [[] s'] eqn:E; [|done]. apply IH.
  apply dispatch_step_decreases in E. lia.
Qed.

Lemma dispatch_loop_converges s fuel :
  (stock s < fuel)%nat -> dispatch_loop cfg fuel s = dispatch_loop cfg (S (stock s)) s.
Proof.
  induction 1 as [|fuel Hle IH]; [done|]. rewrite <- IH. symmetry. apply dispatch_loop_enough. lia.
Qed.

(** Where the loop breaks: the retained errors or the picked delivery do not
    fit the flume, or the pick found nothing. *)
Lemma dispatch_loop_breaks fuel : forall s,
  (stock s < fuel)%nat -> exists s1, dispatch_step cfg s1 = (false, dispatch_loop cfg fuel s).
Proof.
  induction fuel as [|fuel IH]; intros s Hf; [lia|]. cbn [dispatch_loop].
  destruct (dispatch_step cfg s) as [[] s'] eqn:E; [|eauto]. apply IH.
  apply dispatch_step_decreases in E. lia.
Qed.

End Bounds.

End ConsumerBounds.
