(* ===== verification/ConsumerFifo.v ===== *)
(** * The path of a delivery through the consumer actor

    Between the broker and the embedder a delivery waits in
    [pending_incoming], then in the buffer of its subscription, then in the
    hand-off flume. The invariant [fifo] says that these three, after what the
    embedder already received, hold the deliveries of a channel in the order
    the broker sent them, each once, and that a delivery missing from them is
    finished. Every operation of [ConsumerActor] keeps it. *)

From S2P Require Import Prelude Transport Publication Scheduler Attempts DelayTopology DelayRouting.
From S2P Require Import Prefetch Delivery ConsumerActor ConsumerInv ConsumerBounds.
Import Transport Delivery ConsumerActor ConsumerInv ConsumerBounds.
Local Open Scope Z_scope.

Module ConsumerFifo.

(** The tags of one channel in a log. *)
Definition tags_on (k : ChannelKey) (log : list (ChannelKey * Z)) : list Z :=
  (filter (fun x => x.1 = k) log).*2.

(** The tag of a token of channel [k]. *)
Definition lane_tag (ids : list (string * Z * Z * Z * Z)) (k : ChannelKey) (n : nat) : option Z :=
  match ids !! n with
  | Some (sub, _, gen, ch, tag) => if decide ((sub, ch, gen) = k) then Some tag else None
  | None => None
  end.

Definition handed_tags (k : ChannelKey) (h : Shared) : list Z :=
  omap (lane_tag (identity <$> tokens h) k) (handed h).

Definition oks (l : list Item) : list nat :=
  omap (fun it => match it with Ok n => Some n | Err _ => None end) l.

(** What of [l] belongs to [sub]. *)
Definition waiting (sub : string) (l : list (string * TransportDelivery)) : list Z :=
  td_delivery_tag ∘ snd <$> filter (fun x => x.1 = sub) l.

(** The lane of a channel: handed out, popped from the buffer just now
    ([hole]), buffered, and not yet admitted ([l]). *)
Definition lane (s : State) (hole l : list (string * TransportDelivery)) (sub : string) (k : ChannelKey) : list Z :=
  handed_tags k (shared s) ++ waiting sub hole ++
  (td_delivery_tag <$> default [] (buffers (intake s) !! sub)) ++ waiting sub l.

Section Fifo.
Context (cfg : Config) (P : list nat).

Record fifo_on (s : State) (hole l : list (string * TransportDelivery)) : Prop := {
  f_buffers : forall sub k, channel_key_for cfg sub = Some k -> is_Some (buffers (intake s) !! sub);
  f_sublist : forall sub k, channel_key_for cfg sub = Some k ->
    lane s hole l sub k `sublist_of` tags_on k (delivered (shared s));
  f_kept : forall sub k tag, channel_key_for cfg sub = Some k -> (k, tag) ∈ delivered (shared s) ->
    (k, tag) ∈ finished (shared s) \/ tag ∈ lane s hole l sub k;
  f_handed : Forall (fun n => (n < length (tokens (shared s)))%nat) (handed (shared s));
  f_flume : handed (shared s) = P ++ oks (flume (intake s))
}.

Definition fifo (s : State) : Prop := fifo_on s [] (pending_incoming (intake s)).

(** ** Generic steps *)

(** The lanes, the logs and the flume are all [fifo] looks at. *)
Lemma fifo_ext s s' hole hole' l l' :
  (forall sub, is_Some (buffers (intake s) !! sub) -> is_Some (buffers (intake s') !! sub)) ->
  (forall sub k, channel_key_for cfg sub = Some k -> lane s' hole' l' sub k = lane s hole l sub k) ->
  delivered (shared s') = delivered (shared s) -> finished (shared s) ⊆ finished (shared s') ->
  (length (tokens (shared s)) <= length (tokens (shared s')))%nat ->
  handed (shared s') = handed (shared s) -> flume (intake s') = flume (intake s) ->
  fifo_on s hole l -> fifo_on s' hole' l'.
Proof.
  intros Hb Hl Hd Hf Ht Hh Hfl [H1 H2 H3 H4 H5]. split.
  - intros sub k Hk. by eapply Hb, H1.
  - intros sub k Hk. rewrite Hl, Hd by done. by apply H2.
  - intros sub k tag Hk. rewrite Hl, Hd by done. intros Htag.
    destruct (H3 sub k tag Hk Htag); [left; by apply Hf|by right].
  - rewrite Hh. eapply Forall_impl; [exact H4|]. simpl. lia.
  - by rewrite Hh, Hfl.
Qed.

Lemma frame_fifo s s' : frame s s' -> fifo s -> fifo s'.
Proof.
  intros [Hi Ht Hh Hd Hf _]. unfold fifo. apply fifo_ext; rewrite ?Hi; try done.
  - intros sub k _. unfold lane, handed_tags. by rewrite Hi, Ht, Hh.
  - by rewrite <- !(length_fmap identity), Ht.
Qed.

(** A finished delivery leaves its lane. *)
Lemma fifo_shrink s s' hole hole' l l' :
  (forall sub k, channel_key_for cfg sub = Some k -> lane s' hole' l' sub k `sublist_of` lane s hole l sub k) ->
  (forall sub k tag, channel_key_for cfg sub = Some k -> (k, tag) ∈ delivered (shared s) ->
     tag ∈ lane s hole l sub k -> tag ∈ lane s' hole' l' sub k \/ (k, tag) ∈ finished (shared s')) ->
  buffers (intake s') = buffers (intake s) -> flume (intake s') = flume (intake s) ->
  tokens (shared s') = tokens (shared s) -> handed (shared s') = handed (shared s) ->
  delivered (shared s') = delivered (shared s) -> finished (shared s) ⊆ finished (shared s') ->
  fifo_on s hole l -> fifo_on s' hole' l'.
Proof.
  intros Hsub Hfin Hb Hfl Ht Hh Hd Hf [H1 H2 H3 H4 H5].
  split; rewrite ?Hb, ?Hd, ?Hh, ?Hfl, ?Ht; try done.
  - intros sub k Hk. etrans; [by apply Hsub|]. by apply H2.
  - intros sub k tag Hk Htag. destruct (H3 sub k tag Hk Htag) as [?|Hin]; [left; by apply Hf|].
    destruct (Hfin sub k tag Hk Htag Hin); [by right|by left].
Qed.

Lemma waiting_cons sub x l :
  waiting sub (x :: l) = (if decide (x.1 = sub) then [td_delivery_tag x.2] else []) ++ waiting sub l.
Proof. unfold waiting. rewrite filter_cons. by case_decide. Qed.

Lemma waiting_app sub l1 l2 : waiting sub (l1 ++ l2) = waiting sub l1 ++ waiting sub l2.
Proof. unfold waiting. by rewrite filter_app, fmap_app. Qed.

(** The popped delivery is handed out with token [n]. *)
Lemma fifo_hand s s' sub r d l n :
  c_subscriptions cfg !! sub = Some r ->
  (exists t, tokens (shared s') !! n = Some t /\ tk_subscription t = sub /\
     tk_generation t = rt_generation r /\ tk_channel_id t = rt_channel_id r /\ tk_delivery_tag t = td_delivery_tag d) ->
  (exists ts, tokens (shared s') = tokens (shared s) ++ ts) ->
  buffers (intake s') = buffers (intake s) -> flume (intake s') = flume (intake s) ++ [Ok n] ->
  handed (shared s') = handed (shared s) ++ [n] ->
  delivered (shared s') = delivered (shared s) -> finished (shared s) ⊆ finished (shared s') ->
  fifo_on s [(sub, d)] l -> fifo_on s' [] l.
Proof.
  intros Hr (t & Hn & Es & Eg & Ec & Et) (ts & Hts) Hb Hfl Hh Hd Hf [H1 H2 H3 H4 H5].
  assert (forall k, handed_tags k (shared s') = handed_tags k (shared s) ++
    (if decide (runtime_key sub r = k) then [td_delivery_tag d] else [])) as Hlane.
  { intros k. unfold handed_tags. rewrite Hh, omap_app. f_equal.
    - apply list_omap_ext, Forall2_same_length_lookup_2; [done|].
      intros i n1 n2 E1 E2. rewrite E1 in E2. injection E2 as <-. unfold lane_tag. rewrite Hts, fmap_app.
      rewrite lookup_app_l; [done|]. rewrite length_fmap. rewrite Forall_forall in H4. apply H4.
      by apply list_elem_of_lookup_2 in E1.
    - assert (lane_tag (identity <$> tokens (shared s')) k n =
        if decide (runtime_key sub r = k) then Some (td_delivery_tag d) else None) as E.
      { unfold lane_tag. rewrite list_lookup_fmap, Hn. unfold identity. cbn [fmap option_fmap option_map].
        by rewrite Es, Eg, Ec, Et. }
      change (omap ?f [n]) with (match f n with Some y => [y] | None => [] end). rewrite E. by case_decide. }
  assert (forall sub' k, channel_key_for cfg sub' = Some k -> lane s' [] l sub' k = lane s [(sub, d)] l sub' k) as Hl.
  { intros sub' k Hk. unfold lane. rewrite Hlane, Hb, <- app_assoc. f_equal. unfold waiting.
    rewrite filter_cons. cbn [fst filter list_filter fmap list_fmap app].
    unfold channel_key_for in Hk. apply fmap_Some in Hk as (r' & Hr' & ->).
    case_decide as E1; case_decide as E2; try done.
    - exfalso. apply E2. by injection E1.
    - exfalso. apply E1. subst sub'. rewrite Hr in Hr'. by injection Hr' as <-. }
  split; rewrite ?Hb, ?Hd; try done.
  - intros sub' k Hk. rewrite Hl by done. by apply H2.
  - intros sub' k tag Hk Htag. rewrite Hl by done. destruct (H3 sub' k tag Hk Htag); [left; by apply Hf|by right].
  - rewrite Hh, Forall_app. split; [|constructor; [|constructor]].
    + eapply Forall_impl; [exact H4|]. simpl. rewrite Hts, length_app. lia.
    + by apply lookup_lt_Some in Hn.
  - rewrite Hh, Hfl, H5. unfold oks. by rewrite omap_app, app_assoc.
Qed.

(** ** Poison settlements *)

Lemma settle_poison_logs sub dl tag id bytes detail ident s :
  let s' := settle_poison cfg sub dl tag id bytes detail ident s in
  tokens (shared s') = tokens (shared s) /\ handed (shared s') = handed (shared s) /\
  delivered (shared s') = delivered (shared s) /\ finished (shared s) ⊆ finished (shared s').
Proof.
  cbv zeta. unfold settle_poison. cbv zeta.
  destruct (c_subscriptions cfg !! sub) as [r|]; [destruct (negb _ && _)%bool|];
    destruct (channel_key_for cfg sub) as [key|]; unfold ledger_remove;
    try destruct (channel_ledgers _ !! key); destruct dl; simpl; repeat split; set_solver.
Qed.

Lemma settle_poison_finishes D P' sub dl tag id bytes detail ident s k :
  inv cfg D P' s -> channel_key_for cfg sub = Some k -> (k, tag) ∈ delivered (shared s) ->
  (k, tag) ∈ finished (shared (settle_poison cfg sub dl tag id bytes detail ident s)).
Proof.
  intros Hi Hk Hd. destruct (i_delivered _ _ _ _ _ _ _ _ _ _ _ _ _ Hi k tag Hd) as [?|(l & e & Hl & _)].
  { by apply (settle_poison_logs sub dl tag id bytes detail ident s). }
  unfold settle_poison. cbv zeta. rewrite Hk. unfold ledger_remove.
  assert (forall x, channel_ledgers (books x) = channel_ledgers (books s) ->
    (k, tag) ∈ finished (shared (match channel_ledgers (books x) !! k with
       | Some l => log_finished k [tag] (on_books (fun b => set_channel_ledgers
           (<[k := mkLedger (foldr delete (pending l) [tag]) (acked_prefix l)]> (channel_ledgers b)) b) x)
       | None => x end))) as Hfin.
  { intros x Hx. rewrite Hx, Hl. simpl. set_solver. }
  apply Hfin. destruct (c_subscriptions cfg !! sub) as [r|]; [destruct (negb _ && _)%bool|]; by destruct dl.
Qed.

(** A poison delivery leaves its lane finished. *)
Lemma fifo_settle_poison D P' sub dl tag id bytes detail ident s hole hole' l l' :
  inv cfg D P' s ->
  (forall sub' k, lane s hole' l' sub' k `sublist_of` lane s hole l sub' k) ->
  (forall sub' k t, t ∈ lane s hole l sub' k -> t ∈ lane s hole' l' sub' k \/ sub' = sub /\ t = tag) ->
  fifo_on s hole l -> fifo_on (settle_poison cfg sub dl tag id bytes detail ident s) hole' l'.
Proof.
  intros Hi Hs Hl. destruct (settle_poison_logs sub dl tag id bytes detail ident s) as (Ht & Hh & Hd & Hf).
  pose proof (settle_poison_intake cfg sub dl tag id bytes detail ident s) as Hin.
  pose proof (fun k => settle_poison_finishes D P' sub dl tag id bytes detail ident s k Hi) as Hfin.
  set (s' := settle_poison _ _ _ _ _ _ _ _ _) in *. clearbody s'.
  assert (forall h l sub k, lane s' h l sub k = lane s h l sub k) as Hlane.
  { intros. unfold lane, handed_tags. by rewrite Hin, Ht, Hh. }
  apply fifo_shrink; rewrite ?Hin; try done.
  - intros sub' k _. rewrite Hlane. apply Hs.
  - intros sub' k t Hk Htag Hin'. rewrite Hlane. destruct (Hl sub' k t Hin') as [?|[-> ->]]; [by left|].
    right. by apply Hfin.
Qed.

Lemma drop_hole_sublist s sub d l sub' k : lane s [] l sub' k `sublist_of` lane s [(sub, d)] l sub' k.
Proof. unfold lane. rewrite waiting_cons. apply sublist_app; [done|]. rewrite <- app_assoc. by apply sublist_inserts_l. Qed.

Lemma drop_hole_elem s sub d l sub' k t :
  t ∈ lane s [(sub, d)] l sub' k -> t ∈ lane s [] l sub' k \/ sub' = sub /\ t = td_delivery_tag d.
Proof.
  unfold lane. rewrite waiting_cons, !elem_of_app. cbn [fst snd].
  case_decide as E; rewrite ?list_elem_of_singleton, ?elem_of_nil; [subst sub'|]; tauto.
Qed.

Lemma drop_pending_sublist s sub d l1 l2 sub' k :
  lane s [] (l1 ++ l2) sub' k `sublist_of` lane s [] (l1 ++ (sub, d) :: l2) sub' k.
Proof.
  unfold lane. rewrite !waiting_app, waiting_cons. do 3 (apply sublist_app; [done|]).
  apply sublist_app; [done|]. by apply sublist_inserts_l.
Qed.

Lemma drop_pending_elem s sub d l1 l2 sub' k t :
  t ∈ lane s [] (l1 ++ (sub, d) :: l2) sub' k ->
  t ∈ lane s [] (l1 ++ l2) sub' k \/ sub' = sub /\ t = td_delivery_tag d.
Proof.
  unfold lane. rewrite !waiting_app, waiting_cons, !elem_of_app. cbn [fst snd].
  case_decide as E; rewrite ?list_elem_of_singleton, ?elem_of_nil; [subst sub'|]; tauto.
Qed.

(** ** Admission *)

Lemma fifo_settle_oversized D P' sub d l1 l2 s :
  inv cfg D P' s -> fifo_on s [] (l1 ++ (sub, d) :: l2) -> fifo_on (settle_oversized cfg sub d s) [] (l1 ++ l2).
Proof.
  intros Hi H. apply (fifo_settle_poison D P' _ _ _ _ _ _ _ _ [] [] (l1 ++ (sub, d) :: l2)).
  - exact Hi.
  - intros. apply drop_pending_sublist.
  - intros. by apply drop_pending_elem.
  - revert H. by apply fifo_ext.
Qed.

Lemma fifo_push_buffer sub d l s :
  fifo_on s [] ((sub, d) :: l) -> fifo_on (push_buffer sub d s) [] l.
Proof.
  intros H. pose proof (f_buffers _ _ _ H) as Hb.
  unfold push_buffer. destruct (buffers (intake s) !! sub) as [buf|] eqn:E; revert H; apply fifo_ext; try done.
  - intros sub'. cbn. rewrite lookup_insert_is_Some'. tauto.
  - intros sub' k Hk. unfold lane. rewrite waiting_cons.
    cbn [fst snd intake on_intake buffers set_buffers set_scheduler shared].
    do 2 f_equal. case_decide as E'; [subst sub'|by rewrite lookup_insert_ne].
    rewrite lookup_insert_eq, E. cbn [default from_option id]. by rewrite fmap_app, <- app_assoc.
  - intros sub' k Hk. unfold lane. rewrite waiting_cons. cbn [fst]. rewrite decide_False; [done|].
    intros ->. apply Hb in Hk. rewrite E in Hk. by destruct Hk.
Qed.

Lemma fifo_drain_loop D P' l : forall s,
  inv cfg D P' s -> fifo_on s [] l -> fifo (drain_loop cfg l s).
Proof.
  induction l as [|[sub d] l IH]; intros s Hi H; cbn [drain_loop]; [by revert H; apply fifo_ext|].
  destruct (over_budget _ _ _ _); [destruct (oversized _ _ _); [|by revert H; apply fifo_ext]|].
  - apply IH; [by apply inv_settle_oversized|]. by apply (fifo_settle_oversized D P' _ _ []).
  - apply IH; [by apply inv_push_buffer|]. eapply fifo_ext; [..|by apply fifo_push_buffer]; done.
Qed.

Lemma fifo_drain_pending D P' s : inv cfg D P' s -> fifo s -> fifo (drain_pending cfg s).
Proof. apply fifo_drain_loop. Qed.

(** ** Dispatch *)

(** The delivery goes back to the front of its buffer. *)
Lemma fifo_push_front sub d l s : fifo_on s [(sub, d)] l -> fifo_on (push_front sub d s) [] l.
Proof.
  apply fifo_ext; try done.
  - intros sub'. cbn. rewrite lookup_insert_is_Some'. tauto.
  - intros sub' k Hk. unfold lane. rewrite waiting_cons.
    cbn [fst snd intake on_intake buffers set_buffers set_scheduler shared push_front on_scheduler set_buffer].
    f_equal. case_decide as E'; [subst sub'|by rewrite lookup_insert_ne]. by rewrite lookup_insert_eq.
Qed.

(** A new token changes no lane. *)
Lemma fifo_new_token t hole l s :
  fifo_on s hole l -> fifo_on (on_shared (fun h => set_tokens (tokens h ++ [t]) h) s) hole l.
Proof.
  intros H. pose proof (f_handed _ _ _ H) as Hh. revert H. apply fifo_ext; try done.
  - intros sub k _. unfold lane, handed_tags. f_equal. cbn [shared on_shared tokens set_tokens handed].
    apply list_omap_ext, Forall2_same_length_lookup_2; [done|].
    intros i n1 n2 E1 E2. rewrite E1 in E2. injection E2 as <-. unfold lane_tag. rewrite fmap_app, lookup_app_l; [done|].
    rewrite length_fmap. rewrite Forall_forall in Hh. apply Hh. by apply list_elem_of_lookup_2 in E1.
  - simpl. rewrite length_app. lia.
Qed.

(** The end of a successful hand-off, whatever it adds to the metrics, the
    byte count and the scheduler. *)
Lemma fifo_handed sub r d l s s' t :
  c_subscriptions cfg !! sub = Some r -> tokens (shared s') = tokens (shared s) ++ [t] ->
  identity t = (sub, rt_connection_key r, rt_generation r, rt_channel_id r, td_delivery_tag d) ->
  buffers (intake s') = buffers (intake s) ->
  flume (intake s') = flume (intake s) ++ [Ok (length (tokens (shared s)))] ->
  handed (shared s') = handed (shared s) ++ [length (tokens (shared s))] ->
  delivered (shared s') = delivered (shared s) -> finished (shared s') = finished (shared s) ->
  fifo_on s [(sub, d)] l -> fifo_on s' [] l.
Proof.
  intros Hr Ht [= E1 E2 E3 E4 E5] Hb Hfl Hh Hd Hf.
  apply (fifo_hand s s' sub r d l (length (tokens (shared s)))); try done.
  - exists t. rewrite Ht, lookup_app_r, Nat.sub_diag by lia. done.
  - eauto.
  - by rewrite Hf.
Qed.

Lemma mark_if_empty_same sub s :
  shared (mark_if_empty sub s) = shared s /\ flume (intake (mark_if_empty sub s)) = flume (intake s) /\
  buffers (intake (mark_if_empty sub s)) = buffers (intake s) /\
  pending_incoming (intake (mark_if_empty sub s)) = pending_incoming (intake s).
Proof. unfold mark_if_empty. by destruct (_ !! sub) as [[|]|]. Qed.

Lemma fifo_dispatch_early sub r d a s :
  c_subscriptions cfg !! sub = Some r -> fifo_on s [(sub, d)] (pending_incoming (intake s)) ->
  fifo (dispatch_early cfg sub r d a s).2.
Proof.
  intros Hr H. unfold dispatch_early. cbv zeta. set (s0 := if (_ && _)%bool then _ else s).
  assert (fifo_on s0 [(sub, d)] (pending_incoming (intake s0))) as H0.
  { unfold s0. destruct (_ && _)%bool; [|done]. by revert H; apply fifo_ext. }
  clearbody s0. clear H. unfold new_token, try_send.
  destruct (_ <? _); [|by apply fifo_push_front, fifo_new_token].
  match goal with |- context [mark_if_empty sub ?x] =>
    destruct (mark_if_empty_same sub x) as (E1 & E2 & E3 & E4); set (s2 := mark_if_empty sub x) in * end.
  clearbody s2. destruct (1 <? a); unfold fifo; cbn; rewrite E4;
    (eapply (fifo_handed sub r d); [done|..|exact H0]; cbn; rewrite ?E1, ?E2, ?E3; done).
Qed.

Lemma fifo_dispatch_token sub r d a s :
  c_subscriptions cfg !! sub = Some r -> fifo_on s [(sub, d)] (pending_incoming (intake s)) ->
  fifo (dispatch_token cfg sub r d a s).2.
Proof.
  intros Hr H. unfold dispatch_token, new_token.
  match goal with |- context [set_entry_token cfg sub ?tag ?n ?x] =>
    assert (intake (set_entry_token cfg sub tag n x) = intake x /\
            shared (set_entry_token cfg sub tag n x) = shared x) as [Ei Es];
    [unfold set_entry_token; destruct (channel_key_for _ _) as [key|]; [by destruct (channel_ledgers _ !! key)|done]|
     assert (fifo_on x [(sub, d)] (pending_incoming (intake x))) as H1 by (apply (fifo_new_token _ _ _ s); exact H);
     set (s1 := set_entry_token cfg sub tag n x) in *] end.
  clearbody s1. unfold try_send. destruct (_ <? _).
  - match goal with |- context [mark_if_empty sub ?x] =>
      destruct (mark_if_empty_same sub x) as (E1 & E2 & E3 & E4); set (s2 := mark_if_empty sub x) in * end.
    clearbody s2. destruct (1 <? a); unfold fifo; cbn; rewrite E4; cbn; rewrite Ei;
      (eapply (fifo_handed sub r d); [done|..|exact H]; cbn; rewrite ?E1, ?E2, ?E3; cbn; rewrite ?Es, ?Ei; done).
  - apply fifo_push_front. change (fifo_on s1 [(sub, d)] (pending_incoming (intake s1))). rewrite Ei. revert H1. apply fifo_ext; rewrite ?Ei, ?Es; try done.
    intros sub' k _. unfold lane. by rewrite Ei, Es.
Qed.

Lemma fifo_dispatch_delivery D P' sub d s :
  inv cfg D P' s -> fifo_on s [(sub, d)] (pending_incoming (intake s)) -> fifo (dispatch_delivery cfg sub d s).2.
Proof.
  intros Hi H. unfold dispatch_delivery.
  destruct (c_subscriptions cfg !! sub) as [r|] eqn:Er; [|by apply fifo_push_front].
  destruct (Attempts.resolve _ _ _); destruct (rt_early_ack r).
  - by apply fifo_dispatch_early.
  - by apply fifo_dispatch_token.
  - apply fifo_dispatch_early; [done|]. by revert H; apply fifo_ext.
  - unfold fifo. cbn [snd]. rewrite settle_poison_intake. eapply fifo_settle_poison; [exact Hi|..|exact H].
    + intros. apply drop_hole_sublist.
    + intros. by apply drop_hole_elem.
Qed.

Lemma fifo_dispatch_step D P' s : inv cfg D P' s -> fifo s -> fifo (dispatch_step cfg s).2.
Proof.
  intros Hi H. unfold dispatch_step. destruct (source_errors (intake s)) as [|e rest].
  - destruct (Scheduler.pick _) as [[sub|] sch]; [|by revert H; apply fifo_ext].
    destruct (_ !! sub) as [[|d rest]|] eqn:Eb; try by revert H; apply fifo_ext.
    eapply fifo_dispatch_delivery; [exact Hi|]. revert H. apply fifo_ext; try done.
    + intros sub'. cbn. rewrite lookup_insert_is_Some'. tauto.
    + intros sub' k Hk. unfold lane. rewrite waiting_cons. cbn [fst snd].
      cbn [intake on_intake buffers set_buffers set_scheduler shared on_scheduler set_buffer] in *. f_equal.
      case_decide as E'; [subst sub'|by rewrite lookup_insert_ne]. by rewrite lookup_insert_eq, Eb.
  - unfold try_send. destruct (_ <? _); [|done]. destruct H as [H1 H2 H3 H4 H5]. split; try done.
    cbn. rewrite H5. unfold oks. rewrite omap_app. cbn. by rewrite app_nil_r.
Qed.

Lemma fifo_dispatch_loop D P' fuel : forall s, inv cfg D P' s -> fifo s -> fifo (dispatch_loop cfg fuel s).
Proof.
  induction fuel as [|fuel IH]; intros s Hi H; [done|]. cbn [dispatch_loop].
  pose proof (fifo_dispatch_step D P' s Hi H) as Hd. pose proof (inv_dispatch_step cfg D P' s Hi) as Hi'.
  destruct (dispatch_step cfg s) as [[] s']; [by apply IH|done].
Qed.

Lemma fifo_dispatch D P' s : inv cfg D P' s -> fifo s -> fifo (dispatch cfg s).
Proof.
  intros Hi H. eapply fifo_dispatch_loop; [by apply inv_drain_pending|]. by eapply fifo_drain_pending.
Qed.

Lemma fifo_try_drain D P' s : inv cfg D P' s -> fifo s -> fifo (try_drain_pending cfg s).
Proof.
  intros Hi H. eapply fifo_dispatch; [by apply inv_drain_pending|]. by eapply fifo_drain_pending.
Qed.

(** ** A delivery arrives *)

Lemma tags_on_app k l1 l2 : tags_on k (l1 ++ l2) = tags_on k l1 ++ tags_on k l2.
Proof. unfold tags_on. by rewrite filter_app, fmap_app. Qed.

Lemma fifo_open_entry sub k d l s :
  channel_key_for cfg sub = Some k -> fifo_on s [] l ->
  fifo_on (open_entry k (td_delivery_tag d) s) [] (l ++ [(sub, d)]).
Proof.
  intros Hk [H1 H2 H3 H4 H5].
  assert (forall sub' k', channel_key_for cfg sub' = Some k' -> (sub' = sub <-> k' = k)) as Hkeys.
  { unfold channel_key_for in *. apply fmap_Some in Hk as (r & Hr & ->).
    intros sub' k' (r' & Hr' & ->)%fmap_Some. split; [|by intros [= ->]].
    intros ->. rewrite Hr in Hr'. by injection Hr' as <-. }
  assert (forall sub' k', lane (open_entry k (td_delivery_tag d) s) [] (l ++ [(sub, d)]) sub' k' =
    lane s [] l sub' k' ++ (if decide (sub = sub') then [td_delivery_tag d] else [])) as Hlane.
  { intros sub' k'. unfold lane. rewrite waiting_app, waiting_cons, app_nil_r, !app_assoc. done. }
  split; try done; cbn [open_entry on_shared shared delivered set_delivered finished].
  - intros sub' k' Hk'. rewrite Hlane, tags_on_app. apply sublist_app; [by apply H2|].
    case_decide as E; [|apply sublist_nil_l]. symmetry in E. apply (Hkeys _ _ Hk') in E as ->.
    unfold tags_on. rewrite filter_cons_True by done. done.
  - intros sub' k' tag Hk' [Hd|Hd]%elem_of_app; rewrite Hlane, elem_of_app.
    + destruct (H3 sub' k' tag Hk' Hd); tauto.
    + apply list_elem_of_singleton in Hd as [= -> ->]. right. right.
      rewrite decide_True; [by left|]. symmetry. by apply (Hkeys sub' k).
Qed.

Lemma fifo_unknown sub d l s :
  channel_key_for cfg sub = None -> fifo_on s [] l -> fifo_on s [] (l ++ [(sub, d)]).
Proof.
  intros Hk. apply fifo_ext; try done. intros sub' k' Hk'. unfold lane. rewrite waiting_app, waiting_cons.
  cbn [fst]. rewrite decide_False by congruence. cbn. by rewrite app_nil_r.
Qed.

Lemma fifo_handle_incoming D P' sub res s :
  (forall d key, res = Ok d -> channel_key_for cfg sub = Some key -> fresh_tag key (td_delivery_tag d) s) ->
  inv cfg D P' s -> fifo s -> fifo (handle_incoming cfg sub res s).
Proof.
  intros Hf Hi H. destruct res as [d|e]; cbn [handle_incoming];
    [|by eapply fifo_dispatch; [|revert H; by apply fifo_ext]; exact Hi].
  set (s0 := match channel_key_for cfg sub with Some key => _ | None => _ end).
  assert (exists D', inv cfg D' P' s0) as [D' H0].
  { unfold s0. destruct (channel_key_for cfg sub) as [key|]; [|by exists D].
    eexists. apply inv_open_entry; [by apply Hf|done]. }
  assert (pending_incoming (intake s0) = pending_incoming (intake s)) as Ep by (unfold s0; by destruct (channel_key_for _ _)).
  assert (fifo_on s0 [] (pending_incoming (intake s0) ++ [(sub, d)])) as H1.
  { rewrite Ep. unfold s0. destruct (channel_key_for cfg sub) as [key|] eqn:Ek;
      [by apply fifo_open_entry|by apply fifo_unknown]. }
  clearbody s0. clear Ep H Hf Hi. destruct (over_budget cfg sub _ s0).
  - destruct (oversized cfg sub _); [|by revert H1; apply fifo_ext].
    unfold fifo. pose proof (fifo_settle_oversized D' P' sub d _ [] s0 H0 H1) as H2. rewrite app_nil_r in H2.
    unfold settle_oversized. rewrite settle_poison_intake. exact H2.
  - case_bool_decide as Ee.
    + rewrite Ee in H1. apply fifo_push_buffer in H1. eapply fifo_dispatch; [by apply inv_push_buffer|].
      unfold fifo. cbn. assert (pending_incoming (intake (push_buffer sub d s0)) = []) as ->.
      { unfold push_buffer. by destruct (_ !! sub). } revert H1. by apply fifo_ext.
    + eapply fifo_dispatch; [by apply inv_drain_pending|]. eapply fifo_drain_pending; [exact H0|].
      revert H1. by apply fifo_ext.
Qed.

(** ** Completions *)

Lemma fifo_complete_settlement D P' key n res s :
  inv cfg D P' s -> fifo s -> fifo (complete_settlement cfg key n res s).
Proof.
  intros Hi H. unfold complete_settlement. destruct (_ !! n) as [t|]; [|done]. cbv zeta.
  eapply frame_fifo; [apply frame_drain_queue; reflexivity|].
  match goal with |- context [store_settling n false ?x] => assert (fifo x) as Hx; [|set (s1 := x) in *] end.
  { destruct (match res with Ok _ => true | Err _ => _ end); [|by revert H; apply fifo_ext].
    eapply frame_fifo; [apply frame_ledger_remove; reflexivity|].
    eapply fifo_try_drain; [by destruct res as [[]|]; exact Hi|]. revert H. apply fifo_ext; by destruct res as [[]|]. }
  clearbody s1. apply (frame_fifo s1 (store_settling n false s1)) in Hx;
    [|apply frame_store_settling; reflexivity].
  set (s2 := store_settling n false s1) in *. clearbody s2.
  eapply (frame_fifo s2); [|done]. destruct res as [st|e]; [apply frame_store_state; reflexivity|].
  destruct (ce_kind e); try (apply frame_fail, frame_store_state; reflexivity).
  all: destruct (c_subscriptions cfg !! _) as [r|]; [|apply frame_fail, frame_store_state; reflexivity].
  all: destruct (ensure_live_generation r t), (rt_has_dead_letter r); apply frame_error, frame_store_state; by split.
Qed.

Lemma fifo_release_all af : forall s, fifo s ->
  fifo (foldl (fun s n => match tokens (shared s) !! n with
    | Some t => release_bytes (payload_len (tk_payload t)) (tk_subscription t) s
    | None => s end) s af).
Proof.
  induction af as [|n af IH]; intros s H; [done|]. cbn [foldl]. apply IH.
  destruct (_ !! n); [|done]. by revert H; apply fifo_ext.
Qed.

Lemma fifo_complete_settle_through D P' key target af res s :
  inv cfg D P' s -> fifo s -> fifo (complete_settle_through cfg key target af res s).
Proof.
  intros Hi H. unfold complete_settle_through. cbv zeta.
  eapply frame_fifo; [apply frame_drain_queue; reflexivity|].
  match goal with |- context [foldl (fun s n => store_settling n false _) ?x af] =>
    assert (fifo x) as Hx; [|set (s1 := x) in *; clearbody s1] end.
  { destruct (match res with Ok _ => true | Err _ => _ end); [|done].
    match goal with |- context [try_drain_pending cfg ?x] => assert (fifo (try_drain_pending cfg x)) as Hd;
      [|set (s1 := try_drain_pending cfg x) in *; clearbody s1] end.
    { pose proof (inv_release_all cfg D P' af s Hi) as Hr. pose proof (fifo_release_all af s H) as Hf.
      eapply fifo_try_drain; [destruct res as [[]|]; try exact Hr; destruct af; exact Hr|].
      destruct res as [[]|]; try exact Hf. destruct af; [exact Hf|]. by revert Hf; apply fifo_ext. }
    destruct (channel_ledgers (books s1) !! key); [|done].
    assert (fifo (ledger_remove key (covered_tags c target) s1)) as Hl
      by (eapply frame_fifo; [apply frame_ledger_remove; reflexivity|done]).
    destruct res as [[]|]; try done. by revert Hl; apply fifo_ext. }
  apply (frame_fifo s1); [|done]. destruct res; [|apply frame_error]; by apply frame_finish_affected.
Qed.

Lemma fifo_settlement_done D P' sha256 i a s s' :
  settlement_done sha256 cfg i a s = Some s' -> inv cfg D P' s -> fifo s -> fifo s'.
Proof.
  intros E Hi H. unfold settlement_done in E. destruct (take_nth _ _) as [[p rest]|]; [|done].
  destruct (_ !! _) as [t|]; [|done].
  pose proof (execute_settlement_single sha256 a (ps_key p) (ps_launch p) (sp_settlement (ps_params p)) t) as Hops.
  destruct (execute_settlement _ _ _ _ _ _) as [[res ops] pubs].
  injection E as <-. eapply fifo_complete_settlement; [|by revert H; apply fifo_ext].
  apply (inv_log_wire_single cfg D P' ops (on_books (set_pending_settlements rest) s)); [exact Hops|exact Hi].
Qed.

Lemma fifo_settle_through_done D P' i a s s' :
  settle_through_done cfg i a s = Some s' -> inv cfg D P' s -> fifo s -> fifo s'.
Proof.
  unfold settle_through_done. destruct (take_nth i _) as [[p rest]|] eqn:Etake; [|done].
  destruct (tokens (shared s) !! _) as [t|]; [|done]. apply take_nth_elem in Etake as [Hp Hrest].
  destruct (execute_settle_through _ _ _ _ _) as [res ops] eqn:E. intros [= <-] Hi H.
  destruct (inv_send_through cfg D P' _ _ _ _ _ _ _ Hp Hrest E Hi) as [Hd Hw].
  eapply fifo_complete_settle_through; [exact Hw|]. by revert H; apply fifo_ext.
Qed.

End Fifo.

(** The embedder takes a delivery from the flume. *)
Lemma fifo_pop cfg P n rest s :
  flume (intake s) = Ok n :: rest -> fifo cfg P s -> fifo cfg (P ++ [n]) (on_intake (set_flume rest) s).
Proof.
  intros Ef [H1 H2 H3 H4 H5]. split; try done. cbn. rewrite H5, Ef, <- app_assoc. done.
Qed.

Lemma fifo_pop_error cfg P e rest s :
  flume (intake s) = Err e :: rest -> fifo cfg P s -> fifo cfg P (on_intake (set_flume rest) s).
Proof. intros Ef [H1 H2 H3 H4 H5]. split; try done. cbn. by rewrite H5, Ef. Qed.

(** The initial state. *)
Lemma fifo_actor_new subs foreign : fifo (config_of subs) [] (actor_new subs foreign).
Proof.
  split; try done.
  - intros sub k Hk. unfold channel_key_for in Hk. apply fmap_Some in Hk as (r & Hr & _).
    cbn [actor_new intake buffers]. cbn [config_of c_subscriptions] in Hr.
    assert (forall (m : gmap string RuntimeSubscription) (m' : gmap string (list TransportDelivery)),
      (is_Some (m !! sub) -> is_Some (m' !! sub)) ->
      is_Some (foldl (fun m s => <[s_id s := s_runtime s]> m) m subs !! sub) ->
      is_Some (foldl (fun m s => <[s_id s := []]> m) m' subs !! sub)) as H.
    { clear. induction subs as [|x subs IH]; intros m m' H; [done|]. cbn [foldl]. apply IH.
      rewrite !lookup_insert_is_Some'. tauto. }
    apply (H ∅ ∅); [by rewrite !lookup_empty|by rewrite Hr].
  - intros sub k Hk. unfold lane, handed_tags. cbn [actor_new shared handed omap list_omap].
    assert (forall (m : gmap string (list TransportDelivery)), (forall l, m !! sub = Some l -> l = []) ->
      forall l, foldl (fun m s => <[s_id s := []]> m) m subs !! sub = Some l -> l = []) as H.
    { clear. induction subs as [|x subs IH]; intros m H; [done|]. cbn [foldl]. apply IH.
      intros l [[_ <-]|[_ Hl]]%lookup_insert_Some; [done|by apply H]. }
    cbn [intake buffers]. destruct (_ !! sub) as [l|] eqn:E; [|done].
    apply (H ∅) in E as ->; [done|]. intros l'. by rewrite lookup_empty.
  - by intros sub k tag _ ?%elem_of_nil.
Qed.

End ConsumerFifo.
