(* ===== verification/ConsumerSerial.v ===== *)
(** * One settlement at a time per channel

    The settlements of a channel run one after the other: [serial] says that a
    channel marked in flight has exactly one pending future, that no other
    channel has any, and that nothing waits in the queues of an idle channel.
    Every operation of [ConsumerActor] keeps it, and every completion brings
    the settlements outstanding on its channel down by one. *)

From S2P Require Import Prelude Transport Publication Scheduler Attempts DelayTopology DelayRouting.
From S2P Require Import Prefetch Delivery ConsumerActor ConsumerInv.
Import Transport Delivery ConsumerActor ConsumerInv.
Local Open Scope Z_scope.

Module ConsumerSerial.

(** Futures pending on [k]. *)
Definition futures (k : ChannelKey) (b : Books) : nat :=
  length (filter (fun p => ps_key p = k) (pending_settlements b)) +
  length (filter (fun p => pt_key p = k) (pending_settle_throughs b)).

(** Settlements waiting behind them. *)
Definition waiting_on (k : ChannelKey) (b : Books) : nat :=
  length (default [] (settlement_queues b !! k)) + length (default [] (settle_through_queues b !! k)).

Definition outstanding (k : ChannelKey) (b : Books) : nat := futures k b + waiting_on k b.

(** The settlement part of the books. *)
Definition settlement_books (b : Books) :=
  (acked_batch b, pending_settlements b, pending_settle_throughs b, settlement_in_flight b,
   settlement_queues b, settle_through_queues b).

Section Serial.
Context (cfg : Config).

(** Token [n] stands for a delivery of the live channel [k]. *)
Definition keyed (ts : list Token) (n : nat) (k : ChannelKey) : Prop := exists tag, named cfg ts n k tag.

(** A pending settlement runs on the channel of its token. *)
Definition launched (ts : list Token) (p : PendingSettlement) : Prop :=
  keyed ts (sp_token (ps_params p)) (ps_key p) /\ c_subscriptions cfg !! (ps_key p).1.1 = Some (ps_launch p).

(** [idle] is a channel whose queues are about to be drained. *)
Record serial_but (idle : option ChannelKey) (b : Books) (ts : list Token) : Prop := {
  s_one : forall k, futures k b = if decide (k ∈ settlement_in_flight b) then 1%nat else O;
  s_busy : forall k, idle <> Some k -> (0 < waiting_on k b)%nat -> k ∈ settlement_in_flight b;
  s_idle : forall k, idle = Some k -> k ∉ settlement_in_flight b;
  s_queue : forall k q p, settlement_queues b !! k = Some q -> p ∈ q -> keyed ts (sp_token p) k;
  s_through : forall k q p, settle_through_queues b !! k = Some q -> p ∈ q -> keyed ts (stp_token p) k;
  s_batch : forall k batch tag n, acked_batch b !! k = Some batch -> batch !! tag = Some n -> keyed ts n k;
  s_settling : forall p, p ∈ pending_settlements b -> launched ts p;
  s_acking : forall p, p ∈ pending_settle_throughs b -> keyed ts (stp_token (pt_params p)) (pt_key p)
}.

Definition serial (s : State) : Prop := serial_but None (books s) (tokens (shared s)).

Lemma keyed_ext ts ts' n k : tok_ext ts ts' -> keyed ts n k -> keyed ts' n k.
Proof. intros Hx (tag & Hn). exists tag. by eapply named_ext. Qed.

Lemma launched_ext ts ts' p : tok_ext ts ts' -> launched ts p -> launched ts' p.
Proof. intros Hx [Hk Hl]. split; [by eapply keyed_ext|done]. Qed.

Lemma serial_ext idle b b' ts ts' :
  settlement_books b' = settlement_books b -> tok_ext ts ts' -> serial_but idle b ts -> serial_but idle b' ts'.
Proof.
  intros [= E1 E2 E3 E4 E5 E6] Ht [H1 H2 H3 H4 H5 H6 H7 H8].
  split; unfold futures, waiting_on in *; rewrite ?E1, ?E2, ?E3, ?E4, ?E5, ?E6; try done;
    intros; first [eapply launched_ext; by eauto|eapply keyed_ext; by eauto].
Qed.

(** ** What leaves the settlements alone *)

Record quiet (s s' : State) : Prop := {
  q_books : settlement_books (books s') = settlement_books (books s);
  q_tokens : tok_ext (tokens (shared s)) (tokens (shared s'))
}.

#[global] Instance quiet_po : PreOrder quiet.
Proof.
  split; [intros s; split; [done|apply tok_ext_refl]|]. intros s1 s2 s3 [E1 T1] [E2 T2].
  split; [congruence|]. intros n t Ht. destruct (T1 n t Ht) as (t' & Ht' & Hi).
  destruct (T2 n t' Ht') as (t'' & Ht'' & Hi'). exists t''. split; [done|congruence].
Qed.

Lemma quiet_serial s s' : quiet s s' -> serial s -> serial s'.
Proof. intros [] H. by eapply serial_ext. Qed.

Lemma quiet_same s s' : settlement_books (books s') = settlement_books (books s) ->
  tokens (shared s') = tokens (shared s) -> quiet s s'.
Proof. intros E1 E2. split; [done|]. rewrite E2. apply tok_ext_refl. Qed.

Lemma quiet_upd_token n f s : (forall t, identity (f t) = identity t) -> quiet s (upd_token n f s).
Proof. intros Hf. split; [done|]. by apply tok_ext_alter. Qed.

Lemma quiet_ledger_remove k tags s : quiet s (ledger_remove k tags s).
Proof. unfold ledger_remove. destruct (_ !! k); by apply quiet_same. Qed.

Lemma quiet_fail n kind m s : quiet s (fail_token n kind m s).
Proof. unfold fail_token. destruct (_ !! n); by apply quiet_same. Qed.

Lemma quiet_settle_poison sub dl tag id bytes detail ident s :
  quiet s (settle_poison cfg sub dl tag id bytes detail ident s).
Proof.
  unfold settle_poison. cbv zeta.
  destruct (c_subscriptions cfg !! sub) as [r|]; [destruct (negb _ && _)%bool|];
    destruct (channel_key_for cfg sub) as [key|]; unfold ledger_remove;
    try destruct (channel_ledgers _ !! key); destruct dl; by apply quiet_same.
Qed.

Lemma quiet_push_buffer sub d s : quiet s (push_buffer sub d s).
Proof. unfold push_buffer. destruct (_ !! sub); by apply quiet_same. Qed.

Lemma quiet_drain_loop l : forall s, quiet s (drain_loop cfg l s).
Proof.
  induction l as [|[sub d] l IH]; intros s; cbn [drain_loop]; [by apply quiet_same|].
  destruct (over_budget _ _ _ _); [destruct (oversized _ _ _); [|by apply quiet_same]|].
  - etrans; [|apply IH]. etrans; [|apply quiet_settle_poison]. by apply quiet_same.
  - etrans; [|apply IH]. etrans; [apply quiet_push_buffer|by apply quiet_same].
Qed.

Lemma quiet_drain_pending s : quiet s (drain_pending cfg s).
Proof. apply quiet_drain_loop. Qed.

Lemma quiet_set_entry_token sub tag n s : quiet s (set_entry_token cfg sub tag n s).
Proof.
  unfold set_entry_token. destruct (channel_key_for _ _) as [k|]; [|by apply quiet_same].
  destruct (channel_ledgers _ !! k); by apply quiet_same.
Qed.

Lemma quiet_new_token t s : quiet s (on_shared (fun h => set_tokens (tokens h ++ [t]) h) s).
Proof. split; [done|]. apply tok_ext_app. Qed.

Lemma quiet_mark sub s : quiet s (mark_if_empty sub s).
Proof. unfold mark_if_empty. destruct (_ !! sub) as [[|]|]; by apply quiet_same. Qed.

Lemma quiet_dispatch_early sub r d a s : quiet s (dispatch_early cfg sub r d a s).2.
Proof.
  unfold dispatch_early, new_token, try_send. cbv zeta. set (s0 := if (_ && _)%bool then _ else s).
  assert (quiet s s0) as H0 by (unfold s0; destruct (_ && _)%bool; by apply quiet_same). clearbody s0.
  etrans; [exact H0|]. destruct (_ <? _); (etrans; [apply quiet_new_token|]); [|by apply quiet_same].
  match goal with |- context [mark_if_empty sub ?x] => etrans; [|etrans; [apply (quiet_mark sub x)|]] end;
    [by apply quiet_same|]. destruct (1 <? a); by apply quiet_same.
Qed.

Lemma quiet_dispatch_token sub r d a s : quiet s (dispatch_token cfg sub r d a s).2.
Proof.
  unfold dispatch_token, new_token, try_send. etrans; [apply quiet_new_token|].
  match goal with |- context [set_entry_token cfg sub ?tag ?n ?x] =>
    etrans; [apply (quiet_set_entry_token sub tag n x)|]; set (s1 := set_entry_token cfg sub tag n x); clearbody s1 end.
  destruct (_ <? _); [|by apply quiet_same].
  match goal with |- context [mark_if_empty sub ?x] => etrans; [|etrans; [apply (quiet_mark sub x)|]] end;
    [by apply quiet_same|]. destruct (1 <? a); by apply quiet_same.
Qed.

Lemma quiet_dispatch_delivery sub d s : quiet s (dispatch_delivery cfg sub d s).2.
Proof.
  unfold dispatch_delivery. destruct (c_subscriptions cfg !! sub) as [r|]; [|by apply quiet_same].
  destruct (Attempts.resolve _ _ _); destruct (rt_early_ack r);
    [apply quiet_dispatch_early|apply quiet_dispatch_token| |apply quiet_settle_poison].
  etrans; [|apply quiet_dispatch_early]. by apply quiet_same.
Qed.

Lemma quiet_dispatch_step s : quiet s (dispatch_step cfg s).2.
Proof.
  unfold dispatch_step. destruct (source_errors (intake s)).
  - destruct (Scheduler.pick _) as [[sub|] sch]; [|by apply quiet_same].
    destruct (_ !! sub) as [[|d rest]|]; try by apply quiet_same.
    etrans; [|apply quiet_dispatch_delivery]. by apply quiet_same.
  - unfold try_send. destruct (_ <? _); by apply quiet_same.
Qed.

Lemma quiet_dispatch_loop fuel : forall s, quiet s (dispatch_loop cfg fuel s).
Proof.
  induction fuel as [|fuel IH]; intros s; [reflexivity|]. cbn [dispatch_loop].
  pose proof (quiet_dispatch_step s) as Hd. destruct (dispatch_step cfg s) as [[] s']; [|done].
  etrans; [exact Hd|apply IH].
Qed.

Lemma quiet_dispatch s : quiet s (dispatch cfg s).
Proof. etrans; [apply quiet_drain_pending|apply quiet_dispatch_loop]. Qed.

Lemma quiet_try_drain s : quiet s (try_drain_pending cfg s).
Proof. etrans; [apply quiet_drain_pending|apply quiet_dispatch]. Qed.

Lemma quiet_handle_incoming sub res s : quiet s (handle_incoming cfg sub res s).
Proof.
  unfold handle_incoming. destruct res as [d|e]; [|etrans; [|apply quiet_dispatch]; by apply quiet_same].
  cbv zeta. set (s0 := match channel_key_for cfg sub with Some key => _ | None => _ end).
  assert (quiet s s0) as H0 by (unfold s0; destruct (channel_key_for _ _); by apply quiet_same).
  etrans; [exact H0|]. clearbody s0. destruct (over_budget _ _ _ _).
  - destruct (oversized _ _ _); [|by apply quiet_same]. etrans; [|apply quiet_settle_poison]. by apply quiet_same.
  - destruct (bool_decide _); (etrans; [|apply quiet_dispatch]).
    + etrans; [apply quiet_push_buffer|by apply quiet_same].
    + etrans; [|apply quiet_drain_pending]. by apply quiet_same.
Qed.

(** ** Launches *)

Lemma launch_effect key p s :
  keyed (tokens (shared s)) (sp_token p) key ->
  exists r, c_subscriptions cfg !! key.1.1 = Some r /\ launch_settlement cfg key p s =
    on_books (fun b => set_pending_settlements (pending_settlements b ++ [mkPendingSettlement key r p])
      (set_settlement_in_flight ({[key]} ∪ settlement_in_flight b) b)) s.
Proof.
  intros (tag & t & r & Ht & Hr & -> & _). exists r. split; [done|].
  unfold launch_settlement, stage_settlement_launch. by rewrite Ht, Hr.
Qed.

Lemma launch_through_effect key p s :
  keyed (tokens (shared s)) (stp_token p) key ->
  exists r target, launch_settle_through cfg key p s =
    on_books (fun b => set_pending_settle_throughs (pending_settle_throughs b ++ [mkPendingThrough key r target p])
      (set_settlement_in_flight ({[key]} ∪ settlement_in_flight b) b)) s.
Proof.
  intros (tag & t & r & Ht & Hr & _). exists r, (tk_delivery_tag t).
  unfold launch_settle_through, stage_settlement_launch. by rewrite Ht, Hr.
Qed.

(** A future starts on an idle channel. *)
Lemma serial_start key b b' ts :
  (forall k, futures k b' = futures k b + (if decide (k = key) then 1 else 0))%nat ->
  settlement_in_flight b' = {[key]} ∪ settlement_in_flight b ->
  settlement_queues b' = settlement_queues b -> settle_through_queues b' = settle_through_queues b ->
  acked_batch b' = acked_batch b ->
  (forall p, p ∈ pending_settlements b' -> p ∈ pending_settlements b \/ launched ts p) ->
  (forall p, p ∈ pending_settle_throughs b' ->
     p ∈ pending_settle_throughs b \/ keyed ts (stp_token (pt_params p)) (pt_key p)) ->
  serial_but (Some key) b ts -> serial_but None b' ts.
Proof.
  intros Hf E1 E2 E3 E4 Hps Hpt [H1 H2 H3 H4 H5 H6 H7 H8]. pose proof (H3 key eq_refl) as Hidle.
  split; unfold waiting_on in *; rewrite ?E1, ?E2, ?E3, ?E4; try done.
  - intros k. rewrite Hf, H1. destruct (decide (k = key)) as [->|Hne].
    + rewrite decide_False by done. by rewrite decide_True by set_solver.
    + destruct (decide (k ∈ settlement_in_flight b)); [rewrite decide_True by set_solver|rewrite decide_False by set_solver]; lia.
  - intros k _ Hw. destruct (decide (k = key)) as [->|Hne]; [set_solver|].
    apply elem_of_union_r, H2; [congruence|done].
  - intros p Hp. destruct (Hps p Hp); [by apply H7|done].
  - intros p Hp. destruct (Hpt p Hp); [by apply H8|done].
Qed.

Lemma futures_snoc_settlement k key r p b :
  (futures k (set_pending_settlements (pending_settlements b ++ [mkPendingSettlement key r p])
      (set_settlement_in_flight ({[key]} ∪ settlement_in_flight b) b)) =
   futures k b + (if decide (k = key) then 1 else 0))%nat.
Proof.
  unfold futures. cbn. rewrite filter_app, length_app, filter_cons. cbn [ps_key].
  destruct (decide (k = key)) as [->|]; [rewrite decide_True by done|rewrite decide_False by congruence]; cbn; lia.
Qed.

Lemma futures_snoc_through k key r target p b :
  (futures k (set_pending_settle_throughs (pending_settle_throughs b ++ [mkPendingThrough key r target p])
      (set_settlement_in_flight ({[key]} ∪ settlement_in_flight b) b)) =
   futures k b + (if decide (k = key) then 1 else 0))%nat.
Proof.
  unfold futures. cbn. rewrite filter_app, length_app, filter_cons. cbn [pt_key].
  destruct (decide (k = key)) as [->|]; [rewrite decide_True by done|rewrite decide_False by congruence]; cbn; lia.
Qed.

Definition idle_at (key : ChannelKey) (s : State) : Prop :=
  serial_but (Some key) (books s) (tokens (shared s)).

Lemma serial_idle_at key s : key ∉ settlement_in_flight (books s) -> serial s -> idle_at key s.
Proof.
  intros Hk [H1 H2 H3 H4 H5 H6 H7 H8]. split; try done.
  - intros k _ Hw. by apply H2.
  - by intros k [= <-].
Qed.

Lemma serial_launch key p s :
  keyed (tokens (shared s)) (sp_token p) key -> idle_at key s -> serial (launch_settlement cfg key p s).
Proof.
  intros Hp H. destruct (launch_effect key p s Hp) as (r & Hr & ->). eapply serial_start; [..|exact H]; try done.
  - intros k. apply futures_snoc_settlement.
  - intros p' [?|Hin]%elem_of_app; [by left|]. apply list_elem_of_singleton in Hin as ->. by right.
  - intros p'. by left.
Qed.

Lemma serial_launch_through key p s :
  keyed (tokens (shared s)) (stp_token p) key -> idle_at key s -> serial (launch_settle_through cfg key p s).
Proof.
  intros Hp H. destruct (launch_through_effect key p s Hp) as (r & target & ->).
  eapply serial_start; [..|exact H]; try done.
  - intros k. apply futures_snoc_through.
  - intros p'. by left.
  - intros p' [?|Hin]%elem_of_app; [by left|]. apply list_elem_of_singleton in Hin as ->. by right.
Qed.

(** ** Queues *)

Lemma serial_queue key p s :
  keyed (tokens (shared s)) (sp_token p) key -> key ∈ settlement_in_flight (books s) ->
  serial s -> serial (queue_settlement key p s).
Proof.
  intros Hp Hk [H1 H2 H3 H4 H5 H6 H7 H8]. split; try done; cbn [queue_settlement on_books books set_settlement_queues
    settlement_queues settlement_in_flight shared tokens].
  - intros k _ Hw. destruct (decide (k = key)) as [->|Hne]; [done|]. apply H2; [done|].
    unfold waiting_on in *. cbn in Hw. by rewrite lookup_insert_ne in Hw.
  - intros k q p' [[<- <-]|[_ Hq]]%lookup_insert_Some Hin; [|by eapply H4].
    apply elem_of_app in Hin as [Hin|Hin]; [|by apply list_elem_of_singleton in Hin as ->].
    destruct (settlement_queues (books s) !! key) as [q0|] eqn:E; [by eapply H4|by apply elem_of_nil in Hin].
Qed.

Lemma serial_queue_through key p s :
  keyed (tokens (shared s)) (stp_token p) key -> key ∈ settlement_in_flight (books s) ->
  serial s -> serial (queue_settle_through key p s).
Proof.
  intros Hp Hk [H1 H2 H3 H4 H5 H6 H7 H8]. split; try done; cbn [queue_settle_through on_books books set_settle_through_queues
    settle_through_queues settlement_in_flight shared tokens].
  - intros k _ Hw. destruct (decide (k = key)) as [->|Hne]; [done|]. apply H2; [done|].
    unfold waiting_on in *. cbn in Hw. by rewrite lookup_insert_ne in Hw.
  - intros k q p' [[<- <-]|[_ Hq]]%lookup_insert_Some Hin; [|by eapply H5].
    apply elem_of_app in Hin as [Hin|Hin]; [|by apply list_elem_of_singleton in Hin as ->].
    destruct (settle_through_queues (books s) !! key) as [q0|] eqn:E; [by eapply H5|by apply elem_of_nil in Hin].
Qed.

Lemma serial_submit key p s :
  keyed (tokens (shared s)) (sp_token p) key -> serial s -> serial (submit_settlement cfg key p s).
Proof.
  intros Hp H. unfold submit_settlement. case_decide; [by apply serial_queue|].
  apply serial_launch; [done|]. by apply serial_idle_at.
Qed.

(** The queues of an idle channel may change. *)
Lemma idle_at_queues key sq tq s :
  (forall k, k <> key -> sq !! k = settlement_queues (books s) !! k /\ tq !! k = settle_through_queues (books s) !! k) ->
  (forall q p, sq !! key = Some q -> p ∈ q -> keyed (tokens (shared s)) (sp_token p) key) ->
  (forall q p, tq !! key = Some q -> p ∈ q -> keyed (tokens (shared s)) (stp_token p) key) ->
  idle_at key s ->
  serial_but (Some key) (set_settlement_queues sq (set_settle_through_queues tq (books s))) (tokens (shared s)).
Proof.
  intros He Hs Ht [H1 H2 H3 H4 H5 H6 H7 H8]. split; try done; cbn.
  - intros k Hne Hw. apply H2; [done|]. unfold waiting_on in *. cbn in Hw.
    destruct (He k) as [-> ->] in Hw; [congruence|done].
  - intros k q p Hq Hp. destruct (decide (k = key)) as [->|Hne]; [by eapply Hs|].
    destruct (He k Hne) as [E _]. rewrite E in Hq. by eapply H4.
  - intros k q p Hq Hp. destruct (decide (k = key)) as [->|Hne]; [by eapply Ht|].
    destruct (He k Hne) as [_ E]. rewrite E in Hq. by eapply H5.
Qed.

Lemma serial_drain_queue key s : idle_at key s -> serial (drain_settlement_queue cfg key s).
Proof.
  intros H. pose proof H as [H1 H2 H3 H4 H5 H6 H7 H8]. unfold drain_settlement_queue.
  destruct (settlement_queues (books s) !! key) as [[|next rest]|] eqn:Eq.
  2: { apply serial_launch; [eapply H4; [exact Eq|by left]|].
       apply (idle_at_queues key _ (settle_through_queues (books s)) s); [|..|exact H].
       - intros k Hne. by rewrite lookup_insert_ne.
       - intros q p. rewrite lookup_insert_eq. intros [= <-] Hp. eapply H4; [exact Eq|by right].
       - intros q p. by apply H5. }
  all: cbv zeta; cbn [books on_books set_settlement_queues settle_through_queues].
  all: destruct (settle_through_queues (books s) !! key) as [[|next rest]|] eqn:Et.
  2,5: apply serial_launch_through; [eapply H5; [exact Et|by left]|]; unfold idle_at;
       assert (serial_but (Some key) (set_settlement_queues (delete key (settlement_queues (books s)))
         (set_settle_through_queues (<[key := rest]> (settle_through_queues (books s))) (books s)))
         (tokens (shared s))) as G; [|exact G]; apply idle_at_queues; [..|exact H];
       [intros k Hne; by rewrite lookup_delete_ne, lookup_insert_ne|intros q p; by rewrite lookup_delete_eq|
        intros q p; rewrite lookup_insert_eq; intros [= <-] Hp; eapply H5; [exact Et|by right]].
  all: assert (serial_but (Some key) (set_settlement_queues (delete key (settlement_queues (books s)))
         (set_settle_through_queues (delete key (settle_through_queues (books s))) (books s))) (tokens (shared s))) as [G1 G2 G3 G4 G5 G6 G7 G8];
       [apply idle_at_queues; try done;
         [intros k Hne; by rewrite !lookup_delete_ne|intros q p; by rewrite lookup_delete_eq..]|].
  all: split; try done; intros k _ Hw; destruct (decide (k = key)) as [->|Hne]; [|by apply G2; [congruence|]];
       unfold waiting_on in Hw; cbn in Hw; rewrite !lookup_delete_eq in Hw; cbn in Hw; lia.
Qed.

(** ** Requests *)

Lemma quiet_claim n t s : quiet s (claim_settlement cfg n t s).2.
Proof.
  unfold claim_settlement. destruct (channel_key_for _ _); [destruct (tk_settling t)|].
  - apply quiet_fail.
  - by apply quiet_upd_token.
  - etrans; [|apply quiet_fail]. by apply quiet_upd_token.
Qed.

Lemma serial_record_in_batch key tag n s :
  keyed (tokens (shared s)) n key -> serial s -> serial (record_in_batch key tag n s).
Proof.
  intros Hn [H1 H2 H3 H4 H5 H6 H7 H8]. split; try done. cbn. intros k batch tag' m.
  intros [[<- <-]|[_ Hb]]%lookup_insert_Some Hm; [|by eapply H6].
  apply lookup_insert_Some in Hm as [[_ <-]|[_ Hm]]; [done|].
  destruct (acked_batch (books s) !! key) as [b|] eqn:E; [by eapply H6|cbn in Hm; by rewrite lookup_empty in Hm].
Qed.

Lemma keyed_quiet s s' n k : quiet s s' -> keyed (tokens (shared s)) n k -> keyed (tokens (shared s')) n k.
Proof. intros [_ Ht]. by apply keyed_ext. Qed.

Lemma serial_handle_settle n k tag settlement latency s :
  named cfg (tokens (shared s)) n k tag -> serial s -> serial (handle_settle cfg n settlement latency s).
Proof.
  intros Hn H. unfold handle_settle. destruct (tokens (shared s) !! n) as [t|] eqn:Et; [|done].
  pose proof (quiet_claim n t s) as Hq. destruct (claim_settlement cfg n t s) as [[key|] s1] eqn:Ec;
    [|by eapply quiet_serial].
  apply claim_some in Ec as [Ek _]. cbn [snd] in Hq.
  assert (keyed (tokens (shared s1)) n key) as Hk.
  { eapply keyed_quiet; [exact Hq|]. destruct Hn as (t' & r & Et' & Hr & -> & Hl & <-). rewrite Et in Et'. injection Et' as <-.
    unfold channel_key_for in Ek. rewrite Hr in Ek. injection Ek as <-. by exists (tk_delivery_tag t), t, r. }
  pose proof (quiet_serial _ _ Hq H) as H1.
  destruct settlement; try by apply serial_submit.
  by apply serial_record_in_batch.
Qed.

Lemma quiet_fence n t s : quiet s (fence_settle_through cfg n t s).2.
Proof.
  unfold fence_settle_through. destruct (negb _); [apply quiet_fail|].
  pose proof (quiet_claim n t s) as Hq. destruct (claim_settlement _ _ _ _) as [[key|] s1]; [|done].
  etrans; [exact Hq|]. cbn [snd]. destruct (_ !! _); [destruct (ensure_live_generation _ _); [reflexivity|]|];
    (etrans; [|apply quiet_fail]; by apply quiet_upd_token).
Qed.

Lemma quiet_foldl {A} (f : State -> A -> State) (l : list A) :
  (forall s x, quiet s (f s x)) -> forall s, quiet s (foldl f s l).
Proof. intros Hf. induction l as [|x l IH]; intros s; [reflexivity|]. etrans; [apply Hf|apply IH]. Qed.

Lemma serial_handle_settle_through n latency s :
  serial s -> serial (handle_settle_through cfg n latency s).
Proof.
  intros H. unfold handle_settle_through. destruct (tokens (shared s) !! n) as [t|] eqn:Et; [|done].
  pose proof (quiet_fence n t s) as Hq.
  destruct (fence_settle_through _ _ _ _) as [[[key r]|] s1] eqn:Ef; [|by eapply quiet_serial].
  apply fence_some in Ef as (Er & Ek & El & _). cbn [snd] in Hq. pose proof (quiet_serial _ _ Hq H) as H1.
  assert (keyed (tokens (shared s1)) n key) as Hk.
  { eapply keyed_quiet; [exact Hq|]. by exists (tk_delivery_tag t), t, r. }
  assert (forall k m, serial (fail_token n k m (store_settling n false s1))) as Hfail.
  { intros k m. eapply quiet_serial; [|exact H1]. etrans; [|apply quiet_fail]. by apply quiet_upd_token. }
  destruct (_ !! key); [|apply Hfail]. destruct (_ <=? _); [apply Hfail|].
  destruct (validate_contiguous_prefix _ _) as [af|e]; [|apply Hfail].
  destruct (bool_decide _); [apply Hfail|]. cbv zeta.
  match goal with |- context [log_ack_requests ?l (observe_latency ?sub latency ?x)] =>
    assert (quiet s1 (log_ack_requests l (observe_latency sub latency x))) as H2;
    [|set (s2 := log_ack_requests l (observe_latency sub latency x)) in *; clearbody s2] end.
  { etrans; [apply (quiet_foldl (fun s a => store_settling a true s)); intros; by apply quiet_upd_token|].
    by apply quiet_same. }
  pose proof (quiet_serial _ _ H2 H1) as H3. apply (keyed_quiet _ _ _ _ H2) in Hk.
  case_decide; [by apply serial_queue_through|]. apply serial_launch_through; [done|]. by apply serial_idle_at.
Qed.

(** ** Flushing *)

Lemma ack_run_batch batch l n : n ∈ ack_run batch l -> exists tag, batch !! tag = Some n.
Proof.
  induction l as [|[tag e] l IH]; cbn [ack_run]; [by intros ?%elem_of_nil|].
  destruct (batch !! tag) as [m|] eqn:E; [|by intros ?%elem_of_nil].
  destruct (bool_decide _); [|by intros ?%elem_of_nil]. intros [->|Hn]%elem_of_cons; [by exists tag|by apply IH].
Qed.

Lemma stragglers_batch l batch from p : p ∈ stragglers l batch from -> exists tag, batch !! tag = Some (sp_token p).
Proof.
  unfold stragglers. intros ([tag n] & Hin & Hp)%list_elem_of_omap. cbn in Hp.
  apply range_from_elem in Hin as [Hin _]. exists tag.
  destruct (pending l !! tag); [|done]. destruct (bool_decide _); [|done]. by injection Hp as <-.
Qed.

Lemma serial_drop_batch key s : serial s -> serial (drop_batch key s).
Proof.
  intros [H1 H2 H3 H4 H5 H6 H7 H8]. split; try done. cbn. intros k batch tag n [_ Hb]%lookup_delete_Some. by eapply H6.
Qed.

Lemma serial_queue_all key late : forall s,
  Forall (fun p => keyed (tokens (shared s)) (sp_token p) key) late -> key ∈ settlement_in_flight (books s) ->
  serial s -> serial (foldl (fun s p => queue_settlement key p s) s late).
Proof.
  induction late as [|p late IH]; intros s Hl Hk H; [done|]. apply Forall_cons in Hl as [Hp Hl]. cbn [foldl].
  apply IH; [done|done|]. by apply serial_queue.
Qed.

Lemma submit_tokens key p s :
  keyed (tokens (shared s)) (sp_token p) key -> tokens (shared (submit_settlement cfg key p s)) = tokens (shared s).
Proof.
  intros Hp. unfold submit_settlement. case_decide; [done|]. by destruct (launch_effect key p s Hp) as (r & _ & ->).
Qed.

Lemma serial_submit_all key late : forall s,
  Forall (fun p => keyed (tokens (shared s)) (sp_token p) key) late ->
  serial s -> serial (foldl (fun s p => submit_settlement cfg key p s) s late).
Proof.
  induction late as [|p late IH]; intros s Hl H; [done|]. apply Forall_cons in Hl as [Hp Hl]. cbn [foldl].
  apply IH; [by rewrite submit_tokens|by apply serial_submit].
Qed.

Lemma serial_flush_channel key s : serial s -> serial (flush_channel cfg key s).
Proof.
  intros H. unfold flush_channel. case_decide as Hk; [done|].
  destruct (acked_batch (books s) !! key) as [batch|] eqn:Eb; [|done].
  destruct (channel_ledgers (books s) !! key) as [l|]; [|by apply serial_drop_batch]. cbv zeta.
  assert (forall from, Forall (fun p => keyed (tokens (shared s)) (sp_token p) key) (stragglers l batch from)) as Hlate.
  { intros from. apply Forall_forall. intros p (tag & Hp)%stragglers_batch. by eapply (s_batch _ _ _ H). }
  destruct (last _) as [target|] eqn:El; [|apply serial_submit_all; [done|by apply serial_drop_batch]].
  assert (keyed (tokens (shared s)) target key) as Ht.
  { apply last_Some_elem_of in El. apply ack_run_batch in El as (tag & Ht). by eapply (s_batch _ _ _ H). }
  pose proof (launch_through_effect key (mkThroughParams target
    (ack_run batch (range_from (acked_prefix l + 1) (pending l)))) (drop_batch key s) Ht) as (r & w & E).
  apply serial_queue_all.
  - by rewrite E.
  - rewrite E. cbn. set_solver.
  - apply serial_launch_through; [done|]. apply serial_idle_at; [done|by apply serial_drop_batch].
Qed.

Lemma serial_flush_acked s : serial s -> serial (flush_acked cfg s).
Proof.
  unfold flush_acked. generalize (map_to_list (acked_batch (books s))).*1 as ks. intros ks. revert s.
  induction ks as [|k ks IH]; intros s H; [done|]. cbn [foldl]. by apply IH, serial_flush_channel.
Qed.

Lemma serial_handle_control D P c s :
  match c with CmdSettle n _ _ => n ∈ P | _ => True end -> inv cfg D P s -> serial s -> serial (handle_control cfg c s).
Proof.
  intros Hc Hi. destruct c; [|apply serial_handle_settle_through|done].
  destruct (i_popped _ _ _ _ _ _ _ _ _ _ _ _ _ Hi _ Hc) as (k & tag & Hn). by eapply serial_handle_settle.
Qed.

(** ** Completions *)

Lemma outstanding_quiet s s' k : quiet s s' -> outstanding k (books s') = outstanding k (books s).
Proof.
  intros [[= _ E2 E3 E4 E5 E6] _]. unfold outstanding, futures, waiting_on. by rewrite E2, E3, E5, E6.
Qed.

Lemma quiet_idle key s s' : quiet s s' -> idle_at key s -> idle_at key s'.
Proof. intros [] H. by eapply serial_ext. Qed.

(** The next settlement leaves its queue for the channel. *)
Lemma drain_through_outstanding key s k :
  idle_at key s -> default [] (settlement_queues (books s) !! key) = [] ->
  outstanding k (books
    (let s := on_books (fun b => set_settlement_queues (delete key (settlement_queues b)) b) s in
     match settle_through_queues (books s) !! key with
     | Some (next :: rest) =>
         launch_settle_through cfg key next
           (on_books (fun b => set_settle_through_queues (<[key := rest]> (settle_through_queues b)) b) s)
     | _ => on_books (fun b => set_settle_through_queues (delete key (settle_through_queues b)) b) s
     end)) = outstanding k (books s).
Proof.
  intros [H1 H2 H3 H4 H5 H6 H7 H8] Eq. cbv zeta. cbn [books on_books set_settlement_queues settle_through_queues].
  destruct (settle_through_queues (books s) !! key) as [[|next rest]|] eqn:Et.
  2: { match goal with |- context [launch_settle_through cfg key next ?x] =>
         destruct (launch_through_effect key next x) as (r & w & ->); [eapply H5; [exact Et|by left]|] end.
       unfold outstanding. cbn [on_books books]. rewrite futures_snoc_through. unfold futures, waiting_on. cbn.
       destruct (decide (k = key)) as [->|Hne].
       - rewrite lookup_delete_eq, lookup_insert_eq, Eq, Et. cbn. lia.
       - rewrite lookup_delete_ne, lookup_insert_ne by done. lia. }
  all: unfold outstanding, futures, waiting_on; cbn; destruct (decide (k = key)) as [->|Hne];
    [rewrite !lookup_delete_eq, Eq, Et; cbn; lia|rewrite !lookup_delete_ne by done; lia].
Qed.

Lemma drain_queue_outstanding key s k :
  idle_at key s -> outstanding k (books (drain_settlement_queue cfg key s)) = outstanding k (books s).
Proof.
  intros H. unfold drain_settlement_queue.
  destruct (settlement_queues (books s) !! key) as [[|next rest]|] eqn:Eq.
  - apply drain_through_outstanding; [done|by rewrite Eq].
  - match goal with |- context [launch_settlement cfg key next ?x] =>
      destruct (launch_effect key next x) as (r & _ & ->); [eapply (s_queue _ _ _ H); [exact Eq|by left]|] end.
    unfold outstanding. cbn [on_books books]. rewrite futures_snoc_settlement. unfold futures, waiting_on. cbn.
    destruct (decide (k = key)) as [->|Hne]; [rewrite lookup_insert_eq, Eq; cbn; lia|].
    rewrite lookup_insert_ne by done. lia.
  - apply drain_through_outstanding; [done|by rewrite Eq].
Qed.

Lemma complete_settlement_drains key n t res s :
  tokens (shared s) !! n = Some t -> exists s1, quiet (clear_in_flight key s) s1 /\
    complete_settlement cfg key n res s = drain_settlement_queue cfg key s1.
Proof.
  intros Ht. unfold complete_settlement. rewrite Ht. cbv zeta. eexists. split; [|reflexivity].
  match goal with |- context [store_settling n false ?x] => assert (quiet (clear_in_flight key s) x) as Hx;
    [|set (s1 := x) in *; clearbody s1] end.
  { destruct (match res with Ok _ => true | Err _ => _ end); [|reflexivity].
    etrans; [|apply quiet_ledger_remove]. etrans; [|apply quiet_try_drain].
    destruct res as [[]|]; by apply quiet_same. }
  etrans; [exact Hx|]. etrans; [by apply (quiet_upd_token n (set_settling false))|].
  set (s2 := store_settling n false s1) in *. change (upd_token n (set_settling false) s1) with s2. clearbody s2.
  assert (forall st, quiet s2 (store_state n st s2)) as Hst by (intros; by apply quiet_upd_token).
  destruct res as [st|e]; [apply Hst|].
  destruct (ce_kind e); try (etrans; [apply Hst|apply quiet_fail]).
  all: destruct (c_subscriptions cfg !! _) as [r|]; [|etrans; [apply Hst|apply quiet_fail]].
  all: unfold poison_op; destruct (ensure_live_generation r t), (rt_has_dead_letter r);
    match goal with |- quiet _ (record_settlement_error _ (store_state ?m ?st ?x)) =>
      trans (store_state m st x); [|by apply quiet_same]; trans x; [by apply quiet_same|by apply quiet_upd_token] end.
Qed.

Lemma complete_through_drains key target af res s :
  exists s1, quiet s s1 /\ complete_settle_through cfg key target af res s = drain_settlement_queue cfg key s1.
Proof.
  unfold complete_settle_through. cbv zeta. eexists. split; [|reflexivity].
  match goal with |- context [foldl (fun s n => store_settling n false _) ?x af] =>
    assert (quiet s x) as Hx; [|set (s1 := x) in *; clearbody s1] end.
  { destruct (match res with Ok _ => true | Err _ => _ end); [|reflexivity].
    match goal with |- context [try_drain_pending cfg ?x] => assert (quiet s (try_drain_pending cfg x)) as Hd;
      [|set (s1 := try_drain_pending cfg x) in *; clearbody s1] end.
    { etrans; [|apply quiet_try_drain].
      match goal with |- context [foldl ?f s af] => assert (quiet s (foldl f s af)) as Hf end.
      { apply quiet_foldl. intros x n. destruct (_ !! n); by apply quiet_same. }
      destruct res as [[]|]; try done. destruct af; [done|]. etrans; [exact Hf|by apply quiet_same]. }
    etrans; [exact Hd|]. destruct (channel_ledgers (books s1) !! key); [|reflexivity].
    etrans; [apply quiet_ledger_remove|]. destruct res as [[]|]; by apply quiet_same. }
  etrans; [exact Hx|].
  match goal with |- context [foldl ?f s1 af] => assert (quiet s1 (foldl f s1 af)) as Hf end.
  { apply quiet_foldl. intros x n. etrans; by apply quiet_upd_token. }
  destruct res; [done|]. etrans; [exact Hf|by apply quiet_same].
Qed.

(** A future leaves the pending set. *)
Lemma take_nth_perm {A} i (l : list A) x rest : take_nth i l = Some (x, rest) -> l ≡ₚ x :: rest.
Proof.
  unfold take_nth. destruct (l !! i) as [y|] eqn:E; [|done]. intros [= <- <-].
  by apply delete_Permutation.
Qed.

(** The in-flight mark of a channel goes with its future. *)
Lemma serial_finish key b b' ts :
  (forall k, futures k b = futures k b' + (if decide (k = key) then 1 else 0))%nat ->
  settlement_in_flight b' = settlement_in_flight b ∖ {[key]} ->
  settlement_queues b' = settlement_queues b -> settle_through_queues b' = settle_through_queues b ->
  acked_batch b' = acked_batch b ->
  pending_settlements b' ⊆ pending_settlements b -> pending_settle_throughs b' ⊆ pending_settle_throughs b ->
  serial_but None b ts -> serial_but (Some key) b' ts.
Proof.
  intros Hf E1 E2 E3 E4 Hps Hpt [H1 H2 H3 H4 H5 H6 H7 H8].
  split; unfold waiting_on in *; rewrite ?E1, ?E2, ?E3, ?E4; try done; auto.
  - intros k. specialize (Hf k). rewrite H1 in Hf. destruct (decide (k = key)) as [->|Hne].
    + rewrite decide_False by set_solver. destruct (decide _) in Hf; lia.
    + destruct (decide (k ∈ settlement_in_flight b));
        [rewrite decide_True by set_solver|rewrite decide_False by set_solver]; lia.
  - intros k Hne Hw. apply elem_of_difference. split; [by apply H2|]. intros ->%elem_of_singleton. by apply Hne.
  - intros k [= <-]. set_solver.
Qed.

Lemma futures_drop_settlement k p rest b i :
  take_nth i (pending_settlements b) = Some (p, rest) ->
  (futures k b = futures k (set_settlement_in_flight (settlement_in_flight b ∖ {[ps_key p]}) (set_pending_settlements rest b)) +
     (if decide (k = ps_key p) then 1 else 0))%nat.
Proof.
  intros Hp%take_nth_perm. unfold futures. cbn. rewrite Hp, filter_cons.
  destruct (decide (k = ps_key p)); [rewrite decide_True by done|rewrite decide_False by congruence]; cbn; lia.
Qed.

Lemma futures_drop_through k p rest b i :
  take_nth i (pending_settle_throughs b) = Some (p, rest) ->
  (futures k b = futures k (set_settlement_in_flight (settlement_in_flight b ∖ {[pt_key p]}) (set_pending_settle_throughs rest b)) +
     (if decide (k = pt_key p) then 1 else 0))%nat.
Proof.
  intros Hp%take_nth_perm. unfold futures. cbn. rewrite Hp, filter_cons.
  destruct (decide (k = pt_key p)); [rewrite decide_True by done|rewrite decide_False by congruence]; cbn; lia.
Qed.

(** The channel of a future that leaves is idle, with one less outstanding. *)
Definition released (key : ChannelKey) (s s1 : State) : Prop :=
  idle_at key s1 /\
  forall k, outstanding k (books s) = (outstanding k (books s1) + (if decide (k = key) then 1 else 0))%nat.

Lemma release_settlement i p rest s :
  take_nth i (pending_settlements (books s)) = Some (p, rest) -> serial s ->
  released (ps_key p) s (clear_in_flight (ps_key p) (on_books (set_pending_settlements rest) s)).
Proof.
  intros E H. pose proof (take_nth_elem _ _ _ _ E) as [_ Hsub]. split.
  - eapply serial_finish; [..|exact H]; try done. intros k. exact (futures_drop_settlement k p rest (books s) i E).
  - intros k. unfold outstanding. rewrite (futures_drop_settlement k p rest _ i E). cbn. unfold waiting_on. cbn. lia.
Qed.

Lemma release_through i p rest s :
  take_nth i (pending_settle_throughs (books s)) = Some (p, rest) -> serial s ->
  released (pt_key p) s (clear_in_flight (pt_key p) (on_books (set_pending_settle_throughs rest) s)).
Proof.
  intros E H. pose proof (take_nth_elem _ _ _ _ E) as [_ Hsub]. split.
  - eapply serial_finish; [..|exact H]; try done. intros k. exact (futures_drop_through k p rest (books s) i E).
  - intros k. unfold outstanding. rewrite (futures_drop_through k p rest _ i E). cbn. unfold waiting_on. cbn. lia.
Qed.

(** Quiet work and the next launch complete the step. *)
Lemma released_drain key s s1 s2 :
  released key s s1 -> quiet s1 s2 ->
  serial (drain_settlement_queue cfg key s2) /\
  forall k, outstanding k (books s) =
    (outstanding k (books (drain_settlement_queue cfg key s2)) + (if decide (k = key) then 1 else 0))%nat.
Proof.
  intros [Hi Ho] Hq. pose proof (quiet_idle _ _ _ Hq Hi) as Hi2. split; [by apply serial_drain_queue|].
  intros k. rewrite Ho, drain_queue_outstanding, (outstanding_quiet _ _ k Hq) by done. done.
Qed.

Lemma serial_settlement_done sha256 i a s s' :
  settlement_done sha256 cfg i a s = Some s' -> serial s ->
  serial s' /\ exists p, pending_settlements (books s) !! i = Some p /\
  forall k, outstanding k (books s) = (outstanding k (books s') + (if decide (k = ps_key p) then 1 else 0))%nat.
Proof.
  unfold settlement_done. destruct (take_nth i _) as [[p rest]|] eqn:E; [|done].
  destruct (tokens (shared s) !! _) as [t|] eqn:Et; [|done].
  destruct (execute_settlement _ _ _ _ _ _) as [[res ops] pubs]. intros [= <-] H.
  match goal with |- context [complete_settlement cfg ?key ?n res ?x] =>
    destruct (complete_settlement_drains key n t res x) as (s1 & Hq & ->); [exact Et|] end.
  destruct (released_drain _ _ _ s1 (release_settlement _ _ _ _ E H)) as [H1 H2].
  { etrans; [|exact Hq]. by apply quiet_same. }
  split; [done|]. exists p. split; [|done]. unfold take_nth in E. destruct (_ !! i); by simplify_eq.
Qed.

Lemma serial_through_done i a s s' :
  settle_through_done cfg i a s = Some s' -> serial s ->
  serial s' /\ exists p, pending_settle_throughs (books s) !! i = Some p /\
  forall k, outstanding k (books s) = (outstanding k (books s') + (if decide (k = pt_key p) then 1 else 0))%nat.
Proof.
  unfold settle_through_done. destruct (take_nth i _) as [[p rest]|] eqn:E; [|done].
  destruct (tokens (shared s) !! _) as [t|] eqn:Et; [|done].
  destruct (execute_settle_through _ _ _ _ _) as [res ops]. intros [= <-] H.
  match goal with |- context [complete_settle_through cfg ?key ?w ?af res ?x] =>
    destruct (complete_through_drains key w af res x) as (s1 & Hq & ->) end.
  destruct (released_drain _ _ _ s1 (release_through _ _ _ _ E H)) as [H1 H2].
  { etrans; [|exact Hq]. by apply quiet_same. }
  split; [done|]. exists p. split; [|done]. unfold take_nth in E. destruct (_ !! i); by simplify_eq.
Qed.

Lemma serial_close_settlement sha256 i a s s' :
  close_settlement sha256 cfg i a s = Some s' -> serial s -> serial s'.
Proof.
  unfold close_settlement. destruct (take_nth i _) as [[p rest]|] eqn:E; [|done].
  destruct (tokens (shared s) !! _) as [t|]; [|done].
  destruct (execute_settlement _ _ _ _ _ _) as [[res ops] pubs]. intros [= <-] H.
  refine (proj1 (released_drain _ _ _ _ (release_settlement _ _ _ _ E H) _)).
  match goal with |- context [store_settling ?n false (store_state ?n ?st ?x)] =>
    assert (quiet x (store_settling n false (store_state n st x))) as Hq by (etrans; by apply quiet_upd_token);
    assert (quiet (clear_in_flight (ps_key p) (on_books (set_pending_settlements rest) s)) x) as Hq' by by apply quiet_same
  end.
  etrans; [exact Hq'|]. etrans; [exact Hq|]. destruct res; [reflexivity|apply quiet_fail].
Qed.

Lemma serial_close_through i a s s' : close_through cfg i a s = Some s' -> serial s -> serial s'.
Proof.
  unfold close_through. destruct (take_nth i _) as [[p rest]|] eqn:E; [|done].
  destruct (tokens (shared s) !! _) as [t|]; [|done].
  destruct (execute_settle_through _ _ _ _ _) as [res ops]. intros [= <-] H.
  refine (proj1 (released_drain _ _ _ _ (release_through _ _ _ _ E H) _)).
  match goal with |- context [foldl ?f ?x ?af] => assert (quiet x (foldl f x af)) as Hq end.
  { apply quiet_foldl. intros x n. etrans; by apply quiet_upd_token. }
  match type of Hq with quiet ?x _ =>
    assert (quiet (clear_in_flight (pt_key p) (on_books (set_pending_settle_throughs rest) s)) x) as Hq' by by apply quiet_same
  end.
  etrans; [exact Hq'|]. etrans; [exact Hq|]. destruct res; [reflexivity|by apply quiet_same].
Qed.

Lemma serial_close_loop sha256 events : forall s, serial s -> serial (close_loop sha256 cfg events s).
Proof.
  induction events as [|e events IH]; intros s H; [done|]. cbn [close_loop]. destruct e as [i a|i a].
  - destruct (close_settlement _ _ _ _ _) eqn:E; apply IH; [|done]. by eapply serial_close_settlement.
  - destruct (close_through _ _ _ _) eqn:E; apply IH; [|done]. by eapply serial_close_through.
Qed.

Lemma serial_close_set sha256 D P commands events s :
  Forall (fun c => match c with CmdSettle n _ _ => n ∈ P | _ => True end) commands ->
  inv cfg D P s -> serial s -> serial (close_set sha256 cfg commands events s).
Proof.
  intros Hc Hi H. apply serial_close_loop, serial_flush_acked. revert s Hi H.
  induction Hc as [|c commands Hc _ IH]; intros s Hi H; [done|]. cbn [foldl].
  apply IH; [by apply inv_handle_control|by eapply serial_handle_control].
Qed.

Lemma serial_spawned_done i s s' : spawned_done i s = Some s' -> serial s -> serial s'.
Proof.
  unfold spawned_done. destruct (take_nth i _) as [[op rest]|]; [|done]. intros [= <-].
  apply quiet_serial. by apply quiet_same.
Qed.

End Serial.

Lemma serial_actor_new subs foreign : serial (config_of subs) (actor_new subs foreign).
Proof.
  split; try done.
  - intros k _ Hw. unfold waiting_on in Hw. cbn [actor_new books settlement_queues settle_through_queues] in Hw.
    rewrite !lookup_empty in Hw. cbn in Hw. lia.
  - by intros p ?%elem_of_nil.
  - by intros p ?%elem_of_nil.
Qed.

End ConsumerSerial.
