(* ===== verification/ConsumerSystem.v ===== *)
(** * The consumer set as a system

    Models the run loop of [consumer/actor.rs], the handle calls of
    [consumer/set.rs] and the synchronous settlements of
    [consumer/delivery.rs] around [ConsumerActor]: the bounded control channel,
    the hand-off flume and the embedder that pops deliveries and settles them.
    One [Label] is one step of the actor's loop or one call of the embedder;
    the loop's draining order is one of the interleavings allowed here.

    The broker numbers the deliveries of a channel upwards, as AMQP 0-9-1
    specifies; this is the guard of [LIncoming]. *)

From S2P Require Import Prelude Transport Publication Scheduler Attempts DelayTopology DelayRouting.
From S2P Require Import Prefetch Delivery ConsumerActor ConsumerInv ConsumerBounds ConsumerFifo.
From S2P Require Import ConsumerSerial.
Import Transport Publication DelayTopology Delivery ConsumerActor ConsumerInv ConsumerBounds ConsumerFifo
  ConsumerSerial.
Local Open Scope Z_scope.

Module ConsumerSystem.

(** ** State and steps *)

Record Sys := mkSys {
  st : State;
  control : list ControlCommand;
  popped : list nat;             (* tokens the embedder received *)
  open : bool;
  pending_error : option ConsumerError
}.

Inductive Label :=
| LTrySettle (token : nat) (settlement : Settlement) (latency : Z)
| LTrySettleThrough (token : nat) (latency : Z)
| LTryNext
| LTryNextBatch (max : Z)
| LNext
| LControl
| LIncoming (sub : string) (res : result TransportDelivery TransportError)
| LFlush
| LNotified
| LTick
| LSettled (i : nat) (a : Answers)
| LThrough (i : nat) (a : Answers)
| LSpawned (i : nat)
| LClose (events : list CloseEvent).

Section System.
Variable sha256 : string -> string.
Variable subs : list Subscription.
Definition cfg : Config := config_of subs.

Definition on_st (f : State -> State) (s : Sys) : Sys := mkSys (f (st s)) (control s) (popped s) (open s) (pending_error s).

(** What [try_send] on the control channel answers. *)
Definition control_send (s : Sys) : SendResult :=
  if negb (open s) then Disconnected
  else if COMMAND_CAPACITY <=? Z.of_nat (length (control s)) then Full else Sent.

(** [DeliveryToken::try_settle] of a delivery the embedder holds. *)
Definition try_settle_token (n : nat) (settlement : Settlement) (latency : Z) (s : Sys)
  : result unit SettlementErrorKind * Sys :=
  match tokens (shared (st s)) !! n with
  | None => (Err AlreadySettled, s)
  | Some t =>
      let '(res, state, enqueued) := try_settle settlement (control_send s) (tk_state t) in
      (res, mkSys (store_state n state (st s))
              (if enqueued then control s ++ [CmdSettle n settlement latency] else control s)
              (popped s) (open s) (pending_error s))
  end.

(** [ConsumerSetHandle::try_settle_through]. *)
Definition try_settle_through (n : nat) (latency : Z) (s : Sys) : result unit SettlementErrorKind * Sys :=
  match control_send s with
  | Sent => (Ok tt, mkSys (st s) (control s ++ [CmdSettleThrough n latency]) (popped s) (open s) (pending_error s))
  | Full => (Err ChannelFull, s)
  | Disconnected => (Err SClosed, s)
  end.

(** [buffer_rx.try_recv()], [None] when the flume is empty. *)
Definition buffer_recv (s : Sys) : option (Item * Sys) :=
  match flume (intake (st s)) with
  | [] => None
  | it :: rest =>
      Some (it, mkSys (on_intake (set_flume rest) (st s)) (control s)
                  (match it with Ok n => popped s ++ [n] | Err _ => popped s end) (open s) (pending_error s))
  end.

Definition stash (e : option ConsumerError) (s : Sys) : Sys :=
  mkSys (st s) (control s) (popped s) (open s) e.

(** An empty buffer surfaces the stashed error. *)
Definition stashed {A} (empty : A) (s : Sys) : result A ConsumerError * Sys :=
  match pending_error s with
  | Some e => (Err e, stash None s)
  | None => (Ok empty, s)
  end.

Definition try_next (s : Sys) : result (option nat) ConsumerError * Sys :=
  if negb (open s) then (Err closed, s)
  else
    match buffer_recv s with
    | Some (Ok n, s') => (Ok (Some n), s')
    | Some (Err e, s') => (Err e, s')
    | None => stashed None s
    end.

(** The loop of [try_next_batch] and what follows it. *)
Fixpoint batch_loop (rounds : nat) (batch : list nat) (s : Sys) : result (list nat) ConsumerError * Sys :=
  let finish := if bool_decide (batch = []) then stashed [] s else (Ok batch, s) in
  match rounds with
  | O => finish
  | S rounds' =>
      match buffer_recv s with
      | Some (Ok n, s') => batch_loop rounds' (batch ++ [n]) s'
      | Some (Err e, s') =>
          if bool_decide (batch = []) then (Err e, s') else (Ok batch, stash (Some e) s')
      | None => finish
      end
  end.

Definition try_next_batch (max : Z) (s : Sys) : result (list nat) ConsumerError * Sys :=
  if negb (open s) then (Err closed, s)
  else batch_loop (Z.to_nat (Prefetch.clamp max 1 256)) [] s.

(** [next], [None] while it waits for the buffer. *)
Definition next (s : Sys) : option (result nat ConsumerError * Sys) :=
  if negb (open s) then Some (Err closed, s)
  else
    match buffer_recv s with
    | Some (Ok n, s') => Some (Ok n, s')
    | Some (Err e, s') => Some (Err e, s')
    | None => None
    end.

(** The broker's numbering of deliveries. *)
Definition broker_order (sub : string) (res : result TransportDelivery TransportError) (s : State) : Prop :=
  match res, channel_key_for cfg sub with
  | Ok d, Some key =>
      0 < td_delivery_tag d /\
      Forall (fun x => x.1 = key -> x.2 < td_delivery_tag d) (delivered (shared s))
  | _, _ => True
  end.

#[global] Instance broker_order_dec sub res s : Decision (broker_order sub res s).
Proof. unfold broker_order. destruct res; [destruct (channel_key_for _ _)|]; apply _. Defined.

Definition sys_step (l : Label) (s : Sys) : option Sys :=
  match l with
  | LTrySettle n settlement latency =>
      if decide (n ∈ popped s) then Some (try_settle_token n settlement latency s).2 else None
  | LTrySettleThrough n latency => Some (try_settle_through n latency s).2
  | LTryNext => Some (try_next s).2
  | LTryNextBatch max => Some (try_next_batch max s).2
  | LNext => snd <$> next s
  | LControl =>
      match control s with
      | c :: rest =>
          if open s then Some (mkSys (handle_control cfg c (st s)) rest (popped s) (open s) (pending_error s)) else None
      | [] => None
      end
  | LIncoming sub res =>
      if open s && (Z.of_nat (length (pending_incoming (intake (st s)))) <? c_pending_capacity cfg) &&
         bool_decide (broker_order sub res (st s))
      then Some (on_st (handle_incoming cfg sub res) s) else None
  | LFlush => if open s && dispatch_stock_drained (st s) then Some (on_st (flush_acked cfg) s) else None
  | LNotified => if open s then Some (on_st (dispatch cfg) s) else None
  | LTick => if open s then Some (on_st prefetch_tick s) else None
  | LSettled i a =>
      if open s then (fun x => mkSys x (control s) (popped s) true (pending_error s)) <$> settlement_done sha256 cfg i a (st s)
      else None
  | LThrough i a =>
      if open s then (fun x => mkSys x (control s) (popped s) true (pending_error s)) <$> settle_through_done cfg i a (st s)
      else None
  | LSpawned i => (fun x => mkSys x (control s) (popped s) (open s) (pending_error s)) <$> spawned_done i (st s)
  | LClose events =>
      if open s then Some (mkSys (close_set sha256 cfg (control s) events (st s)) [] (popped s) false (pending_error s))
      else None
  end.

(** What receiving an item and stashing an error keep, the embedder's receiving
    calls keep. *)
Section Receiving.
Context (Q : Sys -> Prop).
Hypothesis Hrecv : forall s it s', buffer_recv s = Some (it, s') -> Q s -> Q s'.
Hypothesis Hstash : forall e s, Q s -> Q (stash e s).

Lemma stashed_keeps {A} (a : A) s : Q s -> Q (stashed a s).2.
Proof. intros H. unfold stashed. destruct (pending_error s); [by apply Hstash|done]. Qed.

Lemma try_next_keeps s : Q s -> Q (try_next s).2.
Proof.
  intros H. unfold try_next. destruct (negb (open s)); [done|].
  destruct (buffer_recv s) as [[[n|e] s']|] eqn:E; [by eapply Hrecv..|by apply stashed_keeps].
Qed.

Lemma batch_loop_keeps rounds : forall batch s, Q s -> Q (batch_loop rounds batch s).2.
Proof.
  induction rounds as [|rounds IH]; intros batch s H; cbn [batch_loop].
  - destruct (bool_decide _); [by apply stashed_keeps|done].
  - destruct (buffer_recv s) as [[[n|e] s']|] eqn:E.
    + apply IH. by eapply Hrecv.
    + destruct (bool_decide _); [by eapply Hrecv|]. apply Hstash. by eapply Hrecv.
    + destruct (bool_decide _); [by apply stashed_keeps|done].
Qed.

Lemma try_next_batch_keeps max s : Q s -> Q (try_next_batch max s).2.
Proof. intros H. unfold try_next_batch. destruct (negb (open s)); [done|]. by apply batch_loop_keeps. Qed.

Lemma next_keeps s r s' : next s = Some (r, s') -> Q s -> Q s'.
Proof.
  unfold next. destruct (negb (open s)); [by intros [= <- <-]|].
  destruct (buffer_recv s) as [[[n|e] s1]|] eqn:E; intros [= <- <-]; by eapply Hrecv.
Qed.

End Receiving.

Inductive reach : Sys -> Prop :=
| reach_new foreign : reach (mkSys (actor_new subs foreign) [] [] true None)
| reach_step l s s' : reach s -> sys_step l s = Some s' -> reach s'.

Fixpoint run (ls : list Label) (s : Sys) : option Sys :=
  match ls with
  | [] => Some s
  | l :: ls' => match sys_step l s with Some s' => run ls' s' | None => None end
  end.

Lemma set_reach_run ls : forall s s', reach s -> run ls s = Some s' -> reach s'.
Proof.
  induction ls as [|l ls IH]; intros s s' Hr; simpl; [by intros [= <-]|].
  destruct (sys_step l s) as [s1|] eqn:E; [|done]. apply IH. by eapply reach_step.
Qed.

(** ** The acknowledgement invariant holds in every reachable state *)

Definition commands_ok (P : list nat) (l : list ControlCommand) : Prop :=
  Forall (fun c => match c with CmdSettle n _ _ => n ∈ P | _ => True end) l.

Record sys_inv (s : Sys) : Prop := {
  y_inv : inv cfg (delivered (shared (st s))) (popped s) (st s);
  y_commands : commands_ok (popped s) (control s);
  y_sorted : forall k, StronglySorted Z.lt (tags_on k (delivered (shared (st s))));
  y_fifo : fifo cfg (popped s) (st s)
}.

Lemma init_ledgers l k :
  foldl (fun m s => <[runtime_key (s_id s) (s_runtime s) := ledger_default]> m) (∅ : gmap ChannelKey ChannelLedger) subs !! k = Some l ->
  l = ledger_default.
Proof.
  assert (forall (m : gmap ChannelKey ChannelLedger),
    (forall k l, m !! k = Some l -> l = ledger_default) -> forall k l,
    foldl (fun m s => <[runtime_key (s_id s) (s_runtime s) := ledger_default]> m) m subs !! k = Some l ->
    l = ledger_default) as H; [|apply (H ∅); intros ? ?; by rewrite lookup_empty].
  induction subs as [|s ss IH]; intros m Hm; [done|]. cbn [foldl]. apply IH.
  intros k' l' [[_ <-]|[_ Hl]]%lookup_insert_Some; [done|by eapply Hm].
Qed.

Lemma inv_actor_new foreign : inv cfg [] [] (actor_new subs foreign).
Proof.
  split; try done.
  - by intros k tag ?%elem_of_nil.
  - intros k l tag e Hl He. apply init_ledgers in Hl as ->. done.
  - intros k l Hl. apply init_ledgers in Hl as ->. by left.
  - by intros p ?%elem_of_nil.
  - by intros k w ?%elem_of_nil.
  - by intros n ?%elem_of_nil.
  - by intros n ?%elem_of_nil.
Qed.

Lemma inv_pop D P n s : inv cfg D P s -> (exists k tag, named cfg (tokens (shared s)) n k tag) -> inv cfg D (P ++ [n]) s.
Proof.
  intros [H1 H2 H3 H4 H5 H6 H7 H8 H9 H10] Hn. split; try done.
  intros m [Hm|Hm]%elem_of_app; [by apply H10|]. by apply list_elem_of_singleton in Hm as ->.
Qed.

Lemma inv_set_flume D P l s :
  (forall it, it ∈ l -> it ∈ flume (intake s)) -> inv cfg D P s -> inv cfg D P (on_intake (set_flume l) s).
Proof.
  intros Hl [H1 H2 H3 H4 H5 H6 H7 H8 H9 H10]. split; try done. intros n Hn. by apply H9, Hl.
Qed.

Lemma commands_ok_mono P P' l : P ⊆ P' -> commands_ok P l -> commands_ok P' l.
Proof. intros HP Hl. eapply Forall_impl; [exact Hl|]. intros [] H; auto. Qed.

(** The delivered log is the parameter of the invariant. *)
Lemma inv_delivered D P s : inv cfg D P s -> delivered (shared s) = D.
Proof. intros H. exact (i_log _ _ _ _ _ _ _ _ _ _ _ _ _ H). Qed.

(** A step that receives nothing. *)
Lemma sys_inv_step s s' :
  sys_inv s -> inv cfg (delivered (shared (st s))) (popped s') (st s') ->
  commands_ok (popped s') (control s') -> fifo cfg (popped s') (st s') -> sys_inv s'.
Proof.
  intros [H1 H2 H3 H4] Hi Hc Hf. pose proof (inv_delivered _ _ _ Hi) as Ed.
  split; rewrite ?Ed; done.
Qed.

Lemma frame_step s s' c :
  sys_inv s -> inv cfg (delivered (shared (st s))) (popped s) s' -> frame (st s) s' ->
  commands_ok (popped s) c -> sys_inv (mkSys s' c (popped s) (open s) (pending_error s)).
Proof.
  intros Hs Hi Hf Hc. apply (sys_inv_step s); [done..|]. by eapply frame_fifo; [|apply Hs].
Qed.

Lemma sorted_snoc (l : list Z) x : StronglySorted Z.lt l -> Forall (fun y => y < x) l -> StronglySorted Z.lt (l ++ [x]).
Proof.
  induction 1 as [|y l Hs IH Hy]; intros Hx; [by repeat constructor|].
  apply Forall_cons in Hx as [Hyx Hx]. constructor; [by apply IH|]. apply Forall_app. by repeat constructor.
Qed.

Lemma sorted_received D sub res s :
  broker_order sub res s -> delivered (shared s) = D -> (forall k, StronglySorted Z.lt (tags_on k D)) ->
  forall k, StronglySorted Z.lt (tags_on k (received cfg D sub res)).
Proof.
  unfold broker_order, received. intros Ho <- Hs k. destruct res as [d|]; [|done].
  destruct (channel_key_for cfg sub) as [key|]; [|done]. destruct Ho as [_ Ho]. rewrite tags_on_app.
  unfold tags_on at 2. rewrite filter_cons. cbn [fst]. case_decide as E; [|cbn; by rewrite app_nil_r].
  subst k. apply sorted_snoc; [done|]. apply Forall_forall. intros t (x & -> & Hx)%list_elem_of_fmap.
  apply list_elem_of_filter in Hx as [Hk Hx]. rewrite Forall_forall in Ho. by apply Ho.
Qed.

Lemma step_incoming sub res s :
  broker_order sub res (st s) -> sys_inv s -> sys_inv (on_st (handle_incoming cfg sub res) s).
Proof.
  intros Ho [H1 H2 H3 H4].
  assert (forall d key, res = Ok d -> channel_key_for cfg sub = Some key -> fresh_tag key (td_delivery_tag d) (st s)) as Hf.
  { intros d key -> Hk. unfold broker_order in Ho. by rewrite Hk in Ho. }
  pose proof (inv_handle_incoming cfg _ _ _ _ _ Hf H1) as Hi. pose proof (inv_delivered _ _ _ Hi) as Ed.
  split; cbn [on_st st popped control]; rewrite ?Ed; try done.
  - by apply (sorted_received _ _ _ (st s)).
  - by eapply fifo_handle_incoming.
Qed.

Lemma step_recv s it s' : buffer_recv s = Some (it, s') -> sys_inv s -> sys_inv s'.
Proof.
  unfold buffer_recv. destruct (flume (intake (st s))) as [|x rest] eqn:Ef; [done|]. intros [= -> <-] Hs.
  destruct it as [n|e]; apply (sys_inv_step s); try done; cbn [st popped control].
  - apply inv_pop; [apply inv_set_flume; [rewrite Ef; by right|apply Hs]|].
    apply (i_flume _ _ _ _ _ _ _ _ _ _ _ _ _ (y_inv s Hs)). rewrite Ef. by left.
  - eapply commands_ok_mono; [|apply Hs]. set_solver.
  - eapply fifo_pop; [exact Ef|apply Hs].
  - apply inv_set_flume; [rewrite Ef; by right|apply Hs].
  - apply Hs.
  - eapply fifo_pop_error; [exact Ef|apply Hs].
Qed.

Lemma step_settle_token n settlement latency s :
  n ∈ popped s -> sys_inv s -> sys_inv (try_settle_token n settlement latency s).2.
Proof.
  intros Hp Hs. unfold try_settle_token. destruct (tokens (shared (st s)) !! n); [|done].
  destruct (try_settle _ _ _) as [[r state] enq]. apply frame_step; [done|..].
  - by apply inv_store_state, Hs.
  - by apply frame_store_state.
  - destruct enq; [|apply Hs]. apply Forall_app. split; [apply Hs|]. by constructor.
Qed.

Lemma set_step_inv l s s' : sys_inv s -> sys_step l s = Some s' -> sys_inv s'.
Proof.
  intros Hs. pose proof Hs as [Hi Hc _ Hf].
  destruct l as [n settlement latency|n latency| |max| | |sub res| | | |i a|i a|i|events]; cbn [sys_step].
  - case_decide as Hp; [|done]. intros [= <-]. by apply step_settle_token.
  - intros [= <-]. unfold try_settle_through. destruct (control_send s); try done.
    apply frame_step; [done..|]. apply Forall_app. split; [done|]. by constructor.
  - intros [= <-]. by apply try_next_keeps; [exact step_recv|intros e x []; by split|].
  - intros [= <-]. by apply try_next_batch_keeps; [exact step_recv|intros e x []; by split|].
  - intros ([r x] & Hn & ->)%fmap_Some. eapply next_keeps; [exact step_recv|exact Hn|done].
  - destruct (control s) as [|c rest]; [done|]. destruct (open s) eqn:Eo; [|done]. intros [= <-].
    apply Forall_cons in Hc as [Hc Hrest]. rewrite <- Eo.
    apply frame_step; [done|by apply inv_handle_control|by apply frame_handle_control|done].
  - destruct (open s && _ && _)%bool eqn:Eg; [|done]. zbool. intros [= <-]. apply step_incoming; [|done].
    by eapply bool_decide_eq_true_1.
  - destruct (open s && _)%bool; [|done]. intros [= <-].
    apply frame_step; [done|by apply inv_flush_acked|by apply frame_flush_acked|done].
  - destruct (open s); [|done]. intros [= <-]. apply (sys_inv_step s); try done; cbn [on_st st popped control].
    + by apply inv_dispatch.
    + by eapply fifo_dispatch.
  - destruct (open s); [|done]. intros [= <-]. apply frame_step; [done| | |done]; by destruct Hi.
  - destruct (open s); [|done]. intros (x & Hx & ->)%fmap_Some. apply (sys_inv_step s); try done.
    + by eapply inv_settlement_done.
    + by eapply fifo_settlement_done.
  - destruct (open s); [|done]. intros (x & Hx & ->)%fmap_Some. apply (sys_inv_step s); try done.
    + by eapply inv_settle_through_done.
    + by eapply fifo_settle_through_done.
  - intros (x & Hx & ->)%fmap_Some. apply frame_step; [done|by eapply inv_spawned_done| |done].
    unfold spawned_done in Hx. destruct (take_nth _ _) as [[op rest]|]; [|done]. by injection Hx as <-.
  - destruct (open s); [|done]. intros [= <-]. apply (sys_inv_step s); [done|by apply inv_close_set|constructor|].
    eapply frame_fifo; [apply frame_close_set|done].
Qed.

Lemma set_reach_inv s : reach s -> sys_inv s.
Proof.
  induction 1 as [foreign|l s s' _ IH Hs]; [|by eapply set_step_inv].
  split; [apply inv_actor_new|constructor|intros k; constructor|apply fifo_actor_new].
Qed.

(** ** The buffers stay within their capacities *)

Lemma capacities : capacities_ok cfg.
Proof. unfold capacities_ok. cbn. unfold COMMAND_CAPACITY. lia. Qed.

Lemma total_prefetch_flume : 0 <= c_flume_capacity cfg.
Proof. cbn. lia. Qed.

Lemma bounded_actor_new foreign :
  Forall (fun s => 0 <= s_max_buffered_bytes s) subs -> bounded cfg (actor_new subs foreign).
Proof.
  intros Hm. split; [|cbn; unfold ERROR_CHANNEL_CAPACITY; lia]. split; cbn; try lia.
  - assert (forall (m b : gmap string Z), (forall sub v, m !! sub = Some v -> 0 <= v) ->
      (forall sub v, b !! sub = Some v -> v = 0) -> forall sub max v,
      foldl (fun m s => <[s_id s := s_max_buffered_bytes s]> m) m subs !! sub = Some max ->
      foldl (fun m s => <[s_id s := 0]> m) b subs !! sub = Some v -> 0 <= v <= max) as H.
    { induction subs as [|x l IH]; intros m b H1 H2; cbn [foldl].
      - intros sub max v Hl Hv. apply H2 in Hv as ->. split; [lia|by eapply H1].
      - apply Forall_cons in Hm as [Hx Hm]. apply IH; [done|..].
        + intros sub v [[_ <-]|[_ Hv]]%lookup_insert_Some; [done|by eapply H1].
        + intros sub v [[_ <-]|[_ Hv]]%lookup_insert_Some; [done|by eapply H2]. }
    apply (H ∅ ∅); intros ? ?; by rewrite lookup_empty.
  - unfold COMMAND_CAPACITY. lia.
  - intros key ring. by rewrite lookup_empty.
Qed.

Lemma recv_bounded s it s' : buffer_recv s = Some (it, s') -> bounded cfg (st s) -> bounded cfg (st s').
Proof.
  unfold buffer_recv. destruct (flume (intake (st s))) as [|x rest] eqn:Ef; [done|]. intros [= -> <-].
  intros [[H1 H2 H3 H4 H5] H6]. rewrite Ef in H3. split; [|done]. split; try done. cbn in *. lia.
Qed.

Lemma step_bounded l s s' : bounded cfg (st s) -> sys_step l s = Some s' -> bounded cfg (st s').
Proof.
  intros Hb. pose proof capacities as Hc.
  assert (forall x, frame (st s) x -> bounded cfg x) as Hframe by (intros x Hx; by eapply frame_bounded).
  destruct l as [n settlement latency|n latency| |max| | |sub res| | | |i a|i a|i|events]; cbn [sys_step].
  - case_decide; [|done]. intros [= <-]. unfold try_settle_token. destruct (_ !! n); [|done].
    destruct (try_settle _ _ _) as [[r state] enq]. by apply Hframe, frame_store_state.
  - intros [= <-]. unfold try_settle_through. by destruct (control_send s).
  - intros [= <-]. by apply (try_next_keeps (fun s => bounded cfg (st s))); [exact recv_bounded|..].
  - intros [= <-]. by apply (try_next_batch_keeps (fun s => bounded cfg (st s))); [exact recv_bounded|..].
  - intros ([r x] & Hn & ->)%fmap_Some. by eapply (next_keeps (fun s => bounded cfg (st s))); [exact recv_bounded|exact Hn|].
  - destruct (control s) as [|c rest]; [done|]. destruct (open s); [|done]. intros [= <-].
    by apply Hframe, frame_handle_control.
  - destruct (open s && _ && _)%bool eqn:Eg; [|done]. zbool. intros [= <-]. by apply bounded_handle_incoming.
  - destruct (open s && _)%bool; [|done]. intros [= <-]. by apply Hframe, frame_flush_acked.
  - destruct (open s); [|done]. intros [= <-]. by apply bounded_dispatch.
  - destruct (open s); [|done]. by intros [= <-].
  - destruct (open s); [|done]. intros (x & Hx & ->)%fmap_Some. by eapply bounded_settlement_done.
  - destruct (open s); [|done]. intros (x & Hx & ->)%fmap_Some. by eapply bounded_settle_through_done.
  - intros (x & Hx & ->)%fmap_Some. unfold spawned_done in Hx. destruct (take_nth _ _) as [[op rest]|]; [|done].
    by injection Hx as <-.
  - destruct (open s); [|done]. intros [= <-]. apply Hframe, frame_close_set.
Qed.

(** ** Settlements run one at a time per channel *)

Lemma recv_serial s it s' : buffer_recv s = Some (it, s') -> serial cfg (st s) -> serial cfg (st s').
Proof.
  unfold buffer_recv. destruct (flume (intake (st s))) as [|x rest]; [done|]. intros [= -> <-].
  apply quiet_serial. by apply quiet_same.
Qed.

Lemma step_serial l s s' : sys_inv s -> serial cfg (st s) -> sys_step l s = Some s' -> serial cfg (st s').
Proof.
  intros [Hi Hc _ _] H. assert (forall x, quiet (st s) x -> serial cfg x) as Hq by (intros x Hx; by eapply quiet_serial).
  destruct l as [n settlement latency|n latency| |max| | |sub res| | | |i a|i a|i|events]; cbn [sys_step].
  - case_decide; [|done]. intros [= <-]. unfold try_settle_token. destruct (_ !! n); [|done].
    destruct (try_settle _ _ _) as [[r state] enq]. by apply Hq, quiet_upd_token.
  - intros [= <-]. unfold try_settle_through. by destruct (control_send s).
  - intros [= <-]. by apply (try_next_keeps (fun s => serial cfg (st s))); [exact recv_serial|..].
  - intros [= <-]. by apply (try_next_batch_keeps (fun s => serial cfg (st s))); [exact recv_serial|..].
  - intros ([r x] & Hn & ->)%fmap_Some. by eapply (next_keeps (fun s => serial cfg (st s))); [exact recv_serial|exact Hn|].
  - destruct (control s) as [|c rest]; [done|]. destruct (open s); [|done]. intros [= <-].
    apply Forall_cons in Hc as [Hc _]. by eapply serial_handle_control.
  - destruct (open s && _ && _)%bool; [|done]. intros [= <-]. apply Hq, quiet_handle_incoming.
  - destruct (open s && _)%bool; [|done]. intros [= <-]. by apply serial_flush_acked.
  - destruct (open s); [|done]. intros [= <-]. apply Hq, quiet_dispatch.
  - destruct (open s); [|done]. intros [= <-]. by apply Hq, quiet_same.
  - destruct (open s); [|done]. intros (x & Hx & ->)%fmap_Some.
    by destruct (serial_settlement_done cfg _ _ _ _ _ Hx H).
  - destruct (open s); [|done]. intros (x & Hx & ->)%fmap_Some.
    by destruct (serial_through_done cfg _ _ _ _ Hx H).
  - intros (x & Hx & ->)%fmap_Some. by eapply serial_spawned_done.
  - destruct (open s); [|done]. intros [= <-]. by eapply serial_close_set.
Qed.

Lemma reach_serial s : reach s -> serial cfg (st s).
Proof.
  induction 1 as [foreign|l s s' Hr IH Hs]; [apply serial_actor_new|]. eapply step_serial; [|done..]. by apply set_reach_inv.
Qed.

(** An outstanding settlement has a pending future on its channel. *)
Lemma outstanding_future s k :
  serial cfg (st s) -> (0 < outstanding k (books (st s)))%nat ->
  (exists i p, pending_settlements (books (st s)) !! i = Some p /\ ps_key p = k) \/
  (exists i p, pending_settle_throughs (books (st s)) !! i = Some p /\ pt_key p = k).
Proof.
  intros H Ho. assert (0 < futures k (books (st s)))%nat as Hf.
  { pose proof (s_one _ _ _ _ H k) as H1. pose proof (s_busy _ _ _ _ H k) as H2. unfold outstanding in Ho.
    destruct (decide _) as [Hin|Hin] in H1; [lia|]. destruct Hin. apply H2; [done|]. lia. }
  unfold futures in Hf.
  destruct (filter (fun p => ps_key p = k) (pending_settlements (books (st s)))) as [|p l] eqn:E1.
  - destruct (filter (fun p => pt_key p = k) (pending_settle_throughs (books (st s)))) as [|p l] eqn:E2; [simpl in Hf; lia|].
    right. assert (p ∈ p :: l) as Hp by by left. rewrite <- E2 in Hp. apply list_elem_of_filter in Hp as [Hk Hp].
    apply list_elem_of_lookup in Hp as (i & Hi). eauto.
  - left. assert (p ∈ p :: l) as Hp by by left. rewrite <- E1 in Hp. apply list_elem_of_filter in Hp as [Hk Hp].
    apply list_elem_of_lookup in Hp as (i & Hi). eauto.
Qed.

(** One completion of channel [k]. *)
Lemma completion_step s k a :
  serial cfg (st s) -> open s = true -> (0 < outstanding k (books (st s)))%nat ->
  exists l s', sys_step l s = Some s' /\ ((exists i, l = LSettled i a) \/ (exists i, l = LThrough i a)) /\
    open s' = true /\ outstanding k (books (st s)) = S (outstanding k (books (st s'))).
Proof.
  intros H Ho Hk. destruct (outstanding_future s k H Hk) as [(i & p & Hi & Ek)|(i & p & Hi & Ek)].
  - destruct (s_settling _ _ _ _ H p) as [(tag & t & r & Ht & _) _]; [by eapply list_elem_of_lookup_2|].
    destruct (settlement_done sha256 cfg i a (st s)) as [x|] eqn:E.
    + exists (LSettled i a), (mkSys x (control s) (popped s) true (pending_error s)). cbn [sys_step]. rewrite Ho, E.
      split; [done|]. split; [eauto|]. split; [done|].
      destruct (serial_settlement_done cfg _ _ _ _ _ E H) as (_ & p' & Hp' & Hout).
      rewrite Hi in Hp'. injection Hp' as <-. rewrite Hout, decide_True by done. cbn [st]. lia.
    + exfalso. unfold settlement_done, take_nth in E. rewrite Hi, Ht in E. by destruct (execute_settlement _ _ _ _ _ _) as [[]].
  - destruct (s_acking _ _ _ _ H p) as (tag & t & r & Ht & _); [by eapply list_elem_of_lookup_2|].
    destruct (settle_through_done cfg i a (st s)) as [x|] eqn:E.
    + exists (LThrough i a), (mkSys x (control s) (popped s) true (pending_error s)). cbn [sys_step]. rewrite Ho, E.
      split; [done|]. split; [eauto|]. split; [done|].
      destruct (serial_through_done cfg _ _ _ _ E H) as (_ & p' & Hp' & Hout).
      rewrite Hi in Hp'. injection Hp' as <-. rewrite Hout, decide_True by done. cbn [st]. lia.
    + exfalso. unfold settle_through_done, take_nth in E. rewrite Hi, Ht in E. by destruct (execute_settle_through _ _ _ _ _).
Qed.

(** ** Theorems *)

(** C2. A channel's deliveries reach the embedder in the order the broker
    sent them, each at most once, and none is lost: what the embedder received,
    what waits in the hand-off flume, in the buffer of the subscription and for
    the byte budget are, in this order, strictly increasing tags among those
    received, and a delivery that is in none of them is finished. *)
Theorem deliveries_in_order s sub k :
  reach s -> channel_key_for cfg sub = Some k ->
  let lane := handed_tags k (shared (st s)) ++
    (td_delivery_tag <$> default [] (buffers (intake (st s)) !! sub)) ++
    waiting sub (pending_incoming (intake (st s))) in
  handed (shared (st s)) = popped s ++ oks (flume (intake (st s))) /\
  lane `sublist_of` tags_on k (delivered (shared (st s))) /\
  StronglySorted Z.lt (tags_on k (delivered (shared (st s)))) /\
  forall tag, (k, tag) ∈ delivered (shared (st s)) -> (k, tag) ∈ finished (shared (st s)) \/ tag ∈ lane.
Proof.
  intros [_ _ Hs [H1 H2 H3 H4 H5]]%set_reach_inv Hk. cbv zeta.
  split; [done|]. split; [by apply H2|]. split; [apply Hs|]. intros tag. by apply H3.
Qed.

(** The actor's counters and queues are bounded: the byte counter of a
    subscription (which admission compares with the budget; overlapping
    settle-throughs can release it twice) stays within [max_buffered_bytes], and
    the deliveries waiting for the budget, the hand-off flume, the retained source
    errors, the settlement errors and the rings of early-acknowledged tags within
    their capacities. *)
Theorem memory_bounded s :
  Forall (fun x => 0 <= s_max_buffered_bytes x) subs -> reach s -> bounded cfg (st s).
Proof.
  intros Hm. induction 1 as [foreign|l s s' _ IH Hs]; [by apply bounded_actor_new|by eapply step_bounded].
Qed.

(** The dispatch loop, which the source writes as [loop], stops: any fuel
    above the retained errors and buffered deliveries gives the result the
    model computes, and it is where an iteration of the loop breaks. *)
Theorem dispatch_stops fuel s :
  (stock (drain_pending cfg s) < fuel)%nat ->
  dispatch_loop cfg fuel (drain_pending cfg s) = dispatch cfg s /\
  exists s1, dispatch_step cfg s1 = (false, dispatch cfg s).
Proof.
  intros Hf. split; [by apply dispatch_loop_converges|]. apply dispatch_loop_breaks. lia.
Qed.

(** The settlements of a channel run one at a time: at most one of its
    futures is pending, and settlements wait in its queues only behind a
    pending one. *)
Theorem settlements_serialized s k :
  reach s ->
  (futures k (books (st s)) <= 1)%nat /\
  ((0 < waiting_on k (books (st s)))%nat -> futures k (books (st s)) = 1%nat).
Proof.
  intros H%reach_serial. pose proof (s_one _ _ _ _ H k) as H1. pose proof (s_busy _ _ _ _ H k) as H2.
  destruct (decide _) as [Hin|Hin] in H1; rewrite H1; [lia|]. split; [lia|]. intros Hw. destruct Hin. by apply H2.
Qed.

(** C25. No settlement is stuck: whatever the transport and the publisher
    answer, as many completions as settlements are outstanding on a channel
    are possible, and after them nothing is outstanding there. *)
Theorem settlements_drain answers : forall s k,
  reach s -> open s = true -> length answers = outstanding k (books (st s)) ->
  exists ls s', run ls s = Some s' /\ outstanding k (books (st s')) = O /\
    Forall2 (fun l a => (exists i, l = LSettled i a) \/ (exists i, l = LThrough i a)) ls answers.
Proof.
  induction answers as [|a answers IH]; intros s k Hr Ho Hlen; [by exists [], s|].
  destruct (completion_step s k a (reach_serial s Hr) Ho) as (l & s1 & Hs & Hl & Ho1 & Hout); [simpl in Hlen; lia|].
  destruct (IH s1 k) as (ls & s' & Hrun & Hz & Hf); [by eapply reach_step|done|simpl in Hlen; lia|].
  exists (l :: ls), s'. split; [|split; [done|by constructor]]. cbn [run]. by rewrite Hs.
Qed.

(** What a call took from the flume went to the caller, errors at least to the
    stash. *)
Definition hands_over (s : Sys) (res : result (list nat) ConsumerError) (s' : Sys) : Prop :=
  exists taken, flume (intake (st s)) = taken ++ flume (intake (st s')) /\
    oks taken = match res with Ok l => l | Err _ => [] end /\ popped s' = popped s ++ oks taken /\
    forall e, Err e ∈ taken -> res = Err e \/ pending_error s' = Some e.

Lemma batch_loop_spec rounds : forall batch s s0 taken,
  flume (intake (st s0)) = taken ++ flume (intake (st s)) -> oks taken = batch -> popped s = popped s0 ++ batch ->
  (forall e, Err e ∉ taken) -> let '(res, s') := batch_loop rounds batch s in
  hands_over s0 res s' /\ match res with Ok l => (length l <= length batch + rounds)%nat | Err _ => True end.
Proof.
  assert (forall batch s s0 taken, flume (intake (st s0)) = taken ++ flume (intake (st s)) -> oks taken = batch ->
    popped s = popped s0 ++ batch -> (forall e, Err e ∉ taken) ->
    let '(res, s') := (if bool_decide (batch = []) then stashed [] s else (Ok batch, s)) in
    hands_over s0 res s' /\ match res with Ok l => (length l <= length batch)%nat | Err _ => True end) as Hend.
  { intros batch s s0 taken H1 H2 H3 H4. case_bool_decide as Eb.
    - unfold stashed. destruct (pending_error s); (split; [|first [done|simpl; lia]]); exists taken; cbn [stash popped st];
        (split; [done|split; [congruence|split; [congruence|intros ? Hin; by destruct (H4 _ Hin)]]]).
    - split; [|done]. exists taken. split; [done|]. split; [done|]. split; [congruence|].
      intros e Hin. by destruct (H4 _ Hin). }
  induction rounds as [|rounds IH]; intros batch s s0 taken H1 H2 H3 H4; cbn [batch_loop].
  { specialize (Hend batch s s0 taken H1 H2 H3 H4). destruct (if bool_decide _ then _ else _) as [[l|e] s'];
      (split; [apply Hend|]); [destruct Hend; lia|done]. }
  unfold buffer_recv. destruct (flume (intake (st s))) as [|[n|e] rest] eqn:Ef.
  - rewrite <- Ef in H1. specialize (Hend batch s s0 taken H1 H2 H3 H4).
    destruct (if bool_decide _ then _ else _) as [[l|e] s']; (split; [apply Hend|]); [destruct Hend; lia|done].
  - assert (forall e, Err e ∉ taken ++ [Ok n]) as H4'.
    { intros e [Hin|Hin]%elem_of_app; [by destruct (H4 e)|by apply list_elem_of_singleton in Hin]. }
    specialize (IH (batch ++ [n]) (mkSys (on_intake (set_flume rest) (st s)) (control s) (popped s ++ [n])
      (open s) (pending_error s)) s0 (taken ++ [Ok n])).
    assert (flume (intake (st s0)) = (taken ++ [Ok n]) ++ rest) as P1 by by rewrite H1, <- app_assoc.
    assert (oks (taken ++ [Ok n]) = batch ++ [n]) as P2 by (unfold oks in *; by rewrite omap_app, H2).
    assert (popped s ++ [n] = popped s0 ++ batch ++ [n]) as P3 by by rewrite H3, <- app_assoc.
    specialize (IH P1 P2 P3 H4').
    destruct (batch_loop rounds _ _) as [[l|e] s']; destruct IH as [IH1 IH2]; (split; [exact IH1|]); [|done].
    rewrite length_app in IH2. simpl in IH2. lia.
  - assert (oks (taken ++ [Err e]) = batch) as Hoks by (unfold oks in *; rewrite omap_app, H2; cbn; by rewrite app_nil_r).
    case_bool_decide as Eb; (split; [|lia || done]); exists (taken ++ [Err e]); cbn [st popped flume intake on_intake set_flume stash pending_error];
      (split; [by rewrite H1, <- app_assoc|split; [congruence|split; [congruence|]]]);
      intros e' [Hin|Hin]%elem_of_app; try (by destruct (H4 e')); apply list_elem_of_singleton in Hin as [= ->]; auto.
Qed.

(** [try_next_batch] returns exactly the deliveries it takes from the
    hand-off flume, in order and within the clamped maximum, and an error it
    meets is returned or stashed for a later call: nothing it takes is
    dropped. *)
Theorem batch_hands_over max s :
  let '(res, s') := try_next_batch max s in
  hands_over s res s' /\
    match res with Ok l => Z.of_nat (length l) <= Prefetch.clamp max 1 256 | Err _ => True end.
Proof.
  unfold try_next_batch. destruct (open s); simpl.
  2: { split; [|done]. exists []. split; [done|]. split; [done|]. split; [by rewrite app_nil_r|].
       by intros e ?%elem_of_nil. }
  pose proof (batch_loop_spec (Z.to_nat (Prefetch.clamp max 1 256)) [] s s []) as H.
  destruct (batch_loop _ _ _) as [res s']. destruct H as [H1 H2]; try done.
  - by rewrite app_nil_r.
  - by intros e ?%elem_of_nil.
  - split; [done|]. destruct res; [|done]. simpl in H2. unfold Prefetch.clamp in *.
    destruct (max <? 1) eqn:E1, (256 <? max) eqn:E2; zbool; lia.
Qed.

End System.

(** ** Witnesses *)

Definition jobs_runtime : RuntimeSubscription :=
  mkRuntime 1 7 3 (Some 5000000000) (Some orders) (Some PluginStrategy) false false (Some 3) true "jobs" (Fixed 4).

Definition jobs : list Subscription :=
  [mkSubscription "jobs" jobs_runtime (Scheduler.mkPolicy 1) 1000].

Definition jobs_key : ChannelKey := ("jobs", 3, 7).

Definition job (tag : Z) : TransportDelivery :=
  mkTransportDelivery tag "shop" "orders" false None None [] "payload".

Definition wire_ok : Answers := mkAnswers (Ok tt) (Ok (Confirmed "m")) 0.

Definition start : Sys := mkSys (actor_new jobs []) [] [] true None.

(** Three deliveries: one handed out, two in the flume. *)
Definition three_in : list Label :=
  [LIncoming "jobs" (Ok (job 1)); LIncoming "jobs" (Ok (job 2)); LIncoming "jobs" (Ok (job 5)); LTryNext].

Lemma deliveries_in_order_witness :
  exists s, run toy_digest jobs three_in start = Some s /\
    handed (shared (st s)) = popped s ++ oks (flume (intake (st s))) /\
    handed_tags jobs_key (shared (st s)) = [1; 2; 5].
Proof.
  destruct (run toy_digest jobs three_in start) as [s|] eqn:E; [|vm_compute in E; discriminate E].
  exists s. split; [reflexivity|].
  destruct (deliveries_in_order toy_digest jobs s "jobs" jobs_key) as (H & _).
  - eapply set_reach_run; [apply (reach_new toy_digest jobs [])|exact E].
  - vm_compute. reflexivity.
  - split; [exact H|]. vm_compute in E. injection E as <-. vm_compute. reflexivity.
Defined.

Lemma memory_bounded_witness :
  exists s, run toy_digest jobs three_in start = Some s /\ bounded (cfg jobs) (st s) /\
    buffered_bytes (intake (st s)) !! "jobs" = Some 21.
Proof.
  destruct (run toy_digest jobs three_in start) as [s|] eqn:E; [|vm_compute in E; discriminate E].
  exists s. split; [reflexivity|]. split.
  - apply (memory_bounded toy_digest jobs s); [repeat constructor; simpl; lia|].
    eapply set_reach_run; [apply (reach_new toy_digest jobs [])|exact E].
  - vm_compute in E. injection E as <-. vm_compute. reflexivity.
Defined.

Lemma dispatch_stops_witness :
  dispatch_loop (cfg jobs) 9 (drain_pending (cfg jobs) (st start)) = dispatch (cfg jobs) (st start).
Proof. apply (dispatch_stops jobs 9 (st start)). vm_compute. lia. Defined.

(** Two rejects on the same channel: one runs, one waits. *)
Definition two_rejects : list Label :=
  [LIncoming "jobs" (Ok (job 1)); LIncoming "jobs" (Ok (job 2)); LTryNext; LTryNext;
   LTrySettle 0 (SReject true) 0; LTrySettle 1 (SReject true) 0; LControl; LControl].

Lemma settlements_serialized_witness :
  exists s, run toy_digest jobs two_rejects start = Some s /\
    waiting_on jobs_key (books (st s)) = 1%nat /\ futures jobs_key (books (st s)) = 1%nat.
Proof.
  destruct (run toy_digest jobs two_rejects start) as [s|] eqn:E; [|vm_compute in E; discriminate E].
  exists s. split; [reflexivity|]. assert (waiting_on jobs_key (books (st s)) = 1%nat) as Hw.
  { vm_compute in E. injection E as <-. vm_compute. reflexivity. }
  split; [exact Hw|]. destruct (settlements_serialized toy_digest jobs s jobs_key) as [_ H].
  - eapply set_reach_run; [apply (reach_new toy_digest jobs [])|exact E].
  - apply H. lia.
Defined.

Lemma settlements_drain_witness :
  exists s ls s', run toy_digest jobs two_rejects start = Some s /\
    run toy_digest jobs ls s = Some s' /\ outstanding jobs_key (books (st s')) = O.
Proof.
  destruct (run toy_digest jobs two_rejects start) as [s|] eqn:E; [|vm_compute in E; discriminate E].
  destruct (settlements_drain toy_digest jobs [wire_ok; wire_ok] s jobs_key) as (ls & s' & H1 & H2 & _).
  - eapply set_reach_run; [apply (reach_new toy_digest jobs [])|exact E].
  - vm_compute in E. injection E as <-. vm_compute. reflexivity.
  - vm_compute in E. injection E as <-. vm_compute. reflexivity.
  - exists s, ls, s'. auto.
Defined.

End ConsumerSystem.
