(* ===== verification/ConsumerCover.v ===== *)
(** * What a cumulative acknowledgement settles

    A cumulative acknowledgement settles every delivery of its channel up to its tag.
    [ConsumerInv] shows that it reaches only deliveries that the embedder asked to
    acknowledge and deliveries that have left the ledger; here it is shown how a delivery
    can have left the ledger: an operation of its own went out or is about to, or it
    never needed one. Every operation of [ConsumerActor] keeps this ([onward]), and the
    theorem speaks of the state before the acknowledgement. *)

From S2P Require Import Prelude Transport Publication Scheduler Attempts DelayTopology DelayRouting.
From S2P Require Import Prefetch Delivery ConsumerActor ConsumerInv ConsumerBounds ConsumerFifo.
From S2P Require Import ConsumerSerial ConsumerSystem.
Import Transport Publication DelayTopology Delivery ConsumerActor ConsumerInv ConsumerBounds ConsumerFifo.
Import ConsumerSerial ConsumerSystem.
Local Open Scope Z_scope.

Module ConsumerCover.

(** An operation on the delivery alone is on the wire. *)
Definition own_op (k : ChannelKey) (tag : Z) (ops : list WireOp) : Prop :=
  WAck k tag false ∈ ops \/ exists requeue, WReject k tag requeue ∈ ops.

(** A task that settles the delivery alone is waiting to run. *)
Definition own_task (k : ChannelKey) (tag : Z) (tasks : list Spawned) : Prop :=
  SpawnAck k tag ∈ tasks \/ SpawnReject k tag ∈ tasks.

Section Cover.
Context (cfg : Config).

(** The broker does not wait for acknowledgements on the channel. *)
Definition no_ack_channel (k : ChannelKey) : Prop :=
  exists r, c_subscriptions cfg !! k.1.1 = Some r /\ rt_no_ack r = true.

(** The embedder asked to acknowledge the delivery. *)
Definition requested (s : State) (k : ChannelKey) (tag : Z) : Prop :=
  exists n, n ∈ ack_requests (shared s) /\ named cfg (tokens (shared s)) n k tag.

(** The delivery is settled on its own, or needs no settlement. *)
Definition settled_alone (s : State) (k : ChannelKey) (tag : Z) : Prop :=
  own_op k tag (wire (shared s)) \/ own_task k tag (spawned (shared s)) \/ no_ack_channel k.

Definition disposed (s : State) (k : ChannelKey) (tag : Z) : Prop := requested s k tag \/ settled_alone s k tag.

(** The logs grow and spawned tasks reach the wire. *)
Record grows (s s' : State) : Prop := {
  gr_tokens : tok_ext (tokens (shared s)) (tokens (shared s'));
  gr_requests : ack_requests (shared s) ⊆ ack_requests (shared s');
  gr_wire : wire (shared s) ⊆ wire (shared s');
  gr_spawned : forall op, op ∈ spawned (shared s) -> op ∈ spawned (shared s') \/ spawned_op op ∈ wire (shared s');
  gr_finished : finished (shared s) ⊆ finished (shared s')
}.

(** What leaves the ledger is disposed of, [but] for the deliveries that the caller
    vouches for. *)
Definition onward_but (but : ChannelKey * Z -> Prop) (s s' : State) : Prop :=
  grows s s' /\
  forall k tag, (k, tag) ∈ finished (shared s') -> (k, tag) ∈ finished (shared s) \/ disposed s' k tag \/ but (k, tag).

Definition onward : State -> State -> Prop := onward_but (fun _ => False).

Lemma requested_mono s s' k tag :
  tok_ext (tokens (shared s)) (tokens (shared s')) -> ack_requests (shared s) ⊆ ack_requests (shared s') ->
  requested s k tag -> requested s' k tag.
Proof. intros Ht Hr (n & Hn & Hm). exists n. split; [by apply Hr|by eapply named_ext]. Qed.

Lemma grows_disposed s s' k tag : grows s s' -> disposed s k tag -> disposed s' k tag.
Proof.
  intros [H1 H2 H3 H4 _] [Hr|[Ho|[Ht|Hn]]]; [left; by eapply requested_mono|right..].
  - left. destruct Ho as [Ho|(q & Ho)]; [left; by apply H3|right; exists q; by apply H3].
  - destruct Ht as [Ht|Ht]; apply H4 in Ht as [Ht|Ht]; [right; left; by left|by left; left|right; left; by right|].
    left. right. by exists false.
  - by right; right.
Qed.

#[global] Instance grows_po : PreOrder grows.
Proof.
  split.
  - intros s. split; auto. apply tok_ext_refl.
  - intros s1 s2 s3 [A1 A2 A3 A4 A5] [B1 B2 B3 B4 B5]. split.
    + intros n t Ht. destruct (A1 n t Ht) as (t' & Ht' & Hi). destruct (B1 n t' Ht') as (t'' & Ht'' & Hi').
      exists t''. split; [done|congruence].
    + set_solver.
    + set_solver.
    + intros op [Hop|Hop]%A4; [by apply B4|right; by apply B3].
    + set_solver.
Qed.

#[global] Instance onward_but_po but : PreOrder (onward_but but).
Proof.
  split.
  - intros s. split; [reflexivity|by left].
  - intros s1 s2 s3 [A1 A2] [B1 B2]. split; [by etrans|].
    intros k tag [Hf|[Hd|Hb]]%B2; [|by right; left|by right; right].
    destruct (A2 k tag Hf) as [?|[Hd|Hb]]; [by left|right; left; by eapply grows_disposed|by right; right].
Qed.

#[global] Instance onward_po : PreOrder onward := onward_but_po _.

Lemma onward_weaken but s s' : onward s s' -> onward_but but s s'.
Proof. intros [H1 H2]. split; [done|]. intros k tag [?|[?|[]]]%H2; auto. Qed.

Lemma onward_close but s s' :
  (forall k tag, but (k, tag) -> disposed s' k tag) -> onward_but but s s' -> onward s s'.
Proof. intros Hb [H1 H2]. split; [done|]. intros k tag [?|[?|?%Hb]]%H2; auto. Qed.

Lemma onward_disposed s s' k tag : onward s s' -> disposed s k tag -> disposed s' k tag.
Proof. intros [H _]. by apply grows_disposed. Qed.

(** What only touches tokens, ledgers, buffers and settlement books. *)
Record hush (s s' : State) : Prop := {
  hu_tokens : tok_ext (tokens (shared s)) (tokens (shared s'));
  hu_requests : ack_requests (shared s) ⊆ ack_requests (shared s');
  hu_wire : wire (shared s') = wire (shared s);
  hu_spawned : spawned (shared s') = spawned (shared s);
  hu_finished : finished (shared s') = finished (shared s);
  hu_delivered : delivered (shared s') = delivered (shared s);
  hu_published : published (shared s') = published (shared s)
}.

#[global] Instance hush_po : PreOrder hush.
Proof.
  split.
  - intros s. split; auto. apply tok_ext_refl.
  - intros s1 s2 s3 [A1 A2 A3 A4 A5 A6 A7] [B1 B2 B3 B4 B5 B6 B7]. split; try congruence; [|set_solver].
    intros n t Ht. destruct (A1 n t Ht) as (t' & Ht' & Hi). destruct (B1 n t' Ht') as (t'' & Ht'' & Hi').
    exists t''. split; [done|congruence].
Qed.

Lemma hush_onward s s' : hush s s' -> onward s s'.
Proof. intros [H1 H2 H3 H4 H5 H6 _]. split; [split; rewrite ?H3, ?H4, ?H5; auto|]. rewrite H5. auto. Qed.

Lemma hush_same s s' :
  tokens (shared s') = tokens (shared s) -> ack_requests (shared s') = ack_requests (shared s) ->
  wire (shared s') = wire (shared s) -> spawned (shared s') = spawned (shared s) ->
  finished (shared s') = finished (shared s) -> delivered (shared s') = delivered (shared s) ->
  published (shared s') = published (shared s) -> hush s s'.
Proof. intros E1 E2 E3 E4 E5 E6 E7. split; try done; [rewrite E1; apply tok_ext_refl|by rewrite E2]. Qed.

Lemma hush_upd_token n f s : (forall t, identity (f t) = identity t) -> hush s (upd_token n f s).
Proof. intros Hf. split; try done. by apply tok_ext_alter. Qed.

Lemma hush_store_state n st s : hush s (store_state n st s).
Proof. by apply hush_upd_token. Qed.

Lemma hush_store_settling n b s : hush s (store_settling n b s).
Proof. by apply hush_upd_token. Qed.

Lemma hush_fail n kind m s : hush s (fail_token n kind m s).
Proof. unfold fail_token. destruct (_ !! n); by apply hush_same. Qed.

Lemma hush_foldl {A} (f : State -> A -> State) (l : list A) :
  (forall s x, hush s (f s x)) -> forall s, hush s (foldl f s l).
Proof. intros Hf. induction l as [|x l IH]; intros s; [reflexivity|]. etrans; [apply Hf|apply IH]. Qed.

(** ** Settlement books *)

Lemma hush_stage key n s : hush s (stage_settlement_launch cfg key n s).2.
Proof.
  unfold stage_settlement_launch. destruct (_ !! n) as [t|]; [|reflexivity].
  destruct (_ !! tk_subscription t); [by apply hush_same|].
  etrans; [|apply hush_fail]. etrans; [|apply hush_store_state]. by apply hush_same.
Qed.

Lemma hush_launch key p s : hush s (launch_settlement cfg key p s).
Proof.
  unfold launch_settlement. pose proof (hush_stage key (sp_token p) s) as Hs.
  destruct (stage_settlement_launch _ _ _ _) as [[r|] s1]; [|done]. etrans; [exact Hs|by apply hush_same].
Qed.

Lemma hush_launch_through key p s : hush s (launch_settle_through cfg key p s).
Proof.
  unfold launch_settle_through. pose proof (hush_stage key (stp_token p) s) as Hs.
  destruct (stage_settlement_launch _ _ _ _) as [[r|] s1]; [|done]. etrans; [exact Hs|by apply hush_same].
Qed.

Lemma hush_submit key p s : hush s (submit_settlement cfg key p s).
Proof. unfold submit_settlement. case_decide; [by apply hush_same|apply hush_launch]. Qed.

Lemma hush_drain_queue key s : hush s (drain_settlement_queue cfg key s).
Proof.
  unfold drain_settlement_queue. cbv zeta. destruct (settlement_queues (books s) !! key) as [[|next rest]|];
    [|etrans; [|apply hush_launch]; by apply hush_same|];
    destruct (settle_through_queues _ !! key) as [[|next rest]|]; try by apply hush_same.
  all: etrans; [|apply hush_launch_through]; by apply hush_same.
Qed.

Lemma hush_claim n t s : hush s (claim_settlement cfg n t s).2.
Proof.
  unfold claim_settlement. destruct (channel_key_for _ _); [destruct (tk_settling t)|];
    [apply hush_fail|apply hush_store_settling|etrans; [apply hush_store_state|apply hush_fail]].
Qed.

Lemma hush_log_requests l s : hush s (log_ack_requests l s).
Proof. split; try done; [apply tok_ext_refl|]. simpl. set_solver. Qed.

Lemma hush_handle_settle n settlement latency s : hush s (handle_settle cfg n settlement latency s).
Proof.
  unfold handle_settle. destruct (_ !! n) as [t|]; [|reflexivity]. pose proof (hush_claim n t s) as Hc.
  destruct (claim_settlement _ _ _ _) as [[key|] s1]; [|done]. etrans; [exact Hc|]. cbn [snd].
  destruct settlement; try apply hush_submit.
  match goal with |- hush s1 (record_in_batch _ _ _ ?x) => trans x; [|by apply hush_same] end.
  etrans; [|apply hush_log_requests]. by apply hush_same.
Qed.

Lemma hush_fence n t s : hush s (fence_settle_through cfg n t s).2.
Proof.
  unfold fence_settle_through. destruct (negb _); [apply hush_fail|]. pose proof (hush_claim n t s) as Hc.
  destruct (claim_settlement _ _ _ _) as [[key|] s1]; [|done]. etrans; [exact Hc|]. cbn [snd].
  destruct (_ !! _); [destruct (ensure_live_generation _ _); [reflexivity|]|];
    (etrans; [apply hush_store_settling|apply hush_fail]).
Qed.

Lemma hush_handle_settle_through n latency s : hush s (handle_settle_through cfg n latency s).
Proof.
  unfold handle_settle_through. destruct (_ !! n) as [t|]; [|reflexivity]. pose proof (hush_fence n t s) as Hc.
  destruct (fence_settle_through _ _ _ _) as [[[key r]|] s1]; [|done]. etrans; [exact Hc|]. cbn [snd].
  assert (forall k m, hush s1 (fail_token n k m (store_settling n false s1))) as Hfail
    by (intros; etrans; [apply hush_store_settling|apply hush_fail]).
  destruct (_ !! key); [|apply Hfail]. destruct (_ <=? _); [apply Hfail|].
  destruct (validate_contiguous_prefix _ _) as [af|e]; [|apply Hfail]. destruct (bool_decide _); [apply Hfail|]. cbv zeta.
  match goal with |- context [log_ack_requests ?l (observe_latency ?sub latency ?x)] =>
    assert (hush s1 (log_ack_requests l (observe_latency sub latency x))) as H2 end.
  { etrans; [|apply hush_log_requests]. etrans; [apply (hush_foldl (fun s a => store_settling a true s)); intros; apply hush_store_settling|].
    by apply hush_same. }
  etrans; [exact H2|]. case_decide; [by apply hush_same|apply hush_launch_through].
Qed.

Lemma hush_handle_control c s : hush s (handle_control cfg c s).
Proof. destruct c; [apply hush_handle_settle|apply hush_handle_settle_through|reflexivity]. Qed.

Lemma hush_flush_channel key s : hush s (flush_channel cfg key s).
Proof.
  unfold flush_channel. case_decide; [reflexivity|]. destruct (_ !! key) as [batch|]; [|reflexivity].
  destruct (_ !! key) as [l|]; [|by apply hush_same]. cbv zeta. destruct (last _).
  - etrans; [|apply hush_foldl; intros; by apply hush_same]. etrans; [|apply hush_launch_through]. by apply hush_same.
  - etrans; [|apply hush_foldl; intros; apply hush_submit]. by apply hush_same.
Qed.

Lemma hush_flush_acked s : hush s (flush_acked cfg s).
Proof. apply hush_foldl. intros. apply hush_flush_channel. Qed.

(** ** Intake *)

(** Intake work: [onward], and nothing reaches the wire or the publisher. *)
Record calm (s s' : State) : Prop := {
  ca_onward : onward s s';
  ca_wire : wire (shared s') = wire (shared s);
  ca_published : published (shared s') = published (shared s)
}.

#[global] Instance calm_po : PreOrder calm.
Proof. split; [by split|]. intros s1 s2 s3 [A1 A2 A3] [B1 B2 B3]. split; [by etrans|congruence..]. Qed.

Lemma hush_calm s s' : hush s s' -> calm s s'.
Proof. intros H. split; [by apply hush_onward|apply H..]. Qed.

Lemma calm_same s s' :
  tokens (shared s') = tokens (shared s) -> ack_requests (shared s') = ack_requests (shared s) ->
  wire (shared s') = wire (shared s) -> spawned (shared s') = spawned (shared s) ->
  finished (shared s') = finished (shared s) -> published (shared s') = published (shared s) -> calm s s'.
Proof.
  intros E1 E2 E3 E4 E5 E6. split; [|done|done]. split; [|rewrite E5; auto].
  split; rewrite ?E1, ?E2, ?E3, ?E4, ?E5; auto. apply tok_ext_refl.
Qed.

Lemma onward_spawn op s : onward s (spawn_op op s).
Proof. split; [|by left]. split; try done; [apply tok_ext_refl|]. intros x Hx. left. simpl. set_solver. Qed.

(** Deliveries leave the ledger. *)
Lemma remove_onward_but k tags s : onward_but (fun x => x.1 = k /\ x.2 ∈ tags) s (ledger_remove k tags s).
Proof.
  unfold ledger_remove. destruct (_ !! k); [|reflexivity].
  split; [split; try done; [apply tok_ext_refl|by left|simpl; set_solver]|]. intros k' tag [Hf|Hf]%elem_of_app; [by left|].
  apply list_elem_of_fmap in Hf as (t & [= -> ->] & Ht). by right; right.
Qed.

Lemma remove_wire k tags s : wire (shared (ledger_remove k tags s)) = wire (shared s).
Proof. unfold ledger_remove. by destruct (_ !! k). Qed.

Lemma remove_published k tags s : published (shared (ledger_remove k tags s)) = published (shared s).
Proof. unfold ledger_remove. by destruct (_ !! k). Qed.

(** A delivery leaves the ledger with its disposal on record. *)
Lemma onward_ledger_remove k tags s :
  (forall tag, tag ∈ tags -> (k, tag) ∈ finished (shared s) \/ disposed s k tag) -> calm s (ledger_remove k tags s).
Proof.
  intros Hd. split; [|apply remove_wire|apply remove_published]. destruct (remove_onward_but k tags s) as [H1 H2]. split; [done|].
  intros k' tag [?|[?|[E Ht]]]%H2; auto. cbn [fst snd] in *. subst k'.
  destruct (Hd tag Ht); [by left|right; left; by eapply grows_disposed].
Qed.

Lemma onward_release n sub s : calm s (release_bytes n sub s).
Proof. by apply calm_same. Qed.

(** The poison settlement of the delivery, where the broker expects one. *)
Lemma onward_settle_poison sub dl tag id bytes detail ident s :
  (forall r, c_subscriptions cfg !! sub = Some r -> ident = Some (rt_connection_key r, rt_generation r, rt_channel_id r)) ->
  calm s (settle_poison cfg sub dl tag id bytes detail ident s).
Proof.
  intros Hi. unfold settle_poison. cbv zeta.
  match goal with |- calm s (record_settlement_error _ ?x) => trans x; [|by apply calm_same] end.
  unfold channel_key_for. destruct (c_subscriptions cfg !! sub) as [r|] eqn:Er; cbn [fmap option_fmap option_map];
    [|destruct dl; by apply calm_same].
  rewrite (Hi r eq_refl), bool_decide_true, andb_true_r by done.
  set (s1 := if negb (rt_no_ack r) then _ else s).
  assert (onward s s1 /\ wire (shared s1) = wire (shared s) /\ published (shared s1) = published (shared s) /\
    settled_alone s1 (runtime_key sub r) tag) as (Ho & Ew & Ep & Hs).
  { unfold s1. destruct (rt_no_ack r) eqn:En; cbn [negb].
    - split; [reflexivity|]. split; [done|]. split; [done|]. right. right. by exists r.
    - split; [apply onward_spawn|]. split; [done|]. split; [done|]. right. left. unfold poison_op.
      destruct dl; [right|left]; simpl; set_solver. }
  clearbody s1. trans s1; [by split|].
  match goal with |- calm s1 (ledger_remove _ _ ?x) => assert (calm s1 x) as Hx; [destruct dl; by apply calm_same|] end.
  etrans; [exact Hx|]. apply onward_ledger_remove. intros t ->%list_elem_of_singleton. right.
  apply (onward_disposed s1); [apply Hx|]. by right.
Qed.

Lemma onward_settle_oversized sub d s : calm s (settle_oversized cfg sub d s).
Proof.
  unfold settle_oversized. cbv zeta. etrans; [|apply onward_settle_poison]; [by apply calm_same|].
  intros r Hr. by rewrite Hr.
Qed.

Lemma onward_push_buffer sub d s : calm s (push_buffer sub d s).
Proof. unfold push_buffer. destruct (_ !! sub); by apply calm_same. Qed.

Lemma onward_drain_loop l : forall s, calm s (drain_loop cfg l s).
Proof.
  induction l as [|[sub d] l IH]; intros s; cbn [drain_loop]; [by apply calm_same|].
  destruct (over_budget _ _ _ _); [destruct (oversized _ _ _); [|by apply calm_same]|].
  - etrans; [|apply IH]. apply onward_settle_oversized.
  - etrans; [|apply IH]. etrans; [apply onward_push_buffer|by apply calm_same].
Qed.

Lemma onward_drain_pending s : calm s (drain_pending cfg s).
Proof. apply onward_drain_loop. Qed.

Lemma onward_new_token t s : calm s (on_shared (fun h => set_tokens (tokens h ++ [t]) h) s).
Proof. split; [|done|done]. split; [|by left]. split; try done; [apply tok_ext_app|by left]. Qed.

Lemma onward_mark sub s : calm s (mark_if_empty sub s).
Proof. unfold mark_if_empty. destruct (_ !! sub) as [[|]|]; by apply calm_same. Qed.

Lemma onward_set_entry_token sub tag n s : calm s (set_entry_token cfg sub tag n s).
Proof.
  unfold set_entry_token. destruct (channel_key_for _ _) as [k|]; [|reflexivity].
  destruct (channel_ledgers _ !! k); by apply calm_same.
Qed.

Lemma onward_dispatch_early sub r d a s : calm s (dispatch_early cfg sub r d a s).2.
Proof.
  unfold dispatch_early, new_token, try_send. cbv zeta. set (s0 := if (_ && _)%bool then _ else s).
  assert (calm s s0) as H0.
  { unfold s0. destruct (_ && _)%bool; [|reflexivity].
    match goal with |- calm s (spawn_op ?op ?x) => trans x; [by apply calm_same|split; [apply onward_spawn|done..]] end. }
  clearbody s0. etrans; [exact H0|]. destruct (_ <? _); (etrans; [apply onward_new_token|]); [|by apply calm_same].
  match goal with |- context [mark_if_empty sub ?x] => etrans; [|etrans; [apply (onward_mark sub x)|]] end;
    [by apply calm_same|]. destruct (1 <? a); by apply calm_same.
Qed.

Lemma onward_dispatch_token sub r d a s : calm s (dispatch_token cfg sub r d a s).2.
Proof.
  unfold dispatch_token, new_token, try_send. etrans; [apply onward_new_token|].
  match goal with |- context [set_entry_token cfg sub ?tag ?n ?x] =>
    etrans; [apply (onward_set_entry_token sub tag n x)|]; set (s1 := set_entry_token cfg sub tag n x); clearbody s1 end.
  destruct (_ <? _); [|by apply calm_same].
  match goal with |- context [mark_if_empty sub ?x] => etrans; [|etrans; [apply (onward_mark sub x)|]] end;
    [by apply calm_same|]. destruct (1 <? a); by apply calm_same.
Qed.

Lemma onward_dispatch_delivery sub d s : calm s (dispatch_delivery cfg sub d s).2.
Proof.
  unfold dispatch_delivery. destruct (c_subscriptions cfg !! sub) as [r|] eqn:Er; [|by apply calm_same].
  destruct (Attempts.resolve _ _ _); destruct (rt_early_ack r); [apply onward_dispatch_early|apply onward_dispatch_token| |].
  - etrans; [|apply onward_dispatch_early]. by apply calm_same.
  - apply onward_settle_poison. intros r' Hr'. congruence.
Qed.

Lemma onward_dispatch_step s : calm s (dispatch_step cfg s).2.
Proof.
  unfold dispatch_step. destruct (source_errors (intake s)).
  - destruct (Scheduler.pick _) as [[sub|] sch]; [|by apply calm_same].
    destruct (_ !! sub) as [[|d rest]|]; try by apply calm_same.
    etrans; [|apply onward_dispatch_delivery]. by apply calm_same.
  - unfold try_send. destruct (_ <? _); by apply calm_same.
Qed.

Lemma onward_dispatch_loop fuel : forall s, calm s (dispatch_loop cfg fuel s).
Proof.
  induction fuel as [|fuel IH]; intros s; [reflexivity|]. cbn [dispatch_loop].
  pose proof (onward_dispatch_step s) as Hd. destruct (dispatch_step cfg s) as [[] s']; [|done].
  etrans; [exact Hd|apply IH].
Qed.

Lemma onward_dispatch s : calm s (dispatch cfg s).
Proof. etrans; [apply onward_drain_pending|apply onward_dispatch_loop]. Qed.

Lemma onward_try_drain s : calm s (try_drain_pending cfg s).
Proof. etrans; [apply onward_drain_pending|apply onward_dispatch]. Qed.

Lemma onward_handle_incoming sub res s : calm s (handle_incoming cfg sub res s).
Proof.
  unfold handle_incoming. destruct res as [d|e]; [|etrans; [|apply onward_dispatch]; by apply calm_same].
  cbv zeta. set (s0 := match channel_key_for cfg sub with Some key => _ | None => _ end).
  assert (calm s s0) as H0 by (unfold s0; destruct (channel_key_for _ _); by apply calm_same).
  etrans; [exact H0|]. clearbody s0. destruct (over_budget _ _ _ _).
  - destruct (oversized _ _ _); [|by apply calm_same]. apply onward_settle_oversized.
  - destruct (bool_decide _); (etrans; [|apply onward_dispatch]).
    + etrans; [apply onward_push_buffer|by apply calm_same].
    + etrans; [|apply onward_drain_pending]. by apply calm_same.
Qed.

(** ** Completions *)

Lemma named_key n k tag ts t : named cfg ts n k tag -> ts !! n = Some t ->
  tk_delivery_tag t = tag /\ exists r, c_subscriptions cfg !! tk_subscription t = Some r /\
    k = runtime_key (tk_subscription t) r /\ ensure_live_generation r t = Ok tt.
Proof. intros (t' & r & Ht' & Hr & Hk & Hl & Hg) Ht. rewrite Ht in Ht'. injection Ht' as <-. split; [done|]. by exists r. Qed.

(** A settlement that ends for good has sent its operation, or is poison. *)
Lemma executed_own_op sha256 a key r settlement t res ops pubs :
  ensure_live_generation r t = Ok tt -> execute_settlement sha256 a key r settlement t = (res, ops, pubs) ->
  match res with
  | Ok _ => own_op key (tk_delivery_tag t) ops
  | Err e =>
      terminal_kind (ce_kind e) = true ->
      own_op key (tk_delivery_tag t) ops \/ ce_kind e = CMaxAttempts \/ ce_kind e = CInvalidDelay
  end.
Proof.
  intros Hl. unfold execute_settlement. rewrite Hl.
  assert (Hw : forall op st x y, wire_call a op st = (x, y) -> y = [op]) by (by unfold wire_call; intros ? ? ? ? [= _ <-]).
  assert (Hack : own_op key (tk_delivery_tag t) [WAck key (tk_delivery_tag t) false]) by (left; set_solver).
  assert (Hrej : forall q, own_op key (tk_delivery_tag t) [WReject key (tk_delivery_tag t) q]) by (intros q; right; exists q; set_solver).
  assert (Hc : forall x y z, own_op key (tk_delivery_tag t) y -> (x, y, z) = (res, ops, pubs) ->
    match res with Ok _ => own_op key (tk_delivery_tag t) ops
    | Err e => terminal_kind (ce_kind e) = true -> own_op key (tk_delivery_tag t) ops \/ ce_kind e = CMaxAttempts \/ ce_kind e = CInvalidDelay end).
  { intros x y z Hy [= <- <- <-]. destruct x; auto. }
  destruct settlement as [|delay|requeue].
  - destruct (wire_call _ _ _) as [x y] eqn:E. apply Hw in E as ->. by apply Hc.
  - destruct (delay =? 0).
    + destruct (wire_call _ _ _) as [x y] eqn:E. apply Hw in E as ->. by apply Hc.
    + unfold delayed_release. destruct (delayed_request _ _ _ _ _) as [request|e] eqn:Er.
      * destruct (an_publish a) as [[m|m reply]|e].
        -- destruct (wire_call _ _ _) as [x y] eqn:E. apply Hw in E as ->. by apply Hc.
        -- by intros [= <- <- <-].
        -- by intros [= <- <- <-].
      * intros [= <- <- <-]. intros Ht. right. clear Hc. revert Er Ht. unfold delayed_request.
        repeat match goal with
        | |- context [ok_or ?o ?x] => destruct o; cbn [ok_or]
        | |- context [map_err ?f ?x] => destruct x; cbn [map_err]
        end; intros [= <-]; cbn; try done; auto.
  - destruct (wire_call _ _ _) as [x y] eqn:E. apply Hw in E as ->. by apply Hc.
Qed.

Lemma onward_complete_settlement key n t tag res s :
  tokens (shared s) !! n = Some t -> named cfg (tokens (shared s)) n key tag ->
  match res with
  | Ok _ => own_op key tag (wire (shared s))
  | Err e => terminal_kind (ce_kind e) = true ->
      own_op key tag (wire (shared s)) \/ ce_kind e = CMaxAttempts \/ ce_kind e = CInvalidDelay
  end ->
  calm s (complete_settlement cfg key n res s).
Proof.
  intros Ht Hn Hres. destruct (named_key _ _ _ _ _ Hn Ht) as (Etag & r & Hr & Hkey & Hlive).
  unfold complete_settlement. rewrite Ht. cbv zeta. rewrite Etag.
  etrans; [|apply hush_calm, hush_drain_queue].
  set (s1 := if (match res with Ok _ => true | Err e => terminal_kind (ce_kind e) end) then _ else _).
  set (b := match res with Ok _ => true | Err e => terminal_kind (ce_kind e) end) in *.
  assert (onward_but (fun x => b = true /\ x = (key, tag)) s s1 /\ wire (shared s1) = wire (shared s) /\
    published (shared s1) = published (shared s)) as (Ho & Ew & Ep).
  { unfold s1. destruct b.
    - match goal with |- context [try_drain_pending cfg ?x] => assert (calm s (try_drain_pending cfg x)) as [Hx Hw Hp] end.
      { etrans; [|apply onward_try_drain]. destruct res as [[]|]; by apply calm_same. }
      split; [|by rewrite remove_wire, remove_published]. etrans; [by apply onward_weaken|].
      destruct (remove_onward_but key [tag] (try_drain_pending cfg (release_bytes (payload_len (tk_payload t)) (tk_subscription t)
        match res with Ok Acked => record_ack (clear_in_flight key s) | Ok Rejected => record_reject (clear_in_flight key s)
        | _ => clear_in_flight key s end))) as [G1 G2].
      split; [exact G1|]. intros k' tag' [?|[?|[E1 E2]]]%G2; auto. cbn in E1, E2. apply list_elem_of_singleton in E2. subst. auto.
    - split; [|done]. apply onward_weaken, hush_onward. by apply hush_same. }
  clearbody s1. set (s2 := store_settling n false s1).
  assert (hush s1 s2) as H2 by apply hush_store_settling. clearbody s2.
  assert (Hfin : forall s3, calm s2 s3 -> (b = true -> disposed s3 key tag) -> calm s s3).
  { intros s3 [H3 H4 H5] Hd. split; [|by rewrite H4, (hu_wire _ _ H2)|by rewrite H5, (hu_published _ _ H2)].
    apply (onward_close (fun x => b = true /\ x = (key, tag))); [by intros k' tag' [Hb [= -> ->]]; apply Hd|].
    etrans; [exact Ho|]. apply onward_weaken. etrans; [by apply hush_onward|done]. }
  assert (Hown : forall s3, calm s2 s3 -> own_op key tag (wire (shared s)) -> disposed s3 key tag).
  { intros s3 [_ H4 _] Hop. right. left. by rewrite H4, (hu_wire _ _ H2), Ew. }
  assert (Hst : forall st, calm s2 (store_state n st s2)) by (intros; apply hush_calm, hush_store_state).
  assert (Hfl : forall k m st, calm s2 (fail_token n k m (store_state n st s2)))
    by (intros; etrans; [apply Hst|apply hush_calm, hush_fail]).
  destruct res as [st|e]; [by apply Hfin; auto|]. unfold b in *. clear b.
  destruct (ce_kind e) eqn:Ek; try (by apply Hfin; [apply Hfl|]);
    try (apply Hfin; [apply Hfl|]; intros Hb; destruct (Hres Hb) as [?|[?|?]]; [by apply Hown; [apply Hfl|]|done|done]).
  all: rewrite Hr, Hlive; unfold poison_op; rewrite <- Hkey.
  all: destruct (rt_has_dead_letter r); cbv iota beta.
  all: match goal with |- calm _ (record_settlement_error _ (store_state _ _ (_ (spawn_op ?op ?x)))) =>
         assert (onward x (spawn_op op x)) as Hsp by apply onward_spawn end.
  all: apply Hfin; [split; [|done|done]; etrans; [exact Hsp|]; apply hush_onward;
         (etrans; [|etrans; [apply (hush_store_state n)|]]); by apply hush_same|].
  all: intros _; right; right; left; cbn; first [left; apply elem_of_app; right; by apply list_elem_of_singleton|
         right; apply elem_of_app; right; by apply list_elem_of_singleton].
Qed.

Lemma onward_complete_through D P key target affected res s :
  inv cfg D P s ->
  (forall tag, (key, tag) ∈ delivered (shared s) -> tag <= target ->
     (key, tag) ∈ finished (shared s) \/ requested s key tag) ->
  calm s (complete_settle_through cfg key target affected res s).
Proof.
  intros Hi Hc. unfold complete_settle_through. cbv zeta. etrans; [|apply hush_calm, hush_drain_queue].
  match goal with |- calm s (match res with Ok _ => foldl ?f ?x affected | Err _ => _ end) => assert (calm s x) as Hx; [|set (s1 := x) in *; clearbody s1] end.
  2: { match goal with |- context [foldl ?f s1 affected] => assert (calm s1 (foldl f s1 affected)) as Hf end.
       { apply hush_calm, hush_foldl. intros x n. etrans; [apply hush_store_state|apply hush_store_settling]. }
       etrans; [exact Hx|]. destruct res; [done|]. etrans; [exact Hf|by apply calm_same]. }
  destruct (match res with Ok _ => true | Err _ => _ end); [|reflexivity].
  match goal with |- context [try_drain_pending cfg ?x] =>
    assert (calm s x /\ inv cfg D P x) as [H0 Hi0]; [|set (s0 := x) in *; clearbody s0] end.
  { pose proof (inv_release_all cfg D P affected s Hi) as Hr.
    match goal with |- context [foldl ?f s affected] => assert (calm s (foldl f s affected)) as Hf end.
    { apply hush_calm, hush_foldl. intros x n. destruct (_ !! n); by apply hush_same. }
    destruct res as [[]|]; try done. destruct affected; [done|]. split; [|done]. etrans; [exact Hf|by apply calm_same]. }
  pose proof (onward_try_drain s0) as H1. pose proof (inv_try_drain_pending cfg D P s0 Hi0) as Hi1.
  set (s1 := try_drain_pending cfg s0) in *. clearbody s1. assert (calm s s1) as H2 by (by etrans).
  destruct (channel_ledgers (books s1) !! key) as [l|] eqn:El; [|done]. etrans; [exact H2|].
  assert (calm s1 (ledger_remove key (covered_tags l target) s1)) as H3.
  { apply onward_ledger_remove. intros tag Htag%covered_tags_elem. destruct Htag as [[e He] Htag].
    destruct (i_pending _ _ _ _ _ _ _ _ _ _ _ _ _ Hi1 key l tag e El He) as [Hd _].
    rewrite (i_log _ _ _ _ _ _ _ _ _ _ _ _ _ Hi1), <- (i_log _ _ _ _ _ _ _ _ _ _ _ _ _ Hi) in Hd.
    destruct H2 as [[H2 _] _ _]. destruct (Hc tag Hd) as [Hf|Hr]; [lia|left; by apply (gr_finished _ _ H2)|].
    right. eapply grows_disposed; [exact H2|]. by left. }
  destruct res as [[]|]; try done. etrans; [exact H3|]. by apply calm_same.
Qed.

(** ** What is sent *)

(** Every delivery up to [w] had left the ledger in [s0], or its acknowledgement has been
    asked for in [s]. *)
Definition vouched (s0 s : State) (k : ChannelKey) (w : Z) : Prop :=
  forall tag, (k, tag) ∈ delivered (shared s0) -> tag <= w -> (k, tag) ∈ finished (shared s0) \/ requested s k tag.

(** From [s0] to [s] only vouched cumulative acknowledgements are sent. *)
Definition sends (s0 s : State) : Prop :=
  exists ops, wire (shared s) = wire (shared s0) ++ ops /\ forall k w, WAck k w true ∈ ops -> vouched s0 s k w.

Lemma sends_nothing s s' : wire (shared s') = wire (shared s) -> sends s s'.
Proof. intros E. exists []. rewrite app_nil_r. split; [done|]. by intros k w ?%elem_of_nil. Qed.

Lemma sends_calm s0 s s' : sends s0 s -> calm s s' -> sends s0 s'.
Proof.
  intros (ops & E & Ho) [[[H1 H2 _ _ _] _] Hw _]. exists ops. split; [by rewrite Hw|]. intros k w Hin tag Hd Hle.
  destruct (Ho k w Hin tag Hd Hle) as [?|?]; [by left|right]. by eapply requested_mono.
Qed.

Lemma onward_log_wire ops s : onward s (log_wire ops s).
Proof. split; [|by left]. split; try done; [apply tok_ext_refl|simpl; set_solver|by left]. Qed.

Lemma onward_published pubs s : onward s (on_shared (fun h => set_published (published h ++ pubs) h) s).
Proof. split; [|by left]. split; try done; [apply tok_ext_refl|by left]. Qed.

Lemma covers_vouched D P p s :
  inv cfg D P s -> p ∈ pending_settle_throughs (books s) -> vouched s s (pt_key p) (pt_target p).
Proof.
  intros Hi Hp tag Hd Hle. destruct (i_through _ _ _ _ _ _ _ _ _ _ _ _ _ Hi p Hp) as (_ & Hreq & Hc).
  destruct (Hc tag Hd Hle) as [?|(n & Hn & Hnm)]; [by left|right]. exists n. auto.
Qed.

Lemma through_ops a key r target t res ops k w :
  execute_settle_through a key r target t = (res, ops) -> WAck k w true ∈ ops -> k = key /\ w = target.
Proof.
  unfold execute_settle_through, wire_call. destruct (ensure_live_generation r t); intros [= <- <-];
    [by intros [= -> ->]%list_elem_of_singleton|by intros ?%elem_of_nil].
Qed.

Lemma settlement_done_onward sha256 i a s s' :
  serial cfg s -> settlement_done sha256 cfg i a s = Some s' -> onward s s' /\ sends s s'.
Proof.
  intros Hs. unfold settlement_done. destruct (take_nth i _) as [[p rest]|] eqn:Ep; [|done].
  destruct (tokens (shared s) !! _) as [t|] eqn:Et; [|done].
  destruct (execute_settlement _ _ _ _ _ _) as [[res ops] pubs] eqn:E. intros [= <-].
  destruct (take_nth_elem _ _ _ _ Ep) as [Hp _]. destruct (s_settling _ _ _ _ Hs p Hp) as [(tag & Hn) Hl].
  destruct (named_key _ _ _ _ _ Hn Et) as (Etag & r & Hr & Hk & Hlive). rewrite Hk in Hl. cbn in Hl. rewrite Hr in Hl.
  injection Hl as Hl. rewrite <- Hl in E.
  match goal with |- onward s (complete_settlement _ _ _ _ ?x) /\ _ => set (s1 := x) end.
  assert (onward s s1) as H1.
  { etrans; [|apply onward_published]. etrans; [|apply (onward_log_wire ops)]. apply hush_onward. by apply hush_same. }
  assert (calm s1 (complete_settlement cfg (ps_key p) (sp_token (ps_params p)) res s1)) as H2.
  { apply (onward_complete_settlement _ _ t tag); [done|done|]. pose proof (executed_own_op _ _ _ _ _ _ _ _ _ Hlive E) as Hx.
    rewrite Etag in Hx. assert (Hw : own_op (ps_key p) tag ops -> own_op (ps_key p) tag (wire (shared s1))).
    { intros [Hin|(q & Hin)]; [left|right; exists q]; simpl; apply elem_of_app; by right. }
    destruct res; [by apply Hw|]. intros Hk'. destruct (Hx Hk') as [?|?]; [left; by apply Hw|by right]. }
  split; [etrans; [exact H1|apply H2]|]. eapply sends_calm; [|exact H2]. exists ops. split; [done|].
  intros k w Hin. pose proof (execute_settlement_single sha256 a (ps_key p) r (sp_settlement (ps_params p)) t k w) as Hx.
  by rewrite E in Hx.
Qed.

Lemma through_done_onward D P i a s s' :
  inv cfg D P s -> settle_through_done cfg i a s = Some s' -> onward s s' /\ sends s s'.
Proof.
  intros Hi. unfold settle_through_done. destruct (take_nth i _) as [[p rest]|] eqn:Ep; [|done].
  destruct (tokens (shared s) !! _) as [t|] eqn:Et; [|done].
  destruct (execute_settle_through _ _ _ _ _) as [res ops] eqn:E. intros [= <-].
  destruct (take_nth_elem _ _ _ _ Ep) as [Hp Hrest]. pose proof (covers_vouched _ _ _ _ Hi Hp) as Hv.
  destruct (inv_send_through _ _ _ _ _ _ _ _ _ _ Hp Hrest E Hi) as [_ Hi1].
  match goal with |- onward s (complete_settle_through _ _ _ _ _ ?x) /\ _ => set (s1 := x) in * end.
  assert (onward s s1) as H1.
  { etrans; [|apply (onward_log_wire ops)]; apply hush_onward; by apply hush_same. }
  assert (calm s1 (complete_settle_through cfg (pt_key p) (pt_target p) (stp_affected (pt_params p)) res s1)) as H2.
  { eapply onward_complete_through; [exact Hi1|]. intros tag Hd Hle. by apply Hv. }
  split; [etrans; [exact H1|apply H2]|]. eapply sends_calm; [|exact H2]. exists ops. split; [done|].
  intros k w Hin. by destruct (through_ops _ _ _ _ _ _ _ _ _ E Hin) as [-> ->].
Qed.

(** The state during [close_set]: no delivery leaves the ledger any more. *)
Record closing (s0 s : State) : Prop := {
  cl_grows : grows s0 s;
  cl_sends : sends s0 s;
  cl_finished : finished (shared s) = finished (shared s0);
  cl_delivered : delivered (shared s) = delivered (shared s0)
}.

Lemma closing_hush s0 s s' : closing s0 s -> hush s s' -> closing s0 s'.
Proof.
  intros [H1 H2 H3 H4] Hh. pose proof (hush_onward _ _ Hh) as [Hg _]. split; [by etrans| | |].
  - eapply sends_calm; [exact H2|by apply hush_calm].
  - by rewrite (hu_finished _ _ Hh).
  - by rewrite (hu_delivered _ _ Hh).
Qed.

Lemma closing_send s0 s ops :
  closing s0 s -> (forall k w, WAck k w true ∈ ops -> vouched s s k w) -> closing s0 (log_wire ops s).
Proof.
  intros [H1 (ops0 & E & Ho) H3 H4] Hv. split; [etrans; [exact H1|apply onward_log_wire]| |done|done].
  exists (ops0 ++ ops). split; [simpl; by rewrite E, app_assoc|]. intros k w [Hin|Hin]%elem_of_app tag Hd Hle.
  - by destruct (Ho k w Hin tag Hd Hle); [left|right].
  - rewrite <- H4 in Hd. rewrite <- H3. by destruct (Hv k w Hin tag Hd Hle); [left|right].
Qed.

Lemma closing_published s0 s pubs :
  closing s0 s -> closing s0 (on_shared (fun h => set_published (published h ++ pubs) h) s).
Proof. intros [H1 H2 H3 H4]. split; [etrans; [exact H1|apply onward_published]|exact H2|done|done]. Qed.

Lemma closing_settlement sha256 s0 i a s s' :
  close_settlement sha256 cfg i a s = Some s' -> closing s0 s -> closing s0 s'.
Proof.
  unfold close_settlement. destruct (take_nth i _) as [[p rest]|]; [|done].
  destruct (tokens (shared s) !! _) as [t|]; [|done].
  destruct (execute_settlement _ _ _ _ _ _) as [[res ops] pubs] eqn:E. intros [= <-] Hc.
  eapply closing_hush; [|apply hush_drain_queue].
  assert (closing s0 (log_wire ops (clear_in_flight (ps_key p) (on_books (set_pending_settlements rest) s)))) as H1.
  { apply closing_send; [eapply closing_hush; [exact Hc|by apply hush_same]|]. intros k w Hin.
    pose proof (execute_settlement_single sha256 a (ps_key p) (ps_launch p) (sp_settlement (ps_params p)) t k w) as Hx. by rewrite E in Hx. }
  apply (closing_published _ _ pubs) in H1. eapply closing_hush; [exact H1|]. destruct res;
    [|etrans; [|apply hush_fail]]; (etrans; [|apply hush_store_settling]); apply hush_store_state.
Qed.

Lemma closing_through D P s0 i a s s' :
  close_through cfg i a s = Some s' -> inv cfg D P s -> closing s0 s -> closing s0 s'.
Proof.
  unfold close_through. destruct (take_nth i _) as [[p rest]|] eqn:Ep; [|done].
  destruct (tokens (shared s) !! _) as [t|]; [|done].
  destruct (execute_settle_through _ _ _ _ _) as [res ops] eqn:E. intros [= <-] Hi Hc.
  destruct (take_nth_elem _ _ _ _ Ep) as [Hp _]. pose proof (covers_vouched _ _ _ _ Hi Hp) as Hv.
  eapply closing_hush; [|apply hush_drain_queue].
  assert (closing s0 (log_wire ops (clear_in_flight (pt_key p) (on_books (set_pending_settle_throughs rest) s)))) as H1.
  { apply closing_send; [eapply closing_hush; [exact Hc|by apply hush_same]|]. intros k w Hin.
    by destruct (through_ops _ _ _ _ _ _ _ _ _ E Hin) as [-> ->]. }
  match goal with |- context [foldl ?f ?x ?af] => assert (hush x (foldl f x af)) as Hf end.
  { apply hush_foldl. intros x n. etrans; [apply hush_store_state|apply hush_store_settling]. }
  eapply closing_hush; [exact H1|]. destruct res; [done|]. etrans; [exact Hf|by apply hush_same].
Qed.

Lemma closing_loop sha256 D P s0 events : forall s,
  inv cfg D P s -> closing s0 s -> closing s0 (close_loop sha256 cfg events s).
Proof.
  induction events as [|e events IH]; intros s Hi H; [done|]. cbn [close_loop]. destruct e as [i a|i a].
  - destruct (close_settlement _ _ _ _ _) eqn:E; [|by apply IH].
    apply IH; [by eapply inv_close_settlement|by eapply closing_settlement].
  - destruct (close_through _ _ _ _) eqn:E; [|by apply IH].
    apply IH; [by eapply inv_close_through|by eapply closing_through].
Qed.

Lemma closing_set sha256 D P commands events s :
  Forall (fun c => match c with CmdSettle n _ _ => n ∈ P | _ => True end) commands ->
  inv cfg D P s -> closing s (close_set sha256 cfg commands events s).
Proof.
  intros Hc Hi. unfold close_set.
  assert (inv cfg D P (foldl (fun s c => handle_control cfg c s) s commands)) as H1.
  { revert s Hi. induction Hc as [|c commands Hc _ IH]; intros s Hi; [done|]. cbn [foldl]. by apply IH, inv_handle_control. }
  eapply closing_loop; [by apply inv_flush_acked|]. apply (closing_hush s s).
  - split; [reflexivity|by apply sends_nothing|done|done].
  - etrans; [apply (hush_foldl (fun s c => handle_control cfg c s)); intros; apply hush_handle_control|apply hush_flush_acked].
Qed.

End Cover.

(** ** Every step of the consumer system *)

Section Steps.
Variable sha256 : string -> string.
Variable subs : list Subscription.

Lemma hush_calm_sends s s' : calm (config_of subs) s s' -> onward (config_of subs) s s' /\ sends (config_of subs) s s'.
Proof. intros [H1 H2 _]. split; [done|by apply sends_nothing]. Qed.

Lemma recv_hush s0 s it s' :
  buffer_recv s = Some (it, s') -> hush s0 (st s) -> hush s0 (st s').
Proof.
  unfold buffer_recv. destruct (flume (intake (st s))) as [|x rest]; [done|]. intros [= -> <-] H.
  etrans; [exact H|]. by apply hush_same.
Qed.

Lemma step_onward l s s' :
  reach sha256 subs s -> sys_step sha256 subs l s = Some s' ->
  onward (config_of subs) (st s) (st s') /\ sends (config_of subs) (st s) (st s').
Proof.
  intros Hr. pose proof (set_reach_inv _ _ s Hr) as [Hi Hc _ _]. pose proof (reach_serial _ _ s Hr) as Hser.
  assert (Hh : forall x, hush (st s) x -> onward (config_of subs) (st s) x /\ sends (config_of subs) (st s) x)
    by (intros x Hx; by apply hush_calm_sends, hush_calm).
  destruct l as [n settlement latency|n latency| |max| | |sub res| | | |i a|i a|i|events]; cbn [sys_step].
  - case_decide; [|done]. intros [= <-]. unfold try_settle_token. destruct (_ !! n); [|by apply Hh].
    destruct (try_settle _ _ _) as [[r state] enq]. apply Hh, hush_store_state.
  - intros [= <-]. unfold try_settle_through. by destruct (control_send s); apply Hh.
  - intros [= <-]. apply Hh. by apply (try_next_keeps (fun x => hush (st s) (st x))); [exact (recv_hush _)|..].
  - intros [= <-]. apply Hh. by apply (try_next_batch_keeps (fun x => hush (st s) (st x))); [exact (recv_hush _)|..].
  - intros ([r x] & Hn & ->)%fmap_Some. apply Hh.
    by eapply (next_keeps (fun x => hush (st s) (st x))); [exact (recv_hush _)|exact Hn|].
  - destruct (control s) as [|c rest]; [done|]. destruct (open s); [|done]. intros [= <-]. apply Hh, hush_handle_control.
  - destruct (open s && _ && _)%bool; [|done]. intros [= <-]. apply hush_calm_sends, onward_handle_incoming.
  - destruct (open s && _)%bool; [|done]. intros [= <-]. apply Hh, hush_flush_acked.
  - destruct (open s); [|done]. intros [= <-]. apply hush_calm_sends, onward_dispatch.
  - destruct (open s); [|done]. intros [= <-]. by apply Hh, hush_same.
  - destruct (open s); [|done]. intros (x & Hx & ->)%fmap_Some. by eapply settlement_done_onward.
  - destruct (open s); [|done]. intros (x & Hx & ->)%fmap_Some. by eapply through_done_onward.
  - intros (x & Hx & ->)%fmap_Some. unfold spawned_done in Hx. destruct (take_nth i _) as [[op rest]|] eqn:Et; [|done].
    injection Hx as <-. cbn [st]. unfold take_nth in Et. destruct (_ !! i) as [op'|] eqn:Eo; [|done]. injection Et as -> <-. split.
    + split; [|by left]. split; try done; [apply tok_ext_refl|simpl; set_solver|]. intros x Hx. simpl.
      assert (x = op \/ x ∈ delete i (spawned (shared (st s)))) as [->|?]; [|right; set_solver|by left].
      rewrite (delete_Permutation _ _ _ Eo) in Hx. by apply elem_of_cons in Hx.
    + exists [spawned_op op]. split; [done|]. intros k w Hin%list_elem_of_singleton. by destruct op.
  - destruct (open s); [|done]. intros [= <-]. destruct (closing_set (config_of subs) sha256 _ _ (control s) events _ Hc Hi) as [H1 H2 H3 _].
    split; [|done]. split; [done|]. intros k tag Hf. left. rewrite <- H3. exact Hf.
Qed.

(** Whatever has left a ledger is disposed of. *)
Lemma finished_disposed s k tag :
  reach sha256 subs s -> (k, tag) ∈ finished (shared (st s)) -> disposed (config_of subs) (st s) k tag.
Proof.
  intros Hr. revert k tag. induction Hr as [foreign|l s s' Hr IH Hs]; intros k tag Hf; [by apply elem_of_nil in Hf|].
  destruct (step_onward l s s' Hr Hs) as [[Hg Ho] _]. destruct (Ho k tag Hf) as [Hf'|[?|[]]]; [|done].
  eapply grows_disposed; [exact Hg|by apply IH].
Qed.

(** C1. A cumulative acknowledgement never settles a delivery that nobody settled: when
    a step of a reachable state sends [ack(w, multiple = true)] on a channel, then for
    every delivery of that channel up to [w] that was not settled on its own before, the
    embedder has asked to acknowledge it (for a shutdown, in the commands that the
    shutdown works off first). Settled on its own before means: an acknowledgement or a
    rejection of this very tag is on the wire already; or the actor found the delivery to be
    poison and the task that acknowledges or rejects it alone is spawned, which the
    cumulative acknowledgement may then overtake; or the channel is a no-ack one. *)
Theorem cumulative_ack_safe l s s' k w tag :
  reach sha256 subs s -> sys_step sha256 subs l s = Some s' ->
  WAck k w true ∈ drop (length (wire (shared (st s)))) (wire (shared (st s'))) ->
  (k, tag) ∈ delivered (shared (st s)) -> tag <= w ->
  settled_alone (config_of subs) (st s) k tag \/
  exists n, n ∈ ack_requests (shared (st s')) /\ named (config_of subs) (tokens (shared (st s'))) n k tag.
Proof.
  intros Hr Hs Hw Hd Hle. destruct (step_onward l s s' Hr Hs) as [[Hg _] (ops & E & Ho)].
  rewrite E, drop_app_length in Hw. destruct (Ho k w Hw tag Hd Hle) as [Hf|Hreq]; [|by right].
  destruct (finished_disposed s k tag Hr Hf) as [Hreq|?]; [|by left]. right.
  eapply requested_mono; [apply Hg|apply Hg|exact Hreq].
Qed.

End Steps.

(** ** Witness *)

(** Two deliveries are received, handed out and acknowledged; the flush has staged the
    frame. *)
Definition staged : list Label :=
  [LIncoming "jobs" (Ok (job 1)); LIncoming "jobs" (Ok (job 2)); LTryNext; LTryNext;
   LTrySettle 0 SAck 0; LTrySettle 1 SAck 0; LControl; LControl; LFlush].

Definition staged_sys : Sys := default start (run toy_digest jobs staged start).
Definition acked_sys : Sys := default start (sys_step toy_digest jobs (LThrough 0 wire_ok) staged_sys).

Lemma cumulative_ack_safe_witness :
  wire (shared (st acked_sys)) = [WAck jobs_key 2 true] /\
  (settled_alone (config_of jobs) (st staged_sys) jobs_key 1 \/
   exists n, n ∈ ack_requests (shared (st acked_sys)) /\ named (config_of jobs) (tokens (shared (st acked_sys))) n jobs_key 1).
Proof.
  split; [vm_compute; reflexivity|].
  apply (cumulative_ack_safe toy_digest jobs (LThrough 0 wire_ok) staged_sys acked_sys jobs_key 2 1).
  - eapply set_reach_run; [apply (reach_new toy_digest jobs [])|]. instantiate (1 := staged). vm_compute. reflexivity.
  - vm_compute. reflexivity.
  - vm_compute. left.
  - vm_compute. left.
  - lia.
Defined.

End ConsumerCover.
