(* ===== verification/ConsumerRelease.v ===== *)
(** * Delayed releases

    A release with a delay leaves the broker's redelivery: the actor publishes
    a delayed copy of the message through its publisher and acknowledges the
    original. The theorem follows the completion of such a release through the settlement
    arm of the actor, with every failure, and connects [ConsumerActor] with
    [DelayRouting] (the publisher can route the copy) and [Attempts] (the copy counts as
    the next attempt). *)

From S2P Require Import Prelude Transport Publication Scheduler Attempts DelayTopology DelayRouting.
From S2P Require Import Prefetch Delivery ConsumerActor ConsumerInv ConsumerBounds ConsumerFifo.
From S2P Require Import ConsumerSerial ConsumerSystem ConsumerCover.
Import Transport Publication DelayTopology Delivery ConsumerActor ConsumerInv ConsumerSerial ConsumerSystem ConsumerCover.
Local Open Scope Z_scope.

Module ConsumerRelease.

Section Release.
Variable sha256 : string -> string.

(** What a delayed copy is. *)
Record delayed_copy (r : RuntimeSubscription) (t : Token) (request : PublishRequest) : Prop := {
  dc_payload : r_payload request = tk_payload t;
  dc_message_id : mp_message_id (r_properties request) = tk_message_id t;
  dc_destination : rt_destination r = Some (r_destination request);
  dc_routed : forall mandatory, exists w,
    DelayRouting.route_transport_request sha256 request (rt_delay_strategy r) mandatory = Ok w;
  dc_attempts : forall redelivered,
    Attempts.resolve (Attempts.with_max_attempts Attempts.resolver_default (rt_max_attempts r))
      (mp_headers (r_properties request)) redelivered = Ok (tk_attempts t + 1)
}.

(** A route for a delay is a route for the publication that carries it. *)
Lemma routed_request request strategy delay_ms route mandatory :
  mp_delay_ms (r_properties request) = Some delay_ms -> 0 <= delay_ms <= I64_MAX ->
  DelayRouting.route sha256 strategy (r_destination request) delay_ms = Ok route ->
  exists w, DelayRouting.route_transport_request sha256 request (Some strategy) mandatory = Ok w.
Proof.
  intros Hd Hb Hr. unfold DelayRouting.route_transport_request. rewrite Hd. cbn [default from_option id].
  destruct (delay_ms =? 0); [by eexists|]. cbn [ok_or].
  assert (DelayRouting.clamp_i64 delay_ms = delay_ms) as -> by
    (unfold DelayRouting.clamp_i64; destruct (_ <=? _) eqn:E; zbool; lia).
  rewrite Hr. cbn. by eexists.
Qed.

Lemma delayed_request_copy r t delay now request :
  1 <= tk_attempts t < U32_MAX -> delayed_request sha256 r t delay now = Ok request -> delayed_copy r t request.
Proof.
  intros Ha. unfold delayed_request.
  destruct (rt_publisher r) as [timeout|]; [|done].
  destruct (rt_destination r) as [destination|] eqn:Ed; [|done].
  destruct (rt_delay_strategy r) as [strategy|] eqn:Es; [|done]. cbn [ok_or].
  destruct (try_from I64_MAX (as_millis delay)) as [delay_ms|] eqn:Em; [|done].
  apply try_from_Some in Em as [<- Hb]. cbn [ok_or].
  destruct (DelayRouting.route sha256 strategy destination (as_millis delay)) as [route|] eqn:Er; [|done]. cbn [map_err].
  destruct (Attempts.delayed_headers _ _ _) as [headers|] eqn:Eh; [|done]. cbn [map_err]. intros [= <-].
  split; try done.
  - intros mandatory. rewrite Es. eapply (routed_request _ strategy (as_millis delay) route); [reflexivity|done|exact Er].
  - intros redelivered. by eapply Attempts.delayed_headers_next.
Qed.

(** ** Completion of a settlement *)

Context (cfg : Config).

(** The ledgers are not touched by the settlement queues. *)
Lemma stage_ledgers key n s : channel_ledgers (books (stage_settlement_launch cfg key n s).2) = channel_ledgers (books s).
Proof.
  unfold stage_settlement_launch. destruct (_ !! n) as [t|]; [|done]. destruct (_ !! tk_subscription t); [done|].
  cbn [snd]. unfold fail_token. by destruct (_ !! n).
Qed.

Lemma drain_ledgers key s : channel_ledgers (books (drain_settlement_queue cfg key s)) = channel_ledgers (books s).
Proof.
  assert (H1 : forall p x, channel_ledgers (books (launch_settlement cfg key p x)) = channel_ledgers (books x)).
  { intros p x. unfold launch_settlement. pose proof (stage_ledgers key (sp_token p) x) as E.
    by destruct (stage_settlement_launch _ _ _ _) as [[r|] x1]. }
  assert (H2 : forall p x, channel_ledgers (books (launch_settle_through cfg key p x)) = channel_ledgers (books x)).
  { intros p x. unfold launch_settle_through. pose proof (stage_ledgers key (stp_token p) x) as E.
    by destruct (stage_settlement_launch _ _ _ _) as [[r|] x1]. }
  unfold drain_settlement_queue. cbv zeta. destruct (settlement_queues (books s) !! key) as [[|next rest]|];
    [|by rewrite H1|]; destruct (settle_through_queues _ !! key) as [[|next rest]|]; try done; by rewrite H2.
Qed.

(** The next settlement of a channel belongs to a token of the channel, so launching it
    stores nothing. *)
Lemma drain_tokens key s :
  idle_at cfg key s -> tokens (shared (drain_settlement_queue cfg key s)) = tokens (shared s).
Proof.
  intros H. unfold drain_settlement_queue. cbv zeta.
  destruct (settlement_queues (books s) !! key) as [[|next rest]|] eqn:Eq.
  2: { match goal with |- context [launch_settlement cfg key next ?x] =>
         destruct (launch_effect cfg key next x) as (r & _ & ->); [eapply (s_queue _ _ _ _ H); [exact Eq|by left]|done] end. }
  all: destruct (settle_through_queues _ !! key) as [[|next rest]|] eqn:Et; try done.
  all: match goal with |- context [launch_settle_through ?c ?k ?p ?x] =>
         destruct (launch_through_effect c k p x) as (r & w & ->); [eapply (s_through _ _ _ _ H); [exact Et|by left]|done] end.
Qed.

(** What a state shows of one delivery. *)
Definition shows (n : nat) (st : DeliveryState) (s : State) : Prop :=
  exists t, tokens (shared s) !! n = Some t /\ tk_state t = st.

(** The delivery is in the ledger of its channel. *)
Definition held (k : ChannelKey) (tag : Z) (s : State) : Prop :=
  exists l, channel_ledgers (books s) !! k = Some l /\ is_Some (pending l !! tag).

Lemma shows_store n st s : is_Some (tokens (shared s) !! n) -> shows n st (store_state n st s).
Proof. intros [t Ht]. exists (set_state st t). simpl. by rewrite list_lookup_alter_eq, Ht. Qed.

Lemma tok_ext_some ts ts' n : tok_ext ts ts' -> is_Some (ts !! n) -> is_Some (ts' !! n).
Proof. intros Hx [t Ht]. destruct (Hx n t Ht) as (t' & -> & _). by eexists. Qed.

Lemma fail_same n kind m s :
  tokens (shared (fail_token n kind m s)) = tokens (shared s) /\
  channel_ledgers (books (fail_token n kind m s)) = channel_ledgers (books s).
Proof. unfold fail_token. by destruct (_ !! n). Qed.

(** A settlement that may be tried again: the token is pending and the ledger as before. *)
Lemma complete_retryable key n t e s :
  tokens (shared s) !! n = Some t -> idle_at cfg key (clear_in_flight key s) -> terminal_kind (ce_kind e) = false ->
  shows n Pending (complete_settlement cfg key n (Err e) s) /\
  channel_ledgers (books (complete_settlement cfg key n (Err e) s)) = channel_ledgers (books s).
Proof.
  intros Ht Hi Hk. unfold complete_settlement. rewrite Ht. cbv zeta. rewrite Hk.
  match goal with |- context [drain_settlement_queue cfg key ?x] => set (s1 := x) end.
  assert (s1 = fail_token n (ce_kind e) (ce_message e) (store_state n Pending (store_settling n false (clear_in_flight key s)))) as E1.
  { unfold s1. by destruct (ce_kind e). }
  assert (quiet (clear_in_flight key s) s1) as Hq.
  { rewrite E1. etrans; [|apply quiet_fail]. etrans; by apply quiet_upd_token. }
  destruct (fail_same n (ce_kind e) (ce_message e) (store_state n Pending (store_settling n false (clear_in_flight key s)))) as [F1 F2].
  split; [|by rewrite drain_ledgers, E1, F2]. unfold shows.
  rewrite drain_tokens by (by eapply quiet_idle). rewrite E1, F1. apply shows_store. simpl.
  rewrite list_lookup_alter_eq, Ht. by eexists.
Qed.

(** The state that a settlement which ends for good leaves the token in. *)
Definition final_state (r : RuntimeSubscription) (res : result DeliveryState ConsumerError) : DeliveryState :=
  match res with
  | Ok terminal => terminal
  | Err e =>
      match ce_kind e with
      | CMaxAttempts | CInvalidDelay => if rt_has_dead_letter r then Rejected else Acked
      | _ => Lost
      end
  end.

(** A settlement that ends for good: the token shows how and the delivery has left the
    ledger. *)
Lemma complete_final key n t tag r res s :
  tokens (shared s) !! n = Some t -> named cfg (tokens (shared s)) n key tag ->
  c_subscriptions cfg !! key.1.1 = Some r -> idle_at cfg key (clear_in_flight key s) ->
  (forall e, res = Err e -> terminal_kind (ce_kind e) = true) ->
  shows n (final_state r res) (complete_settlement cfg key n res s) /\
  ~ held key tag (complete_settlement cfg key n res s) /\
  (forall e, res = Err e -> ce_kind e = CMaxAttempts \/ ce_kind e = CInvalidDelay ->
     own_task key tag (spawned (shared (complete_settlement cfg key n res s)))).
Proof.
  intros Ht Hn Hr Hi Hk. destruct (named_key cfg _ _ _ _ _ Hn Ht) as (Etag & r' & Hr' & Hkey & Hlive).
  assert (r' = r) as -> by (rewrite Hkey in Hr; cbn in Hr; congruence).
  unfold complete_settlement. rewrite Ht. cbv zeta. rewrite Etag.
  set (s1 := if (match res with Ok _ => true | Err e => terminal_kind (ce_kind e) end) then _ else _).
  assert (quiet (clear_in_flight key s) s1 /\ ~ held key tag s1) as [Hq1 Hh1].
  { unfold s1. assert ((match res with Ok _ => true | Err e => terminal_kind (ce_kind e) end) = true) as ->
      by (destruct res; [done|by apply Hk]). split.
    - etrans; [|apply quiet_ledger_remove]. etrans; [|apply quiet_try_drain]. destruct res as [[]|]; by apply quiet_same.
    - unfold held, ledger_remove. set (x := try_drain_pending cfg _). clearbody x.
      destruct (channel_ledgers (books x) !! key) as [l|] eqn:El; [|by intros (l & Hl & _); rewrite El in Hl].
      intros (l' & Hl' & [e He]). cbn in Hl'. rewrite lookup_insert_eq in Hl'. injection Hl' as <-. cbn in He.
      by rewrite lookup_delete_eq in He. }
  clearbody s1. set (s2 := store_settling n false s1).
  assert (quiet (clear_in_flight key s) s2 /\ ~ held key tag s2) as [Hq2 Hh2]
    by (split; [etrans; [exact Hq1|by apply quiet_upd_token]|exact Hh1]).
  assert (is_Some (tokens (shared s2) !! n)) as H2 by (eapply tok_ext_some; [apply Hq2|by eexists]).
  clearbody s2.
  match goal with |- context [drain_settlement_queue cfg key ?x] => set (s3 := x) end.
  assert (quiet s2 s3 /\ shows n (final_state r res) s3 /\ channel_ledgers (books s3) = channel_ledgers (books s2) /\
    (forall e, res = Err e -> ce_kind e = CMaxAttempts \/ ce_kind e = CInvalidDelay -> own_task key tag (spawned (shared s3))))
    as (Hq3 & Hsh & El & Hsp).
  { unfold s3. destruct res as [st|e].
    - split; [by apply quiet_upd_token|]. split; [by apply shows_store|]. by split.
    - specialize (Hk e eq_refl).
      assert (Hlost : forall k, quiet s2 (fail_token n k (ce_message e) (store_state n Lost s2)) /\
        shows n Lost (fail_token n k (ce_message e) (store_state n Lost s2)) /\
        channel_ledgers (books (fail_token n k (ce_message e) (store_state n Lost s2))) = channel_ledgers (books s2)).
      { intros k. destruct (fail_same n k (ce_message e) (store_state n Lost s2)) as [F1 F2].
        split; [etrans; [|apply quiet_fail]; by apply quiet_upd_token|]. split; [|by rewrite F2]. unfold shows. rewrite F1. by apply shows_store. }
      unfold final_state. destruct (ce_kind e) eqn:Ek; try done.
      1, 2: destruct (Hlost (ce_kind e)) as (L1 & L2 & L3); rewrite Ek in *; split; [done|]; split; [done|]; split; [done|];
            intros e' [= <-] [?|?]; congruence.
      all: rewrite Hr', Hlive; unfold poison_op; rewrite <- Hkey; destruct (rt_has_dead_letter r); cbv iota beta.
      all: match goal with |- quiet _ (record_settlement_error _ (store_state ?m ?st ?x)) /\ _ =>
             split; [trans x; [by apply quiet_same|]; trans (store_state m st x); [by apply quiet_upd_token|by apply quiet_same]|];
             split; [by apply (shows_store m st x)|]; split; [done|] end.
      all: intros _ _ _; cbn; first [left; apply elem_of_app; right; by apply list_elem_of_singleton|
             right; apply elem_of_app; right; by apply list_elem_of_singleton]. }
  clearbody s3. assert (idle_at cfg key s3) as Hi3 by (eapply quiet_idle; [|exact Hi]; by etrans).
  split; [unfold shows; by rewrite drain_tokens|]. split; [unfold held; by rewrite drain_ledgers, El|].
  by rewrite (hu_spawned _ _ (hush_drain_queue cfg key s3)).
Qed.

End Release.

(** ** Releases in the consumer system *)

Section System.
Variable sha256 : string -> string.
Variable subs : list Subscription.

(** What a step added to the wire and to the publications. *)
Definition sent (s s' : Sys) (pubs : list PublishRequest) (ops : list WireOp) : Prop :=
  published (shared (st s')) = published (shared (st s)) ++ pubs /\ wire (shared (st s')) = wire (shared (st s)) ++ ops.

(** A delay that no strategy can honour, or one attempt too many. *)
Definition is_poison (e : ConsumerError) : bool :=
  match ce_kind e with CMaxAttempts | CInvalidDelay => true | _ => false end.

Lemma delayed_request_error r t delay now e :
  delayed_request sha256 r t delay now = Err e -> terminal_kind (ce_kind e) = is_poison e.
Proof.
  unfold delayed_request. repeat match goal with
    | |- context [ok_or ?o ?x] => destruct o; cbn [ok_or]
    | |- context [map_err ?f ?x] => destruct x; cbn [map_err]
    end; by intros [= <-].
Qed.

(** The arm of the select loop, from a reachable state. *)
Lemma settled_step i a s s' p t tag :
  reach sha256 subs s -> sys_step sha256 subs (LSettled i a) s = Some s' ->
  pending_settlements (books (st s)) !! i = Some p -> tokens (shared (st s)) !! sp_token (ps_params p) = Some t ->
  tk_delivery_tag t = tag ->
  exists r res ops pubs s1,
    ps_launch p = r /\ ensure_live_generation r t = Ok tt /\ c_subscriptions (config_of subs) !! (ps_key p).1.1 = Some r /\
    execute_settlement sha256 a (ps_key p) r (sp_settlement (ps_params p)) t = (res, ops, pubs) /\
    st s' = complete_settlement (config_of subs) (ps_key p) (sp_token (ps_params p)) res s1 /\
    named (config_of subs) (tokens (shared s1)) (sp_token (ps_params p)) (ps_key p) tag /\
    tokens (shared s1) !! sp_token (ps_params p) = Some t /\
    idle_at (config_of subs) (ps_key p) (clear_in_flight (ps_key p) s1) /\
    channel_ledgers (books s1) = channel_ledgers (books (st s)) /\ sent s s' pubs ops.
Proof.
  intros Hr Hs Hp Ht <-. pose proof (reach_serial _ _ s Hr) as Hser. cbn [sys_step] in Hs. destruct (open s); [|done].
  apply fmap_Some in Hs as (x & Hx & ->). unfold settlement_done in Hx.
  destruct (take_nth i _) as [[p' rest]|] eqn:Ep; [|done].
  assert (p' = p) as -> by (unfold take_nth in Ep; rewrite Hp in Ep; congruence). rewrite Ht in Hx.
  destruct (s_settling _ _ _ _ Hser p) as [(tag & Hn) Hl]; [by eapply list_elem_of_lookup_2|].
  unfold cfg in *. destruct (named_key _ _ _ _ _ _ Hn Ht) as (Etag & r & Hr' & Hk & Hlive). pose proof Hl as Hl'. rewrite Hk in Hl'.
  unfold runtime_key in Hl'. cbn [fst] in Hl'. rewrite Hr' in Hl'. injection Hl' as Hl'.
  destruct (execute_settlement _ _ _ _ _ _) as [[res ops] pubs] eqn:E. injection Hx as <-.
  match goal with |- context [complete_settlement _ _ _ res ?x] => set (s1 := x) end.
  exists r, res, ops, pubs, s1. rewrite Hl', <- Etag in *.
  assert (calm (config_of subs) s1 (complete_settlement (config_of subs) (ps_key p) (sp_token (ps_params p)) res s1)) as Hc.
  { apply (onward_complete_settlement _ _ _ t (tk_delivery_tag t)); [done|done|].
    pose proof (executed_own_op _ _ _ _ _ _ _ _ _ Hlive E) as Hx.
    assert (Hw : own_op (ps_key p) (tk_delivery_tag t) ops -> own_op (ps_key p) (tk_delivery_tag t) (wire (shared s1))).
    { intros [Hin|(q & Hin)]; [left|right; exists q]; simpl; apply elem_of_app; by right. }
    destruct res; [by apply Hw|]. intros Hk'. destruct (Hx Hk') as [?|?]; [left; by apply Hw|by right]. }
  repeat (split; [done|]). split; [|split; [done|]].
  - destruct (release_settlement _ _ _ _ _ Ep Hser) as [Hi _]. eapply quiet_idle; [|exact Hi]. by apply quiet_same.
  - split; cbn [st]; [by rewrite (ca_published _ _ _ Hc)|by rewrite (ca_wire _ _ _ Hc)].
Qed.


End System.

(** ** Witness *)

(** A delivery is released with a delay of five seconds; the publisher confirms the copy
    and the acknowledgement of the original fails. *)
Definition released : list Label :=
  [LIncoming "jobs" (Ok (job 9)); LTryNext; LTrySettle 0 (SRelease (from_secs 5)) 0; LControl].

Definition ack_fails : Answers := mkAnswers (Err (te_new Connection "reset")) (Ok (Confirmed "m9")) 0.

Definition released_sys : Sys := default start (run toy_digest jobs released start).
Definition copied_sys : Sys := default start (sys_step toy_digest jobs (LSettled 0 ack_fails) released_sys).


End ConsumerRelease.
