(* ===== verification/ConsumerScenarios.v ===== *)
(** * Runs of the consumer set worth knowing

    Concrete runs of [ConsumerSystem] that show how the code behaves in
    corners its comments describe differently or not at all. *)

From S2P Require Import Prelude Transport Publication Scheduler Attempts DelayTopology DelayRouting.
From S2P Require Import Prefetch Delivery ConsumerActor ConsumerInv ConsumerBounds ConsumerFifo.
From S2P Require Import ConsumerSerial ConsumerSystem.
Import Transport Publication DelayTopology Delivery ConsumerActor ConsumerSystem.
Local Open Scope Z_scope.

Module ConsumerScenarios.

(** ** Early acknowledgement never shrinks the ledger *)

Definition fast_runtime : RuntimeSubscription :=
  mkRuntime 1 7 3 None None None true false None false "fast" (Fixed 4).

Definition fast : list Subscription :=
  [mkSubscription "fast" fast_runtime (Scheduler.mkPolicy 1) 1000].

Definition fast_key : ChannelKey := ("fast", 3, 7)%string.

(** Three deliveries, each handed out and acknowledged at once. *)
Definition fast_run : list Label :=
  [LIncoming "fast" (Ok (job 1)); LTryNext; LSpawned 0; LIncoming "fast" (Ok (job 2)); LTryNext; LSpawned 0;
   LIncoming "fast" (Ok (job 3)); LTryNext; LSpawned 0].

Definition ledger_tags (k : ChannelKey) (s : State) : list Z :=
  match channel_ledgers (books s) !! k with Some l => (map_to_list (pending l)).*1 | None => [] end.

Lemma early_ack_ledger_leak :
  match run toy_digest fast fast_run (mkSys (actor_new fast []) [] [] true None) with
  | Some s =>
      wire (shared (st s)) = [WAck fast_key 1 false; WAck fast_key 2 false; WAck fast_key 3 false] /\
      popped s = [0; 1; 2]%nat /\ flume (intake (st s)) = [] /\ spawned (shared (st s)) = [] /\
      buffered_bytes (intake (st s)) !! "fast"%string = Some 0 /\
      length (ledger_tags fast_key (st s)) = 3%nat
  | None => False
  end.
Proof. vm_compute. repeat split. Qed.

(** ** A reject in flight and a settle-through over it *)

Definition overlapping : list Label :=
  [LIncoming "jobs" (Ok (job 1)); LIncoming "jobs" (Ok (job 2)); LIncoming "jobs" (Ok (job 3));
   LTryNext; LTryNext; LTryNext; LTrySettle 0 (SReject false) 0; LControl;
   LTrySettleThrough 1 0; LControl; LSettled 0 wire_ok; LThrough 0 wire_ok].

Lemma overlapping_settle_through :
  match run toy_digest jobs overlapping start with
  | Some s =>
      wire (shared (st s)) = [WReject jobs_key 1 false; WAck jobs_key 2 true] /\
      tk_state <$> tokens (shared (st s)) = [Acked; Acked; Pending] /\
      ledger_tags jobs_key (st s) = [3] /\
      buffered_bytes (intake (st s)) !! "jobs"%string = Some 0
  | None => False
  end.
Proof. vm_compute. repeat split. Qed.

(** ** A poison delivery ends the dispatch pass *)

(** A delivery whose attempts exceed the maximum. *)
Definition poison (tag : Z) : TransportDelivery :=
  mkTransportDelivery tag "shop" "orders" true None None
    [("x-rabbit-rs-attempts"%string, Integer 9)] "payload".

Definition two_subs : list Subscription :=
  jobs ++ [mkSubscription "mail"
    (mkRuntime 1 7 4 None None None false false (Some 3) true "mail" (Fixed 4)) (Scheduler.mkPolicy 1) 1000].

(** [mail] fills the flume and [jobs] has one poison delivery. After the
    embedder took everything, the next pass settles the poison delivery, picks
    the now empty buffer of [jobs] again and breaks: the deliveries of [mail]
    stay buffered although the flume is empty. *)
Definition stall : list Label :=
  ((fun t => LIncoming "mail" (Ok (job t))) <$> seqZ 1 19) ++
  [LIncoming "jobs" (Ok (poison 1))] ++ replicate 16 LTryNext ++ [LNotified].

Lemma dispatch_stall :
  match run toy_digest two_subs stall (mkSys (actor_new two_subs []) [] [] true None) with
  | Some s =>
      flume (intake (st s)) = [] /\ length <$> buffers (intake (st s)) !! "mail"%string = Some 3%nat
  | None => False
  end.
Proof. vm_compute. repeat split. Qed.

(** ** A cumulative acknowledgement overtakes the reject of a poison delivery *)

Definition overtaken : list Label :=
  [LIncoming "jobs" (Ok (job 1)); LIncoming "jobs" (Ok (poison 2)); LIncoming "jobs" (Ok (job 3));
   LNotified; LTryNext; LTryNext; LTrySettle 0 SAck 0; LTrySettle 1 SAck 0; LControl; LControl; LFlush;
   LThrough 0 wire_ok; LSpawned 0].

Lemma poison_reject_overtaken :
  match run toy_digest jobs overtaken start with
  | Some s => wire (shared (st s)) = [WAck jobs_key 3 true; WReject jobs_key 2 false]
  | None => False
  end.
Proof. vm_compute. reflexivity. Qed.

(** ** A stashed error is overwritten by the next one *)

Definition broken (m : string) : result TransportDelivery TransportError := Err (te_new Connection m).

(** Two batches, each with a delivery followed by a source error. *)
Definition two_errors : list Label :=
  [LIncoming "jobs" (Ok (job 1)); LIncoming "jobs" (broken "first"); LIncoming "jobs" (Ok (job 2));
   LIncoming "jobs" (broken "second"); LTryNextBatch 10; LTryNextBatch 10].

Lemma stashed_error_lost :
  match run toy_digest jobs two_errors start with
  | Some s =>
      popped s = [0; 1]%nat /\ flume (intake (st s)) = [] /\
      ce_message <$> pending_error s = Some "second"%string
  | None => False
  end.
Proof. vm_compute. repeat split. Qed.

End ConsumerScenarios.
