(* ===== verification/ConsumerPump.v ===== *)
(** * The pump of a subscription

    Models [build_sources], [spawn_source] and [close_subscription_channels] of
    [consumer/set.rs]: how the channels of a consumer set are configured, and
    the task that forwards the deliveries of one subscription to the consumer
    actor and applies the windows the adaptive controller asks for by cancelling
    and re-registering its consumer.

    A pump is a program counter over its [await] points ([Phase]); each pump
    label is what happens between two of them. What the channel answers is part
    of the label. The channel and the stream of its consumer are state outside
    the pump: the broker appends to the stream of a registered consumer, a
    cancelled or lost consumer's stream ends after what it still holds. *)

From S2P Require Import Prelude Transport Publication DelayTopology Prefetch Delivery ConsumerActor.
Import Transport Delivery.
Local Open Scope Z_scope.
Local Open Scope string_scope.

Module ConsumerPump.

Abbreviation Subscription := ConsumerActor.Subscription.
Abbreviation Streamed := (result TransportDelivery TransportError).

(** ** Channel calls *)

Record ConsumerRequest := mkConsumerRequest {
  cr_queue : string;
  cr_consumer_tag : string;
  cr_exclusive : bool;
  cr_no_ack : bool
}.

Inductive ChannelOp :=
| OpSetQos (value : Z)
| OpConsume (request : ConsumerRequest)
| OpCancel (consumer_tag : string)
| OpClose.

#[global] Instance ConsumerRequest_eq_dec : EqDecision ConsumerRequest.
Proof. solve_decision. Defined.
#[global] Instance ChannelOp_eq_dec : EqDecision ChannelOp.
Proof. solve_decision. Defined.

Definition s_prefetch (s : Subscription) : ConsumerActor.PrefetchConfig :=
  ConsumerActor.rt_prefetch (ConsumerActor.s_runtime s).

Definition consumer_tag (id : string) : string := "rabbit-rs." +:+ id.

Definition consumer_request (s : Subscription) : ConsumerRequest :=
  mkConsumerRequest (ConsumerActor.rt_queue (ConsumerActor.s_runtime s)) (consumer_tag (ConsumerActor.s_id s))
    false (ConsumerActor.rt_no_ack (ConsumerActor.s_runtime s)).

(** [SourceSpec]: the stream and the channel are the pump's surroundings, the
    watch starts with [sp_qos]. *)
Record SourceSpec := mkSourceSpec {
  sp_id : string;
  sp_consumer_tag : string;
  sp_queue : string;
  sp_no_ack : bool;
  sp_qos : Z
}.

(** ** [build_sources] *)

Section Build.
(** What the channel of a subscription answers to a call. *)
Variable answer : string -> ChannelOp -> result unit TransportError.

Abbreviation CallLog := (list (string * ChannelOp)).

Definition close_subscription_channels (subscriptions : list Subscription) : CallLog :=
  (fun s => (ConsumerActor.s_id s, OpClose)) <$> subscriptions.

Definition spec_of (s : Subscription) : SourceSpec :=
  let request := consumer_request s in
  mkSourceSpec (ConsumerActor.s_id s) (cr_consumer_tag request) (cr_queue request) (cr_no_ack request)
    (ConsumerActor.initial_value (s_prefetch s)).

Fixpoint build_loop (all todo : list Subscription) (qos_txs : gmap string Z) (sources : list SourceSpec)
    (log : CallLog) : result (gmap string Z * list SourceSpec) ConsumerError * CallLog :=
  match todo with
  | [] => (Ok (qos_txs, sources), log)
  | s :: todo' =>
      let id := ConsumerActor.s_id s in
      let qos := OpSetQos (ConsumerActor.initial_value (s_prefetch s)) in
      let log := (log ++ [(id, qos)])%list in
      match answer id qos with
      | Err error => (Err (ce_from_transport error), (log ++ close_subscription_channels all)%list)
      | Ok _ =>
          let consume := OpConsume (consumer_request s) in
          let log := (log ++ [(id, consume)])%list in
          match answer id consume with
          | Err error => (Err (ce_from_transport error), (log ++ close_subscription_channels all)%list)
          | Ok _ =>
              build_loop all todo' (<[id := ConsumerActor.initial_value (s_prefetch s)]> qos_txs)
                (sources ++ [spec_of s])%list log
          end
      end
  end.

Definition build_sources (subscriptions : list Subscription)
  : result (gmap string Z * list SourceSpec) ConsumerError * CallLog :=
  build_loop subscriptions subscriptions ∅ [] [].

End Build.

(** ** The pump *)

(** Where the pump waits: in [select!], on a call of the channel, on the
    command channel (with [true] when it returns afterwards). *)
Inductive Phase :=
| Select
| Sending (result : Streamed) (last : bool)
| Cancelling (value : Z)
| SettingQos (value : Z)
| Consuming
| Stopped.

(** The receiver of the [watch]: the value, whether it was seen, and whether the
    sender lives. *)
Record Watch := mkWatch { w_value : Z; w_changed : bool; w_open : bool }.

(** The channel: the window it applies, whether the broker knows the consumer,
    and the consumer's stream. [ch_ops] are the calls made, [ch_streamed]
    everything any stream of the subscription was given. *)
Record Channel := mkChannel {
  ch_qos : Z;
  ch_registered : bool;
  ch_alive : bool;
  ch_stream : list Streamed;
  ch_stream_open : bool;
  ch_ops : list ChannelOp;
  ch_streamed : list Streamed
}.

Record Pump := mkPump {
  p_phase : Phase;
  p_pending_qos : option Z;
  p_actor_alive : bool;
  p_watch : Watch;
  p_channel : Channel;
  p_sent : list Streamed           (* what the command channel was given *)
}.

Definition set_phase (ph : Phase) (p : Pump) : Pump :=
  mkPump ph (p_pending_qos p) (p_actor_alive p) (p_watch p) (p_channel p) (p_sent p).
Definition set_pending (q : option Z) (p : Pump) : Pump :=
  mkPump (p_phase p) q (p_actor_alive p) (p_watch p) (p_channel p) (p_sent p).
Definition set_watch (w : Watch) (p : Pump) : Pump :=
  mkPump (p_phase p) (p_pending_qos p) (p_actor_alive p) w (p_channel p) (p_sent p).
Definition set_channel (c : Channel) (p : Pump) : Pump :=
  mkPump (p_phase p) (p_pending_qos p) (p_actor_alive p) (p_watch p) c (p_sent p).

Definition call (op : ChannelOp) (c : Channel) : Channel :=
  mkChannel (ch_qos c) (ch_registered c) (ch_alive c) (ch_stream c) (ch_stream_open c) (ch_ops c ++ [op])
    (ch_streamed c).

Definition connection_error (message : string) : TransportError := te_new Connection message.

Inductive Label :=
(* the pump *)
| PNext                                          (* [stream.next()] yields *)
| PEnd                                           (* [stream.next()] is [None] *)
| PChanged                                       (* [qos_rx.changed()] is [Ok] *)
| PParked                                        (* [qos_rx.changed()] is [Err] *)
| PSend (accepted : bool)                        (* the send completes *)
| PCancel (answer : result unit TransportError)
| PSetQos (answer : result unit TransportError)
| PConsume (answer : result unit TransportError)
(* its surroundings *)
| EDispatch (d : TransportDelivery)              (* the broker delivers *)
| EStreamError (e : TransportError)              (* the transport reports on the stream *)
| ECancelled                                     (* the broker cancels the consumer *)
| ELost                                          (* the channel is lost *)
| ERequest (value : Z)                           (* the actor publishes a window *)
| EActorGone.                                    (* the actor drops the sender *)

Section Spec.
Variable spec : SourceSpec.

Definition request : ConsumerRequest :=
  mkConsumerRequest (sp_queue spec) (sp_consumer_tag spec) false (sp_no_ack spec).

(** The stream yields: forward the item. *)
Definition on_next (p : Pump) : option Pump :=
  let c := p_channel p in
  match p_phase p, ch_stream c with
  | Select, it :: rest =>
      Some (set_phase (Sending it false)
        (set_channel (mkChannel (ch_qos c) (ch_registered c) (ch_alive c) rest (ch_stream_open c) (ch_ops c)
           (ch_streamed c)) p))
  | _, _ => None
  end.

(** The stream ends: a terminal error, or the deliberate cancellation's
    [set_qos]. *)
Definition on_end (p : Pump) : option Pump :=
  match p_phase p, ch_stream (p_channel p), ch_stream_open (p_channel p) with
  | Select, [], false =>
      Some (match p_pending_qos p with
            | None => set_phase (Sending (Err (connection_error "consumer delivery stream ended")) true) p
            | Some value => set_phase (SettingQos value) (set_pending None p)
            end)
  | _, _, _ => None
  end.

Definition on_changed (p : Pump) : option Pump :=
  match p_phase p, p_actor_alive p, w_changed (p_watch p) with
  | Select, true, true =>
      let value := w_value (p_watch p) in
      let p := set_watch (mkWatch value false (w_open (p_watch p))) p in
      Some (match p_pending_qos p with
            | None => set_phase (Cancelling value) p
            | Some _ => set_pending (Some value) p
            end)
  | _, _, _ => None
  end.

(** [changed] reports an unseen value before it reports the dropped sender. *)
Definition on_parked (p : Pump) : option Pump :=
  match p_phase p, p_actor_alive p, w_changed (p_watch p), w_open (p_watch p) with
  | Select, true, false, false => Some (mkPump Select (p_pending_qos p) false (p_watch p) (p_channel p) (p_sent p))
  | _, _, _, _ => None
  end.

(** A pump whose receiver is gone returns; so does one that sent its last. *)
Definition on_send (accepted : bool) (p : Pump) : option Pump :=
  match p_phase p with
  | Sending it last =>
      Some (mkPump (if accepted && negb last then Select else Stopped) (p_pending_qos p) (p_actor_alive p) (p_watch p)
              (p_channel p) (if accepted then (p_sent p ++ [it])%list else p_sent p))
  | _ => None
  end.

Definition fail (prefix : string) (error : TransportError) (p : Pump) : Pump :=
  set_phase (Sending (Err (connection_error (prefix +:+ te_message error))) true) p.

Definition on_cancel (answer : result unit TransportError) (p : Pump) : option Pump :=
  match p_phase p with
  | Cancelling value =>
      let c := call (OpCancel (sp_consumer_tag spec)) (p_channel p) in
      match answer with
      | Err error => Some (fail "adaptive prefetch cancel failed: " error (set_channel c p))
      | Ok _ =>
          if ch_alive c then
            Some (set_phase Select (set_pending (Some value) (set_channel
              (mkChannel (ch_qos c) false true (ch_stream c) false (ch_ops c) (ch_streamed c)) p)))
          else None
      end
  | _ => None
  end.

Definition on_set_qos (answer : result unit TransportError) (p : Pump) : option Pump :=
  match p_phase p with
  | SettingQos value =>
      let c := call (OpSetQos value) (p_channel p) in
      match answer with
      | Err error => Some (fail "adaptive prefetch resize set_qos failed: " error (set_channel c p))
      | Ok _ =>
          if ch_alive c then
            Some (set_phase Consuming (set_channel
              (mkChannel value (ch_registered c) true (ch_stream c) (ch_stream_open c) (ch_ops c) (ch_streamed c)) p))
          else None
      end
  | _ => None
  end.

Definition on_consume (answer : result unit TransportError) (p : Pump) : option Pump :=
  match p_phase p with
  | Consuming =>
      let c := call (OpConsume request) (p_channel p) in
      match answer with
      | Err error => Some (fail "adaptive prefetch re-consume failed: " error (set_channel c p))
      | Ok _ =>
          if ch_alive c then
            Some (set_phase Select (set_channel
              (mkChannel (ch_qos c) true true [] true (ch_ops c) (ch_streamed c)) p))
          else None
      end
  | _ => None
  end.

(** The broker and the transport put something on the consumer's stream. *)
Definition stream_push (it : Streamed) (p : Pump) : option Pump :=
  let c := p_channel p in
  if ch_stream_open c then
    Some (set_channel (mkChannel (ch_qos c) (ch_registered c) (ch_alive c) (ch_stream c ++ [it]) true (ch_ops c)
            (ch_streamed c ++ [it])) p)
  else None.

(** The consumer is gone at the broker: its stream ends after what it holds. *)
Definition consumer_gone (alive : bool) (p : Pump) : Pump :=
  let c := p_channel p in
  set_channel (mkChannel (ch_qos c) false (alive && ch_alive c) (ch_stream c) false (ch_ops c) (ch_streamed c)) p.

Definition pump_step (l : Label) (p : Pump) : option Pump :=
  match l with
  | PNext => on_next p
  | PEnd => on_end p
  | PChanged => on_changed p
  | PParked => on_parked p
  | PSend accepted => on_send accepted p
  | PCancel answer => on_cancel answer p
  | PSetQos answer => on_set_qos answer p
  | PConsume answer => on_consume answer p
  | EDispatch d => if ch_registered (p_channel p) then stream_push (Ok d) p else None
  | EStreamError e => stream_push (Err e) p
  | ECancelled => Some (consumer_gone true p)
  | ELost => Some (consumer_gone false p)
  | ERequest value => if w_open (p_watch p) then Some (set_watch (mkWatch value true true) p) else None
  | EActorGone => Some (set_watch (mkWatch (w_value (p_watch p)) (w_changed (p_watch p)) false) p)
  end.

(** The pump [spawn_source] starts on the channel [build_sources] configured. *)
Definition spawn_source : Pump :=
  mkPump Select None true (mkWatch (sp_qos spec) false true)
    (mkChannel (sp_qos spec) true true [] true [OpSetQos (sp_qos spec); OpConsume request] []) [].

Inductive reach : Pump -> Prop :=
| reach_spawn : reach spawn_source
| reach_step l p p' : reach p -> pump_step l p = Some p' -> reach p'.

Fixpoint run (ls : list Label) (p : Pump) : option Pump :=
  match ls with
  | [] => Some p
  | l :: ls' => match pump_step l p with Some p' => run ls' p' | None => None end
  end.

Lemma source_run_reach ls : forall p p', reach p -> run ls p = Some p' -> reach p'.
Proof.
  induction ls as [|l ls IH]; intros p p' Hr; simpl; [by intros [= <-]|].
  destruct (pump_step l p) as [p1|] eqn:E; [|done]. apply IH. by eapply reach_step.
Qed.

End Spec.
End ConsumerPump.
