(* ===== verification/ConsumerPumpSystem.v ===== *)
(** * What a subscription's pump guarantees

    Over every interleaving of the pump with the broker, the actor and the
    connection: deliveries are forwarded once and in order, across resizes; a
    consumer is registered only after its predecessor was cancelled; the window
    the controller asked for is applied as soon as the pump has nothing left to
    do; a pump that stops tells the actor. *)

From S2P Require Import Prelude Transport Publication DelayTopology Prefetch Delivery ConsumerActor ConsumerPump.
Import Transport Delivery ConsumerPump.
Local Open Scope Z_scope.

Module ConsumerPumpSystem.

(** ** Configuring the channels *)

Section Build.
Variable answer : string -> ChannelOp -> result unit TransportError.

Definition calls_of (s : Subscription) : list (string * ChannelOp) :=
  [(ConsumerActor.s_id s, OpSetQos (ConsumerActor.initial_value (s_prefetch s)));
   (ConsumerActor.s_id s, OpConsume (consumer_request s))].

Definition accepts (s : Subscription) : bool := forallb (fun c => is_ok (answer c.1 c.2)) (calls_of s).

Definition watches (subs : list Subscription) (m : gmap string Z) : gmap string Z :=
  foldl (fun m s => <[ConsumerActor.s_id s := ConsumerActor.initial_value (s_prefetch s)]> m) m subs.

(** What [build_sources] returns and calls. *)
Inductive Built (all todo : list Subscription) (m : gmap string Z) (l : list SourceSpec) (log : list (string * ChannelOp)) :
  result (gmap string Z * list SourceSpec) ConsumerError * list (string * ChannelOp) -> Prop :=
| built_all :
    forallb accepts todo = true ->
    Built all todo m l log (Ok (watches todo m, (l ++ (spec_of <$> todo))%list), (log ++ (todo ≫= calls_of))%list)
| built_failed before s after made op e :
    todo = (before ++ s :: after)%list -> forallb accepts before = true ->
    (made ++ [op])%list `prefix_of` calls_of s -> Forall (fun c => is_ok (answer c.1 c.2)) made ->
    answer op.1 op.2 = Err e ->
    Built all todo m l log
      (Err (ce_from_transport e), (log ++ (before ≫= calls_of) ++ made ++ [op] ++ close_subscription_channels all)%list).

Lemma build_loop_built all todo : forall m l log, Built all todo m l log (build_loop answer all todo m l log).
Proof.
  induction todo as [|s todo IH]; intros m l log; cbn [build_loop].
  { pose proof (built_all all [] m l log eq_refl) as H. cbn in H. by rewrite !app_nil_r in H. }
  destruct (answer _ (OpSetQos _)) as [[]|e] eqn:E1.
  2:{ rewrite <- (assoc_L app). eapply (built_failed _ _ _ _ _ [] s todo [] (_, _)); try done.
      by exists [(ConsumerActor.s_id s, OpConsume (consumer_request s))]. }
  destruct (answer _ (OpConsume _)) as [[]|e] eqn:E2.
  2:{ rewrite <- !(assoc_L app). eapply (built_failed _ _ _ _ _ [] s todo [(_, _)] (_, _)); try done.
      constructor; [cbn; by rewrite E1|done]. }
  assert (accepts s = true) as Hs by (unfold accepts; cbn; by rewrite E1, E2).
  destruct (IH (<[ConsumerActor.s_id s := ConsumerActor.initial_value (s_prefetch s)]> m) (l ++ [spec_of s])%list
              ((log ++ [(ConsumerActor.s_id s, OpSetQos (ConsumerActor.initial_value (s_prefetch s)))]) ++
               [(ConsumerActor.s_id s, OpConsume (consumer_request s))])%list)
    as [Ht|before x after made op e -> Hb Hm Hok He].
  - rewrite <- !(assoc_L app). apply (built_all all (s :: todo) m l log). cbn [forallb]. by rewrite Hs.
  - rewrite <- !(assoc_L app). eapply (built_failed _ _ _ _ _ (s :: before)); try done. cbn [forallb]. by rewrite Hs.
Qed.

End Build.

Section Pump.
Variable spec : SourceSpec.
Abbreviation reach := (ConsumerPump.reach spec).
Abbreviation pump_step := (ConsumerPump.pump_step spec).

(** ** The protocol of the channel *)

(** Registered, then cancelled, then the window set, then registered again. *)
Inductive Protocol := PRegistered | PCancelled | PQosSet.

Definition protocol_step (st : option Protocol) (op : ChannelOp) : option Protocol :=
  match st, op with
  | Some PRegistered, OpCancel tag => if bool_decide (tag = sp_consumer_tag spec) then Some PCancelled else None
  | Some PCancelled, OpSetQos _ => Some PQosSet
  | Some PQosSet, OpConsume r => if bool_decide (r = request spec) then Some PRegistered else None
  | _, _ => None
  end.

Definition protocol (ops : list ChannelOp) : option Protocol := foldl protocol_step (Some PCancelled) ops.

Lemma protocol_snoc ops op : protocol (ops ++ [op]) = protocol_step (protocol ops) op.
Proof. unfold protocol. by rewrite foldl_app. Qed.

(** ** The invariant *)

Definition in_hand (p : Pump) : list Streamed :=
  match p_phase p with Sending it false => [it] | _ => [] end.

(** The pump still forwards. *)
Definition running (p : Pump) : bool :=
  match p_phase p with Stopped | Sending _ true => false | _ => true end.

Definition is_connection_error (r : Streamed) : Prop := exists m, r = Err (connection_error m).

Definition at_protocol (p : Pump) (st : Protocol) : Prop := protocol (ch_ops (p_channel p)) = Some st.

(** What the pump will have asked the channel for when it selects again. *)
Definition window (p : Pump) : Z :=
  match p_phase p with
  | Cancelling v | SettingQos v => v
  | Consuming => ch_qos (p_channel p)
  | _ => default (ch_qos (p_channel p)) (p_pending_qos p)
  end.

Record pump_inv (p : Pump) : Prop := {
  pi_forwarded : exists fw rest term,
    ch_streamed (p_channel p) = (fw ++ rest)%list /\ p_sent p = (fw ++ term)%list /\
    (if running p then term = [] /\ rest = (in_hand p ++ ch_stream (p_channel p))%list
     else term = [] \/ p_phase p = Stopped /\ exists r, term = [r] /\ is_connection_error r);
  pi_last : forall r, p_phase p = Sending r true -> is_connection_error r;
  pi_ops : match p_phase p with
           | Cancelling _ => p_pending_qos p = None /\ at_protocol p PRegistered
           | SettingQos _ => p_pending_qos p = None /\ at_protocol p PCancelled
           | Consuming => p_pending_qos p = None /\ at_protocol p PQosSet
           | Select | Sending _ false =>
               at_protocol p (match p_pending_qos p with None => PRegistered | Some _ => PCancelled end)
           | _ => protocol (ch_ops (p_channel p)) <> None
           end;
  pi_stream : ch_registered (p_channel p) = ch_stream_open (p_channel p);
  pi_gone : match p_phase p with
            | SettingQos _ | Consuming => ch_stream (p_channel p) = [] /\ ch_stream_open (p_channel p) = false
            | Cancelling _ => True
            | _ => forall v, running p = true -> p_pending_qos p = Some v -> ch_stream_open (p_channel p) = false
            end;
  pi_window : running p = true -> w_changed (p_watch p) = false -> window p = w_value (p_watch p);
  pi_parked : p_actor_alive p = false -> w_open (p_watch p) = false /\ w_changed (p_watch p) = false
}.

Lemma pump_inv_spawn : pump_inv (spawn_source spec).
Proof.
  split; try done; cbn.
  - by exists [], [], [].
  - unfold at_protocol, protocol. cbn. by rewrite bool_decide_true.
Qed.

(** A step that leaves the pump where it is and neither feeds nor drains. *)
Lemma inv_outside p c w :
  pump_inv p ->
  ch_streamed c = ch_streamed (p_channel p) -> ch_stream c = ch_stream (p_channel p) ->
  ch_ops c = ch_ops (p_channel p) -> ch_qos c = ch_qos (p_channel p) -> ch_registered c = ch_stream_open c ->
  (ch_stream_open (p_channel p) = false -> ch_stream_open c = false) ->
  (w_changed w = false -> w_changed (p_watch p) = false /\ w_value w = w_value (p_watch p)) ->
  (w_open (p_watch p) = false -> w_open w = false /\ w_changed w = w_changed (p_watch p)) ->
  pump_inv (set_watch w (set_channel c p)).
Proof.
  intros [H1 H2 H3 H4 H5 H6 Hpk] E1 E2 E3 E4 E5 Hc Hw Ho.
  split; cbn; unfold at_protocol, window, running, in_hand in *; cbn in *; rewrite ?E1, ?E2, ?E3, ?E4; try done.
  - destruct (p_phase p); naive_solver.
  - intros Hr Hch. destruct (Hw Hch) as [Hu ->]. by apply H6.
  - intros Ha. destruct (Hpk Ha) as [Hop Hun]. destruct (Ho Hop) as [-> ->]. done.
Qed.

(** A call that failed: the error is the pump's last message. *)
Lemma inv_fail p op prefix e :
  pump_inv p -> running p = true -> protocol (ch_ops (p_channel p) ++ [op]) <> None ->
  pump_inv (fail prefix e (set_channel (call op (p_channel p)) p)).
Proof.
  intros [(fw & rest & term & E1 & E2 & E3) H2 H3 H4 H5 H6 Hpk] Hr Hp. rewrite Hr in E3. destruct E3 as [-> E3].
  split; cbn; try done.
  - exists fw, rest, []. split; [done|]. split; [done|]. by left.
  - intros r [= <-]. by eexists.
Qed.

Lemma inv_next p p' : pump_inv p -> on_next p = Some p' -> pump_inv p'.
Proof.
  intros [(fw & rest & term & E1 & E2 & E3) H2 H3 H4 H5 H6 Hpk]. unfold on_next.
  destruct (p_phase p) eqn:Ep, (ch_stream (p_channel p)) as [|it l] eqn:El; try done. intros [= <-].
  unfold running, in_hand, window, at_protocol in *. rewrite Ep in *. cbn in *. destruct E3 as [-> ->].
  split; cbn; try done. by exists fw, (it :: l), [].
Qed.

Lemma inv_end p p' : pump_inv p -> on_end p = Some p' -> pump_inv p'.
Proof.
  intros [(fw & rest & term & E1 & E2 & E3) H2 H3 H4 H5 H6 Hpk]. unfold on_end.
  destruct (p_phase p) eqn:Ep, (ch_stream (p_channel p)) as [|it l] eqn:El,
    (ch_stream_open (p_channel p)) eqn:Eo; try done. intros [= <-].
  unfold running, in_hand, window, at_protocol in *. rewrite Ep in *. cbn in *. destruct E3 as [-> ->].
  destruct (p_pending_qos p) as [v|] eqn:Eq; cbn in *; split; cbn; try done; rewrite ?Eo, ?El; try done.
  - by exists fw, [], [].
  - exists fw, [], []. split; [done|]. split; [done|]. by left.
  - intros r [= <-]. by eexists.
  - by rewrite H3.
Qed.

Lemma inv_changed p p' : pump_inv p -> on_changed p = Some p' -> pump_inv p'.
Proof.
  intros [(fw & rest & term & E1 & E2 & E3) H2 H3 H4 H5 H6 Hpk]. unfold on_changed.
  destruct (p_phase p) eqn:Ep, (p_actor_alive p) eqn:Ea, (w_changed (p_watch p)) eqn:Ew; try done. intros [= <-].
  unfold running, in_hand, window, at_protocol in *. cbn. rewrite Ep in *. cbn in *. destruct E3 as [-> ->].
  destruct (p_pending_qos p) as [v|] eqn:Eq; cbn in *; split; cbn; try done;
    unfold running, in_hand, window, at_protocol; cbn; rewrite ?Ep, ?Ea; try done;
    try (by exists fw, (ch_stream (p_channel p)), []).
  intros _ _ _. by apply (H5 v).
Qed.

Lemma inv_send accepted p p' : pump_inv p -> on_send accepted p = Some p' -> pump_inv p'.
Proof.
  intros [(fw & rest & term & E1 & E2 & E3) H2 H3 H4 H5 H6 Hpk]. unfold on_send.
  destruct (p_phase p) as [|it last| | | |] eqn:Ep; try done. intros [= <-].
  unfold running, in_hand, window, at_protocol in *. rewrite Ep in *. cbn in *. destruct last; cbn in *.
  - destruct E3 as [->|[? _]]; [|done]. rewrite app_nil_r in E2.
    destruct accepted; split; cbn; try done.
    + exists fw, rest, [it]. rewrite E2. split; [done|]. split; [done|]. right. eauto.
    + exists fw, rest, []. rewrite E2, app_nil_r. split; [done|]. split; [done|]. by left.
  - destruct E3 as [-> ->]. rewrite app_nil_r in E2.
    destruct accepted; split; cbn; try done.
    + exists (fw ++ [it])%list, (ch_stream (p_channel p)), []. rewrite E2, app_nil_r, E1. by rewrite <- (assoc_L app).
    + exists fw, (it :: ch_stream (p_channel p)), []. rewrite E2, app_nil_r. split; [done|]. split; [done|]. by left.
    + by rewrite H3.
Qed.

Lemma protocol_cancel p : at_protocol p PRegistered ->
  protocol (ch_ops (p_channel p) ++ [OpCancel (sp_consumer_tag spec)]) = Some PCancelled.
Proof. unfold at_protocol. intros E. rewrite protocol_snoc, E. cbn. by rewrite bool_decide_true. Qed.

Lemma protocol_qos p v : at_protocol p PCancelled ->
  protocol (ch_ops (p_channel p) ++ [OpSetQos v]) = Some PQosSet.
Proof. unfold at_protocol. intros E. by rewrite protocol_snoc, E. Qed.

Lemma protocol_consume p : at_protocol p PQosSet ->
  protocol (ch_ops (p_channel p) ++ [OpConsume (request spec)]) = Some PRegistered.
Proof. unfold at_protocol. intros E. rewrite protocol_snoc, E. cbn. by rewrite bool_decide_true. Qed.

Lemma inv_cancel answer p p' : pump_inv p -> on_cancel spec answer p = Some p' -> pump_inv p'.
Proof.
  intros Hi. unfold on_cancel. destruct (p_phase p) eqn:Ep; try done.
  pose proof (pi_ops _ Hi) as Ho. rewrite Ep in Ho. destruct Ho as [Hq Ho]. apply protocol_cancel in Ho.
  destruct answer as [[]|e]; [|intros [= <-]; apply inv_fail; [done|unfold running; by rewrite Ep|by rewrite Ho]].
  destruct Hi as [(fw & rest & term & E1 & E2 & E3) H2 H3 H4 H5 H6 Hpk]. cbn.
  destruct (ch_alive (p_channel p)); [|done]. intros [= <-].
  unfold running, in_hand, window, at_protocol in *. rewrite Ep in *. cbn in *. destruct E3 as [-> ->].
  split; cbn; try done. by exists fw, (ch_stream (p_channel p)), [].
Qed.

Lemma inv_set_qos answer p p' : pump_inv p -> on_set_qos answer p = Some p' -> pump_inv p'.
Proof.
  intros Hi. unfold on_set_qos. destruct (p_phase p) as [| | |v| |] eqn:Ep; try done.
  pose proof (pi_ops _ Hi) as Ho. rewrite Ep in Ho. destruct Ho as [Hq Ho]. apply (protocol_qos _ v) in Ho.
  destruct answer as [[]|e]; [|intros [= <-]; apply inv_fail; [done|unfold running; by rewrite Ep|by rewrite Ho]].
  destruct Hi as [(fw & rest & term & E1 & E2 & E3) H2 H3 H4 H5 H6 Hpk]. cbn.
  destruct (ch_alive (p_channel p)); [|done]. intros [= <-].
  unfold running, in_hand, window, at_protocol in *. rewrite Ep in *. cbn in *. destruct E3 as [-> ->].
  split; cbn; try done. by exists fw, (ch_stream (p_channel p)), [].
Qed.

Lemma inv_consume answer p p' : pump_inv p -> on_consume spec answer p = Some p' -> pump_inv p'.
Proof.
  intros Hi. unfold on_consume. destruct (p_phase p) eqn:Ep; try done.
  pose proof (pi_ops _ Hi) as Ho. rewrite Ep in Ho. destruct Ho as [Hq Ho]. apply protocol_consume in Ho.
  destruct answer as [[]|e]; [|intros [= <-]; apply inv_fail; [done|unfold running; by rewrite Ep|by rewrite Ho]].
  destruct Hi as [(fw & rest & term & E1 & E2 & E3) H2 H3 H4 H5 H6 Hpk]. cbn.
  destruct (ch_alive (p_channel p)); [|done]. intros [= <-].
  unfold running, in_hand, window, at_protocol in *. rewrite Ep in *. cbn in *. destruct E3 as [-> ->].
  destruct H5 as [El Eo]. rewrite El in E1.
  split; cbn; unfold running, window, at_protocol; cbn; rewrite ?Hq; try done. by exists fw, [], [].
Qed.

Lemma stream_push_inv it p p' : pump_inv p -> stream_push it p = Some p' -> pump_inv p'.
Proof.
  intros [(fw & rest & term & E1 & E2 & E3) H2 H3 H4 H5 H6 Hpk]. unfold stream_push.
  destruct (ch_stream_open (p_channel p)) eqn:Eo; [|done]. intros [= <-].
  split; cbn; try done.
  - change (running (set_channel _ p)) with (running p). change (in_hand (set_channel _ p)) with (in_hand p).
    exists fw, (rest ++ [it])%list, term. rewrite E1, (assoc_L app). split; [done|]. split; [done|].
    destruct (running p); [|done]. destruct E3 as [-> ->]. by rewrite (assoc_L app).
  - destruct (p_phase p); naive_solver.
Qed.

Lemma source_inv_step l p p' : pump_inv p -> pump_step l p = Some p' -> pump_inv p'.
Proof.
  intros Hi. destruct l; cbn [ConsumerPump.pump_step].
  - by apply inv_next.
  - by apply inv_end.
  - by apply inv_changed.
  - unfold on_parked. destruct (p_phase p) eqn:Ep, (p_actor_alive p), (w_changed (p_watch p)) eqn:Ew, (w_open (p_watch p)) eqn:Eo; try done.
    intros [= <-]. destruct Hi as [H1 H2 H3 H4 H5 H6 Hpk].
    unfold running, in_hand, window, at_protocol in *. rewrite Ep in *. by split.
  - by apply inv_send.
  - by apply inv_cancel.
  - by apply inv_set_qos.
  - by apply inv_consume.
  - destruct (ch_registered _); [by apply stream_push_inv|done].
  - by apply stream_push_inv.
  - intros [= <-]. by apply (inv_outside p _ (p_watch p)).
  - intros [= <-]. by apply (inv_outside p _ (p_watch p)).
  - destruct (w_open (p_watch p)) eqn:Eo; [|done]. intros [= <-]. apply (inv_outside p (p_channel p)); try done; [apply Hi|by rewrite Eo].
  - intros [= <-]. apply (inv_outside p (p_channel p)); try done; apply Hi.
Qed.

Lemma pump_reach_inv p : reach p -> pump_inv p.
Proof. induction 1 as [|l p p' _ IH Hs]; [apply pump_inv_spawn|by eapply source_inv_step]. Qed.

(** ** A pump that stops has told why *)

Definition told (p : Pump) : Prop :=
  p_phase p = Stopped -> exists before m, p_sent p = (before ++ [Err (connection_error m)])%list.

Lemma told_step l p p' :
  pump_inv p -> l <> PSend false -> told p -> pump_step l p = Some p' -> told p'.
Proof.
  intros Hi Hl Ht Hs Hp'. destruct l as [| | | |accepted|answer|answer|answer|d|e| | |v|]; cbn [ConsumerPump.pump_step] in Hs.
  - unfold on_next in Hs. by destruct (p_phase p), (ch_stream (p_channel p)); simplify_eq.
  - unfold on_end in Hs. destruct (p_phase p), (ch_stream (p_channel p)), (ch_stream_open (p_channel p));
      simplify_eq. by destruct (p_pending_qos p).
  - unfold on_changed in Hs. destruct (p_phase p) eqn:Ep, (p_actor_alive p), (w_changed (p_watch p)); simplify_eq.
    cbn in Hp'. destruct (p_pending_qos p); cbn in Hp'; congruence.
  - unfold on_parked in Hs. by destruct (p_phase p), (p_actor_alive p), (w_changed (p_watch p)), (w_open (p_watch p)); simplify_eq.
  - destruct accepted; [|done]. unfold on_send in Hs. destruct (p_phase p) as [|it []| | | |] eqn:Ep; simplify_eq.
    destruct (pi_last _ Hi _ Ep) as [m ->]. by exists (p_sent p), m.
  - unfold on_cancel in Hs. destruct (p_phase p), answer; simplify_eq. by destruct (ch_alive _); simplify_eq.
  - unfold on_set_qos in Hs. destruct (p_phase p), answer; simplify_eq. by destruct (ch_alive _); simplify_eq.
  - unfold on_consume in Hs. destruct (p_phase p), answer; simplify_eq. by destruct (ch_alive _); simplify_eq.
  - unfold stream_push in Hs. destruct (ch_registered _); [|done]. destruct (ch_stream_open _); simplify_eq. by apply Ht.
  - unfold stream_push in Hs. destruct (ch_stream_open _); simplify_eq. by apply Ht.
  - simplify_eq. by apply Ht.
  - simplify_eq. by apply Ht.
  - destruct (w_open _); simplify_eq. by apply Ht.
  - simplify_eq. by apply Ht.
Qed.

Lemma run_told ls : forall p p',
  reach p -> told p -> PSend false ∉ ls -> run spec ls p = Some p' -> told p'.
Proof.
  induction ls as [|l ls IH]; intros p p' Hr Ht Hl; cbn [run]; [by intros [= <-]|].
  apply not_elem_of_cons in Hl as [Hl Hls]. destruct (pump_step l p) as [p1|] eqn:E; [|done].
  apply IH; [by eapply reach_step|eapply told_step; [by apply pump_reach_inv|done..|exact E]|done].
Qed.

(** ** The pump's own steps come to rest *)

(** The pump's labels; the rest are its surroundings'. *)
Definition own (l : Label) : bool :=
  match l with EDispatch _ | EStreamError _ | ECancelled | ELost | ERequest _ | EActorGone => false | _ => true end.

Definition phase_work (ph : Phase) : nat :=
  match ph with
  | Stopped => 0 | Sending _ true => 1 | Select => 2 | Sending _ false => 3
  | Consuming => 3 | SettingQos _ => 4 | Cancelling _ => 6
  end.

(** How many own steps the pump can still take. *)
Definition work (p : Pump) : nat :=
  2 * length (ch_stream (p_channel p)) + phase_work (p_phase p) +
  (if w_changed (p_watch p) then 5 else 0) + (if p_pending_qos p then 3 else 0) + (if p_actor_alive p then 1 else 0).

Lemma own_step_works l p p' :
  pump_inv p -> own l = true -> pump_step l p = Some p' -> (work p' < work p)%nat.
Proof.
  intros Hi Hl Hs. unfold work. destruct l as [| | | |accepted|answer|answer|answer| | | | | |]; try done;
    cbn [ConsumerPump.pump_step] in Hs.
  - unfold on_next in Hs. destruct (p_phase p), (ch_stream (p_channel p)) eqn:E; simplify_eq. cbn. lia.
  - unfold on_end in Hs. destruct (p_phase p), (ch_stream (p_channel p)) eqn:E, (ch_stream_open (p_channel p));
      simplify_eq. destruct (p_pending_qos p) eqn:Eq; cbn; rewrite ?E, ?Eq; cbn; lia.
  - unfold on_changed in Hs. destruct (p_phase p) eqn:Ep, (p_actor_alive p) eqn:Ea, (w_changed (p_watch p)) eqn:Ew; simplify_eq.
    cbn. destruct (p_pending_qos p) eqn:Eq; cbn; rewrite ?Ep, ?Ea, ?Ew, ?Eq; cbn; lia.
  - unfold on_parked in Hs. destruct (p_phase p) eqn:Ep, (p_actor_alive p) eqn:Ea, (w_changed (p_watch p)) eqn:Ew,
      (w_open (p_watch p)); simplify_eq. cbn. rewrite Ew. lia.
  - unfold on_send in Hs. destruct (p_phase p) as [|it last| | | |] eqn:Ep; simplify_eq. cbn. destruct accepted, last; cbn; lia.
  - unfold on_cancel in Hs. pose proof (pi_ops _ Hi) as Ho.
    destruct (p_phase p) eqn:Ep, answer; simplify_eq; [|cbn; lia]. destruct Ho as [-> _].
    cbn in Hs. destruct (ch_alive _); simplify_eq. cbn. lia.
  - unfold on_set_qos in Hs. destruct (p_phase p) eqn:Ep, answer; simplify_eq; [|cbn; lia].
    cbn in Hs. destruct (ch_alive _); simplify_eq. cbn. lia.
  - unfold on_consume in Hs. destruct (p_phase p) eqn:Ep, answer; simplify_eq; [|cbn; lia].
    cbn in Hs. destruct (ch_alive _); simplify_eq. cbn. lia.
Qed.

Lemma own_run_works ls : forall p p',
  reach p -> Forall (fun l => own l) ls -> run spec ls p = Some p' -> (length ls + work p' <= work p)%nat.
Proof.
  induction ls as [|l ls IH]; intros p p' Hr Hl; cbn [run length]; [intros [= <-]; lia|].
  apply Forall_cons in Hl as [Hl Hls]. destruct (pump_step l p) as [p1|] eqn:E; [|done]. intros Hrun.
  apply Is_true_true_1 in Hl. pose proof (own_step_works _ _ _ (pump_reach_inv _ Hr) Hl E).
  specialize (IH p1 p' ltac:(by eapply reach_step) Hls Hrun). lia.
Qed.

(** No own step is possible, whatever the channel would answer. *)
Definition resting (p : Pump) : Prop := forall l, own l = true -> pump_step l p = None.

Lemma resting_applied p :
  reach p -> resting p ->
  p_phase p = Stopped \/
  p_phase p = Select /\ p_pending_qos p = None /\ ch_stream (p_channel p) = [] /\ ch_registered (p_channel p) = true /\
  p_sent p = ch_streamed (p_channel p) /\ ch_qos (p_channel p) = w_value (p_watch p).
Proof.
  intros Hr Hs. pose proof (pump_reach_inv _ Hr) as [(fw & rest & term & E1 & E2 & E3) H2 H3 H4 H5 H6 Hpk].
  pose proof (Hs PNext eq_refl) as Hn. pose proof (Hs PEnd eq_refl) as He. pose proof (Hs PChanged eq_refl) as Hc.
  pose proof (Hs PParked eq_refl) as Hk. pose proof (Hs (PSend true) eq_refl) as Hd.
  assert (exists e : TransportError, True) as [e _] by (by exists (connection_error "")).
  pose proof (Hs (PCancel (Err e)) eq_refl) as H7. pose proof (Hs (PSetQos (Err e)) eq_refl) as H8.
  pose proof (Hs (PConsume (Err e)) eq_refl) as H9.
  cbn [ConsumerPump.pump_step] in *. unfold on_next, on_end, on_changed, on_parked, on_send, on_cancel, on_set_qos, on_consume in *.
  unfold running, in_hand, window in *.
  destruct (p_phase p) eqn:Ep; try done; [|by left]. right.
  destruct (ch_stream (p_channel p)) eqn:El; [|done]. destruct (ch_stream_open (p_channel p)) eqn:Eo; [|done].
  destruct (p_pending_qos p) as [v|] eqn:Eq; [by specialize (H5 v eq_refl eq_refl)|].
  destruct E3 as [-> ->]. rewrite app_nil_r in *. rewrite E1, E2. do 5 (split; [done|]).
  apply H6; [done|]. destruct (p_actor_alive p); [|by apply Hpk]. by destruct (w_changed (p_watch p)).
Qed.

(** ** Theorems *)

(** C4. The pump forwards what its streams yield, each item once and in the
    order the broker sent it, across any number of resizes: while it runs, what
    it sent followed by the item in hand and what the stream still holds is all
    the streams were given. It adds at most one message, a connection error, and
    that is the last thing it does; unless the actor refused a message, a pump
    that stopped has sent it. *)
Theorem deliveries_forwarded_in_order ls p :
  run spec ls (spawn_source spec) = Some p ->
  (exists fw rest, ch_streamed (p_channel p) = (fw ++ rest)%list /\
     (running p = true -> p_sent p = fw /\ rest = (in_hand p ++ ch_stream (p_channel p))%list) /\
     (p_sent p = fw \/ p_phase p = Stopped /\ exists m, p_sent p = (fw ++ [Err (connection_error m)])%list)) /\
  (PSend false ∉ ls -> p_phase p = Stopped -> exists before m, p_sent p = (before ++ [Err (connection_error m)])%list).
Proof.
  intros Hrun. assert (reach p) as Hr by (eapply source_run_reach; [constructor|exact Hrun]). split.
  - destruct (pump_reach_inv _ Hr) as [(fw & rest & term & E1 & E2 & E3) _ _ _ _ _ _]. exists fw, rest. split; [done|].
    destruct (running p).
    + destruct E3 as [-> ->]. rewrite app_nil_r in E2. auto.
    + split; [done|]. destruct E3 as [->|(Hp & r & -> & m & ->)]; [left; by rewrite E2, app_nil_r|right; eauto].
  - intros Hl. eapply run_told; [constructor|done|exact Hl|exact Hrun].
Qed.

(** A subscription never has two consumers: the calls on its channel
    follow the cycle cancel, set the window, register, with the subscription's own
    tag, queue and acknowledgement mode; when the pump registers again the broker
    knows no consumer of it and the old stream is drained. *)
Theorem resize_follows_protocol p :
  reach p ->
  protocol (ch_ops (p_channel p)) <> None /\
  (p_phase p = Consuming -> ch_registered (p_channel p) = false /\ ch_stream (p_channel p) = []) /\
  (forall r p', pump_step (PConsume r) p = Some p' -> at_protocol p PQosSet /\ at_protocol p' PRegistered).
Proof.
  intros [H1 H2 H3 H4 H5 H6 H7]%pump_reach_inv. split; [|split].
  - unfold at_protocol in H3. destruct (p_phase p) as [|? []| | | |]; first [done|by rewrite H3|by rewrite (proj2 H3)].
  - intros Ep. rewrite Ep in H5. destruct H5 as [Hs Ho]. by rewrite H4.
  - intros r p'. cbn [ConsumerPump.pump_step]. unfold on_consume. destruct (p_phase p); try done. destruct H3 as [_ Ho].
    intros Hs. split; [done|]. apply protocol_consume in Ho. destruct r; [|by injection Hs as <-].
    cbn in Hs. destruct (ch_alive _); [|done]. by injection Hs as <-.
Qed.

(** C5. Left alone, the pump comes to rest: its own steps are bounded, whatever
    the channel answers, so a dropped actor does not make it spin. At rest it has
    stopped, or it has forwarded everything, its consumer is registered and the
    channel applies the window the controller published last. *)
Theorem window_applied_at_rest p ls p' :
  reach p -> Forall (fun l => own l) ls -> run spec ls p = Some p' ->
  (length ls <= work p)%nat /\
  (resting p' ->
   p_phase p' = Stopped \/
   p_phase p' = Select /\ p_sent p' = ch_streamed (p_channel p') /\ ch_registered (p_channel p') = true /\
   ch_qos (p_channel p') = w_value (p_watch p')).
Proof.
  intros Hr Hl Hrun. split; [pose proof (own_run_works _ _ _ Hr Hl Hrun); lia|]. intros Hs.
  destruct (resting_applied p') as [?|(? & _ & _ & ? & ? & ?)]; [by eapply source_run_reach|done|by left|by right].
Qed.

End Pump.

(** The channels of a consumer set are configured all or not at all: on
    success every channel has been given its initial window and then its consumer,
    and every subscription has a pump and a watch; the first refused call closes
    every channel of the set and is the error reported. *)
Theorem sources_all_or_nothing answer subs :
  match build_sources answer subs with
  | (Ok (qos_txs, sources), log) =>
      forallb (accepts answer) subs = true /\ sources = spec_of <$> subs /\ log = subs ≫= calls_of /\
      qos_txs = watches subs ∅
  | (Err error, log) =>
      exists before s after made op e,
        subs = (before ++ s :: after)%list /\ forallb (accepts answer) before = true /\
        (made ++ [op])%list `prefix_of` calls_of s /\ Forall (fun c => is_ok (answer c.1 c.2)) made /\
        answer op.1 op.2 = Err e /\ error = ce_from_transport e /\
        log = ((before ≫= calls_of) ++ made ++ [op] ++ close_subscription_channels subs)%list
  end.
Proof.
  unfold build_sources. destruct (build_loop_built answer subs subs ∅ [] []) as [H|before s after made op e H1 H2 H3 H4 H5].
  - done.
  - exists before, s, after, made, op, e. done.
Qed.

(** ** A run: a window is asked for, and asked for again, while deliveries are
    in flight *)

Definition jobs_spec : SourceSpec := mkSourceSpec "jobs" "rabbit-rs.jobs" "jobs" false 16.

Definition message (tag : Z) : TransportDelivery := mkTransportDelivery tag "" "jobs" false None None [] "{}".

Definition resize_run : list Label :=
  [EDispatch (message 1); PNext; ERequest 20; PSend true; EDispatch (message 2); PChanged; EDispatch (message 3);
   PCancel (Ok tt); PNext; ERequest 30; PSend true; PChanged; PNext; PSend true; PEnd; PSetQos (Ok tt)].

Definition resize_rest : list Label := [PConsume (Ok tt)].

Definition lost_run : list Label :=
  resize_run ++ resize_rest ++ [EDispatch (message 4); ELost; PNext; PSend true; PEnd; PSend true].

Definition resized (ls : list Label) : Pump := default (spawn_source jobs_spec) (run jobs_spec ls (spawn_source jobs_spec)).

Lemma resized_reach ls : reach jobs_spec (resized ls).
Proof.
  unfold resized. destruct (run jobs_spec ls _) eqn:E; [|constructor].
  eapply source_run_reach; [constructor|exact E].
Qed.

(** Witness of the theorem on forwarding: three deliveries across a resize, then
    the connection is lost. *)
Lemma deliveries_forwarded_in_order_witness :
  let p := resized lost_run in
  p_phase p = Stopped /\ p_sent p = [Ok (message 1); Ok (message 2); Ok (message 3); Ok (message 4);
    Err (connection_error "consumer delivery stream ended")] /\
  exists before m, p_sent p = (before ++ [Err (connection_error m)])%list.
Proof.
  split; [vm_compute; reflexivity|]. split; [vm_compute; reflexivity|].
  apply (deliveries_forwarded_in_order jobs_spec lost_run (resized lost_run)); [vm_compute; reflexivity| |vm_compute; reflexivity].
  intros H. repeat (apply elem_of_cons in H as [H|H]; [discriminate H|]). by apply elem_of_nil in H.
Defined.

(** Witness of the theorem on the protocol: about to register again. *)
Lemma resize_follows_protocol_witness :
  p_phase (resized resize_run) = Consuming /\ ch_registered (p_channel (resized resize_run)) = false.
Proof.
  split; [vm_compute; reflexivity|].
  eapply (resize_follows_protocol jobs_spec); [apply resized_reach|vm_compute; reflexivity].
Defined.

(** Witness of the theorem on windows: the second window asked for is applied. *)
Lemma window_applied_at_rest_witness :
  let p := resized (resize_run ++ resize_rest) in ch_qos (p_channel p) = 30 /\ (1 <= work (resized resize_run))%nat.
Proof.
  split; [vm_compute; reflexivity|].
  apply (window_applied_at_rest jobs_spec (resized resize_run) resize_rest (resized (resize_run ++ resize_rest)));
    [apply resized_reach|by repeat constructor|vm_compute; reflexivity].
Defined.

End ConsumerPumpSystem.
