(* ===== verification/ConsumerSet.v ===== *)
(** * A consumer set: the actor and its pumps

    Models [spawn_with_generation] of [consumer/set.rs]: one pump per
    subscription feeds the bounded command channel the actor reads, the actor's
    prefetch tick publishes windows to the pumps, and closing the set drops the
    receiver and the watches. The system of [ConsumerSystem] assumes that the
    deliveries it is given are numbered upwards on each channel; here that is
    assumed of the broker only, and the pumps carry it to the actor. *)

From S2P Require Import Prelude Transport Publication Scheduler Attempts DelayTopology DelayRouting.
From S2P Require Import Prefetch Delivery ConsumerActor ConsumerInv ConsumerBounds ConsumerFifo.
From S2P Require Import ConsumerSerial ConsumerSystem ConsumerPump ConsumerPumpSystem.
Import Transport Delivery ConsumerPump.
Local Open Scope Z_scope.

Module ConsumerSet.

Record Group := mkGroup {
  cs_sys : ConsumerSystem.Sys;
  cs_pumps : gmap string Pump;
  cs_queue : list (string * Streamed);         (* the incoming channel *)
  cs_received : list (string * Streamed)       (* what the actor took from it *)
}.

Inductive SetLabel :=
| JPump (sub : string) (l : Label)
| JReceive
| JActor (l : ConsumerSystem.Label).

Definition of_sub (sub : string) (l : list (string * Streamed)) : list Streamed :=
  snd <$> filter (fun x => x.1 = sub) l.

(** The tags of the deliveries among stream items. *)
Definition tags (l : list Streamed) : list Z :=
  omap (fun r => match r with Ok d => Some (td_delivery_tag d) | Err _ => None end) l.

(** The broker numbers the deliveries of a channel upwards. *)
Definition numbered (d : TransportDelivery) (p : Pump) : Prop :=
  0 < td_delivery_tag d /\ Forall (fun t => t < td_delivery_tag d) (tags (ch_streamed (p_channel p))).

#[global] Instance numbered_dec d p : Decision (numbered d p).
Proof. unfold numbered. apply _. Defined.

Section Group.
Variable sha256 : string -> string.
Variable subs : list Subscription.
Abbreviation cfg := (ConsumerSystem.cfg subs).

Definition specs : gmap string SourceSpec := foldl (fun m s => <[ConsumerActor.s_id s := spec_of s]> m) ∅ subs.

(** A step of the pump of [sub]. *)
Definition pump_moves (sub : string) (l : Label) (g : Group) : option Group :=
  match specs !! sub, cs_pumps g !! sub with
  | Some spec, Some p =>
      (fun p' => mkGroup (cs_sys g) (<[sub := p']> (cs_pumps g)) (cs_queue g) (cs_received g)) <$> pump_step spec l p
  | _, _ => None
  end.

(** What the pump holds for the command channel. *)
Definition holds (sub : string) (g : Group) : list (string * Streamed) :=
  match p_phase <$> cs_pumps g !! sub with Some (Sending it _) => [(sub, it)] | _ => [] end.

(** [incoming_tx.send]: waits for room, fails when the receiver is dropped. *)
Definition pump_sends (sub : string) (g : Group) : option Group :=
  if ConsumerSystem.open (cs_sys g) && (Z.of_nat (length (cs_queue g)) <? ConsumerActor.COMMAND_CAPACITY) then
    (fun g' => mkGroup (cs_sys g') (cs_pumps g') (cs_queue g' ++ holds sub g) (cs_received g')) <$>
      pump_moves sub (PSend true) g
  else None.

Definition broker_delivers (sub : string) (d : TransportDelivery) (g : Group) : option Group :=
  match cs_pumps g !! sub with
  | Some p => if bool_decide (numbered d p) then pump_moves sub (EDispatch d) g else None
  | None => None
  end.

(** The actor takes the next command while it has room for it. *)
Definition actor_receives (g : Group) : option Group :=
  match cs_queue g with
  | (sub, res) :: rest =>
      if ConsumerSystem.open (cs_sys g) &&
         (Z.of_nat (length (ConsumerActor.pending_incoming (ConsumerActor.intake (ConsumerSystem.st (cs_sys g))))) <?
          ConsumerActor.c_pending_capacity cfg)
      then Some (mkGroup (ConsumerSystem.on_st (ConsumerActor.handle_incoming cfg sub res) (cs_sys g)) (cs_pumps g) rest
                   (cs_received g ++ [(sub, res)]))
      else None
  | [] => None
  end.

(** The tick of the actor publishes the windows that changed. *)
Definition publish_windows (s : ConsumerActor.State) (sub : string) (p : Pump) : Pump :=
  match Prefetch.tick <$> ConsumerActor.adaptive_prefetch (ConsumerActor.shared s) !! sub with
  | Some (Some value, _) =>
      match specs !! sub with
      | Some spec => default p (pump_step spec (ERequest value) p)
      | None => p
      end
  | _ => p
  end.

(** A stopped actor has dropped its watches. *)
Definition drop_watch (p : Pump) : Pump :=
  set_watch (mkWatch (w_value (p_watch p)) (w_changed (p_watch p)) false) p.

Definition actor_moves (l : ConsumerSystem.Label) (g : Group) : option Group :=
  (fun y =>
    match l with
    | ConsumerSystem.LTick =>
        mkGroup y (map_imap (fun sub p => Some (publish_windows (ConsumerSystem.st (cs_sys g)) sub p)) (cs_pumps g))
          (cs_queue g) (cs_received g)
    | ConsumerSystem.LClose _ => mkGroup y (drop_watch <$> cs_pumps g) [] (cs_received g)
    | _ => mkGroup y (cs_pumps g) (cs_queue g) (cs_received g)
    end) <$> ConsumerSystem.sys_step sha256 subs l (cs_sys g).

Definition set_step (l : SetLabel) (g : Group) : option Group :=
  match l with
  | JPump sub (PSend true) => pump_sends sub g
  | JPump sub (PSend false) => if ConsumerSystem.open (cs_sys g) then None else pump_moves sub (PSend false) g
  | JPump sub (EDispatch d) => broker_delivers sub d g
  | JPump _ (ERequest _) | JPump _ EActorGone => None
  | JPump sub l => pump_moves sub l g
  | JReceive => actor_receives g
  | JActor (ConsumerSystem.LIncoming _ _) => None
  | JActor l => actor_moves l g
  end.

(** [spawn_with_generation], after [build_sources] succeeded. *)
Definition spawn_set (foreign : list Delivery.Token) : Group :=
  mkGroup (ConsumerSystem.mkSys (ConsumerActor.actor_new subs foreign) [] [] true None) (spawn_source <$> specs) [] [].

Inductive reach : Group -> Prop :=
| reach_spawn foreign : reach (spawn_set foreign)
| reach_step l g g' : reach g -> set_step l g = Some g' -> reach g'.

Fixpoint run (ls : list SetLabel) (g : Group) : option Group :=
  match ls with
  | [] => Some g
  | l :: ls' => match set_step l g with Some g' => run ls' g' | None => None end
  end.


(** ** What the steps of a pump leave alone *)

Definition pushed (l : Label) : list Streamed :=
  match l with EDispatch d => [Ok d] | EStreamError e => [Err e] | _ => [] end.

Definition gives (l : Label) (p : Pump) : list Streamed :=
  match l, p_phase p with PSend true, Sending it _ => [it] | _, _ => [] end.

Lemma pump_step_logs spec l p p' :
  pump_step spec l p = Some p' ->
  ch_streamed (p_channel p') = (ch_streamed (p_channel p) ++ pushed l)%list /\ p_sent p' = (p_sent p ++ gives l p)%list.
Proof.
  intros Hs. destruct l as [| | | |accepted|answer|answer|answer|d|e| | |v|]; cbn [pump_step] in Hs; unfold pushed, gives.
  - unfold on_next in Hs. destruct (p_phase p), (ch_stream (p_channel p)); simplify_eq. by rewrite !app_nil_r.
  - unfold on_end in Hs. destruct (p_phase p), (ch_stream (p_channel p)), (ch_stream_open (p_channel p)); simplify_eq.
    rewrite !app_nil_r. by destruct (p_pending_qos p).
  - unfold on_changed in Hs. destruct (p_phase p), (p_actor_alive p), (w_changed (p_watch p)); simplify_eq.
    rewrite !app_nil_r. cbn. by destruct (p_pending_qos p).
  - unfold on_parked in Hs. destruct (p_phase p), (p_actor_alive p), (w_changed (p_watch p)), (w_open (p_watch p));
      simplify_eq. by rewrite !app_nil_r.
  - unfold on_send in Hs. destruct (p_phase p); simplify_eq. by destruct accepted; cbn; rewrite ?app_nil_r.
  - unfold on_cancel in Hs. rewrite !app_nil_r. destruct (p_phase p), answer; simplify_eq; [|done].
    by destruct (ch_alive _); simplify_eq.
  - unfold on_set_qos in Hs. rewrite !app_nil_r. destruct (p_phase p), answer; simplify_eq; [|done].
    by destruct (ch_alive _); simplify_eq.
  - unfold on_consume in Hs. rewrite !app_nil_r. destruct (p_phase p), answer; simplify_eq; [|done].
    by destruct (ch_alive _); simplify_eq.
  - unfold stream_push in Hs. destruct (ch_registered _); [|done]. destruct (ch_stream_open _); simplify_eq.
    by rewrite app_nil_r.
  - unfold stream_push in Hs. destruct (ch_stream_open _); simplify_eq. by rewrite app_nil_r.
  - simplify_eq. by rewrite !app_nil_r.
  - simplify_eq. by rewrite !app_nil_r.
  - destruct (w_open _); simplify_eq. by rewrite !app_nil_r.
  - simplify_eq. by rewrite !app_nil_r.
Qed.

(** ** What the actor has seen of a channel *)

Lemma tags_app l1 l2 : tags (l1 ++ l2) = (tags l1 ++ tags l2)%list.
Proof. apply omap_app. Qed.

Lemma of_sub_app sub l1 l2 : of_sub sub (l1 ++ l2) = (of_sub sub l1 ++ of_sub sub l2)%list.
Proof. unfold of_sub. by rewrite filter_app, fmap_app. Qed.

Lemma of_sub_cons sub x l : of_sub sub (x :: l) = ((if decide (x.1 = sub) then [x.2] else []) ++ of_sub sub l)%list.
Proof. unfold of_sub. rewrite filter_cons. by case_decide. Qed.

(** Only receiving extends the log of deliveries. *)
Lemma actor_log l y y' :
  ConsumerSystem.sys_inv subs y -> (forall sub res, l <> ConsumerSystem.LIncoming sub res) ->
  ConsumerSystem.sys_step sha256 subs l y = Some y' ->
  ConsumerActor.delivered (ConsumerActor.shared (ConsumerSystem.st y')) =
  ConsumerActor.delivered (ConsumerActor.shared (ConsumerSystem.st y)).
Proof.
  set (Q := fun s => ConsumerActor.delivered (ConsumerActor.shared (ConsumerSystem.st s)) =
                     ConsumerActor.delivered (ConsumerActor.shared (ConsumerSystem.st y))).
  assert (forall s it s', ConsumerSystem.buffer_recv s = Some (it, s') -> Q s -> Q s') as Hrecv.
  { intros s it s'. unfold ConsumerSystem.buffer_recv, Q. destruct (ConsumerActor.flume _) as [|? ?]; [done|].
    by intros [= _ <-]. }
  assert (forall e s, Q s -> Q (ConsumerSystem.stash e s)) as Hstash by done.
  assert (forall P' x, ConsumerInv.inv cfg (ConsumerActor.delivered (ConsumerActor.shared (ConsumerSystem.st y))) P' x ->
    ConsumerActor.delivered (ConsumerActor.shared x) =
    ConsumerActor.delivered (ConsumerActor.shared (ConsumerSystem.st y))) as Hinv.
  { intros P' x. apply ConsumerSystem.inv_delivered. }
  intros [Hi Hc _ _] Hl.
  destruct l as [n settlement latency|n latency| |max| | |sub res| | | |i a|i a|i|events]; cbn [ConsumerSystem.sys_step].
  - case_decide; [|done]. intros [= <-]. unfold ConsumerSystem.try_settle_token. destruct (_ !! n); [|done].
    by destruct (Delivery.try_settle _ _ _) as [[r state] enq].
  - intros [= <-]. unfold ConsumerSystem.try_settle_through. by destruct (ConsumerSystem.control_send y).
  - intros [= <-]. by apply (ConsumerSystem.try_next_keeps Q).
  - intros [= <-]. by apply (ConsumerSystem.try_next_batch_keeps Q).
  - intros ([r x] & Hn & ->)%fmap_Some. by eapply (ConsumerSystem.next_keeps Q).
  - destruct (ConsumerSystem.control y) as [|c rest]; [done|]. destruct (ConsumerSystem.open y); [|done]. intros [= <-].
    apply Forall_cons in Hc as [Hc _]. by eapply Hinv, ConsumerInv.inv_handle_control.
  - by destruct (Hl sub res).
  - destruct (ConsumerSystem.open y && _)%bool; [|done]. intros [= <-]. by eapply Hinv, ConsumerInv.inv_flush_acked.
  - destruct (ConsumerSystem.open y); [|done]. intros [= <-]. by eapply Hinv, ConsumerInv.inv_dispatch.
  - destruct (ConsumerSystem.open y); [|done]. by intros [= <-].
  - destruct (ConsumerSystem.open y); [|done]. intros (x & Hx & ->)%fmap_Some. by eapply Hinv, ConsumerInv.inv_settlement_done.
  - destruct (ConsumerSystem.open y); [|done]. intros (x & Hx & ->)%fmap_Some. by eapply Hinv, ConsumerInv.inv_settle_through_done.
  - intros (x & Hx & ->)%fmap_Some. by eapply Hinv, ConsumerInv.inv_spawned_done.
  - destruct (ConsumerSystem.open y); [|done]. intros [= <-]. by eapply Hinv, ConsumerInv.inv_close_set.
Qed.

(** The channel of a subscription carries its name. *)
Lemma key_names_sub sub key : ConsumerActor.channel_key_for cfg sub = Some key -> key.1.1 = sub.
Proof. unfold ConsumerActor.channel_key_for. by intros (r & _ & ->)%fmap_Some. Qed.

Lemma received_log sub res y :
  ConsumerSystem.broker_order subs sub res (ConsumerSystem.st y) -> ConsumerSystem.sys_inv subs y ->
  forall k tag,
    (k, tag) ∈ ConsumerActor.delivered (ConsumerActor.shared
                 (ConsumerActor.handle_incoming cfg sub res (ConsumerSystem.st y))) ->
    (k, tag) ∈ ConsumerActor.delivered (ConsumerActor.shared (ConsumerSystem.st y)) \/
    k.1.1 = sub /\ exists d, res = Ok d /\ tag = td_delivery_tag d.
Proof.
  intros Ho [Hi _ _ _] k tag.
  assert (forall d key, res = Ok d -> ConsumerActor.channel_key_for cfg sub = Some key ->
    ConsumerInv.fresh_tag key (td_delivery_tag d) (ConsumerSystem.st y)) as Hf.
  { intros d key -> Hk. unfold ConsumerSystem.broker_order in Ho. by rewrite Hk in Ho. }
  rewrite (ConsumerSystem.inv_delivered _ _ _ _ (ConsumerInv.inv_handle_incoming cfg _ _ _ _ _ Hf Hi)).
  unfold ConsumerInv.received. destruct res as [d|]; [|by left].
  destruct (ConsumerActor.channel_key_for cfg sub) as [key|] eqn:Ek; [|by left].
  intros [?|Hx]%elem_of_app; [by left|]. apply list_elem_of_singleton in Hx as [= -> ->].
  right. split; [by apply key_names_sub|eauto].
Qed.

(** ** The invariant *)

Record set_inv (g : Group) : Prop := {
  si_actor : ConsumerSystem.reach sha256 subs (cs_sys g);
  si_pumps : forall sub p, cs_pumps g !! sub = Some p ->
    exists spec, specs !! sub = Some spec /\ ConsumerPump.reach spec p;
  si_sorted : forall sub p, cs_pumps g !! sub = Some p ->
    StronglySorted Z.lt (tags (ch_streamed (p_channel p))) /\ Forall (Z.lt 0) (tags (ch_streamed (p_channel p)));
  si_sent : ConsumerSystem.open (cs_sys g) = true -> forall sub p, cs_pumps g !! sub = Some p ->
    p_sent p = (of_sub sub (cs_received g) ++ of_sub sub (cs_queue g))%list;
  si_known : Forall (fun x => is_Some (cs_pumps g !! x.1)) (cs_queue g);
  si_delivered : forall k tag,
    (k, tag) ∈ ConsumerActor.delivered (ConsumerActor.shared (ConsumerSystem.st (cs_sys g))) ->
    tag ∈ tags (of_sub k.1.1 (cs_received g));
  si_room : Z.of_nat (length (cs_queue g)) <= ConsumerActor.COMMAND_CAPACITY
}.

(** What a pump sent is numbered as the broker numbered it. *)
Lemma sent_tags spec p : ConsumerPump.reach spec p -> tags (p_sent p) `prefix_of` tags (ch_streamed (p_channel p)).
Proof.
  intros Hr. destruct (ConsumerPumpSystem.pump_reach_inv _ _ Hr) as [(fw & rest & term & -> & -> & H) _ _ _ _ _ _].
  assert (tags term = []) as Ht.
  { destruct (ConsumerPumpSystem.running p); [by destruct H as [-> _]|]. by destruct H as [->|(_ & r & -> & m & ->)]. }
  rewrite !tags_app, Ht, app_nil_r. by apply prefix_app_r.
Qed.

Lemma sorted_split (l1 l2 : list Z) x : StronglySorted Z.lt (l1 ++ x :: l2) -> Forall (fun t => t < x) l1.
Proof.
  induction l1 as [|t l1 IH]; [by constructor|]. cbn. intros [Hs Hf]%StronglySorted_inv.
  constructor; [|by apply IH]. rewrite Forall_forall in Hf. apply Hf. set_solver.
Qed.

(** The pumps discharge the numbering the actor relies on. *)
Lemma queue_in_order g sub res rest :
  set_inv g -> ConsumerSystem.open (cs_sys g) = true -> cs_queue g = (sub, res) :: rest ->
  ConsumerSystem.broker_order subs sub res (ConsumerSystem.st (cs_sys g)).
Proof.
  intros [_ Hp Hs Hsent Hk Hd _] Ho Hq. unfold ConsumerSystem.broker_order. destruct res as [d|]; [|done].
  destruct (ConsumerActor.channel_key_for _ sub) as [key|] eqn:Ek; [|done]. apply key_names_sub in Ek.
  rewrite Hq in Hk. apply Forall_cons in Hk as [[p Hpump] _]. cbn in Hpump.
  destruct (Hp _ _ Hpump) as (spec & _ & Hr). destruct (Hs _ _ Hpump) as [Hsort Hpos].
  specialize (Hsent Ho _ _ Hpump). rewrite Hq, of_sub_cons, decide_True in Hsent by done. cbn [snd app] in Hsent.
  destruct (sent_tags _ _ Hr) as [more E]. rewrite Hsent, tags_app in E. cbn [tags omap list_omap] in E.
  rewrite E in Hsort, Hpos. rewrite <- (assoc_L app) in Hsort. split.
  - rewrite Forall_forall in Hpos. apply Hpos. set_solver.
  - apply Forall_forall. intros [k tag] Hin Hkey. cbn in *. subst k. apply Hd in Hin. rewrite Ek in Hin.
    pose proof (sorted_split _ _ _ Hsort) as Hlt. rewrite Forall_forall in Hlt. by apply Hlt.
Qed.

(** What a step of a pump puts on the command channel. *)
Definition posts (sub : string) (l : Label) (g : Group) : list (string * Streamed) :=
  match l with PSend true => holds sub g | _ => [] end.

Lemma posts_of sub l g p : cs_pumps g !! sub = Some p ->
  posts sub l g = pair sub <$> gives l p /\ (length (posts sub l g) <= 1)%nat.
Proof.
  intros Hp. unfold posts, holds, gives. rewrite Hp. cbn.
  by destruct l as [| | | |[]| | | | | | | | |], (p_phase p); split; cbn; try lia.
Qed.

Lemma of_sub_pair sub sub' l : of_sub sub (pair sub' <$> l) = if decide (sub' = sub) then l else [].
Proof.
  induction l as [|x l IH]; [by case_decide|]. cbn [fmap list_fmap]. rewrite of_sub_cons, IH. cbn. by case_decide.
Qed.

Lemma pushed_sorted l p :
  (forall d, l = EDispatch d -> numbered d p) ->
  StronglySorted Z.lt (tags (ch_streamed (p_channel p))) -> Forall (Z.lt 0) (tags (ch_streamed (p_channel p))) ->
  StronglySorted Z.lt (tags (ch_streamed (p_channel p) ++ pushed l)) /\
  Forall (Z.lt 0) (tags (ch_streamed (p_channel p) ++ pushed l)).
Proof.
  intros Hd Hs Hf. rewrite tags_app.
  destruct l as [| | | | | | | |d|e| | | |]; cbn [pushed tags omap list_omap]; rewrite ?app_nil_r; try done.
  destruct (Hd d eq_refl) as [H0 Hlt]. split; [by apply ConsumerSystem.sorted_snoc|]. apply Forall_app. by repeat constructor.
Qed.

Lemma inv_pump_moves sub l g g' :
  set_inv g -> pump_moves sub l g = Some g' ->
  (forall d p, l = EDispatch d -> cs_pumps g !! sub = Some p -> numbered d p) ->
  (posts sub l g = [] \/ Z.of_nat (length (cs_queue g)) < ConsumerActor.COMMAND_CAPACITY) ->
  set_inv (mkGroup (cs_sys g') (cs_pumps g') (cs_queue g' ++ posts sub l g) (cs_received g')).
Proof.
  unfold pump_moves. intros [Ha Hp Hs Hsent Hk Hd Hc]. destruct (specs !! sub) as [spec|] eqn:Esp; [|done].
  destruct (cs_pumps g !! sub) as [p|] eqn:Ep; [|done]. intros (p' & Hstep & ->)%fmap_Some Hnum Hroom. cbn.
  destruct (pump_step_logs _ _ _ _ Hstep) as [Elog Esent]. destruct (posts_of sub l g p Ep) as [Epost Hlen].
  split; cbn [cs_sys cs_pumps cs_queue cs_received]; try done.
  - intros sub' x [[<- <-]|[_ Hx]]%lookup_insert_Some; [|by eapply Hp].
    exists spec. split; [done|]. destruct (Hp _ _ Ep) as (spec' & E' & Hr). rewrite Esp in E'. injection E' as <-.
    by eapply ConsumerPump.reach_step.
  - intros sub' x [[<- <-]|[_ Hx]]%lookup_insert_Some; [|by eapply Hs].
    rewrite Elog. apply pushed_sorted; [intros d ->; by eapply Hnum|by eapply Hs..].
  - intros Ho sub' x [[<- <-]|[Hne Hx]]%lookup_insert_Some; rewrite of_sub_app, Epost, of_sub_pair.
    + by rewrite decide_True, Esent, (Hsent Ho _ _ Ep), (assoc_L app) by done.
    + by rewrite decide_False, app_nil_r, (Hsent Ho _ _ Hx) by done.
  - apply Forall_app. split.
    + eapply Forall_impl; [exact Hk|]. intros x Hx. by apply lookup_insert_is_Some'; right.
    + rewrite Epost. apply Forall_fmap, Forall_true. intros x. cbn. by rewrite lookup_insert_eq.
  - rewrite length_app. destruct Hroom as [->|Hroom]; cbn; [rewrite Nat.add_0_r; done|lia].
Qed.

Lemma inv_receives g g' : set_inv g -> actor_receives g = Some g' -> set_inv g'.
Proof.
  unfold actor_receives. intros Hi. destruct (cs_queue g) as [|[sub res] rest] eqn:Eq; [done|].
  destruct (_ && _)%bool eqn:Eg; [|done]. apply andb_true_iff in Eg as [Ho Hroom]. intros [= <-].
  pose proof (queue_in_order _ _ _ _ Hi Ho Eq) as Hord. destruct Hi as [Ha Hp Hs Hsent Hk Hd Hc].
  rewrite Eq in Hk, Hc. apply Forall_cons in Hk as [_ Hk].
  split; cbn [cs_sys cs_pumps cs_queue cs_received]; try done.
  - eapply (ConsumerSystem.reach_step _ _ (ConsumerSystem.LIncoming sub res)); [exact Ha|]. cbn [ConsumerSystem.sys_step].
    rewrite Ho, bool_decide_true by done. cbn [andb]. by rewrite Hroom.
  - intros _ sub' x Hx. rewrite (Hsent Ho _ _ Hx), Eq, of_sub_app, !of_sub_cons. cbn. rewrite app_nil_r.
    by rewrite (assoc_L app).
  - intros k tag Hin. rewrite of_sub_app, tags_app. apply elem_of_app.
    apply received_log in Hin as [Hin|(Ek & d & -> & ->)]; [left; by apply Hd| |done|by eapply ConsumerSystem.set_reach_inv].
    right. rewrite of_sub_cons, decide_True by done. cbn. by left.
  - cbn in Hc. lia.
Qed.

(** A closed set stays closed. *)
Lemma actor_open l y y' :
  ConsumerSystem.sys_step sha256 subs l y = Some y' -> ConsumerSystem.open y' = true -> ConsumerSystem.open y = true.
Proof.
  set (Q := fun s => ConsumerSystem.open s = ConsumerSystem.open y).
  assert (forall s it s', ConsumerSystem.buffer_recv s = Some (it, s') -> Q s -> Q s') as Hrecv.
  { intros s it s'. unfold ConsumerSystem.buffer_recv, Q. destruct (ConsumerActor.flume _) as [|? ?]; [done|].
    by intros [= _ <-]. }
  assert (forall e s, Q s -> Q (ConsumerSystem.stash e s)) as Hstash by done.
  destruct l as [n settlement latency|n latency| |max| | |sub res| | | |i a|i a|i|events]; cbn [ConsumerSystem.sys_step].
  - case_decide; [|done]. intros [= <-]. unfold ConsumerSystem.try_settle_token. destruct (_ !! n); [|done].
    by destruct (Delivery.try_settle _ _ _) as [[r state] enq].
  - intros [= <-]. unfold ConsumerSystem.try_settle_through. by destruct (ConsumerSystem.control_send y).
  - intros [= <-] Ho. by rewrite <- (ConsumerSystem.try_next_keeps Q Hrecv Hstash y eq_refl).
  - intros [= <-] Ho. by rewrite <- (ConsumerSystem.try_next_batch_keeps Q Hrecv Hstash max y eq_refl).
  - intros ([r x] & Hn & ->)%fmap_Some Ho. by rewrite <- (ConsumerSystem.next_keeps Q Hrecv y r x Hn eq_refl).
  - destruct (ConsumerSystem.control y); [done|]. by destruct (ConsumerSystem.open y).
  - by destruct (ConsumerSystem.open y).
  - by destruct (ConsumerSystem.open y).
  - by destruct (ConsumerSystem.open y).
  - by destruct (ConsumerSystem.open y).
  - by destruct (ConsumerSystem.open y).
  - by destruct (ConsumerSystem.open y).
  - by intros (x & _ & ->)%fmap_Some.
  - by destruct (ConsumerSystem.open y).
Qed.

(** A step of the actor that at most signals the pumps. *)
Lemma inv_actor_signals l g y pumps queue :
  set_inv g -> ConsumerSystem.sys_step sha256 subs l (cs_sys g) = Some y ->
  (forall sub res, l <> ConsumerSystem.LIncoming sub res) ->
  (forall sub p', pumps !! sub = Some p' -> exists p, cs_pumps g !! sub = Some p /\
     ch_streamed (p_channel p') = ch_streamed (p_channel p) /\ p_sent p' = p_sent p /\
     forall spec, specs !! sub = Some spec -> ConsumerPump.reach spec p -> ConsumerPump.reach spec p') ->
  (queue = cs_queue g /\ (forall sub, is_Some (cs_pumps g !! sub) -> is_Some (pumps !! sub)) \/
   queue = [] /\ ConsumerSystem.open y = false) ->
  set_inv (mkGroup y pumps queue (cs_received g)).
Proof.
  intros [Ha Hp Hs Hsent Hk Hd Hc] Hy Hl Hpumps Hq. pose proof (ConsumerSystem.set_reach_inv _ _ _ Ha) as Hyi.
  split; cbn [cs_sys cs_pumps cs_queue cs_received].
  - by eapply ConsumerSystem.reach_step.
  - intros sub p' Hp'. destruct (Hpumps _ _ Hp') as (p & Ep & _ & _ & Hr). destruct (Hp _ _ Ep) as (spec & Es & Hrp).
    eauto.
  - intros sub p' Hp'. destruct (Hpumps _ _ Hp') as (p & Ep & -> & _). by eapply Hs.
  - intros Ho sub p' Hp'. destruct Hq as [[-> _]|[_ Hcl]]; [|congruence].
    destruct (Hpumps _ _ Hp') as (p & Ep & _ & -> & _). apply Hsent; [by eapply actor_open|done].
  - destruct Hq as [[-> Hsome]|[-> _]]; [|constructor]. eapply Forall_impl; [exact Hk|]. intros x. apply Hsome.
  - by rewrite (actor_log _ _ _ Hyi Hl Hy).
  - destruct Hq as [[-> _]|[-> _]]; [done|]. by cbn.
Qed.

Lemma publish_windows_step s sub p :
  ch_streamed (p_channel (publish_windows s sub p)) = ch_streamed (p_channel p) /\
  p_sent (publish_windows s sub p) = p_sent p /\
  forall spec, specs !! sub = Some spec -> ConsumerPump.reach spec p -> ConsumerPump.reach spec (publish_windows s sub p).
Proof.
  unfold publish_windows. destruct (Prefetch.tick <$> _) as [[[v|] ?]|]; try done.
  destruct (specs !! sub) as [spec|] eqn:Es; [|done]. destruct (pump_step spec (ERequest v) p) as [p'|] eqn:Ep; [|done].
  destruct (pump_step_logs _ _ _ _ Ep) as [E1 E2]. cbn in *. rewrite app_nil_r in E1, E2. rewrite E1, E2.
  split; [done|]. split; [done|]. intros spec' [= <-] Hr. exact (ConsumerPump.reach_step _ (ERequest v) _ _ Hr Ep).
Qed.

Lemma inv_actor_moves l g g' :
  set_inv g -> (forall sub res, l <> ConsumerSystem.LIncoming sub res) -> actor_moves l g = Some g' -> set_inv g'.
Proof.
  intros Hi Hl. unfold actor_moves. intros (y & Hy & ->)%fmap_Some.
  assert (set_inv (mkGroup y (cs_pumps g) (cs_queue g) (cs_received g))) as Hplain.
  { apply (inv_actor_signals l); [done..| |by left]. intros sub p' Hp'. by exists p'. }
  destruct l; try exact Hplain.
  - apply (inv_actor_signals ConsumerSystem.LTick); [done..| |left; split; [done|]].
    + intros sub p'. rewrite map_lookup_imap. intros (p & Ep & [= <-])%bind_Some. exists p. split; [done|].
      apply publish_windows_step.
    + intros sub [p Ep]. rewrite map_lookup_imap, Ep. cbn. eauto.
  - apply (inv_actor_signals (ConsumerSystem.LClose events)); [done..| |right; split; [done|]].
    + intros sub p'. rewrite lookup_fmap. intros (p & Ep & ->)%fmap_Some. exists p. split; [done|]. split; [done|].
      split; [done|]. intros spec _ Hr. by eapply (ConsumerPump.reach_step _ EActorGone).
    + cbn [ConsumerSystem.sys_step] in Hy. destruct (ConsumerSystem.open (cs_sys g)); [|done]. by injection Hy as <-.
Qed.

Lemma set_inv_step l g g' : set_inv g -> set_step l g = Some g' -> set_inv g'.
Proof.
  intros Hi. destruct l as [sub l| |l]; cbn [set_step]; [|by apply inv_receives|].
  - assert (posts sub l g = [] -> (forall d, l <> EDispatch d) -> pump_moves sub l g = Some g' -> set_inv g') as Hmove.
    { intros Hpost Hd Hg. pose proof (inv_pump_moves sub l g g' Hi Hg ltac:(by intros d p ->; destruct (Hd d)) ltac:(by left)) as H.
      rewrite Hpost, app_nil_r in H. by destruct g'. }
    destruct l as [| | | |[]| | | |d| | | | |]; try done; try (by apply Hmove).
    + unfold pump_sends. destruct (_ && _)%bool eqn:Eg; [|done]. apply andb_true_iff in Eg as [Ho Hroom].
      intros (g1 & Hg & ->)%fmap_Some. apply (inv_pump_moves sub (PSend true) g g1 Hi Hg); [done|]. right. by apply Z.ltb_lt.
    + destruct (ConsumerSystem.open (cs_sys g)); [done|]. by apply Hmove.
    + unfold broker_delivers. destruct (cs_pumps g !! sub) as [p|] eqn:Ep; [|done].
      destruct (bool_decide (numbered d p)) eqn:Eb; [|done]. apply bool_decide_eq_true in Eb. intros Hg.
      pose proof (inv_pump_moves sub (EDispatch d) g g' Hi Hg) as H. cbn [posts] in H. rewrite app_nil_r in H.
      destruct g'. apply H; [|by left]. intros d' p' [= <-] Hp'. rewrite Ep in Hp'. by injection Hp' as <-.
  - by destruct l; try done; apply inv_actor_moves.
Qed.

Lemma group_reach_inv g : reach g -> set_inv g.
Proof.
  induction 1 as [foreign|l g g' _ IH Hs]; [|by eapply set_inv_step].
  split; cbn [spawn_set cs_sys cs_pumps cs_queue cs_received]; try done.
  - constructor.
  - intros sub p. rewrite lookup_fmap. intros (spec & Es & ->)%fmap_Some. exists spec. split; [done|constructor].
  - intros sub p. rewrite lookup_fmap. intros (spec & Es & ->)%fmap_Some. split; constructor.
  - intros _ sub p. rewrite lookup_fmap. by intros (spec & Es & ->)%fmap_Some.
  - intros k tag. cbn. by intros ?%elem_of_nil.
Qed.

Lemma set_run_reach ls : forall g g', reach g -> run ls g = Some g' -> reach g'.
Proof.
  induction ls as [|l ls IH]; intros g g' Hr; simpl; [by intros [= <-]|].
  destruct (set_step l g) as [g1|] eqn:E; [|done]. apply IH. by eapply reach_step.
Qed.

(** ** Theorem *)

(** C3. A consumer set runs as the actor system does: whatever its pumps, its
    broker and its callers do, the actor's part is a reachable state of
    [ConsumerSystem], so that its theorems hold of the whole set with the broker's
    numbering of each channel as their only assumption. The command channel keeps
    its bound, and while the set is open nothing is lost on the way: what the
    streams of a running pump were given is what the actor received, then what is
    queued, then what the pump holds, in this order. *)
Theorem set_refines_actor_system g :
  reach g ->
  ConsumerSystem.reach sha256 subs (cs_sys g) /\
  Z.of_nat (length (cs_queue g)) <= ConsumerActor.COMMAND_CAPACITY /\
  (ConsumerSystem.open (cs_sys g) = true -> forall sub p,
     cs_pumps g !! sub = Some p -> ConsumerPumpSystem.running p = true ->
     ch_streamed (p_channel p) =
       (of_sub sub (cs_received g) ++ of_sub sub (cs_queue g) ++ ConsumerPumpSystem.in_hand p ++
        ch_stream (p_channel p))%list).
Proof.
  intros [Ha Hp _ Hsent _ _ Hc]%group_reach_inv. split; [done|]. split; [done|]. intros Ho sub p Ep Hr.
  destruct (Hp _ _ Ep) as (spec & _ & Hpr).
  destruct (ConsumerPumpSystem.pump_reach_inv _ _ Hpr) as [(fw & rest & term & E1 & E2 & E3) _ _ _ _ _ _].
  rewrite Hr in E3. destruct E3 as [-> ->]. rewrite app_nil_r in E2. specialize (Hsent Ho _ _ Ep).
  rewrite E1, <- E2, Hsent. by rewrite <- (assoc_L app).
Qed.

End Group.

(** ** A run: two deliveries, the first one received *)

Definition two_dispatched : list SetLabel :=
  [JPump "jobs" (EDispatch (ConsumerPumpSystem.message 1)); JPump "jobs" (EDispatch (ConsumerPumpSystem.message 2));
   JPump "jobs" PNext; JPump "jobs" (PSend true); JPump "jobs" PNext; JReceive; JActor ConsumerSystem.LNotified;
   JActor ConsumerSystem.LTick].

Definition after_two : Group :=
  default (spawn_set ConsumerSystem.jobs []) (run (fun s => s) ConsumerSystem.jobs two_dispatched (spawn_set ConsumerSystem.jobs [])).

(** Witness of the theorem on the set. *)
Lemma set_refines_actor_system_witness :
  cs_received after_two = [("jobs", Ok (ConsumerPumpSystem.message 1))] /\
  ConsumerSystem.reach (fun s => s) ConsumerSystem.jobs (cs_sys after_two).
Proof.
  split; [vm_compute; reflexivity|]. apply (set_refines_actor_system (fun s => s) ConsumerSystem.jobs).
  apply (set_run_reach _ _ two_dispatched (spawn_set ConsumerSystem.jobs [])); [constructor|vm_compute; reflexivity].
Defined.

End ConsumerSet.
