(* ===== verification/Config.v ===== *)
(** * Configuration

    Models [config.rs] after deserialization: the user's configuration, its
    validation into the canonical [ValidatedConfig], the profiles synthesized on
    demand, and the bytes the configuration fingerprint digests. Durations are
    nanoseconds, a [BTreeMap] is its list of entries in key order, a [PathBuf] is
    its text; the passwords are plain strings. *)

From stdpp Require Import pretty.
From S2P Require Import Prelude Transport Publication DelayTopology TopologyPlan ConsumerActor.
Import Transport Publication DelayTopology TopologyPlan.
Local Open Scope Z_scope.
Local Open Scope rabbit_scope.

Module Config.

Abbreviation PrefetchConfig := ConsumerActor.PrefetchConfig.
Abbreviation Fixed := ConsumerActor.Fixed.
Abbreviation Adaptive := ConsumerActor.Adaptive.

(** ** Data *)

Record Endpoint := mkEndpoint { e_host : string; e_port : Z }.

Record Credentials := mkCredentials { username : string; password : string }.

Inductive TlsVerify := Peer.

Record TlsConfig := mkTls {
  tls_enabled : bool;
  ca_cert : option string;
  client_cert : option string;
  client_key : option string;
  tls_verify : TlsVerify;
  server_name : option string
}.

Definition tls_disabled : TlsConfig := mkTls false None None None Peer None.

Record BrokerConfig := mkBroker {
  b_name : string;
  b_hosts : list Endpoint;
  b_vhost : string;
  b_credentials : Credentials;
  b_tls : TlsConfig;
  b_heartbeat : Z
}.

Record SubscriptionConfig := mkSub {
  su_name : string;
  su_broker : string;
  su_queue : string;
  su_weight : Z;
  su_prefetch : PrefetchConfig;
  su_max_buffered_bytes : Z;
  su_early_ack : bool;
  su_no_ack : bool
}.

Inductive SchedulerStrategy := WeightedFair.

Record SchedulerConfig := mkSchedulerConfig { strategy : SchedulerStrategy; max_in_flight : option Z }.

Definition weighted_fair : SchedulerConfig := mkSchedulerConfig WeightedFair None.

Record WorkerProfile := mkWorker {
  w_name : string;
  w_subscriptions : list SubscriptionConfig;
  w_scheduler : SchedulerConfig
}.

Record PublisherConfigSection := mkPublisherSection {
  pub_safety : SafetyMode;
  pub_confirms : bool;
  pub_mandatory : bool;
  pub_confirm_timeout : Z;
  pub_flush_interval : Z
}.

Record ConsumerConfigSection := mkConsumerSection { wait_timeout : Z; max_attempts : option Z }.

Record Config := mkConfiguration {
  brokers : list BrokerConfig;
  workers : list WorkerProfile;
  topology_mode : TopologyMode;
  routes : list (string * RouteConfig);
  delay : DelayConfig;
  dead_letter : option DeadLetterConfig;
  delivery_limit : option Z;
  publisher : PublisherConfigSection;
  consumer : ConsumerConfigSection;
  queue_type : QueueKind;
  queue_durable : bool
}.

Record ConfigError := mkConfigError { ce_path : string; ce_message : string }.

Record ValidatedConfig := mkValidated {
  v_brokers : list BrokerConfig;
  v_workers : list WorkerProfile;
  v_topology_mode : TopologyMode;
  v_routes : list (string * RouteConfig);
  v_delay : DelayConfig;
  v_dead_letter : option DeadLetterConfig;
  v_delivery_limit : option Z;
  v_publisher : PublisherConfigSection;
  v_consumer : ConsumerConfigSection;
  v_queue_type : QueueKind;
  v_queue_durable : bool;
  v_fingerprint : string
}.

(** [PublisherConfigSection::effective_safety] *)
Definition effective_safety (p : PublisherConfigSection) : SafetyMode :=
  match pub_safety p with
  | Safe => if pub_confirms p then Safe else Unsafe
  | m => m
  end.

(** [TopologyMode::from_str] *)
Definition topology_mode_from_str (value : string) : result TopologyMode ConfigError :=
  if decide (value = "declare") then Ok ModeDeclare
  else if decide (value = "verify") then Ok ModeVerify
  else if decide (value = "external") then Ok ModeExternal
  else Err (mkConfigError "topology.mode" ("unsupported topology mode '" +:+ value +:+ "'")).

(** ** Orders *)

(** The derived order: by host, then by port. *)
Definition endpoint_le (a b : Endpoint) : Prop :=
  (e_host a <> e_host b /\ String.le (e_host a) (e_host b)) \/ (e_host a = e_host b /\ e_port a <= e_port b).

#[global] Instance endpoint_le_dec : RelDecision endpoint_le.
Proof. intros a b. unfold endpoint_le. apply _. Defined.

(** [left.name.cmp(&right.name)] *)
Definition name_le {A} (name : A -> string) (a b : A) : Prop := String.le (name a) (name b).

#[global] Instance name_le_dec {A} (name : A -> string) : RelDecision (name_le name).
Proof. intros a b. unfold name_le. apply _. Defined.

Definition sort_names {A} (name : A -> string) : list A -> list A := merge_sort (name_le name).

(** ** The fingerprint *)

Definition hash_value : string -> string := hash_field.

Definition tls_verify_name (v : TlsVerify) : string := match v with Peer => "peer" end.

Definition topology_mode_name (m : TopologyMode) : string :=
  match m with ModeDeclare => "declare" | ModeVerify => "verify" | ModeExternal => "external" end.

Definition scheduler_name (s : SchedulerStrategy) : string := match s with WeightedFair => "weighted_fair" end.

Definition delay_mode_name (m : DelayMode) : string :=
  match m with Auto => "auto" | Plugin => "plugin" | Ttl => "ttl" end.

Definition safety_mode_name (m : SafetyMode) : string :=
  match m with Blind => "blind" | Unsafe => "unsafe" | Safe => "safe" end.

(** The concatenation of a list's images: one [update] after the other. *)
Definition update_all {A} (f : A -> string) (l : list A) : string := foldr (fun x s => f x +:+ s) "" l.

Definition as_secs (d : Z) : Z := d / NANOS_PER_SEC.

Definition hash_endpoint (e : Endpoint) : string := hash_value (e_host e) +:+ be_bytes 2 (e_port e).

Definition hash_broker (b : BrokerConfig) : string :=
  hash_value (b_name b) +:+
  hash_value (b_vhost b) +:+
  hash_value (username (b_credentials b)) +:+
  hash_value (password (b_credentials b)) +:+
  hash_value (if tls_enabled (b_tls b) then "tls" else "plain") +:+
  hash_value (tls_verify_name (tls_verify (b_tls b))) +:+
  hash_value (default "" (server_name (b_tls b))) +:+
  hash_value (default "" (ca_cert (b_tls b))) +:+
  hash_value (default "" (client_cert (b_tls b))) +:+
  hash_value (default "" (client_key (b_tls b))) +:+
  be_bytes 8 (as_secs (b_heartbeat b)) +:+
  update_all hash_endpoint (b_hosts b).

Definition hash_prefetch (p : PrefetchConfig) : string :=
  match p with
  | ConsumerActor.Fixed value => hash_value "prefetch:fixed" +:+ be_bytes 2 value
  | ConsumerActor.Adaptive initial min max target_buffer =>
      hash_value "prefetch:adaptive" +:+ be_bytes 2 initial +:+ be_bytes 2 min +:+ be_bytes 2 max +:+
      be_bytes 8 (Z.min (as_millis target_buffer) U64_MAX)
  end.

Definition hash_subscription (s : SubscriptionConfig) : string :=
  hash_value (su_name s) +:+
  hash_value (su_broker s) +:+
  hash_value (su_queue s) +:+
  be_bytes 2 (su_weight s) +:+
  hash_prefetch (su_prefetch s) +:+
  be_bytes 8 (su_max_buffered_bytes s) +:+
  hash_value (if su_early_ack s then "early_ack" else "no_early_ack") +:+
  hash_value (if su_no_ack s then "no_ack" else "ack").

Definition hash_worker (w : WorkerProfile) : string :=
  hash_value (w_name w) +:+ hash_value (scheduler_name (strategy (w_scheduler w))) +:+
  update_all hash_subscription (w_subscriptions w).

(** *** [Debug] of durations *)

(** The decimals of [fmt_decimal]: as many as are needed. *)
Fixpoint fmt_decimals (n : nat) (divisor fractional_part : Z) : string :=
  match n with
  | O => ""
  | S n' =>
      if fractional_part <=? 0 then ""
      else String (ascii_of_Z (48 + fractional_part / divisor))
             (fmt_decimals n' (divisor / 10) (fractional_part mod divisor))
  end.

Definition fmt_decimal (integer_part fractional_part divisor : Z) (suffix : string) : string :=
  pretty integer_part +:+
  (if 0 <? fractional_part then "." +:+ fmt_decimals 9 divisor fractional_part else "") +:+ suffix.

Definition debug_duration (d : Z) : string :=
  let secs := d / NANOS_PER_SEC in
  let nanos := d mod NANOS_PER_SEC in
  if 0 <? secs then fmt_decimal secs nanos (NANOS_PER_SEC / 10) "s"
  else if NANOS_PER_MILLI <=? nanos then
    fmt_decimal (nanos / NANOS_PER_MILLI) (nanos mod NANOS_PER_MILLI) (NANOS_PER_MILLI / 10) "ms"
  else if 1000 <=? nanos then fmt_decimal (nanos / 1000) (nanos mod 1000) 100 "µs"
  else fmt_decimal nanos 0 1 "ns".

(** [format!("{:?}", ..)] of a vector. *)
Fixpoint debug_rest (l : list Z) : string :=
  match l with
  | [] => "]"
  | d :: l' => ", " +:+ debug_duration d +:+ debug_rest l'
  end.

Definition debug_durations (l : list Z) : string :=
  match l with [] => "[]" | d :: l' => "[" +:+ debug_duration d +:+ debug_rest l' end.

Definition hash_delay (d : DelayConfig) : string :=
  hash_value (delay_mode_name (dc_mode d)) +:+
  hash_value (debug_durations (dc_buckets d)) +:+
  be_bytes 8 (dc_max_buckets d) +:+
  be_bytes 8 (as_secs (dc_queue_expiry_margin d)).

Definition hash_dead_letter (o : option DeadLetterConfig) : string :=
  match o with
  | Some dl =>
      hash_value "dead_letter" +:+ hash_value (if dlc_enabled dl then "1" else "0") +:+
      hash_value (dlc_exchange dl) +:+ hash_value (dlc_queue dl) +:+
      hash_value (default "" (dlc_routing_key dl))
  | None => hash_value "no_dead_letter"
  end.

Definition hash_delivery_limit (o : option Z) : string :=
  match o with
  | Some limit => hash_value "delivery_limit" +:+ be_bytes 4 limit
  | None => hash_value "no_delivery_limit"
  end.

Definition hash_route (r : string * RouteConfig) : string :=
  hash_value "route" +:+ hash_value r.1 +:+ hash_value (ro_broker r.2) +:+
  hash_value (ro_exchange r.2) +:+ hash_value (ro_routing_key r.2).

(** [publisher.mandatory] and [flush_interval] do not split pools. *)
Definition hash_publisher (p : PublisherConfigSection) : string :=
  hash_value "publisher" +:+ hash_value (safety_mode_name (pub_safety p)) +:+
  hash_value (if pub_confirms p then "confirms" else "no_confirms") +:+
  be_bytes 16 (as_millis (pub_confirm_timeout p)).

Definition hash_consumer (c : ConsumerConfigSection) : string :=
  hash_value "consumer" +:+ be_bytes 16 (as_millis (wait_timeout c)) +:+ be_bytes 4 (default 0 (max_attempts c)).

(** The bytes [ConfigFingerprint::calculate] digests. *)
Definition fingerprint_input (c : Config) : string :=
  hash_value (topology_mode_name (topology_mode c)) +:+
  update_all hash_broker (brokers c) +:+
  update_all hash_worker (workers c) +:+
  hash_delay (delay c) +:+
  hash_dead_letter (dead_letter c) +:+
  hash_delivery_limit (delivery_limit c) +:+
  update_all hash_route (routes c) +:+
  hash_publisher (publisher c) +:+
  hash_consumer (consumer c) +:+
  hash_value (match queue_type c with Classic => "queue_type:classic" | Quorum => "queue_type:quorum" end) +:+
  hash_value (if queue_durable c then "queue_durable:true" else "queue_durable:false").

(** ** Validation *)

Section Validate.
Variable sha256 : string -> string.

Definition calculate (c : Config) : string := sha256 (fingerprint_input c).

(** [seen.insert(name)] over a list of names: the first repeated one. *)
Fixpoint first_repeated (seen names : list string) : option string :=
  match names with
  | [] => None
  | n :: names' => if decide (n ∈ seen) then Some n else first_repeated (n :: seen) names'
  end.

Definition validate_unique_broker_names (bs : list BrokerConfig) : result unit ConfigError :=
  match first_repeated [] (b_name <$> bs) with
  | Some n => Err (mkConfigError ("brokers." +:+ n) "broker name must be unique")
  | None => Ok tt
  end.

Definition validate_unique_worker_names (ws : list WorkerProfile) : result unit ConfigError :=
  match first_repeated [] (w_name <$> ws) with
  | Some n => Err (mkConfigError ("workers." +:+ n) "worker name must be unique")
  | None => Ok tt
  end.

(** A text in double quotes. *)
Definition quoted (s : string) : string :=
  String (ascii_of_Z 34) (s +:+ String (ascii_of_Z 34) "").

Definition validate_publisher (p : PublisherConfigSection) : result unit ConfigError :=
  if negb (pub_mandatory p) then
    Err (mkConfigError "publisher.mandatory"
      ("mandatory=false is no longer supported: mandatory routing is part of the safe delivery guarantee; opt out with publisher.safety = " +:+
       quoted "unsafe" +:+ " or " +:+ quoted "blind" +:+ " instead"))
  else if pub_confirm_timeout p <? from_secs 1 then
    Err (mkConfigError "publisher.confirm_timeout" "confirm_timeout must be at least 1 second")
  else if from_secs 3600 <? pub_flush_interval p then
    Err (mkConfigError "publisher.flush_interval" "flush_interval must be at most 1 hour")
  else Ok tt.

Fixpoint validate_routes (rs : list (string * RouteConfig)) (broker_names : list string) : result unit ConfigError :=
  match rs with
  | [] => Ok tt
  | (name, route) :: rs' =>
      if decide (ro_broker route ∈ broker_names) then validate_routes rs' broker_names
      else Err (mkConfigError ("routes." +:+ name +:+ ".broker") "references an unknown broker")
  end.

Definition first_host (b : BrokerConfig) : string :=
  match b_hosts b with e :: _ => e_host e | [] => "" end.

Definition validate_broker_tls (b : BrokerConfig) : result unit ConfigError :=
  if negb (tls_enabled (b_tls b)) then Ok tt
  else
    match server_name (b_tls b) with
    | Some n =>
        if decide (n = first_host b) then Ok tt
        else Err (mkConfigError ("brokers." +:+ b_name b +:+ ".tls.server_name")
          ("'" +:+ n +:+ "' overrides the TLS server name, which the AMQP transport (lapin 4.10) cannot do: SNI is always the connection host; supported value: '" +:+ first_host b +:+ "'"))
    | None => Ok tt
    end.

Definition sort_hosts (b : BrokerConfig) : BrokerConfig :=
  mkBroker (b_name b) (merge_sort endpoint_le (b_hosts b)) (b_vhost b) (b_credentials b) (b_tls b) (b_heartbeat b).

(** One broker of the loop in [validate]. *)
Definition validate_broker (b : BrokerConfig) : result BrokerConfig ConfigError :=
  if bool_decide (b_hosts b = []) then
    Err (mkConfigError ("brokers." +:+ b_name b +:+ ".hosts") "at least one host is required")
  else if (b_heartbeat b <? from_secs 1) || (from_secs U16_MAX <? b_heartbeat b) then
    Err (mkConfigError ("brokers." +:+ b_name b +:+ ".heartbeat")
      "heartbeat must be between 1 and 65535 seconds (AMQP wire limit)")
  else
    let b := sort_hosts b in
    let? _ := validate_broker_tls b in
    Ok b.

(** The loops of [validate] over its vectors. *)
Fixpoint validate_each {A} (f : A -> result A ConfigError) (l : list A) : result (list A) ConfigError :=
  match l with
  | [] => Ok []
  | x :: l' => let? y := f x in let? ys := validate_each f l' in Ok (y :: ys)
  end.

Definition validate_prefetch (base : string) (s : SubscriptionConfig) : result unit ConfigError :=
  match su_prefetch s with
  | ConsumerActor.Fixed value =>
      if value =? 0 then Err (mkConfigError base "prefetch must be greater than zero") else Ok tt
  | ConsumerActor.Adaptive initial min max target_buffer =>
      if min =? 0 then Err (mkConfigError (base +:+ ".min") "min must be greater than zero")
      else if max <? min then Err (mkConfigError (base +:+ ".max") "max must be greater than or equal to min")
      else if (initial <? min) || (max <? initial) then
        Err (mkConfigError (base +:+ ".initial") "initial must be within [min, max]")
      else if target_buffer =? 0 then
        Err (mkConfigError (base +:+ ".target_buffer_seconds") "target_buffer_seconds must be greater than zero")
      else if su_early_ack s || su_no_ack s then
        Err (mkConfigError (base +:+ ".mode")
          "adaptive prefetch requires consumer acknowledgements: early_ack and no_ack must be false")
      else Ok tt
  end.

Definition sub_path (worker subscription : string) : string :=
  "workers." +:+ worker +:+ ".subscriptions." +:+ subscription.

Definition validate_subscription (worker : string) (broker_names seen : list string) (s : SubscriptionConfig)
  : result unit ConfigError :=
  let path := sub_path worker (su_name s) in
  if decide (su_name s ∈ seen) then
    Err (mkConfigError path "subscription name must be unique within a worker profile")
  else if decide (su_broker s ∉ broker_names) then
    Err (mkConfigError (path +:+ ".broker") "references an unknown broker")
  else if su_weight s =? 0 then
    Err (mkConfigError (path +:+ ".weight") "weight must be greater than zero")
  else if su_max_buffered_bytes s =? 0 then
    Err (mkConfigError (path +:+ ".max_buffered_bytes")
      "max_buffered_bytes must be greater than zero: zero classifies every delivery as oversized, which the consumer then acknowledges and discards")
  else
    let? _ := validate_prefetch (path +:+ ".prefetch") s in
    if su_no_ack s && negb (su_early_ack s) then
      Err (mkConfigError (path +:+ ".no_ack")
        "no_ack requires early_ack: broker-side auto-ack bypasses prefetch, so an unattended consumer would buffer deliveries without any bound")
    else Ok tt.

Fixpoint validate_subscriptions (worker : string) (broker_names seen : list string) (l : list SubscriptionConfig)
  : result unit ConfigError :=
  match l with
  | [] => Ok tt
  | s :: l' =>
      let? _ := validate_subscription worker broker_names seen s in
      validate_subscriptions worker broker_names (su_name s :: seen) l'
  end.

Definition validate_worker (w : WorkerProfile) (broker_names : list string) : result unit ConfigError :=
  if bool_decide (w_subscriptions w = []) then
    Err (mkConfigError ("workers." +:+ w_name w +:+ ".subscriptions") "at least one subscription is required")
  else validate_subscriptions (w_name w) broker_names [] (w_subscriptions w).

Definition sort_subscriptions (w : WorkerProfile) : WorkerProfile :=
  mkWorker (w_name w) (sort_names su_name (w_subscriptions w)) (w_scheduler w).

Definition validate_delay (d : DelayConfig) : result unit ConfigError :=
  if bool_decide (dc_buckets d = []) then Err (mkConfigError "delay.buckets" "at least one TTL bucket is required")
  else if dc_max_buckets d <? Z.of_nat (length (dc_buckets d)) then
    Err (mkConfigError "delay.buckets"
      ("TTL bucket count " +:+ pretty (length (dc_buckets d)) +:+ " exceeds configured maximum " +:+
       pretty (dc_max_buckets d)))
  else if bool_decide (0 ∈ dc_buckets d) then
    Err (mkConfigError "delay.buckets" "TTL buckets must be greater than zero")
  else Ok tt.

Definition validate_consumer (c : ConsumerConfigSection) : result unit ConfigError :=
  if (wait_timeout c <? from_secs 1) || (from_secs 86400 <? wait_timeout c) then
    Err (mkConfigError "consumer.wait_timeout" "wait_timeout must be between 1 second and 24 hours")
  else if bool_decide (max_attempts c = Some 0) then
    Err (mkConfigError "consumer.max_attempts" "max_attempts must be a positive integer")
  else Ok tt.

Definition validate (c : Config) : result ValidatedConfig ConfigError :=
  if bool_decide (brokers c = []) then Err (mkConfigError "brokers" "at least one broker is required")
  else if bool_decide (queue_type c = Quorum) && negb (queue_durable c) then
    Err (mkConfigError "queue_durable"
      "quorum queues are always durable: set queue_durable=true or queue_type=classic")
  else if bool_decide (queue_type c = Classic) && bool_decide (is_Some (delivery_limit c)) then
    Err (mkConfigError "delivery_limit"
      "delivery_limit is only supported on quorum queues: remove it or set queue_type=quorum")
  else
    let? _ := validate_unique_broker_names (brokers c) in
    let? bs := validate_each validate_broker (brokers c) in
    let bs := sort_names b_name bs in
    let broker_names := b_name <$> bs in
    let? _ := validate_unique_worker_names (workers c) in
    let? ws := validate_each (fun w => let? _ := validate_worker w broker_names in Ok (sort_subscriptions w))
                 (workers c) in
    let ws := sort_names w_name ws in
    let? _ := validate_routes (routes c) broker_names in
    let? _ := validate_delay (delay c) in
    let? _ := validate_consumer (consumer c) in
    let? _ := validate_publisher (publisher c) in
    let c := mkConfiguration bs ws (topology_mode c) (routes c) (delay c) (dead_letter c) (delivery_limit c)
               (publisher c) (consumer c) (queue_type c) (queue_durable c) in
    Ok (mkValidated (brokers c) (workers c) (topology_mode c) (routes c) (delay c) (dead_letter c)
          (delivery_limit c) (publisher c) (consumer c) (queue_type c) (queue_durable c) (calculate c)).

(** ** What the topology plan reads *)

Definition plan_config (v : ValidatedConfig) : PlanConfig :=
  mkPlanConfig (v_topology_mode v) (v_routes v).*2 (v_delay v) (v_dead_letter v) (v_delivery_limit v)
    (v_queue_type v) (v_queue_durable v).

(** [profiles.flat_map(|worker| &worker.subscriptions)] *)
Definition planned (ws : list WorkerProfile) : list PlannedSubscription :=
  w ← ws; (fun s => mkPlanned (su_broker s) (su_queue s)) <$> w_subscriptions w.

(** [TopologyPlan::from_config_and] *)
Definition from_config_and (v : ValidatedConfig) (extra : list WorkerProfile) : TopologyPlan :=
  from_profiles (plan_config v) (planned (v_workers v ++ extra)).

(** ** Lookups and synthesized profiles *)

Definition broker (v : ValidatedConfig) (name : string) : option BrokerConfig :=
  find (fun b => bool_decide (b_name b = name)) (v_brokers v).

Definition worker (v : ValidatedConfig) (name : string) : option WorkerProfile :=
  find (fun w => bool_decide (w_name w = name)) (v_workers v).

Definition AUTO_PROFILE_PREFIX : string := "__auto__.".

Definition default_max_buffered_bytes : Z := 64 * 1024 * 1024.

(** [str::strip_prefix] *)
Fixpoint strip_prefix (prefix s : string) : option string :=
  match prefix, s with
  | EmptyString, _ => Some s
  | String a prefix', String b s' => if decide (a = b) then strip_prefix prefix' s' else None
  | String _ _, EmptyString => None
  end.

Definition synthesize_auto_profile (v : ValidatedConfig) (profile : string) : result WorkerProfile ConfigError :=
  match strip_prefix AUTO_PROFILE_PREFIX profile with
  | None => Err (mkConfigError ("workers." +:+ profile) "unknown worker profile")
  | Some queue =>
      if decide (queue = "") then
        Err (mkConfigError ("workers." +:+ profile) "automatic profile names must carry a queue after __auto__.")
      else
        match v_brokers v with
        | [b] =>
            let w := mkWorker profile
                       [mkSub "auto" (b_name b) queue 1 (Fixed 64) default_max_buffered_bytes false false]
                       weighted_fair in
            let? _ := validate_worker w (b_name <$> v_brokers v) in
            Ok w
        | _ =>
            Err (mkConfigError (sub_path profile "auto" +:+ ".broker")
              "automatic profiles require a single configured broker; declare this profile under workers.*")
        end
  end.

End Validate.

End Config.
