(* ===== verification/ConfigValid.v ===== *)
(** * What validation establishes

    Theorems on [Config.validate]: it decides validity and names the offending
    path, its result is well formed and canonical, and the order in which
    brokers, hosts, workers and subscriptions were written does not matter. *)

From S2P Require Import Prelude Transport Publication DelayTopology TopologyPlan ConsumerActor Config.
Import Transport Publication DelayTopology TopologyPlan Config.
Local Open Scope Z_scope.
Local Open Scope rabbit_scope.

Module ConfigValid.

(** ** Orders *)

#[global] Instance endpoint_le_trans : Transitive endpoint_le.
Proof.
  intros a b c [[N1 L1]|[E1 L1]] [[N2 L2]|[E2 L2]]; unfold endpoint_le.
  - destruct (decide (e_host a = e_host c)) as [E|E]; [|left; split; [done|by etrans]].
    exfalso. apply N1. apply (anti_symm String.le); [done|by rewrite E].
  - left. by rewrite <- E2.
  - left. by rewrite E1.
  - right. split; [congruence|lia].
Qed.

#[global] Instance endpoint_le_total : Total endpoint_le.
Proof.
  intros a b. unfold endpoint_le. destruct (decide (e_host a = e_host b)) as [E|E].
  - destruct (Z.le_gt_cases (e_port a) (e_port b)); [left|right]; right; split; congruence || lia.
  - destruct (total String.le (e_host a) (e_host b)); [left|right]; left; done.
Qed.

#[global] Instance endpoint_le_antisymm : AntiSymm (=) endpoint_le.
Proof.
  intros [h1 p1] [h2 p2] [[N1 L1]|[E1 L1]] [[N2 L2]|[E2 L2]]; simpl in *; try congruence.
  - exfalso. apply N1. by apply (anti_symm String.le).
  - f_equal; [done|lia].
Qed.

#[global] Instance name_le_trans {A} (name : A -> string) : Transitive (name_le name).
Proof. intros a b c. unfold name_le. apply transitivity. Qed.

#[global] Instance name_le_total {A} (name : A -> string) : Total (name_le name).
Proof. intros a b. unfold name_le. apply (total String.le). Qed.

Definition name_lt (a b : string) : Prop := String.le a b /\ a <> b.

Section Sorting.
Context {A : Type} (name : A -> string).

Lemma sort_names_perm l : sort_names name l ≡ₚ l.
Proof. apply merge_sort_Permutation. Qed.

Lemma sort_names_sorted l : StronglySorted (name_le name) (sort_names name l).
Proof. apply Sorted_StronglySorted; [apply _|]. apply Sorted_merge_sort, _. Qed.

Lemma NoDup_name_inj l x y : NoDup (name <$> l) -> x ∈ l -> y ∈ l -> name x = name y -> x = y.
Proof.
  induction l as [|z l IH]; [set_solver|]. rewrite fmap_cons, NoDup_cons. intros [Hz Hl] Hx Hy E.
  apply elem_of_cons in Hx as [->|Hx], Hy as [->|Hy]; try done.
  - destruct Hz. rewrite E. by apply list_elem_of_fmap_2.
  - destruct Hz. rewrite <- E. by apply list_elem_of_fmap_2.
  - by apply IH.
Qed.

(** Lists with unique names have one order by name. *)
Lemma sort_names_unique l1 l2 : NoDup (name <$> l1) -> l1 ≡ₚ l2 -> sort_names name l1 = sort_names name l2.
Proof.
  intros Hn Hp. apply (StronglySorted_unique_strong (name_le name)).
  - intros x y Hx Hy L1 L2. rewrite sort_names_perm in Hx, Hy. rewrite <- Hp in Hy.
    apply (NoDup_name_inj l1); [done..|]. by apply (anti_symm String.le).
  - apply sort_names_sorted.
  - apply sort_names_sorted.
  - by rewrite !sort_names_perm.
Qed.

Lemma sort_names_strict l : NoDup (name <$> l) -> StronglySorted name_lt (name <$> sort_names name l).
Proof.
  intros Hn. assert (NoDup (name <$> sort_names name l)) as Hn' by (by rewrite sort_names_perm).
  pose proof (sort_names_sorted l) as Hs. revert Hs Hn'. generalize (sort_names name l) as k.
  induction 1 as [|x k Hs IH Hall]; simpl; [constructor|]. intros [Hx Hk]%NoDup_cons.
  constructor; [by apply IH|]. apply Forall_fmap, Forall_forall. intros y Hy. rewrite Forall_forall in Hall.
  split; [by apply Hall|]. intros E. apply Hx. rewrite E. by apply list_elem_of_fmap_2.
Qed.

End Sorting.

(** ** Problems of a configuration

    What is wrong with a configuration, by the path it is reported under. *)

Definition repeated (n : string) (l : list string) : Prop := exists l', l ≡ₚ n :: n :: l'.

#[global] Instance repeated_proper n : Proper ((≡ₚ) ==> iff) (repeated n).
Proof. intros l1 l2 E. split; intros [l' H]; exists l'; [by rewrite <- E|by rewrite E]. Qed.

Inductive prefetch_problem (s : SubscriptionConfig) : string -> Prop :=
| p_fixed : su_prefetch s = Fixed 0 -> prefetch_problem s ""
| p_min initial max target : su_prefetch s = Adaptive initial 0 max target -> prefetch_problem s ".min"
| p_max initial min max target :
    su_prefetch s = Adaptive initial min max target -> max < min -> prefetch_problem s ".max"
| p_initial initial min max target :
    su_prefetch s = Adaptive initial min max target -> ~ min <= initial <= max -> prefetch_problem s ".initial"
| p_target initial min max :
    su_prefetch s = Adaptive initial min max 0 -> prefetch_problem s ".target_buffer_seconds"
| p_mode initial min max target :
    su_prefetch s = Adaptive initial min max target -> su_early_ack s || su_no_ack s = true ->
    prefetch_problem s ".mode".

Inductive sub_problem (names : list string) (s : SubscriptionConfig) : string -> Prop :=
| p_unknown_broker : su_broker s ∉ names -> sub_problem names s ".broker"
| p_weight : su_weight s = 0 -> sub_problem names s ".weight"
| p_bytes : su_max_buffered_bytes s = 0 -> sub_problem names s ".max_buffered_bytes"
| p_prefetch q : prefetch_problem s q -> sub_problem names s (".prefetch" +:+ q)
| p_no_ack : su_no_ack s = true -> su_early_ack s = false -> sub_problem names s ".no_ack".

Inductive broker_problem (b : BrokerConfig) : string -> Prop :=
| p_hosts : b_hosts b = [] -> broker_problem b ".hosts"
| p_heartbeat : ~ from_secs 1 <= b_heartbeat b <= from_secs U16_MAX -> broker_problem b ".heartbeat"
| p_server_name n e :
    tls_enabled (b_tls b) = true -> server_name (b_tls b) = Some n ->
    e ∈ b_hosts b -> (forall e', e' ∈ b_hosts b -> endpoint_le e e') -> e_host e <> n ->
    broker_problem b ".tls.server_name".

Inductive worker_problem (names : list string) (w : WorkerProfile) : string -> Prop :=
| p_subscriptions : w_subscriptions w = [] -> worker_problem names w ("workers." +:+ w_name w +:+ ".subscriptions")
| p_sub_name n : repeated n (su_name <$> w_subscriptions w) -> worker_problem names w (sub_path (w_name w) n)
| p_sub s p : s ∈ w_subscriptions w -> sub_problem names s p ->
    worker_problem names w (sub_path (w_name w) (su_name s) +:+ p).

Inductive problem (c : Config) : string -> Prop :=
| p_brokers : brokers c = [] -> problem c "brokers"
| p_durable : queue_type c = Quorum -> queue_durable c = false -> problem c "queue_durable"
| p_limit : queue_type c = Classic -> is_Some (delivery_limit c) -> problem c "delivery_limit"
| p_broker_name n : repeated n (b_name <$> brokers c) -> problem c ("brokers." +:+ n)
| p_broker b p : b ∈ brokers c -> broker_problem b p -> problem c ("brokers." +:+ b_name b +:+ p)
| p_worker_name n : repeated n (w_name <$> workers c) -> problem c ("workers." +:+ n)
| p_worker w p : w ∈ workers c -> worker_problem (b_name <$> brokers c) w p -> problem c p
| p_route name r : (name, r) ∈ routes c -> ro_broker r ∉ b_name <$> brokers c ->
    problem c ("routes." +:+ name +:+ ".broker")
| p_buckets :
    dc_buckets (delay c) = [] \/ dc_max_buckets (delay c) < Z.of_nat (length (dc_buckets (delay c))) \/
    0 ∈ dc_buckets (delay c) -> problem c "delay.buckets"
| p_wait : ~ from_secs 1 <= wait_timeout (consumer c) <= from_secs 86400 -> problem c "consumer.wait_timeout"
| p_attempts : max_attempts (consumer c) = Some 0 -> problem c "consumer.max_attempts"
| p_mandatory : pub_mandatory (publisher c) = false -> problem c "publisher.mandatory"
| p_confirm : pub_confirm_timeout (publisher c) < from_secs 1 -> problem c "publisher.confirm_timeout"
| p_flush : from_secs 3600 < pub_flush_interval (publisher c) -> problem c "publisher.flush_interval".

(** ** Checks that report *)

(** The check fails with a problem of [P], or there is none. *)
Definition reports {A} (P : string -> Prop) (r : result A ConfigError) : Prop :=
  match r with Ok _ => forall p, ~ P p | Err e => P (ce_path e) end.

Lemma reports_iff {A} (P Q : string -> Prop) (r : result A ConfigError) :
  (forall p, P p <-> Q p) -> reports P r -> reports Q r.
Proof. intros H. destruct r as [x|e]; simpl; [|by rewrite H]. intros Hp p Hq. apply (Hp p), H, Hq. Qed.

Lemma reports_bind {A B} (P Q : string -> Prop) r (f : A -> result B ConfigError) :
  reports P r -> (forall x, r = Ok x -> reports Q (f x)) ->
  reports (fun p => P p \/ Q p) (let? x := r in f x).
Proof.
  intros Hr Hf. destruct r as [x|e]; simpl in *; [|by left].
  specialize (Hf x eq_refl). destruct (f x) as [y|e]; simpl in *; [|by right].
  intros p [Hp|Hq]; [by apply (Hr p)|by apply (Hf p)].
Qed.

(** A guard that fails with [path] when [b] holds. *)
Lemma reports_guard {A} (b : bool) path msg (Q : string -> Prop) (r : result A ConfigError) :
  (b = false -> reports Q r) ->
  reports (fun p => (b = true /\ p = path) \/ Q p) (if b then Err (mkConfigError path msg) else r).
Proof.
  intros Hr. destruct b; simpl; [left; split; done|]. specialize (Hr eq_refl).
  destruct r as [x|e]; simpl in *; [|by right]. intros p [[? _]|Hq]; [done|]. by apply (Hr p).
Qed.

Lemma reports_done {A} (x : A) : reports (fun _ => False) (Ok x).
Proof. intros p []. Qed.

(** A guard on its own. *)
Lemma reports_last {A} (b : bool) path msg (x : A) :
  reports (fun p => b = true /\ p = path) (if b then Err (mkConfigError path msg) else Ok x).
Proof. destruct b; simpl; [done|]. by intros p [? _]. Qed.

(** A step that cannot fail. *)
Lemma reports_then {A B} (P : string -> Prop) r (f : A -> B) :
  reports P r -> reports P (let? x := r in Ok (f x)).
Proof. by destruct r. Qed.

Lemma reports_each {A} (P : A -> string -> Prop) (f : A -> result A ConfigError) l :
  (forall x, x ∈ l -> reports (P x) (f x)) -> reports (fun p => exists x, x ∈ l /\ P x p) (validate_each f l).
Proof.
  induction l as [|x l IH]; intros H; simpl; [intros p (x & Hx & _); by apply elem_of_nil in Hx|].
  eapply reports_iff; [|apply (reports_bind (P x) (fun p => exists x, x ∈ l /\ P x p))].
  - intros p. split.
    + intros [Hp|(y & Hy & Hp)]; [exists x|exists y]; set_solver.
    + intros (y & [->|Hy]%elem_of_cons & Hp); [by left|right; eauto].
  - apply H. by left.
  - intros y _. apply reports_then, IH. intros z Hz. apply H. by right.
Qed.

Lemma validate_each_Ok {A} (f : A -> result A ConfigError) (g : A -> A) l l' :
  (forall x y, f x = Ok y -> y = g x) -> validate_each f l = Ok l' -> l' = g <$> l.
Proof.
  intros Hf. revert l'. induction l as [|x l IH]; intros l'; simpl; [by intros [= <-]|].
  destruct (f x) as [y|] eqn:E; simpl; [|done]. destruct (validate_each f l) as [ys|]; simpl; [|done].
  intros [= <-]. by rewrite (Hf _ _ E), (IH ys eq_refl).
Qed.

(** *** Names *)

Lemma first_repeated_spec seen l :
  match first_repeated seen l with
  | Some n => exists l', seen ++ l ≡ₚ n :: n :: l'
  | None => NoDup seen -> NoDup (seen ++ l)
  end.
Proof.
  revert seen. induction l as [|x l IH]; intros seen; simpl; [by rewrite app_nil_r|].
  case_decide as Hx.
  - apply list_elem_of_split in Hx as (s1 & s2 & ->). exists (s1 ++ s2 ++ l). solve_Permutation.
  - specialize (IH (x :: seen)). assert (seen ++ x :: l ≡ₚ (x :: seen) ++ l) as E by solve_Permutation.
    destruct (first_repeated (x :: seen) l) as [n|].
    + destruct IH as [l' IH]. exists l'. by rewrite E.
    + intros Hs. rewrite E. apply IH. by constructor.
Qed.

Lemma repeated_NoDup n l : repeated n l -> ~ NoDup l.
Proof. intros [l' ->] [Hn _]%NoDup_cons. apply Hn. by left. Qed.

Lemma unique_reports (path : string -> string) l msg :
  reports (fun p => exists n, repeated n l /\ p = path n)
    (match first_repeated [] l with Some n => Err (mkConfigError (path n) msg) | None => Ok tt end).
Proof.
  pose proof (first_repeated_spec [] l) as H. destruct (first_repeated [] l) as [n|]; simpl in *; [by exists n|].
  intros p (n & Hn & _). eapply repeated_NoDup; [done|]. apply H, NoDup_nil_2.
Qed.

(** *** The checks *)

Lemma string_app_nil_r (s : string) : s +:+ "" = s.
Proof. induction s as [|a s IH]; [done|]. change (String a (s +:+ "") = String a s). by rewrite IH. Qed.

Lemma prefetch_reports base s :
  reports (fun p => exists q, prefetch_problem s q /\ p = base +:+ q) (validate_prefetch base s).
Proof.
  unfold validate_prefetch. destruct (su_prefetch s) as [v|initial min max target] eqn:E.
  - eapply reports_iff; [|apply reports_last]. intros p. split.
    + intros [->%Z.eqb_eq ->]. exists "". split; [by constructor|]. by rewrite string_app_nil_r.
    + intros (q & Hq & ->). destruct Hq; rewrite E in *; simplify_eq. by rewrite string_app_nil_r.
  - eapply reports_iff; [|do 4 (apply reports_guard; intros _); apply reports_last]. intros p. split.
    + intros H. destruct_or! H; destruct H as [H ->]; eexists; (split; [|reflexivity]).
      all: try (apply Z.eqb_eq in H; subst).
      * by econstructor.
      * econstructor; [done|lia].
      * econstructor; [done|lia].
      * by econstructor.
      * by econstructor.
    + intros (q & Hq & ->). destruct Hq; rewrite E in *; simplify_eq; naive_solver lia.
Qed.

Lemma sort_hosts_head b :
  b_hosts b <> [] -> exists e, first_host (sort_hosts b) = e_host e /\ e ∈ b_hosts b /\
    forall e', e' ∈ b_hosts b -> endpoint_le e e'.
Proof.
  intros Hn. unfold first_host, sort_hosts. simpl.
  assert (StronglySorted endpoint_le (merge_sort endpoint_le (b_hosts b))) as Hs.
  { apply Sorted_StronglySorted; [apply _|]. apply Sorted_merge_sort, _. }
  pose proof (merge_sort_Permutation endpoint_le (b_hosts b)) as Hp.
  destruct (merge_sort endpoint_le (b_hosts b)) as [|e l]; [by apply Permutation_nil_l in Hp|].
  exists e. split; [done|]. split; [rewrite <- Hp; by left|]. intros e'. rewrite <- Hp.
  intros [->|He]%elem_of_cons; [by destruct (total endpoint_le e e)|].
  apply StronglySorted_inv in Hs as [_ Hs]. rewrite Forall_forall in Hs. by apply Hs.
Qed.

Lemma tls_reports b :
  b_hosts b <> [] ->
  reports (fun p => exists n e, tls_enabled (b_tls b) = true /\ server_name (b_tls b) = Some n /\ e ∈ b_hosts b /\
      (forall e', e' ∈ b_hosts b -> endpoint_le e e') /\ e_host e <> n /\ p = "brokers." +:+ b_name b +:+ ".tls.server_name")
    (validate_broker_tls (sort_hosts b)).
Proof.
  intros Hn. destruct (sort_hosts_head b Hn) as (e & Ee & He & Hle). unfold validate_broker_tls. rewrite Ee. simpl.
  destruct (tls_enabled (b_tls b)); simpl; [|by intros p (? & ? & ? & _)].
  destruct (server_name (b_tls b)) as [n|]; [|by intros p (? & ? & _ & ? & _)].
  case_decide as E; simpl; [|by exists n, e].
  intros p (n' & e' & _ & [= <-] & He' & Hle' & Hne & _). apply Hne.
  rewrite (anti_symm endpoint_le e' e); [done|by apply Hle'|by apply Hle].
Qed.

Lemma broker_reports b :
  reports (fun p => exists q, broker_problem b q /\ p = "brokers." +:+ b_name b +:+ q) (validate_broker b).
Proof.
  unfold validate_broker. eapply reports_iff; [|apply reports_guard; intros Hh; apply reports_guard; intros Hb;
    eapply reports_then, tls_reports].
  - intros p. split.
    + intros [[Hh ->]|[[Hb ->]|(n & e & ? & ? & ? & ? & ? & ->)]].
      * apply bool_decide_eq_true in Hh. exists ".hosts". split; [by constructor|done].
      * exists ".heartbeat". split; [constructor; lia|done].
      * exists ".tls.server_name". split; [by econstructor|done].
    + intros (q & [Hh|Hb|n e ? ? ? ? ?] & ->).
      * left. by rewrite bool_decide_eq_true.
      * right. left. split; [lia|done].
      * right. right. by exists n, e.
  - by apply bool_decide_eq_false in Hh.
Qed.

Lemma sub_reports w names seen s :
  reports (fun p => (su_name s ∈ seen /\ p = sub_path w (su_name s)) \/
      exists q, sub_problem names s q /\ p = sub_path w (su_name s) +:+ q)
    (validate_subscription w names seen s).
Proof.
  unfold validate_subscription. set (path := sub_path w (su_name s)).
  destruct (decide (su_name s ∈ seen)) as [Hs|Hs]; [by left|].
  destruct (decide (su_broker s ∉ names)) as [Hb|Hb]; [right; exists ".broker"; split; [by constructor|done]|].
  eapply reports_iff; [|apply reports_guard; intros Hw; apply reports_guard; intros Hm;
    apply reports_bind; [apply prefetch_reports|intros _ _; apply reports_last]].
  intros p. split.
  - intros [[Hw ->]|[[Hm ->]|[(q & Hq & ->)|[Hn ->]]]]; right.
    + apply Z.eqb_eq in Hw. exists ".weight". split; [by constructor|done].
    + apply Z.eqb_eq in Hm. exists ".max_buffered_bytes". split; [by constructor|done].
    + exists (".prefetch" +:+ q). split; [by constructor|]. apply string_app_assoc.
    + apply andb_true_iff in Hn as [? ?%negb_true_iff]. exists ".no_ack". split; [by constructor|done].
  - intros [[? _]|(q & Hq & ->)]; [done|]. destruct Hq as [Hu|Hw|Hm|q Hq|Hn He].
    + done.
    + left. by rewrite Z.eqb_eq.
    + right. left. by rewrite Z.eqb_eq.
    + right. right. left. exists q. split; [done|]. by rewrite string_app_assoc.
    + right. right. right. by rewrite Hn, He.
Qed.

Lemma subs_reports w names seen l :
  NoDup seen ->
  reports (fun p => (exists n, repeated n (seen ++ (su_name <$> l)) /\ p = sub_path w n) \/
      exists s q, s ∈ l /\ sub_problem names s q /\ p = sub_path w (su_name s) +:+ q)
    (validate_subscriptions w names seen l).
Proof.
  revert seen. induction l as [|s l IH]; intros seen Hs; simpl.
  { intros p [(n & Hn & _)|(s & q & Hx & _)]; [|by apply elem_of_nil in Hx].
    rewrite app_nil_r in Hn. by eapply repeated_NoDup. }
  assert (seen ++ su_name s :: (su_name <$> l) ≡ₚ (su_name s :: seen) ++ (su_name <$> l)) as E by solve_Permutation.
  pose proof (sub_reports w names seen s) as H.
  destruct (validate_subscription w names seen s) as [[]|e]; simpl in H |- *.
  - assert (su_name s ∉ seen) as Hn by (intros ?; eapply H; by left).
    specialize (IH (su_name s :: seen)). rewrite NoDup_cons in IH. specialize (IH (conj Hn Hs)).
    assert (forall n, repeated n (seen ++ su_name s :: (su_name <$> l)) <->
      repeated n ((su_name s :: seen) ++ (su_name <$> l))) as Er by (intros n; by rewrite E).
    destruct (validate_subscriptions w names (su_name s :: seen) l) as [[]|e]; simpl in IH |- *.
    + intros p [(n & Hr%Er & ->)|(s' & q & [->|Hin]%elem_of_cons & Hq & ->)];
        [by eapply IH; left; eauto| |by eapply IH; right; eauto].
      eapply H. right. eauto.
    + destruct IH as [(n & Hr%Er & ?)|(s' & q & Hin & ? & ?)]; [left; eauto|]. right. exists s', q. set_solver.
  - destruct H as [[Hin ->]|(q & Hq & ->)].
    + left. exists (su_name s). split; [|done]. apply list_elem_of_split in Hin as (s1 & s2 & ->).
      exists (s1 ++ s2 ++ (su_name <$> l)). solve_Permutation.
    + right. exists s, q. set_solver.
Qed.

Lemma worker_reports w names : reports (worker_problem names w) (validate_worker w names).
Proof.
  unfold validate_worker. eapply reports_iff; [|apply reports_guard; intros Hn; apply (subs_reports _ _ []), NoDup_nil_2].
  intros p. split.
  - intros [[Hn ->]|[(n & Hr & ->)|(s & q & ? & ? & ->)]].
    + apply bool_decide_eq_true in Hn. by constructor.
    + by constructor.
    + by constructor.
  - intros [Hn|n Hr|s q ? ?].
    + left. by rewrite bool_decide_eq_true.
    + right. left. eauto.
    + right. right. eauto.
Qed.

Lemma routes_reports names l :
  reports (fun p => exists n r, (n, r) ∈ l /\ ro_broker r ∉ names /\ p = "routes." +:+ n +:+ ".broker")
    (validate_routes l names).
Proof.
  induction l as [|[n r] l IH]; simpl; [intros p (? & ? & Hx & _); by apply elem_of_nil in Hx|].
  case_decide as Hb; simpl; [|exists n, r; set_solver].
  eapply reports_iff; [|exact IH]. intros p. split; [set_solver|].
  intros (n' & r' & [[= -> ->]|Hin]%elem_of_cons & Hr & ->); [done|eauto].
Qed.

Definition delay_problem (d : DelayConfig) : Prop :=
  dc_buckets d = [] \/ dc_max_buckets d < Z.of_nat (length (dc_buckets d)) \/ 0 ∈ dc_buckets d.

Lemma delay_reports d : reports (fun p => delay_problem d /\ p = "delay.buckets") (validate_delay d).
Proof.
  unfold validate_delay, delay_problem.
  eapply reports_iff; [|do 2 (apply reports_guard; intros _); apply reports_last].
  intros p. split.
  - intros [[H%bool_decide_eq_true ?]|[[H%Z.ltb_lt ?]|[H%bool_decide_eq_true ?]]]; tauto.
  - intros [[H|[H|H]] ->]; [left|right; left|right; right]; (split; [|done]).
    + by apply bool_decide_eq_true.
    + by apply Z.ltb_lt.
    + by apply bool_decide_eq_true.
Qed.

Lemma consumer_reports c :
  reports (fun p => (~ from_secs 1 <= wait_timeout c <= from_secs 86400 /\ p = "consumer.wait_timeout") \/
                    (max_attempts c = Some 0 /\ p = "consumer.max_attempts")) (validate_consumer c).
Proof.
  unfold validate_consumer. eapply reports_iff; [|apply reports_guard; intros _; apply reports_last].
  intros p. split.
  - intros [[H ->]|[H%bool_decide_eq_true ->]]; [left|by right]. split; [lia|done].
  - intros [[H ->]|[H ->]]; [left; split; [lia|done]|right]. split; [by apply bool_decide_eq_true|done].
Qed.

Lemma publisher_reports c :
  reports (fun p => (pub_mandatory c = false /\ p = "publisher.mandatory") \/
                    (pub_confirm_timeout c < from_secs 1 /\ p = "publisher.confirm_timeout") \/
                    (from_secs 3600 < pub_flush_interval c /\ p = "publisher.flush_interval")) (validate_publisher c).
Proof.
  unfold validate_publisher.
  eapply reports_iff; [|do 2 (apply reports_guard; intros _); apply reports_last].
  intros p. split.
  - intros [[H%negb_true_iff ->]|[[H ->]|[H ->]]]; [by left|right; left|right; right]; (split; [lia|done]).
  - intros [[H ->]|[[H ->]|[H ->]]]; [left; by rewrite H|right; left|right; right]; (split; [lia|done]).
Qed.

(** *** The canonical form *)

Definition canonical_brokers (c : Config) : list BrokerConfig := sort_names b_name (sort_hosts <$> brokers c).
Definition canonical_workers (c : Config) : list WorkerProfile := sort_names w_name (sort_subscriptions <$> workers c).

Definition canonical (c : Config) : Config :=
  mkConfiguration (canonical_brokers c) (canonical_workers c) (topology_mode c) (routes c) (delay c) (dead_letter c)
    (delivery_limit c) (publisher c) (consumer c) (queue_type c) (queue_durable c).

Lemma broker_names c : b_name <$> canonical_brokers c ≡ₚ b_name <$> brokers c.
Proof. unfold canonical_brokers. rewrite sort_names_perm, <- list_fmap_compose. done. Qed.

Lemma worker_names c : w_name <$> canonical_workers c ≡ₚ w_name <$> workers c.
Proof. unfold canonical_workers. rewrite sort_names_perm, <- list_fmap_compose. done. Qed.

Lemma validate_broker_Ok b b' : validate_broker b = Ok b' -> b' = sort_hosts b.
Proof.
  unfold validate_broker. do 2 (case_match; [done|]). destruct (validate_broker_tls _); simpl; [|done]. by intros [= <-].
Qed.

Lemma brokers_Ok l l' : validate_each validate_broker l = Ok l' -> l' = sort_hosts <$> l.
Proof. apply validate_each_Ok. apply validate_broker_Ok. Qed.

Lemma workers_Ok names l l' :
  validate_each (fun w => let? _ := validate_worker w names in Ok (sort_subscriptions w)) l = Ok l' ->
  l' = sort_subscriptions <$> l.
Proof. apply validate_each_Ok. intros w w'. destruct (validate_worker w names); simpl; [|done]. by intros [= <-]. Qed.

Lemma worker_problem_perm names names' w p :
  names ≡ₚ names' -> worker_problem names w p -> worker_problem names' w p.
Proof.
  intros E. assert (forall s q, sub_problem names s q -> sub_problem names' s q) as Hs.
  { intros s q [Hb|Hw|Hm|q' Hq|Hn He]; constructor; try done. by rewrite <- E. }
  intros [Hn|n Hr|s q Hin Hq]; constructor; auto.
Qed.

Lemma workers_reports c :
  reports (fun p => exists w, w ∈ workers c /\ worker_problem (b_name <$> brokers c) w p)
    (validate_each (fun w => let? _ := validate_worker w (b_name <$> canonical_brokers c) in
                             Ok (sort_subscriptions w)) (workers c)).
Proof.
  eapply reports_iff; [|apply reports_each; intros w _; apply reports_then, worker_reports].
  intros p. split; intros (w & ? & ?); exists w; (split; [done|]); eapply worker_problem_perm; [|done| |done].
  - apply broker_names.
  - symmetry. apply broker_names.
Qed.

Lemma known_routes_reports c :
  reports (fun p => exists n r, (n, r) ∈ routes c /\ ro_broker r ∉ b_name <$> brokers c /\
      p = "routes." +:+ n +:+ ".broker") (validate_routes (routes c) (b_name <$> canonical_brokers c)).
Proof. eapply reports_iff; [|apply routes_reports]. intros p. by setoid_rewrite broker_names. Qed.

(** ** Well-formed configurations *)

Definition prefetch_ok (s : SubscriptionConfig) : Prop :=
  match su_prefetch s with
  | ConsumerActor.Fixed value => value <> 0
  | ConsumerActor.Adaptive initial min max target =>
      min <> 0 /\ min <= initial <= max /\ target <> 0 /\ su_early_ack s = false /\ su_no_ack s = false
  end.

(** A subscription of [v]: what the scheduler, the byte budget and the prefetch
    controller rely on. *)
Record sub_ok (v : ValidatedConfig) (s : SubscriptionConfig) : Prop := {
  so_broker : is_Some (broker v (su_broker s));
  so_weight : su_weight s <> 0;
  so_bytes : su_max_buffered_bytes s <> 0;
  so_prefetch : prefetch_ok s;
  so_ack : su_no_ack s = true -> su_early_ack s = true
}.

Record broker_ok (b : BrokerConfig) : Prop := {
  bo_hosts : b_hosts b <> [];
  bo_sorted : StronglySorted endpoint_le (b_hosts b);
  bo_heartbeat : from_secs 1 <= b_heartbeat b <= from_secs U16_MAX;
  bo_tls : forall n, tls_enabled (b_tls b) = true -> server_name (b_tls b) = Some n -> n = first_host b
}.

Record worker_ok (v : ValidatedConfig) (w : WorkerProfile) : Prop := {
  wo_nonempty : w_subscriptions w <> [];
  wo_names : StronglySorted name_lt (su_name <$> w_subscriptions w);
  wo_subs : Forall (sub_ok v) (w_subscriptions w)
}.

Record wf (v : ValidatedConfig) : Prop := {
  wf_nonempty : v_brokers v <> [];
  wf_broker_names : StronglySorted name_lt (b_name <$> v_brokers v);
  wf_brokers : Forall broker_ok (v_brokers v);
  wf_broker_lookup : forall n b, broker v n = Some b <-> b ∈ v_brokers v /\ b_name b = n;
  wf_worker_names : StronglySorted name_lt (w_name <$> v_workers v);
  wf_workers : Forall (worker_ok v) (v_workers v);
  wf_worker_lookup : forall n w, worker v n = Some w <-> w ∈ v_workers v /\ w_name w = n;
  wf_routes : Forall (fun r => is_Some (broker v (ro_broker r.2))) (v_routes v);
  wf_delay : 0 < Z.of_nat (length (dc_buckets (v_delay v))) <= dc_max_buckets (v_delay v) /\ 0 ∉ dc_buckets (v_delay v);
  wf_durable : v_queue_type v = Quorum -> v_queue_durable v = true;
  wf_limit : v_queue_type v = Classic -> v_delivery_limit v = None;
  wf_consumer : from_secs 1 <= wait_timeout (v_consumer v) <= from_secs 86400 /\ max_attempts (v_consumer v) <> Some 0;
  wf_publisher : pub_mandatory (v_publisher v) = true /\ from_secs 1 <= pub_confirm_timeout (v_publisher v) /\
                 pub_flush_interval (v_publisher v) <= from_secs 3600
}.

Lemma find_name {A} (name : A -> string) l n x :
  NoDup (name <$> l) ->
  find (fun y => bool_decide (name y = n)) l = Some x <-> x ∈ l /\ name x = n.
Proof.
  intros Hn. split.
  - intros [Hx E%bool_decide_eq_true]%find_some. split; [by apply list_elem_of_In|done].
  - intros [Hx E]. destruct (find _ l) as [y|] eqn:Hf.
    + apply find_some in Hf as [Hy E'%bool_decide_eq_true]. f_equal.
      apply (NoDup_name_inj name l); [done|by apply list_elem_of_In|done|congruence].
    + apply list_elem_of_In in Hx. pose proof (find_none _ _ Hf x Hx) as H. by apply bool_decide_eq_false in H.
Qed.

Lemma find_name_is_Some {A} (name : A -> string) l n :
  n ∈ name <$> l -> is_Some (find (fun y => bool_decide (name y = n)) l).
Proof.
  intros (x & -> & Hx)%list_elem_of_fmap_1. destruct (find _ l) as [y|] eqn:Hf; [done|].
  apply list_elem_of_In in Hx. pose proof (find_none _ _ Hf x Hx) as H. by apply bool_decide_eq_false in H.
Qed.

Lemma not_repeated_NoDup l : (forall n, ~ repeated n l) -> NoDup l.
Proof.
  intros H. pose proof (first_repeated_spec [] l) as Hf. destruct (first_repeated [] l) as [n|]; simpl in Hf.
  - by destruct (H n).
  - apply Hf, NoDup_nil_2.
Qed.

Lemma sort_hosts_ok b : (forall p, ~ broker_problem b p) -> broker_ok (sort_hosts b).
Proof.
  intros H. assert (b_hosts b <> []) as Hn by (intros ?; by eapply (H ".hosts"), p_hosts).
  destruct (sort_hosts_head b Hn) as (e & Ee & He & Hle). split; simpl.
  - intros E. apply Hn, Permutation_nil_r. by rewrite <- (merge_sort_Permutation endpoint_le (b_hosts b)), E.
  - apply Sorted_StronglySorted; [apply _|]. apply Sorted_merge_sort, _.
  - apply dec_stable. intros ?. by eapply (H ".heartbeat"), p_heartbeat.
  - intros n Ht Hs. rewrite Ee. apply dec_stable. intros Hne.
    eapply (H ".tls.server_name"), p_server_name; eauto.
Qed.

Lemma prefetch_ok_intro s : (forall q, ~ prefetch_problem s q) -> prefetch_ok s.
Proof.
  intros H. unfold prefetch_ok. destruct (su_prefetch s) as [v|initial min max target] eqn:E.
  - intros ->. by eapply (H ""), p_fixed.
  - split; [intros ->; by eapply (H ".min"), p_min|].
    split; [apply dec_stable; intros ?; by eapply (H ".initial"), p_initial|].
    split; [intros ->; by eapply (H ".target_buffer_seconds"), p_target|].
    apply orb_false_iff. destruct (_ || _) eqn:Ho; [|done]. by destruct (H ".mode"); eapply p_mode.
Qed.

Lemma sub_ok_intro v s :
  (forall q, ~ sub_problem (b_name <$> v_brokers v) s q) -> sub_ok v s.
Proof.
  intros H. split.
  - apply find_name_is_Some. apply dec_stable. intros ?. by eapply (H ".broker"), p_unknown_broker.
  - intros ?. by eapply (H ".weight"), p_weight.
  - intros ?. by eapply (H ".max_buffered_bytes"), p_bytes.
  - apply prefetch_ok_intro. intros q Hq. by eapply (H (".prefetch" +:+ q)), p_prefetch.
  - intros Hn. destruct (su_early_ack s) eqn:He; [done|]. by destruct (H ".no_ack"); apply p_no_ack.
Qed.

Lemma sort_subscriptions_ok v w :
  (forall p, ~ worker_problem (b_name <$> v_brokers v) w p) -> worker_ok v (sort_subscriptions w).
Proof.
  intros H. split; simpl.
  - intros E. eapply H, p_subscriptions. apply Permutation_nil_r. by rewrite <- (sort_names_perm su_name), E.
  - apply sort_names_strict, not_repeated_NoDup. intros n Hn. by eapply H, p_sub_name.
  - rewrite sort_names_perm. apply Forall_forall. intros s Hs. apply sub_ok_intro. intros q Hq. by eapply H, p_sub.
Qed.

(** ** Order of writing *)

Record same_broker (b b' : BrokerConfig) : Prop := {
  sb_name : b_name b = b_name b';
  sb_hosts : b_hosts b ≡ₚ b_hosts b';
  sb_rest : b_vhost b = b_vhost b' /\ b_credentials b = b_credentials b' /\ b_tls b = b_tls b' /\
            b_heartbeat b = b_heartbeat b'
}.

Record same_worker (w w' : WorkerProfile) : Prop := {
  sw_name : w_name w = w_name w';
  sw_subs : w_subscriptions w ≡ₚ w_subscriptions w';
  sw_scheduler : w_scheduler w = w_scheduler w'
}.

(** The same configuration with brokers, hosts, workers and subscriptions in
    another order. *)
Record reordered (c c' : Config) : Prop := {
  ro_brokers : exists bs, Forall2 same_broker (brokers c) bs /\ bs ≡ₚ brokers c';
  ro_workers : exists ws, Forall2 same_worker (workers c) ws /\ ws ≡ₚ workers c';
  ro_rest : topology_mode c = topology_mode c' /\ routes c = routes c' /\ delay c = delay c' /\
    dead_letter c = dead_letter c' /\ delivery_limit c = delivery_limit c' /\ publisher c = publisher c' /\
    consumer c = consumer c' /\ queue_type c = queue_type c' /\ queue_durable c = queue_durable c'
}.

(** Two lists that agree up to [R] and order have the same images. *)
Lemma fmap_same {A B} (R : A -> A -> Prop) (f : A -> B) l bs l' :
  (forall x y, R x y -> f x = f y) -> Forall2 R l bs -> bs ≡ₚ l' -> f <$> l ≡ₚ f <$> l'.
Proof.
  intros Hf H <-. apply Permutation_refl'. induction H as [|x y l bs Hxy _ IH]; [done|].
  simpl. by rewrite (Hf _ _ Hxy), IH.
Qed.

Lemma elem_same {A} (R : A -> A -> Prop) l bs l' y :
  Forall2 R l bs -> bs ≡ₚ l' -> y ∈ l' -> exists x, x ∈ l /\ R x y.
Proof.
  intros H <- [i Hi]%list_elem_of_lookup. destruct (Forall2_lookup_r _ _ _ _ _ H Hi) as (x & Hx & Hr).
  exists x. split; [by eapply list_elem_of_lookup_2|done].
Qed.

Lemma sort_hosts_same b b' : same_broker b b' -> sort_hosts b = sort_hosts b'.
Proof.
  intros [Hn Hh (Hv & Hc & Ht & Hb)]. unfold sort_hosts. rewrite Hn, Hv, Hc, Ht, Hb. f_equal.
  apply (StronglySorted_unique endpoint_le).
  - apply Sorted_StronglySorted; [apply _|]. apply Sorted_merge_sort, _.
  - apply Sorted_StronglySorted; [apply _|]. apply Sorted_merge_sort, _.
  - by rewrite !merge_sort_Permutation.
Qed.

Lemma broker_problem_same b b' q : same_broker b b' -> broker_problem b' q -> broker_problem b q.
Proof.
  intros [Hn Hh (Hv & Hc & Ht & Hb)] [H|H|n e H1 H2 H3 H4 H5].
  - apply p_hosts, Permutation_nil_r. by rewrite Hh, H.
  - apply p_heartbeat. by rewrite Hb.
  - eapply p_server_name; [by rewrite Ht|by rewrite Ht|by rewrite Hh| |done]. intros e'. rewrite Hh. apply H4.
Qed.

Lemma worker_problem_same names w w' p : same_worker w w' -> worker_problem names w' p -> worker_problem names w p.
Proof.
  intros [Hn Hs Hc] [H|n H|s q H1 H2]; rewrite <- Hn.
  - apply p_subscriptions, Permutation_nil_r. by rewrite Hs, H.
  - apply p_sub_name. by rewrite Hs.
  - apply p_sub; [by rewrite Hs|done].
Qed.

Lemma sort_subscriptions_same names w w' :
  same_worker w w' -> (forall p, ~ worker_problem names w p) -> sort_subscriptions w = sort_subscriptions w'.
Proof.
  intros [Hn Hs Hc] H. unfold sort_subscriptions. rewrite Hn, Hc. f_equal.
  apply sort_names_unique; [|done]. apply not_repeated_NoDup. intros n Hr. by eapply H, p_sub_name.
Qed.

Lemma reordered_problem c c' p : reordered c c' -> problem c' p -> problem c p.
Proof.
  intros [(bs & Hbs & Hb) (ws & Hws & Hw) (E1 & E2 & E3 & E4 & E5 & E6 & E7 & E8 & E9)].
  pose proof (fmap_same _ b_name _ _ _ sb_name Hbs Hb) as Nb.
  pose proof (fmap_same _ w_name _ _ _ sw_name Hws Hw) as Nw.
  intros [H|H1 H2|H1 H2|n H|b q H1 H2|n H|w q H1 H2|n r H1 H2|H|H|H|H|H|H].
  - apply p_brokers. rewrite H in Nb. by apply Permutation_nil_r, fmap_nil_inv in Nb.
  - apply p_durable; congruence.
  - apply p_limit; congruence.
  - apply p_broker_name. by rewrite Nb.
  - destruct (elem_same _ _ _ _ _ Hbs Hb H1) as (b0 & ? & Hs). rewrite <- (sb_name _ _ Hs).
    apply p_broker; [done|]. by eapply broker_problem_same.
  - apply p_worker_name. by rewrite Nw.
  - destruct (elem_same _ _ _ _ _ Hws Hw H1) as (w0 & ? & Hs). eapply p_worker; [done|].
    eapply worker_problem_same; [done|]. eapply worker_problem_perm; [|done]. by rewrite Nb.
  - eapply p_route; [by rewrite E2|by rewrite Nb].
  - apply p_buckets. by rewrite E3.
  - apply p_wait. by rewrite E7.
  - apply p_attempts. by rewrite E7.
  - apply p_mandatory. by rewrite E6.
  - apply p_confirm. by rewrite E6.
  - apply p_flush. by rewrite E6.
Qed.

Lemma fmap_same_ok {A B} (P : A -> Prop) (R : A -> A -> Prop) (f : A -> B) l bs l' :
  (forall x y, P x -> R x y -> f x = f y) -> Forall P l -> Forall2 R l bs -> bs ≡ₚ l' -> f <$> l ≡ₚ f <$> l'.
Proof.
  intros Hf Hp H Hl. apply (fmap_same (fun x y => P x /\ R x y) f l bs l'); [naive_solver| |done].
  clear -Hp H. induction H; [done|]. inversion Hp; subst. constructor; auto.
Qed.

Lemma reordered_canonical c c' :
  reordered c c' -> (forall p, ~ problem c p) -> canonical c = canonical c'.
Proof.
  intros [(bs & Hbs & Hb) (ws & Hws & Hw) (E1 & E2 & E3 & E4 & E5 & E6 & E7 & E8 & E9)] Hc. unfold canonical. f_equal; try done.
  - apply sort_names_unique.
    + rewrite <- list_fmap_compose. apply not_repeated_NoDup. intros n Hn. by eapply Hc, p_broker_name.
    + eapply fmap_same; [apply sort_hosts_same|done..].
  - apply sort_names_unique.
    + rewrite <- list_fmap_compose. apply not_repeated_NoDup. intros n Hn. by eapply Hc, p_worker_name.
    + eapply (fmap_same_ok (fun w => forall p, ~ worker_problem (b_name <$> brokers c) w p)); [| |done..].
      * intros w w' ? ?. by eapply sort_subscriptions_same.
      * apply Forall_forall. intros w Hin p Hp. by eapply Hc, p_worker.
Qed.

Section Theorems.
Variable sha256 : string -> string.

Lemma validate_sound c : reports (problem c) (validate sha256 c).
Proof.
  unfold validate.
  eapply reports_iff; [|do 3 (apply reports_guard; intros _);
    apply reports_bind; [apply (unique_reports (fun n => "brokers." +:+ n))|intros _ _];
    apply reports_bind; [apply reports_each; intros b _; apply broker_reports|intros bs ->%brokers_Ok];
    apply reports_bind; [apply (unique_reports (fun n => "workers." +:+ n))|intros _ _];
    apply reports_bind; [apply workers_reports|intros ws Hws];
    apply reports_bind; [apply known_routes_reports|intros _ _];
    apply reports_bind; [apply delay_reports|intros _ _];
    apply reports_bind; [apply consumer_reports|intros _ _];
    apply reports_then, publisher_reports].
  - intros p. split.
    + intros [[H%bool_decide_eq_true ->]|H]; [by constructor|].
      destruct H as [[[H%bool_decide_eq_true ?%negb_true_iff]%andb_true_iff ->]|H]; [by constructor|].
      destruct H as [[[H%bool_decide_eq_true ?%bool_decide_eq_true]%andb_true_iff ->]|H]; [by constructor|].
      destruct H as [(n & ? & ->)|[(b & ? & q & ? & ->)|[(n & ? & ->)|[(w & ? & ?)|H]]]].
      * by constructor.
      * by constructor.
      * by constructor.
      * by eapply p_worker.
      * destruct H as [(n & r & ? & ? & ->)|[[? ->]|[[[? ->]|[? ->]]|[[? ->]|[[? ->]|[? ->]]]]]]; by econstructor.
    + assert (forall (P : Prop) `{Decision P}, P -> bool_decide P = true) as Hd
        by (intros; by apply bool_decide_eq_true).
      intros [H|H1 H2|H1 H2|n H|b q H1 H2|n H|w q H1 H2|n r H1 H2|H|H|H|H|H|H].
      * left. by rewrite Hd.
      * right. left. by rewrite Hd, H2.
      * right. right. left. by rewrite !Hd.
      * do 3 right. left. eauto.
      * do 4 right. left. eauto.
      * do 5 right. left. eauto.
      * do 6 right. left. eauto.
      * do 7 right. left. eauto 6.
      * do 8 right. by left.
      * do 9 right. left. by left.
      * do 9 right. left. by right.
      * do 10 right. by left.
      * do 11 right. by left.
      * do 11 right. by right.
Qed.

Lemma validate_canonical c v :
  validate sha256 c = Ok v ->
  v = mkValidated (canonical_brokers c) (canonical_workers c) (topology_mode c) (routes c) (delay c) (dead_letter c)
        (delivery_limit c) (publisher c) (consumer c) (queue_type c) (queue_durable c)
        (calculate sha256 (canonical c)).
Proof.
  unfold validate. do 3 (case_match; [done|]).
  destruct (validate_unique_broker_names _); simpl; [|done].
  destruct (validate_each validate_broker _) as [bs|] eqn:Hb; simpl; [|done]. apply brokers_Ok in Hb as ->.
  destruct (validate_unique_worker_names _); simpl; [|done].
  destruct (validate_each _ (workers c)) as [ws|] eqn:Hw; simpl; [|done]. apply workers_Ok in Hw as ->.
  destruct (validate_routes _ _); simpl; [|done]. destruct (validate_delay _); simpl; [|done].
  destruct (validate_consumer _); simpl; [|done]. destruct (validate_publisher _); simpl; [|done].
  by intros [= <-].
Qed.

(** ** Theorems *)

(** C20. Validation decides validity and names the culprit: a configuration is
    refused with the path of something that is wrong with it, and when it is
    accepted nothing is wrong with it. The problems are stated on the
    configuration as the user wrote it: missing brokers, hosts or subscriptions,
    repeated names, references to unknown brokers, values out of range, option
    combinations the broker or the consumer cannot honour. *)
Theorem validate_decides c :
  match validate sha256 c with
  | Ok _ => forall p, ~ problem c p
  | Err e => problem c (ce_path e)
  end.
Proof. pose proof (validate_sound c) as H. by destruct (validate sha256 c). Qed.

Lemma validated_ok c v : validate sha256 c = Ok v -> wf v.
Proof.
  intros Hv. pose proof (validate_sound c) as Hp. rewrite Hv in Hp. simpl in Hp.
  apply validate_canonical in Hv as ->.
  assert (NoDup (b_name <$> (sort_hosts <$> brokers c))) as Nb.
  { rewrite <- list_fmap_compose. apply not_repeated_NoDup. intros n Hn. by eapply Hp, p_broker_name. }
  assert (NoDup (w_name <$> (sort_subscriptions <$> workers c))) as Nw.
  { rewrite <- list_fmap_compose. apply not_repeated_NoDup. intros n Hn. by eapply Hp, p_worker_name. }
  split; simpl.
  - intros E. eapply Hp, p_brokers. apply (fmap_nil_inv sort_hosts), Permutation_nil_r.
    by rewrite <- (sort_names_perm b_name), <- E.
  - by apply sort_names_strict.
  - unfold canonical_brokers. rewrite sort_names_perm. apply Forall_fmap, Forall_forall. intros b Hb.
    apply sort_hosts_ok. intros p Hq. by eapply Hp, p_broker.
  - intros n b. apply find_name. unfold canonical_brokers. by rewrite sort_names_perm.
  - by apply sort_names_strict.
  - apply Forall_forall. intros w' Hw'. unfold canonical_workers in Hw'. rewrite sort_names_perm in Hw'.
    apply list_elem_of_fmap_1 in Hw' as (w & -> & Hw).
    apply sort_subscriptions_ok. intros p Hq. eapply Hp, p_worker; [done|].
    eapply worker_problem_perm; [|done]. apply broker_names.
  - intros n w. apply find_name. unfold canonical_workers. by rewrite sort_names_perm.
  - apply Forall_forall. intros [n r] Hr. apply find_name_is_Some. simpl. rewrite broker_names.
    apply dec_stable. intros ?. by eapply Hp, p_route.
  - assert (~ delay_problem (delay c)) as Hd by (intros ?; by eapply Hp, p_buckets).
    unfold delay_problem in Hd. destruct (dc_buckets (delay c)) as [|x l] eqn:E; [tauto|].
    split; [simpl in *; lia|tauto].
  - intros Hq. destruct (queue_durable c) eqn:E; [done|]. by destruct (Hp "queue_durable"); apply p_durable.
  - intros Hq. destruct (delivery_limit c) eqn:E; [|done]. by destruct (Hp "delivery_limit"); apply p_limit; rewrite ?E.
  - split; [apply dec_stable; intros ?; by eapply Hp, p_wait|]. intros ?. by eapply Hp, p_attempts.
  - split; [destruct (pub_mandatory (publisher c)) eqn:E; [done|]; by destruct (Hp "publisher.mandatory"); apply p_mandatory|].
    split; apply Z.nlt_ge; intros ?; [by eapply Hp, p_confirm|by eapply Hp, p_flush].
Qed.

(** C24. A validated configuration is well formed: brokers, workers and
    subscriptions have unique names and are in name order, hosts are sorted, every
    lookup by name finds exactly the entry of that name, every broker a
    subscription or route names exists, and weights, byte budgets, prefetch
    windows, heartbeats, timeouts, buckets and queue settings are inside the ranges
    the other components rely on. *)
Theorem validated_wf c v : validate sha256 c = Ok v -> wf v.
Proof. apply validated_ok. Qed.

(** The order of writing does not matter: a configuration that lists the
    brokers, the hosts of a broker, the workers or the subscriptions of a worker in
    another order validates to the same configuration, fingerprint included, so
    its pools share connections. *)
Theorem order_irrelevant c c' v : reordered c c' -> validate sha256 c = Ok v -> validate sha256 c' = Ok v.
Proof.
  intros Hr Hv. pose proof (validate_sound c) as Hp. rewrite Hv in Hp. simpl in Hp.
  pose proof (reordered_canonical c c' Hr Hp) as Hc. pose proof (validate_sound c') as Hp'.
  destruct (validate sha256 c') as [v'|e] eqn:Hv'; simpl in Hp'.
  - apply validate_canonical in Hv as ->, Hv' as ->. rewrite Hc. unfold canonical in Hc. by injection Hc as -> -> -> -> -> -> -> -> -> -> ->.
  - destruct (Hp (ce_path e)). by eapply reordered_problem.
Qed.

Lemma strip_prefix_spec prefix s r : strip_prefix prefix s = Some r <-> s = prefix +:+ r.
Proof.
  revert s. induction prefix as [|a prefix IH]; intros s.
  - simpl. split; [by intros [= ->]|by intros ->].
  - change (String a prefix +:+ r) with (String a (prefix +:+ r)).
    destruct s as [|b s]; simpl; [done|]. case_decide as E; [|naive_solver].
    rewrite IH. subst. split; [by intros ->|by intros [= ->]].
Qed.

(** The profile synthesized for an automatic name is a valid one: for a name
    with the prefix and a queue, on a configuration with one broker, it has the
    single subscription [auto] to that queue with the documented defaults and meets
    every bound of a configured profile; any other name, or a configuration with
    several brokers, is refused. *)
Theorem auto_profile_valid v profile :
  match synthesize_auto_profile v profile with
  | Ok w => exists queue b, profile = AUTO_PROFILE_PREFIX +:+ queue /\ queue <> "" /\ v_brokers v = [b] /\
      w = mkWorker profile [mkSub "auto" (b_name b) queue 1 (Fixed 64) default_max_buffered_bytes false false]
            weighted_fair /\ worker_ok v w
  | Err _ => (forall queue, profile <> AUTO_PROFILE_PREFIX +:+ queue) \/ profile = AUTO_PROFILE_PREFIX \/
      (forall b, v_brokers v <> [b])
  end.
Proof.
  unfold synthesize_auto_profile. destruct (strip_prefix AUTO_PROFILE_PREFIX profile) as [queue|] eqn:Hs.
  2: { left. intros queue E%strip_prefix_spec. congruence. }
  apply strip_prefix_spec in Hs. case_decide as Hq; [right; left; subst; apply string_app_nil_r|].
  destruct (v_brokers v) as [|b [|]] eqn:Hb; [right; right; done| |right; right; done].
  set (w := mkWorker _ _ _). pose proof (worker_reports w (b_name <$> [b])) as Hr.
  assert (forall p, ~ worker_problem (b_name <$> [b]) w p) as Hw.
  { intros p [H|n [l' H%Permutation_length]|s q Hin H]; [done|done|].
    apply list_elem_of_singleton in Hin as ->.
    destruct H as [H|H|H|q H|H ?]; simpl in *; try done; [set_solver|]. by destruct H. }
  destruct (validate_worker w (b_name <$> [b])) as [[]|e]; simpl in *; [|by destruct (Hw (ce_path e))].
  exists queue, b. split; [done|]. split; [done|]. split; [done|]. split; [done|].
  pose proof (sort_subscriptions_ok v w) as H. rewrite Hb in H. by apply H.
Qed.

End Theorems.

(** ** Samples *)

Definition sample_hosts : list Endpoint := [mkEndpoint "rabbit-2" 5671; mkEndpoint "rabbit-1" 5671].

Definition sample_broker (name : string) (hosts : list Endpoint) : BrokerConfig :=
  mkBroker name hosts "/" (mkCredentials "guest" "secret") (mkTls true None None None Peer (Some "rabbit-1")) (from_secs 60).

Definition sample_sub (name broker : string) : SubscriptionConfig :=
  mkSub name broker "jobs" 2 (Adaptive 8 1 64 (from_secs 2)) default_max_buffered_bytes false false.

Definition sample_workers (subs : list SubscriptionConfig) : list WorkerProfile := [mkWorker "emails" subs weighted_fair].

Definition sample_config (bs : list BrokerConfig) (ws : list WorkerProfile) : Config :=
  mkConfiguration bs ws ModeDeclare [("default", mkRoute "main" "" "{queue}")]
    (mkDelayConfig Auto [from_secs 1; from_secs 5] 8 (from_secs 60)) None None
    (mkPublisherSection Safe true true (from_secs 30) (from_millis 1)) (mkConsumerSection (from_secs 30) (Some 20))
    Quorum true.

Definition sample : Config :=
  sample_config [sample_broker "main" sample_hosts; sample_broker "backup" sample_hosts]
    (sample_workers [sample_sub "low" "backup"; sample_sub "high" "main"]).

Definition sample_rewritten : Config :=
  sample_config [sample_broker "backup" (reverse sample_hosts); sample_broker "main" sample_hosts]
    (sample_workers [sample_sub "high" "main"; sample_sub "low" "backup"]).

Definition no_hash (s : string) : string := "".

(** The well-formed result of the sample. *)
Lemma validated_wf_witness :
  exists v, validate no_hash sample = Ok v /\ b_name <$> v_brokers v = ["backup"; "main"] /\
    (e_host <$> (v_brokers v ≫= b_hosts)) = ["rabbit-1"; "rabbit-2"; "rabbit-1"; "rabbit-2"] /\ wf v.
Proof.
  destruct (validate no_hash sample) as [v|e] eqn:E; [|by vm_compute in E].
  exists v. split; [done|]. split; [by vm_compute in E; injection E as <-|].
  split; [by vm_compute in E; injection E as <-|]. by apply (validated_wf no_hash sample v).
Defined.

Lemma order_irrelevant_witness :
  sample <> sample_rewritten /\ is_ok (validate no_hash sample) = true /\
  validate no_hash sample_rewritten = validate no_hash sample.
Proof.
  split; [done|]. split; [by vm_compute|].
  destruct (validate no_hash sample) as [v|e] eqn:E; [|by vm_compute in E].
  apply (order_irrelevant no_hash sample sample_rewritten v); [|done]. split; [| |done].
  - exists [sample_broker "main" sample_hosts; sample_broker "backup" (reverse sample_hosts)].
    split; [|apply perm_swap]. repeat constructor; simpl; done || apply perm_swap.
  - exists (workers sample_rewritten). split; [|done]. repeat constructor; apply perm_swap.
Defined.

(** A repeated subscription name, reported by its path. *)
Example repeated_name_reported :
  match validate no_hash (sample_config [sample_broker "main" sample_hosts]
      (sample_workers [sample_sub "a" "main"; sample_sub "b" "main"; sample_sub "a" "main"])) with
  | Err e => ce_path e = "workers.emails.subscriptions.a"
  | Ok _ => False
  end.
Proof. by vm_compute. Qed.

End ConfigValid.
