(* ===== verification/ConfigFingerprint.v ===== *)
(** * What the configuration fingerprint identifies

    Two configurations share their connections when their fingerprints are equal.
    The digested bytes are a sequence of fields without element counts; this file
    shows that they determine the configuration all the same, up to the settings
    that are left out on purpose. *)

From Stdlib Require Import Ascii.
From stdpp Require Import pretty.
From S2P Require Import Prelude Transport Publication DelayTopology TopologyPlan ConsumerActor Config ConfigValid.
Import Transport Publication DelayTopology TopologyPlan Config ConfigValid.
Local Open Scope Z_scope.
Local Open Scope rabbit_scope.

Module ConfigFingerprint.

(** ** Strings and bytes *)

Lemma string_app_cons a (s t : string) : String a s +:+ t = String a (s +:+ t).
Proof. reflexivity. Qed.

Lemma string_app_same_length (s1 s2 r1 r2 : string) :
  String.length s1 = String.length s2 -> s1 +:+ r1 = s2 +:+ r2 -> s1 = s2 /\ r1 = r2.
Proof.
  revert s2. induction s1 as [|a s1 IH]; intros [|b s2]; simpl; try done.
  intros [= Hl]. rewrite !string_app_cons. intros [= -> H]. by destruct (IH s2 Hl H) as [-> ->].
Qed.

Lemma be_bytes_length n v : String.length (be_bytes n v) = n.
Proof. induction n as [|n IH]; simpl; congruence. Qed.

Lemma ascii_of_Z_inj a b : 0 <= a < 256 -> 0 <= b < 256 -> ascii_of_Z a = ascii_of_Z b -> a = b.
Proof.
  intros Ha Hb H. unfold ascii_of_Z in H. apply (f_equal Ascii.nat_of_ascii) in H.
  rewrite !Ascii.nat_ascii_embedding in H by lia. lia.
Qed.

Lemma be_bytes_mod n v : be_bytes n v = be_bytes n (v mod 256 ^ Z.of_nat n).
Proof.
  assert (forall k, (n <= k)%nat -> be_bytes n v = be_bytes n (v mod 256 ^ Z.of_nat k)) as H; [|by apply H].
  induction n as [|n IH]; intros k Hk; simpl; [done|]. f_equal; [|apply IH; lia].
  f_equal. rewrite <- !Z.land_ones with (n := 8) by lia. change 256 with (2 ^ 8). rewrite <- !Z.pow_mul_r by lia.
  apply Z.bits_inj'. intros i Hi. rewrite !Z.land_spec, <- !Z.shiftr_div_pow2, !Z.shiftr_spec by lia.
  destruct (decide (i < 8)) as [Hi8|Hi8].
  - rewrite Z.mod_pow2_bits_low by lia. done.
  - rewrite !Z.ones_spec_high by lia. by rewrite !andb_false_r.
Qed.

Lemma be_bytes_inj n a b :
  0 <= a < 256 ^ Z.of_nat n -> 0 <= b < 256 ^ Z.of_nat n -> be_bytes n a = be_bytes n b -> a = b.
Proof.
  revert a b. induction n as [|n IH]; intros a b Ha Hb; simpl; [lia|].
  assert (256 ^ Z.of_nat (S n) = 256 * 256 ^ Z.of_nat n) as E by (rewrite Nat2Z.inj_succ; apply Z.pow_succ_r; lia).
  assert (0 < 256 ^ Z.of_nat n) as Hp by (apply Z.pow_pos_nonneg; lia).
  intros [= Hh Ht]. rewrite (be_bytes_mod n a), (be_bytes_mod n b) in Ht.
  apply IH in Ht; [|apply Z.mod_pos_bound; lia..].
  assert (0 <= a / 256 ^ Z.of_nat n < 256) as Ha' by (split; [apply Z.div_pos; lia|apply Z.div_lt_upper_bound; lia]).
  assert (0 <= b / 256 ^ Z.of_nat n < 256) as Hb' by (split; [apply Z.div_pos; lia|apply Z.div_lt_upper_bound; lia]).
  rewrite !Z.mod_small in Hh by done. apply ascii_of_Z_inj in Hh; [|done..].
  rewrite (Z.div_mod a (256 ^ Z.of_nat n)), (Z.div_mod b (256 ^ Z.of_nat n)) by lia. by rewrite Hh, Ht.
Qed.

(** Fixed-width fields and length-prefixed fields can be read off the front. *)
Lemma be_bytes_front n a b r r' :
  0 <= a < 256 ^ Z.of_nat n -> 0 <= b < 256 ^ Z.of_nat n -> be_bytes n a +:+ r = be_bytes n b +:+ r' ->
  a = b /\ r = r'.
Proof.
  intros Ha Hb H. apply string_app_same_length in H as [H ->]; [|by rewrite !be_bytes_length].
  by apply be_bytes_inj in H.
Qed.

(** Short enough for the length prefix to start with zeros. *)
Definition fits (s : string) : Prop := Z.of_nat (String.length s) < 2 ^ 48.

Lemma fits_length s : fits s -> 0 <= Z.of_nat (String.length s) < 256 ^ Z.of_nat 8.
Proof. unfold fits. intros H. split; [lia|]. etrans; [exact H|done]. Qed.

Lemma hash_value_front s s' r r' :
  fits s -> fits s' -> hash_value s +:+ r = hash_value s' +:+ r' -> s = s' /\ r = r'.
Proof.
  intros Hs Hs'. unfold hash_value, hash_field. rewrite !string_app_assoc. intros H.
  apply be_bytes_front in H as [Hl H]; [|by apply fits_length..].
  apply string_app_same_length; [lia|done].
Qed.

Definition zero : Ascii.ascii := ascii_of_Z 0.

(** A length prefix starts with two zero bytes. *)
Lemma hash_value_zeros s r : fits s -> exists t, hash_value s +:+ r = String zero (String zero t).
Proof.
  intros Hs. unfold hash_value, hash_field. rewrite string_app_assoc. unfold fits in Hs.
  set (v := Z.of_nat (String.length s)) in *. cbn [be_bytes].
  rewrite !(Z.div_small v) by (subst v; cbn; lia). rewrite !string_app_cons. by eexists.
Qed.

Lemma be_bytes2_zeros w r t : 0 < w < 65536 -> be_bytes 2 w +:+ r <> String zero (String zero t).
Proof.
  intros Hw H. change (String zero (String zero t)) with (be_bytes 2 0 +:+ t) in H.
  apply be_bytes_front in H as [-> _]; cbn; lia.
Qed.

(** ** Sequences without a count

    A sequence can be read off the front when its elements can, and when what
    follows it ([stop]) never looks like another element. [next] is what may follow
    an element. *)

Section Sequence.
Context {A B : Type} (f : A -> string) (g : A -> B) (ok : A -> Prop) (next stop : string -> Prop).
Hypothesis next_elem : forall x r, ok x -> next r -> next (f x +:+ r).
Hypothesis next_stop : forall r, stop r -> next r.
Hypothesis front : forall x y r r', ok x -> ok y -> next r -> next r' -> f x +:+ r = f y +:+ r' -> g x = g y /\ r = r'.
Hypothesis apart : forall x r s, ok x -> stop r -> next s -> f x +:+ s <> r.

Lemma update_all_cons x l r : update_all f (x :: l) +:+ r = f x +:+ update_all f l +:+ r.
Proof. unfold update_all. simpl. by rewrite string_app_assoc. Qed.

Lemma next_all l r : Forall ok l -> next r -> next (update_all f l +:+ r).
Proof. intros Hl Hr. induction Hl as [|x l Hx _ IH]; [done|]. rewrite update_all_cons. auto. Qed.

Lemma sequence_front l l' r r' :
  Forall ok l -> Forall ok l' -> stop r -> stop r' ->
  update_all f l +:+ r = update_all f l' +:+ r' -> g <$> l = g <$> l' /\ r = r'.
Proof.
  intros Hl. revert l'. induction Hl as [|x l Hx Hl IH]; intros l' Hl' Hr Hr'.
  - destruct Hl' as [|y l' Hy Hl']; [done|]. rewrite update_all_cons. intros H. exfalso.
    symmetry in H. change (update_all f [] +:+ r) with r in H. eapply apart; [..|exact H]; auto using next_all.
  - destruct Hl' as [|y l' Hy Hl']; rewrite update_all_cons.
    + change (update_all f [] +:+ r') with r'. intros H. exfalso. eapply apart; [..|exact H]; auto using next_all.
    + rewrite update_all_cons. intros H. apply front in H as [Hg H]; auto using next_all.
      destruct (IH l' Hl' Hr Hr' H) as [Hgs ->].
      split; [|done]. change (g x :: (g <$> l) = g y :: (g <$> l')). by rewrite Hg, Hgs.
Qed.

End Sequence.

(** ** What the fingerprint looks at

    [observed c] is [c] as the fingerprint sees it. Left out are the deprecated and the timer
    settings of the publisher and the ignored scheduler budget. Rounded are the heartbeats and
    the expiry margin, to whole seconds, and the confirm timeout, the wait timeout and the
    target buffers, to milliseconds. Absent optional texts are empty ones, absent attempts are
    none. *)

Definition observed_opt (o : option string) : option string := Some (default "" o).

Definition observed_tls (t : TlsConfig) : TlsConfig :=
  mkTls (tls_enabled t) (observed_opt (ca_cert t)) (observed_opt (client_cert t)) (observed_opt (client_key t))
    (tls_verify t) (observed_opt (server_name t)).

Definition observed_broker (b : BrokerConfig) : BrokerConfig :=
  mkBroker (b_name b) (b_hosts b) (b_vhost b) (b_credentials b) (observed_tls (b_tls b))
    (from_secs (as_secs (b_heartbeat b))).

Definition observed_prefetch (p : PrefetchConfig) : PrefetchConfig :=
  match p with
  | ConsumerActor.Fixed v => Fixed v
  | ConsumerActor.Adaptive initial min max target =>
      Adaptive initial min max (from_millis (Z.min (as_millis target) U64_MAX))
  end.

Definition observed_sub (s : SubscriptionConfig) : SubscriptionConfig :=
  mkSub (su_name s) (su_broker s) (su_queue s) (su_weight s) (observed_prefetch (su_prefetch s))
    (su_max_buffered_bytes s) (su_early_ack s) (su_no_ack s).

Definition observed_worker (w : WorkerProfile) : WorkerProfile :=
  mkWorker (w_name w) (observed_sub <$> w_subscriptions w) (mkSchedulerConfig (strategy (w_scheduler w)) None).

Definition observed_delay (d : DelayConfig) : DelayConfig :=
  mkDelayConfig (dc_mode d) (dc_buckets d) (dc_max_buckets d) (from_secs (as_secs (dc_queue_expiry_margin d))).

Definition observed_dead_letter (d : DeadLetterConfig) : DeadLetterConfig :=
  mkDeadLetterConfig (dlc_enabled d) (dlc_exchange d) (dlc_queue d) (observed_opt (dlc_routing_key d)).

Definition observed_publisher (p : PublisherConfigSection) : PublisherConfigSection :=
  mkPublisherSection (pub_safety p) (pub_confirms p) true (from_millis (as_millis (pub_confirm_timeout p))) 0.

Definition observed_consumer (c : ConsumerConfigSection) : ConsumerConfigSection :=
  mkConsumerSection (from_millis (as_millis (wait_timeout c))) (Some (default 0 (max_attempts c))).

Definition observed (c : Config) : Config :=
  mkConfiguration (observed_broker <$> brokers c) (observed_worker <$> workers c) (topology_mode c) (routes c)
    (observed_delay (delay c)) (observed_dead_letter <$> dead_letter c) (delivery_limit c)
    (observed_publisher (publisher c)) (observed_consumer (consumer c)) (queue_type c) (queue_durable c).

(** ** Representable configurations

    What the reading of the byte stream needs: values inside the widths of their types, texts
    of a length below 2^48, ports other than zero, and a first byte other than zero in user and
    queue names. *)

Definition no_nul (s : string) : Prop :=
  match s with EmptyString => True | String a _ => a <> zero end.

Definition text (s : string) : Prop := fits s.
Definition opt_text (o : option string) : Prop := text (default "" o).
Definition width (n : nat) (v : Z) : Prop := 0 <= v < 256 ^ Z.of_nat n.

Definition endpoint_rep (e : Endpoint) : Prop := text (e_host e) /\ 0 < e_port e < 65536.

Record broker_rep (b : BrokerConfig) : Prop := {
  br_texts : text (b_name b) /\ text (b_vhost b) /\ text (username (b_credentials b)) /\
    text (password (b_credentials b)) /\ opt_text (server_name (b_tls b)) /\ opt_text (ca_cert (b_tls b)) /\
    opt_text (client_cert (b_tls b)) /\ opt_text (client_key (b_tls b));
  br_user : no_nul (username (b_credentials b));
  br_heartbeat : width 8 (as_secs (b_heartbeat b));
  br_hosts : Forall endpoint_rep (b_hosts b)
}.

Definition prefetch_rep (p : PrefetchConfig) : Prop :=
  match p with
  | ConsumerActor.Fixed v => width 2 v
  | ConsumerActor.Adaptive initial min max target => width 2 initial /\ width 2 min /\ width 2 max /\ 0 <= target
  end.

Record sub_rep (s : SubscriptionConfig) : Prop := {
  sr_texts : text (su_name s) /\ text (su_broker s) /\ text (su_queue s);
  sr_queue : no_nul (su_queue s);
  sr_weight : 0 < su_weight s < 65536;
  sr_prefetch : prefetch_rep (su_prefetch s);
  sr_bytes : width 8 (su_max_buffered_bytes s)
}.

Record worker_rep (w : WorkerProfile) : Prop := {
  wr_name : text (w_name w);
  wr_nonempty : w_subscriptions w <> [];
  wr_subs : Forall sub_rep (w_subscriptions w)
}.

Record delay_rep (d : DelayConfig) : Prop := {
  dr_buckets : Forall (fun x => 0 <= x) (dc_buckets d);
  dr_fits : fits (debug_durations (dc_buckets d));
  dr_max : 1 <= dc_max_buckets d < 256 ^ Z.of_nat 8;
  dr_margin : 0 <= as_secs (dc_queue_expiry_margin d) < 2 ^ 56
}.

Definition dead_letter_rep (o : option DeadLetterConfig) : Prop :=
  match o with
  | Some d => text (dlc_exchange d) /\ text (dlc_queue d) /\ opt_text (dlc_routing_key d)
  | None => True
  end.

Definition route_rep (r : string * RouteConfig) : Prop :=
  text r.1 /\ text (ro_broker r.2) /\ text (ro_exchange r.2) /\ text (ro_routing_key r.2).

Record representable (c : Config) : Prop := {
  re_brokers : Forall broker_rep (brokers c);
  re_workers : Forall worker_rep (workers c);
  re_routes : Forall route_rep (routes c);
  re_delay : delay_rep (delay c);
  re_dead_letter : dead_letter_rep (dead_letter c);
  re_limit : from_option (width 4) True (delivery_limit c);
  re_publisher : width 16 (as_millis (pub_confirm_timeout (publisher c)));
  re_consumer : width 16 (as_millis (wait_timeout (consumer c))) /\ width 4 (default 0 (max_attempts (consumer c)))
}.

(** ** Fields *)

Ltac fit :=
  first
    [ assumption
    | match goal with
      | H : text ?s |- fits ?s => exact H
      | H : opt_text ?o |- fits (default "" ?o) => exact H
      end
    | match goal with |- context [if ?b then _ else _] => destruct b end; reflexivity
    | reflexivity ].

(** Reads the first field of both sides of an equation. *)
Ltac peel H E :=
  first
    [ apply hash_value_front in H as [E H]; [|fit..]
    | apply be_bytes_front in H as [E H]; [|unfold width in *; first [done | cbn; lia]..] ].

Lemma opt_eq (o o' : option string) : default "" o = default "" o' -> observed_opt o = observed_opt o'.
Proof. unfold observed_opt. congruence. Qed.

(** What follows an endpoint, a broker or a subscription. *)
Definition two_texts (r : string) : Prop :=
  exists a b t, fits a /\ fits b /\ r = hash_value a +:+ hash_value b +:+ t.

Definition worker_head (r : string) : Prop :=
  exists n s t, text n /\ sub_rep s /\ r = hash_value n +:+ hash_value "weighted_fair" +:+ hash_subscription s +:+ t.

Definition delay_head (r : string) : Prop := exists d t, delay_rep d /\ r = hash_delay d +:+ t.

Definition past_brokers (r : string) : Prop := worker_head r \/ delay_head r.

Lemma two_texts_worker r : worker_head r -> two_texts r.
Proof. intros (n & s & t & Hn & _ & ->). exists n, "weighted_fair", (hash_subscription s +:+ t). split_and!; [fit..|done]. Qed.

Lemma delay_mode_fits m : fits (delay_mode_name m).
Proof. by destruct m. Qed.

Lemma two_texts_delay r : delay_head r -> two_texts r.
Proof.
  intros (d & t & Hd & ->). unfold hash_delay. rewrite !string_app_assoc. eexists _, _, _.
  split_and!; [| |reflexivity]; [apply delay_mode_fits|apply Hd].
Qed.

(** *** Hosts *)

Lemma endpoint_front e e' r r' :
  endpoint_rep e -> endpoint_rep e' -> hash_endpoint e +:+ r = hash_endpoint e' +:+ r' -> e = e' /\ r = r'.
Proof.
  intros [Hh Hp] [Hh' Hp'] H. unfold hash_endpoint in H. rewrite !string_app_assoc in H.
  peel H E1. peel H E2. destruct e, e'; simpl in *. by subst.
Qed.

Lemma endpoint_apart e r s : endpoint_rep e -> two_texts r -> hash_endpoint e +:+ s <> r.
Proof.
  intros [Hh Hp] (a & b & t & Ha & Hb & ->) H. unfold hash_endpoint in H. rewrite !string_app_assoc in H.
  peel H E. destruct (hash_value_zeros b t Hb) as [z Hz]. rewrite Hz in H. by eapply be_bytes2_zeros.
Qed.

Lemma hosts_front l l' r r' :
  Forall endpoint_rep l -> Forall endpoint_rep l' -> two_texts r -> two_texts r' ->
  update_all hash_endpoint l +:+ r = update_all hash_endpoint l' +:+ r' -> l = l' /\ r = r'.
Proof.
  intros Hl Hl' Hr Hr' H.
  apply (sequence_front hash_endpoint (fun e => e) endpoint_rep (fun _ => True) two_texts) in H; try done.
  - by rewrite !list_fmap_id in H.
  - intros. by apply endpoint_front.
  - intros x r0 s ? ? _. by apply endpoint_apart.
Qed.

(** *** Brokers *)

Lemma broker_front b b' r r' :
  broker_rep b -> broker_rep b' -> two_texts r -> two_texts r' ->
  hash_broker b +:+ r = hash_broker b' +:+ r' -> observed_broker b = observed_broker b' /\ r = r'.
Proof.
  intros [(? & ? & ? & ? & ? & ? & ? & ?) _ Hb Hl] [(? & ? & ? & ? & ? & ? & ? & ?) _ Hb' Hl'] Hr Hr' Heq.
  unfold hash_broker in Heq. rewrite !string_app_assoc in Heq.
  peel Heq E1. peel Heq E2. peel Heq E3. peel Heq E4. peel Heq E5. destruct (tls_verify (b_tls b)) eqn:V, (tls_verify (b_tls b')) eqn:V'.
  peel Heq E6. peel Heq E7. peel Heq E8. peel Heq E9. peel Heq E10. peel Heq E11.
  apply hosts_front in Heq as [E12 ->]; [|done..]. split; [|done].
  assert (b_credentials b = b_credentials b') as E13 by (destruct (b_credentials b), (b_credentials b'); simpl in *; congruence).
  assert (tls_enabled (b_tls b) = tls_enabled (b_tls b')) as E14 by (by destruct (tls_enabled (b_tls b)), (tls_enabled (b_tls b'))).
  unfold observed_broker, observed_tls. apply opt_eq in E7, E8, E9, E10. congruence.
Qed.

Lemma broker_two_texts b r : broker_rep b -> two_texts (hash_broker b +:+ r).
Proof.
  intros [(? & ? & _) _ _ _]. unfold hash_broker. rewrite !string_app_assoc. eexists _, _, _.
  split_and!; [| |reflexivity]; fit.
Qed.

(** A text whose length is a positive number and that starts with a zero byte. *)
Lemma text_not_delay u r d t :
  text u -> no_nul u -> delay_rep d ->
  hash_value u +:+ r <> be_bytes 8 (dc_max_buckets d) +:+ be_bytes 8 (as_secs (dc_queue_expiry_margin d)) +:+ t.
Proof.
  intros Hf Ha [_ _ Hm Hg] H. unfold hash_value, hash_field in H. rewrite string_app_assoc in H.
  apply be_bytes_front in H as [E H]; [|by apply fits_length|lia].
  destruct u as [|a u]; [simpl in E; lia|]. apply Ha.
  cbn [be_bytes] in H. rewrite !string_app_cons in H. injection H as -> _. unfold zero. f_equal.
  set (v := as_secs _) in *. rewrite Z.div_small; [done|]. change (256 ^ Z.of_nat 7) with (2 ^ 56). lia.
Qed.

Lemma broker_apart b r s : broker_rep b -> past_brokers r -> hash_broker b +:+ s <> r.
Proof.
  intros [(? & ? & ? & ? & _) ? _ _] [(n & x & t & Hn & Hx & ->)|(d & t & Hd & ->)] Heq; unfold hash_broker in Heq.
  - destruct Hx as [(? & ? & ?) _ Hw _ _]. unfold hash_subscription in Heq. rewrite !string_app_assoc in Heq.
    peel Heq E1. peel Heq E2. peel Heq E3. peel Heq E4. peel Heq E5.
    destruct (hash_value_zeros (tls_verify_name (tls_verify (b_tls b)))
      (hash_value (default "" (server_name (b_tls b))) +:+ hash_value (default "" (ca_cert (b_tls b))) +:+
       hash_value (default "" (client_cert (b_tls b))) +:+ hash_value (default "" (client_key (b_tls b))) +:+
       be_bytes 8 (as_secs (b_heartbeat b)) +:+ update_all hash_endpoint (b_hosts b) +:+ s)) as [z Hz];
      [by destruct (tls_verify (b_tls b))|]. rewrite Hz in Heq. symmetry in Heq. eapply be_bytes2_zeros; [exact Hw|exact Heq].
  - unfold hash_delay in Heq. rewrite !string_app_assoc in Heq.
    apply hash_value_front in Heq as [_ Heq]; [|fit|apply delay_mode_fits].
    apply hash_value_front in Heq as [_ Heq]; [|fit|apply Hd].
    eapply text_not_delay; [| |exact Hd|exact Heq]; assumption.
Qed.

Lemma brokers_front l l' r r' :
  Forall broker_rep l -> Forall broker_rep l' -> past_brokers r -> past_brokers r' ->
  update_all hash_broker l +:+ r = update_all hash_broker l' +:+ r' ->
  observed_broker <$> l = observed_broker <$> l' /\ r = r'.
Proof.
  apply (sequence_front hash_broker observed_broker broker_rep two_texts past_brokers).
  - intros. by apply broker_two_texts.
  - intros x [?|?]; [by apply two_texts_worker|by apply two_texts_delay].
  - intros. by apply broker_front.
  - intros x r0 s ? ? _. by apply broker_apart.
Qed.

(** *** Subscriptions and workers *)

Lemma min_width d : 0 <= d -> width 8 (Z.min (as_millis d) U64_MAX).
Proof.
  intros Hd. assert (0 <= as_millis d) by (apply Z.div_pos; [done|vm_compute; done]).
  unfold width. change (256 ^ Z.of_nat 8) with (U64_MAX + 1). assert (0 <= U64_MAX) by done. lia.
Qed.

Lemma prefetch_front p p' r r' :
  prefetch_rep p -> prefetch_rep p' -> hash_prefetch p +:+ r = hash_prefetch p' +:+ r' ->
  observed_prefetch p = observed_prefetch p' /\ r = r'.
Proof.
  intros Hp Hp' Heq. destruct p as [v|i mn mx t], p' as [v'|i' mn' mx' t']; simpl in Hp, Hp'; cbn [hash_prefetch] in Heq;
    rewrite !string_app_assoc in Heq; peel Heq E0; try done.
  - peel Heq E1. by subst.
  - destruct Hp as (? & ? & ? & ?%min_width), Hp' as (? & ? & ? & ?%min_width).
    peel Heq E1. peel Heq E2. peel Heq E3. peel Heq E4. subst. simpl. by rewrite E4.
Qed.

Lemma sub_front s s' r r' :
  sub_rep s -> sub_rep s' -> hash_subscription s +:+ r = hash_subscription s' +:+ r' ->
  observed_sub s = observed_sub s' /\ r = r'.
Proof.
  intros [(? & ? & ?) _ Hw Hp Hb] [(? & ? & ?) _ Hw' Hp' Hb'] Heq. unfold hash_subscription in Heq.
  rewrite !string_app_assoc in Heq. peel Heq E1. peel Heq E2. peel Heq E3. peel Heq E4.
  apply prefetch_front in Heq as [E5 Heq]; [|done..]. peel Heq E6. peel Heq E7. peel Heq E8. split; [|done].
  assert (su_early_ack s = su_early_ack s') as E9 by (by destruct (su_early_ack s), (su_early_ack s')).
  assert (su_no_ack s = su_no_ack s') as E10 by (by destruct (su_no_ack s), (su_no_ack s')).
  unfold observed_sub. congruence.
Qed.

Lemma sub_apart s r t : sub_rep s -> past_brokers r -> hash_subscription s +:+ t <> r.
Proof.
  intros [(? & ? & ?) ? Hw _ _] [(n & x & u & Hn & Hx & ->)|(d & u & Hd & ->)] Heq; unfold hash_subscription in Heq.
  - destruct Hx as [(? & ? & ?) _ _ _ _]. rewrite !string_app_assoc in Heq.
    peel Heq E1. peel Heq E2. peel Heq E3.
    match type of Heq with _ = hash_value ?b +:+ ?z => destruct (hash_value_zeros b z) as [y Hy]; [fit|] end.
    rewrite Hy in Heq. eapply be_bytes2_zeros; [exact Hw|exact Heq].
  - unfold hash_delay in Heq. rewrite !string_app_assoc in Heq.
    apply hash_value_front in Heq as [_ Heq]; [|fit|apply delay_mode_fits].
    apply hash_value_front in Heq as [_ Heq]; [|fit|apply Hd].
    eapply text_not_delay; [| |exact Hd|exact Heq]; assumption.
Qed.

Lemma subs_front l l' r r' :
  Forall sub_rep l -> Forall sub_rep l' -> past_brokers r -> past_brokers r' ->
  update_all hash_subscription l +:+ r = update_all hash_subscription l' +:+ r' ->
  observed_sub <$> l = observed_sub <$> l' /\ r = r'.
Proof.
  apply (sequence_front hash_subscription observed_sub sub_rep (fun _ => True) past_brokers); try done.
  - intros. by apply sub_front.
  - intros x r0 s ? ? _. by apply sub_apart.
Qed.

Lemma scheduler_is w : hash_value (scheduler_name (strategy (w_scheduler w))) = hash_value "weighted_fair".
Proof. by destruct (strategy (w_scheduler w)). Qed.

Lemma worker_front w w' r r' :
  worker_rep w -> worker_rep w' -> past_brokers r -> past_brokers r' ->
  hash_worker w +:+ r = hash_worker w' +:+ r' -> observed_worker w = observed_worker w' /\ r = r'.
Proof.
  intros [Hn _ Hs] [Hn' _ Hs'] Hr Hr' Heq. unfold hash_worker in Heq. rewrite !scheduler_is, !string_app_assoc in Heq.
  peel Heq E1. peel Heq E2. apply subs_front in Heq as [E3 ->]; [|done..]. split; [|done].
  unfold observed_worker. rewrite E1, E3. by destruct (strategy (w_scheduler w)), (strategy (w_scheduler w')).
Qed.

Lemma worker_past w r : worker_rep w -> past_brokers (hash_worker w +:+ r).
Proof.
  intros [Hn Hne Hl]. left. unfold worker_head, hash_worker. rewrite scheduler_is, !string_app_assoc.
  destruct (w_subscriptions w) as [|s l]; [done|]. inversion Hl as [|? ? Hs _]; subst.
  exists (w_name w), s, (update_all hash_subscription l +:+ r). by rewrite update_all_cons.
Qed.

Lemma debug_bracket l : exists t, debug_durations l = String "["%char t.
Proof. destruct l as [|d l]; [by eexists|]. unfold debug_durations. by eexists. Qed.

Lemma worker_apart w r s : worker_rep w -> delay_head r -> hash_worker w +:+ s <> r.
Proof.
  intros [Hn _ _] (d & t & Hd & ->) Heq. unfold hash_worker, hash_delay in Heq.
  rewrite scheduler_is, !string_app_assoc in Heq.
  apply hash_value_front in Heq as [_ Heq]; [|fit|apply delay_mode_fits].
  apply hash_value_front in Heq as [E _]; [|fit|apply Hd]. destruct (debug_bracket (dc_buckets d)) as [x Hx]. congruence.
Qed.

Lemma workers_front l l' r r' :
  Forall worker_rep l -> Forall worker_rep l' -> delay_head r -> delay_head r' ->
  update_all hash_worker l +:+ r = update_all hash_worker l' +:+ r' ->
  observed_worker <$> l = observed_worker <$> l' /\ r = r'.
Proof.
  apply (sequence_front hash_worker observed_worker worker_rep past_brokers delay_head).
  - intros. by apply worker_past.
  - intros x ?. by right.
  - intros. by apply worker_front.
  - intros x r0 s ? ? _. by apply worker_apart.
Qed.

(** *** Delays *)

(** A run of characters of one class is read off the front of what does not go on with one. *)
Fixpoint only (P : Ascii.ascii -> bool) (s : string) : Prop :=
  match s with EmptyString => True | String a s' => P a = true /\ only P s' end.

Definition stops (P : Ascii.ascii -> bool) (s : string) : Prop :=
  match s with EmptyString => True | String a _ => P a = false end.

Lemma only_app P a b : only P a -> only P b -> only P (a +:+ b).
Proof. induction a as [|x a IH]; [done|]. intros [? ?] ?. split; [done|]. by apply IH. Qed.

Lemma only_weaken (P Q : Ascii.ascii -> bool) s : (forall a, P a = true -> Q a = true) -> only P s -> only Q s.
Proof. intros H. induction s as [|a s IH]; [done|]. intros [? ?]. split; auto. Qed.

Lemma span_front P a b r r' :
  only P a -> only P b -> stops P r -> stops P r' -> a +:+ r = b +:+ r' -> a = b /\ r = r'.
Proof.
  revert b. induction a as [|x a IH]; intros [|y b] Ha Hb Hr Hr'; rewrite ?string_app_cons.
  - done.
  - change ("" +:+ r) with r. intros ->. destruct Hb. simpl in Hr. congruence.
  - change ("" +:+ r') with r'. intros <-. destruct Ha. simpl in Hr'. congruence.
  - intros [= -> H]. destruct Ha, Hb. by destruct (IH b) as [-> ->].
Qed.

Definition is_digit (a : Ascii.ascii) : bool := ((48 <=? Ascii.nat_of_ascii a) && (Ascii.nat_of_ascii a <=? 57))%nat.
Definition is_numeral (a : Ascii.ascii) : bool := is_digit a || (Ascii.nat_of_ascii a =? 46)%nat.

Lemma pretty_char_digit n : is_digit (pretty_N_char n) = true.
Proof. destruct n as [|p]; [done|]. by do 10 (destruct p as [p|p|]; try done). Qed.

Lemma pretty_go_digits n s : only is_digit s -> only is_digit (pretty_N_go n s).
Proof.
  revert s. induction (N.lt_wf_0 n) as [n _ IH]; intros s Hs.
  destruct (decide (0 < n)%N) as [Hn|Hn].
  - rewrite pretty_N_go_step by done. apply IH; [apply N.div_lt; lia|]. split; [apply pretty_char_digit|done].
  - assert (n = 0%N) as -> by lia. by rewrite pretty_N_go_0.
Qed.

Lemma pretty_digits n : 0 <= n -> only is_digit (pretty n).
Proof.
  intros Hn. destruct n as [|p|p]; [done| |lia]. change (pretty (Z.pos p)) with (pretty (N.pos p)).
  unfold pretty, pretty_N. case_decide; [done|]. by apply pretty_go_digits.
Qed.

Lemma decimal_digit q : 0 <= q < 10 -> is_digit (ascii_of_Z (48 + q)) = true.
Proof. intros Hq. assert (q = 0 \/ q = 1 \/ q = 2 \/ q = 3 \/ q = 4 \/ q = 5 \/ q = 6 \/ q = 7 \/ q = 8 \/ q = 9) by lia. naive_solver. Qed.

Lemma decimal_quotient k f : 0 <= f < 10 ^ Z.of_nat (S k) -> 0 <= f / 10 ^ Z.of_nat k < 10.
Proof.
  intros Hf. rewrite Nat2Z.inj_succ, Z.pow_succ_r in Hf by lia.
  assert (0 < 10 ^ Z.of_nat k) by (apply Z.pow_pos_nonneg; lia).
  split; [apply Z.div_pos; lia|apply Z.div_lt_upper_bound; lia].
Qed.

Lemma decimal_divisor k : 10 ^ Z.of_nat (S k) / 10 = 10 ^ Z.of_nat k.
Proof. rewrite Nat2Z.inj_succ, Z.pow_succ_r, Z.mul_comm by lia. by apply Z.div_mul. Qed.

Lemma decimals_digits n : forall k f,
  0 <= f < 10 ^ Z.of_nat (S k) -> only is_digit (fmt_decimals n (10 ^ Z.of_nat k) f).
Proof.
  induction n as [|n IH]; intros k f Hf; [done|]. cbn [fmt_decimals]. destruct (f <=? 0); [done|].
  split; [by apply decimal_digit, decimal_quotient|]. destruct k as [|k].
  - rewrite Z.mod_1_r. by destruct n.
  - rewrite decimal_divisor. apply IH, Z.mod_pos_bound, Z.pow_pos_nonneg; lia.
Qed.

Lemma decimals_inj n : forall k f f',
  (k < n)%nat -> 0 <= f < 10 ^ Z.of_nat (S k) -> 0 <= f' < 10 ^ Z.of_nat (S k) ->
  fmt_decimals n (10 ^ Z.of_nat k) f = fmt_decimals n (10 ^ Z.of_nat k) f' -> f = f'.
Proof.
  induction n as [|n IH]; intros k f f' Hk Hf Hf'; [lia|]. cbn [fmt_decimals].
  destruct (f <=? 0) eqn:E, (f' <=? 0) eqn:E'; zbool; [lia|done|done|].
  pose proof (decimal_quotient k f Hf) as Hq. pose proof (decimal_quotient k f' Hf') as Hq'.
  assert (0 < 10 ^ Z.of_nat k) as Hp by (apply Z.pow_pos_nonneg; lia).
  intros [= Hc Hr]. apply ascii_of_Z_inj in Hc; [|lia..].
  assert (f mod 10 ^ Z.of_nat k = f' mod 10 ^ Z.of_nat k) as Hm.
  { destruct k as [|k]; [by rewrite !Z.mod_1_r|]. rewrite decimal_divisor in Hr.
    eapply IH; [| | |exact Hr]; [lia|apply Z.mod_pos_bound; lia..]. }
  rewrite (Z.div_mod f (10 ^ Z.of_nat k)), (Z.div_mod f' (10 ^ Z.of_nat k)) by lia. rewrite Hm. lia.
Qed.

(** The units of a debug duration, with their decimals. *)
Definition units : list (string * nat) := [("s", 9%nat); ("ms", 6%nat); ("µs", 3%nat); ("ns", 0%nat)].

Definition fraction (k : nat) (f : Z) : string :=
  if 0 <? f then "." +:+ fmt_decimals 9 (10 ^ Z.of_nat (pred k)) f else "".

Lemma debug_shape d : 0 <= d ->
  exists i f u, u ∈ units /\ 0 <= i /\ 0 <= f < 10 ^ Z.of_nat u.2 /\ d = i * 10 ^ Z.of_nat u.2 + f /\
    debug_duration d = pretty i +:+ fraction u.2 f +:+ u.1.
Proof.
  intros Hd. unfold debug_duration.
  change NANOS_PER_SEC with (10 ^ Z.of_nat 9). change NANOS_PER_MILLI with (10 ^ Z.of_nat 6).
  pose proof (Z.mod_pos_bound d (10 ^ Z.of_nat 9) ltac:(done)) as Hm. pose proof (Z.div_mod d (10 ^ Z.of_nat 9) ltac:(done)) as E.
  pose proof (Z.div_pos d (10 ^ Z.of_nat 9) Hd ltac:(done)) as Hq.
  set (secs := d / _) in *. set (nanos := d mod _) in *.
  destruct (0 <? secs) eqn:E0; zbool.
  { exists secs, nanos, ("s", 9%nat). split; [set_solver|]. cbn [fst snd]. split; [lia|]. split; [lia|]. split; [lia|done]. }
  assert (secs = 0) as Es by lia. rewrite Es in E.
  destruct (_ <=? nanos) eqn:E1; zbool.
  { pose proof (Z.mod_pos_bound nanos (10 ^ Z.of_nat 6) ltac:(done)). pose proof (Z.div_mod nanos (10 ^ Z.of_nat 6) ltac:(done)).
    pose proof (Z.div_pos nanos (10 ^ Z.of_nat 6) (proj1 Hm) ltac:(done)).
    eexists _, _, ("ms", 6%nat). split; [set_solver|]. cbn [fst snd]. split_and!; [..|reflexivity]; lia. }
  destruct (1000 <=? nanos) eqn:E2; zbool.
  { pose proof (Z.mod_pos_bound nanos 1000 ltac:(done)). pose proof (Z.div_mod nanos 1000 ltac:(done)).
    pose proof (Z.div_pos nanos 1000 (proj1 Hm) ltac:(done)).
    eexists _, _, ("µs", 3%nat). split; [set_solver|]. cbn [fst snd]. change (10 ^ Z.of_nat 3) with 1000.
    split_and!; [..|reflexivity]; lia. }
  exists nanos, 0, ("ns", 0%nat). split; [set_solver|]. cbn [fst snd]. change (10 ^ Z.of_nat 0) with 1.
  split_and!; [..|reflexivity]; lia.
Qed.

Lemma unit_front u u' r r' : u ∈ units -> u' ∈ units -> u.1 +:+ r = u'.1 +:+ r' -> u = u' /\ r = r'.
Proof.
  unfold units. rewrite !elem_of_cons, !elem_of_nil.
  intros [->|[->|[->|[->|[]]]]] [->|[->|[->|[->|[]]]]] H; cbn [fst] in H; try discriminate H;
    by apply (inj (String.append _)) in H as ->.
Qed.

Lemma unit_stops u r : u ∈ units -> stops is_numeral (u.1 +:+ r).
Proof. unfold units. rewrite !elem_of_cons, elem_of_nil. by intros [->|[->|[->|[->|[]]]]]. Qed.

Lemma unit_decimals u f : u ∈ units -> 0 <= f < 10 ^ Z.of_nat u.2 -> f = 0 \/ (pred u.2 < 9)%nat /\ u.2 = S (pred u.2).
Proof.
  unfold units. rewrite !elem_of_cons, elem_of_nil. intros [->|[->|[->|[->|[]]]]] Hf; simpl in *; try (right; lia).
  left. lia.
Qed.

Lemma fraction_numeral u f : u ∈ units -> 0 <= f < 10 ^ Z.of_nat u.2 -> only is_numeral (fraction u.2 f).
Proof.
  intros Hu Hf. unfold fraction. destruct (0 <? f) eqn:E; zbool; [|done].
  destruct (unit_decimals u f Hu Hf) as [->|[_ Ek]]; [lia|]. split; [done|].
  apply (only_weaken is_digit); [intros a; unfold is_numeral; by intros ->|]. apply decimals_digits. by rewrite <- Ek.
Qed.

Lemma fraction_inj u f f' :
  u ∈ units -> 0 <= f < 10 ^ Z.of_nat u.2 -> 0 <= f' < 10 ^ Z.of_nat u.2 -> fraction u.2 f = fraction u.2 f' -> f = f'.
Proof.
  intros Hu Hf Hf'. unfold fraction. destruct (0 <? f) eqn:E, (0 <? f') eqn:E'; zbool; [|done|done|lia].
  intros H. apply (inj (String.append ".")) in H.
  destruct (unit_decimals u f Hu Hf) as [->|[Hk Ek]]; [lia|]. eapply decimals_inj; [exact Hk|..|exact H]; by rewrite <- Ek.
Qed.

Lemma fraction_stops k f : stops is_digit (fraction k f).
Proof. unfold fraction. by destruct (0 <? f). Qed.

(** Durations are written apart: the text of one is read off the front. *)
Lemma debug_front d d' r r' :
  0 <= d -> 0 <= d' -> debug_duration d +:+ r = debug_duration d' +:+ r' -> d = d' /\ r = r'.
Proof.
  intros Hd Hd'. destruct (debug_shape d Hd) as (i & f & u & Hu & Hi & Hf & -> & ->).
  destruct (debug_shape d' Hd') as (i' & f' & u' & Hu' & Hi' & Hf' & -> & ->).
  rewrite <- !string_app_assoc, !(string_app_assoc (_ +:+ fraction _ _)). intros H.
  assert (forall j g v, v ∈ units -> 0 <= j -> 0 <= g < 10 ^ Z.of_nat v.2 ->
    only is_numeral (pretty j +:+ fraction v.2 g)) as Hn.
  { intros j g v Hv Hj Hg. apply only_app; [|by apply fraction_numeral].
    apply (only_weaken is_digit); [intros a; unfold is_numeral; by intros ->|by apply pretty_digits]. }
  apply (span_front is_numeral) in H as [H1 H2]; [|by apply Hn|by apply Hn|by apply unit_stops..].
  apply unit_front in H2 as [<- ->]; [|done..].
  apply (span_front is_digit) in H1 as [E1%(inj pretty) E2]; 
    [|by apply pretty_digits|by apply pretty_digits|apply fraction_stops|apply fraction_stops].
  apply fraction_inj in E2; [|done..]. by subst.
Qed.

Lemma debug_rest_inj l l' :
  Forall (fun d => 0 <= d) l -> Forall (fun d => 0 <= d) l' -> debug_rest l = debug_rest l' -> l = l'.
Proof.
  intros Hl. revert l'. induction Hl as [|d l Hd _ IH]; intros k' [|d' l' Hd' Hl']; try done. simpl.
  intros Heq. apply (inj (String.append ", ")) in Heq. apply debug_front in Heq as [-> Heq]; [|done..].
  by rewrite (IH l' Hl' Heq).
Qed.

Lemma pretty_go_length n s : (String.length s <= String.length (pretty_N_go n s))%nat.
Proof.
  revert s. induction (N.lt_wf_0 n) as [n _ IH]; intros s.
  destruct (decide (0 < n)%N) as [Hn|Hn]; [|assert (n = 0%N) as -> by lia; by rewrite pretty_N_go_0].
  rewrite pretty_N_go_step by done. etransitivity; [|apply IH; apply N.div_lt; lia]. simpl. lia.
Qed.

Lemma pretty_N_go_nonempty p : pretty (Z.pos p) <> "".
Proof.
  change (pretty (Z.pos p)) with (pretty (N.pos p)). unfold pretty, pretty_N. case_decide; [done|].
  rewrite pretty_N_go_step by done. intros He. pose proof (pretty_go_length (N.pos p `div` 10) (String (pretty_N_char (N.pos p `mod` 10)) "")) as Hl.
  rewrite He in Hl. simpl in Hl. lia.
Qed.

Lemma pretty_not_bracket i r : 0 <= i -> "]" <> pretty i +:+ r.
Proof.
  intros Hi H. pose proof (pretty_digits i Hi) as Hp. destruct (pretty i) as [|a s] eqn:E.
  - destruct i as [|p|p]; [done| |lia]. by apply (pretty_N_go_nonempty p).
  - rewrite string_app_cons in H. injection H as <- _. by destruct Hp.
Qed.

Lemma debug_not_empty d r : 0 <= d -> "]" <> debug_duration d +:+ r.
Proof.
  intros Hd. destruct (debug_shape d Hd) as (i & f & u & _ & Hi & _ & _ & ->). rewrite string_app_assoc.
  by apply pretty_not_bracket.
Qed.

Lemma debug_inj l l' :
  Forall (fun d => 0 <= d) l -> Forall (fun d => 0 <= d) l' -> debug_durations l = debug_durations l' -> l = l'.
Proof.
  intros [|d k Hd Hk] [|d' k' Hd' Hk']; [done|..]; unfold debug_durations; intros Heq.
  - change "[]" with ("[" +:+ "]") in Heq. apply (inj (String.append "[")) in Heq. by apply debug_not_empty in Heq.
  - change "[]" with ("[" +:+ "]") in Heq. apply (inj (String.append "[")) in Heq. symmetry in Heq.
    by apply debug_not_empty in Heq.
  - apply (inj (String.append "[")) in Heq. apply debug_front in Heq as [-> Heq]; [|done..].
    f_equal. by apply debug_rest_inj.
Qed.

Lemma delay_front d d' r r' :
  delay_rep d -> delay_rep d' -> hash_delay d +:+ r = hash_delay d' +:+ r' ->
  observed_delay d = observed_delay d' /\ r = r'.
Proof.
  intros [Hb Hf Hm Hg] [Hb' Hf' Hm' Hg'] Heq. unfold hash_delay in Heq. rewrite !string_app_assoc in Heq.
  apply hash_value_front in Heq as [E1 Heq]; [|apply delay_mode_fits..].
  apply hash_value_front in Heq as [E2%debug_inj Heq]; [|done..].
  apply be_bytes_front in Heq as [E3 Heq]; [|lia..].
  apply be_bytes_front in Heq as [E4 Heq]; [|change (256 ^ Z.of_nat 8) with (2 ^ 64); lia..].
  split; [|done]. assert (dc_mode d = dc_mode d') as E5 by (by destruct (dc_mode d), (dc_mode d')).
  unfold observed_delay. congruence.
Qed.

(** *** The other sections *)

Lemma dead_letter_front o o' r r' :
  dead_letter_rep o -> dead_letter_rep o' -> hash_dead_letter o +:+ r = hash_dead_letter o' +:+ r' ->
  observed_dead_letter <$> o = observed_dead_letter <$> o' /\ r = r'.
Proof.
  intros Ho Ho' Heq. destruct o as [d|], o' as [d'|]; cbn [hash_dead_letter] in Heq; rewrite ?string_app_assoc in Heq;
    peel Heq E0; try done.
  destruct Ho as (? & ? & ?), Ho' as (? & ? & ?). peel Heq E1. peel Heq E2. peel Heq E3. peel Heq E4. split; [|done].
  assert (dlc_enabled d = dlc_enabled d') as E5 by (by destruct (dlc_enabled d), (dlc_enabled d')).
  simpl. unfold observed_dead_letter. apply opt_eq in E4. congruence.
Qed.

Lemma limit_front o o' r r' :
  from_option (width 4) True o -> from_option (width 4) True o' ->
  hash_delivery_limit o +:+ r = hash_delivery_limit o' +:+ r' -> o = o' /\ r = r'.
Proof.
  intros Ho Ho' Heq. destruct o as [x|], o' as [x'|]; simpl in Ho, Ho'; cbn [hash_delivery_limit] in Heq;
    rewrite ?string_app_assoc in Heq; peel Heq E0; try done. peel Heq E1. by subst.
Qed.

Lemma route_front x y r r' :
  route_rep x -> route_rep y -> hash_route x +:+ r = hash_route y +:+ r' -> x = y /\ r = r'.
Proof.
  intros (? & ? & ? & ?) (? & ? & ? & ?) Heq. unfold hash_route in Heq. rewrite !string_app_assoc in Heq.
  peel Heq E0. peel Heq E1. peel Heq E2. peel Heq E3. peel Heq E4.
  destruct x as [n [b e k]], y as [n' [b' e' k']]; simpl in *. by subst.
Qed.

Definition publisher_head (r : string) : Prop := exists t, r = hash_value "publisher" +:+ t.

Lemma routes_front l l' r r' :
  Forall route_rep l -> Forall route_rep l' -> publisher_head r -> publisher_head r' ->
  update_all hash_route l +:+ r = update_all hash_route l' +:+ r' -> l = l' /\ r = r'.
Proof.
  intros Hl Hl' Hr Hr' Heq.
  apply (sequence_front hash_route (fun x => x) route_rep (fun _ => True) publisher_head) in Heq; try done.
  - by rewrite !list_fmap_id in Heq.
  - intros. by apply route_front.
  - intros x r0 s (Hn & _) [t ->] _ H. unfold hash_route in H. rewrite !string_app_assoc in H. by peel H E.
Qed.

Lemma safety_mode_fits m : fits (safety_mode_name m).
Proof. by destruct m. Qed.

Lemma topology_mode_fits m : fits (topology_mode_name m).
Proof. by destruct m. Qed.

Lemma queue_type_fits k : fits (match k with Classic => "queue_type:classic" | Quorum => "queue_type:quorum" end).
Proof. by destruct k. Qed.

Lemma publisher_front p p' r r' :
  width 16 (as_millis (pub_confirm_timeout p)) -> width 16 (as_millis (pub_confirm_timeout p')) ->
  hash_publisher p +:+ r = hash_publisher p' +:+ r' -> observed_publisher p = observed_publisher p' /\ r = r'.
Proof.
  intros Hp Hp' Heq. unfold hash_publisher in Heq. rewrite !string_app_assoc in Heq.
  peel Heq E0. apply hash_value_front in Heq as [E1 Heq]; [|apply safety_mode_fits..].
  peel Heq E2. peel Heq E3. split; [|done].
  assert (pub_safety p = pub_safety p') as E4 by (by destruct (pub_safety p), (pub_safety p')).
  assert (pub_confirms p = pub_confirms p') as E5 by (by destruct (pub_confirms p), (pub_confirms p')).
  unfold observed_publisher. congruence.
Qed.

Lemma consumer_front c c' r r' :
  width 16 (as_millis (wait_timeout c)) -> width 16 (as_millis (wait_timeout c')) ->
  width 4 (default 0 (max_attempts c)) -> width 4 (default 0 (max_attempts c')) ->
  hash_consumer c +:+ r = hash_consumer c' +:+ r' -> observed_consumer c = observed_consumer c' /\ r = r'.
Proof.
  intros Hw Hw' Ha Ha' Heq. unfold hash_consumer in Heq. rewrite !string_app_assoc in Heq.
  peel Heq E0. peel Heq E1. peel Heq E2. split; [|done]. unfold observed_consumer. congruence.
Qed.

(** *** The whole configuration *)

Lemma delay_after d r : delay_rep d -> delay_head (hash_delay d +:+ r).
Proof. intros Hd. by exists d, r. Qed.

Lemma workers_past l r : Forall worker_rep l -> delay_head r -> past_brokers (update_all hash_worker l +:+ r).
Proof.
  intros Hl Hr. apply (next_all hash_worker worker_rep past_brokers); [|done|by right]. intros. by apply worker_past.
Qed.

Lemma input_front c c' :
  representable c -> representable c' -> fingerprint_input c = fingerprint_input c' -> observed c = observed c'.
Proof.
  intros [Hb Hw Hr Hd Hl Hm Hp [Hc1 Hc2]] [Hb' Hw' Hr' Hd' Hl' Hm' Hp' [Hc1' Hc2']] Heq.
  unfold fingerprint_input in Heq.
  apply hash_value_front in Heq as [E1 Heq]; [|apply topology_mode_fits..].
  apply brokers_front in Heq as [E2 Heq]; [|done|done|by apply workers_past, delay_after..].
  apply workers_front in Heq as [E3 Heq]; [|done|done|by apply delay_after..].
  apply delay_front in Heq as [E4 Heq]; [|done..].
  apply dead_letter_front in Heq as [E5 Heq]; [|done..].
  apply limit_front in Heq as [E6 Heq]; [|done..].
  apply routes_front in Heq as [E7 Heq]; [|done..|by unfold hash_publisher; rewrite !string_app_assoc; eexists|
    by unfold hash_publisher; rewrite !string_app_assoc; eexists].
  apply publisher_front in Heq as [E8 Heq]; [|done..].
  apply consumer_front in Heq as [E9 Heq]; [|done..].
  apply hash_value_front in Heq as [E10 Heq]; [|apply queue_type_fits..].
  rewrite <- (string_app_nil_r (hash_value _)), <- (string_app_nil_r (hash_value (if queue_durable c' then _ else _))) in Heq.
  apply hash_value_front in Heq as [E11 _]; [|fit..].
  assert (topology_mode c = topology_mode c') by (by destruct (topology_mode c), (topology_mode c')).
  assert (queue_type c = queue_type c') by (by destruct (queue_type c), (queue_type c')).
  assert (queue_durable c = queue_durable c') by (by destruct (queue_durable c), (queue_durable c')).
  unfold observed. congruence.
Qed.

(** ** What is left out does not matter *)

Lemma update_all_ext {A B} (f : A -> string) (g : B -> string) (h : A -> B) l :
  (forall x, f x = g (h x)) -> update_all f l = update_all g (h <$> l).
Proof. intros H. induction l as [|x l IH]; [done|]. unfold update_all in *. simpl. by rewrite H, IH. Qed.

Lemma secs_idem d : as_secs (from_secs (as_secs d)) = as_secs d.
Proof. apply Z.div_mul. done. Qed.

Lemma millis_idem d : as_millis (from_millis d) = d.
Proof. apply Z.div_mul. done. Qed.

Lemma prefetch_observed p : hash_prefetch p = hash_prefetch (observed_prefetch p).
Proof.
  destruct p as [v|i mn mx t]; [done|]. cbn [hash_prefetch observed_prefetch].
  by rewrite millis_idem, <- Z.min_assoc, Z.min_id.
Qed.

Lemma broker_observed b : hash_broker b = hash_broker (observed_broker b).
Proof. unfold hash_broker. simpl. by rewrite secs_idem. Qed.

Lemma worker_observed w : hash_worker w = hash_worker (observed_worker w).
Proof.
  unfold hash_worker. simpl. do 2 f_equal. apply update_all_ext. intros s. unfold hash_subscription. simpl.
  by rewrite prefetch_observed.
Qed.

Lemma input_observed c : fingerprint_input c = fingerprint_input (observed c).
Proof.
  unfold fingerprint_input. cbn [observed topology_mode brokers workers delay dead_letter delivery_limit routes
    publisher consumer queue_type queue_durable].
  rewrite (update_all_ext hash_broker hash_broker observed_broker) by apply broker_observed.
  rewrite (update_all_ext hash_worker hash_worker observed_worker) by apply worker_observed.
  assert (hash_delay (delay c) = hash_delay (observed_delay (delay c))) as <- by (unfold hash_delay; simpl; by rewrite secs_idem).
  assert (hash_dead_letter (dead_letter c) = hash_dead_letter (observed_dead_letter <$> dead_letter c)) as <-
    by (by destruct (dead_letter c)).
  assert (hash_publisher (publisher c) = hash_publisher (observed_publisher (publisher c))) as <-
    by (unfold hash_publisher; simpl; by rewrite millis_idem).
  assert (hash_consumer (consumer c) = hash_consumer (observed_consumer (consumer c))) as <-
    by (unfold hash_consumer; simpl; by rewrite millis_idem).
  done.
Qed.

(** ** Theorems *)

(** The settings of a validated configuration. *)
Definition settings (v : ValidatedConfig) : Config :=
  mkConfiguration (v_brokers v) (v_workers v) (v_topology_mode v) (v_routes v) (v_delay v) (v_dead_letter v)
    (v_delivery_limit v) (v_publisher v) (v_consumer v) (v_queue_type v) (v_queue_durable v).

(** What every value of the configuration's types satisfies: [u16], [u32], [u64] and [usize]
    fields and durations, whose seconds are a [u64]. *)
Definition duration (d : Z) : Prop := 0 <= d /\ width 8 (as_secs d).

Definition sub_typed (s : SubscriptionConfig) : Prop :=
  width 2 (su_weight s) /\ prefetch_rep (su_prefetch s) /\ width 8 (su_max_buffered_bytes s).

Record typed (c : Config) : Prop := {
  ty_ports : Forall (fun b => Forall (fun e => width 2 (e_port e)) (b_hosts b)) (brokers c);
  ty_heartbeats : Forall (fun b => duration (b_heartbeat b)) (brokers c);
  ty_subs : Forall (fun w => Forall sub_typed (w_subscriptions w)) (workers c);
  ty_delay : Forall duration (dc_buckets (delay c)) /\ width 8 (dc_max_buckets (delay c));
  ty_limit : from_option (width 4) True (delivery_limit c);
  ty_timeouts : duration (pub_confirm_timeout (publisher c)) /\ duration (wait_timeout (consumer c));
  ty_attempts : width 4 (default 0 (max_attempts (consumer c)))
}.

(** What validation does not enforce and the reading of the byte stream needs: no port is zero,
    no user name and no queue name starts with a zero byte, the expiry margin is below 2^56
    seconds and every text is shorter than 2^48 bytes. *)
Definition broker_texts (b : BrokerConfig) : list string :=
  [b_name b; b_vhost b; username (b_credentials b); password (b_credentials b);
   default "" (server_name (b_tls b)); default "" (ca_cert (b_tls b)); default "" (client_cert (b_tls b));
   default "" (client_key (b_tls b))] ++ (e_host <$> b_hosts b).

Definition worker_texts (w : WorkerProfile) : list string :=
  w_name w :: (w_subscriptions w ≫= fun s => [su_name s; su_broker s; su_queue s]).

Definition dead_letter_texts (o : option DeadLetterConfig) : list string :=
  match o with
  | Some d => [dlc_exchange d; dlc_queue d; default "" (dlc_routing_key d)]
  | None => []
  end.

Definition texts (c : Config) : list string :=
  (brokers c ≫= broker_texts) ++ (workers c ≫= worker_texts) ++ dead_letter_texts (dead_letter c) ++
  (routes c ≫= fun r => [r.1; ro_broker r.2; ro_exchange r.2; ro_routing_key r.2]) ++
  [debug_durations (dc_buckets (delay c))].

Record plain (c : Config) : Prop := {
  pl_ports : Forall (fun b => Forall (fun e => e_port e <> 0) (b_hosts b)) (brokers c);
  pl_users : Forall (fun b => no_nul (username (b_credentials b))) (brokers c);
  pl_queues : Forall (fun w => Forall (fun s => no_nul (su_queue s)) (w_subscriptions w)) (workers c);
  pl_margin : 0 <= as_secs (dc_queue_expiry_margin (delay c)) < 2 ^ 56;
  pl_texts : Forall fits (texts c)
}.

Lemma duration_millis d : duration d -> width 16 (as_millis d).
Proof.
  intros [Hd [_ Hs]]. unfold width, as_millis, as_secs in *.
  change (256 ^ Z.of_nat 8) with 18446744073709551616 in Hs.
  change (256 ^ Z.of_nat 16) with 340282366920938463463374607431768211456.
  split; [by apply Z.div_pos|]. change NANOS_PER_SEC with 1000000000 in Hs. change NANOS_PER_MILLI with 1000000.
  apply Z.div_lt_upper_bound; [done|]. pose proof (Z.div_mod d 1000000000 ltac:(done)).
  pose proof (Z.mod_pos_bound d 1000000000 ltac:(done)). lia.
Qed.

Lemma broker_representable v b :
  b ∈ v_brokers v -> typed (settings v) -> plain (settings v) -> broker_rep b.
Proof.
  intros Hb Ht Hp. pose proof (pl_texts _ Hp) as Hx. unfold texts in Hx. apply Forall_app in Hx as [Hx _].
  apply Forall_bind in Hx. rewrite Forall_forall in Hx. specialize (Hx b Hb). unfold broker_texts in Hx.
  apply Forall_app in Hx as [Hx Hh].
  pose proof (proj1 (Forall_forall _ _) (pl_ports _ Hp) b Hb) as H1.
  pose proof (proj1 (Forall_forall _ _) (pl_users _ Hp) b Hb) as H2.
  pose proof (proj1 (Forall_forall _ _) (ty_ports _ Ht) b Hb) as H3.
  pose proof (proj1 (Forall_forall _ _) (ty_heartbeats _ Ht) b Hb) as H4.
  rewrite !Forall_cons in Hx. split; [tauto|exact H2|apply H4|].
  rewrite Forall_fmap in Hh. apply Forall_forall. intros e He. rewrite Forall_forall in Hh, H1, H3.
  split; [by apply Hh|]. specialize (H1 e He). specialize (H3 e He). unfold width in H3. simpl in H1, H3. lia.
Qed.

Lemma worker_representable v w :
  wf v -> w ∈ v_workers v -> typed (settings v) -> plain (settings v) -> worker_rep w.
Proof.
  intros Hwf Hw Ht Hp. pose proof (pl_texts _ Hp) as Hx. unfold texts in Hx. apply Forall_app in Hx as [_ Hx].
  apply Forall_app in Hx as [Hx _]. apply Forall_bind in Hx. rewrite Forall_forall in Hx. specialize (Hx w Hw).
  unfold worker_texts in Hx. apply Forall_cons in Hx as [Hn Hx]. apply Forall_bind in Hx.
  pose proof (proj1 (Forall_forall _ _) (pl_queues _ Hp) w Hw) as H1.
  pose proof (proj1 (Forall_forall _ _) (ty_subs _ Ht) w Hw) as H2.
  destruct (proj1 (Forall_forall _ _) (wf_workers _ Hwf) w Hw) as [H3 _ H4].
  split; [exact Hn|exact H3|]. apply Forall_forall. intros s Hs. rewrite Forall_forall in Hx, H1, H2, H4.
  specialize (Hx s Hs). specialize (H1 s Hs). destruct (H2 s Hs) as (Hwt & Hpf & Hb). destruct (H4 s Hs) as [_ H0 _ _ _].
  simpl in Hx. rewrite !Forall_cons in Hx. split; [tauto|exact H1| |exact Hpf|exact Hb].
  unfold width in Hwt. simpl in Hwt. lia.
Qed.

Lemma validated_representable v : wf v -> typed (settings v) -> plain (settings v) -> representable (settings v).
Proof.
  intros Hwf Ht Hp. pose proof (pl_texts _ Hp) as Hx. unfold texts in Hx. rewrite !Forall_app, !Forall_bind in Hx.
  destruct Hx as (_ & _ & Hl & Hr & Hd). split.
  - apply Forall_forall. intros b Hb. by apply (broker_representable v).
  - apply Forall_forall. intros w Hw. by apply (worker_representable v).
  - eapply Forall_impl; [exact Hr|]. intros x Hx. simpl in Hx. rewrite !Forall_cons in Hx. unfold route_rep, text. tauto.
  - destruct (ty_delay _ Ht) as [H1 H2]. pose proof (wf_delay _ Hwf) as [H3 _]. split.
    + eapply Forall_impl; [exact H1|]. by intros x [].
    + by apply Forall_cons in Hd as [].
    + unfold width in H2. simpl in *. lia.
    + apply (pl_margin _ Hp).
  - revert Hl. unfold dead_letter_rep, dead_letter_texts. simpl. destruct (v_dead_letter v); [|done].
    rewrite !Forall_cons. unfold opt_text, text. tauto.
  - apply (ty_limit _ Ht).
  - apply duration_millis, (ty_timeouts _ Ht).
  - split; [apply duration_millis, (ty_timeouts _ Ht)|apply (ty_attempts _ Ht)].
Qed.

(** C23. Equal fingerprints mean equal configurations: two validated
    configurations whose digests do not collide have the same fingerprint exactly
    when they are the same as [observed]: in everything but the settings left out
    (the flush timer, the deprecated mandatory flag, the ignored scheduler budget),
    fractions of a second of the heartbeats and of the queue expiry margin,
    fractions of a millisecond of the confirm timeout, the wait timeout and the
    target buffers, and the difference between absent and empty optional texts and
    between absent and zero attempts. Besides the ranges of the types ([typed]) this
    takes what validation does not enforce ([plain]): ports other than zero, user
    and queue names that do not start with a zero byte, a margin below 2^56 seconds
    and texts below 2^48 bytes. The byte stream has no element counts; where a list
    ends is decided by what may follow it. *)
Theorem fingerprint_identifies sha256 c c' v v' :
  validate sha256 c = Ok v -> validate sha256 c' = Ok v' ->
  typed (settings v) -> plain (settings v) -> typed (settings v') -> plain (settings v') ->
  (sha256 (fingerprint_input (settings v)) = sha256 (fingerprint_input (settings v')) ->
   fingerprint_input (settings v) = fingerprint_input (settings v')) ->
  v_fingerprint v = v_fingerprint v' <-> observed (settings v) = observed (settings v').
Proof.
  intros Hv Hv' Ht Hp Ht' Hp' Hc.
  assert (wf v /\ wf v') as [Hw Hw'] by (split; by eapply validated_ok).
  pose proof (validated_representable v Hw Ht Hp) as Hr. pose proof (validated_representable v' Hw' Ht' Hp') as Hr'.
  apply validate_canonical in Hv as ->, Hv' as ->. simpl. split.
  - intros H%Hc. by apply input_front.
  - intros H. unfold calculate. change (canonical c) with (settings (mkValidated (canonical_brokers c) (canonical_workers c)
      (topology_mode c) (routes c) (delay c) (dead_letter c) (delivery_limit c) (publisher c) (consumer c)
      (queue_type c) (queue_durable c) "")).
    f_equal. rewrite input_observed, (input_observed (canonical c')). by f_equal.
Qed.

(** ** Samples *)

Definition keep (s : string) : string := s.

Definition validated (c : Config) : ValidatedConfig :=
  match validate keep c with
  | Ok v => v
  | Err _ => mkValidated [] [] ModeExternal [] (delay c) None None (publisher c) (consumer c) Quorum true ""
  end.

Ltac settle_rep :=
  repeat match goal with
    | |- Forall ?P ?l => let k := eval hnf in l in change (Forall P k); constructor
    | |- typed _ => split
    | |- plain _ => split
    | |- sub_typed _ => split_and!
    | |- duration _ => split
    | |- prefetch_rep _ => split_and!
    | |- width _ _ => split; [discriminate|reflexivity]
    | |- _ /\ _ => split
    | |- _ <> _ => discriminate
    | |- True => exact I
    end.

Definition half_second (c : Config) : Config :=
  mkConfiguration
    ((fun b => mkBroker (b_name b) (b_hosts b) (b_vhost b) (b_credentials b) (b_tls b)
                 (b_heartbeat b + from_millis 500)) <$> brokers c)
    (workers c) (topology_mode c) (routes c) (delay c) (dead_letter c) (delivery_limit c)
    (mkPublisherSection Safe true true (from_secs 30) (from_secs 5)) (consumer c) (queue_type c) (queue_durable c).

Lemma sample_typed :
  (typed (settings (validated sample)) /\ plain (settings (validated sample))) /\
  typed (settings (validated (half_second sample))) /\ plain (settings (validated (half_second sample))).
Proof. split; split; vm_compute validated; settle_rep. all: first [reflexivity|discriminate]. Qed.

(** The flush timer and half a second of the heartbeat do not split pools. *)
Lemma fingerprint_identifies_witness :
  sample <> half_second sample /\
  v_fingerprint (validated sample) = v_fingerprint (validated (half_second sample)).
Proof.
  split; [done|].
  apply (fingerprint_identifies keep sample (half_second sample) (validated sample) (validated (half_second sample))).
  - vm_compute. reflexivity.
  - vm_compute. reflexivity.
  - exact (proj1 (proj1 sample_typed)).
  - exact (proj2 (proj1 sample_typed)).
  - exact (proj1 (proj2 sample_typed)).
  - exact (proj2 (proj2 sample_typed)).
  - done.
  - vm_compute. reflexivity.
Defined.

(** An absent routing key of the dead-letter section means the name of each queue,
    an empty one means the empty key. The two plan different topologies and have
    the same fingerprint, so their pools share one client. *)
Definition with_dead_letter (routing_key : option string) : Config :=
  mkConfiguration (brokers sample) (workers sample) (topology_mode sample) (routes sample) (delay sample)
    (Some (mkDeadLetterConfig true "dlx" "dead" routing_key)) (delivery_limit sample) (publisher sample)
    (consumer sample) (queue_type sample) (queue_durable sample).

Example empty_routing_key_collides :
  let v := validated (with_dead_letter None) in let v' := validated (with_dead_letter (Some "")) in
  v_fingerprint v = v_fingerprint v' /\
  b_routing_key <$> tp_bindings (from_profiles (plan_config v) (planned (v_workers v))) = ["jobs"; "jobs"; "jobs"] /\
  b_routing_key <$> tp_bindings (from_profiles (plan_config v') (planned (v_workers v'))) = ["jobs"; "jobs"; ""].
Proof. by vm_compute. Qed.

End ConfigFingerprint.
