(* ===== verification/RecoveryCoordinator.v ===== *)
(** * The recovery coordinator

    Models [pool/recovery_coordinator.rs]: the task that re-establishes a broker
    connection's publisher, topology and consumers on every new generation, and the
    calls of [RecoveryCoordinatorHandle::consumer], which establish a profile on
    demand. They share the topology reconciler, the publisher slot, the map of
    consumer sets and three asynchronous locks.

    A step is what a task does between two awaits. What the connection actor, the
    broker, the publisher actor and the spawned consumer sets answer is part of the
    step. A consumer set is named by its index in [sets]. [log] records what the
    coordinator did to the broker and to the actors. *)

From S2P Require Import Prelude Transport Publication Recovery DelayTopology TopologyPlan Delivery Scheduler ConsumerActor Config.
Import Transport Publication Recovery DelayTopology TopologyPlan Config.
Local Open Scope Z_scope.
Local Open Scope rabbit_scope.

Module RecoveryCoordinator.

Abbreviation ConsumerError := Delivery.ConsumerError.
Abbreviation Subscription := ConsumerActor.Subscription.

(** ** Errors *)

Inductive CoordinatorError :=
| CETopology (e : TransportError)
| CETransport (e : TransportError)
| CEPublisher (e : PublishError)
| CEConsumer (e : ConsumerError)
| CEInternal (message : string).

(** [Display] *)
Definition coordinator_error_display (e : CoordinatorError) : string :=
  match e with
  | CETopology e => "topology reconciliation failed: " +:+ te_message e
  | CETransport e => te_message e
  | CEPublisher e => "publisher failed to adopt the recovered channel: " +:+ pe_message e
  | CEConsumer e => "consumer spawn failed: " +:+ Delivery.ce_message e
  | CEInternal message => message
  end.

(** The transport failure an error carries. *)
Definition transport_cause (e : CoordinatorError) : option TransportError :=
  match e with
  | CETopology e | CETransport e => Some e
  | CEPublisher e => pe_transport_source e
  | CEConsumer e => Delivery.ce_transport_source e
  | CEInternal _ => None
  end.

Definition loss_error (e : CoordinatorError) (context : string) : TransportError :=
  match transport_cause e with
  | Some t => if negb (is_recoverable t) then t else te_new Connection (context +:+ ": " +:+ coordinator_error_display e)
  | None => te_new Connection (context +:+ ": " +:+ coordinator_error_display e)
  end.

Definition recovery_loss_error (e : CoordinatorError) : TransportError := loss_error e "recovery failed".

(** ** State *)

(** Where an [establish_requested_profile] is. It holds the establish lock from
    [EsCheck] on, the reconciler's at [EsTopology] and [EsApply], the lock of the
    consumer map at [EsClosing]. *)
Inductive Est :=
| EsRequested
| EsLock
| EsCheck
| EsOpen (todo : list (nat * SubscriptionConfig)) (handle : option Z) (subs : list Subscription)
| EsWait (plan : TopologyPlan) (subs : list Subscription)
| EsTopology (plan : TopologyPlan) (subs : list Subscription)
| EsApply (plan : TopologyPlan) (subs : list Subscription)
| EsSpawn (subs : list Subscription)
| EsInsert (id : nat)
| EsClosing (old : nat).

(** Where a [recover_generation] is. *)
Inductive Rec :=
| RcOpen
| RcWait (plan : TopologyPlan)
| RcApply (plan : TopologyPlan)
| RcAdopt
| RcReady
| RcInstall
| RcProfiles (todo : list string) (extras : bool)
| RcEst (todo : list string) (extras : bool) (profile : string) (e : Est).

(** Where the coordinator task is. *)
Inductive Coord :=
| CoIdle
| CoRecover (generation : Z) (r : Rec)
| CoReport (e : CoordinatorError)
| CoTell (ev : PublisherEvent)
| CoClosing
| CoStopped
with PublisherEvent :=
| PeRecovering (generation : Z)
| PeFailedPermanent (generation : Z) (e : TransportError).

(** Where a call of [consumer] is. *)
Inductive Call :=
| KState (profile : string)
| KLookup (profile : string) (generation : Z)
| KEst (profile : string) (generation : Z) (e : Est)
| KFetch (profile : string)
| KReport (e : CoordinatorError)
| KDone (r : result nat CoordinatorError)
| KCancelled.

Inductive Tid := TCoord | TCall (i : nat).

Record SetInfo := mkSet { si_profile : string; si_generation : Z; si_subs : list Subscription; si_closed : bool }.

Inductive Action :=
| AReconciled (generation : Z) (plan : TopologyPlan) (ops : list TopologyOp)
| ARefused (generation : Z) (ops : list TopologyOp)
| APublisherReady (generation : Z)
| APublisherSpawned (generation : Z)
| APublisherTold (ev : PublisherEvent)
| AOpenConsumer (profile : string) (generation : Z)
| AConsume (profile : string) (generation : Z) (id : nat) (queues : list string)
| ACloseSet (id : nat)
| ALost (e : TransportError).

Record Locks := mkLocks { establish_lock : option Tid; reconciler_lock : option Tid; consumers_lock : option Tid }.

Record Shared := mkShared {
  watch : ConnectionState;
  changed : bool;
  requested : list (string * WorkerProfile);
  applied : Applied;
  slot : option Z;
  consumers : gmap string nat;
  sets : list SetInfo;
  locks : Locks;
  last_generation : Z;
  recovery_failures : Z;
  log : list Action
}.

Record State := mkState { shared : Shared; coord : Coord; calls : list Call }.

#[global] Instance Tid_eq_dec : EqDecision Tid.
Proof. solve_decision. Defined.

(** What the awaited party answers. *)
Inductive Answer :=
| AnsNone
| AnsOpen (ok : bool)
| AnsTopology (channel : TopologyOp -> result unit TransportError)
| AnsReady (r : result unit PublishError)
| AnsSpawn (r : result unit ConsumerError).

(** *** Updates *)

Definition set_applied (v : Applied) (s : Shared) : Shared :=
  mkShared (watch s) (changed s) (requested s) v (slot s) (consumers s) (sets s) (locks s) (last_generation s) (recovery_failures s) (log s).
Definition set_slot (v : option Z) (s : Shared) : Shared :=
  mkShared (watch s) (changed s) (requested s) (applied s) v (consumers s) (sets s) (locks s) (last_generation s) (recovery_failures s) (log s).
Definition set_consumers (v : gmap string nat) (s : Shared) : Shared :=
  mkShared (watch s) (changed s) (requested s) (applied s) (slot s) v (sets s) (locks s) (last_generation s) (recovery_failures s) (log s).
Definition set_sets (v : list SetInfo) (s : Shared) : Shared :=
  mkShared (watch s) (changed s) (requested s) (applied s) (slot s) (consumers s) v (locks s) (last_generation s) (recovery_failures s) (log s).
Definition set_locks (v : Locks) (s : Shared) : Shared :=
  mkShared (watch s) (changed s) (requested s) (applied s) (slot s) (consumers s) (sets s) v (last_generation s) (recovery_failures s) (log s).
Definition set_requested (v : list (string * WorkerProfile)) (s : Shared) : Shared :=
  mkShared (watch s) (changed s) v (applied s) (slot s) (consumers s) (sets s) (locks s) (last_generation s) (recovery_failures s) (log s).
Definition set_watch (v : ConnectionState) (c : bool) (s : Shared) : Shared :=
  mkShared v c (requested s) (applied s) (slot s) (consumers s) (sets s) (locks s) (last_generation s) (recovery_failures s) (log s).
Definition set_generation (g failures : Z) (s : Shared) : Shared :=
  mkShared (watch s) (changed s) (requested s) (applied s) (slot s) (consumers s) (sets s) (locks s) g failures (log s).
Definition act (a : Action) (s : Shared) : Shared :=
  mkShared (watch s) (changed s) (requested s) (applied s) (slot s) (consumers s) (sets s) (locks s) (last_generation s) (recovery_failures s) (log s ++ [a]).

Definition take_establish (t : Tid) (s : Shared) : Shared :=
  set_locks (mkLocks (Some t) (reconciler_lock (locks s)) (consumers_lock (locks s))) s.
Definition take_reconciler (t : Tid) (s : Shared) : Shared :=
  set_locks (mkLocks (establish_lock (locks s)) (Some t) (consumers_lock (locks s))) s.
Definition take_consumers (t : Tid) (s : Shared) : Shared :=
  set_locks (mkLocks (establish_lock (locks s)) (reconciler_lock (locks s)) (Some t)) s.
Definition drop_establish (s : Shared) : Shared :=
  set_locks (mkLocks None (reconciler_lock (locks s)) (consumers_lock (locks s))) s.
Definition drop_reconciler (s : Shared) : Shared :=
  set_locks (mkLocks (establish_lock (locks s)) None (consumers_lock (locks s))) s.
Definition drop_consumers (s : Shared) : Shared :=
  set_locks (mkLocks (establish_lock (locks s)) (reconciler_lock (locks s)) None) s.

(** A dropped future drops its lock guards. *)
Definition release (t : Tid) (o : option Tid) : option Tid := if decide (o = Some t) then None else o.
Definition drop_locks (t : Tid) (s : Shared) : Shared :=
  set_locks (mkLocks (release t (establish_lock (locks s))) (release t (reconciler_lock (locks s)))
    (release t (consumers_lock (locks s)))) s.

Definition close_set (id : nat) (s : Shared) : Shared :=
  act (ACloseSet id)
    (set_sets (alter (fun i => mkSet (si_profile i) (si_generation i) (si_subs i) true) id (sets s)) s).

Definition queue_of (x : Subscription) : string := ConsumerActor.rt_queue (ConsumerActor.s_runtime x).

(** ** Requested profiles *)

Definition requested_get (name : string) (l : list (string * WorkerProfile)) : option WorkerProfile :=
  snd <$> find (fun x => bool_decide (x.1 = name)) l.

(** The entry goes to its place in name order. *)
Fixpoint place (name : string) (w : WorkerProfile) (l : list (string * WorkerProfile)) : list (string * WorkerProfile) :=
  match l with
  | [] => [(name, w)]
  | x :: l' => if decide (String.le name x.1) then (name, w) :: l else x :: place name w l'
  end.

(** [entry(name).or_insert(worker)] *)
Definition requested_insert (name : string) (w : WorkerProfile) (l : list (string * WorkerProfile))
  : list (string * WorkerProfile) :=
  if decide (name ∈ l.*1) then l else place name w l.

Definition is_requested (profile : string) (s : Shared) : bool := bool_decide (profile ∈ (requested s).*1).

Definition requested_snapshot (s : Shared) : list string := (requested s).*1.

Section Coordinator.
Variable v : ValidatedConfig.
Variable broker_name : string.
Variable connection_key : Z.
Variable confirm_timeout : Z.

(** *** [ClientPool::consumer]: recording the request *)

Definition MAX_SYNTHESIZED_PROFILES : Z := 64.

Definition synthesized_count (l : list (string * WorkerProfile)) : Z :=
  Z.of_nat (length (filter (fun x => worker v (w_name x.2) = None) l)).

Definition synthesized_worker (profile : string) (l : list (string * WorkerProfile))
  : result (WorkerProfile * list (string * WorkerProfile)) ConfigError :=
  let? w := synthesize_auto_profile v profile in
  if bool_decide (profile ∉ l.*1) && (MAX_SYNTHESIZED_PROFILES <=? synthesized_count l) then
    Err (mkConfigError ("workers." +:+ profile) "profile registry is full (64 synthesized profiles)")
  else Ok (w, requested_insert profile w l).

(** The worker of a profile and the registry that records the request. *)
Definition request (profile : string) (l : list (string * WorkerProfile))
  : result (WorkerProfile * list (string * WorkerProfile)) ConfigError :=
  match worker v profile with
  | Some w => Ok (w, requested_insert profile w l)
  | None =>
      if String.prefix AUTO_PROFILE_PREFIX profile then
        let? r := synthesized_worker profile l in Ok (r.1, requested_insert profile r.1 r.2)
      else Err (mkConfigError ("workers." +:+ profile) "unknown worker profile")
  end.

(** Requested profiles that are not in the configuration. *)
Definition requested_extras (s : Shared) : list string :=
  filter (fun n => worker v n = None) (requested s).*1.

Definition generation_plan (s : Shared) : TopologyPlan :=
  from_config_and v
    (match v_topology_mode v with
     | ModeDeclare => filter (fun w => worker v (w_name w) = None) (requested s).*2
     | _ => []
     end).

(** The worker of a profile: configured, or requested at run time. *)
Definition worker_of (profile : string) (s : Shared) : option WorkerProfile :=
  match worker v profile with
  | Some w => Some w
  | None => requested_get profile (requested s)
  end.

(** ** Establishing a profile *)

(** The registered set of the profile is of this generation and open. *)
Definition current (profile : string) (generation : Z) (s : Shared) : option nat :=
  id ← consumers s !! profile; i ← sets s !! id;
  if (si_generation i =? generation) && negb (si_closed i) then Some id else None.

Definition nonzero (o : option Z) : option Z := n ← o; if n =? 0 then None else Some n.

(** The subscription built for one [SubscriptionConfig]; [None] is the panic of
    [SubscriptionPolicy::new] on a zero weight. *)
Definition subscription_of (index : nat) (c : SubscriptionConfig) (generation : Z) (handle : option Z)
  : option Subscription :=
  policy ← Scheduler.policy_new (su_weight c);
  Some (ConsumerActor.mkSubscription (su_name c)
    (ConsumerActor.mkRuntime connection_key generation (Z.min (Z.of_nat index + 1) U16_MAX)
       handle (const (mkDestination (su_queue c) (su_queue c)) <$> handle)
       (Some (strategy_compile (v_delay v))) (su_early_ack c) (su_no_ack c)
       (nonzero (max_attempts (v_consumer v))) (bool_decide (is_Some (v_dead_letter v))) (su_queue c) (su_prefetch c))
    policy (su_max_buffered_bytes c)).

(** The subscriptions of this broker, with their index in the worker. *)
Definition own_subscriptions (w : WorkerProfile) : list (nat * SubscriptionConfig) :=
  filter (fun x => su_broker x.2 = broker_name) (imap pair (w_subscriptions w)).

Inductive EstOut := Next (e : Est) | Return (r : result unit CoordinatorError).

Definition failed_open (what : string) : CoordinatorError :=
  CETransport (te_new KClosed ("failed to open " +:+ what +:+ " channel")).

(** Returns with the establish lock dropped. *)
Definition leave (r : result unit CoordinatorError) (s : Shared) : EstOut * Shared := (Return r, drop_establish s).

(** After the channels are open. *)
Definition opened (subs : list Subscription) (s : Shared) : EstOut * Shared :=
  if bool_decide (subs = []) then leave (Ok tt) s else (Next (EsWait (generation_plan s) subs), s).

(** One step of [establish_requested_profile] by task [t]. *)
Definition est_step (t : Tid) (profile : string) (generation : Z) (e : Est) (a : Answer) (s : Shared)
  : option (EstOut * Shared) :=
  match e, a with
  | EsRequested, AnsNone => Some (if is_requested profile s then Next EsLock else Return (Ok tt), s)
  | EsLock, AnsNone =>
      match establish_lock (locks s) with
      | None => Some (Next EsCheck, take_establish t s)
      | Some _ => None
      end
  | EsCheck, AnsNone =>
      match consumers_lock (locks s) with
      | Some _ => None
      | None =>
          Some (if current profile generation s then leave (Ok tt) s
                else match worker_of profile s with
                     | None => leave (Ok tt) s
                     | Some w =>
                         match own_subscriptions w with
                         | [] => opened [] s
                         | todo => (Next (EsOpen todo (slot s) []), s)
                         end
                     end)
      end
  | EsOpen ((index, c) :: todo) handle subs, AnsOpen ok =>
      if ok then
        sub ← subscription_of index c generation handle;
        let s := act (AOpenConsumer profile generation) s in
        Some (match todo with
              | [] => opened (subs ++ [sub]) s
              | _ => (Next (EsOpen todo handle (subs ++ [sub])), s)
              end)
      else Some (leave (Err (failed_open "consumer")) s)
  | EsWait plan subs, AnsNone =>
      match reconciler_lock (locks s) with
      | Some _ => None
      | None =>
          Some (if is_applied (applied s) generation plan then (Next (EsSpawn subs), s)
                else (Next (EsTopology plan subs), take_reconciler t s))
      end
  | EsTopology plan subs, AnsOpen ok =>
      Some (if ok then (Next (EsApply plan subs), s)
            else leave (Err (failed_open "topology")) (drop_reconciler s))
  | EsApply plan subs, AnsTopology channel =>
      let '(r, app, ops) := reconcile channel plan generation (applied s) in
      let s := drop_reconciler (set_applied app s) in
      Some (match r with
            | Ok _ => (Next (EsSpawn subs), act (AReconciled generation plan ops) s)
            | Err e => leave (Err (CETopology e)) (act (ARefused generation ops) s)
            end)
  | EsSpawn subs, AnsSpawn r =>
      Some (match r with
            | Ok _ =>
                let id := length (sets s) in
                (Next (EsInsert id),
                 act (AConsume profile generation id (queue_of <$> subs)) (set_sets (sets s ++ [mkSet profile generation subs false]) s))
            | Err e => leave (Err (CEConsumer e)) s
            end)
  | EsInsert id, AnsNone =>
      match consumers_lock (locks s) with
      | Some _ => None
      | None =>
          let s' := set_consumers (<[profile := id]> (consumers s)) s in
          Some (match consumers s !! profile with
                | Some old => (Next (EsClosing old), take_consumers t s')
                | None => leave (Ok tt) s'
                end)
      end
  | EsClosing old, AnsNone => Some (leave (Ok tt) (drop_consumers (close_set old s)))
  | _, _ => None
  end.

(** The future is dropped at an await: handles it holds close their sets. *)
Definition cancel_est (t : Tid) (e : Est) (s : Shared) : Shared :=
  drop_locks t (match e with EsInsert id | EsClosing id => close_set id s | _ => s end).

(** ** Recovering a generation *)

Inductive RecOut := RNext (r : Rec) | RReturn (r : result unit CoordinatorError).

(** The configured profiles of the snapshot, then the extras. *)
Definition next_profile (todo : list string) (extras : bool) (s : Shared) : RecOut :=
  match todo with
  | p :: todo' => RNext (RcEst todo' extras p EsRequested)
  | [] => if extras then RReturn (Ok tt) else RNext (RcProfiles (requested_extras s) true)
  end.

Definition requested_workers (s : Shared) : list string :=
  filter (fun n => n ∈ requested_snapshot s) (w_name <$> v_workers v).

Definition rec_step (generation : Z) (r : Rec) (a : Answer) (s : Shared) : option (RecOut * Shared) :=
  match r, a with
  | RcOpen, AnsOpen ok =>
      Some (if ok then RNext (RcWait (generation_plan s)) else RReturn (Err (failed_open "publisher")), s)
  | RcWait plan, AnsNone =>
      match reconciler_lock (locks s) with
      | Some _ => None
      | None => Some (RNext (RcApply plan), take_reconciler TCoord s)
      end
  | RcApply plan, AnsTopology channel =>
      let '(r, app, ops) := reconcile channel plan generation (applied s) in
      let s := drop_reconciler (set_applied app s) in
      Some (match r with
            | Ok _ => (RNext RcAdopt, act (AReconciled generation plan ops) s)
            | Err e => (RReturn (Err (CETopology e)), act (ARefused generation ops) s)
            end)
  | RcAdopt, AnsNone => Some (RNext (if slot s then RcReady else RcInstall), s)
  | RcReady, AnsReady (Ok _) =>
      let s := act (APublisherReady generation) s in Some (RNext (RcProfiles (requested_workers s) false), s)
  | RcReady, AnsReady (Err e) => Some (RReturn (Err (CEPublisher e)), s)
  | RcInstall, AnsNone =>
      let s := act (APublisherSpawned generation) (set_slot (Some confirm_timeout) s) in
      Some (RNext (RcProfiles (requested_workers s) false), s)
  | RcProfiles todo extras, AnsNone => Some (next_profile todo extras s, s)
  | RcEst todo extras p e, _ =>
      '(out, s) ← est_step TCoord p generation e a s;
      Some (match out with
            | Next e => RNext (RcEst todo extras p e)
            | Return (Ok _) => RNext (RcProfiles todo extras)
            | Return (Err e) => RReturn (Err e)
            end, s)
  | _, _ => None
  end.

Definition cancel_rec (r : Rec) (s : Shared) : Shared :=
  match r with
  | RcEst _ _ _ e => cancel_est TCoord e s
  | _ => drop_locks TCoord s
  end.

(** ** The coordinator task *)

Definition transport_error_from_kind (kind : TransportErrorKind) (reason : string) : TransportError := te_new kind reason.

(** The select arm of [state.changed()]. *)
Definition on_change (s : Shared) : Coord * Shared :=
  let s := set_watch (watch s) false s in
  match watch s with
  | Ready generation =>
      if generation =? last_generation s then (CoIdle, s)
      else (CoRecover generation RcOpen, set_generation generation (recovery_failures s) s)
  | Recovering _ _ _ | Connecting _ =>
      (if slot s then CoTell (PeRecovering (last_generation s)) else CoIdle, s)
  | FailedPermanent kind reason =>
      (if slot s then CoTell (PeFailedPermanent (last_generation s) (transport_error_from_kind kind reason)) else CoIdle, s)
  | Disconnected | Closed => (CoIdle, s)
  end.

Definition coord_step (c : Coord) (a : Answer) (s : Shared) : option (Coord * Shared) :=
  match c with
  | CoIdle => match a with AnsNone => if changed s then Some (on_change s) else None | _ => None end
  | CoRecover generation r =>
      '(out, s) ← rec_step generation r a s;
      Some (match out with
            | RNext r => (CoRecover generation r, s)
            | RReturn (Ok _) => (CoIdle, s)
            | RReturn (Err e) => (CoReport e, set_generation (sat_sub generation 1) (recovery_failures s + 1) s)
            end)
  | CoReport e => match a with AnsNone => Some (CoIdle, act (ALost (recovery_loss_error e)) s) | _ => None end
  | CoTell ev => match a with AnsNone => Some (CoIdle, act (APublisherTold ev) s) | _ => None end
  | CoClosing =>
      match a, consumers_lock (locks s) with
      | AnsNone, None =>
          let s' := foldl (fun s x => close_set x.2 s) s (map_to_list (consumers s)) in
          Some (CoStopped, set_consumers ∅ (set_slot None s'))
      | _, _ => None
      end
  | CoStopped => None
  end.

(** [CloseCommand]: taken while idle, or instead of the rest of a recovery. *)
Definition coord_close (c : Coord) (s : Shared) : option (Coord * Shared) :=
  match c with
  | CoIdle => Some (CoClosing, s)
  | CoRecover _ r => Some (CoClosing, cancel_rec r s)
  | _ => None
  end.

(** ** [RecoveryCoordinatorHandle::consumer] *)

Definition not_ready (profile : string) : CoordinatorError :=
  CEInternal ("consumer profile '" +:+ profile +:+ "' is not ready").

Definition call_step (t : Tid) (k : Call) (a : Answer) (s : Shared) : option (Call * Shared) :=
  match k, a with
  | KState profile, AnsNone =>
      Some (match watch s with Ready g => KLookup profile g | _ => KDone (Err (not_ready profile)) end, s)
  | KLookup profile g, AnsNone =>
      match consumers_lock (locks s) with
      | Some _ => None
      | None =>
          Some (match current profile g s with
                | Some id => KDone (Ok id)
                | None => if is_requested profile s then KEst profile g EsRequested else KDone (Err (not_ready profile))
                end, s)
      end
  | KEst profile g e, _ =>
      '(out, s) ← est_step t profile g e a s;
      Some (match out with
            | Next e => KEst profile g e
            | Return (Ok _) => KFetch profile
            | Return (Err e) => KReport e
            end, s)
  | KFetch profile, AnsNone =>
      match consumers_lock (locks s) with
      | Some _ => None
      | None => Some (KDone (match consumers s !! profile with Some id => Ok id | None => Err (not_ready profile) end), s)
      end
  | KReport e, AnsNone => Some (KDone (Err e), act (ALost (loss_error e "consumer establishment failed")) s)
  | _, _ => None
  end.

Definition cancel_call (t : Tid) (k : Call) (s : Shared) : Shared :=
  match k with KEst _ _ e => cancel_est t e s | _ => drop_locks t s end.

(** ** The system *)

Inductive Event :=
| EState (c : ConnectionState)
| ERequest (profile : string)
| ECall (profile : string)
| EStep (t : Tid) (a : Answer)
| ECancel (i : nat)
| ECloseSet (id : nat)
| EClose.

Definition step (e : Event) (s : State) : option State :=
  let sh := shared s in
  match e with
  | EState c => Some (mkState (set_watch c true sh) (coord s) (calls s))
  | ERequest profile =>
      match request profile (requested sh) with
      | Ok (_, l) => Some (mkState (set_requested l sh) (coord s) (calls s))
      | Err _ => None
      end
  | ECall profile => Some (mkState sh (coord s) (calls s ++ [KState profile]))
  | EStep TCoord a => '(c, sh) ← coord_step (coord s) a sh; Some (mkState sh c (calls s))
  | EStep (TCall i) a =>
      k ← calls s !! i; '(k, sh) ← call_step (TCall i) k a sh; Some (mkState sh (coord s) (<[i := k]> (calls s)))
  | ECancel i =>
      k ← calls s !! i;
      match k with
      | KDone _ | KCancelled => None
      | _ => Some (mkState (cancel_call (TCall i) k sh) (coord s) (<[i := KCancelled]> (calls s)))
      end
  | ECloseSet id => if decide (id < length (sets sh))%nat then Some (mkState (close_set id sh) (coord s) (calls s)) else None
  | EClose => '(c, sh) ← coord_close (coord s) sh; Some (mkState sh c (calls s))
  end.

Definition init : State :=
  mkState (mkShared Disconnected false [] None None ∅ [] (mkLocks None None None) 0 0 []) CoIdle [].

Fixpoint run (es : list Event) (s : State) : option State :=
  match es with
  | [] => Some s
  | e :: es' => s' ← step e s; run es' s'
  end.

Inductive reach : State -> Prop :=
| reach_init : reach init
| reach_step e s s' : reach s -> step e s = Some s' -> reach s'.

(** ** Keep-alive of the delay buckets *)

Variable sha256 : string -> string.

Record DelayKeepAlive := mkKeepAlive { ka_plan : TtlBucketPlan; ka_period : Z }.

Definition keep_alive_compile : option DelayKeepAlive :=
  match strategy_compile (v_delay v) with
  | TtlBuckets plan => Some (mkKeepAlive plan (Z.max (expiry_margin plan / 2) (from_millis 1)))
  | PluginStrategy => None
  end.

Definition push_new (l : list Destination) (d : Destination) : list Destination :=
  if decide (d ∈ l) then l else l ++ [d].

Definition retry_destinations (w : WorkerProfile) : list Destination :=
  (fun c => mkDestination (su_queue c) (su_queue c)) <$> filter (fun c => su_broker c = broker_name) (w_subscriptions w).

(** The destinations of a route of this broker. *)
Definition route_destinations (r : RouteConfig) : list Destination :=
  (fun c => mkDestination (ro_exchange r) (replace_queue (ro_routing_key r) (su_queue c))) <$>
    filter (fun c => su_broker c = broker_name) (w ← v_workers v; w_subscriptions w).

Definition keep_alive_destinations (s : Shared) : list Destination :=
  foldl push_new
    (n ← requested_snapshot s; match worker_of n s with Some w => retry_destinations w | None => [] end)
    (r ← filter (fun r => ro_broker r = broker_name) (v_routes v).*2; route_destinations r).

(** The bucket queues of the destinations, in the order of a tick. *)
Definition bucket_queues (plan : TtlBucketPlan) (ds : list Destination) : list QueueSpec :=
  d ← ds; b ← buckets plan; match queue_for sha256 plan d b with Ok q => [q] | Err _ => [] end.

(** One passive redeclare per bucket queue, each on the next admin channel; the
    first channel that cannot be opened ends the tick. *)
Fixpoint verify_all (admin : list bool) (qs : list QueueSpec) : list QueueSpec :=
  match qs, admin with
  | q :: qs', true :: admin' => q :: verify_all admin' qs'
  | _, _ => []
  end.

Definition tick (ka : DelayKeepAlive) (admin : list bool) (s : Shared) : list QueueSpec :=
  verify_all admin (bucket_queues (ka_plan ka) (keep_alive_destinations s)).

End Coordinator.

End RecoveryCoordinator.
