(* ===== verification/RecoveryCoordinatorInv.v ===== *)
(** * The recovery coordinator: invariants

    What holds in every state the coordinator and the calls of [consumer] reach:
    who holds the locks, what each establishment has gathered so far, and what the
    log of actions can contain. A step of one task is shown to respect the facts
    that the other tasks rely on. *)

From S2P Require Import Prelude Transport Scheduler Publication DelayTopology TopologyPlan ConsumerActor Config ConfigValid RecoveryCoordinator.
Import Transport Publication DelayTopology TopologyPlan Config ConfigValid RecoveryCoordinator.
Local Open Scope Z_scope.

Module RecoveryCoordinatorInv.

(** ** The registry of requested profiles *)

#[local] Arguments requested_get : simpl never.
#[local] Arguments requested_insert : simpl never.

Lemma requested_get_elem p w l : requested_get p l = Some w -> (p, w) ∈ l.
Proof.
  unfold requested_get. destruct (find _ l) as [[n w']|] eqn:E; [|done]. intros [= <-].
  apply find_some in E as [Hin En%bool_decide_eq_true]. cbn in En. subst. by apply list_elem_of_In.
Qed.

Lemma requested_get_is_Some p l : is_Some (requested_get p l) <-> p ∈ l.*1.
Proof.
  unfold requested_get. induction l as [|[n w] l IH]; cbn.
  - split; [by intros []|]. by intros ?%elem_of_nil.
  - rewrite elem_of_cons. case_bool_decide as E; cbn; [subst; naive_solver|]. rewrite IH. naive_solver.
Qed.

Lemma place_perm p w l : place p w l ≡ₚ (p, w) :: l.
Proof. induction l as [|x l IH]; cbn [place]; [done|]. case_decide; [done|]. rewrite IH. by constructor. Qed.

Lemma requested_get_place p w n l :
  p ∉ l.*1 -> requested_get n (place p w l) = (if decide (n = p) then Some w else requested_get n l).
Proof.
  unfold requested_get. induction l as [|[m w'] l IH]; cbn [place]; rewrite ?fmap_cons, ?not_elem_of_cons.
  - intros _. cbn. repeat case_bool_decide; repeat case_decide; by subst.
  - intros [Hm Hl]. simpl in Hm. destruct (decide (p ≤ (m, w').1)%string); simpl.
    + destruct (decide (n = p)) as [->|]; [by rewrite bool_decide_eq_true_2|]. by rewrite (bool_decide_eq_false_2 (p = n)).
    + destruct (bool_decide_reflect (m = n)) as [->|]; simpl; [by rewrite decide_False|]. by apply IH.
Qed.

Lemma requested_get_insert p w n l :
  requested_get n (requested_insert p w l) =
  (if decide (n = p) then Some (default w (requested_get p l)) else requested_get n l).
Proof.
  unfold requested_insert. destruct (decide (p ∈ l.*1)) as [Hp|Hp].
  - apply requested_get_is_Some in Hp as [x Hx]. case_decide; subst; by rewrite ?Hx.
  - rewrite (requested_get_place _ _ _ _ Hp). case_decide; [|done].
    destruct (requested_get p l) eqn:E; [|done]. destruct Hp. apply requested_get_is_Some. by eexists.
Qed.

Lemma elem_of_requested_insert p w l x : x ∈ requested_insert p w l -> x = (p, w) \/ x ∈ l.
Proof.
  unfold requested_insert. case_decide; [by right|]. by rewrite place_perm, elem_of_cons.
Qed.

Lemma requested_insert_keys p w l n : n ∈ (requested_insert p w l).*1 <-> n = p \/ n ∈ l.*1.
Proof.
  unfold requested_insert. case_decide; [naive_solver|]. by rewrite place_perm, fmap_cons, elem_of_cons.
Qed.

Lemma requested_insert_idem p w l : requested_insert p w (requested_insert p w l) = requested_insert p w l.
Proof.
  unfold requested_insert at 1. rewrite decide_True; [done|]. apply requested_insert_keys. by left.
Qed.

Lemma worker_name v p w : worker v p = Some w -> w_name w = p /\ w ∈ v_workers v.
Proof.
  intros [Hin E%bool_decide_eq_true]%find_some. split; [done|]. by apply list_elem_of_In.
Qed.

Lemma synthesized_name v p w : synthesize_auto_profile v p = Ok w -> w_name w = p.
Proof.
  unfold synthesize_auto_profile. destruct (strip_prefix _ p); [|done]. case_decide; [done|].
  destruct (v_brokers v) as [|b [|]]; try done. destruct (validate_worker _ _) as [|]; [|done]. by intros [= <-].
Qed.

Lemma request_insert v p l w l' :
  request v p l = Ok (w, l') ->
  w_name w = p /\ l' = requested_insert p w l /\
  (worker v p = Some w \/
   worker v p = None /\ synthesize_auto_profile v p = Ok w /\
   (p ∈ l.*1 \/ synthesized_count v l < MAX_SYNTHESIZED_PROFILES)).
Proof.
  unfold request, synthesized_worker. destruct (worker v p) as [w0|] eqn:Ew.
  - intros [= <- <-]. apply worker_name in Ew as [? _]. by auto.
  - destruct (String.prefix _ p); [|done]. destruct (synthesize_auto_profile v p) as [w0|] eqn:Es; cbn; [|done].
    destruct (bool_decide _ && _)%bool eqn:Eb; cbn; [done|]. intros [= <- <-]. rewrite requested_insert_idem.
    split; [by eapply synthesized_name|]. split; [done|]. right. split; [done|]. split; [done|].
    apply andb_false_iff in Eb as [Eb%bool_decide_eq_false|Eb%Z.leb_gt]; [left|by right]. by destruct (decide (p ∈ l.*1)).
Qed.

(** ** What a task relies on *)

(** The locks a task holds: establish, reconciler, consumers. *)
Record Held := mkHeld { h_establish : bool; h_reconciler : bool; h_consumers : bool }.

Definition holds (t : Tid) (h : Held) (l : Locks) : Prop :=
  (establish_lock l = Some t <-> h_establish h = true) /\
  (reconciler_lock l = Some t <-> h_reconciler h = true) /\
  (consumers_lock l = Some t <-> h_consumers h = true).

Definition same_for (u : Tid) (l l' : Locks) : Prop :=
  (establish_lock l = Some u <-> establish_lock l' = Some u) /\
  (reconciler_lock l = Some u <-> reconciler_lock l' = Some u) /\
  (consumers_lock l = Some u <-> consumers_lock l' = Some u).

Lemma holds_same u h l l' : same_for u l l' -> holds u h l -> holds u h l'.
Proof. unfold same_for, holds. intuition. Qed.

Lemma same_trans u l1 l2 l3 : same_for u l1 l2 -> same_for u l2 l3 -> same_for u l1 l3.
Proof. unfold same_for. intuition. Qed.

(** What the steps of the other tasks leave to task [u]. *)
Record rely (u : Tid) (s s' : Shared) : Prop := {
  re_requested : forall p w, requested_get p (requested s) = Some w -> requested_get p (requested s') = Some w;
  re_log : forall a, a ∈ log s -> a ∈ log s';
  re_sets : forall id i, sets s !! id = Some i -> exists i', sets s' !! id = Some i' /\
    si_profile i' = si_profile i /\ si_generation i' = si_generation i /\ si_subs i' = si_subs i /\
    (si_closed i = true -> si_closed i' = true);
  re_length : establish_lock (locks s) = Some u -> length (sets s') = length (sets s);
  re_locks : same_for u (locks s) (locks s')
}.

#[global] Instance rely_preorder u : PreOrder (rely u).
Proof.
  split.
  - intros s. split; try done. intros id i Hi. by exists i.
  - intros s1 s2 s3 [H1 H2 H3 H4 H5] [J1 J2 J3 J4 J5]. split; [by auto..| | |by eapply same_trans].
    + intros id i (i2 & E2 & ? & ? & ? & ?)%H3. apply J3 in E2 as (i3 & ? & ? & ? & ? & ?).
      exists i3. repeat split; [done|congruence..|auto].
    + intros E. rewrite J4, H4; [done|done|]. by apply H5.
Qed.

Lemma rely_frame u s s' :
  requested s' = requested s -> log s' = log s -> sets s' = sets s -> locks s' = locks s -> rely u s s'.
Proof. intros E1 E2 E3 E4. split; rewrite ?E1, ?E2, ?E3, ?E4; try done. intros id i Hi. by exists i. Qed.

Lemma rely_act u a s : rely u s (act a s).
Proof. split; cbn; try done; [|intros id i Hi; by exists i]. intros b Hb. apply elem_of_app. by left. Qed.

Lemma rely_locks u l s : same_for u (locks s) l -> rely u s (set_locks l s).
Proof. intros. split; cbn; try done. intros id i Hi. by exists i. Qed.

Lemma rely_close u id s : rely u s (close_set id s).
Proof.
  transitivity (set_sets (alter (fun i => mkSet (si_profile i) (si_generation i) (si_subs i) true) id (sets s)) s);
    [|apply rely_act].
  split; cbn; try done; [|by rewrite length_alter].
  intros id' i Hi. rewrite list_lookup_alter. case_decide as E; [|by exists i]. subst. rewrite Hi. eexists. by split.
Qed.

Lemma rely_new u i s : establish_lock (locks s) <> Some u -> rely u s (set_sets (sets s ++ [i]) s).
Proof.
  intros Hu. split; cbn; try done. intros id i' Hi. exists i'. split; [by apply lookup_app_l_Some|done].
Qed.

Lemma rely_request u p w s : rely u s (set_requested (requested_insert p w (requested s)) s).
Proof.
  split; cbn; try done; [|intros id i Hi; by exists i]. intros q w' Hq. rewrite requested_get_insert.
  case_decide as E; [|done]. subst. by rewrite Hq.
Qed.

Lemma release_same u t o : u <> t -> o = Some u <-> release t o = Some u.
Proof. intros Hu. unfold release. case_decide; [|done]. subst. naive_solver. Qed.

Lemma rely_drop_locks u t s : u <> t -> rely u s (drop_locks t s).
Proof. intros Hu. apply rely_locks. repeat split; cbn; by apply release_same. Qed.

Lemma holds_drop_locks t l :
  holds t (mkHeld false false false)
    (mkLocks (release t (establish_lock l)) (release t (reconciler_lock l)) (release t (consumers_lock l))).
Proof. repeat split; try done; cbn; unfold release; case_decide; congruence. Qed.

Section Invariant.
Context (v : ValidatedConfig) (broker_name : string) (connection_key confirm_timeout : Z).

(** ** The facts about an establishment *)

(** The whole plan was accepted by the broker in this generation. *)
Definition reconciled (g : Z) (plan : TopologyPlan) (l : list Action) : Prop :=
  AReconciled g plan (operations plan) ∈ l /\ tp_mode plan = v_topology_mode v.

(** Runtime profiles are planned for when topology is declared. *)
Definition planned_for (p : string) (plan : TopologyPlan) (qs : list string) : Prop :=
  v_topology_mode v = ModeDeclare \/ is_Some (worker v p) -> Forall (fun q => q ∈ q_name <$> tp_queues plan) qs.

Definition declared (p : string) (g : Z) (qs : list string) (l : list Action) : Prop :=
  exists plan, reconciled g plan l /\ planned_for p plan qs.

(** What justifies an action. *)
Definition entry_ok (pre : list Action) (a : Action) : Prop :=
  match a with
  | AConsume p g _ qs => declared p g qs pre /\ forall id qs', AConsume p g id qs' ∈ pre -> ACloseSet id ∈ pre
  | APublisherReady g | APublisherSpawned g => exists plan, reconciled g plan pre
  | _ => True
  end.

(** A delayed release goes back to the subscription's queue. *)
Definition own_destination (x : Subscription) : Prop :=
  match ConsumerActor.rt_destination (ConsumerActor.s_runtime x) with
  | Some d => d = mkDestination (queue_of x) (queue_of x)
  | None => True
  end.

Definition known (p : string) (s : Shared) : Prop := p ∈ (requested s).*1.

(** [subs] are built and [todo] remain of the profile's subscriptions on this broker. *)
Definition gathered (p : string) (subs : list Subscription) (todo : list (nat * SubscriptionConfig)) (s : Shared) : Prop :=
  known p s /\ Forall own_destination subs /\
  exists w d, worker_of v p s = Some w /\ own_subscriptions broker_name w = d ++ todo /\ queue_of <$> subs = (fun x => su_queue x.2) <$> d.

Definition none_open (p : string) (g : Z) (s : Shared) : Prop :=
  forall id i, sets s !! id = Some i -> si_profile i = p -> si_generation i = g -> si_closed i = true.

Definition est_held (e : Est) : Held :=
  match e with
  | EsRequested | EsLock => mkHeld false false false
  | EsTopology _ _ | EsApply _ _ => mkHeld true true false
  | EsClosing _ => mkHeld true false true
  | _ => mkHeld true false false
  end.

(** The set an establishment has not registered, or replaced but not closed. *)
Definition pending (e : Est) : option nat :=
  match e with EsInsert id | EsClosing id => Some id | _ => None end.

Definition est_ok (p : string) (g : Z) (e : Est) (s : Shared) : Prop :=
  match e with
  | EsRequested => True
  | EsLock | EsCheck => known p s
  | EsOpen todo _ subs => todo <> [] /\ gathered p subs todo s /\ none_open p g s
  | EsWait plan subs | EsTopology plan subs | EsApply plan subs =>
      gathered p subs [] s /\ none_open p g s /\ tp_mode plan = v_topology_mode v /\ planned_for p plan (queue_of <$> subs)
  | EsSpawn subs => gathered p subs [] s /\ none_open p g s /\ declared p g (queue_of <$> subs) (log s)
  | EsInsert id => exists i, sets s !! id = Some i /\ si_profile i = p
  | EsClosing _ => True
  end.

Record shared_ok (s : Shared) : Prop := {
  so_names : forall x, x ∈ requested s ->
    w_name x.2 = x.1 /\ (x.2 ∈ v_workers v \/ synthesize_auto_profile v x.1 = Ok x.2);
  so_applied : forall g plan, applied s = Some (g, plan) -> AReconciled g plan (operations plan) ∈ log s;
  so_log : justified entry_ok (log s);
  so_sets : forall id i, sets s !! id = Some i -> gathered (si_profile i) (si_subs i) [] s;
  so_closed : forall id i, sets s !! id = Some i -> si_closed i = true -> ACloseSet id ∈ log s;
  so_consumed : forall p g id qs, AConsume p g id qs ∈ log s ->
    exists i, sets s !! id = Some i /\ si_profile i = p /\ si_generation i = g /\ queue_of <$> si_subs i = qs;
  so_opened : forall p g, AOpenConsumer p g ∈ log s -> known p s
}.

(** An open set is registered under its profile, or held by an establishment. *)
Definition live (held : nat -> Prop) (s : Shared) : Prop :=
  forall id i, sets s !! id = Some i -> si_closed i = false -> consumers s !! si_profile i = Some id \/ held id.

(** ** Stability *)

Lemma known_rely u p s s' : rely u s s' -> known p s -> known p s'.
Proof.
  intros Hr. unfold known. rewrite <- !requested_get_is_Some. intros [w Hw]. exists w. by apply Hr.
Qed.

Lemma worker_of_rely u p w s s' : rely u s s' -> worker_of v p s = Some w -> worker_of v p s' = Some w.
Proof. intros Hr. unfold worker_of. destruct (worker v p); [done|]. apply Hr. Qed.

Lemma gathered_rely u p subs todo s s' : rely u s s' -> gathered p subs todo s -> gathered p subs todo s'.
Proof.
  intros Hr (Hk & Hd & w & d & Hw & E). split; [by eapply known_rely|]. split; [done|]. exists w, d.
  split; [by eapply worker_of_rely|done].
Qed.

Lemma none_open_rely u p g s s' :
  rely u s s' -> establish_lock (locks s) = Some u -> none_open p g s -> none_open p g s'.
Proof.
  intros Hr Hu Hn id i' Hi' Hp Hg. assert (id < length (sets s))%nat as [i Hi]%lookup_lt_is_Some_2.
  { rewrite <- (re_length _ _ _ Hr Hu). by eapply lookup_lt_Some. }
  destruct (re_sets _ _ _ Hr _ _ Hi) as (i2 & E2 & Ep & Eg & _ & Hc). simplify_eq. apply Hc. eapply Hn; [done|congruence..].
Qed.

Lemma declared_rely u p g qs s s' : rely u s s' -> declared p g qs (log s) -> declared p g qs (log s').
Proof. intros Hr (plan & [? ?] & ?). exists plan. split; [|done]. split; [|done]. by apply Hr. Qed.

Lemma est_ok_rely t p g e s s' :
  rely t s s' -> holds t (est_held e) (locks s) -> est_ok p g e s -> est_ok p g e s'.
Proof.
  intros Hr (He & _ & _) Hok. pose proof (none_open_rely t p g s s' Hr) as Hn.
  pose proof (known_rely t p s s' Hr) as Hk. pose proof (gathered_rely t p) as Hg.
  destruct e; cbn in *; try by auto; intuition eauto using declared_rely.
  destruct Hok as (i & Hi & <-). destruct (re_sets _ _ _ Hr _ _ Hi) as (i2 & E2 & Ep & _). by exists i2.
Qed.

(** ** The shared facts *)

Lemma gathered_requested p subs todo s s' :
  requested s' = requested s -> gathered p subs todo s -> gathered p subs todo s'.
Proof. unfold gathered, known, worker_of. by intros ->. Qed.

Lemma so_frame s s' :
  requested s' = requested s -> applied s' = applied s -> log s' = log s -> sets s' = sets s ->
  shared_ok s -> shared_ok s'.
Proof.
  intros E1 E2 E3 E4 [H1 H2 H3 H4 H5 H6 H7]. split; unfold known; rewrite ?E1, ?E2, ?E3, ?E4; try done.
  intros id i Hi. eapply gathered_requested; [exact E1|by eapply H4].
Qed.

(** Actions that say nothing of a consumer. *)
Definition neutral (a : Action) : Prop :=
  match a with AConsume _ _ _ _ | AOpenConsumer _ _ => False | _ => True end.

Lemma so_act a s :
  (forall p g, a = AOpenConsumer p g -> known p s) -> (forall p g id qs, a <> AConsume p g id qs) ->
  entry_ok (log s) a -> shared_ok s -> shared_ok (act a s).
Proof.
  intros Ho Hc Ha [H1 H2 H3 H4 H5 H6 H7]. split; cbn; try done.
  - intros g plan E. apply elem_of_app. left. by apply H2.
  - by apply justified_snoc.
  - intros id i Hi Hcl. apply elem_of_app. left. by eapply H5.
  - intros p g id qs. rewrite elem_of_app, list_elem_of_singleton. intros [?|E]; [eauto|]. by destruct (Hc p g id qs).
  - intros p g. rewrite elem_of_app, list_elem_of_singleton. intros [?|<-]; [by eapply H7|by eapply Ho].
Qed.

Lemma so_neutral a s : neutral a -> entry_ok (log s) a -> shared_ok s -> shared_ok (act a s).
Proof. intros Hn. apply so_act; intros; by destruct a. Qed.

Lemma so_close id s : shared_ok s -> shared_ok (close_set id s).
Proof.
  intros [H1 H2 H3 H4 H5 H6 H7]. split; cbn; try done.
  - intros g plan E. apply elem_of_app. left. by apply H2.
  - by apply justified_snoc.
  - intros id' i. rewrite list_lookup_alter. case_decide; [|by eauto]. intros (i' & Hi & ->)%fmap_Some_1. exact (H4 _ _ Hi).
  - intros id' i. rewrite list_lookup_alter. rewrite elem_of_app, list_elem_of_singleton.
    case_decide; [subst; by right|]. intros Hi Hc. left. by eapply H5.
  - intros p g id' qs. rewrite elem_of_app, list_elem_of_singleton. intros [Hin|?]; [|done].
    destruct (H6 _ _ _ _ Hin) as (i & Hi & ? & ? & ?). rewrite list_lookup_alter. case_decide; [|by exists i].
    subst. rewrite Hi. eexists. by split.
  - intros p g. rewrite elem_of_app, list_elem_of_singleton. intros [?|?]; [by eapply H7|done].
Qed.

Lemma so_spawn p g subs s :
  gathered p subs [] s -> none_open p g s -> declared p g (queue_of <$> subs) (log s) -> shared_ok s ->
  shared_ok (act (AConsume p g (length (sets s)) (queue_of <$> subs)) (set_sets (sets s ++ [mkSet p g subs false]) s)).
Proof.
  intros Hg Hn Hd [H1 H2 H3 H4 H5 H6 H7]. split; cbn; try done.
  - intros g' plan E. apply elem_of_app. left. by apply H2.
  - apply justified_snoc; [done|]. split; [done|]. intros id qs' Hin.
    destruct (H6 _ _ _ _ Hin) as (i & Hi & <- & <- & _). by eapply H5, Hn.
  - intros id i [Hi|[_ Hi]]%lookup_app_Some; [by eapply H4|]. by apply list_lookup_singleton_Some in Hi as [_ <-].
  - intros id i [Hi|[_ Hi]]%lookup_app_Some Hc; [apply elem_of_app; left; by eapply H5|].
    by apply list_lookup_singleton_Some in Hi as [_ <-].
  - intros p' g' id qs. rewrite elem_of_app, list_elem_of_singleton. intros [Hin|[= -> -> -> ->]].
    + destruct (H6 _ _ _ _ Hin) as (i & Hi & ? & ? & ?). exists i. split; [by apply lookup_app_l_Some|done].
    + eexists. split; [by apply list_lookup_middle|done].
  - intros p' g'. rewrite elem_of_app, list_elem_of_singleton. intros [?|?]; [by eapply H7|done].
Qed.

Lemma so_request p w s :
  w_name w = p -> w ∈ v_workers v \/ synthesize_auto_profile v p = Ok w -> shared_ok s ->
  shared_ok (set_requested (requested_insert p w (requested s)) s).
Proof.
  intros Hw Ho Hs. pose proof (rely_request TCoord p w s) as Hr. destruct Hs as [H1 H2 H3 H4 H5 H6 H7].
  split; try done.
  - intros x [->|Hx]%elem_of_requested_insert; [done|by apply H1].
  - intros id i Hi. eapply gathered_rely; [exact Hr|]. by eapply H4.
  - intros q g Hin. eapply known_rely; [exact Hr|]. by eapply H7.
Qed.

Lemma apply_ops_Ok channel l sent : apply_ops channel l = (Ok tt, sent) -> sent = l.
Proof.
  revert sent. induction l as [|op l IH]; intros sent; cbn; [by intros [= <-]|]. destruct (channel op); [|done].
  destruct (apply_ops channel l) as [r s']. intros [= -> <-]. f_equal. by apply IH.
Qed.

(** Reconciling keeps the log truthful, and its success is recorded. *)
Lemma so_reconcile channel plan g s r app ops :
  reconcile channel plan g (applied s) = (r, app, ops) -> shared_ok s ->
  match r with
  | Ok _ => shared_ok (act (AReconciled g plan ops) (set_applied app s)) /\
            AReconciled g plan (operations plan) ∈ log s ++ [AReconciled g plan ops]
  | Err _ => shared_ok (act (ARefused g ops) (set_applied app s))
  end.
Proof.
  intros Hr Hs. unfold reconcile in Hr. destruct (is_applied (applied s) g plan) eqn:Ea.
  - simplify_eq. destruct (applied s) as [[g' plan']|] eqn:E; [|done]. cbn in Ea. zbool.
    apply bool_decide_eq_true in H0 as ->. subst g'. split.
    + apply so_neutral; [done..|]. eapply so_frame; [..|exact Hs]; by rewrite ?E.
    + apply elem_of_app. left. by eapply so_applied.
  - destruct (apply_ops channel (operations plan)) as [[[]|e] sent] eqn:Eo; simplify_eq.
    + apply apply_ops_Ok in Eo as ->. assert (shared_ok (act (AReconciled g plan (operations plan)) s)) as [] by by apply so_neutral.
      split; [|apply elem_of_app; right; by apply list_elem_of_singleton].
      split; try done. intros ? ? [= <- <-]. apply elem_of_app. right. by apply list_elem_of_singleton.
    + apply so_neutral; [done..|]. by eapply so_frame; [..|exact Hs].
Qed.

(** ** One step of an establishment *)

Lemma plan_queue_names c subs q : q ∈ ps_queue <$> subs -> q ∈ q_name <$> tp_queues (from_profiles c subs).
Proof.
  intros Hq. destruct (from_profiles_built c subs) as (b & -> & [Hn _ _ _ _ _ _ _]). cbn. rewrite Hn.
  apply elem_of_app. by left.
Qed.

Lemma planned_elem ws w c : w ∈ ws -> c ∈ w_subscriptions w -> su_queue c ∈ ps_queue <$> planned ws.
Proof.
  intros Hw Hc. apply list_elem_of_fmap. exists (mkPlanned (su_broker c) (su_queue c)). split; [done|].
  apply list_elem_of_bind. exists w. split; [|done]. apply list_elem_of_fmap. eauto.
Qed.

Lemma own_subscription w x : x ∈ own_subscriptions broker_name w -> x.2 ∈ w_subscriptions w /\ su_broker x.2 = broker_name.
Proof.
  intros [Hb Hx]%list_elem_of_filter. split; [|done].
  apply list_elem_of_lookup in Hx as [k Hk]. rewrite list_lookup_imap in Hk. apply fmap_Some_1 in Hk as (c & Hc & ->).
  by eapply list_elem_of_lookup_2.
Qed.

Lemma generation_plan_mode s : tp_mode (generation_plan v s) = v_topology_mode v.
Proof.
  unfold generation_plan, from_config_and. match goal with |- context [planned ?l] => set (ws := l) end.
  by destruct (from_profiles_built (plan_config v) (planned ws)) as (b & -> & _).
Qed.

Lemma generation_plan_covers p subs s :
  shared_ok s -> gathered p subs [] s ->
  tp_mode (generation_plan v s) = v_topology_mode v /\ planned_for p (generation_plan v s) (queue_of <$> subs).
Proof.
  intros Hs (_ & _ & w & d & Hw & Ed & E). rewrite app_nil_r in Ed. subst d. split; [apply generation_plan_mode|].
  unfold generation_plan, from_config_and.
  intros Hm. rewrite E. apply Forall_fmap, Forall_forall. intros x [Hx _]%own_subscription. cbn.
  apply plan_queue_names. eapply planned_elem; [|exact Hx]. unfold worker_of in Hw. apply elem_of_app.
  destruct (worker v p) as [w'|] eqn:Ew; [left; simplify_eq; by eapply worker_name|right].
  destruct Hm as [->|[? ?]]; [|done]. apply requested_get_elem in Hw.
  apply list_elem_of_filter. destruct (so_names _ Hs _ Hw) as [En _]. cbn in En. rewrite En. split; [done|].
  apply list_elem_of_fmap. by exists (p, w).
Qed.

Definition out_held (o : EstOut) : Held :=
  match o with Next e => est_held e | Return _ => mkHeld false false false end.
Definition out_pending (o : EstOut) : option nat := match o with Next e => pending e | Return _ => None end.

(** What a step of an establishment by [t] gives; [O] are the sets the other tasks hold. *)
Record est_after (t : Tid) (p : string) (g : Z) (O : nat -> Prop) (out : EstOut) (s s' : Shared) : Prop := {
  ea_shared : shared_ok s';
  ea_ok : match out with Next e => est_ok p g e s' | Return _ => True end;
  ea_held : holds t (out_held out) (locks s');
  ea_rely : forall u, u <> t -> rely u s s';
  ea_live : live (fun id => out_pending out = Some id \/ O id) s'
}.

Lemma leave_after t p g O r s s' :
  shared_ok s' -> holds t (mkHeld true false false) (locks s') -> (forall u, u <> t -> rely u s s') -> live O s' ->
  est_after t p g O (Return r) s (drop_establish s').
Proof.
  intros Hs (H1 & H2 & H3) Hr Hl. cbn in *. split.
  - by eapply so_frame; [..|exact Hs].
  - done.
  - repeat split; cbn; naive_solver.
  - intros u Hu. transitivity s'; [by apply Hr|]. apply rely_locks.
    assert (establish_lock (locks s') = Some t) as E by by apply H1. repeat split; cbn; rewrite ?E; congruence.
  - intros id i Hi Hc. destruct (Hl id i Hi Hc); [by left|]. right. by right.
Qed.

Lemma opened_after t p g O subs s s' :
  shared_ok s' -> holds t (mkHeld true false false) (locks s') -> (forall u, u <> t -> rely u s s') -> live O s' ->
  gathered p subs [] s' -> none_open p g s' ->
  est_after t p g O (opened v subs s').1 s (opened v subs s').2.
Proof.
  intros Hs Hh Hr Hl Hg Hn. unfold opened. case_bool_decide; cbn; [by apply leave_after|].
  split; try done.
  - cbn. split; [done|]. split; [done|]. by apply generation_plan_covers.
  - intros id i Hi Hc. destruct (Hl id i Hi Hc); [by left|]. right. by right.
Qed.

(** A step to [e'] that keeps the locks and the sets. *)
Lemma next_after t p g (O : nat -> Prop) e e' s s' :
  shared_ok s' -> est_ok p g e' s' -> holds t (est_held e) (locks s) -> est_held e' = est_held e ->
  locks s' = locks s -> pending e' = pending e -> (forall u, u <> t -> rely u s s') ->
  live (fun id => pending e = Some id \/ O id) s' -> est_after t p g O (Next e') s s'.
Proof. intros Hs Hok Hh Eh El Ep Hr Hl. split; [done..| | |]; cbn; rewrite ?Eh, ?El, ?Ep; done. Qed.

Lemma live_frame (H H' : nat -> Prop) s s' :
  sets s' = sets s -> consumers s' = consumers s -> (forall id, H id -> H' id) -> live H s -> live H' s'.
Proof. intros E1 E2 HH Hl id i. rewrite E1, E2. intros Hi Hc. destruct (Hl id i Hi Hc); auto. Qed.

Lemma current_None p g s id i :
  current p g s = None -> consumers s !! p = Some id -> sets s !! id = Some i -> si_generation i = g -> si_closed i = true.
Proof.
  unfold current. intros E Hp Hi Hg. rewrite Hp in E. cbn in E. rewrite Hi in E. cbn in E. rewrite Hg, Z.eqb_refl in E. by destruct (si_closed i).
Qed.

Lemma check_after t p g (O : nat -> Prop) s out s' :
  shared_ok s -> known p s -> holds t (mkHeld true false false) (locks s) -> live O s -> (forall id, ~ O id) ->
  est_step v broker_name connection_key t p g EsCheck AnsNone s = Some (out, s') -> est_after t p g O out s s'.
Proof.
  intros Hs Hk Hh Hl HO. cbn [est_step]. destruct (consumers_lock (locks s)); [done|].
  destruct (current p g s) eqn:Ec; [intros [= <- <-]; by apply leave_after|].
  assert (none_open p g s) as Hn.
  { intros id i Hi Hp Hg. destruct (si_closed i) eqn:Ecl; [done|]. destruct (Hl id i Hi Ecl) as [Hc|[]%HO].
    rewrite Hp in Hc. by rewrite <- Ecl, (current_None p g s id i). }
  destruct (worker_of v p s) as [w|] eqn:Ew; [|intros [= <- <-]; by apply leave_after].
  assert (gathered p [] (own_subscriptions broker_name w) s) as Hg by (split; [done|]; split; [done|]; by exists w, []).
  destruct (own_subscriptions broker_name w) as [|x todo] eqn:Eo.
  - intros E%(inj Some). rewrite (surjective_pairing (opened v [] s)) in E. simplify_eq. by apply opened_after.
  - intros [= <- <-]. apply (next_after t p g O EsCheck); [done| |done..|].
    + split; [done|]. split; [done|exact Hn].
    + eapply live_frame; [..|exact Hl]; [done..|]. by right.
Qed.

Lemma subscription_of_queue index c g handle x :
  subscription_of v connection_key index c g handle = Some x -> queue_of x = su_queue c /\ own_destination x.
Proof.
  unfold subscription_of. destruct (Scheduler.policy_new (su_weight c)); cbn; [|done]. intros [= <-]. split; [done|].
  unfold own_destination. cbn. by destruct handle.
Qed.

Lemma open_after t p g (O : nat -> Prop) todo handle subs a s out s' :
  shared_ok s -> est_ok p g (EsOpen todo handle subs) s -> holds t (mkHeld true false false) (locks s) -> live O s ->
  est_step v broker_name connection_key t p g (EsOpen todo handle subs) a s = Some (out, s') -> est_after t p g O out s s'.
Proof.
  intros Hs (_ & Hg & Hn) Hh Hl. cbn [est_step]. destruct todo as [|[index c] todo]; [done|]. destruct a as [|ok| | |]; try done.
  destruct ok; [|intros [= <- <-]; by apply leave_after].
  destruct (subscription_of v connection_key index c g handle) as [x|] eqn:Ex; cbn; [|done].
  apply subscription_of_queue in Ex as [Eq Hx]. set (s1 := act (AOpenConsumer p g) s).
  assert (shared_ok s1) as Hs1.
  { apply so_act; [|done..]. intros p' g' [= <- <-]. apply Hg. }
  assert (gathered p (subs ++ [x]) todo s1) as Hg1.
  { destruct Hg as (Hk & Hd & w & d & Hw & E & Es). split; [done|]. split; [apply Forall_app; by repeat constructor|].
    exists w, (d ++ [(index, c)]). split; [done|]. rewrite <- app_assoc. split; [done|]. by rewrite !fmap_app, Es, !fmap_cons, Eq. }
  assert (forall u, u <> t -> rely u s s1) as Hr by (intros; apply rely_act).
  destruct todo as [|y todo].
  - intros E%(inj Some). rewrite (surjective_pairing (opened v (subs ++ [x]) s1)) in E. simplify_eq. by apply opened_after.
  - intros [= <- <-]. apply (next_after t p g O EsCheck); [done|done|done..|].
    eapply live_frame; [..|exact Hl]; [done..|]. by right.
Qed.

Lemma wait_after t p g (O : nat -> Prop) plan subs s out s' :
  shared_ok s -> est_ok p g (EsWait plan subs) s -> holds t (mkHeld true false false) (locks s) -> live O s ->
  est_step v broker_name connection_key t p g (EsWait plan subs) AnsNone s = Some (out, s') -> est_after t p g O out s s'.
Proof.
  intros Hs (Hg & Hn & Hm & Hp) Hh Hl. cbn [est_step]. destruct (reconciler_lock (locks s)) eqn:Er; [done|].
  destruct (is_applied (applied s) g plan) eqn:Ea; intros [= <- <-].
  - apply (next_after t p g O EsCheck); [done| |done..|eapply live_frame; [..|exact Hl]; [done..|by right]].
    split; [done|]. split; [done|]. exists plan. split; [|done]. split; [|done].
    destruct (applied s) as [[g' plan']|] eqn:E; [|done]. cbn in Ea. zbool. apply bool_decide_eq_true in H0 as ->. subst g'.
    by eapply so_applied.
  - destruct Hh as (H1 & H2 & H3). split.
    + by eapply so_frame; [..|exact Hs].
    + split; [done|]. by split.
    + repeat split; cbn in *; try done; apply H1 || apply H3.
    + intros u Hu. apply rely_locks. repeat split; cbn; rewrite ?Er; congruence.
    + eapply live_frame; [..|exact Hl]; [done..|by right].
Qed.

(** The reconciler's lock is dropped after its use. *)
Lemma drop_reconciler_after b t s s' :
  holds t (mkHeld b true false) (locks s) -> locks s' = locks s -> (forall u, u <> t -> rely u s s') ->
  holds t (mkHeld b false false) (locks (drop_reconciler s')) /\ forall u, u <> t -> rely u s (drop_reconciler s').
Proof.
  intros (H1 & H2 & H3) El Hr. cbn in *. split.
  - rewrite El. repeat split; cbn; try done; apply H1 || apply H3.
  - intros u Hu. transitivity s'; [by apply Hr|]. apply rely_locks. assert (reconciler_lock (locks s) = Some t) as E by by apply H2.
    repeat split; cbn; rewrite ?El, ?E; congruence.
Qed.

Lemma apply_after t p g (O : nat -> Prop) plan subs channel s out s' :
  shared_ok s -> est_ok p g (EsApply plan subs) s -> holds t (mkHeld true true false) (locks s) -> live O s ->
  est_step v broker_name connection_key t p g (EsApply plan subs) (AnsTopology channel) s = Some (out, s') ->
  est_after t p g O out s s'.
Proof.
  intros Hs (Hg & Hn & Hm & Hp) Hh Hl. cbn [est_step].
  destruct (reconcile channel plan g (applied s)) as [[r app] ops] eqn:Er.
  pose proof (so_reconcile _ _ _ _ _ _ _ Er Hs) as Hc.
  destruct r as [u|e]; intros [= <- <-].
  - destruct Hc as [Hs1 Hin]. set (s1 := act (AReconciled g plan ops) (set_applied app s)) in *.
    destruct (drop_reconciler_after true t s s1 Hh eq_refl) as [Hh1 Hr1].
    { intros. transitivity (set_applied app s); [by apply rely_frame|apply rely_act]. }
    change (act _ (drop_reconciler _)) with (drop_reconciler s1). split.
    + by eapply so_frame; [..|exact Hs1].
    + split; [exact Hg|]. split; [exact Hn|]. by exists plan.
    + exact Hh1.
    + exact Hr1.
    + eapply live_frame; [..|exact Hl]; [done..|by right].
  - set (s1 := act (ARefused g ops) (set_applied app s)) in *.
    destruct (drop_reconciler_after true t s s1 Hh eq_refl) as [Hh1 Hr1].
    { intros. transitivity (set_applied app s); [by apply rely_frame|apply rely_act]. }
    change (act _ (drop_reconciler _)) with (drop_reconciler s1). apply leave_after; [|done..|].
    + by eapply so_frame; [..|exact Hc].
    + by eapply live_frame; [..|exact Hl].
Qed.

Lemma spawn_after t p g (O : nat -> Prop) subs r s out s' :
  shared_ok s -> est_ok p g (EsSpawn subs) s -> holds t (mkHeld true false false) (locks s) -> live O s ->
  est_step v broker_name connection_key t p g (EsSpawn subs) (AnsSpawn r) s = Some (out, s') -> est_after t p g O out s s'.
Proof.
  intros Hs (Hg & Hn & Hd) Hh Hl. cbn [est_step]. destruct r as [u|e]; intros [= <- <-]; [|by apply leave_after].
  split.
  - by apply so_spawn.
  - eexists. split; [by apply list_lookup_middle|done].
  - exact Hh.
  - intros u' Hu. transitivity (set_sets (sets s ++ [mkSet p g subs false]) s); [|apply rely_act].
    apply rely_new. destruct Hh as (H1 & _ & _). assert (establish_lock (locks s) = Some t) as -> by by apply H1. congruence.
  - intros id i [Hi|[Hge Hi]]%lookup_app_Some Hc.
    + destruct (Hl id i Hi Hc); [by left|]. right. by right.
    + right. left. cbn. apply list_lookup_singleton_Some in Hi as [E _]. f_equal. lia.
Qed.

Lemma insert_after t p g (O : nat -> Prop) id s out s' :
  shared_ok s -> est_ok p g (EsInsert id) s -> holds t (mkHeld true false false) (locks s) ->
  live (fun x => Some id = Some x \/ O x) s ->
  est_step v broker_name connection_key t p g (EsInsert id) AnsNone s = Some (out, s') -> est_after t p g O out s s'.
Proof.
  intros Hs (i0 & Hi0 & Hp) Hh Hl. cbn [est_step]. destruct (consumers_lock (locks s)) eqn:Ec; [done|].
  set (s1 := set_consumers (<[p:=id]> (consumers s)) s).
  assert (live (fun x => consumers s !! p = Some x \/ O x) s1) as Hl1.
  { intros x i Hi Hcl. cbn. destruct (decide (si_profile i = p)) as [<-|Hne].
    - rewrite lookup_insert_eq. destruct (Hl x i Hi Hcl) as [?|[[= ->]|?]]; [by right; left|by left|by right; right].
    - rewrite lookup_insert_ne by done. destruct (Hl x i Hi Hcl) as [?|[[= <-]|?]]; [by left| |by right; right].
      change (sets s !! id = Some i) in Hi. congruence. }
  assert (shared_ok s1) as Hs1 by by eapply so_frame; [..|exact Hs].
  destruct (consumers s !! p) as [old|] eqn:Eold; intros [= <- <-].
  - destruct Hh as (H1 & H2 & H3). split.
    + by eapply so_frame; [..|exact Hs1].
    + done.
    + repeat split; cbn in *; try done; apply H1 || apply H2.
    + intros u Hu. transitivity s1; [by apply rely_frame|]. apply rely_locks. repeat split; cbn; rewrite ?Ec; congruence.
    + exact Hl1.
  - apply leave_after; [done..| |]; [intros; by apply rely_frame|].
    intros x i Hi Hcl. destruct (Hl1 x i Hi Hcl) as [?|[?|?]]; [by left|done|by right].
Qed.

Lemma closing_after t p g (O : nat -> Prop) old s out s' :
  shared_ok s -> holds t (mkHeld true false true) (locks s) -> live (fun x => Some old = Some x \/ O x) s ->
  est_step v broker_name connection_key t p g (EsClosing old) AnsNone s = Some (out, s') -> est_after t p g O out s s'.
Proof.
  intros Hs (H1 & H2 & H3) Hl. cbn [est_step]. intros [= <- <-]. apply leave_after.
  - eapply so_frame; [..|by apply (so_close old)]; done.
  - repeat split; cbn in *; try done; apply H1 || apply H2.
  - intros u Hu. transitivity (close_set old s); [apply rely_close|]. apply rely_locks. cbn in *.
    assert (consumers_lock (locks s) = Some t) as E by by apply H3. repeat split; cbn; rewrite ?E; congruence.
  - intros x i Hi Hcl. cbn in Hi. rewrite list_lookup_alter in Hi. case_decide as E.
    + apply fmap_Some_1 in Hi as (? & _ & ->). done.
    + destruct (Hl x i Hi Hcl) as [?|[[= ?]|?]]; [by left|done|by right].
Qed.

Lemma est_step_after t p g (O : nat -> Prop) e a s out s' :
  shared_ok s -> est_ok p g e s -> holds t (est_held e) (locks s) ->
  live (fun x => pending e = Some x \/ O x) s -> (h_establish (est_held e) = true -> forall id, ~ O id) ->
  (establish_lock (locks s) = None -> forall id, ~ O id) ->
  est_step v broker_name connection_key t p g e a s = Some (out, s') -> est_after t p g O out s s'.
Proof.
  intros Hs Hok Hh Hl HO HO'. assert (pending e = None -> live O s) as Hl0.
  { intros E. eapply live_frame; [..|exact Hl]; [done..|]. intros id [?|?]; [congruence|done]. }
  destruct e; destruct a; try done; try (by destruct todo as [|[]]).
  - cbn [est_step]. destruct (is_requested p s) eqn:Eq; intros [= <- <-].
    + apply (next_after t p g O EsRequested); try done. by apply bool_decide_eq_true in Eq.
    + by split.
  - cbn [est_step]. destruct (establish_lock (locks s)) eqn:El; [done|]. intros [= <- <-].
    destruct Hh as (H1 & H2 & H3). split.
    + by eapply so_frame; [..|exact Hs].
    + done.
    + repeat split; cbn in *; try done; apply H2 || apply H3.
    + intros u Hu. apply rely_locks. repeat split; cbn; rewrite ?El; congruence.
    + eapply live_frame; [..|exact (Hl0 eq_refl)]; [done..|by right].
  - apply check_after; auto.
  - apply open_after; auto.
  - apply wait_after; auto.
  - cbn [est_step]. destruct ok; intros [= <- <-]; [by apply (next_after t p g O (EsTopology plan subs))|].
    destruct (drop_reconciler_after true t s s Hh eq_refl) as [Hh1 Hr1]; [done|].
    apply leave_after; [by eapply so_frame; [..|exact Hs]|done..|]. by eapply live_frame; [..|exact (Hl0 eq_refl)].
  - apply apply_after; auto.
  - apply spawn_after; auto.
  - by apply insert_after.
  - by apply closing_after.
Qed.

(** ** The invariant *)

(** Where a task is, as far as the other tasks are concerned. *)
Inductive Pos := PNone | PEst (p : string) (g : Z) (e : Est) | PRec (g : Z) (r : Rec).

Definition coord_pos (c : Coord) : Pos :=
  match c with
  | CoRecover g (RcEst _ _ p e) => PEst p g e
  | CoRecover g r => PRec g r
  | _ => PNone
  end.

Definition call_pos (k : option Call) : Pos :=
  match k with Some (KEst p g e) => PEst p g e | _ => PNone end.

Definition pos_of (s : State) (t : Tid) : Pos :=
  match t with TCoord => coord_pos (coord s) | TCall i => call_pos (calls s !! i) end.

Definition pos_held (x : Pos) : Held :=
  match x with
  | PEst _ _ e => est_held e
  | PRec _ (RcApply _) => mkHeld false true false
  | _ => mkHeld false false false
  end.

Definition pos_pending (x : Pos) : option nat := match x with PEst _ _ e => pending e | _ => None end.

Definition pos_ok (x : Pos) (s : Shared) : Prop :=
  match x with
  | PEst p g e => est_ok p g e s
  | PRec _ (RcWait plan) | PRec _ (RcApply plan) => tp_mode plan = v_topology_mode v
  | PRec g RcAdopt | PRec g RcReady | PRec g RcInstall => exists plan, reconciled g plan (log s)
  | _ => True
  end.

Record inv (s : State) : Prop := {
  iv_shared : shared_ok (shared s);
  iv_pos : forall t, pos_ok (pos_of s t) (shared s);
  iv_held : forall t, holds t (pos_held (pos_of s t)) (locks (shared s));
  iv_live : live (fun id => exists t, pos_pending (pos_of s t) = Some id) (shared s)
}.

Lemma pos_ok_rely t x s s' : rely t s s' -> holds t (pos_held x) (locks s) -> pos_ok x s -> pos_ok x s'.
Proof.
  intros Hr Hh. destruct x as [|p g e|g r]; [done|by eapply est_ok_rely|].
  destruct r; cbn; try done; intros (plan & [? ?]); exists plan; split; try done; by apply Hr.
Qed.

Lemma pending_held x id : pos_pending x = Some id -> h_establish (pos_held x) = true.
Proof. destruct x as [|p g e|]; try done. by destruct e. Qed.

(** What a step that leaves task [t] at [x] gives. *)
Record task_after (t : Tid) (x : Pos) (O : nat -> Prop) (s s' : Shared) : Prop := {
  ta_shared : shared_ok s';
  ta_ok : pos_ok x s';
  ta_held : holds t (pos_held x) (locks s');
  ta_rely : forall u, u <> t -> rely u s s';
  ta_live : live (fun id => pos_pending x = Some id \/ O id) s'
}.

Definition others (s : State) (t : Tid) (id : nat) : Prop := exists u, u <> t /\ pos_pending (pos_of s u) = Some id.

Lemma others_locked s t id u : inv s -> others s t id -> establish_lock (locks (shared s)) = Some u -> u <> t.
Proof.
  intros Hi (w & Hw & Hp) Hu ->. apply pending_held in Hp. apply (iv_held _ Hi w) in Hp. congruence.
Qed.

Lemma others_free s t id : inv s -> others s t id -> establish_lock (locks (shared s)) <> None.
Proof. intros Hi (w & Hw & Hp). apply pending_held in Hp. apply (iv_held _ Hi w) in Hp. congruence. Qed.

Lemma inv_live s t : inv s -> live (fun id => pos_pending (pos_of s t) = Some id \/ others s t id) (shared s).
Proof.
  intros Hi. eapply live_frame; [..|exact (iv_live _ Hi)]; [done..|]. intros id [u Hu].
  destruct (decide (u = t)) as [->|?]; [by left|]. right. by exists u.
Qed.

Lemma inv_task s s' t :
  inv s -> (forall u, u <> t -> pos_of s' u = pos_of s u) ->
  task_after t (pos_of s' t) (others s t) (shared s) (shared s') -> inv s'.
Proof.
  intros Hi Hu [H1 H2 H3 H4 H5]. split.
  - done.
  - intros u. destruct (decide (u = t)) as [->|Hne]; [done|]. rewrite Hu by done.
    eapply pos_ok_rely; [by apply H4|apply Hi|apply Hi].
  - intros u. destruct (decide (u = t)) as [->|Hne]; [done|]. rewrite Hu by done.
    eapply holds_same; [by apply H4|apply Hi].
  - eapply live_frame; [..|exact H5]; [done..|]. intros id [?|(u & Hne & ?)]; [by exists t|].
    exists u. by rewrite Hu.
Qed.

Lemma inv_env s s' :
  inv s -> (forall u, pos_of s' u = pos_of s u) -> shared_ok (shared s') -> (forall u, rely u (shared s) (shared s')) ->
  live (fun id => exists t, pos_pending (pos_of s t) = Some id) (shared s') -> inv s'.
Proof.
  intros Hi Hu Hs Hr Hl. split; [done| | |].
  - intros u. rewrite Hu. eapply pos_ok_rely; [apply Hr|apply Hi..].
  - intros u. rewrite Hu. eapply holds_same; [apply Hr|apply Hi].
  - eapply live_frame; [..|exact Hl]; [done..|]. intros id [u ?]. exists u. by rewrite Hu.
Qed.

(** A step of [t] that leaves the other tasks' facts as they are. *)
Lemma task_frame t x s s' O :
  shared_ok s' -> pos_ok x s' -> holds t (pos_held x) (locks s) -> locks s' = locks s ->
  (forall u, rely u s s') -> sets s' = sets s -> consumers s' = consumers s -> live O s -> task_after t x O s s'.
Proof.
  intros Hs Hok Hh El Hr E1 E2 Hl. split; [done|done|by rewrite El|by auto|].
  eapply live_frame; [done|done| |exact Hl]. by right.
Qed.

Lemma live_close H id s : live H s -> live H (close_set id s).
Proof.
  intros Hl id' i Hi Hc. cbn in *. rewrite list_lookup_alter in Hi. case_decide; [|by eapply Hl].
  by apply fmap_Some_1 in Hi as (? & _ & ->).
Qed.

(** ** Preservation *)

(** A position that carries nothing. *)
Definition plain (x : Pos) : Prop :=
  pos_held x = mkHeld false false false /\ pos_pending x = None /\ forall s, pos_ok x s.

Lemma est_task s t p g e a out sh x :
  inv s -> pos_of s t = PEst p g e -> est_step v broker_name connection_key t p g e a (shared s) = Some (out, sh) ->
  match out with Next e' => x = PEst p g e' | Return _ => plain x end -> task_after t x (others s t) (shared s) sh.
Proof.
  intros Hi Et Hst Hx. pose proof (iv_pos _ Hi t) as Hok. pose proof (iv_held _ Hi t) as Hh. pose proof (inv_live s t Hi) as Hl.
  rewrite Et in Hok, Hh, Hl. cbn in Hok, Hh, Hl.
  assert (est_after t p g (others s t) out (shared s) sh) as [H1 H2 H3 H4 H5].
  { eapply est_step_after; [apply Hi|done..| | |exact Hst].
    - intros He id Ho. by apply (others_locked s t id t Hi Ho); [apply Hh|].
    - intros E id Ho. by eapply others_free. }
  destruct out as [e'|r]; [by subst x|]. destruct Hx as (E1 & E2 & E3). split; [done|done|by rewrite E1|done|].
  eapply live_frame; [..|exact H5]; [done..|]. intros id [?|?]; [done|by right].
Qed.

Lemma drop_task s t sh :
  shared_ok sh -> locks sh = locks (shared s) -> (forall u, rely u (shared s) sh) -> live (others s t) sh ->
  task_after t PNone (others s t) (shared s) (drop_locks t sh).
Proof.
  intros Hs El Hr Hl. split.
  - by eapply so_frame; [..|exact Hs].
  - done.
  - apply holds_drop_locks.
  - intros u Hu. transitivity sh; [done|by apply rely_drop_locks].
  - eapply live_frame; [..|exact Hl]; [done..|by right].
Qed.

Lemma cancel_task s t p g e :
  inv s -> pos_of s t = PEst p g e -> task_after t PNone (others s t) (shared s) (cancel_est t e (shared s)).
Proof.
  intros Hi Et. pose proof (inv_live s t Hi) as Hl. rewrite Et in Hl. cbn in Hl.
  assert (forall id, pending e = Some id -> task_after t PNone (others s t) (shared s) (drop_locks t (close_set id (shared s)))) as Hc.
  { intros id E. apply drop_task; [apply so_close, Hi|done|intros; apply rely_close|].
    intros id' i Hi' Hc. cbn in Hi'. rewrite list_lookup_alter in Hi'. case_decide as En.
    - by apply fmap_Some_1 in Hi' as (? & _ & ->).
    - destruct (Hl id' i Hi' Hc) as [?|[?|?]]; [by left|congruence|by right]. }
  assert (pending e = None -> task_after t PNone (others s t) (shared s) (drop_locks t (shared s))) as Hn.
  { intros E. apply drop_task; [apply Hi|done|done|]. eapply live_frame; [..|exact Hl]; [done..|].
    intros id [?|?]; [congruence|done]. }
  unfold cancel_est. destruct e; auto.
Qed.

Lemma drop_plain_task s t :
  inv s -> pos_pending (pos_of s t) = None -> task_after t PNone (others s t) (shared s) (drop_locks t (shared s)).
Proof.
  intros Hi E. apply drop_task; [apply Hi|done|done|]. eapply live_frame; [..|exact (inv_live s t Hi)]; [done..|].
  intros id [?|?]; [congruence|done].
Qed.

(** The steps of [recover_generation] outside an establishment. *)
Lemma rec_plain_task s g r x sh :
  inv s -> coord s = CoRecover g r -> (forall p e todo ex, r <> RcEst todo ex p e) ->
  pos_held (PRec g r) = mkHeld false false false ->
  shared_ok sh -> pos_ok x sh -> pos_held x = mkHeld false false false ->
  locks sh = locks (shared s) -> (forall u, rely u (shared s) sh) -> sets sh = sets (shared s) ->
  consumers sh = consumers (shared s) -> task_after TCoord x (others s TCoord) (shared s) sh.
Proof.
  intros Hi Ec Hne E1 Hs Hok Eh El Hr Es Eco.
  assert (pos_of s TCoord = PRec g r) as Ep by (cbn; rewrite Ec; destruct r; try done; by edestruct Hne).
  apply task_frame; try done.
  - rewrite Eh. pose proof (iv_held _ Hi TCoord) as Hh. by rewrite Ep, E1 in Hh.
  - eapply live_frame; [..|exact (inv_live s TCoord Hi)]; [done..|]. rewrite Ep. intros id [?|?]; done.
Qed.

(** Applying the plan of a generation. *)
Lemma rec_apply_task s g plan channel r app ops out sh c :
  inv s -> coord s = CoRecover g (RcApply plan) -> tp_mode plan = v_topology_mode v ->
  holds TCoord (mkHeld false true false) (locks (shared s)) ->
  reconcile channel plan g (applied (shared s)) = (r, app, ops) ->
  Some (match r with
        | Ok _ => (RNext RcAdopt, act (AReconciled g plan ops) (drop_reconciler (set_applied app (shared s))))
        | Err e => (RReturn (Err (CETopology e)), act (ARefused g ops) (drop_reconciler (set_applied app (shared s))))
        end) = Some (out, sh) ->
  match out with RNext r' => c = CoRecover g r' | RReturn _ => plain (coord_pos c) end ->
  task_after TCoord (coord_pos c) (others s TCoord) (shared s) sh.
Proof.
  intros Hi Ec Hm Hh Er Hst Hc. pose proof (so_reconcile _ _ _ _ _ _ _ Er (iv_shared _ Hi)) as Hr.
  assert (live (fun id => others s TCoord id) (shared s)) as Hl.
  { eapply live_frame; [..|exact (inv_live s TCoord Hi)]; [done..|]. cbn. rewrite Ec. by intros id [?|?]. }
  destruct (drop_reconciler_after false TCoord (shared s)
    (act (match r with Ok _ => AReconciled g plan ops | Err _ => ARefused g ops end) (set_applied app (shared s))) Hh eq_refl)
    as [Hh1 Hr1].
  { intros. transitivity (set_applied app (shared s)); [by apply rely_frame|apply rely_act]. }
  destruct r as [u|e]; injection Hst as <- <-.
  + destruct Hr as [Hs1 Hin]. subst c. split; [by eapply so_frame; [..|exact Hs1]|by exists plan|exact Hh1|exact Hr1|].
    eapply live_frame; [..|exact Hl]; [done..|by right].
  + destruct Hc as (E1 & E2 & E3). split; [by eapply so_frame; [..|exact Hr]|apply E3|rewrite E1; exact Hh1|exact Hr1|].
    eapply live_frame; [..|exact Hl]; [done..|by right].
Qed.

Lemma rec_task s g r a out sh c :
  inv s -> coord s = CoRecover g r ->
  rec_step v broker_name connection_key confirm_timeout g r a (shared s) = Some (out, sh) ->
  match out with RNext r' => c = CoRecover g r' | RReturn _ => plain (coord_pos c) end ->
  task_after TCoord (coord_pos c) (others s TCoord) (shared s) sh.
Proof.
  intros Hi Ec Hst Hc. pose proof (iv_pos _ Hi TCoord) as Hok. cbn in Hok. rewrite Ec in Hok.
  pose proof (iv_shared _ Hi) as Hs. pose proof (iv_held _ Hi TCoord) as Hh. cbn in Hh. rewrite Ec in Hh.
  pose proof (rec_plain_task s g r (coord_pos c) sh Hi Ec) as Hp.
  destruct r as [|plan|plan| | | |todo ex|todo ex p e]; cbn [rec_step] in Hst.
  - destruct a as [|ok| | |]; try done. injection Hst as <- <-. apply Hp; try done.
    + destruct ok; [subst c; apply generation_plan_mode|apply Hc].
    + destruct ok; [by subst c|apply Hc].
  - destruct a; try done. destruct (reconciler_lock (locks (shared s))) eqn:Er; [done|]. injection Hst as <- <-. subst c.
    destruct Hh as (H1 & H2 & H3). split.
    + by eapply so_frame; [..|exact Hs].
    + done.
    + repeat split; cbn in *; try done; apply H1 || apply H3.
    + intros u Hu. apply rely_locks. repeat split; cbn; rewrite ?Er; congruence.
    + eapply live_frame; [..|exact (inv_live s TCoord Hi)]; [done..|]. cbn. by rewrite Ec.
  - destruct a as [| |channel| |]; try done. destruct (reconcile channel plan g (applied (shared s))) as [[r app] ops] eqn:Er.
    by eapply rec_apply_task.
  - destruct a; try done. injection Hst as <- <-. subst c. apply Hp; try done; by destruct (slot (shared s)).
  - destruct a as [| | |[u|e]|]; try done; injection Hst as <- <-.
    + subst c. apply Hp; try done; [|intros; apply rely_act]. by apply so_neutral.
    + apply Hp; try done; apply Hc.
  - destruct a; try done. injection Hst as <- <-. subst c. apply Hp; try done.
    + apply so_neutral; try done. by eapply so_frame; [..|exact Hs].
    + intros u. transitivity (set_slot (Some confirm_timeout) (shared s)); [by apply rely_frame|apply rely_act].
  - destruct a; try done. injection Hst as <- <-. apply Hp; try done.
    + destruct todo, ex; cbn in Hc; try (by subst c); apply Hc.
    + destruct todo, ex; cbn in Hc; try (by subst c); apply Hc.
  - destruct (est_step _ _ _ TCoord p g e a (shared s)) as [[o sh']|] eqn:Ee; [|by destruct a].
    assert (sh' = sh /\ out = match o with
      | Next e => RNext (RcEst todo ex p e) | Return (Ok _) => RNext (RcProfiles todo ex) | Return (Err e) => RReturn (Err e) end)
      as [-> ->] by (destruct a; cbn in Hst; simplify_eq; done).
    eapply est_task; [done| |exact Ee|]; [cbn; by rewrite Ec|]. destruct o as [e'|[u|e']]; [by subst c|by subst c|exact Hc].
Qed.

(** A step of [t] from a position that carries nothing to one that carries nothing. *)
Lemma plain_task s t x sh :
  inv s -> pos_of s t = PNone -> plain x -> shared_ok sh -> locks sh = locks (shared s) ->
  (forall u, rely u (shared s) sh) -> sets sh = sets (shared s) -> consumers sh = consumers (shared s) ->
  task_after t x (others s t) (shared s) sh.
Proof.
  intros Hi Ep (E1 & E2 & E3) Hs El Hr Es Eco. apply task_frame; try done.
  - rewrite E1. pose proof (iv_held _ Hi t) as Hh. by rewrite Ep in Hh.
  - eapply live_frame; [..|exact (inv_live s t Hi)]; [done..|]. rewrite Ep. by intros id [?|?].
Qed.

(** *** Closing every registered set *)

Definition close_all (l : list (string * nat)) (s : Shared) : Shared := foldl (fun s x => close_set x.2 s) s l.

Lemma close_all_facts l s :
  shared_ok s ->
  shared_ok (close_all l s) /\ (forall u, rely u s (close_all l s)) /\ locks (close_all l s) = locks s /\
  consumers (close_all l s) = consumers s /\ forall H, live H s -> live H (close_all l s).
Proof.
  revert s. induction l as [|x l IH]; intros s Hs; [done|]. cbn.
  destruct (IH (close_set x.2 s)) as (H1 & H2 & H3 & H4 & H5); [by apply so_close|].
  split; [done|]. split; [|split; [done|split; [done|]]].
  - intros u. transitivity (close_set x.2 s); [apply rely_close|apply H2].
  - intros H Hl. apply H5. by apply live_close.
Qed.

Lemma close_all_closes l s x id i :
  x ∈ l -> x.2 = id -> sets (close_all l s) !! id = Some i -> si_closed i = true.
Proof.
  intros Hx <-. revert s. induction Hx as [x l|x y l Hx IH]; intros s; [|apply IH]. cbn. intros Hi.
  assert (exists i0, sets (close_set x.2 s) !! x.2 = Some i0) as [i0 Hi0].
  { apply lookup_lt_is_Some_2. apply lookup_lt_Some in Hi. revert Hi. clear. revert s.
    generalize (x.2) as id. intros id s. generalize (close_set id s). induction l as [|z l IH]; [done|].
    intros s' Hlt%IH. cbn in Hlt. by rewrite length_alter in Hlt. }
  assert (si_closed i0 = true) as Hc0.
  { cbn in Hi0. rewrite list_lookup_alter, decide_True in Hi0 by done. by apply fmap_Some_1 in Hi0 as (? & _ & ->). }
  clear -Hi Hi0 Hc0. revert i0 Hi0 Hc0 Hi. generalize (close_set x.2 s) as s'. generalize (x.2) as id.
  intros id. induction l as [|z l IH]; intros s' i0 Hi0 Hc0; cbn; [congruence|]. intros Hi.
  destruct (re_sets _ _ _ (rely_close TCoord z.2 s') _ _ Hi0) as (i1 & Hi1 & _ & _ & _ & Hc1).
  eapply IH; [exact Hi1|by apply Hc1|exact Hi].
Qed.

Lemma shutdown_task s :
  inv s -> coord s = CoClosing ->
  task_after TCoord PNone (others s TCoord) (shared s)
    (set_consumers ∅ (set_slot None (close_all (map_to_list (consumers (shared s))) (shared s)))).
Proof.
  intros Hi Ec. destruct (close_all_facts (map_to_list (consumers (shared s))) (shared s) (iv_shared _ Hi)) as (H1 & H2 & H3 & H4 & H5).
  assert (pos_of s TCoord = PNone) as Ep by (cbn; by rewrite Ec).
  split.
  - by eapply so_frame; [..|exact H1].
  - done.
  - change (holds TCoord (pos_held PNone) (locks (close_all (map_to_list (consumers (shared s))) (shared s)))).
    rewrite H3, <- Ep. apply Hi.
  - intros u Hu. transitivity (close_all (map_to_list (consumers (shared s))) (shared s)); [apply H2|by apply rely_frame].
  - intros id i Hs Hc. destruct (H5 _ (inv_live s TCoord Hi) id i Hs Hc) as [Hr|[Hr|Hr]]; [|by rewrite Ep in Hr|by right; right].
    rewrite H4 in Hr. apply elem_of_map_to_list in Hr.
    eapply (close_all_closes _ (shared s) (si_profile i, id)) in Hs; [congruence|done|done].
Qed.

Lemma coord_task s c a c' sh :
  inv s -> coord s = c -> coord_step v broker_name connection_key confirm_timeout c a (shared s) = Some (c', sh) ->
  task_after TCoord (coord_pos c') (others s TCoord) (shared s) sh.
Proof.
  intros Hi Ec Hst. pose proof (iv_shared _ Hi) as Hs. assert (coord_pos c = pos_of s TCoord) as Ep by (cbn; by rewrite Ec).
  destruct c as [|g r|e|ev| |]; cbn [coord_step] in Hst.
  - destruct a; try done. destruct (changed (shared s)); [|done]. unfold on_change in Hst. injection Hst as Hst.
    destruct (watch _) in Hst; repeat case_match; simplify_eq; 
      (apply plain_task; try done; [by eapply so_frame; [..|exact Hs]|intros u; by apply rely_frame]).
  - destruct (rec_step _ _ _ _ g r a (shared s)) as [[out sh']|] eqn:Er; [|done]. cbn in Hst.
    destruct out as [r'|[u|e]]; injection Hst as <- <-; [by eapply rec_task|by eapply rec_task|].
    assert (task_after TCoord PNone (others s TCoord) (shared s) sh') as [H1 H2 H3 H4 H5] by
      (by eapply (rec_task s g r a _ _ (CoReport e))).
    split; [by eapply so_frame; [..|exact H1]|done|exact H3| |exact H5].
    intros u Hu. transitivity sh'; [by apply H4|by apply rely_frame].
  - destruct a; try done. injection Hst as <- <-. apply plain_task; try done; [|intros; apply rely_act]. by apply so_neutral.
  - destruct a; try done. injection Hst as <- <-. apply plain_task; try done; [|intros; apply rely_act]. by apply so_neutral.
  - destruct a; try done. destruct (consumers_lock (locks (shared s))); [done|]. injection Hst as <- <-. by apply shutdown_task.
  - done.
Qed.

Lemma close_task s c c' sh :
  inv s -> coord s = c -> coord_close c (shared s) = Some (c', sh) ->
  task_after TCoord (coord_pos c') (others s TCoord) (shared s) sh.
Proof.
  intros Hi Ec. destruct c as [|g r|e|ev| |]; try done; cbn [coord_close]; intros [= <- <-].
  - apply plain_task; try done; [cbn; by rewrite Ec|apply Hi].
  - destruct r; try (apply drop_plain_task; [done|cbn; by rewrite Ec]). eapply cancel_task; [done|]. cbn. by rewrite Ec.
Qed.

Lemma call_task s i k a k' sh :
  inv s -> calls s !! i = Some k ->
  call_step v broker_name connection_key (TCall i) k a (shared s) = Some (k', sh) ->
  task_after (TCall i) (call_pos (Some k')) (others s (TCall i)) (shared s) sh.
Proof.
  intros Hi Ek Hst. pose proof (iv_shared _ Hi) as Hs.
  assert (pos_of s (TCall i) = call_pos (Some k)) as Ep by (cbn; by rewrite Ek).
  destruct k as [p|p g|p g e|p|e|r|]; cbn [call_step] in Hst.
  - destruct a; try done. injection Hst as <- <-. apply plain_task; try done. by destruct (watch (shared s)).
  - destruct a; try done. destruct (consumers_lock _); [done|]. injection Hst as <- <-. apply plain_task; try done.
    by destruct (current p g (shared s)); [|destruct (is_requested p (shared s))].
  - destruct (est_step _ _ _ (TCall i) p g e a (shared s)) as [[o sh']|] eqn:Ee; [|by destruct a].
    assert (sh' = sh /\ k' = match o with Next e => KEst p g e | Return (Ok _) => KFetch p | Return (Err e) => KReport e end)
      as [-> ->] by (destruct a; cbn in Hst; simplify_eq; done).
    eapply est_task; [done|exact Ep|exact Ee|]. by destruct o as [|[]].
  - destruct a; try done. destruct (consumers_lock _); [done|]. injection Hst as <- <-. by apply plain_task.
  - destruct a; try done. injection Hst as <- <-. apply plain_task; try done; [|intros; apply rely_act]. by apply so_neutral.
  - by destruct a.
  - by destruct a.
Qed.

Lemma coordinator_inv_init : inv init.
Proof.
  split; cbn.
  - split; cbn; try done; try (by intros ? ?%elem_of_nil); try (by intros ????%elem_of_nil); [apply justified_nil|..];
      intros; by match goal with H : _ ∈ [] |- _ => apply elem_of_nil in H end.
  - by intros [|i].
  - intros [|i]; by repeat split.
  - done.
Qed.

Lemma inv_call s i k k' sh :
  inv s -> calls s !! i = Some k -> task_after (TCall i) (call_pos (Some k')) (others s (TCall i)) (shared s) sh ->
  inv (mkState sh (coord s) (<[i:=k']> (calls s))).
Proof.
  intros Hi Ek Ht. apply (inv_task s _ (TCall i) Hi).
  - intros [|j] Hne; [done|]. cbn. rewrite list_lookup_insert_ne; [done|congruence].
  - cbn. rewrite list_lookup_insert_eq; [done|by eapply lookup_lt_Some].
Qed.

Lemma inv_coord s c sh :
  inv s -> task_after TCoord (coord_pos c) (others s TCoord) (shared s) sh -> inv (mkState sh c (calls s)).
Proof. intros Hi Ht. apply (inv_task s _ TCoord Hi); [|done]. by intros [|j]. Qed.

Lemma inv_step e s s' :
  inv s -> step v broker_name connection_key confirm_timeout e s = Some s' -> inv s'.
Proof.
  intros Hi. pose proof (iv_shared _ Hi) as Hs. destruct e as [c|p|p|[|i] a|i|id|]; cbn [step].
  - intros [= <-]. apply (inv_env s); [done|by intros [|]| | |].
    + by eapply so_frame; [..|exact Hs].
    + intros u. by apply rely_frame.
    + exact (iv_live _ Hi).
  - destruct (request v p (requested (shared s))) as [[w l]|] eqn:Er; [|done]. intros [= <-].
    apply request_insert in Er as (Hw & -> & Ho). apply (inv_env s); [done|by intros [|]| | |].
    + apply so_request; [done| |done]. destruct Ho as [[_ ?]%worker_name|(_ & ? & _)]; [by left|by right].
    + intros u. apply rely_request.
    + exact (iv_live _ Hi).
  - intros [= <-]. apply (inv_env s); [done| |done|done|exact (iv_live _ Hi)].
    intros [|j]; [done|]. cbn. destruct (decide (j < length (calls s))%nat) as [Hj|Hj].
    + by rewrite lookup_app_l.
    + rewrite lookup_app_r, (lookup_ge_None_2 (calls s)) by lia. by destruct (j - length (calls s))%nat as [|[]].
  - destruct (coord_step _ _ _ _ (coord s) a (shared s)) as [[c sh]|] eqn:Ec; [|done]. intros [= <-].
    apply inv_coord; [done|]. by eapply coord_task.
  - destruct (calls s !! i) as [k|] eqn:Ek; [|done]. cbn.
    destruct (call_step _ _ _ (TCall i) k a (shared s)) as [[k' sh]|] eqn:Ec; [|done]. intros [= <-].
    eapply inv_call; [done|exact Ek|]. by eapply call_task.
  - destruct (calls s !! i) as [k|] eqn:Ek; [|done]. cbn. intros Hk.
    assert (s' = mkState (cancel_call (TCall i) k (shared s)) (coord s) (<[i:=KCancelled]> (calls s))) as -> by (by destruct k; simplify_eq).
    eapply inv_call; [done|exact Ek|]. destruct k; try (apply drop_plain_task; [done|cbn; by rewrite Ek]).
    eapply cancel_task; [done|]. cbn. by rewrite Ek.
  - case_decide; [|done]. intros [= <-]. apply (inv_env s); [done|by intros [|]| | |].
    + by apply so_close.
    + intros u. apply rely_close.
    + apply live_close, Hi.
  - destruct (coord_close (coord s) (shared s)) as [[c sh]|] eqn:Ec; [|done]. intros [= <-].
    apply inv_coord; [done|]. by eapply close_task.
Qed.

Lemma coordinator_reach_inv s : reach v broker_name connection_key confirm_timeout s -> inv s.
Proof. induction 1; [apply coordinator_inv_init|by eapply inv_step]. Qed.

End Invariant.

End RecoveryCoordinatorInv.
