(* ===== verification/RecoveryCoordinatorSystem.v ===== *)
(** * The recovery coordinator: theorems

    What every run of the coordinator and of the calls of [consumer] guarantees:
    topology before publisher and consumers, consumers for requested profiles only,
    one set per profile and generation, permanent failures routed as such down to
    the publisher, no deadlock between the locks, and a keep-alive that reaches the
    delay queues in use. *)

From S2P Require Import Prelude Transport Scheduler Publication Recovery Delivery ConnectionActor DelayTopology TopologyPlan ConsumerActor Config ConfigValid RecoveryCoordinator RecoveryCoordinatorInv.
Import Transport Publication Recovery DelayTopology TopologyPlan Config RecoveryCoordinator RecoveryCoordinatorInv.
Local Open Scope Z_scope.
Local Open Scope rabbit_scope.

Module RecoveryCoordinatorSystem.

Section Theorems.
Context (v : ValidatedConfig) (broker_name : string) (connection_key confirm_timeout : Z).

Abbreviation reach := (reach v broker_name connection_key confirm_timeout).
Abbreviation step := (step v broker_name connection_key confirm_timeout).
Abbreviation run := (run v broker_name connection_key confirm_timeout).

Lemma coordinator_run_reach es s s' : reach s -> run es s = Some s' -> reach s'.
Proof.
  revert s. induction es as [|e es IH]; intros s Hs; cbn; [by intros [= <-]|].
  destruct (step e s) as [s1|] eqn:E; [|done]. cbn. apply IH. by eapply reach_step.
Qed.

(** ** Order *)

Lemma operations_declare plan q :
  tp_mode plan = ModeDeclare -> q ∈ q_name <$> tp_queues plan ->
  exists spec, q_name spec = q /\ DeclareQueue spec ∈ operations plan.
Proof.
  intros Hm (spec & -> & Hin)%list_elem_of_fmap. exists spec. split; [done|]. unfold operations. rewrite Hm.
  apply elem_of_app. right. apply elem_of_app. left. apply list_elem_of_fmap. eauto.
Qed.

(** C11. Topology first: when a consumer set starts consuming, or the publisher gets
    its channel, every operation of a plan of that generation was accepted by the
    broker before; when topology is declared, those operations include the
    declaration of each queue consumed from. *)
Theorem topology_first s pre a post :
  reach s -> log (shared s) = pre ++ a :: post ->
  match a with
  | AConsume _ g _ qs =>
      exists plan, AReconciled g plan (operations plan) ∈ pre /\ tp_mode plan = v_topology_mode v /\
        (v_topology_mode v = ModeDeclare ->
         Forall (fun q => exists spec, q_name spec = q /\ DeclareQueue spec ∈ operations plan) qs)
  | APublisherReady g | APublisherSpawned g =>
      exists plan, AReconciled g plan (operations plan) ∈ pre /\ tp_mode plan = v_topology_mode v
  | _ => True
  end.
Proof.
  intros Hr%coordinator_reach_inv E. pose proof (so_log _ _ _ (iv_shared _ _ _ Hr) _ _ _ E) as Ha. destruct a; try done.
  destruct Ha as [(plan & [Hin Hm] & Hp) _]. exists plan. split; [done|]. split; [done|]. intros Hd.
  eapply Forall_impl; [apply Hp; by left|]. intros q Hq. by apply operations_declare; [congruence|].
Qed.

(** A consumer set is opened and started for a requested profile only, and
    consumes from exactly the queues the profile has on this broker, in order. *)
Theorem only_requested s p g :
  reach s ->
  (AOpenConsumer p g ∈ log (shared s) -> p ∈ requested_snapshot (shared s)) /\
  (forall id qs, AConsume p g id qs ∈ log (shared s) ->
    p ∈ requested_snapshot (shared s) /\
    exists w, worker_of v p (shared s) = Some w /\
      qs = su_queue <$> filter (fun c => su_broker c = broker_name) (w_subscriptions w)).
Proof.
  intros Hr%coordinator_reach_inv. destruct Hr as [Hs _ _ _]. split; [apply (so_opened _ _ _ Hs)|].
  intros id qs Hin. apply (so_consumed _ _ _ Hs) in Hin as (i & Hi & <- & _ & <-).
  destruct (so_sets _ _ _ Hs id i Hi) as (Hk & _ & w & d & Hw & Ed & Eq). split; [done|]. exists w. split; [done|].
  rewrite app_nil_r in Ed. rewrite Eq, <- Ed. clear. unfold own_subscriptions.
  generalize (w_subscriptions w) as l. intros l. change (imap pair l) with (imap (fun i c => ((0 + i)%nat, c)) l).
  generalize 0%nat as k. induction l as [|c l IH]; intros k; [done|]. rewrite imap_cons, !filter_cons. cbn.
  assert (imap ((fun i c0 => ((k + i)%nat, c0)) ∘ S) l = imap (fun i c => ((S k + i)%nat, c)) l) as ->
    by (apply imap_ext; intros; cbn; f_equal; lia).
  case_decide; rewrite ?fmap_cons, IH; done.
Qed.

(** A profile is never established twice: a second set of one profile and
    generation starts only after the first was closed, and while no establishment
    is under way the open set of a profile is the registered one. *)
Theorem never_established_twice s :
  reach s ->
  (forall pre p g id qs post id' qs', log (shared s) = pre ++ AConsume p g id qs :: post ->
    AConsume p g id' qs' ∈ pre -> ACloseSet id' ∈ pre) /\
  (establish_lock (locks (shared s)) = None ->
    forall id i, sets (shared s) !! id = Some i -> si_closed i = false ->
      consumers (shared s) !! si_profile i = Some id).
Proof.
  intros Hr%coordinator_reach_inv. destruct Hr as [Hs _ Hh Hl]. split.
  - intros pre p g id qs post id' qs' E. pose proof (so_log _ _ _ Hs _ _ _ E) as [_ Ha]. apply Ha.
  - intros E id i Hi Hc. destruct (Hl id i Hi Hc) as [?|[t Ht]]; [done|].
    apply pending_held in Ht. apply (Hh t) in Ht. congruence.
Qed.

(** ** Failures *)

(** The connection is up or being brought up. *)
Definition active (a : ConnectionActor.Actor) : Prop :=
  match ConnectionActor.phase a with
  | ConnectionActor.PReady | ConnectionActor.PConnecting _ _ | ConnectionActor.PRecovering _ _ _ => True
  | _ => False
  end.

Lemma lose_phase policy jitter e a :
  ConnectionActor.phase (ConnectionActor.lose policy jitter e a) <> ConnectionActor.PFailedPermanent <-> is_recoverable e = true.
Proof. unfold ConnectionActor.lose, ConnectionActor.route_loss. by destruct (is_recoverable e). Qed.

(** Reporting a failed recovery or establishment to the connection actor keeps
    its permanence: an unrecoverable transport cause, whichever error wraps it,
    fails the connection for good with the kind and message of the cause, and the
    coordinator hands them to the publisher; any other failure never does. *)
Theorem permanent_failures_stick policy jitter e context answer a a' s :
  active a -> is_Some (slot s) ->
  ConnectionActor.step policy jitter (ConnectionActor.ECommand (ConnectionActor.CConnectionLost (loss_error e context)) answer) a
    = Some a' ->
  match transport_cause e with
  | Some t =>
      if is_recoverable t then ConnectionActor.phase a' <> ConnectionActor.PFailedPermanent
      else ConnectionActor.phase a' = ConnectionActor.PFailedPermanent /\
           ConnectionActor.watch a' = FailedPermanent (te_kind t) (te_message t) /\
           (on_change (set_watch (ConnectionActor.watch a') true s)).1 =
             CoTell (PeFailedPermanent (last_generation s) (te_new (te_kind t) (te_message t)))
  | None => ConnectionActor.phase a' <> ConnectionActor.PFailedPermanent
  end.
Proof.
  intros Ha [x Hx] Hst. cbn in Hst. unfold ConnectionActor.on_command, active in *.
  assert (forall t, is_recoverable t = false -> loss_error e context = t ->
    a' = ConnectionActor.publish_permanent_failure t a \/
    a' = ConnectionActor.publish_permanent_failure t (ConnectionActor.close_connection (ConnectionActor.clear_connection_blocked a))) as Hp.
  { intros t Ht E. rewrite E in Hst. destruct (ConnectionActor.phase a); try done; cbn in Hst;
      unfold ConnectionActor.lose, ConnectionActor.route_loss in Hst; rewrite Ht in Hst; simplify_eq; auto. }
  assert (is_recoverable (loss_error e context) = true -> ConnectionActor.phase a' <> ConnectionActor.PFailedPermanent) as Hr.
  { intros E. destruct (ConnectionActor.phase a) eqn:Ep; try done; cbn in Hst; rewrite ?E in Hst; simplify_eq; cbn; try congruence.
    by apply lose_phase. }
  unfold loss_error in *. destruct (transport_cause e) as [t|]; [|by apply Hr].
  destruct (is_recoverable t) eqn:Et; [by apply Hr|].
  unfold on_change. destruct (Hp t Et eq_refl) as [-> | ->]; cbn; by rewrite Hx.
Qed.

(** ** Liveness *)

(** The answers a task can receive where it is. *)
Definition est_awaits (e : Est) (a : Answer) : bool :=
  match e, a with
  | EsOpen _ _ _, AnsOpen _ | EsTopology _ _, AnsOpen _ | EsApply _ _, AnsTopology _ | EsSpawn _, AnsSpawn _ => true
  | (EsRequested | EsLock | EsCheck | EsWait _ _ | EsInsert _ | EsClosing _), AnsNone => true
  | _, _ => false
  end.

Definition rec_awaits (r : Rec) (a : Answer) : bool :=
  match r, a with
  | RcOpen, AnsOpen _ | RcApply _, AnsTopology _ | RcReady, AnsReady _ => true
  | (RcWait _ | RcAdopt | RcInstall | RcProfiles _ _), AnsNone => true
  | RcEst _ _ _ e, _ => est_awaits e a
  | _, _ => false
  end.

Definition coord_awaits (c : Coord) (a : Answer) : bool :=
  match c, a with
  | CoRecover _ r, _ => rec_awaits r a
  | (CoReport _ | CoTell _ | CoClosing), AnsNone => true
  | _, _ => false
  end.

Definition call_awaits (k : Call) (a : Answer) : bool :=
  match k, a with
  | KEst _ _ e, _ => est_awaits e a
  | (KState _ | KLookup _ _ | KFetch _ | KReport _), AnsNone => true
  | _, _ => false
  end.

Definition awaits (s : State) (t : Tid) (a : Answer) : bool :=
  match t with
  | TCoord => coord_awaits (coord s) a
  | TCall i => match calls s !! i with Some k => call_awaits k a | None => false end
  end.

(** The task can step whatever it is answered. *)
Definition enabled (s : State) (t : Tid) : Prop :=
  (exists a, awaits s t a = true) /\ forall a, awaits s t a = true -> is_Some (step (EStep t a) s).

Lemma synthesized_weight p w c : synthesize_auto_profile v p = Ok w -> c ∈ w_subscriptions w -> su_weight c = 1.
Proof.
  unfold synthesize_auto_profile. destruct (strip_prefix _ p); [|done]. case_decide; [done|].
  destruct (v_brokers v) as [|b [|]]; try done. destruct (validate_worker _ _); [|done].
  intros [= <-] Hc%list_elem_of_singleton. by subst c.
Qed.

Definition weighted : Prop := forall w c, w ∈ v_workers v -> c ∈ w_subscriptions w -> 0 < su_weight c.

Lemma gathered_weight p subs x todo s :
  weighted -> shared_ok v broker_name s -> gathered v broker_name p subs (x :: todo) s -> 0 < su_weight x.2.
Proof.
  intros Hw Hs (_ & _ & w & d & Ew & Ed & _).
  assert (x.2 ∈ w_subscriptions w) as Hx.
  { eapply own_subscription. rewrite Ed. apply elem_of_app. right. by left. }
  unfold worker_of in Ew. destruct (worker v p) as [w'|] eqn:Ev.
  - simplify_eq. apply worker_name in Ev as [_ ?]. by eapply Hw.
  - apply requested_get_elem, (so_names _ _ _ Hs) in Ew as [_ [?|?]]; [by eapply Hw|].
    by erewrite synthesized_weight.
Qed.

(** Nobody else holds the lock the establishment is about to take. *)
Definition unlocked (e : Est) (l : Locks) : Prop :=
  match e with
  | EsLock => establish_lock l = None
  | EsCheck | EsInsert _ => consumers_lock l = None
  | EsWait _ _ => reconciler_lock l = None
  | _ => True
  end.

Lemma est_enabled t p g e a s :
  weighted -> shared_ok v broker_name s -> est_ok v broker_name p g e s -> unlocked e (locks s) -> est_awaits e a = true ->
  is_Some (est_step v broker_name connection_key t p g e a s).
Proof.
  intros Hw Hs Hok Hu Ha. destruct e, a; try done; cbn [est_step]; cbn in Hok, Hu; rewrite ?Hu; try done.
  - destruct todo as [|x todo]; [by destruct Hok|]. destruct x as [index c]. destruct ok; [|done].
    destruct Hok as (_ & Hg & _). pose proof (gathered_weight _ _ _ _ _ Hw Hs Hg) as Hpos. cbn in Hpos.
    unfold subscription_of, Scheduler.policy_new. assert (0 <? su_weight c = true) as -> by lia. done.
  - destruct (reconcile _ _ _ _) as [[r app] ops]. by destruct r.
Qed.

Lemma est_task_enabled s t p g e :
  weighted -> inv v broker_name s -> pos_of s t = PEst p g e -> unlocked e (locks (shared s)) -> enabled s t.
Proof.
  intros Hw Hi Et Hu. pose proof (iv_pos _ _ _ Hi t) as Hok. rewrite Et in Hok.
  assert (forall a, awaits s t a = est_awaits e a) as Ea.
  { intros a. destruct t as [|i]; cbn in Et |- *.
    - destruct (coord s) as [|g' []| | | |]; try done. by injection Et as <- <- <-.
    - destruct (calls s !! i) as [[]|]; try done. by injection Et as <- <- <-. }
  split.
  - enough (exists a, est_awaits e a = true) as [a Ha] by (exists a; by rewrite Ea).
    destruct e; first [by exists AnsNone|by exists (AnsOpen true)|by exists (AnsTopology (fun _ => Ok tt))|by exists (AnsSpawn (Ok tt))].
  - intros a Ha. rewrite Ea in Ha. destruct (est_enabled t p g e a (shared s)) as [[o sh] E]; [done|apply Hi|done..|].
    destruct t as [|i]; cbn in Et |- *.
    + destruct (coord s) as [|g' []| | | |]; try done. injection Et as -> -> ->. cbn. destruct a; rewrite E; cbn; by destruct o as [|[]].
    + destruct (calls s !! i) as [[]|]; try done. injection Et as -> -> ->. cbn. destruct a; rewrite E; cbn; by destruct o as [|[]].
Qed.

(** A task that is not establishing, when no lock is held. *)
Lemma free_task_enabled s t a :
  awaits s t a = true -> (forall p g e, pos_of s t <> PEst p g e) -> consumers_lock (locks (shared s)) = None ->
  reconciler_lock (locks (shared s)) = None -> enabled s t.
Proof.
  intros Ha Hp Hc Hr. split; [by exists a|]. clear a Ha. intros a Ha. destruct t as [|i]; cbn in *.
  - destruct (coord s) as [|g r|e|ev| |] eqn:Eco; try done; [|destruct a; try done; cbn; by rewrite ?Hc..].
    destruct r as [|plan|plan| | | |todo ex|todo ex p e]; try (by destruct (Hp _ _ _ eq_refl)); destruct a as [|ok|ch|re|sp]; try done; cbn.
    + by destruct ok.
    + by rewrite Hr.
    + destruct (reconcile _ _ _ _) as [[r app] ops]. by destruct r.
    + by destruct re.
    + by destruct todo, ex.
  - destruct (calls s !! i) as [k|]; [|done]. cbn. destruct k; try (by destruct (Hp _ _ _ eq_refl)); destruct a; try done; cbn; by rewrite ?Hc.
Qed.

(** C22. No deadlock: while a recovery or a call is under way some task can take its
    next step, whatever the broker and the actors answer it, so the three locks
    never block each other. *)
Theorem no_deadlock s t a :
  weighted -> reach s -> awaits s t a = true -> exists u, enabled s u.
Proof.
  intros Hw Hr%coordinator_reach_inv Ha. pose proof (iv_held _ _ _ Hr) as Hh.
  destruct (consumers_lock (locks (shared s))) as [u|] eqn:Ec.
  { exists u. pose proof (Hh u) as (_ & _ & [H _]). specialize (H Ec).
    destruct (pos_of s u) as [|p g e|g r] eqn:Eu; [done| |by destruct r]. destruct e; try done. by eapply est_task_enabled. }
  destruct (reconciler_lock (locks (shared s))) as [u|] eqn:Er.
  { exists u. pose proof (Hh u) as (_ & [H _] & _). specialize (H Er).
    destruct (pos_of s u) as [|p g e|g r] eqn:Eu; [done|destruct e; try done; by eapply est_task_enabled|].
    destruct r; try done. destruct u as [|i]; cbn in Eu; [|by destruct (calls s !! i) as [[]|]].
    destruct (coord s) as [|g' []| | | |] eqn:Eco; try done. split; cbn; rewrite Eco.
    - by exists (AnsTopology (fun _ => Ok tt)).
    - intros b. destruct b; try done. intros _. cbn. destruct (reconcile _ _ _ _) as [[r app] ops]. by destruct r. }
  destruct (establish_lock (locks (shared s))) as [u|] eqn:Ee.
  { exists u. pose proof (Hh u) as ([H _] & _ & _). specialize (H Ee).
    destruct (pos_of s u) as [|p g e|g r] eqn:Eu; [done| |by destruct r]. eapply est_task_enabled; [done..|]. by destruct e. }
  exists t. destruct (pos_of s t) as [|p g e|g r] eqn:Et.
  - eapply free_task_enabled; [done|by rewrite Et|done..].
  - eapply est_task_enabled; [done..|]. by destruct e.
  - eapply free_task_enabled; [done|by rewrite Et|done..].
Qed.

(** ** The registry *)

Lemma requested_insert_count p w l :
  synthesized_count v (requested_insert p w l) =
  if decide (p ∈ l.*1) then synthesized_count v l
  else synthesized_count v l + (if decide (worker v (w_name w) = None) then 1 else 0).
Proof.
  unfold requested_insert, synthesized_count. case_decide; [done|]. rewrite place_perm, filter_cons. cbn.
  case_decide; cbn [length]; lia.
Qed.

Lemma request_bound p l w l' :
  request v p l = Ok (w, l') -> synthesized_count v l <= MAX_SYNTHESIZED_PROFILES ->
  synthesized_count v l' <= MAX_SYNTHESIZED_PROFILES.
Proof.
  intros (<- & -> & Hc)%request_insert Hl. rewrite requested_insert_count. case_decide as Hin; [done|].
  destruct Hc as [Hc|(Hn & _ & [?|?])]; [rewrite Hc; case_decide; [done|lia]|done|]. rewrite decide_True by done. lia.
Qed.

(** The tasks only read the registry. *)
Ltac reads := repeat case_match; intros; simplify_eq; done.

Lemma est_requested t p g e a s out s' :
  est_step v broker_name connection_key t p g e a s = Some (out, s') -> requested s' = requested s.
Proof.
  destruct e as [| | |todo handle subs| | | | | |], a; try done; cbn [est_step]; unfold opened, leave; try (by reads).
  destruct todo as [|[index c] todo]; [done|]. destruct ok; [|by intros [= <- <-]].
  destruct (subscription_of _ _ _ _ _ _); [|done]. cbn. reads.
Qed.

Lemma rec_requested g r a s out s' :
  rec_step v broker_name connection_key confirm_timeout g r a s = Some (out, s') -> requested s' = requested s.
Proof.
  destruct r as [| | | | | |todo ex|todo ex p e]; cbn [rec_step]; try (destruct a; try done; by reads).
  destruct (est_step _ _ _ TCoord p g e a s) as [[o s1]|] eqn:E; [|by destruct a].
  apply est_requested in E as <-. destruct a; cbn; by intros [= _ <-].
Qed.

Lemma close_all_requested l s : requested (close_all l s) = requested s.
Proof. revert s. induction l as [|x l IH]; intros s; [done|]. exact (IH (close_set x.2 s)). Qed.

Lemma coord_requested c a s c' s' :
  coord_step v broker_name connection_key confirm_timeout c a s = Some (c', s') -> requested s' = requested s.
Proof.
  destruct c as [|g r| | | |]; cbn [coord_step]; try done; try (by destruct a; try done; reads).
  - destruct a; try done. unfold on_change. destruct (changed s); [|done]. cbn. reads.
  - destruct (rec_step _ _ _ _ g r a s) as [[o s1]|] eqn:E; [|done]. apply rec_requested in E as <-. cbn. reads.
  - destruct a; try done. destruct (consumers_lock (locks s)); [done|]. intros [= <- <-].
    exact (close_all_requested (map_to_list (consumers s)) s).
Qed.

Lemma call_requested t k a s k' s' :
  call_step v broker_name connection_key t k a s = Some (k', s') -> requested s' = requested s.
Proof.
  destruct k as [|p g|p g e| | | |]; cbn [call_step]; try (destruct a; try done; by reads).
  destruct (est_step _ _ _ t p g e a s) as [[o s1]|] eqn:E; [|by destruct a].
  apply est_requested in E as <-. destruct a; cbn; by intros [= _ <-].
Qed.

Lemma cancel_est_requested t e s : requested (cancel_est t e s) = requested s.
Proof. by destruct e. Qed.

(** The registry never holds more than 64 synthesized profiles, whatever is requested. *)
Theorem synthesized_bounded s : reach s -> synthesized_count v (requested (shared s)) <= MAX_SYNTHESIZED_PROFILES.
Proof.
  induction 1 as [|e s s' _ IH Hst]; [done|]. destruct e as [c|p|p|[|i] a|i|id|]; cbn [RecoveryCoordinator.step] in Hst.
  - by injection Hst as <-.
  - destruct (request v p (requested (shared s))) as [[w l]|] eqn:Er; [|done]. injection Hst as <-. by eapply request_bound.
  - by injection Hst as <-.
  - destruct (coord_step _ _ _ _ _ a (shared s)) as [[c sh]|] eqn:E; [|done]. injection Hst as <-. cbn.
    by apply coord_requested in E as ->.
  - destruct (calls s !! i) as [k|]; [|done]. cbn in Hst.
    destruct (call_step _ _ _ _ k a (shared s)) as [[k' sh]|] eqn:E; [|done]. injection Hst as <-. cbn.
    by apply call_requested in E as ->.
  - destruct (calls s !! i) as [k|]; [|done]. cbn in Hst.
    assert (requested (cancel_call (TCall i) k (shared s)) = requested (shared s)) as E by (destruct k; try done; apply cancel_est_requested).
    destruct k; simplify_eq; cbn [shared]; by rewrite E.
  - case_decide; [|done]. by injection Hst as <-.
  - destruct (coord s) as [|g r| | | |]; try done; cbn in Hst; injection Hst as <-; [done|]. cbn [shared].
    assert (requested (cancel_rec r (shared s)) = requested (shared s)) as -> by (destruct r; try done; apply cancel_est_requested). done.
Qed.

(** ** Keep-alive *)

Lemma verify_all_open qs : verify_all (replicate (length qs) true) qs = qs.
Proof. induction qs as [|q qs IH]; [done|]. cbn. by rewrite IH. Qed.

Lemma elem_of_push_new l ds d : d ∈ foldl push_new l ds <-> d ∈ l \/ d ∈ ds.
Proof.
  revert l. induction ds as [|x ds IH]; intros l; cbn; [set_solver|]. rewrite IH. unfold push_new. case_decide; set_solver.
Qed.

(** A keep-alive tick that opens its channels redeclares the bucket queue of
    every delayed release a consumer set of this coordinator can make, and of every
    route of this broker for every configured queue; ticks are at most half the
    expiry margin apart. *)
Theorem keep_alive_covers sha256 s ka d b q :
  reach s -> keep_alive_compile v = Some ka ->
  (exists id i x, sets (shared s) !! id = Some i /\ x ∈ si_subs i /\
     ConsumerActor.rt_destination (ConsumerActor.s_runtime x) = Some d) \/
  (exists r w c, r ∈ (v_routes v).*2 /\ ro_broker r = broker_name /\ w ∈ v_workers v /\ c ∈ w_subscriptions w /\
     su_broker c = broker_name /\ d = mkDestination (ro_exchange r) (replace_queue (ro_routing_key r) (su_queue c))) ->
  b ∈ buckets (ka_plan ka) -> queue_for sha256 (ka_plan ka) d b = Ok q ->
  (exists n, q ∈ tick v broker_name sha256 ka (replicate n true) (shared s)) /\
  (from_millis 2 <= expiry_margin (ka_plan ka) -> 2 * ka_period ka <= expiry_margin (ka_plan ka)).
Proof.
  intros Hr%coordinator_reach_inv Hka Hd Hb Hq. split.
  - eexists. unfold tick. rewrite verify_all_open. apply list_elem_of_bind. exists d. split.
    { apply list_elem_of_bind. exists b. split; [|done]. rewrite Hq. by left. }
    apply elem_of_push_new. destruct Hd as [(id & i & x & Hi & Hx & Ed)|(r & w & c & Hr' & Eb & Hw & Hc & Ebc & ->)].
    + left. destruct (so_sets _ _ _ (iv_shared _ _ _ Hr) id i Hi) as (Hk & Hdest & w & d' & Hw & Ed' & Eq).
      rewrite app_nil_r in Ed'. apply list_elem_of_bind. exists (si_profile i). split; [|exact Hk]. rewrite Hw.
      rewrite Forall_forall in Hdest. specialize (Hdest x Hx). unfold own_destination in Hdest. rewrite Ed in Hdest. subst d.
      assert (queue_of x ∈ queue_of <$> si_subs i) as Hqx by (apply list_elem_of_fmap; eauto).
      rewrite Eq, <- Ed' in Hqx. apply list_elem_of_fmap in Hqx as (y & -> & [Hy1 Hy2]%own_subscription).
      apply list_elem_of_fmap. exists y.2. split; [done|]. by apply list_elem_of_filter.
    + right. apply list_elem_of_bind. exists r. split; [|by apply list_elem_of_filter].
      apply list_elem_of_fmap. exists c. split; [done|]. apply list_elem_of_filter. split; [done|].
      apply list_elem_of_bind. by exists w.
  - unfold keep_alive_compile in Hka. destruct (strategy_compile (v_delay v)); [done|]. injection Hka as <-. cbn.
    unfold from_millis, NANOS_PER_MILLI. intros. pose proof (Z.mul_div_le (expiry_margin plan) 2). lia.
Qed.

End Theorems.

(** ** A run *)

Definition shop_with (mode : DelayMode) : ValidatedConfig :=
  mkValidated [ConfigValid.sample_broker "main" ConfigValid.sample_hosts]
    (ConfigValid.sample_workers [ConfigValid.sample_sub "high" "main"]) ModeDeclare
    [("default", mkRoute "main" "laravel.jobs" "{queue}")]
    (mkDelayConfig mode [from_secs 1; from_secs 5] 8 (from_secs 60)) None None
    (mkPublisherSection Safe true true (from_secs 30) (from_millis 1)) (mkConsumerSection (from_secs 30) (Some 20))
    Quorum true "".

Definition shop : ValidatedConfig := shop_with Ttl.

Definition accept (op : TopologyOp) : result unit TransportError := Ok tt.

(** The coordinator recovers a generation and establishes one profile. *)
Definition recover : list Event :=
  EStep TCoord <$> [AnsNone; AnsOpen true; AnsNone; AnsTopology accept; AnsNone; AnsNone; AnsNone; AnsNone; AnsNone;
    AnsNone; AnsOpen true; AnsNone; AnsSpawn (Ok tt); AnsNone; AnsNone; AnsNone].

Definition startup : list Event := [EState (Ready 1); ERequest "emails"] ++ recover.

Definition shop_state (es : list Event) : State := default init (run shop "main" 7 1000 es init).

(** The states of these runs are reached. *)
Lemma shop_reach es : bool_decide (is_Some (run shop "main" 7 1000 es init)) = true -> reach shop "main" 7 1000 (shop_state es).
Proof.
  intros [s E]%bool_decide_eq_true. unfold shop_state. rewrite E. eapply coordinator_run_reach; [apply reach_init|exact E].
Qed.

Definition shop_plan : TopologyPlan := from_config_and shop [].

Definition startup_log : list Action :=
  [AReconciled 1 shop_plan (operations shop_plan); APublisherSpawned 1; AOpenConsumer "emails" 1].

Lemma startup_actions :
  bool_decide (is_Some (run shop "main" 7 1000 startup init)) = true /\
  log (shared (shop_state startup)) = startup_log ++ [AConsume "emails" 1 0 ["jobs"]].
Proof. split; vm_compute; reflexivity. Qed.

Lemma topology_first_witness :
  exists plan, AReconciled 1 plan (operations plan) ∈ startup_log /\ tp_mode plan = ModeDeclare /\
    (ModeDeclare = ModeDeclare -> Forall (fun q => exists spec, q_name spec = q /\ DeclareQueue spec ∈ operations plan) ["jobs"]).
Proof.
  destruct startup_actions as [H1 H2].
  exact (topology_first shop "main" 7 1000 (shop_state startup) startup_log (AConsume "emails" 1 0 ["jobs"]) [] (shop_reach _ H1) H2).
Defined.

Lemma only_requested_witness :
  AConsume "emails" 1 0 ["jobs"] ∈ log (shared (shop_state startup)) /\ "emails" ∈ requested_snapshot (shared (shop_state startup)).
Proof.
  destruct startup_actions as [H1 H2].
  assert (AConsume "emails" 1 0 ["jobs"] ∈ log (shared (shop_state startup))) as Hin by (rewrite H2; apply elem_of_app; right; by left).
  split; [exact Hin|].
  exact (proj1 (proj2 (only_requested shop "main" 7 1000 (shop_state startup) "emails" 1 (shop_reach _ H1)) 0%nat ["jobs"] Hin)).
Defined.

(** The set is closed by its consumer and established again by a call. *)
Definition again : list Event :=
  [ECloseSet 0; ECall "emails"] ++
  (EStep (TCall 0) <$> [AnsNone; AnsNone; AnsNone; AnsNone; AnsNone; AnsOpen true; AnsNone; AnsSpawn (Ok tt); AnsNone; AnsNone; AnsNone]).

Definition again_log : list Action :=
  startup_log ++ [AConsume "emails" 1 0 ["jobs"]; ACloseSet 0; AOpenConsumer "emails" 1].

Lemma again_actions :
  bool_decide (is_Some (run shop "main" 7 1000 (startup ++ again) init)) = true /\
  log (shared (shop_state (startup ++ again))) = again_log ++ [AConsume "emails" 1 1 ["jobs"]; ACloseSet 0] /\
  calls (shop_state (startup ++ again)) = [KDone (Ok 1%nat)].
Proof. split; [vm_compute; reflexivity|]. split; vm_compute; reflexivity. Qed.

Lemma never_established_twice_witness :
  AConsume "emails" 1 0 ["jobs"] ∈ again_log /\ ACloseSet 0 ∈ again_log.
Proof.
  destruct again_actions as (H1 & H2 & _).
  assert (AConsume "emails" 1 0 ["jobs"] ∈ again_log) as Hin by (apply elem_of_app; right; by left).
  split; [exact Hin|].
  exact (proj1 (never_established_twice shop "main" 7 1000 (shop_state (startup ++ again)) (shop_reach _ H1))
    again_log "emails" 1 1%nat ["jobs"] [ACloseSet 0] 0%nat ["jobs"] H2 Hin).
Defined.

(** A refused [basic.consume]. *)
Definition refused : CoordinatorError :=
  CEConsumer (Delivery.ce_from_transport (te_new Authentication "ACCESS_REFUSED")).

Definition live_actor : ConnectionActor.Actor :=
  ConnectionActor.mkActor ConnectionActor.PReady (Some 0) 1 (Ready 1) 0 0 0 [Ready 1] [0] [] [].

Lemma permanent_failures_stick_witness :
  exists a', ConnectionActor.step recovery_policy_default (fun d => d)
    (ConnectionActor.ECommand (ConnectionActor.CConnectionLost (recovery_loss_error refused)) None) live_actor = Some a' /\
  ConnectionActor.watch a' = FailedPermanent Authentication "ACCESS_REFUSED".
Proof.
  eexists. split; [reflexivity|].
  refine (proj1 (proj2 (permanent_failures_stick recovery_policy_default (fun d => d) refused "recovery failed" None live_actor _
    (shared (shop_state startup)) I _ eq_refl))). vm_compute. by eexists.
Defined.

Lemma shop_weighted : weighted shop.
Proof. intros w c ->%list_elem_of_singleton ->%list_elem_of_singleton. done. Qed.

(** The coordinator holds the establish lock while a call waits for it. *)
Definition contended : list Event :=
  [EState (Ready 1); ERequest "emails"; ECall "emails"] ++ take 10 recover ++ (EStep (TCall 0) <$> [AnsNone; AnsNone; AnsNone]).

Lemma no_deadlock_witness :
  establish_lock (locks (shared (shop_state contended))) = Some TCoord /\
  calls (shop_state contended) = [KEst "emails" 1 EsLock] /\
  exists u, enabled shop "main" 7 1000 (shop_state contended) u.
Proof.
  assert (bool_decide (is_Some (run shop "main" 7 1000 contended init)) = true) as H1 by (vm_compute; reflexivity).
  split; [vm_compute; reflexivity|]. split; [vm_compute; reflexivity|].
  refine (no_deadlock shop "main" 7 1000 (shop_state contended) (TCall 0) AnsNone shop_weighted (shop_reach _ H1) _).
  vm_compute. reflexivity.
Defined.

Lemma synthesized_bounded_witness :
  synthesized_count shop (requested (shared (shop_state [ERequest "__auto__.mail"; ERequest "__auto__.mail"]))) = 1 /\
  synthesized_count shop (requested (shared (shop_state [ERequest "__auto__.mail"; ERequest "__auto__.mail"])))
    <= MAX_SYNTHESIZED_PROFILES.
Proof.
  split; [vm_compute; reflexivity|].
  refine (synthesized_bounded shop "main" 7 1000 (shop_state [ERequest "__auto__.mail"; ERequest "__auto__.mail"]) (shop_reach _ _)).
  vm_compute. reflexivity.
Defined.

Definition shop_keep_alive : DelayKeepAlive :=
  mkKeepAlive (mkTtlBucketPlan [from_secs 1; from_secs 5] (from_secs 60)) (from_secs 30).

Lemma keep_alive_covers_witness :
  exists q n, queue_for (fun s => s) (ka_plan shop_keep_alive) (mkDestination "laravel.jobs" "jobs") (from_secs 5) = Ok q /\
    q ∈ tick shop "main" (fun s => s) shop_keep_alive (replicate n true) (shared (shop_state startup)).
Proof.
  destruct startup_actions as [H1 H2]. eexists.
  refine (match proj1 (keep_alive_covers shop "main" 7 1000 (fun s => s) (shop_state startup) shop_keep_alive
    (mkDestination "laravel.jobs" "jobs") (from_secs 5) _ (shop_reach _ H1) _ _ _ eq_refl) with
    | ex_intro _ n H => ex_intro _ n (conj eq_refl H) end).
  - vm_compute. reflexivity.
  - right. exists (mkRoute "main" "laravel.jobs" "{queue}"), (mkWorker "emails" [ConfigValid.sample_sub "high" "main"] weighted_fair),
      (ConfigValid.sample_sub "high" "main"). repeat split; try (by left).
  - right. by left.
Defined.

(** ** Examples *)

(** A call that waited for the establish lock through a reconnection establishes the
    profile for the generation it read, and closes the newer generation's set. *)
Definition stale : list Event :=
  [EState (Ready 1); ERequest "emails"; ECall "emails"] ++ (EStep (TCall 0) <$> [AnsNone; AnsNone; AnsNone]) ++
  [EState (Ready 2)] ++ recover ++
  (EStep (TCall 0) <$> [AnsNone; AnsNone; AnsOpen true; AnsNone; AnsOpen true; AnsTopology accept; AnsSpawn (Ok tt); AnsNone; AnsNone; AnsNone]).

Example stale_call_replaces_newer_set :
  let s := shared (shop_state stale) in
  watch s = Ready 2 /\ calls (shop_state stale) = [KDone (Ok 1%nat)] /\ consumers s !! "emails" = Some 1%nat /\
  ((fun i => (si_generation i, si_closed i)) <$> sets s) = [(2, true); (1, false)].
Proof. cbv zeta. split; [|split; [|split]]; vm_compute; reflexivity. Qed.

(** The delayed release of a job goes to a bucket queue whose dead-letter exchange
    is named after the job's queue; the plan has no exchange of that name. *)
Example released_job_has_no_exchange :
  let s := shared (shop_state startup) in
  (sets s ≫= si_subs) ≫= (fun x => option_list (ConsumerActor.rt_destination (ConsumerActor.s_runtime x))) =
    [mkDestination "jobs" "jobs"] /\
  (exists q, queue_for (fun s => s) (ka_plan shop_keep_alive) (mkDestination "jobs" "jobs") (from_secs 5) = Ok q /\
     q_dead_letter_exchange q = Some "jobs") /\
  x_name <$> tp_exchanges shop_plan = ["laravel.jobs"].
Proof. cbv zeta. split; [vm_compute; reflexivity|]. split; [eexists; split; reflexivity|vm_compute; reflexivity]. Qed.

End RecoveryCoordinatorSystem.
