(* ===== verification/Composite.v ===== *)
(** * The composite consumer

    Models [consumer/composite.rs]: the handle that merges the consumer sets of
    several brokers into one consumer, and the receiving calls of the PHP
    [Consumer] on top of it ([classes/consumer.rs]).

    What the composite needs of a set is the class [Source]; the theorems are proved
    for every type of sources that has its laws, and [ConsumerSystem]'s handle is an
    instance. [taken] is the record of what a source handed out. *)

From S2P Require Import Prelude Transport Delivery Prefetch ConsumerActor ConsumerSystem.
Import Transport.
Local Open Scope Z_scope.
Local Open Scope rabbit_scope.

Module Composite.

Abbreviation ConsumerError := Delivery.ConsumerError.

(** ** Sources *)

(** The calls of a [ConsumerSetHandle] the composite makes. *)
Class Source (S D : Type) := {
  src_try_next : S -> result (option D) ConsumerError * S;
  src_try_next_batch : Z -> S -> result (list D) ConsumerError * S;
  src_next : S -> option (result D ConsumerError * S);
  src_is_closed : S -> bool;
  src_generation : S -> Z;
  src_close : S -> S;
  taken : S -> list D
}.

(** What the composite relies on. *)
Class SourceLaws (S D : Type) `{Source S D} := {
  try_next_taken : forall s, taken (src_try_next s).2 =
    taken s ++ match (src_try_next s).1 with Ok (Some d) => [d] | _ => [] end;
  try_next_batch_taken : forall max s, taken (src_try_next_batch max s).2 =
    taken s ++ match (src_try_next_batch max s).1 with Ok l => l | Err _ => [] end;
  try_next_batch_size : forall max s l, (src_try_next_batch max s).1 = Ok l ->
    Z.of_nat (length l) <= Prefetch.clamp max 1 256;
  next_taken : forall s r s', src_next s = Some (r, s') -> taken s' = taken s ++ match r with Ok d => [d] | Err _ => [] end;
  closed_try_next : forall s, src_is_closed s = true -> src_try_next s = (Err Delivery.closed, s);
  closed_try_next_batch : forall max s, src_is_closed s = true -> src_try_next_batch max s = (Err Delivery.closed, s);
  closed_next : forall s, src_is_closed s = true -> src_next s = Some (Err Delivery.closed, s);
  close_closes : forall s, src_is_closed (src_close s) = true;
  close_taken : forall s, taken (src_close s) = taken s
}.

(** ** State *)

Inductive Note := Retired (index : nat) | Signalled.

(** [notes] records the retirements that push a signal and the signals returned. *)
Record Composite (S : Type) := mkComposite {
  sources : list S;
  retired : list bool;
  round_robin : Z;
  pending_error : option ConsumerError;
  pending_signal : option ConsumerError;
  closed_by_caller : bool;
  notes : list Note
}.
Arguments mkComposite {S}.
Arguments sources {S}.
Arguments retired {S}.
Arguments round_robin {S}.
Arguments pending_error {S}.
Arguments pending_signal {S}.
Arguments closed_by_caller {S}.
Arguments notes {S}.

Section Composite.
Context {S D : Type} `{Source S D}.
Implicit Type c : Composite S.

Definition set_source (index : nat) (x : S) c : Composite S :=
  mkComposite (<[index := x]> (sources c)) (retired c) (round_robin c) (pending_error c) (pending_signal c)
    (closed_by_caller c) (notes c).
Definition set_pending_error (e : option ConsumerError) c : Composite S :=
  mkComposite (sources c) (retired c) (round_robin c) e (pending_signal c) (closed_by_caller c) (notes c).
Definition set_pending_signal (e : option ConsumerError) (n : list Note) c : Composite S :=
  mkComposite (sources c) (retired c) (round_robin c) (pending_error c) e (closed_by_caller c) n.

Definition from_sources (l : list S) : Composite S :=
  mkComposite l ((fun _ => false) <$> l) 0 None None false [].

Definition generation c : Z := match sources c with x :: _ => src_generation x | [] => 1 end.

Definition source_generations c : list Z := src_generation <$> sources c.

Definition is_closed c : bool := closed_by_caller c || forallb src_is_closed (sources c).

(** ** Rotation and retirement *)

(** [fetch_add] wraps. *)
Definition rotation c : option (list nat) * Composite S :=
  match length (sources c) with
  | O => (None, c)
  | len =>
      let start := (round_robin c) mod (Z.of_nat len) in
      (Some ((fun offset => Z.to_nat ((start + Z.of_nat offset) mod Z.of_nat len)) <$> seq 0 len),
       mkComposite (sources c) (retired c) ((round_robin c + 1) mod (U64_MAX + 1)) (pending_error c) (pending_signal c)
         (closed_by_caller c) (notes c))
  end.

Definition is_retired (index : nat) c : bool := default true (retired c !! index).

Definition all_retired c : bool := forallb id (retired c).

Definition replaced : ConsumerError :=
  Delivery.ce_new Delivery.CSourceReplaced "broker source replaced by recovery; re-fetch consumer".

Definition retire (index : nat) c : Composite S :=
  if is_retired index c then c
  else
    let c := mkComposite (sources c) (<[index := true]> (retired c)) (round_robin c) (pending_error c) (pending_signal c)
               (closed_by_caller c) (notes c) in
    if all_retired c || closed_by_caller c then c
    else set_pending_signal (Some (default replaced (pending_signal c))) (notes c ++ [Retired index]) c.

Definition take_pending c : option ConsumerError * Composite S :=
  match pending_signal c with
  | Some e => (Some e, set_pending_signal None (notes c ++ [Signalled]) c)
  | None => (pending_error c, set_pending_error None c)
  end.

(** An error of a source closes it for good. *)
Definition closes (e : ConsumerError) : bool := bool_decide (Delivery.ce_kind e = Delivery.CClosed).

(** ** [try_next] *)

(** The scan; [None] when every source was passed over. *)
Fixpoint scan (indices : list nat) c : option (result (nat * D) ConsumerError) * Composite S :=
  match indices with
  | [] => (None, c)
  | index :: rest =>
      if is_retired index c then scan rest c
      else
        match sources c !! index with
        | None => scan rest c
        | Some x =>
            let '(r, x) := src_try_next x in
            let c := set_source index x c in
            match r with
            | Ok (Some d) => (Some (Ok (index, d)), c)
            | Ok None => scan rest c
            | Err e => if closes e then scan rest (retire index c) else (Some (Err e), c)
            end
        end
  end.

(** After an empty scan. *)
Definition nothing {A} (empty : A) c : result A ConsumerError * Composite S :=
  if all_retired c then (Err Delivery.closed, c)
  else
    let '(e, c) := take_pending c in
    (match e with Some e => Err e | None => Ok empty end, c).

(** Several sources. *)
Definition merged_try_next c : result (option (nat * D)) ConsumerError * Composite S :=
  match rotation c with
  | (None, c) => (Err Delivery.closed, c)
  | (Some indices, c) =>
      match scan indices c with
      | (Some (Ok d), c) => (Ok (Some d), c)
      | (Some (Err e), c) => (Err e, c)
      | (None, c) => nothing None c
      end
  end.

Definition try_next c : result (option (nat * D)) ConsumerError * Composite S :=
  match sources c with
  | [x] =>
      let '(r, x) := src_try_next x in
      (match r with Ok d => Ok (pair 0%nat <$> d) | Err e => Err e end, set_source 0 x c)
  | _ => merged_try_next c
  end.

(** ** [try_next_batch] *)

(** The scan: the batch, or the error that found it empty. *)
Fixpoint batch_scan (max : Z) (indices : list nat) (batch : list (nat * D)) c
  : result (list (nat * D)) ConsumerError * Composite S :=
  match indices with
  | [] => (Ok batch, c)
  | index :: rest =>
      if max <=? Z.of_nat (length batch) then (Ok batch, c)
      else if is_retired index c then batch_scan max rest batch c
      else
        match sources c !! index with
        | None => batch_scan max rest batch c
        | Some x =>
            let '(r, x) := src_try_next_batch (max - Z.of_nat (length batch)) x in
            let c := set_source index x c in
            match r with
            | Ok part => batch_scan max rest (batch ++ (pair index <$> part)) c
            | Err e =>
                if closes e then batch_scan max rest batch (retire index c)
                else if bool_decide (batch = []) then (Err e, c)
                else (Ok batch, set_pending_error (Some e) c)
            end
        end
  end.

Definition merged_batch (max : Z) c : result (list (nat * D)) ConsumerError * Composite S :=
  match rotation c with
  | (None, c) => (Err Delivery.closed, c)
  | (Some indices, c) =>
      match batch_scan (Prefetch.clamp max 1 256) indices [] c with
      | (Err e, c) => (Err e, c)
      | (Ok [], c) => nothing [] c
      | (Ok batch, c) => (Ok batch, c)
      end
  end.

Definition try_next_batch (max : Z) c : result (list (nat * D)) ConsumerError * Composite S :=
  match sources c with
  | [x] =>
      let '(r, x) := src_try_next_batch max x in
      (match r with Ok l => Ok (pair 0%nat <$> l) | Err e => Err e end, set_source 0 x c)
  | _ => merged_batch max c
  end.

(** ** [next] *)

(** The futures of the sources in [waiting] complete in the order [order]; the
    result is [None] while the call waits. *)
Fixpoint await (order waiting : list nat) c : option (result (nat * D) ConsumerError) * Composite S :=
  match waiting with
  | [] =>
      if all_retired c then (Some (Err Delivery.closed), c)
      else let '(e, c) := take_pending c in (Some (Err (default Delivery.closed e)), c)
  | _ =>
      match order with
      | [] => (None, c)
      | index :: order' =>
          match guard (index ∈ waiting) ≫= fun _ => sources c !! index ≫= src_next with
          | None => (None, c)
          | Some (r, x) =>
              let c := set_source index x c in
              match r with
              | Ok d => (Some (Ok (index, d)), c)
              | Err e =>
                  if closes e then
                    let c := retire index c in
                    let waiting := filter (fun i => i <> index) waiting in
                    if all_retired c then await order' waiting c
                    else
                      match take_pending c with
                      | (Some e, c) => (Some (Err e), c)
                      | (None, c) => await order' waiting c
                      end
                  else (Some (Err e), c)
              end
          end
      end
  end.

Definition merged_next (order : list nat) c : option (result (nat * D) ConsumerError) * Composite S :=
  match rotation c with
  | (None, c) => (Some (Err Delivery.closed), c)
  | (Some indices, c) => await order (filter (fun i => is_retired i c = false) indices) c
  end.

Definition next (order : list nat) c : option (result (nat * D) ConsumerError) * Composite S :=
  match sources c with
  | [x] =>
      match src_next x with
      | Some (r, x) => (Some (match r with Ok d => Ok (0%nat, d) | Err e => Err e end), set_source 0 x c)
      | None => (None, c)
      end
  | _ => merged_next order c
  end.

(** ** [close] *)

Definition close c : Composite S :=
  mkComposite (src_close <$> sources c) (retired c) (round_robin c) None None true (notes c).

(** What [close] returns: the first error of the sets' closes; [None] when the
    total budget elapsed before all of them answered. *)
Definition close_result (results : option (list (result unit ConsumerError))) : result unit ConsumerError :=
  match results with
  | None => Ok tt
  | Some l => default (Ok tt) (list_find (fun r => is_ok r = false) l ≫= fun found => Some found.2)
  end.

(** ** The system *)

(** A call of the embedder, or something a source did by itself. *)
Inductive Event :=
| ETryNext
| ETryNextBatch (max : Z)
| ENext (order : list nat)
| EClose
| ESource (index : nat) (x : S).

Definition deliveries (e : Event) c : list (nat * D) * Composite S :=
  match e with
  | ETryNext => let '(r, c) := try_next c in (match r with Ok (Some d) => [d] | _ => [] end, c)
  | ETryNextBatch max => let '(r, c) := try_next_batch max c in (match r with Ok l => l | _ => [] end, c)
  | ENext order => let '(r, c) := next order c in (match r with Some (Ok d) => [d] | _ => [] end, c)
  | EClose => ([], close c)
  | ESource index x => ([], set_source index x c)
  end.

(** A source moves on its own without handing anything out, and stays closed. *)
Definition allowed (e : Event) c : Prop :=
  match e with
  | ESource index x =>
      exists x0, sources c !! index = Some x0 /\ taken x = taken x0 /\ (src_is_closed x0 = true -> src_is_closed x = true)
  | _ => True
  end.

(** [handed] are the deliveries the embedder got, in order. *)
Inductive reach (l : list S) : list (nat * D) -> Composite S -> Prop :=
| reach_start : reach l [] (from_sources l)
| reach_event e handed c :
    reach l handed c -> allowed e c -> reach l (handed ++ (deliveries e c).1) (deliveries e c).2.

(** ** The PHP [Consumer] *)

Inductive PhpFailure := ValueError (message : string) | RabbitException (message : string) | ConsumerException (e : ConsumerError).

(** [process] is the process that uses the object. *)
Record PhpConsumer := mkConsumer { handle : Composite S; pid : Z; process : Z; php_closed : bool }.

Definition on_handle (c : Composite S) (p : PhpConsumer) : PhpConsumer := mkConsumer c (pid p) (process p) (php_closed p).

Definition MAX_TIMEOUT_MS : Z := 86400000.

Definition validate_timeout_ms (timeout : Z) : result unit PhpFailure :=
  if MAX_TIMEOUT_MS <? timeout then Err (ValueError "timeoutMs: exceeds the 86400000 millisecond limit") else Ok tt.

Definition ensure_open (operation : string) (p : PhpConsumer) : result unit PhpFailure :=
  if negb (pid p =? process p) then Err (RabbitException (operation +:+ " cannot use a consumer inherited across fork"))
  else if php_closed p then Err (RabbitException (operation +:+ " cannot use a closed consumer"))
  else Ok tt.

(** What the sources did by themselves meanwhile. *)
Definition moves (f : nat -> S -> S) c : Composite S :=
  mkComposite (imap f (sources c)) (retired c) (round_robin c) (pending_error c) (pending_signal c) (closed_by_caller c)
    (notes c).

(** While the thread waits the sources do [during]; then those in [order] resolve
    before the timeout. [flushed] is what the flush of the publish buffer answered. *)
Definition await_delivery (timeout : Z) (during : nat -> S -> S) (order : list nat) (p : PhpConsumer)
  : result (option (nat * D)) PhpFailure * PhpConsumer :=
  if timeout <? 0 then (Err (RabbitException "timeoutMs must be a non-negative integer"), p)
  else
    let '(r, c) := next order (moves during (handle p)) in
    (match r with
     | Some (Ok d) => Ok (Some d)
     | Some (Err e) => Err (ConsumerException e)
     | None => Ok None
     end, on_handle c p).

Definition php_next (timeout : Z) (during : nat -> S -> S) (order : list nat) (flushed : result unit PhpFailure) (p : PhpConsumer)
  : result (option (nat * D)) PhpFailure * PhpConsumer :=
  match (let? _ := validate_timeout_ms timeout in
         let? _ := ensure_open "Goopil\RabbitRs\Consumer::next" p in flushed) with
  | Err e => (Err e, p)
  | Ok _ =>
      let '(r, c) := try_next (handle p) in
      match r with
      | Err e => (Err (ConsumerException e), on_handle c p)
      | Ok (Some d) => (Ok (Some d), on_handle c p)
      | Ok None => await_delivery timeout during order (on_handle c p)
      end
  end.

Definition php_try_next (flushed : result unit PhpFailure) (p : PhpConsumer)
  : result (option (nat * D)) PhpFailure * PhpConsumer :=
  match (let? _ := ensure_open "Goopil\RabbitRs\Consumer::tryNext" p in flushed) with
  | Err e => (Err e, p)
  | Ok _ =>
      let '(r, c) := try_next (handle p) in
      (match r with Ok o => Ok o | Err e => Err (ConsumerException e) end, on_handle c p)
  end.

(** What else is available after a delivery was awaited; the sources did [after]. *)
Definition drain_more (max : Z) (after : nat -> S -> S) (d : nat * D) (p : PhpConsumer) : result (list (nat * D)) PhpFailure * PhpConsumer :=
  if 1 <? max then
    let '(r, c) := try_next_batch (sat_sub max 1) (moves after (handle p)) in
    (match r with Ok more => Ok (d :: more) | Err e => Err (ConsumerException e) end, on_handle c p)
  else (Ok [d], p).

Definition php_next_batch (max timeout : Z) (during after : nat -> S -> S) (order : list nat) (flushed : result unit PhpFailure) (p : PhpConsumer)
  : result (list (nat * D)) PhpFailure * PhpConsumer :=
  match (let? _ := validate_timeout_ms timeout in
         let? _ := ensure_open "Goopil\RabbitRs\Consumer::nextBatch" p in
         let? _ := flushed in
         if max <? 0 then Err (RabbitException "max must be a non-negative integer") else Ok tt) with
  | Err e => (Err e, p)
  | Ok _ =>
      let '(r, c) := try_next_batch max (handle p) in
      let p := on_handle c p in
      match r with
      | Err e => (Err (ConsumerException e), p)
      | Ok (d :: l) => (Ok (d :: l), p)
      | Ok [] =>
          let '(r, p) := await_delivery timeout during order p in
          match r with
          | Err e => (Err e, p)
          | Ok None => (Ok [], p)
          | Ok (Some d) => drain_more max after d p
          end
      end
  end.

Definition php_close (results : option (list (result unit ConsumerError))) (p : PhpConsumer) : result unit PhpFailure * PhpConsumer :=
  if negb (pid p =? process p) then (Err (RabbitException "cannot close a consumer inherited across fork"), p)
  else if php_closed p then (Ok tt, p)
  else
    (match close_result results with Ok _ => Ok tt | Err e => Err (RabbitException (Delivery.ce_message e)) end,
     mkConsumer (close (handle p)) (pid p) (process p) true).

(** [__destruct]: the result of the close is dropped. *)
Definition php_destruct (p : PhpConsumer) : PhpConsumer :=
  if negb (pid p =? process p) || php_closed p then p
  else mkConsumer (close (handle p)) (pid p) (process p) true.

End Composite.

End Composite.
