(* ===== verification/CompositeSystem.v ===== *)
(** * The composite consumer: theorems

    No delivery is lost, invented, reordered or attributed to the wrong source;
    a batch is bounded; each replaced source is signalled once; no source starves
    another; a consumer whose sources are closed says so. [ConsumerSystem]'s handle
    satisfies the laws the theorems assume of a source. *)

From S2P Require Import Prelude Transport Delivery Prefetch ConsumerActor ConsumerSystem Composite.
Import Transport Composite.
Local Open Scope Z_scope.
Local Open Scope rabbit_scope.

Module CompositeSystem.

Section Laws.
Context {S D : Type} `{SourceLaws S D}.
Implicit Types (c : Composite S) (x : S) (ds : list (nat * D)).

(** ** What a call takes from the sources *)

(** The deliveries of one source. *)
Definition of_source (i : nat) ds : list D := snd <$> filter (fun d => d.1 = i) ds.

Lemma of_source_app i ds ds' : of_source i (ds ++ ds') = of_source i ds ++ of_source i ds'.
Proof. unfold of_source. by rewrite filter_app, fmap_app. Qed.

Lemma of_source_pair i j (l : list D) : of_source i (pair j <$> l) = if decide (j = i) then l else [].
Proof.
  unfold of_source. induction l as [|d l IH]; [by case_decide|]. rewrite fmap_cons, filter_cons. cbn.
  case_decide; rewrite ?fmap_cons, IH; done.
Qed.

(** [c'] follows [c] with exactly [ds] taken from its sources. *)
Definition gives c ds c' : Prop :=
  length (sources c') = length (sources c) /\ length (retired c') = length (retired c) /\
  forall i x, sources c !! i = Some x -> exists x', sources c' !! i = Some x' /\ taken x' = taken x ++ of_source i ds.

Lemma gives_same c c' : sources c' = sources c -> length (retired c') = length (retired c) -> gives c [] c'.
Proof. intros E1 E2. split; [by rewrite E1|]. split; [done|]. intros i x Hx. exists x. rewrite E1. by rewrite app_nil_r. Qed.

Lemma gives_trans c1 c2 c3 ds ds' : gives c1 ds c2 -> gives c2 ds' c3 -> gives c1 (ds ++ ds') c3.
Proof.
  intros (L1 & M1 & H1) (L2 & M2 & H2). split; [congruence|]. split; [congruence|]. intros i x (x2 & E2 & T2)%H1.
  apply H2 in E2 as (x3 & E3 & T3). exists x3. split; [done|]. by rewrite T3, T2, of_source_app, app_assoc.
Qed.

Lemma gives_source c i x x' (l : list D) :
  sources c !! i = Some x -> taken x' = taken x ++ l -> gives c (pair i <$> l) (set_source i x' c).
Proof.
  intros Hx Ht. split; [apply length_insert|]. split; [done|]. intros j y Hy. cbn.
  destruct (decide (i = j)) as [<-|Hne].
  - exists x'. simplify_eq. split; [apply list_lookup_insert_eq; by eapply lookup_lt_Some|].
    by rewrite of_source_pair, decide_True.
  - exists y. split; [by rewrite list_lookup_insert_ne|]. by rewrite of_source_pair, decide_False, app_nil_r.
Qed.

Lemma gives_retire i c : gives c [] (retire i c).
Proof.
  unfold retire. destruct (is_retired i c); [by apply gives_same|].
  destruct (_ || _)%bool; apply gives_same; try done; cbn; apply length_insert.
Qed.

Lemma gives_take c : gives c [] (take_pending c).2.
Proof. unfold take_pending. by destruct (pending_signal c); apply gives_same. Qed.

Lemma gives_nothing {A} (e : A) c : gives c [] (nothing e c).2.
Proof.
  unfold nothing. destruct (all_retired c); [by apply gives_same|]. pose proof (gives_take c).
  by destruct (take_pending c) as [[] ?].
Qed.

Lemma gives_rotation c : gives c [] (rotation c).2.
Proof. unfold rotation. by destruct (length (sources c)); apply gives_same. Qed.

Lemma scan_gives l c : gives c (match (scan l c).1 with Some (Ok d) => [d] | _ => [] end) (scan l c).2.
Proof.
  revert c. induction l as [|i l IH]; intros c; cbn [scan]; [by apply gives_same|].
  destruct (is_retired i c); [apply IH|]. destruct (sources c !! i) as [x|] eqn:Hx; [|apply IH].
  pose proof (try_next_taken x) as Ht. destruct (src_try_next x) as [r x']. cbn in Ht.
  assert (forall p, taken x' = taken x ++ p -> gives c (pair i <$> p) (set_source i x' c)) as Hg by (intros; by eapply gives_source).
  destruct r as [[d|]|e]; [exact (Hg [d] Ht)|exact (gives_trans _ _ _ [] _ (Hg [] Ht) (IH _))|].
  destruct (closes e); [|exact (Hg [] Ht)].
  refine (gives_trans _ _ _ [] _ (Hg [] Ht) (gives_trans _ _ _ [] _ (gives_retire i _) (IH _))).
Qed.

Lemma batch_scan_gives max l batch c :
  match (batch_scan max l batch c).1 with
  | Ok b => exists a, b = batch ++ a /\ gives c a (batch_scan max l batch c).2
  | Err _ => batch = [] /\ gives c [] (batch_scan max l batch c).2
  end.
Proof.
  revert batch c. induction l as [|i l IH]; intros batch c; cbn [batch_scan].
  { exists []. rewrite app_nil_r. split; [done|by apply gives_same]. }
  assert (exists a, batch = batch ++ a /\ gives c a c) as Hstop by (exists []; rewrite app_nil_r; split; [done|by apply gives_same]).
  destruct (max <=? _); [done|]. destruct (is_retired i c); [apply IH|]. destruct (sources c !! i) as [x|] eqn:Hx; [|apply IH].
  pose proof (try_next_batch_taken (max - Z.of_nat (length batch)) x) as Ht.
  destruct (src_try_next_batch _ x) as [r x']. cbn in Ht.
  assert (forall p, taken x' = taken x ++ p -> gives c (pair i <$> p) (set_source i x' c)) as Hg by (intros; by eapply gives_source).
  destruct r as [part|e].
  - specialize (Hg part Ht). specialize (IH (batch ++ (pair i <$> part)) (set_source i x' c)).
    destruct (batch_scan _ _ _ _) as [[b|e] c'].
    + destruct IH as (a & -> & Ha). eexists. rewrite <- app_assoc. split; [done|]. by eapply gives_trans.
    + destruct IH as [E Ha]. apply app_eq_nil in E as [-> E]. split; [done|]. rewrite E in Hg. by apply (gives_trans _ _ _ [] []  Hg).
  - specialize (Hg [] Ht). destruct (closes e).
    + specialize (IH batch (retire i (set_source i x' c))). pose proof (gives_trans _ _ _ [] [] Hg (gives_retire i _)) as Hg2.
      destruct (batch_scan _ _ _ _) as [[b|e'] c'].
      * destruct IH as (a & -> & Ha). exists a. split; [done|]. exact (gives_trans _ _ _ [] a Hg2 Ha).
      * destruct IH as [-> Ha]. split; [done|]. exact (gives_trans _ _ _ [] [] Hg2 Ha).
    + case_bool_decide; [done|]. exists []. rewrite app_nil_r. split; [done|]. exact Hg.
Qed.

Lemma await_gives order waiting c :
  gives c (match (await order waiting c).1 with Some (Ok d) => [d] | _ => [] end) (await order waiting c).2.
Proof.
  revert waiting c. induction order as [|i order IH]; intros waiting c; cbn [await];
    (destruct waiting as [|w ws]; [destruct (all_retired c); [by apply gives_same|]; pose proof (gives_take c); by destruct (take_pending c)|]).
  { by apply gives_same. }
  destruct (guard _ ≫= _) as [[r x']|] eqn:E; [|by apply gives_same].
  apply bind_Some in E as (_ & _ & (x & Hx & E)%bind_Some).
  apply next_taken in E as Ht.
  assert (forall p, taken x' = taken x ++ p -> gives c (pair i <$> p) (set_source i x' c)) as Hg by (intros; by eapply gives_source).
  destruct r as [d|e]; [exact (Hg [d] Ht)|]. specialize (Hg [] Ht). destruct (closes e); [|exact Hg].
  pose proof (gives_trans _ _ _ [] [] Hg (gives_retire i _)) as Hg2. set (c2 := retire i (set_source i x' c)) in *.
  destruct (all_retired c2); [exact (gives_trans _ _ _ [] _ Hg2 (IH _ _))|].
  pose proof (gives_take c2) as Hg3. destruct (take_pending c2) as [[e'|] c3]; cbn in *.
  - exact (gives_trans _ _ _ [] [] Hg2 Hg3).
  - exact (gives_trans _ _ _ [] _ (gives_trans _ _ _ [] [] Hg2 Hg3) (IH _ _)).
Qed.

Lemma merged_try_next_gives c :
  gives c (match (merged_try_next c).1 with Ok (Some d) => [d] | _ => [] end) (merged_try_next c).2.
Proof.
  unfold merged_try_next. pose proof (gives_rotation c) as Hr. destruct (rotation c) as [[l|] c1]; [|done]. cbn in Hr.
  pose proof (scan_gives l c1) as Hs. pose proof (gives_trans _ _ _ _ _ Hr Hs) as Hg.
  destruct (scan l c1) as [[[d|e]|] c2]; [done|done|]. cbn in Hg.
  pose proof (gives_trans _ _ _ _ _ Hg (gives_nothing (@None (nat * D)) c2)) as Hn. unfold nothing in *.
  destruct (all_retired c2); [done|]. by destruct (take_pending c2) as [[] ?].
Qed.

Lemma merged_batch_gives max c :
  gives c (match (merged_batch max c).1 with Ok l => l | _ => [] end) (merged_batch max c).2.
Proof.
  unfold merged_batch. pose proof (gives_rotation c) as Hr. destruct (rotation c) as [[l|] c1]; [|done]. cbn in Hr.
  pose proof (batch_scan_gives (Prefetch.clamp max 1 256) l [] c1) as Hs.
  destruct (batch_scan _ l [] c1) as [[b|e] c2]; cbn in Hs.
  - destruct Hs as (a & -> & Hs). cbn. pose proof (gives_trans _ _ _ _ _ Hr Hs) as Hg. destruct a as [|d a]; [|done].
    pose proof (gives_trans _ _ _ _ _ Hg (gives_nothing (@nil (nat * D)) c2)) as Hn. unfold nothing in *.
    destruct (all_retired c2); [done|]. by destruct (take_pending c2) as [[] ?].
  - exact (gives_trans _ _ _ _ _ Hr (proj2 Hs)).
Qed.

Lemma merged_next_gives order c :
  gives c (match (merged_next order c).1 with Some (Ok d) => [d] | _ => [] end) (merged_next order c).2.
Proof.
  unfold merged_next. pose proof (gives_rotation c) as Hr. destruct (rotation c) as [[l|] c1]; [|done]. cbn in Hr.
  exact (gives_trans _ _ _ [] _ Hr (await_gives _ _ _)).
Qed.

(** What the embedder gets of an event is what was taken. *)
Lemma event_gives e c : allowed e c -> gives c (deliveries e c).1 (deliveries e c).2.
Proof.
  destruct e as [|max|order| |i x]; cbn [allowed deliveries]; intros Ha.
  - pose proof (merged_try_next_gives c) as Hm. unfold try_next. destruct (sources c) as [|x [|]] eqn:Es;
      [by destruct (merged_try_next c)| |by destruct (merged_try_next c)].
    pose proof (try_next_taken x) as Ht. destruct (src_try_next x) as [r x']. cbn in *.
    assert (sources c !! 0%nat = Some x) as Hx by by rewrite Es.
    destruct r as [[d|]|e]; [exact (gives_source c 0 x x' [d] Hx Ht)|exact (gives_source c 0 x x' [] Hx Ht)..].
  - pose proof (merged_batch_gives max c) as Hm. unfold try_next_batch. destruct (sources c) as [|x [|]] eqn:Es;
      [by destruct (merged_batch max c)| |by destruct (merged_batch max c)].
    pose proof (try_next_batch_taken max x) as Ht. destruct (src_try_next_batch max x) as [r x']. cbn in *.
    assert (sources c !! 0%nat = Some x) as Hx by by rewrite Es.
    destruct r as [l|e]; [exact (gives_source c 0 x x' l Hx Ht)|exact (gives_source c 0 x x' [] Hx Ht)].
  - pose proof (merged_next_gives order c) as Hm. unfold next. destruct (sources c) as [|x [|]] eqn:Es;
      [by destruct (merged_next order c)| |by destruct (merged_next order c)].
    destruct (src_next x) as [[r x']|] eqn:En; [|by apply gives_same]. apply next_taken in En.
    assert (sources c !! 0%nat = Some x) as Hx by by rewrite Es.
    destruct r as [d|e]; [exact (gives_source c 0 x x' [d] Hx En)|exact (gives_source c 0 x x' [] Hx En)].
  - split; [apply length_fmap|]. split; [done|]. intros i x Hx. exists (src_close x). cbn. rewrite list_lookup_fmap, Hx.
    split; [done|]. by rewrite close_taken, app_nil_r.
  - destruct Ha as (x0 & Hx & Ht & _). cbn. apply (gives_source c i x0 x [] Hx). by rewrite app_nil_r.
Qed.

(** C12. The composite neither loses nor invents deliveries: what the embedder got
    from a source, in the order it got it, is what the source handed out since the
    composite was made; no delivery is attributed to another source. *)
Theorem deliveries_conserved l handed c i x0 :
  reach l handed c -> l !! i = Some x0 ->
  exists x, sources c !! i = Some x /\ taken x = taken x0 ++ of_source i handed.
Proof.
  intros Hr Hl. induction Hr as [|e handed c Hr IH Ha].
  - exists x0. by rewrite app_nil_r.
  - destruct IH as (x & Hx & Ht). destruct (event_gives e c Ha) as (_ & _ & Hg). apply Hg in Hx as (x' & Hx' & Ht').
    exists x'. split; [done|]. by rewrite Ht', Ht, of_source_app, app_assoc.
Qed.

Lemma clamp_range v : Prefetch.clamp v 1 256 = Z.max 1 (Z.min v 256).
Proof. unfold Prefetch.clamp. repeat case_match; zbool; lia. Qed.

Lemma batch_scan_size max l batch c b c' :
  1 <= max <= 256 -> Z.of_nat (length batch) <= max -> batch_scan max l batch c = (Ok b, c') -> Z.of_nat (length b) <= max.
Proof.
  intros Hm. revert batch c. induction l as [|i l IH]; intros batch c Hb; cbn [batch_scan]; [by intros [= <- <-]|].
  destruct (max <=? Z.of_nat (length batch)) eqn:El; [by intros [= <- <-]|]. apply Z.leb_gt in El.
  destruct (is_retired i c); [by apply IH|]. destruct (sources c !! i) as [x|]; [|by apply IH].
  pose proof (try_next_batch_size (max - Z.of_nat (length batch)) x) as Hs.
  destruct (src_try_next_batch _ x) as [[part|e] x']; cbn in Hs.
  - apply IH. rewrite length_app, length_fmap. specialize (Hs part eq_refl). rewrite clamp_range in Hs. lia.
  - destruct (closes e); [by apply IH|]. case_bool_decide; [done|]. by intros [= <- <-].
Qed.

(** A batch holds at most the requested number of deliveries, which is clamped
    to 256. *)
Theorem batch_bounded max c l c' :
  try_next_batch max c = (Ok l, c') -> Z.of_nat (length l) <= Prefetch.clamp max 1 256.
Proof.
  assert (1 <= Prefetch.clamp max 1 256 <= 256) as Hc by (rewrite clamp_range; lia).
  assert (merged_batch max c = (Ok l, c') -> Z.of_nat (length l) <= Prefetch.clamp max 1 256) as Hm.
  { unfold merged_batch. destruct (rotation c) as [[idx|] c1]; [|done].
    destruct (batch_scan _ idx [] c1) as [[[|d b]|e] c2] eqn:E; [|intros [= <- <-]|done].
    - unfold nothing. destruct (all_retired c2); [done|]. destruct (take_pending c2) as [[] ?]; [done|]. intros [= <- <-]. cbn. lia.
    - eapply batch_scan_size; [done| |exact E]. cbn. lia. }
  unfold try_next_batch. destruct (sources c) as [|x [|]]; [done| |done].
  pose proof (try_next_batch_size max x) as Hs. destruct (src_try_next_batch max x) as [[part|e] x']; [|done].
  intros [= <- <-]. rewrite length_fmap. by apply Hs.
Qed.

(** ** Replacement signals *)

(** Whether a retirement waits for its signal; [None] if a signal had no cause. *)
Definition unread (l : list Note) : option bool :=
  foldl (fun b n => match n, b with
                    | Retired _, Some _ => Some true
                    | Signalled, Some true => Some false
                    | _, _ => None
                    end) (Some false) l.

Definition noted (l : list Note) : list nat := l ≫= fun n => match n with Retired i => [i] | Signalled => [] end.

Record signals_ok c : Prop := {
  sg_length : length (retired c) = length (sources c);
  sg_unread : closed_by_caller c = false ->
    unread (notes c) = Some (bool_decide (is_Some (pending_signal c))) /\
    (forall e, pending_signal c = Some e -> e = replaced);
  sg_closed : closed_by_caller c = true -> pending_signal c = None;
  sg_nodup : NoDup (noted (notes c));
  sg_noted : forall i, i ∈ noted (notes c) -> retired c !! i = Some true;
  sg_retired : forall i, closed_by_caller c = false -> all_retired c = false -> retired c !! i = Some true -> i ∈ noted (notes c)
}.

Lemma unread_snoc l n : unread (l ++ [n]) = match n, unread l with
  | Retired _, Some _ => Some true | Signalled, Some true => Some false | _, _ => None end.
Proof. unfold unread. by rewrite foldl_app. Qed.

Lemma noted_snoc l n : noted (l ++ [n]) = noted l ++ match n with Retired i => [i] | Signalled => [] end.
Proof. unfold noted. rewrite bind_app. cbn. by rewrite app_nil_r. Qed.

Lemma signals_retire i c : signals_ok c -> signals_ok (retire i c).
Proof.
  intros [H1 H2 H3 H4 H5 H6]. unfold retire, is_retired. destruct (retired c !! i) as [b|] eqn:Ei; [|done]. destruct b; [done|]. cbn.
  assert (i < length (retired c))%nat as Hlt by by eapply lookup_lt_Some.
  assert (forall j, j ∈ noted (notes c) -> <[i:=true]> (retired c) !! j = Some true) as H5'.
  { intros j Hj. destruct (decide (i = j)) as [<-|]; [by apply list_lookup_insert_eq|]. rewrite list_lookup_insert_ne by done. by apply H5. }
  destruct (_ || _)%bool eqn:Eb.
  - split; cbn; rewrite ?length_insert; try done. intros j Hc Ha. unfold all_retired in *. cbn in *. by rewrite Hc, Ha in Eb.
  - apply orb_false_iff in Eb as [Ea Ec]. cbn in Ec. destruct (H2 Ec) as [Hu Hp]. split; cbn; rewrite ?length_insert; try done.
    + intros _. rewrite unread_snoc, Hu. split; [by destruct (pending_signal c)|]. intros e [= <-].
      destruct (pending_signal c) eqn:Es; [by apply Hp|done].
    + congruence.
    + rewrite noted_snoc. apply NoDup_app. split; [done|]. split; [|apply NoDup_singleton].
      intros j Hj ->%list_elem_of_singleton. apply H5 in Hj. congruence.
    + intros j. rewrite noted_snoc, elem_of_app, list_elem_of_singleton. intros [?| ->]; [by apply H5'|by apply list_lookup_insert_eq].
    + intros j _ _ Hj. rewrite noted_snoc, elem_of_app, list_elem_of_singleton. destruct (decide (j = i)) as [->|Hne]; [by right|left].
      rewrite list_lookup_insert_ne in Hj by done. apply H6; [done| |done].
      apply not_true_is_false. intros Hall. unfold all_retired in Hall. rewrite forallb_forall in Hall.
      specialize (Hall false). cbn in Hall. discriminate Hall. apply list_elem_of_In. by eapply list_elem_of_lookup_2.
Qed.

Lemma signals_source i x c : signals_ok c -> signals_ok (set_source i x c).
Proof. intros [H1 H2 H3 H4 H5 H6]. split; cbn; try done. by rewrite length_insert. Qed.

Lemma signals_error e c : signals_ok c -> signals_ok (set_pending_error e c).
Proof. by intros [H1 H2 H3 H4 H5 H6]. Qed.

Lemma signals_rotation c : signals_ok c -> signals_ok (rotation c).2.
Proof. intros [H1 H2 H3 H4 H5 H6]. unfold rotation. destruct (length (sources c)) eqn:E; split; cbn; try done; congruence. Qed.

Lemma signals_take c : signals_ok c -> signals_ok (take_pending c).2.
Proof.
  intros [H1 H2 H3 H4 H5 H6]. unfold take_pending. destruct (pending_signal c) as [e|] eqn:Es; [|by split; cbn; rewrite ?Es].
  destruct (closed_by_caller c) eqn:Ec; [by specialize (H3 eq_refl)|]. destruct (H2 eq_refl) as [Hu _].
  split; cbn; rewrite ?Ec; try done.
  - intros _. rewrite unread_snoc, Hu. by rewrite bool_decide_eq_true_2 by done.
  - rewrite noted_snoc, app_nil_r. done.
  - rewrite noted_snoc, app_nil_r. done.
  - rewrite noted_snoc, app_nil_r. done.
Qed.

Lemma signals_nothing {A} (e : A) c : signals_ok c -> signals_ok (nothing e c).2.
Proof.
  intros Hs. unfold nothing. destruct (all_retired c); [done|]. apply signals_take in Hs. by destruct (take_pending c) as [[] ?].
Qed.

#[local] Hint Resolve signals_retire signals_source signals_error signals_rotation signals_take : core.

Lemma signals_scan l c : signals_ok c -> signals_ok (scan l c).2.
Proof.
  revert c. induction l as [|i l IH]; intros c Hs; cbn [scan]; [done|]. destruct (is_retired i c); [auto|].
  destruct (sources c !! i) as [x|]; [|auto]. destruct (src_try_next x) as [[[d|]|e] x']; [cbn; auto..|].
  destruct (closes e); cbn; auto.
Qed.

Lemma signals_batch max l batch c : signals_ok c -> signals_ok (batch_scan max l batch c).2.
Proof.
  revert batch c. induction l as [|i l IH]; intros batch c Hs; cbn [batch_scan]; [done|]. destruct (max <=? _); [done|].
  destruct (is_retired i c); [auto|]. destruct (sources c !! i) as [x|]; [|auto].
  destruct (src_try_next_batch _ x) as [[part|e] x']; [auto|]. destruct (closes e); [auto|]. case_bool_decide; cbn; auto.
Qed.

Lemma signals_await order waiting c : signals_ok c -> signals_ok (await order waiting c).2.
Proof.
  revert waiting c. induction order as [|i order IH]; intros waiting c Hs; cbn [await];
    (destruct waiting as [|w ws]; [destruct (all_retired c); [done|]; apply signals_take in Hs; by destruct (take_pending c)|]); [done|].
  destruct (guard _ ≫= _) as [[[d|e] x]|]; [cbn; auto| |done]. destruct (closes e); [|cbn; auto].
  assert (signals_ok (retire i (set_source i x c))) as Hs2 by auto. set (c2 := retire i (set_source i x c)) in *.
  destruct (all_retired c2); [auto|]. apply signals_take in Hs2. destruct (take_pending c2) as [[e'|] c3]; auto.
Qed.

Lemma signals_event e c : signals_ok c -> signals_ok (deliveries e c).2.
Proof.
  intros Hs. assert (signals_ok (rotation c).2) as Hr by auto. destruct e as [|max|order| |i x]; cbn [deliveries].
  - enough (signals_ok (merged_try_next c).2) as Hm.
    { unfold try_next. destruct (sources c) as [|x [|]]; [by destruct (merged_try_next c)| |by destruct (merged_try_next c)].
      destruct (src_try_next x). cbn. auto. }
    unfold merged_try_next. destruct (rotation c) as [[l|] c1]; [|done]. cbn in Hr. apply (signals_scan l) in Hr.
    destruct (scan l c1) as [[[]|] c2]; [done|done|by apply signals_nothing].
  - enough (signals_ok (merged_batch max c).2) as Hm.
    { unfold try_next_batch. destruct (sources c) as [|x [|]]; [by destruct (merged_batch max c)| |by destruct (merged_batch max c)].
      destruct (src_try_next_batch max x). cbn. auto. }
    unfold merged_batch. destruct (rotation c) as [[l|] c1]; [|done]. cbn in Hr. apply (signals_batch (Prefetch.clamp max 1 256) l []) in Hr.
    destruct (batch_scan _ l [] c1) as [[[|]|] c2]; [by apply signals_nothing|done|done].
  - enough (signals_ok (merged_next order c).2) as Hm.
    { unfold next. destruct (sources c) as [|x [|]]; [by destruct (merged_next order c)| |by destruct (merged_next order c)].
      destruct (src_next x) as [[]|]; cbn; auto. }
    unfold merged_next. destruct (rotation c) as [[l|] c1]; [|done]. by apply signals_await.
  - destruct Hs as [H1 H2 H3 H4 H5 H6]. split; cbn; try done. by rewrite length_fmap.
  - cbn. auto.
Qed.

Lemma reach_length l handed c : reach l handed c -> length (sources c) = length l.
Proof. induction 1 as [|e handed c Hr IH Ha]; [done|]. by destruct (event_gives e c Ha) as (-> & _ & _). Qed.

Lemma reach_signals l handed c : reach l handed c -> signals_ok c.
Proof.
  induction 1 as [|e handed c Hr IH Ha]; [|by apply signals_event]. split; cbn; try done.
  - apply length_fmap.
  - constructor.
  - by intros i ?%elem_of_nil.
  - intros i _ _ Hi. rewrite list_lookup_fmap in Hi. by apply fmap_Some_1 in Hi as (? & _ & ?).
Qed.

Lemma nothing_signals {A} (e : A) c c' : signals_ok c -> closed_by_caller c = false -> nothing e c = (Ok e, c') -> unread (notes c') = Some false.
Proof.
  intros Hs Hc. unfold nothing. destruct (all_retired c); [done|]. unfold take_pending.
  destruct (sg_unread _ Hs Hc) as [Hu _]. destruct (pending_signal c); [done|]. destruct (pending_error c); [done|].
  by intros [= <-].
Qed.

Lemma closed_kept_scan l c : closed_by_caller (scan l c).2 = closed_by_caller c.
Proof.
  revert c. induction l as [|i l IH]; intros c; cbn [scan]; [done|]. destruct (is_retired i c); [auto|].
  destruct (sources c !! i) as [x|]; [|auto]. destruct (src_try_next x) as [[[d|]|e] x']; [done|by rewrite IH|].
  destruct (closes e); [|done]. rewrite IH. unfold retire. by repeat case_match.
Qed.

(** A replaced source is signalled once: until the owner closes the consumer,
    each source is noted when it is retired while others remain, each re-fetch
    signal follows a retirement that was not signalled yet, the signal that waits is
    the one of the retirements not signalled, and a poll that reports nothing leaves
    none waiting. *)
Theorem replacement_signalled l handed c :
  reach l handed c -> closed_by_caller c = false -> (2 <= length l)%nat ->
  NoDup (noted (notes c)) /\
  (forall i, i ∈ noted (notes c) -> retired c !! i = Some true) /\
  (forall i, all_retired c = false -> retired c !! i = Some true -> i ∈ noted (notes c)) /\
  (exists b, unread (notes c) = Some b /\ pending_signal c = if b : bool then Some replaced else None) /\
  (forall c', try_next c = (Ok None, c') -> unread (notes c') = Some false).
Proof.
  intros Hr Hc Hl. pose proof (reach_signals _ _ _ Hr) as Hs. destruct Hs as [H1 H2 H3 H4 H5 H6] eqn:E0. clear E0.
  split; [done|]. split; [done|]. split; [by auto|]. destruct (H2 Hc) as [Hu Hp]. split.
  - eexists. split; [exact Hu|]. destruct (pending_signal c) as [e|]; [|done]. by rewrite (Hp e eq_refl).
  - intros c' Ht.
    pose proof (reach_length _ _ _ Hr) as Hlen.
    unfold try_next in Ht. destruct (sources c) as [|x [|y ys]] eqn:Es; [cbn in Hlen; lia..|].
    unfold merged_try_next in Ht. assert (signals_ok (rotation c).2) as Hs1 by auto.
    assert (closed_by_caller (rotation c).2 = false) as Hc1 by (unfold rotation; by destruct (length (sources c))).
    destruct (rotation c) as [[idx|] c1]; [|done]. pose proof (signals_scan idx c1 Hs1) as Hs2.
    pose proof (closed_kept_scan idx c1) as Hc2. destruct (scan idx c1) as [[[|]|] c2]; [done|done|].
    eapply nothing_signals; [exact Hs2|by rewrite Hc2|exact Ht].
Qed.

(** ** Fairness *)

(** Polls with the sources moving in between; source [i] stays in the rotation and
    has a delivery ready at each of them. *)
Inductive polls (i : nat) : nat -> Composite S -> list (result (option (nat * D)) ConsumerError) -> Prop :=
| polls_none c : polls i 0 c []
| polls_more n c c' c1 r x d outs :
    sources c !! i = Some x -> (src_try_next x).1 = Ok (Some d) -> is_retired i c = false ->
    try_next c = (r, c') ->
    length (sources c1) = length (sources c') -> round_robin c1 = round_robin c' ->
    polls i n c1 outs -> polls i (Datatypes.S n) c (r :: outs).

Lemma round_robin_retire i c : round_robin (retire i c) = round_robin c.
Proof. unfold retire. by repeat case_match. Qed.

Lemma round_robin_scan l c : round_robin (scan l c).2 = round_robin c.
Proof.
  revert c. induction l as [|i l IH]; intros c; cbn [scan]; [done|]. destruct (is_retired i c); [auto|].
  destruct (sources c !! i) as [x|]; [|auto]. destruct (src_try_next x) as [[[d|]|e] x']; [done|by rewrite IH|].
  destruct (closes e); [|done]. by rewrite IH, round_robin_retire.
Qed.

Lemma round_robin_nothing {A} (e : A) c : round_robin (nothing e c).2 = round_robin c.
Proof. unfold nothing, take_pending. repeat case_match; simplify_eq; done. Qed.

(** A poll of several sources advances the rotation by one. *)
Lemma try_next_advances c :
  (2 <= length (sources c))%nat ->
  round_robin (try_next c).2 = (round_robin c + 1) mod (U64_MAX + 1) /\ length (sources (try_next c).2) = length (sources c).
Proof.
  intros Hl. pose proof (merged_try_next_gives c) as (Hlen & _ & _).
  assert (try_next c = merged_try_next c) as -> by (unfold try_next; destruct (sources c) as [|x [|]]; cbn in Hl; [lia|lia|done]).
  split; [|done]. unfold merged_try_next, rotation. destruct (length (sources c)) as [|n] eqn:E; [lia|].
  match goal with |- context [scan ?l ?c1] => pose proof (round_robin_scan l c1) as Hr; destruct (scan l c1) as [[[|]|] c2] end; [done|done|].
  by rewrite round_robin_nothing.
Qed.

(** The source the rotation starts with is served when it is ready. *)
Lemma first_served c x d i :
  (2 <= length (sources c))%nat -> sources c !! i = Some x -> (src_try_next x).1 = Ok (Some d) -> is_retired i c = false ->
  round_robin c mod Z.of_nat (length (sources c)) = Z.of_nat i -> (try_next c).1 = Ok (Some (i, d)).
Proof.
  intros Hl Hx Hd Hi Hs.
  assert (try_next c = merged_try_next c) as -> by (unfold try_next; destruct (sources c) as [|y [|]]; cbn in Hl; [lia|lia|done]).
  assert (i < length (sources c))%nat as Hlt by by eapply lookup_lt_Some.
  unfold merged_try_next, rotation. destruct (length (sources c)) as [|n] eqn:E; [lia|]. cbn [seq fmap list_fmap scan].
  rewrite Hs, Z.add_0_r, Z.mod_small, Nat2Z.id by lia. unfold is_retired in *. cbn [retired sources]. rewrite Hi, Hx.
  destruct (src_try_next x) as [r x']. cbn in Hd. by rewrite Hd.
Qed.

(** No broker starves another: among as many successive polls as there are
    sources, whatever the sources do in between, one hands out a delivery of a source
    that has one ready throughout (the rotation counter not wrapping meanwhile). *)
Theorem no_source_starves i n c outs :
  polls i n c outs -> n = length (sources c) -> (2 <= n)%nat -> 0 <= round_robin c -> round_robin c + Z.of_nat n <= U64_MAX ->
  exists d, Ok (Some (i, d)) ∈ outs.
Proof.
  intros Hp Hn Htwo Hge Hmax. assert (i < n)%nat as Hi by (destruct Hp; [lia|]; rewrite Hn; by eapply lookup_lt_Some).
  set (k := Z.to_nat ((Z.of_nat i - round_robin c) mod Z.of_nat n)).
  assert ((round_robin c + Z.of_nat k) mod Z.of_nat n = Z.of_nat i) as Hk.
  { unfold k. rewrite Z2Nat.id by (apply Z.mod_pos_bound; lia). rewrite Zplus_mod_idemp_r.
    replace (round_robin c + (Z.of_nat i - round_robin c)) with (Z.of_nat i) by lia. apply Z.mod_small. lia. }
  assert (k < n)%nat as Hkn by (unfold k; pose proof (Z.mod_pos_bound (Z.of_nat i - round_robin c) (Z.of_nat n)); lia).
  assert (round_robin c + Z.of_nat k < U64_MAX) as Hlt by lia. rewrite Hn in Hk, Htwo. clearbody k.
  clear Hn Hi Hmax. revert k Hk Hkn Hge Hlt Htwo. induction Hp as [|n c c' c1 r x d outs Hx Hd Hr Ht Hl Hrr Hp IH]; [lia|].
  intros [|k] Hk Hkn Hge Hlt Htwo.
  - rewrite Z.add_0_r in Hk. exists d. pose proof (first_served c x d i Htwo Hx Hd Hr Hk) as E. rewrite Ht in E. cbn in E. subst r. by left.
  - pose proof (try_next_advances c Htwo) as [Ea El]. rewrite Ht in Ea, El. cbn in Ea, El. rewrite Z.mod_small in Ea by lia.
    destruct (IH k) as [d' Hd']; [rewrite Hrr, Ea, Hl, El, <- Hk; f_equal; lia|lia|lia|lia|lia|]. exists d'. by right.
Qed.

(** ** Closed sources *)

Definition sources_closed c : Prop := Forall (fun x => src_is_closed x = true) (sources c).

Lemma set_same i x c : sources c !! i = Some x -> set_source i x c = c.
Proof. intros Hx. unfold set_source. rewrite list_insert_id by done. by destruct c. Qed.

Lemma sources_retire i c : sources (retire i c) = sources c.
Proof. unfold retire. by repeat case_match. Qed.

Lemma is_retired_retire i j c :
  (i < length (retired c))%nat -> is_retired j (retire i c) = (if decide (j = i) then true else is_retired j c).
Proof.
  intros Hi. unfold retire. destruct (is_retired i c) eqn:E; [case_decide; by subst|].
  assert (default true (<[i:=true]> (retired c) !! j) = if decide (j = i) then true else is_retired j c) as Hj.
  { case_decide; [subst; by rewrite list_lookup_insert_eq|by rewrite list_lookup_insert_ne]. }
  destruct (_ || _)%bool; exact Hj.
Qed.

Lemma length_retire i c : length (retired (retire i c)) = length (retired c).
Proof. unfold retire. repeat case_match; try done; cbn; apply length_insert. Qed.

Lemma closed_closes : closes Delivery.closed = true.
Proof. done. Qed.

(** A scan of closed sources retires them. *)
Lemma scan_closed l c :
  sources_closed c -> length (retired c) = length (sources c) ->
  (scan l c).1 = None /\ length (retired (scan l c).2) = length (retired c) /\
  forall i, is_retired i c = true \/ i ∈ l -> is_retired i (scan l c).2 = true.
Proof.
  revert c. induction l as [|j l IH]; intros c Hc Hlen; cbn [scan].
  { split; [done|]. split; [done|]. intros i [?|?%elem_of_nil]; done. }
  destruct (is_retired j c) eqn:Ej.
  { destruct (IH c Hc Hlen) as (E1 & E2 & E3). split; [done|]. split; [done|]. intros i [?|[->|?]%elem_of_cons]; auto. }
  destruct (sources c !! j) as [x|] eqn:Ex.
  - assert (src_is_closed x = true) as Hx by (eapply Forall_lookup_1 in Hc; eauto).
    rewrite (closed_try_next x Hx), closed_closes, (set_same j x c Ex).
    assert (j < length (retired c))%nat as Hlt by (rewrite Hlen; by eapply lookup_lt_Some).
    destruct (IH (retire j c)) as (E1 & E2 & E3).
    + unfold sources_closed. by rewrite sources_retire.
    + by rewrite length_retire, sources_retire.
    + split; [done|]. split; [by rewrite E2, length_retire|]. intros i Hi. apply E3. rewrite is_retired_retire by done.
      case_decide; [by left|]. destruct Hi as [?|[?|?]%elem_of_cons]; [by left|done|by right].
  - destruct (retired c !! j) eqn:Er; [apply lookup_lt_Some in Er; apply lookup_ge_None in Ex; lia|].
    unfold is_retired in Ej. by rewrite Er in Ej.
Qed.

Lemma batch_scan_closed max l c :
  1 <= max -> sources_closed c -> length (retired c) = length (sources c) ->
  batch_scan max l [] c = (Ok [], (scan l c).2).
Proof.
  intros Hm. revert c. induction l as [|j l IH]; intros c Hc Hlen; cbn [scan batch_scan]; [done|].
  assert (max <=? Z.of_nat (length (@nil (nat * D))) = false) as -> by (apply Z.leb_gt; simpl length; lia). destruct (is_retired j c); [by apply IH|].
  destruct (sources c !! j) as [x|] eqn:Ex; [|by apply IH].
  assert (src_is_closed x = true) as Hx by (eapply Forall_lookup_1 in Hc; eauto).
  rewrite (closed_try_next x Hx), closed_try_next_batch, closed_closes, (set_same j x c Ex) by done. apply IH.
  - unfold sources_closed. by rewrite sources_retire.
  - by rewrite length_retire, sources_retire.
Qed.

Lemma rotation_covers c :
  sources c <> [] -> exists l c1, rotation c = (Some l, c1) /\ (forall i, (i < length (sources c))%nat -> i ∈ l) /\
    sources c1 = sources c /\ retired c1 = retired c.
Proof.
  intros Hne. unfold rotation. destruct (length (sources c)) as [|n] eqn:E; [by apply nil_length_inv in E|].
  eexists _, _. split; [done|]. split; [|done]. intros i Hi. apply list_elem_of_fmap.
  exists (Z.to_nat ((Z.of_nat i - round_robin c) mod Z.of_nat (Datatypes.S n))).
  pose proof (Z.mod_pos_bound (Z.of_nat i - round_robin c) (Z.of_nat (Datatypes.S n)) ltac:(lia)) as Hb. split.
  - rewrite Z2Nat.id, Zplus_mod_idemp_l, Zplus_mod_idemp_r by lia.
    replace (round_robin c + (Z.of_nat i - round_robin c)) with (Z.of_nat i) by lia. by rewrite Z.mod_small, Nat2Z.id by lia.
  - apply elem_of_seq. lia.
Qed.

Lemma all_retired_of c : (forall i, (i < length (retired c))%nat -> is_retired i c = true) -> all_retired c = true.
Proof.
  intros Ha. apply forallb_forall. intros b Hb%list_elem_of_In. apply list_elem_of_lookup in Hb as [i Hi].
  pose proof (Ha i (lookup_lt_Some _ _ _ Hi)) as E. unfold is_retired in E. by rewrite Hi in E.
Qed.

Lemma await_closed order waiting c d :
  sources_closed c -> (await order waiting c).1 <> Some (Ok d).
Proof.
  revert waiting c. induction order as [|i order IH]; intros waiting c Hc; cbn [await];
    (destruct waiting as [|w ws]; [destruct (all_retired c); [done|]; by destruct (take_pending c)|]); [done|].
  destruct (guard _ ≫= _) as [[r x']|] eqn:E; [|done]. apply bind_Some in E as (_ & _ & (x & Hx & E)%bind_Some).
  assert (src_is_closed x = true) as Hcl by (eapply Forall_lookup_1 in Hc; eauto).
  rewrite closed_next in E by done. injection E as <- <-. rewrite closed_closes, (set_same i x c Hx).
  destruct (all_retired (retire i c)); [apply IH; unfold sources_closed; by rewrite sources_retire|].
  destruct (take_pending (retire i c)) as [[e|] c3] eqn:Et; [done|]. apply IH. unfold take_pending in Et.
  destruct (pending_signal (retire i c)); simplify_eq. unfold sources_closed. cbn. by rewrite sources_retire.
Qed.

(** Once every source is closed the consumer reports it: polls and batches fail
    with the closed error, and a wait never hands out a delivery. *)
Theorem closed_consumer_fails l handed c max order d :
  reach l handed c -> l <> [] -> sources_closed c ->
  (try_next c).1 = Err Delivery.closed /\ (try_next_batch max c).1 = Err Delivery.closed /\
  (next order c).1 <> Some (Ok d).
Proof.
  intros Hr Hl Hc. pose proof (reach_length _ _ _ Hr) as Hlen. pose proof (sg_length _ (reach_signals _ _ _ Hr)) as Hret.
  assert (sources c <> []) as Hne by (intros E; rewrite E in Hlen; by destruct l).
  destruct (rotation_covers c Hne) as (idx & c1 & Erot & Hcov & Es & Er).
  assert (sources_closed c1) as Hc1 by (unfold sources_closed; by rewrite Es).
  destruct (scan_closed idx c1 Hc1) as (E1 & E2 & E3); [by rewrite Er, Es|].
  assert (all_retired (scan idx c1).2 = true) as Hall.
  { apply all_retired_of. intros i Hi. apply E3. right. apply Hcov. by rewrite E2, Er, Hret in Hi. }
  assert ((merged_try_next c).1 = Err Delivery.closed) as Hm1.
  { unfold merged_try_next. rewrite Erot. destruct (scan idx c1) as [[|] c2]; [done|]. unfold nothing. cbn in Hall. by rewrite Hall. }
  assert ((merged_batch max c).1 = Err Delivery.closed) as Hm2.
  { unfold merged_batch. rewrite Erot, batch_scan_closed; [|rewrite clamp_range; lia|done|by rewrite Er, Es].
    unfold nothing. by rewrite Hall. }
  assert ((merged_next order c).1 <> Some (Ok d)) as Hm3 by (unfold merged_next; rewrite Erot; by apply await_closed).
  unfold try_next, try_next_batch, next. unfold sources_closed in Hc. destruct (sources c) as [|x [|]]; [done| |done].
  apply Forall_cons_1 in Hc as [Hc _]. split; [|split]; [by rewrite (closed_try_next x Hc)|by rewrite (closed_try_next_batch max x Hc)|by rewrite (closed_next x Hc)].
Qed.

(** ** The PHP consumer *)

Lemma try_next_gives c : gives c (match (try_next c).1 with Ok (Some d) => [d] | _ => [] end) (try_next c).2.
Proof. pose proof (event_gives ETryNext c I) as Hg. cbn in Hg. by destruct (try_next c). Qed.

Lemma try_next_batch_gives max c : gives c (match (try_next_batch max c).1 with Ok l => l | _ => [] end) (try_next_batch max c).2.
Proof. pose proof (event_gives (ETryNextBatch max) c I) as Hg. cbn in Hg. by destruct (try_next_batch max c). Qed.

(** Sources that move by themselves hand nothing out and stay closed. *)
Definition quiet (f : nat -> S -> S) : Prop :=
  forall i x, taken (f i x) = taken x /\ (src_is_closed x = true -> src_is_closed (f i x) = true).

Lemma moves_gives f c : quiet f -> gives c [] (moves f c).
Proof.
  intros Hf. split; [apply length_imap|]. split; [done|]. intros i x Hx. exists (f i x). cbn. rewrite list_lookup_imap, Hx.
  split; [done|]. rewrite app_nil_r. apply Hf.
Qed.

Lemma await_delivery_gives timeout during order (p : PhpConsumer) :
  quiet during ->
  gives (handle p) (match (await_delivery timeout during order p).1 with Ok (Some d) => [d] | _ => [] end)
    (handle (await_delivery timeout during order p).2).
Proof.
  intros Hf. pose proof (moves_gives during (handle p) Hf) as Hm. unfold await_delivery. destruct (timeout <? 0); [by apply gives_same|].
  pose proof (event_gives (ENext order) (moves during (handle p)) I) as Hg. cbn in Hg.
  destruct (next order (moves during (handle p))) as [[[|]|] c]; exact (gives_trans _ _ _ [] _ Hm Hg).
Qed.

(** The receiving calls of the PHP consumer hand over every delivery they take,
    and take none when they fail, except that [nextBatch] can fail after it took one
    delivery. *)
Theorem php_calls_hand_over max timeout during after order flushed (p : PhpConsumer) :
  quiet during -> quiet after ->
  (let '(r, p') := php_next timeout during order flushed p in
   gives (handle p) (match r with Ok o => option_list o | Err _ => [] end) (handle p')) /\
  (let '(r, p') := php_try_next flushed p in
   gives (handle p) (match r with Ok o => option_list o | Err _ => [] end) (handle p')) /\
  (let '(r, p') := php_next_batch max timeout during after order flushed p in
   match r with
   | Ok l => gives (handle p) l (handle p')
   | Err _ => exists o, gives (handle p) (option_list o) (handle p')
   end).
Proof.
  intros Hd Haf. split; [|split].
  - unfold php_next. destruct (let? _ := _ in _); [|by apply gives_same]. pose proof (try_next_gives (handle p)) as Hg.
    destruct (try_next (handle p)) as [[[d|]|e] c]; [done| |done]. cbn in Hg.
    pose proof (await_delivery_gives timeout during order (on_handle c p) Hd) as Ha.
    destruct (await_delivery timeout during order (on_handle c p)) as [[[d|]|e] p2]; exact (gives_trans _ _ _ [] _ Hg Ha).
  - unfold php_try_next. destruct (let? _ := _ in _); [|by apply gives_same]. pose proof (try_next_gives (handle p)) as Hg.
    by destruct (try_next (handle p)) as [[[d|]|e] c].
  - unfold php_next_batch. destruct (let? _ := _ in _); [|exists None; by apply gives_same].
    pose proof (try_next_batch_gives max (handle p)) as Hg.
    destruct (try_next_batch max (handle p)) as [[[|d l]|e] c]; [|done|by exists None]. cbn in Hg.
    pose proof (await_delivery_gives timeout during order (on_handle c p) Hd) as Ha.
    destruct (await_delivery timeout during order (on_handle c p)) as [[[d|]|e] p2]; cbn in Ha.
    + unfold drain_more. destruct (1 <? max); [|exact (gives_trans _ _ _ [] _ Hg Ha)].
      pose proof (gives_trans _ _ _ [] _ (moves_gives after (handle p2) Haf) (try_next_batch_gives (sat_sub max 1) (moves after (handle p2)))) as Hm.
      pose proof (gives_trans _ _ _ [] _ Hg Ha) as Hga.
      destruct (try_next_batch _ (moves after (handle p2))) as [[more|e] c3]; cbn in *; [exact (gives_trans _ _ _ [d] _ Hga Hm)|].
      exists (Some d). exact (gives_trans _ _ _ [d] [] Hga Hm).
    + exact (gives_trans _ _ _ [] _ Hg Ha).
    + exists None. exact (gives_trans _ _ _ [] _ Hg Ha).
Qed.

End Laws.

(** ** Consumer sets are sources *)

(** A handle: the system of its set and the generation it was established for. *)
Record SetHandle := mkHandle { h_sys : ConsumerSystem.Sys; h_generation : Z }.

Definition on_sys {A} (r : A * ConsumerSystem.Sys) (h : SetHandle) : A * SetHandle :=
  (r.1, mkHandle r.2 (h_generation h)).

(** [close] sets the flag the receiving calls test; the actor's teardown follows. *)
Definition flag_closed (s : ConsumerSystem.Sys) : ConsumerSystem.Sys :=
  ConsumerSystem.mkSys (ConsumerSystem.st s) (ConsumerSystem.control s) (ConsumerSystem.popped s) false
    (ConsumerSystem.pending_error s).

#[global] Instance set_source_ops : Source SetHandle nat := {
  src_try_next h := on_sys (ConsumerSystem.try_next (h_sys h)) h;
  src_try_next_batch max h := on_sys (ConsumerSystem.try_next_batch max (h_sys h)) h;
  src_next h := (fun r => on_sys r h) <$> ConsumerSystem.next (h_sys h);
  src_is_closed h := negb (ConsumerSystem.open (h_sys h));
  src_generation h := h_generation h;
  src_close h := mkHandle (flag_closed (h_sys h)) (h_generation h);
  taken h := ConsumerSystem.popped (h_sys h)
}.

Lemma recv_popped s it s' :
  ConsumerSystem.buffer_recv s = Some (it, s') ->
  ConsumerSystem.popped s' = ConsumerSystem.popped s ++ match it with Ok n => [n] | Err _ => [] end.
Proof.
  unfold ConsumerSystem.buffer_recv. destruct (ConsumerActor.flume _) as [|x rest]; [done|]. intros [= <- <-]. cbn.
  destruct x; [done|by rewrite app_nil_r].
Qed.

Lemma stashed_popped {A} (e : A) s :
  ConsumerSystem.popped (ConsumerSystem.stashed e s).2 = ConsumerSystem.popped s /\
  forall r, (ConsumerSystem.stashed e s).1 = Ok r -> r = e.
Proof. unfold ConsumerSystem.stashed. destruct (ConsumerSystem.pending_error s); split; by try intros r [= <-]. Qed.

(** What a batch call answers and what it popped. *)
Definition batch_ok (n : nat) (batch : list nat) (s : ConsumerSystem.Sys)
    (r : result (list nat) ConsumerError * ConsumerSystem.Sys) : Prop :=
  match r.1 with
  | Ok l => (length l <= length batch + n)%nat /\ exists a, l = batch ++ a /\
      ConsumerSystem.popped r.2 = ConsumerSystem.popped s ++ a
  | Err _ => batch = [] /\ ConsumerSystem.popped r.2 = ConsumerSystem.popped s
  end.

Lemma finish_ok n batch s :
  batch_ok n batch s (if bool_decide (batch = []) then ConsumerSystem.stashed [] s else (Ok batch, s)).
Proof.
  unfold batch_ok. case_bool_decide as Eb.
  - subst. destruct (stashed_popped (@nil nat) s) as [E1 E2]. destruct (ConsumerSystem.stashed [] s) as [[l|e] s2]; cbn in *; [|done].
    rewrite (E2 l eq_refl). split; [cbn; lia|]. exists []. by rewrite app_nil_r.
  - cbn. split; [lia|]. exists []. by rewrite !app_nil_r.
Qed.

Lemma batch_loop_ok n batch s : batch_ok n batch s (ConsumerSystem.batch_loop n batch s).
Proof.
  revert batch s. induction n as [|n IH]; intros batch s; cbn [ConsumerSystem.batch_loop]; [apply finish_ok|].
  destruct (ConsumerSystem.buffer_recv s) as [[[d|e] s1]|] eqn:Er; [| |apply finish_ok]; apply recv_popped in Er.
  - specialize (IH (batch ++ [d]) s1). unfold batch_ok in *. destruct (ConsumerSystem.batch_loop n _ s1) as [[l|e] s2]; cbn in *.
    + rewrite length_app in IH. cbn in IH. destruct IH as (Hl & a & -> & Ha). split; [lia|]. exists (d :: a).
      rewrite Ha, Er, <- !app_assoc. done.
    + destruct IH as [E _]. by destruct batch.
  - rewrite app_nil_r in Er. unfold batch_ok. case_bool_decide; [done|]. cbn. split; [lia|]. exists []. by rewrite !app_nil_r.
Qed.

#[global] Instance set_source_laws : SourceLaws SetHandle nat.
Proof.
  split.
  - intros [s g]. cbn. unfold ConsumerSystem.try_next. destruct (ConsumerSystem.open s); cbn; [|by rewrite app_nil_r].
    destruct (ConsumerSystem.buffer_recv s) as [[[d|e] s1]|] eqn:Er; cbn; [by apply recv_popped in Er..|].
    destruct (stashed_popped (@None nat) s) as [E1 E2]. destruct (ConsumerSystem.stashed None s) as [[r|e] s1]; cbn in *;
      [rewrite (E2 r eq_refl)|]; by rewrite app_nil_r.
  - intros max [s g]. cbn. unfold ConsumerSystem.try_next_batch. destruct (ConsumerSystem.open s); cbn; [|by rewrite app_nil_r].
    pose proof (batch_loop_ok (Z.to_nat (Prefetch.clamp max 1 256)) [] s) as Hb. unfold batch_ok in Hb.
    destruct (ConsumerSystem.batch_loop _ [] s) as [[l|e] s1]; cbn in *; [by destruct Hb as (_ & a & -> & ->)|].
    destruct Hb as [_ ->]. by rewrite app_nil_r.
  - intros max [s g] l. cbn. unfold ConsumerSystem.try_next_batch. destruct (ConsumerSystem.open s); cbn; [|done].
    pose proof (batch_loop_ok (Z.to_nat (Prefetch.clamp max 1 256)) [] s) as Hb. unfold batch_ok in Hb.
    destruct (ConsumerSystem.batch_loop _ [] s) as [[l'|e] s1]; cbn in *; [|done]. intros [= <-]. destruct Hb as [Hb _].
    pose proof (clamp_range max). lia.
  - intros [s g] r s'. cbn. unfold ConsumerSystem.next. destruct (ConsumerSystem.open s); cbn; [|intros [= <- <-]; cbn; by rewrite app_nil_r].
    destruct (ConsumerSystem.buffer_recv s) as [[[d|e] s1]|] eqn:Er; [intros [= <- <-]..|done]; cbn; by apply recv_popped in Er.
  - intros [s g] Hc. cbn in *. unfold ConsumerSystem.try_next. by rewrite Hc.
  - intros max [s g] Hc. cbn in *. unfold ConsumerSystem.try_next_batch. by rewrite Hc.
  - intros [s g] Hc. cbn in *. unfold ConsumerSystem.next. by rewrite Hc.
  - done.
  - done.
Qed.

(** ** Runs *)

(** A set of the first generation with these items in its buffer. *)
Definition holding (items : list ConsumerActor.Item) : SetHandle :=
  mkHandle (ConsumerSystem.mkSys (ConsumerActor.on_intake (ConsumerActor.set_flume items)
    (ConsumerActor.actor_new ConsumerSystem.jobs [])) [] [] true None) 1.

Definition shut : SetHandle := src_close (holding []).

Fixpoint play (es : list Event) (handed : list (nat * nat)) (c : Composite SetHandle) : list (nat * nat) * Composite SetHandle :=
  match es with
  | [] => (handed, c)
  | e :: es' => play es' (handed ++ (deliveries e c).1) (deliveries e c).2
  end.

Definition is_call (e : Event (S := SetHandle)) : bool := match e with ESource _ _ => false | _ => true end.

Lemma play_reach l es handed c :
  forallb is_call es = true -> reach l handed c -> reach l (play es handed c).1 (play es handed c).2.
Proof.
  revert handed c. induction es as [|e es IH]; intros handed c; cbn; [done|]. intros [He Hes]%andb_true_iff Hr.
  apply IH; [done|]. apply reach_event; [done|]. by destruct e.
Qed.

Definition pair_of_sets : list SetHandle := [holding [Ok 0%nat; Ok 1%nat]; holding [Ok 0%nat]].

Lemma deliveries_conserved_witness :
  (play [ETryNext; ETryNextBatch 8] [] (from_sources pair_of_sets)).1 = [(0, 0); (1, 0); (0, 1)]%nat /\
  exists x, sources (play [ETryNext; ETryNextBatch 8] [] (from_sources pair_of_sets)).2 !! 0%nat = Some x /\
    taken x = [] ++ [0; 1]%nat.
Proof.
  split; [vm_compute; reflexivity|].
  exact (deliveries_conserved pair_of_sets [(0, 0); (1, 0); (0, 1)]%nat _ 0 (holding [Ok 0%nat; Ok 1%nat])
    (play_reach pair_of_sets [ETryNext; ETryNextBatch 8] [] _ eq_refl (reach_start _)) eq_refl).
Defined.

Lemma batch_bounded_witness :
  exists l c, try_next_batch 2 (from_sources pair_of_sets) = (Ok l, c) /\ Z.of_nat (length l) <= 2.
Proof.
  eexists _, _. split; [vm_compute; reflexivity|].
  refine (batch_bounded 2 (from_sources pair_of_sets) _ _ _). vm_compute. reflexivity.
Defined.

(** One of two sets is closed; the other holds one delivery. *)
Definition degraded : Composite SetHandle := (play [ETryNext] [] (from_sources [shut; holding [Ok 0%nat]])).2.

Lemma degraded_reach : reach [shut; holding [Ok 0%nat]] [(1, 0)]%nat degraded.
Proof. exact (play_reach [shut; holding [Ok 0%nat]] [ETryNext] [] _ eq_refl (reach_start _)). Qed.

Lemma replacement_signalled_witness :
  notes degraded = [Retired 0] /\ exists b, unread (notes degraded) = Some b /\ pending_signal degraded = if b : bool then Some replaced else None.
Proof.
  split; [vm_compute; reflexivity|].
  refine (proj1 (proj2 (proj2 (proj2 (replacement_signalled _ _ degraded degraded_reach _ _))))); [vm_compute; reflexivity|cbn; lia].
Defined.

Definition busy : Composite SetHandle := from_sources [holding [Ok 0%nat; Ok 1%nat; Ok 2%nat]; holding [Ok 0%nat]].

Lemma no_source_starves_witness :
  exists outs, polls 1 2 busy outs /\ exists d, Ok (Some (1%nat, d)) ∈ outs.
Proof.
  eexists. assert (polls 1 2 busy [Ok (Some (0, 0)); Ok (Some (1, 0))]%nat) as Hp.
  { eapply polls_more; [reflexivity|vm_compute; reflexivity|vm_compute; reflexivity|vm_compute; reflexivity|reflexivity|reflexivity|].
    eapply polls_more; [reflexivity|vm_compute; reflexivity|vm_compute; reflexivity|vm_compute; reflexivity|reflexivity|reflexivity|].
    apply polls_none. }
  split; [exact Hp|]. refine (no_source_starves 1 2 busy _ Hp _ _ _ _); [reflexivity|lia|cbn; lia|cbn; unfold U64_MAX; lia].
Defined.

Lemma closed_consumer_fails_witness :
  (try_next (from_sources [shut; shut])).1 = Err Delivery.closed.
Proof.
  refine (proj1 (closed_consumer_fails [shut; shut] [] (from_sources [shut; shut]) 1 [] (0, 0)%nat (reach_start _) _ _)); [done|].
  by repeat constructor.
Defined.

Lemma php_calls_hand_over_witness :
  let p := mkConsumer (from_sources pair_of_sets) 1 1 false in
  let '(r, p') := php_next 100 (fun _ x => x) [] (Ok tt) p in
  gives (handle p) (match r with Ok o => option_list o | Err _ => [] end) (handle p').
Proof.
  exact (proj1 (php_calls_hand_over 1 100 (fun _ x => x) (fun _ x => x) [] (Ok tt) (mkConsumer (from_sources pair_of_sets) 1 1 false)
    (fun _ _ => conj eq_refl (fun h => h)) (fun _ _ => conj eq_refl (fun h => h)))).
Defined.

(** ** Examples *)

(** [next] does not look at a signal that waits: the caller is parked on the
    remaining sources although a source was replaced. *)
Example next_parks_with_pending_signal :
  (next [] degraded).1 = None /\ pending_signal (next [] degraded).2 = Some replaced.
Proof. split; vm_compute; reflexivity. Qed.

(** A transport error that follows an awaited delivery makes [nextBatch] throw, and
    the delivery is in nobody's hands. *)
Definition arrives (items : list ConsumerActor.Item) (i : nat) (x : SetHandle) : SetHandle :=
  if decide (i = 0%nat) then
    mkHandle (ConsumerSystem.on_st (ConsumerActor.on_intake (ConsumerActor.set_flume items)) (h_sys x)) (h_generation x)
  else x.

Definition lost_error : ConsumerError := Delivery.ce_from_transport (te_new Connection "connection reset").

Example next_batch_loses_delivery :
  let p := mkConsumer (from_sources [holding []; holding []]) 1 1 false in
  let '(r, p') := php_next_batch 10 100 (arrives [Ok 0%nat; Err lost_error]) (fun _ x => x) [0%nat] (Ok tt) p in
  r = Err (ConsumerException lost_error) /\ taken <$> sources (handle p') = [[0%nat]; []].
Proof. vm_compute. split; reflexivity. Qed.

End CompositeSystem.
