(* ===== verification/PublishPump.v ===== *)
(** * The publish pump

    Models [publisher/pump.rs]: the background task that pipelines blind
    publications, with the handle calls that feed it ([publish_blind] and
    [flush_blind] of [publisher/actor.rs]). A step is what a caller or the pump does
    between two awaits; what the transport answers is part of the step. A caller
    that waits for room in the intake queue is in [waiting]. [log] records what
    happened to each job. Cancellation of the pump's task is not modelled: what
    becomes of the queued jobs then is up to the flume crate. *)

From S2P Require Import Prelude Transport Publication DelayTopology DelayRouting ByteBudget.
Import Transport Publication DelayTopology DelayRouting.
Local Open Scope Z_scope.
Local Open Scope rabbit_scope.

Module PublishPump.

(** ** Data *)

(** [PumpJob]: a publication with its reservation, or a flush barrier. *)
Inductive Job := JRequest (id : nat) (request : PublishRequest) | JBarrier (id : nat).

Definition job_id (j : Job) : nat := match j with JRequest id _ | JBarrier id => id end.

(** The bytes of the job's [BudgetGuard]. *)
Definition job_bytes (j : Job) : Z :=
  match j with JRequest _ r => Z.of_nat (String.length (r_payload r)) | JBarrier _ => 0 end.

Inductive Entry :=
| Enqueued (j : Job)
| OnWire (id : nat) (channel : Z) (w : WireRequest)
| Published (id : nat)
| Dropped (id : nat)
| Resolved (id : nat).

(** [running] until the intake receiver is gone; [draining] while a flush barrier
    waits for the publications in flight. *)
Record Pump := mkPump {
  waiting : list Job;
  queue : list Job;
  channel : option Z;
  inflight : list Job;
  declared_delay_topology : gset string;
  draining : option nat;
  senders : bool;
  running : bool;
  used : Z;
  next_id : nat;
  log : list Entry
}.

Definition set_waiting (l : list Job) (p : Pump) : Pump :=
  mkPump l (queue p) (channel p) (inflight p) (declared_delay_topology p) (draining p) (senders p) (running p) (used p) (next_id p) (log p).
Definition set_queue (l : list Job) (p : Pump) : Pump :=
  mkPump (waiting p) l (channel p) (inflight p) (declared_delay_topology p) (draining p) (senders p) (running p) (used p) (next_id p) (log p).
Definition set_channel (c : option Z) (p : Pump) : Pump :=
  mkPump (waiting p) (queue p) c (inflight p) (declared_delay_topology p) (draining p) (senders p) (running p) (used p) (next_id p) (log p).
Definition set_inflight (l : list Job) (p : Pump) : Pump :=
  mkPump (waiting p) (queue p) (channel p) l (declared_delay_topology p) (draining p) (senders p) (running p) (used p) (next_id p) (log p).
Definition set_declared (d : gset string) (p : Pump) : Pump :=
  mkPump (waiting p) (queue p) (channel p) (inflight p) d (draining p) (senders p) (running p) (used p) (next_id p) (log p).
Definition set_draining (b : option nat) (p : Pump) : Pump :=
  mkPump (waiting p) (queue p) (channel p) (inflight p) (declared_delay_topology p) b (senders p) (running p) (used p) (next_id p) (log p).
Definition set_alive (s r : bool) (p : Pump) : Pump :=
  mkPump (waiting p) (queue p) (channel p) (inflight p) (declared_delay_topology p) (draining p) s r (used p) (next_id p) (log p).
Definition set_used (u : Z) (p : Pump) : Pump :=
  mkPump (waiting p) (queue p) (channel p) (inflight p) (declared_delay_topology p) (draining p) (senders p) (running p) u (next_id p) (log p).
Definition fresh (p : Pump) : Pump :=
  mkPump (waiting p) (queue p) (channel p) (inflight p) (declared_delay_topology p) (draining p) (senders p) (running p) (used p) (S (next_id p)) (log p).
Definition note (e : Entry) (p : Pump) : Pump :=
  mkPump (waiting p) (queue p) (channel p) (inflight p) (declared_delay_topology p) (draining p) (senders p) (running p) (used p) (next_id p) (log p ++ [e]).

(** Dropping the job's [BudgetGuard]. *)
Definition release (j : Job) (p : Pump) : Pump := set_used (ByteBudget.release (used p) (job_bytes j)) p.

(** The job leaves the pump without reaching the transport. *)
Definition drop_job (j : Job) (p : Pump) : Pump := note (Dropped (job_id j)) (release j p).

Section Pump.
Variable sha256 : string -> string.
Variable delay_strategy : option DelayStrategy.
Variable max_bytes : Z.
Variable buffer_capacity : Z.

(** [spawn] *)
Definition intake_capacity : Z := Z.max buffer_capacity 1.
Definition inflight_cap : Z := Z.max (sat_add U64_MAX buffer_capacity buffer_capacity) 128.

Definition spawn (ch : Z) : Pump := mkPump [] [] (Some ch) [] ∅ None true true 0 0 [].

(** What the channel answers to a declaration. *)
Record Channel := mkChannel {
  declare_exchange : ExchangeSpec -> result unit TransportError;
  declare_queue : QueueSpec -> result unit TransportError
}.

(** ** The pump loop *)

(** A positive delay declares its infrastructure first. *)
Definition prepare (a : Channel) (request : PublishRequest) (p : Pump) : result unit PublishError * Pump :=
  match mp_delay_ms (r_properties request), delay_strategy with
  | Some delay, Some strategy =>
      if 0 <? delay then
        let '(r, d, _) := ensure_delay_topology sha256 (declare_exchange a) (declare_queue a) strategy
                            (r_destination request) delay (declared_delay_topology p) in
        (r, set_declared d p)
      else (Ok tt, p)
  | _, _ => (Ok tt, p)
  end.

(** A publication was taken from the intake queue. *)
Definition publish_job (a : Channel) (id : nat) (request : PublishRequest) (p : Pump) : Pump :=
  let j := JRequest id request in
  match channel p with
  | None => drop_job j p
  | Some ch =>
      match route_transport_request sha256 request delay_strategy false with
      | Err _ => drop_job j p
      | Ok w =>
          let '(r, p) := prepare a request p in
          match r with
          | Err _ => drop_job j p
          | Ok _ => note (OnWire id ch w) (set_inflight (inflight p ++ [j]) p)
          end
      end
  end.

(** The intake arm, guarded by the cap on publications in flight. *)
Definition intake (a : Channel) (p : Pump) : option Pump :=
  if negb (running p) || negb (Z.of_nat (length (inflight p)) <? inflight_cap) then None
  else
    match draining p, queue p with
    | None, JRequest id r :: rest => Some (publish_job a id r (set_queue rest p))
    | None, JBarrier id :: rest => Some (set_draining (Some id) (set_queue rest p))
    | _, _ => None
    end.

(** A publication in flight completed, however the transport answered. *)
Definition completed (k : nat) (p : Pump) : option Pump :=
  j ← inflight p !! k;
  Some (note (Published (job_id j)) (release j (set_inflight (delete k (inflight p)) p))).

(** The barrier's own drain ended. *)
Definition barrier_done (p : Pump) : option Pump :=
  match draining p, inflight p with
  | Some id, [] => if running p then Some (note (Resolved id) (set_draining None p)) else None
  | _, _ => None
  end.

(** Every sender is gone and the queue is empty: the loop breaks. *)
Definition exit (p : Pump) : option Pump :=
  match queue p, draining p with
  | [], None => if running p && negb (senders p) && (Z.of_nat (length (inflight p)) <? inflight_cap) then Some (set_alive false false p) else None
  | _, _ => None
  end.

(** ** The handle *)

(** [publish_blind] up to its hand-off: the reservation, or [Backpressure]. *)
Definition publish_blind (request : PublishRequest) (p : Pump) : result unit PublishError * Pump :=
  let j := JRequest (next_id p) request in
  match ByteBudget.try_reserve max_bytes (used p) (job_bytes j) with
  | None => (Err (pe_new EBackpressure "publisher byte budget is exhausted"), p)
  | Some u => (Ok tt, set_waiting (waiting p ++ [j]) (fresh (set_used u p)))
  end.

(** [flush] up to its hand-off. *)
Definition flush (p : Pump) : Pump := set_waiting (waiting p ++ [JBarrier (next_id p)]) (fresh p).

(** [send_async] completes: there is room, or the receiver is gone. *)
Definition send (k : nat) (p : Pump) : option (result unit PublishError * Pump) :=
  j ← waiting p !! k;
  let p := set_waiting (delete k (waiting p)) p in
  if negb (running p) then Some (Err (pe_new EClosed "publish pump is closed"), drop_job j p)
  else if Z.of_nat (length (queue p)) <? intake_capacity then
    Some (Ok tt, note (Enqueued j) (set_queue (queue p ++ [j]) p))
  else None.

(** The caller's future is dropped while it waits for room. *)
Definition cancel (k : nat) (p : Pump) : option Pump :=
  j ← waiting p !! k; Some (drop_job j (set_waiting (delete k (waiting p)) p)).

(** ** The system *)

Inductive Event :=
| EPublish (request : PublishRequest)
| EFlush
| ESend (k : nat)
| ECancel (k : nat)
| EIntake (a : Channel)
| ECompleted (k : nat)
| EBarrier
| EUpdateChannel (ch : Z)
| EClearChannel
| EDropSenders
| EExit.

Definition step (e : Event) (p : Pump) : option Pump :=
  match e with
  | EPublish r => if senders p then Some (publish_blind r p).2 else None
  | EFlush => if senders p then Some (flush p) else None
  | ESend k => snd <$> send k p
  | ECancel k => cancel k p
  | EIntake a => intake a p
  | ECompleted k => completed k p
  | EBarrier => barrier_done p
  | EUpdateChannel ch => Some (set_channel (Some ch) p)
  | EClearChannel => Some (set_channel None p)
  | EDropSenders => match waiting p with [] => Some (set_alive false (running p) p) | _ => None end
  | EExit => exit p
  end.

Fixpoint run (es : list Event) (p : Pump) : option Pump :=
  match es with
  | [] => Some p
  | e :: es' => p' ← step e p; run es' p'
  end.

Inductive reach : Pump -> Prop :=
| reach_spawn ch : reach (spawn ch)
| reach_step e p p' : reach p -> step e p = Some p' -> reach p'.

End Pump.

End PublishPump.
