(* ===== verification/PublishPumpSystem.v ===== *)
(** * The publish pump: theorems

    Every job is in exactly one place and its bytes are reserved while it is there;
    a flush barrier resolves only after everything enqueued before it left the pump;
    publications reach the transport in order, routed, with their infrastructure
    declared; the pump always drains. *)

From S2P Require Import Prelude Transport Publication DelayTopology DelayRouting ByteBudget PublishPump.
Import Transport Publication DelayTopology DelayRouting PublishPump.
Local Open Scope Z_scope.

Module PublishPumpSystem.

Section System.
Context (sha256 : string -> string) (delay_strategy : option DelayStrategy) (max_bytes buffer_capacity : Z).
Implicit Types (p : Pump) (j : Job).

Abbreviation step := (step sha256 delay_strategy max_bytes buffer_capacity).
Abbreviation reach := (reach sha256 delay_strategy max_bytes buffer_capacity).
Abbreviation intake := (intake sha256 delay_strategy buffer_capacity).

(** ** The invariant *)

Definition left_by (e : Entry) : list nat :=
  match e with Published i | Dropped i | Resolved i => [i] | _ => [] end.
Definition enqueued_by (e : Entry) : list nat := match e with Enqueued j => [job_id j] | _ => [] end.
Definition wired_by (e : Entry) : list nat := match e with OnWire i _ _ => [i] | _ => [] end.

(** Jobs that left the pump, jobs enqueued and publications written, in order. *)
Definition left (l : list Entry) : list nat := l ≫= left_by.
Definition enqueued (l : list Entry) : list nat := l ≫= enqueued_by.
Definition wired (l : list Entry) : list nat := l ≫= wired_by.

Definition total (l : list Job) : Z := sumZ job_bytes l.

(** What justifies an entry. *)
Definition entry_ok (pre : list Entry) (e : Entry) : Prop :=
  match e with
  | Resolved b => exists before after, enqueued pre = before ++ b :: after /\ Forall (fun i => i ∈ left pre) before
  | _ => True
  end.

(** What is on the wire was enqueued and is routed; a delayed publication has its
    infrastructure declared. *)
Definition wires_ok p : Prop :=
  forall i ch w, OnWire i ch w ∈ log p -> exists r, Enqueued (JRequest i r) ∈ log p /\
    route_transport_request sha256 r delay_strategy false = Ok w /\
    forall delay, mp_delay_ms (r_properties r) = Some delay -> 0 < delay -> infrastructure w ∈ declared_delay_topology p.

(** How often a job is somewhere. *)
Definition occurs (i : nat) (l : list nat) : nat := count_occ Nat.eq_dec l i.

Definition places (i : nat) p : nat :=
  (occurs i (job_id <$> waiting p) + occurs i (job_id <$> queue p) + occurs i (job_id <$> inflight p) +
   occurs i (option_list (draining p)) + occurs i (left (log p)))%nat.

Record inv p : Prop := {
  iv_ids : forall i, places i p = if decide (i < next_id p)%nat then 1%nat else 0%nat;
  iv_once : forall i, (occurs i (enqueued (log p)) + occurs i (job_id <$> waiting p) <= if decide (i < next_id p) then 1 else 0)%nat;
  iv_bytes : used p = total (waiting p) + total (queue p) + total (inflight p);
  iv_max : 0 <= used p <= Z.max 0 max_bytes;
  iv_queue : Z.of_nat (length (queue p)) <= intake_capacity buffer_capacity;
  iv_inflight : Z.of_nat (length (inflight p)) <= inflight_cap buffer_capacity;
  iv_order : exists taken, enqueued (log p) = taken ++ (job_id <$> queue p) /\ wired (log p) `sublist_of` taken /\
    Forall (fun i => i ∈ (job_id <$> inflight p) ++ option_list (draining p) ++ left (log p)) taken /\
    (forall b, draining p = Some b -> exists t, taken = t ++ [b]);
  iv_jobs : forall j, j ∈ queue p -> Enqueued j ∈ log p;
  iv_log : justified entry_ok (log p)
}.

#[local] Arguments occurs : simpl never.
#[local] Arguments left : simpl never.
#[local] Arguments enqueued : simpl never.
#[local] Arguments wired : simpl never.
#[local] Arguments total : simpl never.
#[local] Arguments ByteBudget.release : simpl never.

Lemma left_snoc l e : left (l ++ [e]) = left l ++ left_by e.
Proof. unfold left. by rewrite bind_app, bind_singleton. Qed.

Lemma enqueued_snoc l e : enqueued (l ++ [e]) = enqueued l ++ enqueued_by e.
Proof. unfold enqueued. by rewrite bind_app, bind_singleton. Qed.

Lemma wired_snoc l e : wired (l ++ [e]) = wired l ++ wired_by e.
Proof. unfold wired. by rewrite bind_app, bind_singleton. Qed.

Lemma total_nonneg l : 0 <= total l.
Proof. apply sumZ_nonneg, Forall_forall. intros j _. destruct j; cbn; lia. Qed.

Lemma total_delete k l j : l !! k = Some j -> total l = job_bytes j + total (delete k l).
Proof.
  intros Hk. apply delete_Permutation in Hk. unfold total. by rewrite (sumZ_perm _ _ _ Hk), sumZ_cons.
Qed.

Lemma ids_delete k l j : l !! k = Some j -> job_id <$> l ≡ₚ job_id j :: (job_id <$> delete k l).
Proof. intros Hk. exact (fmap_Permutation job_id _ _ (delete_Permutation _ _ _ Hk)). Qed.

Lemma occurs_app i l l' : occurs i (l ++ l') = (occurs i l + occurs i l')%nat.
Proof. apply count_occ_app. Qed.

Lemma occurs_one (i j : nat) : occurs i [j] = if decide (i = j) then 1%nat else 0%nat.
Proof. unfold occurs. cbn. destruct (Nat.eq_dec j i), (decide (i = j)); congruence. Qed.

Lemma occurs_delete i k l j :
  l !! k = Some j -> occurs i (job_id <$> l) = (occurs i [job_id j] + occurs i (job_id <$> delete k l))%nat.
Proof.
  intros Hk. rewrite <- occurs_app. unfold occurs. by rewrite (proj1 (Permutation_count_occ Nat.eq_dec _ _) (ids_delete k l j Hk)).
Qed.

Lemma occurs_in i l : i ∈ l <-> (0 < occurs i l)%nat.
Proof. rewrite list_elem_of_In. apply count_occ_In. Qed.

(** Every job is in one place at most. *)
Lemma places_le i p : inv p -> (places i p <= 1)%nat.
Proof. intros Hi. rewrite (iv_ids _ Hi). case_decide; lia. Qed.

(** *** Notes about a job that left *)

Lemma release_exact j u rest : u = job_bytes j + rest -> 0 <= rest -> ByteBudget.release u (job_bytes j) = rest.
Proof. intros -> Hr. unfold ByteBudget.release, sat_sub. lia. Qed.

Lemma left_sub l e : left l ⊆ left (l ++ [e]).
Proof. rewrite left_snoc. set_solver. Qed.

(** An unfinished job leaves the pump. *)
Lemma pump_inv_leave p p' j e :
  inv p -> left_by e = [job_id j] -> enqueued_by e = [] -> wired_by e = [] -> entry_ok (log p) e ->
  log p' = log p ++ [e] -> next_id p' = next_id p -> draining p' = draining p -> queue p' = queue p ->
  used p' = ByteBudget.release (used p) (job_bytes j) -> 
  (waiting p' = waiting p /\ exists k, inflight p !! k = Some j /\ inflight p' = delete k (inflight p)) \/
  (inflight p' = inflight p /\ exists k, waiting p !! k = Some j /\ waiting p' = delete k (waiting p)) ->
  inv p'.
Proof.
  intros [H1 Ho H2 H3 H4 H5 H6 H7 H8] El Ee Ew Hok Elog En Ed Eq Eu Hwhere.
  pose proof (total_nonneg (waiting p')) as Hw. pose proof (total_nonneg (queue p)) as Hq. pose proof (total_nonneg (inflight p')) as Hf.
  assert (used p' = total (waiting p') + total (queue p) + total (inflight p')) as Hu.
  { rewrite Eu. apply release_exact; [|lia]. destruct Hwhere as [(E & k & Hk & E')|(E & k & Hk & E')];
      rewrite H2, E, E', (total_delete _ _ _ Hk); lia. }
  assert (job_bytes j >= 0) as Hj by (destruct j; cbn; lia).
  assert (used p' <= used p) as Hle by (rewrite Eu; unfold ByteBudget.release, sat_sub; lia).
  destruct H6 as (taken & Ht1 & Ht2 & Ht3 & Ht4).
  split; rewrite ?Elog, ?En, ?Ed, ?Eq; try done.
  - intros i. rewrite <- H1. unfold places. rewrite Elog, left_snoc, El, occurs_app, Ed, Eq.
    destruct Hwhere as [(E & k & Hk & E')|(E & k & Hk & E')]; rewrite E, E', (occurs_delete i k _ j Hk); lia.
  - intros i. rewrite enqueued_snoc, Ee, app_nil_r. etransitivity; [|apply Ho].
    destruct Hwhere as [(E & _)|(E & k & Hk & E')]; [by rewrite E|]. rewrite E', (occurs_delete i k (waiting p) j Hk). lia.
  - lia.
  - destruct Hwhere as [(E & k & Hk & E')|(E & _)]; [|by rewrite E]. rewrite E', length_delete by done. lia.
  - exists taken. rewrite enqueued_snoc, wired_snoc, Ee, Ew, !app_nil_r. split; [done|]. split; [done|]. split; [|done].
    eapply Forall_impl; [exact Ht3|]. intros i. rewrite !elem_of_app, left_snoc, elem_of_app, El. intros [Hi|[Hi|Hi]]; [|by auto..].
    destruct Hwhere as [(E & k & Hk & E')|(E & _)]; [|rewrite E; by auto]. rewrite (ids_delete k _ j Hk) in Hi.
    rewrite E'. apply elem_of_cons in Hi as [->|Hi]; [|by auto]. right. right. right. by left.
  - intros j' Hj'. apply elem_of_app. left. by apply H7.
  - by apply justified_snoc.
Qed.

(** *** The head of the queue *)

(** What the invariant says of the jobs taken so far when the head is taken. *)
Lemma order_take p p' j rest e :
  inv p -> queue p = j :: rest -> draining p = None -> queue p' = rest -> log p' = log p ++ e ->
  Forall (fun x => enqueued_by x = []) e ->
  (e ≫= wired_by) `sublist_of` [job_id j] ->
  (forall i, i ∈ job_id <$> inflight p -> i ∈ job_id <$> inflight p') ->
  job_id j ∈ (job_id <$> inflight p') ++ option_list (draining p') ++ (e ≫= left_by) ->
  (forall b, draining p' = Some b -> b = job_id j) ->
  exists taken, enqueued (log p') = taken ++ (job_id <$> queue p') /\ wired (log p') `sublist_of` taken /\
    Forall (fun i => i ∈ (job_id <$> inflight p') ++ option_list (draining p') ++ left (log p')) taken /\
    (forall b, draining p' = Some b -> exists t, taken = t ++ [b]).
Proof.
  intros Hi Eq Ed Eq' El Hen Hw Hf Hj Hb. destruct (iv_order _ Hi) as (taken & Ht1 & Ht2 & Ht3 & _).
  rewrite Eq, fmap_cons in Ht1. rewrite Ed in Ht3. cbn in Ht3. exists (taken ++ [job_id j]).
  assert (e ≫= enqueued_by = []) as Een by (clear -Hen; induction Hen as [|x l Hx Hl IH]; [done|]; cbn; by rewrite Hx, IH).
  split; [|split; [|split]].
  - rewrite El, Eq'. unfold enqueued in *. rewrite bind_app, Een, app_nil_r, Ht1, <- app_assoc. done.
  - rewrite El. unfold wired in *. rewrite bind_app. by apply sublist_app.
  - assert (forall i, i ∈ left (log p') <-> i ∈ left (log p) \/ i ∈ e ≫= left_by) as Hleft
      by (intros i; rewrite El; unfold left; by rewrite bind_app, elem_of_app).
    apply Forall_app. split.
    + eapply Forall_impl; [exact Ht3|]. intros i. cbn. rewrite !elem_of_app, Hleft. intros [?|?]; auto.
    + apply Forall_singleton. revert Hj. rewrite !elem_of_app, Hleft. tauto.
  - intros b ->%Hb. by exists taken.
Qed.

Lemma jobs_take p p' j rest e :
  inv p -> queue p = j :: rest -> queue p' = rest -> log p' = log p ++ e -> forall j', j' ∈ queue p' -> Enqueued j' ∈ log p'.
Proof.
  intros Hi Eq Eq' El j' Hj'. rewrite El. apply elem_of_app. left. apply (iv_jobs _ Hi). rewrite Eq. right. by rewrite <- Eq'.
Qed.

Lemma inv_drop p d j rest :
  inv p -> queue p = j :: rest -> draining p = None -> inv (drop_job j (set_declared d (set_queue rest p))).
Proof.
  intros Hi Eq Ed. pose proof Hi as [H1 Ho H2 H3 H4 H5 _ H7 H8]. rewrite Eq in H2, H4. unfold total at 2 in H2.
  rewrite sumZ_cons in H2. fold (total rest) in H2. cbn [length] in H4.
  pose proof (total_nonneg (waiting p)). pose proof (total_nonneg rest). pose proof (total_nonneg (inflight p)).
  assert (0 <= job_bytes j) as Hj by (destruct j; cbn; lia).
  assert (ByteBudget.release (used p) (job_bytes j) = total (waiting p) + total rest + total (inflight p)) as Hu
    by (apply release_exact; lia).
  split.
  - intros i. cbn [drop_job note next_id release set_used set_declared set_queue]. rewrite <- H1. unfold places. cbn.
    rewrite left_snoc, occurs_app, Eq, fmap_cons. cbn [left_by]. change (job_id j :: (job_id <$> rest)) with ([job_id j] ++ (job_id <$> rest)).
    rewrite occurs_app. lia.
  - intros i. cbn. rewrite enqueued_snoc, app_nil_r. apply Ho.
  - cbn. by rewrite Hu.
  - cbn. rewrite Hu. lia.
  - cbn. lia.
  - exact H5.
  - apply (order_take p _ j rest [Dropped (job_id j)] Hi Eq Ed); try done.
    + by repeat constructor.
    + apply sublist_nil_l.
    + cbn. rewrite Ed. apply elem_of_app. right. by left.
    + cbn. congruence.
  - by apply (jobs_take p _ j rest [Dropped (job_id j)]).
  - by apply justified_snoc.
Qed.

Lemma inv_wire p d j rest ch w :
  inv p -> queue p = j :: rest -> draining p = None -> Z.of_nat (length (inflight p)) < inflight_cap buffer_capacity ->
  entry_ok (log p) (OnWire (job_id j) ch w) ->
  inv (note (OnWire (job_id j) ch w) (set_inflight (inflight p ++ [j]) (set_declared d (set_queue rest p)))).
Proof.
  intros Hi Eq Ed Hc Hok. pose proof Hi as [H1 Ho H2 H3 H4 H5 _ H7 H8]. rewrite Eq in H2, H4. unfold total at 2 in H2.
  rewrite sumZ_cons in H2. fold (total rest) in H2. cbn [length] in H4.
  split.
  - intros i. cbn [note next_id set_inflight set_declared set_queue]. rewrite <- H1. unfold places. cbn.
    rewrite left_snoc, app_nil_r, Eq, fmap_app, fmap_cons, occurs_app. cbn [fmap list_fmap].
    change (job_id j :: (job_id <$> rest)) with ([job_id j] ++ (job_id <$> rest)). rewrite occurs_app. lia.
  - intros i. cbn. rewrite enqueued_snoc, app_nil_r. apply Ho.
  - cbn. unfold total in *. rewrite sumZ_app, sumZ_cons, sumZ_nil. lia.
  - done.
  - cbn. lia.
  - cbn. rewrite length_app. cbn. lia.
  - apply (order_take p _ j rest [OnWire (job_id j) ch w] Hi Eq Ed); try done.
    + by repeat constructor.
    + intros i Hin. cbn. rewrite fmap_app. apply elem_of_app. by left.
    + cbn. rewrite fmap_app. apply elem_of_app. left. apply elem_of_app. right. by left.
    + cbn. congruence.
  - by apply (jobs_take p _ j rest [OnWire (job_id j) ch w]).
  - by apply justified_snoc.
Qed.

Lemma inv_barrier p b rest :
  inv p -> queue p = JBarrier b :: rest -> draining p = None -> inv (set_draining (Some b) (set_queue rest p)).
Proof.
  intros Hi Eq Ed. pose proof Hi as [H1 Ho H2 H3 H4 H5 _ H7 H8]. rewrite Eq in H2, H4. unfold total at 2 in H2.
  rewrite sumZ_cons in H2. fold (total rest) in H2. cbn [length] in H4. cbn [job_bytes] in H2.
  split.
  - intros i. cbn [next_id set_draining set_queue]. rewrite <- H1. unfold places. cbn [waiting queue inflight draining log set_draining set_queue].
    rewrite Eq, Ed, fmap_cons. change (job_id (JBarrier b) :: (job_id <$> rest)) with ([b] ++ (job_id <$> rest)). rewrite occurs_app.
    change (option_list (Some b)) with [b]. change (occurs i (option_list None)) with 0%nat. lia.
  - done.
  - cbn. lia.
  - done.
  - cbn. lia.
  - done.
  - apply (order_take p _ (JBarrier b) rest [] Hi Eq Ed); try done.
    + cbn. by rewrite app_nil_r.
    + apply sublist_nil_l.
    + cbn. apply elem_of_app. right. by left.
    + cbn. congruence.
  - intros j' Hj'. apply H7. rewrite Eq. by right.
  - done.
Qed.

(** *** The handle's side *)

Lemma inv_enqueue p k j :
  inv p -> waiting p !! k = Some j -> Z.of_nat (length (queue p)) < intake_capacity buffer_capacity ->
  inv (note (Enqueued j) (set_queue (queue p ++ [j]) (set_waiting (delete k (waiting p)) p))).
Proof.
  intros Hi Hk Hc. pose proof Hi as [H1 Ho H2 H3 H4 H5 (taken & Ht1 & Ht2 & Ht3 & Ht4) H7 H8]. split.
  - intros i. cbn [note next_id set_queue set_waiting]. rewrite <- H1. unfold places. cbn.
    rewrite left_snoc, app_nil_r, fmap_app, occurs_app, (occurs_delete i k (waiting p) j Hk). cbn [fmap list_fmap]. lia.
  - intros i. cbn. rewrite enqueued_snoc, occurs_app. etransitivity; [|apply Ho]. rewrite (occurs_delete i k (waiting p) j Hk).
    cbn [enqueued_by]. lia.
  - cbn. rewrite H2, (total_delete k _ j Hk). unfold total. rewrite sumZ_app, sumZ_cons, sumZ_nil. lia.
  - done.
  - cbn. rewrite length_app. cbn. lia.
  - done.
  - exists taken. cbn. rewrite enqueued_snoc, wired_snoc, left_snoc, !app_nil_r, Ht1, fmap_app, <- app_assoc. done.
  - intros j'. cbn. rewrite !elem_of_app, !list_elem_of_singleton. intros [?| ->]; [left; by apply H7|by right].
  - by apply justified_snoc.
Qed.

(** A new caller with [u] bytes reserved. *)
Lemma inv_caller p j u :
  inv p -> job_id j = next_id p -> u = used p + job_bytes j -> u <= Z.max 0 max_bytes ->
  inv (set_waiting (waiting p ++ [j]) (fresh (set_used u p))).
Proof.
  intros Hi Ej Eu Hu. pose proof Hi as [H1 Ho H2 H3 H4 H5 H6 H7 H8]. assert (0 <= job_bytes j) as Hj by (destruct j; cbn; lia). split; try done.
  - intros i. specialize (H1 i). unfold places in *. cbn. rewrite fmap_app, occurs_app. cbn [fmap list_fmap].
    rewrite occurs_one, Ej. repeat case_decide; lia.
  - intros i. specialize (Ho i). cbn. rewrite fmap_app, occurs_app. cbn [fmap list_fmap].
    rewrite occurs_one, Ej. repeat case_decide; lia.
  - cbn. unfold total in *. rewrite sumZ_app, sumZ_cons, sumZ_nil. lia.
  - cbn. lia.
Qed.

Lemma pump_reserve_exact u b n : 0 <= u -> 0 <= b -> max_bytes < U64_MAX -> ByteBudget.try_reserve max_bytes u b = Some n -> n = u + b /\ n <= max_bytes.
Proof.
  unfold ByteBudget.try_reserve, sat_add. intros Hu Hb Hm. destruct (max_bytes <? Z.min (u + b) U64_MAX) eqn:E; [done|].
  intros [= <-]. apply Z.ltb_ge in E. lia.
Qed.

Lemma inv_resolved p b :
  inv p -> draining p = Some b -> inflight p = [] -> inv (note (Resolved b) (set_draining None p)).
Proof.
  intros Hi Ed Ef. pose proof Hi as [H1 Ho H2 H3 H4 H5 (taken & Ht1 & Ht2 & Ht3 & Ht4) H7 H8].
  destruct (Ht4 b Ed) as [t ->]. rewrite Ef, Ed in Ht3. cbn in Ht3.
  assert (forall i, i ∈ t ++ [b] -> i ∈ left (log p) \/ i = b) as Hin.
  { rewrite Forall_forall in Ht3. intros i [?|?]%Ht3%elem_of_cons; auto. }
  assert (Forall (fun i => i ∈ left (log p)) t) as Ht.
  { apply Forall_forall. intros i Hit. destruct (Hin i) as [?| ->]; [set_solver|done|].
    pose proof (Ho b) as Hb. rewrite Ht1, !occurs_app, occurs_one in Hb.
    apply occurs_in in Hit. repeat case_decide; try done; lia. }
  split; try done.
  - intros i. cbn [note next_id set_draining]. rewrite <- H1. unfold places. cbn. rewrite left_snoc, occurs_app, Ed. cbn [left_by].
    change (option_list (Some b)) with [b]. change (occurs i []) with 0%nat. lia.
  - intros i. cbn. rewrite enqueued_snoc, app_nil_r. apply Ho.
  - exists (t ++ [b]). cbn. rewrite enqueued_snoc, wired_snoc, !app_nil_r. split; [done|]. split; [done|]. split; [|done].
    apply Forall_forall. intros i [?| ->]%Hin; rewrite left_snoc, Ef; cbn; apply elem_of_app; [by left|right; by left].
  - intros j Hj. apply elem_of_app. left. by apply H7.
  - apply justified_snoc; [done|]. exists t, (job_id <$> queue p). split; [|done]. cbn. rewrite Ht1, <- app_assoc. done.
Qed.

(** *** Steps *)

Lemma inv_frame p p' :
  inv p -> waiting p' = waiting p -> queue p' = queue p -> inflight p' = inflight p -> draining p' = draining p ->
  used p' = used p -> next_id p' = next_id p -> log p' = log p -> inv p'.
Proof.
  intros [H1 Ho H2 H3 H4 H5 H6 H7 H8] E1 E2 E3 E4 E5 E6 E7.
  split; unfold places in *; rewrite ?E1, ?E2, ?E3, ?E4, ?E5, ?E6, ?E7; done.
Qed.

Lemma inv_spawn ch : 0 <= buffer_capacity -> inv (spawn ch).
Proof.
  intros Hb. split; try done; cbn; unfold intake_capacity, inflight_cap; try lia.
  - exists []. unfold wired. repeat split; [constructor..|done].
  - intros j Hj. by apply elem_of_nil in Hj.
  - apply justified_nil.
Qed.

(** What [prepare] changes. *)
Lemma prepare_frame a r p : exists d, (prepare sha256 delay_strategy a r p).2 = set_declared d p.
Proof.
  unfold prepare. destruct (mp_delay_ms _) as [delay|]; [|by exists (declared_delay_topology p); destruct p].
  destruct delay_strategy as [s|]; [|by exists (declared_delay_topology p); destruct p].
  destruct (0 <? delay); [|by exists (declared_delay_topology p); destruct p].
  destruct (ensure_delay_topology _ _ _ _ _ _ _) as [[r0 d] sent]. by exists d.
Qed.

(** The three fates of a publication taken from the queue. *)
Lemma publish_job_cases a i r p :
  let j := JRequest i r in
  exists d, publish_job sha256 delay_strategy a i r p = drop_job j (set_declared d p) \/
    exists ch w, channel p = Some ch /\ route_transport_request sha256 r delay_strategy false = Ok w /\
      prepare sha256 delay_strategy a r p = (Ok tt, set_declared d p) /\
      publish_job sha256 delay_strategy a i r p = note (OnWire i ch w) (set_inflight (inflight p ++ [j]) (set_declared d p)).
Proof.
  intros j. assert (p = set_declared (declared_delay_topology p) p) as Ep by (by destruct p).
  unfold publish_job. destruct (channel p) as [ch|]; [|exists (declared_delay_topology p); left; by rewrite <- Ep].
  destruct (route_transport_request _ _ _ _) as [w|e]; [|exists (declared_delay_topology p); left; by rewrite <- Ep].
  destruct (prepare_frame a r p) as [d Hd]. exists d.
  destruct (prepare _ _ a r p) as [[[]|e] p'] eqn:E; cbn in Hd; subst p'; [right; by exists ch, w|by left].
Qed.

Lemma intake_cases a p p' :
  intake a p = Some p' -> running p = true /\ draining p = None /\ Z.of_nat (length (inflight p)) < inflight_cap buffer_capacity /\
  exists j rest, queue p = j :: rest /\
    match j with
    | JRequest i r => p' = publish_job sha256 delay_strategy a i r (set_queue rest p)
    | JBarrier b => p' = set_draining (Some b) (set_queue rest p)
    end.
Proof.
  unfold PublishPump.intake. destruct (running p); [|done]. destruct (_ <? _) eqn:Ec; [|done]. cbn.
  destruct (draining p) eqn:Ed; [done|]. destruct (queue p) as [|[i r|b] rest] eqn:Eq; [done|..]; intros [= <-];
    repeat split; try lia; by eexists _, _.
Qed.

Lemma pump_inv_step e p p' : max_bytes < U64_MAX -> inv p -> step e p = Some p' -> inv p'.
Proof.
  intros Hm Hi. pose proof (iv_max _ Hi) as Hmax. destruct e as [r| |k|k|a|k| |ch| | |]; cbn [PublishPump.step].
  - destruct (senders p); [|done]. intros [= <-]. unfold publish_blind.
    destruct (ByteBudget.try_reserve _ _ _) as [u|] eqn:E; [|done].
    apply pump_reserve_exact in E as [-> Hu]; [|lia|cbn; lia|done]. apply inv_caller; [done..|lia].
  - destruct (senders p); [|done]. intros [= <-]. apply (inv_caller p (JBarrier (next_id p)) (used p)) in Hi; cbn; [|done|lia..].
    by apply (inv_frame _ _ Hi).
  - intros [[x p1] [Hs ->]]%fmap_Some. revert Hs. unfold send. intros [j [Hk Hs]]%bind_Some. destruct (negb _) eqn:Er in Hs.
    + injection Hs as <- <-. apply (pump_inv_leave p _ j (Dropped (job_id j)) Hi); try done. right. split; [done|]. by exists k.
    + destruct (_ <? _) eqn:Ec in Hs; [|done]. injection Hs as <- <-. apply inv_enqueue; [done..|]. apply Z.ltb_lt in Ec. exact Ec.
  - intros [j [Hk [= <-]]]%bind_Some. apply (pump_inv_leave p _ j (Dropped (job_id j)) Hi); try done. right. split; [done|]. by exists k.
  - intros (_ & Ed & Hc & j & rest & Eq & Hj)%intake_cases. destruct j as [i r|b]; subst p'; [|by apply inv_barrier].
    destruct (publish_job_cases a i r (set_queue rest p)) as [d [->|(ch & w & _ & _ & _ & ->)]].
    + by apply inv_drop.
    + by apply (inv_wire p d (JRequest i r) rest).
  - intros [j [Hk [= <-]]]%bind_Some. apply (pump_inv_leave p _ j (Published (job_id j)) Hi); try done. left. split; [done|]. by exists k.
  - unfold barrier_done. destruct (draining p) as [b|] eqn:Ed; [|done]. destruct (inflight p) eqn:Ef; [|done].
    destruct (running p); [|done]. intros [= <-]. by apply inv_resolved.
  - intros [= <-]. by apply (inv_frame p).
  - intros [= <-]. by apply (inv_frame p).
  - destruct (waiting p); [|done]. intros [= <-]. by apply (inv_frame p).
  - unfold exit. destruct (queue p) eqn:Eq; [|done]. destruct (draining p) eqn:Ed; [done|]. destruct (_ && _); [|done].
    intros [= <-]. by apply (inv_frame p).
Qed.

Lemma pump_inv p : 0 <= buffer_capacity -> max_bytes < U64_MAX -> reach p -> inv p.
Proof. intros Hb Hm. induction 1 as [ch|e p p' _ IH Hs]; [by apply inv_spawn|by eapply pump_inv_step]. Qed.

(** *** What is on the wire *)

Lemma wires_mono p p' es :
  wires_ok p -> log p' = log p ++ es -> (forall i ch w, OnWire i ch w ∉ es) ->
  declared_delay_topology p ⊆ declared_delay_topology p' -> wires_ok p'.
Proof.
  intros Hw El Hes Hd i ch w. rewrite El. intros [Hin|Hin%Hes]%elem_of_app; [|done].
  destruct (Hw i ch w Hin) as (r & Hr & Hrt & Hdel). exists r. split; [apply elem_of_app; by left|]. split; [done|]. intros d ? ?. apply Hd. by eapply Hdel.
Qed.

(** [prepare] succeeds only with the infrastructure of the routed request declared. *)
Lemma prepare_declares a r p d w :
  prepare sha256 delay_strategy a r p = (Ok tt, set_declared d p) -> route_transport_request sha256 r delay_strategy false = Ok w ->
  forall delay, mp_delay_ms (r_properties r) = Some delay -> 0 < delay -> infrastructure w ∈ d.
Proof.
  unfold prepare. intros Hp Hr delay Ed Hpos. rewrite Ed in Hp. destruct delay_strategy as [s|] eqn:Es.
  - rewrite (proj2 (Z.ltb_lt 0 delay) Hpos) in Hp.
    pose proof (ensure_delay_topology_spec sha256 (declare_exchange a) (declare_queue a) s r delay (declared_delay_topology p) false Ed Hpos) as H.
    destruct (ensure_delay_topology _ _ _ _ _ _ _) as [[[[]|e] d'] sent]; [|done].
    assert (d' = d) as -> by (by injection Hp).
    destruct H as ((w' & Hr' & Hin & _) & _). rewrite Hr in Hr'. by injection Hr' as ->.
  - unfold route_transport_request in Hr. rewrite Ed in Hr. cbn in Hr. destruct (delay =? 0) eqn:E; zbool; [lia|done].
Qed.

Lemma prepare_grows a r p d x :
  prepare sha256 delay_strategy a r p = (x, set_declared d p) -> declared_delay_topology p ⊆ d.
Proof.
  unfold prepare. assert (forall y z : gset string, set_declared y p = set_declared z p -> y = z) as Hinj by (intros y z E; by injection E).
  assert (p = set_declared (declared_delay_topology p) p) as Ep by (by destruct p).
  destruct (mp_delay_ms _) as [delay|] eqn:Ed; [|intros [= _ E]; rewrite Ep in E at 1; by apply Hinj in E as ->].
  destruct delay_strategy as [s|]; [|intros [= _ E]; rewrite Ep in E at 1; by apply Hinj in E as ->].
  destruct (0 <? delay) eqn:Hpos; [|intros [= _ E]; rewrite Ep in E at 1; by apply Hinj in E as ->].
  apply Z.ltb_lt in Hpos.
  pose proof (ensure_delay_topology_spec sha256 (declare_exchange a) (declare_queue a) s r delay (declared_delay_topology p) false Ed Hpos) as H.
  destruct (ensure_delay_topology _ _ _ _ _ _ _) as [[[[]|e] d'] sent]; intros [= _ <-]; [apply H|].
  by destruct H as [-> _].
Qed.

Lemma drop_grows a i r p j d :
  publish_job sha256 delay_strategy a i r p = drop_job j (set_declared d p) -> declared_delay_topology p ⊆ d.
Proof.
  unfold publish_job. destruct (channel p) as [ch|]; [|intros E; apply (f_equal declared_delay_topology) in E; cbn in E; by rewrite E].
  destruct (route_transport_request _ _ _ _) as [w|e]; [|intros E; apply (f_equal declared_delay_topology) in E; cbn in E; by rewrite E].
  destruct (prepare_frame a r p) as [d' Hd]. destruct (prepare _ _ a r p) as [x p'] eqn:E. cbn in Hd. subst p'.
  apply prepare_grows in E. destruct x as [[]|e]; intros E'; apply (f_equal declared_delay_topology) in E'; cbn in E'; by rewrite <- E'.
Qed.

Lemma wires_step e p p' : inv p -> wires_ok p -> step e p = Some p' -> wires_ok p'.
Proof.
  intros Hi Hw.
  assert (forall q, log q = log p -> declared_delay_topology q = declared_delay_topology p -> wires_ok q) as Hsame.
  { intros q El Ed. apply (wires_mono p q []); [done|by rewrite app_nil_r|intros ? ? ? ?%elem_of_nil; done|by rewrite Ed]. }
  assert (forall q x, log q = log p ++ [x] -> wired_by x = [] -> declared_delay_topology p ⊆ declared_delay_topology q -> wires_ok q) as Hone.
  { intros q x El Hx Ed. apply (wires_mono p q [x]); try done. intros i ch w ?%list_elem_of_singleton. by subst x. }
  destruct e as [r| |k|k|a|k| |ch| | |]; cbn [PublishPump.step].
  - destruct (senders p); [|done]. intros [= <-]. unfold publish_blind. destruct (ByteBudget.try_reserve _ _ _); by apply Hsame.
  - destruct (senders p); [|done]. intros [= <-]. by apply Hsame.
  - intros [[x p1] [Hs ->]]%fmap_Some. revert Hs. unfold send. intros [j [Hk Hs]]%bind_Some. destruct (negb _) in Hs.
    + injection Hs as <- <-. by apply (Hone _ (Dropped (job_id j))).
    + destruct (_ <? _) in Hs; [|done]. injection Hs as <- <-. by apply (Hone _ (Enqueued j)).
  - intros [j [Hk [= <-]]]%bind_Some. by apply (Hone _ (Dropped (job_id j))).
  - intros (_ & _ & _ & j & rest & Eq & Hj)%intake_cases. destruct j as [i r|b]; subst p'; [|by apply Hsame].
    destruct (publish_job_cases a i r (set_queue rest p)) as [d [Hp|(ch & w & _ & Hr & Hp & ->)]].
    + pose proof (drop_grows _ _ _ _ _ _ Hp) as Hd. rewrite Hp. by apply (Hone _ (Dropped i)).
    + pose proof (prepare_grows _ _ _ _ _ Hp) as Hd. cbn in Hd. pose proof (prepare_declares _ _ _ _ _ Hp Hr) as Hdecl.
      intros i' ch' w'. cbn. intros [Hin|Hin]%elem_of_app.
      * destruct (Hw _ _ _ Hin) as (r' & Hr' & Hrt & Hdel). exists r'. split; [apply elem_of_app; by left|]. split; [done|]. intros dl ? ?. apply Hd. by eapply Hdel.
      * apply list_elem_of_singleton in Hin. injection Hin as -> -> ->. exists r. split; [|done]. apply elem_of_app. left. apply (iv_jobs _ Hi). rewrite Eq. by left.
  - intros [j [Hk [= <-]]]%bind_Some. by apply (Hone _ (Published (job_id j))).
  - unfold barrier_done. destruct (draining p) as [b|]; [|done]. destruct (inflight p); [|done].
    destruct (running p); [|done]. intros [= <-]. by apply (Hone _ (Resolved b)).
  - intros [= <-]. by apply Hsame.
  - intros [= <-]. by apply Hsame.
  - destruct (waiting p); [|done]. intros [= <-]. by apply Hsame.
  - unfold exit. destruct (queue p); [|done]. destruct (draining p); [done|]. destruct (_ && _); [|done]. intros [= <-]. by apply Hsame.
Qed.

(** ** Theorems *)

Hypothesis (capacity_usize : 0 <= buffer_capacity) (budget_small : max_bytes < U64_MAX).

Lemma reach_wires p : reach p -> wires_ok p.
Proof.
  induction 1 as [ch|e p p' Hr IH Hs]; [by intros ? ? ? ?%elem_of_nil|]. eapply wires_step; [|done..]. by apply pump_inv.
Qed.

(** C13. A flush barrier is truthful: when one resolves, every job that entered the
    intake queue before it was published, dropped or (an earlier barrier) resolved,
    whatever the interleaving of callers, transport and recovery. *)
Theorem pump_barrier_truthful p pre b post :
  reach p -> log p = pre ++ Resolved b :: post ->
  exists before after, enqueued pre = before ++ b :: after /\ forall i, i ∈ before -> i ∈ left pre.
Proof.
  intros Hr El. destruct (iv_log _ (pump_inv _ capacity_usize budget_small Hr) _ _ _ El) as (before & after & E & Hb).
  exists before, after. split; [done|]. by apply Forall_forall.
Qed.

(** Every job a caller created is in exactly one place (its caller, the intake
    queue, in flight, the barrier being drained, or gone), the bytes reserved are
    those of the jobs still held, never above the budget, and the queue and the
    publications in flight keep to their capacities. *)
Theorem pump_accounts p :
  reach p ->
  (forall i, (i < next_id p)%nat -> places i p = 1%nat) /\
  used p = total (waiting p) + total (queue p) + total (inflight p) /\ 0 <= used p <= Z.max 0 max_bytes /\
  Z.of_nat (length (queue p)) <= intake_capacity buffer_capacity /\ Z.of_nat (length (inflight p)) <= inflight_cap buffer_capacity.
Proof.
  intros Hr. destruct (pump_inv _ capacity_usize budget_small Hr) as [H1 _ H2 H3 H4 H5 _ _ _]. split; [|done].
  intros i Hi. rewrite H1. by case_decide.
Qed.

(** Publications reach the transport in the order they entered the queue, each as
    the delay router rewrote its request, and a delayed one only after its delay
    infrastructure was declared. *)
Theorem pump_wire_order p :
  reach p -> wired (log p) `sublist_of` enqueued (log p) /\ wires_ok p.
Proof.
  intros Hr. split; [|by apply reach_wires]. destruct (iv_order _ (pump_inv _ capacity_usize budget_small Hr)) as (taken & -> & Hs & _).
  by apply sublist_inserts_r.
Qed.

(** *** Draining *)

(** The pump's own steps; [ECompleted] is the transport's answer. *)
Definition internal (e : Event) : bool := match e with EIntake _ | ECompleted _ | EBarrier => true | _ => false end.

Definition work p : nat := (3 * length (queue p) + length (inflight p) + if draining p is Some _ then 2 else 0)%nat.

Lemma internal_step e p p' : internal e = true -> step e p = Some p' -> (work p' < work p)%nat /\ (running p = true -> running p' = true).
Proof.
  destruct e as [| | | |a|k| | | | |]; cbn [PublishPump.step internal]; try done; intros _.
  - intros (Er & Ed & _ & j & rest & Eq & Hj)%intake_cases. unfold work. rewrite Eq, Ed.
    destruct j as [i r|b]; subst p'; [|split; [|done]; cbn; lia].
    destruct (publish_job_cases a i r (set_queue rest p)) as [d [->|(ch & w & _ & _ & _ & ->)]]; (split; [|done]); cbn; rewrite ?length_app, Ed; cbn; lia.
  - intros [j [Hk [= <-]]]%bind_Some. split; [|done]. unfold work. cbn. pose proof (length_delete (inflight p) k (mk_is_Some _ _ Hk)) as E.
    pose proof (lookup_lt_Some _ _ _ Hk). lia.
  - unfold barrier_done, work. destruct (draining p) as [b|] eqn:Ed; [|done]. destruct (inflight p) eqn:Ef; [|done].
    destruct (running p) eqn:Er; [|done]. intros [= <-]. cbn. rewrite Ef. cbn. split; [lia|done].
Qed.

Lemma internal_run es p p' :
  Forall (fun e => internal e = true) es -> run sha256 delay_strategy max_bytes buffer_capacity es p = Some p' ->
  (length es + work p' <= work p)%nat /\ (running p = true -> running p' = true) /\ (reach p -> reach p').
Proof.
  intros Hes. revert p. induction Hes as [|e es He Hes IH]; intros p; cbn [run length].
  - intros [= <-]. split; [lia|done].
  - intros [q [Hs Hq]]%bind_Some. destruct (internal_step _ _ _ He Hs) as [Hlt Hrun]. destruct (IH q Hq) as (Hle & Hr & Hre).
    split; [lia|]. split; [by auto|]. intros ?. apply Hre. by eapply reach_step.
Qed.

Definition accepting : Channel := mkChannel (fun _ => Ok tt) (fun _ => Ok tt).

Lemma stuck_drained p :
  running p = true -> (forall e, internal e = true -> step e p = None) -> queue p = [] /\ inflight p = [] /\ draining p = None.
Proof.
  intros Er Hs. assert (inflight p = []) as Ef.
  { pose proof (Hs (ECompleted 0) eq_refl) as E. cbn in E. unfold completed in E. by destruct (inflight p). }
  assert (draining p = None) as Ed.
  { pose proof (Hs EBarrier eq_refl) as E. cbn in E. unfold barrier_done in E. rewrite Ef, Er in E. by destruct (draining p). }
  split; [|done]. pose proof (Hs (EIntake accepting) eq_refl) as E. cbn [PublishPump.step] in E. unfold PublishPump.intake in E.
  rewrite Er, Ef, Ed, (proj2 (Z.ltb_lt _ _)) in E by (cbn; unfold inflight_cap; lia). cbn in E. by destruct (queue p) as [|[] ].
Qed.

(** C14. A running pump drains: it takes at most [work p] steps of its own before it
    needs a caller, and where it can take none, nothing is queued, in flight or
    waiting at a barrier and everything ever enqueued has left. So every flush
    barrier resolves once the transport answered what is in flight. *)
Theorem pump_drains p es p' :
  reach p -> running p = true -> Forall (fun e => internal e = true) es ->
  run sha256 delay_strategy max_bytes buffer_capacity es p = Some p' ->
  (length es <= work p)%nat /\
  ((forall e, internal e = true -> step e p' = None) ->
   queue p' = [] /\ inflight p' = [] /\ draining p' = None /\ forall i, i ∈ enqueued (log p') -> i ∈ left (log p')).
Proof.
  intros Hr Er Hes Hrun. destruct (internal_run _ _ _ Hes Hrun) as (Hle & Hrun' & Hre). split; [lia|].
  intros Hs. destruct (stuck_drained p' (Hrun' Er) Hs) as (Eq & Ef & Ed). repeat split; try done.
  destruct (iv_order _ (pump_inv _ capacity_usize budget_small (Hre Hr))) as (taken & -> & _ & Ht & _).
  rewrite Eq, Ef, Ed in *. cbn in *. rewrite app_nil_r. by apply Forall_forall.
Qed.

Lemma pump_run_reach es p p' : reach p -> run sha256 delay_strategy max_bytes buffer_capacity es p = Some p' -> reach p'.
Proof.
  revert p. induction es as [|e es IH]; intros p Hr; cbn [run]; [by intros [= <-]|].
  intros [q [Hs Hq]]%bind_Some. eapply IH; [|done]. by eapply reach_step.
Qed.

End System.

(** ** A delayed publication and a barrier *)

Definition demo_strategy : option DelayStrategy := Some (TtlBuckets default_plan).
Abbreviation demo_run := (run toy_digest demo_strategy 1000 16).
Abbreviation demo_reach := (PublishPump.reach toy_digest demo_strategy 1000 16).

(** A caller publishes and flushes; the pump takes both. *)
Definition demo_fed : list Event :=
  [EPublish delayed_job; ESend 0; EFlush; ESend 0; EIntake accepting].
Definition demo_rest : list Event := [EIntake accepting; ECompleted 0; EBarrier].

Definition demo_mid : Pump := default (spawn 1) (demo_run demo_fed (spawn 1)).
Definition demo_end : Pump := default (spawn 1) (demo_run (demo_fed ++ demo_rest) (spawn 1)).

Lemma demo_mid_reach : demo_reach demo_mid.
Proof. apply (pump_run_reach _ _ _ _ demo_fed (spawn 1)); [constructor|vm_compute; reflexivity]. Qed.

Lemma demo_end_reach : demo_reach demo_end.
Proof. apply (pump_run_reach _ _ _ _ (demo_fed ++ demo_rest) (spawn 1)); [constructor|vm_compute; reflexivity]. Qed.

Lemma pump_barrier_truthful_witness :
  log demo_end = take 4 (log demo_end) ++ [Resolved 1] /\
  exists before after, enqueued (take 4 (log demo_end)) = before ++ 1%nat :: after /\
    forall i, i ∈ before -> i ∈ left (take 4 (log demo_end)).
Proof.
  split; [vm_compute; reflexivity|].
  apply (pump_barrier_truthful toy_digest demo_strategy 1000 16 ltac:(lia) ltac:(unfold U64_MAX; lia) demo_end _ 1 [] demo_end_reach).
  vm_compute; reflexivity.
Defined.

Lemma pump_accounts_witness : next_id demo_mid = 2%nat /\ used demo_mid = 2 /\ 0 <= used demo_mid <= 1000.
Proof.
  split; [vm_compute; reflexivity|]. split; [vm_compute; reflexivity|].
  exact (proj1 (proj2 (proj2 (pump_accounts toy_digest demo_strategy 1000 16 ltac:(lia) ltac:(unfold U64_MAX; lia) demo_mid demo_mid_reach)))).
Defined.

Lemma pump_wire_order_witness :
  wired (log demo_mid) = [0%nat] /\ wired (log demo_mid) `sublist_of` enqueued (log demo_mid) /\ wires_ok toy_digest demo_strategy demo_mid.
Proof.
  split; [vm_compute; reflexivity|].
  exact (pump_wire_order toy_digest demo_strategy 1000 16 ltac:(lia) ltac:(unfold U64_MAX; lia) demo_mid demo_mid_reach).
Defined.

Lemma pump_drains_witness : work demo_mid = 4%nat /\ (length demo_rest <= work demo_mid)%nat.
Proof.
  split; [vm_compute; reflexivity|].
  refine (proj1 (pump_drains toy_digest demo_strategy 1000 16 ltac:(lia) ltac:(unfold U64_MAX; lia) demo_mid demo_rest demo_end demo_mid_reach _ _ _)).
  - vm_compute; reflexivity.
  - repeat constructor.
  - vm_compute; reflexivity.
Defined.


End PublishPumpSystem.
