(* ===== verification/RuntimeRegistry.v ===== *)
(** * The process registry of pools

    Models [runtime.rs] (the registry of connection handles of a process),
    [pool/mod.rs] (a handle and its claims) and the life of a PHP [Pool] object as far
    as it holds a claim ([classes/pool.rs]).

    Handles are shared: the heap maps a handle's serial number to its state. A call of
    [acquire], [close_claim] or [close] in progress is a thread; a step of it is one
    section under the registry's mutex or one access to a handle. A fork copies the
    memory and keeps the calling thread only. *)

From S2P Require Import Prelude.
Local Open Scope Z_scope.

Module RuntimeRegistry.

(** ** Handles *)

(** [ConnectionHandle]; [hd_client] tells of an initialized client whether it is closed. *)
Record Handle := mkHandle {
  hd_pid : Z;
  hd_runtime : nat;
  hd_closed : bool;
  hd_claims : Z;
  hd_client : option bool
}.

Definition handle_new (pid : Z) (runtime : nat) : Handle := mkHandle pid runtime false 0 None.

Definition add_claim (h : Handle) : Handle :=
  mkHandle (hd_pid h) (hd_runtime h) (hd_closed h) ((hd_claims h + 1) mod (U64_MAX + 1)) (hd_client h).

(** The count is restored when there was no claim. *)
Definition release_claim (h : Handle) : bool * Handle :=
  let previous := hd_claims h in
  let set claims := mkHandle (hd_pid h) (hd_runtime h) (hd_closed h) claims (hd_client h) in
  let h := set ((previous - 1) mod (U64_MAX + 1)) in
  if previous =? 0 then (false, set ((hd_claims h + 1) mod (U64_MAX + 1))) else (previous =? 1, h).

(** [ConnectionHandle::close] *)
Definition handle_close (h : Handle) : Handle :=
  mkHandle (hd_pid h) (hd_runtime h) true (hd_claims h) (hd_client h).

(** [ConnectionHandle::client]: the client is made once. *)
Definition client (h : Handle) : Handle :=
  mkHandle (hd_pid h) (hd_runtime h) (hd_closed h) (hd_claims h) (Some (default false (hd_client h))).

(** [ClientPool::close] of the handle's client, if there is one. *)
Definition client_close (h : Handle) : Handle :=
  mkHandle (hd_pid h) (hd_runtime h) (hd_closed h) (hd_claims h) ((fun _ => true) <$> hd_client h).

(** ** The registry *)

(** [ConnectionKey]: the fingerprint of the configuration. *)
Abbreviation Key := string.

Record PoolEntry := mkEntry { pe_handle : nat; last_used : Z }.

#[global] Instance pool_entry_eq_dec : EqDecision PoolEntry.
Proof. solve_decision. Defined.

Record ProcessState := mkProcess { pid : Z; runtime : nat; pools : gmap Key PoolEntry }.

Definition MAX_POOLS : nat := 16.

(** A PHP [Pool] object. *)
Record Pool := mkPool { po_handle : nat; po_pid : Z; claim_open : bool }.

(** Where a call stands. [Invalidating]: [acquire] took the state of another process;
    [Acquiring]: before the second locked section; [Evicting]: it has its handle and
    closes the one it evicted; [Closing]: [close_claim] released the last claim;
    [Retiring]: and closed the client; [ShuttingDown]: the registry's [close]. *)
Inductive Thread :=
| Invalidating (key : Key) (handles : list nat)
| Acquiring (key : Key)
| Evicting (handle victim : nat)
| Closing (handle : nat)
| Retiring (handle : nat)
| ShuttingDown (foreign : bool) (handles : list nat) (runtime : nat).

(** What happened, for the theorems to speak of: an eviction with the claims of the
    victim, the shutdown of a runtime, a handle handed out. *)
Inductive Entry :=
| Evicted (handle : nat) (claims : Z)
| Created (runtime : nat) (process : Z)
| Shutdown (runtime : nat) (process : Z)
| HandedOut (handle : nat) (process : Z) (closed : bool)
| ReleasedLast (handle : nat)
| RegistryClosed (handle : nat).

(** [peak] is the highest number of pools that were all claimed when the cap was
    exceeded. *)
Record World := mkWorld {
  process : Z;
  registry : option ProcessState;
  heap : gmap nat Handle;
  next_serial : nat;
  next_runtime : nat;
  objects : list Pool;
  threads : gmap nat Thread;
  peak : nat;
  log : list Entry
}.

Definition set_registry (r : option ProcessState) (w : World) : World :=
  mkWorld (process w) r (heap w) (next_serial w) (next_runtime w) (objects w) (threads w) (peak w) (log w).
Definition set_heap (f : gmap nat Handle -> gmap nat Handle) (w : World) : World :=
  mkWorld (process w) (registry w) (f (heap w)) (next_serial w) (next_runtime w) (objects w) (threads w) (peak w) (log w).
Definition set_threads (t : gmap nat Thread) (w : World) : World :=
  mkWorld (process w) (registry w) (heap w) (next_serial w) (next_runtime w) (objects w) t (peak w) (log w).
Definition set_objects (l : list Pool) (w : World) : World :=
  mkWorld (process w) (registry w) (heap w) (next_serial w) (next_runtime w) l (threads w) (peak w) (log w).
Definition set_peak (n : nat) (w : World) : World :=
  mkWorld (process w) (registry w) (heap w) (next_serial w) (next_runtime w) (objects w) (threads w) n (log w).
Definition note (e : Entry) (w : World) : World :=
  mkWorld (process w) (registry w) (heap w) (next_serial w) (next_runtime w) (objects w) (threads w) (peak w) (log w ++ [e]).

Definition goto (t : nat) (pc : Thread) (w : World) : World := set_threads (<[t := pc]> (threads w)) w.
Definition finish (t : nat) (w : World) : World := set_threads (delete t (threads w)) w.
Definition on_handle (h : nat) (f : Handle -> Handle) (w : World) : World := set_heap (alter f h) w.
Definition on_handles (hs : list nat) (f : Handle -> Handle) (w : World) : World :=
  foldr (fun h => on_handle h f) w hs.

Definition handles_of (p : ProcessState) : list nat := (fun e => pe_handle e.2) <$> map_to_list (pools p).

Definition live_claims (h : nat) (w : World) : Z := default 0 (hd_claims <$> heap w !! h).

(** ** [acquire] *)

(** The first locked section: the state of another process is taken out. *)
Definition acquire_start (t : nat) (key : Key) (w : World) : World :=
  match registry w with
  | Some p =>
      if pid p =? process w then goto t (Acquiring key) w
      else goto t (Invalidating key (handles_of p)) (set_registry None w)
  | None => goto t (Acquiring key) w
  end.

(** [invalidate_inherited_state]; the runtime is forgotten, not shut down. *)
Definition invalidate (hs : list nat) (w : World) : World :=
  foldr (fun h w => note (RegistryClosed h) w) (on_handles hs handle_close w) hs.

(** The first pool with the oldest [last_used] among those [order] lists. *)
Fixpoint min_by_last_used (order : list (Key * PoolEntry)) : option (Key * PoolEntry) :=
  match order with
  | [] => None
  | x :: rest =>
      match min_by_last_used rest with
      | Some y => if last_used y.2 <? last_used x.2 then Some y else Some x
      | None => Some x
      end
  end.

(** [take_oldest_idle_pool]; [order] is the map's iteration order. *)
Definition take_oldest_idle_pool (order : list (Key * PoolEntry)) (p : ProcessState) (w : World) : option nat * World :=
  let w := set_registry (Some p) w in
  if bool_decide (size (pools p) <= MAX_POOLS)%nat then (None, w)
  else
    match min_by_last_used (filter (fun e => live_claims (pe_handle e.2) w = 0) order) with
    | None => (None, set_peak (Nat.max (peak w) (size (pools p))) w)
    | Some (key, e) => (Some (pe_handle e), set_registry (Some (mkProcess (pid p) (runtime p) (delete key (pools p)))) w)
    end.

(** [Pool::__construct] after [acquire]: the client is attached, the object is born. *)
Definition constructed (t h : nat) (w : World) : World :=
  finish t (set_objects (objects w ++ [mkPool h (process w) true]) (on_handle h client w)).

Definition hand_out (h : nat) (w : World) : World :=
  note (HandedOut h (process w) (default true (hd_closed <$> heap w !! h))) w.

(** A lookup in the map that finds an open handle. *)
Definition open_entry (key : Key) (p : ProcessState) (w : World) : option PoolEntry :=
  e ← pools p !! key;
  h ← heap w !! pe_handle e;
  if hd_closed h then None else Some e.

(** The second locked section with its state initialized. *)
Definition acquire_in (t : nat) (key : Key) (now : Z) (order : list (Key * PoolEntry)) (p : ProcessState) (w : World) : World :=
  match open_entry key p w with
  | Some e =>
      let w := on_handle (pe_handle e) add_claim w in
      let w := set_registry (Some (mkProcess (pid p) (runtime p) (<[key := mkEntry (pe_handle e) now]> (pools p)))) w in
      constructed t (pe_handle e) (hand_out (pe_handle e) w)
  | None =>
      let h := next_serial w in
      let w := mkWorld (process w) (registry w) (<[h := add_claim (handle_new (process w) (runtime p))]> (heap w))
                 (S h) (next_runtime w) (objects w) (threads w) (peak w) (log w) in
      let p := mkProcess (pid p) (runtime p) (<[key := mkEntry h now]> (pools p)) in
      let '(evicted, w) := take_oldest_idle_pool order p w in
      let w := hand_out h w in
      match evicted with
      | None => constructed t h w
      | Some v => goto t (Evicting h v) (note (Evicted v (live_claims v w)) w)
      end
  end.

(** The pools after the insertion, which the eviction iterates over. *)
Definition order_ok (key : Key) (now : Z) (order : list (Key * PoolEntry)) (w : World) : Prop :=
  order ≡ₚ map_to_list (<[key := mkEntry (next_serial w) now]> (default ∅ (pools <$> registry w))).

#[global] Instance order_ok_dec key now order w : Decision (order_ok key now order w).
Proof. unfold order_ok. apply _. Defined.

(** The second locked section; [created] is the runtime factory's answer. *)
Definition acquire_locked (t : nat) (key : Key) (now : Z) (order : list (Key * PoolEntry)) (created : bool) (w : World) : World :=
  match registry w with
  | Some p => acquire_in t key now order p w
  | None =>
      if created then
        let r := next_runtime w in
        let p := mkProcess (process w) r ∅ in
        let w := mkWorld (process w) (Some p) (heap w) (next_serial w) (S r) (objects w) (threads w) (peak w)
                   (log w ++ [Created r (process w)]) in
        acquire_in t key now order p w
      else finish t w
  end.

(** [close_evicted_pool], then the acquire returns. *)
Definition evict (t h v : nat) (w : World) : World :=
  constructed t h (on_handle v client_close (on_handle v handle_close w)).

(** ** Claims *)

(** [Pool::close] up to the first await of [close_claim]; [None] means that it returned. *)
Definition pool_close (t : nat) (i : nat) (w : World) : option World :=
  o ← objects w !! i;
  if negb (po_pid o =? process w) then Some w
  else if negb (claim_open o) then Some w
  else
    let w := set_objects (<[i := mkPool (po_handle o) (po_pid o) false]> (objects w)) w in
    h ← heap w !! po_handle o;
    let '(last, h) := release_claim h in
    let w := on_handle (po_handle o) (fun _ => h) w in
    Some (if last then goto t (Closing (po_handle o)) (note (ReleasedLast (po_handle o)) w) else w).

(** [close_claim] after the release: the client is closed unless the handle was. *)
Definition close_client (t h : nat) (w : World) : World :=
  let w := match heap w !! h with Some x => if hd_closed x then w else on_handle h client_close w | None => w end in
  goto t (Retiring h) w.

Definition retire (t h : nat) (w : World) : World := finish t (on_handle h handle_close w).

(** [__destruct] releases the claim and leaves the connection for reuse. *)
Definition pool_destruct (i : nat) (w : World) : option World :=
  o ← objects w !! i;
  if negb (po_pid o =? process w) then Some w
  else if negb (claim_open o) then Some w
  else
    h ← heap w !! po_handle o;
    let w := set_objects (<[i := mkPool (po_handle o) (po_pid o) false]> (objects w)) w in
    Some (on_handle (po_handle o) (fun _ => (release_claim h).2) w).

(** ** [RuntimeRegistry::close] *)

Definition close_start (t : nat) (w : World) : World :=
  match registry w with
  | None => w
  | Some p => goto t (ShuttingDown (negb (pid p =? process w)) (handles_of p) (runtime p)) (set_registry None w)
  end.

(** [invalidate_inherited_state], or [close_state]; [remaining] says that the budget
    was not used up before the clients were closed. *)
Definition close_finish (t : nat) (foreign : bool) (hs : list nat) (r : nat) (remaining : bool) (w : World) : World :=
  if foreign then finish t (invalidate hs w)
  else
    let w := invalidate hs w in
    let w := if remaining then on_handles hs client_close w else w in
    finish t (note (Shutdown r (process w)) w).

(** ** The system *)

Inductive Event :=
| EConstruct (t : nat) (key : Key)
| EStep (t : nat) (now : Z) (order : list (Key * PoolEntry)) (answer : bool)
| EClose (t i : nat)
| EDestruct (i : nat)
| EShutdown (t : nat)
| EFork (child : Z).

(** One step of a call. *)
Definition advance (t : nat) (now : Z) (order : list (Key * PoolEntry)) (answer : bool) (w : World) : option World :=
  pc ← threads w !! t;
  match pc with
  | Invalidating key hs => Some (goto t (Acquiring key) (invalidate hs w))
  | Acquiring key => if decide (order_ok key now order w) then Some (acquire_locked t key now order answer w) else None
  | Evicting h v => Some (evict t h v w)
  | Closing h => Some (close_client t h w)
  | Retiring h => Some (retire t h w)
  | ShuttingDown foreign hs r => Some (close_finish t foreign hs r answer w)
  end.

(** No process of the lineage had this identifier. *)
Definition new_pid (child : Z) (w : World) : Prop :=
  child <> process w /\ map_Forall (fun _ h => hd_pid h <> child) (heap w) /\
  match registry w with Some p => pid p <> child | None => True end /\
  Forall (fun e => match e with Created _ p | Shutdown _ p => p <> child | _ => True end) (log w).

#[global] Instance new_pid_dec child w : Decision (new_pid child w).
Proof.
  unfold new_pid. repeat apply and_dec; try apply _; [destruct (registry w); apply _|].
  apply Forall_dec. intros []; apply _.
Defined.

(** Thread [t] can start a call: it is in none, and memory holds one more object. *)
Definition can_start (t : nat) (w : World) : bool :=
  match threads w !! t with Some _ => false | None => Z.of_nat (length (objects w) + size (threads w)) <? U64_MAX end.

Definition step (e : Event) (w : World) : option World :=
  match e with
  | EConstruct t key => if can_start t w then Some (acquire_start t key w) else None
  | EStep t now order answer => advance t now order answer w
  | EClose t i => if can_start t w then pool_close t i w else None
  | EDestruct i => pool_destruct i w
  | EShutdown t => if can_start t w then Some (close_start t w) else None
  | EFork child =>
      if decide (new_pid child w) then
        Some (mkWorld child (registry w) (heap w) (next_serial w) (next_runtime w) (objects w) ∅ (peak w) (log w))
      else None
  end.

Definition init (process : Z) : World := mkWorld process None ∅ 1 0 [] ∅ 0 [].

Fixpoint run (es : list Event) (w : World) : option World :=
  match es with
  | [] => Some w
  | e :: es' => w' ← step e w; run es' w'
  end.

Inductive reach : World -> Prop :=
| reach_init p : reach (init p)
| reach_step e w w' : reach w -> step e w = Some w' -> reach w'.

(** One thread: a call starts only when none is in progress. *)
Definition starts (e : Event) : bool :=
  match e with EConstruct _ _ | EClose _ _ | EDestruct _ | EShutdown _ | EFork _ => true | EStep _ _ _ _ => false end.

Inductive reach_sequential : World -> Prop :=
| seq_init p : reach_sequential (init p)
| seq_step e w w' :
    reach_sequential w -> (starts e = true -> threads w = ∅) -> step e w = Some w' -> reach_sequential w'.

End RuntimeRegistry.
