(* ===== verification/RuntimeRegistryInv.v ===== *)
(** * The process registry of pools: the invariant

    Claims are counted against the pool objects that hold them; every step of every
    thread keeps the invariant. *)

From S2P Require Import Prelude RuntimeRegistry.
Import RuntimeRegistry.
Local Open Scope Z_scope.

Module RuntimeRegistryInv.

Implicit Types (w : World) (h t : nat).

(** ** Holders *)

Definition owns h (o : Pool) : Z := if claim_open o && bool_decide (po_handle o = h) then 1 else 0.
Definition holds h (pc : Thread) : Z := match pc with Evicting h' _ => if bool_decide (h' = h) then 1 else 0 | _ => 0 end.

(** The objects with an open claim on [h] and the calls that are about to make one. *)
Definition holders h w : Z := sumZ (owns h) (objects w) + sum_map (holds h) (threads w).

(** What the invariant says of a handle: its process and its claims. *)
Definition core (x : Handle) : Z * Z := (hd_pid x, hd_claims x).
Definition cores w : gmap nat (Z * Z) := core <$> heap w.
#[global] Arguments cores : simpl never.
#[global] Arguments holders : simpl never.

Definition thread_ok w (pc : Thread) : Prop :=
  match pc with
  | Invalidating _ _ | Acquiring _ => forall p, registry w = Some p -> pid p = process w
  | Evicting h _ => exists c, cores w !! h = Some (process w, c)
  | Closing h | Retiring h => is_Some (cores w !! h)
  | ShuttingDown foreign _ r => foreign = false -> Created r (process w) ∈ log w
  end.

Definition entry_ok w (e : Entry) : Prop :=
  match e with
  | Evicted h c => c = 0 /\ is_Some (cores w !! h) /\ holders h w = 0 /\
      forall p key e, registry w = Some p -> pools p !! key = Some e -> pe_handle e <> h
  | Shutdown r q => Created r q ∈ log w
  | HandedOut h q _ => exists c, cores w !! h = Some (q, c)
  | _ => True
  end.

Record inv w : Prop := {
  iv_heap : forall h x, cores w !! h = Some x -> (h < next_serial w)%nat;
  iv_claims : forall h c, cores w !! h = Some (process w, c) -> c = holders h w;
  iv_room : Z.of_nat (length (objects w) + size (threads w)) <= U64_MAX;
  iv_entries : forall p key e, registry w = Some p -> pools p !! key = Some e -> exists c, cores w !! pe_handle e = Some (pid p, c);
  iv_inj : forall p k k' e e', registry w = Some p -> pools p !! k = Some e -> pools p !! k' = Some e' -> pe_handle e = pe_handle e' -> k = k';
  iv_objects : forall o, o ∈ objects w -> exists c, cores w !! po_handle o = Some (po_pid o, c);
  iv_threads : forall t pc, threads w !! t = Some pc -> thread_ok w pc;
  iv_runtime : forall p, registry w = Some p -> Created (runtime p) (pid p) ∈ log w;
  iv_log : forall e, e ∈ log w -> entry_ok w e;
  iv_size : forall p, registry w = Some p -> (size (pools p) <= Nat.max MAX_POOLS (peak w))%nat
}.

Lemma owns_nonneg h o : 0 <= owns h o.
Proof. unfold owns. destruct (_ && _); lia. Qed.

Lemma holds_nonneg h pc : 0 <= holds h pc.
Proof. destruct pc; cbn; try lia. case_bool_decide; lia. Qed.

Lemma holders_nonneg h w : 0 <= holders h w.
Proof.
  unfold holders. pose proof (sum_map_nonneg (holds h) (threads w) (holds_nonneg h)).
  assert (0 <= sumZ (owns h) (objects w)) by (apply sumZ_nonneg, Forall_forall; intros; apply owns_nonneg). lia.
Qed.

Lemma sum_map_size {A} (f : A -> Z) (m : gmap nat A) : (forall x, f x <= 1) -> sum_map f m <= Z.of_nat (size m).
Proof.
  intros Hf. unfold sum_map. rewrite <- length_map_to_list. etransitivity; [apply sumZ_le with (g := fun _ => 1), Forall_forall; auto|].
  rewrite sumZ_const. lia.
Qed.

Lemma holders_room h w : inv w -> holders h w <= U64_MAX.
Proof.
  intros Hi. pose proof (iv_room _ Hi). unfold holders.
  assert (sum_map (holds h) (threads w) <= Z.of_nat (size (threads w))).
  { apply sum_map_size. intros []; cbn; try lia. case_bool_decide; lia. }
  assert (sumZ (owns h) (objects w) <= Z.of_nat (length (objects w))).
  { etransitivity; [apply sumZ_le with (g := fun _ => 1), Forall_forall; intros; unfold owns; destruct (_ && _); lia|].
    rewrite sumZ_const. lia. }
  lia.
Qed.

(** ** Heap updates *)

Lemma cores_on_handle h f w : (forall x, core (f x) = core x) -> cores (on_handle h f w) = cores w.
Proof.
  intros Hf. unfold cores, on_handle, set_heap. cbn. apply map_eq. intros i. rewrite !lookup_fmap, lookup_alter.
  case_decide; [|done]. subst. destruct (heap w !! i); cbn; by rewrite ?Hf.
Qed.

Lemma on_handles_frame hs f w :
  (forall x, core (f x) = core x) ->
  cores (on_handles hs f w) = cores w /\ process (on_handles hs f w) = process w /\ registry (on_handles hs f w) = registry w /\
  objects (on_handles hs f w) = objects w /\ next_serial (on_handles hs f w) = next_serial w /\
  threads (on_handles hs f w) = threads w /\ log (on_handles hs f w) = log w /\ peak (on_handles hs f w) = peak w.
Proof.
  intros Hf. induction hs as [|h hs IH]; cbn [on_handles foldr]; [done|]. rewrite cores_on_handle by done. exact IH.
Qed.

Lemma invalidate_frame hs w :
  cores (invalidate hs w) = cores w /\ process (invalidate hs w) = process w /\ registry (invalidate hs w) = registry w /\
  objects (invalidate hs w) = objects w /\ next_serial (invalidate hs w) = next_serial w /\
  threads (invalidate hs w) = threads w /\ peak (invalidate hs w) = peak w /\
  exists es, log (invalidate hs w) = log w ++ es /\ Forall (fun e => exists h, e = RegistryClosed h) es.
Proof.
  unfold invalidate. destruct (on_handles_frame hs handle_close w) as (E1 & E2 & E3 & E4 & E5 & E6 & E7 & E8); [done|].
  set (w1 := on_handles hs handle_close w) in *. clearbody w1.
  induction hs as [|h hs (F1 & F2 & F3 & F4 & F5 & F6 & F7 & es & F8 & F9)]; cbn [foldr].
  - repeat split; try done. exists []. by rewrite app_nil_r.
  - repeat split; try done. exists (es ++ [RegistryClosed h]). cbn. rewrite F8, <- app_assoc. split; [done|].
    apply Forall_app. split; [done|]. apply Forall_singleton. by exists h.
Qed.

(** ** Steps that leave claims alone *)

Lemma inv_quiet w w' es :
  inv w -> process w' = process w -> cores w' = cores w -> next_serial w' = next_serial w ->
  registry w' = registry w \/ registry w' = None -> peak w' = peak w ->
  (forall o, o ∈ objects w' -> o ∈ objects w \/ exists c, cores w !! po_handle o = Some (po_pid o, c)) ->
  (forall h, holders h w' = holders h w) ->
  Z.of_nat (length (objects w') + size (threads w')) <= U64_MAX ->
  (forall t pc, threads w' !! t = Some pc -> threads w !! t = Some pc \/ thread_ok w' pc) ->
  log w' = log w ++ es -> (forall e, e ∈ es -> entry_ok w' e) -> inv w'.
Proof.
  intros [H1 H2 H3 H4 H5 H6 H7 H8 H9 H10] Ep Ec En Er Epk Ho Ehold Hroom Hth El Hes.
  assert (forall p, registry w' = Some p -> registry w = Some p) as Hreg by (intros p E; destruct Er as [<-|Er]; congruence).
  assert (forall e, e ∈ log w -> e ∈ log w') as Hlog by (intros e He; rewrite El; apply elem_of_app; by left).
  split; rewrite ?Ep, ?Ec, ?En, ?Epk; eauto.
  - intros h c Hc. rewrite Ehold. auto.
  - intros o [?|?]%Ho; auto.
  - intros t pc [Hpc%H7|?]%Hth; [|done]. destruct pc; cbn in *; rewrite ?Ec, ?Ep; eauto.
  - intros e. rewrite El. intros [He%H9|He]%elem_of_app; [|auto].
    destruct e; cbn in *; rewrite ?Ec, ?Ehold; try done; [|by apply Hlog].
    destruct He as (? & ? & ? & He). repeat split; eauto.
Qed.

(** The call of a thread moves on without taking a claim. *)
Lemma inv_goto w w' t pc :
  inv w -> (threads w !! t = None \/ exists pc0, threads w !! t = Some pc0 /\ forall h, holds h pc0 = 0) ->
  (threads w !! t = None -> Z.of_nat (length (objects w) + size (threads w)) < U64_MAX) ->
  (forall h, holds h pc = 0) ->
  threads w' = <[t := pc]> (threads w) ->
  process w' = process w -> cores w' = cores w -> objects w' = objects w -> next_serial w' = next_serial w ->
  registry w' = registry w \/ registry w' = None -> peak w' = peak w -> thread_ok w' pc ->
  (exists es, log w' = log w ++ es /\ forall e, e ∈ es -> entry_ok w' e) -> inv w'.
Proof.
  intros Hi Ht Hroom Hpc Et Ep Ec Eo En Er Epk Hok (es & El & Hes). pose proof (iv_room _ Hi).
  apply (inv_quiet w w' es); try done; unfold holders; rewrite ?Eo, ?Et; [by auto|..].
  - intros h. f_equal. destruct Ht as [Ht|(pc0 & Ht & H0)]; [rewrite sum_map_insert_new by done|rewrite (sum_map_insert _ _ _ _ pc0) by done; rewrite H0];
      rewrite Hpc; lia.
  - destruct Ht as [Ht|(pc0 & Ht & H0)]; [rewrite map_size_insert_None by done; specialize (Hroom Ht)|rewrite map_size_insert_Some by (by eexists)]; lia.
  - intros t' pc'. rewrite lookup_insert. case_decide; [|by left]. intros [= <-]. by right.
Qed.

Lemma inv_finish w w' t pc0 :
  inv w -> threads w !! t = Some pc0 -> (forall h, holds h pc0 = 0) -> threads w' = delete t (threads w) ->
  process w' = process w -> cores w' = cores w -> objects w' = objects w -> next_serial w' = next_serial w ->
  registry w' = registry w \/ registry w' = None -> peak w' = peak w ->
  (exists es, log w' = log w ++ es /\ forall e, e ∈ es -> entry_ok w' e) -> inv w'.
Proof.
  intros Hi Ht H0 Et Ep Ec Eo En Er Epk (es & El & Hes). pose proof (iv_room _ Hi).
  apply (inv_quiet w w' es); try done; unfold holders; rewrite ?Eo, ?Et; [by auto|..].
  - intros h. f_equal. rewrite (sum_map_delete _ (threads w) t pc0 Ht), H0. lia.
  - rewrite map_size_delete_Some by (by eexists). lia.
  - intros t' pc'. rewrite lookup_delete_Some. intros [_ ?]. by left.
Qed.

Lemma can_start_spec t w :
  can_start t w = true -> threads w !! t = None /\ Z.of_nat (length (objects w) + size (threads w)) < U64_MAX.
Proof. unfold can_start. destruct (threads w !! t); [done|]. intros ?%Z.ltb_lt. done. Qed.

Lemma inv_acquire_start t key w : inv w -> can_start t w = true -> inv (acquire_start t key w).
Proof.
  intros Hi [Ht Hroom]%can_start_spec. unfold acquire_start.
  assert (forall w' pc, threads w' = <[t := pc]> (threads w) -> (forall h, holds h pc = 0) ->
    process w' = process w -> cores w' = cores w -> objects w' = objects w -> next_serial w' = next_serial w ->
    registry w' = registry w \/ registry w' = None -> peak w' = peak w -> thread_ok w' pc -> log w' = log w -> inv w') as Hgo.
  { intros w' pc E1 E2 E3 E4 E5 E6 E7 E8 E9 E10. apply (inv_goto w w' t pc); try done; [by left|]. exists []. rewrite app_nil_r. split; [done|]. by intros ? ?%elem_of_nil. }
  destruct (registry w) as [p|] eqn:Er; [destruct (pid p =? process w) eqn:Ep|].
  - eapply Hgo; try done; [by left|]. cbn. intros p' E. assert (p' = p) as -> by congruence. lia.
  - eapply Hgo; try done; by right.
  - eapply Hgo; try done; [by left|]. cbn. intros p' ?. congruence.
Qed.

Lemma invalidate_entries hs w w1 w2 :
  log w2 = log w1 -> log w1 = log (invalidate hs w) -> exists es, log w2 = log w ++ es /\ forall e, e ∈ es -> entry_ok w2 e.
Proof.
  intros -> ->. destruct (invalidate_frame hs w) as (_ & _ & _ & _ & _ & _ & _ & es & -> & Hes). exists es. split; [done|].
  rewrite Forall_forall in Hes. by intros e [h ->]%Hes.
Qed.

Lemma inv_invalidating t key hs w : inv w -> threads w !! t = Some (Invalidating key hs) -> inv (goto t (Acquiring key) (invalidate hs w)).
Proof.
  intros Hi Ht. pose proof (iv_threads _ Hi _ _ Ht) as Hok. cbn in Hok.
  destruct (invalidate_frame hs w) as (F1 & F2 & F3 & F4 & F5 & F6 & F7 & _).
  apply (inv_goto w _ t (Acquiring key)); cbn; try done; try congruence.
  - right. by eexists.
  - by left.
  - intros p. rewrite F3, F2. apply Hok.
  - exact (invalidate_entries hs w (invalidate hs w) (goto t (Acquiring key) (invalidate hs w)) eq_refl eq_refl).
Qed.

Lemma inv_close_client t h w : inv w -> threads w !! t = Some (Closing h) -> inv (close_client t h w).
Proof.
  intros Hi Ht. pose proof (iv_threads _ Hi _ _ Ht) as Hok. cbn in Hok. unfold close_client.
  assert (forall w1, (w1 = w \/ w1 = on_handle h client_close w) -> inv (goto t (Retiring h) w1)) as Hgo.
  { intros w1 Hw1. assert (cores w1 = cores w) as Ec by (destruct Hw1 as [->| ->]; [done|by apply cores_on_handle]).
    apply (inv_goto w _ t (Retiring h)); try (by destruct Hw1 as [->| ->]); [by eauto|congruence| | |].
    - by destruct Hw1 as [->| ->]; left.
    - cbn. change (cores (goto t (Retiring h) w1)) with (cores w1). by rewrite Ec.
    - exists []. rewrite app_nil_r. split; [by destruct Hw1 as [->| ->]|]. by intros ? ?%elem_of_nil. }
  apply Hgo. destruct (heap w !! h) as [x|]; [|by left]. destruct (hd_closed x); [by left|by right].
Qed.

Lemma inv_retire t h w : inv w -> threads w !! t = Some (Retiring h) -> inv (retire t h w).
Proof.
  intros Hi Ht. apply (inv_finish w _ t (Retiring h)); try done; [by apply cores_on_handle|by left|].
  exists []. rewrite app_nil_r. split; [done|]. by intros ? ?%elem_of_nil.
Qed.

Lemma inv_close_start t w : inv w -> can_start t w = true -> inv (close_start t w).
Proof.
  intros Hi [Ht Hroom]%can_start_spec. unfold close_start. destruct (registry w) as [p|] eqn:Er; [|done].
  apply (inv_goto w _ t (ShuttingDown (negb (pid p =? process w)) (handles_of p) (runtime p))); try done; [by left|by right| |].
  - cbn. intros E. apply negb_false_iff in E. assert (pid p = process w) as <- by lia. by apply (iv_runtime _ Hi).
  - exists []. rewrite app_nil_r. split; [done|]. by intros ? ?%elem_of_nil.
Qed.

Lemma inv_close_finish t foreign hs r remaining w :
  inv w -> threads w !! t = Some (ShuttingDown foreign hs r) -> inv (close_finish t foreign hs r remaining w).
Proof.
  intros Hi Ht. pose proof (iv_threads _ Hi _ _ Ht) as Hok. cbn in Hok. unfold close_finish.
  destruct (invalidate_frame hs w) as (F1 & F2 & F3 & F4 & F5 & F6 & F7 & es & F8 & F9). destruct foreign.
  - apply (inv_finish w _ t (ShuttingDown true hs r)); cbn; try done; [by rewrite F6|by left|].
    exact (invalidate_entries hs w (invalidate hs w) (finish t (invalidate hs w)) eq_refl eq_refl).
  - set (w1 := if remaining then _ else _).
    assert (cores w1 = cores w /\ process w1 = process w /\ registry w1 = registry w /\ objects w1 = objects w /\
      next_serial w1 = next_serial w /\ threads w1 = threads w /\ peak w1 = peak w /\ log w1 = log w ++ es) as (G1 & G2 & G3 & G4 & G5 & G6 & G7 & G8).
    { subst w1. destruct remaining; [|done].
      destruct (on_handles_frame hs client_close (invalidate hs w)) as (-> & -> & -> & -> & -> & -> & -> & ->); done. }
    apply (inv_finish w _ t (ShuttingDown false hs r)); cbn; try done; [by rewrite G6|by left|].
    exists (es ++ [Shutdown r (process w1)]). rewrite G8, <- app_assoc. split; [done|].
    intros e [He|He]%elem_of_app.
    + rewrite Forall_forall in F9. by apply F9 in He as [h ->].
    + apply list_elem_of_singleton in He as ->. cbn. rewrite G8, G2. apply elem_of_app. left. apply elem_of_app. left. by apply Hok.
Qed.

(** ** A claim is taken *)

(** The registry after an acquisition of [key]: the other entries were there before. *)
Definition registry_after w w' (key : Key) h : Prop :=
  forall p', registry w' = Some p' -> pid p' = process w /\ Created (runtime p') (pid p') ∈ log w' /\
    (size (pools p') <= Nat.max MAX_POOLS (peak w'))%nat /\
    forall k e, pools p' !! k = Some e ->
      (k = key /\ pe_handle e = h) \/
      (k <> key /\ exists p, registry w = Some p /\ pid p = process w /\ pools p !! k = Some e).

Lemma inv_claimed w w' key h es :
  inv w -> process w' = process w ->
  cores w' = <[h := (process w, holders h w + 1)]> (cores w) ->
  (forall c, Evicted h c ∉ log w) ->
  (forall q c, cores w !! h = Some (q, c) -> q = process w) ->
  (forall p k e, registry w = Some p -> pools p !! k = Some e -> pe_handle e = h -> k = key) ->
  (next_serial w <= next_serial w')%nat -> (h < next_serial w')%nat ->
  (forall h', holders h' w' = holders h' w + if decide (h' = h) then 1 else 0) ->
  Z.of_nat (length (objects w') + size (threads w')) <= U64_MAX ->
  (forall o, o ∈ objects w' -> o ∈ objects w \/ o = mkPool h (process w) true) ->
  (forall t pc, threads w' !! t = Some pc -> threads w !! t = Some pc \/ exists v, pc = Evicting h v) ->
  log w' = log w ++ es -> (forall e, e ∈ es -> entry_ok w' e) ->
  registry_after w w' key h -> inv w'.
Proof.
  intros [H1 H2 H3 H4 H5 H6 H7 H8 H9 H10] Ep Ec Hev Hq Hkey Hn Hh Hhold Hroom Ho Ht El Hes Hreg.
  assert (forall i q c, cores w !! i = Some (q, c) -> exists c', cores w' !! i = Some (q, c')) as Hmono.
  { intros i q c Hi. rewrite Ec. destruct (decide (i = h)) as [->|Hne]; [|rewrite lookup_insert_ne by done; by eexists].
    rewrite lookup_insert_eq, (Hq _ _ Hi). by eexists. }
  assert (forall e, e ∈ log w -> e ∈ log w') as Hlog by (intros e He; rewrite El; apply elem_of_app; by left).
  split; rewrite ?Ep; try done.
  - intros i x. rewrite Ec, lookup_insert. case_decide; [by subst|]. intros ?%H1. lia.
  - intros i c. rewrite Ec, lookup_insert, Hhold. repeat case_decide; subst; try done; [congruence|]. intros ?%H2. lia.
  - intros p' k e Hp Hk. destruct (Hreg p' Hp) as (Epid & _ & _ & Hent).
    destruct (Hent k e Hk) as [[_ ->]|(_ & p & Hr & Eq & Hpk)].
    + rewrite Ec, lookup_insert_eq, Epid. by eexists.
    + destruct (H4 p k e Hr Hpk) as [c Hc]. rewrite Epid, <- Eq. by eapply Hmono.
  - intros p' k k' e e' Hp Hk Hk' Ee. destruct (Hreg p' Hp) as (_ & _ & _ & Hent).
    destruct (Hent k e Hk) as [[-> Eh]|(Hne & p & Hr & _ & Hpk)]; destruct (Hent k' e' Hk') as [[-> Eh']|(Hne' & p1 & Hr1 & _ & Hpk')]; try done.
    + symmetry. eapply Hkey; [exact Hr1|done|congruence].
    + eapply Hkey; [exact Hr|done|congruence].
    + assert (p1 = p) as -> by congruence. by eapply H5.
  - intros o [Hin| ->]%Ho; [|cbn; rewrite Ec, lookup_insert_eq; by eexists]. destruct (H6 o Hin) as [c Hc]. by eapply Hmono.
  - intros t pc [Hpc%H7|[v ->]]%Ht; [|cbn; rewrite Ec, lookup_insert_eq, Ep; by eexists].
    destruct pc; cbn in *; rewrite ?Ep; eauto; try (intros p' Hp; by apply Hreg).
    + destruct Hpc as [c Hc]. by eapply Hmono.
    + destruct Hpc as [[q c] Hc]. destruct (Hmono _ _ _ Hc) as [c' ->]. by eexists.
    + destruct Hpc as [[q c] Hc]. destruct (Hmono _ _ _ Hc) as [c' ->]. by eexists.
  - intros p' Hp. by apply Hreg.
  - intros e. rewrite El. intros [He|He]%elem_of_app; [|auto]. pose proof (H9 e He) as Hok. destruct e as [v c| |r q|v q cl| |]; cbn in *; try done.
    + assert (v <> h) as Hvh by (intros ->; by eapply Hev). destruct Hok as (-> & [[q c'] Hc] & H0 & Hent). rewrite Hhold, decide_False by done.
      destruct (Hmono _ _ _ Hc) as [c'' ->]. repeat split; [by eexists|lia|]. intros p' k e Hp Hk.
      destruct (Hreg p' Hp) as (_ & _ & _ & Hreg'). destruct (Hreg' k e Hk) as [[_ ->]|(_ & p & Hr & _ & Hpk)]; [done|by eapply Hent].
    + by apply Hlog.
    + destruct Hok as [c Hc]. by eapply Hmono.
  - intros p' Hp. by apply Hreg.
Qed.

Lemma holders_strict w t pc h : inv w -> threads w !! t = Some pc -> holds h pc = 0 -> holders h w < U64_MAX.
Proof.
  intros Hi Ht H0. pose proof (iv_room _ Hi) as Hr. unfold holders. rewrite (sum_map_delete _ _ _ _ Ht), H0.
  assert (sum_map (holds h) (delete t (threads w)) <= Z.of_nat (size (delete t (threads w)))).
  { apply sum_map_size. intros []; cbn; try lia. case_bool_decide; lia. }
  rewrite map_size_delete_Some in H by (by eexists).
  assert (size (threads w) <> 0)%nat by (apply map_size_non_empty_iff; intros E; by rewrite E in Ht).
  assert (sumZ (owns h) (objects w) <= Z.of_nat (length (objects w))).
  { etransitivity; [apply sumZ_le with (g := fun _ => 1), Forall_forall; intros; unfold owns; destruct (_ && _); lia|].
    rewrite sumZ_const. lia. }
  lia.
Qed.

Lemma owns_new h h' q : owns h' (mkPool h q true) = if decide (h' = h) then 1 else 0.
Proof. unfold owns. cbn. case_bool_decide; case_decide; congruence. Qed.

(** [constructed] after a call that held nothing. *)
Lemma holders_constructed w w' t pc h q h' :
  threads w !! t = Some pc -> (forall i, holds i pc = 0) ->
  objects w' = objects w ++ [mkPool h q true] -> threads w' = delete t (threads w) ->
  holders h' w' = holders h' w + if decide (h' = h) then 1 else 0.
Proof.
  intros Ht H0 Eo Et. unfold holders. rewrite Eo, Et, sumZ_app, sumZ_cons, sumZ_nil, owns_new, (sum_map_delete _ _ _ _ Ht), H0. lia.
Qed.

Lemma room_constructed w t pc n :
  inv w -> threads w !! t = Some pc -> n = S (length (objects w)) -> Z.of_nat (n + size (delete t (threads w))) <= U64_MAX.
Proof.
  intros Hi Ht ->. pose proof (iv_room _ Hi). rewrite map_size_delete_Some by (by eexists).
  assert (size (threads w) <> 0)%nat by (apply map_size_non_empty_iff; intros E; by rewrite E in Ht). lia.
Qed.

Lemma not_evicted w p key e c : inv w -> registry w = Some p -> pools p !! key = Some e -> Evicted (pe_handle e) c ∉ log w.
Proof. intros Hi Hr Hk Hin. destruct (iv_log _ Hi _ Hin) as (_ & _ & _ & Hent). by eapply Hent. Qed.

Lemma inv_existing t key now p e w :
  inv w -> threads w !! t = Some (Acquiring key) -> registry w = Some p -> open_entry key p w = Some e ->
  inv (constructed t (pe_handle e) (hand_out (pe_handle e)
        (set_registry (Some (mkProcess (pid p) (runtime p) (<[key := mkEntry (pe_handle e) now]> (pools p))))
          (on_handle (pe_handle e) add_claim w)))).
Proof.
  intros Hi Ht Hr Ho. set (h := pe_handle e). unfold open_entry in Ho. apply bind_Some in Ho as (e' & Hk & Ho).
  apply bind_Some in Ho as (x & Hx & Ho). destruct (hd_closed x) eqn:Ecl; [done|]. injection Ho as ->. fold h in Hx.
  pose proof (iv_threads _ Hi _ _ Ht p Hr) as Epid.
  destruct (iv_entries _ Hi p key e Hr Hk) as [c Hc]. fold h in Hc. rewrite Epid in Hc.
  assert (core x = (process w, c)) as Ecore by (unfold cores in Hc; rewrite lookup_fmap, Hx in Hc; cbn [fmap option_fmap option_map] in Hc; congruence).
  pose proof (iv_claims _ Hi h c Hc) as ->. pose proof (holders_strict w t _ h Hi Ht eq_refl). pose proof (holders_nonneg h w).
  assert (core (add_claim x) = (process w, holders h w + 1)) as Eadd.
  { injection Ecore as E1 E2. unfold core, add_claim. cbn. rewrite E1, E2, Z.mod_small by lia. done. }
  set (w1 := constructed _ _ _).
  assert (cores w1 = <[h := (process w, holders h w + 1)]> (cores w)) as Ec1.
  { subst w1. unfold constructed, finish, set_threads, set_objects. change (cores (on_handle h client (hand_out h (set_registry (Some (mkProcess (pid p) (runtime p) (<[key := mkEntry h now]> (pools p)))) (on_handle h add_claim w)))) = <[h:=(process w, holders h w + 1)]> (cores w)).
    rewrite cores_on_handle by done. change (cores (on_handle h add_claim w) = <[h:=(process w, holders h w + 1)]> (cores w)).
    apply map_eq. intros i. unfold cores, on_handle, set_heap. cbn. rewrite lookup_fmap, lookup_alter, lookup_insert.
    case_decide; [subst i; rewrite Hx; cbn; by rewrite Eadd|by rewrite lookup_fmap]. }
  apply (inv_claimed w w1 key h [HandedOut h (process w) (default true (hd_closed <$> heap (on_handle h add_claim w) !! h))]); try done.
  - intros c'. by apply (not_evicted w p key e).
  - intros q c'. rewrite Hc. by intros [= <- <-].
  - intros p' k e' Hr' Hk' Eh. assert (p' = p) as -> by congruence. by eapply (iv_inj _ Hi p k key e' e).
  - by eapply (iv_heap _ Hi).
  - intros h'. by eapply (holders_constructed w w1 t (Acquiring key) h (process w)).
  - cbn [objects threads w1 constructed finish set_threads set_objects]. eapply (room_constructed w t _ _ Hi Ht). rewrite length_app. cbn. lia.
  - intros o. cbn [w1 constructed finish set_threads set_objects objects]. rewrite elem_of_app, list_elem_of_singleton. done.
  - intros t' pc'. cbn [w1 constructed finish set_threads set_objects threads]. rewrite lookup_delete_Some. intros [_ ?]. by left.
  - intros e' ->%list_elem_of_singleton. cbn. rewrite Ec1, lookup_insert_eq. by eexists.
  - intros p' Hp. cbn in Hp. injection Hp as <-. cbn. split; [done|]. split; [apply elem_of_app; left; by apply (iv_runtime _ Hi)|].
    split; [rewrite map_size_insert_Some by (by eexists); by apply (iv_size _ Hi)|].
    intros k e'. rewrite lookup_insert. case_decide; [subst; intros [= <-]; by left|]. intros Hk'. right. split; [done|]. by exists p.
Qed.

(** ** Eviction *)

Lemma min_by_last_used_elem l x : min_by_last_used l = Some x -> x ∈ l.
Proof.
  revert x. induction l as [|y l IH]; intros x; cbn; [done|]. destruct (min_by_last_used l) as [z|].
  - destruct (_ <? _); intros [= <-]; [right; by apply IH|by left].
  - intros [= <-]. by left.
Qed.

Lemma min_by_last_used_le l x y : min_by_last_used l = Some x -> y ∈ l -> last_used x.2 <= last_used y.2.
Proof.
  revert x. induction l as [|z l IH]; intros x; cbn; [done|]. destruct (min_by_last_used l) as [m|] eqn:E.
  - destruct (last_used m.2 <? last_used z.2) eqn:El; intros [= <-] [->|Hy]%elem_of_cons; zbool; try lia; specialize (IH m eq_refl Hy); lia.
  - intros [= <-] [->|Hy]%elem_of_cons; [lia|]. destruct l as [|u l]; [by apply elem_of_nil in Hy|]. cbn in E.
    destruct (min_by_last_used l); [destruct (_ <? _)|]; done.
Qed.

Lemma min_by_last_used_none l : min_by_last_used l = None -> l = [].
Proof. destruct l as [|x l]; [done|]. cbn. destruct (min_by_last_used l); [destruct (_ <? _)|]; done. Qed.

(** What an eviction does: nothing within the cap, or when every pool is claimed;
    otherwise it takes out the unclaimed pool that was used least recently. *)
Lemma take_oldest_idle_pool_spec order p w :
  order ≡ₚ map_to_list (pools p) ->
  (exists n, take_oldest_idle_pool order p w = (None, set_peak n (set_registry (Some p) w)) /\
     (peak w <= n)%nat /\ (size (pools p) <= Nat.max MAX_POOLS n)%nat /\
     ((MAX_POOLS < size (pools p))%nat -> forall k e, pools p !! k = Some e -> live_claims (pe_handle e) w <> 0)) \/
  (exists key e, take_oldest_idle_pool order p w =
       (Some (pe_handle e), set_registry (Some (mkProcess (pid p) (runtime p) (delete key (pools p)))) w) /\
     pools p !! key = Some e /\ live_claims (pe_handle e) w = 0 /\ (MAX_POOLS < size (pools p))%nat /\
     forall k e', pools p !! k = Some e' -> live_claims (pe_handle e') w = 0 -> last_used e <= last_used e').
Proof.
  intros Ho. unfold take_oldest_idle_pool. case_bool_decide as Hs.
  - left. exists (peak w). split; [by destruct w|]. split; [done|]. split; lia.
  - change (live_claims) with (live_claims). destruct (min_by_last_used _) as [[key e]|] eqn:E.
    + right. exists key, e. pose proof (min_by_last_used_elem _ _ E) as Hin. apply list_elem_of_filter in Hin as [Hc Hin].
      split; [done|]. rewrite Ho in Hin. apply elem_of_map_to_list in Hin. repeat split; [done|exact Hc|lia|].
      intros k e' Hk Hc'. apply (min_by_last_used_le _ (key, e) (k, e') E). apply list_elem_of_filter. split; [exact Hc'|]. rewrite Ho.
      by apply elem_of_map_to_list.
    + left. exists (Nat.max (peak w) (size (pools p))). split; [done|]. split; [lia|]. split; [lia|]. intros _ k e Hk Hc.
      apply min_by_last_used_none in E. assert ((k, e) ∈ filter (fun x => live_claims (pe_handle x.2) (set_registry (Some p) w) = 0) order) as Hin.
      { apply list_elem_of_filter. split; [exact Hc|]. rewrite Ho. by apply elem_of_map_to_list. }
      rewrite E in Hin. by apply elem_of_nil in Hin.
Qed.

(** ** A new handle *)

Lemma holders_absent h w : inv w -> cores w !! h = None -> holders h w = 0.
Proof.
  intros Hi Hh. unfold holders. rewrite sumZ_all_zero; [unfold sum_map; rewrite sumZ_all_zero; [done|]|].
  - intros [t pc] Hin%elem_of_map_to_list. cbn. pose proof (iv_threads _ Hi _ _ Hin) as Hok. destruct pc as [| |h' v| | |]; try done.
    cbn. case_bool_decide; [|done]. subst h'. destruct Hok as [c Hc]. by rewrite Hh in Hc.
  - intros o Ho. unfold owns. case_bool_decide; [|by rewrite andb_false_r]. subst h. destruct (iv_objects _ Hi o Ho) as [c Hc]. by rewrite Hh in Hc.
Qed.

Lemma live_claims_cores w w' h : cores w' = cores w -> live_claims h w' = live_claims h w.
Proof.
  intros E. assert (cores w' !! h = cores w !! h) as Eh by (by rewrite E). unfold cores, live_claims in *. rewrite !lookup_fmap in Eh.
  destruct (heap w' !! h) as [x|], (heap w !! h) as [y|]; cbn [fmap option_fmap option_map] in Eh; try done.
  apply (f_equal (fun o => default 0 (snd <$> o))) in Eh. exact Eh.
Qed.

Lemma live_claims_core w h q c : cores w !! h = Some (q, c) -> live_claims h w = c.
Proof. unfold cores, live_claims. rewrite lookup_fmap. destruct (heap w !! h) as [x|]; cbn; [|done]. intros E. by injection E as _ <-. Qed.

(** The entries that are left, before and after an eviction. *)
Lemma entries_after key h now (m m' : gmap Key PoolEntry) k e :
  m' = <[key := mkEntry h now]> m \/ (exists key', m' = delete key' (<[key := mkEntry h now]> m)) -> m' !! k = Some e ->
  (k = key /\ pe_handle e = h) \/ (k <> key /\ m !! k = Some e).
Proof.
  intros Hm Hk. assert (<[key := mkEntry h now]> m !! k = Some e) as Hk'.
  { destruct Hm as [->|(key' & ->)]; [done|]. by apply lookup_delete_Some in Hk as [_ Hk]. }
  rewrite lookup_insert in Hk'. case_decide; [|by right]. subst. injection Hk' as <-. by left.
Qed.

Lemma size_insert_le key x (m : gmap Key PoolEntry) : (size (<[key := x]> m) <= S (size m))%nat.
Proof.
  destruct (m !! key) as [y|] eqn:E; [rewrite map_size_insert_Some by (by eexists)|rewrite map_size_insert_None by done]; lia.
Qed.

Section New.
Context (t : nat) (key : Key) (now : Z) (order : list (Key * PoolEntry)) (p : ProcessState) (w : World).
Context (Hi : inv w) (Ht : threads w !! t = Some (Acquiring key)) (Hr : registry w = Some p).
Context (Ho : order ≡ₚ map_to_list (<[key := mkEntry (next_serial w) now]> (pools p))).

Let h : nat := next_serial w.
Let w0 : World := mkWorld (process w) (registry w) (<[h := add_claim (handle_new (process w) (runtime p))]> (heap w))
  (S h) (next_runtime w) (objects w) (threads w) (peak w) (log w).
Let p1 : ProcessState := mkProcess (pid p) (runtime p) (<[key := mkEntry h now]> (pools p)).

Lemma new_absent : cores w !! h = None.
Proof. destruct (cores w !! h) as [x|] eqn:E; [|done]. apply (iv_heap _ Hi) in E. unfold h in E. lia. Qed.

Lemma new_cores : cores w0 = <[h := (process w, holders h w + 1)]> (cores w).
Proof. rewrite (holders_absent h w Hi new_absent). unfold cores, w0. cbn [heap]. by rewrite fmap_insert. Qed.

Lemma new_pid_ok : pid p = process w.
Proof. exact (iv_threads _ Hi _ _ Ht p Hr). Qed.

Lemma new_key q k e : registry w = Some q -> pools q !! k = Some e -> pe_handle e = h -> k = key.
Proof. intros Hq Hk Eh. destruct (iv_entries _ Hi q k e Hq Hk) as [c Hc]. rewrite Eh, new_absent in Hc. done. Qed.

Lemma new_not_evicted c : Evicted h c ∉ log w.
Proof. intros Hin. destruct (iv_log _ Hi _ Hin) as (_ & [x Hx] & _). by rewrite new_absent in Hx. Qed.

(** What the two outcomes share. *)
Lemma inv_new w' es :
  process w' = process w -> cores w' = cores w0 -> next_serial w' = S h ->
  (forall h', holders h' w' = holders h' w + if decide (h' = h) then 1 else 0) ->
  Z.of_nat (length (objects w') + size (threads w')) <= U64_MAX ->
  (forall o, o ∈ objects w' -> o ∈ objects w \/ o = mkPool h (process w) true) ->
  (forall t pc, threads w' !! t = Some pc -> threads w !! t = Some pc \/ exists v, pc = Evicting h v) ->
  log w' = log w ++ es -> (forall e, e ∈ es -> entry_ok w' e) ->
  (forall p', registry w' = Some p' -> pid p' = pid p /\ runtime p' = runtime p /\
     (size (pools p') <= Nat.max MAX_POOLS (peak w'))%nat /\
     (pools p' = pools p1 \/ exists k, pools p' = delete k (pools p1))) -> inv w'.
Proof.
  intros Ep Ec En Hh Hroom Hob Hth El Hes Hreg. apply (inv_claimed w w' key h es); try done.
  - by rewrite Ec, new_cores.
  - apply new_not_evicted.
  - intros q c. by rewrite new_absent.
  - apply new_key.
  - rewrite En. unfold h. lia.
  - rewrite En. lia.
  - intros p' Hp. destruct (Hreg p' Hp) as (E1 & E2 & E3 & E4). rewrite E1, E2. split; [exact new_pid_ok|].
    split; [rewrite El; apply elem_of_app; left; by apply (iv_runtime _ Hi)|]. split; [done|].
    intros k e Hk. destruct (entries_after key h now (pools p) (pools p') k e E4 Hk) as [?|[? ?]]; [by left|].
    right. split; [done|]. exists p. by rewrite new_pid_ok.
Qed.

Lemma new_live : live_claims h w0 = 1.
Proof. rewrite (live_claims_core w0 h (process w) 1); [done|]. rewrite new_cores, lookup_insert_eq, (holders_absent h w Hi new_absent). done. Qed.

End New.

Lemma inv_acquire_in t key now order p w :
  inv w -> threads w !! t = Some (Acquiring key) -> registry w = Some p ->
  order ≡ₚ map_to_list (<[key := mkEntry (next_serial w) now]> (pools p)) -> inv (acquire_in t key now order p w).
Proof.
  intros Hi Ht Hr Ho. unfold acquire_in. destruct (open_entry key p w) as [e|] eqn:Eo; [by apply inv_existing|].
  set (h := next_serial w). set (w0 := mkWorld _ _ _ _ _ _ _ _ _). set (p1 := mkProcess _ _ _).
  pose proof (new_absent w Hi) as Habs. fold h in Habs. pose proof (new_cores p w Hi) as Ec0. fold h w0 in Ec0.
  destruct (take_oldest_idle_pool_spec order p1 w0 Ho) as [(n & -> & Hn & Hs & _)|(key' & e & -> & Hk & Hc & Hmax & _)].
  - apply (inv_new t key now p w Hi Ht Hr _ [HandedOut h (process w) (default true (hd_closed <$> heap w0 !! h))]); try done.
    + unfold constructed. change (cores (on_handle h client (hand_out h (set_peak n (set_registry (Some p1) w0)))) = cores w0).
      by rewrite cores_on_handle.
    + intros h'. by eapply (holders_constructed w _ t (Acquiring key) h (process w)).
    + cbn [objects threads constructed finish set_threads set_objects]. eapply (room_constructed w t _ _ Hi Ht). rewrite length_app. cbn. lia.
    + intros o. cbn [constructed finish set_threads set_objects objects]. rewrite elem_of_app, list_elem_of_singleton. done.
    + intros t' pc'. cbn [constructed finish set_threads set_objects threads]. rewrite lookup_delete_Some. intros [_ ?]. by left.
    + intros e' ->%list_elem_of_singleton. unfold entry_ok, constructed.
      change (exists c, cores (on_handle h client (hand_out h (set_peak n (set_registry (Some p1) w0)))) !! h = Some (process w, c)).
      rewrite cores_on_handle by done. change (exists c, cores w0 !! h = Some (process w, c)). rewrite Ec0, lookup_insert_eq. by eexists.
    + intros p' Hp. cbn in Hp. injection Hp as <-. repeat split; [exact Hs|by left].
  - set (v := pe_handle e). assert (v <> h) as Hvh by (intros E; fold v in Hc; rewrite E in Hc; pose proof (new_live p w Hi) as Hl; fold h w0 in Hl; congruence).
    assert (key' <> key /\ pools p !! key' = Some e) as [Hkk Hpk].
    { subst p1. cbn [pools] in Hk. rewrite lookup_insert in Hk. case_decide; [|done]. injection Hk as <-. done. }
    destruct (iv_entries _ Hi p key' e Hr Hpk) as [c Hcv]. fold v in Hcv. rewrite (new_pid_ok t key p w Hi Ht Hr) in Hcv.
    assert (c = 0) as ->. { rewrite <- Hc. symmetry. apply (live_claims_core w0 v (process w)). rewrite Ec0, lookup_insert_ne by done. done. }
    pose proof (iv_claims _ Hi v 0 Hcv) as Hhv.
    set (w1 := set_registry _ w0).
    assert (holds_thread : forall h', holders h' (goto t (Evicting h v) (note (Evicted v (live_claims v (hand_out h w1))) (hand_out h w1))) =
      holders h' w + if decide (h' = h) then 1 else 0).
    { intros h'. unfold holders. cbn [objects threads goto set_threads note hand_out w1 set_registry w0].
      rewrite (sum_map_insert _ _ _ _ _ Ht). cbn [holds]. case_bool_decide; case_decide; subst; try done; lia. }
    apply (inv_new t key now p w Hi Ht Hr _ [HandedOut h (process w) (default true (hd_closed <$> heap w0 !! h)); Evicted v (live_claims v (hand_out h w1))]); try done.
    + cbn [objects threads goto set_threads note hand_out w1 set_registry w0]. rewrite map_size_insert_Some by (by eexists). apply (iv_room _ Hi).
    + intros o Hin. by left.
    + intros t' pc'. cbn [threads goto set_threads note hand_out w1 set_registry w0]. rewrite lookup_insert. case_decide; [|by left].
      intros [= <-]. right. by exists v.
    + cbn. by rewrite <- app_assoc.
    + intros e' [->|[->|?%elem_of_nil]%elem_of_cons]%elem_of_cons; [..|done].
      * cbn [entry_ok]. change (exists c, cores w0 !! h = Some (process w, c)). rewrite Ec0, lookup_insert_eq. by eexists.
      * cbn [entry_ok]. split; [exact Hc|]. rewrite holds_thread, decide_False, <- Hhv by done. split; [|split; [done|]].
        { change (is_Some (cores w0 !! v)). rewrite Ec0, lookup_insert_ne by done. by eexists. }
        intros p' k e' Hp Hk' Eh. cbn in Hp. injection Hp as <-. cbn [pools] in Hk'. apply lookup_delete_Some in Hk' as [Hne Hk'].
        rewrite lookup_insert in Hk'. case_decide; [injection Hk' as <-; done|]. apply Hne. symmetry. by eapply (iv_inj _ Hi p k key' e' e).
    + intros p' Hp. cbn in Hp. injection Hp as <-. repeat split; [|right; by exists key'].
      cbn [pools]. rewrite map_size_delete_Some by (by eexists). pose proof (iv_size _ Hi p Hr) as Hsz.
      pose proof (size_insert_le key (mkEntry h now) (pools p)). change (peak (goto t (Evicting h v) (note (Evicted v (live_claims v (hand_out h w1))) (hand_out h w1)))) with (peak w).
      unfold p1. cbn [pools]. lia.
Qed.

Lemma inv_created r w :
  inv w -> registry w = None ->
  inv (mkWorld (process w) (Some (mkProcess (process w) r ∅)) (heap w) (next_serial w) (S r) (objects w) (threads w) (peak w)
        (log w ++ [Created r (process w)])).
Proof.
  intros [H1 H2 H3 H4 H5 H6 H7 H8 H9 H10] Hr. split; cbn; try done.
  - intros p key e [= <-]. done.
  - intros p k k' e e' [= <-]. done.
  - intros t pc Hpc%H7. destruct pc; cbn in *; try done; try (by intros p [= <-]). intros E. apply elem_of_app. left. by apply Hpc.
  - intros p [= <-]. apply elem_of_app. right. by left.
  - intros e [He%H9|He%list_elem_of_singleton]%elem_of_app; [|by subst e]. destruct e; cbn in *; try done.
    + destruct He as (? & ? & ? & _). repeat split; try done. intros p key e [= <-]. done.
    + apply elem_of_app. by left.
  - intros p [= <-]. cbn [pools]. rewrite map_size_empty. lia.
Qed.

Lemma inv_acquire_locked t key now order created w :
  inv w -> threads w !! t = Some (Acquiring key) -> order_ok key now order w -> inv (acquire_locked t key now order created w).
Proof.
  intros Hi Ht Ho. unfold acquire_locked, order_ok in *. destruct (registry w) as [p|] eqn:Er; [by apply inv_acquire_in|]. destruct created.
  - apply inv_acquire_in; try done. by apply inv_created.
  - apply (inv_finish w _ t (Acquiring key)); try done; [by left|]. exists []. rewrite app_nil_r. split; [done|]. by intros ? ?%elem_of_nil.
Qed.

Lemma inv_evict t h v w : inv w -> threads w !! t = Some (Evicting h v) -> inv (evict t h v w).
Proof.
  intros Hi Ht. pose proof (iv_threads _ Hi _ _ Ht) as Hok. cbn in Hok.
  apply (inv_quiet w _ []); try done; [|by left|..].
  - unfold evict, constructed. change (cores (on_handle h client (on_handle v client_close (on_handle v handle_close w))) = cores w).
    by rewrite !cores_on_handle.
  - intros o. cbn. rewrite elem_of_app, list_elem_of_singleton. intros [?| ->]; [by left|by right].
  - intros i. unfold holders. cbn. rewrite sumZ_app, sumZ_cons, sumZ_nil, owns_new, (sum_map_delete _ (threads w) t _ Ht). cbn [holds].
    case_bool_decide; case_decide; subst; try done; lia.
  - cbn. eapply (room_constructed w t _ _ Hi Ht). rewrite length_app. cbn. lia.
  - intros t' pc'. cbn. rewrite lookup_delete_Some. intros [_ ?]. by left.
  - cbn. by rewrite app_nil_r.
  - by intros e ?%elem_of_nil.
Qed.

(** ** A claim is released *)

Lemma release_claim_spec x :
  1 <= hd_claims x <= U64_MAX ->
  (release_claim x).1 = (hd_claims x =? 1) /\ core (release_claim x).2 = (hd_pid x, hd_claims x - 1).
Proof.
  intros Hc. unfold release_claim. destruct (hd_claims x =? 0) eqn:E; [lia|]. split; [done|]. unfold core. cbn.
  rewrite Z.mod_small by lia. done.
Qed.

Section Release.
Context (i : nat) (o : Pool) (x : Handle) (w : World).
Context (Hi : inv w) (Ho : objects w !! i = Some o) (Hpid : po_pid o = process w) (Hopen : claim_open o = true).
Context (Hx : heap w !! po_handle o = Some x).

Let h : nat := po_handle o.
Let closed : Pool := mkPool h (po_pid o) false.

Lemma released_core : core x = (process w, holders h w) /\ 1 <= holders h w <= U64_MAX.
Proof.
  destruct (iv_objects _ Hi o) as [c Hc]; [by eapply list_elem_of_lookup_2|]. fold h in Hc. rewrite Hpid in Hc.
  pose proof (iv_claims _ Hi h c Hc) as ->. split.
  - unfold cores in Hc. rewrite lookup_fmap in Hc. fold h in Hx. rewrite Hx in Hc. cbn [fmap option_fmap option_map] in Hc. congruence.
  - split; [|by apply holders_room]. unfold holders. pose proof (sum_map_nonneg (holds h) (threads w) (holds_nonneg h)).
    assert (owns h o <= sumZ (owns h) (objects w)) as Hle.
    { apply sumZ_elem_le; [apply Forall_forall; intros; apply owns_nonneg|by eapply list_elem_of_lookup_2]. }
    unfold owns at 1 in Hle. rewrite Hopen, bool_decide_eq_true_2 in Hle by done. cbn in Hle. lia.
Qed.

Lemma released_holders w' :
  objects w' = <[i := closed]> (objects w) -> (forall h', sum_map (holds h') (threads w') = sum_map (holds h') (threads w)) ->
  forall h', holders h' w' = holders h' w - if decide (h' = h) then 1 else 0.
Proof.
  intros Eo Et h'. unfold holders. rewrite Eo, Et, (sumZ_insert _ _ _ _ _ Ho). unfold owns at 2 3. rewrite Hopen. cbn. fold h.
  case_bool_decide; case_decide; subst; try done; lia.
Qed.

Lemma inv_released w' es :
  process w' = process w -> registry w' = registry w -> next_serial w' = next_serial w -> peak w' = peak w ->
  cores w' = cores (on_handle h (fun _ => (release_claim x).2) w) -> objects w' = <[i := closed]> (objects w) ->
  (forall h', sum_map (holds h') (threads w') = sum_map (holds h') (threads w)) ->
  Z.of_nat (length (objects w) + size (threads w')) <= U64_MAX ->
  (forall t pc, threads w' !! t = Some pc -> threads w !! t = Some pc \/ pc = Closing h) ->
  log w' = log w ++ es -> (forall e, e ∈ es -> e = ReleasedLast h) -> inv w'.
Proof.
  intros Ep Er En Epk Ec Eo Et Hroom Hth El Hes. destruct released_core as [Ecore Hc]. pose proof (released_holders w' Eo Et) as Hh.
  assert (cores w' = <[h := (process w, holders h w - 1)]> (cores w)) as Ec'.
  { rewrite Ec. apply map_eq. intros k. unfold cores, on_handle, set_heap. cbn. rewrite lookup_fmap, lookup_alter, lookup_insert.
    case_decide; [subst k; fold h in Hx; rewrite Hx; cbn|by rewrite lookup_fmap].
    injection Ecore as E1 E2. destruct (release_claim_spec x) as [_ ->]; [lia|]. by rewrite E1, E2. }
  assert (forall k q c, cores w !! k = Some (q, c) -> exists c', cores w' !! k = Some (q, c')) as Hmono.
  { intros k q c Hk. rewrite Ec', lookup_insert. case_decide; [subst k|by eexists].
    unfold cores in Hk. rewrite lookup_fmap in Hk. fold h in Hx. rewrite Hx in Hk. cbn [fmap option_fmap option_map] in Hk. rewrite Ecore in Hk. injection Hk as <- <-. by eexists. }
  pose proof Hi as [H1 H2 H3 H4 H5 H6 H7 H8 H9 H10].
  assert (forall e, e ∈ log w -> e ∈ log w') as Hlog by (intros e He; rewrite El; apply elem_of_app; by left).
  split; rewrite ?Ep, ?Er, ?En, ?Epk; eauto.
  - intros k y. rewrite Ec', lookup_insert. case_decide; [|by apply H1]. subst k. intros _.
    eapply (H1 h (core x)). unfold cores. rewrite lookup_fmap. fold h in Hx. by rewrite Hx.
  - intros k c. rewrite Ec', lookup_insert, Hh. repeat case_decide; subst; try done; [congruence|]. intros ?%H2. lia.
  - rewrite Eo, length_insert. done.
  - intros p k e Hp Hk. destruct (H4 p k e Hp Hk) as [c Hc']. by eapply Hmono.
  - intros o'. rewrite Eo. intros [k Hk]%list_elem_of_lookup. destruct (H6 o) as [c Hc']; [by eapply list_elem_of_lookup_2|].
    destruct (decide (k = i)) as [->|Hne].
    + rewrite list_lookup_insert_eq in Hk by (by eapply lookup_lt_Some). injection Hk as <-. cbn. by eapply Hmono.
    + rewrite list_lookup_insert_ne in Hk by done. destruct (H6 o') as [c' Hc'']; [by eapply list_elem_of_lookup_2|]. by eapply Hmono.
  - intros t pc [Hpc%H7| ->]%Hth.
    + destruct pc; cbn in *; rewrite ?Ep, ?Er; eauto.
      * destruct Hpc as [c Hpc]. by eapply Hmono.
      * destruct Hpc as [[q c] Hpc]. destruct (Hmono _ _ _ Hpc) as [c' ->]. by eexists.
      * destruct Hpc as [[q c] Hpc]. destruct (Hmono _ _ _ Hpc) as [c' ->]. by eexists.
    + cbn. rewrite Ec', lookup_insert_eq. by eexists.
  - intros e. rewrite El. intros [He|He%Hes]%elem_of_app; [|by subst e]. pose proof (H9 e He) as Hok. destruct e as [v c| |r q|v q cl| |]; cbn in *; try done.
    + destruct Hok as (-> & [[q c'] Hc'] & H0 & Hent). assert (v <> h) as Hvh by (intros ->; lia). rewrite Hh, decide_False, Er by done.
      destruct (Hmono _ _ _ Hc') as [c'' ->]. repeat split; [by eexists|lia|done].
    + by apply Hlog.
    + destruct Hok as [c Hc']. by eapply Hmono.
Qed.

End Release.

Lemma inv_pool_close t i w w' : inv w -> can_start t w = true -> pool_close t i w = Some w' -> inv w'.
Proof.
  intros Hi [Ht Hroom]%can_start_spec. unfold pool_close. intros (o & Ho & Hs)%bind_Some.
  destruct (negb (po_pid o =? process w)) eqn:Ep; [by injection Hs as <-|]. destruct (negb (claim_open o)) eqn:Eopen; [by injection Hs as <-|].
  apply negb_false_iff in Ep, Eopen. apply Z.eqb_eq in Ep. cbn [heap set_objects] in Hs. apply bind_Some in Hs as (x & Hx & Hs).
  destruct (release_claim x) as [last x'] eqn:Er. assert ((release_claim x).2 = x') as Ex by (by rewrite Er). injection Hs as <-.
  destruct last.
  - apply (inv_released i o x w Hi Ho Ep Eopen Hx _ [ReleasedLast (po_handle o)]); try done.
    + by rewrite Ex.
    + intros h'. cbn. rewrite sum_map_insert_new by done. cbn. lia.
    + cbn. rewrite map_size_insert_None by done. lia.
    + intros t' pc. cbn. rewrite lookup_insert. case_decide; [|by left]. intros [= <-]. by right.
    + by intros e ->%list_elem_of_singleton.
  - apply (inv_released i o x w Hi Ho Ep Eopen Hx _ []); try done; cbn.
    + by rewrite Ex.
    + lia.
    + by left.
    + by rewrite app_nil_r.
    + by intros e ?%elem_of_nil.
Qed.

Lemma inv_pool_destruct i w w' : inv w -> pool_destruct i w = Some w' -> inv w'.
Proof.
  intros Hi. pose proof (iv_room _ Hi) as Hroom. unfold pool_destruct. intros (o & Ho & Hs)%bind_Some.
  destruct (negb (po_pid o =? process w)) eqn:Ep; [by injection Hs as <-|]. destruct (negb (claim_open o)) eqn:Eopen; [by injection Hs as <-|].
  apply negb_false_iff in Ep, Eopen. apply Z.eqb_eq in Ep. apply bind_Some in Hs as (x & Hx & Hs). injection Hs as <-.
  apply (inv_released i o x w Hi Ho Ep Eopen Hx _ []); try done; cbn; [by left|by rewrite app_nil_r|by intros e ?%elem_of_nil].
Qed.

Lemma inv_fork child w :
  inv w -> new_pid child w ->
  inv (mkWorld child (registry w) (heap w) (next_serial w) (next_runtime w) (objects w) ∅ (peak w) (log w)).
Proof.
  intros [H1 H2 H3 H4 H5 H6 H7 H8 H9 H10] (Hne & Hheap & Hreg & Hlog).
  split; cbn; try done.
  - intros h c Hc. change (cores w !! h = Some (child, c)) in Hc. unfold cores in Hc. rewrite lookup_fmap in Hc. destruct (heap w !! h) as [x|] eqn:Ex; [|done].
    cbn in Hc. destruct (Hheap h x Ex). injection Hc. done.
  - rewrite map_size_empty. lia.
  - intros e He. pose proof (H9 e He) as Hok. destruct e as [v c| |r q|v q cl| |]; cbn in *; try done.
    destruct Hok as (? & ? & Hh & ?). repeat split; try done. unfold holders in *. cbn. rewrite sum_map_empty.
    pose proof (sum_map_nonneg (holds v) (threads w) (holds_nonneg v)).
    assert (0 <= sumZ (owns v) (objects w)) by (apply sumZ_nonneg, Forall_forall; intros; apply owns_nonneg). lia.
Qed.

Lemma registry_step_inv e w w' : inv w -> step e w = Some w' -> inv w'.
Proof.
  intros Hi. destruct e as [t key|t now order answer|t i|i|t|child]; cbn [step].
  - destruct (can_start t w) eqn:E; [|done]. intros [= <-]. by apply inv_acquire_start.
  - unfold advance. intros (pc & Ht & Hs)%bind_Some. destruct pc as [key hs|key|h v|h|h|foreign hs r].
    + injection Hs as <-. by apply inv_invalidating.
    + case_decide; [|done]. injection Hs as <-. by apply inv_acquire_locked.
    + injection Hs as <-. by apply inv_evict.
    + injection Hs as <-. by apply inv_close_client.
    + injection Hs as <-. by apply inv_retire.
    + injection Hs as <-. by apply inv_close_finish.
  - destruct (can_start t w) eqn:E; [|done]. by apply inv_pool_close.
  - by apply inv_pool_destruct.
  - destruct (can_start t w) eqn:E; [|done]. intros [= <-]. by apply inv_close_start.
  - case_decide as Hp; [|done]. intros [= <-]. by apply inv_fork.
Qed.

Lemma registry_init_inv p : inv (init p).
Proof.
  assert (cores (init p) = ∅) as E by apply fmap_empty. split; rewrite ?E; cbn; try done.
  - intros o ?%elem_of_nil. done.
  - intros e ?%elem_of_nil. done.
Qed.

Lemma registry_inv w : reach w -> inv w.
Proof. induction 1; [apply registry_init_inv|by eapply registry_step_inv]. Qed.

End RuntimeRegistryInv.
