(* ===== verification/RuntimeRegistrySystem.v ===== *)
(** * The process registry of pools: theorems

    The claims of a handle are the pool objects that hold it; only unclaimed pools are
    evicted and the registry is bounded by the number of pools in use; processes share
    nothing after a fork; in a single thread a pool survives the close of its
    siblings. *)

From S2P Require Import Prelude RuntimeRegistry RuntimeRegistryInv.
Import RuntimeRegistry RuntimeRegistryInv.
Local Open Scope Z_scope.

Module RuntimeRegistrySystem.

Implicit Types (w : World) (h t : nat).

(** ** One thread *)

(** A handle that is closed, whose client is closed, or that a call is closing. *)
Definition dead h w : Prop :=
  (exists x, heap w !! h = Some x /\ (hd_closed x = true \/ hd_client x = Some true)) \/
  (exists t, threads w !! t = Some (Closing h) \/ threads w !! t = Some (Retiring h)).

Record seq w : Prop := {
  sq_one : forall t t' pc pc', threads w !! t = Some pc -> threads w !! t' = Some pc' -> t = t';
  sq_dead : forall h, dead h w -> RegistryClosed h ∈ log w \/ holders h w = 0;
  sq_client : forall h x, heap w !! h = Some x -> hd_client x = Some true -> hd_closed x = true \/ exists t, threads w !! t = Some (Retiring h);
  sq_evict : forall t h v, threads w !! t = Some (Evicting h v) -> exists c, Evicted v c ∈ log w;
  sq_objects : forall o x, o ∈ objects w -> heap w !! po_handle o = Some x -> is_Some (hd_client x)
}.

(** How a step may change handles. *)
Definition kept (x y : Handle) : Prop :=
  (is_Some (hd_client x) -> is_Some (hd_client y)) /\ (hd_closed x = true -> hd_closed y = true).

Lemma lookup_on_handle k h f w :
  heap (on_handle h f w) !! k = if decide (h = k) then f <$> heap w !! k else heap w !! k.
Proof. unfold on_handle, set_heap. cbn [heap]. rewrite lookup_alter. case_decide; by subst. Qed.

Lemma lookup_on_handles k hs f w :
  (forall x, f (f x) = f x) ->
  heap (on_handles hs f w) !! k = if decide (k ∈ hs) then f <$> heap w !! k else heap w !! k.
Proof.
  intros Hf. induction hs as [|h hs IH]; cbn [on_handles foldr]; [by rewrite decide_False by apply not_elem_of_nil|].
  rewrite lookup_on_handle. fold (on_handles hs f w). rewrite IH. destruct (decide (h = k)) as [->|Hne].
  - rewrite (decide_True (P := k ∈ k :: hs)) by (by left). case_decide; [|done]. destruct (heap w !! k); cbn; by rewrite ?Hf.
  - case_decide as Hin; [rewrite decide_True by (by right); done|]. rewrite decide_False; [done|]. by intros [->|?]%elem_of_cons.
Qed.

Lemma lookup_invalidate k hs w :
  heap (invalidate hs w) !! k = if decide (k ∈ hs) then handle_close <$> heap w !! k else heap w !! k.
Proof.
  rewrite <- lookup_on_handles by done. unfold invalidate. set (w1 := on_handles hs handle_close w). clearbody w1.
  induction hs as [|h hs IH]; [done|]. exact IH.
Qed.

Lemma invalidate_log k hs w : k ∈ hs -> RegistryClosed k ∈ log (invalidate hs w).
Proof.
  unfold invalidate. set (w1 := on_handles hs handle_close w). clearbody w1.
  induction hs as [|h hs IH]; [by intros ?%elem_of_nil|]. cbn [foldr note log]. intros [->|Hk]%elem_of_cons; apply elem_of_app; [right; by left|left; by apply IH].
Qed.

(** The single call at [t] goes on, ends or begins. *)
Lemma one_goto w t pc : (forall t' pc', threads w !! t' = Some pc' -> t' = t) ->
  forall t1 t2 pc1 pc2, <[t := pc]> (threads w) !! t1 = Some pc1 -> <[t := pc]> (threads w) !! t2 = Some pc2 -> t1 = t2.
Proof.
  intros H t1 t2 pc1 pc2 H1 H2. assert (forall k x, <[t := pc]> (threads w) !! k = Some x -> k = t) as Hk.
  { intros k x. rewrite lookup_insert. case_decide; [done|]. apply H. }
  by rewrite (Hk _ _ H1), (Hk _ _ H2).
Qed.

Lemma one_delete w t : (forall t' pc', threads w !! t' = Some pc' -> t' = t) -> delete t (threads w) = ∅.
Proof.
  intros H. apply map_eq. intros k. rewrite lookup_empty, lookup_delete. case_decide; [done|].
  destruct (threads w !! k) as [pc|] eqn:E; [|done]. apply H in E. congruence.
Qed.

(** A step that adds no holder to a dead handle. *)
Lemma seq_keep w w' :
  seq w -> (forall h, dead h w' -> holders h w' <= holders h w) -> (forall e, e ∈ log w -> e ∈ log w') ->
  (forall t t' pc pc', threads w' !! t = Some pc -> threads w' !! t' = Some pc' -> t = t') ->
  (forall h, dead h w' -> dead h w \/ RegistryClosed h ∈ log w' \/ holders h w' = 0) ->
  (forall h x, heap w' !! h = Some x -> hd_client x = Some true -> hd_closed x = true \/ exists t, threads w' !! t = Some (Retiring h)) ->
  (forall t h v, threads w' !! t = Some (Evicting h v) -> threads w !! t = Some (Evicting h v) \/ exists c, Evicted v c ∈ log w') ->
  (forall o x, o ∈ objects w' -> heap w' !! po_handle o = Some x -> is_Some (hd_client x)) -> seq w'.
Proof.
  intros [H1 H2 H3 H4 H5] Hh Hl Hone Hd Hc He Ho. split; try done.
  - intros h Hdead. destruct (Hd h Hdead) as [Hdw|?]; [|done]. destruct (H2 h Hdw) as [?|E]; [left; by apply Hl|].
    right. pose proof (holders_nonneg h w'). specialize (Hh h Hdead). lia.
  - intros t h v [Ht|?]%He; [|done]. destruct (H4 t h v Ht) as [c Hc']. exists c. by apply Hl.
Qed.

Section Only.
Context (t : nat) (pc : Thread) (w : World) (Hs : seq w) (Ht : threads w !! t = Some pc).

Lemma only_t t' pc' : threads w !! t' = Some pc' -> t' = t /\ pc' = pc.
Proof. intros Ht'. assert (t' = t) as -> by (by eapply (sq_one _ Hs)). split; congruence. Qed.

(** The call is not closing a handle: the dead ones are dead in the heap. *)
Lemma dead_heap h : (forall h', pc <> Closing h' /\ pc <> Retiring h') -> dead h w ->
  exists x, heap w !! h = Some x /\ (hd_closed x = true \/ hd_client x = Some true).
Proof. intros Hpc [?|(t' & [Ht'|Ht'])]; [done|..]; apply only_t in Ht' as [_ <-]; by destruct (Hpc h). Qed.

Lemma client_closed h x : (forall h', pc <> Retiring h') -> heap w !! h = Some x -> hd_client x = Some true -> hd_closed x = true.
Proof. intros Hpc Hx Hc. destruct (sq_client _ Hs h x Hx Hc) as [?|[t' Ht']]; [done|]. apply only_t in Ht' as [_ <-]. by destruct (Hpc h). Qed.

(** The call ends, or goes on to a step that is closing nothing; handles stay as they
    are up to [kept] and only those the registry closes die. *)
Lemma seq_move w' pc' :
  (forall h', pc <> Retiring h') -> (forall h', pc' <> Closing h' /\ pc' <> Retiring h') ->
  threads w' = <[t := pc']> (threads w) \/ threads w' = delete t (threads w) ->
  (forall h v, pc' = Evicting h v -> pc = pc' \/ exists c, Evicted v c ∈ log w') ->
  (forall h, dead h w' -> holders h w' <= holders h w) -> (forall e, e ∈ log w -> e ∈ log w') ->
  (forall h x, heap w' !! h = Some x -> (hd_client x = Some true -> hd_closed x = true) /\
     (hd_closed x = true -> (exists y, heap w !! h = Some y /\ hd_closed y = true) \/ RegistryClosed h ∈ log w' \/ holders h w' = 0)) ->
  (forall o x, o ∈ objects w' -> heap w' !! po_handle o = Some x -> is_Some (hd_client x)) -> seq w'.
Proof.
  intros Hpc Hpc' Et Hev Hh Hl Hheap Ho.
  assert (forall t1 pc1, threads w' !! t1 = Some pc1 -> t1 = t /\ pc1 = pc') as Honly.
  { intros t1 pc1 H1. destruct Et as [Et|Et]; rewrite Et in H1.
    - rewrite lookup_insert in H1. case_decide as E; [by simplify_eq|]. by apply only_t in H1 as [<- _].
    - apply lookup_delete_Some in H1 as [Hne H1]. by apply only_t in H1 as [<- _]. }
  apply (seq_keep w w' Hs); try done.
  - intros t1 t2 pc1 pc2 [-> _]%Honly [-> _]%Honly. done.
  - intros h [(x & Hx & Hd)|(t1 & [H1|H1])]; [|apply Honly in H1 as [_ <-]; by destruct (Hpc' h)..].
    destruct (Hheap h x Hx) as [Hc Hcl]. destruct (Hcl ltac:(by destruct Hd; auto)) as [(y & Hy & Hcy)|?]; [|by right].
    left. left. exists y. by auto.
  - intros h x Hx Hc. left. by apply (Hheap h x Hx).
  - intros t1 h v H1. pose proof H1 as [-> <-]%Honly. destruct (Hev h v eq_refl) as [<-|?]; [by left|by right].
Qed.

End Only.

(** A call begins. *)
Lemma seq_begin w w' t pc' :
  seq w -> threads w = ∅ -> threads w' = {[t := pc']} -> (forall h', pc' <> Retiring h') -> (forall h v, pc' <> Evicting h v) ->
  (forall h', pc' = Closing h' -> holders h' w' = 0) ->
  (forall h, holders h w' <= holders h w) -> (forall e, e ∈ log w -> e ∈ log w') ->
  (forall h x, heap w' !! h = Some x -> exists y, heap w !! h = Some y /\ hd_closed x = hd_closed y /\ hd_client x = hd_client y) ->
  (forall o, o ∈ objects w' -> exists o', o' ∈ objects w /\ po_handle o' = po_handle o) -> seq w'.
Proof.
  intros Hs He Et H1 H2 H3 Hh Hl Hheap Ho. apply (seq_keep w w' Hs); try done; rewrite ?Et.
  - intros t1 t2 pc1 pc2 [<- _]%lookup_singleton_Some [<- _]%lookup_singleton_Some. done.
  - intros h [(x & Hx & Hd)|(t1 & [H|H])].
    + destruct (Hheap h x Hx) as (y & Hy & E1 & E2). left. left. exists y. rewrite <- E1, <- E2. done.
    + rewrite Et in H. apply lookup_singleton_Some in H as [_ ->]. right. right. by apply H3.
    + rewrite Et in H. apply lookup_singleton_Some in H as [_ ->]. by destruct (H1 h).
  - intros h x Hx Hc. destruct (Hheap h x Hx) as (y & Hy & E1 & E2). rewrite E2 in Hc. rewrite E1.
    destruct (sq_client _ Hs h y Hy Hc) as [?|[t' Ht']]; [by left|]. by rewrite He in Ht'.
  - intros t1 h v [_ ->]%lookup_singleton_Some. by destruct (H2 h v).
  - intros o x Hin Hx. destruct (Hheap _ x Hx) as (y & Hy & _ & E2). destruct (Ho o Hin) as (o' & Ho' & E). rewrite E2.
    apply (sq_objects _ Hs o' y Ho'). by rewrite E.
Qed.

Lemma seq_acquire_start t key w : seq w -> threads w = ∅ -> seq (acquire_start t key w).
Proof.
  intros Hs He. assert (exists pc', threads (acquire_start t key w) = {[t := pc']} /\ (forall h', pc' <> Closing h' /\ pc' <> Retiring h') /\
    (forall h v, pc' <> Evicting h v) /\ (forall h, holders h (acquire_start t key w) = holders h w)) as (pc' & Et & Hpc & Hev & Hh).
  { unfold acquire_start, holders. destruct (registry w) as [p|]; [destruct (pid p =? process w)|]; (eexists; split; [cbn; by rewrite He|]);
      (split; [done|]); (split; [done|]); intros h; f_equal; cbn [threads goto set_threads set_registry]; rewrite He, sum_map_insert_new by done; done. }
  apply (seq_begin w _ t pc' Hs He Et); try done.
  - intros h'. by destruct (Hpc h').
  - intros h' E. by destruct (Hpc h').
  - intros h. rewrite Hh. lia.
  - intros e He'. unfold acquire_start. by destruct (registry w) as [p|]; [destruct (pid p =? process w)|].
  - intros h x Hx. exists x. split; [|done]. unfold acquire_start in Hx. by destruct (registry w) as [p|]; [destruct (pid p =? process w)|].
  - intros o Ho. exists o. split; [|done]. unfold acquire_start in Ho. by destruct (registry w) as [p|]; [destruct (pid p =? process w)|].
Qed.

Lemma seq_close_start t w : seq w -> threads w = ∅ -> seq (close_start t w).
Proof.
  intros Hs He. unfold close_start. destruct (registry w) as [p|]; [|done].
  apply (seq_begin w _ t (ShuttingDown (negb (pid p =? process w)) (handles_of p) (runtime p))); try done; cbn.
  - by rewrite He.
  - intros h. unfold holders. cbn. rewrite He, sum_map_insert_new by done. cbn. lia.
  - intros h x Hx. by exists x.
  - intros o Ho. by exists o.
Qed.

(** What [invalidate] leaves of a handle. *)
Lemma invalidated hs w h x :
  heap (invalidate hs w) !! h = Some x ->
  exists y, heap w !! h = Some y /\ hd_client x = hd_client y /\ (hd_closed y = true -> hd_closed x = true) /\
    (hd_closed x = true -> hd_closed y = true \/ h ∈ hs).
Proof.
  rewrite lookup_invalidate. case_decide as Hin; [|intros Hx; exists x; auto].
  destruct (heap w !! h) as [y|] eqn:Ey; [|done]. cbn. intros [= <-]. exists y. cbn. auto.
Qed.

Lemma invalidate_log_mono hs w e : e ∈ log w -> e ∈ log (invalidate hs w).
Proof. destruct (invalidate_frame hs w) as (_ & _ & _ & _ & _ & _ & _ & es & -> & _). intros ?. apply elem_of_app. by left. Qed.

Lemma seq_invalidating t key hs w : seq w -> threads w !! t = Some (Invalidating key hs) -> seq (goto t (Acquiring key) (invalidate hs w)).
Proof.
  intros Hs Ht. destruct (invalidate_frame hs w) as (_ & _ & _ & F4 & _ & F6 & _).
  eapply (seq_move t _ w Hs Ht _ (Acquiring key)); try done.
  - left. cbn. by rewrite F6.
  - intros h _. unfold holders. cbn. rewrite F4, F6, (sum_map_insert _ _ _ _ _ Ht). cbn. lia.
  - apply invalidate_log_mono.
  - cbn. intros h x (y & Hy & E1 & E2 & E3)%invalidated. rewrite E1. split.
    + intros Hc. apply E2. by apply (client_closed t _ w Hs Ht h y).
    + intros [?|Hin]%E3; [left; by exists y|]. right. left. by apply invalidate_log.
  - cbn. rewrite F4. intros o x Ho (y & Hy & E1 & _)%invalidated. rewrite E1. by apply (sq_objects _ Hs o y).
Qed.

Lemma seq_close_finish t foreign hs r remaining w :
  seq w -> threads w !! t = Some (ShuttingDown foreign hs r) -> seq (close_finish t foreign hs r remaining w).
Proof.
  intros Hs Ht. destruct (invalidate_frame hs w) as (_ & _ & _ & F4 & _ & F6 & _).
  assert (forall w1, objects w1 = objects w -> threads w1 = delete t (threads w) -> (forall e, e ∈ log (invalidate hs w) -> e ∈ log w1) ->
    heap w1 = heap (invalidate hs w) \/ heap w1 = heap (on_handles hs client_close (invalidate hs w)) -> seq w1) as Hgo.
  { intros w1 Eo Et Hl Hheap.
    assert (forall h x, heap w1 !! h = Some x -> exists y z, heap w !! h = Some y /\ heap (invalidate hs w) !! h = Some z /\
      hd_closed x = hd_closed z /\ (is_Some (hd_client y) -> is_Some (hd_client x)) /\ (hd_client x = Some true -> hd_client y = Some true \/ h ∈ hs)) as Hx.
    { intros h x. destruct Hheap as [-> | ->].
      - intros Hx. pose proof Hx as (y & Hy & E1 & _)%invalidated. exists y, x. rewrite E1. repeat split; auto.
      - rewrite lookup_on_handles by (by intros [? ? ? ? []]). case_decide as Hin.
        + destruct (heap (invalidate hs w) !! h) as [z|] eqn:Hz; [|done]. cbn. intros [= <-]. pose proof Hz as (y & Hy & E1 & _)%invalidated.
          exists y, z. cbn. rewrite <- E1. repeat split; try done; [|by right]. intros [? ->]. by eexists.
        + intros Hx. pose proof Hx as (y & Hy & E1 & _)%invalidated. exists y, x. rewrite E1. repeat split; auto. }
    eapply (seq_move t _ w Hs Ht _ (Acquiring EmptyString)); try done; [by right|..].
    - intros h _. unfold holders. rewrite Eo, Et, (sum_map_delete _ (threads w) _ _ Ht). cbn. lia.
    - intros e He. by apply Hl, invalidate_log_mono.
    - intros h x (y & z & Hy & Hz & E1 & E2 & E3)%Hx. pose proof Hz as (y' & Hy' & G1 & G2 & G3)%invalidated.
      assert (y' = y) as -> by congruence. rewrite E1. split.
      + intros [Hc|Hin]%E3; [apply G2; by apply (client_closed t _ w Hs Ht h y)|].
        rewrite lookup_invalidate, decide_True, Hy in Hz by done. cbn in Hz. by injection Hz as <-.
      + intros [?|Hin]%G3; [left; by exists y|]. right. left. by apply Hl, invalidate_log.
    - rewrite Eo. intros o x Ho (y & z & Hy & _ & _ & E2 & _)%Hx. apply E2. by apply (sq_objects _ Hs o y). }
  unfold close_finish. destruct foreign; [|destruct remaining].
  - apply Hgo; cbn; [done|by rewrite F6|done|by left].
  - destruct (on_handles_frame hs client_close (invalidate hs w)) as (_ & _ & _ & G4 & _ & G6 & G7 & _); [done|].
    apply Hgo; cbn; [congruence|by rewrite G6, F6|intros e He; apply elem_of_app; left; by rewrite G7|by right].
  - apply Hgo; cbn; [done|by rewrite F6|intros e He; apply elem_of_app; by left|by left].
Qed.

Lemma seq_close_client t h w : seq w -> threads w !! t = Some (Closing h) -> seq (close_client t h w).
Proof.
  intros Hs Ht. unfold close_client. set (w1 := match heap w !! h with Some x => _ | None => _ end).
  assert (objects w1 = objects w /\ threads w1 = threads w /\ log w1 = log w) as (E1 & E2 & E3)
    by (subst w1; destruct (heap w !! h) as [x|]; [destruct (hd_closed x)|]; done).
  assert (forall k x, heap w1 !! k = Some x -> exists y, heap w !! k = Some y /\ hd_closed x = hd_closed y /\
    (hd_client x = hd_client y \/ (k = h /\ (is_Some (hd_client y) -> is_Some (hd_client x))))) as Hheap.
  { intros k x. subst w1. destruct (heap w !! h) as [z|] eqn:Hz; [destruct (hd_closed z)|]; try (intros ?; exists x; by auto).
    rewrite lookup_on_handle. case_decide as E; [subst k; rewrite Hz; cbn; intros [= <-]|intros ?; exists x; by auto].
    exists z. cbn. split; [done|]. split; [done|]. right. split; [done|]. intros [b ->]. by eexists. }
  assert (forall i, holders i (goto t (Retiring h) w1) = holders i w) as Hh.
  { intros i. unfold holders. cbn. rewrite E1, E2, (sum_map_insert _ _ _ _ _ Ht). cbn. lia. }
  apply (seq_keep w _ Hs); cbn.
  - intros i _. rewrite Hh. lia.
  - by rewrite E3.
  - rewrite E2. apply one_goto. intros t' pc' Ht'. by eapply (sq_one _ Hs).
  - intros i [(x & Hx & Hd)|(t' & Ht')].
    + destruct (Hheap i x Hx) as (y & Hy & Ecl & [Ect|[-> _]]); [|left; right; exists t; by left].
      left. left. exists y. rewrite <- Ecl, <- Ect. done.
    + cbn in Ht'. rewrite E2, lookup_insert in Ht'. case_decide; [|left; right; by exists t'].
      assert (i = h) as -> by (destruct Ht'; congruence). left. right. exists t. by left.
  - intros i x Hx Hc. destruct (Hheap i x Hx) as (y & Hy & Ecl & [Ect|[-> _]]); [|right; exists t; by rewrite lookup_insert_eq].
    rewrite Ecl. destruct (sq_client _ Hs i y Hy) as [?|[t' Ht']]; [congruence|by left|]. pose proof (sq_one _ Hs _ _ _ _ Ht Ht') as <-. congruence.
  - intros t' i v. rewrite E2, lookup_insert. case_decide; [done|]. by left.
  - rewrite E1. intros o x Ho Hx. destruct (Hheap _ x Hx) as (y & Hy & _ & Hc). pose proof (sq_objects _ Hs o y Ho Hy) as Hsome.
    destruct Hc as [->|[_ Hc]]; auto.
Qed.

Lemma seq_retire t h w : seq w -> threads w !! t = Some (Retiring h) -> seq (retire t h w).
Proof.
  intros Hs Ht. assert (forall k x, heap (retire t h w) !! k = Some x -> exists y, heap w !! k = Some y /\ hd_client x = hd_client y /\
    (hd_closed x = hd_closed y \/ (k = h /\ hd_closed x = true))) as Hheap.
  { intros k x. change (heap (retire t h w)) with (heap (on_handle h handle_close w)). rewrite lookup_on_handle.
    case_decide as E; [|intros ?; exists x; by auto]. subst k. destruct (heap w !! h) as [z|] eqn:Hz; [|done]. cbn. intros [= <-]. exists z. cbn. auto. }
  assert (delete t (threads w) = ∅) as Ee by (apply one_delete; intros t' pc' Ht'; by eapply (sq_one _ Hs)).
  assert (forall i, holders i (retire t h w) = holders i w) as Hh.
  { intros i. unfold holders. cbn. rewrite (sum_map_delete _ (threads w) _ _ Ht). cbn. lia. }
  apply (seq_keep w _ Hs); cbn; rewrite ?Ee; try done.
  - intros i _. rewrite Hh. lia.
  - intros i [(x & Hx & Hd)|(t' & Ht')]; [|cbn in Ht'; rewrite Ee in Ht'; by destruct Ht'].
    destruct (Hheap i x Hx) as (y & Hy & Ect & [Ecl|[-> _]]); [|left; right; exists t; by right].
    left. left. exists y. rewrite <- Ecl, <- Ect. done.
  - intros i x Hx Hc. left. destruct (Hheap i x Hx) as (y & Hy & Ect & [Ecl|[-> ?]]); [|done].
    rewrite Ecl. destruct (sq_client _ Hs i y Hy) as [?|[t' Ht']]; [congruence|done|].
    pose proof (sq_one _ Hs _ _ _ _ Ht Ht') as <-. assert (i = h) as -> by congruence.
    change (heap (on_handle h handle_close w) !! h = Some x) in Hx. rewrite lookup_on_handle, decide_True, Hy in Hx by done. cbn in Hx. injection Hx as <-. done.
  - intros o x Ho Hx. destruct (Hheap _ x Hx) as (y & Hy & -> & _). by apply (sq_objects _ Hs o y).
Qed.

Lemma release_kept x : hd_closed (release_claim x).2 = hd_closed x /\ hd_client (release_claim x).2 = hd_client x.
Proof. unfold release_claim. by destruct (_ =? _). Qed.

Lemma released_objects i o (w : World) o1 :
  objects w !! i = Some o -> o1 ∈ <[i := mkPool (po_handle o) (po_pid o) false]> (objects w) ->
  exists o', o' ∈ objects w /\ po_handle o' = po_handle o1.
Proof.
  intros Ho [k Hk]%list_elem_of_lookup. destruct (decide (k = i)) as [->|Hne].
  - rewrite list_lookup_insert_eq in Hk by (by eapply lookup_lt_Some). injection Hk as <-. exists o. split; [by eapply list_elem_of_lookup_2|done].
  - rewrite list_lookup_insert_ne in Hk by done. exists o1. split; [by eapply list_elem_of_lookup_2|done].
Qed.

Lemma released_heap h x (w : World) k y :
  heap w !! h = Some x -> heap (on_handle h (fun _ => (release_claim x).2) w) !! k = Some y ->
  exists z, heap w !! k = Some z /\ hd_closed y = hd_closed z /\ hd_client y = hd_client z.
Proof.
  intros Hx. rewrite lookup_on_handle. case_decide as E; [|intros ?; by exists y]. subst k. rewrite Hx. cbn. intros [= <-].
  exists x. destruct (release_kept x). done.
Qed.

(** A step without a call in progress before or after. *)
Lemma seq_still w w' :
  seq w -> threads w = ∅ -> threads w' = ∅ -> (forall h, holders h w' <= holders h w) -> log w' = log w ->
  (forall h x, heap w' !! h = Some x -> exists y, heap w !! h = Some y /\ hd_closed x = hd_closed y /\ hd_client x = hd_client y) ->
  (forall o, o ∈ objects w' -> exists o', o' ∈ objects w /\ po_handle o' = po_handle o) -> seq w'.
Proof.
  intros Hs He Et Hh El Hheap Ho. apply (seq_keep w w' Hs); rewrite ?Et, ?El; try done.
  - intros h [(x & Hx & Hd)|(t1 & H)]; [|rewrite Et in H; by destruct H].
    destruct (Hheap h x Hx) as (y & Hy & E1 & E2). left. left. exists y. rewrite <- E1, <- E2. done.
  - intros h x Hx Hc. left. destruct (Hheap h x Hx) as (y & Hy & E1 & E2). rewrite E2 in Hc. rewrite E1.
    destruct (sq_client _ Hs h y Hy Hc) as [?|[t' Ht']]; [done|]. by rewrite He in Ht'.
  - intros o x Hin Hx. destruct (Hheap _ x Hx) as (y & Hy & _ & E2). destruct (Ho o Hin) as (o' & Ho' & E). rewrite E2.
    apply (sq_objects _ Hs o' y Ho'). by rewrite E.
Qed.

Lemma seq_pool_close t i w w' : inv w -> seq w -> threads w = ∅ -> pool_close t i w = Some w' -> seq w'.
Proof.
  intros Hi Hs He. unfold pool_close. intros (o & Ho & Hstep)%bind_Some.
  destruct (negb (po_pid o =? process w)) eqn:Ep; [by injection Hstep as <-|]. destruct (negb (claim_open o)) eqn:Eopen; [by injection Hstep as <-|].
  apply negb_false_iff in Ep, Eopen. apply Z.eqb_eq in Ep. cbn [heap set_objects] in Hstep. apply bind_Some in Hstep as (x & Hx & Hstep).
  destruct (release_claim x) as [last x'] eqn:Er. assert ((release_claim x).2 = x') as Ex by (by rewrite Er). injection Hstep as <-.
  destruct (released_core i o x w Hi Ho Ep Eopen Hx) as [Ecore Hc].
  assert (last = (holders (po_handle o) w =? 1)) as El.
  { injection Ecore as E1 E2. destruct (release_claim_spec x) as [E _]; [lia|]. rewrite Er, E2 in E. exact E. }
  set (w1 := on_handle (po_handle o) (fun _ => x') (set_objects (<[i := mkPool (po_handle o) (po_pid o) false]> (objects w)) w)).
  assert (forall k y, heap w1 !! k = Some y -> exists z, heap w !! k = Some z /\ hd_closed y = hd_closed z /\ hd_client y = hd_client z) as Hheap
    by (intros k y; subst w1; rewrite <- Ex; exact (released_heap (po_handle o) x w k y Hx)).
  destruct last.
  - assert (forall h', holders h' (goto t (Closing (po_handle o)) (note (ReleasedLast (po_handle o)) w1)) =
      holders h' w - if decide (h' = po_handle o) then 1 else 0) as Hh.
    { apply (released_holders i o w Ho Eopen); [done|]. intros h'. cbn. rewrite sum_map_insert_new by (by rewrite He). cbn. lia. }
    apply (seq_begin w _ t (Closing (po_handle o)) Hs He); try done.
    + cbn. by rewrite He.
    + intros h' [= <-]. rewrite Hh, decide_True by done. lia.
    + intros h. rewrite Hh. case_decide; lia.
    + intros e He'. cbn. apply elem_of_app. by left.
    + intros o1. by apply released_objects.
  - apply (seq_still w w1 Hs He He); try done.
    + intros h'. rewrite (released_holders i o w Ho Eopen w1 eq_refl) by done. case_decide; lia.
    + intros o1. by apply released_objects.
Qed.

Lemma seq_pool_destruct i w w' : inv w -> seq w -> threads w = ∅ -> pool_destruct i w = Some w' -> seq w'.
Proof.
  intros Hi Hs He. unfold pool_destruct. intros (o & Ho & Hstep)%bind_Some.
  destruct (negb (po_pid o =? process w)) eqn:Ep; [by injection Hstep as <-|]. destruct (negb (claim_open o)) eqn:Eopen; [by injection Hstep as <-|].
  apply negb_false_iff in Ep, Eopen. apply Z.eqb_eq in Ep. apply bind_Some in Hstep as (x & Hx & Hstep). injection Hstep as <-.
  apply (seq_still w _ Hs He); try done.
  - intros h'. erewrite (released_holders i o w Ho Eopen) by done. case_decide; lia.
  - intros k y. exact (released_heap (po_handle o) x w k y Hx).
  - intros o1. by apply released_objects.
Qed.

Lemma seq_evict t h v w : inv w -> seq w -> threads w !! t = Some (Evicting h v) -> seq (evict t h v w).
Proof.
  intros Hi Hs Ht. destruct (sq_evict _ Hs t h v Ht) as [c Hev]. destruct (iv_log _ Hi _ Hev) as (_ & _ & Hv & _).
  assert (forall i, holders i (evict t h v w) = holders i w) as Hh.
  { intros i. unfold holders. cbn. rewrite sumZ_app, sumZ_cons, sumZ_nil, owns_new, (sum_map_delete _ (threads w) t _ Ht). cbn [holds].
    case_bool_decide; case_decide; subst; try done; lia. }
  assert (forall k x, heap (evict t h v w) !! k = Some x -> exists y, heap w !! k = Some y /\ (is_Some (hd_client y) -> is_Some (hd_client x)) /\
    (k = h -> is_Some (hd_client x)) /\ ((k = v /\ hd_closed x = true) \/ (k <> v /\ hd_closed x = hd_closed y /\ (hd_client x = Some true -> hd_client y = Some true)))) as Hheap.
  { intros k x. change (heap (evict t h v w)) with (heap (on_handle h client (on_handle v client_close (on_handle v handle_close w)))).
    rewrite !lookup_on_handle. destruct (heap w !! k) as [y|] eqn:Ey; [|repeat case_decide; done]. intros E. exists y. split; [done|].
    repeat case_decide; subst; cbn in E; injection E as <-; cbn; (split; [intros [b Hb]; rewrite ?Hb; by eexists|]); (split; [try done; by eexists|]); auto.
    right. split; [done|]. split; [done|]. destruct (hd_client y) as [[]|]; done. }
  eapply (seq_move t _ w Hs Ht _ (Acquiring EmptyString)); try done.
  - by right.
  - intros i _. rewrite Hh. lia.
  - intros i x (y & Hy & _ & _ & [[-> Hc]|(Hne & E1 & E2)])%Hheap.
    + split; [done|]. intros _. right. right. by rewrite Hh.
    + rewrite E1. split; [intros Hc%E2; by apply (client_closed t _ w Hs Ht i y)|]. intros ?. left. by exists y.
  - cbn. intros o x [Ho| ->%list_elem_of_singleton]%elem_of_app Hx.
    + destruct (Hheap _ x Hx) as (y & Hy & Hc & _). apply Hc. by apply (sq_objects _ Hs o y).
    + by destruct (Hheap _ x Hx) as (y & Hy & _ & Hc & _); apply Hc.
Qed.

(** The call at [t] takes a claim on [h], which is alive. *)
Lemma seq_claim t key w w' h pc' :
  seq w -> threads w !! t = Some (Acquiring key) ->
  threads w' = <[t := pc']> (threads w) \/ threads w' = delete t (threads w) ->
  (forall h', pc' <> Closing h' /\ pc' <> Retiring h') -> (forall h v, pc' = Evicting h v -> exists c, Evicted v c ∈ log w') ->
  (forall h', holders h' w' = holders h' w + if decide (h' = h) then 1 else 0) -> (forall e, e ∈ log w -> e ∈ log w') ->
  (forall k, k <> h -> heap w' !! k = heap w !! k) ->
  (exists x, heap w' !! h = Some x /\ hd_closed x = false /\ hd_client x <> Some true /\
     ((exists o, o ∈ objects w' /\ po_handle o = h) -> is_Some (hd_client x))) ->
  (forall o, o ∈ objects w' -> o ∈ objects w \/ po_handle o = h) -> seq w'.
Proof.
  intros Hs Ht Et Hpc' Hev Hh Hl Hother (x & Hx & Hcl & Hcx & Hsome) Ho.
  assert (forall t' pc, threads w' !! t' = Some pc -> pc = pc') as Honly.
  { intros t' pc. destruct Et as [-> | ->].
    - rewrite lookup_insert. case_decide; [by intros [= <-]|]. intros Hk. by apply (only_t t _ w Hs Ht) in Hk as [<- _].
    - rewrite lookup_delete_Some. intros [Hne H]. by apply (only_t t _ w Hs Ht) in H as [<- _]. }
  assert (~ dead h w') as Halive.
  { intros [(y & Hy & Hd)|(t' & [Ht'|Ht'])]; [simplify_eq; destruct Hd; congruence|..]; apply Honly in Ht'; by destruct (Hpc' h). }
  eapply (seq_move t _ w Hs Ht w' pc'); try done.
  - intros i v E. right. by eapply Hev.
  - intros i Hd. rewrite Hh. case_decide; [by subst i|lia].
  - intros i y Hy. destruct (decide (i = h)) as [->|Hne]; [simplify_eq; split; congruence|]. rewrite Hother in Hy by done.
    split; [by apply (client_closed t _ w Hs Ht i y)|]. intros ?. left. by exists y.
  - intros o y Hin Hy. destruct (decide (po_handle o = h)) as [E|Hne].
    + rewrite E, Hx in Hy. injection Hy as <-. apply Hsome. by exists o.
    + rewrite Hother in Hy by done. destruct (Ho o Hin) as [?|?]; [by apply (sq_objects _ Hs o)|done].
Qed.

Lemma seq_acquire_in t key now order p w :
  inv w -> seq w -> threads w !! t = Some (Acquiring key) -> registry w = Some p ->
  order ≡ₚ map_to_list (<[key := mkEntry (next_serial w) now]> (pools p)) -> seq (acquire_in t key now order p w).
Proof.
  intros Hi Hs Ht Hr Ho. unfold acquire_in. destruct (open_entry key p w) as [e|] eqn:Eo.
  - unfold open_entry in Eo. apply bind_Some in Eo as (e' & Hk & Eo). apply bind_Some in Eo as (x & Hx & Eo).
    destruct (hd_closed x) eqn:Ecl; [done|]. injection Eo as ->.
    apply (seq_claim t key w _ (pe_handle e) (Acquiring key) Hs Ht); try done.
    + by right.
    + intros h'. by eapply (holders_constructed w _ t (Acquiring key) (pe_handle e) (process w)).
    + intros e0 He. cbn. apply elem_of_app. by left.
    + intros k Hne. cbn. rewrite !lookup_alter_ne by done. done.
    + exists (client (add_claim x)). cbn. rewrite !lookup_alter_eq, Hx. split; [done|]. split; [done|]. split; [|by eexists].
      intros Hc. assert (hd_client x = Some true) as Hc' by (destruct (hd_client x) as [[]|]; done).
      rewrite (client_closed t _ w Hs Ht (pe_handle e) x) in Ecl by done. done.
    + cbn. intros o [?| ->%list_elem_of_singleton]%elem_of_app; [by left|by right].
  - set (h := next_serial w). set (w0 := mkWorld _ _ _ _ _ _ _ _ _). set (p1 := mkProcess _ _ _).
    assert (heap w !! h = None) as Habs.
    { pose proof (new_absent w Hi) as E. unfold cores in E. rewrite lookup_fmap in E. by destruct (heap w !! next_serial w) eqn:E'. }
    assert (forall o, o ∈ objects w -> po_handle o <> h) as Hnone.
    { intros o Hin E. destruct (iv_objects _ Hi o Hin) as [c Hc]. rewrite E in Hc. pose proof (new_absent w Hi). fold h in H. congruence. }
    destruct (take_oldest_idle_pool_spec order p1 w0 Ho) as [(n & -> & _)|(key' & e & -> & _)].
    + apply (seq_claim t key w _ h (Acquiring key) Hs Ht); try done.
      * by right.
      * intros h'. by eapply (holders_constructed w _ t (Acquiring key) h (process w)).
      * intros e0 He. cbn. apply elem_of_app. by left.
      * intros k Hne. cbn. rewrite lookup_alter_ne, lookup_insert_ne by done. done.
      * eexists. cbn. rewrite lookup_alter_eq, lookup_insert_eq. split; [done|]. cbn. repeat split; [done|by eexists].
      * cbn. intros o [?| ->%list_elem_of_singleton]%elem_of_app; [by left|by right].
    + apply (seq_claim t key w _ h (Evicting h (pe_handle e)) Hs Ht); try done.
      * by left.
      * intros i v [= <- <-]. eexists. cbn. apply elem_of_app. right. by left.
      * intros h'. unfold holders. cbn [objects threads goto set_threads note hand_out set_registry w0].
        rewrite (sum_map_insert _ _ _ _ _ Ht). cbn [holds]. case_bool_decide; case_decide; subst; try done; lia.
      * intros e0 He. cbn. apply elem_of_app. left. apply elem_of_app. by left.
      * intros k Hne. cbn. by rewrite lookup_insert_ne.
      * eexists. cbn. rewrite lookup_insert_eq. split; [done|]. split; [done|]. split; [done|]. intros (o & Hin & E). by apply Hnone in Hin.
      * intros o ?. by left.
Qed.

Lemma seq_acquire_locked t key now order created w :
  inv w -> seq w -> threads w !! t = Some (Acquiring key) -> order_ok key now order w -> seq (acquire_locked t key now order created w).
Proof.
  intros Hi Hs Ht Ho. unfold acquire_locked, order_ok in *. destruct (registry w) as [p|] eqn:Er; [by apply seq_acquire_in|]. destruct created.
  - apply seq_acquire_in; try done; [by apply inv_created|]. pose proof Hs as [H1 H2 H3 H4 H5]. split; try done; cbn.
    + intros h Hd. destruct (H2 h Hd) as [?|?]; [left; apply elem_of_app; by left|by right].
    + intros t' h v Ht'. destruct (H4 t' h v Ht') as [c Hc]. exists c. apply elem_of_app. by left.
  - eapply (seq_move t _ w Hs Ht _ (Acquiring key)); try done.
    + by right.
    + intros h _. unfold holders. cbn. rewrite (sum_map_delete _ (threads w) t _ Ht). cbn. lia.
    + intros h x Hx. split; [by apply (client_closed t _ w Hs Ht h x)|]. intros ?. left. by exists x.
    + exact (sq_objects _ Hs).
Qed.

Lemma registry_seq w : reach_sequential w -> inv w /\ seq w.
Proof.
  induction 1 as [p|e w w' Hw [Hi Hs] Hone Hstep].
  - split; [apply registry_init_inv|]. split; try done; cbn.
    + intros h [(x & Hx & _)|(t & Ht)]; [done|]. by destruct Ht.
  - split; [by eapply registry_step_inv|]. destruct e as [t key|t now order answer|t i|i|t|child]; cbn [step starts] in *.
    + destruct (can_start t w); [|done]. injection Hstep as <-. by apply seq_acquire_start, Hone.
    + unfold advance in Hstep. apply bind_Some in Hstep as (pc & Ht & Hstep). destruct pc as [key hs|key|h v|h|h|foreign hs r].
      * injection Hstep as <-. by apply seq_invalidating.
      * case_decide; [|done]. injection Hstep as <-. by apply seq_acquire_locked.
      * injection Hstep as <-. by apply seq_evict.
      * injection Hstep as <-. by apply seq_close_client.
      * injection Hstep as <-. by apply seq_retire.
      * injection Hstep as <-. by apply seq_close_finish.
    + destruct (can_start t w); [|done]. eapply seq_pool_close; [done..|by apply Hone|done].
    + eapply seq_pool_destruct; [done..|by apply Hone|done].
    + destruct (can_start t w); [|done]. injection Hstep as <-. by apply seq_close_start, Hone.
    + case_decide as Hp; [|done]. injection Hstep as <-. apply (seq_still w _ Hs); [by apply Hone|done|..|done|intros h x ?; by exists x|intros o ?; by exists o].
      intros h. unfold holders. cbn. rewrite sum_map_empty. pose proof (sum_map_nonneg (holds h) (threads w) (holds_nonneg h)). lia.
Qed.

(** ** Theorems *)

(** C17. The claim count of a handle of this process is exact: it is the number of pool
    objects with an open claim on it, so releasing one never finds the count at zero;
    and whatever threads do, an evicted pool was unclaimed, is in no registry and is
    never held again. *)
Theorem claims_exact w :
  reach w ->
  (forall h x, heap w !! h = Some x -> hd_pid x = process w -> hd_claims x = holders h w) /\
  (forall h c, Evicted h c ∈ log w -> c = 0 /\ holders h w = 0 /\
     forall p key e, registry w = Some p -> pools p !! key = Some e -> pe_handle e <> h).
Proof.
  intros Hi%registry_inv. split.
  - intros h x Hx Hp. apply (iv_claims _ Hi). unfold cores, core. rewrite lookup_fmap, Hx, <- Hp. done.
  - intros h c Hin. destruct (iv_log _ Hi _ Hin) as (? & _ & ? & ?). done.
Qed.

(** The registry is bounded: it never holds more than [MAX_POOLS] pools, except
    as many as were all claimed at the same time. *)
Theorem registry_bounded w p :
  reach w -> registry w = Some p -> (size (pools p) <= Nat.max MAX_POOLS (peak w))%nat.
Proof. intros Hi%registry_inv. apply (iv_size _ Hi). Qed.

(** An eviction takes the least recently used unclaimed pool, only above the cap,
    and takes none when every pool is claimed. *)
Theorem eviction_policy order p w :
  order ≡ₚ map_to_list (pools p) ->
  match (take_oldest_idle_pool order p w).1 with
  | None => (size (pools p) <= MAX_POOLS)%nat \/ forall k e, pools p !! k = Some e -> live_claims (pe_handle e) w <> 0
  | Some v => (MAX_POOLS < size (pools p))%nat /\ exists key e, pools p !! key = Some e /\ pe_handle e = v /\ live_claims v w = 0 /\
      forall k e', pools p !! k = Some e' -> live_claims (pe_handle e') w = 0 -> last_used e <= last_used e'
  end.
Proof.
  intros Ho. destruct (take_oldest_idle_pool_spec order p w Ho) as [(n & -> & _ & _ & Hn)|(key & e & -> & Hk & Hc & Hs & Hmin)].
  - cbn. destruct (decide (size (pools p) <= MAX_POOLS)%nat) as [?|Hs]; [by left|]. right. apply Hn. lia.
  - cbn. split; [done|]. exists key, e. done.
Qed.

(** Processes are isolated: a handle is handed out only to the process it was made
    in, a pool object holds a handle of its own process, and a runtime is shut down
    only by the process that created it. *)
Theorem fork_isolated w :
  reach w ->
  (forall h q c, HandedOut h q c ∈ log w -> exists x, heap w !! h = Some x /\ hd_pid x = q) /\
  (forall o, o ∈ objects w -> exists x, heap w !! po_handle o = Some x /\ hd_pid x = po_pid o) /\
  (forall r q, Shutdown r q ∈ log w -> Created r q ∈ log w).
Proof.
  intros Hi%registry_inv. assert (forall h q c, cores w !! h = Some (q, c) -> exists x, heap w !! h = Some x /\ hd_pid x = q) as Hcore.
  { intros h q c. unfold cores. rewrite lookup_fmap. destruct (heap w !! h) as [x|]; [|done]. cbn. intros E. exists x. by injection E. }
  repeat split.
  - intros h q c Hin. destruct (iv_log _ Hi _ Hin) as [c' Hc']. by eapply Hcore.
  - intros o Hin. destruct (iv_objects _ Hi o Hin) as [c Hc]. by eapply Hcore.
  - intros r q Hin. exact (iv_log _ Hi _ Hin).
Qed.

(** In a process with one thread a pool survives its siblings: while its claim is
    open and the registry was not closed or invalidated, its handle and the shared
    client are open, whatever pools were closed, destroyed or evicted. *)
Theorem siblings_survive w o :
  reach_sequential w -> o ∈ objects w -> claim_open o = true -> RegistryClosed (po_handle o) ∉ log w ->
  exists x, heap w !! po_handle o = Some x /\ hd_closed x = false /\ hd_client x = Some false.
Proof.
  intros [Hi Hs]%registry_seq Ho Hopen Hlog. destruct (iv_objects _ Hi o Ho) as [c Hc]. unfold cores in Hc. rewrite lookup_fmap in Hc.
  destruct (heap w !! po_handle o) as [x|] eqn:Hx; [|done]. exists x. split; [done|].
  assert (1 <= holders (po_handle o) w) as Hheld.
  { unfold holders. pose proof (sum_map_nonneg (holds (po_handle o)) (threads w) (holds_nonneg _)).
    assert (owns (po_handle o) o <= sumZ (owns (po_handle o)) (objects w)) as Hle.
    { apply sumZ_elem_le; [apply Forall_forall; intros; apply owns_nonneg|done]. }
    unfold owns at 1 in Hle. rewrite Hopen, bool_decide_eq_true_2 in Hle by done. cbn in Hle. lia. }
  assert (~ dead (po_handle o) w) as Halive by (intros [?|?]%(sq_dead _ Hs); [done|lia]).
  destruct (sq_objects _ Hs o x Ho Hx) as [b Hb]. split.
  - destruct (hd_closed x) eqn:E; [|done]. destruct Halive. left. exists x. auto.
  - destruct b; [|done]. destruct Halive. left. exists x. auto.
Qed.

(** ** Examples *)

Definition seq_run (es : list Event) w : bool :=
  (fix go es w :=
     match es with
     | [] => true
     | e :: es' => (negb (starts e) || bool_decide (threads w = ∅)) && match step e w with Some w' => go es' w' | None => false end
     end) es w.

Lemma seq_run_reach es w w' : reach_sequential w -> seq_run es w = true -> run es w = Some w' -> reach_sequential w'.
Proof.
  revert w. induction es as [|e es IH]; intros w Hw; cbn [seq_run run]; [by intros _ [= <-]|].
  destruct (step e w) as [w1|] eqn:E; [|by rewrite andb_false_r]. intros [Hs Hgo]%andb_true_iff Hrun. cbn in Hrun.
  apply (IH w1); [|exact Hgo|exact Hrun]. eapply seq_step; [done| |exact E]. intros Hst. rewrite Hst in Hs. cbn in Hs. by apply bool_decide_eq_true in Hs.
Qed.

Lemma registry_run_reach es w w' : reach w -> run es w = Some w' -> reach w'.
Proof.
  revert w. induction es as [|e es IH]; intros w Hw; cbn [run]; [by intros [= <-]|].
  intros (w1 & E & Hrun)%bind_Some. eapply IH; [|done]. by eapply reach_step.
Qed.

Definition fresh_order (h : nat) : list (Key * PoolEntry) := [("orders", mkEntry h 0)].

(** Two pools of one configuration; the first is closed. *)
Definition demo : list Event :=
  [EConstruct 0 "orders"; EStep 0 0 (fresh_order 1) true; EConstruct 0 "orders"; EStep 0 0 (fresh_order 2) true; EClose 0 0].
Definition demo_world : World := default (init 1) (run demo (init 1)).

Lemma demo_reach : reach demo_world /\ reach_sequential demo_world.
Proof.
  split; [apply (registry_run_reach demo (init 1)); [constructor|]|apply (seq_run_reach demo (init 1)); [constructor| |]];
    vm_compute; reflexivity.
Qed.

Lemma claims_exact_witness : live_claims 1 demo_world = 1 /\ holders 1 demo_world = 1.
Proof.
  split; [vm_compute; reflexivity|]. symmetry. refine (proj1 (claims_exact demo_world (proj1 demo_reach)) 1%nat (mkHandle 1 0 false 1 (Some false)) _ _); vm_compute; reflexivity.
Defined.

Lemma registry_bounded_witness : exists p, registry demo_world = Some p /\ (size (pools p) <= Nat.max MAX_POOLS (peak demo_world))%nat.
Proof. eexists. split; [vm_compute; reflexivity|]. apply (registry_bounded demo_world _ (proj1 demo_reach)). vm_compute. reflexivity. Defined.

Lemma eviction_policy_witness : (take_oldest_idle_pool (fresh_order 1) (mkProcess 1 0 {["orders" := mkEntry 1 0]}) (init 1)).1 = None /\
  match (take_oldest_idle_pool (fresh_order 1) (mkProcess 1 0 {["orders" := mkEntry 1 0]}) (init 1)).1 with
  | None => (size ({["orders" := mkEntry 1 0]} : gmap Key PoolEntry) <= MAX_POOLS)%nat \/
      forall k e, ({["orders" := mkEntry 1 0]} : gmap Key PoolEntry) !! k = Some e -> live_claims (pe_handle e) (init 1) <> 0
  | Some _ => False end.
Proof.
  split; [vm_compute; reflexivity|].
  assert (fresh_order 1 ≡ₚ map_to_list ({["orders" := mkEntry 1 0]} : gmap Key PoolEntry)) as Ho by (vm_compute; reflexivity).
  pose proof (eviction_policy (fresh_order 1) (mkProcess 1 0 {["orders" := mkEntry 1 0]}) (init 1) Ho) as H.
  vm_compute (take_oldest_idle_pool _ _ _).1 in H |- *. exact H.
Defined.

Lemma fork_isolated_witness : exists o, o ∈ objects demo_world /\ exists x, heap demo_world !! po_handle o = Some x /\ hd_pid x = po_pid o.
Proof.
  exists (mkPool 1 1 true). assert (mkPool 1 1 true ∈ objects demo_world) as Hin by (vm_compute; right; left).
  split; [exact Hin|]. exact (proj1 (proj2 (fork_isolated demo_world (proj1 demo_reach))) _ Hin).
Defined.

Lemma siblings_survive_witness : exists x, heap demo_world !! 1%nat = Some x /\ hd_closed x = false /\ hd_client x = Some false.
Proof.
  refine (siblings_survive demo_world (mkPool 1 1 true) (proj2 demo_reach) _ eq_refl _).
  - vm_compute; right; left.
  - assert (log demo_world = [Created 0 1; HandedOut 1 1 false; HandedOut 1 1 false]) as -> by (vm_compute; reflexivity).
    rewrite !not_elem_of_cons. repeat split; [done..|apply not_elem_of_nil].
Defined.

(** With two threads a pool can be born closed: thread 0 closes the last pool of a
    configuration; between its release of the claim and the closing of the handle,
    thread 1 acquires the same handle, which is then closed under it. *)
Example acquire_races_last_close :
  match run [EConstruct 0 "orders"; EStep 0 0 (fresh_order 1) true; EClose 0 0;
             EConstruct 1 "orders"; EStep 1 0 (fresh_order 2) true; EStep 0 0 [] true; EStep 0 0 [] true] (init 1) with
  | Some w => objects w !! 1%nat = Some (mkPool 1 1 true) /\ threads w = ∅ /\
      heap w !! 1%nat = Some (mkHandle 1 0 true 1 (Some true))
  | None => False
  end.
Proof. vm_compute. auto. Qed.

End RuntimeRegistrySystem.
