(* ===== verification/ClientPool.v ===== *)
(** * The client pool

    Models [client.rs] apart from [publish_batch] (see [ClientBatch]) and the registry
    of requested profiles (see [RecoveryCoordinator]): the pool's lifecycle, its lazily
    filled caches of coordinators, publishers and consumers with their initializer
    locks, [close], the waits for a broker to become ready, and the administration
    calls.

    Calls run concurrently: a task is a call in progress, a step of it is what it does
    between two awaits or two sections under a mutex. An initializer lock is held by
    the task whose position says so. What coordinators answer, the states they
    publish and expired timeouts are part of the steps; any call can be dropped at an
    await. *)

From S2P Require Import Prelude Transport Publication Recovery DelayTopology DelayRouting TopologyPlan ClientBatch Config RecoveryCoordinator.
Import Transport Publication Recovery DelayTopology DelayRouting TopologyPlan ClientBatch Config.
Local Open Scope Z_scope.
Local Open Scope rabbit_scope.

Module ClientPool.

(** ** Errors and configuration *)

Definition client_error (kind : ClientErrorKind) (message : string) : ClientError := mkClientError kind message.

(** [ClientError::transport] *)
Definition client_transport_error (e : TransportError) : ClientError := client_error KTransport (te_message e).

Definition DEFAULT_BUFFER_CAPACITY : Z := 1024.

(** [publisher_config]: the capacity, the confirm timeout and the safety mode of the
    pool's publishers. *)
Definition publisher_config (v : ValidatedConfig) : Z * Z * SafetyMode :=
  (DEFAULT_BUFFER_CAPACITY, pub_confirm_timeout (v_publisher v), effective_safety (v_publisher v)).

(** The brokers of a worker's subscriptions, each once, in their order. *)
Definition worker_brokers (w : WorkerProfile) : list string :=
  foldl (fun l s => if decide (su_broker s ∈ l) then l else l ++ [su_broker s]) [] (w_subscriptions w).

(** [str::contains] *)
Fixpoint contains (needle s : string) : bool :=
  String.prefix needle s || match s with EmptyString => false | String _ s' => contains needle s' end.

Definition delay_plugin_absent (e : TransportError) : bool :=
  match te_protocol_code e with
  | Some code =>
      if code =? 540 then true else if code =? 406 then contains "unknown exchange type" (te_message e) else false
  | None => false
  end.

(** ** Administration *)

Section Admin.
Variable sha256 : string -> string.
Variable v : ValidatedConfig.

(** A call on a fresh admin channel; [channel] is what [admin_channel] answered. *)
Definition on_channel {A} (is_open : bool) (channel : result unit ClientError) (answer : result A TransportError) : result A ClientError :=
  if negb is_open then Err client_closed_error
  else let? _ := channel in map_err client_transport_error answer.

(** The destinations whose bucket queues can hold deferred messages of a queue. *)
Definition clear_route_destinations (broker queue : string) : list Destination :=
  foldl (fun ds r =>
      if negb (bool_decide (ro_broker r = broker)) then ds
      else
        let d := mkDestination (ro_exchange r) (replace_queue (ro_routing_key r) queue) in
        if decide (d ∈ ds) then ds else ds ++ [d])
    [mkDestination queue queue] (v_routes v).*2.

(** What the [i]-th admin channel of the call and the purge on it answer. *)
Record PurgeAnswers := mkPurgeAnswers {
  pa_channel : nat -> result unit ClientError;
  pa_purge : nat -> string -> result unit TransportError
}.

(** The bucket queues of one destination; [i] channels were opened so far. The result
    is the number of channels opened and the queues purged so far. *)
Fixpoint clear_buckets (a : PurgeAnswers) (plan : TtlBucketPlan) (d : Destination) (bs : list Z) (i : nat) (purged : list string)
  : result (nat * list string) ClientError :=
  match bs with
  | [] => Ok (i, purged)
  | b :: bs' =>
      match queue_for sha256 plan d b with
      | Err _ => clear_buckets a plan d bs' i purged
      | Ok spec =>
          let? _ := pa_channel a i in
          match pa_purge a i (q_name spec) with
          | Ok _ => clear_buckets a plan d bs' (S i) (purged ++ [q_name spec])
          | Err e =>
              if decide (te_kind e = Protocol) then clear_buckets a plan d bs' (S i) purged
              else Err (client_transport_error e)
          end
      end
  end.

Fixpoint clear_destinations (a : PurgeAnswers) (plan : TtlBucketPlan) (ds : list Destination) (i : nat) (purged : list string)
  : result (nat * list string) ClientError :=
  match ds with
  | [] => Ok (i, purged)
  | d :: ds' => let? r := clear_buckets a plan d (buckets plan) i purged in clear_destinations a plan ds' r.1 r.2
  end.

(** [clear_route], with the queues it purged. *)
Definition clear_route (is_open : bool) (a : PurgeAnswers) (broker queue : string) : result (list string) ClientError :=
  let? _ := on_channel is_open (pa_channel a 0) (pa_purge a 0 queue) in
  match strategy_compile (v_delay v) with
  | PluginStrategy => Ok [queue]
  | TtlBuckets plan =>
      let? r := clear_destinations a plan (clear_route_destinations broker queue) 1 [queue] in Ok r.2
  end.

Definition DELAY_PROBE_EXCHANGE : string := "rabbit-rs.probe.delayed".

Definition probe_spec : ExchangeSpec :=
  mkExchangeSpec DELAY_PROBE_EXCHANGE (Delayed Direct) true false false [].

(** [probe_delay_plugin]: the stale exchange is deleted first, whatever that answers. *)
Definition probe_delay_plugin (is_open : bool) (channel : result unit ClientError) (declared : ExchangeSpec -> result unit TransportError)
  : result bool ClientError :=
  if negb is_open then Err client_closed_error
  else
    let? _ := channel in
    match declared probe_spec with
    | Ok _ => Ok true
    | Err e => if delay_plugin_absent e then Ok false else Err (client_transport_error e)
    end.

(** [flush_blind]: every cached publisher is flushed, the first error is reported. *)
Definition flush_blind (answers : list (result unit PublishError)) : result unit ClientError :=
  foldl (fun r a =>
      match r, a with
      | Ok _, Err e => Err (client_publish_error e)
      | _, _ => r
      end) (Ok tt) answers.

(** [publisher_utilization] *)
Definition publisher_utilization (capacity : Z) (available : list Z) : Z * Z :=
  let capacity := Z.max capacity 1 in
  (sumZ (fun a => sat_sub capacity a) available, Z.min (capacity * Z.of_nat (length available)) U64_MAX).

End Admin.

(** ** State *)

Inductive Lifecycle := Open (generation : Z) | Closing | Closed.

(** A coordinator the pool spawned: its broker, the state it publishes, whether [close]
    was called on it. *)
Record CoordInfo := mkCoord { ci_broker : string; ci_state : ConnectionState; ci_closed : bool }.

(** A source of a composed consumer: the coordinator's set and its generation. *)
Record SourceInfo := mkSource { so_coord : nat; so_set : nat; so_generation : Z }.

Record ConsumerInfo := mkConsumerInfo { cs_profile : string; cs_sources : list SourceInfo; cs_closed : bool }.

Inductive Kind := KCoordinator | KPublisher | KConsumer.

#[global] Instance Kind_eq_dec : EqDecision Kind.
Proof. solve_decision. Defined.
#[global] Instance Lifecycle_eq_dec : EqDecision Lifecycle.
Proof. solve_decision. Defined.

(** Where [coordinator] is; the initializer is held from [CoHeld] on. *)
Inductive Co :=
| CoBegin
| CoWait (g : Z)
| CoHeld (g : Z)
| CoSpawn (g : Z)
| CoCommit (g : Z) (id : nat)
| CoClosing (id : nat).

(** Where [wait_for_coordinator_ready] is. *)
Inductive Wait := WTop | WTry | WState | WPark (observed : ConnectionState).

(** Where [publisher] is; the initializer is held from [PbHeld] on. *)
Inductive Pub :=
| PbBegin
| PbWait (g : Z)
| PbHeld (g : Z)
| PbCoord (g : Z) (co : Co)
| PbLoop (g : Z) (c : nat)
| PbTry (g : Z) (c : nat)
| PbState (g : Z) (c : nat)
| PbPark (g : Z) (c : nat)
| PbCommit (g : Z) (p : nat)
| PbClosing (p : nat).

(** Where [consumer] is; the initializer is held from [KsHeld] on. [todo] are the
    brokers that are left, [error] the last error of a coordinator. *)
Inductive Con :=
| KsBegin
| KsFresh (g : Z) (w : WorkerProfile) (id : nat)
| KsWait (g : Z) (w : WorkerProfile)
| KsHeld (g : Z) (w : WorkerProfile)
| KsFreshHeld (g : Z) (w : WorkerProfile) (id : nat)
| KsStart (g : Z) (w : WorkerProfile) (todo : list string) (co : Co)
| KsCoord (g : Z) (w : WorkerProfile) (todo : list string) (sources : list SourceInfo) (co : Co) (error : option string)
| KsReady (g : Z) (w : WorkerProfile) (todo : list string) (sources : list SourceInfo) (c : nat) (wait : Wait) (error : option string)
| KsCommit (g : Z) (w : WorkerProfile) (sources : list SourceInfo)
| KsClosing (id : nat).

(** Where [admin_channel] is. *)
Inductive Adm := AdCoord (co : Co) | AdReady (c : nat) (wait : Wait) (error : option string).

(** Where [close] is. *)
Inductive Cls :=
| ClBegin
| ClTakeConsumers
| ClConsumers (todo : list nat) (error : option ClientError)
| ClTakeCoordinators (error : option ClientError)
| ClCoordinators (todo : list nat) (error : option ClientError)
| ClTakePublishers (error : option ClientError)
| ClPublishers (todo : list nat) (error : option ClientError)
| ClFinish (error : option ClientError).

Inductive Task :=
| TPublisher (broker : string) (pc : Pub)
| TConsumer (profile : string) (pc : Con)
| TAdmin (broker : string) (pc : Adm)
| TClose (pc : Cls)
| TGot (kind : Kind) (key : string) (r : result nat ClientError)
| TChannel (r : result unit ClientError)
| TClosed (r : result unit ClientError)
| TDropped.

(** What happened: a coordinator was spawned, a resource entered its cache, a call was
    dropped while it was to close a resource. *)
Inductive Entry :=
| Spawned (broker : string) (id : nat)
| Committed (kind : Kind) (key : string) (id : nat)
| Abandoned (kind : Kind) (id : nat).

Record World := mkWorld {
  lifecycle : Lifecycle;
  coordinators : gmap string nat;
  publishers : gmap string nat;
  consumers : gmap string nat;
  coords : list CoordInfo;
  closed_publishers : gset nat;
  handles : list ConsumerInfo;
  requested : list (string * WorkerProfile);
  tasks : gmap nat Task;
  log : list Entry
}.

Definition set_lifecycle (l : Lifecycle) (w : World) : World :=
  mkWorld l (coordinators w) (publishers w) (consumers w) (coords w) (closed_publishers w) (handles w) (requested w) (tasks w) (log w).
Definition set_cache (k : Kind) (m : gmap string nat) (w : World) : World :=
  match k with
  | KCoordinator => mkWorld (lifecycle w) m (publishers w) (consumers w) (coords w) (closed_publishers w) (handles w) (requested w) (tasks w) (log w)
  | KPublisher => mkWorld (lifecycle w) (coordinators w) m (consumers w) (coords w) (closed_publishers w) (handles w) (requested w) (tasks w) (log w)
  | KConsumer => mkWorld (lifecycle w) (coordinators w) (publishers w) m (coords w) (closed_publishers w) (handles w) (requested w) (tasks w) (log w)
  end.
Definition set_coords (l : list CoordInfo) (w : World) : World :=
  mkWorld (lifecycle w) (coordinators w) (publishers w) (consumers w) l (closed_publishers w) (handles w) (requested w) (tasks w) (log w).
Definition set_closed_publishers (s : gset nat) (w : World) : World :=
  mkWorld (lifecycle w) (coordinators w) (publishers w) (consumers w) (coords w) s (handles w) (requested w) (tasks w) (log w).
Definition set_handles (l : list ConsumerInfo) (w : World) : World :=
  mkWorld (lifecycle w) (coordinators w) (publishers w) (consumers w) (coords w) (closed_publishers w) l (requested w) (tasks w) (log w).
Definition set_tasks (m : gmap nat Task) (w : World) : World :=
  mkWorld (lifecycle w) (coordinators w) (publishers w) (consumers w) (coords w) (closed_publishers w) (handles w) (requested w) m (log w).
Definition set_requested (l : list (string * WorkerProfile)) (w : World) : World :=
  mkWorld (lifecycle w) (coordinators w) (publishers w) (consumers w) (coords w) (closed_publishers w) (handles w) l (tasks w) (log w).
Definition note (e : Entry) (w : World) : World :=
  mkWorld (lifecycle w) (coordinators w) (publishers w) (consumers w) (coords w) (closed_publishers w) (handles w) (requested w) (tasks w) (log w ++ [e]).

Definition cache (k : Kind) (w : World) : gmap string nat :=
  match k with KCoordinator => coordinators w | KPublisher => publishers w | KConsumer => consumers w end.

Definition goto (t : nat) (task : Task) (w : World) : World := set_tasks (<[t := task]> (tasks w)) w.

(** ** Helpers of the calls *)

Definition is_closed (w : World) : bool := match lifecycle w with Open _ => false | _ => true end.

Definition open_generation (w : World) : result Z ClientError :=
  match lifecycle w with Open g => Ok g | _ => Err client_closed_error end.

Definition ready (g : Z) (k : Kind) (key : string) (w : World) : result (option nat) ClientError :=
  if decide (lifecycle w = Open g) then Ok (cache k w !! key) else Err client_closed_error.

(** [commit]: the resource enters its cache unless the pool is no longer open. *)
Definition commit (g : Z) (k : Kind) (key : string) (id : nat) (w : World) : bool * World :=
  if decide (lifecycle w = Open g) then (true, note (Committed k key id) (set_cache k (<[key := id]> (cache k w)) w))
  else (false, w).

Definition state_of (c : nat) (w : World) : ConnectionState := default Recovery.Closed (ci_state <$> coords w !! c).

Definition close_coordinator (c : nat) (w : World) : World :=
  set_coords (alter (fun x => mkCoord (ci_broker x) (ci_state x) true) c (coords w)) w.

Definition close_consumer (id : nat) (w : World) : World :=
  set_handles (alter (fun x => mkConsumerInfo (cs_profile x) (cs_sources x) true) id (handles w)) w.

Definition close_publisher (p : nat) (w : World) : World := set_closed_publishers ({[p]} ∪ closed_publishers w) w.

Definition permanently (reason : string) : ClientError :=
  client_transport_error (te_new Connection ("broker connection failed permanently: " +:+ reason)).

Definition last_reported_cause (error : option string) : string :=
  match error with Some e => ": " +:+ e | None => "" end.

(** Some source is of another generation than its coordinator's connection. *)
Definition stale_source (broker : string) (s : SourceInfo) (w : World) : bool :=
  match coordinators w !! broker with
  | None => true
  | Some c => match state_of c w with Ready g => negb (g =? so_generation s) | _ => true end
  end.

(** The cached handle may be served. *)
Definition fresh (worker : WorkerProfile) (h : ConsumerInfo) (w : World) : bool :=
  let brokers := worker_brokers worker in
  bool_decide (length (cs_sources h) = length brokers) &&
  negb (existsb (fun x => stale_source x.1 x.2 w) (zip brokers (cs_sources h))) &&
  negb (cs_closed h).

(** [consumer_if_fresh] after its lookup: a stale or closed handle is evicted. *)
Definition keep_or_evict (worker : WorkerProfile) (profile : string) (id : nat) (w : World) : option nat * World :=
  if default false ((fun h => fresh worker h w) <$> handles w !! id) then (Some id, w)
  else (None, set_cache KConsumer (delete profile (consumers w)) w).

(** What a coordinator, a publisher or a set answers to a call. *)
Inductive Answer :=
| AnsNone
| AnsPublisher (o : option nat)
| AnsSet (r : result (nat * Z) string)
| AnsChannel (r : result unit string)
| AnsTransition (o : option unit)
| AnsWake (o : option (option nat))
| AnsClose (e : option ClientError).

(** ** Locks *)

Definition co_holds (broker : string) (co : Co) : option string :=
  match co with CoBegin | CoWait _ => None | _ => Some broker end.

(** The coordinator initializer a task holds. *)
Definition holds_coordinator (task : Task) : option string :=
  match task with
  | TPublisher b (PbCoord _ co) => co_holds b co
  | TConsumer _ (KsStart _ _ (b :: _) co) | TConsumer _ (KsCoord _ _ (b :: _) _ co _) => co_holds b co
  | TAdmin b (AdCoord co) => co_holds b co
  | _ => None
  end.

(** The publisher initializer, and the consumer initializer. *)
Definition holds_publisher (task : Task) : option string :=
  match task with
  | TPublisher b (PbBegin | PbWait _) => None
  | TPublisher b _ => Some b
  | _ => None
  end.

Definition holds_consumer (task : Task) : option string :=
  match task with
  | TConsumer p (KsBegin | KsFresh _ _ _ | KsWait _ _) => None
  | TConsumer p _ => Some p
  | _ => None
  end.

Definition holds (k : Kind) (task : Task) : option string :=
  match k with KCoordinator => holds_coordinator task | KPublisher => holds_publisher task | KConsumer => holds_consumer task end.

Definition free (k : Kind) (key : string) (w : World) : Prop := map_Forall (fun _ task => holds k task <> Some key) (tasks w).

Section Calls.
Variable v : ValidatedConfig.

(** ** [coordinator] *)

(** One step: the next position, or the answer. *)
Definition co_step (b : string) (co : Co) (w : World) : option ((Co + result nat ClientError) * World) :=
  match co with
  | CoBegin =>
      match Config.broker v b with
      | None => Some (inr (Err (client_error KConfiguration ("brokers." +:+ b +:+ ": unknown broker"))), w)
      | Some _ =>
          match open_generation w with
          | Err e => Some (inr (Err e), w)
          | Ok g =>
              match ready g KCoordinator b w with
              | Err e => Some (inr (Err e), w)
              | Ok (Some c) => Some (inr (Ok c), w)
              | Ok None => Some (inl (CoWait g), w)
              end
          end
      end
  | CoWait g => if decide (free KCoordinator b w) then Some (inl (CoHeld g), w) else None
  | CoHeld g =>
      match ready g KCoordinator b w with
      | Err e => Some (inr (Err e), w)
      | Ok (Some c) => Some (inr (Ok c), w)
      | Ok None => Some (inl (CoSpawn g), w)
      end
  | CoSpawn g =>
      let id := length (coords w) in
      Some (inl (CoCommit g id), note (Spawned b id) (set_coords (coords w ++ [mkCoord b Disconnected false]) w))
  | CoCommit g id =>
      let '(ok, w) := commit g KCoordinator b id w in
      Some (if ok : bool then inr (Ok id) else inl (CoClosing id), w)
  | CoClosing id => Some (inr (Err client_closed_error), close_coordinator id w)
  end.

(** ** [wait_for_coordinator_ready] with [spin_on_ready] *)

(** [tried] is what [try_op] answered: the value, or the error it recorded. *)
Definition wait_step {A} (c : nat) (wait : Wait) (tried : option (result A string)) (a : Answer) (error : option string) (w : World)
  : option ((Wait * option string) + result A ClientError) :=
  match wait with
  | WTop => Some (if is_closed w then inr (Err client_closed_error) else inl (WTry, error))
  | WTry =>
      match tried with
      | Some (Ok x) => Some (inr (Ok x))
      | Some (Err e) => Some (inl (WState, Some e))
      | None => None
      end
  | WState =>
      Some match state_of c w with
           | FailedPermanent _ reason => inr (Err (permanently reason))
           | Recovery.Closed => inr (Err client_closed_error)
           | Ready _ => inl (WTop, error)
           | observed => inl (WPark observed, error)
           end
  | WPark _ =>
      match a with
      | AnsTransition (Some _) => Some (inl (WTop, error))
      | AnsTransition None => Some (inr (Err client_closed_error))
      | _ => None
      end
  end.

(** ** [publisher] *)

Definition pub_result (b : string) (r : result nat ClientError) : Task := TGot KPublisher b r.

Definition pub_step (b : string) (pc : Pub) (a : Answer) (w : World) : option (Task * World) :=
  let at_ pc := TPublisher b pc in
  match pc with
  | PbBegin =>
      match open_generation w with
      | Err e => Some (pub_result b (Err e), w)
      | Ok g =>
          match ready g KPublisher b w with
          | Err e => Some (pub_result b (Err e), w)
          | Ok (Some p) => Some (pub_result b (Ok p), w)
          | Ok None => Some (at_ (PbWait g), w)
          end
      end
  | PbWait g => if decide (free KPublisher b w) then Some (at_ (PbHeld g), w) else None
  | PbHeld g =>
      match ready g KPublisher b w with
      | Err e => Some (pub_result b (Err e), w)
      | Ok (Some p) => Some (pub_result b (Ok p), w)
      | Ok None => Some (at_ (PbCoord g CoBegin), w)
      end
  | PbCoord g co =>
      '(r, w) ← co_step b co w;
      Some (match r with
            | inl co => at_ (PbCoord g co)
            | inr (Ok c) => at_ (PbLoop g c)
            | inr (Err e) => pub_result b (Err e)
            end, w)
  | PbLoop g c => Some (if is_closed w then pub_result b (Err client_closed_error) else at_ (PbTry g c), w)
  | PbTry g c =>
      match a with
      | AnsPublisher (Some p) => Some (at_ (PbCommit g p), w)
      | AnsPublisher None => Some (at_ (PbState g c), w)
      | _ => None
      end
  | PbState g c =>
      Some (match state_of c w with
            | FailedPermanent _ reason => pub_result b (Err (permanently reason))
            | Recovery.Closed => pub_result b (Err client_closed_error)
            | _ => at_ (PbPark g c)
            end, w)
  | PbPark g c =>
      match a with
      | AnsWake (Some (Some p)) => Some (at_ (PbCommit g p), w)
      | AnsWake (Some None) => Some (if is_closed w then pub_result b (Err client_closed_error) else at_ (PbLoop g c), w)
      | AnsWake None => Some (pub_result b (Err client_closed_error), w)
      | _ => None
      end
  | PbCommit g p =>
      let '(ok, w) := commit g KPublisher b p w in
      Some (if ok : bool then pub_result b (Ok p) else at_ (PbClosing p), w)
  | PbClosing p => Some (pub_result b (Err client_closed_error), close_publisher p w)
  end.

(** The acquisition's timeout. *)
Definition pub_timeout (b : string) (pc : Pub) : option Task :=
  match pc with
  | PbLoop _ _ | PbTry _ _ | PbState _ _ | PbPark _ _ | PbClosing _ =>
      Some (pub_result b (Err (client_error KPublish ("broker '" +:+ b +:+ "': publisher acquisition timed out after " +:+
        debug_duration (pub_confirm_timeout (v_publisher v)) +:+ " (confirm timeout)"))))
  | _ => None
  end.

(** ** [consumer] *)

Definition con_result (p : string) (r : result nat ClientError) : Task := TGot KConsumer p r.

(** The next broker of the composition, or the end of it. *)
Definition con_next (p : string) (g : Z) (worker : WorkerProfile) (todo : list string) (sources : list SourceInfo) (error : option string) : Task :=
  match todo with
  | [] => TConsumer p (KsCommit g worker sources)
  | _ => TConsumer p (KsCoord g worker todo sources CoBegin error)
  end.

Definition con_step (p : string) (pc : Con) (a : Answer) (w : World) : option (Task * World) :=
  let at_ pc := TConsumer p pc in
  let set := match a with AnsSet r => Some r | _ => None end in
  match pc with
  | KsBegin =>
      match open_generation w with
      | Err e => Some (con_result p (Err e), w)
      | Ok g =>
          match RecoveryCoordinator.request v p (requested w) with
          | Err e => Some (con_result p (Err (client_error KConfiguration (ce_path e +:+ ": " +:+ ce_message e))), w)
          | Ok (worker, l) =>
              let w := set_requested l w in
              match ready g KConsumer p w with
              | Err e => Some (con_result p (Err e), w)
              | Ok (Some id) => Some (at_ (KsFresh g worker id), w)
              | Ok None => Some (at_ (KsWait g worker), w)
              end
          end
      end
  | KsFresh g worker id =>
      let '(o, w) := keep_or_evict worker p id w in
      Some (match o with Some id => con_result p (Ok id) | None => at_ (KsWait g worker) end, w)
  | KsWait g worker => if decide (free KConsumer p w) then Some (at_ (KsHeld g worker), w) else None
  | KsHeld g worker =>
      match ready g KConsumer p w with
      | Err e => Some (con_result p (Err e), w)
      | Ok (Some id) => Some (at_ (KsFreshHeld g worker id), w)
      | Ok None => Some (at_ (KsStart g worker (worker_brokers worker) CoBegin), w)
      end
  | KsFreshHeld g worker id =>
      let '(o, w) := keep_or_evict worker p id w in
      Some (match o with Some id => con_result p (Ok id) | None => at_ (KsStart g worker (worker_brokers worker) CoBegin) end, w)
  | KsStart g worker [] co => Some (con_next p g worker (worker_brokers worker) [] None, w)
  | KsStart g worker (b :: todo) co =>
      '(r, w) ← co_step b co w;
      Some (match r with
            | inl co => at_ (KsStart g worker (b :: todo) co)
            | inr (Ok _) => at_ (KsStart g worker todo CoBegin)
            | inr (Err e) => con_result p (Err e)
            end, w)
  | KsCoord g worker [] sources co error => Some (at_ (KsCommit g worker sources), w)
  | KsCoord g worker (b :: todo) sources co error =>
      '(r, w) ← co_step b co w;
      Some (match r with
            | inl co => at_ (KsCoord g worker (b :: todo) sources co error)
            | inr (Ok c) => at_ (KsReady g worker (b :: todo) sources c WTop error)
            | inr (Err e) => con_result p (Err e)
            end, w)
  | KsReady g worker todo sources c wait error =>
      r ← wait_step c wait set a error w;
      Some (match r with
            | inl (wait, error) => at_ (KsReady g worker todo sources c wait error)
            | inr (Ok (set, generation)) => con_next p g worker (drop 1 todo) (sources ++ [mkSource c set generation]) error
            | inr (Err e) => con_result p (Err e)
            end, w)
  | KsCommit g worker sources =>
      let id := length (handles w) in
      let w := set_handles (handles w ++ [mkConsumerInfo p sources false]) w in
      let '(ok, w) := commit g KConsumer p id w in
      Some (if ok : bool then con_result p (Ok id) else at_ (KsClosing id), w)
  | KsClosing id => Some (con_result p (Err client_closed_error), close_consumer id w)
  end.

(** The timeout of the composition. *)
Definition con_timeout (p : string) (pc : Con) : option Task :=
  let expired error := Some (con_result p (Err (client_transport_error (te_new Connection
    ("consumer profile '" +:+ p +:+ "' did not become ready within " +:+ debug_duration (wait_timeout (v_consumer v)) +:+
     last_reported_cause error))))) in
  match pc with
  | KsStart _ _ _ _ => expired None
  | KsCoord _ _ _ _ _ error | KsReady _ _ _ _ _ _ error => expired error
  | _ => None
  end.

(** ** [admin_channel] *)

Definition adm_step (b : string) (pc : Adm) (a : Answer) (w : World) : option (Task * World) :=
  match pc with
  | AdCoord co =>
      '(r, w) ← co_step b co w;
      Some (match r with
            | inl co => TAdmin b (AdCoord co)
            | inr (Ok c) => TAdmin b (AdReady c WTop None)
            | inr (Err e) => TChannel (Err e)
            end, w)
  | AdReady c wait error =>
      r ← wait_step c wait (match a with AnsChannel r => Some r | _ => None end) a error w;
      Some (match r with
            | inl (wait, error) => TAdmin b (AdReady c wait error)
            | inr r => TChannel r
            end, w)
  end.

Definition adm_timeout (b : string) (pc : Adm) : option Task :=
  match pc with
  | AdCoord _ => None
  | AdReady _ _ error => Some (TChannel (Err (client_transport_error (te_new Connection
      ("broker '" +:+ b +:+ "' did not become ready for the admin operation within " +:+
       debug_duration (wait_timeout (v_consumer v)) +:+ last_reported_cause error)))))
  end.

(** ** [close] *)

Definition first_error (error e : option ClientError) : option ClientError := match error with Some _ => error | None => e end.

Definition values (m : gmap string nat) : list nat := (map_to_list m).*2.

Definition cls_step (pc : Cls) (a : Answer) (w : World) : option (Task * World) :=
  match pc with
  | ClBegin =>
      Some match lifecycle w with
           | Open _ => (TClose ClTakeConsumers, set_lifecycle Closing w)
           | _ => (TClosed (Ok tt), w)
           end
  | ClTakeConsumers => Some (TClose (ClConsumers (values (consumers w)) None), set_cache KConsumer ∅ w)
  | ClConsumers [] e => Some (TClose (ClTakeCoordinators e), w)
  | ClConsumers (c :: todo) e =>
      match a with AnsClose e' => Some (TClose (ClConsumers todo (first_error e e')), close_consumer c w) | _ => None end
  | ClTakeCoordinators e => Some (TClose (ClCoordinators (values (coordinators w)) e), set_cache KCoordinator ∅ w)
  | ClCoordinators [] e => Some (TClose (ClTakePublishers e), w)
  | ClCoordinators (c :: todo) e =>
      match a with AnsClose e' => Some (TClose (ClCoordinators todo (first_error e e')), close_coordinator c w) | _ => None end
  | ClTakePublishers e => Some (TClose (ClPublishers (values (publishers w)) e), set_cache KPublisher ∅ w)
  | ClPublishers [] e => Some (TClose (ClFinish e), w)
  | ClPublishers (c :: todo) e =>
      match a with AnsClose e' => Some (TClose (ClPublishers todo (first_error e e')), close_publisher c w) | _ => None end
  | ClFinish e => Some (TClosed (match e with Some e => Err e | None => Ok tt end), set_lifecycle Closed w)
  end.

(** ** The system *)

Inductive Event :=
| ECall (t : nat) (task : Task)
| EStep (t : nat) (a : Answer)
| ETimeout (t : nat)
| EDrop (t : nat)
| EState (c : nat) (s : ConnectionState)
| EConsumerClosed (id : nat).

(** A call as it begins. *)
Definition begins (task : Task) : bool :=
  match task with
  | TPublisher _ PbBegin | TConsumer _ KsBegin | TAdmin _ (AdCoord CoBegin) | TClose ClBegin => true
  | _ => false
  end.

Definition finished (task : Task) : bool :=
  match task with TGot _ _ _ | TChannel _ | TClosed _ | TDropped => true | _ => false end.

(** The future can be dropped: the task is at an await ([WTop] follows a yield). *)
Definition at_await (task : Task) : bool :=
  let co co := match co with CoWait _ | CoClosing _ => true | _ => false end in
  let wait wait := match wait with WTop | WTry | WPark _ => true | WState => false end in
  match task with
  | TPublisher _ pc =>
      match pc with PbCoord _ c => co c | PbWait _ | PbTry _ _ | PbPark _ _ | PbClosing _ => true | _ => false end
  | TConsumer _ pc =>
      match pc with
      | KsStart _ _ _ c | KsCoord _ _ _ _ c _ => co c
      | KsReady _ _ _ _ _ x _ => wait x
      | KsWait _ _ | KsClosing _ => true
      | _ => false
      end
  | TAdmin _ pc => match pc with AdCoord c => co c | AdReady _ x _ => wait x end
  | TClose pc =>
      match pc with ClConsumers (_ :: _) _ | ClCoordinators (_ :: _) _ | ClPublishers (_ :: _) _ => true | _ => false end
  | _ => false
  end.

(** What the task was to close. *)
Definition closing (task : Task) : list (Kind * nat) :=
  let co co := match co with CoClosing id => [(KCoordinator, id)] | _ => [] end in
  match task with
  | TPublisher _ (PbCoord _ c) | TConsumer _ (KsStart _ _ (_ :: _) c) | TConsumer _ (KsCoord _ _ (_ :: _) _ c _) | TAdmin _ (AdCoord c) => co c
  | TPublisher _ (PbClosing p) => [(KPublisher, p)]
  | TConsumer _ (KsClosing id) => [(KConsumer, id)]
  | TClose (ClConsumers todo _) => pair KConsumer <$> todo
  | TClose (ClCoordinators todo _) => pair KCoordinator <$> todo
  | TClose (ClPublishers todo _) => pair KPublisher <$> todo
  | _ => []
  end.

(** The future is dropped. *)
Definition drop_task (t : nat) (task task' : Task) (w : World) : World :=
  goto t task' (foldl (fun w x => note (Abandoned x.1 x.2) w) w (closing task)).

Definition task_step (task : Task) (a : Answer) (w : World) : option (Task * World) :=
  match task with
  | TPublisher b pc => pub_step b pc a w
  | TConsumer p pc => con_step p pc a w
  | TAdmin b pc => adm_step b pc a w
  | TClose pc => cls_step pc a w
  | _ => None
  end.

Definition task_timeout (task : Task) : option Task :=
  match task with
  | TPublisher b pc => pub_timeout b pc
  | TConsumer p pc => con_timeout p pc
  | TAdmin b pc => adm_timeout b pc
  | _ => None
  end.

Definition step (e : Event) (w : World) : option World :=
  match e with
  | ECall t task => match tasks w !! t with None => if begins task then Some (goto t task w) else None | Some _ => None end
  | EStep t a => task ← tasks w !! t; '(task', w') ← task_step task a w; Some (goto t task' w')
  | ETimeout t => task ← tasks w !! t; task' ← task_timeout task; if at_await task then Some (drop_task t task task' w) else None
  | EDrop t => task ← tasks w !! t; if at_await task then Some (drop_task t task TDropped w) else None
  | EState c s =>
      match coords w !! c with
      | Some x => Some (set_coords (<[c := mkCoord (ci_broker x) s (ci_closed x)]> (coords w)) w)
      | None => None
      end
  | EConsumerClosed id => match handles w !! id with Some _ => Some (close_consumer id w) | None => None end
  end.

Definition init : World := mkWorld (Open 1) ∅ ∅ ∅ [] ∅ [] [] ∅ [].

Fixpoint run (es : list Event) (w : World) : option World :=
  match es with
  | [] => Some w
  | e :: es' => w' ← step e w; run es' w'
  end.

Inductive reach : World -> Prop :=
| reach_init : reach init
| reach_step e w w' : reach w -> step e w = Some w' -> reach w'.

End Calls.

End ClientPool.
