(* ===== verification/ClientPoolInv.v ===== *)
(** * Invariants of the client pool

    The three caches follow one protocol: a key is filled by the task that holds the
    key's initializer and has seen the cache empty under it. [kstep] is a step as one
    cache sees it, [kinv] its invariant, for each of the three caches. *)

From S2P Require Import Prelude Transport Publication Recovery ClientBatch Config RecoveryCoordinator ClientPool.
Import Transport Publication Recovery ClientBatch Config ClientPool.
Local Open Scope Z_scope.
Local Open Scope rabbit_scope.

Module ClientPoolInv.

(** ** What a task is doing to a cache *)

(** The call of [coordinator] a task is in. *)
Definition co_of (task : Task) : option (string * Co) :=
  match task with
  | TPublisher b (PbCoord _ co) | TConsumer _ (KsStart _ _ (b :: _) co) | TConsumer _ (KsCoord _ _ (b :: _) _ co _) | TAdmin b (AdCoord co) => Some (b, co)
  | _ => None
  end.

Definition co_stage (b : string) (co : Co) : option (string * bool) :=
  match co with CoBegin | CoWait _ => None | CoHeld _ => Some (b, false) | _ => Some (b, true) end.

(** The key whose initializer the task holds, and whether it has checked the cache. *)
Definition stage (k : Kind) (task : Task) : option (string * bool) :=
  match k with
  | KCoordinator => x ← co_of task; co_stage x.1 x.2
  | KPublisher =>
      match task with
      | TPublisher _ (PbBegin | PbWait _) => None
      | TPublisher b (PbHeld _) => Some (b, false)
      | TPublisher b _ => Some (b, true)
      | _ => None
      end
  | KConsumer =>
      match task with
      | TConsumer _ (KsBegin | KsFresh _ _ _ | KsWait _ _) => None
      | TConsumer p (KsHeld _ _ | KsFreshHeld _ _ _) => Some (p, false)
      | TConsumer p _ => Some (p, true)
      | _ => None
      end
  end.

Lemma holds_stage k task : holds k task = fst <$> stage k task.
Proof. destruct k, task as [? []|? []|? []| | | | |]; try match goal with l : list string |- _ => destruct l end; try match goal with co : Co |- _ => destruct co end; done. Qed.

(** The commits of one kind, and the coordinators spawned, in the log. *)
Definition commit_of (k : Kind) (e : Entry) : option (string * nat) :=
  match e with Committed k' key id => if decide (k' = k) then Some (key, id) else None | _ => None end.

Definition commits (k : Kind) (w : World) : list (string * nat) := omap (commit_of k) (log w).

Lemma commits_note k e w : commits k (note e w) = commits k w ++ option_list (commit_of k e).
Proof. unfold commits. cbn. rewrite omap_app. cbn. by destruct (commit_of k e). Qed.

(** ** A step as one cache sees it *)

Inductive kstep (k : Kind) (s s' : option (string * bool)) (w w' : World) : Prop :=
| ks_quiet :
    (s' = s \/ s' = None) ->
    (is_closed w = true -> is_closed w' = true) ->
    cache k w' ⊆ cache k w -> (k <> KConsumer -> is_closed w' = true \/ cache k w' = cache k w) ->
    commits k w' = commits k w -> kstep k s s' w w'
| ks_acquire key :
    s = None -> s' = Some (key, false) -> free k key w ->
    is_closed w' = is_closed w -> cache k w' = cache k w -> commits k w' = commits k w -> kstep k s s' w w'
| ks_check key :
    s = Some (key, false) -> s' = Some (key, true) ->
    is_closed w' = is_closed w -> cache k w' ⊆ cache k w -> cache k w' !! key = None -> (k <> KConsumer -> cache k w' = cache k w) ->
    commits k w' = commits k w -> kstep k s s' w w'
| ks_commit key id :
    s = Some (key, true) -> s' = None ->
    is_closed w = false -> is_closed w' = false -> cache k w' = <[key := id]> (cache k w) ->
    commits k w' = commits k w ++ [(key, id)] -> kstep k s s' w w'.

Record kinv (k : Kind) (w : World) : Prop := {
  (** At most one task holds the initializer of a key. *)
  k_mutex t1 t2 x1 x2 key : tasks w !! t1 = Some x1 -> tasks w !! t2 = Some x2 ->
    holds k x1 = Some key -> holds k x2 = Some key -> t1 = t2;
  (** Past the check the key stays absent. *)
  k_absent t x key : tasks w !! t = Some x -> stage k x = Some (key, true) -> is_closed w = false -> cache k w !! key = None;
  (** What is cached was committed; while the pool is open nothing else was. *)
  k_cached key id : cache k w !! key = Some id -> (key, id) ∈ commits k w;
  k_kept key id : k <> KConsumer -> (key, id) ∈ commits k w -> is_closed w = false -> cache k w !! key = Some id;
  k_once key id id' : k <> KConsumer -> (key, id) ∈ commits k w -> (key, id') ∈ commits k w -> id = id'
}.

Lemma kinv_init k : kinv k init.
Proof. by split; intros *; destruct k; cbn; rewrite ?lookup_empty, ?elem_of_nil. Qed.

Lemma holds_of_stage k task key b : stage k task = Some (key, b) -> holds k task = Some key.
Proof. by rewrite holds_stage => ->. Qed.

Lemma stage_of_holds k task key : holds k task = Some key -> exists b, stage k task = Some (key, b).
Proof. rewrite holds_stage. destruct (stage k task) as [[]|]; cbn; intros [= ->]. eauto. Qed.

(** The tasks of a step: one of them moves. *)
Lemma moved_tasks {t : nat} {x : Task} {m : gmap nat Task} {u y} : <[t := x]> m !! u = Some y -> u = t /\ y = x \/ u <> t /\ m !! u = Some y.
Proof. rewrite lookup_insert_Some. naive_solver. Qed.

(** A task that holds a key after its move held it before, unless it has just acquired
    it. *)
Lemma kstep_holds k x x' w w' key :
  kstep k (stage k x) (stage k x') w w' -> holds k x' = Some key -> holds k x = Some key \/ free k key w.
Proof.
  intros H [b Hb]%stage_of_holds. destruct H as [[E|E] ? ? ? ?|? ? E Hf ? ? ?|? E1 E ? ? ? ? ?|? ? ? E ? ? ? ?]; rewrite E in Hb; simplify_eq.
  - left. by eapply holds_of_stage.
  - by right.
  - left. by eapply holds_of_stage.
Qed.

Lemma kinv_mutex k w w' t x x' :
  kinv k w -> tasks w !! t = Some x -> tasks w' = <[t := x']> (tasks w) -> kstep k (stage k x) (stage k x') w w' ->
  forall t1 t2 x1 x2 key, tasks w' !! t1 = Some x1 -> tasks w' !! t2 = Some x2 ->
    holds k x1 = Some key -> holds k x2 = Some key -> t1 = t2.
Proof.
  intros Hi Ht Hw Hk t1 t2 x1 x2 key. rewrite Hw.
  intros [[-> ->]|[Hn1 H1]]%moved_tasks [[-> ->]|[Hn2 H2]]%moved_tasks Hk1 Hk2; [done| | |by eapply (k_mutex _ _ Hi)].
  - destruct (kstep_holds _ _ _ _ _ _ Hk Hk1) as [Hh|Hf]; [by eapply (k_mutex _ _ Hi)|]. by destruct (Hf _ _ H2).
  - destruct (kstep_holds _ _ _ _ _ _ Hk Hk2) as [Hh|Hf]; [by eapply (k_mutex _ _ Hi)|]. by destruct (Hf _ _ H1).
Qed.

Lemma kinv_step k w w' t x x' :
  kinv k w -> tasks w !! t = Some x -> tasks w' = <[t := x']> (tasks w) -> kstep k (stage k x) (stage k x') w w' -> kinv k w'.
Proof.
  intros Hi Ht Hw Hk. pose proof (kinv_mutex _ _ _ _ _ _ Hi Ht Hw Hk) as Hm.
  assert (Hsub : forall key, cache k w' ⊆ cache k w -> cache k w !! key = None -> cache k w' !! key = None)
    by (intros key ??; by eapply lookup_weaken_None).
  destruct Hk as [Hs Hc Hs' Hs'' Hl|key Hs Hs' Hf Hc Hca Hl|key Hs Hs' Hc Hsb Hn Hs'' Hl|key id Hs Hs' Hc Hc' He Hl].
  - split; [done|..]; rewrite ?Hl.
    + intros u y key. rewrite Hw. intros [[-> ->]|[Hn H]]%moved_tasks Hy Ho.
      * destruct Hs as [Hs|Hs]; [|by rewrite Hs in Hy]. apply Hsub; [done|]. eapply (k_absent _ _ Hi); [done|by rewrite <- Hs|].
        destruct (is_closed w); [|done]. by rewrite Hc in Ho.
      * apply Hsub; [done|]. eapply (k_absent _ _ Hi); [done..|]. destruct (is_closed w); [|done]. by rewrite Hc in Ho.
    + intros key id H. eapply (k_cached _ _ Hi). by eapply lookup_weaken.
    + intros key id Hk H Ho. destruct (Hs'' Hk) as [?| ->]; [congruence|]. eapply (k_kept _ _ Hi); [done..|].
      destruct (is_closed w); [|done]. by rewrite Hc in Ho.
    + apply Hi.
  - split; [done|..]; rewrite ?Hl, ?Hc, ?Hca; try apply Hi. intros u y key'. rewrite Hw. intros [[-> ->]|[Hn H]]%moved_tasks Hy Ho; [congruence|].
    rewrite ?Hc, ?Hca in *. by eapply (k_absent _ _ Hi).
  - split; [done|..]; rewrite ?Hl.
    + intros u y key'. rewrite Hw. intros [[-> ->]|[Hn' H]]%moved_tasks Hy Ho; [congruence|].
      apply Hsub; [done|]. eapply (k_absent _ _ Hi); [done..|congruence].
    + intros key' id H. eapply (k_cached _ _ Hi). by eapply lookup_weaken.
    + intros key' id Hk H Ho. rewrite Hs'' by done. eapply (k_kept _ _ Hi); [done..|congruence].
    + apply Hi.
  - assert (Ha : cache k w !! key = None) by by eapply (k_absent _ _ Hi).
    assert (Hnew : forall i, k <> KConsumer -> (key, i) ∉ commits k w).
    { intros i Hk H. pose proof (k_kept _ _ Hi _ _ Hk H Hc). congruence. }
    split; [done|..]; rewrite ?Hl, ?He.
    + intros u y key'. rewrite Hw. intros [[-> ->]|[Hn H]]%moved_tasks Hy Ho; [congruence|].
      rewrite lookup_insert_ne; [by eapply (k_absent _ _ Hi)|]. intros <-. apply Hn.
      eapply (k_mutex _ _ Hi); [done..| |]; by eapply holds_of_stage.
    + intros key' i. rewrite elem_of_app, list_elem_of_singleton. intros [[-> ->]|[Hn H]]%lookup_insert_Some; [by right|].
      left. by eapply (k_cached _ _ Hi).
    + intros key' i Hk. rewrite elem_of_app, list_elem_of_singleton. intros [H|[= -> ->]] Ho; [|by rewrite lookup_insert_eq].
      rewrite lookup_insert_ne; [by eapply (k_kept _ _ Hi)|]. intros <-. by eapply Hnew.
    + intros key' i i' Hk. rewrite !elem_of_app, !list_elem_of_singleton. intros [H|[= -> ->]] [H'|H']; simplify_eq; try done.
      * by eapply (k_once _ _ Hi).
      * by destruct (Hnew _ Hk H).
      * by destruct (Hnew _ Hk H').
Qed.

(** ** Every step of a task is a step of each cache *)

(** What one kind of cache depends on is unchanged. *)
Definition same_part (k : Kind) (w w' : World) : Prop :=
  is_closed w' = is_closed w /\ cache k w' = cache k w /\ commits k w' = commits k w.

Lemma same_part_refl k w : same_part k w w.
Proof. done. Qed.

Lemma ks_still k s s' w w' : same_part k w w' -> (s' = s \/ s' = None) -> kstep k s s' w w'.
Proof. intros (H1 & H2 & H3) Hs. apply ks_quiet; [done|by rewrite H1|by rewrite H2|by right|done]. Qed.

Lemma kstep_frame k s s' w0 w w' : same_part k w0 w -> tasks w = tasks w0 -> kstep k s s' w w' -> kstep k s s' w0 w'.
Proof.
  intros (H1 & H2 & H3) Ht [? ? ? ? ?|key ? ? Hf ? ? ?|key ? ? ? ? ? ? ?|key id ? ? ? ? ? ?]; rewrite ?H1, ?H2, ?H3 in *.
  - by apply ks_quiet.
  - eapply ks_acquire; [done..| | | |]; try done. unfold free in *. by rewrite <- Ht.
  - by eapply ks_check.
  - by eapply ks_commit.
Qed.

Lemma ready_ok g k key w o : ready g k key w = Ok o -> o = cache k w !! key /\ is_closed w = false.
Proof. unfold ready, is_closed. case_decide as E; [|done]. rewrite E. by intros [= <-]. Qed.

Lemma commit_same g k k' key id w ok w' : commit g k key id w = (ok, w') -> k <> k' -> same_part k' w w'.
Proof.
  unfold commit. case_decide as E; intros [= <- <-] Hk; [|done]. unfold same_part. rewrite commits_note. cbn. case_decide; [done|].
  rewrite app_nil_r. by destruct k, k'.
Qed.

Lemma commit_kstep g k key id w ok w' :
  commit g k key id w = (ok, w') -> kstep k (Some (key, true)) (if ok then None else Some (key, true)) w w'.
Proof.
  unfold commit. case_decide as E; intros [= <- <-]; [|by apply ks_still; [|left]].
  apply (ks_commit k _ _ _ _ key id); [done..| | | |].
  - unfold is_closed. by rewrite E.
  - unfold is_closed. destruct k; cbn; by rewrite E.
  - by destruct k.
  - rewrite commits_note. cbn. rewrite decide_True by done. by destruct k.
Qed.

(** A call of [coordinator] only touches the cache of the coordinators. *)
Lemma co_step_same v b co w r w' k : co_step v b co w = Some (r, w') -> k <> KCoordinator -> same_part k w w'.
Proof.
  intros H Hk. destruct co; cbn in H; repeat case_match; simplify_eq; try done.
  - unfold same_part. rewrite commits_note. cbn. rewrite app_nil_r. by destruct k.
  - by eapply commit_same.
  - by eapply commit_same.
Qed.

Lemma co_step_kstep v b co w r w' :
  co_step v b co w = Some (r, w') ->
  kstep KCoordinator (co_stage b co) (match r with inl co' => co_stage b co' | inr _ => None end) w w'.
Proof.
  intros H. destruct co; cbn in H; repeat case_match; simplify_eq; try by apply ks_still; [|auto].
  - by eapply ks_acquire.
  - match goal with H : ready _ _ _ _ = _ |- _ => apply ready_ok in H as [? ?] end. by eapply ks_check.
  - apply ks_still; [|by left]. unfold same_part. rewrite commits_note. cbn. by rewrite app_nil_r.
  - match goal with H : commit _ _ _ _ _ = _ |- _ => by apply commit_kstep in H end.
  - match goal with H : commit _ _ _ _ _ = _ |- _ => by apply commit_kstep in H end.
Qed.

(** The embedded call of [coordinator]: what comes after it is not inside another one. *)
Lemma embedded v b co w r w' k s s' :
  co_step v b co w = Some (r, w') ->
  (k = KCoordinator -> s = co_stage b co /\ s' = match r with inl co' => co_stage b co' | inr _ => None end) ->
  (k <> KCoordinator -> s' = s \/ s' = None) -> kstep k s s' w w'.
Proof.
  intros H Hs Hk. destruct (decide (k = KCoordinator)) as [->|Hn].
  - destruct Hs as [-> ->]; [done|]. by eapply co_step_kstep.
  - apply ks_still; [by eapply co_step_same|auto].
Qed.

(** Leaves the cases of a step that are no change of the cache in question. *)
Ltac still := try by (apply ks_still; [done|auto]).
Ltac checked := match goal with H : ready _ _ _ _ = _ |- _ => apply ready_ok in H as [? ?] end.

Lemma pub_kstep v b pc a w task' w' k :
  pub_step v b pc a w = Some (task', w') -> kstep k (stage k (TPublisher b pc)) (stage k task') w w'.
Proof.
  intros H. destruct pc as [|g|g|g co| | | | |g p|p]; cbn in H.
  - repeat case_match; simplify_eq; destruct k; still.
  - case_decide; simplify_eq. destruct k; still. by eapply ks_acquire.
  - repeat case_match; simplify_eq; destruct k; still. checked. by eapply ks_check.
  - apply bind_Some in H as ([r w1] & Hc & [= <- <-]). eapply embedded; [done| |].
    + intros ->. split; [done|]. by destruct r as [|[]].
    + intros Hk. destruct k; [done| |]; destruct r as [|[]]; auto.
  - repeat case_match; simplify_eq; destruct k; still.
  - repeat case_match; simplify_eq; destruct k; still.
  - repeat case_match; simplify_eq; destruct k; still.
  - repeat case_match; simplify_eq; destruct k; still.
  - destruct (commit g KPublisher b p w) as [ok w1] eqn:Hc. destruct k.
    + destruct ok; simplify_eq; (apply ks_still; [by eapply commit_same|auto]).
    + apply commit_kstep in Hc. by destruct ok; simplify_eq.
    + destruct ok; simplify_eq; (apply ks_still; [by eapply commit_same|auto]).
  - simplify_eq. destruct k; still.
Qed.

Lemma adm_kstep v b pc a w task' w' k :
  adm_step v b pc a w = Some (task', w') -> kstep k (stage k (TAdmin b pc)) (stage k task') w w'.
Proof.
  intros H. destruct pc as [co|c wait error]; cbn in H.
  - apply bind_Some in H as ([r w1] & Hc & [= <- <-]). eapply embedded; [done| |].
    + intros ->. split; [done|]. by destruct r as [|[]].
    + intros Hk. destruct k; [done| |]; destruct r as [|[]]; auto.
  - apply bind_Some in H as (r & Hc & [= <- <-]). destruct r as [[]|]; destruct k; still.
Qed.

(** An eviction shrinks the cache of the consumers. *)
Lemma evict_part worker p id w o w' :
  keep_or_evict worker p id w = (o, w') ->
  is_closed w' = is_closed w /\ consumers w' ⊆ consumers w /\ (o = None -> consumers w' !! p = None) /\
  (forall k, k <> KConsumer -> cache k w' = cache k w) /\ log w' = log w.
Proof.
  unfold keep_or_evict. case_match; intros [= <- <-]; [done|]. split; [done|]. split; [apply delete_subseteq|].
  split; [intros _; apply lookup_delete_eq|]. split; [|done]. by intros [].
Qed.

Lemma evict_kstep worker p id w o w' k s s' :
  keep_or_evict worker p id w = (o, w') -> (s' = s \/ s' = None) -> kstep k s s' w w'.
Proof.
  intros (H1 & H2 & _ & H4 & H5)%evict_part Hs. apply ks_quiet; [done|by rewrite H1| | |by unfold commits; rewrite H5].
  - destruct (decide (k = KConsumer)) as [->|Hk]; [done|]. by rewrite H4.
  - intros Hk. right. by apply H4.
Qed.

Lemma con_next_stage p g worker todo sources error k :
  stage k (con_next p g worker todo sources error) = match k with KConsumer => Some (p, true) | _ => None end.
Proof. by destruct todo, k. Qed.

Lemma con_kstep v p pc a w task' w' k :
  con_step v p pc a w = Some (task', w') -> kstep k (stage k (TConsumer p pc)) (stage k task') w w'.
Proof.
  intros H. destruct pc as [|g x id|g x|g x|g x id|g x todo co|g x todo sources co error|g x todo sources c wait error|g x sources|id]; cbn in H.
  - repeat case_match; simplify_eq; destruct k; still.
  - destruct (keep_or_evict _ _ _ _) as [o w1] eqn:He. destruct o; simplify_eq; (eapply evict_kstep; [done|by destruct k; auto]).
  - case_decide; simplify_eq. destruct k; still. by eapply ks_acquire.
  - repeat case_match; simplify_eq; destruct k; cbn [stage co_of mbind option_bind]; still.
    + destruct (worker_brokers x); still.
    + checked. by eapply ks_check.
  - destruct (keep_or_evict _ _ _ _) as [o w1] eqn:He. destruct o; simplify_eq; [eapply evict_kstep; [done|by destruct k; auto]|].
    destruct k; [eapply evict_kstep; [done|]; cbn; by destruct (worker_brokers x); auto|by eapply evict_kstep; [|auto]|].
    apply evict_part in He as (H1 & H2 & H3 & H4 & H5). eapply ks_check; [done..|by apply H3|done|by unfold commits; rewrite H5].
  - destruct todo as [|b todo]; [simplify_eq; rewrite con_next_stage; destruct k; still|].
    apply bind_Some in H as ([r w1] & Hc & [= <- <-]). eapply embedded; [done| |].
    + intros ->. split; [done|]. destruct r as [|[]]; [done| |done]. by destruct todo.
    + intros Hk. destruct k; [done| |]; destruct r as [|[]]; auto.
  - destruct todo as [|b todo]; [simplify_eq; destruct k; still|].
    apply bind_Some in H as ([r w1] & Hc & [= <- <-]). eapply embedded; [done| |].
    + intros ->. split; [done|]. by destruct r as [|[]].
    + intros Hk. destruct k; [done| |]; destruct r as [|[]]; auto.
  - apply bind_Some in H as (r & Hc & [= <- <-]).
    destruct r as [[]|[[]|]]; rewrite ?con_next_stage; destruct k; still; by destruct todo; still.
  - destruct (commit _ _ _ _ _) as [ok w1] eqn:Hc. destruct k.
    + destruct ok; simplify_eq; (apply ks_still; [by apply (commit_same _ _ KCoordinator _ _ _ _ _ Hc)|auto]).
    + destruct ok; simplify_eq; (apply ks_still; [by apply (commit_same _ _ KPublisher _ _ _ _ _ Hc)|auto]).
    + apply commit_kstep in Hc. destruct ok; simplify_eq; by eapply kstep_frame, Hc.
  - simplify_eq. destruct k; still.
Qed.

Lemma cls_kstep pc a w task' w' k :
  cls_step pc a w = Some (task', w') ->
  (pc <> ClBegin -> is_closed w = true) -> kstep k (stage k (TClose pc)) (stage k task') w w'.
Proof.
  intros H Hc. destruct pc as [| |[]| |[]| |[]|]; cbn in H; repeat case_match; simplify_eq; try specialize (Hc ltac:(done));
    destruct k; still; (apply ks_quiet; [auto|done|first [done|apply map_empty_subseteq]|intros _; first [by right|by left]|done]).
Qed.

(** ** The steps of the system *)

(** A step starts a call, moves a task, drops one (or lets its timeout expire), or is
    one of the environment that touches no cache. *)
Inductive moves (v : ValidatedConfig) (w w' : World) : Prop :=
| mv_call t x : tasks w !! t = None -> begins x = true -> w' = goto t x w -> moves v w w'
| mv_step t x x' a w1 : tasks w !! t = Some x -> task_step v x a w = Some (x', w1) -> w' = goto t x' w1 -> moves v w w'
| mv_drop t x x' : tasks w !! t = Some x -> at_await x = true -> finished x' = true -> (forall k key id, x' <> TGot k key (Ok id)) ->
    w' = drop_task t x x' w -> moves v w w'
| mv_state c x s : coords w !! c = Some x -> w' = set_coords (<[c := mkCoord (ci_broker x) s (ci_closed x)]> (coords w)) w -> moves v w w'
| mv_close id : is_Some (handles w !! id) -> w' = close_consumer id w -> moves v w w'.

Lemma step_moves v e w w' : step v e w = Some w' -> moves v w w'.
Proof.
  intros H. destruct e as [t x|t a|t|t|c s|id]; cbn in H.
  - repeat case_match; simplify_eq. by eapply mv_call.
  - apply bind_Some in H as (x & Ht & ([x' w1] & Hs & [= <-])%bind_Some). by eapply mv_step.
  - apply bind_Some in H as (x & Ht & (x' & Hs & H)%bind_Some). destruct (at_await x) eqn:Ha; simplify_eq. eapply mv_drop; [done..| | |done];
      destruct x as [? []|? []|? []| | | | |]; cbn in Hs; simplify_eq; done.
  - apply bind_Some in H as (x & Ht & H). destruct (at_await x) eqn:Ha; simplify_eq. by apply (mv_drop _ _ _ t x TDropped).
  - case_match; simplify_eq. by eapply mv_state.
  - case_match eqn:E; simplify_eq. by eapply mv_close.
Qed.

(** Dropping a task leaves the world but for the log and the task. *)
Lemma drop_task_spec t x x' w :
  let w' := drop_task t x x' w in
  lifecycle w' = lifecycle w /\ (forall k, cache k w' = cache k w) /\ coords w' = coords w /\ closed_publishers w' = closed_publishers w /\
  handles w' = handles w /\ requested w' = requested w /\ tasks w' = <[t := x']> (tasks w) /\
  log w' = log w ++ ((fun y => Abandoned y.1 y.2) <$> closing x).
Proof.
  unfold drop_task. revert w. induction (closing x) as [|y l IH]; intros w; cbn [foldl fmap list_fmap].
  - rewrite app_nil_r. done.
  - destruct (IH (note (Abandoned y.1 y.2) w)) as (H1 & H2 & H3 & H4 & H5 & H6 & H7 & H8). cbn in *.
    split_and!; try done. rewrite H8. by rewrite <- app_assoc.
Qed.

Lemma finished_stage k x : finished x = true -> stage k x = None.
Proof. by destruct k, x. Qed.

Lemma begins_stage k x : begins x = true -> stage k x = None.
Proof. by destruct k, x as [? []|? []|? [[]|]|[]| | | |]. Qed.

Lemma commits_dropped k t x x' w : commits k (drop_task t x x' w) = commits k w.
Proof.
  unfold commits. destruct (drop_task_spec t x x' w) as (_ & _ & _ & _ & _ & _ & _ & ->). rewrite omap_app.
  rewrite <- (app_nil_r (omap _ (log w))) at 2. f_equal. by induction (closing x).
Qed.

(** ** The close *)

(** The caches [close] has taken. *)
Definition taken (pc : Cls) (k : Kind) : bool :=
  match pc, k with
  | (ClBegin | ClTakeConsumers), _ => false
  | _, KConsumer => true
  | (ClConsumers _ _ | ClTakeCoordinators _), _ => false
  | _, KCoordinator => true
  | (ClCoordinators _ _ | ClTakePublishers _), _ => false
  | _, KPublisher => true
  end.

Definition close_inv (w : World) : Prop :=
  (forall t pc, tasks w !! t = Some (TClose pc) -> (pc <> ClBegin -> is_closed w = true) /\ forall k, taken pc k = true -> cache k w = ∅) /\
  (lifecycle w = Closed -> forall k, cache k w = ∅).

(** Once the pool is closed no cache grows. *)
Lemma kstep_closed k s s' w w' : kstep k s s' w w' -> is_closed w = true -> is_closed w' = true /\ cache k w' ⊆ cache k w.
Proof. intros [? Hc ? ? ?|? ? ? ? E E' ?|? ? ? E ? ? ? ?|? ? ? ? E ? ? ?] Ho; rewrite ?E, ?E' in *; try done. by rewrite Hc. Qed.

Lemma task_kstep v x a w x' w1 k t :
  close_inv w -> tasks w !! t = Some x -> task_step v x a w = Some (x', w1) -> kstep k (stage k x) (stage k x') w w1.
Proof.
  intros [Hc _] Ht H. destruct x as [b pc|p pc|b pc|pc| | | |]; cbn [task_step] in H; [| | | |done..].
  - by eapply pub_kstep.
  - by eapply con_kstep.
  - by eapply adm_kstep.
  - eapply cls_kstep; [done|]. by eapply Hc.
Qed.

(** A task's step leaves the other tasks, and only [close] ends with another life of
    the pool. *)
Lemma co_step_frame v b co w r w' : co_step v b co w = Some (r, w') -> tasks w' = tasks w /\ lifecycle w' = lifecycle w.
Proof. unfold co_step, commit. destruct co; intros H; repeat case_match; by simplify_eq. Qed.

Lemma task_step_tasks v x a w x' w' : task_step v x a w = Some (x', w') -> tasks w' = tasks w.
Proof.
  destruct x as [b pc|p pc|b pc|pc| | | |]; cbn [task_step]; [| | | |done..]; intros H.
  - destruct pc; cbn in H; unfold commit in H; try (repeat case_match; by simplify_eq).
    by apply bind_Some in H as ([r w1] & [? _]%co_step_frame & [= <- <-]).
  - destruct pc as [| | | | |? ? []|? ? []| | |]; cbn in H; unfold commit, keep_or_evict in H; try (repeat case_match; by simplify_eq).
    + by apply bind_Some in H as ([r w1] & [? _]%co_step_frame & [= <- <-]).
    + by apply bind_Some in H as ([r w1] & [? _]%co_step_frame & [= <- <-]).
    + by apply bind_Some in H as (r & ? & [= <- <-]).
  - destruct pc; cbn in H.
    + by apply bind_Some in H as ([r w1] & [? _]%co_step_frame & [= <- <-]).
    + by apply bind_Some in H as (r & ? & [= <- <-]).
  - destruct pc as [| |[]| |[]| |[]|]; cbn in H; repeat case_match; by simplify_eq.
Qed.

Lemma task_step_life v x a w x' w' :
  task_step v x a w = Some (x', w') ->
  lifecycle w' = lifecycle w /\ (forall pc, x' = TClose pc -> exists pc0, x = TClose pc0 /\ pc0 <> ClBegin) \/
  (exists pc, x = TClose pc).
Proof.
  destruct x as [b pc|p pc|b pc|pc| | | |]; cbn [task_step]; [| | |eauto|done..]; intros H; left.
  - destruct pc; cbn in H; unfold commit in H; try (repeat case_match; by simplify_eq).
    apply bind_Some in H as ([r w1] & [? E]%co_step_frame & [= <- <-]). rewrite E. by destruct r as [|[]].
  - destruct pc as [| | | | |? ? []|? ? []| | |]; cbn in H; unfold commit, keep_or_evict in H; try (repeat case_match; by simplify_eq).
    + simplify_eq. split; [done|]. unfold con_next. by case_match.
    + apply bind_Some in H as ([r w1] & [? E]%co_step_frame & [= <- <-]). rewrite E. by destruct r as [|[]].
    + apply bind_Some in H as ([r w1] & [? E]%co_step_frame & [= <- <-]). rewrite E. by destruct r as [|[]].
    + apply bind_Some in H as (r & ? & [= <- <-]). split; [done|]. unfold con_next. by repeat case_match.
  - destruct pc; cbn in H.
    + apply bind_Some in H as ([r w1] & [? E]%co_step_frame & [= <- <-]). rewrite E. by destruct r as [|[]].
    + apply bind_Some in H as (r & ? & [= <- <-]). split; [done|]. by repeat case_match.
Qed.

(** The part of a cache only depends on these fields. *)
Lemma kinv_same k w w' : kinv k w -> tasks w' = tasks w -> same_part k w w' -> kinv k w'.
Proof. intros Hi Ht (H1 & H2 & H3). split; intros *; rewrite ?Ht, ?H1, ?H2, ?H3; apply Hi. Qed.

Lemma kinv_moves v w w' k : close_inv w -> kinv k w -> moves v w w' -> kinv k w'.
Proof.
  intros Hc Hi [t x Ht Hb ->|t x x' a w1 Ht Hs ->|t x x' Ht Ha Hf _ ->|c x st H ->|id H ->].
  - split; try by destruct k; apply Hi.
    + intros t1 t2 x1 x2 key [[-> ->]|[Hn1 H1]]%moved_tasks [[-> ->]|[Hn2 H2]]%moved_tasks Hk1 Hk2; [done| | |by eapply (k_mutex _ _ Hi)];
        [rewrite holds_stage, begins_stage in Hk1 by done|rewrite holds_stage, begins_stage in Hk2 by done]; done.
    + intros u y key [[-> ->]|[Hn H]]%moved_tasks Hy Ho; [by rewrite begins_stage in Hy|].
      assert (Hx := k_absent _ _ Hi _ _ _ H Hy Ho). by destruct k.
  - pose proof (task_kstep _ _ _ _ _ _ k _ Hc Ht Hs) as Hk. pose proof (task_step_tasks _ _ _ _ _ _ Hs) as Hw.
    eapply (kinv_step k w _ t x x'); [done..|cbn; by rewrite Hw|].
    destruct Hk as [? ? ? ? ?|key ? ? Hf ? ? ?|key ? ? ? ? ? ? ?|key id ? ? ? ? ? ?];
      [apply ks_quiet|eapply ks_acquire|eapply ks_check|eapply ks_commit]; try done; by destruct k.
  - destruct (drop_task_spec t x x' w) as (H1 & H2 & _ & _ & _ & _ & H7 & _).
    eapply (kinv_step k w _ t x x'); [done..|]. apply ks_still; [|by right; apply finished_stage].
    split; [unfold is_closed; by rewrite H1|]. split; [done|]. apply commits_dropped.
  - eapply kinv_same; [done..|]. by destruct k.
  - eapply kinv_same; [done..|]. by destruct k.
Qed.

Lemma cache_empty k w w' : cache k w = ∅ -> cache k w' ⊆ cache k w -> cache k w' = ∅.
Proof. intros ->. intros H. apply map_empty. intros i. eapply lookup_weaken_None; [|done]. apply lookup_empty. Qed.

Lemma taken_begun pc k : taken pc k = true -> pc <> ClBegin.
Proof. by intros H ->. Qed.

(** The closing task's own step. *)
Lemma cls_step_inv pc a w x' w' :
  cls_step pc a w = Some (x', w') -> (pc <> ClBegin -> is_closed w = true) -> (forall k, taken pc k = true -> cache k w = ∅) ->
  (forall pc', x' = TClose pc' -> is_closed w' = true /\ forall k, taken pc' k = true -> cache k w' = ∅) /\
  (lifecycle w' = Closed -> lifecycle w = Closed \/ forall k, cache k w' = ∅).
Proof.
  intros H Hc Ht. split.
  - intros pc' ->. destruct pc as [| |[]| |[]| |[]|]; cbn in H; repeat case_match; simplify_eq; try specialize (Hc ltac:(done));
      (split; [done|intros [] Hk; first [done|exact (Ht KConsumer eq_refl)|exact (Ht KCoordinator eq_refl)|exact (Ht KPublisher eq_refl)]]).
  - intros Hl. destruct pc as [| |[]| |[]| |[]|]; cbn in H; repeat case_match; simplify_eq; try (by left); try congruence; right; intros k; specialize (Ht k); by destruct k; apply Ht.
Qed.

Lemma close_inv_moves v w w' : close_inv w -> moves v w w' -> close_inv w'.
Proof.
  intros Hi [t x Ht Hb ->|t x x' a w1 Ht Hs ->|t x x' Ht Ha Hf _ ->|c x st H ->|id H ->].
  - destruct Hi as [H1 H2]. split; [|by intros Hl k; rewrite <- (H2 Hl k); destruct k].
    intros u pc [[-> <-]|[Hn H]]%moved_tasks; [by destruct pc|].
    destruct (H1 _ _ H) as [H3 H4]. split; [done|]. intros k Hk. rewrite <- (H4 k Hk). by destruct k.
  - assert (Hk := fun k => task_kstep _ _ _ _ _ _ k _ Hi Ht Hs). pose proof (task_step_tasks _ _ _ _ _ _ Hs) as Hw.
    assert (Hkeep : is_closed w = true -> forall k, cache k w = ∅ -> cache k w1 = ∅).
    { intros Ho k He. destruct (kstep_closed _ _ _ _ _ (Hk k) Ho) as [_ Hsub]. by eapply cache_empty. }
    assert (Hgo : forall k y, cache k (goto t y w1) = cache k w1) by by intros [].
    destruct Hi as [H1 H2]. split.
    + intros u pc. cbn. rewrite Hw. intros [[-> <-]|[Hn H]]%moved_tasks.
      * destruct (task_step_life _ _ _ _ _ _ Hs) as [[Hl Hp]|[pc0 ->]].
        -- destruct (Hp pc eq_refl) as (pc0 & -> & Hpc). destruct (H1 _ _ Ht) as [H3 H4].
           destruct (cls_step_inv _ _ _ _ _ Hs H3 H4) as [H5 _]. destruct (H5 pc eq_refl) as [H6 H7]. split; [done|].
           intros k Hk'. rewrite Hgo. by apply H7.
        -- destruct (H1 _ _ Ht) as [H3 H4]. destruct (cls_step_inv _ _ _ _ _ Hs H3 H4) as [H5 _].
           destruct (H5 pc eq_refl) as [H6 H7]. split; [done|]. intros k Hk'. rewrite Hgo. by apply H7.
      * destruct (H1 _ _ H) as [H3 H4]. split; [intros Hp; apply (kstep_closed _ _ _ _ _ (Hk KConsumer) (H3 Hp))|].
        intros k Htk. rewrite Hgo. apply Hkeep; [apply H3; by eapply taken_begun|by apply H4].
    + intros Hl k. rewrite Hgo. change (lifecycle w1 = Closed) in Hl.
      assert (lifecycle w = Closed \/ forall k, cache k w1 = ∅) as [Hl'|?]; [|apply Hkeep; [unfold is_closed; by rewrite Hl'|by apply H2]|done].
      destruct (task_step_life _ _ _ _ _ _ Hs) as [[<- _]|[pc0 ->]]; [by left|].
      destruct (H1 _ _ Ht) as [H3 H4]. by apply (cls_step_inv _ _ _ _ _ Hs H3 H4).
  - destruct (drop_task_spec t x x' w) as (E1 & E2 & _ & _ & _ & _ & E7 & _). destruct Hi as [H1 H2]. split.
    + intros u pc. rewrite E7. intros [[-> <-]|[Hn H]]%moved_tasks; [done|]. destruct (H1 _ _ H) as [H3 H4].
      split; [unfold is_closed; by rewrite E1|]. intros k Hk. rewrite E2. by apply H4.
    + intros Hl k. rewrite E1 in Hl. rewrite E2. by apply H2.
  - destruct Hi as [H1 H2]. split; [|by intros Hl k; rewrite <- (H2 Hl k); destruct k].
    intros u pc H0. destruct (H1 _ _ H0) as [H3 H4]. split; [done|]. intros k Hk. rewrite <- (H4 k Hk). by destruct k.
  - destruct Hi as [H1 H2]. split; [|by intros Hl k; rewrite <- (H2 Hl k); destruct k].
    intros u pc H0. destruct (H1 _ _ H0) as [H3 H4]. split; [done|]. intros k Hk. rewrite <- (H4 k Hk). by destruct k.
Qed.

Lemma close_inv_init : close_inv init.
Proof. by split. Qed.

Lemma reach_pool v w : reach v w -> close_inv w /\ forall k, kinv k w.
Proof.
  induction 1 as [|e w w' _ [IH1 IH2] Hs%step_moves]; [split; [apply close_inv_init|apply kinv_init]|].
  split; [by eapply close_inv_moves|]. intros k. by eapply kinv_moves.
Qed.

End ClientPoolInv.
