(* ===== verification/ClientPoolSystem.v ===== *)
(** * Theorems about the client pool

    The coordinators the pool spawns, over every interleaving of its calls, and the
    theorems about the pool as a whole: one coordinator and one publisher per broker,
    nothing left open by [close], no deadlock on the initializers, consumers composed
    of one source per broker, and what [clear_route] purges. *)

From S2P Require Import Prelude Transport Publication Recovery DelayTopology DelayRouting TopologyPlan ClientBatch Config RecoveryCoordinator ClientPool ClientPoolInv.
Import Transport Publication Recovery DelayTopology DelayRouting TopologyPlan ClientBatch Config ClientPool ClientPoolInv.
Local Open Scope Z_scope.
Local Open Scope rabbit_scope.

Module ClientPoolSystem.

(** ** A step as the coordinators see it *)

Definition broker_of (w : World) (c : nat) : option string := ci_broker <$> coords w !! c.

Definition co_gen (co : Co) : option Z :=
  match co with CoWait g | CoHeld g | CoSpawn g | CoCommit g _ => Some g | _ => None end.

Definition co_id (co : Co) : option nat := match co with CoCommit _ c | CoClosing c => Some c | _ => None end.

(** The coordinators a task has to put in the cache or to close. *)
Definition hands (x : Task) : list nat :=
  match x with
  | TClose (ClCoordinators todo _) => todo
  | _ => match co_of x with Some (_, co) => option_list (co_id co) | None => [] end
  end.

(** The task is in no call of [coordinator], or at its beginning. *)
Definition co_quiet (x : Task) : Prop := match co_of x with Some (_, co) => co = CoBegin | None => True end.

Inductive cstep (v : ValidatedConfig) (x x' : Task) (w w' : World) : Prop :=
| cs_other :
    co_quiet x -> co_quiet x' -> hands x' = hands x -> coords w' = coords w -> coordinators w' = coordinators w -> lifecycle w' = lifecycle w ->
    log w ⊆ log w' -> cstep v x x' w w'
| cs_co b co r :
    co_of x = Some (b, co) -> co_step v b co w = Some (r, w') ->
    (match r with inl co' => co_of x' = Some (b, co') | inr _ => co_quiet x' end) ->
    hands x' = (match r with inl co' => option_list (co_id co') | inr _ => [] end) -> cstep v x x' w w'
| cs_close pc a : x = TClose pc -> cls_step pc a w = Some (x', w') -> cstep v x x' w w'.

Lemma commit_other g k key id w ok w' :
  commit g k key id w = (ok, w') -> k <> KCoordinator ->
  coords w' = coords w /\ coordinators w' = coordinators w /\ lifecycle w' = lifecycle w /\ log w ⊆ log w'.
Proof.
  unfold commit. case_decide; intros [= <- <-] Hk; [|done]. destruct k; [done| |]; cbn; repeat split; intros e; set_solver.
Qed.

Lemma con_next_quiet p g worker todo sources error : co_quiet (con_next p g worker todo sources error).
Proof. by destruct todo. Qed.

Lemma con_next_hands p g worker todo sources error : hands (con_next p g worker todo sources error) = [].
Proof. by destruct todo. Qed.

Ltac other := try by (apply cs_other; cbn; auto).

Lemma pub_cstep v b pc a w x' w' : pub_step v b pc a w = Some (x', w') -> cstep v (TPublisher b pc) x' w w'.
Proof.
  intros H. destruct pc as [|g|g|g co| | | | |g p|p]; cbn in H.
  4: { apply bind_Some in H as ([r w1] & Hc & [= <- <-]). eapply cs_co; [done..| |]; by destruct r as [|[]]. }
  8: { destruct (commit g KPublisher b p w) as [ok w1] eqn:Hc. apply commit_other in Hc as (?&?&?&?); [|done].
       destruct ok; simplify_eq; by apply cs_other. }
  all: repeat case_match; simplify_eq; by apply cs_other.
Qed.

Lemma adm_cstep v b pc a w x' w' : adm_step v b pc a w = Some (x', w') -> cstep v (TAdmin b pc) x' w w'.
Proof.
  intros H. destruct pc as [co|c wait error]; cbn in H.
  - apply bind_Some in H as ([r w1] & Hc & [= <- <-]). eapply cs_co; [done..| |]; by destruct r as [|[]].
  - apply bind_Some in H as (r & Hc & [= <- <-]). repeat case_match; by apply cs_other.
Qed.

Lemma start_quiet p g x todo : co_quiet (TConsumer p (KsStart g x todo CoBegin)) /\ hands (TConsumer p (KsStart g x todo CoBegin)) = [].
Proof. by destruct todo. Qed.

Lemma con_cstep v p pc a w x' w' : con_step v p pc a w = Some (x', w') -> cstep v (TConsumer p pc) x' w w'.
Proof.
  intros H. destruct pc as [|g x id|g x|g x|g x id|g x todo co|g x todo sources co error|g x todo sources c wait error|g x sources|id]; cbn in H.
  - repeat case_match; simplify_eq; by apply cs_other.
  - unfold keep_or_evict in H. repeat case_match; simplify_eq; by apply cs_other.
  - repeat case_match; simplify_eq; by apply cs_other.
  - destruct (start_quiet p g x (worker_brokers x)). repeat case_match; simplify_eq; by apply cs_other.
  - destruct (start_quiet p g x (worker_brokers x)). unfold keep_or_evict in H. repeat case_match; simplify_eq; by apply cs_other.
  - destruct todo as [|b todo].
    + simplify_eq. apply cs_other; [done|apply con_next_quiet|by rewrite con_next_hands|done..].
    + destruct (start_quiet p g x todo). apply bind_Some in H as ([r w1] & Hc & [= <- <-]). eapply cs_co; [done..| |]; by destruct r as [|[]].
  - destruct todo as [|b todo]; [simplify_eq; by apply cs_other|].
    apply bind_Some in H as ([r w1] & Hc & [= <- <-]). eapply cs_co; [done..| |]; by destruct r as [|[]].
  - apply bind_Some in H as (r & Hc & [= <- <-]).
    destruct r as [[]|[[]|]]; try by apply cs_other. apply cs_other; [done|apply con_next_quiet|by rewrite con_next_hands|done..].
  - destruct (commit _ _ _ _ _) as [ok w1] eqn:Hc. apply commit_other in Hc as (?&?&?&?); [|done].
    destruct ok; simplify_eq; by apply cs_other.
  - simplify_eq. by apply cs_other.
Qed.

Lemma task_cstep v x a w x' w' : task_step v x a w = Some (x', w') -> cstep v x x' w w'.
Proof.
  destruct x as [b pc|p pc|b pc|pc| | | |]; cbn [task_step]; [| | | |done..].
  - apply pub_cstep.
  - apply con_cstep.
  - apply adm_cstep.
  - intros H. by eapply cs_close.
Qed.

(** ** The coordinators *)

Record cinv (w : World) : Prop := {
  c_gen g : lifecycle w = Open g -> g = 1;
  c_carry t x b co g : tasks w !! t = Some x -> co_of x = Some (b, co) -> co_gen co = Some g -> g = 1;
  (** A coordinator is known under its own broker. *)
  c_hand t x b co c : tasks w !! t = Some x -> co_of x = Some (b, co) -> co_id co = Some c -> broker_of w c = Some b;
  c_cache b c : coordinators w !! b = Some c -> broker_of w c = Some b;
  (** A task spawns the first coordinator of its broker. *)
  c_spawn t x b g c : tasks w !! t = Some x -> co_of x = Some (b, CoSpawn g) -> broker_of w c <> Some b;
  c_known c b : broker_of w c = Some b -> is_closed w = false ->
    coordinators w !! b = Some c \/ exists t x g, tasks w !! t = Some x /\ co_of x = Some (b, CoCommit g c);
  c_once c c' b : broker_of w c = Some b -> broker_of w c' = Some b -> c = c';
  (** None is forgotten. *)
  c_leak c x : coords w !! c = Some x ->
    ci_closed x = true \/ (exists b, coordinators w !! b = Some c) \/ (exists t y, tasks w !! t = Some y /\ c ∈ hands y) \/
    Abandoned KCoordinator c ∈ log w
}.

Lemma cinv_init : cinv init.
Proof. split; intros *; unfold broker_of; cbn; rewrite ?lookup_empty; try done. by intros [= <-]. Qed.

(** Some place of the world accounts for a coordinator. *)
Definition kept (w : World) (c : nat) : Prop :=
  (forall x, coords w !! c = Some x -> ci_closed x = true) \/ (exists b, coordinators w !! b = Some c) \/
  (exists t y, tasks w !! t = Some y /\ c ∈ hands y) \/ Abandoned KCoordinator c ∈ log w.

(** What a task may carry, and what it must have seen to when it moves on. *)
Definition carries_well (w : World) (y : Task) : Prop :=
  forall b co, co_of y = Some (b, co) ->
    (forall g, co_gen co = Some g -> g = 1) /\ (forall c, co_id co = Some c -> broker_of w c = Some b) /\
    (forall g c, co = CoSpawn g -> broker_of w c <> Some b).

Definition released (w : World) (y : Task) : Prop :=
  (forall b g c, co_of y = Some (b, CoCommit g c) -> is_closed w = true \/ coordinators w !! b = Some c) /\
  forall c, c ∈ hands y -> kept w c.

Lemma quiet_carries w y : co_quiet y -> carries_well w y.
Proof. unfold co_quiet. intros H b co E. rewrite E in H. by subst. Qed.

Lemma cinv_stay w w' :
  cinv w ->
  (forall c, broker_of w' c = broker_of w c) ->
  (forall c x, coords w' !! c = Some x -> exists x0, coords w !! c = Some x0 /\ (ci_closed x0 = true -> ci_closed x = true)) ->
  (forall g, lifecycle w' = Open g -> g = 1) -> (is_closed w = true -> is_closed w' = true) -> log w ⊆ log w' ->
  (forall b c, coordinators w' !! b = Some c -> coordinators w !! b = Some c \/ broker_of w c = Some b) ->
  (forall b c, coordinators w !! b = Some c -> coordinators w' !! b = Some c \/ is_closed w' = true /\ kept w' c) ->
  (forall u y, tasks w' !! u = Some y -> tasks w !! u = Some y \/ carries_well w y) ->
  (forall u y, tasks w !! u = Some y -> tasks w' !! u = Some y \/ released w' y) ->
  cinv w'.
Proof.
  intros Hi Hb Hcl Hg Hl Hlog Hca Hca' Hnew Hold. split.
  - done.
  - intros u y b co g Hu Hy. destruct (Hnew _ _ Hu) as [?|Hw]; [by eapply (c_carry _ Hi)|by apply (Hw _ _ Hy)].
  - intros u y b co c Hu Hy. rewrite Hb. destruct (Hnew _ _ Hu) as [?|Hw]; [by eapply (c_hand _ Hi)|by apply (Hw _ _ Hy)].
  - intros b c Hc. rewrite Hb. destruct (Hca _ _ Hc); [by apply (c_cache _ Hi)|done].
  - intros u y b g c Hu Hy. rewrite Hb. destruct (Hnew _ _ Hu) as [?|Hw]; [by eapply (c_spawn _ Hi)|by eapply (Hw _ _ Hy)].
  - intros c b. rewrite Hb. intros Hc Ho. destruct (c_known _ Hi c b Hc) as [H|(u & y & g & Hu & Hy)].
    + destruct (is_closed w); [by rewrite Hl in Ho|done].
    + destruct (Hca' _ _ H) as [?|[? _]]; [by left|congruence].
    + destruct (Hold _ _ Hu) as [?|[Hr _]]; [right; by exists u, y, g|]. destruct (Hr _ _ _ Hy); [congruence|by left].
  - intros c c' b. rewrite !Hb. apply Hi.
  - intros c x Hc. destruct (Hcl _ _ Hc) as (x0 & Hc0 & Hx). destruct (c_leak _ Hi _ _ Hc0) as [?|[[b H]|[(u & y & Hu & Hy)|H]]]; [auto| | |auto].
    + destruct (Hca' _ _ H) as [?|[_ [Hk|Hk]]]; [eauto|left; by apply Hk|auto].
    + destruct (Hold _ _ Hu) as [?|[_ Hr]]; [right; right; left; by exists u, y|]. destruct (Hr _ Hy) as [Hk|Hk]; [left; by apply Hk|auto].
Qed.

(** A task that moves: the tasks beside it stay. *)
Lemma moved_new w t x' (m : gmap nat Task) : carries_well w x' -> forall u y, <[t := x']> m !! u = Some y -> m !! u = Some y \/ carries_well w y.
Proof. intros Hw u y [[-> ->]|[_ ?]]%moved_tasks; auto. Qed.

Lemma moved_old w t x x' (m : gmap nat Task) :
  m !! t = Some x -> released w x -> forall u y, m !! u = Some y -> <[t := x']> m !! u = Some y \/ released w y.
Proof. intros Ht Hr u y Hu. destruct (decide (u = t)) as [->|Hn]; [right; congruence|left; by rewrite lookup_insert_ne]. Qed.

(** A move that leaves the coordinators and the cache alone. *)
Lemma cinv_still w w' t x x' :
  cinv w -> tasks w !! t = Some x -> tasks w' = <[t := x']> (tasks w) ->
  coords w' = coords w -> coordinators w' = coordinators w -> lifecycle w' = lifecycle w -> log w ⊆ log w' ->
  carries_well w x' -> (forall b g c, co_of x = Some (b, CoCommit g c) -> is_closed w = true) ->
  (forall c, c ∈ hands x -> c ∈ hands x' \/ Abandoned KCoordinator c ∈ log w') -> cinv w'.
Proof.
  intros Hi Ht Hw Hcs Hca Hl Hlog Hcw Hcm Hh.
  apply (cinv_stay w); rewrite ?Hcs, ?Hca, ?Hl, ?Hw; auto.
  - intros c. unfold broker_of. by rewrite Hcs.
  - eauto.
  - apply Hi.
  - unfold is_closed. by rewrite Hl.
  - by apply moved_new.
  - eapply moved_old; [done|]. split; [intros b g c Hc; left; unfold is_closed; rewrite Hl; by eapply Hcm|].
    intros c Hc. destruct (Hh c Hc) as [?|?]; unfold kept; [|auto]. right; right; left. exists t, x'. rewrite Hw. by rewrite lookup_insert_eq.
Qed.

(** The task that checked the cache under the lock spawns the broker's first. *)
Lemma checked_first w t x b g c :
  cinv w -> kinv KCoordinator w -> tasks w !! t = Some x -> co_of x = Some (b, CoHeld g) -> is_closed w = false ->
  coordinators w !! b = None -> broker_of w c <> Some b.
Proof.
  intros Hi Hk Ht Hx Ho Hn Hb. destruct (c_known _ Hi _ _ Hb Ho) as [?|(u & y & g' & Hu & Hy)]; [congruence|].
  assert (u = t) as -> by (eapply (k_mutex _ _ Hk); [done..| |]; by rewrite holds_stage; cbn; rewrite ?Hx, ?Hy).
  congruence.
Qed.

(** The spawn. *)
Lemma broker_of_new w b c l :
  broker_of (set_coords (coords w ++ [mkCoord b Disconnected false]) l) c = (if decide (c = length (coords w)) then Some b else broker_of w c).
Proof.
  unfold broker_of. cbn. case_decide as E; [subst; by rewrite list_lookup_middle|].
  destruct (decide (c < length (coords w))%nat); [by rewrite lookup_app_l|].
  rewrite !lookup_ge_None_2; [done|lia|rewrite length_app; cbn; lia].
Qed.

Lemma broker_of_lt w c b : broker_of w c = Some b -> (c < length (coords w))%nat.
Proof. unfold broker_of. intros (x & H & _)%fmap_Some. by eapply lookup_lt_Some. Qed.

Lemma cinv_spawn w t x x' b g :
  cinv w -> kinv KCoordinator w -> tasks w !! t = Some x -> co_of x = Some (b, CoSpawn g) ->
  co_of x' = Some (b, CoCommit g (length (coords w))) -> hands x' = [length (coords w)] -> hands x = [] ->
  cinv (goto t x' (note (Spawned b (length (coords w))) (set_coords (coords w ++ [mkCoord b Disconnected false]) w))).
Proof.
  intros Hi Hk Ht Hx Hx' Hh' Hh. set (n := length (coords w)) in *.
  set (w' := goto t x' (note (Spawned b n) (set_coords (coords w ++ [mkCoord b Disconnected false]) w))).
  assert (Hb : forall c, broker_of w' c = if decide (c = n) then Some b else broker_of w c) by (intros c; apply (broker_of_new w b c w)).
  assert (Hn : forall c, broker_of w c <> Some b) by (intros c; by eapply (c_spawn _ Hi)).
  assert (Hlt : forall c b', broker_of w c = Some b' -> broker_of w' c = Some b').
  { intros c b' Hc. rewrite Hb, decide_False; [done|]. apply broker_of_lt in Hc. unfold n. lia. }
  split.
  - apply Hi.
  - intros u y b' co g' [[-> ->]|[Hne Hu]]%moved_tasks Hy Hg; [|by eapply (c_carry _ Hi)].
    rewrite Hx' in Hy. injection Hy as <- <-. injection Hg as <-. by eapply (c_carry _ Hi _ _ _ (CoSpawn g)).
  - intros u y b' co c [[-> ->]|[Hne Hu]]%moved_tasks Hy Hc; [|by eapply Hlt, (c_hand _ Hi)].
    rewrite Hx' in Hy. injection Hy as <- <-. injection Hc as <-. by rewrite Hb, decide_True.
  - intros b' c Hc. by apply Hlt, (c_cache _ Hi).
  - intros u y b' g' c [[-> ->]|[Hne Hu]]%moved_tasks Hy; [congruence|]. rewrite Hb. case_decide; [|by eapply (c_spawn _ Hi)].
    intros [= ->]. apply Hne. eapply (k_mutex _ _ Hk); [done..| |]; by rewrite holds_stage; cbn; rewrite ?Hx, ?Hy.
  - intros c b'. rewrite Hb. case_decide as E.
    + intros [= <-] _. subst c. right. exists t, x', g. split; [apply lookup_insert_eq|done].
    + intros Hc Ho. destruct (c_known _ Hi _ _ Hc Ho) as [?|(u & y & g' & Hu & Hy)]; [by left|]. right. exists u, y, g'.
      split; [|done]. cbn. rewrite lookup_insert_ne; [done|]. intros ->. congruence.
  - intros c c' b'. rewrite !Hb. repeat case_decide; intros H1 H2; simplify_eq; try done; [by destruct (Hn c')|by destruct (Hn c)|].
    by eapply (c_once _ Hi).
  - intros c y. cbn. intros [Hc|[Hc1 Hc2]]%lookup_app_Some.
    + destruct (c_leak _ Hi _ _ Hc) as [?|[?|[(u & z & Hu & Hz)|?]]]; [auto|auto| |right; right; right; set_solver].
      right; right; left. exists u, z. split; [|done]. rewrite lookup_insert_ne; [done|]. intros <-. simplify_eq. rewrite Hh in Hz. set_solver.
    + assert (c = n) as ->. { apply lookup_lt_Some in Hc2. cbn in Hc2. unfold n. lia. }
      right; right; left. exists t, x'. split; [apply lookup_insert_eq|]. rewrite Hh'. set_solver.
Qed.

Lemma close_coordinator_broker c0 w c : broker_of (close_coordinator c0 w) c = broker_of w c.
Proof. unfold broker_of. cbn. rewrite list_lookup_alter. case_decide; [subst|done]. by destruct (coords w !! c). Qed.

Lemma close_coordinator_closed c0 w c x :
  coords (close_coordinator c0 w) !! c = Some x ->
  exists x0, coords w !! c = Some x0 /\ (c = c0 -> ci_closed x = true) /\ (ci_closed x0 = true -> ci_closed x = true).
Proof.
  cbn. rewrite list_lookup_alter. case_decide; [|naive_solver]. subst. destruct (coords w !! c) as [x0|]; intros [= <-]. eauto.
Qed.

Lemma hands_co x b co : co_of x = Some (b, co) -> hands x = option_list (co_id co).
Proof. destruct x as [? []|? []|? []|[]| | | |]; cbn; repeat case_match; by intros [= -> ->]. Qed.

Lemma cinv_co v w w1 t x x' b co r :
  cinv w -> kinv KCoordinator w -> tasks w !! t = Some x -> co_of x = Some (b, co) -> co_step v b co w = Some (r, w1) ->
  (match r with inl co' => co_of x' = Some (b, co') | inr _ => co_quiet x' end) ->
  hands x' = (match r with inl co' => option_list (co_id co') | inr _ => [] end) -> cinv (goto t x' w1).
Proof.
  intros Hi Hk Ht Hx Hs Hx' Hh'. pose proof (hands_co _ _ _ Hx) as Hh. destruct (co_step_frame _ _ _ _ _ _ Hs) as [Htk Hlf].
  destruct co as [|g|g|g|g id|id]; cbn in Hs.
  - assert (w1 = w) as -> by (repeat case_match; by simplify_eq).
    eapply (cinv_still _ _ t x x'); [done..| | |rewrite Hh; intros c; set_solver]; [|congruence].
    destruct r as [co'|]; [|by apply quiet_carries]. unfold open_generation in Hs. repeat case_match; simplify_eq.
    intros b' co'' E. rewrite Hx' in E. injection E as <- <-. split; [|done]. intros g [= <-]. by eapply (c_gen _ Hi).
  - case_decide; simplify_eq. eapply (cinv_still _ _ t x x'); [done..| | |rewrite Hh; intros c; set_solver]; [|congruence].
    intros b' co'' E. rewrite Hx' in E. injection E as <- <-. split; [|done]. intros g' [= <-]. by eapply (c_carry _ Hi _ _ _ (CoWait g)).
  - assert (w1 = w) as -> by (repeat case_match; by simplify_eq).
    eapply (cinv_still _ _ t x x'); [done..| | |rewrite Hh; intros c; set_solver]; [|congruence].
    destruct r as [co'|]; [|by apply quiet_carries]. destruct (ready g KCoordinator b w) as [[]|] eqn:Hr; simplify_eq.
    apply ready_ok in Hr as [Hr Ho]. intros b' co'' E. rewrite Hx' in E. injection E as <- <-. split; [|split; [done|]].
    + intros g' [= <-]. by eapply (c_carry _ Hi _ _ _ (CoHeld g)).
    + intros g' c [= <-]. by eapply checked_first.
  - simplify_eq. by eapply cinv_spawn.
  - destruct (commit g KCoordinator b id w) as [ok w2] eqn:Hc. unfold commit in Hc. case_decide as Ho; simplify_eq.
    + apply (cinv_stay w); [done|done|cbn; eauto|apply Hi|done|cbn; set_solver|..]; cbn.
      * intros b' c [[<- <-]|[_ ?]]%lookup_insert_Some; [right|by left]. by eapply (c_hand _ Hi _ _ _ (CoCommit g id)).
      * intros b' c Hc. left. rewrite lookup_insert_ne; [done|]. intros <-.
        assert (coordinators w !! b = None); [|congruence]. eapply (k_absent _ _ Hk); [done|by cbn; rewrite Hx|]. unfold is_closed. by rewrite Ho.
      * apply moved_new. by apply quiet_carries.
      * eapply moved_old; [done|]. split.
        -- intros b' g' c E. rewrite Hx in E. injection E as <- <- <-. right. apply lookup_insert_eq.
        -- intros c. rewrite Hh. cbn. intros ->%list_elem_of_singleton. right. left. exists b. apply lookup_insert_eq.
    + eapply (cinv_still _ _ t x x'); [done..| | |].
      * intros b' co'' E. rewrite Hx' in E. injection E as <- <-. split; [done|]. split; [|done]. intros c [= <-].
        by eapply (c_hand _ Hi _ _ _ (CoCommit g id)).
      * intros b' g' c _. unfold is_closed. destruct (lifecycle w1) as [g0| |] eqn:E; [|done..]. destruct Ho. f_equal.
        rewrite (c_gen _ Hi g0) by done. symmetry. by eapply (c_carry _ Hi _ _ _ (CoCommit g id)).
      * rewrite Hh, Hh'. by left.
  - simplify_eq. apply (cinv_stay w); [done|apply close_coordinator_broker| |apply Hi|done|done|cbn; auto..].
    + intros c y (x0 & H1 & _ & H2)%close_coordinator_closed. eauto.
    + apply moved_new. by apply quiet_carries.
    + eapply moved_old; [done|]. split; [congruence|]. intros c. rewrite Hh. cbn. intros ->%list_elem_of_singleton. left.
      intros y (x0 & H1 & H2 & _)%close_coordinator_closed. by apply H2.
Qed.

Lemma values_cached m b c : m !! b = Some c -> c ∈ values m.
Proof. intros H. apply list_elem_of_fmap. exists (b, c). by rewrite elem_of_map_to_list. Qed.

(** The steps of [close]. *)
Lemma cinv_cls w w1 t pc a x' :
  cinv w -> (pc <> ClBegin -> is_closed w = true) -> tasks w !! t = Some (TClose pc) -> cls_step pc a w = Some (x', w1) -> cinv (goto t x' w1).
Proof.
  intros Hi Hc Ht Hs.
  assert (Hq : forall y, (y = TClose pc \/ y = x') -> co_of y = None) by
    (intros y [-> | ->]; [done|]; destruct pc as [| |[]| |[]| |[]|]; cbn in Hs; repeat case_match; by simplify_eq).
  assert (Hx : carries_well w x') by (intros b co; by rewrite (Hq x' (or_intror eq_refl))).
  assert (Hrel : forall w', (forall c, c ∈ hands (TClose pc) -> kept w' c) -> released w' (TClose pc)) by by split.
  destruct pc as [| |l e|e|l e|e|l e|e]; cbn in Hs.
  - destruct (lifecycle w) eqn:El; simplify_eq;
      (eapply cinv_stay; [exact Hi|..]; cbn; [done|eauto|cbn; congruence|done|done|auto|auto|by apply moved_new|eapply moved_old; [done|apply Hrel; by intros c ?%elem_of_nil]]).
  - simplify_eq. eapply (cinv_still _ _ t); [done..| | ]; cbn; [done|set_solver].
  - destruct l; [|destruct a]; simplify_eq; (eapply (cinv_still _ _ t); [done..| |]; cbn; [done|set_solver]).
  - simplify_eq. apply (cinv_stay w); cbn; [done|done|eauto|apply Hi|done|done|set_solver| |by apply moved_new|eapply moved_old; [done|apply Hrel; by intros c ?%elem_of_nil]].
    intros b c Hb. right. split; [by apply Hc|]. right; right; left. exists t. eexists. split; [apply lookup_insert_eq|]. by eapply values_cached.
  - destruct l as [|c l]; [|destruct a]; simplify_eq; [eapply (cinv_still _ _ t); [done..| |]; cbn; [done|set_solver]|].
    apply (cinv_stay w); [done|apply close_coordinator_broker| |apply Hi|done|done|cbn; auto..].
    + intros c' y (x0 & H1 & _ & H2)%close_coordinator_closed. eauto.
    + by apply moved_new.
    + eapply moved_old; [done|]. apply Hrel. cbn. intros c' [->|Hl]%elem_of_cons.
      * left. intros y (x0 & H1 & H2 & _)%close_coordinator_closed. by apply H2.
      * right; right; left. exists t. eexists. split; [apply lookup_insert_eq|done].
  - simplify_eq. eapply (cinv_still _ _ t); [done..| | ]; cbn; [done|set_solver].
  - destruct l; [|destruct a]; simplify_eq; (eapply (cinv_still _ _ t); [done..| |]; cbn; [done|set_solver]).
  - simplify_eq. apply (cinv_stay w); cbn; [done|done|eauto|done|done|done|auto|auto|by apply moved_new|eapply moved_old; [done|apply Hrel; by intros c ?%elem_of_nil]].
Qed.

Lemma hands_closing x c : at_await x = true -> c ∈ hands x -> (KCoordinator, c) ∈ closing x.
Proof.
  destruct x as [? []|? []|? []|[]| | | |]; cbn; intros Ha Hc; repeat (case_match; simplify_eq/=); try set_solver;
    apply list_elem_of_fmap; eauto.
Qed.

Lemma cinv_moves v w w' : close_inv w -> kinv KCoordinator w -> cinv w -> moves v w w' -> cinv w'.
Proof.
  intros Hcl Hk Hi [t x Ht Hb ->|t x x' a w1 Ht Hs ->|t x x' Ht Ha Hf _ ->|c x st H ->|id H ->].
  - apply (cinv_stay w); cbn; [done|done|eauto|apply Hi|done|done|auto|auto| |].
    + apply moved_new, quiet_carries. by destruct x as [? []|? []|? [[]|]|[]| | | |].
    + intros u y Hu. left. rewrite lookup_insert_ne; [done|congruence].
  - pose proof (task_step_tasks _ _ _ _ _ _ Hs) as Hw. destruct (task_cstep _ _ _ _ _ _ Hs) as [Hq Hq' Hh Hcs Hca Hl Hlog|b co r|pc ? ->].
    + eapply (cinv_still w _ t x x'); [done|done|cbn; by rewrite Hw|done..|by apply quiet_carries| |].
      * unfold co_quiet in Hq. intros b g c E. by rewrite E in Hq.
      * rewrite Hh. auto.
    + by eapply cinv_co.
    + eapply cinv_cls; [done| |done..]. exact (proj1 (proj1 Hcl _ _ Ht)).
  - destruct (drop_task_spec t x x' w) as (E1 & E2 & E3 & _ & _ & _ & E7 & E8).
    eapply (cinv_still w _ t x x'); [done|done|done|done|apply (E2 KCoordinator)|done|rewrite E8; set_solver| | |].
    + by intros b co; destruct x'.
    + intros b g c E. destruct x as [? []|? [| | | | |? ? []|? ? []| | |]|? []|[]| | | |]; cbn in E, Ha; by simplify_eq.
    + intros c Hc. right. rewrite E8. apply elem_of_app. right. apply list_elem_of_fmap. exists (KCoordinator, c). split; [done|].
      by apply hands_closing.
  - apply (cinv_stay w); cbn; [done| | |apply Hi|done|done|auto..].
    + intros c'. unfold broker_of. cbn. rewrite list_lookup_insert. case_decide as E; [|done]. destruct E as [<- E].
      by rewrite H.
    + intros c' y [(<- & <- & _)|[_ ?]]%list_lookup_insert_Some; eauto.
  - apply (cinv_stay w); cbn; [done|done|eauto|apply Hi|done|done|auto..].
Qed.

Lemma reach_coordinators v w : reach v w -> cinv w.
Proof.
  induction 1 as [|e w w' Hr IH Hs%step_moves]; [apply cinv_init|]. destruct (reach_pool _ _ Hr) as [H1 H2]. by eapply cinv_moves.
Qed.

End ClientPoolSystem.
