(* ===== verification/ClientPoolConsumers.v ===== *)
(** * What the client pool serves

    What a call is answered was committed; a committed publisher is cached or being
    closed; a consumer is composed of one source per broker of its worker. *)

From S2P Require Import Prelude Transport Publication Recovery ClientBatch Config RecoveryCoordinator ClientPool ClientPoolInv ClientPoolSystem.
Import Transport Publication Recovery ClientBatch Config ClientPool ClientPoolInv ClientPoolSystem.
Local Open Scope Z_scope.
Local Open Scope rabbit_scope.

Module ClientPoolConsumers.

(** ** What never shrinks *)

Record grows (w w' : World) : Prop := {
  g_broker c b : broker_of w c = Some b -> broker_of w' c = Some b;
  g_log : log w ⊆ log w';
  g_commits k : commits k w ⊆ commits k w';
  g_publishers : closed_publishers w ⊆ closed_publishers w';
  g_handles id h : handles w !! id = Some h -> exists h', handles w' !! id = Some h' /\ cs_profile h' = cs_profile h /\ cs_sources h' = cs_sources h;
  g_requested : (requested w).*1 ⊆ (requested w').*1
}.

#[global] Instance grows_refl : Reflexive grows.
Proof. intros w. split; eauto. Qed.

#[global] Instance grows_trans : Transitive grows.
Proof.
  intros w1 w2 w3 H1 H2. split.
  - intros c b H. by apply (g_broker _ _ H2), (g_broker _ _ H1).
  - exact (transitivity (g_log _ _ H1) (g_log _ _ H2)).
  - intros k. exact (transitivity (g_commits _ _ H1 k) (g_commits _ _ H2 k)).
  - exact (transitivity (g_publishers _ _ H1) (g_publishers _ _ H2)).
  - intros id h (h' & E1 & E2 & E3)%(g_handles _ _ H1). destruct (g_handles _ _ H2 _ _ E1) as (h'' & ? & ? & ?).
    exists h''. split; [done|]. split; congruence.
  - exact (transitivity (g_requested _ _ H1) (g_requested _ _ H2)).
Qed.

Lemma grows_goto t x w : grows w (goto t x w).
Proof. split; eauto. Qed.
Lemma grows_life l w : grows w (set_lifecycle l w).
Proof. split; eauto. Qed.
Lemma grows_cache k m w : grows w (set_cache k m w).
Proof. split; destruct k; eauto. Qed.
Lemma grows_note e w : grows w (note e w).
Proof.
  split; eauto; [cbn; set_solver|]. intros k x. rewrite commits_note. set_solver.
Qed.
Lemma grows_close_coordinator c w : grows w (close_coordinator c w).
Proof. split; eauto. intros c' b. by rewrite close_coordinator_broker. Qed.
Lemma grows_close_publisher p w : grows w (close_publisher p w).
Proof. split; eauto. cbn. set_solver. Qed.
Lemma grows_close_consumer id w : grows w (close_consumer id w).
Proof.
  split; eauto. intros id' h H. cbn. rewrite list_lookup_alter. case_decide; [|eauto]. subst. rewrite H. cbn. eauto.
Qed.
Lemma grows_spawn x w : grows w (set_coords (coords w ++ [x]) w).
Proof.
  split; eauto. intros c b H. unfold broker_of in *. cbn. apply fmap_Some in H as (y & H & ->). by rewrite (lookup_app_l_Some _ _ _ _ H).
Qed.
Lemma grows_handle h w : grows w (set_handles (handles w ++ [h]) w).
Proof. split; eauto. intros id h' H. cbn. rewrite (lookup_app_l_Some _ _ _ _ H). eauto. Qed.

Lemma grows_place name x l : l.*1 ⊆ (RecoveryCoordinator.place name x l).*1 /\ name ∈ (RecoveryCoordinator.place name x l).*1.
Proof. induction l as [|y l IH]; cbn; [set_solver|]. case_decide; cbn; set_solver. Qed.

Lemma grows_insert name x l : l.*1 ⊆ (RecoveryCoordinator.requested_insert name x l).*1 /\ name ∈ (RecoveryCoordinator.requested_insert name x l).*1.
Proof. unfold RecoveryCoordinator.requested_insert. case_decide; [done|]. apply grows_place. Qed.

Lemma request_grows v p l x l' : RecoveryCoordinator.request v p l = Ok (x, l') -> l.*1 ⊆ l'.*1 /\ p ∈ l'.*1.
Proof.
  unfold RecoveryCoordinator.request, RecoveryCoordinator.synthesized_worker. repeat case_match; intros H'; simplify_eq/=; try apply grows_insert.
  split; [|apply grows_insert]. etrans; apply grows_insert.
Qed.

Create HintDb grows.
#[local] Hint Resolve grows_refl grows_life grows_cache grows_close_coordinator grows_close_publisher grows_close_consumer : grows.

Lemma grows_requested v p l' x w : RecoveryCoordinator.request v p (requested w) = Ok (x, l') -> grows w (set_requested l' w).
Proof. intros [H _]%request_grows. split; eauto. Qed.

Lemma grows_commit g k key id w ok w' : commit g k key id w = (ok, w') -> grows w w'.
Proof. unfold commit. case_decide; intros [= <- <-]; [|done]. etrans; [apply grows_cache|apply grows_note]. Qed.

Lemma grows_evict worker p id w o w' : keep_or_evict worker p id w = (o, w') -> grows w w'.
Proof. unfold keep_or_evict. case_match; intros [= <- <-]; [done|apply (grows_cache KConsumer)]. Qed.

Lemma grows_co v b co w r w' : co_step v b co w = Some (r, w') -> grows w w'.
Proof.
  intros H. destruct co; cbn in H; repeat case_match; simplify_eq; auto with grows.
  - etrans; [apply grows_spawn|apply grows_note].
  - by eapply grows_commit.
  - by eapply grows_commit.
Qed.

Lemma grows_task v x a w x' w' : task_step v x a w = Some (x', w') -> grows w w'.
Proof.
  destruct x as [b pc|p pc|b pc|pc| | | |]; cbn [task_step]; [| | | |done..]; intros H.
  - destruct pc as [| | | | | | | |g p|]; cbn in H.
    4: { by apply bind_Some in H as ([r w1] & ?%grows_co & [= <- <-]). }
    8: { destruct (commit g KPublisher b p w) as [ok w1] eqn:Hc. apply grows_commit in Hc. by simplify_eq. }
    all: repeat case_match; simplify_eq; auto with grows.
  - destruct pc as [|g x id| | |g x id|? ? []|? ? []| |g x sources|]; cbn in H.
    + repeat case_match; simplify_eq; try done; by eapply grows_requested.
    + destruct (keep_or_evict _ _ _ _) as [o w1] eqn:He. apply grows_evict in He. by simplify_eq.
    + repeat case_match; by simplify_eq.
    + repeat case_match; by simplify_eq.
    + destruct (keep_or_evict _ _ _ _) as [o w1] eqn:He. apply grows_evict in He. by simplify_eq.
    + by simplify_eq.
    + by apply bind_Some in H as ([r w1] & ?%grows_co & [= <- <-]).
    + by simplify_eq.
    + by apply bind_Some in H as ([r w1] & ?%grows_co & [= <- <-]).
    + by apply bind_Some in H as (r & ? & [= <- <-]).
    + destruct (commit _ _ _ _ _) as [ok w1] eqn:Hc. apply grows_commit in Hc. simplify_eq. etrans; [apply grows_handle|done].
    + simplify_eq. auto with grows.
  - destruct pc; cbn in H.
    + by apply bind_Some in H as ([r w1] & ?%grows_co & [= <- <-]).
    + by apply bind_Some in H as (r & ? & [= <- <-]).
  - destruct pc as [| |[]| |[]| |[]|]; cbn in H; repeat case_match; simplify_eq; auto with grows;
      first [apply (grows_cache KConsumer)|apply (grows_cache KCoordinator)|apply (grows_cache KPublisher)].
Qed.

Lemma grows_moves v w w' : moves v w w' -> grows w w'.
Proof.
  intros [t x Ht Hb ->|t x x' a w1 Ht Hs ->|t x x' Ht Ha Hf _ ->|c x st H ->|id H ->].
  - apply grows_goto.
  - etrans; [by eapply grows_task|apply grows_goto].
  - unfold drop_task. etrans; [|apply grows_goto]. generalize (closing x). clear. intros l. revert w.
    induction l as [|y l IH]; intros w; cbn; [done|]. etrans; [apply grows_note|apply IH].
  - split; eauto. intros c' b. unfold broker_of. cbn. rewrite list_lookup_insert. case_decide as E; [|done]. destruct E as [<- _]. by rewrite H.
  - apply grows_close_consumer.
Qed.

(** ** What tasks carry *)

Definition source_of (w : World) (b : string) (s : SourceInfo) : Prop := broker_of w (so_coord s) = Some b.

(** [worker] is what the configuration says of a profile, configured or synthesized. *)
Definition profile_worker (v : ValidatedConfig) (p : string) (worker : WorkerProfile) : Prop :=
  exists l l', RecoveryCoordinator.request v p l = Ok (worker, l').

Section Consumers.
Variable v : ValidatedConfig.

Definition recorded (w : World) (p : string) (worker : WorkerProfile) : Prop := profile_worker v p worker /\ p ∈ (requested w).*1.

(** The sources so far are of the first brokers of the worker. *)
Definition composed_upto (w : World) (p : string) (worker : WorkerProfile) (todo : list string) (sources : list SourceInfo) : Prop :=
  recorded w p worker /\ exists bs, worker_brokers worker = bs ++ todo /\ Forall2 (source_of w) bs sources.

Definition carried (w : World) (x : Task) : Prop :=
  match x with
  | TGot k key (Ok id) => (key, id) ∈ commits k w
  | TConsumer p pc =>
      match pc with
      | KsBegin | KsClosing _ => True
      | KsFresh _ worker id | KsFreshHeld _ worker id => recorded w p worker /\ (p, id) ∈ commits KConsumer w
      | KsWait _ worker | KsHeld _ worker | KsStart _ worker _ _ => recorded w p worker
      | KsCoord _ worker todo sources _ _ => composed_upto w p worker todo sources
      | KsReady _ worker todo sources c _ _ => composed_upto w p worker todo sources /\ exists b, head todo = Some b /\ broker_of w c = Some b
      | KsCommit _ worker sources => composed_upto w p worker [] sources
      end
  | _ => True
  end.

Lemma recorded_grows w w' p x : grows w w' -> recorded w p x -> recorded w' p x.
Proof. intros Hg [H1 H2]. split; [done|]. by apply (g_requested _ _ Hg). Qed.

Lemma composed_grows w w' p x todo sources : grows w w' -> composed_upto w p x todo sources -> composed_upto w' p x todo sources.
Proof.
  intros Hg (H1 & bs & H2 & H3). split; [by eapply recorded_grows|]. exists bs. split; [done|].
  eapply Forall2_impl; [done|]. intros b y. apply (g_broker _ _ Hg).
Qed.

Lemma carried_grows w w' x : grows w w' -> carried w x -> carried w' x.
Proof.
  intros Hg. destruct x as [|p pc| | |k key [id|]| | |]; cbn; try done; [|apply (g_commits _ _ Hg)].
  destruct pc; try done; try by apply recorded_grows.
  - intros [? ?]. split; [by eapply recorded_grows|by apply (g_commits _ _ Hg)].
  - intros [? ?]. split; [by eapply recorded_grows|by apply (g_commits _ _ Hg)].
  - by apply composed_grows.
  - intros (H1 & b & H2 & H3). split; [by eapply composed_grows|]. exists b. split; [done|by apply (g_broker _ _ Hg)].
  - by apply composed_grows.
Qed.

(** A call of [coordinator] answers a coordinator of the broker. *)
Lemma co_step_answer b co w c w' t x :
  cinv w -> tasks w !! t = Some x -> co_of x = Some (b, co) -> co_step v b co w = Some (inr (Ok c), w') -> broker_of w' c = Some b.
Proof.
  intros Hi Ht Hx H. destruct co; cbn in H; repeat case_match; simplify_eq;
    repeat match goal with H : ready _ _ _ _ = Ok _ |- _ => apply ready_ok in H as [? ?] end; try by apply (c_cache _ Hi).
  match goal with H : commit _ _ _ _ _ = _ |- _ => apply grows_commit in H as Hg end. apply (g_broker _ _ Hg).
  by eapply (c_hand _ Hi _ _ _ (CoCommit _ _)).
Qed.

Lemma committed g k key id w w' : commit g k key id w = (true, w') -> (key, id) ∈ commits k w'.
Proof.
  unfold commit. case_decide; intros [= <-]. rewrite commits_note. cbn. rewrite decide_True by done. apply elem_of_app. right. by left.
Qed.

Lemma commits_set_requested l k w : commits k (set_requested l w) = commits k w.
Proof. done. Qed.

Lemma carried_pub b pc a w x' w' : kinv KPublisher w -> pub_step v b pc a w = Some (x', w') -> carried w' x'.
Proof.
  intros Hk H. destruct pc as [| | | | | | | |g p|]; cbn in H.
  4: { apply bind_Some in H as ([r w1] & Hc & [= <- <-]). by destruct r as [|[]]. }
  8: { destruct (commit g KPublisher b p w) as [ok w1] eqn:Hc. destruct ok; simplify_eq; [by eapply committed|done]. }
  all: repeat case_match; simplify_eq; try done;
    match goal with H : ready _ _ _ _ = Ok _ |- _ => apply ready_ok in H as [? ?] end; by apply (k_cached _ _ Hk).
Qed.

Lemma carried_con_next p g worker todo sources error w :
  composed_upto w p worker todo sources -> carried w (con_next p g worker todo sources error).
Proof. by destruct todo. Qed.

Lemma evict_hit worker p id w id' w' : keep_or_evict worker p id w = (Some id', w') -> id' = id /\ w' = w.
Proof. unfold keep_or_evict. case_match; by intros [= <- <-]. Qed.

Lemma carried_con p pc a w x' w' t :
  kinv KConsumer w -> cinv w -> tasks w !! t = Some (TConsumer p pc) -> carried w (TConsumer p pc) ->
  con_step v p pc a w = Some (x', w') -> carried w' x'.
Proof.
  intros Hk Hi Ht Hc H. pose proof (grows_task v (TConsumer p pc) a w x' w' H) as Hg.
  destruct pc as [|g x id|g x|g x|g x id|g x todo co|g x todo sources co error|g x todo sources c wait error|g x sources|id]; cbn in H, Hc.
  - destruct (open_generation w); [|by simplify_eq]. destruct (RecoveryCoordinator.request v p (requested w)) as [[x l]|] eqn:Hr; [|by simplify_eq].
    assert (recorded (set_requested l w) p x) by (split; [by eexists _, _|by apply request_grows in Hr as [_ ?]]).
    destruct (ready _ _ _ _) as [[id|]|] eqn:Hy; simplify_eq; [|done|done]. split; [done|]. rewrite commits_set_requested.
    apply ready_ok in Hy as [Hy _]. by apply (k_cached _ _ Hk).
  - destruct Hc as [H1 H2]. destruct (keep_or_evict _ _ _ _) as [[id'|] w1] eqn:He; simplify_eq.
    + by apply evict_hit in He as [-> ->].
    + by eapply recorded_grows.
  - case_decide; by simplify_eq.
  - destruct (ready _ _ _ _) as [[id|]|] eqn:Hy; simplify_eq; [|done|done]. split; [done|]. apply ready_ok in Hy as [Hy _]. by apply (k_cached _ _ Hk).
  - destruct Hc as [H1 H2]. destruct (keep_or_evict _ _ _ _) as [[id'|] w1] eqn:He; simplify_eq.
    + by apply evict_hit in He as [-> ->].
    + by eapply recorded_grows.
  - destruct todo as [|b todo].
    + simplify_eq. apply carried_con_next. split; [done|]. exists []. by split; [|constructor].
    + apply bind_Some in H as ([r w1] & Hs & [= <- <-]). destruct r as [|[]]; [|cbn|done]; by eapply recorded_grows.
  - destruct todo as [|b todo]; [by simplify_eq|].
    apply bind_Some in H as ([r w1] & Hs & [= <- <-]). destruct r as [|[c|]]; [by eapply composed_grows| |done].
    split; [by eapply composed_grows|]. exists b. split; [done|]. by eapply co_step_answer.
  - apply bind_Some in H as (r & Hs & [= <- <-]). destruct r as [[]|[[set gen]|]]; [done| |done].
    destruct Hc as ((H1 & bs & H2 & H3) & b & Hb & Hc). apply carried_con_next. split; [done|]. exists (bs ++ [b]).
    destruct todo as [|b' todo]; simplify_eq/=. rewrite drop_0, <- app_assoc. split; [done|]. apply Forall2_app; [done|].
    by constructor.
  - destruct (commit _ _ _ _ _) as [ok w1] eqn:Hm. destruct ok; simplify_eq; [by eapply committed|done].
  - by simplify_eq.
Qed.

(** ** The handles *)

Definition hinv (w : World) : Prop :=
  (forall id h, handles w !! id = Some h -> exists worker, composed_upto w (cs_profile h) worker [] (cs_sources h)) /\
  (forall p id, (p, id) ∈ commits KConsumer w -> exists h, handles w !! id = Some h /\ cs_profile h = p).

(** The commits a step adds, by kind: a consumer's are added by its composition. *)
Lemma hinv_grows w w' :
  hinv w -> grows w w' ->
  (forall id h, handles w' !! id = Some h -> exists h0, handles w !! id = Some h0 /\ cs_profile h0 = cs_profile h /\ cs_sources h0 = cs_sources h) ->
  commits KConsumer w' = commits KConsumer w -> hinv w'.
Proof.
  intros [H1 H2] Hg Hh Hc. split.
  - intros id h (h0 & E1 & E2 & E3)%Hh. destruct (H1 _ _ E1) as (worker & Hw). exists worker. rewrite <- E2, <- E3. by eapply composed_grows.
  - intros p id. rewrite Hc. intros (h & E1 & E2)%H2. destruct (g_handles _ _ Hg _ _ E1) as (h' & E3 & E4 & _). exists h'. split; [done|congruence].
Qed.

(** Only the composition's commit adds a handle. *)
Lemma task_handles x a w x' w' :
  task_step v x a w = Some (x', w') ->
  (exists p g worker sources, x = TConsumer p (KsCommit g worker sources)) \/
  commits KConsumer w' = commits KConsumer w /\
  forall id h, handles w' !! id = Some h -> exists h0, handles w !! id = Some h0 /\ cs_profile h0 = cs_profile h /\ cs_sources h0 = cs_sources h.
Proof.
  assert (Hsame : forall w1 w2, log w2 = log w1 -> handles w2 = handles w1 -> commits KConsumer w2 = commits KConsumer w1 /\
    forall id h, handles w2 !! id = Some h -> exists h0, handles w1 !! id = Some h0 /\ cs_profile h0 = cs_profile h /\ cs_sources h0 = cs_sources h).
  { intros w1 w2 E1 E2. unfold commits. rewrite E1, E2. eauto. }
  assert (Hclose : forall w1 i, commits KConsumer (close_consumer i w1) = commits KConsumer w1 /\
    forall id h, handles (close_consumer i w1) !! id = Some h -> exists h0, handles w1 !! id = Some h0 /\ cs_profile h0 = cs_profile h /\ cs_sources h0 = cs_sources h).
  { intros w1 i. split; [done|]. intros id h. cbn. rewrite list_lookup_alter. case_decide; [|eauto]. subst.
    destruct (handles w1 !! id) as [h0|]; intros [= <-]. eauto. }
  assert (Hco : forall b co r w1, co_step v b co w = Some (r, w1) -> commits KConsumer w1 = commits KConsumer w /\ handles w1 = handles w).
  { intros b co r w1 H. split; [by eapply co_step_same|]. destruct co; cbn in H; unfold commit in H; repeat case_match; by simplify_eq. }
  destruct x as [b pc|p pc|b pc|pc| | | |]; cbn [task_step]; [| | | |done..]; intros H.
  - right. destruct pc as [| | | | | | | |g p|]; cbn in H.
    4: { apply bind_Some in H as ([r w1] & [E1 E2]%Hco & [= <- <-]). rewrite E1, E2. eauto. }
    8: { unfold commit in H. repeat case_match; simplify_eq; [|by apply Hsame]. rewrite commits_note. cbn. rewrite app_nil_r. eauto. }
    all: repeat case_match; simplify_eq; by apply Hsame.
  - destruct pc as [|g x id|g x|g x|g x id|g x []|g x [] ?|g x todo sources c wait error|g x sources|id]; cbn in H;
      try (right; unfold keep_or_evict in H; repeat case_match; simplify_eq; by apply Hsame).
    + right. apply bind_Some in H as ([r w1] & [E1 E2]%Hco & [= <- <-]). rewrite E1, E2. eauto.
    + right. apply bind_Some in H as ([r w1] & [E1 E2]%Hco & [= <- <-]). rewrite E1, E2. eauto.
    + right. apply bind_Some in H as (r & ? & [= <- <-]). by apply Hsame.
    + left. by eexists _, _, _, _.
    + right. simplify_eq. apply Hclose.
  - right. destruct pc; cbn in H.
    + apply bind_Some in H as ([r w1] & [E1 E2]%Hco & [= <- <-]). rewrite E1, E2. eauto.
    + apply bind_Some in H as (r & ? & [= <- <-]). by apply Hsame.
  - right. destruct pc as [| |[]| |[]| |[]|]; cbn in H; repeat case_match; simplify_eq; first [by apply Hsame|apply Hclose].
Qed.

Lemma hinv_commit p g worker sources a w x' w' :
  hinv w -> composed_upto w p worker [] sources -> con_step v p (KsCommit g worker sources) a w = Some (x', w') -> hinv w'.
Proof.
  intros [H1 H2] Hc H. pose proof (grows_task v (TConsumer p _) a w x' w' H) as Hg. cbn in H.
  destruct (commit _ _ _ _ _) as [ok w1] eqn:Hm. assert (w1 = w') as -> by by destruct ok; simplify_eq. clear H.
  assert (Hh : handles w' = handles w ++ [mkConsumerInfo p sources false]) by (unfold commit in Hm; case_decide; by simplify_eq).
  split.
  - intros id h. rewrite Hh. intros [Hl|[_ Hl]]%lookup_app_Some.
    + destruct (H1 _ _ Hl) as (worker' & ?). exists worker'. by eapply composed_grows.
    + apply list_lookup_singleton_Some in Hl as [_ <-]. exists worker. by eapply composed_grows.
  - assert (Hcm : forall q id, (q, id) ∈ commits KConsumer w' -> (q, id) ∈ commits KConsumer w \/ q = p /\ id = length (handles w)).
    { intros q id. unfold commit in Hm. case_decide; simplify_eq; [|by left]. rewrite commits_note. cbn.
      intros [?|[= -> ->]%list_elem_of_singleton]%elem_of_app; auto. }
    rewrite Hh. intros q id [(h & E1 & E2)%H2|[-> ->]]%Hcm; [exists h; by rewrite (lookup_app_l_Some _ _ _ _ E1)|].
    eexists. by rewrite list_lookup_middle.
Qed.

Definition carried_all (w : World) : Prop := map_Forall (fun _ x => carried w x) (tasks w).

Lemma carried_task x a w x' w' t :
  close_inv w -> (forall k, kinv k w) -> cinv w -> tasks w !! t = Some x -> carried w x -> task_step v x a w = Some (x', w') -> carried w' x'.
Proof.
  intros Hcl Hk Hi Ht Hx H. destruct x as [b pc|p pc|b pc|pc| | | |]; cbn [task_step] in H; [| | | |done..].
  - by eapply carried_pub.
  - by eapply carried_con.
  - destruct pc; cbn in H; apply bind_Some in H as (r & ? & H); repeat case_match; by simplify_eq.
  - destruct pc as [| |[]| |[]| |[]|]; cbn in H; repeat case_match; by simplify_eq.
Qed.

Lemma served_moves w w' :
  close_inv w -> (forall k, kinv k w) -> cinv w -> carried_all w /\ hinv w -> moves v w w' -> carried_all w' /\ hinv w'.
Proof.
  intros Hcl Hk Hi [Ha Hh] Hm. pose proof (grows_moves _ _ _ Hm) as Hg.
  assert (Hkeep : forall u y, tasks w !! u = Some y -> carried w' y) by (intros u y Hu; eapply carried_grows, Ha; done).
  destruct Hm as [t x Ht Hb ->|t x x' a w1 Ht Hs ->|t x x' Ht Haw Hf Hok ->|c x st H ->|id H ->].
  - split.
    + intros u y [[-> ->]|[_ ?]]%moved_tasks; [|by eapply Hkeep]. by destruct x as [? []|? []|? [[]|]|[]| | | |].
    + eapply hinv_grows; [done..|cbn; eauto|done].
  - split.
    + intros u y. cbn. rewrite (task_step_tasks _ _ _ _ _ _ Hs). intros [[-> ->]|[_ ?]]%moved_tasks; [|by eapply Hkeep].
      eapply carried_grows; [apply grows_goto|]. eapply carried_task; [done..|by eapply Ha|done].
    + assert (hinv w1) as Hw1; [|by eapply hinv_grows; [done|apply grows_goto|cbn; eauto|done]].
      destruct (task_handles _ _ _ _ _ Hs) as [(p & g & worker & sources & ->)|[Hc Hd]].
      * eapply hinv_commit; [done|by apply (Ha _ _ Ht)|exact Hs].
      * eapply hinv_grows; [done| |done..]. by eapply grows_task.
  - destruct (drop_task_spec t x x' w) as (_ & _ & _ & _ & E5 & _ & E7 & _). split.
    + intros u y. rewrite E7. intros [[-> ->]|[_ ?]]%moved_tasks; [|by eapply Hkeep]. destruct x' as [| | | |k key []| | |]; try done.
      by destruct (Hok k key a).
    + eapply hinv_grows; [done..|rewrite E5; eauto|apply commits_dropped].
  - split; [intros u y; apply Hkeep|]. eapply hinv_grows; [done..|cbn; eauto|done].
  - split; [intros u y; apply Hkeep|]. eapply hinv_grows; [done..| |done]. intros i h. cbn. rewrite list_lookup_alter.
    case_decide; [|eauto]. subst. destruct (handles w !! i) as [h0|]; intros [= <-]. eauto.
Qed.

Lemma reach_served w : reach v w -> carried_all w /\ hinv w.
Proof.
  induction 1 as [|e w w' Hr IH Hs%step_moves]; [split; [done|]; split; [done|by intros p id ?%elem_of_nil]|].
  destruct (reach_pool _ _ Hr). eapply served_moves; [done..|by eapply reach_coordinators|done|done].
Qed.

(** ** The publishers *)

(** Some place accounts for a publisher. *)
Definition publisher_kept (w : World) (b : string) (p : nat) : Prop :=
  p ∈ closed_publishers w \/ publishers w !! b = Some p \/
  (exists t todo e, tasks w !! t = Some (TClose (ClPublishers todo e)) /\ p ∈ todo) \/ Abandoned KPublisher p ∈ log w.

Definition pinv (w : World) : Prop := forall b p, (b, p) ∈ commits KPublisher w -> publisher_kept w b p.

(** What a call other than [close] does to the cache. *)
Lemma task_publishers x a w x' w' :
  task_step v x a w = Some (x', w') -> (forall pc, x <> TClose pc) -> (forall b p, publishers w !! b = Some p -> stage KPublisher x = Some (b, true) -> is_closed w = true) ->
  publishers w ⊆ publishers w' /\ forall b p, (b, p) ∈ commits KPublisher w' -> (b, p) ∈ commits KPublisher w \/ publishers w' !! b = Some p.
Proof.
  assert (Hco : forall b co r w1, co_step v b co w = Some (r, w1) -> publishers w ⊆ publishers w1 /\
    forall b p, (b, p) ∈ commits KPublisher w1 -> (b, p) ∈ commits KPublisher w \/ publishers w1 !! b = Some p).
  { intros b co r w1 H. destruct (co_step_same _ _ _ _ _ _ KPublisher H) as (_ & E1 & E2); [done|]. cbn in E1. rewrite E1, E2. auto. }
  intros H Hnc Hab. destruct x as [b pc|p pc|b pc|pc| | | |]; cbn [task_step] in H; [| | |by destruct (Hnc pc)|done..].
  - destruct pc as [| | | | | | | |g p|]; cbn in H.
    4: { by apply bind_Some in H as ([r w1] & ?%Hco & [= <- <-]). }
    8: { unfold commit in H. case_decide as Ho; simplify_eq; [|auto]. cbn. split.
         - apply insert_subseteq. destruct (publishers w !! b) eqn:E; [|done]. specialize (Hab _ _ E eq_refl). unfold is_closed in Hab. by rewrite Ho in Hab.
         - intros b' p'. unfold commits. cbn. rewrite omap_app. cbn. intros [?|[= -> ->]%list_elem_of_singleton]%elem_of_app; [by left|right; apply lookup_insert_eq]. }
    all: repeat case_match; simplify_eq; auto.
  - destruct pc as [|g x id|g x|g x|g x id|g x []|g x [] ?|g x todo sources c wait error|g x sources|id]; cbn in H;
      try (unfold keep_or_evict in H; repeat case_match; simplify_eq; by auto).
    + by apply bind_Some in H as ([r w1] & ?%Hco & [= <- <-]).
    + by apply bind_Some in H as ([r w1] & ?%Hco & [= <- <-]).
    + apply bind_Some in H as (r & ? & [= <- <-]). auto.
    + destruct (commit _ _ _ _ _) as [ok w1] eqn:Hc. destruct (commit_same _ _ KPublisher _ _ _ _ _ Hc) as (_ & E1 & E2); [done|]. cbn in E1.
      assert (w1 = w') as -> by by destruct ok; simplify_eq. rewrite E1, E2. auto.
  - destruct pc; cbn in H.
    + by apply bind_Some in H as ([r w1] & ?%Hco & [= <- <-]).
    + apply bind_Some in H as (r & ? & [= <- <-]). auto.
Qed.

Lemma pinv_moves w w' : kinv KPublisher w -> pinv w -> moves v w w' -> pinv w'.
Proof.
  intros Hk Hp Hm. pose proof (grows_moves _ _ _ Hm) as Hg.
  assert (Hstay : forall b p, publisher_kept w b p -> (publishers w !! b = Some p -> publisher_kept w' b p) ->
    (forall t todo e, tasks w !! t = Some (TClose (ClPublishers todo e)) -> p ∈ todo -> publisher_kept w' b p) -> publisher_kept w' b p).
  { intros b p [?|[?|[(t & todo & e & Ht & Hin)|?]]] H1 H2; [left; by apply (g_publishers _ _ Hg)|auto|by eapply H2|].
    right; right; right. by apply (g_log _ _ Hg). }
  destruct Hm as [t x Ht Hb ->|t x x' a w1 Ht Hs ->|t x x' Ht Haw Hf Hok ->|c x st H ->|id H ->]; intros b p Hc.
  - eapply Hstay; [by apply Hp|by right; left|]. intros u todo e Hu Hin. right; right; left. exists u, todo, e.
    split; [|done]. cbn. rewrite lookup_insert_ne; [done|congruence].
  - pose proof (task_step_tasks _ _ _ _ _ _ Hs) as Hw.
    assert (Hothers : forall u todo e, u <> t -> tasks w !! u = Some (TClose (ClPublishers todo e)) -> p ∈ todo -> publisher_kept (goto t x' w1) b p).
    { intros u todo e Hn Hu Hin. right; right; left. exists u, todo, e. split; [|done]. cbn. by rewrite Hw, lookup_insert_ne. }
    assert ((exists pc, x = TClose pc) \/ ~ exists pc, x = TClose pc) as [[pc ->]|Hn] by (destruct x; eauto; right; by intros [? ?]).
    + cbn in Hs. assert (Hcm : commits KPublisher w1 = commits KPublisher w) by
        (destruct pc as [| |[]| |[]| |[]|]; cbn in Hs; repeat case_match; by simplify_eq).
      change (commits KPublisher (goto t x' w1)) with (commits KPublisher w1) in Hc. rewrite Hcm in Hc.
      destruct pc as [| |l e|e|l e|e|l e|e]; cbn in Hs.
      7: { destruct l as [|q l]; [|destruct a]; simplify_eq; (eapply Hstay; [by apply Hp|by right; left|]);
             intros u todo e' Hu Hin; (destruct (decide (u = t)) as [->|]; [|by eapply Hothers]); rewrite Ht in Hu; injection Hu as <- <-; [set_solver|].
           apply elem_of_cons in Hin as [->|Hin]; [left; cbn; set_solver|]. right; right; left. eexists t, l, _. cbn. by rewrite lookup_insert_eq. }
      6: { simplify_eq. eapply Hstay; [by apply Hp| |].
           - intros Hb. right; right; left. eexists t, _, _. cbn. rewrite lookup_insert_eq. split; [done|]. by eapply values_cached.
           - intros u todo e' Hu Hin. destruct (decide (u = t)) as [->|]; [congruence|by eapply Hothers]. }
      all: repeat case_match; simplify_eq; (eapply Hstay; [by apply Hp|by right; left|]);
        intros u todo e' Hu Hin; (destruct (decide (u = t)) as [->|]; [congruence|by eapply Hothers]).
    + destruct (task_publishers _ _ _ _ _ Hs) as [Hsub Hcm]; [intros pc ->; eauto| |].
      * intros b' p' Hb Hst. destruct (is_closed w) eqn:Ho; [done|]. pose proof (k_absent _ _ Hk _ _ _ Ht Hst Ho). cbn in *. congruence.
      * destruct (Hcm b p Hc) as [Hold|?]; [|by right; left]. eapply Hstay; [by apply Hp| |].
        -- intros Hb. right; left. by eapply lookup_weaken.
        -- intros u todo e' Hu Hin. destruct (decide (u = t)) as [->|]; [destruct Hn; exists (ClPublishers todo e'); congruence|by eapply Hothers].
  - rewrite commits_dropped in Hc. destruct (drop_task_spec t x x' w) as (_ & E2 & _ & _ & _ & _ & E7 & E8). eapply Hstay; [by apply Hp| |].
    + intros Hb. right; left. by rewrite (E2 KPublisher : publishers _ = publishers _).
    + intros u todo e Hu Hin. destruct (decide (u = t)) as [->|Hn].
      * right; right; right. rewrite E8. apply elem_of_app. right. apply list_elem_of_fmap. exists (KPublisher, p). split; [done|].
        rewrite Ht in Hu. injection Hu as ->. cbn. apply list_elem_of_fmap. eauto.
      * right; right; left. exists u, todo, e. rewrite E7. by rewrite lookup_insert_ne.
  - eapply Hstay; [by apply Hp|by right; left|]. intros u todo e Hu Hin. right; right; left. by exists u, todo, e.
  - eapply Hstay; [by apply Hp|by right; left|]. intros u todo e Hu Hin. right; right; left. by exists u, todo, e.
Qed.

Lemma reach_publishers w : reach v w -> pinv w.
Proof.
  induction 1 as [|e w w' Hr IH Hs%step_moves]; [intros b p ?%elem_of_nil; done|].
  destruct (reach_pool _ _ Hr). by eapply pinv_moves.
Qed.

End Consumers.

End ClientPoolConsumers.
