(* ===== verification/ClientPoolTheorems.v ===== *)
(** * Theorems about the client pool *)

From S2P Require Import Prelude Transport Publication Recovery DelayTopology DelayRouting TopologyPlan ClientBatch Config ConfigValid RecoveryCoordinator ClientPool ClientPoolInv ClientPoolSystem ClientPoolConsumers.
Import Transport Publication Recovery DelayTopology DelayRouting TopologyPlan ClientBatch Config ClientPool ClientPoolInv ClientPoolSystem ClientPoolConsumers.
Local Open Scope Z_scope.
Local Open Scope rabbit_scope.

Module ClientPoolTheorems.

(** ** Brokers of a worker *)

Lemma worker_brokers_step (l : list SubscriptionConfig) acc :
  NoDup acc ->
  let r := foldl (fun l s => if decide (su_broker s ∈ l) then l else l ++ [su_broker s]) acc l in
  NoDup r /\ forall b, b ∈ r <-> b ∈ acc \/ b ∈ su_broker <$> l.
Proof.
  revert acc. induction l as [|s l IH]; intros acc Hn; cbn; [split; [done|set_solver]|]. case_decide as Hd.
  - destruct (IH acc Hn) as [H1 H2]. split; [done|]. intros b. rewrite H2. set_solver.
  - destruct (IH (acc ++ [su_broker s])) as [H1 H2]; [apply NoDup_app; split; [done|]; split; [set_solver|apply NoDup_singleton]|].
    split; [done|]. intros b. rewrite H2. set_solver.
Qed.

Lemma worker_brokers_spec w : NoDup (worker_brokers w) /\ forall b, b ∈ worker_brokers w <-> b ∈ su_broker <$> w_subscriptions w.
Proof. destruct (worker_brokers_step (w_subscriptions w) []) as [H1 H2]; [constructor|]. split; [done|]. intros b. etrans; [apply H2|]. set_solver. Qed.

Section Theorems.
Variable v : ValidatedConfig.

(** C15. However calls interleave, are dropped or time out, the pool spawns at most one
    coordinator per broker, for its whole life, and every call for a broker's
    publisher that succeeds is answered the same publisher. *)
Theorem one_of_each w :
  reach v w ->
  (forall c c' x x', coords w !! c = Some x -> coords w !! c' = Some x' -> ci_broker x = ci_broker x' -> c = c') /\
  (forall t t' b p p', tasks w !! t = Some (TGot KPublisher b (Ok p)) -> tasks w !! t' = Some (TGot KPublisher b (Ok p')) -> p = p').
Proof.
  intros Hr. pose proof (reach_coordinators _ _ Hr) as Hc. destruct (reach_pool _ _ Hr) as [_ Hk]. destruct (reach_served _ _ Hr) as [Hs _]. split.
  - intros c c' x x' H1 H2 Hb. eapply (c_once _ Hc _ _ (ci_broker x)); unfold broker_of; rewrite ?H1, ?H2; cbn; congruence.
  - intros t t' b p p' H1 H2. eapply (k_once _ _ (Hk KPublisher)); [done|exact (Hs _ _ H1)|exact (Hs _ _ H2)].
Qed.

(** C16. When the pool is closed, its calls have ended and none was dropped while it was
    to close something, every coordinator ever spawned was closed (in a cache or not,
    whatever call spawned it) and so was every publisher that was ever cached. *)
Theorem close_leaves_nothing w :
  reach v w -> lifecycle w = Closed -> (forall t x, tasks w !! t = Some x -> finished x = true) -> (forall k id, Abandoned k id ∉ log w) ->
  (forall c x, coords w !! c = Some x -> ci_closed x = true) /\
  (forall b p, Committed KPublisher b p ∈ log w -> p ∈ closed_publishers w).
Proof.
  intros Hr Hl Hf Ha. destruct (reach_pool _ _ Hr) as [[_ He] _]. specialize (He Hl). split.
  - intros c x Hx. destruct (c_leak _ (reach_coordinators _ _ Hr) _ _ Hx) as [?|[[b H]|[(t & y & Hy & Hh)|H]]]; [done| | |by destruct (Ha _ _ H)].
    + rewrite (He KCoordinator : coordinators w = ∅) in H. done.
    + specialize (Hf _ _ Hy). by destruct y; cbn in Hf, Hh; try done; apply elem_of_nil in Hh.
  - intros b p Hp. destruct (reach_publishers _ _ Hr b p) as [?|[H|[(t & todo & e & Hy & _)|H]]]; [|done| | |by destruct (Ha _ _ H)].
    + apply list_elem_of_omap. exists (Committed KPublisher b p). split; [done|]. cbn. by rewrite decide_True.
    + rewrite (He KPublisher : publishers w = ∅) in H. done.
    + by specialize (Hf _ _ Hy).
Qed.

(** ** Progress *)

(** A task waits for an initializer. *)
Definition waits (x : Task) : option (Kind * string) :=
  match x with
  | TPublisher b (PbWait _) => Some (KPublisher, b)
  | TConsumer p (KsWait _ _) => Some (KConsumer, p)
  | _ => match co_of x with Some (b, CoWait _) => Some (KCoordinator, b) | _ => None end
  end.

Lemma co_step_runs b co w : (match co with CoWait _ => free KCoordinator b w | _ => True end) -> is_Some (co_step v b co w).
Proof. destruct co; cbn; intros H; repeat case_match; try done. Qed.

(** A task that waits for nothing, or for an initializer that is free, can go on with
    some answer. *)
Lemma wait_step_runs {A} c wait error w (good : A) (f : Answer -> option (result A string)) a0 :
  f a0 = Some (Ok good) -> exists a, is_Some (wait_step c wait (f a) a error w).
Proof. intros H. destruct wait; [by exists a0|exists a0; by rewrite H|by exists a0|by exists (AnsTransition None)]. Qed.

Lemma task_runs x w : finished x = false -> (forall k key, waits x = Some (k, key) -> free k key w) -> exists a, is_Some (task_step v x a w).
Proof.
  intros Hf Hw. destruct x as [b pc|p pc|b pc|pc| | | |]; cbn [finished] in Hf; [| | | |done..]; cbn [task_step].
  - destruct pc as [|g|g|g co|g c|g c|g c|g c|g p|p]; cbn in *.
    + exists AnsNone. repeat case_match; done.
    + exists AnsNone. rewrite decide_True; [done|]. by apply Hw.
    + exists AnsNone. repeat case_match; done.
    + exists AnsNone. destruct (co_step_runs b co w) as [[] ->]; [|done]. destruct co; try done. by apply Hw.
    + by exists AnsNone.
    + by exists (AnsPublisher None).
    + by exists AnsNone.
    + by exists (AnsWake None).
    + exists AnsNone. by destruct (commit _ _ _ _ _).
    + by exists AnsNone.
  - destruct pc as [|g x id|g x|g x|g x id|g x [|b todo] co|g x [|b todo] sources co error|g x todo sources c wait error|g x sources|id]; cbn in *.
    + exists AnsNone. repeat case_match; done.
    + exists AnsNone. by destruct (keep_or_evict _ _ _ _).
    + exists AnsNone. rewrite decide_True; [done|]. by apply Hw.
    + exists AnsNone. repeat case_match; done.
    + exists AnsNone. by destruct (keep_or_evict _ _ _ _).
    + by exists AnsNone.
    + exists AnsNone. destruct (co_step_runs b co w) as [[] ->]; [|done]. destruct co; try done. by apply Hw.
    + by exists AnsNone.
    + exists AnsNone. destruct (co_step_runs b co w) as [[] ->]; [|done]. destruct co; try done. by apply Hw.
    + destruct (wait_step_runs c wait error w (0%nat, 0) (fun a => match a with AnsSet r => Some r | _ => None end) (AnsSet (Ok (0%nat, 0)))) as [a [r Hr]]; [done|].
      exists a. by rewrite Hr.
    + exists AnsNone. by destruct (commit _ _ _ _ _).
    + by exists AnsNone.
  - destruct pc as [co|c wait error]; cbn in *.
    + exists AnsNone. destruct (co_step_runs b co w) as [[] ->]; [|done]. destruct co; try done. by apply Hw.
    + destruct (wait_step_runs c wait error w tt (fun a => match a with AnsChannel r => Some r | _ => None end) (AnsChannel (Ok tt))) as [a [r Hr]]; [done|].
      exists a. by rewrite Hr.
  - exists (AnsClose None). destruct pc as [| |[]| |[]| |[]|]; cbn; repeat case_match; done.
Qed.

(** Who holds a coordinator's initializer waits for none; who holds another one waits
    at most for a coordinator's. *)
Lemma holder_waits k x key : holds k x = Some key -> waits x = None \/ k <> KCoordinator /\ exists b, waits x = Some (KCoordinator, b).
Proof.
  destruct k, x as [? []|? []|? []| | | | |]; cbn; try done; repeat case_match; try done; intros H'; simplify_eq/=; eauto;
    right; split; by eauto.
Qed.

Lemma not_free k key w : ~ free k key w -> exists t x, tasks w !! t = Some x /\ holds k x = Some key.
Proof.
  unfold free. intros (t & x & Ht & Hx)%map_not_Forall; [|apply _]. exists t, x. split; [done|]. by apply dec_stable.
Qed.

Lemma holds_unfinished k x key : holds k x = Some key -> finished x = false.
Proof. by destruct k, x. Qed.

(** The initializers never deadlock: while a call is in progress, some call can take
    its next step, given an answer from what it awaits. *)
Theorem initializers_never_deadlock w t x :
  tasks w !! t = Some x -> finished x = false -> exists u a w', step v (EStep u a) w = Some w'.
Proof.
  intros Ht Hf.
  assert (Hgo : forall u y, tasks w !! u = Some y -> finished y = false -> (forall k key, waits y = Some (k, key) -> free k key w) ->
    exists u a w', step v (EStep u a) w = Some w').
  { intros u y Hu Hy Hw. destruct (task_runs y w Hy Hw) as (a & [y' w'] & Ha). exists u, a, (goto u y' w'). cbn. rewrite Hu. cbn. by rewrite Ha. }
  assert (Hcoord : forall u y b, tasks w !! u = Some y -> finished y = false -> waits y = Some (KCoordinator, b) ->
    exists u a w', step v (EStep u a) w = Some w').
  { intros u y b Hu Hy Hw. destruct (decide (free KCoordinator b w)) as [Hb|(u' & y' & Hu' & Hh)%not_free].
    - apply (Hgo u y); [done..|]. intros k key E. by simplify_eq.
    - apply (Hgo u' y'); [done|by eapply holds_unfinished|]. destruct (holder_waits _ _ _ Hh) as [->|[? _]]; done. }
  destruct (waits x) as [[k key]|] eqn:Hw; [|apply (Hgo t x); [done..|congruence]].
  destruct (decide (free k key w)) as [Hb|(u & y & Hu & Hh)%not_free]; [apply (Hgo t x); [done..|]; intros ? ? ?; by simplify_eq|].
  destruct (holder_waits _ _ _ Hh) as [E|[_ [b E]]].
  - apply (Hgo u y); [done|by eapply holds_unfinished|congruence].
  - apply (Hcoord u y b); [done|by eapply holds_unfinished|done].
Qed.

(** A consumer that is served is composed of one source per broker of its profile's
    worker, in order, each from that broker's own coordinator; the brokers are those
    of the worker's subscriptions, each once; and the profile is recorded for the
    coordinators. *)
Theorem consumer_composed w t p id :
  reach v w -> tasks w !! t = Some (TGot KConsumer p (Ok id)) ->
  exists h worker, handles w !! id = Some h /\ cs_profile h = p /\ profile_worker v p worker /\ p ∈ (requested w).*1 /\
    Forall2 (source_of w) (worker_brokers worker) (cs_sources h) /\
    NoDup (worker_brokers worker) /\ (forall b, b ∈ worker_brokers worker <-> b ∈ su_broker <$> w_subscriptions worker).
Proof.
  intros Hr Ht. destruct (reach_served _ _ Hr) as [Hc [Hh1 Hh2]]. destruct (Hh2 _ _ (Hc _ _ Ht)) as (h & H1 & H2).
  destruct (Hh1 _ _ H1) as (worker & [Hw Hq] & bs & Hbs & Hf). rewrite app_nil_r in Hbs. subst bs p.
  exists h, worker. split_and!; try done; apply worker_brokers_spec.
Qed.

Lemma profile_worker_fun p x y : profile_worker v p x -> profile_worker v p y -> x = y.
Proof.
  intros (l1 & l1' & H1) (l2 & l2' & H2). unfold RecoveryCoordinator.request, RecoveryCoordinator.synthesized_worker in *.
  repeat case_match; by simplify_eq/=.
Qed.

Lemma stale_source_false b s w :
  stale_source b s w = false -> exists c, coordinators w !! b = Some c /\ state_of c w = Ready (so_generation s).
Proof.
  unfold stale_source. destruct (coordinators w !! b) as [c|]; [|done]. destruct (state_of c w) as [| | |g| |] eqn:E; try done.
  intros Hg. exists c. split; [done|]. rewrite E. f_equal. lia.
Qed.

(** A cached consumer is served again only while it is open and the coordinator each
    of its sources came from is ready in that source's generation; otherwise it leaves
    the cache. *)
Theorem cached_consumer_current w t p g worker id o w' :
  reach v w -> (tasks w !! t = Some (TConsumer p (KsFresh g worker id)) \/ tasks w !! t = Some (TConsumer p (KsFreshHeld g worker id))) ->
  keep_or_evict worker p id w = (o, w') ->
  match o with
  | Some id' => id' = id /\ w' = w /\ exists h, handles w !! id = Some h /\ cs_profile h = p /\ cs_closed h = false /\
      forall s, s ∈ cs_sources h -> state_of (so_coord s) w = Ready (so_generation s)
  | None => consumers w' !! p = None
  end.
Proof.
  intros Hr Ht He. destruct (reach_served _ _ Hr) as [Hc [Hh1 Hh2]]. pose proof (reach_coordinators _ _ Hr) as Hi.
  assert (recorded v w p worker /\ (p, id) ∈ commits KConsumer w) as [[Hw _] Hcm] by (destruct Ht as [H|H]; exact (Hc _ _ H)).
  destruct (Hh2 _ _ Hcm) as (h & H1 & H2). destruct (Hh1 _ _ H1) as (worker' & [Hw' _] & bs & Hbs & Hf). rewrite app_nil_r in Hbs. subst bs.
  unfold keep_or_evict in He. rewrite H1 in He. cbn in He.
  destruct (fresh worker h w) eqn:Hfr; injection He as <- <-; [|apply lookup_delete_eq].
  assert (worker' = worker) as -> by (eapply profile_worker_fun; [|exact Hw]; by rewrite <- H2).
  split; [done|]. split; [done|]. exists h. unfold fresh in Hfr. apply andb_prop in Hfr as [[_ Hst]%andb_prop Hcl].
  split; [done|]. split; [done|]. split; [by destruct (cs_closed h)|]. intros s [i Hs]%list_elem_of_lookup.
  destruct (Forall2_lookup_r _ _ _ _ _ Hf Hs) as (b & Hb & Hsb).
  destruct (stale_source_false b s w) as (c & Hcb & <-).
  - apply Bool.not_true_iff_false. intros Hx. apply negb_true_iff in Hst. rewrite <- Bool.not_true_iff_false in Hst. apply Hst.
    apply existsb_exists. exists (b, s). split; [|done]. apply list_elem_of_In, list_elem_of_lookup. exists i. by rewrite lookup_zip_with, Hb, Hs.
  - f_equal. eapply (c_once _ Hi); [exact Hsb|by apply (c_cache _ Hi)].
Qed.

(** ** Administration *)

Section Admin.
Variable sha256 : string -> string.

Lemma clear_route_destinations_step broker queue (l : list RouteConfig) ds :
  let r := foldl (fun ds r => if negb (bool_decide (ro_broker r = broker)) then ds
      else let d := mkDestination (ro_exchange r) (replace_queue (ro_routing_key r) queue) in if decide (d ∈ ds) then ds else ds ++ [d]) ds l in
  forall d, d ∈ r <-> d ∈ ds \/ exists x, x ∈ l /\ ro_broker x = broker /\ d = mkDestination (ro_exchange x) (replace_queue (ro_routing_key x) queue).
Proof.
  revert ds. induction l as [|x l IH]; intros ds; cbn [foldl]; cbn zeta; intros d; [set_solver|]. rewrite (IH _ d).
  case_bool_decide as Hb; cbn [negb]; [|set_solver]. case_decide; set_solver.
Qed.

Lemma clear_buckets_purges a plan d bs i purged n out :
  clear_buckets sha256 a plan d bs i purged = Ok (n, out) ->
  purged ⊆ out /\ forall b spec, b ∈ bs -> queue_for sha256 plan d b = Ok spec ->
    q_name spec ∈ out \/ exists j e, pa_purge a j (q_name spec) = Err e /\ te_kind e = Protocol.
Proof.
  revert i purged. induction bs as [|b bs IH]; intros i purged; cbn; [intros [= <- <-]; split; [done|set_solver]|].
  destruct (queue_for sha256 plan d b) as [spec|] eqn:Hq.
  - destruct (pa_channel a i); [|done]. destruct (pa_purge a i (q_name spec)) as [[]|e] eqn:Hp.
    + intros [H1 H2]%IH. split; [set_solver|]. intros b' spec' [->|Hb]%elem_of_cons Hs; [|by eapply H2]. rewrite Hq in Hs. injection Hs as <-. left. apply H1, elem_of_app. right. by left.
    + case_decide as He; [|done]. intros [H1 H2]%IH. split; [done|]. intros b' spec' [->|Hb]%elem_of_cons Hs; [|by eapply H2].
      rewrite Hq in Hs. injection Hs as <-. right. eauto.
  - intros [H1 H2]%IH. split; [done|]. intros b' spec' [->|Hb]%elem_of_cons Hs; [congruence|by eapply H2].
Qed.

Lemma clear_destinations_purges a plan ds i purged n out :
  clear_destinations sha256 a plan ds i purged = Ok (n, out) ->
  purged ⊆ out /\ forall d b spec, d ∈ ds -> b ∈ buckets plan -> queue_for sha256 plan d b = Ok spec ->
    q_name spec ∈ out \/ exists j e, pa_purge a j (q_name spec) = Err e /\ te_kind e = Protocol.
Proof.
  revert i purged. induction ds as [|d ds IH]; intros i purged; cbn; [intros [= <- <-]; split; [done|set_solver]|].
  destruct (clear_buckets _ _ _ _ _ _ _) as [[j out1]|] eqn:Hb; [|done]. cbn. apply clear_buckets_purges in Hb as [H1 H2].
  intros [H3 H4]%IH. split; [set_solver|]. intros d' b spec [->|Hd]%elem_of_cons Hin Hs; [|by eapply H4].
  destruct (H2 _ _ Hin Hs) as [?|?]; [left; set_solver|by right].
Qed.

(** A delay and its bucket have the same queue. *)
Lemma queue_for_bucket plan d delay spec :
  plan_ok plan -> queue_for sha256 plan d delay = Ok spec -> exists b, b ∈ buckets plan /\ queue_for sha256 plan d b = Ok spec.
Proof.
  intros [Hs _] H. unfold queue_for in H. destruct (bucket_for plan delay) as [b|] eqn:Hb; [|done]. exists b.
  destruct (bucket_for_elem _ _ _ Hb) as [Hin _]. split; [done|]. unfold queue_for.
  assert (bucket_for plan b = Ok b) as ->; [|done]. unfold bucket_for. pose proof (find_first_le b _ Hs) as Hf.
  destruct (find _ _) as [b'|]; [|specialize (Hf _ Hin); lia]. destruct Hf as (_ & H1 & H2). f_equal. specialize (H2 _ Hin). lia.
Qed.

Lemma compiled_plan_ok c plan : strategy_compile c = TtlBuckets plan -> plan_ok plan.
Proof.
  unfold strategy_compile. pose proof (plan_compile_spec c) as H. destruct (dc_mode c), (plan_compile c); try done. intros [= <-]. by destruct H as (_ & _ & _ & ? & _).
Qed.

(** Clearing a queue in TTL mode: every bucket queue in which a deferred message for
    the queue can wait, whether published through a route of the broker or released
    with a delay by a consumer, was purged, or the broker answered that it does not
    exist. *)
Theorem clear_route_complete a plan broker queue purged :
  strategy_compile (v_delay v) = TtlBuckets plan -> clear_route sha256 v true a broker queue = Ok purged ->
  queue ∈ purged /\
  forall d delay_ms r q,
    (d = mkDestination queue queue \/ exists x, x ∈ (v_routes v).*2 /\ ro_broker x = broker /\ d = mkDestination (ro_exchange x) (replace_queue (ro_routing_key x) queue)) ->
    DelayRouting.route sha256 (TtlBuckets plan) d delay_ms = Ok r -> dr_queue r = Some q ->
    q_name q ∈ purged \/ exists j e, pa_purge a j (q_name q) = Err e /\ te_kind e = Protocol.
Proof.
  intros Hs Hc. pose proof (compiled_plan_ok _ _ Hs) as Hok. unfold clear_route in Hc. destruct (on_channel _ _ _); [|done]. rewrite Hs in Hc.
  destruct (clear_destinations _ _ _ _ _ _) as [[n out]|] eqn:Hd; [|done]. injection Hc as <-. apply clear_destinations_purges in Hd as [H1 H2].
  split; [cbn; set_solver|]. intros d delay_ms r q Hdest Hr Hq. unfold DelayRouting.route in Hr. destruct (ok_or _ _); [|done].
  destruct (queue_for sha256 plan d (from_millis _)) as [spec|] eqn:Hqf; [|done]. injection Hr as <-. injection Hq as <-.
  destruct (queue_for_bucket _ _ _ _ Hok Hqf) as (b & Hb & Hqb). eapply H2; [|done..].
  apply clear_route_destinations_step. destruct Hdest as [->|(x & Hx & Hbr & ->)]; [left; set_solver|right; eauto].
Qed.

End Admin.

End Theorems.

(** ** A run *)

(** Two brokers, and a worker with a subscription on each. *)
Definition duo : ValidatedConfig :=
  mkValidated [ConfigValid.sample_broker "main" ConfigValid.sample_hosts; ConfigValid.sample_broker "backup" ConfigValid.sample_hosts]
    (ConfigValid.sample_workers [ConfigValid.sample_sub "high" "main"; ConfigValid.sample_sub "low" "backup"; ConfigValid.sample_sub "bulk" "main"]) ModeDeclare
    [("default", mkRoute "main" "laravel.jobs" "{queue}")]
    (mkDelayConfig Ttl [from_secs 1; from_secs 5] 8 (from_secs 60)) None None
    (mkPublisherSection Safe true true (from_secs 30) (from_millis 1)) (mkConsumerSection (from_secs 30) (Some 20))
    Quorum true "".

Definition go (t : nat) (n : nat) : list Event := replicate n (EStep t AnsNone).

(** Two calls race for the publisher of a broker, the loser waits for the winner. *)
Definition race : list Event :=
  [ECall 0 (TPublisher "main" PbBegin); ECall 1 (TPublisher "main" PbBegin)] ++ go 0 2 ++ go 1 1 ++ go 0 5.

Definition published : list Event := race ++ go 0 2 ++ [EStep 0 (AnsPublisher (Some 7%nat))] ++ go 0 1 ++ go 1 2.

(** A consumer on both brokers, then a second call for it. *)
Definition consumed : list Event :=
  published ++ [ECall 2 (TConsumer "emails" KsBegin)] ++ go 2 9 ++ [EState 0 (Ready 1); EState 1 (Ready 1)] ++ go 2 3 ++ [EStep 2 (AnsSet (Ok (3%nat, 1)))] ++
  go 2 2 ++ [EStep 2 (AnsSet (Ok (4%nat, 1)))] ++ go 2 1 ++ [ECall 3 (TConsumer "emails" KsBegin)] ++ go 3 1.

Definition closed : list Event := consumed ++ go 3 1 ++ [ECall 4 (TClose ClBegin)] ++ go 4 2 ++ [EStep 4 (AnsClose None)] ++ go 4 2 ++
  replicate 2 (EStep 4 (AnsClose None)) ++ go 4 2 ++ [EStep 4 (AnsClose None)] ++ go 4 2.

Definition duo_state (es : list Event) : World := default init (run duo es init).

Lemma run_reaches v es : forall w w', reach v w -> run v es w = Some w' -> reach v w'.
Proof.
  induction es as [|e es IH]; intros w w' Hr H; cbn in H; [by simplify_eq|]. apply bind_Some in H as (w1 & H1 & H2).
  eapply IH; [|done]. by eapply reach_step.
Qed.

Lemma duo_reach es : bool_decide (is_Some (run duo es init)) = true -> reach duo (duo_state es).
Proof. intros [w E]%bool_decide_eq_true. unfold duo_state. rewrite E. eapply run_reaches; [apply reach_init|exact E]. Qed.

Lemma one_of_each_witness :
  exists p q, tasks (duo_state published) !! 0%nat = Some (TGot KPublisher "main" (Ok p)) /\
    tasks (duo_state published) !! 1%nat = Some (TGot KPublisher "main" (Ok q)) /\ p = q.
Proof.
  exists 7%nat, 7%nat. split; [vm_compute; reflexivity|]. split; [vm_compute; reflexivity|].
  refine (proj2 (one_of_each duo (duo_state published) _) 0%nat 1%nat "main"%string 7%nat 7%nat _ _).
  - apply duo_reach. vm_compute. reflexivity.
  - vm_compute. reflexivity.
  - vm_compute. reflexivity.
Defined.

Lemma close_leaves_nothing_witness :
  coords (duo_state closed) = [mkCoord "main" (Ready 1) true; mkCoord "backup" (Ready 1) true] /\ 7%nat ∈ closed_publishers (duo_state closed).
Proof.
  split; [vm_compute; reflexivity|]. refine (proj2 (close_leaves_nothing duo (duo_state closed) _ _ _ _) "main"%string 7%nat _).
  - apply duo_reach. vm_compute. reflexivity.
  - vm_compute. reflexivity.
  - assert (H : map_Forall (fun _ x => finished x = true) (tasks (duo_state closed))) by (apply (bool_decide_unpack _); vm_compute; exact I).
    exact H.
  - intros k id H. apply list_elem_of_In in H. vm_compute in H. by repeat destruct H as [H|H].
  - apply list_elem_of_In. vm_compute. tauto.
Defined.

Lemma initializers_never_deadlock_witness : exists u a w', step duo (EStep u a) (duo_state race) = Some w'.
Proof. apply (initializers_never_deadlock duo (duo_state race) 1%nat (TPublisher "main" (PbWait 1))); vm_compute; reflexivity. Defined.

Lemma consumer_composed_witness :
  exists h worker, handles (duo_state consumed) !! 0%nat = Some h /\ worker_brokers worker = ["main"; "backup"]%string /\
    Forall2 (source_of (duo_state consumed)) (worker_brokers worker) (cs_sources h).
Proof.
  destruct (consumer_composed duo (duo_state consumed) 2%nat "emails" 0%nat) as (h & worker & H1 & H2 & (l & l' & H3) & H4 & H5 & _).
  - apply duo_reach. vm_compute. reflexivity.
  - vm_compute. reflexivity.
  - exists h, worker. split; [exact H1|]. split; [|exact H5]. unfold RecoveryCoordinator.request in H3. vm_compute in H3. injection H3 as <- _. reflexivity.
Defined.

Lemma cached_consumer_current_witness :
  exists h, handles (duo_state consumed) !! 0%nat = Some h /\ length (cs_sources h) = 2%nat /\
    forall s, s ∈ cs_sources h -> state_of (so_coord s) (duo_state consumed) = Ready (so_generation s).
Proof.
  destruct (Config.worker duo "emails") as [worker|] eqn:E; [|vm_compute in E; discriminate E].
  destruct (cached_consumer_current duo (duo_state consumed) 3%nat "emails" 1 worker 0%nat (Some 0%nat) (duo_state consumed)) as (_ & _ & h & H1 & _ & _ & H2).
  - apply duo_reach. vm_compute. reflexivity.
  - left. vm_compute in E. injection E as <-. vm_compute. reflexivity.
  - vm_compute in E. injection E as <-. unfold keep_or_evict. replace (default false _) with true; [reflexivity|vm_compute; reflexivity].
  - exists h. split; [exact H1|]. split; [vm_compute in H1; injection H1 as <-; reflexivity|exact H2].
Defined.

(** A broker on which every purge succeeds but for one missing bucket queue. *)
Definition purge_all : PurgeAnswers :=
  mkPurgeAnswers (fun _ => Ok tt) (fun i _ => if (i =? 2)%nat then Err (te_new Protocol "no queue") else Ok tt).

Definition duo_plan : TtlBucketPlan := mkTtlBucketPlan [from_secs 1; from_secs 5] (from_secs 60).

Lemma clear_route_complete_witness :
  exists purged, clear_route toy_digest duo true purge_all "main" "jobs" = Ok purged /\ length purged = 4%nat /\ "jobs"%string ∈ purged.
Proof.
  eexists. split; [vm_compute; reflexivity|]. split; [reflexivity|].
  eapply (proj1 (clear_route_complete duo toy_digest purge_all duo_plan "main" "jobs" _ ltac:(vm_compute; reflexivity) ltac:(vm_compute; reflexivity))).
Defined.

(** A call that looked up a handle before another call replaced it removes the
    replacement from the cache: [consumer_if_fresh] removes by profile. *)
Definition stale_eviction : list Event :=
  consumed ++ [EState 0 (Ready 2); EState 1 (Ready 2); ECall 5 (TConsumer "emails" KsBegin)] ++ go 5 9 ++ [EStep 5 (AnsSet (Ok (5%nat, 2)))] ++
  go 5 2 ++ [EStep 5 (AnsSet (Ok (6%nat, 2)))] ++ go 5 1.

Example eviction_removes_fresh_handle :
  consumers (duo_state stale_eviction) !! "emails"%string = Some 1%nat /\
  (forall h x, handles (duo_state stale_eviction) !! 1%nat = Some h -> Config.worker duo "emails" = Some x -> fresh x h (duo_state stale_eviction) = true) /\
  consumers (duo_state (stale_eviction ++ go 3 1)) !! "emails"%string = None.
Proof.
  split; [vm_compute; reflexivity|]. split; [|vm_compute; reflexivity]. intros h x H1 H2. vm_compute in H1, H2. injection H1 as <-. injection H2 as <-.
  vm_compute. reflexivity.
Qed.

End ClientPoolTheorems.
