(* ===== verification/PhpConversion.v ===== *)
(** * The conversion of PHP values

    Models [conversion.rs] of the PHP extension: configurations and publications given
    as PHP arrays. A PHP value is a [Zval] over a memory of arrays and reference
    cells, so that arrays can be shared and, through references, contain themselves.
    Iteration order is the order of the array; [get] looks a key up. Doubles are the
    bits of an IEEE-754 binary64. *)

From stdpp Require Import pretty.
From Stdlib Require Import Ascii.
From S2P Require Import Prelude Transport Publication DelayTopology DelayRouting.
Import Transport Publication DelayTopology DelayRouting.
Local Open Scope Z_scope.
Local Open Scope rabbit_scope.

Module PhpConversion.

(** ** PHP values *)

Inductive Key := KLong (i : Z) | KStr (s : string).

(** [ZOther]: objects, resources and callables. *)
Inductive Zval :=
| ZNull
| ZBool (b : bool)
| ZLong (i : Z)
| ZDouble (bits : Z)
| ZString (s : string)
| ZArray (address : nat)
| ZRef (cell : nat)
| ZOther.

Abbreviation Table := (list (Key * Zval)).

Record Memory := mkMemory { table : nat -> Table; cell : nat -> Zval }.

Definition dereference (m : Memory) (z : Zval) : Zval := match z with ZRef r => cell m r | _ => z end.

Fixpoint get (t : Table) (key : string) : option Zval :=
  match t with
  | [] => None
  | (KStr k, z) :: t' => if String.eqb k key then Some z else get t' key
  | _ :: t' => get t' key
  end.

(** [std::str::from_utf8] accepts these bytes: no overlong form, no surrogate, at most
    U+10FFFF. *)
Fixpoint utf8 (bytes : list Z) : bool :=
  let cont b := (128 <=? b) && (b <=? 191) in
  match bytes with
  | [] => true
  | b :: rest =>
      if b <=? 127 then utf8 rest
      else if (194 <=? b) && (b <=? 223) then
        match rest with c1 :: rest => cont c1 && utf8 rest | _ => false end
      else if (224 <=? b) && (b <=? 239) then
        match rest with
        | c1 :: c2 :: rest =>
            (if b =? 224 then 160 <=? c1 else true) && (if b =? 237 then c1 <=? 159 else true) && cont c1 && cont c2 && utf8 rest
        | _ => false
        end
      else if (240 <=? b) && (b <=? 244) then
        match rest with
        | c1 :: c2 :: c3 :: rest =>
            (if b =? 240 then 144 <=? c1 else true) && (if b =? 244 then c1 <=? 143 else true) && cont c1 && cont c2 && cont c3 && utf8 rest
        | _ => false
        end
      else false
  end.

Definition valid_utf8 (s : string) : bool := utf8 (Z.of_nat ∘ nat_of_ascii <$> String.list_ascii_of_string s).

(** [Zval::str] *)
Definition str (z : Zval) : option string :=
  match z with ZString s => if valid_utf8 s then Some s else None | _ => None end.

Definition is_list (t : Table) : bool :=
  forallb (fun x => match x.2.1 with KLong i => i =? (if x.1 <=? I64_MAX then x.1 else I64_MAX) | KStr _ => false end)
    (imap (fun i x => (Z.of_nat i, x)) t).

Definition string_key (key : Key) (path : string) : result string string :=
  match key with
  | KStr s => if valid_utf8 s then Ok s else Err (path +:+ ": array keys must be valid UTF-8 strings")
  | KLong i => Err (path +:+ "." +:+ pretty i +:+ ": associative configuration arrays require string keys")
  end.

(** ** Configurations *)

(** [serde_json::Value] *)
Inductive Json :=
| JNull
| JBool (b : bool)
| JInt (i : Z)
| JFloat (bits : Z)
| JString (s : string)
| JArray (l : list Json)
| JObject (l : list (string * Json)).

Definition MAX_CONFIG_DEPTH : nat := 64.

Section Config.
Variable m : Memory.

(** The conversion of the elements of an array, in order; [f] converts one. *)
Fixpoint elements (f : Zval -> string -> gset nat -> result (Json * gset nat) string) (path : string) (i : nat) (t : Table) (active : gset nat)
  : result (list Json * gset nat) string :=
  match t with
  | [] => Ok ([], active)
  | (_, z) :: t' =>
      let? r := f z (path +:+ "." +:+ pretty (Z.of_nat i)) active in
      let? rest := elements f path (S i) t' r.2 in
      Ok (r.1 :: rest.1, rest.2)
  end.

Fixpoint members (f : Zval -> string -> gset nat -> result (Json * gset nat) string) (path : string) (t : Table) (active : gset nat)
  : result (list (string * Json) * gset nat) string :=
  match t with
  | [] => Ok ([], active)
  | (k, z) :: t' =>
      let? key := string_key k path in
      let? r := f z (path +:+ "." +:+ key) active in
      let? rest := members f path t' r.2 in
      Ok ((key, r.1) :: rest.1, rest.2)
  end.

(** [array_value], given the conversion of its elements. [active] are the arrays that
    are being converted. *)
Definition array_with (f : Zval -> string -> gset nat -> result (Json * gset nat) string) (address : nat) (path : string) (active : gset nat)
  : result (Json * gset nat) string :=
  if decide (address ∈ active) then Err (path +:+ ": recursive arrays are unsupported")
  else
    let active := {[address]} ∪ active in
    let t := table m address in
    let? r :=
      (if is_list t then let? r := elements f path 0 t active in Ok (JArray r.1, r.2)
       else let? r := members f path t active in Ok (JObject r.1, r.2)) in
    Ok (r.1, r.2 ∖ {[address]}).

(** [value]; [levels] is the number of levels that are left: the depth is
    [MAX_CONFIG_DEPTH + 1 - levels]. *)
Fixpoint value (levels : nat) (input : Zval) (path : string) (active : gset nat) : result (Json * gset nat) string :=
  match levels with
  | O => Err (path +:+ ": maximum nesting depth exceeded")
  | S levels =>
      match dereference m input with
      | ZNull => Ok (JNull, active)
      | ZBool b => Ok (JBool b, active)
      | ZLong i => Ok (JInt i, active)
      | ZDouble bits =>
          if is_finite bits then Ok (JFloat bits, active) else Err (path +:+ ": non-finite floating-point value is unsupported")
      | ZString s => if valid_utf8 s then Ok (JString s, active) else Err (path +:+ ": configuration strings must be valid UTF-8")
      | ZArray a => array_with (value levels) a path active
      | ZRef _ | ZOther => Err (path +:+ ": resources, objects, and callable values are unsupported")
      end
  end.

(** [array_value] at depth 0. *)
Definition array_value (address : nat) (path : string) : result Json string :=
  let? r := array_with (value MAX_CONFIG_DEPTH) address path ∅ in Ok r.1.

End Config.

(** *** [pin_single_broker] *)

Fixpoint assoc {A} (key : string) (l : list (string * A)) : option A :=
  match l with
  | [] => None
  | (k, v) :: l' => if String.eqb k key then Some v else assoc key l'
  end.

(** [Value::get], [as_array], [as_str] *)
Definition j_get (key : string) (v : Json) : option Json := match v with JObject l => assoc key l | _ => None end.
Definition j_array (v : Json) : option (list Json) := match v with JArray l => Some l | _ => None end.
Definition j_str (v : Json) : option string := match v with JString s => Some s | _ => None end.

Definition sole_broker (config : Json) : option string :=
  match j_get "brokers" config ≫= j_array with
  | Some [b] => j_get "name" b ≫= j_str
  | _ => None
  end.

(** The value under a key is changed in place. *)
Definition j_update (key : string) (f : Json -> Json) (v : Json) : Json :=
  match v with JObject l => JObject ((fun x => if String.eqb x.1 key then (x.1, f x.2) else x) <$> l) | _ => v end.

Definition j_map (f : Json -> Json) (v : Json) : Json := match v with JArray l => JArray (f <$> l) | _ => v end.

Definition pin_subscription (name : string) (s : Json) : Json :=
  match s with
  | JObject l => match assoc "broker" l with Some _ => s | None => JObject (l ++ [("broker", JString name)]) end
  | _ => s
  end.

Definition pin_single_broker (config : Json) : Json :=
  match sole_broker config with
  | None => config
  | Some name => j_update "workers" (j_map (j_update "subscriptions" (j_map (pin_subscription name)))) config
  end.

(** ** Publications *)

Definition MAX_BATCH_MESSAGES : Z := 256.
Definition MAX_BATCH_PAYLOAD_BYTES : Z := 1024 * 1024.
Definition MAX_HEADER_ENTRIES : Z := 128.
Definition MAX_HEADER_BYTES : Z := 64 * 1024.
Definition MAX_TIMEOUT_MS : Z := 86400000.

Record ConversionBudget := mkBudget { payload_bytes : Z; header_entries : Z; header_bytes : Z }.

Definition budget_default : ConversionBudget := mkBudget 0 0 0.

(** [usize::checked_add] *)
Definition checked_add (a b : Z) : option Z := if a + b <=? U64_MAX then Some (a + b) else None.

Definition add_payload (path : string) (bytes : Z) (b : ConversionBudget) : result ConversionBudget string :=
  let? total := ok_or (checked_add (payload_bytes b) bytes) (path +:+ ": payload size overflow") in
  if MAX_BATCH_PAYLOAD_BYTES <? total then Err (path +:+ ": cumulative payload exceeds the 1048576 byte limit")
  else Ok (mkBudget total (header_entries b) (header_bytes b)).

Definition add_headers (parent_path : string) (entries : Z) (b : ConversionBudget) : result ConversionBudget string :=
  let? total := ok_or (checked_add (header_entries b) entries) (parent_path +:+ ".headers: header count overflow") in
  if MAX_HEADER_ENTRIES <? total then Err (parent_path +:+ ".headers: exceeds the 128 header entry limit")
  else Ok (mkBudget (payload_bytes b) total (header_bytes b)).

Definition add_header_bytes (parent_path : string) (key : option string) (bytes : Z) (b : ConversionBudget) : result ConversionBudget string :=
  let location := match key with Some k => parent_path +:+ ".headers." +:+ k | None => parent_path +:+ ".headers" end in
  let? total := ok_or (checked_add (header_bytes b) bytes) (location +:+ ": header size overflow") in
  if MAX_HEADER_BYTES <? total then Err (location +:+ ": cumulative headers exceed the 65536 byte limit")
  else Ok (mkBudget (payload_bytes b) (header_entries b) total).

Record NativePublish := mkNativePublish { np_broker : string; np_request : PublishRequest }.

Section Publish.
Variable sha256 : string -> string.
Variable m : Memory.

Definition required (t : Table) (key path : string) : result Zval string :=
  ok_or (dereference m <$> get t key) (path +:+ "." +:+ key +:+ ": required field is missing").

Definition required_string (t : Table) (key path : string) : result string string :=
  let? z := required t key path in
  ok_or (str z) (path +:+ "." +:+ key +:+ ": expected a valid UTF-8 string").

Definition optional_string (t : Table) (key path : string) : result (option string) string :=
  match dereference m <$> get t key with
  | None | Some ZNull => Ok None
  | Some z => let? s := ok_or (str z) (path +:+ "." +:+ key +:+ ": expected a valid UTF-8 string or null") in Ok (Some s)
  end.

Definition required_payload (t : Table) (path : string) (b : ConversionBudget) : result (string * ConversionBudget) string :=
  let? z := required t "payload" path in
  match z with
  | ZString s => let? b := add_payload (path +:+ ".payload") (Z.of_nat (String.length s)) b in Ok (s, b)
  | _ => Err (path +:+ ".payload: expected a binary PHP string")
  end.

(** The integer is an [i64]. *)
Definition optional_non_negative_integer (t : Table) (key path : string) : result (option Z) string :=
  let invalid := path +:+ "." +:+ key +:+ ": expected a non-negative integer" in
  match dereference m <$> get t key with
  | None | Some ZNull => Ok None
  | Some (ZLong i) => let? i := ok_or (try_from U64_MAX i) invalid in Ok (Some i)
  | Some _ => Err invalid
  end.

Definition header_value (input : Zval) (path parent_path key : string) (b : ConversionBudget) : result (HeaderValue * ConversionBudget) string :=
  match dereference m input with
  | ZNull => Ok (Void, b)
  | ZBool x => let? b := add_header_bytes parent_path (Some key) 1 b in Ok (Boolean x, b)
  | ZLong i => let? b := add_header_bytes parent_path (Some key) 8 b in Ok (Integer i, b)
  | ZDouble bits =>
      if is_finite bits then let? b := add_header_bytes parent_path (Some key) 8 b in Ok (Double bits, b)
      else Err (path +:+ ": non-finite floating-point value is unsupported")
  | ZString s => let? b := add_header_bytes parent_path (Some key) (Z.of_nat (String.length s)) b in Ok (Binary s, b)
  | ZArray _ => Err (path +:+ ": nested arrays are unsupported; headers must be flat")
  | ZRef _ | ZOther => Err (path +:+ ": expected null, bool, int, finite float, or string")
  end.

(** The headers one by one, into the sorted map. *)
Fixpoint header_entries_of (path : string) (t : Table) (out : Headers) (b : ConversionBudget) : result (Headers * ConversionBudget) string :=
  match t with
  | [] => Ok (out, b)
  | (k, z) :: t' =>
      let? key :=
        match k with
        | KStr s => if valid_utf8 s then Ok s else Err (path +:+ ".headers: key must be valid UTF-8")
        | KLong i => Err (path +:+ ".headers." +:+ pretty i +:+ ": integer keys are unsupported")
        end in
      let? b := add_header_bytes path None (Z.of_nat (String.length key)) b in
      let? r := header_value z (path +:+ ".headers." +:+ key) path key b in
      header_entries_of path t' (headers_insert out key r.1) r.2
  end.

Definition optional_headers (t : Table) (path : string) (b : ConversionBudget) : result (Headers * ConversionBudget) string :=
  match dereference m <$> get t "headers" with
  | None | Some ZNull => Ok ([], b)
  | Some (ZArray a) =>
      let? b := add_headers path (Z.of_nat (length (table m a))) b in
      header_entries_of path (table m a) [] b
  | Some _ => Err (path +:+ ".headers: expected an associative array")
  end.

Fixpoint reject_unknown_keys (t : Table) (path : string) (allowed : list string) : result unit string :=
  match t with
  | [] => Ok tt
  | (k, _) :: t' =>
      let? key := string_key k path in
      if decide (key ∈ allowed) then reject_unknown_keys t' path allowed else Err (path +:+ "." +:+ key +:+ ": unknown field")
  end.

Definition publish_keys : list string :=
  ["broker"; "exchange"; "routing_key"; "payload"; "message_id"; "content_type"; "correlation_id"; "headers"; "delay_ms"; "timeout_ms"].

Definition validate_delay (properties : MessageProperties) (d : Destination) (path : string) (strategy : DelayStrategy) : result unit string :=
  match mp_delay_ms properties with
  | None => Ok tt
  | Some delay =>
      if delay =? 0 then Ok tt
      else if I64_MAX <? delay then Err (path +:+ ".delay_ms: delay exceeds the supported range")
      else let? _ := map_err (fun e => path +:+ ".delay_ms: " +:+ e) (route sha256 strategy d delay) in Ok tt
  end.

(** The largest [Instant]: seconds are an [i64]. *)
Definition INSTANT_MAX : Z := I64_MAX * NANOS_PER_SEC + 999999999.

(** [publish_with_budget] at the instant [now]. *)
Definition publish_with_budget (t : Table) (path : string) (strategy : DelayStrategy) (now : Z) (b : ConversionBudget)
  : result (NativePublish * ConversionBudget) string :=
  let? _ := reject_unknown_keys t path publish_keys in
  let? broker := required_string t "broker" path in
  let? exchange := required_string t "exchange" path in
  let? routing_key := required_string t "routing_key" path in
  let? message_id := required_string t "message_id" path in
  if String.eqb message_id "" then Err (path +:+ ".message_id: must not be empty")
  else
    let? payload := required_payload t path b in
    let? timeout := optional_non_negative_integer t "timeout_ms" path in
    let timeout_ms := default 30000 timeout in
    if timeout_ms =? 0 then Err (path +:+ ".timeout_ms: must be greater than zero")
    else if MAX_TIMEOUT_MS <? timeout_ms then Err (path +:+ ".timeout_ms: exceeds the 86400000 millisecond limit")
    else
      let deadline := now + from_millis timeout_ms in
      if INSTANT_MAX <? deadline then Err (path +:+ ".timeout_ms: deadline overflow")
      else
        let? content_type := optional_string t "content_type" path in
        let? correlation_id := optional_string t "correlation_id" path in
        let? delay_ms := optional_non_negative_integer t "delay_ms" path in
        let? headers := optional_headers t path payload.2 in
        let properties := mkMessageProperties message_id content_type correlation_id delay_ms headers.1 in
        let destination := mkDestination exchange routing_key in
        let? _ := validate_delay properties destination path strategy in
        Ok (mkNativePublish broker (mkPublishRequest destination payload.1 properties deadline), headers.2).

Definition publish (t : Table) (path : string) (strategy : DelayStrategy) (now : Z) : result NativePublish string :=
  let? r := publish_with_budget t path strategy now budget_default in Ok r.1.

(** The messages of a batch, each at its instant. *)
Fixpoint batch_messages (strategy : DelayStrategy) (clock : nat -> Z) (i : nat) (t : Table) (b : ConversionBudget)
  : result (list NativePublish * ConversionBudget) string :=
  match t with
  | [] => Ok ([], b)
  | (_, z) :: t' =>
      let path := "messages[" +:+ pretty (Z.of_nat i) +:+ "]" in
      let? message := match dereference m z with ZArray a => Ok (table m a) | _ => Err (path +:+ ": expected an array") end in
      let? r := publish_with_budget message path strategy (clock i) b in
      let? rest := batch_messages strategy clock (S i) t' r.2 in
      Ok (r.1 :: rest.1, rest.2)
  end.

Definition publish_batch (t : Table) (strategy : DelayStrategy) (clock : nat -> Z) : result (list NativePublish) string :=
  if negb (is_list t) then Err "messages: publishBatch expects a list"
  else if MAX_BATCH_MESSAGES <? Z.of_nat (length t) then Err "messages: exceeds the 256 message limit"
  else let? r := batch_messages strategy clock 0 t budget_default in Ok r.1.

End Publish.

End PhpConversion.
