(* ===== verification/PhpConversionSpec.v ===== *)
(** * Theorems about the conversion of PHP values

    A configuration array is accepted exactly when it unfolds to a finite tree of at
    most 64 levels without unsupported values; shared arrays are not mistaken for
    recursive ones. Accepted batches keep to their limits and are routable. *)

From stdpp Require Import pretty.
From S2P Require Import Prelude Transport Publication DelayTopology DelayRouting PhpConversion.
Import Transport Publication DelayTopology DelayRouting PhpConversion.
Local Open Scope Z_scope.
Local Open Scope rabbit_scope.

Module PhpConversionSpec.

(** ** The tree of a value *)

Fixpoint size (v : Json) : nat :=
  match v with
  | JArray l => S (foldr (fun x n => size x + n)%nat 0%nat l)
  | JObject l => S (foldr (fun x n => size x.2 + n)%nat 0%nat l)
  | _ => 1
  end.

(** The deepest level of the tree, the root being level 0. *)
Fixpoint height (v : Json) : nat :=
  match v with
  | JArray l => foldr (fun x n => Nat.max (S (height x)) n) 0%nat l
  | JObject l => foldr (fun x n => Nat.max (S (height x.2)) n) 0%nat l
  | _ => 0
  end.

Lemma size_element v l : v ∈ l -> (size v < size (JArray l))%nat.
Proof. induction 1 as [l|x l Hx IH]; cbn in *; lia. Qed.

Lemma size_member k v l : (k, v) ∈ l -> (size v < size (JObject l))%nat.
Proof. intros H. remember (k, v) as x eqn:E. revert E. induction H as [y l|x y l Hx IH]; intros E; subst; cbn in *; [lia|]. specialize (IH eq_refl). lia. Qed.

Lemma height_array l n : (height (JArray l) < S n)%nat <-> Forall (fun v => height v < n)%nat l.
Proof.
  induction l as [|v l IH]; cbn in *; [split; [constructor|lia]|]. rewrite Forall_cons, <- IH. lia.
Qed.

Lemma height_object l n : (height (JObject l) < S n)%nat <-> Forall (fun x => height x.2 < n)%nat l.
Proof.
  induction l as [|v l IH]; cbn in *; [split; [constructor|lia]|]. rewrite Forall_cons, <- IH. lia.
Qed.

Lemma Forall2_and_r {A B} (P : A -> B -> Prop) (Q : B -> Prop) l k : Forall2 P l k -> Forall Q k -> Forall2 (fun x y => P x y /\ Q y) l k.
Proof. induction 1; intros Hq; [constructor|]. apply Forall_cons in Hq as [? ?]. constructor; auto. Qed.

Section Unfold.
Variable m : Memory.

(** The tree of a value, unfolded for at most [n] levels: no recursion check, no error
    messages. *)
Fixpoint unfolds (n : nat) (z : Zval) : option Json :=
  match n with
  | O => None
  | S n =>
      match dereference m z with
      | ZNull => Some JNull
      | ZBool b => Some (JBool b)
      | ZLong i => Some (JInt i)
      | ZDouble bits => if is_finite bits then Some (JFloat bits) else None
      | ZString s => if valid_utf8 s then Some (JString s) else None
      | ZArray a =>
          if is_list (table m a) then JArray <$> mapM (fun x => unfolds n x.2) (table m a)
          else JObject <$> mapM (fun x => match x.1 with KStr s => if valid_utf8 s then pair s <$> unfolds n x.2 else None | _ => None end) (table m a)
      | ZRef _ | ZOther => None
      end
  end.

Definition member (n : nat) (x : Key * Zval) : option (string * Json) :=
  match x.1 with KStr s => if valid_utf8 s then pair s <$> unfolds n x.2 else None | _ => None end.

(** Enough levels give the tree, whatever their number. *)
Lemma unfolds_enough n n' z v : unfolds n z = Some v -> (height v < n')%nat -> unfolds n' z = Some v.
Proof.
  revert n' z v. induction n as [|n IH]; intros n' z v H Hh; [done|]. destruct n' as [|n']; [lia|].
  cbn in *. destruct (dereference m z); try done. destruct (is_list _).
  - apply fmap_Some in H as (l & H & ->). rewrite height_array in Hh. apply mapM_Some in H.
    assert (mapM (fun x => unfolds n' x.2) (table m address) = Some l) as ->; [|done]. apply mapM_Some.
    eapply Forall2_impl; [exact (Forall2_and_r _ _ _ _ H Hh)|]. intros x y [H1 H2]. auto.
  - apply fmap_Some in H as (l & H & ->). rewrite height_object in Hh. apply mapM_Some in H.
    assert (mapM (member n') (table m address) = Some l) as E; [|unfold member in E; by rewrite E]. apply mapM_Some.
    eapply Forall2_impl; [exact (Forall2_and_r _ _ _ _ H Hh)|]. unfold member. intros [[|s] w] y [H1 H2]; cbn in *; [done|].
    destruct (valid_utf8 s); [|done]. apply fmap_Some in H1 as (u & H1 & ->). cbn in H2. by rewrite (IH n' _ _ H1 H2).
Qed.

Lemma unfolds_height n z v : unfolds n z = Some v -> (height v < n)%nat.
Proof.
  revert z v. induction n as [|n IH]; intros z v H; [done|]. cbn in H.
  destruct (dereference m z) as [|b|i|bits|s|a|r|]; [injection H as <-; cbn; lia..| | | |done|done].
  - destruct (is_finite bits); [|done]. injection H as <-. cbn. lia.
  - destruct (valid_utf8 s); [|done]. injection H as <-. cbn. lia.
  - destruct (is_list _).
    + apply fmap_Some in H as (l & H & ->). apply height_array. apply mapM_Some in H. eapply Forall2_Forall_r; [exact H|]. apply Forall_true. intros x y. apply IH.
    + apply fmap_Some in H as (l & H & ->). apply height_object. apply mapM_Some in H. eapply Forall2_Forall_r; [exact H|]. apply Forall_true. intros [[|s] w] y H1; [done|].
      cbn in H1. destruct (valid_utf8 s); [|done]. apply fmap_Some in H1 as (u & H1 & ->). by eapply IH.
Qed.

Lemma unfolds_det n n' z v v' : unfolds n z = Some v -> unfolds n' z = Some v' -> v = v'.
Proof.
  intros H H'. pose proof (unfolds_height _ _ _ H). assert (unfolds (n + n') z = Some v) by (eapply unfolds_enough; [done|lia]).
  pose proof (unfolds_height _ _ _ H'). assert (unfolds (n + n') z = Some v') by (eapply unfolds_enough; [done|lia]). congruence.
Qed.

(** ** The conversion computes it *)

Lemma elements_sound f g path i t active l active' :
  (forall z p act v act', f z p act = Ok (v, act') -> g z = Some v /\ act' = act) ->
  elements f path i t active = Ok (l, active') -> Forall2 (fun x y => g x.2 = Some y) t l /\ active' = active.
Proof.
  intros Hf. revert i active l active'. induction t as [|[k z] t IH]; intros i active l active' H; cbn in H; [by simplify_eq|].
  destruct (f _ _ _) as [[v act]|] eqn:E; [|done]. destruct (Hf _ _ _ _ _ E) as [H1 ->]. cbn in H.
  destruct (elements _ _ _ _ _) as [[l' act']|] eqn:E'; [|done]. destruct (IH _ _ _ _ E') as [H2 ->]. injection H as <- <-. split; [|done]. by constructor.
Qed.

Lemma members_sound f path t active l active' n :
  (forall z p act v act', f z p act = Ok (v, act') -> unfolds n z = Some v /\ act' = act) ->
  members f path t active = Ok (l, active') -> Forall2 (fun x y => member n x = Some y) t l /\ active' = active.
Proof.
  intros Hf. revert active l active'. induction t as [|[k z] t IH]; intros active l active' H; cbn in H; [by simplify_eq|].
  destruct (string_key k path) as [key|] eqn:Ek; [|done].
  destruct (f _ _ _) as [[v act]|] eqn:E; [|done]. destruct (Hf _ _ _ _ _ E) as [H1 ->]. cbn in H.
  destruct (members _ _ _ _) as [[l' act']|] eqn:E'; [|done]. destruct (IH _ _ _ E') as [H2 ->]. injection H as <- <-. split; [|done].
  constructor; [|done]. unfold member. cbn. destruct k as [|s]; cbn in Ek; [done|]. destruct (valid_utf8 s); simplify_eq/=. by rewrite H1.
Qed.

Lemma array_sound f a path active v active' n :
  (forall z p act v act', f z p act = Ok (v, act') -> unfolds n z = Some v /\ act' = act) ->
  array_with m f a path active = Ok (v, active') -> unfolds (S n) (ZArray a) = Some v /\ active' = active.
Proof.
  intros Hf H. unfold array_with in H. case_decide as Ha; [done|]. cbn.
  assert (Hrest : ({[a]} ∪ active) ∖ {[a]} = active) by set_solver. destruct (is_list _).
  - destruct (elements _ _ _ _ _) as [[l act]|] eqn:E; [|done]. destruct (elements_sound _ (unfolds n) _ _ _ _ _ _ Hf E) as [Hm%mapM_Some ->].
    injection H as <- <-. rewrite Hm. by rewrite Hrest.
  - destruct (members _ _ _ _) as [[l act]|] eqn:E; [|done]. destruct (members_sound _ _ _ _ _ _ n Hf E) as [Hm%mapM_Some ->].
    injection H as <- <-. unfold member in Hm. rewrite Hm. by rewrite Hrest.
Qed.

Lemma value_sound n z path active v active' : value m n z path active = Ok (v, active') -> unfolds n z = Some v /\ active' = active.
Proof.
  revert z path active v active'. induction n as [|n IH]; intros z path active v active' H; [done|]. cbn [value] in H.
  destruct (dereference m z) as [|b|i|bits|s|a|r|] eqn:E; [| | | | | |done|done].
  1-3: injection H as <- <-; cbn [unfolds]; by rewrite E.
  - destruct (is_finite bits) eqn:Eb; [|done]. injection H as <- <-. cbn [unfolds]. by rewrite E, Eb.
  - destruct (valid_utf8 s) eqn:Eb; [|done]. injection H as <- <-. cbn [unfolds]. by rewrite E, Eb.
  - apply (array_sound _ _ _ _ _ _ n) in H as [H ->]; [|exact IH]. split; [|done]. cbn [unfolds] in *. by rewrite E.
Qed.

Lemma elements_complete f g path i t active l :
  mapM (fun x => g x.2) t = Some l ->
  (forall z v p, g z = Some v -> v ∈ l -> f z p active = Ok (v, active)) -> elements f path i t active = Ok (l, active).
Proof.
  revert i l. induction t as [|[k z] t IH]; intros i l H Hf; [by injection H as <-|].
  apply bind_Some in H as (v & H1 & (l' & H2 & [= <-])%bind_Some). cbn.
  rewrite (Hf z v) by (done || left). cbn. rewrite (IH (S i) l' H2); [done|]. intros z' v' p Hz Hv. apply Hf; [done|by right].
Qed.

Lemma members_complete f path t active l n :
  mapM (member n) t = Some l ->
  (forall z k v p, unfolds n z = Some v -> (k, v) ∈ l -> f z p active = Ok (v, active)) -> members f path t active = Ok (l, active).
Proof.
  revert l. induction t as [|[k z] t IH]; intros l H Hf; [by injection H as <-|].
  apply bind_Some in H as (kv & H1 & (l' & H2 & [= <-])%bind_Some). unfold member in H1. cbn in H1. destruct k as [|s]; [done|]. cbn.
  destruct (valid_utf8 s); [|done]. apply fmap_Some in H1 as (v & H1 & ->).
  rewrite (Hf z s v) by (done || left). cbn. rewrite (IH l' H2); [done|]. intros z' k' v' p Hz Hv. eapply Hf; [done|by right].
Qed.

(** The arrays in progress have larger trees: an array in progress is never met again
    in a finite tree. *)
Definition larger (active : gset nat) (v : Json) : Prop :=
  forall b k u, b ∈ active -> unfolds k (ZArray b) = Some u -> (size v < size u)%nat.

Lemma larger_inside active a n v w :
  larger active v -> unfolds n (ZArray a) = Some v -> (size w < size v)%nat -> larger ({[a]} ∪ active) w.
Proof.
  intros Hl Hv Hw b k u [->%elem_of_singleton|Hb]%elem_of_union Hu.
  - by rewrite (unfolds_det _ _ _ _ _ Hu Hv).
  - specialize (Hl _ _ _ Hb Hu). lia.
Qed.

Lemma array_complete f a path active v n :
  (forall z w p act, unfolds n z = Some w -> larger act w -> f z p act = Ok (w, act)) ->
  unfolds (S n) (ZArray a) = Some v -> larger active v -> array_with m f a path active = Ok (v, active).
Proof.
  intros Hf Hv Hl. unfold array_with. rewrite decide_False; [|intros Ha; specialize (Hl _ _ _ Ha Hv); lia].
  assert (Hin := fun w => larger_inside active a _ v w Hl Hv).
  assert (Hrest : ({[a]} ∪ active) ∖ {[a]} = active).
  { assert (a ∉ active) by (intros Ha; specialize (Hl _ _ _ Ha Hv); lia). set_solver. }
  cbn in Hv. destruct (is_list _).
  - apply fmap_Some in Hv as (l & Hv & ->). rewrite (elements_complete _ (unfolds n) path 0 _ ({[a]} ∪ active) l Hv); [cbn; by rewrite Hrest|].
    intros z w p Hz Hw. apply Hf; [done|]. apply Hin. by apply size_element.
  - apply fmap_Some in Hv as (l & Hv & ->). rewrite (members_complete _ path _ ({[a]} ∪ active) l n Hv); [cbn; by rewrite Hrest|].
    intros z k w p Hz Hw. apply Hf; [done|]. apply Hin. by eapply size_member.
Qed.

Lemma value_complete n z path active v : unfolds n z = Some v -> larger active v -> value m n z path active = Ok (v, active).
Proof.
  revert z path active v. induction n as [|n IH]; intros z path active v H Hl; [done|]. cbn [value].
  cbn [unfolds] in H. destruct (dereference m z) as [|b|i|bits|s|a|r|] eqn:E; [| | | | | |done|done].
  1-3: by injection H as <-.
  - destruct (is_finite bits); [|done]. by injection H as <-.
  - destruct (valid_utf8 s); [|done]. by injection H as <-.
  - apply (array_complete _ _ _ _ _ n); [intros; by apply IH|exact H|done].
Qed.

(** C18. A configuration array is accepted exactly when it unfolds to a finite tree, at
    most 64 levels deep, of null, booleans, integers, finite floats, UTF-8 strings,
    lists and string-keyed arrays; the result is that tree. In particular the check
    for recursive arrays rejects no array that merely occurs twice. *)
Theorem config_conversion_exact a path v :
  array_value m a path = Ok v <-> (exists n, unfolds n (ZArray a) = Some v) /\ (height v <= MAX_CONFIG_DEPTH)%nat.
Proof.
  unfold array_value. split.
  - destruct (array_with _ _ _ _ _) as [[v' act]|] eqn:E; [|done]. intros [= <-].
    apply (array_sound _ _ _ _ _ _ MAX_CONFIG_DEPTH) in E as [E _]; [|intros *; apply value_sound]. split; [eauto|].
    apply unfolds_height in E. cbn [fst]. lia.
  - intros [[n Hn] Hh]. rewrite (array_complete _ _ _ _ v MAX_CONFIG_DEPTH); [done| | |intros b k u ?%elem_of_empty; done].
    + intros z w p act. apply value_complete.
    + eapply unfolds_enough; [done|lia].
Qed.

End Unfold.

(** ** Accepted publications *)

(** What the headers weigh in the budget. *)
Definition value_cost (v : HeaderValue) : Z :=
  match v with
  | Boolean _ => 1
  | Integer _ | Double _ => 8
  | Binary s => Z.of_nat (String.length s)
  | _ => 0
  end.

Definition header_cost (x : string * HeaderValue) : Z := Z.of_nat (String.length x.1) + value_cost x.2.

Definition headers_of (p : NativePublish) : Headers := mp_headers (r_properties (np_request p)).
Definition payload_of (p : NativePublish) : Z := Z.of_nat (String.length (r_payload (np_request p))).

Lemma value_cost_nonneg v : 0 <= value_cost v.
Proof. destruct v; cbn; lia. Qed.

Lemma header_cost_nonneg x : 0 <= header_cost x.
Proof. unfold header_cost. pose proof (value_cost_nonneg x.2). lia. Qed.

#[local] Arguments header_cost : simpl never.
#[local] Arguments value_cost : simpl never.

Lemma insert_cost h k v :
  sumZ header_cost (headers_insert h k v) <= sumZ header_cost h + header_cost (k, v) /\
  (length (headers_insert h k v) <= S (length h))%nat.
Proof.
  induction h as [|[k' v'] h IH]; cbn; [rewrite sumZ_cons, sumZ_nil; lia|]. destruct (String.compare k k') eqn:E; rewrite !sumZ_cons; cbn.
  - pose proof (header_cost_nonneg (k', v')). lia.
  - lia.
  - lia.
Qed.

Lemma checked_add_Some a b c : checked_add a b = Some c -> c = a + b.
Proof. unfold checked_add. destruct (_ <=? _); by intros [= <-]. Qed.

Lemma ok_or_Ok {A E} (o : option A) (e : E) a : ok_or o e = Ok a -> o = Some a.
Proof. destruct o; by intros [= <-]. Qed.

Lemma add_payload_ok path n b b' :
  add_payload path n b = Ok b' -> payload_bytes b' = payload_bytes b + n /\ payload_bytes b' <= MAX_BATCH_PAYLOAD_BYTES /\
    header_entries b' = header_entries b /\ header_bytes b' = header_bytes b.
Proof.
  unfold add_payload. destruct (ok_or _ _) as [t|] eqn:E; [|done]. apply ok_or_Ok, checked_add_Some in E. subst.
  destruct (_ <? _) eqn:El; [done|]. intros [= <-]. cbn. apply Z.ltb_ge in El. lia.
Qed.

Lemma add_headers_ok path n b b' :
  add_headers path n b = Ok b' -> header_entries b' = header_entries b + n /\ header_entries b' <= MAX_HEADER_ENTRIES /\
    payload_bytes b' = payload_bytes b /\ header_bytes b' = header_bytes b.
Proof.
  unfold add_headers. destruct (ok_or _ _) as [t|] eqn:E; [|done]. apply ok_or_Ok, checked_add_Some in E. subst.
  destruct (_ <? _) eqn:El; [done|]. intros [= <-]. cbn. apply Z.ltb_ge in El. lia.
Qed.

Lemma add_header_bytes_ok path k n b b' :
  add_header_bytes path k n b = Ok b' -> header_bytes b' = header_bytes b + n /\ header_bytes b' <= MAX_HEADER_BYTES /\
    payload_bytes b' = payload_bytes b /\ header_entries b' = header_entries b.
Proof.
  unfold add_header_bytes. destruct (ok_or _ _) as [t|] eqn:E; [|done]. apply ok_or_Ok, checked_add_Some in E. subst.
  destruct (_ <? _) eqn:El; [done|]. intros [= <-]. cbn. apply Z.ltb_ge in El. lia.
Qed.

(** A budget that was never exceeded. *)
Definition within (b : ConversionBudget) : Prop :=
  payload_bytes b <= MAX_BATCH_PAYLOAD_BYTES /\ header_entries b <= MAX_HEADER_ENTRIES /\ header_bytes b <= MAX_HEADER_BYTES.

Section Publish.
Variable sha256 : string -> string.
Variable m : Memory.

Lemma header_value_ok z path parent key b v b' :
  header_value m z path parent key b = Ok (v, b') -> within b ->
  within b' /\ header_bytes b' = header_bytes b + value_cost v /\ payload_bytes b' = payload_bytes b /\ header_entries b' = header_entries b.
Proof.
  unfold header_value, within. intros H Hw. repeat case_match; simplify_eq; unfold value_cost;
    repeat match goal with H : add_header_bytes _ _ _ _ = Ok _ |- _ => apply add_header_bytes_ok in H end; lia.
Qed.

Lemma header_entries_ok path t out b h b' :
  header_entries_of m path t out b = Ok (h, b') -> within b ->
  within b' /\ payload_bytes b' = payload_bytes b /\ header_entries b' = header_entries b /\
  sumZ header_cost h + header_bytes b <= sumZ header_cost out + header_bytes b' /\ (length h <= length out + length t)%nat.
Proof.
  revert out b. induction t as [|[k z] t IH]; intros out b; cbn [header_entries_of]; [intros [= <- <-] Hw; split; [done|cbn; lia]|]. intros H Hw.
  destruct (match k with KLong _ => _ | KStr _ => _ end) as [key|]; [|done].
  destruct (add_header_bytes _ _ _ _) as [b1|] eqn:E1; [|done]. apply add_header_bytes_ok in E1.
  assert (within b1) as Hw1 by (unfold within in *; lia).
  destruct (header_value _ _ _ _ _ _) as [[v b2]|] eqn:E2; [|done]. apply header_value_ok in E2 as (Hw2 & ?); [|done]. cbn [fst snd] in H.
  apply IH in H as (? & ? & ? & ? & ?); [|done]. destruct (insert_cost out key v). unfold header_cost in *. cbn [fst snd length] in *.
  split; [done|]. lia.
Qed.

Lemma optional_headers_ok t path b h b' :
  optional_headers m t path b = Ok (h, b') -> within b ->
  within b' /\ payload_bytes b' = payload_bytes b /\ Z.of_nat (length h) + header_entries b <= header_entries b' /\
  sumZ header_cost h + header_bytes b <= header_bytes b'.
Proof.
  unfold optional_headers. intros H Hw. destruct (dereference m <$> get t "headers") as [[| | | | |a| |]|]; try done;
    try (injection H as <- <-; rewrite sumZ_nil; split; [done|cbn; lia]).
  destruct (add_headers _ _ _) as [b1|] eqn:E; [|done]. apply add_headers_ok in E. apply header_entries_ok in H as (? & ? & ? & ? & ?); [|unfold within in *; lia].
  rewrite sumZ_nil in *. cbn in *. split; [done|]. lia.
Qed.

(** An accepted delay is one the strategy can route, clamped or not. *)
Lemma validated_delay_routes properties d path strategy payload deadline mandatory :
  (forall x, mp_delay_ms properties = Some x -> 0 <= x) ->
  validate_delay sha256 properties d path strategy = Ok tt ->
  exists wire, route_transport_request sha256 (mkPublishRequest d payload properties deadline) (Some strategy) mandatory = Ok wire.
Proof.
  intros Hx H. unfold route_transport_request. cbn [r_properties r_destination]. unfold validate_delay in H.
  destruct (mp_delay_ms properties) as [delay|] eqn:Ed; cbn [default from_option id]; [|eexists; reflexivity].
  destruct (delay =? 0) eqn:E0; [eexists; reflexivity|]. destruct (I64_MAX <? delay) eqn:Em; [done|].
  cbn [ok_or]. unfold clamp_i64. apply Z.ltb_ge in Em. rewrite (proj2 (Z.leb_le _ _) Em).
  destruct (route sha256 strategy d delay) as [r|]; cbn in *; [|done]. eexists; reflexivity.
Qed.

Lemma optional_integer_nonneg t key path i : optional_non_negative_integer m t key path = Ok (Some i) -> 0 <= i.
Proof.
  unfold optional_non_negative_integer. destruct (dereference m <$> get t key) as [[]|]; try done.
  destruct (ok_or _ _) as [x|] eqn:E; [|done]. apply ok_or_Ok, try_from_Some in E as [-> ?]. intros [= <-]. lia.
Qed.

(** What every accepted message satisfies, at the instant [now]. *)
Definition accepted (t : Table) (strategy : DelayStrategy) (now : Z) (p : NativePublish) : Prop :=
  mp_message_id (r_properties (np_request p)) <> EmptyString /\
  now < r_deadline (np_request p) <= now + from_millis MAX_TIMEOUT_MS /\
  (dereference m <$> get t "payload" = Some (ZString (r_payload (np_request p)))) /\
  (forall k z, (KStr k, z) ∈ t -> k ∈ publish_keys) /\
  forall mandatory, exists wire, route_transport_request sha256 (np_request p) (Some strategy) mandatory = Ok wire.

Lemma known_keys t path allowed : reject_unknown_keys t path allowed = Ok tt -> forall k z, (KStr k, z) ∈ t -> k ∈ allowed.
Proof.
  induction t as [|[k z] t IH]; cbn [reject_unknown_keys]; [intros _ k z ?%elem_of_nil; done|]. intros H k' z'.
  destruct (string_key k path) as [key|] eqn:Ek; [|done]. case_decide as Hd; [|done]. intros [[= <- <-]|Hin]%elem_of_cons; [|by eapply IH].
  cbn in Ek. destruct (valid_utf8 k'); by simplify_eq.
Qed.

Lemma publish_ok t path strategy now b p b' :
  publish_with_budget sha256 m t path strategy now b = Ok (p, b') -> within b ->
  within b' /\ payload_bytes b' = payload_bytes b + payload_of p /\ Z.of_nat (length (headers_of p)) + header_entries b <= header_entries b' /\
  sumZ header_cost (headers_of p) + header_bytes b <= header_bytes b' /\ accepted t strategy now p.
Proof.
  unfold publish_with_budget. intros H Hw. destruct (reject_unknown_keys _ _ _) as [[]|] eqn:Ek; [|done]. pose proof (known_keys _ _ _ Ek) as Hk.
  destruct (required_string _ _ "broker" _) as [broker|]; [|done]. destruct (required_string _ _ "exchange" _) as [exchange|]; [|done].
  destruct (required_string _ _ "routing_key" _) as [rk|]; [|done]. destruct (required_string _ _ "message_id" _) as [id|]; [|done].
  destruct (String.eqb id "") eqn:Eid; [done|]. destruct (required_payload _ _ _ _) as [[payload b1]|] eqn:Ep; [|done].
  destruct (optional_non_negative_integer _ _ "timeout_ms" _) as [timeout|] eqn:Et; [|done].
  destruct (default 30000 timeout =? 0) eqn:E0; [done|]. destruct (MAX_TIMEOUT_MS <? default 30000 timeout) eqn:Em; [done|].
  destruct (INSTANT_MAX <? _); [done|]. destruct (optional_string _ _ "content_type" _) as [ct|]; [|done].
  destruct (optional_string _ _ "correlation_id" _) as [ci|]; [|done]. destruct (optional_non_negative_integer _ _ "delay_ms" _) as [delay|] eqn:Edl; [|done].
  cbn [fst snd] in H. destruct (optional_headers _ _ _ _) as [[h b2]|] eqn:Eh; [|done]. cbn [fst snd] in H.
  destruct (validate_delay _ _ _ _ _) as [[]|] eqn:Ev; [|done]. injection H as <- <-.
  unfold required_payload, required in Ep. destruct (dereference m <$> get t "payload") as [z|] eqn:Eg; [|done]. cbn [ok_or] in Ep.
  destruct z as [| | | |s| | |]; try done. destruct (add_payload _ _ _) as [b0|] eqn:Ea; [|done]. injection Ep as <- <-. apply add_payload_ok in Ea.
  apply optional_headers_ok in Eh as (? & ? & ? & ?); [|unfold within in *; lia]. unfold payload_of, headers_of. cbn.
  split; [done|]. split; [lia|]. split; [lia|]. split; [lia|]. apply Z.eqb_neq in E0. apply Z.ltb_ge in Em.
  assert (0 < default 30000 timeout) by (destruct timeout as [i|]; cbn in *; [pose proof (optional_integer_nonneg _ _ _ _ Et)|]; lia).
  split; [cbn; by apply String.eqb_neq in Eid|]. split; [cbn; unfold from_millis, NANOS_PER_MILLI in *; lia|]. split; [done|]. split; [done|].
  intros mandatory. eapply validated_delay_routes; [|exact Ev]. cbn. intros x ->. by eapply optional_integer_nonneg.
Qed.

(** The message a batch holds at a place. *)
Definition message_at (t : Table) (i : nat) : option Table :=
  x ← t !! i; match dereference m x.2 with ZArray a => Some (table m a) | _ => None end.

Lemma batch_ok strategy clock n t b l b' :
  batch_messages sha256 m strategy clock n t b = Ok (l, b') -> within b ->
  within b' /\ length l = length t /\ sumZ payload_of l + payload_bytes b <= payload_bytes b' /\
  sumZ (fun p => Z.of_nat (length (headers_of p))) l + header_entries b <= header_entries b' /\
  sumZ (fun p => sumZ header_cost (headers_of p)) l + header_bytes b <= header_bytes b' /\
  forall i p, l !! i = Some p -> exists msg, message_at t i = Some msg /\ accepted msg strategy (clock (n + i)%nat) p.
Proof.
  revert n b l b'. induction t as [|[k z] t IH]; intros n b l b' H Hw; cbn [batch_messages] in H.
  - injection H as <- <-. rewrite !sumZ_nil. split; [done|]. split; [done|]. split_and!; [lia..|done].
  - destruct (dereference m z) as [| | | | |a| |] eqn:Ez; try done.
    destruct (publish_with_budget _ _ _ _ _ _ _) as [[p b1]|] eqn:Ep; [|done]. apply publish_ok in Ep as (Hw1 & ? & ? & ? & Ha); [|done].
    cbn [fst snd] in H. destruct (batch_messages _ _ _ _ _ _ _) as [[l' b2]|] eqn:Eb; [|done].
    apply IH in Eb as (Hw2 & ? & ? & ? & ? & Hall); [|done]. injection H as <- <-. rewrite !sumZ_cons. cbn [length fst snd].
    split; [done|]. split; [lia|]. split_and!; [lia..|]. intros [|i] q Hq; cbn in Hq.
    + injection Hq as <-. exists (table m a). unfold message_at. cbn. rewrite Ez, Nat.add_0_r. done.
    + destruct (Hall _ _ Hq) as (msg & Hm & Hac). exists msg. split; [exact Hm|]. by rewrite Nat.add_succ_r.
Qed.

(** C19. An accepted batch keeps to the limits: at most 256 messages, 1 MiB of payload, 128
    headers and 64 KiB of headers in all. Every message of it has only known fields,
    a message id, the payload of the PHP string, a deadline within 24 hours and a
    delay, if any, that the delay strategy can route: publishing it never fails for
    its delay. *)
Theorem accepted_batch t strategy clock l :
  publish_batch sha256 m t strategy clock = Ok l ->
  length l = length t /\ Z.of_nat (length l) <= MAX_BATCH_MESSAGES /\ sumZ payload_of l <= MAX_BATCH_PAYLOAD_BYTES /\
  sumZ (fun p => Z.of_nat (length (headers_of p))) l <= MAX_HEADER_ENTRIES /\
  sumZ (fun p => sumZ header_cost (headers_of p)) l <= MAX_HEADER_BYTES /\
  forall i p, l !! i = Some p -> exists msg, message_at t i = Some msg /\ accepted msg strategy (clock i) p.
Proof.
  unfold publish_batch. destruct (negb _); [done|]. destruct (_ <? _) eqn:El; [done|]. destruct (batch_messages _ _ _ _ _ _ _) as [[l' b]|] eqn:E; [|done].
  intros [= <-]. apply batch_ok in E as ((? & ? & ?) & Hl & ? & ? & ? & Hall); [|by unfold within]. cbn in *. apply Z.ltb_ge in El.
  split; [done|]. split; [lia|]. split_and!; [lia..|done].
Qed.

(** ** Errors name their place *)

Definition at_path (path e : string) : Prop := exists s, e = path +:+ s.

Lemma at_path_app path s : at_path path (path +:+ s).
Proof. by exists s. Qed.

Lemma at_path_under path s e : at_path (path +:+ s) e -> at_path path e.
Proof. intros [r ->]. exists (s +:+ r). apply string_app_assoc. Qed.

Lemma ok_or_at {A} (o : option A) e path x : ok_or o e = Err x -> at_path path e -> at_path path x.
Proof. destruct o; by intros [= <-]. Qed.

Lemma ok_or_Err {A E} (o : option A) (e x : E) : ok_or o e = Err x -> x = e.
Proof. destruct o; by intros [= <-]. Qed.

(** Takes an error to the message it was made of. *)
Ltac place :=
  repeat match goal with
  | H : ok_or _ _ = Err _ |- _ => apply ok_or_Err in H; subst
  | H : Err _ = Err _ |- _ => injection H as <-
  | H : Ok _ = Err _ |- _ => discriminate H
  end;
  first [apply at_path_app|eapply at_path_under, at_path_app|eapply at_path_under, at_path_under, at_path_app].

Lemma add_header_bytes_at path k n b e : add_header_bytes path k n b = Err e -> at_path path e.
Proof. unfold add_header_bytes. intros H. destruct k; repeat case_match; place. Qed.

Lemma header_value_at z path parent key b e : header_value m z (parent +:+ path) parent key b = Err e -> at_path parent e.
Proof.
  unfold header_value. intros H. repeat case_match; simplify_eq; try (by eapply add_header_bytes_at); place.
Qed.

Lemma header_entries_at path t out b e : header_entries_of m path t out b = Err e -> at_path path e.
Proof.
  revert out b. induction t as [|[k z] t IH]; intros out b H; cbn [header_entries_of] in H; [done|].
  destruct (match k with KLong _ => _ | KStr _ => _ end) as [key|e'] eqn:Ek; [|injection H as <-; repeat case_match; place].
  destruct (add_header_bytes _ _ _ _) as [b1|] eqn:E1; [|injection H as <-; by eapply add_header_bytes_at].
  destruct (header_value _ _ _ _ _ _) as [[v b2]|] eqn:E2; [|injection H as <-; by eapply header_value_at]. by eapply IH.
Qed.

Lemma optional_headers_at t path b e : optional_headers m t path b = Err e -> at_path path e.
Proof.
  unfold optional_headers. destruct (dereference m <$> get t "headers") as [[| | | | |a| |]|]; intros H; try done; try (by place).
  unfold add_headers in H. repeat case_match; simplify_eq; try (by place). by eapply header_entries_at.
Qed.

Lemma string_key_at k path e : string_key k path = Err e -> at_path path e.
Proof. unfold string_key. intros H. repeat case_match; place. Qed.

Lemma unknown_keys_at t path allowed e : reject_unknown_keys t path allowed = Err e -> at_path path e.
Proof.
  induction t as [|[k z] t IH]; cbn [reject_unknown_keys]; [done|]. destruct (string_key k path) eqn:Ek; [|intros [= <-]; by eapply string_key_at].
  case_decide; [apply IH|]. intros He. place.
Qed.

Lemma required_string_at t key path e : required_string m t key path = Err e -> at_path path e.
Proof. unfold required_string, required. intros H. repeat case_match; simplify_eq; place. Qed.

Lemma optional_string_at t key path e : optional_string m t key path = Err e -> at_path path e.
Proof. unfold optional_string. intros H. repeat case_match; simplify_eq; place. Qed.

Lemma optional_integer_at t key path e : optional_non_negative_integer m t key path = Err e -> at_path path e.
Proof. unfold optional_non_negative_integer. intros H. repeat case_match; simplify_eq; place. Qed.

Lemma required_payload_at t path b e : required_payload m t path b = Err e -> at_path path e.
Proof. unfold required_payload, required, add_payload. intros H. repeat case_match; simplify_eq; place. Qed.

Lemma validate_delay_at properties d path strategy e : validate_delay sha256 properties d path strategy = Err e -> at_path path e.
Proof. unfold validate_delay, map_err. intros H. repeat case_match; simplify_eq; place. Qed.

Lemma publish_at t path strategy now b e : publish_with_budget sha256 m t path strategy now b = Err e -> at_path path e.
Proof.
  unfold publish_with_budget. intros H.
  repeat (match type of H with
    | (match ?x with Ok _ => _ | Err _ => _ end) = _ => destruct x eqn:?
    | (if ?x then _ else _) = _ => destruct x eqn:?
    end; cbn zeta in H);
    try discriminate H; injection H as <-;
    first [by eapply unknown_keys_at|by eapply required_string_at|by eapply required_payload_at|by eapply optional_integer_at|by eapply optional_string_at
      |by eapply optional_headers_at|by eapply validate_delay_at|place].
Qed.

Lemma batch_at strategy clock n t b e :
  batch_messages sha256 m strategy clock n t b = Err e -> exists i, (i < length t)%nat /\ at_path ("messages[" +:+ pretty (Z.of_nat (n + i)) +:+ "]") e.
Proof.
  revert n b. induction t as [|[k z] t IH]; intros n b H; cbn [batch_messages] in H; [done|].
  assert (Hhere : at_path ("messages[" +:+ pretty (Z.of_nat n) +:+ "]") e -> exists i, (i < length ((k, z) :: t))%nat /\ at_path ("messages[" +:+ pretty (Z.of_nat (n + i)) +:+ "]") e).
  { intros He. exists 0%nat. rewrite Nat.add_0_r. split; [cbn; lia|done]. }
  destruct (dereference m z) as [| | | | |a| |]; try (apply Hhere; place).
  destruct (publish_with_budget _ _ _ _ _ _ _) as [[p b1]|] eqn:Ep; [|injection H as <-; apply Hhere; by eapply publish_at].
  cbn [fst snd] in H. destruct (batch_messages _ _ _ _ _ _ _) as [|] eqn:Eb; [done|]. injection H as <-.
  apply IH in Eb as (i & Hi & He). exists (S i). rewrite Nat.add_succ_r. split; [cbn; lia|done].
Qed.

Lemma elements_at f path i t active e :
  (forall z p act e, f z p act = Err e -> at_path p e) -> elements f path i t active = Err e -> at_path path e.
Proof.
  intros Hf. revert i active. induction t as [|[k z] t IH]; intros i active H; cbn in H; [done|].
  destruct (f _ _ _) as [[v act]|] eqn:E; [|injection H as <-; by eapply at_path_under, Hf]. cbn in H.
  destruct (elements _ _ _ _ _) eqn:E'; [done|]. injection H as <-. by eapply IH.
Qed.

Lemma members_at f path t active e :
  (forall z p act e, f z p act = Err e -> at_path p e) -> members f path t active = Err e -> at_path path e.
Proof.
  intros Hf. revert active. induction t as [|[k z] t IH]; intros active H; cbn in H; [done|].
  destruct (string_key k path) as [key|] eqn:Ek; [|injection H as <-; by eapply string_key_at].
  destruct (f _ _ _) as [[v act]|] eqn:E; [|injection H as <-; by eapply at_path_under, Hf]. cbn in H.
  destruct (members _ _ _ _) eqn:E'; [done|]. injection H as <-. by eapply IH.
Qed.

Lemma array_at f a path active e :
  (forall z p act e, f z p act = Err e -> at_path p e) -> array_with m f a path active = Err e -> at_path path e.
Proof.
  intros Hf. unfold array_with. case_decide; [intros He; place|]. destruct (is_list _).
  - destruct (elements _ _ _ _ _) eqn:E; [done|]. intros [= <-]. by eapply elements_at.
  - destruct (members _ _ _ _) eqn:E; [done|]. intros [= <-]. by eapply members_at.
Qed.

Lemma value_at n z path active e : value m n z path active = Err e -> at_path path e.
Proof.
  revert z path active e. induction n as [|n IH]; intros z path active e H; cbn [value] in H; [place|].
  destruct (dereference m z); try discriminate H; try place; try (case_match; [discriminate H|place]). by eapply array_at.
Qed.

(** Every error names its place: a rejected configuration is reported under its path,
    a rejected publication under its own, and a batch that is a list within the limit
    under the index of a message it holds. *)
Theorem errors_name_their_place :
  (forall a path e, array_value m a path = Err e -> at_path path e) /\
  (forall t path strategy now e, publish sha256 m t path strategy now = Err e -> at_path path e) /\
  (forall t strategy clock e, publish_batch sha256 m t strategy clock = Err e ->
     at_path "messages" e /\ (is_list t = true -> Z.of_nat (length t) <= MAX_BATCH_MESSAGES ->
       exists i, (i < length t)%nat /\ at_path ("messages[" +:+ pretty (Z.of_nat i) +:+ "]") e)).
Proof.
  split; [|split].
  - intros a path e. unfold array_value. destruct (array_with _ _ _ _ _) eqn:E; [done|]. intros [= <-]. eapply array_at, E. intros *. apply value_at.
  - intros t path strategy now e. unfold publish. destruct (publish_with_budget _ _ _ _ _ _ _) eqn:E; [done|]. intros [= <-]. by eapply publish_at.
  - intros t strategy clock e. unfold publish_batch. destruct (is_list t); cbn [negb]; [|intros [= <-]; split; [by eexists|done]].
    destruct (_ <? _) eqn:El; [intros [= <-]; split; [by eexists|lia]|]. destruct (batch_messages _ _ _ _ _ _ _) eqn:E; [done|]. intros [= <-].
    apply batch_at in E as (i & Hi & Hp). split; [|intros _ _; by exists i]. eapply (at_path_under _ ("[" +:+ pretty (Z.of_nat i) +:+ "]")). exact Hp.
Qed.

End Publish.

(** ** The sole broker *)

Lemma assoc_update {A} (f : A -> A) key l k :
  assoc k ((fun x : string * A => if String.eqb x.1 key then (x.1, f x.2) else x) <$> l) = (if String.eqb k key then f <$> assoc k l else assoc k l).
Proof.
  induction l as [|[k' v] l IH]; cbn; [by case_match|]. destruct (String.eqb k' key) eqn:E1; cbn; destruct (String.eqb k' k) eqn:E2; try done;
    apply String.eqb_eq in E2 as ->; by rewrite E1.
Qed.

Lemma j_get_update key f v : j_get key (j_update key f v) = f <$> j_get key v.
Proof. destruct v; try done. cbn [j_get j_update]. by rewrite assoc_update, String.eqb_refl. Qed.

Lemma j_get_update_ne key k f v : k <> key -> j_get k (j_update key f v) = j_get k v.
Proof. intros H. destruct v; try done. cbn [j_get j_update]. rewrite assoc_update. by rewrite (proj2 (String.eqb_neq _ _) H). Qed.

Lemma assoc_app {A} key (l l' : list (string * A)) : assoc key (l ++ l') = match assoc key l with Some v => Some v | None => assoc key l' end.
Proof. induction l as [|[k v] l IH]; cbn; [done|]. by destruct (String.eqb k key). Qed.

(** After the pinning every subscription of a configuration with one broker names a
    broker, and the same broker is still the sole one. *)
Theorem pinned_subscriptions config name workers :
  sole_broker config = Some name -> j_get "workers" (pin_single_broker config) ≫= j_array = Some workers ->
  sole_broker (pin_single_broker config) = Some name /\
  forall w subs l, w ∈ workers -> j_get "subscriptions" w ≫= j_array = Some subs -> JObject l ∈ subs -> is_Some (assoc "broker" l).
Proof.
  intros Hs Hw. unfold pin_single_broker in *. rewrite Hs in *. split.
  - unfold sole_broker in *. by rewrite j_get_update_ne.
  - rewrite j_get_update in Hw. intros w subs l Hin Hsub Hl. destruct (j_get "workers" config) as [v|]; [|done]. cbn in Hw.
    destruct v as [| | | | |ws|]; try done. cbn in Hw. injection Hw as <-. apply list_elem_of_fmap in Hin as (w0 & -> & _).
    rewrite j_get_update in Hsub. destruct (j_get "subscriptions" w0) as [v|]; [|done]. cbn in Hsub. destruct v as [| | | | |ss|]; try done.
    cbn in Hsub. injection Hsub as <-. apply list_elem_of_fmap in Hl as (s0 & E & _). destruct s0 as [| | | | | |l0]; try done. cbn in E.
    destruct (assoc "broker" l0) eqn:Ea; injection E as ->; [by rewrite Ea|]. rewrite assoc_app, Ea. by eexists.
Qed.

(** ** Examples *)

(** Array 0 holds array 1 twice; array 2 contains itself through a reference; arrays 3
    and 4 are a batch of one message with the headers 5. *)
Definition sample : Memory := {|
  table a := match a with
    | 0 => [(KStr "a", ZArray 1); (KStr "b", ZRef 0)]
    | 1 => [(KLong 0, ZLong 7); (KLong 1, ZString "x")]
    | 2 => [(KStr "self", ZRef 1)]
    | 3 => [(KLong 0, ZArray 4)]
    | 4 => [(KStr "broker", ZString "main"); (KStr "exchange", ZString "shop"); (KStr "routing_key", ZString "orders");
            (KStr "payload", ZString "hello"); (KStr "message_id", ZString "id-1"); (KStr "delay_ms", ZLong 1500); (KStr "headers", ZArray 5)]
    | 5 => [(KStr "tenant", ZLong 3)]
    | _ => []
    end%nat;
  cell r := match r with 0 => ZArray 1 | _ => ZArray 2 end%nat
|}.

Example shared_array_accepted :
  array_value sample 0 "config" = Ok (JObject [("a", JArray [JInt 7; JString "x"]); ("b", JArray [JInt 7; JString "x"])]).
Proof. vm_compute. reflexivity. Qed.

Example recursive_array_rejected : array_value sample 2 "config" = Err "config.self: recursive arrays are unsupported"%string.
Proof. vm_compute. reflexivity. Qed.

Definition sample_batch : list NativePublish :=
  [mkNativePublish "main" (mkPublishRequest (mkDestination "shop" "orders") "hello"
    (mkMessageProperties "id-1" None None (Some 1500) [("tenant"%string, Integer 3)]) (from_secs 31))].

Lemma accepted_batch_witness :
  publish_batch toy_digest sample (table sample 3) (TtlBuckets default_plan) (fun _ => from_secs 1) = Ok sample_batch /\
  (forall mandatory, exists wire, route_transport_request toy_digest (np_request (default (mkNativePublish "" (mkPublishRequest (mkDestination "" "") "" (message_properties_new "") 0)) (head sample_batch)))
     (Some (TtlBuckets default_plan)) mandatory = Ok wire).
Proof.
  assert (H : publish_batch toy_digest sample (table sample 3) (TtlBuckets default_plan) (fun _ => from_secs 1) = Ok sample_batch) by (vm_compute; reflexivity).
  split; [exact H|]. destruct (accepted_batch toy_digest sample _ _ _ _ H) as (_ & _ & _ & _ & _ & Hall).
  destruct (Hall 0%nat _ eq_refl) as (msg & _ & _ & _ & _ & _ & Hr). exact Hr.
Defined.

End PhpConversionSpec.
