(* ===== verification/Lapin.v ===== *)
(** * The lapin adapter

    Models what [transport/lapin.rs] decides itself: the classification of errors, the
    failover over the endpoints of a broker, the event stream of a connection, header
    values on the wire and back, the properties of a publication and the arguments of
    declarations. What the lapin crate does with them, connection URIs and TLS
    material are inputs. A [FieldTable] is a [BTreeMap], like [Headers]. *)

From S2P Require Import Prelude Transport.
Import Transport.
Local Open Scope Z_scope.
Local Open Scope rabbit_scope.

Module Lapin.

(** ** Errors *)

(** [lapin::ConnectionState] and [lapin::ErrorKind], as far as the adapter looks. *)
Inductive LapinState := StateError | StateClosed | StateOther.

Inductive LapinErrorKind :=
| AuthProviderError
| ProtocolError (id : Z)
| InvalidConnectionState (s : LapinState)
| OtherError.

(** A [lapin::Error]: its kind, [can_be_recovered], its text. *)
Record LapinError := mkLapinError { le_kind : LapinErrorKind; le_recoverable : bool; le_text : string }.

Definition map_lapin_error (e : LapinError) : TransportError :=
  let protocol_code := match le_kind e with ProtocolError id => Some id | _ => None end in
  let '(authentication, permanent_topology) :=
    match le_kind e with
    | AuthProviderError => (true, false)
    | ProtocolError id =>
        if (id =? 403) || (id =? 530) then (true, false) else if (id =? 404) || (id =? 406) then (false, true) else (false, false)
    | _ => (false, false)
    end in
  let protocol := match protocol_code with Some code => protocol_with_code code (le_text e) | None => te_new Protocol (le_text e) end in
  if authentication : bool then te_new Authentication (le_text e)
  else if permanent_topology : bool then protocol
  else if le_recoverable e then te_new Connection (le_text e)
  else protocol.

Definition map_event_stream_error (e : LapinError) : TransportError :=
  let authentication :=
    match le_kind e with AuthProviderError => true | ProtocolError id => (id =? 403) || (id =? 530) | _ => false end in
  if authentication then te_new Authentication (le_text e)
  else if le_recoverable e then te_new Connection (le_text e)
  else te_new Protocol (le_text e).

(** ** Connections *)

(** The endpoints are tried in order; the error of the last one is reported.
    [connection_uri] and [dial] stand for the url crate and the network; the result
    has the endpoint that answered. *)
Fixpoint connect_loop {E} (connection_uri : E -> result string TransportError) (dial : string -> result unit LapinError)
    (endpoints : list E) (last_error : option TransportError) (none : TransportError) : result E TransportError :=
  match endpoints with
  | [] => Err (default none last_error)
  | e :: rest =>
      let? uri := connection_uri e in
      match dial uri with
      | Ok _ => Ok e
      | Err error => connect_loop connection_uri dial rest (Some (map_lapin_error error)) none
      end
  end.

(** [LapinTransport::connect]; [tls] is what [build_tls_config] answered. *)
Definition connect {E} (name : string) (tls : result unit TransportError) (connection_uri : E -> result string TransportError)
    (dial : string -> result unit LapinError) (endpoints : list E) : result E TransportError :=
  let? _ := tls in
  connect_loop connection_uri dial endpoints None (te_new Connection ("broker '" +:+ name +:+ "' has no endpoint to connect")).

(** [LapinConnection::close] *)
Definition close (answer : result unit LapinError) : result unit TransportError :=
  match answer with
  | Ok _ => Ok tt
  | Err e =>
      match le_kind e with
      | InvalidConnectionState (StateError | StateClosed) => Ok tt
      | _ => Err (map_lapin_error e)
      end
  end.

(** [build_tls_config]; [read] is [std::fs], the result tells what was read: the client
    identity and the certificate chain. *)
Record TlsSettings := mkTls {
  tls_enabled : bool;
  tls_server_name : option string;
  tls_client_cert : option string;
  tls_client_key : option string;
  tls_ca_cert : option string
}.

Definition read_file (read : string -> result string string) (field path : string) : result string TransportError :=
  map_err (fun e => te_new Configuration ("tls." +:+ field +:+ ": cannot read '" +:+ path +:+ "': " +:+ e)) (read path).

Definition build_tls_identity (read : string -> result string string) (tls : TlsSettings) : result (option (string * string)) TransportError :=
  match tls_client_cert tls, tls_client_key tls with
  | Some cert, Some key =>
      let? pem := read_file read "client_cert" cert in
      let? key := read_file read "client_key" key in
      Ok (Some (pem, key))
  | _, _ => Ok None
  end.

Definition build_tls_config (read : string -> result string string) (name : string) (hosts : list string) (tls : TlsSettings)
  : result (option (string * string) * option string) TransportError :=
  if negb (tls_enabled tls) then Ok (None, None)
  else
    let first_host := default EmptyString (head hosts) in
    let? _ :=
      match tls_server_name tls with
      | Some server_name =>
          if String.eqb server_name first_host then Ok tt
          else Err (te_new Configuration ("brokers." +:+ name +:+ ".tls.server_name: '" +:+ server_name +:+
            "' overrides the TLS server name, which the AMQP transport (lapin 4.10) cannot do: SNI is always the connection host; supported value: '" +:+
            first_host +:+ "'"))
      | None => Ok tt
      end in
    let? identity := build_tls_identity read tls in
    let? chain := match tls_ca_cert tls with Some path => let? c := read_file read "ca_cert" path in Ok (Some c) | None => Ok None end in
    Ok (identity, chain).

(** *** The event stream *)

Inductive LapinEvent :=
| ConnectionBlocked (reason : string)
| ConnectionUnblocked
| EventError (e : LapinError)
| OtherEvent.

Inductive TransportEvent := Blocked (reason : string) | Unblocked | EError (e : TransportError).

(** [LapinEventStream::next]; each event comes with whether the connection is alive when
    it is looked at. The result has the events that are left. *)
Fixpoint next (events : list (LapinEvent * bool)) : option (TransportEvent * list (LapinEvent * bool)) :=
  match events with
  | [] => None
  | (event, alive) :: rest =>
      match event with
      | ConnectionBlocked reason => Some (Blocked reason, rest)
      | ConnectionUnblocked => Some (Unblocked, rest)
      | EventError e => if alive then next rest else Some (EError (map_event_stream_error e), rest)
      | OtherEvent => next rest
      end
  end.

(** ** Header values *)

(** [AMQPValue]; a float is its bits. *)
Inductive AMQPValue :=
| ABoolean (b : bool)
| AShortShortInt (i : Z)
| AShortShortUInt (i : Z)
| AShortInt (i : Z)
| AShortUInt (i : Z)
| ALongInt (i : Z)
| ALongUInt (i : Z)
| ALongLongInt (i : Z)
| AFloat (bits : Z)
| ADouble (bits : Z)
| ADecimalValue (scale value : Z)
| AShortString (s : string)
| ALongString (s : string)
| AFieldArray (l : list AMQPValue)
| ATimestamp (i : Z)
| AFieldTable (l : list (string * AMQPValue))
| AByteArray (s : string)
| AVoid.

Abbreviation FieldTable := (list (string * AMQPValue)).

(** [BTreeMap::insert] *)
Fixpoint field_insert (t : FieldTable) (name : string) (v : AMQPValue) : FieldTable :=
  match t with
  | [] => [(name, v)]
  | (k, u) :: t' =>
      match String.compare name k with
      | Lt => (name, v) :: (k, u) :: t'
      | Eq => (name, v) :: t'
      | Gt => (k, u) :: field_insert t' name v
      end
  end.

Fixpoint field_get (t : FieldTable) (name : string) : option AMQPValue :=
  match t with
  | [] => None
  | (k, v) :: t' => if String.eqb k name then Some v else field_get t' name
  end.

Fixpoint publish_header_value (v : HeaderValue) : AMQPValue :=
  match v with
  | Void => AVoid
  | Boolean b => ABoolean b
  | Integer i => ALongLongInt i
  | Double bits => ADouble bits
  | Binary s => ALongString s
  | Array vs => AFieldArray (publish_header_value <$> vs)
  | Table kvs => AFieldTable (foldl (fun t x => field_insert t x.1 x.2) [] ((fun x => (x.1, publish_header_value x.2)) <$> kvs))
  | Decimal scale value => ADecimalValue scale value
  end.

(** [f64::from(f32)] on the bits. *)
Definition f64_of_f32 (bits : Z) : Z :=
  let sign := Z.shiftl (Z.shiftr bits 31) 63 in
  let e := Z.land (Z.shiftr bits 23) 255 in
  let f := Z.land bits (2 ^ 23 - 1) in
  if e =? 255 then sign + Z.shiftl 2047 52 + Z.shiftl f 29
  else if e =? 0 then
    if f =? 0 then sign
    else sign + Z.shiftl (Z.log2 f - 149 + 1023) 52 + Z.shiftl (f - 2 ^ Z.log2 f) (52 - Z.log2 f)
  else sign + Z.shiftl (e - 127 + 1023) 52 + Z.shiftl f 29.

(** [HeaderFloat::new] *)
Definition header_double (bits : Z) : option HeaderValue := if is_finite bits then Some (Double bits) else None.

(** [map_header_value], with [map_headers] on the fields of a table. *)
Fixpoint map_header_value (v : AMQPValue) : option HeaderValue :=
  match v with
  | ABoolean b => Some (Boolean b)
  | AShortShortInt i | AShortShortUInt i | AShortInt i | AShortUInt i | ALongInt i | ALongUInt i | ALongLongInt i => Some (Integer i)
  | AFloat bits => header_double (f64_of_f32 bits)
  | ADouble bits => header_double bits
  | AShortString s | ALongString s | AByteArray s => Some (Binary s)
  | ATimestamp i => if i <=? I64_MAX then Some (Integer i) else None
  | AFieldArray l =>
      Array <$> (fix go l := match l with
        | [] => Some []
        | x :: l' => match map_header_value x with Some y => cons y <$> go l' | None => None end
        end) l
  | AFieldTable l =>
      Some (Table ((fix go (out : Headers) l := match l with
        | [] => out
        | (k, x) :: l' => match map_header_value x with Some y => go (headers_insert out k y) l' | None => go out l' end
        end) [] l))
  | AVoid => Some Void
  | ADecimalValue scale value => Some (Decimal scale value)
  end.

Definition map_headers (headers : option FieldTable) : Headers :=
  match headers with
  | None => []
  | Some t => foldl (fun out x => match map_header_value x.2 with Some y => headers_insert out x.1 y | None => out end) [] t
  end.

(** ** Publications *)

(** [BasicProperties], the fields that are set. *)
Record BasicProperties := mkBasicProperties {
  bp_delivery_mode : option Z;
  bp_content_type : option string;
  bp_correlation_id : option string;
  bp_message_id : option string;
  bp_headers : option FieldTable
}.

Definition publish_properties (p : PublishProperties) : BasicProperties :=
  let headers := foldl (fun t x => field_insert t x.1 (publish_header_value x.2)) [] (pp_headers p) in
  let headers :=
    match pp_delay_ms p with
    | Some d => field_insert headers "x-delay" (ALongLongInt (if d <=? I64_MAX then d else I64_MAX))
    | None => headers
    end in
  mkBasicProperties (if pp_persistent p then Some 2 else None) (pp_content_type p) (pp_correlation_id p) (pp_message_id p)
    (if negb (bool_decide (pp_headers p = [])) || bool_decide (is_Some (pp_delay_ms p)) then Some headers else None).

(** ** Declarations *)

Definition duration_millis (d : Z) : Z := Z.min (as_millis d) U32_MAX.

Definition insert_some {A} (name : string) (f : A -> AMQPValue) (o : option A) (t : FieldTable) : FieldTable :=
  match o with Some a => field_insert t name (f a) | None => t end.

(** The arguments of [declare_queue]; those of the specification come last. *)
Definition queue_arguments (q : QueueSpec) : FieldTable :=
  let t := if bool_decide (q_kind q = Quorum) then field_insert [] "x-queue-type" (ALongString "quorum") else [] in
  let t := insert_some "x-dead-letter-exchange" ALongString (q_dead_letter_exchange q) t in
  let t := insert_some "x-dead-letter-routing-key" ALongString (q_dead_letter_routing_key q) t in
  let t := insert_some "x-message-ttl" (fun d => ALongUInt (duration_millis d)) (q_message_ttl q) t in
  let t := insert_some "x-expires" (fun d => ALongUInt (duration_millis d)) (q_expires q) t in
  let t := insert_some "x-delivery-limit" ALongUInt (q_delivery_limit q) t in
  foldl (fun t x => field_insert t x.1 (publish_header_value x.2)) t (q_arguments q).

(** The exchange type and the arguments of [declare_exchange]. *)
Definition exchange_arguments (x : ExchangeSpec) : string * FieldTable :=
  let t := match x_kind x with Delayed underlying => field_insert [] "x-delayed-type" (ALongString (amqp_type_name underlying)) | _ => [] end in
  (amqp_type_name (x_kind x), foldl (fun t x => field_insert t x.1 (publish_header_value x.2)) t (x_arguments x)).

(** ** Deliveries *)

(** [lapin::message::Delivery]. *)
Record LapinDelivery := mkLapinDelivery {
  ld_delivery_tag : Z;
  ld_exchange : string;
  ld_routing_key : string;
  ld_redelivered : bool;
  ld_properties : BasicProperties;
  ld_data : string
}.

(** [transport::FetchedMessage]. *)
Record FetchedMessage := mkFetchedMessage {
  fm_delivery_tag : Z;
  fm_exchange : string;
  fm_routing_key : string;
  fm_redelivered : bool;
  fm_message_id : option string;
  fm_headers : Headers;
  fm_payload : string
}.

Definition fetched_message (d : LapinDelivery) : FetchedMessage :=
  mkFetchedMessage (ld_delivery_tag d) (ld_exchange d) (ld_routing_key d) (ld_redelivered d) (bp_message_id (ld_properties d))
    (map_headers (bp_headers (ld_properties d))) (ld_data d).

(** What [LapinDeliveryStream::next] makes of an item of the consumer's stream. *)
Definition map_delivery (item : option (result LapinDelivery LapinError)) : option (result TransportDelivery TransportError) :=
  (fun r =>
    match r with
    | Err e => Err (map_lapin_error e)
    | Ok d => Ok (mkTransportDelivery (ld_delivery_tag d) (ld_exchange d) (ld_routing_key d) (ld_redelivered d)
        (bp_message_id (ld_properties d)) (bp_correlation_id (ld_properties d)) (map_headers (bp_headers (ld_properties d))) (ld_data d))
    end) <$> item.

(** [lapin::message::BasicReturnMessage] and [lapin::Confirmation]. *)
Record BasicReturnMessage := mkBasicReturnMessage { br_delivery : LapinDelivery; br_reply_code : Z; br_reply_text : string }.

Inductive Confirmation :=
| CAck (returned : option BasicReturnMessage)
| CNack (returned : option BasicReturnMessage)
| CNotRequested.

Definition map_returned_message (m : BasicReturnMessage) : ReturnedMessage :=
  mkReturnedMessage (br_reply_code m) (br_reply_text m) (ld_exchange (br_delivery m)) (ld_routing_key (br_delivery m)) (ld_data (br_delivery m)).

(** [LapinPublishReceipt::wait], on what the confirmation resolved to. *)
Definition wait (answer : result Confirmation LapinError) : result PublishConfirmation TransportError :=
  let? c := map_err map_lapin_error answer in
  Ok (match c with
      | CAck returned => Ack (map_returned_message <$> returned)
      | CNack returned => Nack (map_returned_message <$> returned)
      | CNotRequested => NotRequested
      end).

End Lapin.
