(* ===== verification/LapinSpec.v ===== *)
(** * Theorems about the lapin adapter

    Headers survive the wire, and the attempts of a delayed copy with them; the delay and
    the expiry of a bucket queue on the wire; which errors reach the connection actor and how they
    are classified; failover over the endpoints. *)

From S2P Require Import Prelude Transport Attempts Publication DelayTopology DelayRouting TopologyPlan Config RecoveryCoordinator Lapin.
Import Transport Attempts Publication DelayTopology DelayRouting Lapin.
Local Open Scope Z_scope.
Local Open Scope rabbit_scope.

Module LapinSpec.

(** ** Header values *)

(** Induction on a header value with its nested values. *)
Lemma header_value_ind (P : HeaderValue -> Prop) :
  P Void -> (forall b, P (Boolean b)) -> (forall i, P (Integer i)) -> (forall d, P (Double d)) -> (forall s, P (Binary s)) ->
  (forall l, Forall P l -> P (Array l)) -> (forall l, Forall (fun x => P x.2) l -> P (Table l)) -> (forall s v, P (Decimal s v)) ->
  forall v, P v.
Proof.
  intros H1 H2 H3 H4 H5 H6 H7 H8. fix go 1. intros [|b|i|d|s|l|l|s x];
    [exact H1|apply H2|apply H3|apply H4|apply H5|apply H6|apply H7|apply H8].
  - induction l as [|v l IH]; constructor; [apply go|exact IH].
  - induction l as [|[k v] l IH]; constructor; [apply go|exact IH].
Qed.

Definition key_lt (a b : string) : Prop := String.compare a b = Lt.

(** The keys of a [BTreeMap]: strictly ascending. *)
Definition keys_ok {A} (l : list (string * A)) : Prop := StronglySorted key_lt l.*1.

(** A value a [HeaderValue] of the program can be: finite floats, tables that are maps. *)
Fixpoint value_ok (v : HeaderValue) : Prop :=
  match v with
  | Double bits => is_finite bits = true
  | Array l => foldr (fun x P => value_ok x /\ P) True l
  | Table l => keys_ok l /\ foldr (fun x P => value_ok x.2 /\ P) True l
  | _ => True
  end.

Definition headers_ok (h : Headers) : Prop := keys_ok h /\ Forall (fun x => value_ok x.2) h.

Lemma foldr_Forall {A} (P : A -> Prop) l : foldr (fun x Q => P x /\ Q) True l <-> Forall P l.
Proof. induction l as [|x l IH]; cbn; [split; [constructor|done]|]. by rewrite Forall_cons, IH. Qed.

Lemma key_gt a b : key_lt a b -> String.compare b a = Gt.
Proof. unfold key_lt. rewrite String.compare_antisym. by destruct (String.compare b a). Qed.

(** Inserting in ascending order appends. *)
Lemma field_insert_last t k v : Forall (fun k' => key_lt k' k) t.*1 -> field_insert t k v = t ++ [(k, v)].
Proof.
  induction t as [|[k' u] t IH]; cbn; intros H; [done|]. apply Forall_cons in H as [H1 H2]. rewrite (key_gt _ _ H1). by rewrite IH.
Qed.

Lemma headers_insert_last h k v : Forall (fun k' => key_lt k' k) h.*1 -> headers_insert h k v = h ++ [(k, v)].
Proof.
  induction h as [|[k' u] h IH]; cbn; intros H; [done|]. apply Forall_cons in H as [H1 H2]. rewrite (key_gt _ _ H1). by rewrite IH.
Qed.

Lemma keys_ok_snoc {A} (l : list (string * A)) k v l' : keys_ok (l ++ (k, v) :: l') -> Forall (fun k' => key_lt k' k) l.*1.
Proof.
  unfold keys_ok. rewrite fmap_app. cbn. induction l as [|[k' u] l IH]; cbn; [constructor|]. intros [H1 H2]%StronglySorted_inv.
  constructor; [|auto]. rewrite Forall_app, Forall_cons in H2. by destruct H2 as (_ & ? & _).
Qed.

(** The fields of a map are rebuilt by their insertions, converted on the way. *)
Lemma insert_fields (f : HeaderValue -> AMQPValue) (done : Headers) (h : Headers) :
  keys_ok (done ++ h) ->
  foldl (fun t x => field_insert t x.1 (f x.2)) ((fun x => (x.1, f x.2)) <$> done) h = (fun x => (x.1, f x.2)) <$> (done ++ h).
Proof.
  revert done. induction h as [|[k v] h IH]; intros done Hk; cbn; [by rewrite app_nil_r|].
  rewrite field_insert_last.
  - change [(k, f v)] with ((fun x : string * HeaderValue => (x.1, f x.2)) <$> [(k, v)]). rewrite <- fmap_app. rewrite IH; [|by rewrite <- app_assoc]. by rewrite <- app_assoc.
  - rewrite <- list_fmap_compose. exact (keys_ok_snoc _ _ _ _ Hk).
Qed.

(** The other way, when the values come back. *)
Lemma collect_fields (done h : Headers) :
  keys_ok (done ++ h) -> Forall (fun x => map_header_value (publish_header_value x.2) = Some x.2) h ->
  foldl (fun out x => match map_header_value x.2 with Some y => headers_insert out x.1 y | None => out end) done
    ((fun x => (x.1, publish_header_value x.2)) <$> h) = done ++ h.
Proof.
  revert done. induction h as [|[k v] h IH]; intros done Hk Hv; cbn; [by rewrite app_nil_r|].
  apply Forall_cons in Hv as [Hv Hvs]. cbn in Hv. rewrite Hv. rewrite headers_insert_last by (exact (keys_ok_snoc _ _ _ _ Hk)).
  rewrite IH; [by rewrite <- app_assoc|by rewrite <- app_assoc|done].
Qed.

Lemma map_table l :
  map_header_value (AFieldTable l) =
  Some (Table (foldl (fun out x => match map_header_value x.2 with Some y => headers_insert out x.1 y | None => out end) [] l)).
Proof.
  cbn. do 2 f_equal. generalize (@nil (string * HeaderValue)). induction l as [|[k x] l IH]; intros out; cbn; [done|].
  destruct (map_header_value x); apply IH.
Qed.

Lemma map_array l : map_header_value (AFieldArray l) = Array <$> mapM map_header_value l.
Proof. cbn. by f_equal. Qed.

Lemma header_roundtrip v : value_ok v -> map_header_value (publish_header_value v) = Some v.
Proof.
  induction v as [|b|i|bits|s|l IH|l IH|s x] using header_value_ind; intros Hv; try done.
  - cbn in *. unfold header_double. by rewrite Hv.
  - cbn [publish_header_value]. rewrite map_array. cbn in Hv. rewrite foldr_Forall in Hv.
    assert (mapM map_header_value (publish_header_value <$> l) = Some l) as ->; [|done].
    apply mapM_Some, Forall2_fmap_l, Forall_Forall2_diag. apply Forall_forall. intros x Hx.
    rewrite Forall_forall in IH. rewrite Forall_forall in Hv. auto.
  - cbn [publish_header_value]. rewrite map_table. destruct Hv as [Hk Hv]. rewrite foldr_Forall in Hv. do 2 f_equal.
    assert (foldl (fun t x => field_insert t x.1 x.2) [] ((fun x => (x.1, publish_header_value x.2)) <$> l) = (fun x => (x.1, publish_header_value x.2)) <$> l) as ->.
    { transitivity (foldl (fun t x => field_insert t x.1 (publish_header_value x.2)) [] l); [|exact (insert_fields publish_header_value [] l Hk)].
      generalize (@nil (string * AMQPValue)). induction l as [|x l IHl]; intros t; [done|]. cbn. apply IHl.
      - by apply Forall_cons in IH as [_ ?].
      - unfold keys_ok in *. cbn in Hk. by apply StronglySorted_inv in Hk as [? _].
      - by apply Forall_cons in Hv as [_ ?]. }
    apply (collect_fields [] l Hk). apply Forall_forall. intros x Hx. rewrite Forall_forall in IH. rewrite Forall_forall in Hv. auto.
Qed.

(** ** Headers on the wire *)

Lemma key_lt_trans a b c : key_lt a b -> key_lt b c -> key_lt a c.
Proof.
  unfold key_lt. revert b c. induction a as [|x a IH]; intros [|y b] [|z c]; cbn; try done. unfold Ascii.compare.
  destruct (N.compare_spec (Ascii.N_of_ascii x) (Ascii.N_of_ascii y)) as [E|E|E]; [|intros _|done];
    destruct (N.compare_spec (Ascii.N_of_ascii y) (Ascii.N_of_ascii z)) as [E'|E'|E']; try done;
    destruct (N.compare_spec (Ascii.N_of_ascii x) (Ascii.N_of_ascii z)) as [E''|E''|E'']; try done; try lia. apply IH.
Qed.

Lemma insert_keys h k v : forall a, key_lt a k -> Forall (key_lt a) h.*1 -> Forall (key_lt a) (headers_insert h k v).*1.
Proof.
  intros a Ha. induction h as [|[k' u] h IH]; cbn; intros H; [by repeat constructor|]. apply Forall_cons in H as [H1 H2].
  destruct (String.compare k k'); cbn; repeat constructor; auto.
Qed.

Lemma headers_ok_insert h k v : headers_ok h -> value_ok v -> headers_ok (headers_insert h k v).
Proof.
  intros [Hk Hv] H. split.
  - unfold keys_ok in *. induction h as [|[k' u] h IH]; cbn in *; [repeat constructor|]. apply StronglySorted_inv in Hk as [Hk1 Hk2].
    apply Forall_cons in Hv as [_ Hv]. destruct (String.compare k k') eqn:E; cbn.
    + apply String.compare_eq_iff in E as ->. by constructor.
    + constructor; [by constructor|]. constructor; [done|]. eapply Forall_impl; [exact Hk2|]. intros c. by apply key_lt_trans.
    + constructor; [auto|]. apply insert_keys; [|done]. unfold key_lt. rewrite String.compare_antisym. by rewrite E.
  - induction h as [|[k' u] h IH]; cbn in *; [by repeat constructor|]. apply Forall_cons in Hv as [Hu Hv].
    unfold keys_ok in Hk. cbn in Hk. apply StronglySorted_inv in Hk as [Hk _]. destruct (String.compare k k'); repeat constructor; auto.
Qed.

Lemma headers_ok_remove h k : headers_ok h -> headers_ok (headers_remove h k).
Proof.
  unfold headers_remove. intros [Hk Hv]. split; [|rewrite Forall_forall in *; intros x [_ Hx]%list_elem_of_filter; auto]. unfold keys_ok in *.
  induction h as [|[k' u] h IH]; [constructor|]. cbn in Hk. apply StronglySorted_inv in Hk as [Hk1 Hk2]. apply Forall_cons in Hv as [_ Hv].
  rewrite filter_cons. case_decide; [|auto]. cbn. constructor; [auto|]. rewrite Forall_forall in *. intros x (y & -> & Hy)%list_elem_of_fmap.
  apply list_elem_of_filter in Hy as [_ Hy]. apply Hk2. apply list_elem_of_fmap. eauto.
Qed.

Lemma headers_ok_delayed r h a h' : headers_ok h -> delayed_headers r h a = Ok h' -> headers_ok h'.
Proof.
  intros H. unfold delayed_headers. destruct (validate _ _); [|done]. intros [= <-]. apply headers_ok_insert; [|done].
  by apply headers_ok_remove, headers_ok_remove.
Qed.

Definition on_wire (h : Headers) : FieldTable := (fun x => (x.1, publish_header_value x.2)) <$> h.

Lemma on_wire_insert h k v : on_wire (headers_insert h k v) = field_insert (on_wire h) k (publish_header_value v).
Proof. unfold on_wire. induction h as [|[k' u] h IH]; cbn; [done|]. destruct (String.compare k k'); cbn; [done..|]. by rewrite IH. Qed.

Lemma collected h : headers_ok h -> map_headers (Some (on_wire h)) = h.
Proof.
  intros [Hk Hv]. apply (collect_fields [] h Hk). eapply Forall_impl; [exact Hv|]. intros x. apply header_roundtrip.
Qed.

(** The headers of a publication, with the header of the delay plugin. *)
Definition wire_headers (p : PublishProperties) : Headers :=
  match pp_delay_ms p with
  | Some d => headers_insert (pp_headers p) "x-delay" (Integer (Z.min d I64_MAX))
  | None => pp_headers p
  end.

Lemma headers_delivered p : headers_ok (pp_headers p) -> map_headers (bp_headers (publish_properties p)) = wire_headers p.
Proof.
  intros Hok. unfold publish_properties, wire_headers. cbn [bp_headers].
  pose proof (insert_fields publish_header_value [] (pp_headers p) (proj1 Hok)) as Hf. cbn [fmap list_fmap app] in Hf. rewrite Hf.
  change ((fun x => (x.1, publish_header_value x.2)) <$> pp_headers p) with (on_wire (pp_headers p)).
  destruct (pp_delay_ms p) as [d|].
  - rewrite (bool_decide_true (is_Some (Some d))) by done. rewrite orb_true_r.
    replace (if d <=? I64_MAX then d else I64_MAX) with (Z.min d I64_MAX) by (destruct (Z.leb_spec d I64_MAX); lia).
    change (ALongLongInt ?i) with (publish_header_value (Integer i)). rewrite <- on_wire_insert. apply collected. by apply headers_ok_insert.
  - rewrite (bool_decide_false (is_Some (@None Z))) by (by intros [? ?]). rewrite orb_false_r. case_bool_decide as E; cbn [negb]; [by rewrite E|by apply collected].
Qed.

(** C32. Headers survive the wire: what a consumer reads from a published message is what
    the publication carried, nested tables, arrays, floats and decimals included, plus
    the plugin's delay header. So do attempts: a message released with a delay at
    attempt [a] arrives as attempt [a + 1]. *)
Theorem headers_survive_the_wire p :
  (headers_ok (pp_headers p) -> map_headers (bp_headers (publish_properties p)) = wire_headers p) /\
  forall r h a redelivered, headers_ok h -> 1 <= a < U32_MAX -> delayed_headers r h a = Ok (pp_headers p) ->
    resolve r (map_headers (bp_headers (publish_properties p))) redelivered = Ok (a + 1).
Proof.
  split; [apply headers_delivered|]. intros r h a redelivered Hok Ha Hd. rewrite headers_delivered by by eapply headers_ok_delayed.
  rewrite <- (delayed_headers_next r h a _ redelivered Ha Hd). unfold wire_headers. destruct (pp_delay_ms p); [|done].
  unfold resolve, header_count. by rewrite !headers_get_insert_ne.
Qed.

(** ** Delays on the wire *)

Lemma field_get_insert_eq t k v : field_get (field_insert t k v) k = Some v.
Proof.
  induction t as [|[k' u] t IH]; cbn; [by rewrite String.eqb_refl|]. destruct (String.compare k k') eqn:E; cbn; rewrite ?String.eqb_refl; try done.
  destruct (String.eqb_spec k' k) as [->|]; [|done]. rewrite string_compare_refl in E. congruence.
Qed.

Lemma field_get_insert_ne t k k' v : k <> k' -> field_get (field_insert t k v) k' = field_get t k'.
Proof.
  intros Hne. assert (String.eqb k k' = false) as Hk by (by apply String.eqb_neq).
  induction t as [|[k0 u] t IH]; cbn; [by rewrite Hk|]. destruct (String.compare k k0) eqn:E; cbn; rewrite ?Hk; try done.
  - apply String.compare_eq_iff in E as <-. by rewrite Hk.
  - by rewrite IH.
Qed.

Lemma insert_some_ne {A} k k' (f : A -> AMQPValue) o t : k <> k' -> field_get (insert_some k f o t) k' = field_get t k'.
Proof. destruct o; [apply field_get_insert_ne|done]. Qed.

(** The arguments of a bucket queue. *)
Lemma bucket_arguments sha256 plan d delay q :
  queue_for sha256 plan d delay = Ok q ->
  exists b, bucket_for plan delay = Ok b /\
    field_get (queue_arguments q) "x-message-ttl" = Some (ALongUInt (duration_millis b)) /\
    field_get (queue_arguments q) "x-expires" = Some (ALongUInt (duration_millis (duration_saturating_add b (expiry_margin plan)))) /\
    field_get (queue_arguments q) "x-dead-letter-exchange" = Some (ALongString (d_exchange d)) /\
    field_get (queue_arguments q) "x-dead-letter-routing-key" = Some (ALongString (d_routing_key d)).
Proof.
  unfold queue_for. destruct (bucket_for plan delay) as [b|]; [|done]. intros [= <-]. exists b. split; [done|].
  unfold queue_arguments. cbn [q_kind q_dead_letter_exchange q_dead_letter_routing_key q_message_ttl q_expires q_delivery_limit q_arguments foldl insert_some].
  rewrite bool_decide_true by done. rewrite !field_get_insert_ne by done. rewrite !field_get_insert_eq. rewrite ?field_get_insert_ne by done. by rewrite ?field_get_insert_eq.
Qed.

Lemma as_millis_sum a b : 0 <= a -> 0 <= b -> as_millis a + as_millis b <= as_millis (a + b).
Proof.
  intros Ha Hb. unfold as_millis, NANOS_PER_MILLI. apply Z.div_le_lower_bound; [done|].
  pose proof (Z.mul_div_le a 1000000). pose proof (Z.mul_div_le b 1000000). lia.
Qed.

(** The margin of a compiled plan is at least a millisecond, and the keep-alive period at most the margin. *)
Lemma keep_alive_margin v ka :
  RecoveryCoordinator.keep_alive_compile v = Some ka ->
  from_millis 1 <= expiry_margin (RecoveryCoordinator.ka_plan ka) /\
  RecoveryCoordinator.ka_period ka <= expiry_margin (RecoveryCoordinator.ka_plan ka).
Proof.
  unfold RecoveryCoordinator.keep_alive_compile, strategy_compile, plan_compile.
  destruct (dc_mode _); try done. repeat case_match; try done. intros [= <-]. simplify_eq/=.
  assert (0 < from_millis 1) by done. split; [lia|]. apply Z.max_lub; [|lia]. apply Z.div_le_upper_bound; lia.
Qed.


(** Beyond it the time to live is cut off: with a bucket of 60 days a delay of 55 days is
    accepted and the message comes back after less than 50. *)
Definition long_plan : TtlBucketPlan := mkTtlBucketPlan [from_secs (60 * 86400)] (from_secs 60).

Example long_delay_cut_short :
  exists r q ttl, route toy_digest (TtlBuckets long_plan) orders (55 * 86400 * 1000) = Ok r /\ dr_queue r = Some q /\
    field_get (queue_arguments q) "x-message-ttl" = Some (ALongUInt ttl) /\ ttl < 50 * 86400 * 1000.
Proof. do 3 eexists. split; [vm_compute; reflexivity|]. split; [reflexivity|]. split; [vm_compute; reflexivity|]. vm_compute. reflexivity. Qed.

(** With buckets of one and five seconds and a margin of a minute: a delay of 1.5 seconds waits five. *)
Definition keep_alive_config : Config.ValidatedConfig :=
  Config.mkValidated [] [] TopologyPlan.ModeDeclare [] (mkDelayConfig Ttl [from_secs 1; from_secs 5] 8 (from_secs 60)) None None
    (Config.mkPublisherSection Safe true true (from_secs 5) 0) (Config.mkConsumerSection (from_secs 1) None) Quorum true "".

Definition minute_keep_alive : RecoveryCoordinator.DelayKeepAlive :=
  RecoveryCoordinator.mkKeepAlive (mkTtlBucketPlan [from_secs 1; from_secs 5] (from_secs 60)) (from_secs 30).


(** ** Errors *)

Definition refused (k : LapinErrorKind) : bool :=
  match k with AuthProviderError => true | ProtocolError id => (id =? 403) || (id =? 530) | _ => false end.

Definition missing_topology (k : LapinErrorKind) : bool :=
  match k with ProtocolError id => (id =? 404) || (id =? 406) | _ => false end.

(** An event the stream passes over: it says nothing about the connection. *)
Definition skipped (x : LapinEvent * bool) : Prop :=
  match x.1 with EventError _ => x.2 = true | OtherEvent => True | _ => False end.

(** What the stream makes of an event. *)
Definition surfaces (x : LapinEvent * bool) (e : TransportEvent) : Prop :=
  match x.1, e with
  | ConnectionBlocked reason, Blocked reason' => reason = reason'
  | ConnectionUnblocked, Unblocked => True
  | EventError err, EError err' => x.2 = false /\ err' = map_event_stream_error err
  | _, _ => False
  end.

(** The event stream of a connection reports the first event that matters and passes
    over none: what it skips are notices and errors of single channels, which come
    while the connection is alive. An error it reports is retryable exactly when lapin
    calls it recoverable and the broker did not refuse the client; an operation's
    error is in addition permanent when the topology is missing or incompatible. *)
Theorem events_and_errors_classified events :
  match next events with
  | Some (e, rest) => exists pre x, events = pre ++ x :: rest /\ Forall skipped pre /\ surfaces x e
  | None => Forall skipped events
  end /\
  forall err, is_recoverable (map_event_stream_error err) = le_recoverable err && negb (refused (le_kind err)) /\
    is_recoverable (map_lapin_error err) = le_recoverable err && negb (refused (le_kind err)) && negb (missing_topology (le_kind err)) /\
    (te_kind (map_lapin_error err) = Authentication <-> refused (le_kind err) = true).
Proof.
  split.
  - induction events as [|[ev alive] events IH]; cbn; [constructor|]. destruct ev as [reason| |err|].
    + by exists [], (ConnectionBlocked reason, alive).
    + by exists [], (ConnectionUnblocked, alive).
    + destruct alive; [|by exists [], (EventError err, false)].
      destruct (next events) as [[e rest]|]; [|by constructor]. destruct IH as (pre & x & -> & Hp & Hx).
      exists ((EventError err, true) :: pre), x. split; [done|]. split; [by constructor|done].
    + destruct (next events) as [[e rest]|]; [|by constructor]. destruct IH as (pre & x & -> & Hp & Hx).
      exists ((OtherEvent, alive) :: pre), x. split; [done|]. split; [by constructor|done].
  - intros [k rec text]. unfold map_event_stream_error, map_lapin_error, is_recoverable, refused, missing_topology. cbn.
    destruct k as [|id|st|]; [by destruct rec|..|by destruct rec]; [|by destruct rec].
    destruct (id =? 403) eqn:E1, (id =? 530) eqn:E2, (id =? 404) eqn:E3, (id =? 406) eqn:E4; destruct rec; cbn; (split; [done|]; split; [done|]; split; done).
Qed.

(** The reply code is on an operation's error only when it is classified as a protocol
    error: a recoverable one loses it. *)
Lemma recoverable_code_lost id text :
  refused (ProtocolError id) = false -> missing_topology (ProtocolError id) = false ->
  te_protocol_code (map_lapin_error (mkLapinError (ProtocolError id) true text)) = None.
Proof. unfold map_lapin_error, refused, missing_topology. cbn. intros H1 H2. by rewrite H1, H2. Qed.

(** ** Failover *)

(** The endpoints are tried in order until one answers; when none does, all of them were
    tried and the last error is reported. *)
Theorem connect_failover {E} name (uri : E -> result string TransportError) dial endpoints :
  (forall e, is_ok (uri e) = true) ->
  match connect name (Ok tt) uri dial endpoints with
  | Ok e => exists pre post u, endpoints = pre ++ e :: post /\ uri e = Ok u /\ dial u = Ok tt /\
      Forall (fun x => forall u, uri x = Ok u -> is_ok (dial u) = false) pre
  | Err err => Forall (fun x => forall u, uri x = Ok u -> is_ok (dial u) = false) endpoints /\
      (endpoints = [] \/ exists x u e, last endpoints = Some x /\ uri x = Ok u /\ dial u = Err e /\ err = map_lapin_error e)
  end.
Proof.
  intros Hu. unfold connect. generalize (te_new Connection ("broker '" +:+ name +:+ "' has no endpoint to connect")). intros none.
  assert (Hg : forall last_error, match connect_loop uri dial endpoints last_error none with
    | Ok e => exists pre post u, endpoints = pre ++ e :: post /\ uri e = Ok u /\ dial u = Ok tt /\
        Forall (fun x => forall u, uri x = Ok u -> is_ok (dial u) = false) pre
    | Err err => Forall (fun x => forall u, uri x = Ok u -> is_ok (dial u) = false) endpoints /\
        (endpoints = [] /\ err = default none last_error \/ exists x u e, last endpoints = Some x /\ uri x = Ok u /\ dial u = Err e /\ err = map_lapin_error e)
    end).
  { induction endpoints as [|x endpoints IH]; intros last_error; cbn; [split; [constructor|by left]|].
    pose proof (Hu x) as Hx. destruct (uri x) as [u|] eqn:Ex; [|done]. destruct (dial u) as [[]|e] eqn:Ed; [by exists [], endpoints, u|].
    assert (Hfail : forall u', uri x = Ok u' -> is_ok (dial u') = false) by (intros u' E'; rewrite Ex in E'; injection E' as <-; by rewrite Ed).
    specialize (IH (Some (map_lapin_error e))). destruct (connect_loop _ _ _ _ _) as [y|err].
    - destruct IH as (pre & post & u' & -> & H1 & H2 & H3). exists (x :: pre), post, u'. split_and!; try done. by constructor.
    - destruct IH as [H1 [[-> ->]|(y & u' & e' & H2 & H3 & H4 & H5)]]; (split; [by constructor|]); right.
      + by exists x, u, e.
      + exists y, u', e'. split_and!; try done. destruct endpoints; [done|]. by rewrite last_cons_cons. }
  specialize (Hg None). destruct (connect_loop _ _ _ _ _); [done|]. destruct Hg as [H1 [[-> _]|H2]]; auto.
Qed.

End LapinSpec.
