(* ===== verification/PhpDelivery.v ===== *)
(** * The delivery objects of the PHP extension

    Models [classes/delivery.rs] and the settlement calls of
    [classes/consumer.rs]: [ack], [release], [reject] and [ackBatch] over the
    consumer system, with the bounded spin on a full control channel, and the
    conversion of delivery headers to PHP arrays.

    While a call spins it yields: before retry [k] the rest of the system makes
    the steps [others k] (those of them that are possible then). *)

From S2P Require Import Prelude Transport Publication Scheduler Attempts DelayTopology DelayRouting.
From S2P Require Import Prefetch Delivery ConsumerActor ConsumerInv ConsumerBounds ConsumerFifo.
From S2P Require Import ConsumerSerial ConsumerSystem PhpConversion PhpConversionSpec Lapin LapinSpec.
Import Transport Delivery PhpConversion.
Local Open Scope Z_scope.
Local Open Scope string_scope.

Module PhpDelivery.

Abbreviation Sys := ConsumerSystem.Sys.

(** ** Settling from PHP *)

(** A [Delivery] object: the token it holds and the process that received it. *)
Record PhpDelivery := mkPhpDelivery { pd_token : nat; pd_pid : Z }.

Abbreviation PhpResult := (result unit string).

Definition SPIN_ROUNDS : nat := 64.

Section Settle.
Variable sha256 : string -> string.
Variable subs : list ConsumerActor.Subscription.
Variable others : nat -> list ConsumerSystem.Label.

(** Everybody else, while the PHP thread yields. *)
Definition yield_now (k : nat) (s : Sys) : Sys :=
  foldl (fun s l => default s (ConsumerSystem.sys_step sha256 subs l s)) s (others k).

(** One attempt of a call: its answer and the system after it. *)
Definition Attempt := Sys -> result unit SettlementErrorKind * Sys.

(** [spin_settle], from retry [k] on; with the systems the attempts met. *)
Fixpoint spin_settle (rounds k : nat) (retry : Attempt) (s : Sys) : PhpResult * Sys * list Sys :=
  match rounds with
  | O => (Err "settlement channel full after backpressure timeout", s, [])
  | S rounds' =>
      let s := yield_now k s in
      match retry s with
      | (Ok _, s') => (Ok tt, s', [s])
      | (Err _, s') => let '(r, s', met) := spin_settle rounds' (S k) retry s' in (r, s', s :: met)
      end
  end.

Definition settle_with_backpressure (try_settle : Attempt) (s : Sys) : PhpResult * Sys * list Sys :=
  match try_settle s with
  | (Ok _, s') => (Ok tt, s', [s])
  | (Err AlreadySettled, s') => (Err "delivery token is already terminal or transitioning", s', [s])
  | (Err SClosed, s') => (Err "consumer set is closed", s', [s])
  | (Err ChannelFull, s') =>
      let '(r, s', met) := spin_settle SPIN_ROUNDS 0 try_settle s' in (r, s', s :: met)
  end.

Definition attempt (n : nat) (settlement : Settlement) (latency : Z) : Attempt :=
  ConsumerSystem.try_settle_token n settlement latency.

Definition token_state (n : nat) (s : Sys) : option DeliveryState :=
  tk_state <$> ConsumerActor.tokens (ConsumerActor.shared (ConsumerSystem.st s)) !! n.

Definition ensure_current_process (d : PhpDelivery) (pid : Z) (operation : string) : PhpResult :=
  if (pd_pid d =? pid)%Z then Ok tt else Err (operation +:+ " cannot use a delivery inherited across fork").

(** A settling method: the process, the auto-acknowledged deliveries, the
    argument, the settlement. *)
Definition settling (operation verb : string) (argument : result Settlement string) (d : PhpDelivery) (pid latency : Z)
    (s : Sys) : PhpResult * Sys * list Sys :=
  match ensure_current_process d pid ("Goopil\RabbitRs\Delivery::" +:+ operation) with
  | Err e => (Err e, s, [])
  | Ok _ =>
      if bool_decide (token_state (pd_token d) s = Some AutoAcked)
      then (Err ("cannot " +:+ verb +:+ " an auto-acked delivery"), s, [])
      else
        match argument with
        | Err e => (Err e, s, [])
        | Ok settlement => settle_with_backpressure (attempt (pd_token d) settlement latency) s
        end
  end.

Definition ack : PhpDelivery -> Z -> Z -> Sys -> PhpResult * Sys * list Sys := settling "ack" "ack" (Ok SAck).

Definition release (delayMs : Z) : PhpDelivery -> Z -> Z -> Sys -> PhpResult * Sys * list Sys :=
  settling "release" "release"
    (match try_from U64_MAX delayMs with
     | Some delay => Ok (SRelease (from_millis delay))
     | None => Err "delayMs must be a non-negative integer"
     end).

Definition reject (requeue : bool) : PhpDelivery -> Z -> Z -> Sys -> PhpResult * Sys * list Sys :=
  settling "reject" "reject" (Ok (SReject requeue)).

(** The loop of [ackBatch]: [None] stands for an array element that is no
    delivery. *)
Fixpoint ack_loop (deliveries : list (option PhpDelivery)) (latency : Z) (s : Sys) : PhpResult * Sys :=
  match deliveries with
  | [] => (Ok tt, s)
  | None :: _ => (Err "ackBatch expects an array of Delivery objects", s)
  | Some d :: rest =>
      match settle_with_backpressure (attempt (pd_token d) SAck latency) s with
      | (Ok _, s', _) => ack_loop rest latency s'
      | (Err e, s', _) => (Err e, s')
      end
  end.

Definition ackBatch (deliveries : list (option PhpDelivery)) (latency : Z) (s : Sys) : PhpResult * Sys :=
  if (256 <? Z.of_nat (length deliveries))%Z then (Err "ackBatch: maximum 256 deliveries per call", s)
  else ack_loop deliveries latency s.

(** ** What the calls do *)

Abbreviation full_message := "settlement channel full after backpressure timeout".

(** The attempt that meets [m] cannot enqueue, and does not. *)
Definition refused (n : nat) (settlement : Settlement) (latency : Z) (m : Sys) : Prop :=
  ~ (token_state n m = Some Pending /\ ConsumerSystem.control_send m = Sent) /\
  ConsumerSystem.control (attempt n settlement latency m).2 = ConsumerSystem.control m.

(** The attempt that meets [m] settles: one command, and the final state. *)
Definition settles (n : nat) (settlement : Settlement) (latency : Z) (m s' : Sys) : Prop :=
  token_state n m = Some Pending /\ token_state n s' = Some (terminal_of settlement) /\
  ConsumerSystem.control s' = (ConsumerSystem.control m ++ [ConsumerActor.CmdSettle n settlement latency])%list.

Lemma attempt_cases n settlement latency m r s' :
  attempt n settlement latency m = (r, s') ->
  match r with Ok _ => settles n settlement latency m s' | Err _ => refused n settlement latency m end.
Proof.
  unfold refused, settles, attempt, token_state, ConsumerSystem.try_settle_token. intros H.
  destruct (ConsumerActor.tokens _ !! n) as [t|] eqn:Et; [|by injection H as <- <-; cbn; split; [intros [? ?]|]].
  unfold Delivery.try_settle in *.
  destruct (tk_state t) eqn:Es, (ConsumerSystem.control_send m) eqn:Ec; cbn in H; injection H as <- <-; cbn;
    rewrite ?Es; try (split; [naive_solver|done]).
  split; [done|]. split; [|done]. unfold ConsumerActor.store_state, ConsumerActor.upd_token. cbn.
  by rewrite list_lookup_alter_eq, Et.
Qed.

(** What a settling call has done when it returns. *)
Record outcome (n : nat) (settlement : Settlement) (latency : Z) (rounds : nat) (r : PhpResult) (s' : Sys) (met : list Sys)
  : Prop := {
  oc_ok : r = Ok tt -> exists before m, met = (before ++ [m])%list /\
    Forall (refused n settlement latency) before /\ settles n settlement latency m s';
  oc_err : forall e, r = Err e -> Forall (refused n settlement latency) met;
  oc_bound : (length met <= rounds)%nat;
  oc_full : r = Err full_message -> length met = rounds
}.

Lemma outcome_cons n settlement latency rounds r s' met m :
  refused n settlement latency m -> outcome n settlement latency rounds r s' met ->
  outcome n settlement latency (S rounds) r s' (m :: met).
Proof.
  intros Hm [H1 H2 H3 H4]. split; cbn.
  - intros Hr. destruct (H1 Hr) as (before & x & -> & Hb & Hx). exists (m :: before), x. split; [done|]. by split; [constructor|].
  - intros e He. constructor; [done|by eapply H2].
  - lia.
  - intros He. by rewrite H4.
Qed.

Lemma spin_outcome n settlement latency rounds : forall k s r s' met,
  spin_settle rounds k (attempt n settlement latency) s = (r, s', met) -> outcome n settlement latency rounds r s' met.
Proof.
  induction rounds as [|rounds IH]; intros k s r s' met; cbn [spin_settle]; [intros [= <- <- <-]; by split|].
  destruct (attempt n settlement latency (yield_now k s)) as [[[]|e] s1] eqn:Ea; pose proof (attempt_cases _ _ _ _ _ _ Ea) as Hc.
  - intros [= <- <- <-]. split; try done; [|cbn; lia]. intros _. by exists [], (yield_now k s).
  - destruct (spin_settle rounds (S k) _ s1) as [[r1 s2] met1] eqn:Er. intros [= <- <- <-].
    apply outcome_cons; [done|by eapply IH].
Qed.

(** The embedder keeps the deliveries it received. *)
Lemma popped_grows l y y' : ConsumerSystem.sys_step sha256 subs l y = Some y' -> ConsumerSystem.popped y ⊆ ConsumerSystem.popped y'.
Proof.
  set (Q := fun s => ConsumerSystem.popped y ⊆ ConsumerSystem.popped s).
  assert (forall s it s', ConsumerSystem.buffer_recv s = Some (it, s') -> Q s -> Q s') as Hrecv.
  { intros s it s'. unfold ConsumerSystem.buffer_recv, Q. destruct (ConsumerActor.flume _) as [|x rest]; [done|].
    intros [= -> <-]. destruct it; cbn; set_solver. }
  assert (forall e s, Q s -> Q (ConsumerSystem.stash e s)) as Hstash by done.
  assert (Q y) as Hy by (unfold Q; done).
  destruct l as [n settlement latency|n latency| |max| | |sub res| | | |i a|i a|i|events]; cbn [ConsumerSystem.sys_step].
  - case_decide; [|done]. intros [= <-]. unfold ConsumerSystem.try_settle_token. destruct (_ !! n); [|done].
    by destruct (Delivery.try_settle _ _ _) as [[r state] enq].
  - intros [= <-]. unfold ConsumerSystem.try_settle_through. by destruct (ConsumerSystem.control_send y).
  - intros [= <-]. by apply (ConsumerSystem.try_next_keeps Q).
  - intros [= <-]. by apply (ConsumerSystem.try_next_batch_keeps Q).
  - intros ([r x] & Hn & ->)%fmap_Some. by eapply (ConsumerSystem.next_keeps Q).
  - destruct (ConsumerSystem.control y); [done|]. destruct (ConsumerSystem.open y); [|done]. by intros [= <-].
  - destruct (_ && _)%bool; [|done]. by intros [= <-].
  - destruct (_ && _)%bool; [|done]. by intros [= <-].
  - destruct (ConsumerSystem.open y); [|done]. by intros [= <-].
  - destruct (ConsumerSystem.open y); [|done]. by intros [= <-].
  - destruct (ConsumerSystem.open y); [|done]. by intros (x & Hx & ->)%fmap_Some.
  - destruct (ConsumerSystem.open y); [|done]. by intros (x & Hx & ->)%fmap_Some.
  - by intros (x & Hx & ->)%fmap_Some.
  - destruct (ConsumerSystem.open y); [|done]. by intros [= <-].
Qed.

(** The system runs on while a call spins. *)
Definition live (n : nat) (s : Sys) : Prop := ConsumerSystem.reach sha256 subs s /\ n ∈ ConsumerSystem.popped s.

Lemma live_step n l s s' : live n s -> ConsumerSystem.sys_step sha256 subs l s = Some s' -> live n s'.
Proof. intros [Hr Hn] Hs. split; [by eapply ConsumerSystem.reach_step|by eapply popped_grows]. Qed.

Lemma live_yield n k s : live n s -> live n (yield_now k s).
Proof.
  unfold yield_now. generalize (others k). intros ls. revert s. induction ls as [|l ls IH]; intros s Hs; [done|].
  cbn [foldl]. apply IH. destruct (ConsumerSystem.sys_step sha256 subs l s) eqn:E; [by eapply live_step|done].
Qed.

Lemma live_attempt n settlement latency s : live n s -> live n (attempt n settlement latency s).2.
Proof.
  intros Hs. eapply (live_step n (ConsumerSystem.LTrySettle n settlement latency)); [done|]. cbn. rewrite decide_True; [done|apply Hs].
Qed.

Lemma live_spin n settlement latency rounds : forall k s,
  live n s -> live n (spin_settle rounds k (attempt n settlement latency) s).1.2.
Proof.
  induction rounds as [|rounds IH]; intros k s Hs; cbn [spin_settle]; [done|].
  pose proof (live_attempt n settlement latency _ (live_yield n k s Hs)) as Ha.
  destruct (attempt n settlement latency (yield_now k s)) as [[[]|e] s1]; cbn [snd fst] in *; [done|].
  specialize (IH (S k) s1 Ha). by destruct (spin_settle rounds (S k) _ s1) as [[r1 s2] met1].
Qed.

Lemma settle_outcome n settlement latency s r s' met :
  settle_with_backpressure (attempt n settlement latency) s = (r, s', met) ->
  outcome n settlement latency (S SPIN_ROUNDS) r s' met /\ (live n s -> live n s').
Proof.
  unfold settle_with_backpressure. pose proof (live_attempt n settlement latency s) as Hl.
  destruct (attempt n settlement latency s) as [[[]|[]] s1] eqn:Ea; pose proof (attempt_cases _ _ _ _ _ _ Ea) as Hc;
    cbn [snd] in Hl.
  - intros [= <- <- <-]. split; [|done]. split; try done; [|cbn; lia]. intros _. by exists [], s.
  - intros [= <- <- <-]. split; [|done]. split; try done; [|cbn; lia]. intros e _. by constructor.
  - destruct (spin_settle SPIN_ROUNDS 0 _ s1) as [[r1 s2] met1] eqn:Er. intros [= <- <- <-]. split.
    + apply outcome_cons; [done|by eapply spin_outcome].
    + intros Hs. pose proof (live_spin n settlement latency SPIN_ROUNDS 0 s1 (Hl Hs)) as H. by rewrite Er in H.
  - intros [= <- <- <-]. split; [|done]. split; try done; [|cbn; lia]. intros e _. by constructor.
Qed.

(** ** Theorem on settling *)

(** C27. A settling method of a delivery object answers truthfully. It returns
    without exception exactly when one of its at most 65 attempts enqueued the
    settlement, once, and left the token in the state the settlement announces;
    when it throws, no attempt has enqueued anything, since each met a token that
    was not pending or a channel without room. It reports a full channel only after
    the last attempt, and refuses a delivery of another process before the first.
    Meanwhile the consumer system only makes steps of its own. *)
Theorem php_settlement_exact operation verb argument d pid latency s r s' met :
  settling operation verb argument d pid latency s = (r, s', met) ->
  (r = Ok tt -> exists settlement before m, argument = Ok settlement /\ met = (before ++ [m])%list /\
     Forall (refused (pd_token d) settlement latency) before /\ settles (pd_token d) settlement latency m s') /\
  (forall e settlement, r = Err e -> argument = Ok settlement -> Forall (refused (pd_token d) settlement latency) met) /\
  (length met <= 65)%nat /\ (argument <> Err full_message -> r = Err full_message -> length met = 65%nat) /\
  (pd_pid d <> pid -> met = [] /\ s' = s /\ r <> Ok tt) /\
  (live (pd_token d) s -> live (pd_token d) s').
Proof.
  unfold settling, ensure_current_process. destruct (Z.eqb_spec (pd_pid d) pid) as [Ep|Ep].
  - case_bool_decide as Ea.
    { intros [= <- <- <-]. repeat (split; [done|]). split; [cbn; lia|]. split; [|done]. intros _ [=]. }
    destruct argument as [settlement|e].
    + intros [Ho Hl]%settle_outcome. destruct Ho as [H1 H2 H3 H4]. split; [|split; [|split; [done|split; [|split]]]].
      * intros Hr. destruct (H1 Hr) as (before & m & H). by exists settlement, before, m.
      * intros e x Hr [= <-]. by eapply H2.
      * intros _. apply H4.
      * done.
      * done.
    + intros [= <- <- <-]. repeat (split; [done|]). split; [cbn; lia|]. split; [|done]. intros Hne [= ->]. done.
  - intros [= <- <- <-]. split; [done|]. split; [by intros|]. split; [cbn; lia|]. split; [intros _ [=]|]. done.
Qed.
End Settle.

(** ** Headers as PHP arrays *)

(** A PHP array as a value: its entries in order. *)
Inductive Php :=
| PNull
| PBool (b : bool)
| PLong (i : Z)
| PDouble (bits : Z)
| PString (s : string)
| PArray (entries : list (Key * Php)).

#[global] Instance Key_eq_dec : EqDecision Key.
Proof. solve_decision. Defined.
#[global] Instance KStr_inj : Inj eq eq KStr.
Proof. by intros ? ? [= ->]. Qed.

(** [ZendHashTable::insert]: an entry keeps its place when its key is there. *)
Fixpoint table_insert (t : list (Key * Php)) (key : Key) (v : Php) : list (Key * Php) :=
  match t with
  | [] => [(key, v)]
  | (k, u) :: t' => if decide (k = key) then (key, v) :: t' else (k, u) :: table_insert t' key v
  end.

Section Headers.
(** How the bindings turn a string into an array key. *)
Variable array_key : string -> Key.

(** [insert_header] at its value: [None] for a decimal, which is dropped. *)
Fixpoint header_to_php (value : HeaderValue) : option Php :=
  match value with
  | Void => Some PNull
  | Boolean b => Some (PBool b)
  | Integer i => Some (PLong i)
  | Double bits => Some (PDouble bits)
  | Binary bytes => Some (PString bytes)
  | Array values =>
      Some (PArray ((fix go (index : nat) (t : list (Key * Php)) (l : list HeaderValue) :=
        match l with
        | [] => t
        | v :: l' =>
            go (S index) (match header_to_php v with Some p => table_insert t (KLong (Z.of_nat index)) p | None => t end) l'
        end) 0%nat [] values))
  | Transport.Table values =>
      Some (PArray ((fix go (t : list (Key * Php)) (l : list (string * HeaderValue)) :=
        match l with
        | [] => t
        | (name, v) :: l' => go (match header_to_php v with Some p => table_insert t (array_key name) p | None => t end) l'
        end) [] values))
  | Decimal _ _ => None
  end.

Definition insert_header (t : list (Key * Php)) (key : Key) (value : HeaderValue) : list (Key * Php) :=
  match header_to_php value with Some p => table_insert t key p | None => t end.

(** The [headers] entry of [metadata]. *)
Definition metadata_headers (h : Headers) : list (Key * Php) :=
  foldl (fun t x => insert_header t (array_key x.1) x.2) [] h.

Definition state_name (st : DeliveryState) : string :=
  match st with
  | Pending => "pending" | Acked => "acked" | Rejected => "rejected" | Lost => "lost" | AutoAcked => "auto_acked"
  end.

(** [deliveryTag] *)
Definition deliveryTag (tag : Z) : result Z string := ok_or (try_from I64_MAX tag) "delivery tag exceeds i64 range".

(** A scalar as the value PHP hands to [publish]; arrays are tables elsewhere in
    memory. *)
Definition as_zval (v : Php) : Zval :=
  match v with
  | PNull => ZNull | PBool b => ZBool b | PLong i => ZLong i | PDouble bits => ZDouble bits | PString s => ZString s
  | PArray _ => ZArray 0
  end.

Definition is_flat (v : HeaderValue) : bool :=
  match v with Array _ | Transport.Table _ | Decimal _ _ => false | Double bits => is_finite bits | _ => true end.

Definition as_php (v : HeaderValue) : Php := default PNull (header_to_php v).

Lemma table_insert_fresh t k v : k ∉ t.*1 -> table_insert t k v = (t ++ [(k, v)])%list.
Proof.
  induction t as [|[k' u] t IH]; [done|]. cbn. intros H. rewrite decide_False by set_solver. rewrite IH; [done|set_solver].
Qed.

Lemma metadata_flat h done :
  Forall (fun x => is_flat x.2 = true) h -> NoDup ((array_key <$> done.*1) ++ (array_key <$> h.*1)) ->
  foldl (fun t x => insert_header t (array_key x.1) x.2) ((fun x => (array_key x.1, as_php x.2)) <$> done) h =
  ((fun x => (array_key x.1, as_php x.2)) <$> (done ++ h)%list).
Proof.
  revert done. induction h as [|[k v] h IH]; intros done Hf Hn; [by rewrite app_nil_r|]. apply Forall_cons in Hf as [Hv Hf].
  cbn [foldl fst snd] in *. assert (insert_header ((fun x => (array_key x.1, as_php x.2)) <$> done) (array_key k) v =
    (fun x => (array_key x.1, as_php x.2)) <$> (done ++ [(k, v)])%list) as ->.
  { unfold insert_header. assert (header_to_php v = Some (as_php v)) as -> by (by destruct v).
    rewrite table_insert_fresh, fmap_app; [done|]. rewrite <- list_fmap_compose.
    apply NoDup_app in Hn as (_ & Hd & _). intros Hin. apply (Hd (array_key k)); [by rewrite <- list_fmap_compose|by left]. }
  rewrite IH; [by rewrite <- (assoc_L app)|done|]. rewrite fmap_app, fmap_app, <- (assoc_L app). exact Hn.
Qed.

(** The table as [publish] receives it. *)
Definition as_table (t : list (Key * Php)) : PhpConversion.Table := (fun x => (x.1, as_zval x.2)) <$> t.

Definition spent (b : ConversionBudget) (bytes : Z) : ConversionBudget :=
  mkBudget (payload_bytes b) (header_entries b) (header_bytes b + bytes).

Lemma spend path key bytes b :
  header_bytes b + bytes <= MAX_HEADER_BYTES -> add_header_bytes path key bytes b = Ok (spent b bytes).
Proof.
  intros H. unfold add_header_bytes, checked_add. rewrite (proj2 (Z.leb_le _ _)) by (unfold MAX_HEADER_BYTES, U64_MAX in *; lia).
  cbn. by rewrite (proj2 (Z.ltb_ge _ _)) by lia.
Qed.

Lemma spent_spent b x y : spent (spent b x) y = spent b (x + y).
Proof. unfold spent. cbn. by rewrite Z.add_assoc. Qed.

Lemma flat_value m path parent key v b :
  is_flat v = true -> header_bytes b + PhpConversionSpec.value_cost v <= MAX_HEADER_BYTES ->
  header_value m (as_zval (as_php v)) path parent key b = Ok (v, spent b (PhpConversionSpec.value_cost v)).
Proof.
  intros Hf Hc. destruct v; try done; unfold as_php; cbn [header_to_php default as_zval from_option id]; unfold header_value;
    cbn [dereference]; cbn [PhpConversionSpec.value_cost] in *; rewrite ?spend by done; try done.
  - unfold spent. rewrite Z.add_0_r. by destruct b.
  - cbn in Hf. by rewrite Hf.
Qed.

Lemma republish m path h : forall out b,
  LapinSpec.keys_ok (out ++ h) -> Forall (fun x => is_flat x.2 = true) h ->
  Forall (fun k => valid_utf8 k = true /\ array_key k = KStr k) h.*1 ->
  header_bytes b + sumZ PhpConversionSpec.header_cost h <= MAX_HEADER_BYTES ->
  header_entries_of m path (as_table ((fun x => (array_key x.1, as_php x.2)) <$> h)) out b =
  Ok ((out ++ h)%list, spent b (sumZ PhpConversionSpec.header_cost h)).
Proof.
  induction h as [|[k v] h IH]; intros out b Hk Hf Hu Hc.
  { cbn. rewrite app_nil_r. unfold spent. rewrite sumZ_nil, Z.add_0_r. by destruct b. }
  apply Forall_cons in Hf as [Hv Hf]. cbn in Hu. apply Forall_cons in Hu as [[Hutf Hkey] Hu]. rewrite sumZ_cons in Hc.
  assert (0 <= sumZ PhpConversionSpec.header_cost h) as Hpos
    by (apply sumZ_nonneg, Forall_true; intros x; apply PhpConversionSpec.header_cost_nonneg).
  assert (PhpConversionSpec.header_cost (k, v) = Z.of_nat (String.length k) + PhpConversionSpec.value_cost v) as Hkv by done.
  pose proof (PhpConversionSpec.value_cost_nonneg v) as Hv0.
  cbn [as_table fmap list_fmap header_entries_of fst snd]. rewrite Hkey, Hutf. rewrite spend by lia.
  rewrite flat_value; [|done|cbn; lia]. cbn [fst snd].
  rewrite LapinSpec.headers_insert_last by exact (LapinSpec.keys_ok_snoc _ _ _ _ Hk).
  change (@fmap list list_fmap _ _ (fun x => (x.1, as_zval x.2)) ?l) with (as_table l). rewrite IH.
  - rewrite <- (assoc_L app), !spent_spent, sumZ_cons, Hkv. do 3 f_equal. lia.
  - by rewrite <- (assoc_L app).
  - done.
  - done.
  - cbn. lia.
Qed.

Lemma sorted_keys_distinct ks : StronglySorted LapinSpec.key_lt ks -> NoDup ks.
Proof.
  induction 1 as [|k ks Hs IH Hlt]; constructor; [|done].
  intros Hin. rewrite Forall_forall in Hlt. specialize (Hlt k Hin). unfold LapinSpec.key_lt in Hlt.
  apply LapinSpec.key_gt in Hlt as Hgt. unfold LapinSpec.key_lt in Hlt. congruence.
Qed.

(** Scalar headers survive PHP: the headers a delivery object shows, given
    back to [publish], are the headers of the delivery, for every table of scalar,
    finite values whose names are valid UTF-8 and stay array keys of their own, within
    the limit on header bytes, of which exactly their size is spent. *)
Theorem flat_headers_republished m path h b :
  LapinSpec.keys_ok h -> Forall (fun x => is_flat x.2 = true) h ->
  Forall (fun k => valid_utf8 k = true /\ array_key k = KStr k) h.*1 ->
  header_bytes b + sumZ PhpConversionSpec.header_cost h <= MAX_HEADER_BYTES ->
  header_entries_of m path (as_table (metadata_headers h)) [] b = Ok (h, spent b (sumZ PhpConversionSpec.header_cost h)).
Proof.
  intros Hk Hf Hu Hc. unfold metadata_headers. pose proof (metadata_flat h [] Hf) as E. cbn [fmap list_fmap app] in E.
  rewrite E; [by apply (republish m path h [])|].
  assert (array_key <$> h.*1 = KStr <$> h.*1) as ->.
  { apply Forall_fmap_ext_1. eapply Forall_impl; [exact Hu|]. by intros k [_ ?]. }
  apply (NoDup_fmap_2 KStr). by apply sorted_keys_distinct.
Qed.
End Headers.

(** ** Runs *)

Definition no_digest (s : string) : string := s.

Definition held : Sys :=
  default ConsumerSystem.start
    (ConsumerSystem.run no_digest ConsumerSystem.jobs
       [ConsumerSystem.LIncoming "jobs" (Ok (ConsumerSystem.job 1)); ConsumerSystem.LTryNext] ConsumerSystem.start).

(** The control channel is full: 256 settlements wait. *)
Definition saturated : Sys :=
  foldl (fun s _ => (ConsumerSystem.try_settle_through 0 0 s).2) held (seq 0 256).

Definition first_delivery : PhpDelivery := mkPhpDelivery 0 4711.

(** The actor handles a command before the third retry. *)
Definition actor_catches_up (k : nat) : list ConsumerSystem.Label :=
  if decide (k = 2%nat) then [ConsumerSystem.LControl] else [].

Definition catching_up : PhpResult * Sys * list Sys :=
  ack no_digest ConsumerSystem.jobs actor_catches_up first_delivery 4711 0 saturated.

(** Witness of the theorem on settling: the fourth attempt enqueues. *)
Lemma php_settlement_exact_witness :
  catching_up.1.1 = Ok tt /\ length catching_up.2 = 4%nat /\ (length catching_up.2 <= 65)%nat.
Proof.
  split; [vm_compute; reflexivity|]. split; [vm_compute; reflexivity|].
  eapply (php_settlement_exact no_digest ConsumerSystem.jobs actor_catches_up "ack" "ack" (Ok SAck) first_delivery 4711 0
    saturated catching_up.1.1 catching_up.1.2 catching_up.2).
  unfold catching_up, ack. by destruct (settling _ _ _ _ _ _ _ _ _ _) as [[? ?] ?].
Defined.

(** A set that closes while a call spins: the token is lost, and the exception
    speaks of a full channel. *)
Lemma closed_reported_as_full :
  let '(r, s', _) := ack no_digest ConsumerSystem.jobs (fun _ => [ConsumerSystem.LClose []]) first_delivery 4711 0 saturated in
  r = Err "settlement channel full after backpressure timeout" /\ ConsumerSystem.open s' = false /\
  token_state 0 s' = Some Lost.
Proof. vm_compute. done. Qed.

Definition two_headers : Headers := [("trace", Binary "ab"); ("x-attempts", Integer 3)].

(** Witness of the theorem on headers. *)
Lemma flat_headers_republished_witness :
  header_entries_of (mkMemory (fun _ => []) (fun _ => ZNull)) "messages[0]" (as_table (metadata_headers KStr two_headers)) []
    budget_default = Ok (two_headers, mkBudget 0 0 25).
Proof.
  apply (flat_headers_republished KStr (mkMemory (fun _ => []) (fun _ => ZNull)) "messages[0]" two_headers budget_default).
  - by repeat constructor.
  - by repeat constructor.
  - by repeat constructor.
  - vm_compute. discriminate.
Defined.

End PhpDelivery.
