(* ===== verification/EventBridge.v ===== *)
(** * The event bridge of the PHP extension

    Models [classes/bridge.rs] and [callbacks.rs]: the PHP callbacks registered for
    connection states and backpressure, and [EventBridge::drain], which compares
    what the client reports with what was last seen and calls them.

    Everything runs on the PHP thread, but a callback may call the pool, which
    drains again before the first drain is done. A drain in progress is therefore
    a [Frame] on a stack; a label is one step of the top frame, the return of the
    callback it runs, or a call made from PHP code (at the top level, or inside the
    callback that runs). The client changes between any two steps. *)

From S2P Require Import Prelude Transport Recovery.
Import Transport Recovery.
Local Open Scope Z_scope.
Local Open Scope string_scope.

Module EventBridge.

(** ** Events *)

(** A callable is its identity; an exception is the object thrown. *)
Abbreviation Callable := nat.
Abbreviation Exception := nat.

Inductive Event :=
| StateChanged (broker state_name : string) (generation : Z)
| Backpressure (scope : string) (in_flight capacity : Z).

#[global] Instance Event_eq_dec : EqDecision Event.
Proof. solve_decision. Defined.

(** [i64::try_from(v).unwrap_or(i64::MAX)] *)
Definition to_i64 (v : Z) : Z := default I64_MAX (try_from I64_MAX v).

Definition connection_state_parts (state : ConnectionState) : string * Z :=
  match state with
  | Disconnected => ("disconnected", 0)
  | Connecting attempt => ("connecting", attempt)
  | Ready generation => ("ready", to_i64 generation)
  | Recovering attempt _ _ => ("recovering", attempt)
  | FailedPermanent _ _ => ("failed_permanent", 0)
  | Closed => ("closed", 0)
  end.

(** ** State *)

(** What the client pool answers: [connection_states] (in the iteration order
    of its map), the backpressure counter and [publisher_utilization]. *)
Record Client := mkClient {
  cl_states : list (string * ConnectionState);
  cl_backpressure_total : Z;
  cl_utilization : Z * Z
}.

Inductive Stage := AtStates | AtBackpressure.

(** A drain in progress: the events still to be announced, the callables still
    to be called for the current one, whether one of them runs, the first
    exception, and what the calls made so far returned. *)
Record Frame := mkFrame {
  f_stage : Stage;
  f_events : list Event;
  f_current : option Event;
  f_calls : list Callable;
  f_running : bool;
  f_error : option Exception;
  f_outcomes : list (option Exception)
}.

(** The last four fields are logs: the events found, the events announced with
    the callables registered then, the calls, and the drains that ended. *)
Record Bridge := mkBridge {
  connection_state_callbacks : list Callable;
  backpressure_callbacks : list Callable;
  last_connection_states : gmap string (string * Z);
  last_backpressure_total : Z;
  client : Client;
  client_alive : bool;
  stack : list Frame;
  nested : bool;                                  (* a callback has drained *)
  found : list Event;
  announced : list (Event * list Callable);
  calls : list (Callable * Event);
  ended : list (list (option Exception) * option Exception)
}.

Definition set_registries (s p : list Callable) (b : Bridge) : Bridge :=
  mkBridge s p (last_connection_states b) (last_backpressure_total b) (client b) (client_alive b) (stack b) (nested b)
    (found b) (announced b) (calls b) (ended b).
Definition set_client (c : Client) (alive : bool) (b : Bridge) : Bridge :=
  mkBridge (connection_state_callbacks b) (backpressure_callbacks b) (last_connection_states b)
    (last_backpressure_total b) c alive (stack b) (nested b) (found b) (announced b) (calls b) (ended b).
Definition set_stack (fs : list Frame) (b : Bridge) : Bridge :=
  mkBridge (connection_state_callbacks b) (backpressure_callbacks b) (last_connection_states b)
    (last_backpressure_total b) (client b) (client_alive b) fs (nested b) (found b) (announced b) (calls b) (ended b).
Definition set_last (m : gmap string (string * Z)) (n : Z) (b : Bridge) : Bridge :=
  mkBridge (connection_state_callbacks b) (backpressure_callbacks b) m n (client b) (client_alive b) (stack b)
    (nested b) (found b) (announced b) (calls b) (ended b).
Definition set_logs (n : bool) (fo : list Event) (an : list (Event * list Callable)) (ca : list (Callable * Event))
    (en : list (list (option Exception) * option Exception)) (b : Bridge) : Bridge :=
  mkBridge (connection_state_callbacks b) (backpressure_callbacks b) (last_connection_states b)
    (last_backpressure_total b) (client b) (client_alive b) (stack b) n fo an ca en.

(** [EventBridge::shared] *)
Definition bridge_shared (c : Client) : Bridge :=
  mkBridge [] [] ∅ 0 c true [] false [] [] [] [].

(** ** Registration *)

(** [CallbackRegistry::set]: [false] is the exception for a value that is not
    callable. *)
Definition registry_set (callable : Callable) (is_callable : bool) (l : list Callable) : list Callable :=
  if is_callable then (l ++ [callable])%list else l.

(** [clear_event_callbacks]: how many were removed. *)
Definition clear_event_callbacks (b : Bridge) : nat * Bridge :=
  (length (connection_state_callbacks b) + length (backpressure_callbacks b), set_registries [] [] b)%nat.

(** ** Draining *)

(** The changed states, in the order the client reports them, and the last-seen
    states after them. *)
Fixpoint changed_states (states : list (string * ConnectionState)) (last : gmap string (string * Z))
  : list Event * gmap string (string * Z) :=
  match states with
  | [] => ([], last)
  | (broker, state) :: rest =>
      let current := connection_state_parts state in
      if bool_decide (last !! broker = Some current) then changed_states rest last
      else
        let '(pending, last') := changed_states rest (<[broker := current]> last) in
        (StateChanged broker current.1 current.2 :: pending, last')
  end.

(** [drain] up to its first callback: the fast path without callbacks, a client
    that was dropped, the changed states. *)
Definition drain (b : Bridge) : Bridge :=
  match connection_state_callbacks b, backpressure_callbacks b with
  | [], [] => b
  | _, _ =>
      if client_alive b then
        let '(pending, last) := changed_states (cl_states (client b)) (last_connection_states b) in
        set_stack (mkFrame AtStates pending None [] false None [] :: stack b)
          (set_last last (last_backpressure_total b)
            (set_logs (nested b || negb (bool_decide (stack b = []))) (found b ++ pending) (announced b) (calls b) (ended b) b))
      else b
  end.

Definition registry (stage : Stage) (b : Bridge) : list Callable :=
  match stage with AtStates => connection_state_callbacks b | AtBackpressure => backpressure_callbacks b end.

(** The top frame announces its next event: [invoke_unlocked] copies the callables
    registered now. After the states it looks at the counter; after that the drain
    ends, and throws the first exception. *)
Definition advance (b : Bridge) : option Bridge :=
  match stack b with
  | mkFrame stage events _ [] false error outcomes :: rest =>
      match events, stage with
      | e :: events', _ =>
          Some (set_stack (mkFrame stage events' (Some e) (registry stage b) false error outcomes :: rest)
            (set_logs (nested b) (found b) (announced b ++ [(e, registry stage b)]) (calls b) (ended b) b))
      | [], AtStates =>
          let total := cl_backpressure_total (client b) in
          if (last_backpressure_total b <? total)%Z then
            let e := Backpressure "global" (to_i64 (cl_utilization (client b)).1) (to_i64 (cl_utilization (client b)).2) in
            Some (set_stack (mkFrame AtBackpressure [e] None [] false error outcomes :: rest)
              (set_last (last_connection_states b) total
                (set_logs (nested b) (found b ++ [e]) (announced b) (calls b) (ended b) b)))
          else Some (set_stack rest (set_logs (nested b) (found b) (announced b) (calls b) (ended b ++ [(outcomes, error)]) b))
      | [], AtBackpressure =>
          Some (set_stack rest (set_logs (nested b) (found b) (announced b) (calls b) (ended b ++ [(outcomes, error)]) b))
      end
  | _ => None
  end.

(** [try_call]: the callback starts to run. A callable that is no longer valid
    counts as one that throws. *)
Definition call_next (b : Bridge) : option Bridge :=
  match stack b with
  | mkFrame stage events (Some e) (callable :: callables) false error outcomes :: rest =>
      Some (set_stack (mkFrame stage events (Some e) callables true error outcomes :: rest)
        (set_logs (nested b) (found b) (announced b) (calls b ++ [(callable, e)]) (ended b) b))
  | _ => None
  end.

(** The callback returns or throws: [get_or_insert] keeps the first exception. *)
Definition call_returns (thrown : option Exception) (b : Bridge) : option Bridge :=
  match stack b with
  | mkFrame stage events current callables true error outcomes :: rest =>
      Some (set_stack (mkFrame stage events current callables false
        (match error with Some e => Some e | None => thrown end) (outcomes ++ [thrown]) :: rest) b)
  | _ => None
  end.

(** ** Steps *)

Inductive BridgeLabel :=
| LSetState (callable : Callable) (is_callable : bool)
| LSetBackpressure (callable : Callable) (is_callable : bool)
| LClear
| LDrain
| LAdvance
| LCall
| LReturn (thrown : option Exception)
| LClient (c : Client)
| LClientDropped.

(** PHP code runs: nothing is being drained, or a callback runs. *)
Definition php_runs (b : Bridge) : bool :=
  match stack b with [] => true | f :: _ => f_running f end.

Definition bridge_step (l : BridgeLabel) (b : Bridge) : option Bridge :=
  match l with
  | LSetState c ok =>
      if php_runs b then Some (set_registries (registry_set c ok (connection_state_callbacks b)) (backpressure_callbacks b) b)
      else None
  | LSetBackpressure c ok =>
      if php_runs b then Some (set_registries (connection_state_callbacks b) (registry_set c ok (backpressure_callbacks b)) b)
      else None
  | LClear => if php_runs b then Some (clear_event_callbacks b).2 else None
  | LDrain => if php_runs b then Some (drain b) else None
  | LAdvance => advance b
  | LCall => call_next b
  | LReturn thrown => call_returns thrown b
  | LClient c => if (cl_backpressure_total (client b) <=? cl_backpressure_total c)%Z then Some (set_client c (client_alive b) b) else None
  | LClientDropped => Some (set_client (client b) false b)
  end.

Inductive reach : Bridge -> Prop :=
| reach_shared c : reach (bridge_shared c)
| reach_step l b b' : reach b -> bridge_step l b = Some b' -> reach b'.

Fixpoint run (ls : list BridgeLabel) (b : Bridge) : option Bridge :=
  match ls with
  | [] => Some b
  | l :: ls' => match bridge_step l b with Some b' => run ls' b' | None => None end
  end.

Lemma bridge_run_reach ls : forall b b', reach b -> run ls b = Some b' -> reach b'.
Proof.
  induction ls as [|l ls IH]; intros b b' Hr; simpl; [by intros [= <-]|].
  destruct (bridge_step l b) as [b1|] eqn:E; [|done]. apply IH. by eapply reach_step.
Qed.

(** ** Reported states *)

(** The states of one broker among events. *)
Definition states_of (broker : string) (l : list Event) : list (string * Z) :=
  omap (fun e => match e with
                 | StateChanged b n g => if decide (b = broker) then Some (n, g) else None
                 | Backpressure _ _ _ => None
                 end) l.

(** Each state differs from the one before it. *)
Fixpoint changes (previous : option (string * Z)) (l : list (string * Z)) : Prop :=
  match l with [] => True | x :: l' => previous <> Some x /\ changes (Some x) l' end.

Definition latest (previous : option (string * Z)) (l : list (string * Z)) : option (string * Z) :=
  match last l with Some x => Some x | None => previous end.

Lemma latest_cons p x l : latest p (x :: l) = latest (Some x) l.
Proof. unfold latest. by destruct l; [|rewrite last_cons_cons; destruct (last (_ :: l)) eqn:E; [|rewrite last_None in E]]. Qed.

Lemma changes_app p l1 l2 : changes p (l1 ++ l2) <-> changes p l1 /\ changes (latest p l1) l2.
Proof.
  revert p. induction l1 as [|x l1 IH]; intros p; [naive_solver|]. cbn [app changes].
  rewrite IH, latest_cons. naive_solver.
Qed.

Lemma latest_app p l1 l2 : latest p (l1 ++ l2) = latest (latest p l1) l2.
Proof. revert p. induction l1 as [|x l1 IH]; intros p; [done|]. cbn [app]. by rewrite !latest_cons, IH. Qed.

Lemma changed_states_spec states : forall m pending m',
  changed_states states m = (pending, m') -> forall broker,
  changes (m !! broker) (states_of broker pending) /\ m' !! broker = latest (m !! broker) (states_of broker pending) /\
  Forall (fun e => exists b n g, e = StateChanged b n g) pending.
Proof.
  induction states as [|[b st] states IH]; intros m pending m'; cbn [changed_states]; [by intros [= <- <-]|].
  case_bool_decide as Eb; [by apply IH|].
  destruct (changed_states states (<[b := _]> m)) as [pend m1] eqn:E. intros [= <- <-] broker.
  destruct (IH _ _ _ E broker) as (H1 & H2 & H3). split; [|split]; [| |constructor; [eauto|done]].
  - unfold states_of. cbn [omap list_omap]. destruct (decide (b = broker)) as [->|Hne].
    + cbn. split; [by destruct (connection_state_parts st)|]. rewrite lookup_insert_eq in H1.
      by destruct (connection_state_parts st).
    + by rewrite lookup_insert_ne in H1.
  - rewrite H2. unfold states_of at 2. cbn [omap list_omap]. destruct (decide (b = broker)) as [->|Hne].
    + rewrite latest_cons, lookup_insert_eq. by destruct (connection_state_parts st).
    + by rewrite lookup_insert_ne.
Qed.

(** ** The invariant *)

Definition expand (a : Event * list Callable) : list (Callable * Event) := (fun c => (c, a.1)) <$> a.2.

Definition calls_left (f : Frame) : list (Callable * Event) :=
  match f_current f with Some e => (fun c => (c, e)) <$> f_calls f | None => [] end.

Definition first_thrown (l : list (option Exception)) : option Exception := head (omap id l).

Lemma first_thrown_snoc l x :
  first_thrown (l ++ [x]) = match first_thrown l with Some e => Some e | None => x end.
Proof. unfold first_thrown. rewrite omap_app. destruct (omap id l); [by destruct x|done]. Qed.

Record bridge_inv (b : Bridge) : Prop := {
  bi_found : found b ≡ₚ (announced b).*1 ++ (stack b ≫= f_events);
  bi_calls : (announced b ≫= expand) ≡ₚ calls b ++ (stack b ≫= calls_left);
  bi_order : nested b = false ->
    (length (stack b) <= 1)%nat /\ found b = ((announced b).*1 ++ (stack b ≫= f_events))%list /\
    (announced b ≫= expand) = (calls b ++ (stack b ≫= calls_left))%list;
  bi_stack : Forall (fun f => f_error f = first_thrown (f_outcomes f) /\ (f_current f = None -> f_calls f = [])) (stack b);
  bi_ended : Forall (fun x => x.2 = first_thrown x.1) (ended b);
  bi_states : forall broker, changes None (states_of broker (found b)) /\
    last_connection_states b !! broker = latest None (states_of broker (found b));
  bi_pressure : last_backpressure_total b <= Z.max 0 (cl_backpressure_total (client b))
}.

Lemma bridge_inv_shared c : bridge_inv (bridge_shared c).
Proof. split; try done; cbn; [by intros _; repeat split; lia|lia]. Qed.

(** Registration and the client leave the drains alone. *)
Lemma inv_registries s p b : bridge_inv b -> bridge_inv (set_registries s p b).
Proof. intros []. by split. Qed.

Lemma inv_client c alive b :
  cl_backpressure_total (client b) <= cl_backpressure_total c -> bridge_inv b -> bridge_inv (set_client c alive b).
Proof. intros Hc []. split; try done. cbn. lia. Qed.

Lemma inv_drain b : bridge_inv b -> bridge_inv (drain b).
Proof.
  intros [H1 H2 H3 H4 H5 H6 H7]. assert (bridge_inv b) as Hb by done. unfold drain.
  assert (bridge_inv (if client_alive b then
    let '(pending, last) := changed_states (cl_states (client b)) (last_connection_states b) in
        set_stack (mkFrame AtStates pending None [] false None [] :: stack b)
          (set_last last (last_backpressure_total b)
            (set_logs (nested b || negb (bool_decide (stack b = []))) (found b ++ pending) (announced b) (calls b) (ended b) b))
    else b)) as Hd.
  { destruct (client_alive b); [|done].
    destruct (changed_states _ _) as [pending m] eqn:E. split; cbn; try done.
    - rewrite H1. by rewrite <- (assoc_L app), (Permutation_app_comm pending).
    - intros [Hn Hs]%orb_false_iff. apply negb_false_iff, bool_decide_eq_true in Hs.
      destruct (H3 Hn) as (_ & E1 & E2). rewrite Hs in *. cbn in *. rewrite E1, E2, !app_nil_r. done.
    - by constructor.
    - intros broker. destruct (H6 broker) as [C1 L1].
      destruct (changed_states_spec _ _ _ _ E broker) as (C2 & L2 & _). unfold states_of in *. rewrite omap_app.
      rewrite changes_app, latest_app, <- L1. done. }
  destruct (connection_state_callbacks b), (backpressure_callbacks b); done.
Qed.

(** Replacing the top frame and extending the logs. *)
Lemma top_frame_inv b f f' rest an ca :
  bridge_inv b -> stack b = f :: rest ->
  (f_events f = an.*1 ++ f_events f')%list -> (calls_left f ++ (an ≫= expand) = ca ++ calls_left f')%list ->
  f_error f' = first_thrown (f_outcomes f') -> (f_current f' = None -> f_calls f' = []) ->
  bridge_inv (set_stack (f' :: rest) (set_logs (nested b) (found b) (announced b ++ an) (calls b ++ ca) (ended b) b)).
Proof.
  intros [H1 H2 H3 H4 H5 H6 H7] Es Ee Ec Herr Hcur. rewrite Es in *. split; cbn in *; try done.
  - by rewrite H1, Ee, fmap_app, <- !(assoc_L app).
  - rewrite bind_app, H2. transitivity (calls b ++ (calls_left f ++ (an ≫= expand)) ++ (rest ≫= calls_left))%list;
      [solve_Permutation|]. rewrite Ec. solve_Permutation.
  - intros Hn. destruct (H3 Hn) as (Hlen & E1 & E2). destruct rest; [|cbn in Hlen; lia]. cbn in *. rewrite !app_nil_r in *.
    split; [lia|]. rewrite E1, bind_app, E2, Ee, fmap_app, <- !(assoc_L app), Ec. done.
  - apply Forall_cons in H4 as [_ H4]. by constructor.
Qed.

Lemma logs_same b : set_logs (nested b) (found b) (announced b ++ []) (calls b ++ []) (ended b) b = b.
Proof. rewrite !app_nil_r. by destruct b. Qed.

(** The drain of the top frame ends. *)
Lemma inv_ends b f rest :
  bridge_inv b -> stack b = f :: rest -> f_events f = [] -> f_calls f = [] ->
  bridge_inv (set_stack rest (set_logs (nested b) (found b) (announced b) (calls b)
    (ended b ++ [(f_outcomes f, f_error f)]) b)).
Proof.
  intros [H1 H2 H3 H4 H5 H6 H7] Es Ee Ec. rewrite Es in *. apply Forall_cons in H4 as [[Hf _] H4].
  assert (calls_left f = []) as El by (unfold calls_left; rewrite Ec; by destruct (f_current f)).
  cbn in *. rewrite Ee, El in *. split; cbn; try done.
  - intros Hn. destruct (H3 Hn) as (Hl & E1 & E2). split; [cbn in Hl; lia|done].
  - apply Forall_app. by repeat constructor.
Qed.

Lemma advance_inv b b' : bridge_inv b -> advance b = Some b' -> bridge_inv b'.
Proof.
  intros Hi. unfold advance. destruct (stack b) as [|[stage events current [|] [] error outcomes] rest] eqn:Es; try done.
  pose proof (bi_stack _ Hi) as Hst. rewrite Es in Hst. apply Forall_cons in Hst as [[Herr _] Hst]. cbn in Herr.
  assert (calls_left (mkFrame stage events current [] false error outcomes) = []) as El by (by destruct current).
  destruct events as [|e events].
  - assert (bridge_inv (set_stack rest (set_logs (nested b) (found b) (announced b) (calls b)
      (ended b ++ [(outcomes, error)]) b))) as Hend by by apply (inv_ends b _ rest Hi Es).
    destruct stage; [|by intros [= <-]]. destruct (_ <? _)%Z eqn:Et; [|by intros [= <-]]. apply Z.ltb_lt in Et.
    intros [= <-]. destruct Hi as [H1 H2 H3 H4 H5 H6 H7]. rewrite Es in *. cbn in *. rewrite El in *.
    split; cbn; try done.
    + rewrite H1. solve_Permutation.
    + intros Hn. destruct (H3 Hn) as (Hl & E1 & E2). split; [done|]. destruct rest; [|cbn in Hl; lia]. cbn in *.
      rewrite E1, !app_nil_r. by rewrite app_nil_r in E2.
    + by constructor.
    + intros broker. unfold states_of. rewrite omap_app. cbn. rewrite app_nil_r. apply H6.
    + lia.
  - intros [= <-]. set (e' := mkFrame stage events (Some e) (registry stage b) false error outcomes).
    pose proof (top_frame_inv b _ e' rest [(e, registry stage b)] [] Hi Es) as H. rewrite El, app_nil_r in H. apply H; try done.
    unfold calls_left, e'. cbn. by rewrite app_nil_r.
Qed.

Lemma call_next_inv b b' : bridge_inv b -> call_next b = Some b' -> bridge_inv b'.
Proof.
  intros Hi. unfold call_next.
  destruct (stack b) as [|[stage events [e|] [|c cs] [] error outcomes] rest] eqn:Es; try done. intros [= <-].
  pose proof (bi_stack _ Hi) as Hst. rewrite Es in Hst. apply Forall_cons in Hst as [[Herr _] Hst].
  pose proof (top_frame_inv b _ (mkFrame stage events (Some e) cs true error outcomes) rest [] [(c, e)] Hi Es) as H.
  rewrite (app_nil_r (announced b)) in H. apply H; try done. by rewrite app_nil_r.
Qed.

Lemma inv_return thrown b b' : bridge_inv b -> call_returns thrown b = Some b' -> bridge_inv b'.
Proof.
  intros Hi. unfold call_returns. destruct (stack b) as [|[stage events current cs [] error outcomes] rest] eqn:Es; try done.
  intros [= <-]. pose proof (bi_stack _ Hi) as Hst. rewrite Es in Hst. apply Forall_cons in Hst as [[Herr Hcur] _]. cbn in *.
  pose proof (top_frame_inv b _ (mkFrame stage events current cs false (match error with Some e => Some e | None => thrown end)
    (outcomes ++ [thrown])) rest [] [] Hi Es) as H. rewrite logs_same in H. apply H; try done.
  - by rewrite app_nil_r.
  - cbn. by rewrite first_thrown_snoc, Herr.
Qed.

Lemma bridge_reach_inv b : reach b -> bridge_inv b.
Proof.
  induction 1 as [c|l b b' _ IH Hs]; [apply bridge_inv_shared|]. destruct l; cbn [bridge_step] in Hs.
  - destruct (php_runs b); simplify_eq. by apply inv_registries.
  - destruct (php_runs b); simplify_eq. by apply inv_registries.
  - destruct (php_runs b); simplify_eq. by apply inv_registries.
  - destruct (php_runs b); simplify_eq. by apply inv_drain.
  - by eapply advance_inv.
  - by eapply call_next_inv.
  - by eapply inv_return.
  - destruct (_ <=? _)%Z eqn:E; simplify_eq. apply inv_client; [by apply Z.leb_le|done].
  - simplify_eq. by apply inv_client.
Qed.

(** ** Theorems *)

(** C34. Connection events are exact. The states found for a broker are its
    changes: each differs from the one before, and the last is the one the bridge
    remembers. Once no drain is in progress every event found has been announced
    once, and each announcement has called every callback registered at that moment
    once, however the callbacks throw, register, clear or drain again. *)
Theorem events_reported_once b :
  reach b -> stack b = [] ->
  (forall broker, changes None (states_of broker (found b)) /\
     last_connection_states b !! broker = last (states_of broker (found b))) /\
  (announced b).*1 ≡ₚ found b /\ calls b ≡ₚ (announced b ≫= expand).
Proof.
  intros [H1 H2 H3 H4 H5 H6 H7]%bridge_reach_inv Es. rewrite Es in *. cbn in *. rewrite !app_nil_r in *. split; [|done].
  intros broker. destruct (H6 broker) as [C L]. split; [done|]. rewrite L. unfold latest. by destruct (last _).
Qed.

(** As long as no callback drains, callbacks see events in the order in which
    they were found, at any moment: what was called is a prefix of what was
    announced, and what was announced a prefix of what was found. A drain throws
    exactly when one of its callbacks threw, and it throws the first exception. *)
Theorem drains_in_order b :
  reach b ->
  (nested b = false -> (announced b).*1 `prefix_of` found b /\ calls b `prefix_of` (announced b ≫= expand)) /\
  Forall (fun x => x.2 = head (omap id x.1)) (ended b).
Proof.
  intros [H1 H2 H3 H4 H5 H6 H7]%bridge_reach_inv. split; [|done]. intros Hn. destruct (H3 Hn) as (_ & E1 & E2).
  rewrite E1 at 1. rewrite E2. split; by apply prefix_app_r.
Qed.

(** ** Runs *)

Definition two_brokers (east west : ConnectionState) : Client := mkClient [("east", east); ("west", west)] 0 (0, 8).

(** Two callbacks, two brokers, one exception, one change. *)
Definition plain_run : list BridgeLabel :=
  [LSetState 1 true; LSetState 2 true; LDrain; LAdvance; LCall; LReturn (Some 7%nat); LCall; LReturn None; LAdvance; LCall;
   LReturn None; LCall; LReturn (Some 8%nat); LAdvance; LClient (two_brokers (Ready 1) (Connecting 1)); LDrain; LAdvance; LCall;
   LReturn None; LCall; LReturn None; LAdvance].

Definition bridged (ls : list BridgeLabel) : Bridge :=
  let b := bridge_shared (two_brokers (Connecting 1) (Connecting 1)) in default b (run ls b).

Lemma bridged_reach ls : reach (bridged ls).
Proof.
  unfold bridged. destruct (run ls _) eqn:E; [|constructor]. eapply bridge_run_reach; [constructor|exact E].
Qed.

(** Witness of the theorem on events. *)
Lemma events_reported_once_witness :
  stack (bridged plain_run) = [] /\ length (calls (bridged plain_run)) = 6%nat /\
  calls (bridged plain_run) ≡ₚ (announced (bridged plain_run) ≫= expand).
Proof.
  split; [vm_compute; reflexivity|]. split; [vm_compute; reflexivity|].
  apply (events_reported_once (bridged plain_run)); [apply bridged_reach|vm_compute; reflexivity].
Defined.

(** Witness of the theorem on drains. *)
Lemma drains_in_order_witness :
  ended (bridged plain_run) = [([Some 7%nat; None; None; Some 8%nat], Some 7%nat); ([None; None], None)] /\
  calls (bridged plain_run) `prefix_of` (announced (bridged plain_run) ≫= expand).
Proof.
  split; [vm_compute; reflexivity|].
  eapply (drains_in_order (bridged plain_run)); [apply bridged_reach|vm_compute; reflexivity].
Defined.

(** A callback that drains makes events overtake each other: its own drain
    reports that the broker is ready, then the first drain goes on with the state
    it had found. The second callback hears of the connection attempt last, while
    the broker is ready. *)
Definition nested_run : list BridgeLabel :=
  [LSetState 1 true; LSetState 2 true; LDrain; LAdvance; LCall; LClient (two_brokers (Ready 1) (Connecting 1)); LDrain;
   LAdvance; LCall; LReturn None; LCall; LReturn None; LAdvance; LReturn None; LCall; LReturn None].

Lemma nested_drain_overtakes :
  exists before, filter (fun x => x.1 = 2%nat) (calls (bridged nested_run)) =
    (before ++ [(2%nat, StateChanged "east" "ready" 1); (2%nat, StateChanged "east" "connecting" 1)])%list /\
  last_connection_states (bridged nested_run) !! "east" = Some ("ready", 1).
Proof. exists []. split; vm_compute; reflexivity. Qed.
End EventBridge.
