(* ===== verification/MockTransport.v ===== *)
(** * The scripted transport

    Models [transport/mock.rs], the transport the actors are tested against: queues of
    scripted answers, the log of operations, gates that park a call, confirmations that
    a test resolves, delivery and event streams that park on a [Notify].

    A call is a task whose program counter names its next critical section (the
    stretch of code that holds the lock of the state); an await ends a section. A step
    of the system is one section, one push of a test, one use of a gate or of a
    confirmation controller, or the cancellation of a task. *)

From S2P Require Import Prelude Transport ConsumerPump Lapin.
From stdpp Require Import functions.
Import Transport.
Import ConsumerPump(ConsumerRequest, mkConsumerRequest).
Import Lapin(TransportEvent, Blocked, Unblocked, EError, FetchedMessage).
Local Open Scope Z_scope.
Local Open Scope rabbit_scope.

Module MockTransport.

Notation TransportResult A := (result A TransportError).

(** ** The vocabulary of the traits *)

Inductive TransportOperation :=
| Connect (broker : string)
| OpenPublisher
| OpenConsumer
| DeclareExchange (spec : ExchangeSpec)
| VerifyExchange (spec : ExchangeSpec)
| DeclareQueue (spec : QueueSpec)
| VerifyQueue (spec : QueueSpec)
| BindQueue (spec : BindingSpec)
| QueueSize (queue : string)
| PurgeQueue (queue : string)
| DeleteQueue (queue : string)
| DeleteExchange (exchange : string)
| GetMessage (queue : string) (requeue : bool)
| EnableConfirms
| Publish (request : WireRequest)
| Qos (prefetch : Z)
| Consume (request : ConsumerRequest)
| Cancel (consumer_tag : string)
| AckOp (delivery_tag : Z) (multiple : bool)
| Reject (delivery_tag : Z) (requeue : bool)
| CloseChannel
| CloseConnection.

(** ** Notifications, gates and confirmations *)

Definition Task := nat.

(** [tokio::sync::Notify] as it is used here, with [notify_one] only: a stored permit,
    the registered waiters in their order, and the waiters notified since. *)
Record Notify := mkNotify { n_permit : bool; n_waiters : list Task; n_woken : list Task }.

Definition notify_one (n : Notify) : Notify :=
  match n_waiters n with
  | [] => mkNotify true [] (n_woken n)
  | t :: rest => mkNotify (n_permit n) rest (n_woken n ++ [t])
  end.

(** The first poll of a [Notified]: [true] when it completes at once. *)
Definition poll_notified (t : Task) (n : Notify) : bool * Notify :=
  if n_permit n then (true, mkNotify false (n_waiters n) (n_woken n))
  else (false, mkNotify false (n_waiters n ++ [t]) (n_woken n)).

(** A dropped [Notified] passes on a notification it has received. *)
Definition drop_notified (t : Task) (n : Notify) : Notify :=
  if decide (t ∈ n_woken n) then notify_one (mkNotify (n_permit n) (n_waiters n) (filter (fun u => u <> t) (n_woken n)))
  else mkNotify (n_permit n) (filter (fun u => u <> t) (n_waiters n)) (n_woken n).

(** The two ends of a gate: the waiting side ([MockOperationGateWait]) is in a queue of
    the state, held by a call or dropped; the test's side ([MockOperationGate]) keeps
    each end in an [Option] that is taken by its first use. *)
Inductive WaitSide := Queued | Entered | Gone.

Record Gate := mkGate {
  g_wait : WaitSide;
  g_entered : bool;                (* [entered] was sent *)
  g_entered_taken : bool;          (* the test has taken the receiver *)
  g_release_taken : bool;          (* the test has taken or dropped the sender *)
  g_released : bool                (* the value was sent *)
}.

Definition operation_gate : Gate := mkGate Queued false false false false.

(** [MockOperationGate::release] *)
Definition release (g : Gate) : bool * Gate :=
  if g_release_taken g then (false, g)
  else match g_wait g with
       | Gone => (false, mkGate Gone (g_entered g) (g_entered_taken g) true false)
       | w => (true, mkGate w (g_entered g) (g_entered_taken g) true true)
       end.

(** The last clone of the test's side is dropped. *)
Definition drop_gate (g : Gate) : Gate := mkGate (g_wait g) (g_entered g) true true (g_released g).

(** The first half of [wait_for_gate]: [entered] is sent. *)
Definition enter_gate (g : Gate) : Gate := mkGate Entered true (g_entered_taken g) (g_release_taken g) (g_released g).

(** [gate.release.await] is over: a value was sent or the sender is gone. *)
Definition gate_open (g : Gate) : bool := g_release_taken g.

(** The call has passed the gate, or was cancelled in front of it. *)
Definition leave_gate (g : Gate) : Gate := mkGate Gone (g_entered g) (g_entered_taken g) (g_release_taken g) (g_released g).

(** [MockOperationGate::wait_entered]: [None] while it is pending. *)
Definition wait_entered (g : Gate) : option unit * Gate :=
  if g_entered_taken g then (Some tt, g)
  else (if g_entered g || (match g_wait g with Gone => true | _ => false end) then Some tt else None,
        mkGate (g_wait g) (g_entered g) true (g_release_taken g) (g_released g)).

Inductive MockConfirmation :=
| Ready (r : TransportResult PublishConfirmation)
| Pending
| Controlled (c : nat).

(** The channel of a [MockConfirmationController]. *)
Record Controller := mkController {
  c_sender_taken : bool;
  c_value : option (TransportResult PublishConfirmation);
  c_receiver : bool                (* the receiver is alive *)
}.

Definition controller : Controller := mkController false None true.

(** [MockConfirmationController::resolve] *)
Definition resolve (r : TransportResult PublishConfirmation) (c : Controller) : bool * Controller :=
  if c_sender_taken c then (false, c)
  else if c_receiver c then (true, mkController true (Some r) true)
  else (false, mkController true None false).

Definition drop_controller (c : Controller) : Controller := mkController true (c_value c) (c_receiver c).
Definition drop_receiver (c : Controller) : Controller := mkController (c_sender_taken c) (c_value c) false.

(** ** The state behind the lock *)

Inductive GateSite :=
| GConnect | GOpenPublisher | GDeclareQueue | GCloseConnection | GCloseChannel | GAck | GDelivery | GPublish | GEnableConfirms.

Inductive ResultSite := RConnect | ROperation | RConsumer | REnableConfirms.

#[global] Instance GateSite_eq_dec : EqDecision GateSite.
Proof. solve_decision. Defined.
#[global] Instance ResultSite_eq_dec : EqDecision ResultSite.
Proof. solve_decision. Defined.

(** The queues of gates and of plain results are families of queues. *)
Record MockState := mkMockState {
  operations : list TransportOperation;
  results : ResultSite -> list (TransportResult unit);
  confirmations : list MockConfirmation;
  deliveries : list (TransportResult TransportDelivery);
  keep_open : bool;
  stream_epoch : Z;
  delivery_notify : Notify;
  connection_events : list TransportEvent;
  error_notify : Notify;
  queue_sizes : list (TransportResult Z);
  get_messages : list (TransportResult (option FetchedMessage));
  declared_queues : list string;
  gates : GateSite -> list nat
}.

Definition quiet : Notify := mkNotify false [] [].
Definition default_state : MockState := mkMockState [] (fun _ => []) [] [] false 0 quiet [] quiet [] [] [] (fun _ => []).

Definition set_operations l m := mkMockState l (results m) (confirmations m) (deliveries m) (keep_open m) (stream_epoch m)
  (delivery_notify m) (connection_events m) (error_notify m) (queue_sizes m) (get_messages m) (declared_queues m) (gates m).
Definition set_results r m := mkMockState (operations m) r (confirmations m) (deliveries m) (keep_open m) (stream_epoch m)
  (delivery_notify m) (connection_events m) (error_notify m) (queue_sizes m) (get_messages m) (declared_queues m) (gates m).
Definition set_confirmations l m := mkMockState (operations m) (results m) l (deliveries m) (keep_open m) (stream_epoch m)
  (delivery_notify m) (connection_events m) (error_notify m) (queue_sizes m) (get_messages m) (declared_queues m) (gates m).
Definition set_stream l k e n m := mkMockState (operations m) (results m) (confirmations m) l k e
  n (connection_events m) (error_notify m) (queue_sizes m) (get_messages m) (declared_queues m) (gates m).
Definition set_events l n m := mkMockState (operations m) (results m) (confirmations m) (deliveries m) (keep_open m) (stream_epoch m)
  (delivery_notify m) l n (queue_sizes m) (get_messages m) (declared_queues m) (gates m).
Definition set_queries s g m := mkMockState (operations m) (results m) (confirmations m) (deliveries m) (keep_open m) (stream_epoch m)
  (delivery_notify m) (connection_events m) (error_notify m) s g (declared_queues m) (gates m).
Definition set_declared l m := mkMockState (operations m) (results m) (confirmations m) (deliveries m) (keep_open m) (stream_epoch m)
  (delivery_notify m) (connection_events m) (error_notify m) (queue_sizes m) (get_messages m) l (gates m).
Definition set_gates g m := mkMockState (operations m) (results m) (confirmations m) (deliveries m) (keep_open m) (stream_epoch m)
  (delivery_notify m) (connection_events m) (error_notify m) (queue_sizes m) (get_messages m) (declared_queues m) g.

(** [state.operations.push(operation)] *)
Definition record (op : TransportOperation) (m : MockState) : MockState := set_operations (operations m ++ [op]) m.

(** [pop_front().unwrap_or(Ok(()))] on a queue of plain results. *)
Definition pop_result (site : ResultSite) (m : MockState) : TransportResult unit * MockState :=
  match results m site with
  | [] => (Ok tt, m)
  | r :: rest => (r, set_results (<[site := rest]> (results m)) m)
  end.

Definition pop_gate (site : GateSite) (m : MockState) : option nat * MockState :=
  match gates m site with
  | [] => (None, m)
  | g :: rest => (Some g, set_gates (<[site := rest]> (gates m)) m)
  end.

(** ** Scripting *)

Definition push_result (site : ResultSite) (r : TransportResult unit) (m : MockState) : MockState :=
  set_results (<[site := results m site ++ [r]]> (results m)) m.
Definition push_connect_result := push_result RConnect.
Definition push_operation_result := push_result ROperation.
Definition push_enable_confirms_result := push_result REnableConfirms.
Definition push_consumer_result := push_result RConsumer.

Definition push_mock_confirmation (c : MockConfirmation) (m : MockState) : MockState := set_confirmations (confirmations m ++ [c]) m.
Definition push_confirmation (r : TransportResult PublishConfirmation) := push_mock_confirmation (Ready r).
Definition push_pending_confirmation := push_mock_confirmation Pending.
Definition push_controlled_confirmation (c : nat) := push_mock_confirmation (Controlled c).

Definition push_delivery (d : TransportResult TransportDelivery) (m : MockState) : MockState :=
  set_stream (deliveries m ++ [d]) (keep_open m) (stream_epoch m) (notify_one (delivery_notify m)) m.

Definition keep_delivery_stream_open (m : MockState) : MockState :=
  set_stream (deliveries m) true (stream_epoch m) (delivery_notify m) m.

Definition push_event (e : TransportEvent) (m : MockState) : MockState :=
  set_events (connection_events m ++ [e]) (notify_one (error_notify m)) m.
Definition push_connection_error (e : TransportError) := push_event (EError e).
Definition push_blocked (reason : string) := push_event (Blocked reason).
Definition push_unblocked := push_event Unblocked.

Definition push_queue_size (r : TransportResult Z) (m : MockState) : MockState := set_queries (queue_sizes m ++ [r]) (get_messages m) m.
Definition push_get_message (r : TransportResult (option FetchedMessage)) (m : MockState) : MockState :=
  set_queries (queue_sizes m) (get_messages m ++ [r]) m.

Definition push_site_gate (site : GateSite) (g : nat) (m : MockState) : MockState :=
  set_gates (<[site := gates m site ++ [g]]> (gates m)) m.

(** The [push_*_gate] calls; a delivery gate also notifies the streams. *)
Definition push_gate (site : GateSite) (g : nat) (m : MockState) : MockState :=
  match site with
  | GDelivery =>
      let m := push_site_gate GDelivery g m in
      set_stream (deliveries m) (keep_open m) (stream_epoch m) (notify_one (delivery_notify m)) m
  | site => push_site_gate site g m
  end.

(** ** The calls *)

(** What a call answers. A connection or a channel is the shared state; a stream is the
    epoch it was created in; a receipt is its confirmation. *)
Inductive Answer :=
| AUnit (r : TransportResult unit)
| ASize (r : TransportResult Z)
| AMessage (r : TransportResult (option FetchedMessage))
| AReceipt (c : MockConfirmation)
| AStream (r : TransportResult Z)
| ADelivery (d : option (TransportResult TransportDelivery))
| AEvent (e : TransportEvent)
| AConfirmation (r : TransportResult PublishConfirmation).

(** Program counters. [PCall]: a call of a trait, [gated] on the publisher channel. *)
Inductive Pc :=
| PCall (gated : bool) (op : TransportOperation)
| PReturn (r : TransportResult unit)
| PDeclareGate (gated : bool) (spec : QueueSpec)
| PDeclareRecord (spec : QueueSpec) (gate : option nat)
| PEnableConfirms
| PPublish (request : WireRequest)
| PPublishConfirmation
| PConsumeEpoch
| PCancelBump
| PNext (epoch : Z)
| PDelivery (epoch : Z) (d : option (TransportResult TransportDelivery)) (keep cancelled : bool)
| PNextEvent
| PWait (c : MockConfirmation).

Inductive Channel := CDelivery | CError.

Inductive Next :=
| Return (a : Answer)
| Then (pc : Pc)
| WaitForGate (g : option nat) (pc : Pc)
| Park (c : Channel) (pc : Pc)
| WaitForever
| WaitController (c : nat).

(** [record_topology] and [record_consumer]. *)
Definition record_result (site : ResultSite) (op : TransportOperation) (m : MockState) : TransportResult unit * MockState :=
  pop_result site (record op m).

(** [Transport::connect] *)
Definition connect (op : TransportOperation) (m : MockState) : MockState * Next :=
  let '(g, m) := pop_gate GConnect (record op m) in
  let '(r, m) := pop_result RConnect m in
  (m, WaitForGate g (PReturn r)).

(** [TransportConnection] *)
Definition open_publisher (m : MockState) : MockState * Next :=
  let '(g, m) := pop_gate GOpenPublisher (record OpenPublisher m) in (m, WaitForGate g (PReturn (Ok tt))).
Definition open_consumer (m : MockState) : MockState * Next := (record OpenConsumer m, Return (AUnit (Ok tt))).
Definition close_connection (m : MockState) : MockState * Next :=
  let '(g, m) := pop_gate GCloseConnection (record CloseConnection m) in (m, WaitForGate g (PReturn (Ok tt))).

(** [TopologyChannel] of both channels. [record_op]: the calls that are one [record_topology]. *)
Definition record_op (op : TransportOperation) (m : MockState) : MockState * Next :=
  let '(r, m) := record_result ROperation op m in (m, Return (AUnit r)).
Definition declare_name (gated : bool) (spec : QueueSpec) (m : MockState) : MockState * Next :=
  (set_declared (declared_queues m ++ [q_name spec]) m, Then (PDeclareGate gated spec)).
Definition declare_gate (gated : bool) (spec : QueueSpec) (m : MockState) : MockState * Next :=
  let '(g, m) := if gated then pop_gate GDeclareQueue m else (None, m) in
  (m, Then (PDeclareRecord spec g)).
Definition declare_record (spec : QueueSpec) (g : option nat) (m : MockState) : MockState * Next :=
  let '(r, m) := record_result ROperation (DeclareQueue spec) m in
  (m, match r with Ok _ => WaitForGate g (PReturn (Ok tt)) | Err e => Return (AUnit (Err e)) end).
Definition queue_size (op : TransportOperation) (m : MockState) : MockState * Next :=
  let m := record op m in
  match queue_sizes m with
  | [] => (m, Return (ASize (Ok 0)))
  | r :: rest => (set_queries rest (get_messages m) m, Return (ASize r))
  end.
Definition get_message (op : TransportOperation) (m : MockState) : MockState * Next :=
  let m := record op m in
  match get_messages m with
  | [] => (m, Return (AMessage (Ok None)))
  | r :: rest => (set_queries (queue_sizes m) rest m, Return (AMessage r))
  end.
Definition close_channel (m : MockState) : MockState * Next :=
  let '(g, m) := pop_gate GCloseChannel (record CloseChannel m) in (m, WaitForGate g (PReturn (Ok tt))).

(** [PublisherChannel] *)
Definition enable_confirms (m : MockState) : MockState * Next :=
  let '(g, m) := pop_gate GEnableConfirms (record EnableConfirms m) in (m, WaitForGate g PEnableConfirms).
Definition enable_confirms_result (m : MockState) : MockState * Next :=
  let '(r, m) := pop_result REnableConfirms m in (m, Return (AUnit r)).
Definition publish (request : WireRequest) (m : MockState) : MockState * Next :=
  let '(g, m) := pop_gate GPublish m in (m, WaitForGate g (PPublish request)).
Definition publish_record (request : WireRequest) (m : MockState) : MockState * Next :=
  (record (Publish request) m, Then PPublishConfirmation).
Definition publish_confirmation (m : MockState) : MockState * Next :=
  match confirmations m with
  | [] => (m, Return (AReceipt (Ready (Ok NotRequested))))
  | c :: rest => (set_confirmations rest m, Return (AReceipt c))
  end.

(** [PublishReceipt::wait] *)
Definition receipt_wait (c : MockConfirmation) (m : MockState) : MockState * Next :=
  (m, match c with
      | Ready r => Return (AConfirmation r)
      | Pending => WaitForever
      | Controlled c => WaitController c
      end).

(** [ConsumerChannel]: [set_qos] and [reject] are one [record_consumer]. *)
Definition record_consumer_op (op : TransportOperation) (m : MockState) : MockState * Next :=
  let '(r, m) := record_result RConsumer op m in (m, Return (AUnit r)).
Definition consume (op : TransportOperation) (m : MockState) : MockState * Next :=
  let '(r, m) := record_result RConsumer op m in
  (m, match r with Ok _ => Then PConsumeEpoch | Err e => Return (AStream (Err e)) end).
Definition consume_epoch (m : MockState) : MockState * Next := (m, Return (AStream (Ok (stream_epoch m)))).
Definition cancel (op : TransportOperation) (m : MockState) : MockState * Next :=
  let '(r, m) := record_result RConsumer op m in
  (m, match r with Ok _ => Then PCancelBump | Err e => Return (AUnit (Err e)) end).
Definition cancel_bump (m : MockState) : MockState * Next :=
  (set_stream (deliveries m) (keep_open m) (stream_epoch m + 1) (notify_one (delivery_notify m)) m, Return (AUnit (Ok tt))).
Definition ack (op : TransportOperation) (m : MockState) : MockState * Next :=
  let '(g, m) := pop_gate GAck (record op m) in
  let '(r, m) := pop_result RConsumer m in
  (m, WaitForGate g (PReturn r)).

Definition enter_call (gated : bool) (op : TransportOperation) : MockState -> MockState * Next :=
  match op with
  | Connect _ => connect op
  | OpenPublisher => open_publisher
  | OpenConsumer => open_consumer
  | CloseConnection => close_connection
  | DeclareExchange _ | VerifyExchange _ | VerifyQueue _ | BindQueue _ | PurgeQueue _ | DeleteQueue _ | DeleteExchange _ => record_op op
  | DeclareQueue spec => declare_name gated spec
  | QueueSize _ => queue_size op
  | GetMessage _ _ => get_message op
  | CloseChannel => close_channel
  | EnableConfirms => enable_confirms
  | Publish request => publish request
  | Qos _ | Reject _ _ => record_consumer_op op
  | Consume _ => consume op
  | Cancel _ => cancel op
  | AckOp _ _ => ack op
  end.

Definition pop_delivery (m : MockState) : option (TransportResult TransportDelivery) * MockState :=
  match deliveries m with
  | [] => (None, m)
  | d :: rest => (Some d, set_stream rest (keep_open m) (stream_epoch m) (delivery_notify m) m)
  end.

(** [MockDeliveryStream::next]: the head of the loop, and what follows the gate. *)
Definition next_delivery (epoch : Z) (m : MockState) : MockState * Next :=
  let '(g, m) := pop_gate GDelivery m in
  let '(d, m) := pop_delivery m in
  (m, WaitForGate g (PDelivery epoch d (keep_open m) (epoch <? stream_epoch m))).
Definition next_after_gate (epoch : Z) (d : option (TransportResult TransportDelivery)) (keep cancelled : bool) (m : MockState) : MockState * Next :=
  (m, match d with
      | Some _ => Return (ADelivery d)
      | None =>
          if cancelled then Return (ADelivery None)
          else if negb keep then Return (ADelivery None)
          else Park CDelivery (PNext epoch)
      end).

(** [MockEventStream::next] *)
Definition next_event (m : MockState) : MockState * Next :=
  match connection_events m with
  | [] => (m, Park CError PNextEvent)
  | e :: rest => (set_events rest (error_notify m) m, Return (AEvent e))
  end.

(** One critical section and what follows it up to the next one. *)
Definition run_section (pc : Pc) : MockState -> MockState * Next :=
  match pc with
  | PCall gated op => enter_call gated op
  | PReturn r => fun m => (m, Return (AUnit r))
  | PDeclareGate gated spec => declare_gate gated spec
  | PDeclareRecord spec g => declare_record spec g
  | PEnableConfirms => enable_confirms_result
  | PPublish request => publish_record request
  | PPublishConfirmation => publish_confirmation
  | PConsumeEpoch => consume_epoch
  | PCancelBump => cancel_bump
  | PNext epoch => next_delivery epoch
  | PDelivery epoch d keep cancelled => next_after_gate epoch d keep cancelled
  | PNextEvent => next_event
  | PWait c => receipt_wait c
  end.

(** ** Tasks *)

Inductive TaskState :=
| Running (pc : Pc)
| Gated (g : nat) (pc : Pc)
| Polling (c : Channel) (pc : Pc)              (* the [Notified] is about to be polled *)
| Parked (c : Channel) (pc : Pc)
| Forever
| Controlling (c : nat)
| Done (a : Answer)
| Cancelled (held : option (TransportResult TransportDelivery)).

(** [pushed] and [taken] are logs: the scripted deliveries, and the deliveries that
    left the queue with the call that took them. *)
Record Sys := mkSys {
  mock : MockState;
  gate_of : gmap nat Gate;
  controller_of : gmap nat Controller;
  tasks : gmap Task TaskState;
  pushed : list (TransportResult TransportDelivery);
  taken : list (Task * TransportResult TransportDelivery)
}.

Definition sys_init : Sys := mkSys default_state ∅ ∅ ∅ [] [].

Definition set_mock (m : MockState) (s : Sys) : Sys := mkSys m (gate_of s) (controller_of s) (tasks s) (pushed s) (taken s).
Definition set_task (t : Task) (ts : TaskState) (s : Sys) : Sys :=
  mkSys (mock s) (gate_of s) (controller_of s) (<[t := ts]> (tasks s)) (pushed s) (taken s).
Definition set_gate (g : nat) (x : Gate) (s : Sys) : Sys :=
  mkSys (mock s) (<[g := x]> (gate_of s)) (controller_of s) (tasks s) (pushed s) (taken s).
Definition set_controller (c : nat) (x : Controller) (s : Sys) : Sys :=
  mkSys (mock s) (gate_of s) (<[c := x]> (controller_of s)) (tasks s) (pushed s) (taken s).
Definition log_push (d : TransportResult TransportDelivery) (s : Sys) : Sys :=
  mkSys (mock s) (gate_of s) (controller_of s) (tasks s) (pushed s ++ [d]) (taken s).
Definition log_taken (t : Task) (d : option (TransportResult TransportDelivery)) (s : Sys) : Sys :=
  match d with
  | Some d => mkSys (mock s) (gate_of s) (controller_of s) (tasks s) (pushed s) (taken s ++ [(t, d)])
  | None => s
  end.

Definition channel_notify (c : Channel) (m : MockState) : Notify :=
  match c with CDelivery => delivery_notify m | CError => error_notify m end.
Definition set_notify (c : Channel) (n : Notify) (m : MockState) : MockState :=
  match c with
  | CDelivery => set_stream (deliveries m) (keep_open m) (stream_epoch m) n m
  | CError => set_events (connection_events m) n m
  end.

(** The delivery a section takes from the queue. *)
Definition took (pc : Pc) (m : MockState) : option (TransportResult TransportDelivery) :=
  match pc with PNext _ => (pop_delivery m).1 | _ => None end.

Definition continue_task (t : Task) (n : Next) (s : Sys) : Sys :=
  match n with
  | Return a => set_task t (Done a) s
  | Then pc => set_task t (Running pc) s
  | WaitForGate None pc => set_task t (Running pc) s
  | WaitForGate (Some g) pc =>
      set_task t (Gated g pc) (match gate_of s !! g with Some x => set_gate g (enter_gate x) s | None => s end)
  | Park c pc => set_task t (Polling c pc) s
  | WaitForever => set_task t Forever s
  | WaitController c => set_task t (Controlling c) s
  end.

(** A task is polled; [None] when it has to wait. *)
Definition step_task (t : Task) (s : Sys) : option Sys :=
  match tasks s !! t with
  | Some (Running pc) =>
      let '(m, n) := run_section pc (mock s) in
      Some (continue_task t n (log_taken t (took pc (mock s)) (set_mock m s)))
  | Some (Gated g pc) =>
      match gate_of s !! g with
      | Some x => if gate_open x then Some (set_task t (Running pc) (set_gate g (leave_gate x) s)) else None
      | None => None
      end
  | Some (Polling c pc) =>
      let '(ready, n) := poll_notified t (channel_notify c (mock s)) in
      Some (set_task t (if ready then Running pc else Parked c pc) (set_mock (set_notify c n (mock s)) s))
  | Some (Parked c pc) =>
      let n := channel_notify c (mock s) in
      if decide (t ∈ n_woken n) then
        Some (set_task t (Running pc)
          (set_mock (set_notify c (mkNotify (n_permit n) (n_waiters n) (filter (fun u => u <> t) (n_woken n))) (mock s)) s))
      else None
  | Some (Controlling c) =>
      match controller_of s !! c with
      | Some x =>
          match c_value x with
          | Some r => Some (set_task t (Done (AConfirmation r)) (set_controller c (drop_receiver x) s))
          | None =>
              if c_sender_taken x then
                Some (set_task t (Done (AConfirmation (Err (te_new KClosed "confirmation was cancelled")))) (set_controller c (drop_receiver x) s))
              else None
          end
      | None => None
      end
  | _ => None
  end.

Definition held (pc : Pc) : option (TransportResult TransportDelivery) :=
  match pc with PDelivery _ d _ _ => d | _ => None end.

(** The future of a call is dropped, at one of its awaits. *)
Definition drop_task (t : Task) (s : Sys) : option Sys :=
  match tasks s !! t with
  | Some (Gated g pc) =>
      Some (set_task t (Cancelled (held pc)) (match gate_of s !! g with Some x => set_gate g (leave_gate x) s | None => s end))
  | Some (Parked c pc) =>
      Some (set_task t (Cancelled (held pc)) (set_mock (set_notify c (drop_notified t (channel_notify c (mock s))) (mock s)) s))
  | Some Forever => Some (set_task t (Cancelled None) s)
  | Some (Controlling c) =>
      Some (set_task t (Cancelled None) (match controller_of s !! c with Some x => set_controller c (drop_receiver x) s | None => s end))
  | _ => None
  end.

(** ** Steps *)

Inductive Script :=
| SResult (site : ResultSite) (r : TransportResult unit)
| SConfirmation (c : MockConfirmation)
| SKeepOpen
| SEvent (e : TransportEvent)
| SQueueSize (r : TransportResult Z)
| SGetMessage (r : TransportResult (option FetchedMessage)).

Definition apply_script (x : Script) (m : MockState) : MockState :=
  match x with
  | SResult site r => push_result site r m
  | SConfirmation c => push_mock_confirmation c m
  | SKeepOpen => keep_delivery_stream_open m
  | SEvent e => push_event e m
  | SQueueSize r => push_queue_size r m
  | SGetMessage r => push_get_message r m
  end.

(** A confirmation is scripted by [LScript] unless a test controls it. *)
Definition scriptable (x : Script) : bool := match x with SConfirmation (Controlled _) => false | _ => true end.

Inductive Label :=
| LScript (x : Script)
| LPushDelivery (d : TransportResult TransportDelivery)
| LPushGate (site : GateSite) (g : nat)
| LRelease (g : nat)
| LDropGate (g : nat)
| LWaitEntered (g : nat)
| LPushController (c : nat)
| LResolve (c : nat) (r : TransportResult PublishConfirmation)
| LDropController (c : nat)
| LCall (t : Task) (pc : Pc)
| LStep (t : Task)
| LDrop (t : Task).

(** What a task may start with: a call of a trait, [next] of a stream, [wait] of a receipt. *)
Definition starts (pc : Pc) : bool :=
  match pc with PCall _ _ | PNext _ | PNextEvent | PWait _ => true | _ => false end.

Definition sys_step (l : Label) (s : Sys) : option Sys :=
  match l with
  | LScript x => if scriptable x then Some (set_mock (apply_script x (mock s)) s) else None
  | LPushDelivery d => Some (log_push d (set_mock (push_delivery d (mock s)) s))
  | LPushGate site g =>
      match gate_of s !! g with
      | None => Some (set_gate g operation_gate (set_mock (push_gate site g (mock s)) s))
      | Some _ => None
      end
  | LRelease g => (fun x => set_gate g (release x).2 s) <$> gate_of s !! g
  | LDropGate g => (fun x => set_gate g (drop_gate x) s) <$> gate_of s !! g
  | LWaitEntered g => (fun x => set_gate g (wait_entered x).2 s) <$> gate_of s !! g
  | LPushController c =>
      match controller_of s !! c with
      | None => Some (set_controller c controller (set_mock (push_controlled_confirmation c (mock s)) s))
      | Some _ => None
      end
  | LResolve c r => (fun x => set_controller c (resolve r x).2 s) <$> controller_of s !! c
  | LDropController c => (fun x => set_controller c (drop_controller x) s) <$> controller_of s !! c
  | LCall t pc =>
      match tasks s !! t with
      | None => if starts pc then Some (set_task t (Running pc) s) else None
      | Some _ => None
      end
  | LStep t => step_task t s
  | LDrop t => drop_task t s
  end.

Inductive reach : Sys -> Prop :=
| reach_init : reach sys_init
| reach_step l s s' : reach s -> sys_step l s = Some s' -> reach s'.

End MockTransport.
