(* ===== verification/MockSpec.v ===== *)
(** * What tests can rely on: the scripted transport

    Deliveries are conserved and keep their order. A lone stream never sleeps through
    a delivery or a cancellation; two streams on one transport can. *)

From S2P Require Import Prelude Transport Lapin MockTransport.
From stdpp Require Import functions.
Import Transport.
Import MockTransport.
Local Open Scope Z_scope.

Module MockSpec.

(** ** Conservation of deliveries *)

(** The delivery a call has taken: on its way, returned, or lost with the call. *)
Definition holds (ts : TaskState) : option (TransportResult TransportDelivery) :=
  match ts with
  | Running pc | Gated _ pc | Polling _ pc | Parked _ pc => held pc
  | Done (ADelivery d) => d
  | Cancelled d => d
  | _ => None
  end.

Definition conserved (s : Sys) : Prop :=
  pushed s = (taken s).*2 ++ deliveries (mock s) /\ NoDup (taken s).*1 /\
  (forall t d, (t, d) ∈ taken s <-> tasks s !! t ≫= holds = Some d).

Definition next_holds (n : Next) : option (TransportResult TransportDelivery) :=
  match n with
  | Return (ADelivery d) => d
  | Then pc | WaitForGate _ pc | Park _ pc => held pc
  | _ => None
  end.

(** What the streams see of the state. *)
Definition same_stream (m m' : MockState) : Prop :=
  deliveries m' = deliveries m /\ stream_epoch m' = stream_epoch m /\ delivery_notify m' = delivery_notify m.

Lemma pop_gate_same site m g m' : pop_gate site m = (g, m') -> same_stream m m'.
Proof. unfold pop_gate. destruct (gates m site); by intros [= <- <-]. Qed.

Lemma pop_result_same site m r m' : pop_result site m = (r, m') -> same_stream m m'.
Proof. unfold pop_result. destruct (results m site); by intros [= <- <-]. Qed.

Ltac stream_frame :=
  repeat match goal with
  | H : pop_gate _ _ = _ |- _ => apply pop_gate_same in H
  | H : pop_result _ _ = _ |- _ => apply pop_result_same in H
  end; unfold same_stream in *; cbn in *; intuition congruence.

(** The definitions of the sections. *)
Ltac open_section H :=
  unfold connect, open_publisher, open_consumer, close_connection, record_op, declare_name, declare_gate, declare_record,
    MockTransport.queue_size, MockTransport.get_message, close_channel, enable_confirms, enable_confirms_result, publish, publish_record,
    publish_confirmation, receipt_wait, record_consumer_op, consume, consume_epoch, cancel, cancel_bump, ack, next_delivery, next_after_gate,
    next_event, record_result in H.

(** Case analysis of a section. *)
Ltac section_cases :=
  repeat match goal with
  | H : context [let '(_, _) := ?c in _] |- _ => destruct c as [? ?] eqn:?
  | H : (_, _) = (_, _) |- _ => injection H as <- <-
  | H : context [match ?c with _ => _ end] |- _ => destruct c eqn:?
  end.

(** A section other than the head of a stream's loop leaves the queue alone, and only
    [cancel] touches what the streams see. *)
Lemma section_frame pc m m' n :
  run_section pc m = (m', n) -> (forall e, pc <> PNext e) ->
  next_holds n = held pc /\ deliveries m' = deliveries m /\ (pc <> PCancelBump -> same_stream m m').
Proof.
  intros H Hn.
  destruct pc; cbn [run_section enter_call] in H; try (by destruct (Hn epoch)).
  all: try (destruct op; cbn [enter_call] in H); open_section H; section_cases; try done.
  all: match goal with |- _ /\ deliveries ?x = deliveries ?y /\ _ => cut (same_stream y x); [intros Hx; split; [cbn; by repeat split_match | split; [apply Hx | done]]|] end.
  all: stream_frame.
Qed.

Lemma next_section e m :
  exists m' g,
    run_section (PNext e) m = (m', WaitForGate g (PDelivery e (head (deliveries m)) (keep_open m) (e <? stream_epoch m))) /\
    deliveries m' = tail (deliveries m) /\ stream_epoch m' = stream_epoch m /\ delivery_notify m' = delivery_notify m /\
    (gates m GDelivery = [] -> g = None /\ gates m' GDelivery = []).
Proof.
  cbn [run_section]. unfold next_delivery. destruct (pop_gate GDelivery m) as [g m1] eqn:Hg.
  assert (Hm : deliveries m1 = deliveries m /\ stream_epoch m1 = stream_epoch m /\ delivery_notify m1 = delivery_notify m /\
    keep_open m1 = keep_open m /\ (gates m GDelivery = [] -> g = None /\ gates m1 GDelivery = [])).
  { revert Hg. unfold pop_gate. destruct (gates m GDelivery) eqn:E; by intros [= <- <-]. }
  destruct Hm as (Hd & He & Hn & Hk & Hgd). unfold pop_delivery. rewrite Hd.
  destruct (deliveries m) as [|d rest]; cbn; rewrite ?Hk, ?He; eexists _, _; (split; [done|]);
    cbn; rewrite ?Hd, ?He, ?Hn; done.
Qed.

Lemma took_eq pc m : took pc m = match pc with PNext _ => head (deliveries m) | _ => None end.
Proof. destruct pc; try done. cbn. unfold pop_delivery. by destruct (deliveries m). Qed.

(** A section takes the first delivery or keeps what its call holds. *)
Lemma section_conserves pc m m' n :
  run_section pc m = (m', n) ->
  match took pc m with
  | Some d => held pc = None /\ next_holds n = Some d /\ deliveries m = d :: deliveries m'
  | None => next_holds n = held pc /\ deliveries m' = deliveries m
  end.
Proof.
  intros H. rewrite took_eq. assert (Hc : (exists e, pc = PNext e) \/ forall e, pc <> PNext e) by (destruct pc; eauto).
  destruct Hc as [[e ->]|Hn].
  - destruct (next_section e m) as (m1 & g & H1 & Hd & _). rewrite H1 in H. injection H as <- <-.
    destruct (deliveries m); cbn in *; by rewrite Hd.
  - destruct (section_frame pc m m' n H) as (? & ? & _); [done|]. destruct pc; naive_solver.
Qed.

Lemma conserved_same s s' :
  conserved s -> pushed s' = pushed s -> taken s' = taken s -> deliveries (mock s') = deliveries (mock s) ->
  (forall t, tasks s' !! t ≫= holds = tasks s !! t ≫= holds) -> conserved s'.
Proof.
  intros (H1 & H2 & H3) Hp Hk Hd Ht. unfold conserved. rewrite Hp, Hk, Hd. split; [done|]. split; [done|]. intros t d. by rewrite Ht.
Qed.

Lemma holds_update s t ts :
  holds ts = tasks s !! t ≫= holds -> forall u, <[t := ts]> (tasks s) !! u ≫= holds = tasks s !! u ≫= holds.
Proof. intros H u. destruct (decide (u = t)) as [->|]; [by rewrite lookup_insert_eq | by rewrite lookup_insert_ne]. Qed.

(** [continue_task] changes gates and the task only. *)
Lemma continue_task_frame t n s :
  exists ts, tasks (continue_task t n s) = <[t := ts]> (tasks s) /\ holds ts = next_holds n /\
    mock (continue_task t n s) = mock s /\ pushed (continue_task t n s) = pushed s /\ taken (continue_task t n s) = taken s.
Proof.
  destruct n as [a|pc|[g|] pc|c pc| |c]; cbn; try (eexists; split; [done|]; by cbn).
  destruct (gate_of s !! g); eexists; (split; [done|]); by cbn.
Qed.

Lemma log_taken_frame t d s : tasks (log_taken t d s) = tasks s /\ mock (log_taken t d s) = mock s /\
  pushed (log_taken t d s) = pushed s /\ taken (log_taken t d s) = taken s ++ (pair t <$> option_list d).
Proof. destruct d; cbn; [done|]. by rewrite app_nil_r. Qed.

Lemma conserved_section s t pc m n :
  conserved s -> tasks s !! t = Some (Running pc) -> run_section pc (mock s) = (m, n) ->
  conserved (continue_task t n (log_taken t (took pc (mock s)) (set_mock m s))).
Proof.
  intros (H1 & H2 & H3) Ht Hr. set (s1 := log_taken _ _ _).
  destruct (continue_task_frame t n s1) as (ts & E1 & E2 & E3 & E4 & E5).
  destruct (log_taken_frame t (took pc (mock s)) (set_mock m s)) as (F1 & F2 & F3 & F4).
  fold s1 in F1, F2, F3, F4. clearbody s1. cbn in F1, F2, F3, F4.
  pose proof (section_conserves pc (mock s) m n Hr) as Hs.
  destruct (took pc (mock s)) as [d|]; cbn in F4.
  - destruct Hs as (Hh & Hn & Hd).
    assert (Hnot : t ∉ (taken s).*1).
    { intros ((t' & d') & Et & Hin)%list_elem_of_fmap. apply H3 in Hin. cbn in Et. rewrite <- Et, Ht in Hin. cbn in Hin. congruence. }
    split; [|split].
    + rewrite E5, E4, E3, F4, F3, F2, H1, Hd, fmap_app, <- app_assoc. done.
    + rewrite E5, F4, fmap_app. apply list.NoDup_app. split; [done|]. split; [|apply NoDup_singleton]. set_solver.
    + intros u e. rewrite E5, F4, E1, F1, elem_of_app, H3, list_elem_of_singleton. destruct (decide (u = t)) as [->|Hu].
      * rewrite lookup_insert_eq, Ht. cbn. rewrite E2, Hn, Hh. naive_solver.
      * rewrite lookup_insert_ne by done. naive_solver.
  - rewrite app_nil_r in F4. destruct Hs as [Hn Hd]. apply (conserved_same s); [done|congruence..| |].
    + by rewrite E3, F2.
    + intros u. rewrite E1, F1. apply holds_update. rewrite Ht, E2, Hn. done.
Qed.

(** The steps that leave deliveries alone. *)
Ltac untouched Hc s :=
  apply (conserved_same s); [done | done | done | done | first [done | apply holds_update; cbn; congruence]].

Lemma conserved_step l s s' : conserved s -> sys_step l s = Some s' -> conserved s'.
Proof.
  intros Hc H. destruct l; cbn [sys_step] in H.
  - destruct (scriptable x); [|done]. injection H as <-. apply (conserved_same s); try done. by destruct x.
  - injection H as <-. destruct Hc as (H1 & H2 & H3). split; [|done]. cbn. by rewrite H1, app_assoc.
  - destruct (gate_of s !! g); [done|]. injection H as <-. apply (conserved_same s); try done. by destruct site.
  - destruct (gate_of s !! g); [|done]. injection H as <-. untouched Hc s.
  - destruct (gate_of s !! g); [|done]. injection H as <-. untouched Hc s.
  - destruct (gate_of s !! g); [|done]. injection H as <-. untouched Hc s.
  - destruct (controller_of s !! c); [done|]. injection H as <-. untouched Hc s.
  - destruct (controller_of s !! c); [|done]. injection H as <-. untouched Hc s.
  - destruct (controller_of s !! c); [|done]. injection H as <-. untouched Hc s.
  - destruct (tasks s !! t) eqn:Ht; [done|]. destruct (starts pc) eqn:Hp; [|done]. injection H as <-.
    apply (conserved_same s); try done. apply holds_update. rewrite Ht. by destruct pc.
  - unfold step_task in H. destruct (tasks s !! t) as [[pc|g pc|c pc|c pc| |c|a|d]|] eqn:Ht; try done.
    + destruct (run_section pc (mock s)) as [m n] eqn:Hr. injection H as <-. by apply conserved_section.
    + destruct (gate_of s !! g) as [x|]; [|done]. destruct (gate_open x); [|done]. injection H as <-.
      apply (conserved_same s); try done. apply (holds_update s). by rewrite Ht.
    + destruct (poll_notified t (channel_notify c (mock s))) as [r n]. injection H as <-.
      apply (conserved_same s); try done; [by destruct c|]. apply (holds_update s). rewrite Ht. by destruct r.
    + case_decide; [|done]. injection H as <-. apply (conserved_same s); try done; [by destruct c|].
      apply (holds_update s). by rewrite Ht.
    + destruct (controller_of s !! c) as [x|]; [|done].
      destruct (c_value x); [|destruct (c_sender_taken x); [|done]]; injection H as <-;
        (apply (conserved_same s); try done; apply (holds_update s); by rewrite Ht).
  - unfold drop_task in H. destruct (tasks s !! t) as [[pc|g pc|c pc|c pc| |c|a|d]|] eqn:Ht; try done; injection H as <-.
    + apply (conserved_same s); destruct (gate_of s !! g); try done; apply (holds_update s); by rewrite Ht.
    + apply (conserved_same s); try done; [by destruct c|]. apply (holds_update s). by rewrite Ht.
    + apply (conserved_same s); try done. apply (holds_update s). by rewrite Ht.
    + apply (conserved_same s); destruct (controller_of s !! c); try done; apply (holds_update s); by rewrite Ht.
Qed.

Lemma conserved_reach s : reach s -> conserved s.
Proof.
  induction 1 as [|l s s' _ IH H].
  - split; [done|]. split; [constructor|]. intros t d. cbn. rewrite lookup_empty. cbn. split; [by intros ?%elem_of_nil|done].
  - by apply (conserved_step l s).
Qed.

(** ** Wake-ups *)

Definition stream_pc (pc : Pc) : option Z := match pc with PNext e | PDelivery e _ _ _ => Some e | _ => None end.

(** The epoch of the stream a call reads, while the call is alive. *)
Definition streaming (ts : TaskState) : option Z :=
  match ts with Running pc | Gated _ pc | Polling _ pc | Parked _ pc => stream_pc pc | _ => None end.

(** One stream is read at a time. *)
Definition one_of (ts : gmap Task TaskState) : Prop :=
  forall t t' x x', ts !! t = Some x -> ts !! t' = Some x' -> is_Some (streaming x) -> is_Some (streaming x') -> t = t'.

(** Runs in which no two streams are read at once. *)
Inductive reach1 : Sys -> Prop :=
| reach1_init : reach1 sys_init
| reach1_step l s s' : reach1 s -> sys_step l s = Some s' -> one_of (tasks s') -> reach1 s'.

(** Nothing for the stream of epoch [e] to do. *)
Definition idle (e : Z) (m : MockState) : Prop :=
  deliveries m = [] /\ stream_epoch m <= e.

(** The call has seen an idle queue and has not registered yet. *)
Definition seen_empty (ts : TaskState) : option Z :=
  match ts with
  | Running (PDelivery e None _ false) | Gated _ (PDelivery e None _ false) | Polling CDelivery (PNext e) => Some e
  | _ => None
  end.

Definition shaped (ts : TaskState) : Prop :=
  match ts with
  | Polling c pc | Parked c pc => match c with CDelivery => exists e, pc = PNext e | CError => pc = PNextEvent end
  | _ => True
  end.

Definition parked (e : Z) : TaskState := Parked CDelivery (PNext e).

(** The invariant over the tasks and what the streams see. *)
Record awake (ts : gmap Task TaskState) (m : MockState) : Prop := {
  aw_shape : forall t x, ts !! t = Some x -> shaped x;
  aw_members : forall t, t ∈ n_waiters (delivery_notify m) ++ n_woken (delivery_notify m) -> exists e, ts !! t = Some (parked e);
  aw_parked : forall t e, ts !! t = Some (parked e) ->
    (n_woken (delivery_notify m) = [t] /\ n_waiters (delivery_notify m) = []) \/
    (n_woken (delivery_notify m) = [] /\ n_waiters (delivery_notify m) = [t] /\ n_permit (delivery_notify m) = false /\ idle e m);
  aw_seen : forall t x e, ts !! t = Some x -> seen_empty x = Some e -> idle e m \/ n_permit (delivery_notify m) = true
}.

Lemma seen_streaming x e : seen_empty x = Some e -> streaming x = Some e.
Proof.
  destruct x as [pc|g pc|c pc|c pc| |c|a|d]; cbn; try done.
  - destruct pc as [| | | | | | | | | |e' [d|] k []| |]; cbn; naive_solver.
  - destruct pc as [| | | | | | | | | |e' [d|] k []| |]; cbn; naive_solver.
  - destruct c, pc; cbn; naive_solver.
Qed.

(** A notification keeps the invariant, whatever else the step changed. *)
Lemma awake_notify ts m m' :
  one_of ts -> awake ts m -> delivery_notify m' = notify_one (delivery_notify m) -> awake ts m'.
Proof.
  intros H1 [Hs Hm Hp He] Hn. unfold notify_one in Hn.
  destruct (n_waiters (delivery_notify m)) as [|u rest] eqn:Ew.
  - split; [done| | |].
    + rewrite Hn. cbn. intros t Ht. by apply Hm.
    + intros t e Ht. rewrite Hn. cbn. destruct (Hp t e Ht) as [[? ?]|(? & ? & _)]; [by left|done].
    + intros t x e _ _. right. by rewrite Hn.
  - destruct (Hm u) as [eu Hu]; [set_solver|].
    destruct (Hp u eu Hu) as [[_ [=]]|(Hw & [= ->] & _)].
    split; [done| | |].
    + rewrite Hn, Hw. cbn. intros t ->%list_elem_of_singleton. by exists eu.
    + intros t e Ht. left. rewrite Hn, Hw. cbn. by rewrite (H1 t u (parked e) (parked eu)).
    + intros t x e Ht Hx. assert (t = u) as ->; [|rewrite Hu in Ht; by injection Ht as <-].
      apply (H1 t u x (parked eu)); try done. rewrite (seen_streaming x e Hx). by eexists.
Qed.

Lemma awake_same ts m m' : same_stream m m' -> awake ts m -> awake ts m'.
Proof.
  intros (Hd & Hep & Hn) [Hs Hm Hp He].
  assert (Hi : forall e, idle e m -> idle e m') by (unfold idle; intros e; by rewrite Hd, Hep).
  split; [done| | |]; rewrite Hn; [done| |].
  - intros t e Ht. destruct (Hp t e Ht) as [|(? & ? & ? & ?)]; [by left|]. right. eauto.
  - intros t x e Ht Hx. destruct (He t x e Ht Hx); eauto.
Qed.

(** A task that is not registered moves on. *)
Lemma awake_task ts t x m :
  awake ts m -> (forall e, ts !! t <> Some (parked e)) -> (forall e, x <> parked e) -> shaped x ->
  (forall e, seen_empty x = Some e -> idle e m \/ n_permit (delivery_notify m) = true) -> awake (<[t := x]> ts) m.
Proof.
  intros [Hs Hm Hp He] Ht Hx Hsx Hex. split.
  - intros u y [[<- <-]|[_ H]]%lookup_insert_Some; [done|by apply (Hs u)].
  - intros u Hu. destruct (Hm u Hu) as [e H]. exists e. rewrite lookup_insert_ne; [done|]. intros ->. by apply (Ht e).
  - intros u e [[<- ->]|[_ H]]%lookup_insert_Some; [by destruct (Hx e)|by apply Hp].
  - intros u y e [[<- <-]|[_ H]]%lookup_insert_Some Hy; [by apply Hex|by apply (He u y)].
Qed.

Definition next_pc (n : Next) : option Pc := match n with Then pc | WaitForGate _ pc | Park _ pc => Some pc | _ => None end.

(** Calls other than the reading of a stream never become one. *)
Lemma section_no_stream pc m m' n :
  run_section pc m = (m', n) -> stream_pc pc = None -> next_pc n ≫= stream_pc = None /\ (forall p, n = Park CDelivery p -> False)
  /\ (forall p, n = Park CError p -> p = PNextEvent).
Proof.
  intros H Hp. destruct pc; try done; cbn [run_section] in H; try destruct op; cbn [enter_call] in H; open_section H; section_cases.
  all: cbn; repeat split_match; naive_solver.
Qed.

(** The state of a task after a section. *)
Definition next_state (n : Next) : TaskState :=
  match n with
  | Return a => Done a
  | Then pc | WaitForGate None pc => Running pc
  | WaitForGate (Some g) pc => Gated g pc
  | Park c pc => Polling c pc
  | WaitForever => Forever
  | WaitController c => Controlling c
  end.

Lemma continue_task_state t n s : tasks (continue_task t n s) = <[t := next_state n]> (tasks s) /\ mock (continue_task t n s) = mock s.
Proof. destruct n as [a|pc|[g|] pc|c pc| |c]; try done. cbn. by destruct (gate_of s !! g). Qed.

Lemma next_state_calm n m :
  next_pc n ≫= stream_pc = None -> (forall p, n = Park CDelivery p -> False) -> (forall p, n = Park CError p -> p = PNextEvent) ->
  shaped (next_state n) /\ (forall e, next_state n <> parked e) /\
  (forall e, seen_empty (next_state n) = Some e -> idle e m \/ n_permit (delivery_notify m) = true).
Proof.
  intros H Hd He.
  assert (Hs : streaming (next_state n) = None) by (destruct n as [a|pc|[g|] pc|c pc| |c]; done).
  split; [|split].
  - destruct n as [a|pc|[g|] pc|[] pc| |c]; try done; [by destruct (Hd pc)|by apply He].
  - intros e Hx. by rewrite Hx in Hs.
  - intros e Hx. apply seen_streaming in Hx. congruence.
Qed.

Lemma awake_section s t pc m n :
  one_of (tasks s) -> awake (tasks s) (mock s) -> tasks s !! t = Some (Running pc) -> run_section pc (mock s) = (m, n) ->
  awake (<[t := next_state n]> (tasks s)) m.
Proof.
  intros H1 Ha Ht Hr.
  assert (Hnp : forall e, tasks s !! t <> Some (parked e)) by (intros e; by rewrite Ht).
  destruct (stream_pc pc) as [e|] eqn:Hp.
  - destruct pc; try done; cbn in Hp; injection Hp as <-.
    + destruct (next_section epoch (mock s)) as (m' & g & Hn & Hd & He & Hno & _). rewrite Hn in Hr. injection Hr as <- <-.
      assert (Ha' : awake (tasks s) m').
      { destruct Ha as [A1 A2 A3 A4].
        assert (Hi : forall e, idle e (mock s) -> idle e m') by (unfold idle; intros e' [Hd' ?]; rewrite Hd, He, Hd'; done).
        split; rewrite ?Hno; [done|done| |].
        - intros u e Hu. destruct (A3 u e Hu) as [|(? & ? & ? & ?)]; [by left|right; auto].
        - intros u x e Hu Hx. destruct (A4 u x e Hu Hx); auto. }
      apply awake_task; [done|done|by destruct g|by destruct g|].
      assert (Hi : forall e, seen_empty (Running (PDelivery epoch (head (deliveries (mock s))) (keep_open (mock s)) (epoch <? stream_epoch (mock s)))) = Some e -> idle e m').
      { intros e. destruct (deliveries (mock s)) eqn:E, (epoch <? stream_epoch (mock s)) eqn:E2; cbn; try done.
        intros [= <-]. split; [by rewrite Hd|]. rewrite He. zbool. lia. }
      intros e Hx. left. apply Hi. by destruct g.
    + cbn [run_section] in Hr. injection Hr as <- <-.
      apply awake_task; [done|done| | |].
      all: destruct d as [d|], cancelled; try done; destruct keep; cbn; try done.
      * by exists epoch.
      * intros e [= <-]. by apply (aw_seen _ _ Ha t (Running (PDelivery epoch None true false))).
  - destruct (section_no_stream pc (mock s) m n Hr Hp) as (Hn1 & Hn2 & Hn3).
    destruct (next_state_calm n m Hn1 Hn2 Hn3) as (S1 & S2 & S3).
    destruct (section_frame pc (mock s) m n Hr) as (_ & Hd & Hf); [by intros e ->|].
    assert (awake (tasks s) m); [|by apply awake_task].
    assert (pc = PCancelBump \/ pc <> PCancelBump) as [->|Hc] by (destruct pc; auto).
    + cbn in Hr. injection Hr as <- <-. by apply (awake_notify _ (mock s)).
    + by apply (awake_same _ (mock s)); [apply Hf|].
Qed.

Lemma alone ts t x e : one_of ts -> awake ts (e : MockState) -> ts !! t = Some x -> is_Some (streaming x) ->
  (forall e, x <> parked e) -> n_waiters (delivery_notify e) = [] /\ n_woken (delivery_notify e) = [].
Proof.
  intros H1 Ha Ht Hs Hx.
  assert (Hn : forall u, u ∉ n_waiters (delivery_notify e) ++ n_woken (delivery_notify e)).
  { intros u [e' Hu]%(aw_members _ _ Ha). assert (t = u) as -> by (apply (H1 t u x (parked e')); try done; by eexists).
    rewrite Hu in Ht. injection Ht as <-. by destruct (Hx e'). }
  split; [destruct (n_waiters _) as [|u r] | destruct (n_woken _) as [|u r]]; try done; destruct (Hn u); set_solver.
Qed.

(** The first poll of a [Notified] of a stream. *)
Lemma awake_poll s t e r n :
  one_of (tasks s) -> awake (tasks s) (mock s) -> tasks s !! t = Some (Polling CDelivery (PNext e)) ->
  poll_notified t (delivery_notify (mock s)) = (r, n) ->
  awake (<[t := if r then Running (PNext e) else parked e]> (tasks s)) (set_notify CDelivery n (mock s)).
Proof.
  intros H1 Ha Ht Hn. destruct (alone _ _ _ _ H1 Ha Ht) as [Hw Hk]; [by eexists|done|].
  pose proof (aw_seen _ _ Ha t _ e Ht eq_refl) as Hi.
  unfold poll_notified in Hn. rewrite Hw, Hk in Hn. destruct (n_permit (delivery_notify (mock s))); injection Hn as <- <-; cbn.
  - split; cbn.
    + intros u y [[<- <-]|[_ H]]%lookup_insert_Some; [done|by apply (aw_shape _ _ Ha u)].
    + intros u []%elem_of_nil.
    + intros u e' [[_ [=]]|[Hne H]]%lookup_insert_Some. destruct Hne. apply (H1 t u _ _ Ht H); by eexists.
    + intros u y e' [[<- <-]|[Hne H]]%lookup_insert_Some Hy; [done|]. destruct Hne.
      apply (H1 t u _ _ Ht H); [by eexists|]. rewrite (seen_streaming y e' Hy). by eexists.
  - destruct Hi as [Hi|[=]]. split; cbn.
    + intros u y [[<- <-]|[_ H]]%lookup_insert_Some; [by exists e|by apply (aw_shape _ _ Ha u)].
    + intros u ->%list_elem_of_singleton. exists e. by rewrite lookup_insert_eq.
    + intros u e' [[<- [= <-]]|[Hne H]]%lookup_insert_Some; [by right|]. destruct Hne. apply (H1 t u _ _ Ht H); by eexists.
    + intros u y e' [[<- <-]|[Hne H]]%lookup_insert_Some Hy; [done|]. destruct Hne.
      apply (H1 t u _ _ Ht H); [by eexists|]. rewrite (seen_streaming y e' Hy). by eexists.
Qed.

(** A parked stream leaves its place, for whatever is not parked. *)
Lemma awake_leave s t e x n :
  one_of (tasks s) -> awake (tasks s) (mock s) -> tasks s !! t = Some (parked e) -> seen_empty x = None -> shaped x ->
  (forall e, x <> parked e) -> n_waiters n = [] -> n_woken n = [] ->
  awake (<[t := x]> (tasks s)) (set_notify CDelivery n (mock s)).
Proof.
  intros H1 Ha Ht Hx Hs Hp Hw Hk. split; cbn.
  - intros u y [[<- <-]|[_ H]]%lookup_insert_Some; [done|by apply (aw_shape _ _ Ha u)].
  - rewrite Hw, Hk. intros u []%elem_of_nil.
  - intros u e' [[_ E]|[Hne H]]%lookup_insert_Some; [by destruct (Hp e')|]. destruct Hne. apply (H1 t u _ _ Ht H); by eexists.
  - intros u y e' [[<- <-]|[Hne H]]%lookup_insert_Some Hy; [congruence|]. destruct Hne.
    apply (H1 t u _ _ Ht H); [by eexists|]. rewrite (seen_streaming y e' Hy). by eexists.
Qed.

Lemma awake_step_task s s' t : one_of (tasks s) -> awake (tasks s) (mock s) -> step_task t s = Some s' -> awake (tasks s') (mock s').
Proof.
  intros H1 Ha H. unfold step_task in H. destruct (tasks s !! t) as [[pc|g pc|c pc|c pc| |c|a|d]|] eqn:Ht; try done.
  - destruct (run_section pc (mock s)) as [m n] eqn:Hr. injection H as <-.
    destruct (continue_task_state t n (log_taken t (took pc (mock s)) (set_mock m s))) as [-> ->].
    destruct (log_taken_frame t (took pc (mock s)) (set_mock m s)) as (-> & -> & _). by apply (awake_section s t pc m n).
  - destruct (gate_of s !! g) as [x|]; [|done]. destruct (gate_open x); [|done]. injection H as <-. cbn.
    apply awake_task; try done; [by rewrite Ht|]. intros e Hx. by apply (aw_seen _ _ Ha t _ e Ht).
  - destruct (poll_notified t (channel_notify c (mock s))) as [r n] eqn:Hn. injection H as <-. cbn.
    pose proof (aw_shape _ _ Ha t _ Ht) as Hs. destruct c; cbn in Hs.
    + destruct Hs as [e ->]. by apply awake_poll.
    + subst pc. apply (awake_same _ (mock s)); [done|]. apply awake_task; try done; [by rewrite Ht| | |]; by destruct r.
  - case_decide as Hw; [|done]. injection H as <-. cbn.
    pose proof (aw_shape _ _ Ha t _ Ht) as Hs. destruct c; cbn in Hs.
    + destruct Hs as [e ->]. cbn in Hw. destruct (aw_parked _ _ Ha t e Ht) as [[E1 E2]|(E1 & _)]; [|by rewrite E1 in Hw; apply elem_of_nil in Hw].
      apply (awake_leave s t e); try done. cbn. rewrite E1. rewrite filter_cons_False by auto. done.
    + subst pc. apply (awake_same _ (mock s)); [done|]. apply awake_task; try done. by rewrite Ht.
  - destruct (controller_of s !! c) as [x|]; [|done].
    destruct (c_value x); [|destruct (c_sender_taken x); [|done]]; injection H as <-; cbn; (apply awake_task; try done; by rewrite Ht).
Qed.

Lemma awake_drop_task s s' t : one_of (tasks s) -> awake (tasks s) (mock s) -> drop_task t s = Some s' -> awake (tasks s') (mock s').
Proof.
  intros H1 Ha H. unfold drop_task in H. destruct (tasks s !! t) as [[pc|g pc|c pc|c pc| |c|a|d]|] eqn:Ht; try done; injection H as <-.
  - assert (awake (<[t := Cancelled (held pc)]> (tasks s)) (mock s)); [|by destruct (gate_of s !! g)].
    apply awake_task; try done. by rewrite Ht.
  - pose proof (aw_shape _ _ Ha t _ Ht) as Hs. destruct c; cbn in Hs.
    + destruct Hs as [e ->]. cbn [channel_notify].
      assert (Hn : n_waiters (drop_notified t (delivery_notify (mock s))) = [] /\ n_woken (drop_notified t (delivery_notify (mock s))) = []).
      { unfold drop_notified. destruct (aw_parked _ _ Ha t e Ht) as [[E1 E2]|(E1 & E2 & _)]; rewrite E1, E2.
        - rewrite decide_True by set_solver. rewrite filter_cons_False by auto. done.
        - rewrite decide_False by set_solver. rewrite filter_cons_False by auto. done. }
      apply (awake_leave s t e); try done; apply Hn.
    + subst pc. apply (awake_same _ (mock s)); [done|]. apply awake_task; try done. cbn. by rewrite Ht.
  - apply awake_task; try done. by rewrite Ht.
  - assert (awake (<[t := Cancelled None]> (tasks s)) (mock s)); [|by destruct (controller_of s !! c)].
    apply awake_task; try done. by rewrite Ht.
Qed.

Lemma awake_reach s : reach1 s -> one_of (tasks s) /\ awake (tasks s) (mock s).
Proof.
  induction 1 as [|l s s' _ [H1 Ha] H Hone].
  - split; [by intros t t' x x' H|]. split; cbn; try done. intros t []%elem_of_nil.
  - split; [done|]. destruct l; cbn [sys_step] in H.
    + destruct (scriptable x); [|done]. injection H as <-. apply (awake_same _ (mock s)); [by destruct x|done].
    + injection H as <-. by apply (awake_notify _ (mock s)).
    + destruct (gate_of s !! g); [done|]. injection H as <-. destruct site; first [by apply (awake_notify _ (mock s)) | by apply (awake_same _ (mock s))].
    + destruct (gate_of s !! g); [|done]. by injection H as <-.
    + destruct (gate_of s !! g); [|done]. by injection H as <-.
    + destruct (gate_of s !! g); [|done]. by injection H as <-.
    + destruct (controller_of s !! c); [done|]. injection H as <-. by apply (awake_same _ (mock s)).
    + destruct (controller_of s !! c); [|done]. by injection H as <-.
    + destruct (controller_of s !! c); [|done]. by injection H as <-.
    + destruct (tasks s !! t) eqn:Ht; [done|]. destruct (starts pc) eqn:Hp; [|done]. injection H as <-. cbn.
      apply awake_task; try done; [by rewrite Ht|]. intros e. by destruct pc.
    + by apply (awake_step_task s s' t).
    + by apply (awake_drop_task s s' t).
Qed.

(** A call polled [n] times. *)
Fixpoint drive (n : nat) (t : Task) (s : Sys) : option Sys :=
  match n with O => Some s | S n => step_task t s ≫= drive n t end.

(** The call waits for a delivery of the stream of epoch [e]. *)
Definition waiting (ts : TaskState) (e : Z) : Prop :=
  ts = Running (PNext e) \/ ts = Polling CDelivery (PNext e) \/ ts = parked e.

Lemma drive_next s t e :
  tasks s !! t = Some (Running (PNext e)) -> gates (mock s) GDelivery = [] -> ~ idle e (mock s) ->
  exists s', drive 2 t s = Some s' /\ tasks s' !! t = Some (Done (ADelivery (head (deliveries (mock s))))).
Proof.
  intros Ht Hg Hi. destruct (next_section e (mock s)) as (m & g & Hr & _ & _ & _ & Hgs). destruct (Hgs Hg) as [-> _].
  set (pc := PDelivery e (head (deliveries (mock s))) (keep_open (mock s)) (e <? stream_epoch (mock s))).
  assert (exists s1, step_task t s = Some s1 /\ tasks s1 !! t = Some (Running pc)) as (s1 & Hs1 & Ht1).
  { unfold step_task. rewrite Ht, Hr. eexists. split; [done|]. cbn [continue_task set_task tasks]. by rewrite lookup_insert_eq. }
  cbn [drive]. rewrite Hs1. cbn [mbind option_bind].
  unfold step_task. rewrite Ht1. cbn [run_section took log_taken pc]. eexists. split; [done|].
  destruct (deliveries (mock s)) eqn:E; cbn.
  - destruct (Z.ltb_spec e (stream_epoch (mock s))); cbn; [by rewrite lookup_insert_eq|]. by destruct Hi.
  - by rewrite lookup_insert_eq.
Qed.

(** A waiting stream with something to do is at the head of its loop after one poll. *)
Lemma drive_waiting s t ts e :
  one_of (tasks s) -> awake (tasks s) (mock s) -> tasks s !! t = Some ts -> waiting ts e -> ~ idle e (mock s) ->
  ts = Running (PNext e) \/
  exists s1, step_task t s = Some s1 /\ tasks s1 !! t = Some (Running (PNext e)) /\
    deliveries (mock s1) = deliveries (mock s) /\ stream_epoch (mock s1) = stream_epoch (mock s) /\ gates (mock s1) = gates (mock s).
Proof.
  intros H1 Ha Ht [-> | [-> | ->]] Hi; [by left|right|right]; unfold step_task; rewrite Ht.
  - destruct (aw_seen _ _ Ha t _ e Ht eq_refl) as [|Hp]; [done|]. cbn. unfold poll_notified. rewrite Hp.
    eexists. split; [done|]. cbn. by rewrite lookup_insert_eq.
  - destruct (aw_parked _ _ Ha t e Ht) as [[Hw _]|(_ & _ & _ & ?)]; [|done].
    cbn. rewrite decide_True by (rewrite Hw; set_solver). eexists. split; [done|]. cbn. by rewrite lookup_insert_eq.
Qed.

(** A scripted stream never sleeps through its input. In every run in which one stream
    is read at a time, a call of [next] that waits while a delivery is queued, or after
    its consumer was cancelled, returns within three polls of its own, with the first
    delivery of the queue, or with the end of the stream when the queue is empty;
    whatever pushes, cancellations, gates and dropped calls came before, and wherever
    between the empty check and the registration they came. *)
Theorem stream_wakes s t ts e :
  reach1 s -> tasks s !! t = Some ts -> waiting ts e -> gates (mock s) GDelivery = [] ->
  (deliveries (mock s) <> [] \/ e < stream_epoch (mock s)) ->
  exists n s', (n <= 3)%nat /\ drive n t s = Some s' /\
    tasks s' !! t = Some (Done (ADelivery (head (deliveries (mock s))))).
Proof.
  intros Hr Ht Hw Hg Hp. destruct (awake_reach s Hr) as [H1 Ha].
  assert (Hi : ~ idle e (mock s)) by (intros [E ?]; destruct Hp; [done|lia]).
  destruct (drive_waiting s t ts e H1 Ha Ht Hw Hi) as [->|(s1 & Hs & Ht1 & Hd & He & Hgs)].
  - destruct (drive_next s t e Ht Hg Hi) as (s' & ? & ?). by exists 2%nat, s'; split; [lia|].
  - destruct (drive_next s1 t e Ht1) as (s' & H2 & H3); [by rewrite Hgs|unfold idle; by rewrite Hd, He|].
    exists 3%nat, s'. split; [lia|]. split; [|by rewrite <- Hd]. cbn [drive]. by rewrite Hs.
Qed.

(** Deliveries are conserved: in every run, with any number of streams, what was pushed
    is what the calls have taken, in the order of the pushes, followed by what is still
    queued; no call takes two deliveries; a delivery that was taken is on its way in the
    call that took it, was returned by it, or went down with it. *)
Theorem deliveries_scripted s :
  reach s -> pushed s = (taken s).*2 ++ deliveries (mock s) /\ NoDup (taken s).*1 /\
    (forall t d, (t, d) ∈ taken s <-> tasks s !! t ≫= holds = Some d).
Proof. apply conserved_reach. Qed.

(** ** Runs *)

Fixpoint run (ls : list Label) (s : Sys) : option Sys :=
  match ls with [] => Some s | l :: ls => sys_step l s ≫= run ls end.

Lemma mock_run_reach ls s s' : reach s -> run ls s = Some s' -> reach s'.
Proof.
  revert s. induction ls as [|l ls IH]; intros s Hr; cbn; [by intros [= <-]|].
  destruct (sys_step l s) as [s1|] eqn:E; [|done]. cbn. apply IH. by apply (reach_step l s).
Qed.

Definition delivery (tag : Z) : TransportResult TransportDelivery :=
  Ok (mkTransportDelivery tag "jobs" "high" false None None [] "job").

(** Only the call [u] reads a stream. *)
Definition solo (u : Task) (ts : gmap Task TaskState) : Prop := map_Forall (fun t x => streaming x = None \/ t = u) ts.

#[global] Instance solo_dec u ts : Decision (solo u ts).
Proof. unfold solo. apply _. Defined.

Fixpoint run1 (u : Task) (ls : list Label) (s : Sys) : option Sys :=
  match ls with
  | [] => Some s
  | l :: ls => sys_step l s ≫= fun s' => if decide (solo u (tasks s')) then run1 u ls s' else None
  end.

Lemma run1_reach1 u ls s s' : reach1 s -> run1 u ls s = Some s' -> reach1 s'.
Proof.
  revert s. induction ls as [|l ls IH]; intros s Hr; cbn; [by intros [= <-]|].
  destruct (sys_step l s) as [s1|] eqn:E; [|done]. cbn. case_decide as Hs; [|done]. apply IH. apply (reach1_step l s); [done..|].
  intros t t' x x' Ht Ht' [e Hx] [e' Hx']. destruct (Hs t x Ht), (Hs t' x' Ht'); congruence.
Qed.

(** A delivery pushed between the empty check and the registration. *)
Definition late_push : list Label :=
  [LScript SKeepOpen; LCall 1%nat (PNext 0); LStep 1%nat; LStep 1%nat; LPushDelivery (delivery 7)].
Definition late_state : Sys := default sys_init (run1 1%nat late_push sys_init).

Lemma stream_wakes_witness :
  tasks late_state !! 1%nat = Some (Polling CDelivery (PNext 0)) /\
  exists n s', (n <= 3)%nat /\ drive n 1%nat late_state = Some s' /\ tasks s' !! 1%nat = Some (Done (ADelivery (Some (delivery 7)))).
Proof.
  split; [vm_compute; reflexivity|].
  apply (stream_wakes late_state 1%nat (Polling CDelivery (PNext 0)) 0).
  - apply (run1_reach1 1%nat late_push sys_init); [constructor|vm_compute; reflexivity].
  - vm_compute. reflexivity.
  - right. left. reflexivity.
  - vm_compute. reflexivity.
  - left. vm_compute. intros [=].
Defined.

(** Two streams have seen an empty queue; two deliveries are pushed before they register. *)
Definition racing : list Label :=
  [LScript SKeepOpen; LCall 1%nat (PNext 0); LCall 2%nat (PNext 0); LStep 1%nat; LStep 1%nat; LStep 2%nat; LStep 2%nat;
   LPushDelivery (delivery 1); LPushDelivery (delivery 2); LStep 1%nat; LStep 2%nat; LStep 1%nat; LStep 1%nat].

(** With two streams the single permit of the notification is shared: the second stream
    sleeps although a delivery is queued, until something is pushed again. *)
Lemma second_stream_sleeps :
  exists s, run racing sys_init = Some s /\ tasks s !! 1%nat = Some (Done (ADelivery (Some (delivery 1)))) /\
    deliveries (mock s) = [delivery 2] /\ tasks s !! 2%nat = Some (parked 0) /\ step_task 2%nat s = None.
Proof. eexists. split; [vm_compute; reflexivity|]. by vm_compute. Qed.

(** Two parked streams and one [cancel]. *)
Definition cancelling : list Label :=
  [LScript SKeepOpen; LCall 1%nat (PNext 0); LCall 2%nat (PNext 0); LStep 1%nat; LStep 1%nat; LStep 1%nat; LStep 2%nat; LStep 2%nat; LStep 2%nat;
   LCall 3%nat (PCall false (Cancel "first")); LStep 3%nat; LStep 3%nat; LStep 1%nat; LStep 1%nat; LStep 1%nat].

(** [cancel] names one consumer, but it ends whichever stream is notified and leaves the
    other one, which is as stale, parked. *)
Lemma cancel_ends_one_stream :
  exists s, run cancelling sys_init = Some s /\ stream_epoch (mock s) = 1 /\
    tasks s !! 1%nat = Some (Done (ADelivery None)) /\ tasks s !! 2%nat = Some (parked 0) /\ step_task 2%nat s = None.
Proof. eexists. split; [vm_compute; reflexivity|]. by vm_compute. Qed.

End MockSpec.
