(* ===== verification/LapinChannel.v ===== *)
(** * The channels of the lapin adapter

    Models the channel and connection traits of [transport/lapin.rs]: which AMQP methods a
    call sends, with which options and arguments, and what it makes of the answers. The
    lapin crate is a function from methods to answers over a state of its own (the
    connection and the broker behind it). *)

From S2P Require Import Prelude Transport ConsumerPump Lapin MockTransport.
Import Transport.
Import ConsumerPump(ConsumerRequest, mkConsumerRequest, cr_queue, cr_consumer_tag, cr_exclusive, cr_no_ack).
Import Lapin.
Import MockTransport(TransportOperation(..)).
Local Open Scope Z_scope.
Local Open Scope rabbit_scope.

Module LapinChannel.

(** The calls of lapin's [Channel] and [Connection], with their options. *)
Inductive Method :=
| CreateChannel
| ConnectionClose (code : Z) (text : string)
| ChannelClose (code : Z) (text : string)
| ExchangeDeclare (name kind : string) (passive durable auto_delete internal nowait : bool) (arguments : FieldTable)
| QueueDeclare (name : string) (passive durable exclusive auto_delete nowait : bool) (arguments : FieldTable)
| QueueBind (queue exchange routing_key : string) (nowait : bool) (arguments : FieldTable)
| QueuePurge (queue : string) (nowait : bool)
| QueueDelete (queue : string) (if_unused if_empty nowait : bool)
| ExchangeDelete (exchange : string) (if_unused nowait : bool)
| BasicGet (queue : string) (no_ack : bool)
| BasicAck (delivery_tag : Z) (multiple : bool)
| BasicReject (delivery_tag : Z) (requeue : bool)
| ConfirmSelect (nowait : bool)
| BasicPublish (exchange routing_key : string) (mandatory immediate : bool) (payload : string) (properties : BasicProperties)
| BasicQos (prefetch : Z) (global : bool)
| BasicCancel (consumer_tag : string) (nowait : bool)
| BasicConsume (queue consumer_tag : string) (no_local no_ack exclusive nowait : bool) (arguments : FieldTable).

(** What a method is answered with: a message count, a message, a confirmation to wait
    for ([C]), nothing. *)
Definition Reply (C : Type) (m : Method) : Type :=
  match m with
  | QueueDeclare _ _ _ _ _ _ _ | QueuePurge _ _ | QueueDelete _ _ _ _ => Z
  | BasicGet _ _ => option LapinDelivery
  | BasicPublish _ _ _ _ _ _ => C
  | _ => unit
  end.

(** What a caller sees of a call: a publication is its submission and the answer of its
    receipt. *)
Inductive Observed :=
| OUnit (r : result unit TransportError)
| OSize (r : result Z TransportError)
| OMessage (r : result (option FetchedMessage) TransportError)
| OPublish (r : result (result PublishConfirmation TransportError) TransportError).

Section Channel.

Context {B C : Type}.
Variable lapin : forall m, B -> result (Reply C m) LapinError * B.
Variable confirmed : C -> B -> result Confirmation LapinError * B.

(** [.await.map_err(map_lapin_error)] *)
Definition send (m : Method) (b : B) : result (Reply C m) TransportError * B :=
  let '(r, b) := lapin m b in (map_err map_lapin_error r, b).

Definition send_unit (m : Method) (b : B) : result unit TransportError * B :=
  let '(r, b) := send m b in (match r with Ok _ => Ok tt | Err e => Err e end, b).

Definition declare_exchange (spec : ExchangeSpec) (passive : bool) : B -> result unit TransportError * B :=
  send_unit (ExchangeDeclare (x_name spec) (exchange_arguments spec).1 passive (x_durable spec) (x_auto_delete spec) (x_internal spec) false
    (exchange_arguments spec).2).

Definition declare_queue (spec : QueueSpec) (passive : bool) : B -> result unit TransportError * B :=
  send_unit (QueueDeclare (q_name spec) passive (q_durable spec) (q_exclusive spec) (q_auto_delete spec) false (queue_arguments spec)).

Definition queue_size (queue : string) : B -> result Z TransportError * B :=
  send (QueueDeclare queue true false false false false []).

Definition bind_queue (spec : BindingSpec) : B -> result unit TransportError * B :=
  send_unit (QueueBind (b_queue spec) (b_exchange spec) (b_routing_key spec) false []).

Definition purge_queue (queue : string) : B -> result unit TransportError * B := send_unit (QueuePurge queue false).
Definition delete_queue (queue : string) : B -> result unit TransportError * B := send_unit (QueueDelete queue false false false).
Definition delete_exchange (exchange : string) : B -> result unit TransportError * B := send_unit (ExchangeDelete exchange false false).
Definition close_channel : B -> result unit TransportError * B := send_unit (ChannelClose 200 "OK").

(** The message is settled before it is returned. *)
Definition get_message (queue : string) (requeue : bool) (b : B) : result (option FetchedMessage) TransportError * B :=
  let '(got, b) := send (BasicGet queue false) b in
  match got with
  | Err e => (Err e, b)
  | Ok None => (Ok None, b)
  | Ok (Some delivery) =>
      let fetched := fetched_message delivery in
      let '(settled, b) :=
        if requeue then send_unit (BasicReject (fm_delivery_tag fetched) true) b else send_unit (BasicAck (fm_delivery_tag fetched) false) b in
      (match settled with Ok _ => Ok (Some fetched) | Err e => Err e end, b)
  end.

Definition enable_confirms : B -> result unit TransportError * B := send_unit (ConfirmSelect false).

(** The receipt of a publication is its confirmation. *)
Definition publish (request : WireRequest) (b : B) : result C TransportError * B :=
  send (BasicPublish (w_exchange request) (w_routing_key request) (w_mandatory request) false (w_payload request)
    (publish_properties (w_properties request))) b.

Definition receipt_wait (receipt : C) (b : B) : result PublishConfirmation TransportError * B :=
  let '(r, b) := confirmed receipt b in (wait r, b).

Definition set_qos (prefetch : Z) : B -> result unit TransportError * B := send_unit (BasicQos prefetch false).
Definition cancel (consumer_tag : string) : B -> result unit TransportError * B := send_unit (BasicCancel consumer_tag false).
Definition consume (request : ConsumerRequest) : B -> result unit TransportError * B :=
  send_unit (BasicConsume (cr_queue request) (cr_consumer_tag request) false (cr_no_ack request) (cr_exclusive request) false []).
Definition ack (delivery_tag : Z) (multiple : bool) : B -> result unit TransportError * B := send_unit (BasicAck delivery_tag multiple).
Definition reject (delivery_tag : Z) (requeue : bool) : B -> result unit TransportError * B := send_unit (BasicReject delivery_tag requeue).

Definition open_channel : B -> result unit TransportError * B := send_unit CreateChannel.
Definition close_connection (b : B) : result unit TransportError * B :=
  let '(r, b) := lapin (ConnectionClose 200 "OK") b in (Lapin.close r, b).

Definition observe (x : result unit TransportError * B) : Observed * B := (OUnit x.1, x.2).

(** One call and, for a publication, the wait for its receipt. A connection is there:
    [Connect] is not a call of one. *)
Definition call (op : TransportOperation) (b : B) : option (Observed * B) :=
  match op with
  | Connect _ => None
  | OpenPublisher | OpenConsumer => Some (observe (open_channel b))
  | DeclareExchange spec => Some (observe (declare_exchange spec false b))
  | VerifyExchange spec => Some (observe (declare_exchange spec true b))
  | DeclareQueue spec => Some (observe (declare_queue spec false b))
  | VerifyQueue spec => Some (observe (declare_queue spec true b))
  | BindQueue spec => Some (observe (bind_queue spec b))
  | QueueSize queue => let '(r, b) := queue_size queue b in Some (OSize r, b)
  | PurgeQueue queue => Some (observe (purge_queue queue b))
  | DeleteQueue queue => Some (observe (delete_queue queue b))
  | DeleteExchange exchange => Some (observe (delete_exchange exchange b))
  | GetMessage queue requeue => let '(r, b) := get_message queue requeue b in Some (OMessage r, b)
  | EnableConfirms => Some (observe (enable_confirms b))
  | Publish request =>
      let '(r, b) := publish request b in
      match r with
      | Ok receipt => let '(w, b) := receipt_wait receipt b in Some (OPublish (Ok w), b)
      | Err e => Some (OPublish (Err e), b)
      end
  | Qos prefetch => Some (observe (set_qos prefetch b))
  | Consume request => Some (observe (consume request b))
  | Cancel consumer_tag => Some (observe (cancel consumer_tag b))
  | AckOp delivery_tag multiple => Some (observe (ack delivery_tag multiple b))
  | Reject delivery_tag requeue => Some (observe (reject delivery_tag requeue b))
  | CloseChannel => Some (observe (close_channel b))
  | CloseConnection => Some (observe (close_connection b))
  end.

Fixpoint calls (ops : list TransportOperation) (b : B) : option (list Observed * B) :=
  match ops with
  | [] => Some ([], b)
  | op :: ops =>
      match call op b with
      | Some (o, b) => match calls ops b with Some (os, b) => Some (o :: os, b) | None => None end
      | None => None
      end
  end.

End Channel.

End LapinChannel.
