(* ===== verification/TransportDouble.v ===== *)
(** * The scripted transport stands in for the lapin adapter

    A client that makes its calls one after the other cannot tell the lapin adapter in
    front of any broker from the scripted transport loaded with the broker's answers, as
    far as the script can express them. The methods that the adapter sends are in the
    second part. *)

From S2P Require Import Prelude Transport Lapin MockTransport LapinChannel.
From stdpp Require Import functions.
Import Transport.
Import MockTransport.
Import LapinChannel.
Local Open Scope Z_scope.

Module TransportDouble.

(** ** Calls of the scripted transport without a gate *)

(** A call run to its end; [None] when it waits. Four sections are enough for every call. *)
Fixpoint perform (fuel : nat) (pc : Pc) (m : MockState) : option (Answer * MockState) :=
  match fuel with
  | O => None
  | S fuel =>
      let '(m, n) := run_section pc m in
      match n with
      | Return a => Some (a, m)
      | Then pc | WaitForGate None pc => perform fuel pc m
      | _ => None
      end
  end.

Definition observe_answer (a : Answer) (m : MockState) : option (Observed * MockState) :=
  match a with
  | AUnit r => Some (OUnit r, m)
  | ASize r => Some (OSize r, m)
  | AMessage r => Some (OMessage r, m)
  | AStream r => Some (OUnit (match r with Ok _ => Ok tt | Err e => Err e end), m)
  | AReceipt c =>
      match perform 1 (PWait c) m with
      | Some (AConfirmation r, m) => Some (OPublish (Ok r), m)
      | _ => None
      end
  | _ => None
  end.

Definition mock_call (op : TransportOperation) (m : MockState) : option (Observed * MockState) :=
  match perform 4 (PCall true op) m with Some (a, m) => observe_answer a m | None => None end.

Fixpoint mock_calls (ops : list TransportOperation) (m : MockState) : option (list Observed * MockState) :=
  match ops with
  | [] => Some ([], m)
  | op :: ops =>
      match mock_call op m with
      | Some (o, m) => match mock_calls ops m with Some (os, m) => Some (o :: os, m) | None => None end
      | None => None
      end
  end.

(** ** Scripts *)

(** The queue that answers a call with a plain result. *)
Definition site (op : TransportOperation) : option ResultSite :=
  match op with
  | DeclareExchange _ | VerifyExchange _ | DeclareQueue _ | VerifyQueue _ | BindQueue _ | PurgeQueue _ | DeleteQueue _ | DeleteExchange _ =>
      Some ROperation
  | EnableConfirms => Some REnableConfirms
  | Qos _ | Consume _ | Cancel _ | AckOp _ _ | Reject _ _ => Some RConsumer
  | _ => None
  end.

(** The calls of a test that script one answer. *)
Definition script (op : TransportOperation) (o : Observed) (m : MockState) : MockState :=
  match o with
  | OUnit r => match site op with Some q => push_result q r m | None => m end
  | OSize r => push_queue_size r m
  | OMessage r => push_get_message r m
  | OPublish (Ok w) => push_confirmation w m
  | OPublish (Err _) => m
  end.

Definition scripted (ops : list TransportOperation) (os : list Observed) : MockState :=
  foldl (fun m x => script x.1 x.2 m) default_state (zip ops os).

(** Opening, closing and the submission of a publication cannot be scripted to fail. *)
Definition expressible (op : TransportOperation) (o : Observed) : Prop :=
  match o with
  | OUnit r => site op = None -> r = Ok tt
  | OPublish r => is_ok r = true
  | _ => True
  end.

(** The kind of answer of a call. *)
Definition answers (op : TransportOperation) (o : Observed) : Prop :=
  match op, o with
  | QueueSize _, OSize _ | GetMessage _ _, OMessage _ | Publish _, OPublish _ => True
  | (QueueSize _ | GetMessage _ _ | Publish _ | Connect _), _ => False
  | _, OUnit _ => True
  | _, _ => False
  end.

Lemma call_answers {B C} lapin confirmed op (b : B) o b' :
  call (C := C) lapin confirmed op b = Some (o, b') -> answers op o.
Proof.
  destruct op; cbn [call]; try done; try (by intros [= <- _]).
  - destruct (queue_size _ _ _). by intros [= <- _].
  - destruct (get_message _ _ _ _). by intros [= <- _].
  - destruct (publish _ _ _) as [[c|e] b1]; [|by intros [= <- _]]. destruct (receipt_wait _ _ _). by intros [= <- _].
Qed.

(** The queues of a script hold the answers of their calls, in order. *)
Definition results_for (q : ResultSite) (x : TransportOperation * Observed) : option (result unit TransportError) :=
  match x.2 with OUnit r => if decide (site x.1 = Some q) then Some r else None | _ => None end.
Definition size_of (x : TransportOperation * Observed) := match x.2 with OSize r => Some r | _ => None end.
Definition message_of (x : TransportOperation * Observed) := match x.2 with OMessage r => Some r | _ => None end.
Definition confirmation_of (x : TransportOperation * Observed) := match x.2 with OPublish (Ok w) => Some (Ready w) | _ => None end.

(** The state is loaded with the answers of the calls to come. *)
Record loaded (xs : list (TransportOperation * Observed)) (m : MockState) : Prop := {
  ld_results : forall q, results m q = omap (results_for q) xs;
  ld_sizes : queue_sizes m = omap size_of xs;
  ld_messages : get_messages m = omap message_of xs;
  ld_confirmations : confirmations m = omap confirmation_of xs;
  ld_gates : forall g, gates m g = []
}.

Lemma omap_snoc {A D} (f : A -> option D) xs x : omap f (xs ++ [x]) = omap f xs ++ option_list (f x).
Proof. rewrite omap_app. f_equal. Qed.

Lemma script_loaded xs ys m : loaded xs m -> loaded (xs ++ ys) (foldl (fun m x => script x.1 x.2 m) m ys).
Proof.
  revert xs m. induction ys as [|[op o] ys IH]; intros xs m H; [by rewrite app_nil_r|].
  cbn [foldl]. replace (xs ++ (op, o) :: ys) with ((xs ++ [(op, o)]) ++ ys) by (by rewrite <- app_assoc). apply IH.
  destruct H as [H1 H2 H3 H4 H5].
  assert (Hq : forall q, results (script op o m) q = results m q ++ option_list (results_for q (op, o))).
  { intros q. unfold results_for. cbn. destruct o as [r|r|r|[w|e]]; cbn; rewrite ?app_nil_r; try done.
    destruct (site op) as [q'|]; cbn; [|by rewrite app_nil_r]. destruct (decide (q' = q)) as [->|Hq].
    - by rewrite fn_lookup_insert, decide_True.
    - rewrite fn_lookup_insert_ne by done. rewrite decide_False by congruence. by rewrite app_nil_r. }
  split; intros; rewrite ?omap_snoc; cbn [fst snd].
  - by rewrite Hq, H1.
  - rewrite <- H2. destruct o as [r|r|r|[w|e]]; cbn; rewrite ?app_nil_r; try done. by destruct (site op).
  - rewrite <- H3. destruct o as [r|r|r|[w|e]]; cbn; rewrite ?app_nil_r; try done. by destruct (site op).
  - rewrite <- H4. destruct o as [r|r|r|[w|e]]; cbn; rewrite ?app_nil_r; try done. by destruct (site op).
  - destruct o as [r|r|r|[w|e]]; cbn; try apply H5. destruct (site op); apply H5.
Qed.

Lemma scripted_loaded ops os : loaded (zip ops os) (scripted ops os).
Proof. apply (script_loaded [] (zip ops os) default_state). by split. Qed.

Lemma loaded_frame xs m m' :
  loaded xs m -> results m' = results m -> queue_sizes m' = queue_sizes m -> get_messages m' = get_messages m ->
  confirmations m' = confirmations m -> gates m' = gates m -> loaded xs m'.
Proof. intros [H1 H2 H3 H4 H5] E1 E2 E3 E4 E5. split; intros; by rewrite ?E1, ?E2, ?E3, ?E4, ?E5. Qed.

(** A call that no queue answers. *)
Lemma loaded_skip op r xs m : site op = None -> loaded ((op, OUnit r) :: xs) m -> loaded xs m.
Proof.
  intros Hs [H1 H2 H3 H4 H5]. split; [|done..]. intros q. rewrite H1. cbn. unfold results_for at 1. cbn.
  by rewrite Hs, decide_False.
Qed.

Lemma loaded_pop op q r xs m :
  site op = Some q -> loaded ((op, OUnit r) :: xs) m ->
  exists m', pop_result q m = (r, m') /\ loaded xs m' /\ operations m' = operations m.
Proof.
  intros Hs [H1 H2 H3 H4 H5].
  assert (Hq : forall q', results m q' = option_list (if decide (q = q') then Some r else None) ++ omap (results_for q') xs).
  { intros q'. rewrite H1. cbn. unfold results_for at 1. cbn. rewrite Hs.
    destruct (decide (q = q')) as [->|]; [by rewrite decide_True|by rewrite decide_False by congruence]. }
  unfold pop_result. rewrite Hq, decide_True by done. cbn. eexists. split; [done|]. split; [|done].
  split; try done. intros q'. cbn. destruct (decide (q' = q)) as [->|].
  - by rewrite fn_lookup_insert.
  - rewrite fn_lookup_insert_ne by done. by rewrite Hq, decide_False by done.
Qed.

Lemma no_gate g m xs : loaded xs m -> pop_gate g m = (None, m).
Proof. intros H. unfold pop_gate. by rewrite (ld_gates _ _ H). Qed.

Lemma loaded_record op xs m : loaded xs m -> loaded xs (record op m).
Proof. intros H. by apply (loaded_frame xs m). Qed.

(** A call whose plain result is popped in the section that records it. *)
Lemma loaded_record_result op q r xs m :
  site op = Some q -> loaded ((op, OUnit r) :: xs) m ->
  exists m', record_result q op m = (r, m') /\ loaded xs m' /\ operations m' = operations m ++ [op].
Proof. intros Hs H. unfold record_result. by apply (loaded_pop op q r xs (record op m)); [|apply loaded_record]. Qed.

(** One section after the other. *)
Ltac mock_sections :=
  cbn [perform run_section enter_call];
  unfold MockTransport.connect, MockTransport.open_publisher, MockTransport.open_consumer, MockTransport.close_connection, MockTransport.record_op,
    MockTransport.declare_name, MockTransport.declare_gate, MockTransport.declare_record, MockTransport.queue_size, MockTransport.get_message,
    MockTransport.close_channel, MockTransport.enable_confirms, MockTransport.enable_confirms_result, MockTransport.publish,
    MockTransport.publish_record, MockTransport.publish_confirmation, MockTransport.record_consumer_op, MockTransport.consume,
    MockTransport.consume_epoch, MockTransport.cancel, MockTransport.cancel_bump, MockTransport.ack;
  cbn [perform run_section enter_call].

(** A loaded state answers a call as the script says and is loaded with the rest. *)
Lemma mock_call_loaded op o xs m :
  answers op o -> expressible op o -> loaded ((op, o) :: xs) m ->
  exists m', mock_call op m = Some (o, m') /\ loaded xs m' /\ operations m' = operations m ++ [op].
Proof.
  intros Ha He H.
  assert (Hg : forall g op', pop_gate g (record op' m) = (None, record op' m)) by (intros; by eapply no_gate, loaded_record).
  destruct (site op) as [q|] eqn:Hs.
  - assert (exists r, o = OUnit r) as [r ->] by (destruct op, o; cbn in *; naive_solver).
    destruct (loaded_record_result op q r xs m Hs H) as (m' & E & Hl & Ho).
    unfold mock_call. destruct op; try done; injection Hs as <-; mock_sections.
    all: try (rewrite E; by exists m').
    + set (m1 := set_declared _ _).
      assert (H1 : loaded ((DeclareQueue spec, OUnit r) :: xs) m1) by (by apply (loaded_frame _ m)).
      destruct (loaded_record_result (DeclareQueue spec) ROperation r xs m1 eq_refl H1) as (m2 & E2 & Hl2 & Ho2).
      mock_sections. rewrite (no_gate GDeclareQueue m1 _ H1). mock_sections. rewrite E2. exists m2. destruct r as [[]|e]; done.
    + rewrite Hg. unfold record_result in E. mock_sections. rewrite E. by exists m'.
    + rewrite E. destruct r as [[]|e]; by exists m'.
    + rewrite E. destruct r as [[]|e]; [|by exists m']. cbn. eexists. split; [done|]. split; [by apply (loaded_frame _ m')|done].
    + rewrite Hg. unfold record_result in E. rewrite E. by exists m'.
  - destruct op; try done; destruct o as [r|r|r|[w|e]]; try done.
    all: try (pose proof (He Hs) as ->; apply loaded_skip in H; [|done]; unfold mock_call; mock_sections;
      rewrite ?Hg; eexists; split; [done|]; split; [by apply loaded_record|done]).
    + unfold mock_call. mock_sections. cbn [queue_sizes record set_operations].
      rewrite (ld_sizes _ _ H). cbn. eexists. split; [done|]. split; [|done]. by destruct H.
    + unfold mock_call. mock_sections. cbn [get_messages record set_operations].
      rewrite (ld_messages _ _ H). cbn. eexists. split; [done|]. split; [|done]. by destruct H.
    + unfold mock_call. mock_sections. rewrite (no_gate GPublish m _ H). mock_sections. mock_sections.
      cbn [confirmations record set_operations]. rewrite (ld_confirmations _ _ H). cbn. eexists. split; [done|]. split; [|done]. by destruct H.
Qed.

Lemma mock_calls_loaded ops os m :
  Forall2 answers ops os -> Forall2 expressible ops os -> loaded (zip ops os) m ->
  exists m', mock_calls ops m = Some (os, m') /\ operations m' = operations m ++ ops.
Proof.
  intros Ha. revert m. induction Ha as [|op o ops os Ho _ IH]; intros m He H; [exists m; by rewrite app_nil_r|].
  apply Forall2_cons_1 in He as [He1 He2]. destruct (mock_call_loaded op o (zip ops os) m Ho He1 H) as (m1 & E1 & H1 & O1).
  destruct (IH m1 He2 H1) as (m2 & E2 & O2). exists m2. cbn. rewrite E1, E2. split; [done|]. by rewrite O2, O1, <- app_assoc.
Qed.

Lemma calls_answer {B C} lapin confirmed ops (b : B) os b' :
  calls (C := C) lapin confirmed ops b = Some (os, b') -> Forall2 answers ops os.
Proof.
  revert b os. induction ops as [|op ops IH]; intros b os; cbn; [intros [= <- _]; constructor|].
  destruct (call lapin confirmed op b) as [[o b1]|] eqn:E; [|done].
  destruct (calls lapin confirmed ops b1) as [[os' b2]|] eqn:E2; [|done]. intros [= <- ->].
  constructor; [by eapply call_answers|by eapply IH].
Qed.

(** The scripted transport replays what a test loads it with: for any sequence of calls
    that the adapter answers, the transport whose queues were filled with the kinds of
    answers of these calls, in their order, gives them and has logged the calls. Left out
    are failures the script has no words for (of opening, of closing, of the submission
    of a publication) and the streams of deliveries, which are in [MockSpec]. *)
Theorem script_stands_in {B C} lapin confirmed ops (b : B) os b' :
  calls (C := C) lapin confirmed ops b = Some (os, b') -> Forall2 expressible ops os ->
  exists m, mock_calls ops (scripted ops os) = Some (os, m) /\ operations m = ops.
Proof.
  intros H He. destruct (mock_calls_loaded ops os (scripted ops os)) as (m & H1 & H2).
  - by eapply calls_answer.
  - done.
  - apply scripted_loaded.
  - exists m. split; [done|]. rewrite H2. cut (operations (scripted ops os) = []); [by intros ->|].
    unfold scripted. generalize default_state (eq_refl : operations default_state = []).
    induction (zip ops os) as [|[op o] xs IH]; intros m0 Hm; [done|]. cbn [foldl]. apply IH.
    destruct o as [r|r|r|[w|e]]; cbn; try done. by destruct (site op).
Qed.

(** A broker that knows every queue but one, and returns what is published to it. *)
Definition no_queue : Lapin.LapinError := Lapin.mkLapinError (Lapin.ProtocolError 404) false "no queue".

Definition toy_broker (m : Method) (b : nat) : result (Reply nat m) Lapin.LapinError * nat :=
  (match m as m return result (Reply nat m) Lapin.LapinError with
   | QueueDeclare name _ _ _ _ _ _ => if String.eqb name "missing" then Err no_queue else Ok 7
   | QueuePurge name _ => if String.eqb name "missing" then Err no_queue else Ok 7
   | QueueDelete _ _ _ _ => Ok 7
   | BasicGet _ _ => Ok (Some (Lapin.mkLapinDelivery 3 "jobs" "high" true (Lapin.mkBasicProperties None None None (Some "m-1") None) "job"))
   | BasicPublish _ _ _ _ _ _ => Ok b
   | BasicQos prefetch _ => if prefetch =? 0 then Err no_queue else Ok tt
   | _ => Ok tt
   end, S b).

Definition toy_confirmed (c b : nat) : result Lapin.Confirmation Lapin.LapinError * nat := (Ok (Lapin.CAck None), b).

Definition toy_calls : list TransportOperation :=
  [OpenPublisher; QueueSize "missing"; QueueSize "jobs"; PurgeQueue "missing"; Qos 0; GetMessage "jobs" true;
   Publish (mkWireRequest "jobs" "high" "job" true (mkPublishProperties None None (Some "m-1") None [] true)); CloseChannel].

Definition toy_answers : list Observed := match calls toy_broker toy_confirmed toy_calls 0%nat with Some (os, _) => os | None => [] end.

Lemma script_stands_in_witness :
  length toy_answers = 8%nat /\ exists m, mock_calls toy_calls (scripted toy_calls toy_answers) = Some (toy_answers, m) /\ operations m = toy_calls.
Proof.
  split; [vm_compute; reflexivity|].
  apply (script_stands_in toy_broker toy_confirmed toy_calls 0%nat toy_answers 9%nat).
  - vm_compute. reflexivity.
  - vm_compute. repeat constructor; intros [=].
Defined.

(** ** The methods of a call *)

Section Wire.

Context {C : Type}.
Variable answer : forall m, list (Method * bool) -> result (Reply C m) Lapin.LapinError.
Variable confirmation : C -> list (Method * bool) -> result Lapin.Confirmation Lapin.LapinError.

(** Any broker, which logs the methods it gets and whether it accepts them. *)
Definition logging (m : Method) (log : list (Method * bool)) : result (Reply C m) Lapin.LapinError * list (Method * bool) :=
  (answer m log, log ++ [(m, is_ok (answer m log))]).
Definition resolving (c : C) (log : list (Method * bool)) : result Lapin.Confirmation Lapin.LapinError * list (Method * bool) :=
  (confirmation c log, log).

(** The broker does not answer the method. *)
Definition unanswered (m : Method) : bool :=
  match m with
  | ExchangeDeclare _ _ _ _ _ _ nowait _ | QueueDeclare _ _ _ _ _ nowait _ | QueueBind _ _ _ nowait _ | QueuePurge _ nowait
  | QueueDelete _ _ _ nowait | ExchangeDelete _ _ nowait | ConfirmSelect nowait | BasicCancel _ nowait | BasicConsume _ _ _ _ _ nowait _ => nowait
  | _ => false
  end.

(** The method can change the topology. *)
Definition alters (m : Method) : bool :=
  match m with
  | ExchangeDeclare _ _ passive _ _ _ _ _ | QueueDeclare _ passive _ _ _ _ _ => negb passive
  | QueueBind _ _ _ _ _ | QueueDelete _ _ _ _ | ExchangeDelete _ _ _ => true
  | _ => false
  end.

Definition alters_topology (op : TransportOperation) : bool :=
  match op with DeclareExchange _ | DeclareQueue _ | BindQueue _ | DeleteQueue _ | DeleteExchange _ => true | _ => false end.

Definition failed (o : Observed) : bool :=
  match o with
  | OUnit r => negb (is_ok r) | OSize r => negb (is_ok r) | OMessage r => negb (is_ok r) | OPublish r => negb (is_ok r)
  end.

Definition sent_by (op : TransportOperation) (o : Observed) (log : list (Method * bool)) : Prop :=
  failed o = existsb (fun x => negb x.2) log /\
  forallb (fun x => negb (unanswered x.1)) log = true /\
  (existsb (fun x => alters x.1) log = alters_topology op) /\
  match o with
  | OMessage (Ok (Some f)) =>
      exists queue requeue, log = [(BasicGet queue false, true);
        (if requeue : bool then BasicReject (Lapin.fm_delivery_tag f) true else BasicAck (Lapin.fm_delivery_tag f) false, true)] /\
        op = GetMessage queue requeue
  | _ => length log = 1%nat \/ exists queue requeue, op = GetMessage queue requeue
  end.

Lemma send_unit_log m log r log' :
  send_unit logging m log = (r, log') -> log' = log ++ [(m, is_ok r)].
Proof. unfold send_unit, send, logging. destruct (answer m log); by intros [= <- <-]. Qed.

Lemma send_log m log r log' : send logging m log = (r, log') -> log' = log ++ [(m, is_ok r)].
Proof. unfold send, logging. destruct (answer m log); by intros [= <- <-]. Qed.

Lemma call_sends op log o log' :
  op <> CloseConnection -> call logging resolving op log = Some (o, log') ->
  exists sent, log' = log ++ sent /\ sent_by op o sent.
Proof.
  intros Hc. destruct op; cbn [call]; try done.
  all: try (unfold observe; match goal with |- Some (OUnit ?x.1, _) = _ -> _ => destruct x as [r l] eqn:E end;
    unfold open_channel, declare_exchange, declare_queue, bind_queue, purge_queue, delete_queue, delete_exchange, enable_confirms,
      set_qos, cancel, consume, ack, reject, close_channel in E; apply send_unit_log in E as ->;
    intros [= <- <-]; eexists; (split; [done|]); destruct r as [[]|]; (split_and!; [done..|by left])).
  - destruct (queue_size _ _ _) as [r l] eqn:E. pose proof (send_log (QueueDeclare queue true false false false false []) log r l E) as ->. intros [= <- <-]. eexists. split; [done|].
    destruct r; (split_and!; [done..|by left]).
  - destruct (get_message _ _ _ _) as [r l] eqn:E. unfold get_message in E.
    destruct (send logging (BasicGet queue false) log) as [got l1] eqn:E1. pose proof (send_log (BasicGet queue false) log got l1 E1) as ->.
    intros [= <- <-]. destruct got as [[d|]|e].
    + set (f := Lapin.fetched_message d) in E. destruct requeue.
      * destruct (send_unit _ _ _) as [st l2] eqn:E2 in E. apply send_unit_log in E2 as ->. injection E as <- <-.
        rewrite <- app_assoc. eexists. split; [done|]. destruct st as [[]|e]; (split_and!; [done..|]); [by exists queue, true|right; eauto].
      * destruct (send_unit _ _ _) as [st l2] eqn:E2 in E. apply send_unit_log in E2 as ->. injection E as <- <-.
        rewrite <- app_assoc. eexists. split; [done|]. destruct st as [[]|e]; (split_and!; [done..|]); [by exists queue, false|right; eauto].
    + injection E as <- <-. eexists. split; [done|]. split_and!; try done. by left.
    + injection E as <- <-. eexists. split; [done|]. split_and!; try done. by left.
  - destruct (publish _ _ _) as [r l] eqn:E. pose proof (send_log (BasicPublish _ _ _ _ _ _) log r l E) as ->. destruct r as [c|e].
    + unfold receipt_wait, resolving. intros [= <- <-]. eexists. split; [done|]. (split_and!; [done..|by left]).
    + intros [= <- <-]. eexists. split; [done|]. (split_and!; [done..|by left]).
Qed.

(** What a call puts on the wire. It sends one method (the fetch of a message sends the
    settlement of what it got as well), waits for the answer of each, and fails exactly
    when one of them is refused; only declarations, bindings and deletions send methods
    that can change the topology: verifications and sizes are passive. A fetched message
    was settled, once, the way the caller asked for, before it is handed out. *)
Theorem methods_of_calls op log o log' :
  op <> CloseConnection -> call logging resolving op log = Some (o, log') ->
  exists sent, log' = log ++ sent /\ sent_by op o sent.
Proof. apply call_sends. Qed.

End Wire.

Definition toy_answer (m : Method) (log : list (Method * bool)) : result (Reply nat m) Lapin.LapinError := (toy_broker m 0%nat).1.
Definition toy_confirmation (c : nat) (log : list (Method * bool)) : result Lapin.Confirmation Lapin.LapinError := Ok (Lapin.CNack None).

Lemma methods_of_calls_witness :
  exists f log, call (logging toy_answer) (resolving toy_confirmation) (GetMessage "jobs" true) [] = Some (OMessage (Ok (Some f)), log) /\
    Lapin.fm_delivery_tag f = 3 /\ exists sent, log = [] ++ sent /\ sent_by (GetMessage "jobs" true) (OMessage (Ok (Some f))) sent.
Proof.
  do 2 eexists. split; [vm_compute; reflexivity|]. split; [reflexivity|].
  apply (methods_of_calls toy_answer toy_confirmation (GetMessage "jobs" true) [] _ _); [intros [=]|vm_compute; reflexivity].
Defined.

End TransportDouble.
