(* ===== verification/DeliveryObject.v ===== *)
(** * Delivery objects and job latencies

    Models the rest of [consumer/delivery.rs]: the construction of deliveries and tokens,
    the state as the byte of an atomic, the settling methods, the debug output, and the
    stamp from which the adaptive prefetch learns how long a job took: every process
    has one epoch, set by the first reader, and a delivery is stamped with the time
    since it when the embedder receives it. *)

From S2P Require Import Prelude Transport Delivery.
Import Transport.
Import Delivery.
Local Open Scope Z_scope.
Local Open Scope rabbit_scope.

Module DeliveryObject.

(** ** The state in its atomic *)

(** [DeliveryState as u8] *)
Definition state_code (st : DeliveryState) : Z :=
  match st with Pending => 0 | Acked => 2 | Rejected => 3 | Lost => 4 | AutoAcked => 5 end.

(** [DeliveryToken::state] on the byte it loads. *)
Definition state_of_code (value : Z) : DeliveryState :=
  if value =? state_code Acked then Acked
  else if value =? state_code Rejected then Rejected
  else if value =? state_code Lost then Lost
  else if value =? state_code AutoAcked then AutoAcked
  else Pending.

Lemma state_of_state_code st : state_of_code (state_code st) = st.
Proof. by destruct st. Qed.

(** ** Construction *)

Record DeliveryIdentity := mkIdentity {
  id_subscription : string;
  id_connection_key : Z;
  id_generation : Z;
  id_channel_id : Z;
  id_delivery_tag : Z
}.

(** [DeliveryTokenInner::new]; the clock of [reserved_at] is in [Latency] below. *)
Definition token_new (identity : DeliveryIdentity) (message_id : string) (correlation_id : option string) (payload : string)
    (headers : Headers) (attempts : Z) (state : DeliveryState) : Token :=
  mkToken (id_subscription identity) (id_connection_key identity) (id_generation identity) (id_channel_id identity)
    (id_delivery_tag identity) message_id correlation_id payload headers attempts state false.

Definition token_pending identity message_id correlation_id payload headers attempts : Token :=
  token_new identity message_id correlation_id payload headers attempts Pending.
Definition token_auto_acked identity message_id correlation_id payload headers attempts : Token :=
  token_new identity message_id correlation_id payload headers attempts AutoAcked.

Record Delivery := mkDelivery {
  d_id : string;
  d_correlation_id : option string;
  d_subscription : string;
  d_payload : string;
  d_headers : Headers;
  d_attempts : Z;
  d_token : Token
}.

Definition delivery_new_auto_acked (identity : DeliveryIdentity) (id : string) (correlation_id : option string) (payload : string)
    (headers : Headers) (attempts : Z) : Delivery :=
  mkDelivery id correlation_id (id_subscription identity) payload headers attempts
    (token_auto_acked identity id correlation_id payload headers attempts).

Definition delivery_state (d : Delivery) : DeliveryState := state_of_code (state_code (tk_state (d_token d))).
Definition delivery_tag (d : Delivery) : Z := tk_delivery_tag (d_token d).

(** ** Settling *)

(** [try_ack], [try_release], [try_reject]: the answer, the delivery after it, whether a
    command was enqueued. *)
Definition try_with (settlement : Settlement) (send : SendResult) (d : Delivery) : result unit SettlementErrorKind * Delivery * bool :=
  let '(r, st, enqueued) := try_settle settlement send (tk_state (d_token d)) in
  (r, mkDelivery (d_id d) (d_correlation_id d) (d_subscription d) (d_payload d) (d_headers d) (d_attempts d) (set_state st (d_token d)), enqueued).
Definition try_ack := try_with SAck.
Definition try_release (delay : Z) := try_with (SRelease delay).
Definition try_reject (requeue : bool) := try_with (SReject requeue).

(** [ack], [release] and [reject], which report a [ConsumerError]. *)
Definition settle_with (settlement : Settlement) (send : SendResult) (d : Delivery) : result unit ConsumerError * Delivery * bool :=
  let '(r, d, enqueued) := try_with settlement send d in (map_err map_settle_error r, d, enqueued).
Definition ack := settle_with SAck.
Definition release (delay : Z) := settle_with (SRelease delay).
Definition reject (requeue : bool) := settle_with (SReject requeue).

(** Settling an auto-acked delivery does nothing and says so, whatever the channel. *)
Lemma auto_acked_inert identity id correlation_id payload headers attempts settlement send :
  let d := delivery_new_auto_acked identity id correlation_id payload headers attempts in
  settle_with settlement send d = (Err already_settled, d, false).
Proof. done. Qed.

(** ** Debug output *)

Inductive DebugValue :=
| DString (s : string)
| DOption (o : option string)
| DNumber (n : Z)
| DList (l : list string)
| DState (st : DeliveryState).

(** The fields the [Debug] implementation prints, in order; the struct is marked
    non-exhaustive. *)
Definition debug_fields (d : Delivery) : list (string * DebugValue) :=
  [("id", DString (d_id d)); ("correlation_id", DOption (d_correlation_id d)); ("subscription", DString (d_subscription d));
   ("payload_len", DNumber (Z.of_nat (String.length (d_payload d)))); ("header_keys", DList (d_headers d).*1);
   ("attempts", DNumber (d_attempts d)); ("state", DState (delivery_state d))].

(** The debug output does not depend on what the headers and the payload say. *)
Lemma debug_hides_contents d d' :
  d_id d = d_id d' -> d_correlation_id d = d_correlation_id d' -> d_subscription d = d_subscription d' ->
  String.length (d_payload d) = String.length (d_payload d') -> (d_headers d).*1 = (d_headers d').*1 ->
  d_attempts d = d_attempts d' -> tk_state (d_token d) = tk_state (d_token d') -> debug_fields d = debug_fields d'.
Proof. unfold debug_fields, delivery_state. by intros -> -> -> -> -> -> ->. Qed.

(** ** Job latencies *)

(** The clock of a token: [reserved_at], the atomic [popped_at], and (a log) when the
    embedder received the delivery. *)
Record Stamp := mkStamp { reserved_at : Z; popped_at : Z; pop_time : option Z }.

(** The process: its monotonic clock, [POPPED_EPOCH], the tokens, and the threads inside
    [mark_popped] with the token and the time they have read. *)
Record Process := mkProcess {
  now : Z;
  epoch : option Z;
  stamps : gmap nat Stamp;
  popping : gmap nat (nat * Z)
}.

Definition process_init (t : Z) : Process := mkProcess t None ∅ ∅.

(** The nanoseconds from the epoch to an instant, as a [u64]; [duration_since] saturates. *)
Definition nanos_since (epoch t : Z) : Z := default U64_MAX (try_from U64_MAX (Z.max 0 (t - epoch))).

Section Latency.

(** Whether an instant is representable ([Instant::checked_add]). *)
Variable fits : Z -> bool.

(** [reserved_at.elapsed()] *)
Definition elapsed (p : Process) (x : Stamp) : Z := Z.max 0 (now p - reserved_at x).

Definition controller_latency (p : Process) (x : Stamp) : Z :=
  if popped_at x =? 0 then elapsed p x
  else
    let popped := default (now p) (epoch p) + popped_at x in
    if fits popped then Z.max 0 (now p - popped) else elapsed p x.

Inductive Label :=
| LTick (d : Z)
| LDispatch (n : nat)
| LPopRead (th n : nat)
| LPopStore (th : nat).

(** [mark_popped] reads the clock, then the epoch, which it sets when nobody has. *)
Definition step (l : Label) (p : Process) : option Process :=
  match l with
  | LTick d => if 0 <=? d then Some (mkProcess (now p + d) (epoch p) (stamps p) (popping p)) else None
  | LDispatch n =>
      match stamps p !! n with
      | None => Some (mkProcess (now p) (epoch p) (<[n := mkStamp (now p) 0 None]> (stamps p)) (popping p))
      | Some _ => None
      end
  | LPopRead th n =>
      match stamps p !! n, popping p !! th with
      | Some (mkStamp r w None), None =>
          Some (mkProcess (now p) (epoch p) (<[n := mkStamp r w (Some (now p))]> (stamps p)) (<[th := (n, now p)]> (popping p)))
      | _, _ => None
      end
  | LPopStore th =>
      match popping p !! th with
      | Some (n, t) =>
          match stamps p !! n with
          | Some x =>
              let e := default (now p) (epoch p) in
              Some (mkProcess (now p) (Some e) (<[n := mkStamp (reserved_at x) (nanos_since e t) (pop_time x)]> (stamps p)) (delete th (popping p)))
          | None => None
          end
      | None => None
      end
  end.

Inductive reach : Process -> Prop :=
| reach_init t : reach (process_init t)
| reach_step l p p' : reach p -> step l p = Some p' -> reach p'.

Record clocked (p : Process) : Prop := {
  ck_times : forall n x, stamps p !! n = Some x -> reserved_at x <= now p /\ forall t, pop_time x = Some t -> reserved_at x <= t <= now p;
  ck_popping : forall th n t, popping p !! th = Some (n, t) -> exists x, stamps p !! n = Some x /\ pop_time x = Some t;
  ck_once : forall th th' n t t', popping p !! th = Some (n, t) -> popping p !! th' = Some (n, t') -> th = th';
  ck_stamped : forall n x t, stamps p !! n = Some x -> pop_time x = Some t -> (forall th u, popping p !! th <> Some (n, u)) ->
    exists e, epoch p = Some e /\ popped_at x = nanos_since e t;
  ck_epoch : forall e, epoch p = Some e -> e <= now p /\ exists n x t, stamps p !! n = Some x /\ pop_time x = Some t /\ t <= e
}.

Lemma clocked_tick d p : 0 <= d -> clocked p -> clocked (mkProcess (now p + d) (epoch p) (stamps p) (popping p)).
Proof.
  intros Hd [H1 H2 H3 H4 H5]. split; cbn; try done.
  - intros n x Hx. destruct (H1 n x Hx) as [? Ht]. split; [lia|]. intros t E. specialize (Ht t E). lia.
  - intros e E. destruct (H5 e E) as [? ?]. split; [lia|done].
Qed.

Lemma clocked_dispatch n p : stamps p !! n = None -> clocked p ->
  clocked (mkProcess (now p) (epoch p) (<[n := mkStamp (now p) 0 None]> (stamps p)) (popping p)).
Proof.
  intros Hn [H1 H2 H3 H4 H5]. split; cbn; try done.
  - intros m x [[<- <-]|[_ Hx]]%lookup_insert_Some; cbn; [split; [lia|done]|by apply (H1 m)].
  - intros th m t Hp. destruct (H2 th m t Hp) as (x & Hx & Ht). exists x. rewrite lookup_insert_ne; [done|]. by intros ->; rewrite Hn in Hx.
  - intros m x t [[<- <-]|[_ Hx]]%lookup_insert_Some; [done|by apply H4].
  - intros e E. destruct (H5 e E) as (? & m & x & t & Hx & Ht & ?). split; [done|]. exists m, x, t. rewrite lookup_insert_ne; [done|].
    by intros ->; rewrite Hn in Hx.
Qed.

Lemma clocked_pop_read th n r w p : stamps p !! n = Some (mkStamp r w None) -> popping p !! th = None -> clocked p ->
  clocked (mkProcess (now p) (epoch p) (<[n := mkStamp r w (Some (now p))]> (stamps p)) (<[th := (n, now p)]> (popping p))).
Proof.
  intros Hn Hth [H1 H2 H3 H4 H5].
  assert (Hfree : forall th' u, popping p !! th' <> Some (n, u)).
  { intros th' u Hp. destruct (H2 th' n u Hp) as (x & Hx & Ht). rewrite Hn in Hx. by injection Hx as <-. }
  split; cbn.
  - intros m x [[<- <-]|[_ Hx]]%lookup_insert_Some; cbn; [|by apply (H1 m)]. destruct (H1 n _ Hn) as [? _]. cbn in *. split; [done|]. intros t [= <-]. lia.
  - intros th' m t [[<- [= <- <-]]|[_ Hp]]%lookup_insert_Some; [eexists; by rewrite lookup_insert_eq|].
    destruct (H2 th' m t Hp) as (x & Hx & Ht). exists x. rewrite lookup_insert_ne; [done|]. intros ->. by destruct (Hfree th' t).
  - intros th1 th2 m t t' [[<- [= <- <-]]|[Hne Hp]]%lookup_insert_Some [[<- E]|[Hne' Hp']]%lookup_insert_Some; try done.
    + by destruct (Hfree th2 t').
    + injection E as <- <-. by destruct (Hfree th1 t).
    + by apply (H3 th1 th2 m t t').
  - intros m x t [[<- <-]|[Hne Hx]]%lookup_insert_Some Ht Hp; [by destruct (Hp th (now p)); rewrite lookup_insert_eq|].
    apply (H4 m x t Hx Ht). intros th' u Hp'. apply (Hp th' u). rewrite lookup_insert_ne; [done|]. intros ->. congruence.
  - intros e E. destruct (H5 e E) as (? & m & x & t & Hx & Ht & ?). split; [done|]. exists m, x, t. rewrite lookup_insert_ne; [done|].
    intros ->. rewrite Hn in Hx. by injection Hx as <-.
Qed.

Lemma clocked_pop_store th n t x p : popping p !! th = Some (n, t) -> stamps p !! n = Some x -> clocked p ->
  let e := default (now p) (epoch p) in
  clocked (mkProcess (now p) (Some e) (<[n := mkStamp (reserved_at x) (nanos_since e t) (pop_time x)]> (stamps p)) (delete th (popping p))).
Proof.
  intros Hth Hx [H1 H2 H3 H4 H5] e.
  destruct (H2 th n t Hth) as (x' & Hx' & Ht). rewrite Hx in Hx'. injection Hx' as <-.
  assert (Hsame : forall m y u, stamps p !! m = Some y -> pop_time y = Some u ->
    exists y', <[n := mkStamp (reserved_at x) (nanos_since e t) (pop_time x)]> (stamps p) !! m = Some y' /\ pop_time y' = Some u).
  { intros m y u Hy Hu. destruct (decide (m = n)) as [->|]; [|exists y; by rewrite lookup_insert_ne].
    rewrite Hx in Hy. injection Hy as <-. eexists. by rewrite lookup_insert_eq. }
  split; cbn.
  - intros m y [[<- <-]|[_ Hy]]%lookup_insert_Some; cbn; [by apply (H1 n x)|by apply (H1 m)].
  - intros th' m u [Hne Hp]%lookup_delete_Some. destruct (H2 th' m u Hp) as (y & Hy & Hu). by apply (Hsame m y u).
  - intros th1 th2 m u u' [_ Hp]%lookup_delete_Some [_ Hp']%lookup_delete_Some. by apply (H3 th1 th2 m u u').
  - intros m y u [[<- <-]|[Hne Hy]]%lookup_insert_Some Hu Hp; cbn in *.
    + exists e. split; [done|]. by rewrite Ht in Hu; injection Hu as <-.
    + destruct (H4 m y u Hy Hu) as (e' & He' & Hs).
      * intros th' v Hp'. apply (Hp th' v). rewrite lookup_delete_ne; [done|]. intros ->. congruence.
      * exists e'. unfold e. by rewrite He'.
  - intros e' [= <-]. unfold e. destruct (epoch p) as [e0|] eqn:E; cbn.
    + destruct (H5 e0 eq_refl) as (? & m & y & u & Hy & Hu & ?). split; [done|].
      destruct (Hsame m y u Hy Hu) as (y' & ? & ?). by exists m, y', u.
    + split; [lia|]. destruct (Hsame n x t Hx Ht) as (y' & ? & ?). exists n, y', t. split; [done|]. split; [done|].
      destruct (H1 n x Hx) as [_ Hr]. by apply Hr.
Qed.

Lemma clocked_reach p : reach p -> clocked p.
Proof.
  induction 1 as [t|l p p' _ IH H]; [by split|]. destruct l; cbn in H.
  - destruct (0 <=? d) eqn:E; [|done]. injection H as <-. apply clocked_tick; [by apply Z.leb_le|done].
  - destruct (stamps p !! n) eqn:E; [done|]. injection H as <-. by apply clocked_dispatch.
  - destruct (stamps p !! n) as [[r w [t|]]|] eqn:E1; try done. destruct (popping p !! th) eqn:E2; [done|]. injection H as <-. by apply clocked_pop_read.
  - destruct (popping p !! th) as [[n t]|] eqn:E1; [|done]. destruct (stamps p !! n) as [x|] eqn:E2; [|done]. injection H as <-.
    by apply clocked_pop_store.
Qed.

(** C38. The job latency of a delivery that was handed out is the time since the embedder
    received it, when it did so after the epoch of the process; a delivery received
    before is measured from its dispatch, queueing included. Every process that has an
    epoch has such a delivery: the first stamp reads the clock before it sets the
    epoch. So a sample is never shorter than the job. *)
Theorem job_latency_measured p n x t :
  reach p -> stamps p !! n = Some x -> pop_time x = Some t -> (forall th u, popping p !! th <> Some (n, u)) ->
  (forall t, t <= now p -> fits t = true) -> (forall e, epoch p = Some e -> now p - e <= U64_MAX) ->
  exists e, epoch p = Some e /\
    controller_latency p x = now p - (if t <=? e then reserved_at x else t) /\
    now p - t <= controller_latency p x <= now p - reserved_at x /\
    (exists m y u, stamps p !! m = Some y /\ pop_time y = Some u /\ u <= e).
Proof.
  intros Hr Hx Ht Hp Hf Hu. destruct (clocked_reach p Hr) as [H1 H2 H3 H4 H5].
  destruct (H4 n x t Hx Ht Hp) as (e & He & Hs). destruct (H1 n x Hx) as [Hrn Hrt]. specialize (Hrt t Ht).
  destruct (H5 e He) as [Hen Hfirst]. specialize (Hu e He).
  assert (Hn : popped_at x = Z.max 0 (t - e)).
  { rewrite Hs. unfold nanos_since. destruct (try_from U64_MAX (Z.max 0 (t - e))) as [v|] eqn:E; [by apply try_from_Some in E as [<- _]|].
    exfalso. assert (try_from U64_MAX (Z.max 0 (t - e)) = Some (Z.max 0 (t - e))) by (apply try_from_Some; lia). congruence. }
  assert (Hl : controller_latency p x = now p - (if t <=? e then reserved_at x else t)).
  { unfold controller_latency, elapsed. rewrite He, Hn. cbn. destruct (Z.leb_spec t e).
    - rewrite Z.max_l by lia. cbn. lia.
    - rewrite Z.max_r by lia. destruct (Z.eqb_spec (t - e) 0); [lia|]. rewrite Hf by lia. lia. }
  exists e. split; [done|]. split; [done|]. split; [|done]. rewrite Hl. destruct (t <=? e); lia.
Qed.

End Latency.

Fixpoint run (ls : list Label) (p : Process) : option Process :=
  match ls with [] => Some p | l :: ls => step l p ≫= run ls end.

Lemma process_run_reach ls p p' : reach p -> run ls p = Some p' -> reach p'.
Proof.
  revert p. induction ls as [|l ls IH]; intros p Hr; cbn; [by intros [= <-]|].
  destruct (step l p) as [p1|] eqn:E; [|done]. cbn. apply IH. by apply (reach_step l p).
Qed.

(** Two deliveries wait 100 ns each before they are received; at the end the first job has
    run for 110 ns and the second for 10. *)
Definition two_jobs : list Label :=
  [LDispatch 1; LTick 100; LPopRead 1 1; LPopStore 1; LDispatch 2; LTick 100; LPopRead 1 2; LPopStore 1; LTick 10].
Definition after_jobs : Process := default (process_init 0) (run two_jobs (process_init 0)).

Lemma job_latency_measured_witness :
  controller_latency (fun _ => true) after_jobs (mkStamp 0 0 (Some 100)) = 210 /\
  exists e, epoch after_jobs = Some e /\ controller_latency (fun _ => true) after_jobs (mkStamp 100 100 (Some 200)) = 10.
Proof.
  split.
  - destruct (job_latency_measured (fun _ => true) after_jobs 1 (mkStamp 0 0 (Some 100)) 100) as (e & He & Hl & _).
    1: apply (process_run_reach two_jobs (process_init 0)); [constructor|vm_compute; reflexivity].
    1-2: vm_compute; reflexivity.
    1: intros th u; vm_compute; intros [=].
    1: reflexivity.
    1: intros e He; vm_compute in He; injection He as <-; vm_compute; intros [=].
    rewrite Hl. vm_compute in He. injection He as <-. vm_compute. reflexivity.
  - destruct (job_latency_measured (fun _ => true) after_jobs 2 (mkStamp 100 100 (Some 200)) 200) as (e & He & Hl & _).
    1: apply (process_run_reach two_jobs (process_init 0)); [constructor|vm_compute; reflexivity].
    1-2: vm_compute; reflexivity.
    1: intros th u; vm_compute; intros [=].
    1: reflexivity.
    1: intros e He; vm_compute in He; injection He as <-; vm_compute; intros [=].
    exists e. split; [exact He|]. rewrite Hl. vm_compute in He. injection He as <-. vm_compute. reflexivity.
Defined.

End DeliveryObject.
