(* ===== verification/ConsumerQueries.v ===== *)
(** * Queries and cumulative settlements of a consumer

    Models the calls of a consumer that do not receive deliveries, from the actor up to
    PHP: the prefetch report ([ActorState::prefetch_stats], [ConsumerHandle::prefetch_stats],
    [getPrefetchStats]), the settlement errors ([drain_errors], [drainErrors]) and the
    settlement of everything up to a delivery ([try_settle_through], [ackThrough]). The
    PHP calls come after the guard of [Composite.ensure_open]. *)

From S2P Require Import Prelude Transport Publication Scheduler Attempts DelayTopology DelayRouting.
From S2P Require Import Prefetch Delivery ConsumerActor ConsumerInv ConsumerBounds ConsumerFifo.
From S2P Require Import ConsumerSerial ConsumerSystem ConfigValid Config PhpDelivery.
Import Transport Delivery.
Local Open Scope Z_scope.
Local Open Scope rabbit_scope.

Module ConsumerQueries.

Abbreviation Sys := ConsumerSystem.Sys.

(** ** The prefetch report *)

Record PrefetchStat := mkPrefetchStat {
  ps_subscription : string;
  ps_queue : string;
  ps_mode : string;
  ps_current : Z;
  ps_ewma : Z
}.

(** One turn of the loop of [prefetch_stats]. *)
Definition stat_of (controllers : gmap string Prefetch.AdaptivePrefetch) (id : string) (r : ConsumerActor.RuntimeSubscription) : PrefetchStat :=
  let '(mode, current) :=
    match ConsumerActor.rt_prefetch r with
    | ConsumerActor.Fixed value => ("fixed", value)
    | ConsumerActor.Adaptive initial _ _ _ => ("adaptive", initial)
    end in
  match controllers !! id with
  | Some c => mkPrefetchStat id (ConsumerActor.rt_queue r) mode (Prefetch.ap_current c) (Prefetch.ewma c)
  | None => mkPrefetchStat id (ConsumerActor.rt_queue r) mode current Duration_ZERO
  end.

(** The subscriptions are visited in the order of their hash map and the report is sorted. *)
Definition prefetch_stats (cfg : ConsumerActor.Config) (s : ConsumerActor.State) : list PrefetchStat :=
  Config.sort_names ps_subscription
    ((fun x => stat_of (ConsumerActor.adaptive_prefetch (ConsumerActor.shared s)) x.1 x.2) <$> map_to_list (ConsumerActor.c_subscriptions cfg)).

Lemma stat_of_name cs id r : ps_subscription (stat_of cs id r) = id.
Proof. unfold stat_of. destruct (ConsumerActor.rt_prefetch r), (cs !! id); done. Qed.

(** The report has one entry per subscription, in the order of the names. *)
Theorem prefetch_report cfg s :
  StronglySorted ConfigValid.name_lt (ps_subscription <$> prefetch_stats cfg s) /\
  (forall x, x ∈ prefetch_stats cfg s <->
     exists id r, ConsumerActor.c_subscriptions cfg !! id = Some r /\
       x = stat_of (ConsumerActor.adaptive_prefetch (ConsumerActor.shared s)) id r).
Proof.
  unfold prefetch_stats. set (l := _ <$> map_to_list _).
  assert (Hnames : ps_subscription <$> l = (map_to_list (ConsumerActor.c_subscriptions cfg)).*1).
  { unfold l. rewrite <- list_fmap_compose. apply list_fmap_ext. intros i x _. apply stat_of_name. }
  assert (Hnd : NoDup (ps_subscription <$> l)) by (rewrite Hnames; apply NoDup_fst_map_to_list).
  split.
  - pose proof (ConfigValid.sort_names_sorted ps_subscription l) as Hs.
    assert (Hnd' : NoDup (ps_subscription <$> Config.sort_names ps_subscription l)) by (by rewrite ConfigValid.sort_names_perm).
    revert Hnd'. induction Hs as [|x xs Hs IH Hx]; cbn; [constructor|]. intros [Hnot Hnd']%NoDup_cons. constructor; [by apply IH|].
    rewrite Forall_fmap. rewrite Forall_forall in Hx |- *. intros y Hy. split; [by apply Hx|]. intros E. apply Hnot. cbn in E. rewrite E.
    by apply list_elem_of_fmap_2.
  - intros x. rewrite ConfigValid.sort_names_perm. unfold l. rewrite list_elem_of_fmap. split.
    + intros ([id r] & -> & Hin). apply elem_of_map_to_list in Hin. by exists id, r.
    + intros (id & r & Hin & ->). exists (id, r). by rewrite elem_of_map_to_list.
Qed.

(** ** A set *)

(** [ConsumerSetHandle::prefetch_stats], at the turn of the actor that handles the command. *)
Definition set_prefetch_stats (cfg : ConsumerActor.Config) (s : Sys) : result (list PrefetchStat) ConsumerError :=
  if ConsumerSystem.open s then Ok (prefetch_stats cfg (ConsumerSystem.st s)) else Err closed.

(** [ConsumerSetHandle::drain_errors]: the buffer of errors outlives the actor. *)
Definition set_drain_errors (s : Sys) : list SettlementError * Sys :=
  (ConsumerActor.errors (ConsumerActor.shared (ConsumerSystem.st s)),
   ConsumerSystem.on_st (ConsumerActor.on_shared (ConsumerActor.set_errors [])) s).

(** ** The composite *)

(** [ConsumerHandle::drain_errors], source after source. *)
Fixpoint drain_errors (sources : list Sys) : list SettlementError * list Sys :=
  match sources with
  | [] => ([], [])
  | s :: rest =>
      let '(es, s) := set_drain_errors s in
      let '(more, rest) := drain_errors rest in
      ((es ++ more)%list, s :: rest)
  end.

(** [ConsumerHandle::prefetch_stats] on what the sources answer. *)
Fixpoint merged_stats (answers : list (result (list PrefetchStat) ConsumerError)) : result (list PrefetchStat) ConsumerError :=
  match answers with
  | [] => Ok []
  | answer :: rest =>
      let? stats := answer in
      let? more := merged_stats rest in
      Ok (stats ++ more)%list
  end.

Definition recorded (s : Sys) : list SettlementError := ConsumerActor.errors (ConsumerActor.shared (ConsumerSystem.st s)).

(** A drain hands out what every source has recorded, in the order of the sources, and
    nothing is left for a second one. *)
Lemma drained_once sources :
  (drain_errors sources).1 = concat (recorded <$> sources) /\
  Forall (fun s => recorded s = []) (drain_errors sources).2 /\
  (drain_errors (drain_errors sources).2).1 = [].
Proof.
  induction sources as [|s rest (IH1 & IH2 & IH3)]; [done|]. cbn. destruct (drain_errors rest) as [more rest'] eqn:E. cbn in *.
  destruct (drain_errors rest') as [more' rest''] eqn:E'. cbn in *. subst more more'. split; [done|]. split; [by constructor|done].
Qed.

(** The merged report fails as soon as one source does, with its error; so a source that
    is closed hides the report of the ones that are live. *)
Lemma merged_stats_cases answers :
  match merged_stats answers with
  | Ok l => exists ls, answers = Ok <$> ls /\ l = concat ls
  | Err e => exists ls rest, answers = ((Ok <$> ls) ++ Err e :: rest)%list
  end.
Proof.
  induction answers as [|[stats|err] rest IH]; cbn [merged_stats]; [by exists []| |by exists [], rest].
  destruct (merged_stats rest).
  - destruct IH as (ls & -> & ->). by exists (stats :: ls).
  - destruct IH as (ls & rest' & ->). by exists (stats :: ls), rest'.
Qed.

(** ** PHP *)

(** [table.insert(key, entry)]: a key that is there keeps its place. *)
Fixpoint table_insert {V} (key : string) (v : V) (t : list (string * V)) : list (string * V) :=
  match t with
  | [] => [(key, v)]
  | (k, u) :: rest => if String.eqb k key then (k, v) :: rest else (k, u) :: table_insert key v rest
  end.

(** The entry of [getPrefetchStats]: mode, prefetch, [ewma_ms]. *)
Definition php_stat (x : PrefetchStat) : string * Z * Z :=
  (ps_mode x, ps_current x, default I64_MAX (try_from I64_MAX (as_millis (ps_ewma x)))).

Definition php_prefetch_stats (stats : list PrefetchStat) : list (string * (string * Z * Z)) :=
  foldl (fun t x => table_insert (ps_subscription x) (php_stat x) t) [] stats.

(** The entry of [drainErrors]: delivery tag, subscription, kind, message. *)
Definition php_error (e : SettlementError) : Z * string * ConsumerErrorKind * string :=
  (default I64_MAX (try_from I64_MAX (se_delivery_tag e)), se_subscription e, se_kind e, se_message e).

Lemma stat_insert_fresh {V} key (v : V) t : key ∉ t.*1 -> table_insert key v t = (t ++ [(key, v)])%list.
Proof.
  induction t as [|[k u] t IH]; cbn; [done|]. intros [Hk Ht]%not_elem_of_cons. destruct (String.eqb_spec k key); [by subst|]. by rewrite IH.
Qed.

(** Subscriptions of different names all appear in the array, in the order of the report. *)
Lemma php_stats_complete stats :
  NoDup (ps_subscription <$> stats) -> php_prefetch_stats stats = (fun x => (ps_subscription x, php_stat x)) <$> stats.
Proof.
  unfold php_prefetch_stats. intros Hnd.
  assert (H : forall l t, NoDup (t.*1 ++ (ps_subscription <$> l)) ->
    foldl (fun t x => table_insert (ps_subscription x) (php_stat x) t) t l = (t ++ ((fun x => (ps_subscription x, php_stat x)) <$> l))%list).
  { induction l as [|x l IH]; intros t Ht; cbn; [by rewrite app_nil_r|].
    rewrite stat_insert_fresh; [|apply list.NoDup_app in Ht as (_ & Ht & _); intros Hin; by apply (Ht _ Hin), elem_of_cons; left].
    rewrite IH; [by rewrite <- app_assoc|]. rewrite fmap_app, <- app_assoc. exact Ht. }
  by rewrite H.
Qed.

(** *** [ackThrough] *)

Section AckThrough.
Variable sha256 : string -> string.
Variable subs : list ConsumerActor.Subscription.
Variable others : nat -> list ConsumerSystem.Label.

Definition through (n : nat) (latency : Z) : PhpDelivery.Attempt := ConsumerSystem.try_settle_through n latency.

(** The answer, the system after the call and the systems its attempts met. *)
Definition ack_through (n : nat) (latency : Z) (s : Sys) : PhpDelivery.PhpResult * Sys * list Sys :=
  match through n latency s with
  | (Ok _, s') => (Ok tt, s', [s])
  | (Err ChannelFull, s') =>
      let '(r, s', met) := PhpDelivery.spin_settle sha256 subs others PhpDelivery.SPIN_ROUNDS 0 (through n latency) s' in (r, s', s :: met)
  | (Err SClosed, s') => (Err "consumer set is closed", s', [s])
  | (Err AlreadySettled, s') => (Err "delivery is already settled", s', [s])
  end.

(** The command the call enqueues. *)
Definition enqueued (n : nat) (latency : Z) (m : Sys) : Sys :=
  ConsumerSystem.mkSys (ConsumerSystem.st m) (ConsumerSystem.control m ++ [ConsumerActor.CmdSettleThrough n latency])
    (ConsumerSystem.popped m) (ConsumerSystem.open m) (ConsumerSystem.pending_error m).

Definition no_room (m : Sys) : Prop := ConsumerSystem.control_send m <> Sent.

(** What a call that answered [r] did: it enqueued at the first attempt that found room. *)
Definition through_outcome (n : nat) (latency : Z) (rounds : nat) (r : PhpDelivery.PhpResult) (s' : Sys) (met : list Sys) : Prop :=
  match r with
  | Ok _ => exists before m, met = (before ++ [m])%list /\ Forall no_room before /\ ConsumerSystem.control_send m = Sent /\ s' = enqueued n latency m
  | Err _ => Forall no_room met
  end /\ (length met <= rounds)%nat.

Lemma through_cases n latency m r s' :
  through n latency m = (r, s') ->
  match r with
  | Ok _ => ConsumerSystem.control_send m = Sent /\ s' = enqueued n latency m
  | Err e => no_room m /\ s' = m /\ e <> AlreadySettled
  end.
Proof.
  unfold through, ConsumerSystem.try_settle_through, no_room, enqueued.
  destruct (ConsumerSystem.control_send m); intros [= <- <-]; done.
Qed.

Lemma through_cons n latency rounds r s' met m :
  no_room m -> through_outcome n latency rounds r s' met -> through_outcome n latency (S rounds) r s' (m :: met).
Proof.
  intros Hm [H1 H2]. split; [|cbn; lia]. destruct r as [[]|e]; [|by constructor].
  destruct H1 as (before & x & -> & Hb & Hx). exists (m :: before), x. split; [done|]. split; [by constructor|done].
Qed.

Lemma through_spin n latency rounds : forall k s r s' met,
  PhpDelivery.spin_settle sha256 subs others rounds k (through n latency) s = (r, s', met) -> through_outcome n latency rounds r s' met.
Proof.
  induction rounds as [|rounds IH]; intros k s r s' met; cbn [PhpDelivery.spin_settle]; [intros [= <- <- <-]; by split|].
  destruct (through n latency _) as [[[]|e] s1] eqn:Ea; pose proof (through_cases _ _ _ _ _ Ea) as Hc.
  - intros [= <- <- <-]. split; [|cbn; lia]. eexists [], _. split; [done|]. split; [constructor|done].
  - destruct (PhpDelivery.spin_settle _ _ _ rounds (S k) _ s1) as [[r1 s2] met1] eqn:Er. intros [= <- <- <-].
    apply through_cons; [apply Hc|by eapply IH].
Qed.

Lemma spin_answers n latency rounds : forall k s,
  let r := (PhpDelivery.spin_settle sha256 subs others rounds k (through n latency) s).1.1 in
  r = Ok tt \/ r = Err "settlement channel full after backpressure timeout".
Proof.
  induction rounds as [|rounds IH]; intros k s; cbn [PhpDelivery.spin_settle]; [by right|].
  destruct (through n latency _) as [[[]|e] s4]; [by left|].
  specialize (IH (S k) s4). by destruct (PhpDelivery.spin_settle _ _ _ rounds (S k) _ s4) as [[r2 s5] met3].
Qed.

(** [ackThrough] is exact: it succeeds when one of its at most 65 attempts finds room in
    the control channel, and then has enqueued one command, after whatever the rest of
    the system did in between; otherwise it enqueued nothing. It never claims that the
    delivery is settled: it does not look. *)
Theorem ack_through_exact n latency s r s' met :
  ack_through n latency s = (r, s', met) ->
  through_outcome n latency (S PhpDelivery.SPIN_ROUNDS) r s' met /\ r <> Err "delivery is already settled".
Proof.
  unfold ack_through. destruct (through n latency s) as [[[]|[]] s1] eqn:Ea; pose proof (through_cases _ _ _ _ _ Ea) as Hc.
  - intros [= <- <- <-]. split; [|done]. split; [|cbn; lia]. exists [], s. split; [done|]. split; [constructor|done].
  - by destruct Hc as (_ & _ & ?).
  - destruct (PhpDelivery.spin_settle _ _ _ _ 0 _ s1) as [[r1 s2] met1] eqn:Er. intros [= <- <- <-]. split.
    + apply through_cons; [apply Hc|by eapply through_spin].
    + destruct (spin_answers n latency PhpDelivery.SPIN_ROUNDS 0 s1) as [E|E]; rewrite Er in E; cbn in E; by rewrite E.
  - intros [= <- <- <-]. split; [|done]. split; [|cbn; lia]. constructor; [apply Hc|constructor].
Qed.

End AckThrough.

(** A full channel that the actor empties while the call spins. *)
Definition full_sys : Sys :=
  ConsumerSystem.mkSys (ConsumerActor.actor_new [] []) (replicate (Z.to_nat ConsumerActor.COMMAND_CAPACITY) ConsumerActor.CmdGetPrefetchStats) [] true None.

Lemma ack_through_exact_witness :
  exists s' met, ack_through DelayTopology.toy_digest [] (fun _ => [ConsumerSystem.LControl]) 0 5 full_sys = (Ok tt, s', met) /\ length met = 2%nat /\
    through_outcome 0 5 65 (Ok tt) s' met.
Proof.
  do 2 eexists. split; [vm_compute; reflexivity|]. split; [reflexivity|].
  apply (ack_through_exact DelayTopology.toy_digest [] (fun _ => [ConsumerSystem.LControl]) 0 5 full_sys). vm_compute. reflexivity.
Defined.

End ConsumerQueries.
