(* ===== verification/MetricsRegistry.v ===== *)
(** * The metrics registry

    Models the registry of [metrics.rs]: the counters, the gauge of blocked brokers, the
    two histograms, and the calls that record events. A call is a sequence of atomic
    accesses; the calls of all threads interleave, access by access. *)

From Stdlib Require Import SpecFloat.
From S2P Require Import Prelude Prefetch Metrics.
From stdpp Require Import functions.
Import Metrics.
Local Open Scope Z_scope.

Module MetricsRegistry.

Inductive Counter :=
| PublishesTotal | ConfirmationsTotal | ReturnsTotal | DeliveriesTotal | DuplicatesTotal | AcksTotal | RejectsTotal
| ReconnectsTotal | RecoveryFailuresTotal | BackpressureTotal | PublicationRetriesTotal | ConnectionBlockedTotal.

Inductive Histogram := ConfirmationLatency | SettlementLatency.

#[global] Instance Counter_eq_dec : EqDecision Counter.
Proof. solve_decision. Defined.
#[global] Instance Histogram_eq_dec : EqDecision Histogram.
Proof. solve_decision. Defined.

(** [MetricsInner]: the plain counters and the histograms by name. *)
Record MetricsInner := mkInner {
  counters : Counter -> Z;
  connection_blocked : Z;
  latencies : Histogram -> AtomicHistogram
}.

Definition inner_default : MetricsInner := mkInner (fun _ => 0) 0 (fun _ => histogram_default).

(** One atomic access. *)
Inductive Access :=
| Increment (c : Counter)
| AddBucket (h : Histogram) (latency : Z)
| AddSample (h : Histogram)
| AddSum (h : Histogram) (latency : Z)
| GaugeUp
| GaugeDown.

Definition on_latency (h : Histogram) (f : AtomicHistogram -> AtomicHistogram) (m : MetricsInner) : MetricsInner :=
  mkInner (counters m) (connection_blocked m) (<[h := f (latencies m h)]> (latencies m)).

Definition access (a : Access) (m : MetricsInner) : MetricsInner :=
  match a with
  | Increment c => mkInner (<[c := fetch_add (counters m c) 1]> (counters m)) (connection_blocked m) (latencies m)
  | AddBucket h d => on_latency h (add_bucket d) m
  | AddSample h => on_latency h add_sample m
  | AddSum h d => on_latency h (add_sum d) m
  | GaugeUp => mkInner (counters m) (fetch_add (connection_blocked m) 1) (latencies m)
  | GaugeDown => mkInner (counters m) (sat_sub (connection_blocked m) 1) (latencies m)
  end.

(** [AtomicHistogram::record] *)
Definition record_latency (h : Histogram) (d : Z) : list Access := [AddBucket h d; AddSample h; AddSum h d].

(** The recording calls of [Metrics]. *)
Inductive Call :=
| RecordPublish | RecordConfirmation (latency : Z) | RecordReturn | RecordDelivery | RecordDuplicate
| RecordAck (latency : Z) | RecordReject (latency : Z) | RecordReconnect | RecordRecoveryFailure | RecordBackpressure
| RecordPublicationRetry | RecordConnectionBlocked | ClearConnectionBlocked.

Definition accesses (c : Call) : list Access :=
  match c with
  | RecordPublish => [Increment PublishesTotal]
  | RecordConfirmation d => Increment ConfirmationsTotal :: record_latency ConfirmationLatency d
  | RecordReturn => [Increment ReturnsTotal]
  | RecordDelivery => [Increment DeliveriesTotal]
  | RecordDuplicate => [Increment DuplicatesTotal]
  | RecordAck d => Increment AcksTotal :: record_latency SettlementLatency d
  | RecordReject d => Increment RejectsTotal :: record_latency SettlementLatency d
  | RecordReconnect => [Increment ReconnectsTotal]
  | RecordRecoveryFailure => [Increment RecoveryFailuresTotal]
  | RecordBackpressure => [Increment BackpressureTotal]
  | RecordPublicationRetry => [Increment PublicationRetriesTotal]
  | RecordConnectionBlocked => [Increment ConnectionBlockedTotal; GaugeUp]
  | ClearConnectionBlocked => [GaugeDown]
  end.

(** [AtomicHistogram::snapshot] and [Metrics::snapshot], when nobody records meanwhile. *)
Definition histogram_snapshot (h : AtomicHistogram) : HistogramSnapshot := mkSnapshot (buckets h) (samples h) (sum_ns h).

Record MetricsSnapshot := mkMetricsSnapshot {
  ms_counter : Counter -> Z;
  ms_connection_blocked : Z;
  ms_latency : Histogram -> HistogramSnapshot
}.

Definition snapshot (m : MetricsInner) : MetricsSnapshot :=
  mkMetricsSnapshot (counters m) (connection_blocked m) (fun h => histogram_snapshot (latencies m h)).

(** ** Concurrent calls *)

(** [pending] are the accesses the calls in progress still have to make; [called] and
    [made] are logs. *)
Record Sys := mkSys {
  inner : MetricsInner;
  pending : list (list Access);
  called : list Call;
  made : list Access
}.

Inductive Label := LCall (c : Call) | LAccess (i : nat).

Definition step (l : Label) (s : Sys) : option Sys :=
  match l with
  | LCall c => Some (mkSys (inner s) (pending s ++ [accesses c]) (called s ++ [c]) (made s))
  | LAccess i =>
      match pending s !! i with
      | Some (a :: rest) => Some (mkSys (access a (inner s)) (<[i := rest]> (pending s)) (called s) (made s ++ [a]))
      | _ => None
      end
  end.

Inductive reach : Sys -> Prop :=
| reach_init : reach (mkSys inner_default [] [] [])
| reach_step l s s' : reach s -> step l s = Some s' -> reach s'.

(** ** What the registry shows *)

Definition count {A} (p : A -> bool) (l : list A) : Z := sumZ (fun x => if p x then 1 else 0) l.

(** What the calls are for, counter by counter: the name of a counter says which call it
    counts. *)
Definition counted_for (c : Counter) (k : Call) : bool :=
  match c, k with
  | PublishesTotal, RecordPublish
  | ConfirmationsTotal, RecordConfirmation _
  | ReturnsTotal, RecordReturn
  | DeliveriesTotal, RecordDelivery
  | DuplicatesTotal, RecordDuplicate
  | AcksTotal, RecordAck _
  | RejectsTotal, RecordReject _
  | ReconnectsTotal, RecordReconnect
  | RecoveryFailuresTotal, RecordRecoveryFailure
  | BackpressureTotal, RecordBackpressure
  | PublicationRetriesTotal, RecordPublicationRetry
  | ConnectionBlockedTotal, RecordConnectionBlocked => true
  | _, _ => false
  end.

Definition is_unblocked (k : Call) : bool := match k with ClearConnectionBlocked => true | _ => false end.

(** The latency that a call reports to a histogram. *)
Definition timed (h : Histogram) (k : Call) : option Z :=
  match h, k with
  | ConfirmationLatency, RecordConfirmation d | SettlementLatency, RecordAck d | SettlementLatency, RecordReject d => Some d
  | _, _ => None
  end.

(** The accesses made, read as numbers. *)
Definition increments (c : Counter) (a : Access) : bool := match a with Increment c' => bool_decide (c' = c) | _ => false end.
Definition samples_of (h : Histogram) (a : Access) : bool := match a with AddSample h' => bool_decide (h' = h) | _ => false end.
Definition bucketed (h : Histogram) (i : nat) (a : Access) : bool :=
  match a with AddBucket h' d => bool_decide (h' = h) && (bucket_of d =? i)%nat | _ => false end.
Definition sums_of (h : Histogram) (a : Access) : Z :=
  match a with AddSum h' d => if bool_decide (h' = h) then nanos d else 0 | _ => 0 end.
Definition raises (a : Access) : bool := match a with GaugeUp => true | _ => false end.
Definition lowers (a : Access) : bool := match a with GaugeDown => true | _ => false end.

Definition histogram_of (h : Histogram) (l : list Access) : AtomicHistogram :=
  mkHistogram ((fun i => u64 (count (bucketed h i) l)) <$> seq 0 11) (u64 (count (samples_of h) l)) (u64 (sumZ (sums_of h) l)).

Lemma count_app {A} (p : A -> bool) l l' : count p (l ++ l') = count p l + count p l'.
Proof. apply sumZ_app. Qed.

Lemma count_perm {A} (p : A -> bool) l l' : l ≡ₚ l' -> count p l = count p l'.
Proof. apply sumZ_perm. Qed.

Lemma count_nonneg {A} (p : A -> bool) l : 0 <= count p l.
Proof. apply sumZ_nonneg, Forall_forall. intros x _. destruct (p x); lia. Qed.

Lemma count_snoc {A} (p : A -> bool) l x : count p (l ++ [x]) = count p l + if p x then 1 else 0.
Proof. rewrite count_app. unfold count at 2. rewrite sumZ_cons, sumZ_nil. lia. Qed.

(** A call counts at most once for each. *)
Lemma count_accesses (p : Access -> bool) (q : Call -> bool) (ks : list Call) :
  (forall k, count p (accesses k) = if q k then 1 else 0) -> count p (concat (accesses <$> ks)) = count q ks.
Proof.
  intros H. induction ks as [|k ks IH]; [done|]. cbn. rewrite count_app, H, IH. unfold count. by rewrite sumZ_cons.
Qed.

Record booked (s : Sys) : Prop := {
  bk_made : concat (accesses <$> called s) ≡ₚ made s ++ concat (pending s);
  bk_counters : forall c, counters (inner s) c = u64 (count (increments c) (made s));
  bk_latencies : forall h, latencies (inner s) h = histogram_of h (made s);
  bk_gauge : 0 <= connection_blocked (inner s) <= count raises (made s);
  bk_gauge_low : count raises (made s) < 2 ^ 64 -> count raises (made s) - count lowers (made s) <= connection_blocked (inner s)
}.

Lemma u64_succ n b : fetch_add (u64 n) (if b : bool then 1 else 0) = u64 (n + if b then 1 else 0).
Proof. unfold fetch_add, u64. by rewrite Z.add_mod_idemp_l. Qed.

Lemma concat_insert (ps : list (list Access)) i a rest :
  ps !! i = Some (a :: rest) -> concat ps ≡ₚ a :: concat (<[i := rest]> ps).
Proof.
  revert i. induction ps as [|p ps IH]; intros [|i]; cbn; try done.
  - by intros [= ->].
  - intros H. rewrite (IH i H). by rewrite Permutation_middle.
Qed.

Lemma histogram_eq b b' n n' m m' : b = b' -> n = n' -> m = m' -> mkHistogram b n m = mkHistogram b' n' m'.
Proof. by intros -> -> ->. Qed.

(** Only the accesses to a histogram change it. *)
Lemma histogram_of_access h a l :
  histogram_of h (l ++ [a]) =
    match a with
    | AddBucket h' d => if decide (h' = h) then add_bucket d (histogram_of h l) else histogram_of h l
    | AddSample h' => if decide (h' = h) then add_sample (histogram_of h l) else histogram_of h l
    | AddSum h' d => if decide (h' = h) then add_sum d (histogram_of h l) else histogram_of h l
    | _ => histogram_of h l
    end.
Proof.
  unfold histogram_of. rewrite count_snoc, sumZ_app, sumZ_cons, sumZ_nil.
  assert (Hb : forall i, u64 (count (bucketed h i) (l ++ [a])) =
    fetch_add (u64 (count (bucketed h i) l)) (if bucketed h i a then 1 else 0)) by (intros i; by rewrite count_snoc, u64_succ).
  assert (H0 : forall n, fetch_add (u64 n) 0 = u64 n) by (intros n; rewrite u64_add, Z.add_0_r; done).
  assert (Hs : forall l0 : list nat, (forall i, bucketed h i a = false) ->
    (fun i => u64 (count (bucketed h i) (l ++ [a]))) <$> l0 = (fun i => u64 (count (bucketed h i) l)) <$> l0).
  { intros l0 Hn. apply list_fmap_ext. intros j x _. by rewrite Hb, Hn, H0. }
  destruct a; cbn [samples_of sums_of] in *; rewrite ?Z.add_0_r; try (by rewrite Hs); case_decide as E; subst;
    rewrite ?bool_decide_true, ?bool_decide_false by done; unfold add_bucket, add_sample, add_sum; cbn [buckets samples sum_ns];
    rewrite ?Z.add_0_r, ?u64_add; try (by rewrite Hs).
  - apply histogram_eq; [|done|done]. apply list_eq. intros j. rewrite list_lookup_alter. case_decide as E; [subst j|]; rewrite !list_lookup_fmap.
    + rewrite lookup_seq_lt by apply bucket_bound. cbn [fmap option_fmap option_map Nat.add bucketed] in *.
      by rewrite Hb, bool_decide_true, Nat.eqb_refl.
    + destruct (decide (j < 11)%nat) as [Hj|Hj]; [rewrite lookup_seq_lt by done|by rewrite lookup_seq_ge by lia].
      cbn [fmap option_fmap option_map Nat.add bucketed] in *. rewrite Hb. destruct (Nat.eqb_spec (bucket_of latency) j); [congruence|].
      by rewrite andb_false_r, H0.
  - rewrite Hs; [done|]. intros i. cbn. by rewrite bool_decide_false.
Qed.

Lemma booked_access a s :
  booked s -> forall ps, concat (pending s) ≡ₚ a :: concat ps ->
  booked (mkSys (access a (inner s)) ps (called s) (made s ++ [a])).
Proof.
  intros [H1 H2 H3 H4 H5] ps Hp. split; cbn [inner pending called made].
  - rewrite H1, Hp, <- app_assoc. done.
  - intros c. rewrite count_snoc, <- u64_succ, <- H2. destruct a; cbn; unfold fetch_add; try by rewrite Z.add_0_r, H2; unfold u64; rewrite Z.mod_mod.
    destruct (decide (c0 = c)) as [->|Hc].
    + by rewrite fn_lookup_insert, bool_decide_true.
    + rewrite fn_lookup_insert_ne by done. rewrite bool_decide_false by done. rewrite Z.add_0_r, H2. unfold u64. by rewrite Z.mod_mod.
  - intros h. rewrite histogram_of_access, <- H3. destruct a; cbn [access on_latency latencies]; try done;
      case_decide as E; subst; by rewrite ?fn_lookup_insert, ?fn_lookup_insert_ne.
  - rewrite count_snoc. destruct a; cbn; try lia.
    + unfold fetch_add. pose proof (Z.mod_le (connection_blocked (inner s) + 1) (2 ^ 64)).
      pose proof (Z.mod_pos_bound (connection_blocked (inner s) + 1) (2 ^ 64)). lia.
    + unfold sat_sub. lia.
  - rewrite !count_snoc. destruct a; cbn -[Z.pow]; try lia.
    + unfold fetch_add. intros Hlt. rewrite Z.mod_small by lia. lia.
    + unfold sat_sub. lia.
Qed.

Lemma booked_reach s : reach s -> booked s.
Proof.
  induction 1 as [|l s s' _ IH H].
  - split; done.
  - destruct l as [c|i]; cbn in H.
    + injection H as <-. destruct IH as [H1 H2 H3 H4 H5]. split; cbn [inner pending called made]; try done.
      rewrite fmap_app, !concat_app. cbn. rewrite !app_nil_r, H1. by rewrite app_assoc.
    + destruct (pending s !! i) as [[|a rest]|] eqn:E; try done. injection H as <-. apply booked_access; [done|]. by apply concat_insert.
Qed.

Lemma sumZ_accesses (f : Access -> Z) (g : Call -> Z) ks :
  (forall k, sumZ f (accesses k) = g k) -> sumZ f (concat (accesses <$> ks)) = sumZ g ks.
Proof. intros H. induction ks as [|k ks IH]; [done|]. cbn. by rewrite sumZ_app, H, IH, sumZ_cons. Qed.

Lemma sumZ_timed h (f : Z -> Z) ks : sumZ (fun k => from_option f 0 (timed h k)) ks = sumZ f (omap (timed h) ks).
Proof.
  induction ks as [|k ks IH]; [done|]. rewrite sumZ_cons, IH. cbn [omap list_omap].
  destruct (timed h k); cbn [from_option]; by rewrite ?sumZ_cons.
Qed.

Lemma sumZ_finished (f : Z * nat -> Z) ds : sumZ f ((fun d => (d, 3%nat)) <$> ds) = sumZ (fun d => f (d, 3%nat)) ds.
Proof. induction ds as [|d ds IH]; [done|]. cbn [fmap list_fmap]. by rewrite !sumZ_cons, IH. Qed.

(** The accesses of whole calls leave the histogram of their latencies. *)
Lemma histogram_of_calls h ks :
  histogram_of h (concat (accesses <$> ks)) = foldr record histogram_default (omap (timed h) ks).
Proof.
  rewrite recorded_all. unfold histogram_of, counted, count. rewrite !sumZ_finished, <- !(sumZ_timed h).
  apply histogram_eq.
  - apply list_fmap_ext. intros j x _. rewrite sumZ_finished, <- (sumZ_timed h). f_equal. apply sumZ_accesses.
    intros k. destruct k, h; cbn [accesses timed from_option]; unfold record_latency, in_bucket; rewrite ?sumZ_cons, ?sumZ_nil; cbn;
      try destruct (_ =? _)%nat; reflexivity.
  - f_equal. apply sumZ_accesses. by intros [] ; destruct h.
  - f_equal. apply sumZ_accesses. intros k. destruct k, h; cbn [accesses timed from_option]; unfold record_latency, summed;
      rewrite ?sumZ_cons, ?sumZ_nil; cbn -[nanos]; rewrite ?Z.add_0_r; reflexivity.
Qed.

(** C39. The registry is exact at rest: when no call is in progress every counter holds
    the number of calls of its own kind (modulo 2^64): [publishes_total] the calls of
    [record_publish], [duplicates_total] those of [record_duplicate] and so on; the
    confirmation histogram is the one that the latencies of the confirmations leave when
    they are recorded one after the other, the settlement histogram that of the
    acknowledgements and rejections; the gauge of blocked brokers is between the blockages
    less the recoveries and the blockages. The calls may have been made by any threads,
    interleaved access by access in any way. *)
Theorem registry_exact s :
  reach s -> concat (pending s) = [] ->
  (forall c, ms_counter (snapshot (inner s)) c = u64 (count (counted_for c) (called s))) /\
  (forall h, ms_latency (snapshot (inner s)) h =
     histogram_snapshot (foldr record histogram_default (omap (timed h) (called s)))) /\
  0 <= ms_connection_blocked (snapshot (inner s)) <= count (counted_for ConnectionBlockedTotal) (called s) /\
  (count (counted_for ConnectionBlockedTotal) (called s) < 2 ^ 64 ->
   count (counted_for ConnectionBlockedTotal) (called s) - count is_unblocked (called s) <=
     ms_connection_blocked (snapshot (inner s))).
Proof.
  intros Hr Hp. destruct (booked_reach s Hr) as [H1 H2 H3 H4 H5]. rewrite Hp, app_nil_r in H1.
  rewrite <- !(count_perm raises _ _ H1) in H4, H5. rewrite <- (count_perm lowers _ _ H1) in H5.
  cbn [snapshot ms_counter ms_latency ms_connection_blocked].
  rewrite (count_accesses raises (counted_for ConnectionBlockedTotal)) in H4, H5 by (by intros []).
  rewrite (count_accesses lowers is_unblocked) in H5 by (by intros []).
  split; [|split; [|done]].
  - intros c. rewrite H2, <- (count_perm _ _ _ H1). f_equal. apply count_accesses. intros []; by destruct c.
  - intros h. f_equal. rewrite H3, <- histogram_of_calls. unfold histogram_of. rewrite <- !(count_perm _ _ _ H1), <- (sumZ_perm _ _ _ H1).
    apply histogram_eq; [|done|done]. apply list_fmap_ext. intros j x _. by rewrite <- (count_perm _ _ _ H1).
Qed.

Fixpoint run (ls : list Label) (s : Sys) : option Sys :=
  match ls with [] => Some s | l :: ls => step l s ≫= run ls end.

Lemma counters_run_reach ls s s' : reach s -> run ls s = Some s' -> reach s'.
Proof.
  revert s. induction ls as [|l ls IH]; intros s Hr; cbn; [by intros [= <-]|].
  destruct (step l s) as [s1|] eqn:E; [|done]. cbn. apply IH. by apply (reach_step l s).
Qed.

(** An acknowledgement and a rejection recorded by two threads, access by access. *)
Definition two_threads : list Label :=
  [LCall (RecordAck 200000); LAccess 0; LCall (RecordReject 700000); LAccess 1; LAccess 1; LAccess 0; LAccess 0; LAccess 1; LAccess 0; LAccess 1].
Definition recorded : Sys := default (mkSys inner_default [] [] []) (run two_threads (mkSys inner_default [] [] [])).

Lemma registry_exact_witness :
  ms_counter (snapshot (inner recorded)) AcksTotal = 1 /\
  ms_counter (snapshot (inner recorded)) ReturnsTotal = 0 /\
  ms_latency (snapshot (inner recorded)) SettlementLatency =
    histogram_snapshot (record 200000 (record 700000 histogram_default)).
Proof.
  destruct (registry_exact recorded) as (Hc & Hh & _).
  - apply (counters_run_reach two_threads (mkSys inner_default [] [] [])); [constructor|vm_compute; reflexivity].
  - vm_compute. reflexivity.
  - split; [rewrite Hc; vm_compute; reflexivity|]. split; [rewrite Hc; vm_compute; reflexivity|].
    rewrite Hh. vm_compute. reflexivity.
Defined.

End MetricsRegistry.
