(* ===== verification/PhpPool.v ===== *)
(** * The pool object of the PHP extension

    Models the calls of [classes/pool.rs] that go around the publish buffer: the guard of
    every call, [publishBatch], the calls that look at a queue after a flush ([size],
    [clear], [getMessage]), the administration calls and [stats]. The buffer itself is in
    [PublishBuffer]: what its flush and the surfacing of its errors end with are arguments
    here, and so are the answers of the client's single calls. The event bridge that
    [publishBatch] and [stats] drain is in [EventBridge]. *)

From stdpp Require Import pretty.
From Stdlib Require Import SpecFloat.
From S2P Require Import Prelude Transport Publication ClientBatch PublishBuffer Prefetch Metrics MetricsRegistry Lapin.
Import Transport Publication ClientBatch.
Import PublishBuffer(PhpException(..), client_exception).
Import MetricsRegistry.
Local Open Scope Z_scope.
Local Open Scope rabbit_scope.

Module PhpPool.

Abbreviation PhpResult A := (result A PhpException).

(** ** The guard *)

Record Pool := mkPool { pid : Z; process : Z; claim_open : bool; handle_closed : bool }.

Definition ensure_open (operation : string) (p : Pool) : PhpResult unit :=
  let operation := "Goopil\RabbitRs\Pool::" +:+ operation in
  if negb (pid p =? process p) then Err (RabbitRsException (operation +:+ " cannot use a pool inherited across fork"))
  else if negb (claim_open p) || handle_closed p then Err (RabbitRsException (operation +:+ " cannot use a closed pool"))
  else Ok tt.

Definition usable (p : Pool) : bool := (pid p =? process p) && claim_open p && negb (handle_closed p).

Lemma ensure_open_usable operation p : is_ok (ensure_open operation p) = usable p.
Proof. unfold ensure_open, usable. destruct (pid p =? process p), (claim_open p), (handle_closed p); done. Qed.

(** A call that asks the client one thing. *)
Definition client_call {A} (operation : string) (answer : result A ClientError) (p : Pool) : PhpResult A :=
  let? _ := ensure_open operation p in map_err client_exception answer.

(** A call that flushes the buffer and surfaces its errors first. *)
Definition flushed_call {A} (operation : string) (flushed surfaced : PhpResult unit) (answer : result A ClientError) (p : Pool) : PhpResult A :=
  let? _ := ensure_open operation p in
  let? _ := flushed in
  let? _ := surfaced in
  map_err client_exception answer.

(** ** [publishBatch] *)

Definition unroutable (message_id : string) (reply : ReturnInfo) : PhpException :=
  RabbitRsException ("message " +:+ message_id +:+ " was returned as unroutable (AMQP " +:+ pretty (ri_code reply) +:+ ")").

Definition publish_message_id (outcome : PublishOutcome) : PhpResult string :=
  match outcome with
  | Confirmed message_id => Ok message_id
  | Returned message_id reply => Err (unroutable message_id reply)
  end.

(** [collect] into a [Result]: the first error wins. *)
Fixpoint collect {A E} (l : list (result A E)) : result (list A) E :=
  match l with
  | [] => Ok []
  | x :: rest => let? a := x in let? more := collect rest in Ok (a :: more)
  end.

(** What a call leaves with PHP: an exception of the extension, or the object that a
    callback threw during a drain of the event bridge. *)
Inductive Thrown (X : Type) := Native (e : PhpException) | FromCallback (x : X).
Arguments Native {X}.
Arguments FromCallback {X}.

(** An exception that is pending wins: it replaces the value of the call, and a second one
    is not thrown. *)
Definition leaves {A X} (pending : option X) (r : PhpResult A) : result A (Thrown X) :=
  match pending with
  | Some x => Err (FromCallback x)
  | None => match r with Ok a => Ok a | Err e => Err (Native e) end
  end.

(** [flushed] is what [flush] returns and [flush_thrown] what its drain of the bridge threw;
    [converted] is what [conversion::publish_batch] made of the argument; [drain_thrown] is
    what the drain after the batch throws. The second component are the publications that
    were awaited. *)
Definition publish_batch {X} (p : Pool) (flushed : PhpResult unit) (flush_thrown : option X)
    (converted : result (list (string * PublishRequest)) string) (a : Answers) (blind : bool) (drain_thrown : option X)
  : result (list string) (Thrown X) * list nat :=
  match ensure_open "publishBatch" p with
  | Err e => (leaves None (Err e), [])
  | Ok _ =>
      match flushed with
      | Err e => (leaves flush_thrown (Err e), [])
      | Ok _ =>
          match converted with
          | Err e => (leaves flush_thrown (Err (RabbitRsException e)), [])
          | Ok requests =>
              let '(answer, awaited) := ClientBatch.publish_batch a blind requests in
              let pending := match flush_thrown with Some x => Some x | None => drain_thrown end in
              (leaves pending
                 match answer with
                 | Ok outcomes => collect (publish_message_id <$> outcomes)
                 | Err e => Err (client_exception e)
                 end, awaited)
          end
      end
  end.

Lemma collect_ids outcomes :
  match collect (publish_message_id <$> outcomes) with
  | Ok ids => outcomes = Confirmed <$> ids
  | Err e => exists ids id reply rest, outcomes = (Confirmed <$> ids) ++ Returned id reply :: rest /\ e = unroutable id reply
  end.
Proof.
  induction outcomes as [|[id|id reply] rest IH]; cbn; [done| |].
  - destruct (collect _) as [ids|e]; [by rewrite IH|]. destruct IH as (ids & i & reply & r & -> & ->). by exists (id :: ids), i, reply, r.
  - by exists [], id, reply, rest.
Qed.


(** Nothing is submitted when the pool cannot be used, the buffer could not be flushed or
    the argument is malformed. *)
Lemma publish_batch_guarded {X} p flushed (flush_thrown : option X) converted a blind drain_thrown :
  usable p = false \/ is_ok flushed = false \/ is_ok converted = false ->
  is_ok (publish_batch p flushed flush_thrown converted a blind drain_thrown).1 = false /\
  (publish_batch p flushed flush_thrown converted a blind drain_thrown).2 = [].
Proof.
  unfold publish_batch. pose proof (ensure_open_usable "publishBatch" p) as Hg.
  destruct (ensure_open _ p), flushed, converted, flush_thrown; cbn in *; try done. all: intros [H|[H|H]]; congruence.
Qed.

(** ** Queues *)

(** [size]: a [u32] is an [i64]. *)
Definition size (flushed surfaced : PhpResult unit) (answer : result Z ClientError) : Pool -> PhpResult Z := flushed_call "size" flushed surfaced answer.
Definition clear (flushed surfaced : PhpResult unit) (answer : result unit ClientError) : Pool -> PhpResult unit := flushed_call "clear" flushed surfaced answer.

(** [getMessage]: the identifier and the payload. *)
Definition getMessage (flushed surfaced : PhpResult unit) (answer : result (option Lapin.FetchedMessage) ClientError) (p : Pool)
  : PhpResult (option (string * string)) :=
  let? m := flushed_call "getMessage" flushed surfaced answer p in
  Ok ((fun m => (default EmptyString (Lapin.fm_message_id m), Lapin.fm_payload m)) <$> m).

(** The specification [declareQueue] builds; [None] for an unknown kind. *)
Definition queue_kind (kind : option string) : result QueueKind PhpException :=
  let kind := default "quorum" kind in
  if String.eqb kind "quorum" then Ok Quorum
  else if String.eqb kind "classic" then Ok Classic
  else Err (RabbitRsException ("Goopil\RabbitRs\Pool::declareQueue(): unsupported queue kind '" +:+ kind +:+ "', expected 'quorum' or 'classic'")).

Definition declared_spec (queue : string) (kind : QueueKind) (durable : bool) : QueueSpec :=
  mkQueueSpec queue durable false false kind None None None None None [].

Definition declareQueue (queue : string) (kind : option string) (durable : bool) (declare : QueueSpec -> result unit ClientError) (p : Pool) : PhpResult unit :=
  let? _ := ensure_open "declareQueue" p in
  let? kind := queue_kind kind in
  map_err client_exception (declare (declared_spec queue kind durable)).

Definition bindQueue (exchange queue routing_key : string) (bind : BindingSpec -> result unit ClientError) (p : Pool) : PhpResult unit :=
  client_call "bindQueue" (bind (mkBindingSpec queue exchange routing_key)) p.

Definition deleteQueue (answer : result unit ClientError) : Pool -> PhpResult unit := client_call "deleteQueue" answer.
Definition verifyExchange (answer : result unit ClientError) : Pool -> PhpResult unit := client_call "verifyExchange" answer.
Definition probeDelayPlugin (answer : result bool ClientError) : Pool -> PhpResult bool := client_call "probeDelayPlugin" answer.

(** What [declareQueue] sends: a quorum queue carries its type, a classic one no
    argument at all, and nothing expires or is dead-lettered. *)
Lemma declared_arguments queue kind durable :
  Lapin.queue_arguments (declared_spec queue kind durable) =
    match kind with Quorum => [("x-queue-type", Lapin.ALongString "quorum")] | Classic => [] end.
Proof. by destruct kind. Qed.

(** ** [stats] *)

Definition i64_from_counter (value : Z) : Z := default I64_MAX (try_from I64_MAX value).

(** [insert_percentile] *)
Definition percentile_ms (percentile_ns : option Z) : Z :=
  let millis := match percentile_ns with Some nanos => nanos / 1000000 | None => 0 end in
  default I64_MAX (try_from I64_MAX millis).

(** The numbers of the array, in their order; [closed], [pid] and [handle] come first. *)
Definition stats_entries (m : MetricsSnapshot) (dropped_publications dropped_error_records buffered_len buffered_bytes : Z) : list (string * Z) :=
  [("publishes_total", i64_from_counter (ms_counter m PublishesTotal));
   ("confirmations_total", i64_from_counter (ms_counter m ConfirmationsTotal));
   ("returns_total", i64_from_counter (ms_counter m ReturnsTotal));
   ("backpressure_total", i64_from_counter (ms_counter m BackpressureTotal));
   ("publication_retries_total", i64_from_counter (ms_counter m PublicationRetriesTotal));
   ("connection_blocked", i64_from_counter (ms_connection_blocked m));
   ("connection_blocked_total", i64_from_counter (ms_counter m ConnectionBlockedTotal));
   ("reconnects_total", i64_from_counter (ms_counter m ReconnectsTotal));
   ("deliveries_total", i64_from_counter (ms_counter m DeliveriesTotal));
   ("duplicates_total", i64_from_counter (ms_counter m DuplicatesTotal));
   ("acks_total", i64_from_counter (ms_counter m AcksTotal));
   ("rejects_total", i64_from_counter (ms_counter m RejectsTotal));
   ("dropped_publications_total", i64_from_counter dropped_publications);
   ("dropped_error_records_total", i64_from_counter dropped_error_records);
   ("publish_buffered", i64_from_counter buffered_len);
   ("publish_buffered_bytes", i64_from_counter buffered_bytes);
   ("confirmation_latency_p50", percentile_ms (Metrics.percentile_ns (ms_latency m ConfirmationLatency) (Prefetch.f64_of_Z 50)));
   ("confirmation_latency_p95", percentile_ms (Metrics.percentile_ns (ms_latency m ConfirmationLatency) (Prefetch.f64_of_Z 95)));
   ("confirmation_latency_p99", percentile_ms (Metrics.percentile_ns (ms_latency m ConfirmationLatency) (Prefetch.f64_of_Z 99)));
   ("settlement_latency_p50", percentile_ms (Metrics.percentile_ns (ms_latency m SettlementLatency) (Prefetch.f64_of_Z 50)));
   ("settlement_latency_p95", percentile_ms (Metrics.percentile_ns (ms_latency m SettlementLatency) (Prefetch.f64_of_Z 95)));
   ("settlement_latency_p99", percentile_ms (Metrics.percentile_ns (ms_latency m SettlementLatency) (Prefetch.f64_of_Z 99)))].

Definition stats (surfaced : PhpResult unit) (entries : list (string * Z)) (p : Pool) : PhpResult (list (string * Z)) :=
  let? _ := ensure_open "stats" p in let? _ := surfaced in Ok entries.

Lemma i64_from_counter_range v : 0 <= i64_from_counter v <= I64_MAX.
Proof.
  unfold i64_from_counter. destruct (try_from I64_MAX v) as [w|] eqn:E; cbn; [apply try_from_Some in E; lia|]. unfold I64_MAX. lia.
Qed.

(** Every number of the array is a PHP integer that is not negative, and no two entries
    share a name. *)
Lemma stats_wf m a b c d :
  NoDup (stats_entries m a b c d).*1 /\ Forall (fun x => 0 <= x.2 <= I64_MAX) (stats_entries m a b c d).
Proof.
  split; [by apply (bool_decide_unpack _); vm_compute|].
  assert (Hp : forall o, 0 <= percentile_ms o <= I64_MAX) by (intros o; apply i64_from_counter_range).
  unfold stats_entries. repeat (apply List.Forall_cons; [cbn [snd]; first [apply i64_from_counter_range | apply Hp]|]). constructor.
Qed.

(** ** An example *)

Definition open_pool : Pool := mkPool 7 7 true false.

Definition returning_answers : Answers :=
  mkAnswers true (fun b => Z.of_nat (String.length b)) (fun _ => Ok tt) (fun _ => Ok tt) (fun _ => Ok tt) (fun i => - Z.of_nat i)
    (fun i => if decide (i = 1)%nat then Ok (Returned "b" (mkReturnInfo 312 "NO_ROUTE" "" "q")) else Ok (Confirmed "a")).


End PhpPool.
