(* ===== verification/PhpAdmin.v ===== *)
(** * Administration calls from PHP to the wire

    Composes the pool object ([PhpPool]), the administration calls of the client
    ([client.rs]: each operation on a channel opened for it, its errors as transport
    errors) and the channels of the lapin adapter ([LapinChannel]): what a PHP call puts
    on the wire and what it makes of the answers of any broker. *)

From S2P Require Import Prelude Transport Publication DelayTopology TopologyPlan ClientBatch PublishBuffer Config ClientPool Lapin MockTransport LapinChannel.
From S2P Require Import TransportDouble PhpPool.
Import Transport.
Import DelayTopology(TtlBucketPlan, DelayStrategy(..), buckets, queue_for, strategy_compile).
Import ClientBatch(ClientError, mkClientError, ClientErrorKind(..), cle_kind, cle_message, client_closed_error).
Import PublishBuffer(PhpException(..), client_exception).
Import Config(ValidatedConfig, v_delay).
Import ClientPool(clear_route_destinations, delay_plugin_absent, DELAY_PROBE_EXCHANGE).
Import MockTransport(TransportOperation(..)).
Import LapinChannel TransportDouble.
Import PhpPool(PhpResult, Pool, ensure_open, usable, ensure_open_usable, queue_kind, declared_spec).
Local Open Scope Z_scope.
Local Open Scope rabbit_scope.

Module PhpAdmin.

(** ** The calls *)

Inductive AdminCall :=
| Size (queue : string)
| Clear (queue : string)
| GetMessageCall (queue : string) (requeue : bool)
| DeclareQueueCall (queue : string) (kind : option string) (durable : bool)
| BindQueueCall (exchange queue routing_key : string)
| DeleteQueueCall (queue : string)
| VerifyExchangeCall (exchange : string)
| ProbeDelayPlugin.

Definition name_of (c : AdminCall) : string :=
  match c with
  | Size _ => "size" | Clear _ => "clear" | GetMessageCall _ _ => "getMessage" | DeclareQueueCall _ _ _ => "declareQueue"
  | BindQueueCall _ _ _ => "bindQueue" | DeleteQueueCall _ => "deleteQueue" | VerifyExchangeCall _ => "verifyExchange"
  | ProbeDelayPlugin => "probeDelayPlugin"
  end.

(** [size], [clear] and [getMessage] flush the buffer and surface its errors first. *)
Definition flushes (c : AdminCall) : bool := match c with Size _ | Clear _ | GetMessageCall _ _ => true | _ => false end.

(** The specification of [ClientPool::verify_exchange]: a passive declaration looks at the
    name only. *)
Definition probe_spec (exchange : string) : ExchangeSpec := mkExchangeSpec exchange Direct false false false [].

(** What the client does for a call: one operation, or one of the two longer ones. *)
Inductive Job := OneOperation (op : TransportOperation) | ClearRoute (queue : string) | Probe.

Definition job_of (c : AdminCall) : PhpResult Job :=
  match c with
  | Size queue => Ok (OneOperation (QueueSize queue))
  | Clear queue => Ok (ClearRoute queue)
  | GetMessageCall queue requeue => Ok (OneOperation (GetMessage queue requeue))
  | DeclareQueueCall queue kind durable =>
      let? kind := queue_kind kind in Ok (OneOperation (DeclareQueue (declared_spec queue kind durable)))
  | BindQueueCall exchange queue routing_key => Ok (OneOperation (BindQueue (mkBindingSpec queue exchange routing_key)))
  | DeleteQueueCall queue => Ok (OneOperation (DeleteQueue queue))
  | VerifyExchangeCall exchange => Ok (OneOperation (VerifyExchange (probe_spec exchange)))
  | ProbeDelayPlugin => Ok Probe
  end.

(** [ClientError::transport] *)
Definition transport_error (e : TransportError) : ClientError := mkClientError KTransport (te_message e).

(** What a call returns. *)
Inductive Answered := AObserved (o : Observed) | ANull | ABool (b : bool).

Definition answer_of (o : Observed) : result Answered ClientError :=
  match o with
  | OUnit (Err e) | OSize (Err e) | OMessage (Err e) | OPublish (Err e) => Err (transport_error e)
  | o => Ok (AObserved o)
  end.

Section Broker.

Context {C : Type}.
Variable answer : forall m, list (Method * bool) -> result (Reply C m) Lapin.LapinError.
Variable confirmation : C -> list (Method * bool) -> result Lapin.Confirmation Lapin.LapinError.
Variable sha256 : string -> string.
Variable v : ValidatedConfig.
Variable broker : string.

(** What the [i]-th [admin_channel] of the call answers. *)
Variable channel : nat -> result unit ClientError.

Abbreviation Log := (list (Method * bool)).

(** ** The client *)

Definition one_operation (op : TransportOperation) (log : Log) : result Answered ClientError * Log :=
  match channel 0 with
  | Err e => (Err e, log)
  | Ok _ =>
      match call (logging answer) (resolving confirmation) op log with
      | Some (o, log) => (answer_of o, log)
      | None => (Err (mkClientError KTransport EmptyString), log)
      end
  end.

(** The bucket queues that [clear_route] sweeps, in its order. *)
Definition swept_buckets (queue : string) : list string :=
  match strategy_compile (v_delay v) with
  | PluginStrategy => []
  | TtlBuckets plan =>
      d ← clear_route_destinations v broker queue; b ← buckets plan;
      match queue_for sha256 plan d b with Ok spec => [q_name spec] | Err _ => [] end
  end.

(** A channel per bucket; a bucket that is gone is skipped. *)
Fixpoint purge_buckets (names : list string) (i : nat) (log : Log) : result Answered ClientError * Log :=
  match names with
  | [] => (Ok ANull, log)
  | name :: names' =>
      match channel i with
      | Err e => (Err e, log)
      | Ok _ =>
          let '(r, log) := purge_queue (logging answer) name log in
          match r with
          | Ok _ => purge_buckets names' (S i) log
          | Err e => if decide (te_kind e = Protocol) then purge_buckets names' (S i) log else (Err (transport_error e), log)
          end
      end
  end.

Definition clear_route (queue : string) (log : Log) : result Answered ClientError * Log :=
  match channel 0 with
  | Err e => (Err e, log)
  | Ok _ =>
      let '(r, log) := purge_queue (logging answer) queue log in
      match r with
      | Err e => (Err (transport_error e), log)
      | Ok _ => purge_buckets (swept_buckets queue) 1 log
      end
  end.

(** A stale probe exchange is deleted first, whatever that answers. *)
Definition probe_delay_plugin (log : Log) : result Answered ClientError * Log :=
  let log := match channel 0 with
             | Ok _ => (delete_exchange (logging answer) DELAY_PROBE_EXCHANGE log).2
             | Err _ => log
             end in
  match channel 1 with
  | Err e => (Err e, log)
  | Ok _ =>
      let '(r, log) := declare_exchange (logging answer) ClientPool.probe_spec false log in
      match r with
      | Ok _ => (Ok (ABool true), (delete_exchange (logging answer) DELAY_PROBE_EXCHANGE log).2)
      | Err e => if delay_plugin_absent e then (Ok (ABool false), log) else (Err (transport_error e), log)
      end
  end.

Definition perform_job (j : Job) : Log -> result Answered ClientError * Log :=
  match j with
  | OneOperation op => one_operation op
  | ClearRoute queue => clear_route queue
  | Probe => probe_delay_plugin
  end.

(** ** The pool object *)

(** The call; [flushed] and [surfaced] are what the publish buffer ends with, [is_open] is
    the lifecycle of the client. *)
Definition admin (c : AdminCall) (p : Pool) (flushed surfaced : PhpResult unit) (is_open : bool) (log : Log)
  : PhpResult Answered * Log :=
  match ensure_open (name_of c) p with
  | Err e => (Err e, log)
  | Ok _ =>
      match (if flushes c then let? _ := flushed in surfaced else Ok tt) with
      | Err e => (Err e, log)
      | Ok _ =>
          match job_of c with
          | Err e => (Err e, log)
          | Ok j =>
              if negb is_open then (Err (client_exception client_closed_error), log)
              else let '(r, log) := perform_job j log in (map_err client_exception r, log)
          end
      end
  end.

(** ** What is on the wire *)

(** The refusal of the [i]-th method sent after [log]. *)
Definition refusal (log sent : Log) (i : nat) (e : TransportError) : Prop :=
  exists m x, sent !! i = Some (m, false) /\ answer m (log ++ take i sent) = Err x /\ e = Lapin.map_lapin_error x.

Definition tolerated (log sent : Log) : Prop :=
  forall i m, sent !! i = Some (m, false) -> exists e, refusal log sent i e /\ te_kind e = Protocol.

Definition purge_of (name : string) : Method := QueuePurge name false.
Definition probe_delete : Method := ExchangeDelete DELAY_PROBE_EXCHANGE false false.
Definition probe_declare : Method := ExchangeDeclare DELAY_PROBE_EXCHANGE "x-delayed-message" false true false false false
  (Lapin.exchange_arguments ClientPool.probe_spec).2.

(** A channel that was not opened, or a refusal, ends the call. *)
Definition ended (log sent : Log) (ce : ClientError) : Prop :=
  (exists i, channel i = Err ce) \/ exists i e, S i = length sent /\ refusal log sent i e /\ ce = transport_error e.

Definition on_wire (j : Job) (log sent : Log) (r : result Answered ClientError) : Prop :=
  match j with
  | OneOperation op =>
      match r with
      | Ok a => exists o, a = AObserved o /\ sent_by op o sent /\ forallb (fun x => x.2) sent = true
      | Err ce => sent = [] /\ channel 0 = Err ce \/
          exists o, sent_by op o sent /\ failed o = true /\ cle_kind ce = KTransport
      end
  | ClearRoute queue =>
      let purges := purge_of <$> queue :: swept_buckets queue in
      match r with
      | Ok a => a = ANull /\ sent.*1 = purges /\ head sent = Some (purge_of queue, true) /\ tolerated log sent
      | Err ce => sent.*1 `prefix_of` purges /\ ended log sent ce
      end
  | Probe =>
      let stale := match channel 0 with Ok _ => [probe_delete] | Err _ => [] end in
      match r with
      | Ok (ABool true) => sent.*1 = stale ++ [probe_declare; probe_delete] /\ sent !! length stale = Some (probe_declare, true)
      | Ok (ABool false) => sent.*1 = stale ++ [probe_declare] /\
          exists e, refusal log sent (length stale) e /\ delay_plugin_absent e = true
      | Ok _ => False
      | Err ce => sent.*1 `prefix_of` stale ++ [probe_declare] /\ ended log sent ce
      end
  end.

Lemma send_unit_sent m log r log' :
  send_unit (logging answer) m log = (r, log') ->
  log' = log ++ [(m, is_ok r)] /\ forall e, r = Err e -> exists x, answer m log = Err x /\ e = Lapin.map_lapin_error x.
Proof.
  unfold send_unit, send, logging. destruct (answer m log) as [y|x] eqn:E; intros [= <- <-]; (split; [done|]); [done|].
  intros e [= <-]. by exists x.
Qed.

Lemma refusal_last log m e x :
  answer m log = Err x -> e = Lapin.map_lapin_error x -> refusal log [(m, false)] 0 e.
Proof. intros H ->. exists m, x. cbn. by rewrite app_nil_r. Qed.

(** The refusals of what is sent later. *)
Lemma refusal_shift log sent y i e : refusal (log ++ [y]) sent i e -> refusal log (y :: sent) (S i) e.
Proof. intros (m & x & H1 & H2 & H3). exists m, x. cbn. by rewrite <- app_assoc in H2. Qed.

Lemma ended_shift log sent y ce : ended (log ++ [y]) sent ce -> ended log (y :: sent) ce.
Proof.
  intros [H|(i & e & H1 & H2 & H3)]; [by left|]. right. exists (S i), e. split; [cbn; lia|].
  split; [by apply refusal_shift|done].
Qed.

Lemma tolerated_shift log sent y :
  (y.2 = false -> exists e, refusal log (y :: sent) 0 e /\ te_kind e = Protocol) ->
  tolerated (log ++ [y]) sent -> tolerated log (y :: sent).
Proof.
  intros Hy H [|i] m; cbn.
  - intros [= ->]. by apply Hy.
  - intros Hi. destruct (H i m Hi) as (e & He & Hk). exists e. split; [by apply refusal_shift|done].
Qed.

Lemma purge_buckets_wire names : forall i log r log',
  purge_buckets names i log = (r, log') ->
  exists sent, log' = log ++ sent /\
    match r with
    | Ok a => a = ANull /\ sent.*1 = purge_of <$> names /\ tolerated log sent
    | Err ce => sent.*1 `prefix_of` (purge_of <$> names) /\ ended log sent ce
    end.
Proof.
  induction names as [|name names IH]; intros i log r log'; cbn [purge_buckets].
  { intros [= <- <-]. exists []. rewrite app_nil_r. split; [done|]. split; [done|]. split; [done|]. by intros i' m. }
  destruct (channel i) as [[]|ce] eqn:Ec.
  2: { intros [= <- <-]. exists []. rewrite app_nil_r. split; [done|]. split; [apply prefix_nil|]. left. by exists i. }
  destruct (purge_queue _ name log) as [r1 log1] eqn:E. apply send_unit_sent in E as [-> Hx].
  set (y := (QueuePurge name false, is_ok r1)) in *.
  assert ((y.2 = false -> exists e, refusal log (y :: []) 0 e /\ te_kind e = Protocol) ->
    purge_buckets names (S i) (log ++ [y]) = (r, log') -> exists sent, log' = log ++ sent /\
      match r with
      | Ok a => a = ANull /\ sent.*1 = purge_of <$> name :: names /\ tolerated log sent
      | Err ce => sent.*1 `prefix_of` (purge_of <$> name :: names) /\ ended log sent ce
      end) as Hgo.
  { intros Hy (sent & -> & Hs)%IH. exists (y :: sent). rewrite <- app_assoc. split; [done|]. destruct r as [a|ce].
    - destruct Hs as (-> & Hs & Ht). split; [done|]. cbn. rewrite Hs. split; [done|]. apply tolerated_shift; [|done].
      intros Hf. destruct (Hy Hf) as (e & (m & x & H1 & H2 & H3) & Hk). exists e. split; [|done]. exists m, x. done.
    - destruct Hs as [Hs He]. split; [|by apply ended_shift]. cbn. by apply prefix_cons. }
  destruct r1 as [[]|e]; [by apply Hgo|]. destruct (Hx e eq_refl) as (x & Ha & ->). case_decide.
  - apply Hgo. intros _. eexists. split; [by eapply refusal_last|done].
  - intros [= <- <-]. exists [y]. split; [done|]. split; [apply prefix_cons, prefix_nil|]. right.
    eexists 0%nat, _. split; [done|]. split; [by eapply refusal_last|done].
Qed.

Lemma clear_route_wire queue log r log' :
  clear_route queue log = (r, log') -> exists sent, log' = log ++ sent /\ on_wire (ClearRoute queue) log sent r.
Proof.
  unfold clear_route. destruct (channel 0) as [[]|ce] eqn:Ec.
  2: { intros [= <- <-]. exists []. rewrite app_nil_r. split; [done|]. split; [apply prefix_nil|]. left. by exists 0%nat. }
  destruct (purge_queue _ queue log) as [[[]|e] log1] eqn:E; apply send_unit_sent in E as [-> Hx].
  - intros (sent & -> & Hs)%purge_buckets_wire. exists ((QueuePurge queue false, true) :: sent). rewrite <- app_assoc. split; [done|].
    destruct r as [a|ce]; cbn.
    + destruct Hs as (-> & Hs & Ht). rewrite Hs. split_and!; try done. by apply tolerated_shift.
    + destruct Hs as [Hs He]. split; [by apply prefix_cons|by apply ended_shift].
  - intros [= <- <-]. destruct (Hx e eq_refl) as (x & Ha & ->). exists [(QueuePurge queue false, false)]. split; [done|].
    split; [apply prefix_cons, prefix_nil|]. right. eexists 0%nat, _. split; [done|]. split; [by eapply refusal_last|done].
Qed.

(** From the declaration of the probe on, after [stale]. *)
Lemma probe_wire log r log' :
  probe_delay_plugin log = (r, log') -> exists sent, log' = log ++ sent /\ on_wire Probe log sent r.
Proof.
  unfold probe_delay_plugin. set (log0 := match channel 0 with Ok _ => _ | Err _ => log end).
  assert (exists stale, log0 = log ++ stale /\ stale.*1 = match channel 0 with Ok _ => [probe_delete] | Err _ => [] end) as (stale & -> & Hs).
  { unfold log0. destruct (channel 0); [|by exists []; rewrite app_nil_r].
    destruct (delete_exchange _ _ log) as [r0 l0] eqn:E. apply send_unit_sent in E as [-> _]. by eexists. }
  assert (length (match channel 0 with Ok _ => [probe_delete] | Err _ => [] end) = length stale) as Hl by (by rewrite <- Hs, length_fmap).
  cbn [on_wire]. rewrite Hl. rewrite <- Hs. clear Hl Hs. destruct (channel 1) as [[]|ce] eqn:Ec.
  2: { intros [= <- <-]. exists stale. split; [done|]. split; [by apply prefix_app_r|]. left. by exists 1%nat. }
  assert (forall x e, answer probe_declare (log ++ stale) = Err x -> e = Lapin.map_lapin_error x ->
    refusal log (stale ++ [(probe_declare, false)]) (length stale) e) as Hr.
  { intros x e Ha He. exists probe_declare, x. rewrite lookup_app_r, Nat.sub_diag by lia. by rewrite take_app_length. }
  destruct (declare_exchange _ _ _ _) as [[[]|e] log1] eqn:E; apply send_unit_sent in E as [-> Hx].
  - destruct (delete_exchange _ _ _) as [r0 l0] eqn:E2. apply send_unit_sent in E2 as [-> _]. intros [= <- <-].
    exists (stale ++ [(probe_declare, true); (probe_delete, is_ok r0)]). rewrite <- !app_assoc. split; [done|].
    rewrite fmap_app. split; [done|]. by rewrite lookup_app_r, Nat.sub_diag by lia.
  - destruct (Hx e eq_refl) as (x & Ha & ->). destruct (delay_plugin_absent _) eqn:Ed; intros [= <- <-];
      exists (stale ++ [(probe_declare, false)]); rewrite <- !app_assoc; (split; [done|]); rewrite fmap_app; (split; [done|]).
    + eexists. split; [by eapply Hr|done].
    + right. eexists (length stale), _. split; [rewrite length_app; cbn; lia|]. split; [by eapply Hr|done].
Qed.

Lemma job_called c op log :
  job_of c = Ok (OneOperation op) ->
  op <> CloseConnection /\ exists o log', call (logging answer) (resolving confirmation) op log = Some (o, log').
Proof.
  destruct c; cbn; try done.
  - intros [= <-]. split; [done|]. cbn [call]. match goal with |- context [let '(_, _) := ?x in _] => destruct x end. by eexists _, _.
  - intros [= <-]. split; [done|]. cbn [call]. match goal with |- context [let '(_, _) := ?x in _] => destruct x end. by eexists _, _.
  - destruct (queue_kind kind); [|done]. intros [= <-]. split; [done|]. by eexists _, _.
  - intros [= <-]. split; [done|]. by eexists _, _.
  - intros [= <-]. split; [done|]. by eexists _, _.
  - intros [= <-]. split; [done|]. by eexists _, _.
Qed.

Lemma answer_of_failed o :
  match answer_of o with
  | Ok a => a = AObserved o /\ failed o = false
  | Err e => failed o = true /\ cle_kind e = KTransport
  end.
Proof. by destruct o as [[[]|]|[]|[]|[]]. Qed.

Lemma one_operation_wire c op log r log' :
  job_of c = Ok (OneOperation op) -> one_operation op log = (r, log') ->
  exists sent, log' = log ++ sent /\ on_wire (OneOperation op) log sent r.
Proof.
  intros Hj. unfold one_operation. destruct (channel 0) as [[]|ce] eqn:Ec.
  2: { intros [= <- <-]. exists []. rewrite app_nil_r. split; [done|]. by left. }
  destruct (job_called c op log Hj) as (Hc & o & l & E). rewrite E.
  destruct (call_sends answer confirmation op log o l Hc E) as (sent & -> & Hs). intros [= <- <-]. exists sent. split; [done|].
  pose proof (answer_of_failed o) as Ho. destruct (answer_of o) as [a|e]; cbn.
  - destruct Ho as [-> Hf]. exists o. split; [done|]. split; [done|]. destruct Hs as (Hf' & _). rewrite Hf in Hf'. symmetry in Hf'.
    clear -Hf'. induction sent as [|[m []] sent IH]; cbn in *; [done|by apply IH|done].
  - destruct Ho as [Hf Hk]. right. by exists o.
Qed.

Lemma perform_job_wire c j log r log' :
  job_of c = Ok j -> perform_job j log = (r, log') -> exists sent, log' = log ++ sent /\ on_wire j log sent r.
Proof.
  intros Hj. destruct j; cbn [perform_job]; [by eapply one_operation_wire|apply clear_route_wire|apply probe_wire].
Qed.

(** The methods of a call that can change the topology. *)
Definition may_alter (c : AdminCall) (m : Method) : Prop :=
  match c with
  | DeclareQueueCall _ _ _ | BindQueueCall _ _ _ | DeleteQueueCall _ => True
  | ProbeDelayPlugin => m = probe_delete \/ m = probe_declare
  | _ => False
  end.

Lemma alters_only c j log sent r m b :
  job_of c = Ok j -> on_wire j log sent r -> (m, b) ∈ sent -> alters m = true -> may_alter c m.
Proof.
  intros Hj Hw Hin Ha. assert (m ∈ sent.*1) as Hm by (apply list_elem_of_fmap; by exists (m, b)).
  destruct j as [op|queue|].
  - assert (forall o, sent_by op o sent -> alters_topology op = true) as Hs.
    { intros o (_ & _ & Hx & _). rewrite <- Hx. apply existsb_exists. exists (m, b). split; [by apply list_elem_of_In|done]. }
    assert (alters_topology op = true) as Ht.
    { destruct r as [a|ce]; cbn in Hw; [destruct Hw as (o & _ & Ho & _); by apply (Hs o)|].
      destruct Hw as [[-> _]|(o & Ho & _)]; [by apply elem_of_nil in Hin|by apply (Hs o)]. }
    destruct c; cbn in Hj; try done; by injection Hj as <-.
  - assert (sent.*1 `prefix_of` (purge_of <$> queue :: swept_buckets queue)) as [k Hk].
    { destruct r as [a|ce]; cbn in Hw; [destruct Hw as (_ & -> & _); done|by destruct Hw]. }
    assert (m ∈ purge_of <$> queue :: swept_buckets queue) as Hp by (rewrite Hk; apply elem_of_app; by left).
    apply list_elem_of_fmap in Hp as (n & -> & _). done.
  - assert (m = probe_delete \/ m = probe_declare) as Hp.
    { set (stale := match channel 0 with Ok _ => [probe_delete] | Err _ => [] end) in *.
      assert (sent.*1 `prefix_of` stale ++ [probe_declare; probe_delete]) as [k Hk].
      { destruct r as [[o| |[]]|ce]; cbn in Hw; try done; destruct Hw as [Hw _].
        - by rewrite Hw.
        - rewrite Hw. apply prefix_app. by exists [probe_delete].
        - etrans; [exact Hw|]. apply prefix_app. by exists [probe_delete]. }
      assert (m ∈ stale ++ [probe_declare; probe_delete]) as Hx by (rewrite Hk; apply elem_of_app; by left).
      unfold stale in Hx. destruct (channel 0); set_solver. }
    destruct c; cbn in Hj; try done.
Qed.


End Broker.

(** [clear] of a queue with a bucket that is gone, on a broker that knows every other queue. *)
Definition gone_answer (m : Method) (log : list (Method * bool)) : result (Reply nat m) Lapin.LapinError :=
  match m as m return result (Reply nat m) Lapin.LapinError with
  | QueuePurge name _ => if String.eqb name "jobs" then Ok 7 else Err no_queue
  | ExchangeDeclare _ _ _ _ _ _ _ _ => Err (Lapin.mkLapinError (Lapin.ProtocolError 540) false "NOT_IMPLEMENTED")
  | m => toy_answer m log
  end.

Definition ttl_config : ValidatedConfig :=
  Config.mkValidated [] [] TopologyPlan.ModeDeclare []
    (DelayTopology.mkDelayConfig DelayTopology.Ttl [from_secs 5] 8 (from_secs 60)) None None
    (Config.mkPublisherSection Publication.Safe true true (from_secs 5) 0)
    (Config.mkConsumerSection (from_secs 1) None) Quorum true "".

Abbreviation gone_admin c := (admin gone_answer toy_confirmation (fun s => s) ttl_config "main" (fun _ => Ok tt) c
  PhpPool.open_pool (Ok tt) (Ok tt) true []).


End PhpAdmin.
