(* ===== verification/ConfigWire.v ===== *)
(** * Configuration defaults and hand-written deserialization

    Models the parts of [config.rs] between serde's derived code and validation: the
    default sections and keys, the two notations of a prefetch setting, the units of
    durations, and the debug output of credentials. Serde hands over parsed values; a
    missing key is [None]. *)

From S2P Require Import Prelude Transport Publication DelayTopology TopologyPlan ConsumerActor Config.
Import Transport Publication DelayTopology TopologyPlan Config.
Local Open Scope Z_scope.
Local Open Scope rabbit_scope.

Module ConfigWire.

(** ** Durations *)

Definition deserialize_duration_seconds (seconds : Z) : Z := from_secs seconds.
Definition deserialize_duration_seconds_opt (seconds : option Z) : option Z := from_secs <$> seconds.
Definition deserialize_duration_millis (millis : Z) : Z := from_millis millis.
Definition deserialize_duration_seconds_vec (seconds : list Z) : list Z := from_secs <$> seconds.

(** A number of the configuration is a [u64]; none of them is too long a duration. *)
Lemma durations_fit n : 0 <= n <= U64_MAX ->
  0 <= deserialize_duration_seconds n <= DURATION_MAX /\ 0 <= deserialize_duration_millis n <= DURATION_MAX.
Proof.
  unfold deserialize_duration_seconds, deserialize_duration_millis, from_secs, from_millis, DURATION_MAX, NANOS_PER_SEC, NANOS_PER_MILLI, U64_MAX. lia.
Qed.

(** ** Defaults *)

Definition delay_default : DelayConfig :=
  mkDelayConfig Auto [from_secs 1; from_secs 5; from_secs 30; from_secs 120] 8 (from_secs 60).
Definition publisher_default : PublisherConfigSection := mkPublisherSection Safe true true (from_secs 30) (from_millis 1).
Definition DEFAULT_MAX_ATTEMPTS : Z := 20.
Definition default_max_attempts : option Z := Some DEFAULT_MAX_ATTEMPTS.
Definition consumer_default : ConsumerConfigSection := mkConsumerSection (from_secs 30) default_max_attempts.
Definition default_route_routing_key : string := "{queue}".
Definition default_queue_type : QueueKind := Quorum.
Definition default_true : bool := true.

(** Every default section passes its validation, and the defaults publish safely. *)
Lemma default_sections_valid :
  validate_delay delay_default = Ok tt /\ validate_publisher publisher_default = Ok tt /\
  validate_consumer consumer_default = Ok tt /\ effective_safety publisher_default = Safe.
Proof. by vm_compute. Qed.

(** ** Prefetch settings *)

Inductive PrefetchMode := ModeFixed | ModeAdaptive.

Record PrefetchMap := mkPrefetchMap {
  pm_mode : PrefetchMode;
  pm_value : option Z;
  pm_initial : option Z;
  pm_min : option Z;
  pm_max : option Z;
  pm_target_buffer : option Z
}.

Inductive Wire := Plain (value : Z) | Mapped (map : PrefetchMap).

(** [PrefetchConfig::deserialize]; an error is the name of the missing field. *)
Definition prefetch_deserialize (w : Wire) : result PrefetchConfig string :=
  match w with
  | Plain value => Ok (Fixed value)
  | Mapped map =>
      match pm_mode map with
      | ModeFixed => let? value := ok_or (pm_value map) "value" in Ok (Fixed value)
      | ModeAdaptive =>
          let? initial := ok_or (pm_initial map) "initial" in
          let? min := ok_or (pm_min map) "min" in
          let? max := ok_or (pm_max map) "max" in
          let? target_buffer := ok_or (pm_target_buffer map) "target_buffer_seconds" in
          Ok (Adaptive initial min max target_buffer)
      end
  end.

(** The notation of a setting: [None] for a key that does not belong to the mode. *)
Definition prefetch_serialize (p : PrefetchConfig) : Wire :=
  match p with
  | ConsumerActor.Fixed value => Plain value
  | ConsumerActor.Adaptive initial min max target => Mapped (mkPrefetchMap ModeAdaptive None (Some initial) (Some min) (Some max) (Some target))
  end.

Lemma prefetch_roundtrip p : prefetch_deserialize (prefetch_serialize p) = Ok p.
Proof. by destruct p. Qed.

(** Both notations of a fixed window mean the same, whatever adaptive keys stand next to
    the value. *)
Lemma fixed_notations value initial min max target :
  prefetch_deserialize (Mapped (mkPrefetchMap ModeFixed (Some value) initial min max target)) = prefetch_deserialize (Plain value).
Proof. done. Qed.

(** The keys the mode requires, and the value of a key. *)
Definition required (m : PrefetchMode) : list (string * (PrefetchMap -> option Z)) :=
  match m with
  | ModeFixed => [("value", pm_value)]
  | ModeAdaptive => [("initial", pm_initial); ("min", pm_min); ("max", pm_max); ("target_buffer_seconds", pm_target_buffer)]
  end.

(** A mapped setting is refused exactly when a key of its mode is missing, and the error
    names the first one. *)
Lemma prefetch_missing_field map :
  match prefetch_deserialize (Mapped map) with
  | Ok _ => Forall (fun k => is_Some (k.2 map)) (required (pm_mode map))
  | Err name => exists pre get post, required (pm_mode map) = pre ++ (name, get) :: post /\ get map = None /\ Forall (fun k => is_Some (k.2 map)) pre
  end.
Proof.
  destruct map as [[] value initial min max target]; cbn.
  - destruct value as [v|]; cbn; [by repeat constructor; eexists|]. by exists [], pm_value, [].
  - destruct initial as [i|]; cbn; [|by exists [], pm_initial, (tail (required ModeAdaptive))].
    destruct min as [mi|]; cbn; [|exists (take 1 (required ModeAdaptive)), pm_min, (drop 2 (required ModeAdaptive)); repeat constructor; by eexists].
    destruct max as [ma|]; cbn; [|exists (take 2 (required ModeAdaptive)), pm_max, (drop 3 (required ModeAdaptive)); repeat constructor; by eexists].
    destruct target as [t|]; cbn; [repeat constructor; by eexists|].
    exists (take 3 (required ModeAdaptive)), pm_target_buffer, []. repeat constructor; by eexists.
Qed.

(** ** Debug output *)

(** The fields the [Debug] implementation of [Credentials] prints. *)
Definition credentials_debug (c : Credentials) : list (string * string) := [("username", username c); ("password", "[REDACTED]")].

(** Credentials that differ in the password look the same. *)
Lemma password_redacted user p1 p2 : credentials_debug (mkCredentials user p1) = credentials_debug (mkCredentials user p2).
Proof. done. Qed.

End ConfigWire.
