(* ===== verification/Log.v ===== *)
(** * The diagnostics facade

    Models [log.rs]: the process-wide sink that is installed once, and the records that
    the core emits through it. *)

From S2P Require Import Prelude.
Local Open Scope Z_scope.

Module Log.

Inductive Level := Info | Warn | Error.

(** The derived order. *)
Definition level_rank (l : Level) : Z := match l with Info => 0 | Warn => 1 | Error => 2 end.
Definition as_str (l : Level) : string := match l with Info => "info" | Warn => "warn" | Error => "error" end.

Record LogRecord := mkRecord { r_level : Level; r_target : string; r_message : string }.

(** [SINK] and, for each sink, what it received. *)
Record Facade := mkFacade { sink : option nat; received : list (nat * LogRecord) }.

Definition facade_init : Facade := mkFacade None [].

(** [OnceLock::set]: [true] for the call that installed its sink. *)
Definition install (s : nat) (f : Facade) : bool * Facade :=
  match sink f with
  | None => (true, mkFacade (Some s) (received f))
  | Some _ => (false, f)
  end.

Definition emit (level : Level) (target message : string) (f : Facade) : Facade :=
  match sink f with
  | None => f
  | Some s => mkFacade (sink f) (received f ++ [(s, mkRecord level target message)])
  end.

Definition error : string -> string -> Facade -> Facade := emit Error.
Definition warn : string -> string -> Facade -> Facade := emit Warn.
Definition info : string -> string -> Facade -> Facade := emit Info.

(** A call of the facade; [set] and [get] of the lock are atomic. *)
Inductive Call := CInstall (s : nat) | CEmit (r : LogRecord).

Definition run_call (f : Facade) (c : Call) : Facade :=
  match c with
  | CInstall s => (install s f).2
  | CEmit r => emit (r_level r) (r_target r) (r_message r) f
  end.

Definition emitted (cs : list Call) : list LogRecord := omap (fun c => match c with CEmit r => Some r | _ => None end) cs.

(** The calls up to the first installation. *)
Fixpoint first_install (cs : list Call) : option (nat * list Call) :=
  match cs with
  | [] => None
  | CInstall s :: rest => Some (s, rest)
  | CEmit _ :: rest => first_install rest
  end.

Lemma installed_receives cs s l :
  foldl run_call (mkFacade (Some s) l) cs = mkFacade (Some s) (l ++ (pair s <$> emitted cs)).
Proof.
  revert l. induction cs as [|[s'|[lv t m]] cs IH]; intros l; cbn; [by rewrite app_nil_r|apply IH|].
  rewrite IH. cbn. by rewrite <- app_assoc.
Qed.

(** The first sink that is installed receives every record emitted from then on, once
    and in order; no other sink receives anything, and what was emitted before is
    dropped. *)
Theorem first_sink_wins cs :
  foldl run_call facade_init cs =
    match first_install cs with
    | Some (s, rest) => mkFacade (Some s) (pair s <$> emitted rest)
    | None => facade_init
    end.
Proof.
  unfold facade_init. induction cs as [|[s|r] cs IH]; cbn; [done| |exact IH]. by rewrite installed_receives.
Qed.

End Log.
